(* ===== verification/_CoqProject ===== *)
-Q . S2P
Prelude.v
Fs.v
StateFs.v
Checksum.v
Framing.v
InternalKey.v
Batch.v
ValueRecord.v
Snapshot.v
Mvcc.v
MemTable.v
Iter.v
IterFacts.v
Version.v
Wal.v
BlockCache.v
Options.v
ManifestCodec.v
Manifest.v
ManifestLog.v
ManifestSet.v
ManifestBoot.v
ManifestCrash.v
ManifestInspect.v
WalFs.v
Bloom.v
Format.v
Block.v
TableBuilder.v
TableReader.v
TableRoundtrip.v
TableBounds.v
TableOpen.v
TableLookups.v
TableStore.v
TableInspect.v
Compaction.v
CompactionRun.v
Engine.v
EngineOps.v
EngineOpen.v
EngineRead.v
EngineEdits.v
EngineFrame.v
EngineHistory.v
EngineLogs.v
EngineInv.v
EngineCompact.v
EngineWrite.v
EngineFlush.v
EngineReclaim.v
EngineMaintain.v
EngineDir.v
EngineReplay.v
EngineRecover.v
EngineKeep.v
EngineWorld.v
EngineReaders.v
EngineRefine.v
EngineRestart.v
EngineCorrect.v
FlushSignal.v
KvStore.v
KvEngine.v
MemStore.v
StoreKeys.v
PostcardWire.v
FeatureStore.v
EmbeddingStore.v
InferenceCache.v
InferenceFlight.v
WorkloadEngine.v
