(* ===== verification/Prelude.v ===== *)
(** * MeteorDB: a verification library for the storage engine

    MeteorDB (src/crates/meteordb/src) is an embedded key-value store in the style of
    a log-structured merge tree.  A write batch gets a sequence number, is appended to
    a write-ahead log and applied to the mutable memtable; a full memtable becomes
    immutable, gets a log of its own and is flushed by a worker into a sorted table of
    level 0; compactions merge tables into deeper levels.  The set of live tables is a
    version, and versions change by edits that are appended to a manifest.  A read at
    a sequence looks through the memtables and the tables of a version, newest first;
    snapshots pin sequences, readers in flight pin versions.

    The library models these parts as executable definitions in the order in which
    they depend on each other, and proves what each promises to the next.

    ** Files

    - [Prelude]: errors ([error.rs]) and results, integers at their widths, byte
      strings and their order, ordered maps, the tactics and hints used throughout.
    - [Fs]: the test file system [FaultyFs] of [fs.rs]: volatile, synchronized and
      durable content, a fault at a numbered call, crashes.  [wpf g m i Q E] says what
      a computation does from the image [i]: with [g = false] no call fails, with
      [g = true] any call may, and [E] holds of the image wherever it stops.
    - [StateFs]: computations that also change a state of the program, with the rules
      [cwpf] (as [wpf]) and [swp] (no call fails, the program's own errors are kept).
    - [Checksum], [Framing]: masked CRC-32C and the 32 KiB blocks with fragment headers
      that the log and the manifest share ([wal.rs], [manifest.rs]).  CRC-32C is a
      third-party crate: the class [Crc32c], with an executable instance.
    - [InternalKey], [Batch], [ValueRecord], [MemTable]: [internal_key.rs], [batch.rs],
      [memtable.rs].
    - [Snapshot]: the registry of [snapshot.rs].  [Mvcc]: the specification that reads
      are held against: histories of batches and the newest visible version.
    - [Iter], [IterFacts]: [iter.rs], the heap merge and the iterator of live pairs.
    - [Version]: [version.rs].  [Options]: [options.rs] and [clock.rs].
    - [Wal], [WalFs]: [wal.rs] on byte strings and through the file system.
    - [ManifestCodec], [Manifest], [ManifestLog], [ManifestSet], [ManifestBoot],
      [ManifestCrash]: [manifest.rs], the codec of edits, the version set with every
      file-system call, and what survives a crash at any call.
    - [Bloom], [Format], [Block], [TableBuilder], [TableReader]: [bloom.rs] and
      [sstable/]; [TableRoundtrip], [TableBounds], [TableOpen], [TableLookups],
      [TableStore] prove that what is built is what is read.  Snappy is a third-party
      crate: the class [Snappy] with the laws [SnappyLaws].
    - [Compaction], [CompactionRun]: [compaction.rs], the picker with its [f64] scores,
      plans, retention and the run itself.
    - [BlockCache]: [cache.rs] and [stats.rs], the block cache with its partitions, byte
      budgets and recency stamps.
    - [ManifestInspect], [TableInspect]: the read-only inspections of [manifest.rs] and
      [sstable/reader.rs] with their output limits.
    - [Engine], [EngineOps]: [engine.rs] and [background.rs]: the write state behind the
      mutex, reads, scans and snapshots; writes, synchronization, the worker's steps,
      compactions and the reclaiming of obsolete tables.  [EngineOpen]: opening a
      directory and the replay of its logs.
    - [EngineRead], [EngineEdits], [EngineFrame], [EngineInv], [EngineCompact],
      [EngineWrite], [EngineFlush], [EngineReclaim], [EngineMaintain]: the engine's
      invariant [engine_inv] and that every operation keeps it.
    - [EngineHistory], [EngineLogs], [EngineDir], [EngineReplay], [EngineRecover],
      [EngineKeep]: what the logs on disk hold, and that opening a directory that a
      power loss left restores the invariant.
    - [EngineWorld], [EngineReaders], [EngineRefine], [EngineRestart], [EngineCorrect]:
      worlds in which the critical sections of all operations interleave, with reads,
      scans and snapshots in flight and power losses between operations; the engine's
      main theorems.
    - [FlushSignal]: the worker thread of [background_loop], calls of [flush], the
      condition variables and the generation counter of [background.rs], the handle
      count of [Clone] and [Drop].
    - [KvStore]: the class of key-value stores that the workload adapters use, with its
      laws; [KvEngine] proves them of the engine, [MemStore] of a map in memory.
    - [StoreKeys], [FeatureStore], [EmbeddingStore], [InferenceCache],
      [InferenceFlight]: [workloads/], the three adapters over any lawful store; the
      last is [get_or_compute] as interleaved actions of its callers.  The postcard
      format is a third-party crate: the class [Postcard] with its laws, which
      [PostcardWire] gives an instance; blake3 is an argument.
    - [WorkloadEngine]: the adapters on top of the engine across power losses.

    ** Conventions

    A Rust integer is a [Z] with its bounds written where they matter; [checked_],
    [saturating_] and [wrapping] operations are those of [Prelude].  [Result] is
    [result], and a panic is the error [Panicked], so that a theorem that excludes
    errors excludes panics.  Loops that are not structural have fuel, and the theorems
    about them show that the fuel the caller passes is enough.  A method [f] of a type
    [T] is [f], or [T_f] where several types have one.  Time is an argument: what the
    engine's clock returned.

    ** What the theorems show

    - Codecs: every encoder has an exact decoder (keys, batches, edits, values, blocks,
      handles, tables), also on arbitrary bytes.
    - Logs: what a crash leaves of a log replays to the complete records; inspection
      agrees with replay; the manifest's reopened state is that of the acknowledged
      edits, whatever calls failed.
    - Tables: what is built is what iteration and lookups find, within the limits that
      the reader is given.
    - Memtable, merge and scan: they refine the history of batches.
    - Compaction: plans are closed, retention and the whole run are invisible to
      protected readers, and a failed run loses nothing.
    - Engine: after any interleaving of operations and power losses, point reads, scans
      and snapshots return what the history of acknowledged batches says, a read in
      flight returns what it said when it started, and a power loss keeps everything
      that was reported durable.
    - Threads: the worker and the flushes come to rest, and unless the engine has failed
      every flush has then returned; a reachable state shows a flush that a failure of
      another call leaves asleep.
    - Inspection: it succeeds exactly when recovery or a full read does, and its
      document is a truthful part of what they find, within the limits.
    - Caches: the block cache is a list of least recently used blocks per partition.
    - Workloads: the adapters implement maps from their keys to rows, embeddings and
      entries, also after a power loss; the flights of the inference cache share one
      computation and always end.

    ** Bounds and fuel

    Varints have at most ten bytes, and their loops ten rounds.  The fuel of a scan, an
    iteration, a plan and the writer of a fragmented record is computed from the length
    of the data; the theorems are about the calls with that fuel, and show that they
    return.  Power losses fall between operations, and within the manifest's and the
    compaction's operations also between any two file-system calls.  The theorem about
    the flush signals asks for fewer than 2^64 wake-ups, since the generation counter
    wraps around.  The calls of [InferenceFlight] are any number, and one thread may have
    several of them: that allows more interleavings than the program has.

    ** Not modelled

    The operating system behind [OsDurableFs], symbolic links and the directory lock
    (an argument of opening); the third-party crates CRC-32C, Snappy, postcard and
    blake3, which are parameters with laws; the reader's use of the block cache
    and of the statistics; the order of memory accesses of the atomic counters; the
    poisoning of mutexes; test hooks and tests inside the source files; the command line
    and the benchmarks, which parse arguments, print and measure around the library. *)

From Stdlib Require Import ZArith Lia Sorting.Sorted.
From stdpp Require Import base list gmap strings.

Local Open Scope Z_scope.

(** ** Errors and results (src/crates/meteordb/src/error.rs)

    [error] has the variants of the crate's [Error]; the payload of a variant
    keeps its structured fields, and the free-text [detail] keeps the constant
    part of the message only.  [Panicked] is not an [Error] of the crate: it is
    the outcome of an [expect], an index out of range or an arithmetic overflow
    check that aborts the thread, kept as a value so that theorems can show that
    it does not happen. *)

Inductive error : Type :=
| InvalidArgument (message : string)
| Io (operation path source : string)
| Corruption (context detail : string)
| UnsupportedFormat (kind : string) (version : Z)
| Reentrant (operation : string)
| Locked (path : string)
| Closed
| Background (message : string)
| WriteStall (immutable_memtables : Z)
| Panicked (message : string).

#[global] Instance error_eq_dec : EqDecision error.
Proof. solve_decision. Defined.

Inductive result (A : Type) : Type :=
| Ok (a : A)
| Err (e : error).
Arguments Ok {A} _.
Arguments Err {A} _.

Declare Scope result_scope.
Delimit Scope result_scope with result.

Notation "'let?' x ':=' c 'in' k" :=
  (match c with Ok x => k | Err e => Err e end)
  (at level 10, x pattern, c at level 100, k at level 200,
   format "'[v' 'let?'  x  ':='  c  'in' '/' k ']'") : result_scope.
#[global] Open Scope result_scope.

Lemma Ok_inj {A} (a b : A) : Ok a = Ok b → a = b.
Proof. by intros [=]. Qed.

Definition ok_or {A} (o : option A) (e : error) : result A :=
  match o with Some a => Ok a | None => Err e end.

Definition map_err {A} (f : error → error) (r : result A) : result A :=
  match r with Ok a => Ok a | Err e => Err (f e) end.

Definition is_ok {A} (r : result A) : bool :=
  match r with Ok _ => true | Err _ => false end.

(** [ensure b e] is the early return [if !b { return Err(e) }]. *)
Definition ensure (b : bool) (e : error) : result unit :=
  if b then Ok tt else Err e.

Fixpoint try_fold {A B} (f : B → A → result B) (b : B) (l : list A) : result B :=
  match l with
  | [] => Ok b
  | a :: l => let? b' := f b a in try_fold f b' l
  end.

Lemma try_fold_app {A B} (f : B → A → result B) b l1 l2 :
  try_fold f b (l1 ++ l2) = let? b' := try_fold f b l1 in try_fold f b' l2.
Proof. revert b. induction l1; intros b; cbn; [done|]. by destruct (f b a). Qed.

Fixpoint try_map {A B} (f : A → result B) (l : list A) : result (list B) :=
  match l with
  | [] => Ok []
  | a :: l => let? b := f a in let? bs := try_map f l in Ok (b :: bs)
  end.

(** [safely P r]: the computation does not panic, and what it returns satisfies
    [P]; an error value is allowed. *)
Definition safely {A} (P : A → Prop) (r : result A) : Prop :=
  match r with
  | Ok a => P a
  | Err (Panicked _) => False
  | Err _ => True
  end.

Lemma safely_bind {A B} (P : A → Prop) (Q : B → Prop) r (k : A → result B) :
  safely P r → (∀ a, P a → safely Q (k a)) → safely Q (let? a := r in k a).
Proof. destruct r as [a|[]]; cbn; auto. Qed.

Lemma safely_impl {A} (P Q : A → Prop) r : safely P r → (∀ a, P a → Q a) → safely Q r.
Proof. destruct r as [a|[]]; cbn; auto. Qed.

Lemma safely_ok {A} (P : A → Prop) r a : safely P r → r = Ok a → P a.
Proof. by intros H ->. Qed.

Lemma safely_no_panic {A} (P : A → Prop) r m : safely P r → r ≠ Err (Panicked m).
Proof. by intros H ->. Qed.

(** ** Machine integers

    A [u8], [u32], [u64] or [usize] is a [Z] in its range; [usize] has 64 bits.
    Every wrap-around, checked and saturating operation of the sources is
    written out with the functions below. *)

Definition U8_MAX : Z := 255.
Definition U16_MAX : Z := 65535.
Definition U32_MAX : Z := 4294967295.
Definition U64_MAX : Z := 18446744073709551615.
Definition USIZE_MAX : Z := U64_MAX.

Definition is_u8 (z : Z) : Prop := 0 ≤ z ≤ U8_MAX.
Definition is_u32 (z : Z) : Prop := 0 ≤ z ≤ U32_MAX.
Definition is_u64 (z : Z) : Prop := 0 ≤ z ≤ U64_MAX.

Definition wrap32 (z : Z) : Z := z mod 2 ^ 32.
Definition wrap64 (z : Z) : Z := z mod 2 ^ 64.

Definition checked_add (a b : Z) : option Z :=
  if a + b <=? USIZE_MAX then Some (a + b) else None.
Definition checked_sub (a b : Z) : option Z :=
  if b <=? a then Some (a - b) else None.
Definition checked_mul (a b : Z) : option Z :=
  if a * b <=? USIZE_MAX then Some (a * b) else None.
Definition saturating_add (a b : Z) : Z := Z.min (a + b) USIZE_MAX.
Definition saturating_sub (a b : Z) : Z := Z.max (a - b) 0.
Definition saturating_mul (a b : Z) : Z := Z.min (a * b) USIZE_MAX.

(** [rotate_right]/[rotate_left] of a [u32]. *)
Definition rotate_right32 (x n : Z) : Z :=
  Z.lor (Z.shiftr x n) (wrap32 (Z.shiftl x (32 - n))).
Definition rotate_left32 (x n : Z) : Z :=
  Z.lor (wrap32 (Z.shiftl x n)) (Z.shiftr x (32 - n)).

(** ** Byte strings *)

Abbreviation bytes := (list Z).

Definition zlen {A} (l : list A) : Z := Z.of_nat (length l).

Definition bytes_ok (l : bytes) : Prop := Forall is_u8 l.

#[global] Instance is_u8_dec z : Decision (is_u8 z).
Proof. unfold is_u8. apply _. Defined.
#[global] Instance is_u32_dec z : Decision (is_u32 z).
Proof. unfold is_u32. apply _. Defined.
#[global] Instance is_u64_dec z : Decision (is_u64 z).
Proof. unfold is_u64. apply _. Defined.
#[global] Instance bytes_ok_dec l : Decision (bytes_ok l).
Proof. unfold bytes_ok. apply _. Defined.

(** [l[a..b]] where the source has checked [a <= b <= l.len()]. *)
Definition slice {A} (a b : Z) (l : list A) : list A :=
  take (Z.to_nat (b - a)) (drop (Z.to_nat a) l).

(** [l.get(a..b)]: [None] when the range leaves the slice. *)
Definition get_range {A} (a b : Z) (l : list A) : option (list A) :=
  if (a <=? b) && (b <=? zlen l) then Some (slice a b l) else None.

(** [l.get(i)] *)
Definition get_at {A} (i : Z) (l : list A) : option A :=
  if i <? 0 then None else l !! Z.to_nat i.

(** [l[i]]: an out-of-range index panics. *)
Definition index_or_panic {A} (i : Z) (l : list A) : result A :=
  ok_or (get_at i l) (Panicked "index out of bounds").

(** [to_le_bytes] / [from_le_bytes] and their big-endian versions. *)
Fixpoint to_le (n : nat) (z : Z) : bytes :=
  match n with
  | O => []
  | S n => z mod 256 :: to_le n (z / 256)
  end.

Fixpoint from_le (l : bytes) : Z :=
  match l with
  | [] => 0
  | b :: l => b + 256 * from_le l
  end.

Definition to_be (n : nat) (z : Z) : bytes := reverse (to_le n z).
Definition from_be (l : bytes) : Z := from_le (reverse l).

(** Rust compares slices lexicographically, a strict prefix being smaller. *)
Fixpoint lex_cmp (a b : bytes) : comparison :=
  match a, b with
  | [], [] => Eq
  | [], _ :: _ => Lt
  | _ :: _, [] => Gt
  | x :: a, y :: b => match x ?= y with Eq => lex_cmp a b | c => c end
  end.

Definition lex_ltb (a b : bytes) : bool :=
  match lex_cmp a b with Lt => true | _ => false end.
Definition lex_leb (a b : bytes) : bool :=
  match lex_cmp a b with Gt => false | _ => true end.
Definition lex_eqb (a b : bytes) : bool :=
  match lex_cmp a b with Eq => true | _ => false end.

Declare Scope lex_scope.
Delimit Scope lex_scope with lex.
Infix "<?" := lex_ltb : lex_scope.
Infix "<=?" := lex_leb : lex_scope.
Infix "=?" := lex_eqb : lex_scope.

(** ** Ordered collections

    The sources keep ordered data in [BTreeMap]s and sorted vectors.  A
    comparison is a total preorder when it satisfies [TotalCmp]; [Eq] need not
    be Leibniz equality, because an [InternalKey] compares by its encoding. *)

Class TotalCmp {K : Type} (cmp : K → K → comparison) : Prop := {
  cmp_antisym : ∀ x y, cmp y x = CompOpp (cmp x y);
  cmp_trans : ∀ x y z, cmp x y = Lt → cmp y z = Lt → cmp x z = Lt;
  cmp_eq_l : ∀ x y z, cmp x y = Eq → cmp x z = cmp y z
}.

Section BTree.
  Context {K V : Type} (cmp : K → K → comparison).

(** [BTreeMap::insert]: replaces the value of an equal key (the map keeps the
    key it already has). *)
Fixpoint bt_insert (k : K) (v : V) (m : list (K * V)) : list (K * V) :=
  match m with
  | [] => [(k, v)]
  | (k', v') :: m' =>
    match cmp k k' with
    | Lt => (k, v) :: (k', v') :: m'
    | Eq => (k', v) :: m'
    | Gt => (k', v') :: bt_insert k v m'
    end
  end.

(** [BTreeMap::get] *)
Fixpoint bt_get (k : K) (m : list (K * V)) : option V :=
  match m with
  | [] => None
  | (k', v') :: m' =>
    match cmp k k' with Eq => Some v' | _ => bt_get k m' end
  end.

(** [BTreeMap::remove] *)
Fixpoint bt_remove (k : K) (m : list (K * V)) : list (K * V) :=
  match m with
  | [] => []
  | (k', v') :: m' =>
    match cmp k k' with Eq => m' | _ => (k', v') :: bt_remove k m' end
  end.

(** [BTreeMap::range(k..)]: the entries from the first key not below [k]. *)
Fixpoint bt_range_from (k : K) (m : list (K * V)) : list (K * V) :=
  match m with
  | [] => []
  | (k', v') :: m' =>
    match cmp k' k with Lt => bt_range_from k m' | _ => (k', v') :: m' end
  end.

Definition bt_lt (x y : K * V) : Prop := cmp x.1 y.1 = Lt.
Definition bt_sorted (m : list (K * V)) : Prop := StronglySorted bt_lt m.
End BTree.

(** ** Automation *)

Create Rewrite HintDb zlen.
Create HintDb mdb.

(** Destructs every [let?]/[if]/[match] scrutinee of a hypothesis that is an
    equation [_ = Ok _], closing the impossible branches. *)
Ltac destruct_inner x :=
  lazymatch x with
  | match ?y with _ => _ end => destruct_inner y
  | _ => let E := fresh "E" in destruct x eqn:E
  end.
Ltac inv_ok H :=
  repeat first
    [ discriminate H
    | match type of H with
      | (match ?x with _ => _ end) = _ => destruct_inner x
      end ]; try simplify_eq.

(** Closes a decidable proposition on concrete data by evaluating its decision. *)
Ltac eval_done := apply (bool_decide_unpack _); vm_compute; exact I.

(** Turns the boolean comparisons of the context into propositions. *)
Ltac to_prop :=
  repeat match goal with
  | H : (_ && _) = true |- _ => apply andb_prop in H as [? ?]
  | H : (_ && _) = false |- _ => apply andb_false_iff in H
  | H : (_ || _) = false |- _ => apply orb_false_elim in H as [? ?]
  | H : (_ || _) = true |- _ => apply orb_prop in H
  | H : negb _ = true |- _ => apply negb_true_iff in H
  | H : negb _ = false |- _ => apply negb_false_iff in H
  | H : (_ <=? _) = true |- _ => apply Z.leb_le in H
  | H : (_ <=? _) = false |- _ => apply Z.leb_gt in H
  | H : (_ <? _) = true |- _ => apply Z.ltb_lt in H
  | H : (_ <? _) = false |- _ => apply Z.ltb_ge in H
  | H : (_ =? _) = true |- _ => apply Z.eqb_eq in H
  | H : (_ =? _) = false |- _ => apply Z.eqb_neq in H
  | H : bool_decide _ = true |- _ => apply bool_decide_eq_true in H
  | H : bool_decide _ = false |- _ => apply bool_decide_eq_false in H
  end.

(** ** Lengths *)

Section Lengths.
  Context {A : Type}.
Implicit Types l : list A.

Lemma zlen_nonneg l : 0 ≤ zlen l.
Proof. unfold zlen. lia. Qed.
Lemma zlen_nil : zlen (@nil A) = 0.
Proof. done. Qed.
Lemma zlen_cons x l : zlen (x :: l) = 1 + zlen l.
Proof. unfold zlen. cbn [length]. lia. Qed.
Lemma zlen_app l l' : zlen (l ++ l') = zlen l + zlen l'.
Proof. unfold zlen. rewrite length_app. lia. Qed.
Lemma zlen_fmap {B} (f : A → B) l : zlen (f <$> l) = zlen l.
Proof. unfold zlen. by rewrite length_fmap. Qed.
Lemma zlen_map {B} (f : A → B) l : zlen (map f l) = zlen l.
Proof. unfold zlen. by rewrite length_map. Qed.
Lemma zlen_reverse l : zlen (reverse l) = zlen l.
Proof. unfold zlen. by rewrite length_reverse. Qed.
Lemma zlen_replicate n (x : A) : zlen (replicate n x) = Z.of_nat n.
Proof. unfold zlen. by rewrite length_replicate. Qed.
Lemma zlen_take n l : 0 ≤ n ≤ zlen l → zlen (take (Z.to_nat n) l) = n.
Proof. unfold zlen. intros. rewrite length_take. lia. Qed.
Lemma zlen_drop n l : 0 ≤ n ≤ zlen l → zlen (drop (Z.to_nat n) l) = zlen l - n.
Proof. unfold zlen. intros. rewrite length_drop. lia. Qed.
Lemma zlen_slice a b l : 0 ≤ a ≤ b → b ≤ zlen l → zlen (slice a b l) = b - a.
Proof.
  intros. unfold slice, zlen in *. rewrite length_take, length_drop. lia.
Qed.
Lemma zlen_0_nil l : zlen l = 0 → l = [].
Proof. unfold zlen. destruct l; cbn; [done|lia]. Qed.
End Lengths.

#[export] Hint Rewrite @zlen_cons @zlen_app @zlen_fmap @zlen_map
  @zlen_reverse @zlen_replicate : zlen.

(** [zlen_lia] normalises lengths and closes linear goals about them. *)
Ltac zlen_pos :=
  repeat match goal with
  | |- context [zlen ?l] =>
      lazymatch goal with H : 0 ≤ zlen l |- _ => fail | _ => idtac end;
      pose proof (zlen_nonneg l)
  | _ : context [zlen ?l] |- _ =>
      lazymatch goal with H : 0 ≤ zlen l |- _ => fail | _ => idtac end;
      pose proof (zlen_nonneg l)
  end.
Ltac zlen_nils :=
  repeat match goal with
  | |- context [@zlen ?A []] => change (@zlen A []) with 0
  | H : context [@zlen ?A []] |- _ => change (@zlen A []) with 0 in H
  end.
Ltac zlen_simpl := autorewrite with zlen in *; zlen_nils.
Ltac zlen_lia := zlen_simpl; zlen_pos; lia.

Lemma to_le_length n z : length (to_le n z) = n.
Proof. revert z. induction n; intros; cbn; [done|by rewrite IHn]. Qed.
Lemma zlen_to_le n z : zlen (to_le n z) = Z.of_nat n.
Proof. unfold zlen. by rewrite to_le_length. Qed.
Lemma zlen_to_be n z : zlen (to_be n z) = Z.of_nat n.
Proof. unfold to_be. by rewrite zlen_reverse, zlen_to_le. Qed.
#[export] Hint Rewrite zlen_to_le zlen_to_be : zlen.

(** ** Slices *)

Section Slices.
  Context {A : Type}.
Implicit Types l : list A.

Lemma slice_app_mid pre x post :
  slice (zlen pre) (zlen pre + zlen x) (pre ++ x ++ post) = x :> list A.
Proof.
  unfold slice, zlen. rewrite Nat2Z.id, drop_app_length.
  rewrite take_app_length'; [done|lia].
Qed.

(** What a reader positioned at [pos] sees: if the bytes from [pos] on are
    [x ++ rest] then the next [zlen x] bytes are [x]. *)
Lemma slice_at pos x rest l :
  0 ≤ pos → drop (Z.to_nat pos) l = x ++ rest →
  slice pos (pos + zlen x) l = x.
Proof.
  intros Hpos Hd. unfold slice. rewrite Hd. unfold zlen.
  rewrite take_app_length'; [done|lia].
Qed.

Lemma drop_advance pos x rest l :
  0 ≤ pos → drop (Z.to_nat pos) l = x ++ rest →
  drop (Z.to_nat (pos + zlen x)) l = rest.
Proof.
  intros Hpos Hd. unfold zlen.
  replace (Z.to_nat (pos + Z.of_nat (length x))) with (Z.to_nat pos + length x)%nat by lia.
  by rewrite <- drop_drop, Hd, drop_app_length.
Qed.

Lemma drop_app_z n x l : n = zlen x → drop (Z.to_nat n) (x ++ l) = l.
Proof. intros ->. unfold zlen. by rewrite Nat2Z.id, drop_app_length. Qed.

Lemma take_app_z n x l : n = zlen x → take (Z.to_nat n) (x ++ l) = x.
Proof. intros ->. unfold zlen. by rewrite Nat2Z.id, take_app_length. Qed.

Lemma drop_bound pos x l :
  0 ≤ pos → drop (Z.to_nat pos) l = x → x ≠ [] → pos + zlen x = zlen l.
Proof.
  intros Hpos <- Hne. unfold zlen in *. rewrite length_drop.
  assert (length (drop (Z.to_nat pos) l) ≠ 0%nat) by (by destruct (drop _ l)).
  rewrite length_drop in H. lia.
Qed.

Lemma drop_fits pos x rest l :
  0 ≤ pos ≤ zlen l → drop (Z.to_nat pos) l = x ++ rest → pos + zlen x ≤ zlen l.
Proof.
  intros Hpos Hd. apply (f_equal length) in Hd.
  rewrite length_app, length_drop in Hd. unfold zlen in *. lia.
Qed.

Lemma drop_fits' pos x rest l :
  drop (Z.to_nat pos) l = x ++ rest → 0 ≤ pos ≤ zlen l → pos + zlen x ≤ zlen l.
Proof. intros Hd Hp. exact (drop_fits pos x rest l Hp Hd). Qed.

Lemma drop_total pos x l :
  drop (Z.to_nat pos) l = x → 0 ≤ pos ≤ zlen l → pos + zlen x = zlen l.
Proof. intros <- Hp. rewrite zlen_drop by done. lia. Qed.

Lemma drop_advance' pos x rest l :
  drop (Z.to_nat pos) l = x ++ rest → 0 ≤ pos → drop (Z.to_nat (pos + zlen x)) l = rest.
Proof. intros Hd Hp. exact (drop_advance pos x rest l Hp Hd). Qed.

Lemma get_range_at pos x rest l :
  0 ≤ pos ≤ zlen l → drop (Z.to_nat pos) l = x ++ rest →
  get_range pos (pos + zlen x) l = Some x.
Proof.
  intros Hpos Hd. unfold get_range.
  pose proof (drop_fits _ _ _ _ Hpos Hd). pose proof (zlen_nonneg x).
  rewrite (proj2 (Z.leb_le _ _)), (proj2 (Z.leb_le _ _)) by lia.
  cbn. f_equal. eapply slice_at; [lia|done].
Qed.

Lemma get_range_at' pos x rest l :
  drop (Z.to_nat pos) l = x ++ rest → 0 ≤ pos ≤ zlen l →
  get_range pos (pos + zlen x) l = Some x.
Proof. intros Hd Hp. exact (get_range_at pos x rest l Hp Hd). Qed.

Lemma get_at_drop pos x rest l :
  0 ≤ pos → drop (Z.to_nat pos) l = x :: rest → get_at pos l = Some x.
Proof.
  intros Hpos Hd. unfold get_at.
  rewrite (proj2 (Z.ltb_ge _ _)) by lia.
  rewrite <- (Nat.add_0_r (Z.to_nat pos)), <- lookup_drop, Hd. done.
Qed.

Lemma get_at_drop' pos x rest l :
  drop (Z.to_nat pos) l = x :: rest → 0 ≤ pos → get_at pos l = Some x.
Proof. intros Hd Hp. exact (get_at_drop pos x rest l Hp Hd). Qed.

Lemma get_at_drop_nil pos l :
  0 ≤ pos → drop (Z.to_nat pos) l = [] → get_at pos l = None.
Proof.
  intros Hpos Hd. unfold get_at.
  rewrite (proj2 (Z.ltb_ge _ _)) by lia.
  rewrite <- (Nat.add_0_r (Z.to_nat pos)), <- lookup_drop, Hd. done.
Qed.
End Slices.

(** ** Little- and big-endian integers *)

Lemma is_u8_byte z : is_u8 (z mod 256).
Proof. unfold is_u8, U8_MAX. pose proof (Z.mod_pos_bound z 256). lia. Qed.

Lemma to_le_ok n z : bytes_ok (to_le n z).
Proof.
  revert z. induction n; intros; cbn; constructor; [apply is_u8_byte|apply IHn].
Qed.

Lemma to_be_ok n z : bytes_ok (to_be n z).
Proof. apply Forall_reverse, to_le_ok. Qed.

Lemma from_le_to_le n z : 0 ≤ z < 256 ^ Z.of_nat n → from_le (to_le n z) = z.
Proof.
  revert z. induction n as [|n IH]; intros z Hz.
  { cbn in *. lia. }
  cbn [to_le from_le]. rewrite IH.
  - pose proof (Z.div_mod z 256). lia.
  - rewrite Nat2Z.inj_succ, Z.pow_succ_r in Hz by lia.
    split; [apply Z.div_pos; lia|]. apply Z.div_lt_upper_bound; lia.
Qed.

Lemma from_le_bound l : bytes_ok l → 0 ≤ from_le l < 256 ^ zlen l.
Proof.
  induction 1 as [|b l Hb _ IH]; [by vm_compute|].
  rewrite zlen_cons, Z.pow_add_r by (pose proof (zlen_nonneg l); lia).
  rewrite Z.pow_1_r. cbn [from_le]. unfold is_u8, U8_MAX in Hb. lia.
Qed.

Lemma to_le_from_le l : bytes_ok l → to_le (length l) (from_le l) = l.
Proof.
  induction 1 as [|b l Hb Hl IH]; [done|].
  cbn [from_le length to_le]. unfold is_u8, U8_MAX in Hb.
  rewrite (Z.mul_comm 256), Z.mod_add, Z.div_add by lia.
  rewrite Z.mod_small, Z.div_small by lia. by rewrite Z.add_0_l, IH.
Qed.

Lemma from_be_to_be n z : 0 ≤ z < 256 ^ Z.of_nat n → from_be (to_be n z) = z.
Proof. intros. unfold from_be, to_be. rewrite reverse_involutive. by apply from_le_to_le. Qed.

Lemma to_be_from_be l : bytes_ok l → to_be (length l) (from_be l) = l.
Proof.
  intros Hl. unfold from_be, to_be. rewrite <- (length_reverse l).
  rewrite to_le_from_le by by apply Forall_reverse. apply reverse_involutive.
Qed.

(** ** Boolean filters *)

Lemma filter_all_true {A} (f : A → bool) l :
  Forall (λ x, f x = true) l → List.filter f l = l.
Proof. induction 1 as [|x l Hx _ IH]; cbn; [done|]. by rewrite Hx, IH. Qed.

Lemma filter_all_false {A} (f : A → bool) l :
  Forall (λ x, f x = false) l → List.filter f l = [].
Proof. induction 1 as [|x l Hx _ IH]; cbn; [done|]. by rewrite Hx. Qed.

Lemma elem_of_filter_b {A} (f : A → bool) l x :
  x ∈ List.filter f l ↔ f x = true ∧ x ∈ l.
Proof. rewrite !list_elem_of_In, filter_In. tauto. Qed.

(** ** Lexicographic order *)

Lemma lex_cmp_refl a : lex_cmp a a = Eq.
Proof. induction a; cbn; [done|]. by rewrite Z.compare_refl. Qed.

Lemma lex_cmp_eq a b : lex_cmp a b = Eq ↔ a = b.
Proof.
  split; [|intros ->; apply lex_cmp_refl].
  revert b. induction a as [|x a IH]; intros [|y b]; cbn; try done.
  destruct (x ?= y) eqn:E; try done. intros H.
  apply Z.compare_eq in E as ->. f_equal. by apply IH.
Qed.

#[global] Instance lex_total : TotalCmp lex_cmp.
Proof.
  split.
  - induction x as [|x a IH]; intros [|y b]; cbn; try done.
    rewrite Z.compare_antisym. destruct (x ?= y); cbn; auto.
  - induction x as [|x a IH]; intros [|y b] [|z c]; cbn; try done.
    destruct (x ?= y) eqn:E1, (y ?= z) eqn:E2; try done; intros H1 H2;
      rewrite ?Z.compare_eq_iff, ?Z.compare_lt_iff in *; subst.
    + rewrite Z.compare_refl. eauto.
    + by rewrite (proj2 (Z.compare_lt_iff _ _) E2).
    + by rewrite (proj2 (Z.compare_lt_iff _ _) E1).
    + by rewrite (proj2 (Z.compare_lt_iff x z)) by lia.
  - intros x y z H%lex_cmp_eq. by subst.
Qed.

Lemma lex_ltb_lt a b : lex_ltb a b = true ↔ lex_cmp a b = Lt.
Proof. unfold lex_ltb. by destruct (lex_cmp a b). Qed.
Lemma lex_leb_le a b : lex_leb a b = true ↔ lex_cmp a b ≠ Gt.
Proof. unfold lex_leb. by destruct (lex_cmp a b). Qed.
Lemma lex_eqb_eq a b : lex_eqb a b = true ↔ a = b.
Proof. unfold lex_eqb. rewrite <- lex_cmp_eq. by destruct (lex_cmp a b). Qed.
Lemma lex_leb_refl a : lex_leb a a = true.
Proof. unfold lex_leb. by rewrite lex_cmp_refl. Qed.
Lemma lex_eqb_refl a : lex_eqb a a = true.
Proof. unfold lex_eqb. by rewrite lex_cmp_refl. Qed.

(** A common prefix does not influence the comparison. *)
Lemma lex_cmp_app_l p a b : lex_cmp (p ++ a) (p ++ b) = lex_cmp a b.
Proof. induction p; cbn; [done|]. by rewrite Z.compare_refl. Qed.

(** Big-endian encodings of one width compare like the integers. *)
Lemma lex_cmp_snoc a b x y :
  length a = length b →
  lex_cmp (a ++ [x]) (b ++ [y]) = match lex_cmp a b with Eq => x ?= y | c => c end.
Proof.
  revert b. induction a as [|u a IH]; intros [|v b] Hlen; try done.
  { cbn. by destruct (x ?= y). }
  cbn. injection Hlen as Hlen. destruct (u ?= v); auto.
Qed.

Lemma lex_cmp_to_be n a b :
  0 ≤ a < 256 ^ Z.of_nat n → 0 ≤ b < 256 ^ Z.of_nat n →
  lex_cmp (to_be n a) (to_be n b) = (a ?= b).
Proof.
  unfold to_be. revert a b. induction n as [|n IH]; intros a b Ha Hb.
  { cbn in *. symmetry. apply Z.compare_eq_iff. lia. }
  rewrite Nat2Z.inj_succ, Z.pow_succ_r in Ha, Hb by lia.
  cbn [to_le]. rewrite !reverse_cons, lex_cmp_snoc
    by by rewrite !length_reverse, !to_le_length.
  assert (∀ c, 0 ≤ c < 256 * 256 ^ Z.of_nat n → 0 ≤ c / 256 < 256 ^ Z.of_nat n) as Hdiv.
  { intros c Hc. split; [apply Z.div_pos; lia|apply Z.div_lt_upper_bound; lia]. }
  rewrite IH by auto.
  pose proof (Z.div_mod a 256). pose proof (Z.div_mod b 256).
  pose proof (Z.mod_pos_bound a 256). pose proof (Z.mod_pos_bound b 256).
  destruct (Z.compare_spec (a / 256) (b / 256)) as [E|E|E];
    destruct (Z.compare_spec a b); try done; try lia.
  - apply Z.compare_eq_iff. lia.
  - apply Z.compare_lt_iff. lia.
  - apply Z.compare_gt_iff. lia.
Qed.

(** ** Ordered maps as sorted association lists *)

Section TotalCmpFacts.
  Context {K : Type} {cmp : K → K → comparison} `{!TotalCmp cmp}.

Lemma cmp_refl' x : cmp x x = Eq.
Proof. pose proof (cmp_antisym x x). by destruct (cmp x x). Qed.
Lemma cmp_gt_lt x y : cmp x y = Gt → cmp y x = Lt.
Proof. intros H. by rewrite cmp_antisym, H. Qed.
Lemma cmp_lt_gt x y : cmp x y = Lt → cmp y x = Gt.
Proof. intros H. by rewrite cmp_antisym, H. Qed.
Lemma cmp_eq_sym x y : cmp x y = Eq → cmp y x = Eq.
Proof. intros H. by rewrite cmp_antisym, H. Qed.
Lemma cmp_eq_r x y z : cmp x y = Eq → cmp z x = cmp z y.
Proof.
  intros H. rewrite (cmp_antisym x z), (cmp_antisym y z). f_equal. by apply cmp_eq_l.
Qed.
Lemma cmp_le_lt x y z : cmp x y ≠ Gt → cmp y z = Lt → cmp x z = Lt.
Proof.
  intros H1 H2. destruct (cmp x y) eqn:E; [|by eapply cmp_trans|done].
  by rewrite (cmp_eq_l _ _ _ E).
Qed.
Lemma cmp_lt_le x y z : cmp x y = Lt → cmp y z ≠ Gt → cmp x z = Lt.
Proof.
  intros H1 H2. destruct (cmp y z) eqn:E; [|by eapply cmp_trans|done].
  by rewrite <- (cmp_eq_r _ _ _ E).
Qed.
Lemma cmp_le_trans x y z : cmp x y ≠ Gt → cmp y z ≠ Gt → cmp x z ≠ Gt.
Proof.
  intros H1 H2. destruct (cmp x y) eqn:E; [|by rewrite (cmp_lt_le x y z)|done].
  by rewrite (cmp_eq_l _ _ _ E).
Qed.
End TotalCmpFacts.

Section BTreeFacts.
  Context {K V : Type} {cmp : K → K → comparison} `{!TotalCmp cmp}.
Implicit Types m : list (K * V).

Lemma bt_insert_elem k v m e :
  e ∈ bt_insert cmp k v m → e ∈ m ∨ e = (k, v) ∨ (cmp k e.1 = Eq ∧ e.2 = v).
Proof.
  induction m as [|[k' v'] m IH]; cbn.
  { rewrite list_elem_of_singleton. auto. }
  destruct (cmp k k') eqn:E; rewrite !elem_of_cons.
  - intros [->|?]; auto.
  - intros [?|[?|?]]; auto.
  - intros [?|[?|?]%IH]; tauto.
Qed.

Lemma bt_insert_Forall (P : K * V → Prop) k v m :
  Forall P m → (∀ k', cmp k k' = Eq → P (k', v)) → Forall P (bt_insert cmp k v m).
Proof.
  intros Hm Hk. assert (P (k, v)) by (apply Hk, cmp_refl').
  induction Hm as [|[k' v'] m Hx Hm IH]; cbn.
  { auto. }
  destruct (cmp k k') eqn:E; auto.
Qed.

Lemma bt_insert_sorted k v m : bt_sorted cmp m → bt_sorted cmp (bt_insert cmp k v m).
Proof.
  unfold bt_sorted, bt_lt.
  induction 1 as [|[k' v'] m Hm IH Hall]; cbn.
  { repeat constructor. }
  destruct (cmp k k') eqn:E.
  - constructor; [done|]. exact Hall.
  - constructor; [by constructor|]. constructor; [done|].
    eapply Forall_impl; [exact Hall|]. intros [k2 v2]; cbn. intros. by eapply cmp_trans.
  - constructor; [done|]. apply bt_insert_Forall; [exact Hall|]. cbn.
    intros k2 H2. rewrite <- (cmp_eq_r _ _ _ H2). by apply cmp_gt_lt.
Qed.

Lemma bt_get_insert k k' v m :
  bt_sorted cmp m →
  bt_get cmp k' (bt_insert cmp k v m) =
    match cmp k' k with Eq => Some v | _ => bt_get cmp k' m end.
Proof.
  induction 1 as [|[k2 v2] m Hm IH Hall]; cbn; [by destruct (cmp k' k)|].
  destruct (cmp k k2) eqn:E; cbn.
  - rewrite (cmp_eq_r _ _ _ E). by destruct (cmp k' k2).
  - by destruct (cmp k' k).
  - rewrite IH. destruct (cmp k' k2) eqn:E2; try done.
    rewrite (cmp_eq_l _ _ _ E2), (cmp_gt_lt _ _ E). done.
Qed.

Definition not_below (k : K) (e : K * V) : bool :=
  match cmp e.1 k with Lt => false | _ => true end.

(** On a sorted map, [range(k..)] keeps exactly the entries not below [k]. *)
Lemma bt_remove_subset k m e : e ∈ bt_remove cmp k m → e ∈ m.
Proof.
  induction m as [|[k' v'] m IH]; cbn; [done|]. destruct (cmp k k'); rewrite !elem_of_cons; tauto.
Qed.

Lemma bt_remove_sorted k m : bt_sorted cmp m → bt_sorted cmp (bt_remove cmp k m).
Proof.
  induction 1 as [|[k' v'] m Hm IH Hall]; cbn; [constructor|]. destruct (cmp k k'); [done| |];
    (constructor; [done|]); rewrite Forall_forall in *; intros e He; eapply Hall, bt_remove_subset, He.
Qed.

Lemma bt_get_remove k k' m :
  bt_sorted cmp m →
  bt_get cmp k' (bt_remove cmp k m) = match cmp k' k with Eq => None | _ => bt_get cmp k' m end.
Proof.
  induction 1 as [|[k2 v2] m Hm IH Hall]; cbn; [by destruct (cmp k' k)|].
  assert (cmp k k2 = Eq → cmp k' k = Eq → bt_get cmp k' m = None) as Hnone.
  { intros E1 E2. clear IH Hm. induction Hall as [|[k3 v3] m H3 _ IH]; cbn; [done|]. unfold bt_lt in H3. cbn in H3.
    rewrite (cmp_eq_l _ _ _ E2), (cmp_eq_l _ _ _ E1), H3. done. }
  destruct (cmp k k2) eqn:E; cbn.
  - rewrite <- (cmp_eq_r _ _ _ E). destruct (cmp k' k); [by apply Hnone|done|done].
  - rewrite IH. destruct (cmp k' k2) eqn:E2; [|done|done].
    rewrite (cmp_eq_l _ _ _ E2), cmp_antisym, E. done.
  - rewrite IH. destruct (cmp k' k2) eqn:E2; [|done|done].
    rewrite (cmp_eq_l _ _ _ E2), cmp_antisym, E. done.
Qed.

Lemma bt_range_from_spec k m :
  bt_sorted cmp m → bt_range_from cmp k m = List.filter (not_below k) m.
Proof.
  induction 1 as [|[k' v'] m Hm IH Hall]; [done|].
  cbn [bt_range_from List.filter]. unfold not_below at 1. cbn [fst].
  destruct (cmp k' k) eqn:E; [| done |].
  all: f_equal; symmetry; apply filter_all_true;
    eapply Forall_impl; [exact Hall|];
    intros [k2 v2]; unfold bt_lt, not_below; cbn; intros H2.
  - by rewrite <- (cmp_eq_r _ _ _ E), (cmp_lt_gt _ _ H2).
  - destruct (cmp k2 k) eqn:H3; try done.
    pose proof (cmp_trans _ _ _ H2 H3). congruence.
Qed.
End BTreeFacts.

Arguments to_le : simpl never.
Arguments to_be : simpl never.
Arguments zlen : simpl never.

(** ** Stable sorting

    [slice::sort_by] is stable; insertion keeps equal elements in order. *)

Fixpoint insert_by {A} (cmp : A → A → comparison) (x : A) (l : list A) : list A :=
  match l with
  | [] => [x]
  | y :: l' => match cmp x y with Gt => y :: insert_by cmp x l' | _ => x :: l end
  end.

Definition sort_by {A} (cmp : A → A → comparison) (l : list A) : list A :=
  fold_right (insert_by cmp) [] l.

Lemma insert_by_perm {A} (cmp : A → A → comparison) x l : insert_by cmp x l ≡ₚ x :: l.
Proof.
  induction l as [|y l IH]; cbn; [done|]. destruct (cmp x y); [done|done|]. rewrite IH. apply Permutation_swap.
Qed.

Lemma sort_by_perm {A} (cmp : A → A → comparison) l : sort_by cmp l ≡ₚ l.
Proof. induction l as [|x l IH]; cbn; [done|]. by rewrite insert_by_perm, IH. Qed.

Lemma insert_by_sorted {A} (cmp : A → A → comparison) x l :
  (∀ x y, cmp x y = Gt → cmp y x ≠ Gt) →
  (∀ x y z, cmp x y ≠ Gt → cmp y z ≠ Gt → cmp x z ≠ Gt) →
  StronglySorted (λ x y, cmp x y ≠ Gt) l → StronglySorted (λ x y, cmp x y ≠ Gt) (insert_by cmp x l).
Proof.
  intros Htot Htrans Hl. induction Hl as [|y l Hs IH Hall]; cbn; [repeat constructor|].
  assert (cmp x y ≠ Gt → StronglySorted (λ x y, cmp x y ≠ Gt) (x :: y :: l)) as Hle.
  { intros Hxy. constructor; [by constructor|]. constructor; [done|].
    eapply Forall_impl; [exact Hall|]. intros z Hz. by apply (Htrans _ y). }
  destruct (cmp x y) eqn:E; [by apply Hle|by apply Hle|].
  constructor; [done|]. apply Forall_forall. intros z Hz. rewrite insert_by_perm in Hz.
  apply elem_of_cons in Hz as [->|Hz]; [by apply Htot|]. rewrite Forall_forall in Hall. auto.
Qed.

Lemma sort_by_sorted {A} (cmp : A → A → comparison) l :
  (∀ x y, cmp x y = Gt → cmp y x ≠ Gt) →
  (∀ x y z, cmp x y ≠ Gt → cmp y z ≠ Gt → cmp x z ≠ Gt) →
  StronglySorted (λ x y, cmp x y ≠ Gt) (sort_by cmp l).
Proof.
  intros Htot Htrans. induction l as [|x l IH]; cbn; [constructor|]. by apply insert_by_sorted.
Qed.

(** Maps keyed by integers declare it as an instance where they need it. *)
Lemma Z_total : TotalCmp Z.compare.
Proof.
  split.
  - intros x y. apply Z.compare_antisym.
  - intros x y z. rewrite !Z.compare_lt_iff. lia.
  - intros x y z H. apply Z.compare_eq in H. by subst.
Qed.

(** ** Concatenations *)

Lemma elem_of_concat {A} (ls : list (list A)) x : x ∈ concat ls ↔ ∃ l, x ∈ l ∧ l ∈ ls.
Proof.
  induction ls as [|l ls IH]; cbn.
  - split; [by intros H%elem_of_nil|]. intros (l & _ & H). by apply elem_of_nil in H.
  - rewrite elem_of_app, IH. split.
    + intros [H|(l' & H1 & H2)]; [exists l; split; [done|by left]|exists l'; split; [done|by right]].
    + intros (l' & H1 & [->|H2]%elem_of_cons); [by left|right; eauto].
Qed.
