(* ===== verification/Fs.v ===== *)
(** * The crash-sensitive file system (src/crates/meteordb/src/fs.rs)

    Persistent state is reached through the [DurableFs] trait.  This file models
    its fault-injecting implementation [FaultyFs]: every file has a volatile, a
    synchronized and a durable content, mutating calls are numbered, and the call
    with the chosen number fails after the directory has been put back to its
    durable state.  The model has one directory whose files are named by their
    file name; a file that was there before the first call counts as durable,
    which is what [seed_existing_file] records when the file is first touched. *)

From Stdlib Require Import ZArith Lia.
From stdpp Require Import base list gmap strings.
From S2P Require Import Prelude.

Local Open Scope Z_scope.

Abbreviation name := bytes.

Record CrashImage : Type := {
  ci_volatile : gmap name bytes;
  ci_synced : gmap name bytes;
  ci_durable : gmap name bytes
}.

Inductive FaultOperation : Type :=
| FaultWrite
| FaultFileSync
| FaultSyncFile
| FaultAtomicReplace
| FaultAtomicInstall
| FaultDirectorySync
| FaultTruncate
| FaultRemove.

Record FaultState : Type := {
  fs_next_index : Z;
  fs_events : list (Z * FaultOperation * name);
  fs_fail_at : option Z;
  fs_image : CrashImage
}.

(** A directory with the given files, all durable. *)
Definition durable_image (files : gmap name bytes) : CrashImage :=
  {| ci_volatile := files; ci_synced := files; ci_durable := files |}.

Definition FaultyFs_fail_at (operation_index : option Z) (files : gmap name bytes) : FaultState :=
  {| fs_next_index := 0; fs_events := []; fs_fail_at := operation_index;
     fs_image := durable_image files |}.

(** Computations that use the file system: the error is a value and the state is
    kept on both outcomes. *)
Definition FS (A : Type) : Type := FaultState → result A * FaultState.

Definition fs_ret {A} (a : A) : FS A := λ s, (Ok a, s).
Definition fs_fail {A} (e : error) : FS A := λ s, (Err e, s).
Definition fs_bind {A B} (m : FS A) (k : A → FS B) : FS B :=
  λ s, match m s with
       | (Ok a, s) => k a s
       | (Err e, s) => (Err e, s)
       end.
Definition fs_lift {A} (r : result A) : FS A := λ s, (r, s).
Definition fs_map_err {A} (f : error → error) (m : FS A) : FS A :=
  λ s, let '(r, s) := m s in (map_err f r, s).

Notation "'let!' x ':=' c 'in' k" :=
  (fs_bind c (λ x, k))
  (at level 10, x pattern, c at level 100, k at level 200,
   format "'[v' 'let!'  x  ':='  c  'in' '/' k ']'") : result_scope.

Fixpoint fs_each {A} (f : A → FS unit) (l : list A) : FS unit :=
  match l with
  | [] => fs_ret tt
  | a :: l => let! _ := f a in fs_each f l
  end.

(** [std::io::Error] with its kind, before [io_error] names the operation. *)
Definition os_error (kind : string) : error := Io "" "" kind.

Definition io_error (operation : string) (e : error) : error :=
  match e with Io _ path source => Io operation path source | e => e end.

(** ** The image *)

Definition with_image (s : FaultState) (i : CrashImage) : FaultState :=
  {| fs_next_index := fs_next_index s; fs_events := fs_events s; fs_fail_at := fs_fail_at s;
     fs_image := i |}.

Definition restore_durable_state (i : CrashImage) : CrashImage := durable_image (ci_durable i).

Definition observe (operation : FaultOperation) (path : name) : FS unit := λ s,
  let index := fs_next_index s + 1 in
  let s :=
    {| fs_next_index := index;
       fs_events := fs_events s ++ [(index, operation, path)];
       fs_fail_at := fs_fail_at s;
       fs_image := fs_image s |} in
  if bool_decide (fs_fail_at s = Some index) then
    (Err (os_error "injected crash"), with_image s (restore_durable_state (fs_image s)))
  else (Ok tt, s).

Definition track_new_file (path : name) (i : CrashImage) : CrashImage :=
  {| ci_volatile := <[path := []]> (ci_volatile i);
     ci_synced := delete path (ci_synced i);
     ci_durable := ci_durable i |}.

Definition record_write (path : name) (b : bytes) (i : CrashImage) : CrashImage :=
  {| ci_volatile := <[path := default [] (ci_volatile i !! path) ++ b]> (ci_volatile i);
     ci_synced := ci_synced i;
     ci_durable := ci_durable i |}.

Definition record_file_sync (path : name) (i : CrashImage) : CrashImage :=
  match ci_volatile i !! path with
  | Some b =>
    {| ci_volatile := ci_volatile i;
       ci_synced := <[path := b]> (ci_synced i);
       ci_durable :=
         if bool_decide (is_Some (ci_durable i !! path))
         then <[path := b]> (ci_durable i) else ci_durable i |}
  | None => i
  end.

(** Moving one entry of a map. *)
Definition rename_entry (source destination : name) (m : gmap name bytes) : gmap name bytes :=
  match m !! source with
  | Some b => <[destination := b]> (delete source m)
  | None => m
  end.

Definition record_rename (source destination : name) (i : CrashImage) : CrashImage :=
  {| ci_volatile := rename_entry source destination (ci_volatile i);
     ci_synced := rename_entry source destination (ci_synced i);
     ci_durable := ci_durable i |}.

Definition record_directory_sync (i : CrashImage) : CrashImage :=
  {| ci_volatile := ci_volatile i;
     ci_synced := ci_synced i;
     ci_durable :=
       map_imap (λ path _,
         Some (default [] (match ci_synced i !! path with
                           | Some b => Some b
                           | None => ci_durable i !! path
                           end))) (ci_volatile i) |}.

Definition record_remove (path : name) (i : CrashImage) : CrashImage :=
  {| ci_volatile := delete path (ci_volatile i);
     ci_synced := delete path (ci_synced i);
     ci_durable := ci_durable i |}.

Definition record_truncate (path : name) (b : bytes) (i : CrashImage) : CrashImage :=
  {| ci_volatile := <[path := b]> (ci_volatile i);
     ci_synced := ci_synced i;
     ci_durable := ci_durable i |}.

Definition update_image (f : CrashImage → CrashImage) : FS unit :=
  λ s, (Ok tt, with_image s (f (fs_image s))).

(** ** The operations of [DurableFs]

    What the operating system shows is the volatile content. *)

Definition entry_exists (path : name) : FS bool :=
  λ s, (Ok (bool_decide (is_Some (ci_volatile (fs_image s) !! path))), s).

Definition read_file (path : name) : FS bytes :=
  λ s, (ok_or (ci_volatile (fs_image s) !! path) (os_error "not found"), s).

Definition validate_file (path : name) : FS unit :=
  let! _ := read_file path in fs_ret tt.

Definition fs_create (path : name) : FS unit :=
  let! exists_ := entry_exists path in
  if exists_ then fs_fail (os_error "already exists") else update_image (track_new_file path).

Definition append_existing (path : name) : FS unit := validate_file path.

Definition file_write_all (path : name) (b : bytes) : FS unit :=
  let! _ := observe FaultWrite path in
  update_image (record_write path b).

Definition file_sync_all (path : name) : FS unit :=
  let! _ := observe FaultFileSync path in
  update_image (record_file_sync path).

Definition sync_file (path : name) : FS unit :=
  let! _ := observe FaultSyncFile path in
  let! b := read_file path in
  let! _ := update_image (record_truncate path b) in
  update_image (record_file_sync path).

(** [set_len]: shorter is cut, longer is filled with zeros. *)
Definition resize (length : Z) (b : bytes) : bytes :=
  take (Z.to_nat length) b ++ replicate (Z.to_nat (length - zlen b)) 0.

Definition truncate_file (path : name) (length : Z) : FS unit :=
  let! _ := observe FaultTruncate path in
  let! b := read_file path in
  update_image (record_truncate path (resize length b)).

Definition sync_directory (path : name) : FS unit :=
  let! _ := observe FaultDirectorySync path in
  update_image record_directory_sync.

Definition atomic_install (source destination : name) : FS unit :=
  let! _ := observe FaultAtomicInstall destination in
  let! _ := validate_file source in
  let! exists_ := entry_exists destination in
  if exists_ then fs_fail (os_error "already exists")
  else update_image (record_rename source destination).

Definition atomic_replace (source destination : name) : FS unit :=
  let! _ := observe FaultAtomicReplace destination in
  let! _ := validate_file source in
  update_image (record_rename source destination).

Definition remove_file (path : name) : FS unit :=
  let! _ := observe FaultRemove path in
  let! _ := validate_file path in
  update_image (record_remove path).

(** [FaultyFs::crash] *)
Definition fs_crash (s : FaultState) : FaultState :=
  with_image s (restore_durable_state (fs_image s)).

(** ** Reasoning about faults

    [wp m i Q E]: run from the image [i], the computation returns with [Q] or
    fails with an image in [E].  A fault leaves the durable image.  The general
    form [wpf faults] can also rule faults out; with [E] empty it then says that
    the computation returns. *)

Definition wpf (faults : bool) {A} (m : FS A) (i : CrashImage) (Q : A → CrashImage → Prop)
    (E : CrashImage → Prop) : Prop :=
  ∀ s, fs_image s = i → (faults = false → fs_fail_at s = None) →
    match m s with
    | (Ok a, s') => Q a (fs_image s') ∧ (faults = false → fs_fail_at s' = None)
    | (Err _, s') => E (fs_image s')
    end.

Abbreviation wp := (wpf true).

Section Rules.
  Context {A B : Type} (g : bool) (i : CrashImage) (E : CrashImage → Prop).

Lemma wp_ret (a : A) (Q : A → CrashImage → Prop) : Q a i → wpf g (fs_ret a) i Q E.
Proof. by intros H s <-. Qed.

Lemma wp_lift_ok (r : result A) a (Q : A → CrashImage → Prop) : r = Ok a → Q a i → wpf g (fs_lift r) i Q E.
Proof. by intros -> H s <-. Qed.

Lemma wp_lift (r : result A) (Q : A → CrashImage → Prop) :
  E i → (∀ a, r = Ok a → Q a i) → wpf g (fs_lift r) i Q E.
Proof. intros He H s <-. unfold fs_lift. destruct r; auto. Qed.

Lemma wp_bind (m : FS A) (k : A → FS B) Q :
  wpf g m i (λ a i', wpf g (k a) i' Q E) E → wpf g (fs_bind m k) i Q E.
Proof.
  intros H s Hs Hf. specialize (H s Hs Hf). unfold fs_bind. destruct (m s) as [[a|e] s']; [|done].
  destruct H as [H Hf']. by apply H.
Qed.

Lemma wp_map_err f (m : FS A) Q : wpf g m i Q E → wpf g (fs_map_err f m) i Q E.
Proof. intros H s Hs Hf. specialize (H s Hs Hf). unfold fs_map_err. by destruct (m s) as [[a|e] s']. Qed.

Lemma wp_observe op path (Q : unit → CrashImage → Prop) :
  (g = true → E (durable_image (ci_durable i))) → Q tt i → wpf g (observe op path) i Q E.
Proof.
  intros He HQ s <- Hf. unfold observe. cbn [fs_fail_at]. case_bool_decide as Hi; [|done].
  apply He. destruct g; [done|]. by rewrite Hf in Hi.
Qed.

Lemma wp_update f (Q : unit → CrashImage → Prop) : Q tt (f i) → wpf g (update_image f) i Q E.
Proof. by intros H s <-. Qed.

Lemma wp_read path b (Q : bytes → CrashImage → Prop) :
  ci_volatile i !! path = Some b → Q b i → wpf g (read_file path) i Q E.
Proof. intros Hb HQ s <-. unfold read_file. by rewrite Hb. Qed.

Lemma wp_exists path (Q : bool → CrashImage → Prop) :
  Q (bool_decide (is_Some (ci_volatile i !! path))) i → wpf g (entry_exists path) i Q E.
Proof. by intros HQ s <-. Qed.
End Rules.

Section Operations.
  Context (g : bool) (i : CrashImage) (E : CrashImage → Prop)
    (Hcrash : g = true → E (durable_image (ci_durable i))).

Lemma wp_validate path (Q : unit → CrashImage → Prop) :
  is_Some (ci_volatile i !! path) → Q tt i → wpf g (validate_file path) i Q E.
Proof. intros [b Hb] HQ. apply wp_bind, (wp_read _ _ _ _ b); [done|]. by apply wp_ret. Qed.

Lemma wp_write path b (Q : unit → CrashImage → Prop) :
  Q tt (record_write path b i) → wpf g (file_write_all path b) i Q E.
Proof using Hcrash. intros HQ. apply wp_bind, wp_observe; [done|]. by apply wp_update. Qed.

Lemma wp_sync path (Q : unit → CrashImage → Prop) :
  Q tt (record_file_sync path i) → wpf g (file_sync_all path) i Q E.
Proof using Hcrash. intros HQ. apply wp_bind, wp_observe; [done|]. by apply wp_update. Qed.

Lemma wp_sync_file path b (Q : unit → CrashImage → Prop) :
  ci_volatile i !! path = Some b →
  Q tt (record_file_sync path (record_truncate path b i)) → wpf g (sync_file path) i Q E.
Proof using Hcrash.
  intros Hb HQ. apply wp_bind, wp_observe; [done|]. apply wp_bind, (wp_read _ _ _ _ b); [done|].
  apply wp_bind, wp_update. by apply wp_update.
Qed.

Lemma wp_truncate path n b (Q : unit → CrashImage → Prop) :
  ci_volatile i !! path = Some b →
  Q tt (record_truncate path (resize n b) i) → wpf g (truncate_file path n) i Q E.
Proof using Hcrash.
  intros Hb HQ. apply wp_bind, wp_observe; [done|]. apply wp_bind, (wp_read _ _ _ _ b); [done|].
  by apply wp_update.
Qed.
End Operations.

Lemma record_write_write path a b i :
  record_write path b (record_write path a i) = record_write path (a ++ b) i.
Proof.
  unfold record_write. cbn. f_equal. rewrite lookup_insert_eq. cbn. by rewrite insert_insert_eq, app_assoc.
Qed.

Lemma record_write_nil path i b : ci_volatile i !! path = Some b → record_write path [] i = i.
Proof. intros Hb. unfold record_write. rewrite Hb. cbn. rewrite app_nil_r, insert_id by done. by destruct i. Qed.
