(* ===== verification/StateFs.v ===== *)
(** * Stateful computations over the file system

    A computation that also changes a state of the program; unlike the local
    variables of a failed [?] the state survives an error.  [cwpf] is the rule
    format of [Fs] with the state. *)

From Stdlib Require Import ZArith Lia.
From stdpp Require Import base list gmap strings.
From S2P Require Import Prelude Fs.

Local Open Scope Z_scope.

Definition SFS (St A : Type) : Type := St → FaultState → (result A * St) * FaultState.

Section Operations.
  Context {St A B : Type}.

Definition c_ret (a : A) : SFS St A := λ st s, ((Ok a, st), s).
Definition c_bind (m : SFS St A) (k : A → SFS St B) : SFS St B := λ st s,
  match m st s with
  | ((Ok a, st), s) => k a st s
  | ((Err e, st), s) => ((Err e, st), s)
  end.
Definition c_fs (m : FS A) : SFS St A := λ st s, let '(r, s) := m s in ((r, st), s).
Definition c_lift (r : result A) : SFS St A := c_fs (fs_lift r).
Definition c_get : SFS St St := λ st s, ((Ok st, st), s).
Definition c_update (f : St → St) : SFS St unit := λ st s, ((Ok tt, f st), s).

(** [if let Err(error) = m { ... }] *)
Definition c_try (m : SFS St A) (handler : error → SFS St A) : SFS St A := λ st s,
  match m st s with
  | ((Ok a, st), s) => ((Ok a, st), s)
  | ((Err e, st), s) => handler e st s
  end.
End Operations.

Lemma c_bind_assoc {St A B D} (m : SFS St A) (k : A → SFS St B) (k' : B → SFS St D) st s :
  c_bind (c_bind m k) k' st s = c_bind m (λ a, c_bind (k a) k') st s.
Proof. unfold c_bind. by destruct (m st s) as [[[a|e] st'] s']. Qed.

Lemma c_bind_ext {St A B} (m : SFS St A) (k k' : A → SFS St B) st s :
  (∀ a st s, k a st s = k' a st s) → c_bind m k st s = c_bind m k' st s.
Proof. intros H. unfold c_bind. destruct (m st s) as [[[a|e] st'] s']; auto. Qed.

Notation "'let*' x ':=' c 'in' k" :=
  (c_bind c (λ x, k))
  (at level 10, x pattern, c at level 100, k at level 200,
   format "'[v' 'let*'  x  ':='  c  'in' '/' k ']'") : result_scope.

(** An error is ignored. *)
Definition fs_ignore {A} (m : FS A) : FS unit := λ s, (Ok tt, (m s).2).

(** ** Rules *)

Definition cwpf (g : bool) {St A} (m : SFS St A) (st : St) (i : CrashImage)
    (Q : A → St → CrashImage → Prop) (E : St → CrashImage → Prop) : Prop :=
  ∀ s, fs_image s = i → (g = false → fs_fail_at s = None) →
    match m st s with
    | ((Ok a, st'), s') => Q a st' (fs_image s') ∧ (g = false → fs_fail_at s' = None)
    | ((Err _, st'), s') => E st' (fs_image s')
    end.

Section Rules.
  Context {St A B : Type} (g : bool) (st : St) (i : CrashImage) (E : St → CrashImage → Prop).

Lemma cwp_ret (a : A) (Q : A → St → CrashImage → Prop) : Q a st i → cwpf g (c_ret a) st i Q E.
Proof. by intros H s <-. Qed.

Lemma cwp_bind (m : SFS St A) (k : A → SFS St B) Q :
  cwpf g m st i (λ a st' i', cwpf g (k a) st' i' Q E) E → cwpf g (c_bind m k) st i Q E.
Proof.
  intros H s Hs Hf. specialize (H s Hs Hf). unfold c_bind. destruct (m st s) as [[[a|e] p'] s']; [|done].
  destruct H as [H Hf']. by apply H.
Qed.

Lemma cwp_fs (m : FS A) (Q : A → St → CrashImage → Prop) :
  wpf g m i (λ a, Q a st) (E st) → cwpf g (c_fs m) st i Q E.
Proof. intros H s Hs Hf. specialize (H s Hs Hf). unfold c_fs. by destruct (m s) as [[a|e] s']. Qed.

Lemma cwp_lift_ok (r : result A) a (Q : A → St → CrashImage → Prop) :
  r = Ok a → Q a st i → cwpf g (c_lift r) st i Q E.
Proof. intros -> HQ. by apply cwp_fs, (wp_lift_ok _ _ _ _ a). Qed.

Lemma cwp_get (Q : St → St → CrashImage → Prop) : Q st st i → cwpf g c_get st i Q E.
Proof. by intros H s <-. Qed.

Lemma cwp_update f (Q : unit → St → CrashImage → Prop) : Q tt (f st) i → cwpf g (c_update f) st i Q E.
Proof. by intros H s <-. Qed.

Lemma cwp_try (m : SFS St A) handler (Q : A → St → CrashImage → Prop) :
  cwpf g m st i Q (λ st' i', ∀ e, cwpf g (handler e) st' i' Q E) → g = true →
  cwpf g (c_try m handler) st i Q E.
Proof.
  intros H -> s Hs Hf. specialize (H s Hs Hf). unfold c_try. destruct (m st s) as [[[a|e] p'] s']; [done|]. by apply H.
Qed.

(** Without faults the handler is not reached. *)
Lemma cwp_try_ok (m : SFS St A) handler (Q : A → St → CrashImage → Prop) :
  cwpf g m st i Q (λ _ _, False) → cwpf g (c_try m handler) st i Q E.
Proof.
  intros H s Hs Hf. specialize (H s Hs Hf). unfold c_try. by destruct (m st s) as [[[a|e] p'] s'].
Qed.
End Rules.

(** ** Without faults

    No call fails, so an error is one that the program decided on; it can be handled
    and the program goes on. *)

Definition swp {St A} (m : SFS St A) (st : St) (i : CrashImage)
    (Q : A → St → CrashImage → Prop) (E : St → CrashImage → Prop) : Prop :=
  ∀ s, fs_image s = i → fs_fail_at s = None →
    match m st s with
    | ((Ok a, st'), s') => Q a st' (fs_image s') ∧ fs_fail_at s' = None
    | ((Err _, st'), s') => E st' (fs_image s') ∧ fs_fail_at s' = None
    end.

Section Faultless.
  Context {St A B : Type} (st : St) (i : CrashImage) (E : St → CrashImage → Prop).

Lemma swp_cwp (m : SFS St A) (Q : A → St → CrashImage → Prop) :
  cwpf false m st i Q (λ _ _, False) → swp m st i Q E.
Proof.
  intros H s Hs Hf. specialize (H s Hs (λ _, Hf)). destruct (m st s) as [[[a|e] st'] s']; [|done].
  destruct H as [H Hf']. auto.
Qed.

Lemma swp_ret (a : A) (Q : A → St → CrashImage → Prop) : Q a st i → swp (c_ret a) st i Q E.
Proof. by intros H s <-. Qed.

Lemma swp_bind (m : SFS St A) (k : A → SFS St B) Q :
  swp m st i (λ a st' i', swp (k a) st' i' Q E) E → swp (c_bind m k) st i Q E.
Proof.
  intros H s Hs Hf. specialize (H s Hs Hf). unfold c_bind. destruct (m st s) as [[[a|e] p'] s']; [|done].
  destruct H as [H Hf']. by apply H.
Qed.

Lemma swp_fs (m : FS A) (Q : A → St → CrashImage → Prop) :
  wpf false m i (λ a, Q a st) (λ _, False) → swp (c_fs m) st i Q E.
Proof. intros H. apply swp_cwp, cwp_fs. done. Qed.

Lemma swp_lift (r : result A) (Q : A → St → CrashImage → Prop) :
  E st i → (∀ a, r = Ok a → Q a st i) → swp (c_lift r) st i Q E.
Proof. intros HE HQ s <- Hf. unfold c_lift, c_fs, fs_lift. destruct r; auto. Qed.

Lemma swp_refuse (r : result A) (Q : A → St → CrashImage → Prop) :
  ((∀ a, r ≠ Ok a) → E st i) → (∀ a, r = Ok a → Q a st i) → swp (c_lift r) st i Q E.
Proof. intros HE HQ s <- Hf. unfold c_lift, c_fs, fs_lift. destruct r; auto. Qed.

Lemma swp_lift_ok (r : result A) a (Q : A → St → CrashImage → Prop) : r = Ok a → Q a st i → swp (c_lift r) st i Q E.
Proof. by intros -> HQ s <-. Qed.

Lemma swp_fail e (Q : A → St → CrashImage → Prop) : E st i → swp (c_lift (Err e)) st i Q E.
Proof. intros HE. by apply swp_lift. Qed.

Lemma swp_get (Q : St → St → CrashImage → Prop) : Q st st i → swp c_get st i Q E.
Proof. by intros H s <-. Qed.

Lemma swp_update f (Q : unit → St → CrashImage → Prop) : Q tt (f st) i → swp (c_update f) st i Q E.
Proof. by intros H s <-. Qed.

Lemma swp_try (m : SFS St A) handler (Q : A → St → CrashImage → Prop) :
  swp m st i Q (λ st' i', ∀ e, swp (handler e) st' i' Q E) → swp (c_try m handler) st i Q E.
Proof.
  intros H s Hs Hf. specialize (H s Hs Hf). unfold c_try. destruct (m st s) as [[[a|e] p'] s']; [done|].
  destruct H as [H Hf']. by apply H.
Qed.

Lemma swp_mono (m : SFS St A) (Q Q' : A → St → CrashImage → Prop) (E' : St → CrashImage → Prop) :
  swp m st i Q' E' → (∀ a st' i', Q' a st' i' → Q a st' i') → (∀ st' i', E' st' i' → E st' i') → swp m st i Q E.
Proof.
  intros H HQ HE s Hs Hf. specialize (H s Hs Hf). destruct (m st s) as [[[a|e] p'] s']; destruct H; auto.
Qed.
End Faultless.
