(* ===== verification/Checksum.v ===== *)
(** * Checksums

    The [crc32c] crate is not part of the repository: [Crc32c] is its interface
    (the two functions the sources call) and [Crc32cRange] what their types say
    of the results.  The masking of a checksum (rotation and offset), written
    identically in wal.rs, manifest.rs and sstable/format.rs, is modelled here
    and shown to be invertible.  [Castagnoli] is a bitwise CRC-32C, used to
    evaluate the development on concrete files. *)

From Stdlib Require Import ZArith Lia.
From stdpp Require Import base list gmap strings.
From S2P Require Import Prelude.

Local Open Scope Z_scope.

Class Crc32c : Type := {
  crc32c : bytes → Z;
  crc32c_append : Z → bytes → Z
}.

Class Crc32cRange (C : Crc32c) : Prop := {
  crc32c_append_u32 : ∀ c l, is_u32 (crc32c_append c l)
}.

Definition CHECKSUM_MASK_DELTA : Z := 0xa282ead8.

(** [x.rotate_right(15).wrapping_add(CHECKSUM_MASK_DELTA)] *)
Definition mask_checksum (x : Z) : Z :=
  wrap32 (rotate_right32 x 15 + CHECKSUM_MASK_DELTA).

Definition unmask_checksum (masked : Z) : Z :=
  rotate_left32 (wrap32 (masked - CHECKSUM_MASK_DELTA)) 15.

(** ** Bitwise CRC-32C, reflected polynomial 0x82f63b78 *)

Module Castagnoli.

Fixpoint shift_bits (n : nat) (c : Z) : Z :=
  match n with
  | O => c
  | S n =>
    shift_bits n
      (if Z.odd c then Z.lxor (Z.shiftr c 1) 0x82f63b78 else Z.shiftr c 1)
  end.

Definition update (c b : Z) : Z := shift_bits 8 (Z.lxor c (b mod 256)).

Definition append (c : Z) (l : bytes) : Z :=
  Z.lxor (fold_left update l (Z.lxor (wrap32 c) U32_MAX)) U32_MAX.

Definition crc : Crc32c := {| crc32c := append 0; crc32c_append := append |}.

(** The check value of the CRC-32C catalogue, for the digits 1 to 9. *)
Example check_value : @crc32c crc [49; 50; 51; 52; 53; 54; 55; 56; 57] = 0xe3069283.
Proof. reflexivity. Qed.

Example append_is_concatenation :
  @crc32c_append crc (@crc32c crc [49; 50; 51]) [52; 53; 54; 55; 56; 57] = 0xe3069283.
Proof. reflexivity. Qed.

End Castagnoli.

(** ** Ranges of 32-bit operations *)

Lemma u32_bits x : is_u32 x ↔ 0 ≤ x ∧ ∀ i, 32 ≤ i → Z.testbit x i = false.
Proof.
  unfold is_u32, U32_MAX. split.
  - intros Hx. split; [lia|]. intros i Hi.
    destruct (Z.eq_dec x 0) as [->|]; [apply Z.bits_0|].
    apply Z.bits_above_log2; [lia|].
    assert (Z.log2 x < 32) by (apply Z.log2_lt_pow2; lia). lia.
  - intros [Hx Hb]. split; [done|].
    destruct (Z.le_gt_cases x 4294967295) as [|Hgt]; [done|]. exfalso.
    assert (32 ≤ Z.log2 x) as Hl by (apply Z.log2_le_pow2; lia).
    specialize (Hb _ Hl). rewrite Z.bit_log2 in Hb by lia. done.
Qed.

Lemma wrap32_u32 x : is_u32 (wrap32 x).
Proof.
  unfold is_u32, U32_MAX, wrap32. pose proof (Z.mod_pos_bound x (2 ^ 32)). lia.
Qed.

Lemma lxor_u32 x y : is_u32 x → is_u32 y → is_u32 (Z.lxor x y).
Proof.
  rewrite !u32_bits. intros [Hx Hxb] [Hy Hyb]. split.
  - by apply Z.lxor_nonneg.
  - intros i Hi. by rewrite Z.lxor_spec, Hxb, Hyb.
Qed.

Lemma shiftr_u32 x n : 0 ≤ n → is_u32 x → is_u32 (Z.shiftr x n).
Proof.
  rewrite !u32_bits. intros Hn [Hx Hxb]. split; [by apply Z.shiftr_nonneg|].
  intros i Hi. rewrite Z.shiftr_spec by lia. apply Hxb. lia.
Qed.

Lemma u8_u32 b : is_u32 (b mod 256).
Proof. unfold is_u32, U32_MAX. pose proof (Z.mod_pos_bound b 256). lia. Qed.

#[global] Instance castagnoli_range : Crc32cRange Castagnoli.crc.
Proof.
  constructor. intros c l. cbn. unfold Castagnoli.append.
  assert (∀ n c, is_u32 c → is_u32 (Castagnoli.shift_bits n c)) as Hs.
  { induction n as [|n IH]; cbn; intros x Hx; [done|]. apply IH.
    assert (is_u32 (Z.shiftr x 1)) by (by apply shiftr_u32).
    destruct (Z.odd x); [|done]. apply lxor_u32; [done|by vm_compute]. }
  assert (∀ c, is_u32 c → is_u32 (fold_left Castagnoli.update l c)) as Hf.
  { induction l as [|b l IH]; cbn [fold_left]; intros x Hx; [done|]. apply IH.
    unfold Castagnoli.update. apply Hs, lxor_u32; [done|apply u8_u32]. }
  apply lxor_u32; [|by vm_compute].
  apply Hf, lxor_u32; [apply wrap32_u32|by vm_compute].
Qed.

(** ** Masking *)

Lemma wrap32_spec x i :
  0 ≤ i → Z.testbit (wrap32 x) i = (i <? 32) && Z.testbit x i.
Proof.
  intros Hi. unfold wrap32. destruct (Z.ltb_spec i 32).
  - by rewrite Z.mod_pow2_bits_low by lia.
  - by rewrite Z.mod_pow2_bits_high by lia.
Qed.

Lemma rotate_right32_spec x n i :
  0 ≤ n ≤ 32 → is_u32 x → 0 ≤ i < 32 →
  Z.testbit (rotate_right32 x n) i =
    if i <? 32 - n then Z.testbit x (i + n) else Z.testbit x (i + n - 32).
Proof.
  intros Hn [Hx Hb]%u32_bits Hi. unfold rotate_right32.
  rewrite Z.lor_spec, Z.shiftr_spec, wrap32_spec by lia.
  rewrite (proj2 (Z.ltb_lt i 32)) by lia. cbn [andb].
  rewrite Z.shiftl_spec by lia. replace (i - (32 - n)) with (i + n - 32) by lia.
  destruct (Z.ltb_spec i (32 - n)).
  - rewrite (Z.testbit_neg_r x (i + n - 32)) by lia. apply orb_false_r.
  - by rewrite Hb by lia.
Qed.

Lemma rotate_left32_spec x n i :
  0 ≤ n ≤ 32 → is_u32 x → 0 ≤ i < 32 →
  Z.testbit (rotate_left32 x n) i =
    if i <? n then Z.testbit x (i + 32 - n) else Z.testbit x (i - n).
Proof.
  intros Hn [Hx Hb]%u32_bits Hi. unfold rotate_left32.
  rewrite Z.lor_spec, Z.shiftr_spec, wrap32_spec by lia.
  rewrite (proj2 (Z.ltb_lt i 32)) by lia. cbn [andb].
  rewrite Z.shiftl_spec by lia. replace (i + (32 - n)) with (i + 32 - n) by lia.
  destruct (Z.ltb_spec i n).
  - by rewrite Z.testbit_neg_r by lia.
  - by rewrite (Hb (i + 32 - n)), orb_false_r by lia.
Qed.

Lemma rotate_right32_u32 x n : 0 ≤ n ≤ 32 → is_u32 x → is_u32 (rotate_right32 x n).
Proof.
  intros Hn Hx. pose proof Hx as [Hx0 Hb]%u32_bits. apply u32_bits.
  unfold rotate_right32. split.
  - apply Z.lor_nonneg. split; [by apply Z.shiftr_nonneg|]. apply wrap32_u32.
  - intros i Hi. rewrite Z.lor_spec, Z.shiftr_spec, wrap32_spec by lia.
    rewrite (proj2 (Z.ltb_ge i 32)), Hb by lia. done.
Qed.

Lemma rotate_left32_u32 x n : 0 ≤ n ≤ 32 → is_u32 x → is_u32 (rotate_left32 x n).
Proof.
  intros Hn Hx. pose proof Hx as [Hx0 Hb]%u32_bits. apply u32_bits.
  unfold rotate_left32. split.
  - apply Z.lor_nonneg. split; [apply wrap32_u32|by apply Z.shiftr_nonneg].
  - intros i Hi. rewrite Z.lor_spec, Z.shiftr_spec, wrap32_spec by lia.
    rewrite (proj2 (Z.ltb_ge i 32)), Hb by lia. done.
Qed.

Lemma u32_ext x y :
  is_u32 x → is_u32 y → (∀ i, 0 ≤ i < 32 → Z.testbit x i = Z.testbit y i) → x = y.
Proof.
  intros [Hx Hxb]%u32_bits [Hy Hyb]%u32_bits Hi. apply Z.bits_inj'. intros i Hi0.
  destruct (Z.lt_ge_cases i 32); [by apply Hi|]. by rewrite Hxb, Hyb.
Qed.

Lemma rotate_left_right x n :
  0 ≤ n ≤ 32 → is_u32 x → rotate_left32 (rotate_right32 x n) n = x.
Proof.
  intros Hn Hx. pose proof (rotate_right32_u32 x n Hn Hx).
  apply u32_ext; [by apply rotate_left32_u32|done|]. intros i Hi.
  rewrite rotate_left32_spec by done. destruct (Z.ltb_spec i n).
  - rewrite rotate_right32_spec by (done || lia). rewrite (proj2 (Z.ltb_ge _ _)) by lia. f_equal. lia.
  - rewrite rotate_right32_spec by (done || lia). rewrite (proj2 (Z.ltb_lt _ _)) by lia. f_equal. lia.
Qed.

Lemma unmask_mask x : is_u32 x → unmask_checksum (mask_checksum x) = x.
Proof.
  intros Hx. unfold unmask_checksum, mask_checksum, wrap32.
  rewrite Zminus_mod_idemp_l.
  replace (rotate_right32 x 15 + _ - _) with (rotate_right32 x 15) by lia.
  rewrite Z.mod_small; [by apply rotate_left_right|].
  assert (is_u32 (rotate_right32 x 15)) as H by (apply rotate_right32_u32; [lia|done]).
  unfold is_u32, U32_MAX in H. lia.
Qed.

Lemma mask_checksum_u32 x : is_u32 (mask_checksum x).
Proof. apply wrap32_u32. Qed.
