(* ===== verification/Framing.v ===== *)
(** * Physical framing of logical records

    wal.rs and manifest.rs frame their logical records the same way: 32 KiB
    blocks, fragments with a seven-byte header (masked CRC32C, length, type), a
    zero trailer where no header fits.  This file models the writing loop
    ([WalWriter::write_logical_record], [ManifestWriter::append]) and the
    scanning loop ([replay_wal_stream], [replay_manifest_stream]).  What the two
    readers do differently with a fragment and at the end of the file is the
    interface [FrameReader]; [FrameLaws] says what a reader must satisfy for a
    crash at any byte of the log to be replayed as the records before it. *)

From Stdlib Require Import ZArith Lia.
From stdpp Require Import base list gmap strings.
From S2P Require Import Prelude Checksum.

Local Open Scope Z_scope.

Definition BLOCK_BYTES : Z := 32 * 1024.
Definition HEADER_BYTES : Z := 7.
Definition FULL : Z := 1.
Definition FIRST : Z := 2.
Definition MIDDLE : Z := 3.
Definition LAST : Z := 4.

(** ** Definitions *)

Section Framing.
  Context `{C : Crc32c}.

Definition checksum (fragment_type : Z) (fragment : bytes) : Z :=
  crc32c_append (crc32c [fragment_type]) fragment.

Definition masked_checksum (fragment_type : Z) (fragment : bytes) : Z :=
  mask_checksum (checksum fragment_type fragment).

(** The part of a writer the loop changes: the file's bytes and the offset in
    the current block. *)
Record FrameWriter : Type := { fw_file : bytes; fw_offset : Z }.

Definition write_all (w : FrameWriter) (b : bytes) : FrameWriter :=
  {| fw_file := fw_file w ++ b; fw_offset := fw_offset w |}.

Definition fragment_header (fragment_type : Z) (fragment : bytes) (length : Z) : bytes :=
  to_le 4 (masked_checksum fragment_type fragment) ++ to_le 2 length ++ [fragment_type].

(** The body of the [while position < logical.len()] loop; [fuel] bounds the
    iterations (at most two per byte: a fragment can be empty only at the end of
    a block). *)
Fixpoint write_fragments (fuel : nat) (logical : bytes) (position : Z) (first : bool)
    (w : FrameWriter) : result FrameWriter :=
  match fuel with
  | O => Err (Panicked "loop bound")
  | S fuel =>
    if position <? zlen logical then
      let remaining_in_block := BLOCK_BYTES - fw_offset w in
      let w :=
        if remaining_in_block <? HEADER_BYTES then
          {| fw_file := fw_file w ++ replicate (Z.to_nat remaining_in_block) 0; fw_offset := 0 |}
        else w in
      let available := BLOCK_BYTES - fw_offset w - HEADER_BYTES in
      let fragment_length := Z.min available (zlen logical - position) in
      let last := position + fragment_length =? zlen logical in
      let fragment_type :=
        match first, last with
        | true, true => FULL
        | true, false => FIRST
        | false, true => LAST
        | false, false => MIDDLE
        end in
      let fragment := slice position (position + fragment_length) logical in
      if fragment_length <=? U16_MAX then
        let w := write_all (write_all w (fragment_header fragment_type fragment fragment_length))
                   fragment in
        write_fragments fuel logical (position + fragment_length) false
          {| fw_file := fw_file w;
             fw_offset := fw_offset w + (HEADER_BYTES + fragment_length) |}
      else Err (Panicked "fragment fits in a WAL block")
    else Ok w
  end.

Definition write_fuel (logical : bytes) : nat := 2 * length logical + 2.

Definition write_logical_record (w : FrameWriter) (logical : bytes) : result FrameWriter :=
  write_fragments (write_fuel logical) logical 0 true w.

(** ** Scanning *)

(** What distinguishes a reader: its corruption error, its treatment of one
    checked fragment at a position, and its result when the final block ends
    inside a header or a payload ([fr_torn]) or after a fragment ([fr_end]). *)
Class FrameReader (St R : Type) : Type := {
  fr_corruption : string → error;
  fr_crosses : string;
  fr_step : Z → St → Z → bytes → result St;
  fr_torn : Z → St → R;
  fr_end : Z → St → R
}.

Inductive scan_outcome (St R : Type) : Type :=
| Returned (r : R)
| FellThrough (st : St).
#[local] Arguments Returned {St R} _.
#[local] Arguments FellThrough {St R} _.
Context {St R : Type} `{FR : !FrameReader St R}.

(** [while offset < block_length] *)
Fixpoint scan_block (fuel : nat) (block : bytes) (block_start : Z) (final_block : bool)
    (offset : Z) (st : St) : result (scan_outcome St R) :=
  match fuel with
  | O => Err (Panicked "loop bound")
  | S fuel =>
    let block_length := zlen block in
    if offset <? block_length then
      let remaining := block_length - offset in
      if remaining <? HEADER_BYTES then
        if final_block then Ok (Returned (fr_torn (block_start + offset) st))
        else if existsb (λ b, negb (b =? 0)) (slice offset block_length block) then
          Err (fr_corruption "nonzero bytes in physical block trailer")
        else Ok (FellThrough st)
      else
        let header := slice offset (offset + HEADER_BYTES) block in
        let stored_checksum := from_le (slice 0 4 header) in
        let fragment_length := from_le (slice 4 6 header) in
        let? fragment_type := index_or_panic 6 header in
        let? fragment_end :=
          ok_or (match checked_add offset HEADER_BYTES with
                 | Some position => checked_add position fragment_length
                 | None => None
                 end) (fr_corruption "physical fragment length overflow") in
        if block_length <? fragment_end then
          if final_block then Ok (Returned (fr_torn (block_start + offset) st))
          else Err (fr_corruption fr_crosses)
        else
          let fragment := slice (offset + HEADER_BYTES) fragment_end block in
          if negb (unmask_checksum stored_checksum =? checksum fragment_type fragment) then
            Err (fr_corruption "physical fragment checksum mismatch")
          else
            let? st := fr_step (block_start + offset) st fragment_type fragment in
            scan_block fuel block block_start final_block fragment_end st
    else Ok (FellThrough st)
  end.

(** [read_block]: the next block, shorter at the end of the file. *)
Definition read_block (file : bytes) (block_start : Z) : bytes :=
  slice block_start (block_start + Z.min BLOCK_BYTES (zlen file - block_start)) file.

(** The outer [loop]. *)
Fixpoint scan_file (fuel : nat) (file : bytes) (block_start : Z) (st : St) : result R :=
  match fuel with
  | O => Err (Panicked "loop bound")
  | S fuel =>
    let block := read_block file block_start in
    let block_length := zlen block in
    if block_length =? 0 then Ok (fr_end (zlen file) st)
    else
      let final_block := block_start + block_length =? zlen file in
      let? outcome := scan_block (S (length block)) block block_start final_block 0 st in
      match outcome with
      | Returned r => Ok r
      | FellThrough st =>
        if final_block then Ok (fr_end (zlen file) st)
        else scan_file fuel file (block_start + block_length) st
      end
  end.

Definition scan (file : bytes) (st : St) : result R :=
  scan_file (S (length file)) file 0 st.

End Framing.

Arguments Returned {St R} _.
Arguments FellThrough {St R} _.

(** ** The layout of a record *)

(** Where a fragment starts when the block offset is [o], and the zero trailer
    in front of it. *)
Definition start_of (o : Z) : Z := if BLOCK_BYTES - o <? HEADER_BYTES then 0 else o.
Definition pad_of (o : Z) : bytes :=
  if BLOCK_BYTES - o <? HEADER_BYTES then replicate (Z.to_nat (BLOCK_BYTES - o)) 0 else [].

Section Layout.
  Context `{C : Crc32c}.

Definition frame_fragment (t : Z) (c : bytes) : bytes := fragment_header t c (zlen c) ++ c.

(** [frags o first rem phys o']: the physical bytes of the rest [rem] of a logical
    record, written from block offset [o], and the offset after them. *)
Inductive frags : Z → bool → bytes → bytes → Z → Prop :=
| frags_last o (first : bool) rem :
    zlen rem ≤ BLOCK_BYTES - start_of o - HEADER_BYTES →
    frags o first rem (pad_of o ++ frame_fragment (if first then FULL else LAST) rem)
      (start_of o + HEADER_BYTES + zlen rem)
| frags_more o (first : bool) c rem phys o' :
    zlen c = BLOCK_BYTES - start_of o - HEADER_BYTES → rem ≠ [] →
    frags BLOCK_BYTES false rem phys o' →
    frags o first (c ++ rem)
      (pad_of o ++ frame_fragment (if first then FIRST else MIDDLE) c ++ phys) o'.

Lemma start_of_bounds o : 0 ≤ o ≤ BLOCK_BYTES →
  0 ≤ start_of o ∧ start_of o + HEADER_BYTES ≤ BLOCK_BYTES.
Proof.
  unfold start_of, BLOCK_BYTES, HEADER_BYTES. destruct (Z.ltb_spec (32 * 1024 - o) 7); lia.
Qed.

Lemma frags_offset o first rem phys o' :
  frags o first rem phys o' → 0 ≤ o ≤ BLOCK_BYTES → 0 ≤ o' ≤ BLOCK_BYTES.
Proof.
  induction 1; intros Ho; pose proof (start_of_bounds o Ho); [zlen_pos|]; unfold HEADER_BYTES, BLOCK_BYTES in *; lia.
Qed.

Lemma slice_drop {A} a b (l : list A) : slice a b l = take (Z.to_nat (b - a)) (drop (Z.to_nat a) l).
Proof. done. Qed.

(** The writing loop appends exactly such a layout, and terminates within the
    fuel of [write_logical_record]. *)
Lemma write_fragments_spec logical fuel position first w :
  0 ≤ position < zlen logical → 0 ≤ fw_offset w ≤ BLOCK_BYTES →
  2 * (zlen logical - position) + (if fw_offset w =? BLOCK_BYTES then 1 else 2)
    ≤ Z.of_nat fuel →
  ∃ phys o', frags (fw_offset w) first (drop (Z.to_nat position) logical) phys o' ∧
    write_fragments fuel logical position first w =
      Ok {| fw_file := fw_file w ++ phys; fw_offset := o' |}.
Proof.
  revert position first w. induction fuel as [|fuel IH]; intros position first w Hp Ho Hf.
  { destruct (fw_offset w =? BLOCK_BYTES); lia. }
  cbn [write_fragments]. rewrite (proj2 (Z.ltb_lt _ _)) by lia.
  pose proof (start_of_bounds _ Ho) as Hstart.
  set (w1 := if _ <? HEADER_BYTES then _ else w).
  assert (fw_offset w1 = start_of (fw_offset w)) as Hw1.
  { unfold w1, start_of. by destruct (_ <? HEADER_BYTES). }
  assert (fw_file w1 = fw_file w ++ pad_of (fw_offset w)) as Hf1.
  { unfold w1, pad_of. destruct (_ <? HEADER_BYTES); [done|]. by rewrite app_nil_r. }
  rewrite Hw1. cbn [fw_file fw_offset write_all]. rewrite Hw1, Hf1.
  set (o1 := start_of (fw_offset w)) in *.
  set (rem := drop (Z.to_nat position) logical).
  assert (zlen rem = zlen logical - position) as Hrem by (apply zlen_drop; lia).
  set (n := Z.min _ _).
  assert (0 ≤ n ≤ zlen rem) as Hn by (unfold n, HEADER_BYTES in *; lia).
  rewrite slice_drop. replace (position + n - position) with n by lia. fold rem.
  set (c := take (Z.to_nat n) rem).
  assert (zlen c = n) as Hc by (apply zlen_take; lia).
  rewrite (proj2 (Z.leb_le n U16_MAX)) by (unfold n, U16_MAX, BLOCK_BYTES, HEADER_BYTES in *; lia).
  destruct (Z.eqb_spec (position + n) (zlen logical)) as [Hlast|Hmore].
  - assert (c = rem) as Hcr.
    { unfold c. apply take_ge. clearbody rem n. unfold zlen in *. lia. }
    exists (pad_of (fw_offset w) ++ frame_fragment (if first then FULL else LAST) rem),
      (o1 + HEADER_BYTES + zlen rem). split.
    { apply frags_last. fold o1. unfold n in *. lia. }
    destruct fuel as [|fuel]; [destruct (fw_offset w =? BLOCK_BYTES); lia|].
    cbn [write_fragments]. rewrite (proj2 (Z.ltb_ge _ _)) by lia.
    do 2 f_equal; [|lia]. unfold frame_fragment. rewrite <- !app_assoc, Hcr.
    replace n with (zlen rem) by lia. by destruct first.
  - assert (n = BLOCK_BYTES - o1 - HEADER_BYTES) as Hn' by (unfold n in *; lia).
    assert (rem = c ++ drop (Z.to_nat n) rem) as Hsplit by (symmetry; apply take_drop).
    edestruct (IH (position + n) false) as (phys & o' & Hfr & Hwr); cycle 3.
    { rewrite Hwr. cbn [fw_file fw_offset] in *.
      replace (o1 + (HEADER_BYTES + n)) with BLOCK_BYTES in Hfr by lia.
      exists (pad_of (fw_offset w) ++ frame_fragment (if first then FIRST else MIDDLE) c ++ phys), o'.
      split.
      - rewrite Hsplit. apply frags_more; [unfold o1 in *; lia| |].
        + intros Hnil. apply (f_equal zlen) in Hnil. rewrite zlen_drop in Hnil by lia.
          zlen_nils. lia.
        + unfold rem. rewrite drop_drop. replace (Z.to_nat position + Z.to_nat n)%nat
            with (Z.to_nat (position + n)) by lia. done.
      - unfold frame_fragment. rewrite Hc. rewrite <- !app_assoc. by destruct first. }
    + lia.
    + cbn [fw_offset]. lia.
    + cbn [fw_offset]. rewrite (proj2 (Z.eqb_eq _ _)) by lia.
      destruct (Z.eqb_spec (fw_offset w) BLOCK_BYTES) as [Hb|Hb]; [|lia].
      assert (o1 = 0) by (unfold o1, start_of; by rewrite Hb). unfold BLOCK_BYTES, HEADER_BYTES in *. lia.
Qed.

Lemma write_logical_record_spec w logical :
  0 ≤ fw_offset w ≤ BLOCK_BYTES → logical ≠ [] →
  ∃ phys o', frags (fw_offset w) true logical phys o' ∧
    write_logical_record w logical = Ok {| fw_file := fw_file w ++ phys; fw_offset := o' |}.
Proof.
  intros Ho Hne. apply (write_fragments_spec logical (write_fuel logical) 0 true w); [|done|].
  - unfold zlen. destruct logical; [done|]. cbn. lia.
  - unfold write_fuel, zlen. destruct (_ =? _); lia.
Qed.
End Layout.

(** A record has one layout per offset. *)
Lemma frags_det `{C : Crc32c} o first rem phys o' phys2 o2 :
  frags o first rem phys o' → frags o first rem phys2 o2 → phys = phys2 ∧ o' = o2.
Proof.
  intros H. revert phys2 o2.
  induction H as [o first rem Hfit|o first c rem phys o' Hfit Hne H IH]; intros phys2 o2 H2.
  - inversion H2 as [|? ? c2 rem2 phys3 ? Hfit2 Hne2]; subst; [done|].
    rewrite zlen_app in Hfit. assert (zlen rem2 = 0) by (zlen_pos; lia).
    by destruct Hne2; apply zlen_0_nil.
  - inversion H2 as [? ? ? Hfit2|? ? c2 rem2 phys3 ? Hfit2 Hne2 H3]; subst.
    + rewrite zlen_app in Hfit2. assert (zlen rem = 0) by (zlen_pos; lia).
      by destruct Hne; apply zlen_0_nil.
    + assert (c = c2 ∧ rem = rem2) as [<- <-].
      { apply app_inj_1; [unfold zlen in *; lia|done]. }
      by destruct (IH _ _ H3) as [-> ->].
Qed.

(** ** Replaying a prefix of a framed log *)

(** The contract between the scanner and a reader.  [fl_rel st pending a] relates
    the reader's state to the record being assembled ([None], or its start and
    its bytes so far) and the records delivered so far; [fl_deliver] is what the
    reader does with a whole record, [fl_out] its result at a valid length. *)
Class FrameLaws {St R : Type} (FR : FrameReader St R) (A : Type) : Type := {
  fl_limit : Z;
  fl_rel : St → option (Z * bytes) → A → Prop;
  fl_deliver : A → bytes → result A;
  fl_out : A → Z → R;
  fl_full : ∀ pos st a f a', fl_rel st None a → zlen f ≤ fl_limit → fl_deliver a f = Ok a' →
    ∃ st', fr_step pos st FULL f = Ok st' ∧ fl_rel st' None a';
  fl_first : ∀ pos st a f, fl_rel st None a → zlen f ≤ fl_limit →
    ∃ st', fr_step pos st FIRST f = Ok st' ∧ fl_rel st' (Some (pos, f)) a;
  fl_middle : ∀ pos st a s p f, fl_rel st (Some (s, p)) a → zlen (p ++ f) ≤ fl_limit →
    ∃ st', fr_step pos st MIDDLE f = Ok st' ∧ fl_rel st' (Some (s, p ++ f)) a;
  fl_last : ∀ pos st a s p f a', fl_rel st (Some (s, p)) a → zlen (p ++ f) ≤ fl_limit →
    fl_deliver a (p ++ f) = Ok a' →
    ∃ st', fr_step pos st LAST f = Ok st' ∧ fl_rel st' None a';
  fl_torn_idle : ∀ pos st a, fl_rel st None a → fr_torn pos st = fl_out a pos;
  fl_torn_pending : ∀ pos st a s p, fl_rel st (Some (s, p)) a → fr_torn pos st = fl_out a s;
  fl_end_idle : ∀ n st a, fl_rel st None a → fr_end n st = fl_out a n;
  fl_end_pending : ∀ n st a s p, fl_rel st (Some (s, p)) a → fr_end n st = fl_out a s
}.

Section Replay.
  Context `{C : Crc32c} {CR : Crc32cRange C}.
  Context {St R A : Type} {FR : FrameReader St R} {FL : FrameLaws FR A}.

(** The scan from inside a block, with its remaining fuel. *)
Definition resume (fb fo : nat) (file : bytes) (block_start offset : Z) (st : St) : result R :=
  let block := read_block file block_start in
  let final_block := block_start + zlen block =? zlen file in
  let? outcome := scan_block fb block block_start final_block offset st in
  match outcome with
  | Returned r => Ok r
  | FellThrough st =>
    if final_block then Ok (fr_end (zlen file) st)
    else scan_file fo file (block_start + zlen block) st
  end.

(** A scanning position inside the file, with enough fuel left. *)
Definition at_pos (fb fo : nat) (file : bytes) (bs off : Z) : Prop :=
  0 ≤ bs ∧ 0 ≤ off ≤ BLOCK_BYTES ∧ bs + off ≤ zlen file ∧ zlen file ≤ USIZE_MAX ∧
  Z.min BLOCK_BYTES (zlen file - bs) - off < Z.of_nat fb ∧ zlen file - bs < Z.of_nat fo * BLOCK_BYTES.

Lemma read_block_len file bs :
  0 ≤ bs ≤ zlen file → zlen (read_block file bs) = Z.min BLOCK_BYTES (zlen file - bs).
Proof. intros. unfold read_block. rewrite zlen_slice; unfold BLOCK_BYTES; lia. Qed.

Lemma slice_slice {B} a b c d (l : list B) :
  0 ≤ a → 0 ≤ c ≤ d → d ≤ b - a → slice c d (slice a b l) = slice (a + c) (a + d) l.
Proof.
  intros. unfold slice. rewrite skipn_firstn_comm, drop_drop, take_take. f_equal; [lia|f_equal; lia].
Qed.

Lemma header_fields t c :
  zlen c ≤ U16_MAX →
  let h := fragment_header t c (zlen c) in
  zlen h = HEADER_BYTES ∧ unmask_checksum (from_le (slice 0 4 h)) = checksum t c ∧
  from_le (slice 4 6 h) = zlen c ∧ index_or_panic 6 h = Ok t.
Proof.
  intros Hc. unfold fragment_header. cbn zeta. pose proof (mask_checksum_u32 (checksum t c)) as Hm.
  assert (slice 0 4 (to_le 4 (masked_checksum t c) ++ to_le 2 (zlen c) ++ [t]) =
    to_le 4 (masked_checksum t c)) as -> by done.
  assert (slice 4 6 (to_le 4 (masked_checksum t c) ++ to_le 2 (zlen c) ++ [t]) =
    to_le 2 (zlen c)) as -> by done.
  split; [by zlen_simpl|]. split; [|split; [|done]].
  - rewrite from_le_to_le by (unfold is_u32, U32_MAX, masked_checksum in *; lia).
    apply unmask_mask, crc32c_append_u32.
  - apply from_le_to_le. unfold U16_MAX in Hc. zlen_pos. lia.
Qed.

(** Inside a block, what the block shows is what the file holds. *)
Lemma block_slice file bs off a b x rest :
  drop (Z.to_nat (bs + off)) file = x ++ rest →
  0 ≤ bs → 0 ≤ off → bs + off ≤ zlen file → off + zlen x ≤ BLOCK_BYTES →
  a = off → b = off + zlen x → slice a b (read_block file bs) = x.
Proof.
  intros Hd Hbs Hoff Hle Hfit -> ->. unfold read_block.
  pose proof (drop_fits' _ _ _ _ Hd ltac:(lia)). zlen_pos.
  rewrite slice_slice by lia. rewrite Z.add_assoc.
  eapply slice_at; [lia|done].
Qed.

(** A fragment the block can hold, found whole at the position, is stepped over. *)
Lemma resume_fragment fb fo file bs off st t c rest :
  drop (Z.to_nat (bs + off)) file = frame_fragment t c ++ rest →
  at_pos (S fb) fo file bs off → off + HEADER_BYTES + zlen c ≤ BLOCK_BYTES →
  resume (S fb) fo file bs off st =
    let? st' := fr_step (bs + off) st t c in
    resume fb fo file bs (off + HEADER_BYTES + zlen c) st'.
Proof.
  intros Hd (Hbs & Hoff & Hin & Hmax & Hfb & Hfo) Hfit.
  assert (zlen c ≤ U16_MAX) as Hc by (unfold U16_MAX, BLOCK_BYTES, HEADER_BYTES in *; lia).
  destruct (header_fields t c Hc) as (Hlen & Hsum & Hflen & Hty).
  pose proof (drop_fits' _ _ _ _ Hd ltac:(lia)) as Hfits.
  unfold frame_fragment in Hd, Hfits. rewrite zlen_app, Hlen in Hfits. rewrite <- app_assoc in Hd.
  pose proof (drop_advance' _ _ _ _ Hd ltac:(lia)) as Hd2. rewrite Hlen, <- Z.add_assoc in Hd2.
  unfold resume. cbn [scan_block]. rewrite read_block_len by lia. zlen_pos.
  set (bl := Z.min BLOCK_BYTES (zlen file - bs)).
  assert (off + HEADER_BYTES + zlen c ≤ bl) as Hbl by (unfold bl; lia).
  rewrite (proj2 (Z.ltb_lt off bl)) by (unfold HEADER_BYTES in *; lia).
  rewrite (proj2 (Z.ltb_ge (bl - off) _)) by lia.
  rewrite (block_slice file bs off _ _ _ _ Hd) by (lia || done).
  rewrite Hflen, Hty, Hsum. unfold checked_add.
  assert (bl ≤ USIZE_MAX) by (unfold bl, BLOCK_BYTES, USIZE_MAX, U64_MAX; lia).
  rewrite (proj2 (Z.leb_le (off + HEADER_BYTES) _)) by lia.
  rewrite (proj2 (Z.leb_le (off + HEADER_BYTES + zlen c) _)) by lia. cbn [ok_or].
  rewrite (proj2 (Z.ltb_ge bl _)) by lia.
  rewrite (block_slice file bs (off + HEADER_BYTES) _ _ _ _ Hd2) by (unfold HEADER_BYTES in *; lia || done).
  rewrite Z.eqb_refl. cbn [negb]. by destruct (fr_step _ st t c).
Qed.

Lemma existsb_zeros n : existsb (λ b, negb (b =? 0)) (replicate n 0) = false.
Proof. induction n; [done|]. done. Qed.

(** A zero trailer is skipped when the file goes on behind it. *)
Lemma resume_pad fb fo file bs off st rest :
  drop (Z.to_nat (bs + off)) file = replicate (Z.to_nat (BLOCK_BYTES - off)) 0 ++ rest →
  rest ≠ [] → BLOCK_BYTES - off < HEADER_BYTES → at_pos fb fo file bs off →
  ∃ fb' fo', resume fb fo file bs off st = resume fb' fo' file (bs + BLOCK_BYTES) 0 st ∧
    at_pos fb' fo' file (bs + BLOCK_BYTES) 0 ∧
    drop (Z.to_nat (bs + BLOCK_BYTES + 0)) file = rest.
Proof.
  intros Hd Hne Hpad (Hbs & Hoff & Hin & Hmax & Hfb & Hfo).
  assert (0 < zlen rest) as Hrest by (destruct rest; [done|zlen_lia]).
  pose proof (drop_total _ _ _ Hd ltac:(lia)) as Htot. zlen_simpl.
  assert (zlen file = bs + BLOCK_BYTES + zlen rest) as Hlen by lia. clear Htot.
  assert (drop (Z.to_nat (bs + BLOCK_BYTES + 0)) file = rest) as Hd2.
  { pose proof (drop_advance' _ _ _ _ Hd ltac:(lia)) as H. zlen_simpl.
    rewrite <- H. do 2 f_equal. lia. }
  assert (zlen (read_block file bs) = BLOCK_BYTES) as Hb.
  { rewrite read_block_len; unfold BLOCK_BYTES in *; lia. }
  assert (∃ fuel, fb = S fuel) as [fb1 ->] by (exists (pred fb); lia).
  assert (2 ≤ Z.of_nat fo) as Hfo2 by (unfold BLOCK_BYTES in *; lia).
  destruct fo as [|fo]; [lia|].
  exists (S (length (read_block file (bs + BLOCK_BYTES)))), fo. split; [|split; [|done]].
  - unfold resume at 1. rewrite Hb, (proj2 (Z.eqb_neq _ _)) by lia.
    assert (scan_block (S fb1) (read_block file bs) bs false off st = Ok (FellThrough st)) as ->.
    { cbn [scan_block]. rewrite Hb. destruct (Z.ltb_spec off BLOCK_BYTES); [|done].
      rewrite (proj2 (Z.ltb_lt _ HEADER_BYTES)) by lia.
      rewrite (block_slice file bs off _ _ _ _ Hd) by (rewrite ?zlen_replicate; lia).
      by rewrite existsb_zeros. }
    cbn [scan_file]. rewrite read_block_len by lia.
    rewrite (proj2 (Z.eqb_neq (Z.min _ _) 0)) by (unfold BLOCK_BYTES in *; lia).
    unfold resume. by rewrite read_block_len by lia.
  - unfold at_pos. pose proof (read_block_len file (bs + BLOCK_BYTES) ltac:(lia)) as Hr.
    unfold zlen in Hr at 1. unfold BLOCK_BYTES in *. lia.
Qed.

(** Where a replay stops: at the start of an unfinished record, else here. *)
Definition stop_at (pending : option (Z * bytes)) (pos : Z) : Z :=
  match pending with Some (s, _) => s | None => pos end.

Lemma torn_out pos st pending a :
  fl_rel st pending a → fr_torn pos st = fl_out a (stop_at pending pos).
Proof.
  destruct pending as [[s p]|]; [apply fl_torn_pending|apply fl_torn_idle].
Qed.
Lemma end_out pos st pending a :
  fl_rel st pending a → fr_end pos st = fl_out a (stop_at pending pos).
Proof.
  destruct pending as [[s p]|]; [apply fl_end_pending|apply fl_end_idle].
Qed.

(** The file ends in this block, before a whole header. *)
Lemma resume_short fb fo file bs off st pending a :
  at_pos fb fo file bs off → zlen file ≤ bs + BLOCK_BYTES →
  zlen file - (bs + off) < HEADER_BYTES → fl_rel st pending a →
  resume fb fo file bs off st = Ok (fl_out a (stop_at pending (bs + off))).
Proof.
  intros (Hbs & Hoff & Hin & Hmax & Hfb & Hfo) Hfin Hshort Hrel.
  assert (∃ fuel, fb = S fuel) as [fb1 ->] by (exists (pred fb); lia).
  unfold resume. cbn [scan_block]. rewrite read_block_len by lia.
  replace (Z.min _ _) with (zlen file - bs) by lia.
  rewrite (proj2 (Z.eqb_eq _ _)) by lia.
  destruct (Z.ltb_spec off (zlen file - bs)).
  - rewrite (proj2 (Z.ltb_lt _ HEADER_BYTES)) by lia. f_equal. by apply torn_out.
  - rewrite (end_out (zlen file) st pending a) by done. do 3 f_equal. lia.
Qed.

(** The file ends inside a fragment. *)
Lemma resume_torn fb fo file bs off st pending a t c m :
  drop (Z.to_nat (bs + off)) file = take (Z.to_nat m) (frame_fragment t c) →
  0 ≤ m < HEADER_BYTES + zlen c → at_pos fb fo file bs off →
  off + HEADER_BYTES + zlen c ≤ BLOCK_BYTES → fl_rel st pending a →
  resume fb fo file bs off st = Ok (fl_out a (stop_at pending (bs + off))).
Proof.
  intros Hd Hm Hat Hfit Hrel. pose proof Hat as (Hbs & Hoff & Hin & Hmax & Hfb & Hfo).
  assert (zlen c ≤ U16_MAX) as Hc by (unfold U16_MAX, BLOCK_BYTES, HEADER_BYTES in *; lia).
  destruct (header_fields t c Hc) as (Hlen & _ & Hflen & Hty).
  pose proof (drop_total _ _ _ Hd ltac:(lia)) as Htot.
  rewrite zlen_take in Htot by (unfold frame_fragment; rewrite zlen_app, Hlen; lia).
  destruct (Z.lt_ge_cases m HEADER_BYTES).
  { apply resume_short; [done|lia|lia|done]. }
  assert (∃ fuel, fb = S fuel) as [fb1 ->] by (exists (pred fb); lia).
  assert (take (Z.to_nat m) (frame_fragment t c) =
    fragment_header t c (zlen c) ++ take (Z.to_nat (m - HEADER_BYTES)) c) as Ht.
  { unfold frame_fragment. clear -Hlen H Hm. revert Hlen.
    generalize (fragment_header t c (zlen c)) as h. intros h Hh.
    rewrite take_app_ge by (unfold zlen in *; lia). do 2 f_equal. unfold zlen in *. lia. }
  rewrite Ht in Hd. unfold resume. cbn [scan_block]. rewrite read_block_len by lia.
  replace (Z.min _ _) with (zlen file - bs) by lia.
  rewrite (proj2 (Z.eqb_eq _ _)) by lia.
  rewrite (proj2 (Z.ltb_lt off _)) by (unfold HEADER_BYTES in *; lia).
  rewrite (proj2 (Z.ltb_ge _ HEADER_BYTES)) by lia.
  rewrite (block_slice file bs off _ _ _ _ Hd) by (zlen_pos; lia || done).
  rewrite Hflen, Hty. unfold checked_add.
  rewrite (proj2 (Z.leb_le (off + HEADER_BYTES) _)) by (unfold USIZE_MAX, U64_MAX, BLOCK_BYTES, HEADER_BYTES in *; zlen_pos; lia).
  rewrite (proj2 (Z.leb_le (off + HEADER_BYTES + zlen c) _)) by (unfold USIZE_MAX, U64_MAX, BLOCK_BYTES, HEADER_BYTES in *; zlen_pos; lia).
  cbn [ok_or]. rewrite (proj2 (Z.ltb_lt (zlen file - bs) _)) by lia.
  f_equal. by apply torn_out.
Qed.

Lemma zlen_pad_of off :
  off ≤ BLOCK_BYTES →
  0 ≤ zlen (pad_of off) < HEADER_BYTES ∧
  (pad_of off = [] ∨ zlen (pad_of off) = BLOCK_BYTES - off).
Proof.
  unfold pad_of, HEADER_BYTES. intros Hoff. destruct (Z.ltb_spec (BLOCK_BYTES - off) 7).
  - rewrite zlen_replicate. split; [lia|]. right. lia.
  - zlen_nils. split; [lia|]. by left.
Qed.

(** The next fragment is reached through its padding. *)
Lemma resume_start fb fo file bs off st x :
  drop (Z.to_nat (bs + off)) file = pad_of off ++ x → x ≠ [] → at_pos fb fo file bs off →
  ∃ fb' fo' bs', resume fb fo file bs off st = resume (S fb') fo' file bs' (start_of off) st ∧
    at_pos (S fb') fo' file bs' (start_of off) ∧
    bs' + start_of off = bs + off + zlen (pad_of off) ∧
    drop (Z.to_nat (bs' + start_of off)) file = x.
Proof.
  intros Hd Hx Hat. pose proof Hat as (Hbs & Hoff & Hin & _ & Hfb & _).
  unfold pad_of, start_of in *. destruct (Z.ltb_spec (BLOCK_BYTES - off) HEADER_BYTES).
  - destruct (resume_pad fb fo file bs off st x) as (fb' & fo' & Hres & Hat' & Hd'); [done..|].
    destruct fb' as [|fb']. { destruct Hat' as (?&?&?&?&?&?). lia. }
    exists fb', fo', (bs + BLOCK_BYTES). do 2 (split; [done|]). split; [zlen_lia|done].
  - destruct fb as [|fb]; [lia|]. exists fb, fo, bs. do 2 (split; [done|]). split; [zlen_lia|done].
Qed.

Definition pending_bytes (pending : option (Z * bytes)) : bytes :=
  match pending with Some (_, p) => p | None => [] end.

Lemma at_pos_advance fb fo file bs off n :
  at_pos (S fb) fo file bs off → 0 < n → bs + off + n ≤ zlen file → off + n ≤ BLOCK_BYTES →
  at_pos fb fo file bs (off + n).
Proof. unfold at_pos. lia. Qed.

Lemma frame_fragment_len t c : zlen (frame_fragment t c) = HEADER_BYTES + zlen c.
Proof. unfold frame_fragment, fragment_header, HEADER_BYTES. zlen_lia. Qed.

Lemma frame_fragment_nonempty t c n :
  0 < n → take (Z.to_nat n) (frame_fragment t c) ≠ [].
Proof.
  intros Hn. unfold frame_fragment, fragment_header.
  destruct (to_le 4 (masked_checksum t c)) eqn:E.
  - apply (f_equal length) in E. rewrite to_le_length in E. done.
  - destruct (Z.to_nat n) eqn:En; [lia|done].
Qed.

(** The reader's answer to the fragment types of a record. *)
Lemma step_more pos st pending a (first : bool) c :
  fl_rel st pending a → first = bool_decide (pending = None) →
  zlen (pending_bytes pending ++ c) ≤ fl_limit →
  ∃ st' s, fr_step pos st (if first then FIRST else MIDDLE) c = Ok st' ∧
    fl_rel st' (Some (s, pending_bytes pending ++ c)) a ∧ s = stop_at pending pos.
Proof.
  intros Hrel -> Hlim. destruct pending as [[s p]|]; cbn in *.
  - destruct (fl_middle pos st a s p c Hrel Hlim) as (st' & H1 & H2). eauto.
  - destruct (fl_first pos st a c Hrel Hlim) as (st' & H1 & H2). eauto.
Qed.

Lemma step_last pos st pending a (first : bool) c a' :
  fl_rel st pending a → first = bool_decide (pending = None) →
  zlen (pending_bytes pending ++ c) ≤ fl_limit →
  fl_deliver a (pending_bytes pending ++ c) = Ok a' →
  ∃ st', fr_step pos st (if first then FULL else LAST) c = Ok st' ∧ fl_rel st' None a'.
Proof.
  intros Hrel -> Hlim Hdel. destruct pending as [[s p]|]; cbn in *.
  - by apply (fl_last pos st a s p c a').
  - by apply (fl_full pos st a c a').
Qed.

Lemma frame_app_nonempty t c rest : frame_fragment t c ++ rest ≠ [].
Proof.
  intros Hnil. apply (f_equal zlen) in Hnil. rewrite zlen_app, frame_fragment_len in Hnil.
  zlen_nils. unfold HEADER_BYTES in Hnil. zlen_pos. lia.
Qed.

(** One whole fragment behind its padding is handed to the reader. *)
Lemma resume_over fb fo file bs off st t c rest st' :
  drop (Z.to_nat (bs + off)) file = pad_of off ++ frame_fragment t c ++ rest →
  at_pos fb fo file bs off → start_of off + HEADER_BYTES + zlen c ≤ BLOCK_BYTES →
  fr_step (bs + off + zlen (pad_of off)) st t c = Ok st' →
  ∃ fb' fo' bs', resume fb fo file bs off st =
      resume fb' fo' file bs' (start_of off + HEADER_BYTES + zlen c) st' ∧
    at_pos fb' fo' file bs' (start_of off + HEADER_BYTES + zlen c) ∧
    bs' + (start_of off + HEADER_BYTES + zlen c) =
      bs + off + zlen (pad_of off ++ frame_fragment t c) ∧
    drop (Z.to_nat (bs' + (start_of off + HEADER_BYTES + zlen c))) file = rest.
Proof.
  intros Hd Hat Hfit Hst.
  destruct (resume_start fb fo file bs off st _ Hd (frame_app_nonempty t c rest) Hat)
    as (fb' & fo' & bs' & -> & Hat' & Hpos & Hd').
  rewrite (resume_fragment fb' fo' file bs' _ st t c rest Hd' Hat'), Hpos, Hst by lia.
  pose proof Hat' as (? & ? & ? & _). pose proof (drop_fits' _ _ _ _ Hd' ltac:(lia)) as Hfits.
  pose proof (drop_advance' _ _ _ _ Hd' ltac:(lia)) as Hd2.
  rewrite zlen_app, frame_fragment_len in *.
  exists fb', fo', bs'. split; [done|]. split.
  { rewrite <- Z.add_assoc. apply at_pos_advance; [done|unfold HEADER_BYTES; zlen_pos; lia|lia|lia]. }
  split; [lia|]. rewrite <- Hd2. do 2 f_equal. lia.
Qed.

(** A record that is whole in the file is delivered. *)
Lemma resume_record file off first rem phys o' :
  frags off first rem phys o' →
  ∀ fb fo bs st rest pending a a',
  drop (Z.to_nat (bs + off)) file = phys ++ rest → at_pos fb fo file bs off →
  first = bool_decide (pending = None) → fl_rel st pending a →
  zlen (pending_bytes pending ++ rem) ≤ fl_limit →
  fl_deliver a (pending_bytes pending ++ rem) = Ok a' →
  ∃ fb' fo' bs' st', resume fb fo file bs off st = resume fb' fo' file bs' o' st' ∧
    at_pos fb' fo' file bs' o' ∧ fl_rel st' None a' ∧
    bs' + o' = bs + off + zlen phys ∧ drop (Z.to_nat (bs' + o')) file = rest.
Proof.
  induction 1 as [off first rem Hfit|off first c rem phys o' Hfit Hne Hfr IH];
    intros fb fo bs st rest pending a a' Hd Hat Hfirst Hrel Hlim Hdel; rewrite <- !app_assoc in Hd.
  - destruct (step_last (bs + off + zlen (pad_of off)) st pending a first rem a')
      as (st' & Hst & Hrel'); [done..|].
    destruct (resume_over _ _ _ _ _ _ _ _ _ _ Hd Hat ltac:(lia) Hst)
      as (fb' & fo' & bs' & -> & Hat' & Hpos & Hd').
    exists fb', fo', bs', st'. done.
  - destruct (step_more (bs + off + zlen (pad_of off)) st pending a first c)
      as (st' & s & Hst & Hrel' & _);
      [done..|rewrite app_assoc, zlen_app in Hlim; zlen_pos; lia|].
    destruct (resume_over _ _ _ _ _ _ _ _ _ _ Hd Hat ltac:(lia) Hst)
      as (fb' & fo' & bs' & -> & Hat' & Hpos & Hd').
    replace (start_of off + HEADER_BYTES + zlen c) with BLOCK_BYTES in * by lia.
    rewrite app_assoc in Hlim, Hdel.
    destruct (IH fb' fo' bs' st' rest (Some (s, pending_bytes pending ++ c)) a a')
      as (fb2 & fo2 & bs2 & st2 & -> & Hat2 & Hrel2 & Hpos2 & Hd3); [done..|].
    exists fb2, fo2, bs2, st2. do 3 (split; [done|]). rewrite !zlen_app in *. split; [lia|done].
Qed.

Lemma take_app_more {B} (x y : list B) m :
  zlen x ≤ m → take (Z.to_nat m) (x ++ y) = x ++ take (Z.to_nat (m - zlen x)) y.
Proof.
  intros Hm. unfold zlen in *. rewrite take_app_ge by lia. do 2 f_equal. lia.
Qed.

Lemma take_app_less {B} (x y : list B) m :
  m ≤ zlen x → take (Z.to_nat m) (x ++ y) = take (Z.to_nat m) x.
Proof. intros Hm. unfold zlen in *. by rewrite take_app_le by lia. Qed.

(** A record cut short is not delivered; the replay stops at its start, or behind
    the trailer in front of it. *)
Lemma resume_record_torn file off first rem phys o' :
  frags off first rem phys o' →
  ∀ fb fo bs st pending a m,
  drop (Z.to_nat (bs + off)) file = take (Z.to_nat m) phys → 0 ≤ m < zlen phys →
  at_pos fb fo file bs off →
  first = bool_decide (pending = None) → fl_rel st pending a →
  zlen (pending_bytes pending ++ rem) ≤ fl_limit →
  ∃ d, resume fb fo file bs off st = Ok (fl_out a (stop_at pending (bs + off + d))) ∧
    (d = 0 ∨ d = zlen (pad_of off) ∧ d ≤ m).
Proof.
  induction 1 as [off first rem Hfit|off first c rem phys o' Hfit Hne Hfr IH];
    intros fb fo bs st pending a m Hd Hm Hat Hfirst Hrel Hlim;
    pose proof Hat as (Hbs & Hoff & Hin & _); destruct (zlen_pad_of off) as [Hpad Hpad2]; [lia| |lia|];
    (destruct (Z.le_gt_cases m (zlen (pad_of off))) as [Hcut|Hcut];
     [ exists 0; rewrite Z.add_0_r; split; [|by left];
       pose proof (drop_total _ _ _ Hd ltac:(lia)) as Htot; rewrite zlen_take in Htot by lia;
       apply resume_short; [done| |lia|done];
       destruct Hpad2 as [Hnil|?]; [rewrite Hnil in Hcut; zlen_nils; lia|lia] |]).
  - set (t := if first then FULL else LAST) in *.
    rewrite take_app_more in Hd by lia.
    destruct (resume_start fb fo file bs off st _ Hd) as (fb' & fo' & bs' & -> & Hat' & Hpos & Hd');
      [apply frame_fragment_nonempty; lia|done|].
    rewrite zlen_app, frame_fragment_len in Hm.
    rewrite (resume_torn _ _ _ _ _ _ pending a t rem _ Hd') by (done || lia).
    exists (zlen (pad_of off)). split; [by rewrite Hpos|]. right. lia.
  - set (t := if first then FIRST else MIDDLE) in *.
    rewrite take_app_more in Hd by lia.
    rewrite !zlen_app, frame_fragment_len in Hm.
    destruct (Z.lt_ge_cases (m - zlen (pad_of off)) (HEADER_BYTES + zlen c)) as [Hin1|Hout1].
    + rewrite take_app_less in Hd by (rewrite frame_fragment_len; lia).
      destruct (resume_start fb fo file bs off st _ Hd) as (fb' & fo' & bs' & -> & Hat' & Hpos & Hd');
        [apply frame_fragment_nonempty; lia|done|].
      rewrite (resume_torn _ _ _ _ _ _ pending a t c _ Hd') by (done || lia).
      exists (zlen (pad_of off)). split; [by rewrite Hpos|]. right. lia.
    + rewrite take_app_more in Hd by (rewrite frame_fragment_len; lia).
      destruct (step_more (bs + off + zlen (pad_of off)) st pending a first c)
        as (st' & s & Hst & Hrel' & Hs);
        [done..|rewrite app_assoc, zlen_app in Hlim; zlen_pos; lia|].
      destruct (resume_over _ _ _ _ _ _ _ _ _ _ Hd Hat ltac:(lia) Hst)
        as (fb' & fo' & bs' & -> & Hat' & Hpos & Hd').
      replace (start_of off + HEADER_BYTES + zlen c) with BLOCK_BYTES in * by lia.
      rewrite app_assoc in Hlim. rewrite frame_fragment_len in Hd'.
      destruct (IH fb' fo' bs' st' (Some (s, pending_bytes pending ++ c)) a _ Hd') as (d & Hres & _);
        [lia|done..|].
      exists (zlen (pad_of off)). split; [|right; lia]. by rewrite Hres, Hs.
Qed.

(** ** Logs *)

(** A whole log: the layouts of its records, one after the other. *)
Inductive log_frames : Z → list bytes → bytes → Z → Prop :=
| log_nil o : log_frames o [] [] o
| log_cons o L phys o1 Ls phys' o2 :
    frags o true L phys o1 → log_frames o1 Ls phys' o2 →
    log_frames o (L :: Ls) (phys ++ phys') o2.

(** What a replay of a log cut after [m] bytes has seen: the records [done], whole
    in the prefix, while the next record (if any) is not. *)
Record cut_log (o : Z) (recs : list bytes) (phys : bytes) (m : Z)
    (done : list bytes) (p1 : bytes) (o1 : Z) : Prop := {
  cl_done : log_frames o done p1 o1;
  cl_fits : zlen p1 ≤ m;
  cl_rest : ∃ todo p2 o2, recs = done ++ todo ∧ phys = p1 ++ p2 ∧
    match todo with
    | [] => p2 = [] ∧ o2 = o1
    | L :: _ => ∃ pL oL p3, frags o1 true L pL oL ∧ p2 = pL ++ p3 ∧ m < zlen p1 + zlen pL
    end
}.

Lemma resume_log file o recs phys o' :
  log_frames o recs phys o' →
  ∀ fb fo bs st a a' m,
  drop (Z.to_nat (bs + o)) file = take (Z.to_nat m) phys → 0 ≤ m ≤ zlen phys →
  at_pos fb fo file bs o → fl_rel st None a →
  Forall (λ L, zlen L ≤ fl_limit) recs → try_fold fl_deliver a recs = Ok a' →
  ∃ done p1 o1 a1 d, cut_log o recs phys m done p1 o1 ∧
    try_fold fl_deliver a done = Ok a1 ∧
    resume fb fo file bs o st = Ok (fl_out a1 (bs + o + zlen p1 + d)) ∧
    (d = 0 ∨ d = zlen (pad_of o1) ∧ zlen p1 + d ≤ m).
Proof.
  induction 1 as [o|o L phys o1 Ls phys' o2 Hfr Hlog IH];
    intros fb fo bs st a a' m Hd Hm Hat Hrel Hlim Hdel.
  - exists [], [], o, a, 0. split.
    { split; [constructor|zlen_nils; lia|]. by exists [], [], o. }
    split; [done|]. zlen_nils. rewrite !Z.add_0_r. split; [|by left].
    pose proof Hat as (? & ? & ? & _). pose proof (drop_total _ _ _ Hd ltac:(lia)) as Htot.
    rewrite take_nil in Htot. zlen_nils.
    apply (resume_short fb fo file bs o st None a Hat); [lia|unfold HEADER_BYTES; lia|done].
  - apply Forall_cons in Hlim as [HL Hlim]. cbn [try_fold] in Hdel.
    destruct (fl_deliver a L) as [a1|] eqn:HdL; [|done].
    destruct (Z.lt_ge_cases m (zlen phys)) as [Hcut|Hwhole].
    + rewrite take_app_less in Hd by lia.
      destruct (resume_record_torn _ _ _ _ _ _ Hfr fb fo bs st None a m Hd) as (d & Hres & Hd2);
        [lia|done..|].
      exists [], [], o, a, d. split.
      { split; [constructor|zlen_nils; lia|]. exists (L :: Ls), (phys ++ phys'), o.
        do 2 (split; [done|]). exists phys, o1, phys'. zlen_nils. done. }
      split; [done|]. zlen_nils. rewrite Z.add_0_r. split; [done|]. lia.
    + rewrite zlen_app in Hm. rewrite take_app_more in Hd by lia.
      destruct (resume_record _ _ _ _ _ _ Hfr fb fo bs st _ None a a1 Hd)
        as (fb' & fo' & bs' & st' & -> & Hat' & Hrel' & Hpos & Hd'); [done..|].
      destruct (IH fb' fo' bs' st' a1 a' (m - zlen phys) Hd')
        as (dn & p1 & o3 & a3 & d & [C1 C2 C3] & Hf & Hres & Hdd); [lia|done..|].
      exists (L :: dn), (phys ++ p1), o3, a3, d. rewrite zlen_app. split.
      { split; [by econstructor|rewrite zlen_app; lia|].
        destruct C3 as (todo & p2 & o4 & -> & -> & Ht). exists todo, p2, o4.
        split; [done|]. split; [by rewrite app_assoc|]. destruct todo as [|L' todo]; [done|].
        destruct Ht as (pL & oL & p3 & ? & ? & ?). exists pL, oL, p3. rewrite zlen_app.
        do 2 (split; [done|]). lia. }
      split; [cbn [try_fold]; by rewrite HdL|]. split; [rewrite Hres, Hpos; do 2 f_equal; lia|].
      lia.
Qed.

(** Replaying any prefix of a log from its beginning. *)
Lemma scan_prefix recs phys o' st a a' m :
  log_frames 0 recs phys o' → 0 ≤ m ≤ zlen phys → zlen phys ≤ USIZE_MAX →
  fl_rel st None a → Forall (λ L, zlen L ≤ fl_limit) recs →
  try_fold fl_deliver a recs = Ok a' →
  ∃ done p1 o1 a1 d, cut_log 0 recs phys m done p1 o1 ∧
    try_fold fl_deliver a done = Ok a1 ∧
    scan (take (Z.to_nat m) phys) st = Ok (fl_out a1 (zlen p1 + d)) ∧
    (d = 0 ∨ d = zlen (pad_of o1) ∧ zlen p1 + d ≤ m).
Proof.
  intros Hlog Hm Hmax Hrel Hlim Hdel. set (file := take (Z.to_nat m) phys).
  assert (zlen file = m) as Hlen by (by apply zlen_take).
  assert (∀ fb fo, resume fb fo file 0 0 st = scan file st → at_pos fb fo file 0 0 →
    ∃ done p1 o1 a1 d, cut_log 0 recs phys m done p1 o1 ∧
    try_fold fl_deliver a done = Ok a1 ∧
    scan file st = Ok (fl_out a1 (zlen p1 + d)) ∧
    (d = 0 ∨ d = zlen (pad_of o1) ∧ zlen p1 + d ≤ m)) as Hgo.
  { intros fb fo <- Hat. by apply (resume_log file 0 recs phys o' Hlog fb fo 0 st a a' m). }
  unfold scan in *. cbn [scan_file] in *.
  rewrite read_block_len in * by lia.
  destruct (Z.eqb_spec (Z.min BLOCK_BYTES (zlen file - 0)) 0) as [H0|H0].
  - apply (Hgo 1%nat 1%nat).
    + rewrite (end_out (zlen file) st None a Hrel). cbn [stop_at].
      assert (zlen file = 0) as Hz by (unfold BLOCK_BYTES in *; zlen_pos; lia). rewrite Hz.
      apply (resume_short _ _ file 0 0 st None a); [|unfold BLOCK_BYTES, HEADER_BYTES; lia..|done].
      unfold at_pos, BLOCK_BYTES, USIZE_MAX, U64_MAX. lia.
    + unfold at_pos, BLOCK_BYTES, USIZE_MAX, U64_MAX in *. lia.
  - apply (Hgo (S (length (read_block file 0))) (length file)).
    + unfold resume. by rewrite read_block_len by lia.
    + unfold at_pos. pose proof (read_block_len file 0 ltac:(lia)) as Hr. revert Hr. revert Hlen H0.
      generalize (read_block file 0) as blk. intros blk Hlen H0 Hr.
      unfold zlen, BLOCK_BYTES, USIZE_MAX, U64_MAX in *. lia.
Qed.
End Replay.

(** ** Arbitrary files *)

Section AnyFile.
  Context `{C : Crc32c} {St R : Type} {FR : FrameReader St R}.

Lemma index_6_header off (block : bytes) :
  0 ≤ off → off + HEADER_BYTES ≤ zlen block →
  ∃ t, index_or_panic 6 (slice off (off + HEADER_BYTES) block) = Ok t.
Proof.
  intros Hoff Hlen. pose proof (zlen_slice off (off + HEADER_BYTES) block) as Hs.
  unfold HEADER_BYTES in *. specialize (Hs ltac:(lia) Hlen).
  set (h := slice off (off + 7) block) in *. unfold index_or_panic, get_at.
  destruct (h !! Z.to_nat 6) as [t|] eqn:E; [by exists t|].
  apply lookup_ge_None in E. unfold zlen in Hs. lia.
Qed.

(** Induction over a scan: what holds of the state and is kept by every accepted
    fragment holds of the state the result is computed from, and the scan panics
    only if the reader does. *)
Section Induction.
  Context (P : St → Prop).
  Hypothesis step_keeps : ∀ pos st t f, P st → bytes_ok f →
    safely P (fr_step pos st t f).
  Hypothesis corruption_plain : ∀ d, ∀ A (P : A → Prop), safely P (Err (fr_corruption d)).

Definition outcome_ok (o : scan_outcome St R) : Prop :=
  match o with
  | Returned r => ∃ pos st, P st ∧ r = fr_torn pos st
  | FellThrough st => P st
  end.

Lemma scan_block_ind fuel block bs final off st :
  P st → 0 ≤ off ≤ zlen block → zlen block - off < Z.of_nat fuel → bytes_ok block →
  safely outcome_ok (scan_block fuel block bs final off st).
Proof.
  revert off st. induction fuel as [|fuel IH]; intros off st HP Hoff Hfuel Hok; [lia|].
  cbn [scan_block]. destruct (Z.ltb_spec off (zlen block)) as [Hlt|]; [|done].
  destruct (Z.ltb_spec (zlen block - off) HEADER_BYTES) as [Hrem|Hrem].
  { destruct final; [by exists (bs + off), st|]. destruct (existsb _ _); [apply corruption_plain|done]. }
  destruct (index_6_header off block) as [t ->]; [lia..|].
  match goal with |- context [ok_or ?o _] => destruct o as [fe|] eqn:Efe end;
    cbn [ok_or]; [|apply corruption_plain]. destruct (Z.ltb_spec (zlen block) fe) as [Hfe|Hfe].
  { destruct final; [by exists (bs + off), st|apply corruption_plain]. }
  destruct (negb _); [apply corruption_plain|].
  assert (bytes_ok (slice (off + HEADER_BYTES) fe block)) as Hf by (by apply Forall_take, Forall_drop).
  pose proof (step_keeps (bs + off) st t _ HP Hf) as Hst.
  destruct (fr_step _ st t _) as [st'|[]]; try done.
  assert (off + HEADER_BYTES ≤ fe) as Hadv.
  { assert (0 ≤ from_le (slice 4 6 (slice off (off + HEADER_BYTES) block))).
    { apply from_le_bound. repeat apply Forall_take. apply Forall_drop, Forall_take.
      by apply Forall_drop. }
    unfold checked_add in Efe. destruct (_ <=? _); [|done]. destruct (_ <=? _); [|done].
    injection Efe as <-. lia. }
  apply IH; [done|unfold HEADER_BYTES in *; lia..|done].
Qed.

Lemma scan_file_ind fuel file bs st :
  P st → 0 ≤ bs ≤ zlen file → zlen file - bs < Z.of_nat fuel → bytes_ok file →
  safely (λ r, ∃ pos st, P st ∧ (r = fr_torn pos st ∨ r = fr_end pos st))
    (scan_file fuel file bs st).
Proof.
  revert bs st. induction fuel as [|fuel IH]; intros bs st HP Hbs Hfuel Hok; [lia|].
  cbn [scan_file]. destruct (_ =? 0) eqn:E0; to_prop. { exists (zlen file), st. auto. }
  pose proof (read_block_len file bs Hbs) as Hbl.
  pose proof (scan_block_ind (S (length (read_block file bs))) (read_block file bs) bs
    (bs + zlen (read_block file bs) =? zlen file) 0 st HP) as Hsb.
  destruct (scan_block _ _ _ _ _ _) as [[r|st']|[]]; try apply Hsb; try done.
  all: try (split; [lia|apply zlen_nonneg]); try (unfold zlen; lia); try by apply Forall_take, Forall_drop.
  - destruct Hsb as (pos & st' & ? & ->);
      [split; [lia|apply zlen_nonneg]|unfold zlen; lia|by apply Forall_take, Forall_drop|].
    exists pos, st'. auto.
  - assert (P st') as HP'.
    { apply Hsb; [split; [lia|apply zlen_nonneg]|unfold zlen; lia|by apply Forall_take, Forall_drop]. }
    destruct (_ =? zlen file) eqn:Ef; to_prop; [exists (zlen file), st'; auto|].
    apply IH; [done| | |done]; zlen_pos; unfold BLOCK_BYTES in *; lia.
Qed.

Lemma scan_ind file st :
  P st → bytes_ok file →
  safely (λ r, ∃ pos st, P st ∧ (r = fr_torn pos st ∨ r = fr_end pos st)) (scan file st).
Proof.
  intros HP Hok. apply scan_file_ind; [done|split; [lia|apply zlen_nonneg]|unfold zlen; lia|done].
Qed.
End Induction.
End AnyFile.

(** ** Streaming a scan

    A reader that collects what it delivers in a list, and a reader that hands each
    item to a callback: the second one's result is the callback folded over the
    first one's list. *)
Section FoldSim.
  Context `{C : Crc32c} {St0 R0 St1 R1 X A : Type} (FR0 : FrameReader St0 R0) (FR1 : FrameReader St1 R1).
  Context (f : A → X → result A) (a0 : A) (acc : St0 → list X) (racc : R0 → list X)
    (put : St0 → A → St1) (rput : R0 → A → R1).
  Hypothesis same_corruption : ∀ d, fr_corruption (FrameReader := FR1) d = fr_corruption (FrameReader := FR0) d.
  Hypothesis same_crosses : fr_crosses (FrameReader := FR1) = fr_crosses (FrameReader := FR0).
  Hypothesis step_extends : ∀ pos st t b st2,
    fr_step (FrameReader := FR0) pos st t b = Ok st2 → ∃ l, acc st2 = acc st ++ l.
  Hypothesis step_sim : ∀ pos st t b st2 a,
    try_fold f a0 (acc st) = Ok a → fr_step (FrameReader := FR0) pos st t b = Ok st2 →
    fr_step (FrameReader := FR1) pos (put st a) t b = let? a2 := try_fold f a0 (acc st2) in Ok (put st2 a2).
  Hypothesis step_back : ∀ pos st t b a st',
    fr_step (FrameReader := FR1) pos (put st a) t b = Ok st' → ∃ st2, fr_step (FrameReader := FR0) pos st t b = Ok st2.
  Hypothesis torn_sim : ∀ pos st, racc (fr_torn (FrameReader := FR0) pos st) = acc st ∧
    ∀ a, fr_torn (FrameReader := FR1) pos (put st a) = rput (fr_torn (FrameReader := FR0) pos st) a.
  Hypothesis end_sim : ∀ pos st, racc (fr_end (FrameReader := FR0) pos st) = acc st ∧
    ∀ a, fr_end (FrameReader := FR1) pos (put st a) = rput (fr_end (FrameReader := FR0) pos st) a.

Definition sim_acc (o : scan_outcome St0 R0) : list X :=
  match o with Returned r => racc r | FellThrough st => acc st end.
Definition sim_put (o : scan_outcome St0 R0) (a : A) : scan_outcome St1 R1 :=
  match o with Returned r => Returned (rput r a) | FellThrough st => FellThrough (put st a) end.

Lemma block_extends fuel block bs final off st o :
  scan_block (FR := FR0) fuel block bs final off st = Ok o → ∃ l, sim_acc o = acc st ++ l.
Proof using step_extends torn_sim.
  revert off st. induction fuel as [|fuel IH]; intros off st H; [done|].
  cbn [scan_block] in H.
  assert (∃ l, acc st = acc st ++ l) as Hnil by (exists []; by rewrite app_nil_r).
  inv_ok H; try (cbn [sim_acc]; rewrite ?(proj1 (torn_sim _ _)); done).
  match goal with E : fr_step _ _ _ _ = Ok _ |- _ => destruct (step_extends _ _ _ _ _ E) as [l2 Hl2] end.
  apply IH in H as [l3 Hl3]. exists (l2 ++ l3). by rewrite Hl3, Hl2, app_assoc.
Qed.

Lemma block_sim fuel block bs final off st a o :
  try_fold f a0 (acc st) = Ok a →
  scan_block (FR := FR0) fuel block bs final off st = Ok o →
  scan_block (FR := FR1) fuel block bs final off (put st a) = let? a' := try_fold f a0 (sim_acc o) in Ok (sim_put o a').
Proof using step_extends step_sim torn_sim same_corruption same_crosses.
  revert off st a. induction fuel as [|fuel IH]; intros off st a Hl H; [done|]. cbn [scan_block] in *.
  destruct (off <? zlen block); [|injection H as <-; cbn [sim_acc sim_put]; by rewrite Hl].
  destruct (_ <? HEADER_BYTES).
  { destruct final; [injection H as <-; cbn [sim_acc sim_put]; destruct (torn_sim (bs + off) st) as [-> ->]; by rewrite Hl|].
    destruct (existsb _ _); [done|]. injection H as <-. cbn [sim_acc sim_put]. by rewrite Hl. }
  destruct (index_or_panic 6 _) as [t|]; [|done].
  match type of H with context [ok_or ?x _] => destruct x as [fe|] end; cbn [ok_or] in *; [|done].
  destruct (zlen block <? fe).
  { destruct final; [|done]. injection H as <-. cbn [sim_acc sim_put]. destruct (torn_sim (bs + off) st) as [-> ->]. by rewrite Hl. }
  destruct (negb _); [done|].
  destruct (fr_step (FrameReader := FR0) _ _ _ _) as [st2|] eqn:Es; [|done].
  rewrite (step_sim _ _ _ _ _ _ Hl Es).
  destruct (try_fold f a0 (acc st2)) as [a2|e2] eqn:E2; [by apply IH|].
  apply block_extends in H as [l3 ->]. by rewrite try_fold_app, E2.
Qed.

Lemma block_back fuel block bs final off st a o :
  try_fold f a0 (acc st) = Ok a →
  scan_block (FR := FR1) fuel block bs final off (put st a) = Ok o →
  ∃ o0, scan_block (FR := FR0) fuel block bs final off st = Ok o0.
Proof using step_back step_sim same_corruption same_crosses.
  revert off st a. induction fuel as [|fuel IH]; intros off st a Hl H; [done|]. cbn [scan_block] in *.
  destruct (off <? zlen block); [|by eexists].
  destruct (_ <? HEADER_BYTES).
  { destruct final; [by eexists|]. destruct (existsb _ _); [done|]. by eexists. }
  destruct (index_or_panic 6 _) as [t|]; [|done].
  match type of H with context [ok_or ?x _] => destruct x as [fe|] end; cbn [ok_or] in *; [|done].
  destruct (zlen block <? fe). { destruct final; [by eexists|done]. }
  destruct (negb _); [done|].
  destruct (fr_step (FrameReader := FR1) _ _ _ _) as [st'|] eqn:Es; [|done].
  destruct (step_back _ _ _ _ _ _ Es) as [st2 Es2]. rewrite Es2.
  rewrite (step_sim _ _ _ _ _ _ Hl Es2) in Es.
  destruct (try_fold f a0 (acc st2)) as [a2|] eqn:E2; [|done]. injection Es as <-. by eapply IH.
Qed.

Lemma file_extends fuel file bs st r :
  scan_file (FR := FR0) fuel file bs st = Ok r → ∃ l, racc r = acc st ++ l.
Proof using step_extends torn_sim end_sim.
  revert bs st. induction fuel as [|fuel IH]; intros bs st H; [done|]. cbn [scan_file] in H.
  destruct (_ =? 0). { injection H as <-. exists []. rewrite app_nil_r. apply end_sim. }
  destruct (scan_block _ _ _ _ _ _) as [o|] eqn:E; [|done].
  apply block_extends in E as [l1 Hl1]. destruct o as [r'|st2]; cbn [sim_acc] in Hl1; [injection H as <-; eauto|].
  destruct (_ =? zlen file). { injection H as <-. exists l1. by rewrite (proj1 (end_sim _ _)). }
  apply IH in H as [l2 ->]. exists (l1 ++ l2). by rewrite Hl1, app_assoc.
Qed.

Lemma file_sim fuel file bs st a r :
  try_fold f a0 (acc st) = Ok a →
  scan_file (FR := FR0) fuel file bs st = Ok r →
  scan_file (FR := FR1) fuel file bs (put st a) = let? a' := try_fold f a0 (racc r) in Ok (rput r a').
Proof using step_extends step_sim torn_sim end_sim same_corruption same_crosses.
  revert bs st a. induction fuel as [|fuel IH]; intros bs st a Hl H; [done|]. cbn [scan_file] in *.
  destruct (_ =? 0). { injection H as <-. destruct (end_sim (zlen file) st) as [-> ->]. by rewrite Hl. }
  destruct (scan_block _ _ _ _ _ _) as [o|] eqn:E; [|done].
  rewrite (block_sim _ _ _ _ _ _ _ _ Hl E). destruct o as [r'|st2]; cbn [sim_acc sim_put].
  { injection H as <-. by destruct (try_fold f a0 (racc r')). }
  destruct (try_fold f a0 (acc st2)) as [a2|e2] eqn:E2; destruct (_ =? zlen file).
  - injection H as <-. destruct (end_sim (zlen file) st2) as [-> ->]. by rewrite E2.
  - by apply IH.
  - injection H as <-. destruct (end_sim (zlen file) st2) as [-> _]. by rewrite E2.
  - apply file_extends in H as [l ->]. by rewrite try_fold_app, E2.
Qed.

Lemma file_back fuel file bs st a r :
  try_fold f a0 (acc st) = Ok a →
  scan_file (FR := FR1) fuel file bs (put st a) = Ok r → ∃ r0, scan_file (FR := FR0) fuel file bs st = Ok r0.
Proof using step_extends step_back step_sim torn_sim same_corruption same_crosses.
  revert bs st a. induction fuel as [|fuel IH]; intros bs st a Hl H; [done|]. cbn [scan_file] in *.
  destruct (_ =? 0); [by eexists|].
  destruct (scan_block (FR := FR1) _ _ _ _ _ _) as [o|] eqn:E; [|done].
  destruct (block_back _ _ _ _ _ _ _ _ Hl E) as [o0 E0]. rewrite E0.
  rewrite (block_sim _ _ _ _ _ _ _ _ Hl E0) in E. destruct o0 as [r'|st2]; cbn [sim_acc sim_put] in E; [by eexists|].
  destruct (_ =? zlen file); [by eexists|].
  destruct (try_fold f a0 (acc st2)) as [a2|] eqn:E2; [|done]. injection E as <-. by eapply IH.
Qed.

(** The streaming scan succeeds with a result exactly when the collecting scan
    succeeds and the callback accepts its items in order. *)
Lemma scan_fold file st a r1 :
  try_fold f a0 (acc st) = Ok a →
  scan (FR := FR1) file (put st a) = Ok r1 ↔
  ∃ r a', scan (FR := FR0) file st = Ok r ∧ try_fold f a0 (racc r) = Ok a' ∧ r1 = rput r a'.
Proof using step_extends step_back step_sim torn_sim end_sim same_corruption same_crosses.
  intros Hl. unfold scan. split.
  - intros H. destruct (file_back _ _ _ _ _ _ Hl H) as [r Hr]. rewrite (file_sim _ _ _ _ _ _ Hl Hr) in H.
    destruct (try_fold f a0 (racc r)) as [a'|] eqn:E; [|done]. injection H as <-. by exists r, a'.
  - intros (r & a' & Hr & Ha & ->). by rewrite (file_sim _ _ _ _ _ _ Hl Hr), Ha.
Qed.
End FoldSim.
