(* ===== verification/InternalKey.v ===== *)
(** * Internal keys (src/crates/meteordb/src/internal_key.rs)

    The storage key of one version of a user key: the escaped user key, a
    two-byte terminator, the complemented big-endian sequence number and the
    kind byte.  The file models the constructors, the checked decoder and the
    accessors, and proves that decoding inverts encoding, that the decoder
    accepts only canonical encodings, and that comparing encodings bytewise
    orders keys by user key ascending, sequence descending and kind ascending. *)

From Stdlib Require Import ZArith Lia Sorting.Sorted.
From stdpp Require Import base list gmap strings.
From S2P Require Import Prelude.

Local Open Scope Z_scope.

(** ** Data *)

Definition INTERNAL_KEY_TRAILER_BYTES : Z := 9.
Definition USER_KEY_TERMINATOR_BYTES : Z := 2.
Definition MAX_SEQUENCE_NUMBER : Z := U64_MAX - 1.

Inductive ValueKind : Type := Deletion | Value.

#[global] Instance ValueKind_eq_dec : EqDecision ValueKind.
Proof. solve_decision. Defined.

Record InternalKey : Type := MkInternalKey {
  ik_encoded : bytes;
  ik_user_key : bytes
}.

#[global] Instance InternalKey_eq_dec : EqDecision InternalKey.
Proof. solve_decision. Defined.

(** ** Operations *)

Definition ValueKind_byte (k : ValueKind) : Z :=
  match k with Deletion => 0 | Value => 1 end.

Definition ValueKind_from_byte (byte : Z) : result ValueKind :=
  if byte =? 0 then Ok Deletion
  else if byte =? 1 then Ok Value
  else Err (Corruption "internal key" "unknown value kind byte").

(** [!x] on a [u64]. *)
Definition not64 (x : Z) : Z := U64_MAX - x.

(** The loop of [encode_user_key]: a zero byte becomes [00 ff]. *)
Definition escape (user_key : bytes) : bytes :=
  flat_map (λ byte, if byte =? 0 then [0; 255] else [byte]) user_key.

Definition encode_user_key (user_key : bytes) : bytes := escape user_key ++ [0; 0].

Definition decode_sequence (encoded : bytes) : Z := not64 (from_be encoded).

(** The [while] loop of [decode_user_key]: [rest] is [encoded[index..]]. *)
Fixpoint decode_user_key_loop (rest : bytes) (index : Z) (user_key : bytes)
    : result (bytes * Z) :=
  match rest with
  | [] => Err (Corruption "internal key" "missing user-key terminator")
  | byte :: rest' =>
    if negb (byte =? 0) then
      decode_user_key_loop rest' (index + 1) (user_key ++ [byte])
    else
      match rest' with
      | [] => Err (Corruption "internal key"
                     "zero byte at end of encoding has no escape follower")
      | follower :: rest'' =>
        if follower =? 0 then Ok (user_key, index + USER_KEY_TERMINATOR_BYTES)
        else if follower =? 255 then
          decode_user_key_loop rest'' (index + 2) (user_key ++ [0])
        else Err (Corruption "internal key" "invalid zero-byte escape follower")
      end
  end.

Definition decode_user_key (encoded : bytes) : result (bytes * Z) :=
  decode_user_key_loop encoded 0 [].

Definition InternalKey_try_new (user_key : bytes) (sequence : Z) (kind : ValueKind)
    : result InternalKey :=
  if MAX_SEQUENCE_NUMBER <? sequence then
    Err (InvalidArgument "sequence number must be less than u64::MAX")
  else
    let encoded := encode_user_key user_key in
    let encoded := encoded ++ to_be 8 (not64 sequence) in
    let encoded := encoded ++ [ValueKind_byte kind] in
    Ok {| ik_encoded := encoded; ik_user_key := user_key |}.

(** [InternalKey::value] and [InternalKey::deletion] panic on the reserved
    sequence. *)
Definition expect {A} (r : result A) (message : string) : result A :=
  match r with Ok a => Ok a | Err _ => Err (Panicked message) end.

Definition InternalKey_value (user_key : bytes) (sequence : Z) : result InternalKey :=
  expect (InternalKey_try_new user_key sequence Value)
    "u64::MAX is reserved and cannot be an internal-key sequence".

Definition InternalKey_deletion (user_key : bytes) (sequence : Z) : result InternalKey :=
  expect (InternalKey_try_new user_key sequence Deletion)
    "u64::MAX is reserved and cannot be an internal-key sequence".

Definition InternalKey_decode (encoded : bytes) : result InternalKey :=
  let? (user_key, trailer_start) := decode_user_key encoded in
  let trailer_len := zlen encoded - trailer_start in
  if trailer_len <? INTERNAL_KEY_TRAILER_BYTES then
    Err (Corruption "internal key" "truncated trailer")
  else if INTERNAL_KEY_TRAILER_BYTES <? trailer_len then
    Err (Corruption "internal key" "trailing bytes after trailer")
  else
    let? kind_byte := ok_or (get_at (zlen encoded - 1) encoded)
                        (Panicked "index out of bounds") in
    let? _ := ValueKind_from_byte kind_byte in
    let sequence := decode_sequence (slice trailer_start (trailer_start + 8) encoded) in
    if MAX_SEQUENCE_NUMBER <? sequence then
      Err (Corruption "internal key" "sequence number must be less than u64::MAX")
    else Ok {| ik_encoded := encoded; ik_user_key := user_key |}.

Definition InternalKey_sequence (k : InternalKey) : Z :=
  let sequence_start := zlen (ik_encoded k) - INTERNAL_KEY_TRAILER_BYTES in
  decode_sequence (slice sequence_start (sequence_start + 8) (ik_encoded k)).

Definition InternalKey_kind (k : InternalKey) : result ValueKind :=
  let? byte := ok_or (get_at (zlen (ik_encoded k) - 1) (ik_encoded k))
                 (Panicked "index out of bounds") in
  expect (ValueKind_from_byte byte)
    "constructed internal keys always contain a known kind".

(** [impl Ord for InternalKey] *)
Definition InternalKey_cmp (a b : InternalKey) : comparison :=
  lex_cmp (ik_encoded a) (ik_encoded b).

(** ** Well-formed keys

    [mk_key u s kd] is the key the constructors build; [key_wf] says that a key
    is one of those, for a byte string [u] and a usable sequence number. *)

Definition encode_key (u : bytes) (s : Z) (kd : ValueKind) : bytes :=
  (encode_user_key u ++ to_be 8 (not64 s)) ++ [ValueKind_byte kd].

Definition mk_key (u : bytes) (s : Z) (kd : ValueKind) : InternalKey :=
  {| ik_encoded := encode_key u s kd; ik_user_key := u |}.

Definition seq_ok (s : Z) : Prop := 0 ≤ s ≤ MAX_SEQUENCE_NUMBER.

#[global] Instance seq_ok_dec s : Decision (seq_ok s).
Proof. unfold seq_ok. apply _. Defined.

Definition key_wf (k : InternalKey) : Prop :=
  ∃ u s kd, bytes_ok u ∧ seq_ok s ∧ k = mk_key u s kd.

(** The order a reader of the sources expects. *)
Definition kind_cmp (a b : ValueKind) : comparison :=
  ValueKind_byte a ?= ValueKind_byte b.

Definition version_cmp (u1 : bytes) (s1 : Z) (k1 : ValueKind)
    (u2 : bytes) (s2 : Z) (k2 : ValueKind) : comparison :=
  match lex_cmp u1 u2 with
  | Eq => match s2 ?= s1 with Eq => kind_cmp k1 k2 | c => c end
  | c => c
  end.

(** ** Lemmas *)

Lemma not64_range s : seq_ok s → 0 ≤ not64 s < 256 ^ Z.of_nat 8.
Proof. unfold seq_ok, not64, MAX_SEQUENCE_NUMBER, U64_MAX. cbn. lia. Qed.

Lemma decode_sequence_to_be s : seq_ok s → decode_sequence (to_be 8 (not64 s)) = s.
Proof.
  intros Hs. unfold decode_sequence.
  rewrite from_be_to_be by by apply not64_range. unfold not64. lia.
Qed.

Lemma escape_zero u : escape (0 :: u) = 0 :: 255 :: escape u.
Proof. done. Qed.
Lemma escape_byte b u : (b =? 0) = false → escape (b :: u) = b :: escape u.
Proof. intros H. unfold escape. cbn [flat_map]. by rewrite H. Qed.

(** The loop, started in front of an escaped key, restores it and stops after
    the terminator. *)
Lemma decode_user_key_loop_escape u tail index acc :
  decode_user_key_loop (escape u ++ 0 :: 0 :: tail) index acc =
    Ok (acc ++ u, index + zlen (escape u) + 2).
Proof.
  revert index acc. induction u as [|b u IH]; intros index acc.
  { cbn. unfold USER_KEY_TERMINATOR_BYTES.
    by rewrite app_nil_r, Z.add_0_r. }
  destruct (b =? 0) eqn:E.
  - to_prop. subst b. rewrite escape_zero. cbn [app decode_user_key_loop].
    change (0 =? 0) with true. cbn [negb].
    change (255 =? 0) with false. change (255 =? 255) with true. cbn iota.
    rewrite IH, <- app_assoc. do 2 f_equal. zlen_lia.
  - rewrite escape_byte by done. cbn [app decode_user_key_loop]. rewrite E. cbn [negb].
    rewrite IH, <- app_assoc. do 2 f_equal. zlen_lia.
Qed.

(** Soundness of the loop: what it accepts is an escaped key. *)
Lemma decode_user_key_loop_sound rest index acc u stop :
  decode_user_key_loop rest index acc = Ok (u, stop) →
  ∃ u' tail, u = acc ++ u' ∧ rest = escape u' ++ 0 :: 0 :: tail ∧
    stop = index + zlen (escape u') + 2.
Proof.
  remember (length rest) as n eqn:Hn. revert rest Hn index acc.
  induction (lt_wf n) as [n _ IH]. intros [|b rest] -> index acc H; [done|].
  cbn [decode_user_key_loop] in H. destruct (b =? 0) eqn:E; cbn [negb] in H.
  - to_prop. subst b. destruct rest as [|f rest]; [done|].
    destruct (f =? 0) eqn:E0; [|destruct (f =? 255) eqn:E1; [|done]].
    + to_prop. subst f. injection H as <- <-. exists [], rest.
      rewrite app_nil_r. cbn. split; [done|]. split; [done|].
      unfold USER_KEY_TERMINATOR_BYTES. zlen_lia.
    + to_prop. subst f.
      apply (IH (length rest)) in H as (u' & tail & -> & -> & ->); [|cbn; lia|done].
      exists (0 :: u'), tail. rewrite <- app_assoc, escape_zero.
      split; [done|]. split; [done|]. zlen_lia.
  - apply (IH (length rest)) in H as (u' & tail & -> & -> & ->); [|cbn; lia|done].
    exists (b :: u'), tail. rewrite <- app_assoc, (escape_byte _ _ E).
    split; [done|]. split; [done|]. zlen_lia.
Qed.

Lemma encode_key_split u s kd :
  encode_key u s kd = escape u ++ 0 :: 0 :: to_be 8 (not64 s) ++ [ValueKind_byte kd].
Proof.
  unfold encode_key, encode_user_key. by rewrite <- !app_assoc.
Qed.

Lemma zlen_encode_key u s kd : zlen (encode_key u s kd) = zlen (escape u) + 11.
Proof. rewrite encode_key_split. zlen_lia. Qed.

Lemma try_new_mk_key u s kd : seq_ok s → InternalKey_try_new u s kd = Ok (mk_key u s kd).
Proof.
  intros [_ Hs]. unfold InternalKey_try_new. rewrite (proj2 (Z.ltb_ge _ _)) by lia. done.
Qed.

Lemma try_new_wf u s kd k :
  bytes_ok u → 0 ≤ s → InternalKey_try_new u s kd = Ok k → seq_ok s ∧ k = mk_key u s kd.
Proof.
  intros Hu Hs. unfold InternalKey_try_new, seq_ok.
  destruct (MAX_SEQUENCE_NUMBER <? s) eqn:E; [done|]. to_prop.
  intros [= <-]. auto with lia.
Qed.

Lemma mk_key_wf u s kd : bytes_ok u → seq_ok s → key_wf (mk_key u s kd).
Proof. intros. by exists u, s, kd. Qed.
#[export] Hint Resolve mk_key_wf : mdb.

(** The tail of an encoding seen by the readers of the trailer. *)
Lemma encode_key_trailer u s kd :
  drop (Z.to_nat (zlen (escape u) + 2)) (encode_key u s kd) =
    to_be 8 (not64 s) ++ [ValueKind_byte kd].
Proof.
  rewrite encode_key_split.
  change (0 :: 0 :: ?l) with ([0; 0] ++ l). rewrite (app_assoc (escape u)).
  apply drop_app_z. zlen_lia.
Qed.

Lemma encode_key_seq_slice u s kd :
  slice (zlen (escape u) + 2) (zlen (escape u) + 2 + 8) (encode_key u s kd) =
    to_be 8 (not64 s).
Proof.
  change 8 with (Z.of_nat 8) at 1. rewrite <- (zlen_to_be 8 (not64 s)) at 1.
  eapply slice_at; [zlen_lia|]. apply encode_key_trailer.
Qed.

Lemma encode_key_last u s kd :
  get_at (zlen (encode_key u s kd) - 1) (encode_key u s kd) = Some (ValueKind_byte kd).
Proof.
  unfold encode_key at 2. set (p := encode_user_key u ++ _).
  eapply get_at_drop with (rest := []).
  - rewrite zlen_encode_key. zlen_lia.
  - unfold encode_key. fold p. rewrite zlen_app.
    change (zlen [_]) with 1. apply drop_app_z. lia.
Qed.

Lemma from_byte_byte kd : ValueKind_from_byte (ValueKind_byte kd) = Ok kd.
Proof. by destruct kd. Qed.

Lemma from_byte_sound b kd : ValueKind_from_byte b = Ok kd → b = ValueKind_byte kd.
Proof. unfold ValueKind_from_byte. intros H. inv_ok H; to_prop; by subst. Qed.

Lemma sequence_mk_key u s kd : seq_ok s → InternalKey_sequence (mk_key u s kd) = s.
Proof.
  intros Hs. unfold InternalKey_sequence, INTERNAL_KEY_TRAILER_BYTES. cbn [ik_encoded mk_key].
  rewrite zlen_encode_key.
  replace (zlen (escape u) + 11 - 9) with (zlen (escape u) + 2) by lia.
  rewrite encode_key_seq_slice. by apply decode_sequence_to_be.
Qed.

Lemma kind_mk_key u s kd : InternalKey_kind (mk_key u s kd) = Ok kd.
Proof.
  unfold InternalKey_kind. cbn [ik_encoded mk_key]. rewrite encode_key_last. cbn.
  by rewrite from_byte_byte.
Qed.

Lemma decode_encode_key u s kd :
  seq_ok s → InternalKey_decode (encode_key u s kd) = Ok (mk_key u s kd).
Proof.
  intros Hs. unfold InternalKey_decode, decode_user_key.
  rewrite encode_key_split at 1. rewrite decode_user_key_loop_escape.
  cbn [app]. rewrite zlen_encode_key, Z.add_0_l.
  replace (zlen (escape u) + 11 - (zlen (escape u) + 2)) with 9 by lia.
  change (9 <? INTERNAL_KEY_TRAILER_BYTES) with false.
  change (INTERNAL_KEY_TRAILER_BYTES <? 9) with false. cbn iota.
  rewrite <- (zlen_encode_key u s kd), encode_key_last. cbn [ok_or].
  rewrite from_byte_byte, encode_key_seq_slice, decode_sequence_to_be by done.
  destruct Hs. by rewrite (proj2 (Z.ltb_ge _ _)) by lia.
Qed.

Lemma key_wf_decode k : key_wf k → InternalKey_decode (ik_encoded k) = Ok k.
Proof. intros (u & s & kd & Hu & Hs & ->). by apply decode_encode_key. Qed.

Lemma bytes_ok_app a b : bytes_ok (a ++ b) ↔ bytes_ok a ∧ bytes_ok b.
Proof. apply Forall_app. Qed.

Lemma escape_ok_inv u : bytes_ok (escape u) → bytes_ok u.
Proof.
  induction u as [|b u IH]; [constructor|]. cbn [escape flat_map].
  rewrite bytes_ok_app. intros [Hb Hu]. constructor; [|by apply IH].
  destruct (b =? 0) eqn:E; [|by inversion Hb].
  to_prop. subst. unfold is_u8, U8_MAX. lia.
Qed.

Lemma escape_ok u : bytes_ok u → bytes_ok (escape u).
Proof.
  induction 1 as [|b u Hb _ IH]; [constructor|]. cbn [escape flat_map].
  apply bytes_ok_app. split; [|done].
  destruct (b =? 0); repeat constructor; unfold is_u8, U8_MAX in *; lia.
Qed.

Lemma encode_key_ok u s kd : bytes_ok u → bytes_ok (encode_key u s kd).
Proof.
  intros Hu. rewrite encode_key_split, bytes_ok_app. split; [by apply escape_ok|].
  constructor; [by vm_compute|]. constructor; [by vm_compute|].
  apply bytes_ok_app. split; [apply to_be_ok|].
  constructor; [by destruct kd; vm_compute|constructor].
Qed.

(** The decoder accepts nothing but canonical encodings. *)
Lemma decode_sound e k :
  bytes_ok e → InternalKey_decode e = Ok k →
  ∃ u s kd, bytes_ok u ∧ seq_ok s ∧ e = encode_key u s kd ∧ k = mk_key u s kd.
Proof.
  intros He H. unfold InternalKey_decode in H.
  destruct (decode_user_key e) as [[u stop]|] eqn:Hd; [|done].
  apply decode_user_key_loop_sound in Hd as (u' & tail & -> & -> & ->).
  cbn [app] in *. rewrite Z.add_0_l in H. unfold INTERNAL_KEY_TRAILER_BYTES in H.
  replace (zlen (escape u' ++ 0 :: 0 :: tail) - (zlen (escape u') + 2)) with (zlen tail)
    in H by zlen_lia.
  destruct (zlen tail <? 9) eqn:E1; [done|]. destruct (9 <? zlen tail) eqn:E2; [done|].
  to_prop. assert (zlen tail = 9) as Htail by lia. clear E1 E2.
  destruct tail as [|b pre _] using rev_ind; [by vm_compute in Htail|].
  replace (get_at _ _) with (Some b) in H.
  2:{ symmetry. eapply get_at_drop with (rest := []); [zlen_lia|].
      replace (escape u' ++ 0 :: 0 :: pre ++ [b]) with ((escape u' ++ 0 :: 0 :: pre) ++ [b])
        by by rewrite <- app_assoc.
      apply drop_app_z. zlen_lia. }
  cbn [ok_or] in H. destruct (ValueKind_from_byte b) as [kd|] eqn:Hb; [|done].
  apply from_byte_sound in Hb as ->.
  assert (length pre = 8%nat) as Hpre.
  { unfold zlen in Htail. rewrite length_app in Htail. cbn in Htail. lia. }
  replace (slice _ _ _) with pre in H.
  2:{ symmetry. replace (zlen (escape u') + 2 + 8) with (zlen (escape u') + 2 + zlen pre)
        by (unfold zlen; rewrite Hpre; lia).
      eapply slice_at with (rest := [ValueKind_byte kd]); [zlen_lia|].
      change (0 :: 0 :: ?l) with ([0; 0] ++ l). rewrite (app_assoc (escape u')).
      apply drop_app_z. zlen_lia. }
  rewrite bytes_ok_app in He. destruct He as [Hu' He].
  apply Forall_cons in He as [_ He]. apply Forall_cons in He as [_ He].
  apply bytes_ok_app in He as [Hpok _].
  destruct (MAX_SEQUENCE_NUMBER <? decode_sequence pre) eqn:Hs; [done|]. to_prop.
  injection H as <-.
  assert (to_be 8 (not64 (decode_sequence pre)) = pre) as Hbe.
  { unfold decode_sequence, not64 in *.
    replace (U64_MAX - (U64_MAX - from_be pre)) with (from_be pre) by lia.
    rewrite <- Hpre. by apply to_be_from_be. }
  exists u', (decode_sequence pre), kd. split; [by apply escape_ok_inv|].
  unfold mk_key. rewrite encode_key_split, Hbe.
  split; [|done]. unfold seq_ok. split; [|done].
  unfold decode_sequence, not64, from_be.
  pose proof (from_le_bound (reverse pre) (proj2 (Forall_reverse _ _) Hpok)) as Hb.
  rewrite zlen_reverse in Hb. unfold zlen in Hb. rewrite Hpre in Hb.
  unfold U64_MAX. cbn in Hb. lia.
Qed.

(** ** Order *)

Lemma escape_cmp u1 u2 t1 t2 :
  bytes_ok u1 → bytes_ok u2 →
  lex_cmp (escape u1 ++ 0 :: 0 :: t1) (escape u2 ++ 0 :: 0 :: t2) =
    match lex_cmp u1 u2 with Eq => lex_cmp t1 t2 | c => c end.
Proof.
  intros H1. revert u2. induction H1 as [|x u1 Hx H1 IH]; intros u2 H2.
  - destruct H2 as [|y u2 Hy H2]; [done|]. destruct (y =? 0) eqn:E.
    + to_prop. by subst.
    + rewrite escape_byte by done. to_prop. unfold is_u8 in *. change (escape []) with (@nil Z).
      cbn [app lex_cmp].
      by rewrite (proj2 (Z.compare_lt_iff 0 y)) by lia.
  - destruct H2 as [|y u2 Hy H2].
    + destruct (x =? 0) eqn:E; [to_prop; by subst|].
      rewrite escape_byte by done. to_prop. unfold is_u8 in *. change (escape []) with (@nil Z).
      cbn [app lex_cmp].
      by rewrite (proj2 (Z.compare_gt_iff x 0)) by lia.
    + specialize (IH u2 H2). unfold is_u8 in *.
      destruct (x =? 0) eqn:Ex, (y =? 0) eqn:Ey; to_prop; subst.
      * rewrite !escape_zero. cbn [app lex_cmp]. exact IH.
      * rewrite escape_zero, escape_byte by by apply Z.eqb_neq.
 cbn [app lex_cmp]. by rewrite (proj2 (Z.compare_lt_iff 0 y)) by lia.
      * rewrite escape_zero, escape_byte by by apply Z.eqb_neq.
 cbn [app lex_cmp]. by rewrite (proj2 (Z.compare_gt_iff x 0)) by lia.
      * rewrite !escape_byte by by apply Z.eqb_neq.
 cbn [app lex_cmp]. destruct (x ?= y); [exact IH|done|done].
Qed.

Lemma encode_key_cmp u1 s1 k1 u2 s2 k2 :
  bytes_ok u1 → bytes_ok u2 → seq_ok s1 → seq_ok s2 →
  lex_cmp (encode_key u1 s1 k1) (encode_key u2 s2 k2) = version_cmp u1 s1 k1 u2 s2 k2.
Proof.
  intros Hu1 Hu2 Hs1 Hs2. rewrite !encode_key_split, escape_cmp by done.
  unfold version_cmp. destruct (lex_cmp u1 u2); [|done|done].
  rewrite lex_cmp_snoc by by unfold to_be; rewrite !length_reverse, !to_le_length.
  rewrite lex_cmp_to_be by by apply not64_range.
  replace (not64 s1 ?= not64 s2) with (s2 ?= s1); [done|].
  unfold not64. destruct (Z.compare_spec s2 s1), (Z.compare_spec (U64_MAX - s1) (U64_MAX - s2));
    done || lia.
Qed.

#[global] Instance InternalKey_total : TotalCmp InternalKey_cmp.
Proof.
  unfold InternalKey_cmp. split; intros.
  - apply cmp_antisym.
  - by eapply cmp_trans.
  - by apply cmp_eq_l.
Qed.

Lemma mk_key_cmp u1 s1 k1 u2 s2 k2 :
  bytes_ok u1 → bytes_ok u2 → seq_ok s1 → seq_ok s2 →
  InternalKey_cmp (mk_key u1 s1 k1) (mk_key u2 s2 k2) = version_cmp u1 s1 k1 u2 s2 k2.
Proof. apply encode_key_cmp. Qed.

Lemma kind_cmp_eq a b : kind_cmp a b = Eq → a = b.
Proof. by destruct a, b. Qed.

Lemma version_cmp_eq u1 s1 k1 u2 s2 k2 :
  version_cmp u1 s1 k1 u2 s2 k2 = Eq → u1 = u2 ∧ s1 = s2 ∧ k1 = k2.
Proof.
  unfold version_cmp. destruct (lex_cmp u1 u2) eqn:E; try done.
  destruct (s2 ?= s1) eqn:E2; try done.
  intros ?%kind_cmp_eq. apply lex_cmp_eq in E. apply Z.compare_eq in E2. auto.
Qed.

(** Two well-formed keys that compare equal are the same record. *)
Lemma key_wf_cmp_eq a b : key_wf a → key_wf b → InternalKey_cmp a b = Eq → a = b.
Proof.
  intros (u1 & s1 & k1 & ? & ? & ->) (u2 & s2 & k2 & ? & ? & ->).
  rewrite mk_key_cmp by done. intros (-> & -> & ->)%version_cmp_eq. done.
Qed.

(** A view of a well-formed key through its accessors. *)
Lemma key_wf_view k :
  key_wf k → ∃ kd, InternalKey_kind k = Ok kd ∧ bytes_ok (ik_user_key k) ∧
    seq_ok (InternalKey_sequence k) ∧ k = mk_key (ik_user_key k) (InternalKey_sequence k) kd.
Proof.
  intros (u & s & kd & Hu & Hs & ->). exists kd.
  rewrite kind_mk_key, sequence_mk_key by done. done.
Qed.

(** ** Properties *)

(** [C31] Encoded-byte comparison of internal keys is exactly the MVCC order:
    user keys ascending, then sequence numbers descending, then kinds, also for
    prefix keys and keys containing zero bytes. *)
Theorem internal_key_order (u1 u2 : bytes) (s1 s2 : Z) (kd1 kd2 : ValueKind) (k1 k2 : InternalKey) :
  bytes_ok u1 → bytes_ok u2 → 0 ≤ s1 → 0 ≤ s2 →
  InternalKey_try_new u1 s1 kd1 = Ok k1 →
  InternalKey_try_new u2 s2 kd2 = Ok k2 →
  InternalKey_cmp k1 k2 =
    match lex_cmp u1 u2 with
    | Eq => match s2 ?= s1 with
            | Eq => ValueKind_byte kd1 ?= ValueKind_byte kd2
            | c => c
            end
    | c => c
    end.
Proof.
  intros Hu1 Hu2 Hs1 Hs2 H1 H2.
  apply try_new_wf in H1 as [? ->]; [|done..]. apply try_new_wf in H2 as [? ->]; [|done..].
  by apply mk_key_cmp.
Qed.

(** Witness of C31 at the prefix pair [a] and [a,0]. *)
Lemma internal_key_order_witness :
  InternalKey_cmp (mk_key [97] 7 Value) (mk_key [97; 0] 9 Deletion) = Lt.
Proof.
  apply (internal_key_order [97] [97; 0] 7 9 Value Deletion);
    try reflexivity; eval_done.
Defined.

(** The decoder inverts the constructor and accepts only canonical
    encodings: a byte string decodes to a key exactly when it is the encoding
    the constructor builds for that key's user key, sequence and kind. *)
Theorem internal_key_decode_canonical (e : bytes) (k : InternalKey) :
  bytes_ok e →
  InternalKey_decode e = Ok k ↔
    ∃ kd, bytes_ok (ik_user_key k) ∧ seq_ok (InternalKey_sequence k) ∧
      InternalKey_kind k = Ok kd ∧ ik_encoded k = e ∧
      InternalKey_try_new (ik_user_key k) (InternalKey_sequence k) kd = Ok k.
Proof.
  intros He. split.
  - intros (u & s & kd & Hu & Hs & -> & ->)%decode_sound; [|done].
    exists kd. rewrite kind_mk_key, sequence_mk_key by done.
    by rewrite try_new_mk_key.
  - intros (kd & Hu & Hs & _ & <- & Hk).
    rewrite try_new_mk_key in Hk by done. injection Hk as Hk.
    rewrite <- Hk. by apply decode_encode_key.
Qed.

(** An instance on the encoding of the key [0x61 0x00] at sequence 5. *)
Lemma internal_key_decode_canonical_witness :
  InternalKey_decode (encode_key [97; 0] 5 Value) = Ok (mk_key [97; 0] 5 Value).
Proof.
  apply (internal_key_decode_canonical (encode_key [97; 0] 5 Value)); [eval_done|].
  exists Value. repeat split; try reflexivity; eval_done.
Defined.
