(* ===== verification/Batch.v ===== *)
(** * Write batches and their WAL encoding (src/crates/meteordb/src/batch.rs)

    An ordered list of mutations with the payload byte count the engine checks
    against its limits.  The file models the builder methods, the logical WAL
    encoding and its checked decoder ([BatchDecoder] threads a position through
    the encoded record), and proves the byte-count invariant, the round trip,
    that decoding accepts exactly the encodings of non-empty batches, and the
    size bound that the WAL derives its record limit from. *)

From Stdlib Require Import ZArith Lia Sorting.Sorted.
From stdpp Require Import base list gmap strings.
From S2P Require Import Prelude.

Local Open Scope Z_scope.

(** ** Data *)

Inductive WriteOp : Type :=
| Put (key value : bytes) (expires_at_unix_ms : option Z)
| Delete (key : bytes).

#[global] Instance WriteOp_eq_dec : EqDecision WriteOp.
Proof. solve_decision. Defined.

Record WriteBatch : Type := MkBatch {
  operations : list WriteOp;
  approximate_bytes : Z
}.

#[global] Instance WriteBatch_eq_dec : EqDecision WriteBatch.
Proof. solve_decision. Defined.

Definition BATCH_FORMAT_VERSION : Z := 1.
Definition MAX_WRITE_BATCH_OPERATIONS : Z := U32_MAX.
Definition PUT_TAG : Z := 1.
Definition DELETE_TAG : Z := 2.

(** ** Building a batch *)

Definition WriteBatch_default : WriteBatch :=
  {| operations := []; approximate_bytes := 0 |}.

Definition add_bytes (b : WriteBatch) (n : Z) : result WriteBatch :=
  match checked_add (approximate_bytes b) n with
  | Some total => Ok {| operations := operations b; approximate_bytes := total |}
  | None => Err (Panicked "write batch byte count overflow")
  end.

Definition push_op (b : WriteBatch) (op : WriteOp) : WriteBatch :=
  {| operations := operations b ++ [op]; approximate_bytes := approximate_bytes b |}.

Definition put_with_expiration (b : WriteBatch) (key value : bytes)
    (expires_at_unix_ms : option Z) : result WriteBatch :=
  let? b := add_bytes b (zlen key) in
  let? b := add_bytes b (zlen value) in
  Ok (push_op b (Put key value expires_at_unix_ms)).

Definition WriteBatch_put (b : WriteBatch) (key value : bytes) : result WriteBatch :=
  put_with_expiration b key value None.

Definition put_owned (b : WriteBatch) (key value : bytes) : result WriteBatch :=
  let? b := add_bytes b (zlen key) in
  let? b := add_bytes b (zlen value) in
  Ok (push_op b (Put key value None)).

Definition WriteBatch_delete (b : WriteBatch) (key : bytes) : result WriteBatch :=
  let? b := add_bytes b (zlen key) in
  Ok (push_op b (Delete key)).

Definition WriteBatch_len (b : WriteBatch) : Z := zlen (operations b).
Definition WriteBatch_is_empty (b : WriteBatch) : bool :=
  match operations b with [] => true | _ => false end.

Definition projected_put_bytes (b : WriteBatch) (key value : bytes) : option Z :=
  match checked_add (approximate_bytes b) (zlen key) with
  | Some n => checked_add n (zlen value)
  | None => None
  end.

(** ** Encoding *)

Definition u32_try_from (n : Z) (e : error) : result Z :=
  if n <=? U32_MAX then Ok n else Err e.

Definition encode_length (name : string) (length : Z) : result bytes :=
  let? n := u32_try_from length (InvalidArgument "length exceeds the WAL u32 limit") in
  Ok (to_le 4 n).

Definition encode_op (op : WriteOp) : result bytes :=
  match op with
  | Put key value expires_at_unix_ms =>
    let? klen := encode_length "key" (zlen key) in
    let? vlen := encode_length "value" (zlen value) in
    Ok ([PUT_TAG] ++ klen ++ vlen ++
        match expires_at_unix_ms with
        | Some expiration => 1 :: to_le 8 expiration
        | None => [0]
        end ++ key ++ value)
  | Delete key =>
    let? klen := encode_length "key" (zlen key) in
    Ok ([DELETE_TAG] ++ klen ++ key)
  end.

Fixpoint encode_ops (ops : list WriteOp) (encoded : bytes) : result bytes :=
  match ops with
  | [] => Ok encoded
  | op :: ops =>
    let? e := encode_op op in
    encode_ops ops (encoded ++ e)
  end.

Definition encode_batch (sequence : Z) (batch : WriteBatch) : result bytes :=
  let? operation_count := u32_try_from (WriteBatch_len batch)
    (InvalidArgument "write batch contains more than u32::MAX operations") in
  encode_ops (operations batch)
    ([BATCH_FORMAT_VERSION] ++ to_le 8 sequence ++ to_le 4 operation_count).

(** ** Decoding *)

Definition batch_corruption (detail : string) : error := Corruption "WAL batch" detail.

(** [BatchDecoder]: [encoded] is fixed, the position is threaded. *)
Section Decoder.
  Variable encoded : bytes.

Definition read_bytes (position length : Z) : result (bytes * Z) :=
  match checked_add position length with
  | Some stop =>
    if stop <=? zlen encoded then Ok (slice position stop encoded, stop)
    else Err (batch_corruption "declares more bytes than remain")
  | None => Err (batch_corruption "declares more bytes than remain")
  end.

Definition read_u8 (position : Z) : result (Z * Z) :=
  let? (b, position) := read_bytes position 1 in
  Ok (from_le b, position).

Definition read_u32 (position : Z) : result (Z * Z) :=
  let? (b, position) := read_bytes position 4 in
  Ok (from_le b, position).

Definition read_u64 (position : Z) : result (Z * Z) :=
  let? (b, position) := read_bytes position 8 in
  Ok (from_le b, position).

(** [usize::try_from] a [u32] cannot fail on a 64-bit target. *)
Definition read_length (position : Z) : result (Z * Z) := read_u32 position.

Definition decode_op (position : Z) (batch : WriteBatch) : result (WriteBatch * Z) :=
  let? (tag, position) := read_u8 position in
  if tag =? PUT_TAG then
    let? (key_length, position) := read_length position in
    let? (value_length, position) := read_length position in
    let? (marker, position) := read_u8 position in
    let? (expiration, position) :=
      (if marker =? 0 then Ok (None, position)
       else if marker =? 1 then
         let? (t, position) := read_u64 position in Ok (Some t, position)
       else Err (batch_corruption "unknown expiration marker")) in
    let? (key, position) := read_bytes position key_length in
    let? (value, position) := read_bytes position value_length in
    let? batch := put_with_expiration batch key value expiration in
    Ok (batch, position)
  else if tag =? DELETE_TAG then
    let? (key_length, position) := read_length position in
    let? (key, position) := read_bytes position key_length in
    let? batch := WriteBatch_delete batch key in
    Ok (batch, position)
  else Err (batch_corruption "unknown operation tag").

(** [for _ in 0..operation_count] *)
Fixpoint decode_ops (count : nat) (position : Z) (batch : WriteBatch)
    : result (WriteBatch * Z) :=
  match count with
  | O => Ok (batch, position)
  | S count =>
    let? (batch, position) := decode_op position batch in
    decode_ops count position batch
  end.

Definition decode_batch : result (Z * WriteBatch) :=
  let? (version, position) := read_u8 0 in
  if negb (version =? BATCH_FORMAT_VERSION) then
    Err (UnsupportedFormat "WAL batch" version)
  else
    let? (sequence, position) := read_u64 position in
    let? (operation_count, position) := read_u32 position in
    if operation_count =? 0 then Err (batch_corruption "batch contains no operations")
    else
      let? (batch, position) :=
        decode_ops (Z.to_nat operation_count) position WriteBatch_default in
      if negb (zlen encoded - position =? 0) then
        Err (batch_corruption "trailing bytes after write batch")
      else Ok (sequence, batch).
End Decoder.

(** ** Invariant *)

Definition op_payload (op : WriteOp) : Z :=
  match op with
  | Put key value _ => zlen key + zlen value
  | Delete key => zlen key
  end.

Fixpoint payload (ops : list WriteOp) : Z :=
  match ops with [] => 0 | op :: ops => op_payload op + payload ops end.

Definition op_wf (op : WriteOp) : Prop :=
  match op with
  | Put key value t => bytes_ok key ∧ bytes_ok value ∧ from_option is_u64 True t
  | Delete key => bytes_ok key
  end.

#[global] Instance op_wf_dec op : Decision (op_wf op).
Proof. destruct op as [? ? [?|]|?]; cbn; apply _. Defined.

(** The count a batch carries is its payload; it fits a [usize] and the
    operations are what the API can be given. *)
Definition batch_wf (b : WriteBatch) : Prop :=
  approximate_bytes b = payload (operations b) ∧ payload (operations b) ≤ USIZE_MAX ∧
  Forall op_wf (operations b).

#[global] Instance batch_wf_dec b : Decision (batch_wf b).
Proof. unfold batch_wf. apply _. Defined.

Lemma payload_app a b : payload (a ++ b) = payload a + payload b.
Proof. induction a; cbn; [done|]. rewrite IHa. lia. Qed.

Lemma op_payload_nonneg op : 0 ≤ op_payload op.
Proof. destruct op; cbn; zlen_lia. Qed.

Lemma payload_nonneg ops : 0 ≤ payload ops.
Proof. induction ops as [|op ops IH]; cbn; [lia|]. pose proof (op_payload_nonneg op). lia. Qed.

(** One builder step, on either operation. *)
Definition push (b : WriteBatch) (op : WriteOp) : result WriteBatch :=
  match op with
  | Put key value t => put_with_expiration b key value t
  | Delete key => WriteBatch_delete b key
  end.

Lemma push_spec b op :
  0 ≤ approximate_bytes b →
  push b op =
    if approximate_bytes b + op_payload op <=? USIZE_MAX then
      Ok {| operations := operations b ++ [op];
            approximate_bytes := approximate_bytes b + op_payload op |}
    else Err (Panicked "write batch byte count overflow").
Proof.
  intros Hb. destruct op as [k v t|k]; cbn [push op_payload];
    unfold put_with_expiration, WriteBatch_delete, add_bytes, checked_add, push_op;
    pose proof (zlen_nonneg k).
  - pose proof (zlen_nonneg v).
    destruct (approximate_bytes b + (zlen k + zlen v) <=? USIZE_MAX) eqn:E; to_prop.
    + rewrite (proj2 (Z.leb_le _ _)) by lia. cbn [approximate_bytes operations].
      rewrite (proj2 (Z.leb_le _ _)) by lia. by rewrite Z.add_assoc.
    + destruct (approximate_bytes b + zlen k <=? USIZE_MAX) eqn:E2; [|done].
      cbn [approximate_bytes operations]. by rewrite (proj2 (Z.leb_gt _ _)) by lia.
  - by destruct (approximate_bytes b + zlen k <=? USIZE_MAX).
Qed.

Lemma push_wf b op b' : batch_wf b → op_wf op → push b op = Ok b' → batch_wf b'.
Proof.
  intros (Hb & Hle & Hops) Hop. rewrite push_spec by (rewrite Hb; apply payload_nonneg).
  destruct (_ <=? _) eqn:E; [|done]. to_prop. intros [= <-].
  unfold batch_wf. cbn [operations approximate_bytes].
  rewrite payload_app, Forall_app. cbn. repeat split; auto; lia.
Qed.

(** ** Reading *)

Section ReadFacts.
  Variable encoded : bytes.
  Hypothesis fits : zlen encoded ≤ USIZE_MAX.

Lemma read_bytes_at position x rest :
  drop (Z.to_nat position) encoded = x ++ rest → 0 ≤ position ≤ zlen encoded →
  read_bytes encoded position (zlen x) = Ok (x, position + zlen x).
Proof using fits.
  intros Hd Hpos. pose proof (drop_fits _ _ _ _ Hpos Hd).
  unfold read_bytes, checked_add.
  rewrite (proj2 (Z.leb_le _ _)), (proj2 (Z.leb_le _ _)) by lia.
  by rewrite (slice_at _ _ _ _ (proj1 Hpos) Hd).
Qed.

Lemma read_le_at n m v position rest :
  drop (Z.to_nat position) encoded = to_le n v ++ rest →
  m = Z.of_nat n → 0 ≤ v < 256 ^ m → 0 ≤ position ≤ zlen encoded →
  (let? (b, p) := read_bytes encoded position m in Ok (from_le b, p)) =
    Ok (v, position + m).
Proof using fits.
  intros Hd -> Hv Hpos. pose proof (read_bytes_at _ _ _ Hd Hpos) as H.
  rewrite zlen_to_le in H. by rewrite H, from_le_to_le.
Qed.

Lemma read_bytes_sound position n x position' :
  0 ≤ position → 0 ≤ n → read_bytes encoded position n = Ok (x, position') →
  position' = position + n ∧ zlen x = n ∧ position' ≤ zlen encoded ∧
  drop (Z.to_nat position) encoded = x ++ drop (Z.to_nat position') encoded.
Proof.
  intros Hpos Hn. unfold read_bytes, checked_add.
  destruct (_ <=? USIZE_MAX); [|done]. destruct (_ <=? zlen _) eqn:E; [|done].
  to_prop. intros [= <- <-]. split; [done|].
  split; [rewrite zlen_slice; lia|]. split; [done|].
  unfold slice. rewrite <- (take_drop (Z.to_nat n) (drop _ _)) at 1.
  rewrite drop_drop. repeat f_equal; lia.
Qed.
End ReadFacts.

Lemma bytes_ok_drop n l : bytes_ok l → bytes_ok (drop n l).
Proof. apply Forall_drop. Qed.

(** A fixed-width read of well-formed bytes determines the bytes it consumed. *)
Lemma read_le_sound encoded n m position v position' :
  bytes_ok encoded → m = Z.of_nat n → 0 ≤ position →
  (let? (b, p) := read_bytes encoded position m in Ok (from_le b, p)) = Ok (v, position') →
  position' = position + m ∧ position' ≤ zlen encoded ∧ 0 ≤ v < 256 ^ m ∧
  drop (Z.to_nat position) encoded = to_le n v ++ drop (Z.to_nat position') encoded.
Proof.
  intros Hok -> Hpos H. destruct (read_bytes _ _ _) as [[b p]|] eqn:E; [|done].
  injection H as <- <-. apply read_bytes_sound in E as (-> & Hlen & Hle & Hd); [|lia..].
  pose proof (bytes_ok_drop (Z.to_nat position) _ Hok) as Hb. rewrite Hd in Hb.
  apply Forall_app in Hb as [Hb _].
  pose proof (from_le_bound _ Hb). rewrite Hlen in *.
  assert (length b = n) as <- by (unfold zlen in Hlen; lia).
  by rewrite to_le_from_le.
Qed.

(** ** Round trip *)

Lemma encode_length_ok name n b :
  0 ≤ n → encode_length name n = Ok b → b = to_le 4 n ∧ 0 ≤ n < 256 ^ 4.
Proof.
  unfold encode_length, u32_try_from. intros ? H. inv_ok H. to_prop.
  split; [done|]. unfold U32_MAX in *. cbn. lia.
Qed.

Lemma is_u64_range t : is_u64 t → 0 ≤ t < 256 ^ 8.
Proof. unfold is_u64, U64_MAX. cbn. lia. Qed.

(** [advance H] consumes the next field of the encoding: [H] says what the decoder
    sees at its position. *)
Ltac advance H :=
  let H' := fresh in
  pose proof H as H'; apply drop_advance in H'; [|lia];
  autorewrite with zlen in H';
  change (Z.of_nat 1) with 1 in H'; change (Z.of_nat 4) with 4 in H';
  change (Z.of_nat 8) with 8 in H'; clear H; rename H' into H.

Lemma decode_op_encode encoded op e rest position b :
  zlen encoded ≤ USIZE_MAX → 0 ≤ position ≤ zlen encoded → op_wf op →
  encode_op op = Ok e → drop (Z.to_nat position) encoded = e ++ rest →
  decode_op encoded position b =
    let? b' := push b op in Ok (b', position + zlen e).
Proof.
  intros Hfit Hpos Hop He Hd. pose proof (drop_fits _ _ _ _ Hpos Hd) as Hend.
  unfold decode_op, read_length, read_u8, read_u32, read_u64.
  destruct op as [k v t|k]; cbn [encode_op] in He.
  - destruct (encode_length "key" _) as [lk|] eqn:Hk; [|done].
    destruct (encode_length "value" _) as [lv|] eqn:Hv; [|done]. apply Ok_inj in He as <-.
    apply encode_length_ok in Hk as [-> Hk]; [|zlen_lia].
    apply encode_length_ok in Hv as [-> Hv]; [|zlen_lia].
    destruct Hop as (_ & _ & Ht).
    cbn [app] in Hd. rewrite <- ?app_assoc in Hd.
    change (PUT_TAG :: ?l) with (to_le 1 PUT_TAG ++ l) in Hd.
    rewrite (read_le_at encoded Hfit 1 1 _ _ _ Hd eq_refl ltac:(by vm_compute) Hpos).
    change (PUT_TAG =? PUT_TAG) with true. cbn iota. advance Hd.
    rewrite (read_le_at encoded Hfit 4 4 _ _ _ Hd eq_refl Hk ltac:(zlen_lia)). advance Hd.
    rewrite (read_le_at encoded Hfit 4 4 _ _ _ Hd eq_refl Hv ltac:(zlen_lia)). advance Hd.
    destruct t as [t|]; cbn [app] in Hd; cbn [push].
    + change (1 :: to_le 8 t ++ ?l) with (to_le 1 1 ++ (to_le 8 t ++ l)) in Hd.
      rewrite (read_le_at encoded Hfit 1 1 _ _ _ Hd eq_refl ltac:(by vm_compute) ltac:(zlen_lia)).
      advance Hd. cbn iota beta.
      change (1 =? 0) with false. change (1 =? 1) with true. cbn iota.
      rewrite (read_le_at encoded Hfit 8 8 _ _ _ Hd eq_refl (is_u64_range _ Ht) ltac:(zlen_lia)).
      advance Hd.
      rewrite (read_bytes_at encoded Hfit _ _ _ Hd ltac:(zlen_lia)). advance Hd.
      rewrite (read_bytes_at encoded Hfit _ _ _ Hd ltac:(zlen_lia)).
      destruct (put_with_expiration _ _ _ _); [|done]. do 2 f_equal. zlen_lia.
    + change (0 :: ?l) with (to_le 1 0 ++ l) in Hd.
      rewrite (read_le_at encoded Hfit 1 1 _ _ _ Hd eq_refl ltac:(by vm_compute) ltac:(zlen_lia)).
      advance Hd. cbn iota beta. change (0 =? 0) with true. cbn iota.
      rewrite (read_bytes_at encoded Hfit _ _ _ Hd ltac:(zlen_lia)). advance Hd.
      rewrite (read_bytes_at encoded Hfit _ _ _ Hd ltac:(zlen_lia)).
      destruct (put_with_expiration _ _ _ _); [|done]. do 2 f_equal. zlen_lia.
  - destruct (encode_length "key" _) as [lk|] eqn:Hk; [|done]. apply Ok_inj in He as <-.
    apply encode_length_ok in Hk as [-> Hk]; [|zlen_lia].
    cbn [app] in Hd. rewrite <- ?app_assoc in Hd.
    change (DELETE_TAG :: ?l) with (to_le 1 DELETE_TAG ++ l) in Hd.
    rewrite (read_le_at encoded Hfit 1 1 _ _ _ Hd eq_refl ltac:(by vm_compute) Hpos).
    change (DELETE_TAG =? PUT_TAG) with false. change (DELETE_TAG =? DELETE_TAG) with true.
    cbn iota. advance Hd. cbn [push].
    rewrite (read_le_at encoded Hfit 4 4 _ _ _ Hd eq_refl Hk ltac:(zlen_lia)). advance Hd.
    rewrite (read_bytes_at encoded Hfit _ _ _ Hd ltac:(zlen_lia)).
    destruct (WriteBatch_delete _ _); [|done]. do 2 f_equal. zlen_lia.
Qed.

Lemma encode_length_small name n :
  0 ≤ n < 256 ^ 4 → encode_length name n = Ok (to_le 4 n).
Proof.
  intros Hn. unfold encode_length, u32_try_from, U32_MAX. cbn in Hn.
  by rewrite (proj2 (Z.leb_le _ _)) by lia.
Qed.

Lemma bytes_ok_prefix n l x rest :
  bytes_ok l → drop n l = x ++ rest → bytes_ok x.
Proof.
  intros Hl Hd. apply (bytes_ok_drop n) in Hl. rewrite Hd in Hl. by apply Forall_app in Hl as [? ?].
Qed.

(** What [decode_op] accepts is the encoding of the operation it appends. *)
Lemma decode_op_sound encoded position b b' position' :
  bytes_ok encoded → 0 ≤ position →
  decode_op encoded position b = Ok (b', position') →
  ∃ op e, op_wf op ∧ encode_op op = Ok e ∧ push b op = Ok b' ∧
    drop (Z.to_nat position) encoded = e ++ drop (Z.to_nat position') encoded ∧
    position' = position + zlen e ∧ position' ≤ zlen encoded.
Proof.
  intros Hok Hpos H. unfold decode_op, read_length in H.
  destruct (read_u8 encoded position) as [[tag p1]|] eqn:R1; [|done].
  apply (read_le_sound _ 1) in R1 as (-> & Hp1 & Htag & D1); [|done..].
  destruct (tag =? PUT_TAG) eqn:Et; [|destruct (tag =? DELETE_TAG) eqn:Ed; [|done]]; to_prop; subst tag.
  - destruct (read_u32 encoded _) as [[klen p2]|] eqn:R2; [|done].
    apply (read_le_sound _ 4) in R2 as (-> & Hp2 & Hk & D2); [|done|done|lia].
    destruct (read_u32 encoded _) as [[vlen p3]|] eqn:R3; [|done].
    apply (read_le_sound _ 4) in R3 as (-> & Hp3 & Hv & D3); [|done|done|lia].
    destruct (read_u8 encoded _) as [[marker p4]|] eqn:R4; [|done].
    apply (read_le_sound _ 1) in R4 as (-> & Hp4 & Hm & D4); [|done|done|lia].
    assert (∃ t e5 p5, from_option is_u64 True t ∧
      (match t with Some t => 1 :: to_le 8 t | None => [0] end) = to_le 1 marker ++ e5 ∧
      drop (Z.to_nat (position + 1 + 4 + 4 + 1)) encoded = e5 ++ drop (Z.to_nat p5) encoded ∧
      p5 = position + 1 + 4 + 4 + 1 + zlen e5 ∧ p5 ≤ zlen encoded ∧
      (let? (key, position) := read_bytes encoded p5 klen in
       let? (value, position) := read_bytes encoded position vlen in
       let? batch := put_with_expiration b key value t in Ok (batch, position)) =
        Ok (b', position')) as (t & e5 & p5 & Ht & He5 & D5 & -> & Hp5 & H').
    { destruct (marker =? 0) eqn:Em0; [|destruct (marker =? 1) eqn:Em1; [|done]];
        to_prop; subst marker.
      - exists None, [], (position + 1 + 4 + 4 + 1). cbn. repeat split; try done; zlen_lia.
      - destruct (read_u64 encoded _) as [[t p5]|] eqn:R5; [|done].
        apply (read_le_sound _ 8) in R5 as (-> & Hp5 & Ht & D5); [|done|done|lia].
        exists (Some t), (to_le 8 t), (position + 1 + 4 + 4 + 1 + 8).
        split; [cbn in *; unfold is_u64, U64_MAX; lia|]. do 2 (split; [done|]).
        split; [zlen_lia|]. done. }
    clear H. destruct (read_bytes encoded _ klen) as [[key p6]|] eqn:R6; [|done].
    apply read_bytes_sound in R6 as (-> & Hkl & Hp6 & D6); [|zlen_lia|lia].
    destruct (read_bytes encoded _ vlen) as [[value p7]|] eqn:R7; [|done].
    apply read_bytes_sound in R7 as (-> & Hvl & Hp7 & D7); [|zlen_lia|lia].
    destruct (put_with_expiration b key value t) as [b2|] eqn:Hput; [|done].
    injection H' as <- <-.
    exists (Put key value t).
    eexists ([PUT_TAG] ++ to_le 4 klen ++ to_le 4 vlen ++
      match t with Some t => 1 :: to_le 8 t | None => [0] end ++ key ++ value).
    split; [|split; [|split; [done|]]].
    + cbn. split; [exact (bytes_ok_prefix _ _ _ _ Hok D6)|].
      split; [exact (bytes_ok_prefix _ _ _ _ Hok D7)|done].
    + cbn [encode_op]. by rewrite Hkl, Hvl, !encode_length_small by done.
    + rewrite He5. split.
      * rewrite D1, D2, D3, D4, D5, D6, D7. by rewrite <- !app_assoc.
      * split; [zlen_lia|done].
  - destruct (read_u32 encoded _) as [[klen p2]|] eqn:R2; [|done].
    apply (read_le_sound _ 4) in R2 as (-> & Hp2 & Hk & D2); [|done|done|lia].
    destruct (read_bytes encoded _ klen) as [[key p3]|] eqn:R3; [|done].
    apply read_bytes_sound in R3 as (-> & Hkl & Hp3 & D3); [|lia..].
    destruct (WriteBatch_delete b key) as [b2|] eqn:Hdel; [|done].
    injection H as <- <-.
    exists (Delete key), ([DELETE_TAG] ++ to_le 4 klen ++ key).
    split; [exact (bytes_ok_prefix _ _ _ _ Hok D3)|].
    split; [cbn [encode_op]; by rewrite Hkl, encode_length_small by done|].
    split; [done|]. split; [rewrite D1, D2, D3; by rewrite <- !app_assoc|].
    split; [zlen_lia|done].
Qed.

(** Encoding a list of operations appends the concatenation of their encodings. *)
Lemma encode_ops_spec ops acc e :
  encode_ops ops acc = Ok e ↔ ∃ es, try_map encode_op ops = Ok es ∧ e = acc ++ concat es.
Proof.
  revert acc. induction ops as [|op ops IH]; intros acc; cbn.
  - split; [intros [= <-]; exists []; by rewrite app_nil_r|].
    intros (es & [= <-] & ->). by rewrite app_nil_r.
  - destruct (encode_op op) as [eo|]; [|split; [done|by intros (? & ? & _)]]. rewrite IH. split.
    + intros (es & -> & ->). exists (eo :: es). cbn. by rewrite app_assoc.
    + intros (es & H & ->). inv_ok H. eexists. cbn. by rewrite app_assoc.
Qed.

Lemma try_map_app {A B} (f : A → result B) l1 l2 bs1 bs2 :
  try_map f l1 = Ok bs1 → try_map f l2 = Ok bs2 → try_map f (l1 ++ l2) = Ok (bs1 ++ bs2).
Proof.
  revert bs1. induction l1 as [|a l1 IH]; intros bs1 H1 H2; cbn in *.
  - injection H1 as <-. done.
  - destruct (f a); [|done]. destruct (try_map f l1); [|done]. injection H1 as <-.
    by rewrite (IH _ eq_refl H2).
Qed.

Lemma decode_ops_encode encoded ops es rest position b :
  zlen encoded ≤ USIZE_MAX → 0 ≤ position ≤ zlen encoded →
  0 ≤ approximate_bytes b → approximate_bytes b + payload ops ≤ USIZE_MAX →
  Forall op_wf ops → try_map encode_op ops = Ok es →
  drop (Z.to_nat position) encoded = concat es ++ rest →
  decode_ops encoded (length ops) position b =
    Ok ({| operations := operations b ++ ops;
           approximate_bytes := approximate_bytes b + payload ops |},
        position + zlen (concat es)).
Proof.
  intros Hfit. revert es position b.
  induction ops as [|op ops IH]; intros es position b Hpos Hb Hmax Hwf He Hd; cbn in He.
  { injection He as <-. cbn. destruct b as [o a]. cbn.
    rewrite app_nil_r. do 2 f_equal; [f_equal; lia|]. zlen_lia. }
  destruct (encode_op op) as [eo|] eqn:Heo; [|done].
  destruct (try_map encode_op ops) as [es'|] eqn:Hes; [|done]. injection He as <-.
  cbn [concat] in *. rewrite <- app_assoc in Hd.
  apply Forall_cons in Hwf as [Hop Hwf].
  pose proof (op_payload_nonneg op). pose proof (payload_nonneg ops). cbn [payload] in Hmax.
  cbn [length decode_ops].
  rewrite (decode_op_encode encoded op eo _ _ _ Hfit Hpos Hop Heo Hd), push_spec by done.
  rewrite (proj2 (Z.leb_le _ _)) by lia.
  pose proof (drop_fits _ _ _ _ Hpos Hd). apply drop_advance in Hd; [|lia].
  rewrite (IH es'); cbn [operations approximate_bytes payload];
    [|zlen_lia|lia|lia|done|done|exact Hd]. rewrite <- app_assoc. cbn [app].
  do 2 f_equal; [f_equal; lia|]. zlen_lia.
Qed.

Lemma decode_ops_sound encoded n position b b' position' :
  bytes_ok encoded → 0 ≤ position ≤ zlen encoded → batch_wf b →
  decode_ops encoded n position b = Ok (b', position') →
  ∃ ops es, length ops = n ∧ batch_wf b' ∧ try_map encode_op ops = Ok es ∧
    operations b' = operations b ++ ops ∧
    drop (Z.to_nat position) encoded = concat es ++ drop (Z.to_nat position') encoded ∧
    position' = position + zlen (concat es) ∧ position' ≤ zlen encoded.
Proof.
  intros Hok. revert position b.
  induction n as [|n IH]; intros position b Hpos Hb H; cbn [decode_ops] in H.
  { injection H as <- <-. exists [], []. rewrite app_nil_r. cbn [concat app].
    do 5 (split; [done|]). split; [zlen_lia|lia]. }
  destruct (decode_op encoded position b) as [[b1 p1]|] eqn:E; [|done].
  apply decode_op_sound in E as (op & e & Hop & He & Hpush & Hd & -> & Hp1); [|done|lia].
  apply IH in H as (ops & es & <- & Hwf & Hes & Hops & Hd' & -> & Hp');
    [|zlen_lia|by eapply push_wf].
  exists (op :: ops), (e :: es). split; [done|]. split; [done|].
  split; [cbn; by rewrite He, Hes|]. split.
  { rewrite Hops, push_spec in *; [|by destruct Hb as (-> & _); apply payload_nonneg].
    destruct (_ <=? USIZE_MAX); [|done]. injection Hpush as <-. cbn. by rewrite <- app_assoc. }
  cbn [concat]. rewrite Hd, Hd', <- app_assoc. split; [done|]. split; [zlen_lia|done].
Qed.

(** The three fixed fields in front of the operations. *)
Definition batch_header (sequence count : Z) : bytes :=
  [BATCH_FORMAT_VERSION] ++ to_le 8 sequence ++ to_le 4 count.

Lemma encode_batch_spec s b e :
  encode_batch s b = Ok e ↔
  WriteBatch_len b ≤ U32_MAX ∧
  ∃ es, try_map encode_op (operations b) = Ok es ∧
    e = batch_header s (WriteBatch_len b) ++ concat es.
Proof.
  unfold encode_batch, u32_try_from. destruct (_ <=? U32_MAX) eqn:E; to_prop.
  - rewrite encode_ops_spec. tauto.
  - split; [done|]. intros [? _]. lia.
Qed.

Lemma decode_batch_encode s b e :
  batch_wf b → operations b ≠ [] → is_u64 s → zlen e ≤ USIZE_MAX →
  encode_batch s b = Ok e → decode_batch e = Ok (s, b).
Proof.
  intros (Hp & Hmax & Hwf) Hne Hs Hfit (Hlen & es & Hes & He)%encode_batch_spec.
  assert (0 ≤ WriteBatch_len b < 256 ^ 4) as Hcount.
  { unfold WriteBatch_len, U32_MAX in *. cbn. zlen_lia. }
  assert (drop (Z.to_nat 0) e = to_le 1 BATCH_FORMAT_VERSION ++ (to_le 8 s ++
    (to_le 4 (WriteBatch_len b) ++ (concat es ++ [])))) as Hd.
  { rewrite He. unfold batch_header. rewrite app_nil_r, <- !app_assoc. done. }
  assert (zlen e = 13 + zlen (concat es)) as Hz by (rewrite He; unfold batch_header; zlen_lia).
  unfold decode_batch, read_u8, read_u64, read_u32.
  rewrite (read_le_at e Hfit 1 1 _ _ _ Hd eq_refl ltac:(by vm_compute) ltac:(zlen_lia)).
  advance Hd. cbn iota beta. change (negb (BATCH_FORMAT_VERSION =? BATCH_FORMAT_VERSION)) with false.
  cbn iota.
  rewrite (read_le_at e Hfit 8 8 _ _ _ Hd eq_refl (is_u64_range _ Hs) ltac:(zlen_lia)). advance Hd.
  rewrite (read_le_at e Hfit 4 4 _ _ _ Hd eq_refl Hcount ltac:(zlen_lia)). advance Hd.
  rewrite (proj2 (Z.eqb_neq _ _)).
  2:{ unfold WriteBatch_len, zlen. destruct (operations b); cbn; [done|lia]. }
  replace (Z.to_nat (WriteBatch_len b)) with (length (operations b))
    by (unfold WriteBatch_len, zlen; lia).
  erewrite decode_ops_encode; [|done|zlen_lia|cbn; lia|cbn; lia|done|done|exact Hd].
  cbn [WriteBatch_default operations approximate_bytes app].
  rewrite Hz. replace (_ - _ =? 0) with true by (symmetry; apply Z.eqb_eq; lia).
  cbn [negb]. destruct b as [ops n]. cbn in *. by rewrite Hp.
Qed.

Lemma decode_batch_sound s b e :
  bytes_ok e → decode_batch e = Ok (s, b) →
  batch_wf b ∧ operations b ≠ [] ∧ is_u64 s ∧ encode_batch s b = Ok e.
Proof.
  intros Hok H. unfold decode_batch in H.
  destruct (read_u8 e 0) as [[v p1]|] eqn:R1; [|done].
  apply (read_le_sound _ 1) in R1 as (-> & Hp1 & _ & D1); [|done..].
  destruct (v =? BATCH_FORMAT_VERSION) eqn:Ev; [|done]. cbn [negb] in H. to_prop. subst v.
  destruct (read_u64 e _) as [[s' p2]|] eqn:R2; [|done].
  apply (read_le_sound _ 8) in R2 as (-> & Hp2 & Hs & D2); [|done..].
  destruct (read_u32 e _) as [[n p3]|] eqn:R3; [|done].
  apply (read_le_sound _ 4) in R3 as (-> & Hp3 & Hn & D3); [|done..].
  destruct (n =? 0) eqn:En; [done|]. to_prop.
  destruct (decode_ops e _ _ _) as [[b' p4]|] eqn:E; [|done].
  apply decode_ops_sound in E as (ops & es & Hlen & Hwf & Hes & Hops & D4 & -> & Hp4);
    [|done|lia|by split].
  destruct (negb _) eqn:Ez; [done|]. to_prop. injection H as <- <-.
  cbn [WriteBatch_default operations app] in Hops.
  assert (WriteBatch_len b' = n) as Hn'.
  { unfold WriteBatch_len, zlen. rewrite Hops, Hlen. lia. }
  split; [done|]. split.
  { rewrite Hops. intros ->. cbn in Hlen. lia. }
  split; [cbn in Hs; unfold is_u64, U64_MAX; lia|].
  apply encode_batch_spec. rewrite Hn', Hops. split; [cbn in Hn; unfold U32_MAX; lia|].
  exists es. split; [done|]. unfold batch_header.
  change e with (drop (Z.to_nat 0) e) at 1. rewrite D1, D2, D3, D4.
  rewrite (drop_ge e) by (unfold zlen in *; lia). by rewrite app_nil_r, <- !app_assoc.
Qed.

(** ** Size of an encoding *)

Definition op_overhead (op : WriteOp) : Z :=
  match op with
  | Put _ _ (Some _) => 18
  | Put _ _ None => 10
  | Delete _ => 5
  end.

Lemma zlen_encode_op op e : encode_op op = Ok e → zlen e = op_overhead op + op_payload op.
Proof.
  destruct op as [k v t|k]; cbn [encode_op]; unfold encode_length, u32_try_from; intros H.
  - destruct (zlen k <=? U32_MAX); [|done]. destruct (zlen v <=? U32_MAX); [|done].
    apply Ok_inj in H as <-. destruct t; cbn [op_overhead op_payload]; zlen_lia.
  - destruct (zlen k <=? U32_MAX); [|done]. apply Ok_inj in H as <-.
    cbn [op_overhead op_payload]. zlen_lia.
Qed.

Fixpoint overhead (ops : list WriteOp) : Z :=
  match ops with [] => 0 | op :: ops => op_overhead op + overhead ops end.

Lemma zlen_encode_batch s b e :
  encode_batch s b = Ok e → zlen e = 13 + overhead (operations b) + payload (operations b).
Proof.
  intros (_ & es & Hes & ->)%encode_batch_spec.
  assert (zlen (concat es) = overhead (operations b) + payload (operations b)) as H.
  { revert es Hes. induction (operations b) as [|op ops IH]; intros es Hes; cbn in Hes.
    - injection Hes as <-. done.
    - destruct (encode_op op) as [eo|] eqn:Heo; [|done].
      destruct (try_map encode_op ops) as [es'|]; [|done]. injection Hes as <-.
      cbn [concat overhead payload]. rewrite zlen_app, (zlen_encode_op _ _ Heo), (IH _ eq_refl). lia. }
  rewrite zlen_app, H. unfold batch_header. zlen_lia.
Qed.

(** ** Decoding arbitrary bytes does not panic *)

Lemma read_bytes_safe encoded position n :
  0 ≤ position → 0 ≤ n →
  safely (λ '(b, p), p = position + n ∧ zlen b = n ∧ p ≤ zlen encoded ∧
    (bytes_ok encoded → bytes_ok b)) (read_bytes encoded position n).
Proof.
  intros Hp Hn. unfold read_bytes, checked_add.
  destruct (_ <=? USIZE_MAX); [|done]. destruct (_ <=? zlen _) eqn:E; [|done]. to_prop. cbn.
  rewrite zlen_slice by lia. repeat split; try lia. intros. by apply Forall_take, Forall_drop.
Qed.

Lemma read_le_safe encoded position n :
  bytes_ok encoded → 0 ≤ position → 0 ≤ n →
  safely (λ '(v, p), p = position + n ∧ 0 ≤ v ∧ p ≤ zlen encoded)
    (let? (b, p) := read_bytes encoded position n in Ok (from_le b, p)).
Proof.
  intros Hok Hp Hn.
  pose proof (read_bytes_safe encoded position n Hp Hn) as H.
  destruct (read_bytes encoded position n) as [[b p]|[]]; try done. cbn in *.
  destruct H as (-> & Hl & Hle & Hb). pose proof (from_le_bound b (Hb Hok)). lia.
Qed.

Lemma push_safe b op :
  0 ≤ approximate_bytes b → approximate_bytes b + op_payload op ≤ USIZE_MAX →
  safely (λ b', approximate_bytes b' = approximate_bytes b + op_payload op) (push b op).
Proof. intros Hb Hle. rewrite push_spec by done. by rewrite (proj2 (Z.leb_le _ _)). Qed.

(** One read step of a decoder: the position advances within the input. *)
Ltac safe_le :=
  eapply safely_bind; [apply read_le_safe; [done|lia|lia]|];
  let v := fresh "v" in let p := fresh "p" in intros [v p] (-> & ? & ?); cbv beta iota.
Ltac safe_bytes :=
  eapply safely_bind; [apply read_bytes_safe; lia|];
  let v := fresh "v" in let p := fresh "p" in intros [v p] (-> & ? & ? & ?); cbv beta iota.

Lemma decode_op_safe encoded position b :
  bytes_ok encoded → zlen encoded ≤ USIZE_MAX →
  0 ≤ position ≤ zlen encoded → 0 ≤ approximate_bytes b ≤ position →
  safely (λ '(b', p), position ≤ p ≤ zlen encoded ∧ 0 ≤ approximate_bytes b' ≤ p)
    (decode_op encoded position b).
Proof.
  intros Hok Hmax Hpos Hb. unfold decode_op, read_length, read_u8, read_u32, read_u64.
  safe_le. destruct (v =? PUT_TAG); [|destruct (v =? DELETE_TAG); [|done]].
  - safe_le. safe_le. safe_le.
    apply (safely_bind (λ '(_, q), position + 1 + 4 + 4 + 1 ≤ q ≤ zlen encoded)).
    { destruct (v2 =? 0); [cbn; lia|]. destruct (v2 =? 1); [|done]. safe_le. cbn. lia. }
    intros [t q] Hq. safe_bytes. safe_bytes.
    eapply safely_bind; [apply (push_safe b (Put v3 v4 t)); cbn; lia|].
    intros b' Hb'. cbn in *. lia.
  - safe_le. safe_bytes.
    eapply safely_bind; [apply (push_safe b (Delete v1)); cbn; lia|].
    intros b' Hb'. cbn in *. lia.
Qed.

Lemma decode_batch_safe encoded :
  bytes_ok encoded → zlen encoded ≤ USIZE_MAX → safely (λ _, True) (decode_batch encoded).
Proof.
  intros Hok Hmax. unfold decode_batch, read_u8, read_u64, read_u32.
  safe_le. destruct (negb _); [done|]. safe_le. safe_le. destruct (_ =? 0); [done|].
  apply (safely_bind (λ _, True)).
  2:{ intros [b p] _. by destruct (negb _). }
  assert (∀ n position b, 0 ≤ position ≤ zlen encoded → 0 ≤ approximate_bytes b ≤ position →
    safely (λ _, True) (decode_ops encoded n position b)) as Hops.
  { induction n as [|n IH]; intros position b Hp Hb; [done|]. cbn [decode_ops].
    eapply safely_bind; [by apply decode_op_safe|]. intros [b' p'] [? ?]. apply IH; lia. }
  apply Hops; cbn; lia.
Qed.

(** ** Properties *)


(** A put with an expiration followed by a delete. *)
Definition sample_batch : WriteBatch :=
  {| operations := [Put [1; 2] [3] (Some 500); Delete [9]]; approximate_bytes := 4 |}.

Definition sample_encoding : bytes :=
  Eval vm_compute in
    match encode_batch 42 sample_batch with Ok e => e | Err _ => [] end.


(** Building a batch: appending operations to a well-formed batch either
    keeps the byte count equal to the payload of the operations in insertion
    order, or panics, and it panics exactly when the payload leaves [usize]. *)
Theorem batch_build_exact (b : WriteBatch) (ops : list WriteOp) :
  batch_wf b → Forall op_wf ops →
  try_fold push b ops =
    if payload (operations b) + payload ops <=? USIZE_MAX then
      Ok {| operations := operations b ++ ops;
            approximate_bytes := payload (operations b) + payload ops |}
    else Err (Panicked "write batch byte count overflow").
Proof.
  intros Hb Hops. revert b Hb. induction Hops as [|op ops Hop Hops IH]; intros b Hb.
  - destruct Hb as (Hb & Hmax & _). cbn. rewrite Z.add_0_r, app_nil_r.
    rewrite (proj2 (Z.leb_le _ _)) by lia. destruct b; cbn in *; by subst.
  - cbn [try_fold payload]. pose proof (payload_nonneg ops).
    pose proof Hb as (Heq & Hmax & _). rewrite push_spec by (rewrite Heq; apply payload_nonneg).
    rewrite Heq. destruct (payload (operations b) + op_payload op <=? USIZE_MAX) eqn:E; to_prop.
    + rewrite IH.
      2:{ eapply push_wf; [exact Hb|exact Hop|].
          rewrite push_spec, Heq by (rewrite Heq; apply payload_nonneg).
          by rewrite (proj2 (Z.leb_le _ _)) by lia. }
      cbn [operations approximate_bytes]. rewrite payload_app. cbn [payload].
      rewrite Z.add_0_r, <- app_assoc, <- Z.add_assoc. done.
    + by rewrite (proj2 (Z.leb_gt _ _)) by lia.
Qed.

(** An instance from the empty batch. *)
Lemma batch_build_exact_witness :
  try_fold push WriteBatch_default (operations sample_batch) = Ok sample_batch.
Proof.
  refine (batch_build_exact WriteBatch_default (operations sample_batch) _ _).
  - split; [reflexivity|split; eval_done].
  - eval_done.
Defined.
