(* ===== verification/ValueRecord.v ===== *)
(** * Value records and the engine-value envelope (src/crates/meteordb/src/memtable.rs)

    [ValueRecord], the envelope ([MEV] magic, version, tag, flags, optional
    expiration) that SSTables store, its checked decoder, and the proof that
    decoding accepts exactly the envelopes the encoder writes, paired with the
    kind of the internal key they are stored under. *)

From Stdlib Require Import ZArith Lia Sorting.Sorted.
From stdpp Require Import base list gmap strings.
From S2P Require Import Prelude InternalKey.

Local Open Scope Z_scope.

(** ** Value records *)

Inductive ValueRecord : Type :=
| VValue (value : bytes) (expires_at_unix_ms : option Z)
| VTombstone.

#[global] Instance ValueRecord_eq_dec : EqDecision ValueRecord.
Proof. solve_decision. Defined.

Definition ENGINE_VALUE_MAGIC : bytes := [77; 69; 86].
Definition ENGINE_VALUE_VERSION : Z := 1.
Definition VALUE_TAG : Z := 0.
Definition TOMBSTONE_TAG : Z := 1.
Definition EXPIRATION_FLAG : Z := 1.
Definition ENGINE_VALUE_HEADER_BYTES : Z := 6.

Definition ValueRecord_as_value (r : ValueRecord) : option bytes :=
  match r with VValue value _ => Some value | VTombstone => None end.

Definition ValueRecord_expires_at (r : ValueRecord) : option Z :=
  match r with VValue _ t => t | VTombstone => None end.

Definition encode_engine_value (r : ValueRecord) : bytes :=
  let '(tag, flags, expiration, value) :=
    match r with
    | VValue value t =>
      (VALUE_TAG, (if bool_decide (is_Some t) then 1 else 0) * EXPIRATION_FLAG, t, value)
    | VTombstone => (TOMBSTONE_TAG, 0, None, [])
    end in
  ENGINE_VALUE_MAGIC ++ [ENGINE_VALUE_VERSION] ++ [tag] ++ [flags] ++
  match expiration with Some t => to_le 8 t | None => [] end ++ value.

Definition engine_value_corruption (detail : string) : error :=
  Corruption "SSTable engine value" detail.

Definition decode_sstable (internal_kind : ValueKind) (encoded : bytes)
    (engine_encoded : bool) : result ValueRecord :=
  if negb engine_encoded then
    Ok (if decide (internal_kind = Deletion) then VTombstone else VValue encoded None)
  else if zlen encoded <? ENGINE_VALUE_HEADER_BYTES then
    Err (engine_value_corruption "header is truncated")
  else if negb (lex_eqb (slice 0 3 encoded) ENGINE_VALUE_MAGIC) then
    Err (engine_value_corruption "magic is not MEV")
  else
    let? version := index_or_panic 3 encoded in
    if negb (version =? ENGINE_VALUE_VERSION) then
      Err (engine_value_corruption "unsupported encoding version")
    else
      let? tag := index_or_panic 4 encoded in
      let? flags := index_or_panic 5 encoded in
      if negb (Z.land flags (Z.lxor EXPIRATION_FLAG U8_MAX) =? 0) then
        Err (engine_value_corruption "unknown flags")
      else if tag =? VALUE_TAG then
        if negb (bool_decide (internal_kind = Value)) then
          Err (engine_value_corruption "value payload has a deletion internal key")
        else
          let? (expires_at_unix_ms, value_start) :=
            (if Z.land flags EXPIRATION_FLAG =? 0 then Ok (None, ENGINE_VALUE_HEADER_BYTES)
             else
               let stop := ENGINE_VALUE_HEADER_BYTES + 8 in
               let? expiration :=
                 ok_or (get_range ENGINE_VALUE_HEADER_BYTES stop encoded)
                   (engine_value_corruption "expiration is truncated") in
               Ok (Some (from_le expiration), stop)) in
          Ok (VValue (slice value_start (zlen encoded) encoded) expires_at_unix_ms)
      else if tag =? TOMBSTONE_TAG then
        if negb (bool_decide (internal_kind = Deletion)) then
          Err (engine_value_corruption "tombstone payload has a value internal key")
        else if negb (flags =? 0) || negb (zlen encoded =? ENGINE_VALUE_HEADER_BYTES) then
          Err (engine_value_corruption "tombstone carries flags or trailing bytes")
        else Ok VTombstone
      else Err (engine_value_corruption "unknown record tag").

(** The kind an internal key of a record carries. *)
Definition record_kind (r : ValueRecord) : ValueKind :=
  match r with VValue _ _ => Value | VTombstone => Deletion end.


(** The records a [ValueRecord] of the program can hold. *)
Definition record_wf (r : ValueRecord) : Prop :=
  match r with
  | VValue value t => bytes_ok value ∧ from_option is_u64 True t
  | VTombstone => True
  end.

#[global] Instance record_wf_dec r : Decision (record_wf r).
Proof. destruct r as [? [?|]|]; cbn; apply _. Defined.

(** ** Envelope lemmas *)

(** The flag byte after the unknown-flag check. *)
Lemma flags_cases f :
  is_u8 f → Z.land f (Z.lxor EXPIRATION_FLAG U8_MAX) = 0 → f = 0 ∨ f = 1.
Proof.
  unfold is_u8, U8_MAX. intros Hf H.
  assert (Forall (λ n, Z.land (Z.of_nat n) 254 = 0 → Z.of_nat n = 0 ∨ Z.of_nat n = 1)
    (seq 0 256)) as Hall by eval_done.
  rewrite Forall_forall in Hall. specialize (Hall (Z.to_nat f)).
  rewrite Z2Nat.id in Hall by lia. apply Hall; [|done].
  apply elem_of_seq. lia.
Qed.

Lemma envelope_split (l : bytes) :
  ENGINE_VALUE_HEADER_BYTES ≤ zlen l →
  ∃ a b c version tag flags rest, l = [a; b; c; version; tag; flags] ++ rest.
Proof.
  unfold ENGINE_VALUE_HEADER_BYTES, zlen. intros H.
  destruct l as [|a [|b [|c [|d [|e [|f l]]]]]]; cbn in H; try lia.
  by exists a, b, c, d, e, f, l.
Qed.

Lemma slice_to_end {A} (x l : list A) n m :
  n = zlen x → m = zlen (x ++ l) → slice n m (x ++ l) = l.
Proof.
  intros -> ->. unfold slice. rewrite drop_app_z by done.
  apply take_ge. unfold zlen. rewrite length_app. lia.
Qed.

(** The decoder on a header and a body, with the fixed checks done. *)
Lemma decode_sstable_header k tag flags rest :
  decode_sstable k (ENGINE_VALUE_MAGIC ++ [ENGINE_VALUE_VERSION; tag; flags] ++ rest) true =
    if negb (Z.land flags (Z.lxor EXPIRATION_FLAG U8_MAX) =? 0) then
      Err (engine_value_corruption "unknown flags")
    else if tag =? VALUE_TAG then
      if negb (bool_decide (k = Value)) then
        Err (engine_value_corruption "value payload has a deletion internal key")
      else if Z.land flags EXPIRATION_FLAG =? 0 then Ok (VValue rest None)
      else if zlen rest <? 8 then Err (engine_value_corruption "expiration is truncated")
      else Ok (VValue (drop 8 rest) (Some (from_le (take 8 rest))))
    else if tag =? TOMBSTONE_TAG then
      if negb (bool_decide (k = Deletion)) then
        Err (engine_value_corruption "tombstone payload has a value internal key")
      else if negb (flags =? 0) || negb (zlen rest =? 0) then
        Err (engine_value_corruption "tombstone carries flags or trailing bytes")
      else Ok VTombstone
    else Err (engine_value_corruption "unknown record tag").
Proof.
  set (hdr := ENGINE_VALUE_MAGIC ++ [ENGINE_VALUE_VERSION; tag; flags]).
  unfold decode_sstable. change (ENGINE_VALUE_MAGIC ++ _) with (hdr ++ rest).
  assert (zlen (hdr ++ rest) = 6 + zlen rest) as Hlen by (rewrite zlen_app; done).
  rewrite Hlen. unfold ENGINE_VALUE_HEADER_BYTES.
  pose proof (zlen_nonneg rest). rewrite (proj2 (Z.ltb_ge _ _)) by lia.
  cbn [negb]. change (slice 0 3 (hdr ++ rest)) with ENGINE_VALUE_MAGIC.
  rewrite lex_eqb_refl. cbn [negb].
  change (index_or_panic 3 (hdr ++ rest)) with (@Ok Z ENGINE_VALUE_VERSION).
  change (index_or_panic 4 (hdr ++ rest)) with (@Ok Z tag).
  change (index_or_panic 5 (hdr ++ rest)) with (@Ok Z flags).
  cbn [Z.eqb negb ENGINE_VALUE_VERSION Pos.eqb].
  destruct (negb (Z.land _ _ =? 0)); [done|].
  destruct (tag =? VALUE_TAG).
  - destruct (negb (bool_decide (k = Value))); [done|].
    destruct (Z.land flags EXPIRATION_FLAG =? 0).
    + rewrite slice_to_end; [done|done|by rewrite Hlen].
    + unfold get_range. rewrite Hlen. change (6 <=? 6 + 8) with true. cbn [andb].
      destruct (zlen rest <? 8) eqn:E; to_prop.
      { rewrite (proj2 (Z.leb_gt _ _)) by lia. done. }
      rewrite (proj2 (Z.leb_le _ _)) by lia. cbn [ok_or]. do 2 f_equal.
      unfold slice. change (Z.to_nat (6 + 8)) with (length hdr + 8)%nat.
      rewrite drop_app_add. apply take_ge. rewrite length_drop. revert Hlen E. clear. unfold zlen. lia.
  - destruct (tag =? TOMBSTONE_TAG); [|done].
    replace (6 + zlen rest =? 6) with (zlen rest =? 0); [done|].
    destruct (Z.eqb_spec (zlen rest) 0), (Z.eqb_spec (6 + zlen rest) 6); done || lia.
Qed.

(** Everything the fixed checks let through starts with the header. *)
Lemma decode_sstable_accepts k encoded r :
  decode_sstable k encoded true = Ok r →
  ∃ tag flags rest,
    encoded = ENGINE_VALUE_MAGIC ++ [ENGINE_VALUE_VERSION; tag; flags] ++ rest.
Proof.
  unfold decode_sstable. cbn [negb].
  destruct (zlen encoded <? _) eqn:E; [done|]. to_prop.
  apply envelope_split in E as (a & b & c & version & tag & flags & rest & ->).
  change (slice 0 3 _) with [a; b; c].
  destruct (lex_eqb [a; b; c] ENGINE_VALUE_MAGIC) eqn:Em; [|done].
  apply lex_eqb_eq in Em. injection Em as -> -> ->. cbn [negb].
  change (index_or_panic 3 _) with (@Ok Z version). cbv beta iota.
  destruct (version =? ENGINE_VALUE_VERSION) eqn:Ev; [|done]. to_prop. subst version.
  intros _. by exists tag, flags, rest.
Qed.

Lemma decode_encode_engine_value r :
  record_wf r → decode_sstable (record_kind r) (encode_engine_value r) true = Ok r.
Proof.
  intros Hwf. destruct r as [value [t|]|].
  - destruct Hwf as [_ Ht]. cbn in Ht. cbn [encode_engine_value record_kind].
    change (ENGINE_VALUE_MAGIC ++ _) with
      (ENGINE_VALUE_MAGIC ++ [ENGINE_VALUE_VERSION; VALUE_TAG; 1] ++ (to_le 8 t ++ value)).
    rewrite decode_sstable_header. cbn [VALUE_TAG Z.eqb].
    rewrite (proj2 (Z.ltb_ge _ _)) by zlen_lia.
    rewrite drop_app_length', take_app_length' by by rewrite to_le_length.
    rewrite from_le_to_le; [done|]. unfold is_u64, U64_MAX in Ht. lia.
  - change (encode_engine_value _) with
      (ENGINE_VALUE_MAGIC ++ [ENGINE_VALUE_VERSION; VALUE_TAG; 0] ++ value).
    by rewrite decode_sstable_header.
  - done.
Qed.

(** ** Properties *)

(** The engine-value envelope is exact: under an internal key of kind [k] the
    decoder accepts an envelope precisely when it is the encoding of a record of
    that kind, and then returns that record; every other byte string (wrong
    magic, version, flags, tag, kind or trailing bytes) is rejected. *)
Theorem engine_value_exact (k : ValueKind) (encoded : bytes) (r : ValueRecord) :
  bytes_ok encoded →
  decode_sstable k encoded true = Ok r ↔
  record_wf r ∧ record_kind r = k ∧ encoded = encode_engine_value r.
Proof.
  intros Hok. split.
  - intros H. destruct (decode_sstable_accepts _ _ _ H) as (tag & flags & rest & ->).
    rewrite decode_sstable_header in H.
    apply Forall_app in Hok as [_ [Hhdr Hrest]%Forall_app].
    apply Forall_cons in Hhdr as [_ [_ [Hf _]%Forall_cons]%Forall_cons].
    destruct (Z.land flags _ =? 0) eqn:Ef; [|done]. to_prop. cbn [negb] in H.
    destruct (flags_cases flags Hf Ef) as [-> | ->]; inv_ok H; to_prop; subst; try lia.
    + done.
    + rewrite (zlen_0_nil rest) by done. done.
    + cbn. split; [|split; [done|]].
      * split; [by apply Forall_drop|]. cbn.
        pose proof (from_le_bound (take 8 rest) (Forall_take _ _ _ Hrest)) as Hb.
        change 8%nat with (Z.to_nat 8) in Hb. rewrite zlen_take in Hb by lia.
        change (Z.to_nat 8) with 8%nat in Hb. unfold is_u64, U64_MAX. lia.
      * do 6 f_equal. pose proof (to_le_from_le (take 8 rest) (Forall_take _ _ _ Hrest)) as Ht.
        rewrite length_take, Nat.min_l in Ht by (unfold zlen in *; lia).
        by rewrite Ht, take_drop.
  - intros (Hwf & <- & ->). by apply decode_encode_engine_value.
Qed.

(** An instance: a value with an expiration. *)
Lemma engine_value_exact_witness :
  decode_sstable Value ([77; 69; 86; 1; 0; 1; 5; 0; 0; 0; 0; 0; 0; 0; 9]) true =
    Ok (VValue [9] (Some 5)).
Proof.
  apply (engine_value_exact Value _ (VValue [9] (Some 5))); [eval_done|].
  split; [eval_done|]. split; reflexivity.
Defined.
