(* ===== verification/Snapshot.v ===== *)
(** * Snapshots (src/crates/meteordb/src/snapshot.rs)

    The registry of sequences that readers protect from compaction: a map from
    sequence to the number of guards on it.  The mutex makes each operation one
    step. *)

From Stdlib Require Import ZArith Lia Sorting.Sorted.
From stdpp Require Import base list gmap strings.
From S2P Require Import Prelude.

Local Open Scope Z_scope.
#[local] Existing Instance Z_total.

(** [BTreeMap<SequenceNumber, usize>] *)
Abbreviation SnapshotRegistry := (list (Z * Z)).

Definition acquire (active : SnapshotRegistry) (sequence : Z) : result SnapshotRegistry :=
  let count := default 0 (bt_get Z.compare sequence active) in
  match checked_add count 1 with
  | Some count => Ok (bt_insert Z.compare sequence count active)
  | None => Err (Panicked "snapshot reference count overflowed usize")
  end.

Definition oldest_active (active : SnapshotRegistry) : option Z := fst <$> head active.

(** [Drop for SnapshotGuard]; a guard that is not registered is only a debug
    assertion. *)
Definition drop_guard (active : SnapshotRegistry) (sequence : Z) : SnapshotRegistry :=
  match bt_get Z.compare sequence active with
  | Some count =>
    if 1 <? count then bt_insert Z.compare sequence (count - 1) active
    else bt_remove Z.compare sequence active
  | None => active
  end.

(** ** The guards that are alive *)

Fixpoint remove_one (s : Z) (guards : list Z) : list Z :=
  match guards with
  | [] => []
  | g :: guards => if g =? s then guards else g :: remove_one s guards
  end.

Fixpoint occurrences (s : Z) (guards : list Z) : Z :=
  match guards with
  | [] => 0
  | g :: guards => (if g =? s then 1 else 0) + occurrences s guards
  end.

(** The registry counts the guards. *)
Definition registry_rep (guards : list Z) (active : SnapshotRegistry) : Prop :=
  bt_sorted Z.compare active ∧
  ∀ s, bt_get Z.compare s active =
    if occurrences s guards =? 0 then None else Some (occurrences s guards).

(** Readers acquire and drop guards; a guard is dropped once. *)
Inductive reader_step : list Z * SnapshotRegistry → list Z * SnapshotRegistry → Prop :=
| step_acquire guards active s active' :
    acquire active s = Ok active' → reader_step (guards, active) (s :: guards, active')
| step_drop guards active s :
    s ∈ guards → reader_step (guards, active) (remove_one s guards, drop_guard active s).

Lemma occurrences_bounds s guards : 0 ≤ occurrences s guards ≤ zlen guards.
Proof. induction guards as [|g guards IH]; cbn; [done|]. rewrite zlen_cons. destruct (g =? s); lia. Qed.

Lemma occurrences_elem s guards : s ∈ guards ↔ occurrences s guards ≠ 0.
Proof.
  induction guards as [|g guards IH]; cbn; [by rewrite elem_of_nil|]. rewrite elem_of_cons, IH.
  pose proof (occurrences_bounds s guards). destruct (Z.eqb_spec g s); intuition (try lia).
Qed.

Lemma occurrences_remove s t guards :
  s ∈ guards → occurrences t (remove_one s guards) = occurrences t guards - if s =? t then 1 else 0.
Proof.
  induction guards as [|g guards IH]; cbn; [by intros H%elem_of_nil|]. intros H.
  destruct (Z.eqb_spec g s) as [->|Hne]; [lia|]. cbn. apply elem_of_cons in H as [->|H]; [done|]. rewrite IH by done. lia.
Qed.

Lemma acquire_rep guards active s active' :
  registry_rep guards active → acquire active s = Ok active' → registry_rep (s :: guards) active'.
Proof.
  intros [Hs Hg] H. unfold acquire in H. destruct (checked_add _ _) as [c|] eqn:E; [|done]. injection H as <-.
  unfold checked_add in E. destruct (_ <=? _); [|done]. injection E as <-.
  split; [by apply bt_insert_sorted|]. intros t. rewrite bt_get_insert by done. rewrite !Hg. cbn [occurrences].
  pose proof (occurrences_bounds t guards).
  destruct (Z.compare_spec t s) as [->|Hlt|Hlt].
  - rewrite Z.eqb_refl. destruct (Z.eqb_spec (occurrences s guards) 0) as [->|Hne]; [done|].
    rewrite (proj2 (Z.eqb_neq (1 + occurrences s guards) 0)) by lia. cbn. f_equal. lia.
  - rewrite (proj2 (Z.eqb_neq s t)) by lia. done.
  - rewrite (proj2 (Z.eqb_neq s t)) by lia. done.
Qed.

Lemma drop_rep guards active s :
  registry_rep guards active → s ∈ guards → registry_rep (remove_one s guards) (drop_guard active s).
Proof.
  intros [Hs Hg] Hin. unfold drop_guard. rewrite Hg. pose proof (occurrences_bounds s guards) as Hb.
  pose proof (proj1 (occurrences_elem s guards) Hin) as Hne. rewrite (proj2 (Z.eqb_neq _ _)) by done.
  destruct (Z.ltb_spec 1 (occurrences s guards)) as [Hgt|Hle].
  - split; [by apply bt_insert_sorted|]. intros t. rewrite bt_get_insert, Hg, occurrences_remove by done.
    destruct (Z.compare_spec t s) as [->|?|?].
    + rewrite Z.eqb_refl, (proj2 (Z.eqb_neq _ _)) by lia. done.
    + rewrite (proj2 (Z.eqb_neq s t)) by lia. by rewrite Z.sub_0_r.
    + rewrite (proj2 (Z.eqb_neq s t)) by lia. by rewrite Z.sub_0_r.
  - split; [by apply bt_remove_sorted|]. intros t. rewrite bt_get_remove, Hg, occurrences_remove by done.
    destruct (Z.compare_spec t s) as [->|?|?].
    + rewrite Z.eqb_refl. by replace (occurrences s guards - 1) with 0 by lia.
    + rewrite (proj2 (Z.eqb_neq s t)) by lia. by rewrite Z.sub_0_r.
    + rewrite (proj2 (Z.eqb_neq s t)) by lia. by rewrite Z.sub_0_r.
Qed.

Lemma oldest_rep guards active :
  registry_rep guards active →
  match oldest_active active with
  | Some s => s ∈ guards ∧ ∀ g, g ∈ guards → s ≤ g
  | None => guards = []
  end.
Proof.
  intros [Hs Hg]. unfold oldest_active. destruct active as [|[s c] active]; cbn.
  - destruct guards as [|g guards]; [done|]. specialize (Hg g). cbn in Hg. rewrite Z.eqb_refl in Hg.
    pose proof (occurrences_bounds g guards). rewrite (proj2 (Z.eqb_neq _ _)) in Hg by lia. done.
  - assert (∀ t, t ∈ guards → ∃ v, (t, v) ∈ (s, c) :: active) as Hin.
    { intros t Ht%occurrences_elem. specialize (Hg t). rewrite (proj2 (Z.eqb_neq _ _)) in Hg by done.
      revert Hg. generalize ((s, c) :: active). intros l. induction l as [|[k v] l IH]; cbn; [done|].
      destruct (Z.compare_spec t k) as [->|_|_]; intros H; [exists v; by left|destruct (IH H) as [v' ?]; exists v'; by right..]. }
    split.
    + apply occurrences_elem. specialize (Hg s). cbn in Hg. rewrite Z.compare_refl in Hg.
      intros H0. by rewrite H0 in Hg.
    + intros g Hgi. destruct (Hin g Hgi) as (v & [[= -> _]|Hv]%elem_of_cons); [lia|].
      apply StronglySorted_inv in Hs as [_ Hall]. rewrite Forall_forall in Hall. specialize (Hall _ Hv).
      exact (Z.lt_le_incl _ _ Hall).
Qed.

Lemma reader_steps_rep st st' :
  rtc reader_step st st' → registry_rep st.1 st.2 → registry_rep st'.1 st'.2.
Proof.
  induction 1 as [st|st st1 st2 Hstep _ IH]; [done|]. intros Hrep. apply IH.
  destruct Hstep; cbn in *; [by eapply acquire_rep|by apply drop_rep].
Qed.

(** ** Properties *)

(** Compaction sees the oldest reader: after any interleaving of acquired and
    dropped guards, [oldest_active] is the least sequence of the guards that are
    alive, and [None] exactly when there are none. *)
Theorem oldest_active_exact (guards : list Z) (active : SnapshotRegistry) :
  rtc reader_step ([], []) (guards, active) →
  match oldest_active active with
  | Some s => s ∈ guards ∧ ∀ g, g ∈ guards → s ≤ g
  | None => guards = []
  end.
Proof.
  intros H. apply oldest_rep. apply (reader_steps_rep _ _ H). split; [constructor|]. done.
Qed.

(** An instance: two readers at 7, one at 9; one of the first two is gone. *)
Lemma oldest_active_exact_witness :
  match oldest_active [(7, 1); (9, 1)] with
  | Some s => s ∈ [9; 7] ∧ ∀ g, g ∈ [9; 7] → s ≤ g
  | None => [9; 7] = []
  end.
Proof.
  apply (oldest_active_exact [9; 7] [(7, 1); (9, 1)]).
  apply (rtc_l _ _ ([7], [(7, 1)])); [by apply step_acquire|].
  apply (rtc_l _ _ ([7; 7], [(7, 2)])); [by apply step_acquire|].
  apply (rtc_l _ _ ([9; 7; 7], [(7, 2); (9, 1)])); [by apply step_acquire|].
  apply (rtc_l _ _ ([9; 7], [(7, 1); (9, 1)])); [|apply rtc_refl].
  apply (step_drop [9; 7; 7] [(7, 2); (9, 1)] 7). right. left.
Defined.
