(* ===== verification/Mvcc.v ===== *)
(** * The MVCC read specification

    Every layer of the engine (memtables, SSTables, compaction outputs) holds a
    collection of versioned entries.  This file says, independently of any
    layer, what a read at a sequence number must return: [is_newest] for one
    collection, [hist_get] for the history of committed batches, and
    [record_into_value] of engine.rs for the expiry check.
    It also contains the order lemmas that let a layer find the newest version
    by one seek in a sorted collection. *)

From Stdlib Require Import ZArith Lia Sorting.Sorted.
From stdpp Require Import base list gmap strings.
From S2P Require Import Prelude InternalKey Batch ValueRecord.

Local Open Scope Z_scope.

Abbreviation entry := (InternalKey * ValueRecord)%type.

Definition e_user (e : entry) : bytes := ik_user_key e.1.
Definition e_seq (e : entry) : Z := InternalKey_sequence e.1.

(** Stored entries: a well-formed key whose kind matches the record. *)
Definition mk_entry (u : bytes) (s : Z) (r : ValueRecord) : entry :=
  (mk_key u s (record_kind r), r).

Definition entry_wf (e : entry) : Prop :=
  ∃ u s r, bytes_ok u ∧ seq_ok s ∧ record_wf r ∧ e = mk_entry u s r.

Lemma entry_wf_mk u s r : bytes_ok u → seq_ok s → record_wf r → entry_wf (mk_entry u s r).
Proof. intros. by exists u, s, r. Qed.
#[export] Hint Resolve entry_wf_mk : mdb.

Lemma e_user_mk u s r : e_user (mk_entry u s r) = u.
Proof. done. Qed.
Lemma e_seq_mk u s r : seq_ok s → e_seq (mk_entry u s r) = s.
Proof. intros. by apply sequence_mk_key. Qed.

Lemma entry_wf_view e :
  entry_wf e → bytes_ok (e_user e) ∧ seq_ok (e_seq e) ∧ record_wf e.2 ∧
    e = mk_entry (e_user e) (e_seq e) e.2.
Proof.
  intros (u & s & r & Hu & Hs & Hr & ->). by rewrite e_seq_mk, e_user_mk.
Qed.

Lemma entry_wf_key e : entry_wf e → key_wf e.1.
Proof. intros (u & s & r & Hu & Hs & _ & ->). by apply mk_key_wf. Qed.

(** ** The newest visible version *)

(** [o] is the version of [u] a reader at sequence [q] must see in [es]. *)
Definition is_newest (u : bytes) (q : Z) (es : list entry) (o : option entry) : Prop :=
  match o with
  | Some e =>
    e ∈ es ∧ e_user e = u ∧ e_seq e ≤ q ∧
    ∀ e', e' ∈ es → e_user e' = u → e_seq e' ≤ q → e_seq e' ≤ e_seq e
  | None => ∀ e', e' ∈ es → e_user e' = u → q < e_seq e'
  end.

(** One version per user key and sequence. *)
Definition versions_unique (es : list entry) : Prop :=
  ∀ e e', e ∈ es → e' ∈ es → e_user e = e_user e' → e_seq e = e_seq e' → e = e'.

Lemma is_newest_unique u q es o o' :
  versions_unique es → is_newest u q es o → is_newest u q es o' → o = o'.
Proof.
  intros Huniq. destruct o as [e|], o' as [e'|]; cbn.
  - intros (H1 & Hu1 & Hs1 & Hm1) (H2 & Hu2 & Hs2 & Hm2). f_equal.
    apply Huniq; [done|done|congruence|].
    specialize (Hm1 _ H2 Hu2 Hs2). specialize (Hm2 _ H1 Hu1 Hs1). lia.
  - intros (H1 & Hu1 & Hs1 & _) H. specialize (H _ H1 Hu1). lia.
  - intros H (H1 & Hu1 & Hs1 & _). specialize (H _ H1 Hu1). lia.
  - done.
Qed.

Lemma newest_exists u q es : ∃ o, is_newest u q es o.
Proof.
  induction es as [|e es [o Ho]]; [exists None; by intros e' He'%elem_of_nil|].
  destruct (decide (e_user e = u ∧ e_seq e ≤ q)) as [[Hu Hs]|Hn].
  - destruct o as [e1|]; cbn in Ho.
    + destruct Ho as (H1 & H2 & H3 & H4). destruct (Z.le_ge_cases (e_seq e1) (e_seq e)).
      * exists (Some e). split; [by left|]. do 2 (split; [done|]).
        intros e' [->|He']%elem_of_cons Hu' Hs'; [done|]. specialize (H4 e' He' Hu' Hs'). lia.
      * exists (Some e1). split; [by right|]. do 2 (split; [done|]).
        intros e' [->|He']%elem_of_cons Hu' Hs'; [done|auto].
    + exists (Some e). split; [by left|]. do 2 (split; [done|]).
      intros e' [->|He']%elem_of_cons Hu' Hs'; [done|]. specialize (Ho e' He' Hu'). lia.
  - exists o. destruct o as [e1|]; cbn in *.
    + destruct Ho as (H1 & H2 & H3 & H4). split; [by right|]. do 2 (split; [done|]).
      intros e' [->|He']%elem_of_cons Hu' Hs'; [by destruct Hn|auto].
    + intros e' [->|He']%elem_of_cons Hu'; [|auto]. destruct (Z.lt_ge_cases q (e_seq e)); [done|by destruct Hn].
Qed.

Lemma versions_unique_subset es es' :
  (∀ e, e ∈ es' → e ∈ es) → versions_unique es → versions_unique es'.
Proof. intros Hsub H e e' He He'. apply H; auto. Qed.

Lemma versions_unique_seqs es : NoDup (map e_seq es) → versions_unique es.
Proof.
  intros Hnd e e' He He' _ Hs. apply list_elem_of_lookup in He as [i Hi]. apply list_elem_of_lookup in He' as [j Hj].
  assert (i = j) as ->; [|congruence]. eapply (NoDup_lookup (e_seq <$> es)); [exact Hnd| |];
    rewrite list_lookup_fmap, ?Hi, ?Hj; cbn; [done|congruence].
Qed.

(** Layering: when every version of [u] in the upper collection is newer than
    every version of [u] below, a hit above wins and a miss above falls through. *)
Definition layer_above (u : bytes) (upper lower : list entry) : Prop :=
  ∀ e e', e ∈ upper → e' ∈ lower → e_user e = u → e_user e' = u → e_seq e' < e_seq e.

Lemma is_newest_layer_hit u q upper lower e :
  layer_above u upper lower → is_newest u q upper (Some e) →
  is_newest u q (upper ++ lower) (Some e).
Proof.
  intros Hl (He & Hu & Hs & Hm). cbn. split; [by apply elem_of_app; left|].
  split; [done|]. split; [done|]. intros e' [H'|H']%elem_of_app Hu' Hs'; [auto|].
  specialize (Hl _ _ He H' Hu Hu'). lia.
Qed.

Lemma is_newest_layer_miss u q upper lower o :
  is_newest u q upper None → is_newest u q lower o → is_newest u q (upper ++ lower) o.
Proof.
  intros Hup Hlo. destruct o as [e|]; cbn in *.
  - destruct Hlo as (He & Hu & Hs & Hm). split; [by apply elem_of_app; right|].
    split; [done|]. split; [done|]. intros e' [H'|H']%elem_of_app Hu' Hs'; [|auto].
    specialize (Hup _ H' Hu'). lia.
  - intros e' [H'|H']%elem_of_app Hu'; auto.
Qed.

(** Only membership matters. *)
#[global] Instance is_newest_proper u q :
  Proper ((λ es es', ∀ e, e ∈ es ↔ e ∈ es') ==> eq ==> iff) (is_newest u q).
Proof.
  intros es es' Hes o ? <-. destruct o; cbn; setoid_rewrite Hes; done.
Qed.

#[global] Instance is_newest_perm u q : Proper (Permutation ==> eq ==> iff) (is_newest u q).
Proof. intros es es' Hes o ? <-. apply is_newest_proper; [|done]. intros e. by rewrite Hes. Qed.

(** Only the entries of the user key matter. *)
Lemma is_newest_user u q es es' o :
  (∀ e, e_user e = u → e ∈ es ↔ e ∈ es') → is_newest u q es o → is_newest u q es' o.
Proof.
  intros H. destruct o as [e|]; cbn.
  - intros (He & Hu & Hq & Hm). split; [by apply H|]. do 2 (split; [done|]). intros e' He' Hu'. apply Hm; [by apply H|done].
  - intros Hn e' He' Hu'. apply Hn; [by apply H|done].
Qed.

(** ** Expiry *)

Definition record_into_value (record : ValueRecord) (read_time_unix_ms : Z) : option bytes :=
  match record with
  | VValue value (Some expires) => if read_time_unix_ms <? expires then Some value else None
  | VValue value None => Some value
  | VTombstone => None
  end.

(** ** Seeking in a sorted collection *)

Definition entries_sorted (es : list entry) : Prop := bt_sorted InternalKey_cmp es.

Lemma entry_cmp e e' :
  entry_wf e → entry_wf e' →
  InternalKey_cmp e.1 e'.1 =
    version_cmp (e_user e) (e_seq e) (record_kind e.2)
                (e_user e') (e_seq e') (record_kind e'.2).
Proof.
  intros (u & s & r & Hu & Hs & _ & ->) (u' & s' & r' & Hu' & Hs' & _ & ->).
  rewrite !e_seq_mk, !e_user_mk by done. by apply mk_key_cmp.
Qed.

(** The seek key [(u, q, Deletion)] is not above an entry of [u] exactly when the
    entry is visible at [q]. *)
Lemma seek_cmp u q e :
  bytes_ok u → seq_ok q → entry_wf e →
  InternalKey_cmp e.1 (mk_key u q Deletion) =
    version_cmp (e_user e) (e_seq e) (record_kind e.2) u q Deletion.
Proof.
  intros Hu Hq (u' & s' & r' & Hu' & Hs' & _ & ->).
  rewrite e_seq_mk, e_user_mk by done. by apply mk_key_cmp.
Qed.

Lemma not_below_seek u q e :
  bytes_ok u → seq_ok q → entry_wf e → e_user e = u →
  not_below (cmp := InternalKey_cmp) (mk_key u q Deletion) e = (e_seq e <=? q).
Proof.
  intros Hu Hq He Heu. unfold not_below. rewrite seek_cmp by done. unfold version_cmp.
  rewrite Heu, lex_cmp_refl.
  destruct (Z.compare_spec q (e_seq e)); symmetry.
  - destruct (kind_cmp _ _) eqn:E; try (apply Z.leb_le; lia). by destruct (record_kind e.2).
  - apply Z.leb_gt. lia.
  - apply Z.leb_le. lia.
Qed.

Lemma sorted_head_le e es e' :
  entries_sorted (e :: es) → e' ∈ e :: es → InternalKey_cmp e.1 e'.1 ≠ Gt.
Proof.
  intros H He'. apply StronglySorted_inv in H as [_ Hall].
  apply elem_of_cons in He' as [->|He'].
  - unfold InternalKey_cmp. by rewrite lex_cmp_refl.
  - rewrite Forall_forall in Hall.
    by rewrite (Hall _ He').
Qed.

(** The head of the entries not below the seek key, if it belongs to [u], is the
    newest visible version of [u]; otherwise there is none. *)
Lemma seek_head_newest u q es :
  bytes_ok u → seq_ok q → Forall entry_wf es → entries_sorted es →
  is_newest u q es
    match bt_range_from InternalKey_cmp (mk_key u q Deletion) es with
    | e :: _ => if lex_eqb (e_user e) u then Some e else None
    | [] => None
    end.
Proof.
  intros Hu Hq Hwf Hsort. rewrite bt_range_from_spec by done.
  assert (∀ e, e ∈ es → entry_wf e) as Hwf'.
  { intros e He. rewrite Forall_forall in Hwf. by apply Hwf. }
  assert (∀ e, e ∈ es → e_user e = u → e_seq e ≤ q →
    e ∈ List.filter (not_below (cmp := InternalKey_cmp) (mk_key u q Deletion)) es) as Hin.
  { intros e He Heu Hs. apply elem_of_filter_b. split; [|done].
    rewrite not_below_seek by auto. by apply Z.leb_le. }
  assert (entries_sorted (List.filter (not_below (cmp := InternalKey_cmp) (mk_key u q Deletion)) es))
    as Hsort'.
  { clear -Hsort. induction Hsort as [|e es Hs IH Hall]; cbn; [constructor|].
    destruct (not_below _ e); [|done]. constructor; [done|].
    apply Forall_forall. intros e' He'. rewrite Forall_forall in Hall. apply Hall.
    by apply elem_of_filter_b in He' as [_ ?]. }
  destruct (List.filter _ es) as [|h t] eqn:Ef.
  { cbn. intros e He Heu. destruct (Z.lt_ge_cases q (e_seq e)); [done|].
    specialize (Hin e He Heu ltac:(done)). by apply elem_of_nil in Hin. }
  assert (not_below (cmp := InternalKey_cmp) (mk_key u q Deletion) h = true ∧ h ∈ es) as [Hnb Hh].
  { apply elem_of_filter_b. rewrite Ef. by left. }
  destruct (lex_eqb (e_user h) u) eqn:Eu.
  - apply lex_eqb_eq in Eu. cbn. split; [done|]. split; [done|].
    rewrite not_below_seek in Hnb by auto. to_prop. split; [done|].
    intros e' He' Heu' Hs'. pose proof (sorted_head_le h t e' Hsort' (Hin _ He' Heu' Hs')) as Hle.
    rewrite entry_cmp in Hle by auto. unfold version_cmp in Hle.
    rewrite Eu, Heu', lex_cmp_refl in Hle.
    destruct (Z.compare_spec (e_seq e') (e_seq h)); try done; lia.
  - cbn. intros e He Heu. destruct (Z.lt_ge_cases q (e_seq e)) as [|Hs]; [done|]. exfalso.
    pose proof (sorted_head_le h t e Hsort' (Hin _ He Heu Hs)) as Hle.
    rewrite entry_cmp in Hle by auto. unfold not_below in Hnb.
    rewrite seek_cmp in Hnb by auto. unfold version_cmp in *. rewrite Heu in Hle.
    destruct (lex_cmp (e_user h) u) eqn:Ec; [|done|done].
    apply lex_cmp_eq in Ec. rewrite Ec, lex_eqb_refl in Eu. done.
Qed.

(** ** Histories of committed batches *)

Definition op_key (op : WriteOp) : bytes :=
  match op with Put key _ _ => key | Delete key => key end.
Definition op_record (op : WriteOp) : ValueRecord :=
  match op with Put _ value t => VValue value t | Delete _ => VTombstone end.

(** The last operation on [u] in a batch, [None] when the batch leaves it alone. *)
Fixpoint last_op (u : bytes) (ops : list WriteOp) : option ValueRecord :=
  match ops with
  | [] => None
  | op :: ops =>
    match last_op u ops with
    | Some r => Some r
    | None => if lex_eqb (op_key op) u then Some (op_record op) else None
    end
  end.

Abbreviation history := (list (Z * WriteBatch)).

(** The record of [u] that a reader at [q] must see after the batches of [h], in
    commit order, were applied. *)
Definition hist_get (h : history) (u : bytes) (q : Z) : option ValueRecord :=
  fold_left (λ acc '(s, b),
    if s <=? q then
      match last_op u (operations b) with Some r => Some r | None => acc end
    else acc) h None.

(** Commit order: sequences are usable and strictly increase. *)
Definition hist_sorted (h : history) : Prop := StronglySorted (λ x y, x.1 < y.1) h.
Definition hist_wf (h : history) : Prop :=
  hist_sorted h ∧ Forall (λ x, seq_ok x.1 ∧ Forall op_wf (operations x.2)) h.

(** [es] holds exactly the versions that [h] committed. *)
Definition represents (h : history) (es : list entry) : Prop :=
  ∀ e, e ∈ es ↔ ∃ u s b r, (s, b) ∈ h ∧ last_op u (operations b) = Some r ∧ e = mk_entry u s r.

Lemma last_op_app u a b :
  last_op u (a ++ b) = match last_op u b with Some r => Some r | None => last_op u a end.
Proof. induction a as [|x a IH]; cbn; [by destruct (last_op u b)|]. rewrite IH. by destruct (last_op u b). Qed.

Lemma last_op_wf u ops r :
  Forall op_wf ops → last_op u ops = Some r → bytes_ok u ∧ record_wf r.
Proof.
  induction 1 as [|op ops Hop Hops IH]; cbn; [done|].
  destruct (last_op u ops); [auto|]. destruct (lex_eqb _ u) eqn:E; [|done].
  apply lex_eqb_eq in E. intros [= <-]. subst u. destruct op as [k v t|k]; cbn in *; tauto.
Qed.

Lemma hist_get_snoc h s b u q :
  hist_get (h ++ [(s, b)]) u q =
    if s <=? q then
      match last_op u (operations b) with Some r => Some r | None => hist_get h u q end
    else hist_get h u q.
Proof. unfold hist_get. by rewrite fold_left_app. Qed.

(** [hist_get] returns the record of the newest visible batch that mentions [u]. *)
Lemma hist_get_spec h u q :
  hist_sorted h →
  match hist_get h u q with
  | Some r => ∃ s b, (s, b) ∈ h ∧ s ≤ q ∧ last_op u (operations b) = Some r ∧
      ∀ s' b', (s', b') ∈ h → s' ≤ q → is_Some (last_op u (operations b')) → s' ≤ s
  | None => ∀ s b, (s, b) ∈ h → s ≤ q → last_op u (operations b) = None
  end.
Proof.
  induction h as [|[s b] h IH] using rev_ind; intros Hs.
  { cbn. intros s b H. by apply elem_of_nil in H. }
  assert (hist_sorted h ∧ ∀ s' b', (s', b') ∈ h → s' < s) as [Hh Hlt].
  { clear IH. induction h as [|[s1 b1] h IH]; cbn in *.
    - split; [constructor|]. intros s' b' H. by apply elem_of_nil in H.
    - apply StronglySorted_inv in Hs as [Hs Hall]. destruct (IH Hs) as [H1 H2].
      rewrite Forall_app in Hall. destruct Hall as [Hall Hlast].
      apply Forall_cons in Hlast as [Hlast _]. cbn in Hlast. split; [by constructor|].
      intros s' b' [[= -> ->]|H']%elem_of_cons; eauto. }
  specialize (IH Hh). rewrite hist_get_snoc.
  destruct (s <=? q) eqn:Eq; to_prop.
  - destruct (last_op u (operations b)) as [r|] eqn:El.
    + exists s, b. split; [apply elem_of_app; right; by left|]. split; [done|]. split; [done|].
      intros s' b' [H'|H']%elem_of_app Hq _.
      * specialize (Hlt _ _ H'). lia.
      * apply list_elem_of_singleton in H' as [= -> ->]. lia.
    + destruct (hist_get h u q) as [r|].
      * destruct IH as (s1 & b1 & Hin & Hle & Hl & Hmax). exists s1, b1.
        split; [by apply elem_of_app; left|]. split; [done|]. split; [done|].
        intros s' b' [H'|H']%elem_of_app Hq Hsome; [eauto|].
        apply list_elem_of_singleton in H' as [= -> ->]. rewrite El in Hsome. by destruct Hsome.
      * intros s' b' [H'|H']%elem_of_app Hq; [eauto|].
        apply list_elem_of_singleton in H' as [= -> ->]. done.
  - destruct (hist_get h u q) as [r|].
    + destruct IH as (s1 & b1 & Hin & Hle & Hl & Hmax). exists s1, b1.
      split; [by apply elem_of_app; left|]. split; [done|]. split; [done|].
      intros s' b' [H'|H']%elem_of_app Hq Hsome; [eauto|].
      apply list_elem_of_singleton in H' as [= -> ->]. lia.
    + intros s' b' [H'|H']%elem_of_app Hq; [eauto|].
      apply list_elem_of_singleton in H' as [= -> ->]. lia.
Qed.

Lemma elem_of_Forall {A} (P : A → Prop) l x : Forall P l → x ∈ l → P x.
Proof. rewrite Forall_forall. auto. Qed.

(** Reading the newest visible entry of a representation is reading the history. *)
Lemma represents_newest h es u q o :
  hist_wf h → represents h es → is_newest u q es o → snd <$> o = hist_get h u q.
Proof.
  intros [Hs Hwf] Hrep Ho. pose proof (hist_get_spec h u q Hs) as Hg.
  assert (∀ s b r, (s, b) ∈ h → last_op u (operations b) = Some r →
    mk_entry u s r ∈ es ∧ e_seq (mk_entry u s r) = s) as Hmk.
  { intros s b r Hin Hl. split; [apply Hrep; by exists u, s, b, r|].
    apply e_seq_mk. by apply (elem_of_Forall _ _ _ Hwf Hin). }
  destruct o as [e|]; cbn [is_newest] in Ho.
  - destruct Ho as (He & Hu & Hq & Hmax).
    apply Hrep in He as (u' & s & b & r & Hin & Hl & ->).
    rewrite e_user_mk in Hu. subst u'. destruct (Hmk _ _ _ Hin Hl) as [He Hse]. rewrite Hse in *.
    destruct (hist_get h u q) as [r'|].
    + destruct Hg as (s1 & b1 & Hin1 & Hq1 & Hl1 & Hmax1).
      destruct (Hmk _ _ _ Hin1 Hl1) as [He1 Hse1].
      specialize (Hmax _ He1 eq_refl ltac:(lia)). rewrite Hse1 in Hmax.
      specialize (Hmax1 _ _ Hin Hq ltac:(eauto)).
      assert (s1 = s) as -> by lia.
      assert (b1 = b) as ->; [|cbn; congruence].
      clear -Hs Hin Hin1. induction Hs as [|[s2 b2] h Hs IH Hall]; [by apply elem_of_nil in Hin|].
      rewrite Forall_forall in Hall.
      apply elem_of_cons in Hin as [Hin|Hin], Hin1 as [Hin1|Hin1]; [congruence| | |auto].
      * apply Hall in Hin1. injection Hin as -> ->. cbn in Hin1. lia.
      * apply Hall in Hin. injection Hin1 as -> ->. cbn in Hin. lia.
    + specialize (Hg _ _ Hin Hq). congruence.
  - destruct (hist_get h u q) as [r'|]; [|done].
    destruct Hg as (s1 & b1 & Hin1 & Hq1 & Hl1 & _).
    destruct (Hmk _ _ _ Hin1 Hl1) as [He1 Hse1].
    specialize (Ho _ He1 eq_refl). lia.
Qed.
