(* ===== verification/MemTable.v ===== *)
(** * The memtable (src/crates/meteordb/src/memtable.rs)

    The ordered in-memory table of MVCC versions.  A [BTreeMap] is the sorted
    association list of the prelude.  The memtable is specified by the history
    of batches applied to it ([Mvcc.hist_get]): a lookup returns the last
    operation on the key in the newest batch that is visible at the requested
    sequence. *)

From Stdlib Require Import ZArith Lia Sorting.Sorted.
From stdpp Require Import base list gmap strings.
From S2P Require Import Prelude InternalKey Batch ValueRecord Mvcc.

Local Open Scope Z_scope.

(** ** The memtable *)

Record MemTable : Type := MkMemTable {
  mt_entries : list (InternalKey * ValueRecord);
  mt_approximate_bytes : Z
}.

Definition MemTable_default : MemTable := {| mt_entries := []; mt_approximate_bytes := 0 |}.

(** The first loop of [apply]: the last operation of each key, in key order. *)
Definition final_operations (ops : list WriteOp) : list (bytes * ValueRecord) :=
  fold_left (λ m op, bt_insert lex_cmp (op_key op) (op_record op) m) ops [].

(** The second loop: every internal key is built before the table changes. *)
Definition prepare (sequence : Z) (final : list (bytes * ValueRecord))
    : result (list (InternalKey * ValueRecord)) :=
  try_map (λ '(user_key, record),
    let? k := InternalKey_try_new user_key sequence (record_kind record) in
    Ok (k, record)) final.

(** [size_of::<Option<u64>>()] *)
Definition OPTION_U64_BYTES : Z := 16.

Definition record_bytes (r : ValueRecord) : Z :=
  match r with VValue value _ => zlen value + OPTION_U64_BYTES | VTombstone => 0 end.

Definition insert_prepared (t : MemTable) (kr : InternalKey * ValueRecord) : MemTable :=
  {| mt_approximate_bytes :=
       saturating_add (saturating_add (mt_approximate_bytes t) (zlen (ik_encoded kr.1)))
         (record_bytes kr.2);
     mt_entries := bt_insert InternalKey_cmp kr.1 kr.2 (mt_entries t) |}.

Definition MemTable_apply (t : MemTable) (sequence : Z) (batch : WriteBatch)
    : result MemTable :=
  let? prepared := prepare sequence (final_operations (operations batch)) in
  Ok (fold_left insert_prepared prepared t).

Definition get_entry (t : MemTable) (user_key : bytes) (sequence : Z)
    : result (option (InternalKey * ValueRecord)) :=
  let? seek := InternalKey_try_new user_key sequence Deletion in
  Ok match bt_range_from InternalKey_cmp seek (mt_entries t) with
     | (key, record) :: _ =>
       if lex_eqb (ik_user_key key) user_key then Some (key, record) else None
     | [] => None
     end.

Definition MemTable_get (t : MemTable) (user_key : bytes) (sequence : Z)
    : result (option ValueRecord) :=
  let? e := get_entry t user_key sequence in
  Ok (snd <$> e).

Definition MemTable_is_empty (t : MemTable) : bool :=
  match mt_entries t with [] => true | _ => false end.

Definition owned_entries_matching (t : MemTable) (include : InternalKey → bool)
    : list (InternalKey * ValueRecord) :=
  List.filter (λ e, include e.1) (mt_entries t).

(** ** Representation invariant *)

(** The entries are sorted, well formed, and exactly the versions of [h]. *)
Definition mt_rep (h : history) (t : MemTable) : Prop :=
  entries_sorted (mt_entries t) ∧ Forall entry_wf (mt_entries t) ∧
  represents h (mt_entries t).

Lemma final_operations_fold ops m u :
  bt_sorted lex_cmp m →
  let m' := fold_left (λ m op, bt_insert lex_cmp (op_key op) (op_record op) m) ops m in
  bt_sorted lex_cmp m' ∧
  bt_get lex_cmp u m' =
    match last_op u ops with Some r => Some r | None => bt_get lex_cmp u m end.
Proof.
  revert m. induction ops as [|op ops IH]; intros m Hm; cbn; [done|].
  destruct (IH _ (bt_insert_sorted (op_key op) (op_record op) m Hm)) as [H1 H2].
  split; [done|]. rewrite H2. destruct (last_op u ops); [done|].
  rewrite bt_get_insert by done. unfold lex_eqb. rewrite cmp_antisym.
  by destruct (lex_cmp (op_key op) u).
Qed.

Lemma bt_get_elem {V} (m : list (bytes * V)) u r :
  bt_sorted lex_cmp m → (u, r) ∈ m ↔ bt_get lex_cmp u m = Some r.
Proof.
  induction 1 as [|[k v] m Hm IH Hall]; cbn.
  { rewrite elem_of_nil. done. }
  rewrite elem_of_cons, IH. destruct (lex_cmp u k) eqn:E.
  - apply lex_cmp_eq in E. subst k. split; [intros [[= ->]|H]; [done|]|intros [= ->]; by left].
    exfalso. apply IH in H. apply (elem_of_Forall _ _ _ Hall) in H. unfold bt_lt in H. cbn in H.
    by rewrite lex_cmp_refl in H.
  - split; [intros [[= -> ->]|?]; [by rewrite lex_cmp_refl in E|done]|auto].
  - split; [intros [[= -> ->]|?]; [by rewrite lex_cmp_refl in E|done]|auto].
Qed.

(** [final_operations] is the table of last operations, sorted by key. *)
Lemma final_operations_spec ops :
  bt_sorted lex_cmp (final_operations ops) ∧
  ∀ u r, (u, r) ∈ final_operations ops ↔ last_op u ops = Some r.
Proof.
  assert (bt_sorted lex_cmp (final_operations ops)) as Hs.
  { apply (final_operations_fold ops [] [] ltac:(constructor)). }
  split; [done|]. intros u r. rewrite bt_get_elem by done.
  destruct (final_operations_fold ops [] u ltac:(constructor)) as [_ Hg].
  unfold final_operations. rewrite Hg. cbn. by destruct (last_op u ops).
Qed.

Lemma prepare_spec s final :
  seq_ok s → prepare s final = Ok (map (λ x, mk_entry x.1 s x.2) final).
Proof.
  intros Hs. induction final as [|[u r] final IH]; [done|].
  unfold prepare in *. cbn [try_map map]. rewrite try_new_mk_key by done.
  by rewrite IH.
Qed.

Lemma insert_prepared_entries es t :
  mt_entries (fold_left insert_prepared es t) =
    fold_left (λ m e, bt_insert InternalKey_cmp e.1 e.2 m) es (mt_entries t).
Proof. revert t. induction es as [|e es IH]; intros t; cbn; [done|]. by rewrite IH. Qed.

Lemma bt_insert_perm {K V} {cmp : K → K → comparison} `{!TotalCmp cmp} k (v : V) m :
  Forall (λ e', cmp k e'.1 ≠ Eq) m → bt_insert cmp k v m ≡ₚ (k, v) :: m.
Proof.
  induction 1 as [|[k' v'] m Hk Hm IH]; cbn; [done|]. cbn in Hk. destruct (cmp k k'); [done|done|].
  rewrite IH. apply Permutation_swap.
Qed.

(** Inserting entries whose keys are new and pairwise distinct adds exactly them. *)
Lemma insert_all_fresh es m :
  Forall entry_wf es → Forall entry_wf m → entries_sorted m →
  NoDup (map fst es) → (∀ e e', e ∈ es → e' ∈ m → e.1 ≠ e'.1) →
  let m' := fold_left (λ m e, bt_insert InternalKey_cmp e.1 e.2 m) es m in
  entries_sorted m' ∧ m' ≡ₚ es ++ m.
Proof.
  intros Hes. revert m. induction Hes as [|e es He Hes IH]; intros m Hm Hs Hnd Hdis; cbn; [done|].
  cbn in Hnd. apply NoDup_cons in Hnd as [Hni Hnd].
  assert (Forall (λ e', InternalKey_cmp e.1 e'.1 ≠ Eq) m) as Hfresh.
  { apply Forall_forall. intros e' He' Heq. apply (Hdis e e'); [by left|done|].
    apply key_wf_cmp_eq; [by apply entry_wf_key|apply entry_wf_key, (elem_of_Forall _ _ _ Hm He')|done]. }
  assert (bt_insert InternalKey_cmp e.1 e.2 m ≡ₚ e :: m) as Hins.
  { rewrite bt_insert_perm by done. by destruct e. }
  edestruct (IH (bt_insert InternalKey_cmp e.1 e.2 m)) as (H1 & H2).
  - rewrite Hins. by constructor.
  - by apply bt_insert_sorted.
  - done.
  - intros x y Hx. rewrite Hins. intros [->|Hy]%elem_of_cons; [|apply Hdis; [by right|done]].
    intros Heq. apply Hni. rewrite <- Heq. apply list_elem_of_In, in_map, list_elem_of_In. done.
  - split; [done|]. rewrite H2, Hins. by rewrite Permutation_middle.
Qed.

Lemma final_operations_NoDup s ops :
  seq_ok s → Forall op_wf ops →
  NoDup (map fst (map (λ x, mk_entry x.1 s x.2) (final_operations ops))).
Proof.
  intros Hs Hwf. destruct (final_operations_spec ops) as [Hsort _].
  induction Hsort as [|[u r] m Hm IH Hall]; cbn; [constructor|].
  apply NoDup_cons. split; [|done]. rewrite map_map.
  intros Hin. apply list_elem_of_In, in_map_iff in Hin as ([u' r'] & Heq & Hin).
  cbn in Heq. injection Heq as Heq Hu. subst u'.
  apply list_elem_of_In in Hin. apply (elem_of_Forall _ _ _ Hall) in Hin.
  unfold bt_lt in Hin. cbn in Hin. by rewrite lex_cmp_refl in Hin.
Qed.

Lemma hist_sorted_snoc h s b s' b' :
  hist_sorted (h ++ [(s, b)]) → (s', b') ∈ h → s' < s.
Proof.
  induction h as [|[s1 b1] h IH]; cbn; intros Hs Hin; [by apply elem_of_nil in Hin|].
  apply StronglySorted_inv in Hs as [Hs Hall].
  apply elem_of_cons in Hin as [[= -> ->]|Hin]; [|auto].
  apply Forall_app in Hall as [_ Hall]. apply Forall_cons in Hall as [Hall _]. done.
Qed.

(** The entries of a batch at its sequence. *)
Definition batch_entries (s : Z) (b : WriteBatch) : list entry :=
  map (λ x, mk_entry x.1 s x.2) (final_operations (operations b)).

Lemma elem_of_batch_entries s b e :
  e ∈ batch_entries s b ↔ ∃ u r, last_op u (operations b) = Some r ∧ e = mk_entry u s r.
Proof.
  destruct (final_operations_spec (operations b)) as [_ Hfin].
  unfold batch_entries. rewrite list_elem_of_In, in_map_iff. split.
  - intros ([u r] & <- & Hin). apply list_elem_of_In, Hfin in Hin. by exists u, r.
  - intros (u & r & Hl & ->). exists (u, r). split; [done|]. by apply list_elem_of_In, Hfin.
Qed.

Lemma batch_entries_wf s b : seq_ok s → Forall op_wf (operations b) → Forall entry_wf (batch_entries s b).
Proof.
  intros Hs Hops. apply Forall_forall. intros e (u & r & Hl & ->)%elem_of_batch_entries.
  destruct (last_op_wf _ _ _ Hops Hl). by apply entry_wf_mk.
Qed.

(** A batch with a new sequence adds its entries, and never fails for a usable one. *)
Lemma apply_entries t s b :
  entries_sorted (mt_entries t) → Forall entry_wf (mt_entries t) → Forall (λ e, e_seq e < s) (mt_entries t) →
  seq_ok s → Forall op_wf (operations b) →
  ∃ t', MemTable_apply t s b = Ok t' ∧ entries_sorted (mt_entries t') ∧ Forall entry_wf (mt_entries t') ∧
    mt_entries t' ≡ₚ batch_entries s b ++ mt_entries t.
Proof.
  intros Hsort Hwf Hold Hs Hops. pose proof (batch_entries_wf s b Hs Hops) as Hes.
  unfold MemTable_apply. rewrite prepare_spec by done. eexists. split; [done|]. fold (batch_entries s b).
  edestruct (insert_all_fresh (batch_entries s b) (mt_entries t)) as (H1 & H2); try done.
  - by apply final_operations_NoDup.
  - intros e e' (u & r & Hl & ->)%elem_of_batch_entries He' Heq. pose proof (elem_of_Forall _ _ _ Hold He') as Hlt.
    cbn in Hlt. unfold e_seq in Hlt. rewrite <- Heq in Hlt. cbn in Hlt. rewrite sequence_mk_key in Hlt by done. lia.
  - rewrite insert_prepared_entries. split; [done|]. split; [|done]. rewrite H2. by apply Forall_app.
Qed.

(** Applying the next batch of a history extends the representation. *)
Lemma apply_rep h t s b :
  mt_rep h t → hist_wf (h ++ [(s, b)]) →
  ∃ t', MemTable_apply t s b = Ok t' ∧ mt_rep (h ++ [(s, b)]) t'.
Proof.
  intros (Hsort & Hwf & Hrep) [Hhs Hhwf].
  apply Forall_app in Hhwf as [Hh Hb]. apply Forall_cons in Hb as [[Hs Hops] _]. cbn in Hs, Hops.
  destruct (apply_entries t s b Hsort Hwf) as (t' & Ha & Hs' & Hw' & Hp); [|done|done|].
  { apply Forall_forall. intros e (u' & s' & b' & r' & Hin & _ & ->)%Hrep.
    pose proof (hist_sorted_snoc _ _ _ _ _ Hhs Hin).
    destruct (elem_of_Forall _ _ _ Hh Hin) as [Hs' _]. cbn in Hs'. by rewrite e_seq_mk. }
  exists t'. split; [done|]. do 2 (split; [done|]).
  intros e. rewrite Hp, elem_of_app, elem_of_batch_entries, (Hrep e). split.
  - intros [(u & r & Hl & ->)|(u & s' & b' & r & Hin & Hl & ->)].
    + exists u, s, b, r. split; [apply elem_of_app; right; by left|done].
    + exists u, s', b', r. split; [by apply elem_of_app; left|done].
  - intros (u & s' & b' & r & [Hin|Hin]%elem_of_app & Hl & ->).
    + right. by exists u, s', b', r.
    + apply list_elem_of_singleton in Hin as [= -> ->]. left. by exists u, r.
Qed.

Lemma mt_rep_default : mt_rep [] MemTable_default.
Proof.
  split; [constructor|]. split; [constructor|]. intros e. cbn. rewrite elem_of_nil.
  split; [done|]. intros (u & s & b & r & Hin & _). by apply elem_of_nil in Hin.
Qed.

Lemma get_entry_newest t u q :
  entries_sorted (mt_entries t) → Forall entry_wf (mt_entries t) → bytes_ok u → seq_ok q →
  ∃ o, get_entry t u q = Ok o ∧ is_newest u q (mt_entries t) o.
Proof.
  intros Hs Hwf Hu Hq. unfold get_entry. rewrite try_new_mk_key by done. eexists. split; [done|].
  pose proof (seek_head_newest u q (mt_entries t) Hu Hq Hwf Hs) as H.
  by destruct (bt_range_from _ _ _) as [|[k r] m].
Qed.

Lemma MemTable_get_history h t u q :
  mt_rep h t → hist_wf h → bytes_ok u → seq_ok q → MemTable_get t u q = Ok (hist_get h u q).
Proof.
  intros (Hs & Hwf & Hrep) Hh Hu Hq. unfold MemTable_get.
  destruct (get_entry_newest t u q Hs Hwf Hu Hq) as (o & -> & Ho).
  by rewrite (represents_newest h _ u q o Hh Hrep Ho).
Qed.

Lemma hist_wf_app_l h h' : hist_wf (h ++ h') → hist_wf h.
Proof.
  intros [Hs Hwf]. apply Forall_app in Hwf as [Hwf _]. split; [|done]. clear Hwf.
  induction h as [|x h IH]; [constructor|]. apply StronglySorted_inv in Hs as [Hs Hall].
  constructor; [by apply IH|]. by apply Forall_app in Hall as [? _].
Qed.

(** The table built from a whole history. *)
Definition apply_history (h : history) : result MemTable :=
  try_fold (λ t '(s, b), MemTable_apply t s b) MemTable_default h.

Lemma apply_history_rep h : hist_wf h → ∃ t, apply_history h = Ok t ∧ mt_rep h t.
Proof.
  unfold apply_history. induction h as [|[s b] h IH] using rev_ind; intros Hwf.
  { exists MemTable_default. split; [done|]. apply mt_rep_default. }
  destruct (IH (hist_wf_app_l _ _ Hwf)) as (t & Ht & Hrep).
  destruct (apply_rep h t s b Hrep Hwf) as (t' & Ht' & Hrep').
  exists t'. split; [|done]. rewrite try_fold_app, Ht. cbn. by rewrite Ht'.
Qed.

(** ** Properties *)


(** An overwrite inside one batch, a delete and a later put. *)
Definition sample_history : history :=
  [(3, {| operations := [Put [1] [10] None; Put [1] [11] None; Put [2] [20] None];
          approximate_bytes := 6 |});
   (7, {| operations := [Delete [1]]; approximate_bytes := 1 |});
   (9, {| operations := [Put [1] [12] (Some 77)]; approximate_bytes := 2 |})].


(** A failed [apply] is possible only for the reserved sequence number and
    is decided before the table changes: with a usable sequence every batch
    applies, and with [u64::MAX] every batch that has an operation is rejected. *)
Theorem memtable_apply_total (t : MemTable) (s : Z) (b : WriteBatch) :
  0 ≤ s ≤ U64_MAX →
  (s ≤ MAX_SEQUENCE_NUMBER ∧ ∃ t', MemTable_apply t s b = Ok t') ∨
  (s = U64_MAX ∧
   (operations b = [] ∧ MemTable_apply t s b = Ok t ∨
    operations b ≠ [] ∧
    MemTable_apply t s b =
      Err (InvalidArgument "sequence number must be less than u64::MAX"))).
Proof.
  intros Hs. destruct (Z.le_gt_cases s MAX_SEQUENCE_NUMBER) as [Hle|Hgt].
  - left. split; [done|]. unfold MemTable_apply. rewrite prepare_spec by (unfold seq_ok; lia). eauto.
  - right. assert (s = U64_MAX) as -> by (unfold MAX_SEQUENCE_NUMBER in *; lia).
    split; [done|]. unfold MemTable_apply. destruct (operations b) as [|op ops] eqn:E.
    + left. done.
    + right. split; [done|].
      destruct (final_operations_spec (op :: ops)) as [_ Hfin].
      assert (∃ r, last_op (op_key op) (op :: ops) = Some r) as [r Hr].
      { cbn. destruct (last_op _ ops); [eauto|]. rewrite lex_eqb_refl. eauto. }
      apply Hfin in Hr. destruct (final_operations (op :: ops)) as [|[u x] m];
        [by apply elem_of_nil in Hr|]. done.
Qed.

(** An instance at the reserved sequence. *)
Lemma memtable_apply_total_witness :
  MemTable_apply MemTable_default U64_MAX sample_batch =
    Err (InvalidArgument "sequence number must be less than u64::MAX").
Proof.
  destruct (memtable_apply_total MemTable_default U64_MAX sample_batch) as [[H _]|[_ [[H _]|[_ H]]]].
  - eval_done.
  - exfalso. revert H. eval_done.
  - discriminate H.
  - exact H.
Defined.
