(* ===== verification/Iter.v ===== *)
(** * Scans (src/crates/meteordb/src/iter.rs)

    Scan bounds, the merging iterator over memtables and SSTables, and the
    iterator of visible pairs.  A child iterator is the list of the items its
    [next] returns. *)

From Stdlib Require Import ZArith Lia Sorting.Sorted.
From stdpp Require Import base list gmap strings.
From S2P Require Import Prelude InternalKey Batch ValueRecord Mvcc.

Local Open Scope Z_scope.

(** ** Bounds *)

Inductive Bound : Type :=
| Included (key : bytes)
| Excluded (key : bytes)
| Unbounded.

Record ScanBounds : Type := {
  sb_start : Bound;
  sb_end : Bound
}.

Definition ScanBounds_all : ScanBounds := {| sb_start := Unbounded; sb_end := Unbounded |}.

Definition lower_allows (bounds : ScanBounds) (key : bytes) : bool :=
  match sb_start bounds with
  | Included start => lex_leb start key
  | Excluded start => lex_ltb start key
  | Unbounded => true
  end.

Definition upper_allows (bounds : ScanBounds) (key : bytes) : bool :=
  match sb_end bounds with
  | Included end_ => lex_leb key end_
  | Excluded end_ => lex_ltb key end_
  | Unbounded => true
  end.

Definition user_key_in_bounds (bounds : ScanBounds) (key : bytes) : bool :=
  lower_allows bounds key && upper_allows bounds key.

Definition overlaps_bounds (smallest largest : bytes) (bounds : ScanBounds) : bool :=
  let starts_before_file_ends :=
    match sb_start bounds with
    | Included start => lex_leb start largest
    | Excluded start => lex_ltb start largest
    | Unbounded => true
    end in
  let ends_after_file_starts :=
    match sb_end bounds with
    | Included end_ => lex_leb smallest end_
    | Excluded end_ => lex_ltb smallest end_
    | Unbounded => true
    end in
  starts_before_file_ends && ends_after_file_starts.

(** [rposition(|byte| byte != 0xff)], the increment of that byte and [truncate]. *)
Fixpoint prefix_successor (prefix : bytes) : option bytes :=
  match prefix with
  | [] => None
  | byte :: rest =>
    match prefix_successor rest with
    | Some successor => Some (byte :: successor)
    | None => if byte =? 255 then None else Some [byte + 1]
    end
  end.

Definition prefix_bounds (prefix : bytes) : ScanBounds :=
  {| sb_start := Included prefix;
     sb_end := match prefix_successor prefix with
               | Some successor => Excluded successor
               | None => Unbounded
               end |}.

(** ** The merging iterator *)

Abbreviation ChildIterator := (list (result entry)).

Record HeapEntry : Type := {
  he_entry : entry;
  he_child : Z
}.

(** [Ord for HeapEntry]: reversed, because [BinaryHeap] pops the greatest. *)
Definition HeapEntry_cmp (self other : HeapEntry) : comparison :=
  match InternalKey_cmp (he_entry other).1 (he_entry self).1 with
  | Eq => Z.compare (he_child other) (he_child self)
  | c => c
  end.

(** [BinaryHeap]: the greatest first. *)
Definition heap_push (x : HeapEntry) (heap : list HeapEntry) : list HeapEntry :=
  insert_by (λ a b, HeapEntry_cmp b a) x heap.

Record InternalMergingIterator : Type := {
  im_children : list ChildIterator;
  im_heap : list HeapEntry;
  im_failed : bool;
  im_pending_error : option error
}.

Definition with_child (it : InternalMergingIterator) (child : Z) (rest : ChildIterator)
    : list ChildIterator := <[Z.to_nat child := rest]> (im_children it).

(** [advance_child]: [self.children[child]] panics out of range. *)
Definition advance_child (it : InternalMergingIterator) (child : Z)
    : result (bool * InternalMergingIterator) :=
  let? items := index_or_panic child (im_children it) in
  match items with
  | Ok entry :: rest =>
    Ok (true, {| im_children := with_child it child rest;
                 im_heap := heap_push {| he_entry := entry; he_child := child |} (im_heap it);
                 im_failed := im_failed it;
                 im_pending_error := im_pending_error it |})
  | Err error :: rest =>
    Ok (false, {| im_children := with_child it child rest;
                  im_heap := im_heap it;
                  im_failed := im_failed it;
                  im_pending_error := Some error |})
  | [] => Ok (true, it)
  end.

(** [for child in 0..len { if !advance_child(child) { break } }] *)
Fixpoint advance_all (todo : list Z) (it : InternalMergingIterator) : result InternalMergingIterator :=
  match todo with
  | [] => Ok it
  | child :: todo =>
    let? (advanced, it) := advance_child it child in
    if advanced : bool then advance_all todo it else Ok it
  end.

Definition InternalMergingIterator_new (children : list ChildIterator)
    : result InternalMergingIterator :=
  advance_all (map Z.of_nat (seq 0 (length children)))
    {| im_children := children; im_heap := []; im_failed := false; im_pending_error := None |}.

(** The item of [next] and the iterator behind it. *)
Definition merging_next (it : InternalMergingIterator)
    : result (option (result entry) * InternalMergingIterator) :=
  if im_failed it then Ok (None, it)
  else
    match im_pending_error it with
    | Some error =>
      Ok (Some (Err error),
          {| im_children := im_children it; im_heap := []; im_failed := true;
             im_pending_error := None |})
    | None =>
      match im_heap it with
      | [] => Ok (None, it)
      | next :: heap =>
        let? (_, it) := advance_child
          {| im_children := im_children it; im_heap := heap; im_failed := im_failed it;
             im_pending_error := im_pending_error it |} (he_child next) in
        Ok (Some (Ok (he_entry next)), it)
      end
    end.

(** ** The iterator of visible pairs *)

Record KvIterator : Type := {
  kv_merged : InternalMergingIterator;
  kv_bounds : ScanBounds;
  kv_sequence : Z;
  kv_read_time_unix_ms : Z;
  kv_remaining : Z;
  kv_failed : bool;
  kv_pending : option entry
}.

Definition KvIterator_new (children : list ChildIterator) (bounds : ScanBounds)
    (sequence read_time_unix_ms limit : Z) : result KvIterator :=
  let? merged := InternalMergingIterator_new children in
  Ok {| kv_merged := merged; kv_bounds := bounds; kv_sequence := sequence;
        kv_read_time_unix_ms := read_time_unix_ms; kv_remaining := limit;
        kv_failed := false; kv_pending := None |}.

Definition KvIterator_empty (bounds : ScanBounds) (sequence read_time_unix_ms : Z)
    : result KvIterator :=
  KvIterator_new [] bounds sequence read_time_unix_ms 0.

Definition with_merged (it : KvIterator) (merged : InternalMergingIterator) (pending : option entry)
    : KvIterator :=
  {| kv_merged := merged; kv_bounds := kv_bounds it; kv_sequence := kv_sequence it;
     kv_read_time_unix_ms := kv_read_time_unix_ms it; kv_remaining := kv_remaining it;
     kv_failed := kv_failed it; kv_pending := pending |}.

Definition kv_fail (it : KvIterator) : KvIterator :=
  {| kv_merged := kv_merged it; kv_bounds := kv_bounds it; kv_sequence := kv_sequence it;
     kv_read_time_unix_ms := kv_read_time_unix_ms it; kv_remaining := kv_remaining it;
     kv_failed := true; kv_pending := kv_pending it |}.

Definition kv_emit (it : KvIterator) : KvIterator :=
  {| kv_merged := kv_merged it; kv_bounds := kv_bounds it; kv_sequence := kv_sequence it;
     kv_read_time_unix_ms := kv_read_time_unix_ms it; kv_remaining := kv_remaining it - 1;
     kv_failed := kv_failed it; kv_pending := kv_pending it |}.

Definition consider_visible (newest : option (Z * ValueRecord)) (e : entry) (sequence : Z)
    : option (Z * ValueRecord) :=
  let entry_sequence := e_seq e in
  if (entry_sequence <=? sequence) &&
     match newest with
     | Some (newest_sequence, _) => newest_sequence <? entry_sequence
     | None => true
     end
  then Some (entry_sequence, e.2) else newest.

Definition disk_entry (key : InternalKey) (value : bytes) (engine_encoded : bool) : result entry :=
  let? kind := InternalKey_kind key in
  let? record := decode_sstable kind value engine_encoded in
  Ok (key, record).

(** The inner loop of [next]: the versions of one user key. *)
Inductive group_outcome : Type :=
| GroupEnd (newest : option (Z * ValueRecord)) (it : KvIterator)
| GroupFail (e : error) (it : KvIterator).

Fixpoint kv_group (fuel : nat) (user_key : bytes) (newest : option (Z * ValueRecord)) (it : KvIterator)
    : result group_outcome :=
  match fuel with
  | O => Err (Panicked "loop bound")
  | S fuel =>
    let? (item, merged) := merging_next (kv_merged it) in
    match item with
    | Some (Ok e) =>
      if lex_eqb (e_user e) user_key
      then kv_group fuel user_key (consider_visible newest e (kv_sequence it)) (with_merged it merged None)
      else Ok (GroupEnd newest (with_merged it merged (Some e)))
    | Some (Err error) => Ok (GroupFail error (with_merged it merged None))
    | None => Ok (GroupEnd newest (with_merged it merged None))
    end
  end.

(** The outer loop of [next]. *)
Fixpoint kv_loop (fuel : nat) (it : KvIterator)
    : result (option (result (bytes * bytes)) * KvIterator) :=
  match fuel with
  | O => Err (Panicked "loop bound")
  | S fuel =>
    let? (first, it) :=
      match kv_pending it with
      | Some e => Ok (Some (Ok e), with_merged it (kv_merged it) None)
      | None =>
        let? (item, merged) := merging_next (kv_merged it) in
        Ok (item, with_merged it merged None)
      end in
    match first with
    | None => Ok (None, it)
    | Some (Err error) => Ok (Some (Err error), kv_fail it)
    | Some (Ok first) =>
      let user_key := e_user first in
      let? outcome := kv_group (S fuel) user_key (consider_visible None first (kv_sequence it)) it in
      match outcome with
      | GroupFail error it => Ok (Some (Err error), kv_fail it)
      | GroupEnd newest it =>
        if negb (lower_allows (kv_bounds it) user_key) then kv_loop fuel it
        else if negb (upper_allows (kv_bounds it) user_key) then Ok (None, it)
        else
          match newest with
          | None => kv_loop fuel it
          | Some (_, record) =>
            match record_into_value record (kv_read_time_unix_ms it) with
            | Some value => Ok (Some (Ok (user_key, value)), kv_emit it)
            | None => kv_loop fuel it
            end
          end
      end
    end
  end.

(** The items that are left, which bounds both loops. *)
Definition merging_size (it : InternalMergingIterator) : nat :=
  (sum_list_with length (im_children it) + length (im_heap it) +
   match im_pending_error it with Some _ => 1 | None => 0 end)%nat.

Definition kv_size (it : KvIterator) : nat :=
  (merging_size (kv_merged it) + match kv_pending it with Some _ => 1 | None => 0 end)%nat.

Definition KvIterator_next (it : KvIterator)
    : result (option (result (bytes * bytes)) * KvIterator) :=
  if kv_failed it || (kv_remaining it =? 0) then Ok (None, it)
  else kv_loop (S (kv_size it)) it.

(** [collect] on the iterator: the items up to the first [None]. *)
Fixpoint kv_collect (fuel : nat) (it : KvIterator) : result (list (result (bytes * bytes))) :=
  match fuel with
  | O => Err (Panicked "loop bound")
  | S fuel =>
    let? (item, it) := KvIterator_next it in
    match item with
    | None => Ok []
    | Some item => let? rest := kv_collect fuel it in Ok (item :: rest)
    end
  end.

(** ** Bounds *)

(** A file that holds a key of the bounds is opened by the scan. *)
Lemma overlaps_bounds_covers smallest largest bounds key :
  lex_cmp smallest key ≠ Gt → lex_cmp key largest ≠ Gt → user_key_in_bounds bounds key = true →
  overlaps_bounds smallest largest bounds = true.
Proof.
  intros Hs Hl. unfold user_key_in_bounds, overlaps_bounds, lower_allows, upper_allows.
  rewrite !andb_true_iff. intros [H1 H2]. split.
  - destruct (sb_start bounds); rewrite ?lex_leb_le, ?lex_ltb_lt in *; [| |done].
    + by eapply (cmp_le_trans (cmp := lex_cmp)).
    + by eapply (cmp_lt_le (cmp := lex_cmp)).
  - destruct (sb_end bounds); rewrite ?lex_leb_le, ?lex_ltb_lt in *; [| |done].
    + by eapply (cmp_le_trans (cmp := lex_cmp)).
    + by eapply (cmp_le_lt (cmp := lex_cmp)).
Qed.

Lemma prefix_bounds_spec p k :
  bytes_ok p → bytes_ok k →
  user_key_in_bounds (prefix_bounds p) k = true ↔ ∃ r, k = p ++ r.
Proof.
  intros Hp. revert k. unfold user_key_in_bounds, lower_allows, upper_allows, prefix_bounds. cbn [sb_start sb_end].
  induction Hp as [|b p Hb Hp IH]; intros k Hk.
  { cbn. split; [intros _; by exists k|]. intros _. by destruct k. }
  destruct Hk as [|c k Hc Hk].
  { split; [done|]. intros [r Hr]. done. }
  specialize (IH k Hk). unfold is_u8, U8_MAX in Hb, Hc.
  assert (∀ P : Prop, (∃ r, c :: k = (b :: p) ++ r) ↔ b = c ∧ ∃ r, k = p ++ r) as Hpre.
  { intros _. split.
    - intros [r [= -> ->]]. eauto.
    - intros [-> [r ->]]. by exists r. }
  rewrite (Hpre True), <- IH. clear IH Hpre. rewrite !andb_true_iff, !lex_leb_le.
  cbn [lex_cmp prefix_successor]. destruct (prefix_successor p) as [s|].
  - cbn [lex_cmp]. rewrite !lex_ltb_lt. cbn [lex_cmp].
    destruct (Z.compare_spec b c) as [->|?|?].
    + rewrite Z.compare_refl. intuition (try lia; try done).
    + rewrite (proj2 (Z.compare_gt_iff c b)) by lia. intuition (try lia; try done).
    + intuition (try lia; try done).
  - destruct (Z.eqb_spec b 255) as [->|Hne].
    + destruct (Z.compare_spec 255 c) as [->|?|?]; intuition (try lia; try done).
    + rewrite lex_ltb_lt. cbn [lex_cmp]. destruct (Z.compare_spec b c) as [->|?|?].
      * rewrite (proj2 (Z.compare_lt_iff c (c + 1))) by lia. intuition (try lia; try done).
      * destruct (Z.compare_spec c (b + 1)) as [->|?|?]; [|lia|intuition (try lia; try done)].
        destruct k; intuition (try lia; try done).
      * intuition (try lia; try done).
Qed.

(** ** The merging iterator never panics, and every item shortens it *)

Definition merging_wf (it : InternalMergingIterator) : Prop :=
  Forall (λ h, 0 ≤ he_child h < zlen (im_children it)) (im_heap it).

Lemma sum_list_insert (l : list ChildIterator) i x y :
  l !! i = Some x →
  (sum_list_with length (<[i := y]> l) + length x = sum_list_with length l + length y)%nat.
Proof.
  revert i. induction l as [|z l IH]; intros [|i] H; [done|done| |].
  - injection H as ->. cbn. lia.
  - specialize (IH i H). change (<[S i := y]> (z :: l)) with (z :: <[i := y]> l). cbn [sum_list_with]. lia.
Qed.

Lemma index_or_panic_ok {A} (l : list A) i :
  0 ≤ i < zlen l → ∃ x, index_or_panic i l = Ok x ∧ l !! Z.to_nat i = Some x.
Proof.
  intros Hi. unfold index_or_panic, get_at. rewrite (proj2 (Z.ltb_ge i 0)) by lia.
  destruct (lookup_lt_is_Some_2 l (Z.to_nat i)) as [x Hx]; [unfold zlen in Hi; lia|]. rewrite Hx. eauto.
Qed.

Lemma advance_child_ok it child :
  merging_wf it → 0 ≤ child < zlen (im_children it) →
  ∃ b it', advance_child it child = Ok (b, it') ∧ merging_wf it' ∧
    zlen (im_children it') = zlen (im_children it) ∧ im_failed it' = im_failed it ∧
    (im_pending_error it = None → merging_size it' = merging_size it).
Proof.
  intros Hwf Hc. unfold advance_child. destruct (index_or_panic_ok _ _ Hc) as (items & -> & Hi).
  assert (∀ rest, zlen (with_child it child rest) = zlen (im_children it)) as Hlen.
  { intros rest. unfold with_child, zlen. by rewrite length_insert. }
  destruct items as [|[e|e] rest].
  - exists true, it. done.
  - eexists _, _. split; [done|]. cbn [im_children im_heap im_failed]. unfold merging_wf. cbn [im_heap im_children].
    rewrite Hlen. split; [|split; [done|split; [done|]]].
    + unfold heap_push. rewrite insert_by_perm. constructor; [done|]. exact Hwf.
    + intros Hp. unfold merging_size, heap_push. cbn [im_children im_heap im_pending_error]. rewrite Hp.
      rewrite insert_by_perm. pose proof (sum_list_insert _ _ _ rest Hi) as Hs. unfold with_child. cbn in Hs |- *. lia.
  - eexists _, _. split; [done|]. cbn [im_children im_heap im_failed]. unfold merging_wf. cbn [im_heap im_children].
    rewrite Hlen. split; [done|split; [done|split; [done|]]].
    intros Hp. unfold merging_size. cbn [im_children im_heap im_pending_error]. rewrite Hp.
    pose proof (sum_list_insert _ _ _ rest Hi) as Hs. unfold with_child. cbn in Hs |- *. lia.
Qed.

Lemma advance_all_ok todo it :
  merging_wf it → Forall (λ c, 0 ≤ c < zlen (im_children it)) todo →
  ∃ it', advance_all todo it = Ok it' ∧ merging_wf it'.
Proof.
  intros Hwf Hall. revert it Hwf Hall. induction todo as [|c todo IH]; intros it Hwf Hall; cbn; [eauto|].
  apply Forall_cons in Hall as [Hc Hall].
  destruct (advance_child_ok it c Hwf Hc) as (b & it' & -> & Hwf' & Hlen & _).
  destruct b; [|eauto]. apply IH; [done|]. by rewrite Hlen.
Qed.

Lemma merging_new_ok children :
  ∃ it, InternalMergingIterator_new children = Ok it ∧ merging_wf it.
Proof.
  apply advance_all_ok; [constructor|]. cbn [im_children]. apply Forall_forall. intros c Hc.
  apply list_elem_of_fmap in Hc as (n & -> & Hn). apply elem_of_seq in Hn. unfold zlen. lia.
Qed.

Lemma merging_next_ok it :
  merging_wf it →
  ∃ o it', merging_next it = Ok (o, it') ∧ merging_wf it' ∧
    match o with Some _ => (merging_size it' < merging_size it)%nat | None => it' = it end.
Proof.
  intros Hwf. unfold merging_next. destruct (im_failed it) eqn:Ef; [by exists None, it|].
  destruct (im_pending_error it) as [e|] eqn:Ep.
  { eexists (Some (Err e)), _. split; [done|]. split; [constructor|]. unfold merging_size. cbn. rewrite Ep. lia. }
  unfold merging_wf in Hwf. destruct (im_heap it) as [|h heap] eqn:Eh.
  { exists None, it. split; [done|]. split; [|done]. unfold merging_wf. by rewrite Eh. }
  apply Forall_cons in Hwf as [Hh Hwf]. set (it1 := {| im_children := _; im_heap := heap |}).
  destruct (advance_child_ok it1 (he_child h) Hwf Hh) as (b & it' & -> & Hwf' & _ & _ & Hsize).
  eexists (Some (Ok _)), it'. split; [done|]. split; [done|]. rewrite Hsize by done.
  unfold merging_size. cbn [it1 im_children im_heap im_pending_error]. rewrite Eh. cbn. lia.
Qed.

(** ** The loops of [KvIterator] terminate *)

Lemma kv_group_ok fuel u newest it :
  merging_wf (kv_merged it) → (merging_size (kv_merged it) < fuel)%nat →
  ∃ out, kv_group fuel u newest it = Ok out ∧
    match out with
    | GroupEnd _ it' | GroupFail _ it' =>
      merging_wf (kv_merged it') ∧ (kv_size it' ≤ merging_size (kv_merged it))%nat ∧
      kv_remaining it' = kv_remaining it
    end.
Proof.
  revert u newest it. induction fuel as [|fuel IH]; intros u newest it Hwf Hs; [lia|]. cbn [kv_group].
  destruct (merging_next_ok _ Hwf) as ([[e|e]|] & m' & -> & Hwf' & Hsz).
  - destruct (lex_eqb (e_user e) u).
    + destruct (IH u (consider_visible newest e (kv_sequence it)) (with_merged it m' None)) as (out & -> & Hout);
        [done|cbn; lia|]. exists out. split; [done|].
      destruct out; cbn in *; destruct Hout as (? & ? & ?); (split; [done|]); (split; [lia|done]).
    + eexists. split; [done|]. unfold kv_size. cbn. split; [done|]. split; [lia|done].
  - eexists. split; [done|]. unfold kv_size. cbn. split; [done|]. split; [lia|done].
  - subst m'. eexists. split; [done|]. unfold kv_size. cbn. split; [done|]. split; [lia|done].
Qed.

Definition kv_wf (it : KvIterator) : Prop := merging_wf (kv_merged it).

(** One call: it returns, what it leaves is no larger, and an item makes it smaller. *)
Lemma kv_loop_ok fuel it :
  kv_wf it → (kv_size it < fuel)%nat →
  ∃ o it', kv_loop fuel it = Ok (o, it') ∧ kv_wf it' ∧
    match o with
    | Some (Ok _) => (kv_size it' < kv_size it)%nat
    | Some (Err _) => kv_failed it' = true
    | None => True
    end.
Proof.
  revert it. induction fuel as [|fuel IH]; intros it Hwf Hs; [lia|]. cbn [kv_loop].
  assert (∃ first it1,
    (match kv_pending it with
     | Some e => Ok (Some (Ok e), with_merged it (kv_merged it) None)
     | None => let? (item, merged) := merging_next (kv_merged it) in Ok (item, with_merged it merged None)
     end) = Ok (first, it1) ∧ kv_wf it1 ∧
    (is_Some first → (merging_size (kv_merged it1) < kv_size it)%nat)) as (first & it1 & -> & Hwf1 & Hs1).
  { destruct (kv_pending it) as [e|] eqn:Ep.
    - eexists _, _. split; [done|]. split; [done|]. intros _. unfold kv_size. rewrite Ep. cbn. lia.
    - destruct (merging_next_ok _ Hwf) as (o & m' & -> & Hwf' & Hsz). eexists _, _. split; [done|].
      split; [done|]. intros [x ->]. unfold kv_size. rewrite Ep. cbn. lia. }
  destruct first as [[e|e]|]; [|by eexists _, _|by eexists _, _].
  specialize (Hs1 ltac:(eauto)).
  destruct (kv_group_ok (S fuel) (e_user e) (consider_visible None e (kv_sequence it1)) it1)
    as (out & -> & Hout); [done|lia|].
  destruct out as [newest it2|err it2]; destruct Hout as (Hwf2 & Hs2 & Hr2); [|by eexists _, _].
  assert (∃ o it', kv_loop fuel it2 = Ok (o, it') ∧ kv_wf it' ∧
    match o with
    | Some (Ok _) => (kv_size it' < kv_size it)%nat
    | Some (Err _) => kv_failed it' = true
    | None => True
    end) as Hrec.
  { destruct (IH it2) as (o & it' & Ho & Hw & Hp); [done|lia|]. exists o, it'. split; [done|]. split; [done|].
    destruct o as [[?|?]|]; [lia|done|done]. }
  destruct (negb (lower_allows _ _)); [done|]. destruct (negb (upper_allows _ _)); [by eexists _, _|].
  destruct newest as [[s r]|]; [|done]. destruct (record_into_value _ _); [|done].
  eexists _, _. split; [done|]. split; [done|]. unfold kv_size in *. cbn. lia.
Qed.

Lemma KvIterator_next_ok it :
  kv_wf it →
  ∃ o it', KvIterator_next it = Ok (o, it') ∧ kv_wf it' ∧
    match o with
    | Some (Ok _) => (kv_size it' < kv_size it)%nat
    | Some (Err _) => kv_failed it' = true
    | None => True
    end.
Proof.
  intros Hit. unfold KvIterator_next. destruct (kv_failed it || _); [by exists None, it|].
  apply kv_loop_ok; [done|lia].
Qed.

(** ** Properties *)

(** An item that is an error is the last one. *)
Definition error_last {A} (items : list (result A)) : Prop :=
  ∀ before e after, items = before ++ Err e :: after → after = [].

Lemma error_last_cons {A} (a : A) items : error_last items → error_last (Ok a :: items).
Proof. intros H before e after Heq. destruct before as [|x before]; [done|]. injection Heq as _ Heq. by eapply H. Qed.

Lemma kv_collect_ok fuel it :
  kv_wf it → (kv_size it < fuel)%nat → ∃ items, kv_collect (S fuel) it = Ok items ∧ error_last items.
Proof.
  revert it. induction fuel as [|fuel IH]; intros it Hwf Hs; [lia|].
  destruct (KvIterator_next_ok it Hwf) as (o & it' & Hn & Hwf' & Ho). cbn [kv_collect]. rewrite Hn.
  destruct o as [[p|e]|].
  - destruct (IH it' Hwf' ltac:(lia)) as (items & Hi & Hl). cbn [kv_collect] in Hi. rewrite Hi.
    exists (Ok p :: items). split; [done|]. by apply error_last_cons.
  - exists [Err e]. split; [unfold KvIterator_next; by rewrite Ho|].
    intros [|x before] e' after Heq; [by injection Heq as -> <-|]. injection Heq as _ Heq. by destruct before.
  - by exists []; split; [|intros [] ? ?].
Qed.

(** A scan always terminates: whatever items and errors the children produce,
    collecting the iterator ends within its item count plus two calls, without a
    panic, and an error is the last item. *)
Theorem scan_terminates (children : list ChildIterator) (bounds : ScanBounds) (q now limit : Z) :
  ∃ it items, KvIterator_new children bounds q now limit = Ok it ∧
    kv_collect (S (S (kv_size it))) it = Ok items ∧ error_last items.
Proof.
  destruct (merging_new_ok children) as (mit & Hnew & Hwf). unfold KvIterator_new. rewrite Hnew.
  set (it := {| kv_merged := mit |}). exists it.
  destruct (kv_collect_ok (S (kv_size it)) it Hwf (Nat.lt_succ_diag_r _)) as (items & Hi & Hl).
  exists items. split; [done|]. by split.
Qed.

(** Prefix scans select exactly the prefix: a key lies in the bounds of a
    prefix scan if and only if it starts with the prefix, also for prefixes that
    end in 0xff bytes or are empty. *)
Theorem prefix_bounds_exact (p k : bytes) :
  bytes_ok p → bytes_ok k → user_key_in_bounds (prefix_bounds p) k = true ↔ ∃ r, k = p ++ r.
Proof. apply prefix_bounds_spec. Qed.

(** An instance: a prefix that ends in 0xff. *)
Lemma prefix_bounds_exact_witness :
  user_key_in_bounds (prefix_bounds [97; 255]) [97; 255; 3] = true ↔ ∃ r, [97; 255; 3] = [97; 255] ++ r.
Proof. apply (prefix_bounds_exact [97; 255] [97; 255; 3]); eval_done. Defined.
