(* ===== verification/IterFacts.v ===== *)
(** * What scans return

    The merging iterator yields the entries of its children in internal-key
    order, and the iterator of visible pairs yields exactly the live pairs. *)

From Stdlib Require Import ZArith Lia Sorting.Sorted.
From stdpp Require Import base list gmap strings sorting.
From S2P Require Import Prelude InternalKey Batch ValueRecord Mvcc Iter.

Local Open Scope Z_scope.

(** ** The heap order *)

Definition heap_le (a b : HeapEntry) : Prop := HeapEntry_cmp b a ≠ Gt.

Lemma heap_le_key a b : heap_le a b → InternalKey_cmp (he_entry a).1 (he_entry b).1 ≠ Gt.
Proof. unfold heap_le, HeapEntry_cmp. by destruct (InternalKey_cmp _ _). Qed.

Lemma heap_total x y : HeapEntry_cmp y x = Gt → HeapEntry_cmp x y ≠ Gt.
Proof.
  unfold HeapEntry_cmp. rewrite (cmp_antisym (cmp := InternalKey_cmp) (he_entry x).1 (he_entry y).1).
  destruct (InternalKey_cmp (he_entry x).1 (he_entry y).1); cbn; [|done|done].
  rewrite (Z.compare_antisym (he_child x) (he_child y)). by destruct (_ ?= _).
Qed.

Lemma heap_trans x y z : heap_le x y → heap_le y z → heap_le x z.
Proof.
  unfold heap_le, HeapEntry_cmp. intros H1 H2.
  destruct (InternalKey_cmp (he_entry x).1 (he_entry y).1) eqn:E1; [| |done].
  - rewrite (cmp_eq_l (cmp := InternalKey_cmp) _ _ _ E1).
    destruct (InternalKey_cmp (he_entry y).1 (he_entry z).1); [|done|done].
    destruct (Z.compare_spec (he_child x) (he_child y)), (Z.compare_spec (he_child y) (he_child z)); try done;
      destruct (Z.compare_spec (he_child x) (he_child z)); done || lia.
  - destruct (InternalKey_cmp (he_entry y).1 (he_entry z).1) eqn:E2; [| |done].
    + by rewrite (cmp_lt_le (cmp := InternalKey_cmp) _ (he_entry y).1 _ E1) by (by rewrite E2).
    + by rewrite (cmp_trans (cmp := InternalKey_cmp) _ _ _ E1 E2).
Qed.

Lemma heap_push_sorted x heap :
  StronglySorted heap_le heap → StronglySorted heap_le (heap_push x heap).
Proof. apply insert_by_sorted; [apply heap_total|apply heap_trans]. Qed.

(** ** The streams behind a merging iterator *)

Abbreviation key_le := (λ x y : entry, InternalKey_cmp x.1 y.1 ≠ Gt).
Abbreviation key_sorted := (StronglySorted key_le).

(** Child [c] still has the entries [s]: the first one waits in the heap once the
    child was advanced. *)
Definition stream_at (it : InternalMergingIterator) (advanced : bool) (c : nat) (s : list entry) : Prop :=
  if advanced then
    match s with
    | [] => im_children it !! c = Some [] ∧ ∀ h, h ∈ im_heap it → he_child h ≠ Z.of_nat c
    | e :: t => im_children it !! c = Some (Ok <$> t) ∧
        {| he_entry := e; he_child := Z.of_nat c |} ∈ im_heap it
    end
  else im_children it !! c = Some (Ok <$> s) ∧ ∀ h, h ∈ im_heap it → he_child h ≠ Z.of_nat c.

(** The first [k] children were advanced. *)
Record merge_rep (k : nat) (it : InternalMergingIterator) (ss : list (list entry)) : Prop := {
  rp_failed : im_failed it = false;
  rp_error : im_pending_error it = None;
  rp_length : length (im_children it) = length ss;
  rp_sorted : StronglySorted heap_le (im_heap it);
  rp_nodup : NoDup (he_child <$> im_heap it);
  rp_range : Forall (λ h, ∃ c, he_child h = Z.of_nat c ∧ (c < length ss)%nat) (im_heap it);
  rp_streams : ∀ c s, ss !! c = Some s → stream_at it (bool_decide (c < k)%nat) c s
}.

(** Advancing child [c] moves its first entry into the heap. *)
Lemma advance_stream it (ss : list (list entry)) c s :
  StronglySorted heap_le (im_heap it) → NoDup (he_child <$> im_heap it) →
  im_failed it = false → im_pending_error it = None →
  length (im_children it) = length ss →
  Forall (λ h, ∃ c, he_child h = Z.of_nat c ∧ (c < length ss)%nat) (im_heap it) →
  (c < length ss)%nat → stream_at it false c s →
  ∃ it', advance_child it (Z.of_nat c) = Ok (true, it') ∧
    im_failed it' = false ∧ im_pending_error it' = None ∧ length (im_children it') = length ss ∧
    StronglySorted heap_le (im_heap it') ∧ NoDup (he_child <$> im_heap it') ∧
    Forall (λ h, ∃ c, he_child h = Z.of_nat c ∧ (c < length ss)%nat) (im_heap it') ∧
    stream_at it' true c s ∧
    ∀ b c' s', c' ≠ c → stream_at it b c' s' → stream_at it' b c' s'.
Proof.
  intros Hsort Hnd Hf Hp Hlen Hrange Hc [Hch Hno]. unfold advance_child, index_or_panic, get_at.
  rewrite (proj2 (Z.ltb_ge _ 0)) by lia. rewrite Nat2Z.id, Hch. cbn [ok_or].
  destruct s as [|e t]; cbn [fmap list_fmap].
  { exists it. repeat (split; [done|]). done. }
  eexists. split; [done|]. cbn [im_failed im_pending_error im_children im_heap].
  split; [done|]. split; [done|]. unfold with_child. rewrite Nat2Z.id.
  split; [by rewrite length_insert|]. split; [by apply heap_push_sorted|].
  set (x := {| he_entry := e; he_child := Z.of_nat c |}).
  assert (heap_push x (im_heap it) ≡ₚ x :: im_heap it) as Hperm by apply insert_by_perm.
  split.
  { rewrite Hperm. cbn. apply NoDup_cons. split; [|done]. intros Hin.
    apply list_elem_of_fmap in Hin as (h & Hh & Hin). by apply (Hno h Hin). }
  split; [rewrite Hperm; constructor; [|done]; exists c; done|]. split.
  - cbn. rewrite list_lookup_insert_eq by lia. split; [done|]. rewrite Hperm. by left.
  - intros b c' s' Hne Hs'.
    assert (∀ P : Prop, (∀ h, h ∈ im_heap it → he_child h ≠ Z.of_nat c') →
      ∀ h, h ∈ heap_push x (im_heap it) → he_child h ≠ Z.of_nat c') as Hext.
    { intros _ H h Hh. rewrite Hperm in Hh. apply elem_of_cons in Hh as [->|Hh]; [cbn; lia|auto]. }
    unfold stream_at in *. cbn [im_children im_heap]. rewrite list_lookup_insert_ne by done.
    destruct b; [destruct s' as [|e' t']|]; (destruct Hs' as [H1 H2]; split; [done|]).
    + by apply (Hext True).
    + rewrite Hperm. by right.
    + by apply (Hext True).
Qed.

Lemma advance_all_rep n k it ss :
  merge_rep k it ss → (k + n = length ss)%nat →
  ∃ it', advance_all (Z.of_nat <$> seq k n) it = Ok it' ∧ merge_rep (length ss) it' ss.
Proof.
  revert k it. induction n as [|n IH]; intros k it Hrep Hk.
  { exists it. split; [done|]. by replace (length ss) with k by lia. }
  pose proof Hrep as [Hf Hp Hlen Hsort Hnd Hrange Hst].
  destruct (lookup_lt_is_Some_2 ss k ltac:(lia)) as [s Hs].
  pose proof (Hst _ _ Hs) as Hk0. rewrite bool_decide_false in Hk0 by lia.
  destruct (advance_stream it ss k s) as (it' & Ha & Hf' & Hp' & Hlen' & Hsort' & Hnd' & Hr' & Hs' & Hother);
    [done..|lia|done|].
  cbn [seq fmap list_fmap advance_all]. rewrite Ha. apply (IH (S k)); [|lia]. split; try done.
  intros c s0 Hc. destruct (decide (c = k)) as [->|Hne].
  - rewrite bool_decide_true by lia. by replace s0 with s by congruence.
  - pose proof (Hother _ _ _ Hne (Hst _ _ Hc)) as H. destruct (decide (c < k)%nat).
    + rewrite bool_decide_true in H |- * by lia. done.
    + rewrite bool_decide_false in H |- * by lia. done.
Qed.

Lemma merging_new_rep (ss : list (list entry)) :
  ∃ it, InternalMergingIterator_new (map (map Ok) ss) = Ok it ∧ merge_rep (length ss) it ss.
Proof.
  unfold InternalMergingIterator_new. rewrite length_map. apply (advance_all_rep _ 0); [|lia].
  split; cbn; [done|done|by rewrite length_map|constructor|constructor|constructor|].
  intros c s Hs. unfold stream_at. cbn. change (map (map Ok) ss) with (map Ok <$> ss). rewrite list_lookup_fmap, Hs. split; [done|].
  intros h Hh. by apply elem_of_nil in Hh.
Qed.

(** ** Draining the iterator *)

(** The iterator returns exactly the entries [m] and then [None] for ever. *)
Inductive yields : InternalMergingIterator → list entry → Prop :=
| yields_end it : merging_next it = Ok (None, it) → yields it []
| yields_next it e it' m :
    merging_next it = Ok (Some (Ok e), it') → yields it' m → yields it (e :: m).

Lemma stream_cons (ss : list (list entry)) c e t :
  ss !! c = Some (e :: t) → concat ss ≡ₚ e :: concat (<[c := t]> ss).
Proof.
  revert c. induction ss as [|s ss IH]; intros [|c] H; [done|done| |].
  - injection H as ->. done.
  - change (<[S c := t]> (s :: ss)) with (s :: <[c := t]> ss). cbn [concat].
    rewrite (IH c H). by rewrite Permutation_middle.
Qed.

(** The head of the heap is the least entry of all streams. *)
Lemma heap_head_least it ss h heap :
  merge_rep (length ss) it ss → Forall key_sorted ss → im_heap it = h :: heap →
  Forall (key_le (he_entry h)) (concat ss).
Proof.
  intros [_ _ _ Hsort _ _ Hst] Hss Hh. rewrite Hh in Hsort. apply StronglySorted_inv in Hsort as [_ Hall].
  rewrite Forall_concat. rewrite Forall_forall. intros s Hs. apply list_elem_of_lookup in Hs as (c & Hc).
  specialize (Hst _ _ Hc). rewrite bool_decide_true in Hst by (by eapply lookup_lt_Some).
  destruct s as [|e t]; [constructor|]. destruct Hst as [_ Hin]. rewrite Hh in Hin.
  assert (key_le (he_entry h) e) as Hle.
  { apply elem_of_cons in Hin as [<-|Hin]; [by rewrite (cmp_refl' (cmp := InternalKey_cmp))|].
    rewrite Forall_forall in Hall. apply (heap_le_key h _ (Hall _ Hin)). }
  pose proof (proj1 (Forall_lookup _ _) Hss _ _ Hc) as Hs. apply StronglySorted_inv in Hs as [_ Ht].
  constructor; [done|]. eapply Forall_impl; [exact Ht|]. intros x Hx.
  exact (cmp_le_trans (cmp := InternalKey_cmp) _ e.1 _ Hle Hx).
Qed.

Lemma merging_next_rep it ss :
  merge_rep (length ss) it ss →
  match im_heap it with
  | [] => merging_next it = Ok (None, it) ∧ concat ss = []
  | h :: _ => ∃ c t it', ss !! c = Some (he_entry h :: t) ∧
      merging_next it = Ok (Some (Ok (he_entry h)), it') ∧ merge_rep (length ss) it' (<[c := t]> ss)
  end.
Proof.
  intros Hrep. pose proof Hrep as [Hf Hp Hlen Hsort Hnd Hrange Hst]. unfold merging_next. rewrite Hf, Hp.
  destruct (im_heap it) as [|h heap] eqn:Hh.
  { split; [done|]. apply concat_nil_Forall, Forall_lookup. intros c s Hc. specialize (Hst _ _ Hc).
    rewrite bool_decide_true in Hst by (by eapply lookup_lt_Some). destruct s as [|e t]; [done|].
    destruct Hst as [_ Hin]. rewrite Hh in Hin. by apply elem_of_nil in Hin. }
  apply StronglySorted_inv in Hsort as [Hsort _]. apply NoDup_cons in Hnd as [Hni Hnd].
  apply Forall_cons in Hrange as [(c & Hc & Hcl) Hrange].
  assert (∀ x, x ∈ heap → he_child x ≠ Z.of_nat c) as Hno.
  { intros x Hx Hxc. apply Hni. rewrite Hc, <- Hxc. apply list_elem_of_fmap. by exists x. }
  destruct (lookup_lt_is_Some_2 ss c Hcl) as [s Hs]. pose proof (Hst _ _ Hs) as Hsc.
  rewrite bool_decide_true in Hsc by done. destruct s as [|e t]; cbn [stream_at] in Hsc; destruct Hsc as [Hch Hin].
  { exfalso. apply (Hin h); [rewrite Hh; by left|done]. }
  assert (he_entry h = e) as He.
  { rewrite Hh in Hin. apply elem_of_cons in Hin as [<-|Hin]; [done|]. exfalso. by apply (Hno _ Hin). }
  set (it0 := {| im_children := im_children it; im_heap := heap; im_failed := false;
    im_pending_error := None |}).
  destruct (advance_stream it0 ss c t) as (it' & Ha & Hf' & Hp' & Hlen' & Hsort' & Hnd' & Hr' & Hs' & Hother);
    [done|done|done|done|done|done|done|by split|].
  fold it0. rewrite Hc, Ha. cbn. exists c, t, it'. rewrite He. split; [done|]. split; [done|].
  split; try done; [by rewrite length_insert|by rewrite length_insert|].
  intros c' s' Hc'. destruct (decide (c' = c)) as [->|Hne].
  - rewrite list_lookup_insert_eq in Hc' by done. injection Hc' as <-. by rewrite bool_decide_true.
  - rewrite list_lookup_insert_ne in Hc' by done. specialize (Hst _ _ Hc').
    rewrite bool_decide_true in Hst |- * by (by eapply lookup_lt_Some). apply Hother; [done|].
    destruct s' as [|e' t']; cbn [stream_at] in *; destruct Hst as [H1 H2]; (split; [done|]).
    + intros x Hx. apply H2. rewrite Hh. by right.
    + rewrite Hh in H2. apply elem_of_cons in H2 as [H2|H2]; [|done]. exfalso. rewrite <- H2 in Hc. cbn in Hc. lia.
Qed.

Lemma drain n it ss :
  merge_rep (length ss) it ss → Forall key_sorted ss → length (concat ss) = n →
  ∃ m, yields it m ∧ m ≡ₚ concat ss ∧ key_sorted m.
Proof.
  revert it ss. induction n as [|n IH]; intros it ss Hrep Hss Hn; pose proof (merging_next_rep _ _ Hrep) as Hnext.
  - apply length_zero_iff_nil in Hn. destruct (im_heap it) as [|h heap] eqn:Hh.
    + exists []. rewrite Hn. split; [apply yields_end, Hnext|]. split; [done|constructor].
    + destruct Hnext as (c & t & it' & Hc & _). exfalso. apply stream_cons in Hc.
      rewrite Hn in Hc. by apply Permutation_nil_l in Hc.
  - destruct (im_heap it) as [|h heap] eqn:Hh.
    { destruct Hnext as [_ Hnil]. by rewrite Hnil in Hn. }
    pose proof (heap_head_least it ss h heap Hrep Hss Hh) as Hleast.
    destruct Hnext as (c & t & it' & Hc & Hnext & Hrep'). pose proof (stream_cons _ _ _ _ Hc) as Hperm.
    destruct (IH it' (<[c := t]> ss)) as (m & Hy & Hpm & Hsm).
    + by rewrite length_insert.
    + apply Forall_insert; [done|]. pose proof (proj1 (Forall_lookup _ _) Hss _ _ Hc) as Hs.
      by apply StronglySorted_inv in Hs as [? _].
    + rewrite Hperm in Hn. cbn in Hn. lia.
    + exists (he_entry h :: m). split; [by econstructor|]. split; [by rewrite Hperm, Hpm|].
      constructor; [done|]. rewrite Hperm in Hleast. apply Forall_cons in Hleast as [_ Hleast]. by rewrite Hpm.
Qed.

(** A merge of sorted children is their sorted union. *)
Lemma merging_yields (ss : list (list entry)) :
  Forall key_sorted ss →
  ∃ it m, InternalMergingIterator_new (map (map Ok) ss) = Ok it ∧ yields it m ∧
    m ≡ₚ concat ss ∧ key_sorted m.
Proof.
  intros Hss. destruct (merging_new_rep ss) as (it & Hnew & Hrep).
  destruct (drain _ it ss Hrep Hss eq_refl) as (m & Hy & Hp & Hs). by exists it, m.
Qed.

(** ** The live pairs of a merged list *)

(** The leading entries of user key [u]. *)
Fixpoint span_user (u : bytes) (m : list entry) : list entry * list entry :=
  match m with
  | [] => ([], [])
  | e :: m' => if lex_eqb (e_user e) u then let '(g, r) := span_user u m' in (e :: g, r) else ([], m)
  end.

Definition newest_of (q : Z) (g : list entry) (acc : option (Z * ValueRecord)) : option (Z * ValueRecord) :=
  fold_left (λ newest e, consider_visible newest e q) g acc.

(** What one group of versions contributes. *)
Definition group_pairs (bounds : ScanBounds) (q now : Z) (u : bytes) (g : list entry) : list (bytes * bytes) :=
  match newest_of q g None with
  | Some (_, r) =>
    if user_key_in_bounds bounds u then
      match record_into_value r now with Some v => [(u, v)] | None => [] end
    else []
  | None => []
  end.

Fixpoint live_pairs (fuel : nat) (bounds : ScanBounds) (q now : Z) (m : list entry) : list (bytes * bytes) :=
  match fuel, m with
  | S fuel, e :: m =>
    let '(g, rest) := span_user (e_user e) m in
    group_pairs bounds q now (e_user e) (e :: g) ++ live_pairs fuel bounds q now rest
  | _, _ => []
  end.

(** What a scan must return: pair [(u, v)] is live in [es]. *)
Definition live_pair (bounds : ScanBounds) (q now : Z) (es : list entry) (u v : bytes) : Prop :=
  user_key_in_bounds bounds u = true ∧
  ∃ e, is_newest u q es (Some e) ∧ record_into_value e.2 now = Some v.

Lemma span_user_spec u m g r :
  span_user u m = (g, r) → m = g ++ r ∧ Forall (λ e, e_user e = u) g ∧
    match r with [] => True | x :: _ => e_user x ≠ u end.
Proof.
  revert g. induction m as [|e m IH]; cbn; intros g H; [by injection H as <- <-|].
  destruct (lex_eqb (e_user e) u) eqn:E.
  - destruct (span_user u m) as [g' r']. injection H as <- <-. destruct (IH _ eq_refl) as (-> & Hg & Hr).
    apply lex_eqb_eq in E. split; [done|]. split; [by constructor|done].
  - injection H as <- <-. split; [done|]. split; [constructor|]. intros Heq. by rewrite Heq, lex_eqb_refl in E.
Qed.

(** In a sorted list the versions of a user key are contiguous, and the keys rise. *)
Lemma key_le_user x y : entry_wf x → entry_wf y → key_le x y → lex_cmp (e_user x) (e_user y) ≠ Gt.
Proof. intros Hx Hy. cbv beta. rewrite (entry_cmp x y Hx Hy). unfold version_cmp. by destruct (lex_cmp _ _). Qed.

Lemma group_split u e g r :
  key_sorted (e :: g ++ r) → Forall entry_wf (e :: g ++ r) → e_user e = u → Forall (λ x, e_user x = u) g →
  match r with [] => True | x :: _ => e_user x ≠ u end →
  Forall (λ x, lex_cmp u (e_user x) = Lt) r.
Proof.
  intros Hs Hwf He Hg Hr. apply StronglySorted_inv in Hs as [Hs Hall]. apply Forall_cons in Hwf as [Hwe Hwf].
  apply Forall_app in Hwf as [_ Hwf]. apply Forall_app in Hall as [_ Hall].
  assert (key_sorted r) as Hsr by (by apply StronglySorted_app_1_r in Hs).
  destruct r as [|x r]; [constructor|]. apply Forall_cons in Hwf as [Hwx Hwf]. apply Forall_cons in Hall as [Hex _].
  assert (lex_cmp u (e_user x) = Lt) as Hlt.
  { pose proof (key_le_user _ _ Hwe Hwx Hex) as H. rewrite He in H.
    destruct (lex_cmp u (e_user x)) eqn:E; [|done|done]. apply lex_cmp_eq in E. by rewrite E in Hr. }
  constructor; [done|]. apply StronglySorted_inv in Hsr as [_ Hall]. rewrite Forall_forall in Hall, Hwf |- *.
  intros y Hy. eapply (cmp_lt_le (cmp := lex_cmp)); [exact Hlt|]. apply key_le_user; auto.
Qed.

Lemma newest_of_spec q u g :
  Forall (λ e, e_user e = u) g →
  match newest_of q g None with
  | Some (s, r) => ∃ e, is_newest u q g (Some e) ∧ e_seq e = s ∧ e.2 = r
  | None => is_newest u q g None
  end.
Proof.
  intros Hg. unfold newest_of. induction g as [|e g IH] using rev_ind; cbn.
  { intros e He. by apply elem_of_nil in He. }
  apply Forall_app in Hg as [Hg He]. apply Forall_cons in He as [He _]. specialize (IH Hg).
  rewrite fold_left_app. cbn [fold_left]. set (acc := fold_left _ g None) in *. unfold consider_visible at 1.
  destruct (Z.leb_spec (e_seq e) q) as [Hle|Hgt]; cbn [andb].
  - destruct acc as [[s r]|].
    + destruct IH as (e0 & (Hin & Hu0 & Hq0 & Hmax) & <- & <-). destruct (Z.ltb_spec (e_seq e0) (e_seq e)) as [Hlt|Hge].
      * exists e. split; [|done]. split; [apply elem_of_app; right; by left|]. do 2 (split; [done|]).
        intros e' [H'|H']%elem_of_app Hu' Hq'; [specialize (Hmax _ H' Hu' Hq'); lia|].
        apply list_elem_of_singleton in H' as ->. lia.
      * exists e0. split; [|done]. split; [by apply elem_of_app; left|]. do 2 (split; [done|]).
        intros e' [H'|H']%elem_of_app Hu' Hq'; [by apply Hmax|]. apply list_elem_of_singleton in H' as ->. lia.
    + exists e. split; [|done]. split; [apply elem_of_app; right; by left|]. do 2 (split; [done|]).
      intros e' [H'|H']%elem_of_app Hu' Hq'; [specialize (IH _ H' Hu'); lia|].
      apply list_elem_of_singleton in H' as ->. lia.
  - destruct acc as [[s r]|].
    + destruct IH as (e0 & (Hin & Hu0 & Hq0 & Hmax) & <- & <-). exists e0. split; [|done].
      split; [by apply elem_of_app; left|]. do 2 (split; [done|]).
      intros e' [H'|H']%elem_of_app Hu' Hq'; [by apply Hmax|]. apply list_elem_of_singleton in H' as ->. lia.
    + intros e' [H'|H']%elem_of_app Hu'; [by apply IH|]. by apply list_elem_of_singleton in H' as ->.
Qed.

(** Entries of other keys do not matter. *)
Lemma is_newest_app_other u q g r o :
  (Forall (λ e, e_user e ≠ u) r → is_newest u q (g ++ r) o ↔ is_newest u q g o) ∧
  (Forall (λ e, e_user e ≠ u) g → is_newest u q (g ++ r) o ↔ is_newest u q r o).
Proof.
  assert (∀ x y, Forall (λ e, e_user e ≠ u) y → (∀ e, e ∈ g ++ r ↔ e ∈ x ∨ e ∈ y) →
    is_newest u q (g ++ r) o ↔ is_newest u q x o) as H.
  { intros x y Hy Hxy. rewrite Forall_forall in Hy. destruct o as [e|]; cbn.
    - split.
      + intros (Hin & Hu & Hq & Hmax). apply Hxy in Hin as [Hin|Hin]; [|by destruct (Hy _ Hin)].
        do 3 (split; [done|]). intros e' He'. apply Hmax, Hxy. by left.
      + intros (Hin & Hu & Hq & Hmax). split; [apply Hxy; by left|]. do 2 (split; [done|]).
        intros e' He' Hu'. apply Hxy in He' as [He'|He']; [by apply Hmax|by destruct (Hy _ He')].
    - split; intros Hn e' He' Hu'; [apply Hn; [apply Hxy; by left|done]|].
      apply Hxy in He' as [He'|He']; [by apply Hn|by destruct (Hy _ He')]. }
  split; intros Hy; eapply H; [exact Hy|intros e; apply elem_of_app|exact Hy|].
  intros e. rewrite elem_of_app. tauto.
Qed.

Lemma lex_lt_ne a b : lex_cmp a b = Lt → b ≠ a.
Proof. intros H ->. by rewrite lex_cmp_refl in H. Qed.

(** The executable list is the specification. *)
Lemma live_pairs_spec fuel bounds q now m :
  key_sorted m → Forall entry_wf m → versions_unique m → (length m ≤ fuel)%nat →
  StronglySorted (λ x y, lex_cmp x.1 y.1 = Lt) (live_pairs fuel bounds q now m) ∧
  ∀ u v, (u, v) ∈ live_pairs fuel bounds q now m ↔ live_pair bounds q now m u v.
Proof.
  revert m. induction fuel as [|fuel IH]; intros [|e m] Hs Hwf Huniq Hlen; cbn [live_pairs].
  1,3: split; [constructor|]; intros u v; split; [by intros H%elem_of_nil|];
    intros (_ & x & (Hin & _) & _); by apply elem_of_nil in Hin.
  { cbn in Hlen. lia. }
  destruct (span_user (e_user e) m) as [g rest] eqn:Espan.
  destruct (span_user_spec _ _ _ _ Espan) as (-> & Hg & Hr).
  pose proof (group_split _ _ _ _ Hs Hwf eq_refl Hg Hr) as Hgt.
  assert (Forall (λ x, e_user x = e_user e) (e :: g)) as Hgroup by (by constructor).
  destruct (IH rest) as [IHs IHm].
  { apply StronglySorted_inv in Hs as [Hs _]. by apply StronglySorted_app_1_r in Hs. }
  { apply Forall_cons in Hwf as [_ Hwf]. by apply Forall_app in Hwf as [_ ?]. }
  { eapply versions_unique_subset; [|exact Huniq]. intros x Hx. rewrite elem_of_cons, elem_of_app. tauto. }
  { cbn in Hlen. rewrite length_app in Hlen. lia. }
  change (e :: g ++ rest) with ((e :: g) ++ rest) in *.
  assert (Forall (λ x, e_user x ≠ e_user e) rest) as Hrest_ne.
  { eapply Forall_impl; [exact Hgt|]. intros x Hx. by apply lex_lt_ne. }
  assert (∀ u v, live_pair bounds q now rest u v → lex_cmp (e_user e) u = Lt) as Hlive_gt.
  { intros u v (_ & x & (Hin & <- & _) & _). rewrite Forall_forall in Hgt. by apply Hgt. }
  assert (∀ u v, live_pair bounds q now ((e :: g) ++ rest) u v ↔
    (u, v) ∈ group_pairs bounds q now (e_user e) (e :: g) ∨ live_pair bounds q now rest u v) as Hsplit.
  { intros u v. unfold live_pair, group_pairs. pose proof (newest_of_spec q _ _ Hgroup) as Hnew.
    destruct (decide (u = e_user e)) as [->|Hne].
    - setoid_rewrite (proj1 (is_newest_app_other (e_user e) q (e :: g) rest _) Hrest_ne).
      assert (¬ (user_key_in_bounds bounds (e_user e) = true ∧
        ∃ x, is_newest (e_user e) q rest (Some x) ∧ record_into_value x.2 now = Some v)) as Hno.
      { intros (_ & x & (Hin & Hu & _) & _). rewrite Forall_forall in Hrest_ne. by apply (Hrest_ne x). }
      destruct (newest_of q (e :: g) None) as [[s r]|].
      + destruct Hnew as (x & Hx & _ & <-). destruct (user_key_in_bounds bounds (e_user e)).
        * split.
          -- intros (_ & y & Hy & Hv). left.
             assert (Some y = Some x) as [= ->].
             { eapply is_newest_unique; [|exact Hy|exact Hx]. eapply versions_unique_subset; [|exact Huniq].
               intros z Hz. apply elem_of_app. by left. }
             rewrite Hv. by left.
          -- intros [Hin|]; [|tauto]. split; [done|]. exists x. split; [done|].
             destruct (record_into_value x.2 now); [|by apply elem_of_nil in Hin].
             by apply list_elem_of_singleton in Hin as [= ->].
        * split; [by intros [? _]|]. intros [Hin|]; [by apply elem_of_nil in Hin|tauto].
      + split; [|intros [Hin|]; [by apply elem_of_nil in Hin|tauto]].
        intros (_ & y & (Hin & Hu & Hq & _) & _). specialize (Hnew _ Hin Hu). lia.
    - setoid_rewrite (proj2 (is_newest_app_other u q (e :: g) rest _)).
      2:{ eapply Forall_impl; [exact Hgroup|]. intros x ->. done. }
      split; [tauto|]. intros [Hin|]; [|done]. exfalso. destruct (newest_of q (e :: g) None) as [[s r]|]; [|by apply elem_of_nil in Hin].
      destruct (user_key_in_bounds _ _); [|by apply elem_of_nil in Hin].
      destruct (record_into_value _ _); [|by apply elem_of_nil in Hin]. by apply list_elem_of_singleton in Hin as [= -> _]. }
  split.
  - unfold group_pairs. destruct (newest_of q (e :: g) None) as [[s r]|]; [|done].
    destruct (user_key_in_bounds _ _); [|done]. destruct (record_into_value _ _) as [v|]; [|done].
    constructor; [done|]. apply Forall_forall. intros [u' v'] Hin. cbn. eapply Hlive_gt. by apply IHm.
  - intros u v. rewrite elem_of_app, IHm. symmetry. apply Hsplit.
Qed.

(** ** The iterator of visible pairs follows the list *)

Definition kv_yields (it : KvIterator) (m : list entry) : Prop :=
  match kv_pending it with
  | Some e => ∃ m', m = e :: m' ∧ yields (kv_merged it) m'
  | None => yields (kv_merged it) m
  end.

(** Everything but the position. *)
Definition same_scan (it it' : KvIterator) : Prop :=
  kv_bounds it' = kv_bounds it ∧ kv_sequence it' = kv_sequence it ∧
  kv_read_time_unix_ms it' = kv_read_time_unix_ms it ∧ kv_remaining it' = kv_remaining it ∧
  kv_failed it' = kv_failed it.

#[global] Instance same_scan_preorder : PreOrder same_scan.
Proof. split; [by intros it|]. intros a b c (H1 & H2 & H3 & H4 & H5) (K1 & K2 & K3 & K4 & K5). repeat split; congruence. Qed.

Lemma kv_group_yields fuel u newest it m g r :
  yields (kv_merged it) m → span_user u m = (g, r) → (length m < fuel)%nat →
  ∃ it', kv_group fuel u newest it = Ok (GroupEnd (newest_of (kv_sequence it) g newest) it') ∧
    kv_yields it' r ∧ same_scan it it'.
Proof.
  revert newest it m g. induction fuel as [|fuel IH]; intros newest it m g Hy Hsp Hlen; [lia|]. cbn [kv_group].
  destruct Hy as [mit Hn|mit e mit' m Hn Hy]; rewrite Hn.
  { injection Hsp as <- <-. eexists. split; [done|]. split; [by constructor|]. done. }
  cbn [span_user] in Hsp. destruct (lex_eqb (e_user e) u).
  - destruct (span_user u m) as [g' r'] eqn:E. injection Hsp as <- <-.
    destruct (IH (consider_visible newest e (kv_sequence it)) (with_merged it mit' None) m g') as (it' & -> & Hy' & Hsame);
      [done|done|cbn in Hlen; lia|].
    exists it'. split; [done|]. split; [done|]. etransitivity; [|exact Hsame]. done.
  - injection Hsp as <- <-. eexists. split; [done|]. split; [by exists m|]. done.
Qed.

(** Past the upper bound nothing is live. *)
Lemma live_pairs_above fuel bounds q now m u :
  upper_allows bounds u = false → Forall (λ x, lex_cmp u (e_user x) = Lt) m →
  live_pairs fuel bounds q now m = [].
Proof.
  intros Hu. revert m. induction fuel as [|fuel IH]; intros [|e m] Hm; cbn [live_pairs]; [done..|].
  destruct (span_user (e_user e) m) as [g rest] eqn:E. destruct (span_user_spec _ _ _ _ E) as (-> & _).
  apply Forall_cons in Hm as [He Hm]. apply Forall_app in Hm as [_ Hm]. rewrite IH by done. rewrite app_nil_r.
  assert (upper_allows bounds (e_user e) = false) as Hf.
  { unfold upper_allows in *. destruct (sb_end bounds) as [k|k|]; [| |done]; apply not_true_iff_false;
      apply not_true_iff_false in Hu; rewrite ?lex_leb_le, ?lex_ltb_lt in *; intros H; apply Hu.
    - by rewrite (cmp_lt_le (cmp := lex_cmp) _ _ _ He H).
    - by apply (cmp_trans (cmp := lex_cmp) _ _ _ He H). }
  unfold group_pairs, user_key_in_bounds. rewrite Hf, andb_false_r. by destruct (newest_of _ _ _) as [[]|].
Qed.

Lemma kv_loop_yields fuel it m :
  kv_yields it m → key_sorted m → Forall entry_wf m → (length m < fuel)%nat →
  let pairs n m := live_pairs n (kv_bounds it) (kv_sequence it) (kv_read_time_unix_ms it) m in
  ∃ it' m', same_scan it it' ∧ kv_yields it' m' ∧ key_sorted m' ∧ Forall entry_wf m' ∧
    match pairs fuel m with
    | [] => kv_loop fuel it = Ok (None, it')
    | p :: rest => ∃ n, rest = pairs n m' ∧ (length m' < n)%nat ∧ (length m' < length m)%nat ∧
        kv_loop fuel it = Ok (Some (Ok p), kv_emit it')
    end.
Proof.
  revert it m. induction fuel as [|fuel IH]; intros it m Hy Hs Hwf Hlen; [lia|]. cbn zeta. cbn [kv_loop].
  assert (∃ it1, same_scan it it1 ∧
    match m with
    | [] => kv_yields it1 [] ∧ (match kv_pending it with
        | Some e => Ok (Some (Ok e), with_merged it (kv_merged it) None)
        | None => let? (item, merged) := merging_next (kv_merged it) in Ok (item, with_merged it merged None)
        end) = Ok (None, it1)
    | e :: m => yields (kv_merged it1) m ∧ (match kv_pending it with
        | Some e => Ok (Some (Ok e), with_merged it (kv_merged it) None)
        | None => let? (item, merged) := merging_next (kv_merged it) in Ok (item, with_merged it merged None)
        end) = Ok (Some (Ok e), it1)
    end) as (it1 & Hsame & Hfirst).
  { unfold kv_yields in Hy. destruct (kv_pending it) as [e|] eqn:Ep.
    - destruct Hy as (m' & -> & Hy). exists (with_merged it (kv_merged it) None). split; [done|]. by split.
    - destruct Hy as [mit Hn|mit e mit' m Hn Hy]; rewrite Hn.
      + exists (with_merged it mit None). split; [done|]. split; [by constructor|done].
      + exists (with_merged it mit' None). split; [done|]. by split. }
  destruct m as [|e m]; cbn [live_pairs].
  { destruct Hfirst as [Hy1 ->]. exists it1, []. do 2 (split; [done|]). do 2 (split; [constructor|]). done. }
  destruct Hfirst as [Hy1 ->]. destruct (span_user (e_user e) m) as [g rest] eqn:Espan.
  pose proof Hsame as (Eb & Eq & Et & _). destruct (span_user_spec _ _ _ _ Espan) as (-> & Hg & Hr).
  destruct (kv_group_yields (S fuel) (e_user e) (consider_visible None e (kv_sequence it1)) it1 _ g rest Hy1 Espan)
    as (it2 & -> & Hy2 & Hsame2); [cbn in Hlen; lia|].
  pose proof (group_split _ _ _ _ Hs Hwf eq_refl Hg Hr) as Hgt.
  assert (key_sorted rest ∧ Forall entry_wf rest) as [Hs2 Hwf2].
  { apply StronglySorted_inv in Hs as [Hs _]. apply Forall_cons in Hwf as [_ Hwf].
    apply Forall_app in Hwf as [_ ?]. split; [by apply StronglySorted_app_1_r in Hs|done]. }
  assert (same_scan it it2) as Hsame12 by (by etransitivity). pose proof Hsame12 as (Eb2 & Eq2 & Et2 & _).
  rewrite Eb2, Et2. change (newest_of (kv_sequence it1) g (consider_visible None e (kv_sequence it1)))
    with (newest_of (kv_sequence it1) (e :: g) None). rewrite Eq.
  assert (length rest < fuel)%nat as Hlen2 by (cbn in Hlen; rewrite length_app in Hlen; lia).
  assert (length rest < length (e :: g ++ rest))%nat as Hless by (cbn; rewrite length_app; lia).
  specialize (IH it2 rest Hy2 Hs2 Hwf2 Hlen2). cbn zeta in IH. rewrite Eb2, Eq2, Et2 in IH.
  destruct IH as (it3 & m3 & Hsame3 & Hy3 & Hs3 & Hwf3 & Hres).
  assert (group_pairs (kv_bounds it) (kv_sequence it) (kv_read_time_unix_ms it) (e_user e) (e :: g) = [] →
    ∃ it' m', same_scan it it' ∧ kv_yields it' m' ∧ key_sorted m' ∧ Forall entry_wf m' ∧
    match group_pairs (kv_bounds it) (kv_sequence it) (kv_read_time_unix_ms it) (e_user e) (e :: g) ++
      live_pairs fuel (kv_bounds it) (kv_sequence it) (kv_read_time_unix_ms it) rest with
    | [] => kv_loop fuel it2 = Ok (None, it')
    | p :: rest' => ∃ n, rest' = live_pairs n (kv_bounds it) (kv_sequence it) (kv_read_time_unix_ms it) m' ∧
        (length m' < n)%nat ∧ (length m' < length (e :: g ++ rest))%nat ∧
        kv_loop fuel it2 = Ok (Some (Ok p), kv_emit it')
    end) as Hskip.
  { intros ->. exists it3, m3. split; [by etransitivity|]. do 3 (split; [done|]). cbn [app].
    destruct (live_pairs fuel _ _ _ rest); [done|]. destruct Hres as (n & H1 & H2 & H3 & H4). exists n.
    do 2 (split; [done|]). split; [lia|done]. }
  unfold group_pairs, user_key_in_bounds in *. destruct (lower_allows (kv_bounds it) (e_user e)); cbn [negb andb] in *.
  2:{ apply Hskip. by destruct (newest_of _ _ _) as [[]|]. }
  destruct (upper_allows (kv_bounds it) (e_user e)) eqn:Eu; cbn [negb] in *.
  2:{ exists it2, rest. do 4 (split; [done|]). rewrite (live_pairs_above _ _ _ _ _ _ Eu Hgt).
      by destruct (newest_of _ _ _) as [[]|]. }
  destruct (newest_of (kv_sequence it) (e :: g) None) as [[s r]|]; [|by apply Hskip].
  destruct (record_into_value r (kv_read_time_unix_ms it)) as [v|]; [|by apply Hskip].
  exists it2, rest. do 4 (split; [done|]). cbn [app]. exists fuel. done.
Qed.

Lemma live_pairs_fuel n n' bounds q now m :
  (length m ≤ n)%nat → (length m ≤ n')%nat →
  live_pairs n bounds q now m = live_pairs n' bounds q now m.
Proof.
  revert n' m. induction n as [|n IH]; intros [|n'] [|e m] H H'; cbn [live_pairs]; cbn in H, H'; try lia; [done..|].
  destruct (span_user (e_user e) m) as [g rest] eqn:E. destruct (span_user_spec _ _ _ _ E) as (-> & _).
  rewrite length_app in H, H'. by rewrite (IH n' rest) by lia.
Qed.

Lemma yields_size it m : merging_wf it → yields it m → (length m ≤ merging_size it)%nat.
Proof.
  intros Hwf Hy. induction Hy as [it Hn|it e it' m Hn Hy IH]; cbn; [lia|].
  destruct (merging_next_ok it Hwf) as (o & it2 & Hn2 & Hwf2 & Hs). rewrite Hn in Hn2. injection Hn2 as <- <-.
  specialize (IH Hwf2). lia.
Qed.

Lemma kv_yields_size it m : kv_wf it → kv_yields it m → (length m ≤ kv_size it)%nat.
Proof.
  unfold kv_wf, kv_yields, kv_size. intros Hwf. destruct (kv_pending it).
  - intros (m' & -> & Hy). apply yields_size in Hy; [|done]. cbn. lia.
  - intros Hy. apply yields_size in Hy; [|done]. lia.
Qed.

Lemma kv_collect_yields fuel it m :
  kv_wf it → kv_yields it m → key_sorted m → Forall entry_wf m → kv_failed it = false →
  0 ≤ kv_remaining it → (length m < fuel)%nat →
  kv_collect fuel it = Ok (map Ok (take (Z.to_nat (kv_remaining it))
    (live_pairs (length m) (kv_bounds it) (kv_sequence it) (kv_read_time_unix_ms it) m))).
Proof.
  revert it m. induction fuel as [|fuel IH]; intros it m Hwf Hy Hs Hwm Hf Hr Hlen; [lia|]. cbn [kv_collect].
  unfold KvIterator_next. rewrite Hf. cbn [orb].
  destruct (Z.eqb_spec (kv_remaining it) 0) as [Hz|Hnz]; [by rewrite Hz|].
  pose proof (kv_yields_size _ _ Hwf Hy) as Hsize.
  destruct (kv_loop_yields (S (kv_size it)) it m Hy Hs Hwm ltac:(lia)) as (it' & m' & Hsame & Hy' & Hs' & Hwm' & Hres).
  destruct (kv_loop_ok (S (kv_size it)) it Hwf ltac:(lia)) as (o & itx & Hloop & Hwfx & _). cbn zeta in Hres.
  rewrite (live_pairs_fuel (length m) (S (kv_size it))) by lia.
  destruct (live_pairs (S (kv_size it)) _ _ _ m) as [|p rest] eqn:Ep.
  { rewrite Hres. by rewrite take_nil. }
  destruct Hres as (n & -> & Hn & Hless & Hk). rewrite Hloop in Hk. injection Hk as -> ->. rewrite Hloop.
  destruct Hsame as (Eb & Eq & Et & Er & Ef).
  rewrite (IH (kv_emit it') m'); [|done|done|done|done|by rewrite <- Hf|cbn; lia|lia]. cbn [kv_remaining kv_emit kv_bounds kv_sequence kv_read_time_unix_ms].
  rewrite Eb, Eq, Et, Er. replace (Z.to_nat (kv_remaining it)) with (S (Z.to_nat (kv_remaining it - 1))) by lia.
  cbn [take map]. by rewrite (live_pairs_fuel n (length m')) by lia.
Qed.

Lemma scan_children (ss : list (list entry)) (bounds : ScanBounds) (q now limit : Z) :
  Forall key_sorted ss → Forall (Forall entry_wf) ss → versions_unique (concat ss) → 0 ≤ limit →
  ∃ it pairs, KvIterator_new (map (map Ok) ss) bounds q now limit = Ok it ∧
    kv_collect (S (length (concat ss))) it = Ok (map Ok (take (Z.to_nat limit) pairs)) ∧
    StronglySorted (λ x y, lex_cmp x.1 y.1 = Lt) pairs ∧
    ∀ u v, (u, v) ∈ pairs ↔ live_pair bounds q now (concat ss) u v.
Proof.
  intros Hss Hwf Huniq Hlim. destruct (merging_yields ss Hss) as (mit & m & Hnew & Hy & Hp & Hs).
  destruct (merging_new_ok (map (map Ok) ss)) as (mit' & Hnew' & Hmwf). rewrite Hnew in Hnew'. injection Hnew' as <-.
  unfold KvIterator_new. rewrite Hnew. eexists _, (live_pairs (length m) bounds q now m). split; [done|].
  assert (Forall entry_wf m) as Hwm by (rewrite Hp; by apply Forall_concat).
  assert (versions_unique m) as Hum.
  { eapply versions_unique_subset; [|exact Huniq]. intros e. by rewrite Hp. }
  destruct (live_pairs_spec (length m) bounds q now m Hs Hwm Hum ltac:(lia)) as [Hsort Hmem]. split; [|split; [done|]].
  - rewrite (kv_collect_yields _ _ m); try done. rewrite Hp. lia.
  - intros u v. rewrite Hmem. unfold live_pair. by setoid_rewrite Hp.
Qed.

(** ** Properties *)

(** The merge is the sorted union: from sorted children the merging iterator
    returns exactly their entries, in internal-key order, and then [None]. *)
Theorem merge_sorted_union (ss : list (list entry)) :
  Forall key_sorted ss →
  ∃ it m, InternalMergingIterator_new (map (map Ok) ss) = Ok it ∧ yields it m ∧
    m ≡ₚ concat ss ∧ key_sorted m.
Proof. apply merging_yields. Qed.

(** [C24] Scans are exact: over children that hold well-formed sorted entries with
    one version per key and sequence, the collected scan is the first [limit]
    pairs of the list that is strictly ordered by user key and holds [(u, v)]
    exactly when [u] lies in the bounds and the newest version of [u] visible at
    the sequence is a live value [v]. *)
Theorem scan_exact (ss : list (list entry)) (bounds : ScanBounds) (q now limit : Z) :
  Forall key_sorted ss → Forall (Forall entry_wf) ss → versions_unique (concat ss) → 0 ≤ limit →
  ∃ it pairs, KvIterator_new (map (map Ok) ss) bounds q now limit = Ok it ∧
    kv_collect (S (length (concat ss))) it = Ok (map Ok (take (Z.to_nat limit) pairs)) ∧
    StronglySorted (λ x y, lex_cmp x.1 y.1 = Lt) pairs ∧
    ∀ u v, (u, v) ∈ pairs ↔ live_pair bounds q now (concat ss) u v.
Proof. apply scan_children. Qed.

(** ** Witnesses *)

Definition sample_children : list (list entry) :=
  [ [mk_entry [97] 5 (VValue [1] None); mk_entry [99] 2 VTombstone];
    [mk_entry [97] 3 (VValue [2] None); mk_entry [98] 4 (VValue [7] (Some 100))] ].

Lemma sample_children_ok :
  Forall key_sorted sample_children ∧ Forall (Forall entry_wf) sample_children ∧
  versions_unique (concat sample_children).
Proof.
  split; [repeat constructor; by vm_compute|]. split.
  - repeat (constructor; [repeat (constructor; [apply entry_wf_mk; eval_done|]); constructor|]). constructor.
  - apply versions_unique_seqs. eval_done.
Qed.

(** An instance. *)
Lemma merge_sorted_union_witness :
  ∃ it m, InternalMergingIterator_new (map (map Ok) sample_children) = Ok it ∧ yields it m ∧
    m ≡ₚ concat sample_children ∧ key_sorted m.
Proof. apply (merge_sorted_union sample_children). apply sample_children_ok. Defined.

(** Witness of C24: at sequence 4 and time 50. *)
Lemma scan_exact_witness :
  ∃ it pairs, KvIterator_new (map (map Ok) sample_children) ScanBounds_all 4 50 10 = Ok it ∧
    kv_collect 5 it = Ok (map Ok (take (Z.to_nat 10) pairs)) ∧
    StronglySorted (λ x y, lex_cmp x.1 y.1 = Lt) pairs ∧
    ∀ u v, (u, v) ∈ pairs ↔ live_pair ScanBounds_all 4 50 (concat sample_children) u v.
Proof.
  destruct sample_children_ok as (H1 & H2 & H3).
  apply (scan_exact sample_children ScanBounds_all 4 50 10 H1 H2 H3). lia.
Defined.

Example sample_scan :
  match KvIterator_new (map (map Ok) sample_children) ScanBounds_all 4 50 10 with
  | Ok it => kv_collect 5 it
  | Err e => Err e
  end = Ok [Ok ([97], [2]); Ok ([98], [7])].
Proof. by vm_compute. Qed.
