(* ===== verification/Version.v ===== *)
(** * Versions of the live file set (src/crates/meteordb/src/version.rs)

    A version is the list of levels with the metadata of their SSTables; an edit
    deletes and adds files.  [Version_apply] is [Version::apply]: the theorems
    say which files the new version holds, that file numbers stay unique, that
    level 0 is ordered by age and that the files of a deeper level have disjoint
    user-key ranges, so that a read consults at most one of them. *)

From Stdlib Require Import ZArith Lia Sorting.Sorted.
From stdpp Require Import base list gmap strings.
From S2P Require Import Prelude InternalKey.

Local Open Scope Z_scope.

Definition NUM_LEVELS : Z := 7.

Record FileMeta : Type := {
  fm_number : Z;
  fm_file_size : Z;
  fm_smallest : InternalKey;
  fm_largest : InternalKey
}.

#[global] Instance InternalKey_eq_dec : EqDecision InternalKey.
Proof. solve_decision. Defined.
#[global] Instance FileMeta_eq_dec : EqDecision FileMeta.
Proof. solve_decision. Defined.

Definition FileMeta_new (number file_size : Z) (smallest largest : InternalKey) : result FileMeta :=
  if number =? 0 then Err (InvalidArgument "SSTable file number must be greater than zero")
  else if file_size =? 0 then
    Err (InvalidArgument "SSTable file size must be greater than zero")
  else
    match InternalKey_cmp smallest largest with
    | Gt => Err (InvalidArgument "SSTable smallest internal key must not follow its largest key")
    | _ => Ok {| fm_number := number; fm_file_size := file_size;
                 fm_smallest := smallest; fm_largest := largest |}
    end.

(** [Version]: one list of files per level. *)
Abbreviation Version := (list (list FileMeta)).

Definition Version_empty : Version := replicate (Z.to_nat NUM_LEVELS) [].

(** [files]: an index out of range panics. *)
Definition Version_files (v : Version) (level : Z) : result (list FileMeta) :=
  index_or_panic level v.

Record VersionEdit : Type := {
  ve_added_files : list (Z * FileMeta);
  ve_deleted_files : list (Z * Z);
  ve_next_file_number : option Z;
  ve_last_sequence : option Z;
  ve_log_number : option Z;
  ve_active_log_number : option Z;
  ve_wal_sequence : option Z
}.

#[global] Instance VersionEdit_eq_dec : EqDecision VersionEdit.
Proof. solve_decision. Defined.

Definition VersionEdit_new : VersionEdit :=
  {| ve_added_files := []; ve_deleted_files := []; ve_next_file_number := None;
     ve_last_sequence := None; ve_log_number := None; ve_active_log_number := None;
     ve_wal_sequence := None |}.

Definition add_file (e : VersionEdit) (level : Z) (file : FileMeta) : VersionEdit :=
  {| ve_added_files := ve_added_files e ++ [(level, file)];
     ve_deleted_files := ve_deleted_files e; ve_next_file_number := ve_next_file_number e;
     ve_last_sequence := ve_last_sequence e; ve_log_number := ve_log_number e;
     ve_active_log_number := ve_active_log_number e; ve_wal_sequence := ve_wal_sequence e |}.

Definition delete_file (e : VersionEdit) (level file_number : Z) : VersionEdit :=
  {| ve_added_files := ve_added_files e;
     ve_deleted_files := ve_deleted_files e ++ [(level, file_number)];
     ve_next_file_number := ve_next_file_number e;
     ve_last_sequence := ve_last_sequence e; ve_log_number := ve_log_number e;
     ve_active_log_number := ve_active_log_number e; ve_wal_sequence := ve_wal_sequence e |}.

Definition set_next_file_number (e : VersionEdit) (number : Z) : VersionEdit :=
  {| ve_added_files := ve_added_files e; ve_deleted_files := ve_deleted_files e;
     ve_next_file_number := Some number;
     ve_last_sequence := ve_last_sequence e; ve_log_number := ve_log_number e;
     ve_active_log_number := ve_active_log_number e; ve_wal_sequence := ve_wal_sequence e |}.

Definition set_last_sequence (e : VersionEdit) (sequence : Z) : VersionEdit :=
  {| ve_added_files := ve_added_files e; ve_deleted_files := ve_deleted_files e;
     ve_next_file_number := ve_next_file_number e;
     ve_last_sequence := Some sequence; ve_log_number := ve_log_number e;
     ve_active_log_number := ve_active_log_number e; ve_wal_sequence := ve_wal_sequence e |}.

Definition set_log_number (e : VersionEdit) (number : Z) : VersionEdit :=
  {| ve_added_files := ve_added_files e; ve_deleted_files := ve_deleted_files e;
     ve_next_file_number := ve_next_file_number e;
     ve_last_sequence := ve_last_sequence e; ve_log_number := Some number;
     ve_active_log_number := ve_active_log_number e; ve_wal_sequence := ve_wal_sequence e |}.

Definition set_active_log_number (e : VersionEdit) (number : Z) : VersionEdit :=
  {| ve_added_files := ve_added_files e; ve_deleted_files := ve_deleted_files e;
     ve_next_file_number := ve_next_file_number e;
     ve_last_sequence := ve_last_sequence e; ve_log_number := ve_log_number e;
     ve_active_log_number := Some number; ve_wal_sequence := ve_wal_sequence e |}.

Definition set_wal_sequence (e : VersionEdit) (sequence : Z) : VersionEdit :=
  {| ve_added_files := ve_added_files e; ve_deleted_files := ve_deleted_files e;
     ve_next_file_number := ve_next_file_number e;
     ve_last_sequence := ve_last_sequence e; ve_log_number := ve_log_number e;
     ve_active_log_number := ve_active_log_number e; ve_wal_sequence := Some sequence |}.

(** ** Applying an edit *)

Definition level_mut (v : Version) (level : Z) : result (list FileMeta) :=
  ok_or (get_at level v) (InvalidArgument "level is outside the supported range 0..7").

Definition put_level_files (v : Version) (level : Z) (files : list FileMeta) : Version :=
  <[Z.to_nat level := files]> v.

(** [position] and [remove] *)
Fixpoint remove_number (number : Z) (files : list FileMeta) : option (list FileMeta) :=
  match files with
  | [] => None
  | f :: files =>
    if fm_number f =? number then Some files
    else match remove_number number files with Some r => Some (f :: r) | None => None end
  end.

Definition apply_delete (v : Version) (d : Z * Z) : result Version :=
  let '(level, number) := d in
  let? files := level_mut v level in
  let? files := ok_or (remove_number number files)
    (InvalidArgument "cannot delete absent SSTable from level") in
  Ok (put_level_files v level files).

Definition check_new_file_number (v : Version) (number : Z) : result unit :=
  if existsb (λ f, fm_number f =? number) (concat v) then
    Err (InvalidArgument "SSTable file number is already live")
  else Ok tt.

Definition apply_add (v : Version) (a : Z * FileMeta) : result Version :=
  let '(level, file) := a in
  let? _ := check_new_file_number v (fm_number file) in
  let? files := level_mut v level in
  Ok (put_level_files v level (files ++ [file])).

(** The comparison functions of the two sorts. *)
Definition newest_first (a b : FileMeta) : comparison := fm_number b ?= fm_number a.
Definition by_smallest (a b : FileMeta) : comparison :=
  lex_cmp (ik_user_key (fm_smallest a)) (ik_user_key (fm_smallest b)).

Fixpoint validate_non_overlapping (files : list FileMeta) : result unit :=
  match files with
  | a :: ((b :: _) as rest) =>
    if lex_leb (ik_user_key (fm_smallest b)) (ik_user_key (fm_largest a)) then
      Err (InvalidArgument "level SSTable user-key ranges overlap")
    else validate_non_overlapping rest
  | _ => Ok tt
  end.

(** [for level in 1..NUM_LEVELS] *)
Definition sort_level (v : Version) (level : Z) : result Version :=
  let? files := index_or_panic level v in
  let files := sort_by by_smallest files in
  let? _ := validate_non_overlapping files in
  Ok (put_level_files v level files).

Definition Version_apply (v : Version) (edit : VersionEdit) : result Version :=
  let? v := try_fold apply_delete v (ve_deleted_files edit) in
  let? v := try_fold apply_add v (ve_added_files edit) in
  let? files := index_or_panic 0 v in
  let v := put_level_files v 0 (sort_by newest_first files) in
  try_fold sort_level v [1; 2; 3; 4; 5; 6].

(** ** Well-formed versions *)

Record meta_wf (f : FileMeta) : Prop := {
  mw_number : 0 < fm_number f ≤ U64_MAX;
  mw_size : 0 < fm_file_size f ≤ U64_MAX;
  mw_smallest : key_wf (fm_smallest f);
  mw_largest : key_wf (fm_largest f);
  mw_order : InternalKey_cmp (fm_smallest f) (fm_largest f) ≠ Gt
}.

Definition level_files (v : Version) (level : Z) : list FileMeta :=
  if level <? 0 then [] else default [] (v !! Z.to_nat level).

Definition file_numbers (v : Version) : list Z := map fm_number (concat v).

(** [a] lies wholly before [b]. *)
Definition range_before (a b : FileMeta) : Prop :=
  lex_cmp (ik_user_key (fm_largest a)) (ik_user_key (fm_smallest b)) = Lt.

Record version_wf (v : Version) : Prop := {
  vw_levels : length v = Z.to_nat NUM_LEVELS;
  vw_files : Forall meta_wf (concat v);
  vw_numbers : NoDup (file_numbers v);
  vw_newest : StronglySorted (λ a b, fm_number b < fm_number a) (level_files v 0);
  vw_disjoint : ∀ level, 1 ≤ level → StronglySorted range_before (level_files v level)
}.

(** What an edit asks for. *)
Definition edit_files_wf (e : VersionEdit) : Prop :=
  Forall (λ a : Z * FileMeta, meta_wf a.2) (ve_added_files e).

(** [u] lies in the user-key range of a file. *)
Definition file_covers (u : bytes) (f : FileMeta) : Prop :=
  lex_cmp (ik_user_key (fm_smallest f)) u ≠ Gt ∧ lex_cmp u (ik_user_key (fm_largest f)) ≠ Gt.

Lemma level_mut_spec v level files :
  level_mut v level = Ok files ↔ 0 ≤ level ∧ v !! Z.to_nat level = Some files.
Proof.
  unfold level_mut, get_at. destruct (Z.ltb_spec level 0); cbn; [split; [done|lia]|].
  destruct (v !! _); cbn; split; [intros [= ->]; done|intros [_ [= ->]]; done|done|by intros [_ ?]].
Qed.

Lemma level_files_lookup v level files :
  0 ≤ level → v !! Z.to_nat level = Some files → level_files v level = files.
Proof. intros H Hl. unfold level_files. rewrite (proj2 (Z.ltb_ge _ _)) by done. by rewrite Hl. Qed.

Lemma level_files_put v level files l :
  0 ≤ level < zlen v →
  level_files (put_level_files v level files) l = if l =? level then files else level_files v l.
Proof.
  intros Hl. unfold level_files, put_level_files, zlen in *.
  destruct (Z.ltb_spec l 0); destruct (Z.eqb_spec l level); try lia; subst; try done.
  - rewrite list_lookup_insert_eq; [done|lia].
  - rewrite list_lookup_insert_ne; [done|lia].
Qed.

Lemma lookup_zlen {A} (v : list A) level x : 0 ≤ level → v !! Z.to_nat level = Some x → level < zlen v.
Proof. intros H Hl. apply lookup_lt_Some in Hl. unfold zlen. lia. Qed.

(** Replacing one level, on the flattened version. *)
Lemma concat_put_perm (v : Version) level old new :
  v !! Z.to_nat level = Some old →
  concat (put_level_files v level new) ++ old ≡ₚ concat v ++ new.
Proof.
  intros Hl. unfold put_level_files. rewrite insert_take_drop by (by eapply lookup_lt_Some).
  rewrite <- (take_drop_middle v _ old Hl) at 3. rewrite !concat_app. cbn [concat]. solve_Permutation.
Qed.

Lemma concat_level_elem v level f : f ∈ level_files v level → f ∈ concat v.
Proof.
  unfold level_files. destruct (level <? 0); [by intros ?%elem_of_nil|].
  destruct (v !! _) as [files|] eqn:E; cbn; [|by intros ?%elem_of_nil]. intros Hf.
  apply list_elem_of_In, in_concat. exists files. split; apply list_elem_of_In; [|done].
  by eapply list_elem_of_lookup_2.
Qed.

Lemma concat_elem_level v f : f ∈ concat v → ∃ level, 0 ≤ level < zlen v ∧ f ∈ level_files v level.
Proof.
  intros Hf. apply list_elem_of_In, in_concat in Hf as (files & Hin & Hf). apply list_elem_of_In in Hin, Hf.
  apply list_elem_of_lookup in Hin as [i Hi]. exists (Z.of_nat i).
  pose proof (lookup_lt_Some _ _ _ Hi). unfold zlen. split; [lia|].
  rewrite (level_files_lookup v (Z.of_nat i) files); [done|lia|by rewrite Nat2Z.id].
Qed.

(** ** Deletions *)

Lemma remove_number_spec n files r :
  remove_number n files = Some r →
  ∃ f, fm_number f = n ∧ files ≡ₚ f :: r.
Proof.
  revert r. induction files as [|g files IH]; intros r H; cbn in H; [done|].
  destruct (Z.eqb_spec (fm_number g) n) as [Hn|_].
  - injection H as <-. by exists g.
  - destruct (remove_number n files) as [r'|]; [|done]. injection H as <-.
    destruct (IH r' eq_refl) as (f & Hf & Hp). exists f. split; [done|]. rewrite Hp. apply Permutation_swap.
Qed.

Lemma apply_delete_spec v level n v' :
  apply_delete v (level, n) = Ok v' →
  ∃ f, fm_number f = n ∧ concat v ≡ₚ f :: concat v' ∧ length v' = length v ∧
    (∀ l, l ≠ level → level_files v' l = level_files v l) ∧
    level_files v level ≡ₚ f :: level_files v' level.
Proof.
  unfold apply_delete. destruct (level_mut v level) as [files|] eqn:El; [|done].
  apply level_mut_spec in El as [Hl Hlook]. destruct (remove_number n files) as [r|] eqn:Er; cbn; [|done].
  intros [= <-]. destruct (remove_number_spec _ _ _ Er) as (f & Hf & Hp).
  pose proof (lookup_zlen _ _ _ Hl Hlook) as Hlen.
  exists f. split; [done|]. split.
  { pose proof (concat_put_perm v level files r Hlook) as Hperm. rewrite Hp in Hperm.
    apply (Permutation_app_inv_r r). rewrite <- Hperm. solve_Permutation. }
  split; [unfold put_level_files; by rewrite length_insert|]. split.
  - intros l Hne. rewrite level_files_put by lia. by rewrite (proj2 (Z.eqb_neq _ _)).
  - rewrite level_files_put, Z.eqb_refl by lia. by rewrite (level_files_lookup _ _ _ Hl Hlook).
Qed.

(** Deleting keeps exactly the files that were not named. *)
Lemma deletes_spec ds v v' :
  NoDup (file_numbers v) → try_fold apply_delete v ds = Ok v' →
  length v' = length v ∧ NoDup (file_numbers v') ∧
  (∀ f, f ∈ concat v' → f ∈ concat v) ∧
  ∀ l f, f ∈ level_files v' l ↔ f ∈ level_files v l ∧ (l, fm_number f) ∉ ds.
Proof.
  revert v. induction ds as [|[level n] ds IH]; intros v Hnd H; cbn [try_fold] in H.
  { injection H as <-. do 3 (split; [done|]). intros l f. rewrite elem_of_nil. tauto. }
  destruct (apply_delete v (level, n)) as [v1|] eqn:E; [|done].
  destruct (apply_delete_spec _ _ _ _ E) as (g & Hg & Hc & Hlen & Hother & Hsame).
  assert (NoDup (fm_number g :: file_numbers v1)) as Hnd1.
  { unfold file_numbers in Hnd. rewrite Hc in Hnd. exact Hnd. }
  apply NoDup_cons in Hnd1 as [Hgn Hnd1].
  destruct (IH v1 Hnd1 H) as (Hlen' & Hnd' & Hsub & Hmem). split; [congruence|]. split; [done|].
  split. { intros f Hf. rewrite Hc. right. by apply Hsub. }
  intros l f. rewrite Hmem. destruct (decide (l = level)) as [->|Hne].
  - rewrite Hsame, elem_of_cons, not_elem_of_cons. split.
    + intros [Hf Hd]. split; [by right|]. split; [|done]. intros [= Hn]. apply Hgn.
      rewrite Hg, <- Hn. apply list_elem_of_fmap_2. by eapply concat_level_elem.
    + intros [[->|Hf] [Hn Hd]]; [by rewrite Hg in Hn|]. done.
  - rewrite (Hother l Hne), not_elem_of_cons. split; [|tauto]. intros [? ?]. split; [done|].
    split; [|done]. by intros [= ? ?].
Qed.

(** ** Additions *)

Lemma apply_add_spec v level f v' :
  apply_add v (level, f) = Ok v' →
  (fm_number f ∉ file_numbers v) ∧ concat v' ≡ₚ f :: concat v ∧ length v' = length v ∧
  0 ≤ level < zlen v ∧
  ∀ l g, g ∈ level_files v' l ↔ g ∈ level_files v l ∨ (l = level ∧ g = f).
Proof.
  unfold apply_add, check_new_file_number. destruct (existsb _ _) eqn:Ee; [done|].
  destruct (level_mut v level) as [files|] eqn:El; [|done]. intros [= <-].
  apply level_mut_spec in El as [Hl Hlook]. pose proof (lookup_zlen _ _ _ Hl Hlook) as Hlen.
  split.
  { intros Hin. apply list_elem_of_fmap in Hin as (g & Hg & Hin). 
    enough (existsb (λ f0, fm_number f0 =? fm_number f) (concat v) = true) by congruence.
    apply existsb_exists. exists g. split; [by apply list_elem_of_In|]. by apply Z.eqb_eq. }
  split.
  { pose proof (concat_put_perm v level files (files ++ [f]) Hlook) as Hp.
    apply (Permutation_app_inv_r files). rewrite Hp. solve_Permutation. }
  split; [unfold put_level_files; by rewrite length_insert|]. split; [done|].
  intros l g. rewrite level_files_put by lia. destruct (Z.eqb_spec l level) as [->|Hne].
  - rewrite (level_files_lookup _ _ _ Hl Hlook), elem_of_app, list_elem_of_singleton. tauto.
  - split; [tauto|]. by intros [?|[? _]].
Qed.

Lemma adds_spec as_ v v' :
  NoDup (file_numbers v) → try_fold apply_add v as_ = Ok v' →
  length v' = length v ∧ NoDup (file_numbers v') ∧
  concat v' ≡ₚ rev (map snd as_) ++ concat v ∧
  ∀ l f, f ∈ level_files v' l ↔ f ∈ level_files v l ∨ (l, f) ∈ as_.
Proof.
  revert v. induction as_ as [|[level f] as_ IH]; intros v Hnd H; cbn [try_fold] in H.
  { injection H as <-. do 3 (split; [done|]). intros l f. rewrite elem_of_nil. tauto. }
  destruct (apply_add v (level, f)) as [v1|] eqn:E; [|done].
  destruct (apply_add_spec _ _ _ _ E) as (Hn & Hc & Hlen & _ & Hmem1).
  assert (NoDup (file_numbers v1)) as Hnd1.
  { unfold file_numbers. rewrite Hc. cbn. by constructor. }
  destruct (IH v1 Hnd1 H) as (Hlen' & Hnd' & Hc' & Hmem). split; [congruence|]. split; [done|].
  split. { rewrite Hc', Hc. cbn [map rev snd]. rewrite <- app_assoc. done. }
  intros l g. rewrite Hmem, Hmem1, elem_of_cons. split; [|intuition congruence].
  intros [[?|[-> ->]]|?]; auto.
Qed.

(** ** Sorting the levels *)

Lemma meta_user_range f :
  meta_wf f → lex_cmp (ik_user_key (fm_smallest f)) (ik_user_key (fm_largest f)) ≠ Gt.
Proof.
  intros Hf. destruct (mw_smallest _ Hf) as (us & ss & ks & Hus & Hss & Hs).
  destruct (mw_largest _ Hf) as (ul & sl & kl & Hul & Hsl & Hl).
  pose proof (mw_order _ Hf) as Ho. rewrite Hs, Hl in *. rewrite mk_key_cmp in Ho by done. cbn.
  unfold version_cmp in Ho. by destruct (lex_cmp us ul).
Qed.

Lemma validate_sorted files :
  Forall meta_wf files → validate_non_overlapping files = Ok tt → StronglySorted range_before files.
Proof.
  induction files as [|a files IH]; intros Hwf H; [constructor|].
  apply Forall_cons in Hwf as [Ha Hwf]. destruct files as [|b rest]; [repeat constructor|].
  cbn [validate_non_overlapping] in H. destruct (lex_leb _ _) eqn:E; [done|].
  specialize (IH Hwf H). assert (range_before a b) as Hab.
  { unfold range_before, lex_leb in *. rewrite (cmp_antisym (cmp := lex_cmp) (ik_user_key (fm_smallest b))).
    by destruct (lex_cmp (ik_user_key (fm_smallest b)) _). }
  constructor; [done|]. constructor; [done|].
  apply StronglySorted_inv in IH as [_ Hall]. eapply Forall_impl; [exact Hall|].
  intros c Hbc. unfold range_before in *. apply Forall_cons in Hwf as [Hb _].
  apply (cmp_lt_le (cmp := lex_cmp) _ (ik_user_key (fm_smallest b))); [done|].
  apply (cmp_le_trans (cmp := lex_cmp) _ (ik_user_key (fm_largest b))); [by apply meta_user_range|by rewrite Hbc].
Qed.

Lemma sort_level_spec v level v' :
  sort_level v level = Ok v' → 0 ≤ level →
  length v' = length v ∧ concat v' ≡ₚ concat v ∧ (∀ l, level_files v' l ≡ₚ level_files v l) ∧
  (∀ l, l ≠ level → level_files v' l = level_files v l) ∧
  validate_non_overlapping (level_files v' level) = Ok tt.
Proof.
  intros H Hl. unfold sort_level, index_or_panic in H. destruct (get_at level v) as [files|] eqn:Eg; cbn [ok_or] in H; [|done].
  destruct (validate_non_overlapping _) as [[]|] eqn:Ev; [|done]. injection H as <-.
  assert (v !! Z.to_nat level = Some files) as Hlook.
  { unfold get_at in Eg. by rewrite (proj2 (Z.ltb_ge _ _)) in Eg by done. }
  pose proof (lookup_zlen _ _ _ Hl Hlook) as Hlen.
  split; [unfold put_level_files; by rewrite length_insert|]. split.
  { pose proof (concat_put_perm v level files (sort_by by_smallest files) Hlook) as Hp.
    apply (Permutation_app_inv_r files). rewrite Hp. by rewrite sort_by_perm. }
  split; [|split].
  - intros l. rewrite level_files_put by lia. destruct (Z.eqb_spec l level) as [->|]; [|done].
    by rewrite sort_by_perm, (level_files_lookup _ _ _ Hl Hlook).
  - intros l Hne. rewrite level_files_put by lia. by rewrite (proj2 (Z.eqb_neq _ _)).
  - by rewrite level_files_put, Z.eqb_refl by lia.
Qed.

Lemma sort_levels_spec levels v v' :
  try_fold sort_level v levels = Ok v' → Forall (λ l, 0 ≤ l) levels → NoDup levels →
  length v' = length v ∧ concat v' ≡ₚ concat v ∧ (∀ l, level_files v' l ≡ₚ level_files v l) ∧
  (∀ l, l ∉ levels → level_files v' l = level_files v l) ∧
  (∀ l, l ∈ levels → validate_non_overlapping (level_files v' l) = Ok tt).
Proof.
  revert v. induction levels as [|l0 levels IH]; intros v H Hpos Hnd; cbn [try_fold] in H.
  { injection H as <-. do 4 (split; [done|]). by intros l ?%elem_of_nil. }
  destruct (sort_level v l0) as [v1|] eqn:E; [|done].
  apply Forall_cons in Hpos as [Hl0 Hpos]. apply NoDup_cons in Hnd as [Hni Hnd].
  destruct (sort_level_spec _ _ _ E Hl0) as (Hlen & Hc & Hp & Ho & Hv).
  destruct (IH v1 H Hpos Hnd) as (Hlen' & Hc' & Hp' & Ho' & Hv').
  split; [congruence|]. split; [by rewrite Hc', Hc|]. split; [intros l; by rewrite Hp', Hp|]. split.
  - intros l Hl. apply not_elem_of_cons in Hl as [Hne Hl]. by rewrite Ho', Ho.
  - intros l Hl. apply elem_of_cons in Hl as [->|Hl]; [by rewrite Ho'|by apply Hv'].
Qed.

Lemma newest_first_sorted files :
  NoDup (map fm_number files) →
  StronglySorted (λ a b, fm_number b < fm_number a) (sort_by newest_first files).
Proof.
  intros Hnd. assert (NoDup (map fm_number (sort_by newest_first files))) as Hnd'
    by (rewrite sort_by_perm; exact Hnd).
  assert (StronglySorted (λ a b, newest_first a b ≠ Gt) (sort_by newest_first files)) as Hs.
  { apply sort_by_sorted; unfold newest_first.
    - intros x y Hx. rewrite Z.compare_gt_iff in Hx. intros Hy. rewrite Z.compare_gt_iff in Hy. lia.
    - intros x y z. rewrite !Z.compare_ngt_iff. lia. }
  induction Hs as [|a l Hs IH Hall]; [constructor|]. apply NoDup_cons in Hnd' as [Hni Hnd'].
  constructor; [by apply IH|]. apply Forall_forall. intros b Hb. rewrite Forall_forall in Hall.
  specialize (Hall b Hb). unfold newest_first in Hall. rewrite Z.compare_ngt_iff in Hall.
  assert (fm_number a ≠ fm_number b); [|lia]. intros Heq. apply Hni. rewrite Heq. by apply list_elem_of_fmap_2.
Qed.

Lemma level_numbers_nodup v level : NoDup (file_numbers v) → NoDup (map fm_number (level_files v level)).
Proof.
  unfold level_files. destruct (level <? 0); [constructor|].
  destruct (v !! Z.to_nat level) as [files|] eqn:E; [|constructor]. cbn. intros Hnd.
  unfold file_numbers in Hnd. rewrite <- (take_drop_middle v _ _ E), concat_app in Hnd. cbn [concat] in Hnd.
  rewrite !map_app in Hnd. apply NoDup_app in Hnd as (_ & _ & Hnd). by apply NoDup_app in Hnd as (Hnd & _).
Qed.

(** The two sorting phases permute the files. *)
Lemma sort_phase_spec v2 files v' :
  get_at 0 v2 = Some files →
  try_fold sort_level (put_level_files v2 0 (sort_by newest_first files)) [1; 2; 3; 4; 5; 6] = Ok v' →
  length v' = length v2 ∧ concat v' ≡ₚ concat v2 ∧ (∀ l, level_files v' l ≡ₚ level_files v2 l) ∧
  level_files v' 0 = sort_by newest_first files ∧ level_files v2 0 = files ∧
  ∀ l, l ∈ [1; 2; 3; 4; 5; 6] → validate_non_overlapping (level_files v' l) = Ok tt.
Proof.
  intros Eg H. assert (v2 !! Z.to_nat 0 = Some files) as Hlook by exact Eg.
  pose proof (lookup_zlen v2 0 files ltac:(lia) Hlook) as Hz.
  destruct (sort_levels_spec _ _ _ H) as (Hlen4 & Hc4 & Hp4 & Ho4 & Hv4);
    [repeat constructor; lia|apply (bool_decide_unpack _); by vm_compute|].
  split; [rewrite Hlen4; unfold put_level_files; by rewrite length_insert|]. split.
  { rewrite Hc4. pose proof (concat_put_perm v2 0 files (sort_by newest_first files) Hlook) as Hp.
    apply (Permutation_app_inv_r files). rewrite Hp. by rewrite sort_by_perm. }
  pose proof (level_files_lookup v2 0 files ltac:(lia) Hlook) as H0. split; [|split; [|done]].
  - intros l. rewrite Hp4, level_files_put by lia. destruct (Z.eqb_spec l 0) as [->|]; [|done].
    by rewrite sort_by_perm, H0.
  - rewrite Ho4 by (apply (bool_decide_unpack _); by vm_compute). by rewrite level_files_put by lia.
Qed.

(** No file comes from elsewhere. *)
Lemma version_apply_subset v edit v' f :
  Version_apply v edit = Ok v' → f ∈ concat v' →
  f ∈ concat v ∨ f ∈ map snd (ve_added_files edit).
Proof.
  intros H Hf. unfold Version_apply in H.
  destruct (try_fold apply_delete v _) as [v1|] eqn:E1; [|done].
  destruct (try_fold apply_add v1 _) as [v2|] eqn:E2; [|done].
  unfold index_or_panic in H. destruct (get_at 0 v2) as [files|] eqn:Eg; cbn [ok_or] in H; [|done].
  destruct (sort_phase_spec _ _ _ Eg H) as (_ & Hc & _). rewrite Hc in Hf. clear H Hc Eg.
  assert (f ∈ concat v1 ∨ f ∈ map snd (ve_added_files edit)) as [H|H]; [| |by right].
  - clear E1. revert v1 E2. induction (ve_added_files edit) as [|[l g] as_ IH]; intros v1 E2; cbn [try_fold] in E2.
    { injection E2 as ->. by left. }
    destruct (apply_add v1 (l, g)) as [v3|] eqn:E3; [|done].
    destruct (apply_add_spec _ _ _ _ E3) as (_ & Hp & _). destruct (IH v3 E2) as [Hin|Hin].
    + rewrite Hp, elem_of_cons in Hin. cbn. rewrite elem_of_cons. tauto.
    + right. by right.
  - left. clear E2 Hf. revert v E1. induction (ve_deleted_files edit) as [|[l m] ds IH]; intros v E1; cbn [try_fold] in E1.
    { by injection E1 as ->. }
    destruct (apply_delete v (l, m)) as [v3|] eqn:E3; [|done].
    destruct (apply_delete_spec _ _ _ _ E3) as (g & _ & Hp & _). rewrite Hp. right. by apply IH.
Qed.

Lemma version_apply_spec v edit v' :
  version_wf v → edit_files_wf edit → Version_apply v edit = Ok v' →
  version_wf v' ∧
  ∀ level f, f ∈ level_files v' level ↔
    (f ∈ level_files v level ∧ (level, fm_number f) ∉ ve_deleted_files edit) ∨
    (level, f) ∈ ve_added_files edit.
Proof.
  intros [Hlen Hfiles Hnum Hnew Hdis] Hedit H. unfold Version_apply in H.
  destruct (try_fold apply_delete v _) as [v1|] eqn:E1; [|done].
  destruct (deletes_spec _ _ _ Hnum E1) as (Hlen1 & Hnd1 & Hsub1 & Hmem1).
  destruct (try_fold apply_add v1 _) as [v2|] eqn:E2; [|done].
  destruct (adds_spec _ _ _ Hnd1 E2) as (Hlen2 & Hnd2 & Hc2 & Hmem2).
  unfold index_or_panic in H. destruct (get_at 0 v2) as [files|] eqn:Eg; cbn [ok_or] in H; [|done].
  destruct (sort_phase_spec _ _ _ Eg H) as (Hlen4 & Hc4 & Hp4 & H0 & Hfiles0 & Hv4).
  assert (length v' = Z.to_nat NUM_LEVELS) as Hlen' by congruence.
  assert (Forall meta_wf (concat v')) as Hfiles'.
  { rewrite Hc4, Hc2. apply Forall_app. split.
    - apply Forall_rev. unfold edit_files_wf in Hedit. by rewrite Forall_fmap.
    - apply Forall_forall. intros f Hf. rewrite Forall_forall in Hfiles. auto. }
  assert (NoDup (file_numbers v')) as Hnum' by (unfold file_numbers; rewrite Hc4; exact Hnd2).
  split.
  - split; [done|done|done| |].
    + rewrite H0. apply newest_first_sorted. rewrite <- Hfiles0. by apply level_numbers_nodup.
    + intros level Hl. destruct (decide (level ≤ 6)) as [Hle|Hgt].
      * apply validate_sorted.
        { apply Forall_forall. intros f Hf. rewrite Forall_forall in Hfiles'. apply Hfiles'.
          by eapply concat_level_elem. }
        apply Hv4. rewrite !elem_of_cons, elem_of_nil. lia.
      * unfold level_files. rewrite (proj2 (Z.ltb_ge _ _)) by lia. rewrite lookup_ge_None_2; [constructor|].
        rewrite Hlen'. unfold NUM_LEVELS. lia.
  - intros level f. rewrite Hp4, Hmem2, Hmem1. done.
Qed.

(** ** Errors *)

(** The computation returns a value with [P] or rejects its argument. *)
Definition accepts {A} (P : A → Prop) (r : result A) : Prop :=
  match r with Ok a => P a | Err e => ∃ m, e = InvalidArgument m end.

Lemma accepts_bind {A B} (P : A → Prop) (Q : B → Prop) r (k : A → result B) :
  accepts P r → (∀ a, P a → accepts Q (k a)) → accepts Q (let? a := r in k a).
Proof. destruct r; cbn; auto. Qed.

Lemma try_fold_accepts {A B} (f : B → A → result B) (P : B → Prop) l b :
  (∀ b a, a ∈ l → P b → accepts P (f b a)) → P b → accepts P (try_fold f b l).
Proof.
  revert b. induction l as [|a l IH]; intros b Hf Hb; cbn [try_fold]; [exact Hb|].
  apply (accepts_bind P); [apply Hf; [by left|done]|]. intros b' Hb'. apply IH; [|done].
  intros b0 a0 Ha0. apply Hf. by right.
Qed.

Lemma validate_accepts files : accepts (λ _, True) (validate_non_overlapping files).
Proof.
  induction files as [|a [|b rest] IH]; [exact I|exact I|]. cbn [validate_non_overlapping].
  destruct (lex_leb _ _); [cbn; eauto|exact IH].
Qed.

Definition seven_levels (v : Version) : Prop := length v = Z.to_nat NUM_LEVELS.

Lemma seven_put v level files : seven_levels v → seven_levels (put_level_files v level files).
Proof. intros H. unfold seven_levels, put_level_files. by rewrite length_insert. Qed.
#[local] Hint Resolve seven_put : mdb.

Lemma level_of_seven v level :
  seven_levels v → 0 ≤ level < NUM_LEVELS → ∃ x, get_at level v = Some x.
Proof.
  intros Hv Hl. unfold get_at. rewrite (proj2 (Z.ltb_ge _ _)) by lia.
  apply lookup_lt_is_Some_2. unfold seven_levels, NUM_LEVELS in *. lia.
Qed.

Lemma sort_level_accepts v level :
  seven_levels v → 0 ≤ level < NUM_LEVELS → accepts seven_levels (sort_level v level).
Proof.
  intros Hv Hl. unfold sort_level, index_or_panic. destruct (level_of_seven v level Hv Hl) as [fs ->].
  cbn [ok_or]. apply (accepts_bind (λ _, True)); [apply validate_accepts|]. intros _ _. by apply seven_put.
Qed.

Lemma version_apply_accepts v edit : seven_levels v → accepts seven_levels (Version_apply v edit).
Proof.
  intros Hv. unfold Version_apply.
  apply (accepts_bind seven_levels).
  { apply try_fold_accepts; [|done]. intros b [level n] _ Hb. unfold apply_delete, level_mut.
    destruct (get_at level b); cbn; [|eauto]. destruct (remove_number n l); cbn; eauto with mdb. }
  intros v1 Hv1. apply (accepts_bind seven_levels).
  { apply try_fold_accepts; [|done]. intros b [level f] _ Hb. unfold apply_add, level_mut, check_new_file_number.
    destruct (existsb _ _); [cbn; eauto|]. destruct (get_at level b); cbn; eauto with mdb. }
  intros v2 Hv2. unfold index_or_panic.
  destruct (level_of_seven v2 0 Hv2 ltac:(unfold NUM_LEVELS; lia)) as [files ->]. cbn [ok_or].
  apply try_fold_accepts; [|by apply seven_put]. intros b level Hl Hb. apply sort_level_accepts; [done|].
  rewrite !elem_of_cons, elem_of_nil in Hl. unfold NUM_LEVELS. lia.
Qed.

Lemma version_empty_wf : version_wf Version_empty.
Proof.
  assert (∀ l, level_files Version_empty l = []) as Hnil.
  { intros l. unfold level_files. destruct (l <? 0); [done|].
    destruct (Version_empty !! Z.to_nat l) as [x|] eqn:E; [|done].
    apply lookup_replicate in E as [-> _]. done. }
  split; [done|constructor|constructor|rewrite Hnil; constructor|]. intros l _. rewrite Hnil. constructor.
Qed.

Lemma range_before_covers a b u : meta_wf b → range_before a b → file_covers u a → file_covers u b → False.
Proof.
  intros Hb Hab [_ Ha] [Hb' _]. unfold range_before in Hab.
  pose proof (cmp_le_lt (cmp := lex_cmp) _ _ _ Ha Hab) as Hlt.
  by apply Hb', (cmp_lt_gt (cmp := lex_cmp)).
Qed.

Lemma level_unique v level u f g :
  version_wf v → 1 ≤ level → f ∈ level_files v level → g ∈ level_files v level →
  file_covers u f → file_covers u g → f = g.
Proof.
  intros Hv Hl Hf Hg Huf Hug. pose proof (vw_disjoint _ Hv level Hl) as Hs.
  assert (∀ x, x ∈ level_files v level → meta_wf x) as Hm.
  { intros x Hx. apply concat_level_elem in Hx. pose proof (vw_files _ Hv) as H.
    rewrite Forall_forall in H. auto. }
  revert Hm Hf Hg. induction Hs as [|a l Hs IH Hall]; intros Hm Hf Hg; [by apply elem_of_nil in Hf|].
  rewrite Forall_forall in Hall.
  apply elem_of_cons in Hf as [->|Hf], Hg as [->|Hg]; [done| | |].
  - destruct (range_before_covers a g u); auto. apply Hm. by right.
  - destruct (range_before_covers a f u); auto. apply Hm. by right.
  - apply IH; auto. intros x Hx. apply Hm. by right.
Qed.

(** ** Properties *)

(** [C32] Applying an edit: a well-formed version becomes a well-formed version
    (unique file numbers, level 0 newest first, deeper levels with disjoint
    ranges) that holds exactly the files that were live and not deleted, and the
    added ones; an edit that cannot be applied is refused as an invalid argument,
    never by a panic. *)
Theorem version_apply_correct (v : Version) (edit : VersionEdit) :
  version_wf v → edit_files_wf edit →
  match Version_apply v edit with
  | Ok v' => version_wf v' ∧
      ∀ level f, f ∈ level_files v' level ↔
        (f ∈ level_files v level ∧ (level, fm_number f) ∉ ve_deleted_files edit) ∨
        (level, f) ∈ ve_added_files edit
  | Err e => ∃ m, e = InvalidArgument m
  end.
Proof.
  intros Hv He. pose proof (version_apply_accepts v edit (vw_levels _ Hv)) as Hacc.
  destruct (Version_apply v edit) as [v'|e] eqn:E; [by apply version_apply_spec|exact Hacc].
Qed.

(** Reads below level 0 need one file per level: in every version that edits
    build from the empty one, two files of a level above 0 whose ranges contain
    the same user key are the same file. *)
Theorem version_one_file_per_level (edits : list VersionEdit) (v : Version) (level : Z)
    (u : bytes) (f g : FileMeta) :
  Forall edit_files_wf edits → try_fold Version_apply Version_empty edits = Ok v →
  1 ≤ level → f ∈ level_files v level → g ∈ level_files v level →
  file_covers u f → file_covers u g → f = g.
Proof.
  intros He Hv. assert (version_wf v) as Hwf; [|by apply level_unique].
  revert Hv. generalize version_empty_wf. generalize Version_empty. intros v0 Hv0 Hv. revert v0 Hv0 Hv.
  induction He as [|e edits He _ IH]; intros v0 Hv0 Hv; cbn in Hv; [by injection Hv as <-|].
  destruct (Version_apply v0 e) as [v1|] eqn:E; [|done].
  destruct (version_apply_spec _ _ _ Hv0 He E) as [Hv1 _]. by apply (IH v1).
Qed.

(** ** Witnesses *)

Definition sample_meta (n : Z) (a b : bytes) : FileMeta :=
  {| fm_number := n; fm_file_size := 100; fm_smallest := mk_key a 9 Value; fm_largest := mk_key b 3 Value |}.

Lemma sample_meta_wf n a b :
  0 < n ≤ U64_MAX → bytes_ok a → bytes_ok b → InternalKey_cmp (mk_key a 9 Value) (mk_key b 3 Value) ≠ Gt →
  meta_wf (sample_meta n a b).
Proof.
  intros. split; cbn; [done|unfold U64_MAX; lia|apply mk_key_wf; [done|eval_done]..|done].
Qed.

Definition sample_edit : VersionEdit :=
  add_file (add_file VersionEdit_new 1 (sample_meta 7 [99] [100])) 1 (sample_meta 5 [97] [98]).

Lemma sample_edit_wf : edit_files_wf sample_edit.
Proof. repeat constructor; cbn; try lia; try (unfold U64_MAX; lia); try (apply mk_key_wf; eval_done); by vm_compute. Qed.

(** Witness of C32. *)
Lemma version_apply_correct_witness :
  match Version_apply Version_empty sample_edit with
  | Ok v' => version_wf v' ∧
      ∀ level f, f ∈ level_files v' level ↔
        (f ∈ level_files Version_empty level ∧ (level, fm_number f) ∉ ve_deleted_files sample_edit) ∨
        (level, f) ∈ ve_added_files sample_edit
  | Err e => ∃ m, e = InvalidArgument m
  end.
Proof. apply (version_apply_correct Version_empty sample_edit); [apply version_empty_wf|apply sample_edit_wf]. Defined.

(** An instance. *)
Lemma version_one_file_per_level_witness :
  sample_meta 5 [97] [98] = sample_meta 5 [97] [98].
Proof.
  apply (version_one_file_per_level [sample_edit]
    [[]; [sample_meta 5 [97] [98]; sample_meta 7 [99] [100]]; []; []; []; []; []] 1 [97; 1]).
  - constructor; [apply sample_edit_wf|constructor].
  - by vm_compute.
  - lia.
  - cbn. by left.
  - cbn. by left.
  - by split; vm_compute.
  - by split; vm_compute.
Defined.
