(* ===== verification/Wal.v ===== *)
(** * The write-ahead log (src/crates/meteordb/src/wal.rs)

    [WalWriter] over the framing layer, [replay_wal_stream] as a [FrameReader],
    [replay_wal] and [inspect_wal] as its two clients.  A file is its bytes; a
    writer also records how many of them have been synchronized, so that a crash
    is any prefix at least that long. *)

From Stdlib Require Import ZArith Lia.
From stdpp Require Import base list gmap strings.
From S2P Require Import Prelude Checksum Framing Batch.

Local Open Scope Z_scope.

Definition LOGICAL_HEADER_BYTES : Z := 1 + 8 + 4.
Definition MAX_OPERATION_OVERHEAD_BYTES : Z := 1 + 4 + 4 + 1 + 8.

(** [Durability] of options.rs. *)
Inductive Durability : Type := Sync | Buffered.

#[global] Instance Durability_eq_dec : EqDecision Durability.
Proof. solve_decision. Defined.

Record RecoveredBatch : Type := { rb_sequence : Z; rb_batch : WriteBatch }.

#[global] Instance RecoveredBatch_eq_dec : EqDecision RecoveredBatch.
Proof. solve_decision. Defined.

Record WalInspection : Type := {
  wi_format_version : Z;
  wi_file_bytes : Z;
  wi_batches : Z;
  wi_operations : Z;
  wi_first_sequence : option Z;
  wi_last_sequence : option Z
}.

(** [file] and [block_offset] are the framing state; [ww_synced] counts the bytes
    that [sync_all] has made durable. *)
Record WalWriter : Type := {
  ww_frames : FrameWriter;
  ww_synced : Z;
  ww_max_batch_bytes : Z;
  ww_max_logical_record_bytes : Z
}.

Definition wal_corruption (detail : string) : error := Corruption "WAL" detail.

Definition encoded_record_limit (max_batch_bytes : Z) : result Z :=
  if max_batch_bytes =? 0 then
    Err (InvalidArgument "max_batch_bytes must be greater than zero")
  else
    ok_or
      (match checked_mul max_batch_bytes MAX_OPERATION_OVERHEAD_BYTES with
       | Some overhead =>
         match checked_add overhead max_batch_bytes with
         | Some with_payload => checked_add with_payload LOGICAL_HEADER_BYTES
         | None => None
         end
       | None => None
       end)
      (InvalidArgument "max_batch_bytes causes the encoded WAL record limit to overflow").

Section Wal.
  Context `{C : Crc32c}.

(** [create_with_fs] once the file system has created an empty file. *)
Definition WalWriter_create (max_batch_bytes : Z) : result WalWriter :=
  let? max_logical_record_bytes := encoded_record_limit max_batch_bytes in
  Ok {| ww_frames := {| fw_file := []; fw_offset := 0 |};
        ww_synced := 0;
        ww_max_batch_bytes := max_batch_bytes;
        ww_max_logical_record_bytes := max_logical_record_bytes |}.

Definition WalWriter_sync (w : WalWriter) : WalWriter :=
  {| ww_frames := ww_frames w;
     ww_synced := zlen (fw_file (ww_frames w));
     ww_max_batch_bytes := ww_max_batch_bytes w;
     ww_max_logical_record_bytes := ww_max_logical_record_bytes w |}.

Definition WalWriter_append (w : WalWriter) (sequence : Z) (batch : WriteBatch)
    (durability : Durability) : result WalWriter :=
  if WriteBatch_is_empty batch then
    Err (InvalidArgument "cannot append an empty write batch")
  else if ww_max_batch_bytes w <? approximate_bytes batch then
    Err (InvalidArgument "write batch payload exceeds max_batch_bytes")
  else
    let? logical := encode_batch sequence batch in
    if ww_max_logical_record_bytes w <? zlen logical then
      Err (InvalidArgument "encoded write batch exceeds the checked WAL limit")
    else
      let? frames := write_logical_record (ww_frames w) logical in
      let w :=
        {| ww_frames := frames;
           ww_synced := ww_synced w;
           ww_max_batch_bytes := ww_max_batch_bytes w;
           ww_max_logical_record_bytes := ww_max_logical_record_bytes w |} in
      Ok (if bool_decide (durability = Sync) then WalWriter_sync w else w).

(** ** Replay *)

(** The variables of [replay_wal_stream], with the state of its callback. *)
Record WalState (A : Type) : Type := {
  ws_logical : bytes;
  ws_assembling : bool;
  ws_acc : A
}.
#[local] Arguments ws_logical {A} _.
#[local] Arguments ws_assembling {A} _.
#[local] Arguments ws_acc {A} _.
#[local] Arguments Build_WalState {A} _ _ _.

Section Stream.
  Context {A : Type} (max_batch_bytes max_logical_record_bytes : Z).
  Context (on_record : A → RecoveredBatch → result A).

Definition append_fragment (logical fragment : bytes) : result bytes :=
  match checked_add (zlen logical) (zlen fragment) with
  | Some new_length =>
    if new_length <=? max_logical_record_bytes then Ok (logical ++ fragment)
    else Err (wal_corruption "logical record exceeds the limit derived from max_batch_bytes")
  | None => Err (wal_corruption "logical record exceeds the limit derived from max_batch_bytes")
  end.

Definition decode_record (acc : A) (encoded : bytes) : result A :=
  if max_logical_record_bytes <? zlen encoded then
    Err (wal_corruption "logical record exceeds the limit derived from max_batch_bytes")
  else
    let? (sequence, batch) := decode_batch encoded in
    if max_batch_bytes <? approximate_bytes batch then
      Err (wal_corruption "write batch payload exceeds max_batch_bytes")
    else on_record acc {| rb_sequence := sequence; rb_batch := batch |}.

(** [match fragment_type] *)
Definition wal_step (position : Z) (st : WalState A) (fragment_type : Z) (fragment : bytes)
    : result (WalState A) :=
  if (fragment_type =? FULL) && negb (ws_assembling st) then
    let? acc := decode_record (ws_acc st) fragment in
    Ok {| ws_logical := ws_logical st; ws_assembling := ws_assembling st; ws_acc := acc |}
  else if (fragment_type =? FIRST) && negb (ws_assembling st) then
    let? logical := append_fragment [] fragment in
    Ok {| ws_logical := logical; ws_assembling := true; ws_acc := ws_acc st |}
  else if (fragment_type =? MIDDLE) && ws_assembling st then
    let? logical := append_fragment (ws_logical st) fragment in
    Ok {| ws_logical := logical; ws_assembling := ws_assembling st; ws_acc := ws_acc st |}
  else if (fragment_type =? LAST) && ws_assembling st then
    let? logical := append_fragment (ws_logical st) fragment in
    let? acc := decode_record (ws_acc st) logical in
    Ok {| ws_logical := []; ws_assembling := false; ws_acc := acc |}
  else if fragment_type =? FULL then
    Err (wal_corruption "FULL fragment encountered before the previous record ended")
  else if fragment_type =? FIRST then
    Err (wal_corruption "FIRST fragment encountered before the previous record ended")
  else if (fragment_type =? MIDDLE) || (fragment_type =? LAST) then
    Err (wal_corruption "fragment type has no preceding FIRST fragment")
  else Err (wal_corruption "unknown physical fragment type").

Definition WalReader : FrameReader (WalState A) A := {|
  fr_corruption := wal_corruption;
  fr_crosses := "physical fragment length crosses a block boundary";
  fr_step := wal_step;
  fr_torn _ st := ws_acc st;
  fr_end _ st := ws_acc st
|}.
End Stream.

(** [replay_wal_stream] on the bytes of the file: its length and the final state
    of the callback. *)
Definition replay_wal_stream {A} (file : bytes) (max_batch_bytes : Z)
    (on_record : A → RecoveredBatch → result A) (acc : A) : result (Z * A) :=
  let? max_logical_record_bytes := encoded_record_limit max_batch_bytes in
  let? acc :=
    scan (FR := WalReader max_batch_bytes max_logical_record_bytes on_record) file
      {| ws_logical := []; ws_assembling := false; ws_acc := acc |} in
  Ok (zlen file, acc).

Definition replay_wal (file : bytes) (max_batch_bytes : Z) : result (list RecoveredBatch) :=
  let? (_, recovered) :=
    replay_wal_stream file max_batch_bytes (λ l record, Ok (l ++ [record])) [] in
  Ok recovered.

(** The callback of [inspect_wal_with_fs] and the four variables it captures. *)
Record InspectState : Type := {
  is_batches : Z;
  is_operations : Z;
  is_first : option Z;
  is_last : option Z
}.

Definition inspect_record (s : InspectState) (record : RecoveredBatch) : result InspectState :=
  let? _ :=
    match is_last s with
    | Some previous =>
      let? expected := ok_or (checked_add previous 1)
        (wal_corruption "sequence number space is exhausted") in
      ensure (rb_sequence record =? expected)
        (wal_corruption "expected sequence, found another")
    | None => Ok tt
    end in
  let? batches := ok_or (checked_add (is_batches s) 1)
    (wal_corruption "WAL batch count exceeds usize") in
  let? operations := ok_or (checked_add (is_operations s) (WriteBatch_len (rb_batch record)))
    (wal_corruption "WAL operation count exceeds usize") in
  Ok {| is_batches := batches;
        is_operations := operations;
        is_first := Some (default (rb_sequence record) (is_first s));
        is_last := Some (rb_sequence record) |}.

Definition inspect_wal (file : bytes) (max_batch_bytes : Z) : result WalInspection :=
  let? (file_bytes, s) :=
    replay_wal_stream file max_batch_bytes inspect_record
      {| is_batches := 0; is_operations := 0; is_first := None; is_last := None |} in
  Ok {| wi_format_version := 1;
        wi_file_bytes := file_bytes;
        wi_batches := is_batches s;
        wi_operations := is_operations s;
        wi_first_sequence := is_first s;
        wi_last_sequence := is_last s |}.

End Wal.

Arguments ws_logical {A} _.
Arguments ws_assembling {A} _.
Arguments ws_acc {A} _.
Arguments Build_WalState {A} _ _ _.

(** ** The reader satisfies the framing contract *)

Lemma encoded_record_limit_spec max limit :
  0 ≤ max → encoded_record_limit max = Ok limit ↔
  0 < max ∧ limit = 19 * max + 13 ∧ limit ≤ USIZE_MAX.
Proof.
  intros Hmax. unfold encoded_record_limit, checked_mul, checked_add,
    MAX_OPERATION_OVERHEAD_BYTES, LOGICAL_HEADER_BYTES.
  destruct (Z.eqb_spec max 0); [split; [done|lia]|].
  destruct (Z.leb_spec (max * (1 + 4 + 4 + 1 + 8)) USIZE_MAX); [|split; [done|lia]].
  destruct (Z.leb_spec (max * (1 + 4 + 4 + 1 + 8) + max) USIZE_MAX); [|split; [done|lia]].
  destruct (Z.leb_spec (max * (1 + 4 + 4 + 1 + 8) + max + (1 + 8 + 4)) USIZE_MAX); cbn [ok_or].
  - split; [intros [= <-]; lia|]. intros (? & -> & ?). f_equal. lia.
  - split; [done|lia].
Qed.

Section Laws.
  Context {A : Type} (max limit : Z) (on_record : A → RecoveredBatch → result A).
  Hypothesis limit_fits : limit ≤ USIZE_MAX.

Definition wal_rel (st : WalState A) (pending : option (Z * bytes)) (a : A) : Prop :=
  ws_acc st = a ∧
  match pending with
  | None => ws_assembling st = false
  | Some (_, p) => ws_assembling st = true ∧ ws_logical st = p
  end.

Lemma append_fragment_ok p f :
  zlen (p ++ f) ≤ limit → append_fragment limit p f = Ok (p ++ f).
Proof using limit_fits.
  intros H. unfold append_fragment, checked_add. rewrite zlen_app in H.
  rewrite (proj2 (Z.leb_le _ USIZE_MAX)) by lia. by rewrite (proj2 (Z.leb_le _ _)).
Qed.

#[refine] Definition WalLaws : FrameLaws (WalReader max limit on_record) A := {|
  fl_limit := limit;
  fl_rel := wal_rel;
  fl_deliver := decode_record max limit on_record;
  fl_out a _ := a
|}.
Proof using limit_fits.
  - intros pos st a f a' [<- Ha] Hl Hd. cbn. unfold wal_step. rewrite Ha, Hd. cbn.
    eexists. split; [done|]. done.
  - intros pos st a f [<- Ha] Hl. cbn. unfold wal_step. rewrite Ha. cbn.
    rewrite append_fragment_ok by done. eexists. split; [done|]. done.
  - intros pos st a s p f (<- & Ha & <-) Hl. cbn. unfold wal_step. rewrite Ha. cbn.
    rewrite append_fragment_ok by done. eexists. split; [done|]. done.
  - intros pos st a s p f a' (<- & Ha & <-) Hl Hd. cbn. unfold wal_step. rewrite Ha. cbn.
    rewrite append_fragment_ok, Hd by done. eexists. split; [done|]. done.
  - by intros pos st a [<- _].
  - by intros pos st a s p [<- _].
  - by intros n st a [<- _].
  - by intros n st a s p [<- _].
Defined.
End Laws.

(** ** Appending and replaying *)

Section Durability.
  Context `{C : Crc32c} {CR : Crc32cRange C}.

Abbreviation wal_entry := (Z * WriteBatch * Durability)%type.

Definition append_all (w : WalWriter) (recs : list wal_entry) : result WalWriter :=
  try_fold (λ w '(s, b, d), WalWriter_append w s b d) w recs.

Definition wal_bytes (w : WalWriter) : bytes := fw_file (ww_frames w).

Definition recovered (recs : list wal_entry) : list RecoveredBatch :=
  map (λ '(s, b, _), {| rb_sequence := s; rb_batch := b |}) recs.

Definition wal_entry_wf (r : wal_entry) : Prop :=
  let '(s, b, _) := r in is_u64 s ∧ batch_wf b.

(** [e] is the logical record of an accepted entry. *)
Definition logical_of (max limit : Z) (r : wal_entry) (e : bytes) : Prop :=
  let '(s, b, _) := r in
  operations b ≠ [] ∧ approximate_bytes b ≤ max ∧ encode_batch s b = Ok e ∧ zlen e ≤ limit.

Lemma encode_batch_nonempty s b e : encode_batch s b = Ok e → e ≠ [].
Proof. by intros (_ & es & _ & ->)%encode_batch_spec. Qed.

Lemma append_spec w s b d w' :
  0 ≤ fw_offset (ww_frames w) ≤ BLOCK_BYTES →
  WalWriter_append w s b d = Ok w' →
  ∃ e phys, logical_of (ww_max_batch_bytes w) (ww_max_logical_record_bytes w) (s, b, d) e ∧
    frags (fw_offset (ww_frames w)) true e phys (fw_offset (ww_frames w')) ∧
    wal_bytes w' = wal_bytes w ++ phys ∧
    ww_max_batch_bytes w' = ww_max_batch_bytes w ∧
    ww_max_logical_record_bytes w' = ww_max_logical_record_bytes w ∧
    ww_synced w' = if bool_decide (d = Sync) then zlen (wal_bytes w') else ww_synced w.
Proof.
  intros Ho H. unfold WalWriter_append in H.
  destruct (WriteBatch_is_empty b) eqn:E0; [done|].
  destruct (_ <? approximate_bytes b) eqn:E1; [done|].
  destruct (encode_batch s b) as [e|] eqn:Ee; [|done].
  destruct (_ <? zlen e) eqn:E2; [done|]. to_prop.
  destruct (write_logical_record_spec (ww_frames w) e Ho (encode_batch_nonempty _ _ _ Ee))
    as (phys & o' & Hfr & Hw). rewrite Hw in H. injection H as <-.
  exists e, phys. split.
  { split; [|done]. unfold WriteBatch_is_empty in E0. by destruct (operations b). }
  by destruct (bool_decide (d = Sync)).
Qed.

Lemma append_all_spec w recs w' :
  0 ≤ fw_offset (ww_frames w) ≤ BLOCK_BYTES → append_all w recs = Ok w' →
  ∃ es phys,
    Forall2 (logical_of (ww_max_batch_bytes w) (ww_max_logical_record_bytes w)) recs es ∧
    log_frames (fw_offset (ww_frames w)) es phys (fw_offset (ww_frames w')) ∧
    wal_bytes w' = wal_bytes w ++ phys ∧
    0 ≤ fw_offset (ww_frames w') ≤ BLOCK_BYTES.
Proof.
  revert w. induction recs as [|[[s b] d] recs IH]; intros w Ho H; cbn in H.
  { injection H as <-. exists [], []. rewrite app_nil_r.
    split; [constructor|]. split; [constructor|]. done. }
  destruct (WalWriter_append w s b d) as [w1|] eqn:E; [|done].
  destruct (append_spec _ _ _ _ _ Ho E) as (e & phys & He & Hfr & Hb & Hm & Hl & _).
  pose proof (frags_offset _ _ _ _ _ Hfr Ho) as Ho1.
  destruct (IH w1 Ho1 H) as (es & phys' & Hes & Hlog & Hb' & Ho'). rewrite Hm, Hl in Hes.
  exists (e :: es), (phys ++ phys'). split; [by constructor|]. split; [by econstructor|].
  split; [by rewrite Hb', Hb, app_assoc|done].
Qed.

(** The file only grows, and the synchronized part with it. *)
Lemma append_all_grows w recs w' :
  0 ≤ fw_offset (ww_frames w) ≤ BLOCK_BYTES → ww_synced w ≤ zlen (wal_bytes w) →
  append_all w recs = Ok w' →
  zlen (wal_bytes w) ≤ zlen (wal_bytes w') ∧ ww_synced w ≤ ww_synced w' ≤ zlen (wal_bytes w').
Proof.
  revert w. induction recs as [|[[s b] d] recs IH]; intros w Ho Hs H; cbn in H.
  { injection H as <-. lia. }
  destruct (WalWriter_append w s b d) as [w1|] eqn:E; [|done].
  destruct (append_spec _ _ _ _ _ Ho E) as (e & phys & _ & Hfr & Hb & _ & _ & Hsy).
  pose proof (frags_offset _ _ _ _ _ Hfr Ho) as Ho1.
  assert (zlen (wal_bytes w1) = zlen (wal_bytes w) + zlen phys) by (by rewrite Hb, zlen_app).
  specialize (IH w1 Ho1). destruct (bool_decide (d = Sync)); zlen_pos;
    (destruct IH as [? ?]; [lia|done|lia]).
Qed.

(** Decoding the logical records returns the entries. *)
Lemma deliver_all max limit recs es l :
  limit ≤ USIZE_MAX → Forall wal_entry_wf recs → Forall2 (logical_of max limit) recs es →
  try_fold (decode_record max limit (λ l record, Ok (l ++ [record]))) l es =
    Ok (l ++ recovered recs).
Proof.
  intros Hlim Hwf Hes. revert l Hwf. induction Hes as [|[[s b] d] e recs es He Hes IH]; intros l Hwf.
  { cbn. by rewrite app_nil_r. }
  apply Forall_cons in Hwf as [[Hs Hb] Hwf]. destruct He as (Hne & Hmax & He & Hle).
  cbn [try_fold]. unfold decode_record at 1. rewrite (proj2 (Z.ltb_ge _ _)) by lia.
  rewrite (decode_batch_encode s b e) by (done || lia).
  rewrite (proj2 (Z.ltb_ge _ _)) by lia. rewrite IH by done. cbn. by rewrite <- app_assoc.
Qed.

(** The writer of a prefix of the entries exists and its file is a prefix. *)
Lemma append_all_take w recs w' j :
  0 ≤ fw_offset (ww_frames w) ≤ BLOCK_BYTES → append_all w recs = Ok w' →
  ∃ wj, append_all w (take j recs) = Ok wj ∧ append_all wj (drop j recs) = Ok w' ∧
    0 ≤ fw_offset (ww_frames wj) ≤ BLOCK_BYTES.
Proof.
  intros Ho H. rewrite <- (take_drop j recs) in H. unfold append_all in H.
  rewrite try_fold_app in H. fold (append_all w (take j recs)) in H.
  destruct (append_all w (take j recs)) as [wj|] eqn:E; [|done].
  exists wj. split; [done|]. split; [done|].
  by destruct (append_all_spec _ _ _ Ho E) as (? & ? & _ & _ & _ & ?).
Qed.

Lemma log_frames_det o es phys o' phys2 o2 :
  log_frames o es phys o' → log_frames o es phys2 o2 → phys = phys2 ∧ o' = o2.
Proof.
  intros H. revert phys2 o2.
  induction H as [o|o L phys o1 Ls phys' o' Hfr Hlog IH]; intros phys2 o2 H2;
    inversion H2 as [|? ? p3 o3 ? p4 ? Hfr2 Hlog2]; subst; [done|].
  destruct (frags_det _ _ _ _ _ _ _ Hfr Hfr2) as [<- <-].
  by destruct (IH _ _ Hlog2) as [<- <-].
Qed.

Lemma logical_of_det max limit recs es es' :
  Forall2 (logical_of max limit) recs es → Forall2 (logical_of max limit) recs es' → es = es'.
Proof.
  intros H. revert es'. induction H as [|[[s b] d] e recs es He H IH];
    intros es' H'; inversion H' as [|? ? ? ? He' H'']; subst; [done|]. f_equal; [|by apply IH].
  destruct He as (_ & _ & He & _), He' as (_ & _ & He' & _). congruence.
Qed.

(** A crash leaves the first [n] bytes of the file: the replay returns exactly the
    entries whose records end within them. *)
Lemma replay_prefix max limit recs w0 w n :
  0 ≤ max → WalWriter_create max = Ok w0 → Forall wal_entry_wf recs →
  append_all w0 recs = Ok w → zlen (wal_bytes w) ≤ USIZE_MAX → 0 ≤ n ≤ zlen (wal_bytes w) →
  limit = ww_max_logical_record_bytes w0 →
  ∃ k wk, (k ≤ length recs)%nat ∧
    replay_wal (take (Z.to_nat n) (wal_bytes w)) max = Ok (recovered (take k recs)) ∧
    append_all w0 (take k recs) = Ok wk ∧ zlen (wal_bytes wk) ≤ n ∧
    ((k < length recs)%nat → ∃ wk', append_all w0 (take (S k) recs) = Ok wk' ∧
      n < zlen (wal_bytes wk')).
Proof.
  intros Hmax Hcreate Hwf Hall Hbig Hn ->. unfold WalWriter_create in Hcreate.
  destruct (encoded_record_limit max) as [limit|] eqn:El; [|done]. injection Hcreate as <-.
  pose proof El as (Hm0 & _ & Hlim)%encoded_record_limit_spec; [|done].
  set (w0 := Build_WalWriter _ _ _ _) in *.
  assert (0 ≤ fw_offset (ww_frames w0) ≤ BLOCK_BYTES) as Ho by (cbn; unfold BLOCK_BYTES; lia).
  destruct (append_all_spec _ _ _ Ho Hall) as (es & phys & Hes & Hlog & Hb & _).
  cbn [w0 ww_frames fw_file fw_offset wal_bytes app] in Hes, Hlog, Hb.
  assert (Forall (λ e, zlen e ≤ limit) es) as Hles.
  { clear -Hes. induction Hes as [|[[s b] d] e recs es He Hes IH]; constructor; [apply He|done]. }
  destruct (scan_prefix (FR := WalReader max limit (λ l record, Ok (l ++ [record])))
    (FL := WalLaws max limit _ Hlim) es phys (fw_offset (ww_frames w))
    {| ws_logical := []; ws_assembling := false; ws_acc := [] |} [] (recovered recs) n)
    as (dn & p1 & o1 & a1 & d & [Hd1 Hfits (todo & p2 & o2 & Htodo & Hphys & Hrest)] & Hf & Hscan & _);
    [done|by rewrite <- Hb|by rewrite <- Hb|done|done|by apply (deliver_all max limit recs es [])|].
  rewrite Hb. subst phys es. apply Forall2_app_inv_r in Hes as (l1 & l2 & Hl1 & Hl2 & ->).
  apply Forall_app in Hwf as [Hwf1 Hwf2]. cbn [fl_deliver WalLaws] in Hf.
  rewrite (deliver_all max limit l1 dn []) in Hf by done. injection Hf as <-.
  destruct (append_all_take w0 (l1 ++ l2) w (length l1) Ho Hall) as (wk & Hk & Hrestk & Hok).
  destruct (append_all_spec w0 _ wk Ho Hk) as (es1 & ph1 & Hes1 & Hlog1 & Hb1 & _).
  rewrite take_app_length in Hk, Hes1. rewrite drop_app_length in Hrestk.
  assert (es1 = dn) as -> by by eapply logical_of_det.
  destruct (log_frames_det _ _ _ _ _ _ Hlog1 Hd1) as [-> Hoff].
  exists (length l1), wk. rewrite take_app_length, length_app. split; [lia|]. split.
  { unfold replay_wal, replay_wal_stream. rewrite El, Hscan. done. }
  split; [done|]. split; [by rewrite Hb1|]. intros Hlt.
  destruct l2 as [|[[s b] dd] l2]; [cbn in Hlt; lia|].
  destruct todo as [|L todo]; [by inversion Hl2|]. inversion Hl2 as [|? ? ? ? HL]; subst.
  destruct Hrest as (pL & oL & p3 & HfL & -> & Hlt').
  cbn in Hrestk. destruct (WalWriter_append wk s b dd) as [wk'|] eqn:Ek; [|done].
  exists wk'. split.
  { replace (S (length l1)) with (length l1 + 1)%nat by lia. rewrite take_app_add. cbn [take].
    unfold append_all in *. rewrite try_fold_app, Hk. cbn. by rewrite Ek. }
  destruct (append_spec _ _ _ _ _ Hok Ek) as (e & pe & (_ & _ & He & _) & Hfe & Hbe & _).
  destruct HL as (_ & _ & HL & _). assert (e = L) as -> by congruence.
  destruct (frags_det _ _ _ _ _ _ _ Hfe HfL) as [-> _].
  rewrite Hbe, zlen_app, Hb1. exact Hlt'.
Qed.
End Durability.

(** ** Arbitrary files *)

Definition recovered_ok (max : Z) (r : RecoveredBatch) : Prop :=
  is_u64 (rb_sequence r) ∧ batch_wf (rb_batch r) ∧ operations (rb_batch r) ≠ [] ∧
  approximate_bytes (rb_batch r) ≤ max.

Section Safety.
  Context {A : Type} (max limit : Z) (on_record : A → RecoveredBatch → result A) (P : A → Prop).
  Hypothesis limit_fits : limit ≤ USIZE_MAX.
  Hypothesis record_keeps : ∀ a r, P a → recovered_ok max r → safely P (on_record a r).

Lemma decode_record_safe a e :
  P a → bytes_ok e → safely P (decode_record max limit on_record a e).
Proof using limit_fits record_keeps.
  intros HP Hok. unfold decode_record. destruct (_ <? _) eqn:El; [done|]. to_prop.
  pose proof (decode_batch_safe e Hok ltac:(lia)) as Hsafe.
  destruct (decode_batch e) as [[s b]|[]] eqn:Ed; try done.
  destruct (decode_batch_sound s b e Hok Ed) as (Hwf & Hne & Hs & _).
  destruct (_ <? _) eqn:Em; [done|]. to_prop. by apply record_keeps.
Qed.

Lemma append_fragment_safe p f :
  bytes_ok p → bytes_ok f → safely bytes_ok (append_fragment limit p f).
Proof.
  intros Hp Hf. unfold append_fragment. destruct (checked_add _ _); [|done].
  destruct (_ <=? _); [|done]. by apply Forall_app_2.
Qed.

Lemma wal_step_safe pos st t f :
  P (ws_acc st) ∧ bytes_ok (ws_logical st) → bytes_ok f →
  safely (λ st, P (ws_acc st) ∧ bytes_ok (ws_logical st)) (wal_step max limit on_record pos st t f).
Proof using limit_fits record_keeps.
  intros [HP Hl] Hf. unfold wal_step.
  destruct (_ && _); [eapply safely_bind; [by apply decode_record_safe|done]|].
  destruct (_ && _); [eapply safely_bind; [apply append_fragment_safe; [constructor|done]|done]|].
  destruct (_ && _); [eapply safely_bind; [by apply append_fragment_safe|done]|].
  destruct (_ && _).
  { eapply safely_bind; [by apply append_fragment_safe|]. intros p Hp.
    eapply safely_bind; [by apply decode_record_safe|]. intros a Ha. split; [done|constructor]. }
  destruct (_ =? _); [done|]. destruct (_ =? _); [done|]. by destruct (_ || _).
Qed.
End Safety.

Lemma replay_wal_stream_safe `{C : Crc32c} {A} file max (on_record : A → RecoveredBatch → result A)
    (P : A → Prop) a :
  0 ≤ max → bytes_ok file → P a →
  (∀ a r, P a → recovered_ok max r → safely P (on_record a r)) →
  safely (λ '(n, a), n = zlen file ∧ P a) (replay_wal_stream file max on_record a).
Proof.
  intros Hmax Hok HP Hrec. unfold replay_wal_stream.
  destruct (encoded_record_limit max) as [limit|e] eqn:El.
  2:{ unfold encoded_record_limit, ok_or in El. repeat case_match; simplify_eq; done. }
  apply encoded_record_limit_spec in El as (_ & _ & Hlim); [|done].
  eapply safely_bind.
  - apply (scan_ind (FR := WalReader max limit on_record)
      (λ st, P (ws_acc st) ∧ bytes_ok (ws_logical st))).
    + intros pos st t f Hst Hf. by apply wal_step_safe.
    + done.
    + split; [done|constructor].
    + done.
  - intros r (pos & st & [Hacc _] & [-> | ->]); done.
Qed.

Lemma replay_wal_recovered `{C : Crc32c} file max :
  0 ≤ max → bytes_ok file → safely (Forall (recovered_ok max)) (replay_wal file max).
Proof.
  intros Hmax Hok. unfold replay_wal. eapply safely_bind.
  - apply (replay_wal_stream_safe file max _ (Forall (recovered_ok max))); [done|done|constructor|].
    intros l r Hl Hr. cbn. apply Forall_app_2; [done|]. by constructor.
  - intros [n l] [_ Hl]. done.
Qed.

(** ** Every client of the stream sees the same records *)

Section Simulation.
  Context `{C : Crc32c} {A : Type} (max limit : Z) (on_record : A → RecoveredBatch → result A).
  Context (a0 : A).

(** The collecting client next to an arbitrary one: [st] with the records so far,
    [st'] with the other callback folded over them. *)
Abbreviation push_record := (λ (l : list RecoveredBatch) record, Ok (l ++ [record])).

Definition with_acc {X Y} (st : WalState X) (y : Y) : WalState Y :=
  {| ws_logical := ws_logical st; ws_assembling := ws_assembling st; ws_acc := y |}.

Lemma decode_record_sim l a e l' :
  try_fold on_record a0 l = Ok a →
  decode_record max limit push_record l e = Ok l' →
  decode_record max limit on_record a e = try_fold on_record a0 l'.
Proof.
  intros Hl H. unfold decode_record in *. destruct (_ <? _); [done|].
  destruct (decode_batch e) as [[s b]|]; [|done]. destruct (_ <? _); [done|].
  injection H as <-. rewrite try_fold_app, Hl. cbn. by destruct (on_record a _).
Qed.

Lemma wal_step_sim pos st t f a st2 :
  try_fold on_record a0 (ws_acc st) = Ok a →
  wal_step max limit push_record pos st t f = Ok st2 →
  wal_step max limit on_record pos (with_acc st a) t f =
    let? a' := try_fold on_record a0 (ws_acc st2) in Ok (with_acc st2 a').
Proof.
  intros Hl H. unfold wal_step in *. cbn [with_acc ws_assembling ws_logical ws_acc].
  destruct (_ && _).
  { destruct (decode_record _ _ push_record _ _) as [l'|] eqn:E; [|done]. injection H as <-.
    cbn [ws_acc]. rewrite (decode_record_sim _ _ _ _ Hl E). by destruct (try_fold _ a0 l'). }
  destruct (_ && _).
  { destruct (append_fragment _ _ _); [|done]. injection H as <-. cbn [ws_acc]. by rewrite Hl. }
  destruct (_ && _).
  { destruct (append_fragment _ _ _); [|done]. injection H as <-. cbn [ws_acc]. by rewrite Hl. }
  destruct (_ && _).
  { destruct (append_fragment _ _ _); [|done].
    destruct (decode_record _ _ push_record _ _) as [l'|] eqn:E; [|done]. injection H as <-.
    cbn [ws_acc]. rewrite (decode_record_sim _ _ _ _ Hl E). by destruct (try_fold _ a0 l'). }
  destruct (_ =? _); [done|]. destruct (_ =? _); [done|]. by destruct (_ || _).
Qed.

(** Acceptance by the other callback after more records implies it before. *)
Lemma wal_step_extends pos st t f st2 :
  wal_step max limit push_record pos st t f = Ok st2 → ∃ l, ws_acc st2 = ws_acc st ++ l.
Proof.
  assert (∀ l e l', decode_record max limit push_record l e = Ok l' → ∃ r, l' = l ++ r) as Hdec.
  { intros l e l' H. unfold decode_record in H. inv_ok H. eauto. }
  intros H. unfold wal_step in H.
  destruct (_ && _).
  { destruct (decode_record _ _ _ _ _) as [l'|] eqn:E; [|done]. injection H as <-. by apply Hdec in E. }
  destruct (_ && _).
  { destruct (append_fragment _ _ _); [|done]. injection H as <-. exists []. by rewrite app_nil_r. }
  destruct (_ && _).
  { destruct (append_fragment _ _ _); [|done]. injection H as <-. exists []. by rewrite app_nil_r. }
  destruct (_ && _).
  { destruct (append_fragment _ _ _); [|done].
    destruct (decode_record _ _ _ _ _) as [l'|] eqn:E; [|done]. injection H as <-. by apply Hdec in E. }
  destruct (_ =? _); [done|]. destruct (_ =? _); [done|]. by destruct (_ || _).
Qed.

Lemma wal_file_sim fuel file bs st a l :
  try_fold on_record a0 (ws_acc st) = Ok a →
  scan_file (FR := WalReader max limit push_record) fuel file bs st = Ok l →
  scan_file (FR := WalReader max limit on_record) fuel file bs (with_acc st a) =
    try_fold on_record a0 l.
Proof.
  intros Hl H.
  rewrite (file_sim (WalReader max limit push_record) (WalReader max limit on_record) on_record a0 ws_acc id
    with_acc (λ _ a, a) ltac:(done) ltac:(done) wal_step_extends (λ pos st t b st2 a, wal_step_sim pos st t b a st2)
    ltac:(done) ltac:(done) _ _ _ _ _ _ Hl H).
  unfold id. by destruct (try_fold on_record a0 l).
Qed.
End Simulation.

(** Streaming with any callback is folding it over the replayed records. *)
Lemma replay_wal_stream_fold `{C : Crc32c} {A} file max (on_record : A → RecoveredBatch → result A) a l :
  replay_wal file max = Ok l →
  replay_wal_stream file max on_record a =
    let? a' := try_fold on_record a l in Ok (zlen file, a').
Proof.
  unfold replay_wal, replay_wal_stream. destruct (encoded_record_limit max) as [limit|]; [|done].
  destruct (scan _ _) as [l'|] eqn:E; [|done]. intros [= ->].
  pose proof (wal_file_sim max limit on_record a _ _ _
    {| ws_logical := []; ws_assembling := false; ws_acc := [] |} a l eq_refl E) as Hs.
  unfold scan. unfold with_acc in Hs. cbn [ws_logical ws_assembling] in Hs. by rewrite Hs.
Qed.

(** ** Properties *)

(** [C19] Crash recovery of the log.  After any sequence of appends, a crash leaves
    some prefix of the file's bytes; replaying it succeeds and returns exactly
    the batches whose records are complete in that prefix, in order and
    unchanged, never a partial batch; and if the synchronized bytes survived,
    every batch appended with [Sync] is among them. *)
Theorem wal_crash_recovery `{C : Crc32c} {CR : Crc32cRange C} (max : Z)
    (recs : list (Z * WriteBatch * Durability)) (w0 w : WalWriter) (n : Z) :
  0 ≤ max → WalWriter_create max = Ok w0 → Forall wal_entry_wf recs →
  append_all w0 recs = Ok w → zlen (wal_bytes w) ≤ USIZE_MAX → 0 ≤ n ≤ zlen (wal_bytes w) →
  ∃ k, (k ≤ length recs)%nat ∧
    replay_wal (take (Z.to_nat n) (wal_bytes w)) max = Ok (recovered (take k recs)) ∧
    (∀ j wj, (j ≤ length recs)%nat → append_all w0 (take j recs) = Ok wj →
      zlen (wal_bytes wj) ≤ n ↔ (j ≤ k)%nat) ∧
    (ww_synced w ≤ n → ∀ j s b, recs !! j = Some (s, b, Sync) → (j < k)%nat).
Proof.
  intros Hmax Hc Hwf Hall Hbig Hn.
  destruct (replay_prefix max _ recs w0 w n Hmax Hc Hwf Hall Hbig Hn eq_refl)
    as (k & wk & Hk & Hrep & Hwk & Hle & Hmore).
  assert (0 ≤ fw_offset (ww_frames w0) ≤ BLOCK_BYTES ∧ ww_synced w0 ≤ zlen (wal_bytes w0)) as [Ho Hsy].
  { unfold WalWriter_create in Hc. destruct (encoded_record_limit max); [|done].
    injection Hc as <-. cbn. unfold BLOCK_BYTES. zlen_lia. }
  assert (∀ i j wi wj, (i ≤ j)%nat → append_all w0 (take i recs) = Ok wi →
    append_all w0 (take j recs) = Ok wj → zlen (wal_bytes wi) ≤ zlen (wal_bytes wj)) as Hmono.
  { intros i j wi wj Hij Hi Hj. destruct (append_all_take w0 (take j recs) wj i Ho Hj)
      as (wi' & Hi' & Hrest & Ho'). rewrite take_take, Nat.min_l in Hi' by done.
    assert (wi' = wi) as -> by congruence.
    pose proof (append_all_grows w0 _ wi Ho Hsy Hi). by apply append_all_grows in Hrest as [? _]; [|lia..]. }
  assert (∀ j wj, (j ≤ length recs)%nat → append_all w0 (take j recs) = Ok wj →
      zlen (wal_bytes wj) ≤ n ↔ (j ≤ k)%nat) as Hiff.
  { intros j wj Hj Hwj. split; [|intros Hjk; pose proof (Hmono j k wj wk Hjk Hwj Hwk); lia].
    intros Hjn. destruct (Nat.le_gt_cases j k) as [|Hgt]; [done|].
    destruct (Hmore ltac:(lia)) as (wk' & Hwk' & Hlt).
    pose proof (Hmono (S k) j wk' wj ltac:(lia) Hwk' Hwj). lia. }
  exists k. do 3 (split; [done|]). intros Hsync j s b Hj.
  pose proof (lookup_lt_Some _ _ _ Hj) as Hjl.
  destruct (append_all_take w0 recs w j Ho Hall) as (wj & Hwj & Hrest & Hoj).
  rewrite (drop_S _ _ _ Hj) in Hrest. cbn in Hrest.
  destruct (WalWriter_append wj s b Sync) as [wj'|] eqn:Ej; [|done].
  destruct (append_spec _ _ _ _ _ Hoj Ej) as (e & ph & _ & Hfr & _ & _ & _ & Hs).
  rewrite bool_decide_true in Hs by done.
  destruct (append_all_grows wj' _ w (frags_offset _ _ _ _ _ Hfr Hoj) ltac:(lia) Hrest) as [_ ?].
  apply (Hiff (S j) wj'); [lia| |lia].
  rewrite (take_S_r _ _ _ Hj). unfold append_all in *. rewrite try_fold_app, Hwj. cbn. by rewrite Ej.
Qed.

(** A small log: one synchronized put, then a buffered delete. *)
Definition put_one : WriteBatch := {| operations := [Put [1] [7] None]; approximate_bytes := 2 |}.
Definition delete_one : WriteBatch := {| operations := [Delete [1]]; approximate_bytes := 1 |}.
Definition sample_log : list (Z * WriteBatch * Durability) :=
  [(1, put_one, Sync); (2, delete_one, Buffered)].

(** The writer of a computation that succeeds. *)
Definition unwrap_writer (r : result WalWriter) : WalWriter :=
  match r with
  | Ok w => w
  | Err _ => {| ww_frames := {| fw_file := []; fw_offset := 0 |}; ww_synced := 0;
                ww_max_batch_bytes := 0; ww_max_logical_record_bytes := 0 |}
  end.

Definition sample_wal0 : WalWriter := unwrap_writer (@WalWriter_create 16).
Definition sample_wal : WalWriter :=
  unwrap_writer (@append_all Castagnoli.crc sample_wal0 sample_log).
Definition sample_file : bytes := wal_bytes sample_wal.

(** Witness of C19: the crash loses the last byte of the second record. *)
Lemma wal_crash_recovery_witness :
  ww_synced sample_wal = 32 ∧ zlen sample_file = 58 ∧
  ∃ k, (k ≤ 2)%nat ∧
    @replay_wal Castagnoli.crc (take (Z.to_nat 57) sample_file) 16 = Ok (recovered (take k sample_log)) ∧
    (∀ j wj, (j ≤ 2)%nat → @append_all Castagnoli.crc sample_wal0 (take j sample_log) = Ok wj →
      zlen (wal_bytes wj) ≤ 57 ↔ (j ≤ k)%nat) ∧
    (ww_synced sample_wal ≤ 57 → ∀ j s b, sample_log !! j = Some (s, b, Sync) → (j < k)%nat).
Proof.
  split; [vm_compute; reflexivity|]. split; [vm_compute; reflexivity|].
  apply (@wal_crash_recovery Castagnoli.crc castagnoli_range 16 sample_log sample_wal0 sample_wal 57).
  - lia.
  - vm_compute. reflexivity.
  - repeat constructor; eval_done.
  - vm_compute. reflexivity.
  - eval_done.
  - eval_done.
Defined.

(** [C33] Replaying arbitrary bytes is safe: on every input the replay terminates
    without a panic (no overflow, no index out of range), and every batch it
    returns is well formed, non-empty and within [max_batch_bytes]. *)
Theorem wal_replay_safe `{C : Crc32c} (file : bytes) (max : Z) :
  0 ≤ max → bytes_ok file →
  safely (Forall (recovered_ok max)) (replay_wal file max).
Proof.
  apply replay_wal_recovered.
Qed.

(** Witness of C33: a file of arbitrary bytes. *)
Lemma wal_replay_safe_witness :
  safely (Forall (recovered_ok 5)) (@replay_wal Castagnoli.crc (replicate 40 171) 5).
Proof. apply (@wal_replay_safe Castagnoli.crc (replicate 40 171) 5); [lia|eval_done]. Defined.

(** Sequences that follow each other without a gap. *)
Fixpoint consecutive (l : list RecoveredBatch) : bool :=
  match l with
  | r :: ((r' :: _) as l') => (rb_sequence r' =? rb_sequence r + 1) && consecutive l'
  | _ => true
  end.

Definition count_operations (l : list RecoveredBatch) : Z :=
  foldr (λ r n, WriteBatch_len (rb_batch r) + n) 0 l.

Lemma count_operations_nonneg l : 0 ≤ count_operations l.
Proof.
  unfold count_operations. induction l as [|r l IH]; cbn [foldr]; [lia|].
  pose proof (zlen_nonneg (operations (rb_batch r))). unfold WriteBatch_len at 1. lia.
Qed.

Lemma inspect_fold l b o first prev :
  0 ≤ b → 0 ≤ o → b + zlen l ≤ USIZE_MAX → o + count_operations l ≤ USIZE_MAX →
  Forall (λ r, is_u64 (rb_sequence r)) l → 
  (∀ s, try_fold inspect_record {| is_batches := b; is_operations := o; is_first := Some first;
      is_last := Some (rb_sequence prev) |} l = Ok s ↔
    consecutive (prev :: l) = true ∧
    s = {| is_batches := b + zlen l; is_operations := o + count_operations l;
           is_first := Some first;
           is_last := Some (default (rb_sequence prev) (rb_sequence <$> last l)) |}).
Proof.
  revert b o prev. induction l as [|r l IH]; intros b o prev Hb Ho Hbl Hol Hu s.
  { cbn [try_fold consecutive count_operations foldr]. zlen_nils. rewrite !Z.add_0_r.
    split; [by intros [= <-]|by intros [_ ->]]. }
  apply Forall_cons in Hu as [Hr Hu]. pose proof (count_operations_nonneg l).
  rewrite zlen_cons in *. cbn [count_operations foldr] in *. fold (count_operations l) in *.
  pose proof (zlen_nonneg (operations (rb_batch r))). pose proof (zlen_nonneg l).
  cbn [try_fold]. unfold inspect_record at 1. cbn [is_last is_batches is_operations is_first].
  unfold checked_add, WriteBatch_len in *. change (consecutive (prev :: r :: l)) with
    ((rb_sequence r =? rb_sequence prev + 1) && consecutive (r :: l)).
  unfold is_u64, U64_MAX, USIZE_MAX, U64_MAX in *.
  destruct (Z.leb_spec (rb_sequence prev + 1) 18446744073709551615).
  2:{ cbn [ok_or]. rewrite (proj2 (Z.eqb_neq _ _)) by lia. split; [done|by intros [? _]]. }
  cbn [ok_or]. unfold ensure. destruct (rb_sequence r =? rb_sequence prev + 1);
    [|split; [done|by intros [? _]]].
  rewrite (proj2 (Z.leb_le (b + 1) _)) by lia.
  rewrite (proj2 (Z.leb_le (o + zlen (operations (rb_batch r))) _)) by lia. cbn [ok_or default andb].
  rewrite IH by (done || lia).
  assert (default (rb_sequence prev) (rb_sequence <$> last (r :: l)) =
    default (rb_sequence r) (rb_sequence <$> last l)) as ->.
  { rewrite last_cons. by destruct (last l). }
  split; (intros [Hc ->]; split; [done|]; f_equal; lia).
Qed.

(** Inspecting a log agrees with replaying it: on a file that replays, the
    inspection succeeds exactly when the recovered sequences are consecutive, and
    then reports the number of batches and operations, the first and the last
    sequence, and the file's length. *)
Theorem wal_inspect_agrees `{C : Crc32c} (file : bytes) (max : Z) (l : list RecoveredBatch)
    (i : WalInspection) :
  0 ≤ max → bytes_ok file → replay_wal file max = Ok l →
  zlen l ≤ USIZE_MAX → count_operations l ≤ USIZE_MAX →
  inspect_wal file max = Ok i ↔
  consecutive l = true ∧
  i = {| wi_format_version := 1; wi_file_bytes := zlen file; wi_batches := zlen l;
         wi_operations := count_operations l;
         wi_first_sequence := rb_sequence <$> head l;
         wi_last_sequence := rb_sequence <$> last l |}.
Proof.
  intros Hmax Hok Hrep Hl Hops. unfold inspect_wal.
  assert (Forall (λ r, is_u64 (rb_sequence r)) l) as Hu.
  { pose proof (replay_wal_recovered file max Hmax Hok) as Hs. rewrite Hrep in Hs. eapply Forall_impl; [exact Hs|]. by intros r [? _]. }
  rewrite (replay_wal_stream_fold _ _ _ _ _ Hrep).
  destruct l as [|r l].
  { cbn. split; [by intros [= <-]|by intros [_ ->]]. }
  apply Forall_cons in Hu as [Hr Hu]. rewrite zlen_cons in *.
  cbn [count_operations foldr] in *. fold (count_operations l) in *.
  pose proof (count_operations_nonneg l). pose proof (zlen_nonneg l).
  assert (0 ≤ WriteBatch_len (rb_batch r)) by (apply zlen_nonneg).
  cbn [try_fold]. unfold inspect_record at 1. cbn [is_last is_batches is_operations is_first].
  unfold checked_add. rewrite (proj2 (Z.leb_le (0 + 1) _)) by (unfold USIZE_MAX, U64_MAX in *; lia).
  rewrite (proj2 (Z.leb_le (0 + WriteBatch_len _) _)) by lia. cbn [ok_or default].
  pose proof (inspect_fold l (0 + 1) (0 + WriteBatch_len (rb_batch r)) (rb_sequence r) r
    ltac:(lia) ltac:(lia) ltac:(lia) ltac:(lia) Hu) as Hfold.
  assert (rb_sequence <$> last (r :: l) = Some (default (rb_sequence r) (rb_sequence <$> last l))) as ->.
  { rewrite last_cons. by destruct (last l). }
  destruct (try_fold inspect_record _ l) as [s|e].
  - destruct (proj1 (Hfold s) eq_refl) as [Hc ->]. rewrite Hc. cbn. split; [by intros [= <-]|by intros [_ ->]].
  - split; [done|]. intros [Hc _]. destruct (Hfold {|
      is_batches := 0 + 1 + zlen l; is_operations := 0 + WriteBatch_len (rb_batch r) + count_operations l;
      is_first := Some (rb_sequence r);
      is_last := Some (default (rb_sequence r) (rb_sequence <$> last l)) |}) as [_ Hb].
    by discriminate Hb.
Qed.

(** An instance on the sample log. *)
Lemma wal_inspect_agrees_witness :
  @inspect_wal Castagnoli.crc sample_file 16 =
    Ok {| wi_format_version := 1; wi_file_bytes := 58; wi_batches := 2; wi_operations := 2;
          wi_first_sequence := Some 1; wi_last_sequence := Some 2 |}.
Proof.
  apply (@wal_inspect_agrees Castagnoli.crc sample_file 16 (recovered sample_log)).
  - lia.
  - eval_done.
  - vm_compute. reflexivity.
  - eval_done.
  - eval_done.
  - split; vm_compute; reflexivity.
Defined.

Lemma overhead_bound ops :
  Forall (λ op, 1 ≤ op_payload op) ops → overhead ops ≤ 18 * payload ops.
Proof.
  induction 1 as [|op ops Hop _ IH]; cbn [overhead payload]; [lia|].
  assert (op_overhead op ≤ 18) by (destruct op as [? ? [?|]|?]; cbn; lia). lia.
Qed.

(** The encoded-record limit never rejects a batch the payload limit admits,
    as long as every operation carries at least one byte of key or value: such a
    batch, once it encodes, is appended. *)
Theorem wal_limit_covers_payload `{C : Crc32c} (w w0 : WalWriter) (max s : Z) (b : WriteBatch)
    (d : Durability) (e : bytes) :
  0 ≤ max → WalWriter_create max = Ok w0 →
  ww_max_batch_bytes w = max →
  ww_max_logical_record_bytes w = ww_max_logical_record_bytes w0 →
  0 ≤ fw_offset (ww_frames w) ≤ BLOCK_BYTES →
  batch_wf b → operations b ≠ [] → approximate_bytes b ≤ max →
  Forall (λ op, 1 ≤ op_payload op) (operations b) → encode_batch s b = Ok e →
  ∃ w', WalWriter_append w s b d = Ok w' ∧ ∃ phys, wal_bytes w' = wal_bytes w ++ phys.
Proof.
  intros Hmax Hc Hwm Hwl Ho (Hap & _ & _) Hne Hle Hone He. unfold WalWriter_create in Hc.
  destruct (encoded_record_limit max) as [limit|] eqn:El; [|done]. injection Hc as <-.
  apply encoded_record_limit_spec in El as (_ & -> & _); [|done]. cbn in Hwl.
  unfold WalWriter_append. unfold WriteBatch_is_empty.
  destruct (operations b) as [|op ops] eqn:Eo; [done|]. rewrite <- Eo in *.
  rewrite Hwm, (proj2 (Z.ltb_ge _ _)), He, Hwl by lia.
  pose proof (zlen_encode_batch _ _ _ He) as Hlen. pose proof (overhead_bound _ Hone).
  rewrite (proj2 (Z.ltb_ge _ _)) by lia.
  destruct (write_logical_record_spec (ww_frames w) e Ho (encode_batch_nonempty _ _ _ He))
    as (phys & o' & _ & ->).
  eexists. split; [done|]. exists phys. by destruct (bool_decide _).
Qed.

(** An instance: the first batch of the sample log. *)
Lemma wal_limit_covers_payload_witness :
  ∃ w', @WalWriter_append Castagnoli.crc sample_wal0 1 put_one Sync = Ok w' ∧
    ∃ phys, wal_bytes w' = wal_bytes sample_wal0 ++ phys.
Proof.
  apply (@wal_limit_covers_payload Castagnoli.crc sample_wal0 sample_wal0 16 1 put_one Sync
    (match encode_batch 1 put_one with Ok e => e | Err _ => [] end)); try eval_done; vm_compute; reflexivity.
Defined.

(** Four deletions of the empty key: no payload at all. *)
Definition empty_key_batch : WriteBatch :=
  {| operations := [Delete []; Delete []; Delete []; Delete []]; approximate_bytes := 0 |}.

(** [C37] The limit does reject batches the payload limit admits when operations
    carry no bytes: four deletions of the empty key have payload 0, within
    [max_batch_bytes] 1, but encode to 33 bytes against a limit of 32, so the
    append fails with [InvalidArgument] on every writer with that limit. *)
Theorem wal_limit_rejects_empty_keys `{C : Crc32c} (w : WalWriter) (s : Z) (d : Durability) :
  ww_max_batch_bytes w = 1 → encoded_record_limit 1 = Ok (ww_max_logical_record_bytes w) →
  approximate_bytes empty_key_batch ≤ ww_max_batch_bytes w ∧ batch_wf empty_key_batch ∧
  WalWriter_append w s empty_key_batch d =
    Err (InvalidArgument "encoded write batch exceeds the checked WAL limit").
Proof.
  intros Hm Hl. apply encoded_record_limit_spec in Hl as (_ & Hl & _); [|lia].
  rewrite Hm. split; [cbn; lia|]. split; [eval_done|].
  unfold WalWriter_append. rewrite Hm. cbn [empty_key_batch WriteBatch_is_empty operations approximate_bytes].
  change (1 <? 0) with false. cbv iota.
  destruct (encode_batch s empty_key_batch) as [e|] eqn:He; [|done].
  pose proof (zlen_encode_batch _ _ _ He) as Hlen.
  change (13 + _ + _) with 33 in Hlen. by rewrite (proj2 (Z.ltb_lt _ _)) by lia.
Qed.

(** Witness of C37: a fresh writer with [max_batch_bytes] 1. *)
Lemma wal_limit_rejects_empty_keys_witness :
  @WalWriter_append Castagnoli.crc (unwrap_writer (WalWriter_create 1)) 1 empty_key_batch Sync =
    Err (InvalidArgument "encoded write batch exceeds the checked WAL limit").
Proof.
  apply (@wal_limit_rejects_empty_keys Castagnoli.crc (unwrap_writer (WalWriter_create 1)) 1 Sync);
    reflexivity.
Defined.

(** The length field of the first fragment of a file, set to its largest value. *)
Definition damage_length (file : bytes) : bytes :=
  take 4 file ++ [255; 255] ++ drop 6 file.

