(* ===== verification/BlockCache.v ===== *)
(** * The block cache and the read statistics (src/crates/meteordb/src/cache.rs, stats.rs)

    Two partitions with budgets of their own, evicted in the order of use by stamps of
    a counter that is renumbered before it overflows.  The reference [lru] keeps the
    entries in the order of use; every operation of the cache returns what the
    reference returns, and no [expect] of the code fails.  A [HashMap] is a [gmap]; its
    iteration order is that of the model and nothing depends on it.  The lock is taken
    for every operation; it is poisoned only by a panic. *)

From Stdlib Require Import ZArith Lia Sorting.Sorted.
From stdpp Require Import base list gmap strings sorting.
From S2P Require Import Prelude Version.

Local Open Scope Z_scope.

(** ** Data *)

Inductive CachePartition : Type := PartMetadata | PartData.
Inductive BlockKind : Type := KindFilter | KindIndex | KindData.

#[global] Instance BlockKind_eq_dec : EqDecision BlockKind.
Proof. solve_decision. Defined.

Definition BlockKind_partition (k : BlockKind) : CachePartition :=
  match k with KindFilter | KindIndex => PartMetadata | KindData => PartData end.

Record CacheKey : Type := { ck_file_number : Z; ck_block_offset : Z; ck_kind : BlockKind }.

#[global] Instance CacheKey_eq_dec : EqDecision CacheKey.
Proof. solve_decision. Defined.

(** The derived orders: fields and variants in the order of their declaration. *)
Definition kind_rank (k : BlockKind) : Z := match k with KindFilter => 0 | KindIndex => 1 | KindData => 2 end.
Definition partition_rank (p : CachePartition) : Z := match p with PartMetadata => 0 | PartData => 1 end.
Definition key_fields (k : CacheKey) : list Z := [ck_file_number k; ck_block_offset k; kind_rank (ck_kind k)].

#[global] Instance CacheKey_countable : Countable CacheKey.
Proof.
  apply (inj_countable' (λ k, (ck_file_number k, ck_block_offset k, kind_rank (ck_kind k)))
    (λ x, {| ck_file_number := x.1.1; ck_block_offset := x.1.2;
             ck_kind := if x.2 =? 0 then KindFilter else if x.2 =? 1 then KindIndex else KindData |})).
  by intros [f o []].
Defined.

Record CacheEntry : Type := { ce_value : bytes; ce_stamp : Z }.

Record PartitionState : Type := {
  pt_capacity_bytes : Z;
  pt_usage_bytes : Z;
  pt_entries : gmap CacheKey CacheEntry;
  pt_hits : Z;
  pt_misses : Z;
  pt_admissions : Z;
  pt_evictions : Z
}.

Record CacheState : Type := {
  cs_metadata : PartitionState;
  cs_data : PartitionState;
  cs_next_stamp : Z
}.

Definition PartitionState_new (capacity_bytes : Z) : PartitionState :=
  {| pt_capacity_bytes := capacity_bytes; pt_usage_bytes := 0; pt_entries := ∅; pt_hits := 0; pt_misses := 0;
     pt_admissions := 0; pt_evictions := 0 |}.

Definition partition (p : CachePartition) (s : CacheState) : PartitionState :=
  match p with PartMetadata => cs_metadata s | PartData => cs_data s end.

Definition with_partition (p : CachePartition) (x : PartitionState) (s : CacheState) : CacheState :=
  match p with
  | PartMetadata => {| cs_metadata := x; cs_data := cs_data s; cs_next_stamp := cs_next_stamp s |}
  | PartData => {| cs_metadata := cs_metadata s; cs_data := x; cs_next_stamp := cs_next_stamp s |}
  end.

Definition with_next_stamp (n : Z) (s : CacheState) : CacheState :=
  {| cs_metadata := cs_metadata s; cs_data := cs_data s; cs_next_stamp := n |}.

Definition with_contents (usage : Z) (entries : gmap CacheKey CacheEntry) (p : PartitionState) : PartitionState :=
  {| pt_capacity_bytes := pt_capacity_bytes p; pt_usage_bytes := usage; pt_entries := entries; pt_hits := pt_hits p;
     pt_misses := pt_misses p; pt_admissions := pt_admissions p; pt_evictions := pt_evictions p |}.

Definition with_activity (hits misses admissions evictions : Z) (p : PartitionState) : PartitionState :=
  {| pt_capacity_bytes := pt_capacity_bytes p; pt_usage_bytes := pt_usage_bytes p; pt_entries := pt_entries p;
     pt_hits := hits; pt_misses := misses; pt_admissions := admissions; pt_evictions := evictions |}.

(** ** Operations *)

Definition BlockCache_new (total_bytes : Z) : result CacheState :=
  if total_bytes =? 0 then Err (InvalidArgument "block cache bytes must be greater than zero")
  else
    let metadata_bytes := total_bytes / 5 in
    Ok {| cs_metadata := PartitionState_new metadata_bytes; cs_data := PartitionState_new (total_bytes - metadata_bytes);
          cs_next_stamp := 0 |}.

Definition fits_in_budget (usage_bytes entry_bytes capacity_bytes : Z) : bool :=
  entry_bytes <=? saturating_sub capacity_bytes usage_bytes.

(** [renormalize_stamps]: the entries of both partitions by stamp, partition and key. *)
Definition ranked : Type := (Z * CachePartition * CacheKey)%type.
Definition rank_fields (x : ranked) : list Z := x.1.1 :: partition_rank x.1.2 :: key_fields x.2.
Definition ranked_cmp (x y : ranked) : comparison := lex_cmp (rank_fields x) (rank_fields y).

Definition ranked_entries (p : CachePartition) (s : CacheState) : list ranked :=
  map (λ x : CacheKey * CacheEntry, (ce_stamp x.2, p, x.1)) (map_to_list (pt_entries (partition p s))).

Definition restamp (stamp : Z) (x : ranked) (s : CacheState) : result CacheState :=
  let p := partition x.1.2 s in
  match pt_entries p !! x.2 with
  | None => Err (Panicked "ranked cache entry still exists")
  | Some e => Ok (with_partition x.1.2 (with_contents (pt_usage_bytes p)
      (<[x.2 := {| ce_value := ce_value e; ce_stamp := stamp |}]> (pt_entries p)) p) s)
  end.

Fixpoint restamp_all (stamp : Z) (ordered : list ranked) (s : CacheState) : result CacheState :=
  match ordered with
  | [] => Ok s
  | x :: ordered => let? s := restamp stamp x s in restamp_all (stamp + 1) ordered s
  end.

Definition renormalize_stamps (s : CacheState) : result CacheState :=
  let ordered := sort_by ranked_cmp (ranked_entries PartMetadata s ++ ranked_entries PartData s) in
  let? s := restamp_all 0 ordered s in
  Ok (with_next_stamp (saturating_add (Z.of_nat (size (pt_entries (cs_metadata s)))) (Z.of_nat (size (pt_entries (cs_data s))))) s).

Definition bump_stamp (s : CacheState) : result (Z * CacheState) :=
  let? s := if cs_next_stamp s =? U64_MAX then renormalize_stamps s else Ok s in
  Ok (cs_next_stamp s, with_next_stamp (saturating_add (cs_next_stamp s) 1) s).

Definition BlockCache_get (file_number block_offset : Z) (kind : BlockKind) (s : CacheState) : result (option bytes * CacheState) :=
  let? (stamp, s) := bump_stamp s in
  let key := {| ck_file_number := file_number; ck_block_offset := block_offset; ck_kind := kind |} in
  let p := partition (BlockKind_partition kind) s in
  match pt_entries p !! key with
  | Some e =>
    let p := with_contents (pt_usage_bytes p) (<[key := {| ce_value := ce_value e; ce_stamp := stamp |}]> (pt_entries p)) p in
    let p := with_activity (saturating_add (pt_hits p) 1) (pt_misses p) (pt_admissions p) (pt_evictions p) p in
    Ok (Some (ce_value e), with_partition (BlockKind_partition kind) p s)
  | None =>
    let p := with_activity (pt_hits p) (saturating_add (pt_misses p) 1) (pt_admissions p) (pt_evictions p) p in
    Ok (None, with_partition (BlockKind_partition kind) p s)
  end.

(** [min_by_key(|(key, entry)| (entry.stamp, **key))] *)
Definition age_cmp (x y : CacheKey * CacheEntry) : comparison :=
  lex_cmp (ce_stamp x.2 :: key_fields x.1) (ce_stamp y.2 :: key_fields y.1).

Definition min_by_age (l : list (CacheKey * CacheEntry)) : option (CacheKey * CacheEntry) :=
  fold_left (λ acc x, match acc with
    | None => Some x
    | Some y => match age_cmp x y with Lt => Some x | _ => acc end
    end) l None.

Definition evict_oldest (p : PartitionState) : result PartitionState :=
  match min_by_age (map_to_list (pt_entries p)) with
  | None => Err (Panicked "a partition needing room contains an entry")
  | Some (oldest, removed) =>
    let? usage := ok_or (checked_sub (pt_usage_bytes p) (zlen (ce_value removed)))
      (Panicked "cache usage includes every retained entry") in
    Ok (with_contents usage (delete oldest (pt_entries p)) p)
  end.

Fixpoint make_room (fuel : nat) (entry_bytes : Z) (p : PartitionState) : result PartitionState :=
  if fits_in_budget (pt_usage_bytes p) entry_bytes (pt_capacity_bytes p) then Ok p
  else
    match fuel with
    | O => Err (Panicked "fuel")
    | S fuel =>
      let? p := evict_oldest p in
      make_room fuel entry_bytes
        (with_activity (pt_hits p) (pt_misses p) (pt_admissions p) (saturating_add (pt_evictions p) 1) p)
    end.

Definition BlockCache_insert (file_number block_offset : Z) (kind : BlockKind) (value : bytes) (s : CacheState)
    : result (bool * CacheState) :=
  let key := {| ck_file_number := file_number; ck_block_offset := block_offset; ck_kind := kind |} in
  let part := BlockKind_partition kind in
  if pt_capacity_bytes (partition part s) <? zlen value then Ok (false, s)
  else
    let? (stamp, s) := bump_stamp s in
    let p := partition part s in
    let? p := match pt_entries p !! key with
      | Some replaced =>
        let? usage := ok_or (checked_sub (pt_usage_bytes p) (zlen (ce_value replaced)))
          (Panicked "cache usage includes every retained entry") in
        Ok (with_contents usage (delete key (pt_entries p)) p)
      | None => Ok p
      end in
    let? p := make_room (size (pt_entries p)) (zlen value) p in
    let? usage := ok_or (checked_add (pt_usage_bytes p) (zlen value))
      (Panicked "cache admission was checked against partition capacity") in
    let p := with_contents usage (<[key := {| ce_value := value; ce_stamp := stamp |}]> (pt_entries p)) p in
    let p := with_activity (pt_hits p) (pt_misses p) (saturating_add (pt_admissions p) 1) (pt_evictions p) p in
    Ok (true, with_partition part p s).

(** ** Statistics *)

Record CachePartitionSnapshot : Type := {
  sn_capacity_bytes : Z; sn_usage_bytes : Z; sn_entries : Z; sn_hits : Z; sn_misses : Z; sn_admissions : Z; sn_evictions : Z
}.

Definition PartitionState_snapshot (p : PartitionState) : CachePartitionSnapshot :=
  {| sn_capacity_bytes := pt_capacity_bytes p; sn_usage_bytes := pt_usage_bytes p; sn_entries := Z.of_nat (size (pt_entries p));
     sn_hits := pt_hits p; sn_misses := pt_misses p; sn_admissions := pt_admissions p; sn_evictions := pt_evictions p |}.

Record CacheSnapshot : Type := { cs_metadata_snapshot : CachePartitionSnapshot; cs_data_snapshot : CachePartitionSnapshot }.

Definition BlockCache_snapshot (s : CacheState) : CacheSnapshot :=
  {| cs_metadata_snapshot := PartitionState_snapshot (cs_metadata s); cs_data_snapshot := PartitionState_snapshot (cs_data s) |}.

Record ReadStatsState : Type := {
  rs_point_reads : Z;
  rs_bloom_checks : Z;
  rs_bloom_useful_negatives : Z;
  rs_level_table_probes : list Z
}.

Definition ReadStats_default : ReadStatsState :=
  {| rs_point_reads := 0; rs_bloom_checks := 0; rs_bloom_useful_negatives := 0;
     rs_level_table_probes := replicate (Z.to_nat NUM_LEVELS) 0 |}.

Definition record_point_read (s : ReadStatsState) : ReadStatsState :=
  {| rs_point_reads := saturating_add (rs_point_reads s) 1; rs_bloom_checks := rs_bloom_checks s;
     rs_bloom_useful_negatives := rs_bloom_useful_negatives s; rs_level_table_probes := rs_level_table_probes s |}.

Definition record_bloom_check (useful_negative : bool) (s : ReadStatsState) : ReadStatsState :=
  {| rs_point_reads := rs_point_reads s; rs_bloom_checks := saturating_add (rs_bloom_checks s) 1;
     rs_bloom_useful_negatives :=
       if useful_negative then saturating_add (rs_bloom_useful_negatives s) 1 else rs_bloom_useful_negatives s;
     rs_level_table_probes := rs_level_table_probes s |}.

(** [level_table_probes[level]] *)
Definition record_table_probe (level : Z) (s : ReadStatsState) : result ReadStatsState :=
  let? probes := index_or_panic level (rs_level_table_probes s) in
  Ok {| rs_point_reads := rs_point_reads s; rs_bloom_checks := rs_bloom_checks s;
        rs_bloom_useful_negatives := rs_bloom_useful_negatives s;
        rs_level_table_probes := <[Z.to_nat level := saturating_add probes 1]> (rs_level_table_probes s) |}.

Record StatsSnapshot : Type := {
  st_point_reads : Z;
  st_sstable_probes : Z;
  st_bloom_checks : Z;
  st_bloom_useful_negatives : Z;
  st_cache : CacheSnapshot;
  st_level_table_probes : list Z
}.

Definition ReadStats_snapshot (cache : CacheState) (s : ReadStatsState) : StatsSnapshot :=
  {| st_point_reads := rs_point_reads s; st_sstable_probes := fold_left saturating_add (rs_level_table_probes s) 0;
     st_bloom_checks := rs_bloom_checks s; st_bloom_useful_negatives := rs_bloom_useful_negatives s;
     st_cache := BlockCache_snapshot cache; st_level_table_probes := rs_level_table_probes s |}.

(** ** The reference: entries in the order of use, the last used one first *)

Definition lru : Type := list (CacheKey * bytes).

Fixpoint lru_bytes (l : lru) : Z := match l with [] => 0 | x :: l => zlen x.2 + lru_bytes l end.
Fixpoint lru_find (k : CacheKey) (l : lru) : option bytes :=
  match l with [] => None | x :: l => if decide (x.1 = k) then Some x.2 else lru_find k l end.
Definition lru_remove (k : CacheKey) (l : lru) : lru := List.filter (λ x, negb (bool_decide (x.1 = k))) l.

(** The longest prefix that has room. *)
Fixpoint lru_shrink (room : Z) (l : lru) : lru :=
  match l with
  | [] => []
  | x :: l => if zlen x.2 <=? room then x :: lru_shrink (room - zlen x.2) l else []
  end.

Definition lru_get (k : CacheKey) (l : lru) : option bytes * lru :=
  match lru_find k l with
  | Some v => (Some v, (k, v) :: lru_remove k l)
  | None => (None, l)
  end.

Definition lru_insert (capacity : Z) (k : CacheKey) (v : bytes) (l : lru) : bool * lru :=
  if capacity <? zlen v then (false, l)
  else (true, (k, v) :: lru_shrink (capacity - zlen v) (lru_remove k l)).

(** ** A partition and its reference *)

Abbreviation stamped := (list (CacheKey * CacheEntry)).
Definition erase (es : stamped) : lru := map (λ x, (x.1, ce_value x.2)) es.

Record partition_rep (next : Z) (p : PartitionState) (es : stamped) : Prop := {
  pr_keys : NoDup (map fst es);
  pr_entries : pt_entries p = list_to_map es;
  pr_order : StronglySorted (λ x y, ce_stamp y.2 < ce_stamp x.2) es;
  pr_stamps : Forall (λ x, 0 ≤ ce_stamp x.2 < next) es;
  pr_usage : pt_usage_bytes p = lru_bytes (erase es);
  pr_capacity : lru_bytes (erase es) ≤ pt_capacity_bytes p ≤ USIZE_MAX
}.

Lemma lru_bytes_nonneg l : 0 ≤ lru_bytes l.
Proof. induction l as [|x l IH]; cbn; [done|]. pose proof (zlen_nonneg x.2). lia. Qed.

Lemma lru_bytes_app a b : lru_bytes (a ++ b) = lru_bytes a + lru_bytes b.
Proof. induction a as [|x a IH]; cbn; [done|]. lia. Qed.

Lemma lru_bytes_perm l l' : l ≡ₚ l' → lru_bytes l = lru_bytes l'.
Proof. induction 1; cbn; lia. Qed.

Lemma erase_app a b : erase (a ++ b) = erase a ++ erase b.
Proof. apply map_app. Qed.

Lemma rep_lookup next p es k e : partition_rep next p es → pt_entries p !! k = Some e ↔ (k, e) ∈ es.
Proof. intros [Hk -> _ _ _ _]. symmetry. by apply elem_of_list_to_map. Qed.

Lemma rep_none next p es k : partition_rep next p es → pt_entries p !! k = None ↔ k ∉ map fst es.
Proof. intros [_ -> _ _ _ _]. symmetry. apply not_elem_of_list_to_map. Qed.

(** The entry of a key among the others. *)
Lemma rep_split next p es k e :
  partition_rep next p es → (k, e) ∈ es → ∃ a b, es = a ++ (k, e) :: b ∧ (k ∉ map fst a) ∧ (k ∉ map fst b).
Proof.
  intros Hr (a & b & ->)%list_elem_of_split. exists a, b. split; [done|]. pose proof (pr_keys _ _ _ Hr) as Hnd.
  rewrite map_app in Hnd. apply NoDup_app in Hnd as (_ & Hd & Hb). cbn in Hd, Hb. apply NoDup_cons in Hb as [Hb _].
  split; [|done]. intros Ha. apply (Hd k Ha). by left.
Qed.

Lemma remove_absent k (l : lru) : (k ∉ map fst l) → lru_remove k l = l.
Proof.
  intros Hk. apply filter_all_true, Forall_forall. intros x Hx. apply negb_true_iff, bool_decide_eq_false. intros <-. by apply Hk, list_elem_of_fmap_2.
Qed.

Lemma erase_keys es : map fst (erase es) = map fst es.
Proof. unfold erase. by rewrite map_map. Qed.

Lemma remove_split (a b : stamped) k e :
  (k ∉ map fst a) → (k ∉ map fst b) → lru_remove k (erase (a ++ (k, e) :: b)) = erase (a ++ b).
Proof.
  intros Ha Hb. rewrite !erase_app. cbn [erase map]. unfold lru_remove. rewrite List.filter_app. cbn.
  rewrite bool_decide_true by done. cbn. f_equal; apply remove_absent; by rewrite erase_keys.
Qed.

Lemma find_some l k (v : bytes) : NoDup (map fst l) → (k, v) ∈ l → lru_find k l = Some v.
Proof.
  induction l as [|[k' v'] l IH]; intros Hnd Hin; [by apply elem_of_nil in Hin|]. cbn in Hnd |- *.
  apply NoDup_cons in Hnd as [Hk Hnd]. apply elem_of_cons in Hin as [[= -> ->]|Hin]; [by rewrite decide_True|].
  rewrite decide_False; [by apply IH|]. intros ->. apply Hk. apply list_elem_of_fmap. by exists (k, v).
Qed.

Lemma find_none l k : (k ∉ map fst l) → lru_find k l = None.
Proof.
  induction l as [|[k' v'] l IH]; intros Hk; [done|]. cbn in Hk |- *. rewrite not_elem_of_cons in Hk.
  destruct Hk as [Hk' Hk]. rewrite decide_False by (by intros ->). by apply IH.
Qed.

(** ** Entries come and go *)

Lemma rep_activity next p es h m a v : partition_rep next p es → partition_rep next (with_activity h m a v p) es.
Proof. by intros []. Qed.

Lemma rep_later next next' p es : partition_rep next p es → next ≤ next' → partition_rep next' p es.
Proof. intros [H1 H2 H3 H4 H5 H6] Hle. split; try done. eapply Forall_impl; [exact H4|]. intros x Hx. cbn in *. lia. Qed.

Lemma rep_remove next p a b k e :
  partition_rep next p (a ++ (k, e) :: b) → (k ∉ map fst a) → (k ∉ map fst b) →
  partition_rep next (with_contents (pt_usage_bytes p - zlen (ce_value e)) (delete k (pt_entries p)) p) (a ++ b) ∧
  zlen (ce_value e) ≤ pt_usage_bytes p.
Proof.
  intros [Hk He Ho Hs Hu Hc] Ha Hb. rewrite erase_app, lru_bytes_app in Hu, Hc. cbn [erase map lru_bytes fst snd] in Hu, Hc.
  fold (erase b) in Hu, Hc. pose proof (lru_bytes_nonneg (erase a)). pose proof (lru_bytes_nonneg (erase b)).
  pose proof (zlen_nonneg (ce_value e)). split; [|lia]. rewrite map_app in Hk. apply NoDup_app in Hk as (Hk1 & Hk2 & Hk3).
  cbn in Hk2, Hk3. apply NoDup_cons in Hk3 as [_ Hk3]. split.
  - rewrite map_app. apply NoDup_app. split; [done|]. split; [|done]. intros x Hx Hx'. apply (Hk2 x Hx). by right.
  - cbn. rewrite He. rewrite !list_to_map_app. cbn. rewrite delete_union, delete_insert_eq.
    rewrite !delete_id; [done|by apply not_elem_of_list_to_map|by apply not_elem_of_list_to_map].
  - apply StronglySorted_app in Ho as (Hx & Hl & Hr). apply StronglySorted_inv in Hr as [Hr _]. apply StronglySorted_app.
    split; [|done]. intros x y Hin Hin'. apply Hx; [done|by right].
  - apply Forall_app in Hs as [Hs1 Hs2]. apply Forall_cons in Hs2 as [_ Hs2]. by apply Forall_app.
  - cbn. rewrite Hu, erase_app, lru_bytes_app. lia.
  - cbn. rewrite erase_app, lru_bytes_app. lia.
Qed.

Lemma rep_push next p es k v stamp :
  partition_rep next p es → (k ∉ map fst es) → 0 ≤ next ≤ stamp → pt_usage_bytes p + zlen v ≤ pt_capacity_bytes p →
  partition_rep (stamp + 1) (with_contents (pt_usage_bytes p + zlen v)
    (<[k := {| ce_value := v; ce_stamp := stamp |}]> (pt_entries p)) p) ((k, {| ce_value := v; ce_stamp := stamp |}) :: es).
Proof.
  intros [Hk He Ho Hs Hu Hc] Hno Hle Hroom. split.
  - cbn. by apply NoDup_cons.
  - cbn. by rewrite He.
  - constructor; [done|]. eapply Forall_impl; [exact Hs|]. intros x Hx. cbn in *. lia.
  - constructor; [cbn; lia|]. eapply Forall_impl; [exact Hs|]. intros x Hx. cbn in *. lia.
  - cbn. fold (erase es). lia.
  - cbn. fold (erase es). lia.
Qed.

(** ** Eviction *)

Lemma min_by_age_spec l :
  match min_by_age l with
  | None => l = []
  | Some m => m ∈ l ∧ ∀ y, y ∈ l → age_cmp y m ≠ Lt
  end.
Proof.
  unfold min_by_age. induction l as [|x l IH] using rev_ind; [done|]. rewrite fold_left_app. cbn [fold_left].
  destruct (fold_left _ l None) as [m|].
  - destruct IH as [Hm Hall]. destruct (age_cmp x m) eqn:E.
    + split; [apply elem_of_app; by left|]. intros y [Hy|Hy%list_elem_of_singleton]%elem_of_app; [by apply Hall|by rewrite Hy, E].
    + split; [apply elem_of_app; right; by left|]. intros y [Hy|Hy%list_elem_of_singleton]%elem_of_app.
      * specialize (Hall y Hy). intros Hlt. apply Hall. unfold age_cmp in *. by eapply cmp_trans.
      * subst. unfold age_cmp. by rewrite lex_cmp_refl.
    + split; [apply elem_of_app; by left|]. intros y [Hy|Hy%list_elem_of_singleton]%elem_of_app; [by apply Hall|by rewrite Hy, E].
  - subst l. split; [by left|]. intros y ->%list_elem_of_singleton. unfold age_cmp. by rewrite lex_cmp_refl.
Qed.

Lemma evict_last next p es x :
  partition_rep next p (es ++ [x]) →
  ∃ p', evict_oldest p = Ok p' ∧ partition_rep next p' es ∧ pt_capacity_bytes p' = pt_capacity_bytes p.
Proof.
  intros Hr. pose proof (min_by_age_spec (map_to_list (pt_entries p))) as Hm. unfold evict_oldest.
  assert (∀ y, y ∈ map_to_list (pt_entries p) ↔ y ∈ es ++ [x]) as Hl.
  { intros [k e]. rewrite elem_of_map_to_list. by apply rep_lookup with (1 := Hr). }
  destruct (min_by_age _) as [[k e]|].
  - destruct Hm as [Hin Hmin]. apply Hl in Hin. assert ((k, e) = x) as <-.
    { apply elem_of_app in Hin as [Hin|Hin%list_elem_of_singleton]; [|done]. exfalso.
      apply (Hmin x); [apply Hl, elem_of_app; right; by left|]. pose proof (pr_order _ _ _ Hr) as Ho.
      apply StronglySorted_app in Ho as (Ho & _). specialize (Ho (k, e) x Hin ltac:(by left)). cbn in Ho.
      unfold age_cmp. cbn. apply Z.compare_lt_iff in Ho. by rewrite Ho. }
    destruct (rep_split _ _ _ _ _ Hr Hin) as (a & b & Heq & Ha & Hb).
    assert (b = [] ∧ a = es) as [-> ->].
    { destruct b as [|y b _] using rev_ind; [by apply app_inj_tail in Heq as [-> _]|]. exfalso.
      rewrite app_comm_cons, app_assoc in Heq. apply app_inj_tail in Heq as [_ <-]. apply Hb. rewrite map_app. apply elem_of_app. right. by left. }
    destruct (rep_remove _ _ _ _ _ _ Hr Ha Hb) as [Hr' Hle]. rewrite app_nil_r in Hr'.
    unfold checked_sub. rewrite (proj2 (Z.leb_le _ _)) by done. cbn. by eexists.
  - assert (x ∈ map_to_list (pt_entries p)) as Hin by (apply Hl, elem_of_app; right; by left). rewrite Hm in Hin. by apply elem_of_nil in Hin.
Qed.

Lemma shrink_fits room l : lru_bytes l ≤ room → lru_shrink room l = l.
Proof.
  revert room. induction l as [|x l IH]; intros room Hb; [done|]. cbn in *. pose proof (lru_bytes_nonneg l).
  rewrite (proj2 (Z.leb_le _ _)) by lia. f_equal. apply IH. lia.
Qed.

Lemma shrink_last room l x : room < lru_bytes (l ++ [x]) → lru_shrink room (l ++ [x]) = lru_shrink room l.
Proof.
  revert room. induction l as [|y l IH]; intros room Hb; cbn in *; [rewrite (proj2 (Z.leb_gt _ _)) by lia; done|].
  destruct (_ <=? room); [|done]. f_equal. apply IH. lia.
Qed.

Lemma make_room_spec next es p need :
  partition_rep next p es → 0 ≤ need ≤ pt_capacity_bytes p →
  ∃ p' es', make_room (length es) need p = Ok p' ∧ partition_rep next p' es' ∧ pt_capacity_bytes p' = pt_capacity_bytes p ∧
    erase es' = lru_shrink (pt_capacity_bytes p - need) (erase es) ∧ pt_usage_bytes p' + need ≤ pt_capacity_bytes p ∧
    es' `prefix_of` es.
Proof.
  revert p. induction es as [|x es IH] using rev_ind; intros p Hr Hn.
  - exists p, []. assert (pt_usage_bytes p = 0) as Hu by apply (pr_usage _ _ _ Hr). cbn. unfold fits_in_budget, saturating_sub.
    rewrite Hu, (proj2 (Z.leb_le _ _)) by lia. do 4 (split; [done|]). split; [lia|done].
  - rewrite length_app, Nat.add_comm. cbn [length Nat.add make_room]. unfold fits_in_budget, saturating_sub.
    pose proof (pr_usage _ _ _ Hr) as Hu. destruct (Z.leb_spec need (Z.max (pt_capacity_bytes p - pt_usage_bytes p) 0)) as [Hfit|Hno].
    + exists p, (es ++ [x]). split; [done|]. split; [done|]. split; [done|]. pose proof (pr_capacity _ _ _ Hr).
      split; [symmetry; apply shrink_fits; lia|]. split; [lia|done].
    + destruct (evict_last _ _ _ _ Hr) as (p1 & -> & Hr1 & Hc1).
      destruct (IH _ (rep_activity _ _ _ (pt_hits p1) (pt_misses p1) (pt_admissions p1) (saturating_add (pt_evictions p1) 1) Hr1))
        as (p' & es' & He & Hr' & Hc' & Her & Hroom & Hpre); [cbn; lia|]. cbn in Hc', Her, Hroom. rewrite Hc1 in *.
      exists p', es'. split; [done|]. split; [done|]. split; [done|]. split; [|split; [done|by apply prefix_app_r]].
      rewrite Her, erase_app. symmetry. rewrite Hu, erase_app in Hno. cbn [erase map] in Hno |- *. apply shrink_last. fold (erase es). lia.
Qed.

(** ** Renumbering *)

#[global] Instance CachePartition_eq_dec : EqDecision CachePartition.
Proof. solve_decision. Defined.

Definition owner (x : ranked) : CachePartition * CacheKey := (x.1.2, x.2).

(** The number that an entry gets. *)
Fixpoint rank_in (n : Z) (ordered : list ranked) (o : CachePartition * CacheKey) : option Z :=
  match ordered with
  | [] => None
  | x :: ordered => if decide (owner x = o) then Some n else rank_in (n + 1) ordered o
  end.

Definition set_stamp (r : option Z) (e : CacheEntry) : CacheEntry :=
  match r with Some r => {| ce_value := ce_value e; ce_stamp := r |} | None => e end.

Lemma rank_none n ordered o : (o ∉ map owner ordered) → rank_in n ordered o = None.
Proof.
  revert n. induction ordered as [|x l IH]; intros n Ho; [done|]. cbn in Ho |- *. rewrite not_elem_of_cons in Ho. destruct Ho as [H1 H2].
  rewrite decide_False by congruence. by apply IH.
Qed.

Lemma rank_some n ordered j x :
  NoDup (map owner ordered) → ordered !! j = Some x → rank_in n ordered (owner x) = Some (n + Z.of_nat j).
Proof.
  revert n j. induction ordered as [|y l IH]; intros n j Hnd Hj; [done|]. cbn in Hnd |- *. apply NoDup_cons in Hnd as [Hy Hnd].
  destruct j as [|j]; cbn in Hj.
  - injection Hj as ->. rewrite decide_True by done. f_equal. lia.
  - rewrite decide_False; [rewrite (IH (n + 1) j Hnd Hj); f_equal; lia|]. intros Heq. apply Hy. rewrite Heq.
    apply list_elem_of_fmap_2. by eapply list_elem_of_lookup_2.
Qed.

Lemma partition_with c c' p s : partition c (with_partition c' p s) = if decide (c = c') then p else partition c s.
Proof. by destruct c, c'. Qed.

Lemma restamp_all_spec ordered n s :
  NoDup (map owner ordered) → (∀ x, x ∈ ordered → is_Some (pt_entries (partition x.1.2 s) !! x.2)) →
  ∃ s', restamp_all n ordered s = Ok s' ∧ cs_next_stamp s' = cs_next_stamp s ∧
    ∀ c, partition c s' = with_contents (pt_usage_bytes (partition c s)) (pt_entries (partition c s')) (partition c s) ∧
      ∀ k, pt_entries (partition c s') !! k = set_stamp (rank_in n ordered (c, k)) <$> pt_entries (partition c s) !! k.
Proof.
  revert n s. induction ordered as [|[[st c0] k0] ordered IH]; intros n s Hnd Hin; cbn [restamp_all].
  { exists s. do 2 (split; [done|]). intros c. split; [by destruct (partition c s)|]. intros k. cbn. by destruct (pt_entries _ !! k). }
  cbn in Hnd. apply NoDup_cons in Hnd as [Hx Hnd]. unfold restamp. cbn [fst snd].
  destruct (Hin (st, c0, k0) ltac:(by left)) as [e He]. cbn in He. rewrite He.
  set (s1 := with_partition _ _ s). assert (∀ c, let p := partition c s in
      partition c s1 = with_contents (pt_usage_bytes p) (pt_entries (partition c s1)) p ∧
      ∀ k, pt_entries (partition c s1) !! k = set_stamp (if decide ((c0, k0) = (c, k)) then Some n else None) <$> pt_entries p !! k) as H1.
  { intros c p. unfold s1. rewrite partition_with. destruct (decide (c = c0)) as [->|Hne].
    - split; [done|]. intros k. cbn. destruct (decide (k = k0)) as [->|Hk].
      + rewrite lookup_insert_eq, decide_True by done. unfold p. by rewrite He.
      + rewrite lookup_insert_ne, decide_False by congruence. fold p. by destruct (pt_entries p !! k).
    - split; [by unfold p; destruct (partition c s)|]. intros k. rewrite decide_False by congruence. fold p. by destruct (pt_entries p !! k). }
  destruct (IH (n + 1) s1 Hnd) as (s' & Hs' & Hn' & Hp').
  { intros x Hx'. destruct (H1 x.1.2) as [_ ->]. destruct (Hin x ltac:(by right)) as [e' ->]. eauto. }
  exists s'. split; [done|]. split; [by rewrite Hn'; unfold s1; destruct c0|]. intros c.
  destruct (Hp' c) as [E1 E2]. destruct (H1 c) as [F1 F2]. set (p := partition c s) in *. split.
  - rewrite E1 at 1. rewrite F1. by destruct p.
  - intros k. rewrite E2, F2. cbn [rank_in]. change (owner (st, c0, k0)) with (c0, k0). destruct (decide ((c0, k0) = (c, k))) as [Heq|Hne].
    + rewrite rank_none by (by rewrite <- Heq). by destruct (pt_entries p !! k).
    + by destruct (pt_entries p !! k).
Qed.

Lemma sorted_lookup {A} (R : A → A → Prop) l i j x y :
  StronglySorted R l → l !! i = Some x → l !! j = Some y → (i < j)%nat → R x y.
Proof.
  intros Hs. revert i j. induction Hs as [|a l Hs IH Hall]; intros [|i] [|j] Hi Hj Hlt; cbn in *; try done; try lia.
  - injection Hi as ->. rewrite Forall_forall in Hall. by apply Hall, list_elem_of_lookup_2 with j.
  - apply (IH i j); [done|done|lia].
Qed.

Lemma ranked_order l i j x y :
  StronglySorted (λ a b, ranked_cmp a b ≠ Gt) l → l !! i = Some x → l !! j = Some y → ranked_cmp x y = Lt → (i < j)%nat.
Proof.
  intros Hs Hi Hj Hlt. destruct (Nat.lt_trichotomy i j) as [?|[->|Hgt]]; [done| |].
  - rewrite Hi in Hj. injection Hj as ->. unfold ranked_cmp in Hlt. by rewrite lex_cmp_refl in Hlt.
  - pose proof (sorted_lookup _ _ _ _ _ _ Hs Hj Hi Hgt) as H. unfold ranked_cmp in *. rewrite (cmp_antisym (cmp := lex_cmp)), Hlt in H. done.
Qed.

Lemma restamped_lookup (g : CacheKey → CacheEntry → CacheEntry) (es : stamped) k :
  (list_to_map (map (λ x, (x.1, g x.1 x.2)) es) : gmap CacheKey CacheEntry) !! k = g k <$> (list_to_map es : gmap CacheKey CacheEntry) !! k.
Proof.
  induction es as [|[k' e] es IH]; cbn; [by rewrite !lookup_empty|]. destruct (decide (k = k')) as [->|Hne].
  - by rewrite !lookup_insert_eq.
  - by rewrite !lookup_insert_ne.
Qed.

(** The entries of one partition in the order of all. *)
Lemma renumbered next c s p' es ordered :
  partition_rep next (partition c s) es → StronglySorted (λ a b, ranked_cmp a b ≠ Gt) ordered → NoDup (map owner ordered) →
  (∀ x, x ∈ es → (ce_stamp x.2, c, x.1) ∈ ordered) →
  p' = with_contents (pt_usage_bytes (partition c s)) (pt_entries p') (partition c s) →
  (∀ k, pt_entries p' !! k = set_stamp (rank_in 0 ordered (c, k)) <$> pt_entries (partition c s) !! k) →
  ∃ es', partition_rep (zlen ordered) p' es' ∧ erase es' = erase es.
Proof.
  intros Hr Hs Hnd Hin Hp' Hlk. set (g := λ k, set_stamp (rank_in 0 ordered (c, k))). pose proof Hr as [Hk He Ho Hst Hu Hc].
  exists (map (λ x, (x.1, g x.1 x.2)) es).
  assert (erase (map (λ x, (x.1, g x.1 x.2)) es) = erase es) as Her.
  { unfold erase. rewrite map_map. apply map_ext. intros [k e]. unfold g, set_stamp. cbn. by destruct (rank_in _ _ _). }
  assert (∀ x, x ∈ es → ∃ j, ordered !! j = Some (ce_stamp x.2, c, x.1) ∧ ce_stamp (g x.1 x.2) = Z.of_nat j) as Hj.
  { intros [k e] Hx. destruct (list_elem_of_lookup_1 _ _ (Hin _ Hx)) as [j Hj]. exists j. split; [done|]. unfold g. cbn.
    pose proof (rank_some 0 ordered j _ Hnd Hj) as Hrk. change (owner _) with (c, k) in Hrk. by rewrite Hrk. }
  split; [split|done].
  - by rewrite map_map.
  - apply map_eq. intros k. by rewrite restamped_lookup, Hlk, He.
  - clear -Ho Hj Hs. induction Ho as [|x es Ho IH Hall]; cbn; [constructor|]. constructor; [apply IH; intros y Hy; apply Hj; by right|].
    apply Forall_fmap, Forall_forall. intros y Hy. rewrite Forall_forall in Hall. specialize (Hall y Hy). cbn.
    destruct (Hj x ltac:(by left)) as (i & Hi & ->). destruct (Hj y ltac:(by right)) as (j & Hj' & ->). apply Nat2Z.inj_lt.
    eapply ranked_order; [exact Hs|exact Hj'|exact Hi|]. unfold ranked_cmp. cbn. apply Z.compare_lt_iff in Hall. by rewrite Hall.
  - apply Forall_fmap, Forall_forall. intros x Hx. cbn. destruct (Hj x Hx) as (j & Hl & ->). apply lookup_lt_Some in Hl. split; [lia|].
    by apply Nat2Z.inj_lt.
  - rewrite Her, Hp'. exact Hu.
  - rewrite Her, Hp'. exact Hc.
Qed.

Lemma rep_perm next p es : partition_rep next p es → map_to_list (pt_entries p) ≡ₚ es.
Proof. intros [Hk -> _ _ _ _]. by apply map_to_list_to_map. Qed.

Lemma rep_size next p es : partition_rep next p es → size (pt_entries p) = length es.
Proof. intros Hr. rewrite <- length_map_to_list. by rewrite (rep_perm _ _ _ Hr). Qed.

Lemma renormalize_spec next s m d :
  partition_rep next (cs_metadata s) m → partition_rep next (cs_data s) d → zlen m + zlen d ≤ U64_MAX →
  ∃ s' m' d', renormalize_stamps s = Ok s' ∧ cs_next_stamp s' = zlen m + zlen d ∧
    partition_rep (zlen m + zlen d) (cs_metadata s') m' ∧ partition_rep (zlen m + zlen d) (cs_data s') d' ∧
    erase m' = erase m ∧ erase d' = erase d ∧
    pt_capacity_bytes (cs_metadata s') = pt_capacity_bytes (cs_metadata s) ∧
    pt_capacity_bytes (cs_data s') = pt_capacity_bytes (cs_data s).
Proof.
  intros Hm Hd Hmax. unfold renormalize_stamps. set (all := ranked_entries PartMetadata s ++ ranked_entries PartData s).
  set (ordered := sort_by ranked_cmp all). set (tag := λ (c : CachePartition) (es : stamped), map (λ x, (ce_stamp x.2, c, x.1) : ranked) es).
  assert (ordered ≡ₚ tag PartMetadata m ++ tag PartData d) as Hperm.
  { unfold ordered. rewrite sort_by_perm. unfold all, ranked_entries, tag. apply Permutation_app; apply fmap_Permutation; by eapply rep_perm. }
  assert (∀ c es next, partition_rep next (partition c s) es → NoDup (map owner (tag c es))) as Htag.
  { intros c es next' Hr. unfold tag. rewrite map_map. cbn. pose proof (pr_keys _ _ _ Hr) as Hk.
    assert (Inj (=) (=) (λ k : CacheKey, (c, k))) by (by intros k k' [=]).
    apply (NoDup_fmap_2 (λ k : CacheKey, (c, k))) in Hk. change (NoDup (map (λ k : CacheKey, (c, k)) (map fst es))) in Hk. by rewrite map_map in Hk. }
  assert (NoDup (map owner ordered)) as Hnd.
  { rewrite Hperm, map_app. apply NoDup_app. split; [by eapply Htag|]. split; [|by eapply Htag].
    intros o Ho Ho'. unfold tag in *. rewrite map_map in Ho, Ho'. apply list_elem_of_fmap in Ho as (x & -> & _), Ho' as (y & [=] & _). }
  assert (StronglySorted (λ a b, ranked_cmp a b ≠ Gt) ordered) as Hs.
  { apply sort_by_sorted; unfold ranked_cmp.
    - intros x y H. rewrite (cmp_antisym (cmp := lex_cmp)), H. done.
    - intros x y z. apply (cmp_le_trans (cmp := lex_cmp)). }
  assert (∀ c es next, partition_rep next (partition c s) es → (∀ x, x ∈ tag c es → x ∈ ordered) →
    ∀ x, x ∈ es → (ce_stamp x.2, c, x.1) ∈ ordered) as Hin.
  { intros c es next' _ Hsub x Hx. apply Hsub. unfold tag. apply list_elem_of_fmap. by exists x. }
  destruct (restamp_all_spec ordered 0 s Hnd) as (s' & -> & _ & Hp).
  { intros x. rewrite Hperm, elem_of_app. unfold tag. intros [([k e] & -> & Hx)%list_elem_of_fmap|([k e] & -> & Hx)%list_elem_of_fmap]; exists e; cbn.
    - by apply (rep_lookup _ _ _ _ _ Hm).
    - by apply (rep_lookup _ _ _ _ _ Hd). }
  assert (zlen ordered = zlen m + zlen d) as Hlen.
  { unfold zlen. rewrite Hperm, length_app. unfold tag. rewrite !length_map. lia. }
  destruct (Hp PartMetadata) as [M1 M2]. destruct (Hp PartData) as [D1 D2].
  destruct (renumbered next PartMetadata s (cs_metadata s') m ordered Hm Hs Hnd) as (m' & Hm' & Em); [|exact M1|exact M2|].
  { eapply Hin; [exact Hm|]. intros x Hx. rewrite Hperm. apply elem_of_app. by left. }
  destruct (renumbered next PartData s (cs_data s') d ordered Hd Hs Hnd) as (d' & Hd' & Ed); [|exact D1|exact D2|].
  { eapply Hin; [exact Hd|]. intros x Hx. rewrite Hperm. apply elem_of_app. by right. }
  rewrite Hlen in Hm', Hd'. pose proof (f_equal length Em) as Lm. pose proof (f_equal length Ed) as Ld. unfold erase in Lm, Ld. rewrite !length_map in Lm, Ld.
  eexists _, m', d'. split; [reflexivity|]. cbn [with_next_stamp cs_next_stamp cs_metadata cs_data].
  rewrite (rep_size _ _ _ Hm'), (rep_size _ _ _ Hd'), Lm, Ld. split; [unfold saturating_add, zlen in *; unfold USIZE_MAX; lia|].
  do 4 (split; [done|]). cbn in M1, D1. by rewrite M1, D1.
Qed.

(** ** The whole cache *)

Record lru_cache : Type := { lc_metadata_bytes : Z; lc_data_bytes : Z; lc_metadata : lru; lc_data : lru }.

Definition lc_capacity (c : CachePartition) (x : lru_cache) : Z :=
  match c with PartMetadata => lc_metadata_bytes x | PartData => lc_data_bytes x end.
Definition lc_part (c : CachePartition) (x : lru_cache) : lru :=
  match c with PartMetadata => lc_metadata x | PartData => lc_data x end.
Definition lc_with (c : CachePartition) (l : lru) (x : lru_cache) : lru_cache :=
  match c with
  | PartMetadata => {| lc_metadata_bytes := lc_metadata_bytes x; lc_data_bytes := lc_data_bytes x; lc_metadata := l; lc_data := lc_data x |}
  | PartData => {| lc_metadata_bytes := lc_metadata_bytes x; lc_data_bytes := lc_data_bytes x; lc_metadata := lc_metadata x; lc_data := l |}
  end.

Definition lru_new (total_bytes : Z) : lru_cache :=
  {| lc_metadata_bytes := total_bytes / 5; lc_data_bytes := total_bytes - total_bytes / 5; lc_metadata := []; lc_data := [] |}.

(** The stamps are below [next]. *)
Definition cache_rep (next : Z) (s : CacheState) (x : lru_cache) : Prop :=
  0 ≤ next ∧ ∀ c, pt_capacity_bytes (partition c s) = lc_capacity c x ∧
    ∃ es, partition_rep next (partition c s) es ∧ erase es = lc_part c x.

Lemma rep_erase_length es l : erase es = l → zlen es = zlen l.
Proof. intros <-. unfold erase. by rewrite zlen_map. Qed.

Lemma bump_spec s x :
  cache_rep (cs_next_stamp s) s x → cs_next_stamp s ≤ U64_MAX → zlen (lc_metadata x) + zlen (lc_data x) < U64_MAX →
  ∃ stamp s', bump_stamp s = Ok (stamp, s') ∧ cache_rep stamp s' x ∧ cs_next_stamp s' = stamp + 1 ∧ stamp < U64_MAX.
Proof.
  intros [H0 Hs] Hmax Hn. destruct (Hs PartMetadata) as (Cm & m & Hm & Em). destruct (Hs PartData) as (Cd & d & Hd & Ed).
  cbn in Cm, Cd, Hm, Hd, Em, Ed. pose proof (rep_erase_length _ _ Em) as Lm. pose proof (rep_erase_length _ _ Ed) as Ld.
  pose proof (zlen_nonneg m). pose proof (zlen_nonneg d). unfold bump_stamp. destruct (Z.eqb_spec (cs_next_stamp s) U64_MAX) as [Heq|Hne].
  - destruct (renormalize_spec _ _ _ _ Hm Hd ltac:(lia)) as (s1 & m' & d' & -> & -> & Hm' & Hd' & Em' & Ed' & Cm' & Cd').
    eexists _, _. split; [reflexivity|]. unfold saturating_add. rewrite Z.min_l by (unfold USIZE_MAX; lia). split; [|split; [done|lia]].
    split; [lia|]. intros []; cbn; (split; [congruence|]); eexists; (split; [eassumption|congruence]).
  - eexists _, _. split; [reflexivity|]. unfold saturating_add. rewrite Z.min_l by (unfold USIZE_MAX; lia). split; [|split; [done|lia]].
    split; [done|]. intros []; cbn; (split; [done|]); eauto.
Qed.

Lemma cache_rep_with stamp s x c p l es :
  cache_rep stamp s x → partition_rep (stamp + 1) p es → erase es = l → pt_capacity_bytes p = lc_capacity c x →
  cache_rep (stamp + 1) (with_partition c p s) (lc_with c l x).
Proof.
  intros [H0 Hs] Hp He Hc. split; [lia|]. intros c'. destruct (Hs c') as (Hc' & es' & Hr & Her).
  rewrite partition_with. destruct (decide (c' = c)) as [->|Hne].
  - split; [by destruct c|]. exists es. split; [done|]. by destruct c.
  - split; [by destruct c, c'|]. exists es'. split; [eapply rep_later; [exact Hr|lia]|]. by destruct c, c'.
Qed.

Abbreviation key_of file offset kind := {| ck_file_number := file; ck_block_offset := offset; ck_kind := kind |}.

Lemma get_refines file offset kind s x :
  cache_rep (cs_next_stamp s) s x → cs_next_stamp s ≤ U64_MAX → zlen (lc_metadata x) + zlen (lc_data x) < U64_MAX →
  let c := BlockKind_partition kind in let '(o, l) := lru_get (key_of file offset kind) (lc_part c x) in
  ∃ s', BlockCache_get file offset kind s = Ok (o, s') ∧ cache_rep (cs_next_stamp s') s' (lc_with c l x) ∧ cs_next_stamp s' ≤ U64_MAX.
Proof.
  intros Hr Hmax Hn c. set (k := key_of file offset kind). destruct (bump_spec s x Hr Hmax Hn) as (stamp & s1 & Hb & Hr1 & Hn1 & Hlt).
  unfold BlockCache_get. rewrite Hb. fold k c. pose proof Hr1 as [H0 Hs]. destruct (Hs c) as (Hc & es & He & Her).
  unfold lru_get. rewrite <- Her. destruct (pt_entries (partition c s1) !! k) as [e|] eqn:Elk.
  - apply (rep_lookup _ _ _ _ _ He) in Elk. destruct (rep_split _ _ _ _ _ He Elk) as (a & b & -> & Ha & Hb').
    rewrite (find_some _ k (ce_value e)); [|rewrite erase_keys; apply He|unfold erase; apply list_elem_of_fmap; by exists (k, e)].
    rewrite remove_split by done. eexists. split; [reflexivity|]. set (p := partition c s1) in *.
    destruct (rep_remove _ _ _ _ _ _ He Ha Hb') as [Hrem Hle]. set (e' := {| ce_value := ce_value e; ce_stamp := stamp |}).
    pose proof (rep_push _ _ _ k (ce_value e) stamp Hrem) as Hpush. rewrite map_app, not_elem_of_app in Hpush. cbn in Hpush.
    specialize (Hpush (conj Ha Hb') ltac:(lia)). rewrite insert_delete_eq in Hpush.
    replace (pt_usage_bytes p - zlen (ce_value e) + zlen (ce_value e)) with (pt_usage_bytes p) in Hpush by lia.
    pose proof (pr_usage _ _ _ He) as Hu. pose proof (pr_capacity _ _ _ He) as Hcap.
    specialize (Hpush ltac:(lia)). apply (rep_activity _ _ _ (saturating_add (pt_hits p) 1) (pt_misses p) (pt_admissions p) (pt_evictions p)) in Hpush.
    assert (∀ q, cs_next_stamp (with_partition c q s1) = stamp + 1) as Hq by (intros q; by destruct c).
    rewrite Hq. split; [|lia]. by eapply cache_rep_with; [exact Hr1|exact Hpush| |].
  - apply (rep_none _ _ _ _ He) in Elk. rewrite find_none by (by rewrite erase_keys). eexists. split; [reflexivity|].
    set (p := partition c s1) in *. assert (∀ q, cs_next_stamp (with_partition c q s1) = stamp + 1) as Hq by (intros q; by destruct c).
    rewrite Hq. split; [|lia]. eapply cache_rep_with; [exact Hr1| |done|exact Hc]. eapply rep_activity, rep_later; [exact He|lia].
Qed.

Lemma insert_refines file offset kind v s x :
  cache_rep (cs_next_stamp s) s x → cs_next_stamp s ≤ U64_MAX → zlen (lc_metadata x) + zlen (lc_data x) < U64_MAX →
  let c := BlockKind_partition kind in let '(o, l) := lru_insert (lc_capacity c x) (key_of file offset kind) v (lc_part c x) in
  ∃ s', BlockCache_insert file offset kind v s = Ok (o, s') ∧ cache_rep (cs_next_stamp s') s' (lc_with c l x) ∧ cs_next_stamp s' ≤ U64_MAX.
Proof.
  intros Hr Hmax Hn c. set (k := key_of file offset kind). unfold BlockCache_insert, lru_insert. fold k c. pose proof Hr as [_ Hs0].
  rewrite (proj1 (Hs0 c)). destruct (Z.ltb_spec (lc_capacity c x) (zlen v)) as [Hbig|Hfit].
  { eexists. split; [reflexivity|]. split; [|done]. by destruct c, x. }
  destruct (bump_spec s x Hr Hmax Hn) as (stamp & s1 & -> & Hr1 & Hn1 & Hlt). pose proof Hr1 as [H0 Hs].
  destruct (Hs c) as (Hc & es & He & Her). set (p := partition c s1) in *.
  assert (∃ p1 es1, (match pt_entries p !! k with
      | Some replaced => let? usage := ok_or (checked_sub (pt_usage_bytes p) (zlen (ce_value replaced)))
          (Panicked "cache usage includes every retained entry") in Ok (with_contents usage (delete k (pt_entries p)) p)
      | None => Ok p end) = Ok p1 ∧ partition_rep stamp p1 es1 ∧ erase es1 = lru_remove k (lc_part c x) ∧ (k ∉ map fst es1) ∧
      pt_capacity_bytes p1 = pt_capacity_bytes p) as (p1 & es1 & -> & Hr2 & Her1 & Hk1 & Hc1).
  { rewrite <- Her. destruct (pt_entries p !! k) as [e|] eqn:Elk.
    - apply (rep_lookup _ _ _ _ _ He) in Elk. destruct (rep_split _ _ _ _ _ He Elk) as (a & b & -> & Ha & Hb).
      destruct (rep_remove _ _ _ _ _ _ He Ha Hb) as [Hrem Hle]. unfold checked_sub. rewrite (proj2 (Z.leb_le _ _)) by done.
      eexists _, _. split; [reflexivity|]. split; [exact Hrem|]. rewrite remove_split by done. split; [done|].
      rewrite map_app, not_elem_of_app. done.
    - apply (rep_none _ _ _ _ He) in Elk. exists p, es. do 2 (split; [done|]). rewrite remove_absent by (by rewrite erase_keys). done. }
  rewrite (rep_size _ _ _ Hr2). pose proof (zlen_nonneg v) as Hv.
  destruct (make_room_spec _ _ _ (zlen v) Hr2) as (p2 & es2 & -> & Hr3 & Hc2 & Her2 & Hroom & Hpre); [lia|].
  pose proof (pr_capacity _ _ _ Hr3) as Hcap. unfold checked_add. rewrite (proj2 (Z.leb_le _ _)) by lia. cbn [ok_or].
  eexists. split; [reflexivity|]. pose proof (rep_push _ _ _ k v stamp Hr3) as Hpush.
  specialize (Hpush ltac:(intros Hin; apply Hk1; destruct Hpre as [t ->]; rewrite map_app; apply elem_of_app; by left) ltac:(lia) ltac:(lia)).
  apply (rep_activity _ _ _ (pt_hits p2) (pt_misses p2) (saturating_add (pt_admissions p2) 1) (pt_evictions p2)) in Hpush.
  assert (∀ q, cs_next_stamp (with_partition c q s1) = stamp + 1) as Hq by (intros q; by destruct c).
  rewrite Hq. split; [|lia]. eapply cache_rep_with; [exact Hr1|exact Hpush| |cbn; congruence].
  cbn. fold (erase es2). rewrite Her2, Her1. do 3 f_equal. rewrite Hc1, Hc. done.
Qed.

(** ** Any sequence of lookups and admissions *)

Inductive cache_op : Type :=
| CacheGet (file offset : Z) (kind : BlockKind)
| CacheInsert (file offset : Z) (kind : BlockKind) (value : bytes).

Inductive cache_answer : Type := Looked (value : option bytes) | Offered (fits : bool).

Definition cache_step (op : cache_op) (s : CacheState) : result (cache_answer * CacheState) :=
  match op with
  | CacheGet file offset kind => let? (v, s) := BlockCache_get file offset kind s in Ok (Looked v, s)
  | CacheInsert file offset kind value => let? (b, s) := BlockCache_insert file offset kind value s in Ok (Offered b, s)
  end.

Definition lru_step (op : cache_op) (x : lru_cache) : cache_answer * lru_cache :=
  match op with
  | CacheGet file offset kind =>
    let c := BlockKind_partition kind in
    let '(v, l) := lru_get (key_of file offset kind) (lc_part c x) in (Looked v, lc_with c l x)
  | CacheInsert file offset kind value =>
    let c := BlockKind_partition kind in
    let '(b, l) := lru_insert (lc_capacity c x) (key_of file offset kind) value (lc_part c x) in (Offered b, lc_with c l x)
  end.

Fixpoint run_cache (ops : list cache_op) (s : CacheState) : result (list cache_answer * CacheState) :=
  match ops with
  | [] => Ok ([], s)
  | op :: ops => let? (a, s) := cache_step op s in let? (l, s) := run_cache ops s in Ok (a :: l, s)
  end.

Fixpoint run_lru (ops : list cache_op) (x : lru_cache) : list cache_answer * lru_cache :=
  match ops with
  | [] => ([], x)
  | op :: ops => let '(a, x) := lru_step op x in let '(l, x) := run_lru ops x in (a :: l, x)
  end.

(** Blocks are not empty. *)
Definition op_nonempty (op : cache_op) : Prop := match op with CacheInsert _ _ _ v => v ≠ [] | CacheGet _ _ _ => True end.
Definition lru_nonempty (l : lru) : Prop := Forall (λ x, x.2 ≠ []) l.

Lemma nonempty_length l : lru_nonempty l → zlen l ≤ lru_bytes l.
Proof.
  induction 1 as [|x l Hx _ IH]; [done|]. rewrite zlen_cons. cbn [lru_bytes]. destruct x.2 as [|b v]; [done|].
  rewrite zlen_cons. pose proof (zlen_nonneg v). lia.
Qed.

Lemma shrink_prefix room l : lru_shrink room l `prefix_of` l.
Proof.
  revert room. induction l as [|x l IH]; intros room; cbn; [done|]. destruct (_ <=? _); [by apply prefix_cons|apply prefix_nil].
Qed.

(** A property of the entries is kept when the admitted entry has it. *)
Definition op_admits (P : CacheKey * bytes → Prop) (op : cache_op) : Prop :=
  match op with CacheInsert file offset kind v => P (key_of file offset kind, v) | CacheGet _ _ _ => True end.

Lemma remove_forall (P : CacheKey * bytes → Prop) k l : Forall P l → Forall P (lru_remove k l).
Proof. rewrite !Forall_forall. intros H x [_ Hx]%elem_of_filter_b. by apply H. Qed.

Lemma find_forall (P : CacheKey * bytes → Prop) k l v : Forall P l → lru_find k l = Some v → P (k, v).
Proof.
  intros Hl E. induction Hl as [|[k' v'] l Hy _ IH]; cbn in E; [done|]. destruct (decide _) as [->|]; [by injection E as ->|by apply IH].
Qed.

Lemma step_forall (P : CacheKey * bytes → Prop) op x :
  op_admits P op → (∀ c, Forall P (lc_part c x)) →
  (∀ c, Forall P (lc_part c (lru_step op x).2) ∧ lc_capacity c (lru_step op x).2 = lc_capacity c x).
Proof.
  intros Hop Hx. assert (∀ c l, Forall P l → ∀ c', Forall P (lc_part c' (lc_with c l x)) ∧ lc_capacity c' (lc_with c l x) = lc_capacity c' x) as Hw.
  { intros c l Hl c'. pose proof (Hx PartMetadata). pose proof (Hx PartData). by destruct c, c'. }
  destruct op as [file offset kind|file offset kind v]; cbn [lru_step].
  - unfold lru_get. destruct (lru_find _ _) as [w|] eqn:E; cbn [snd]; [|apply Hw, Hx].
    apply Hw. constructor; [by eapply find_forall|by apply remove_forall].
  - unfold lru_insert. destruct (_ <? _); cbn [snd]; apply Hw; [apply Hx|]. constructor; [done|].
    destruct (shrink_prefix (lc_capacity (BlockKind_partition kind) x - zlen v) (lru_remove (key_of file offset kind) (lc_part (BlockKind_partition kind) x))) as [t Ht].
    pose proof (remove_forall P (key_of file offset kind) _ (Hx (BlockKind_partition kind))) as H. rewrite Ht in H. by apply Forall_app in H as [? _].
Qed.

Lemma step_nonempty op x :
  op_nonempty op → (∀ c, lru_nonempty (lc_part c x)) →
  (∀ c, lru_nonempty (lc_part c (lru_step op x).2) ∧ lc_capacity c (lru_step op x).2 = lc_capacity c x).
Proof. intros Hop. apply (step_forall (λ x, x.2 ≠ [])). by destruct op. Qed.

Lemma step_refines op s x :
  cache_rep (cs_next_stamp s) s x → cs_next_stamp s ≤ U64_MAX → zlen (lc_metadata x) + zlen (lc_data x) < U64_MAX →
  ∃ s', cache_step op s = Ok ((lru_step op x).1, s') ∧ cache_rep (cs_next_stamp s') s' (lru_step op x).2 ∧ cs_next_stamp s' ≤ U64_MAX.
Proof.
  intros Hr Hm Hn. destruct op as [file offset kind|file offset kind v]; cbn [cache_step lru_step].
  - pose proof (get_refines file offset kind s x Hr Hm Hn) as H. cbn zeta in H. destruct (lru_get _ _) as [o l].
    destruct H as (s' & -> & H1 & H2). by exists s'.
  - pose proof (insert_refines file offset kind v s x Hr Hm Hn) as H. cbn zeta in H. destruct (lru_insert _ _ _ _) as [o l].
    destruct H as (s' & -> & H1 & H2). by exists s'.
Qed.

Lemma rep_small total s x :
  cache_rep (cs_next_stamp s) s x → (∀ c, lru_nonempty (lc_part c x)) → lc_metadata_bytes x + lc_data_bytes x = total → total < U64_MAX →
  zlen (lc_metadata x) + zlen (lc_data x) < U64_MAX.
Proof.
  intros [_ Hs] Hne Ht Hlt. assert (∀ c, zlen (lc_part c x) ≤ lc_capacity c x) as H.
  { intros c. destruct (Hs c) as (<- & es & Hr & He). pose proof (nonempty_length _ (Hne c)). pose proof (pr_capacity _ _ _ Hr). rewrite He in *. lia. }
  pose proof (H PartMetadata). pose proof (H PartData). cbn in *. lia.
Qed.

Lemma run_refines ops total s x :
  cache_rep (cs_next_stamp s) s x → cs_next_stamp s ≤ U64_MAX → (∀ c, lru_nonempty (lc_part c x)) → Forall op_nonempty ops →
  lc_metadata_bytes x + lc_data_bytes x = total → total < U64_MAX →
  ∃ s', run_cache ops s = Ok ((run_lru ops x).1, s') ∧ cache_rep (cs_next_stamp s') s' (run_lru ops x).2.
Proof.
  intros Hr Hm Hne Hops Ht Hlt. revert s x Hr Hm Hne Ht. induction Hops as [|op ops Hop _ IH]; intros s x Hr Hm Hne Ht; cbn; [by exists s|].
  destruct (step_refines op s x Hr Hm) as (s1 & -> & Hr1 & Hm1); [by eapply rep_small|].
  pose proof (step_nonempty op x Hop Hne) as Hx1. destruct (lru_step op x) as [a x1]. cbn in *.
  destruct (IH s1 x1) as (s' & -> & Hr'); [done|done|intros c; apply Hx1| |].
  { pose proof (proj2 (Hx1 PartMetadata)). pose proof (proj2 (Hx1 PartData)). cbn in *. lia. }
  destruct (run_lru ops x1) as [l x']. by exists s'.
Qed.

Lemma new_rep total s :
  1 ≤ total < U64_MAX → BlockCache_new total = Ok s → cache_rep (cs_next_stamp s) s (lru_new total) ∧ cs_next_stamp s = 0.
Proof.
  intros Ht. assert (0 ≤ total / 5 ≤ total) as Hd by (split; [apply Z.div_pos; lia|apply Z.div_le_upper_bound; lia]).
  unfold BlockCache_new. rewrite (proj2 (Z.eqb_neq total 0)) by lia. intros [= <-]. split; [|done].
  split; [done|]. intros c. split; [by destruct c|]. exists []. split; [|by destruct c].
  split; [constructor|by destruct c|constructor|constructor|by destruct c|destruct c; cbn; unfold USIZE_MAX; lia].
Qed.

(** [C27] The block cache is least-recently-used caching with two budgets: from a new
    cache, any sequence of lookups and admissions of non-empty blocks runs without a
    panic, also across the renumbering of its stamps, and returns what the reference
    with entries in the order of use returns; the bytes charged to a partition are
    those of its entries and stay within its budget. *)
Theorem block_cache_is_lru (total : Z) (ops : list cache_op) :
  1 ≤ total < U64_MAX → Forall op_nonempty ops →
  ∃ s0 s, BlockCache_new total = Ok s0 ∧ run_cache ops s0 = Ok ((run_lru ops (lru_new total)).1, s) ∧
    ∀ c, pt_usage_bytes (partition c s) = lru_bytes (lc_part c (run_lru ops (lru_new total)).2) ∧
      pt_usage_bytes (partition c s) ≤ pt_capacity_bytes (partition c s).
Proof.
  intros Ht Hops. destruct (BlockCache_new total) as [s0|] eqn:E.
  2:{ unfold BlockCache_new in E. by rewrite (proj2 (Z.eqb_neq total 0)) in E by lia. }
  destruct (new_rep total s0 Ht E) as [Hr H0]. exists s0.
  destruct (run_refines ops total s0 (lru_new total) Hr) as (s & Hrun & Hs); [rewrite H0; unfold U64_MAX; lia|by intros []; constructor|done|cbn; lia|lia|].
  exists s. do 2 (split; [done|]). intros c. destruct Hs as [_ Hs]. destruct (Hs c) as (_ & es & Hp & <-).
  rewrite (pr_usage _ _ _ Hp). split; [done|apply Hp].
Qed.

Definition sample_cache_ops : list cache_op :=
  [CacheInsert 1 1 KindData [1; 1; 1; 1]; CacheInsert 1 2 KindData [2; 2; 2; 2]; CacheGet 1 1 KindData; CacheInsert 1 3 KindData [3; 3; 3; 3; 3];
   CacheGet 1 1 KindData; CacheGet 1 2 KindData; CacheGet 1 3 KindData; CacheInsert 1 4 KindIndex [4; 4; 4; 4]].

(** Witness of C27: the second block is the least recently used one. *)
Lemma block_cache_is_lru_witness :
  ∃ s0 s, BlockCache_new 15 = Ok s0 ∧
    run_cache sample_cache_ops s0 = Ok ([Offered true; Offered true; Looked (Some [1; 1; 1; 1]); Offered true;
      Looked (Some [1; 1; 1; 1]); Looked None; Looked (Some [3; 3; 3; 3; 3]); Offered false], s).
Proof.
  destruct (block_cache_is_lru 15 sample_cache_ops) as (s0 & s & H0 & H & _); [unfold U64_MAX; lia|by repeat constructor|].
  exists s0, s. split; [exact H0|exact H].
Defined.

(** ** The statistics *)

Inductive stats_op : Type := PointRead_recorded | BloomCheck_recorded (useful_negative : bool) | TableProbe_recorded (level : Z).

Definition stats_step (s : ReadStatsState) (op : stats_op) : result ReadStatsState :=
  match op with
  | PointRead_recorded => Ok (record_point_read s)
  | BloomCheck_recorded b => Ok (record_bloom_check b s)
  | TableProbe_recorded level => record_table_probe level s
  end.

Definition stats_ok (s : ReadStatsState) : Prop :=
  0 ≤ rs_bloom_useful_negatives s ≤ rs_bloom_checks s ∧ rs_bloom_checks s ≤ U64_MAX ∧ 0 ≤ rs_point_reads s ≤ U64_MAX ∧
  length (rs_level_table_probes s) = Z.to_nat NUM_LEVELS ∧ Forall is_u64 (rs_level_table_probes s).

(** The counters saturate and stay coherent; a probe of one of the levels does not
    panic. *)
Lemma stats_coherent ops s :
  stats_ok s → Forall (λ op, match op with TableProbe_recorded l => 0 ≤ l < NUM_LEVELS | _ => True end) ops →
  ∃ s', try_fold stats_step s ops = Ok s' ∧ stats_ok s'.
Proof.
  intros Hs Hops. revert s Hs. induction Hops as [|op ops Hop _ IH]; intros s (H1 & H2 & H3 & H4 & H5); [by exists s|]. cbn [try_fold].
  destruct op as [|b|level]; cbn [stats_step].
  - apply IH. unfold stats_ok, record_point_read, saturating_add, USIZE_MAX. cbn. split; [lia|]. split; [lia|]. split; [lia|]. done.
  - apply IH. unfold stats_ok, record_bloom_check, saturating_add, USIZE_MAX. cbn. destruct b; (split; [lia|]); (split; [lia|]); done.
  - unfold record_table_probe, index_or_panic, get_at. rewrite (proj2 (Z.ltb_ge level 0)) by lia.
    destruct (lookup_lt_is_Some_2 (rs_level_table_probes s) (Z.to_nat level)) as [n Hn]; [rewrite H4; unfold NUM_LEVELS in *; lia|].
    rewrite Hn. cbn [ok_or]. apply IH. split; [done|]. split; [done|]. split; [done|]. cbn. rewrite length_insert. split; [done|].
    apply Forall_insert; [done|]. pose proof (proj1 (Forall_lookup _ _) H5 _ _ Hn) as [? ?]. unfold is_u64, saturating_add, USIZE_MAX. lia.
Qed.
