(* ===== verification/Options.v ===== *)
(** * Options and clocks (src/crates/meteordb/src/options.rs, clock.rs)

    The configuration of a database with its validation, and the two clocks: the
    process-wide high-water mark of the system clock and the manual clock of tests.
    An atomic update is one step. *)

From Stdlib Require Import ZArith Lia Sorting.Sorted.
From stdpp Require Import base list gmap strings.
From S2P Require Import Prelude Checksum Framing InternalKey Batch Wal.

Local Open Scope Z_scope.

(** ** Options *)

Record Options : Type := {
  op_path : string;
  op_durability : Durability;
  op_memtable_bytes : Z;
  op_target_sstable_bytes : Z;
  op_block_bytes : Z;
  op_restart_interval : Z;
  op_bloom_bits_per_key : Z;
  op_block_cache_bytes : Z;
  op_max_immutable_memtables : Z;
  op_max_key_bytes : Z;
  op_max_value_bytes : Z;
  op_max_batch_bytes : Z
}.

Definition Options_new (path : string) : Options :=
  {| op_path := path;
     op_durability := Sync;
     op_memtable_bytes := 64 * 1024 * 1024;
     op_target_sstable_bytes := 64 * 1024 * 1024;
     op_block_bytes := 4 * 1024;
     op_restart_interval := 16;
     op_bloom_bits_per_key := 10;
     op_block_cache_bytes := 64 * 1024 * 1024;
     op_max_immutable_memtables := 4;
     op_max_key_bytes := 1024 * 1024;
     op_max_value_bytes := 64 * 1024 * 1024;
     op_max_batch_bytes := 64 * 1024 * 1024 |}.

Definition validate_nonzero (field : string) (value : Z) : result unit :=
  if value =? 0 then Err (InvalidArgument (field +:+ " must be greater than zero")) else Ok tt.

Definition Options_validate (o : Options) : result unit :=
  let? _ := validate_nonzero "memtable_bytes" (op_memtable_bytes o) in
  let? _ := validate_nonzero "target_sstable_bytes" (op_target_sstable_bytes o) in
  let? _ := validate_nonzero "block_bytes" (op_block_bytes o) in
  let? _ := validate_nonzero "restart_interval" (op_restart_interval o) in
  let? _ := validate_nonzero "bloom_bits_per_key" (op_bloom_bits_per_key o) in
  let? _ := validate_nonzero "block_cache_bytes" (op_block_cache_bytes o) in
  let? _ := validate_nonzero "max_immutable_memtables" (op_max_immutable_memtables o) in
  let? _ := validate_nonzero "max_key_bytes" (op_max_key_bytes o) in
  let? _ := validate_nonzero "max_value_bytes" (op_max_value_bytes o) in
  validate_nonzero "max_batch_bytes" (op_max_batch_bytes o).

(** Field values of a Rust [Options]: the width of each type. *)
Definition options_typed (o : Options) : Prop :=
  is_u64 (op_memtable_bytes o) ∧ is_u64 (op_target_sstable_bytes o) ∧ is_u64 (op_block_bytes o) ∧
  is_u64 (op_restart_interval o) ∧ is_u8 (op_bloom_bits_per_key o) ∧ is_u64 (op_block_cache_bytes o) ∧
  is_u64 (op_max_immutable_memtables o) ∧ is_u64 (op_max_key_bytes o) ∧ is_u64 (op_max_value_bytes o) ∧
  is_u64 (op_max_batch_bytes o).

(** ** Clocks *)

(** [SYSTEM_HIGH_WATER_UNIX_MS.fetch_max(observed).max(observed)]: the time that is
    reported and the mark that is left. *)
Definition clamp_observed (high_water observed : Z) : Z * Z :=
  let previous := high_water in
  let high_water := Z.max high_water observed in
  (Z.max previous observed, high_water).

(** [SystemClock::now_unix_ms]: [elapsed] is [duration_since(UNIX_EPOCH)] in
    milliseconds, [None] before the epoch. *)
Definition system_now_unix_ms (high_water : Z) (elapsed : option Z) : Z * Z :=
  let milliseconds := default 0 elapsed in
  let observed := if milliseconds <=? U64_MAX then milliseconds else U64_MAX in
  clamp_observed high_water observed.

(** [ManualClock::set] with [fetch_update]. *)
Definition ManualClock_set (now new : Z) : result unit * Z :=
  if now <=? new then (Ok tt, new)
  else (Err (InvalidArgument "manual clock cannot move backward"), now).

(** Reads of the system clock by any threads, in the order of their atomic steps. *)
Fixpoint system_reads (high_water : Z) (observations : list (option Z)) : list Z :=
  match observations with
  | [] => []
  | elapsed :: observations =>
    let '(now, high_water) := system_now_unix_ms high_water elapsed in
    now :: system_reads high_water observations
  end.

(** A manual clock that tests set and engines read. *)
Inductive manual_op : Type := ManualSet (new : Z) | ManualRead.

Fixpoint manual_reads (now : Z) (ops : list manual_op) : list Z :=
  match ops with
  | [] => []
  | ManualSet new :: ops => manual_reads (ManualClock_set now new).2 ops
  | ManualRead :: ops => now :: manual_reads now ops
  end.

Definition never_decreases (times : list Z) : Prop := StronglySorted Z.le times.

Lemma system_reads_above hw obs : Forall (Z.le hw) (system_reads hw obs).
Proof.
  revert hw. induction obs as [|e obs IH]; intros hw; cbn; [constructor|]. constructor; [lia|].
  eapply Forall_impl; [apply IH|]. intros t. cbn. lia.
Qed.

Lemma manual_reads_above now ops : Forall (Z.le now) (manual_reads now ops).
Proof.
  revert now. induction ops as [|[new|] ops IH]; intros now; cbn; [constructor| |by constructor].
  unfold ManualClock_set. destruct (Z.leb_spec now new); [|done].
  eapply Forall_impl; [apply IH|]. intros t. cbn. lia.
Qed.

(** The checked fields in the order of the checks. *)
Definition options_fields (o : Options) : list (string * Z) :=
  [("memtable_bytes"%string, op_memtable_bytes o); ("target_sstable_bytes"%string, op_target_sstable_bytes o);
   ("block_bytes"%string, op_block_bytes o); ("restart_interval"%string, op_restart_interval o);
   ("bloom_bits_per_key"%string, op_bloom_bits_per_key o); ("block_cache_bytes"%string, op_block_cache_bytes o);
   ("max_immutable_memtables"%string, op_max_immutable_memtables o); ("max_key_bytes"%string, op_max_key_bytes o);
   ("max_value_bytes"%string, op_max_value_bytes o); ("max_batch_bytes"%string, op_max_batch_bytes o)].

Fixpoint first_zero (fields : list (string * Z)) : result unit :=
  match fields with
  | [] => Ok tt
  | (field, value) :: fields => let? _ := validate_nonzero field value in first_zero fields
  end.

Lemma validate_fields fields :
  Forall (λ x, 0 ≤ x.2) fields →
  match first_zero fields with
  | Ok _ => Forall (λ x, 1 ≤ x.2) fields
  | Err e => ∃ before field after,
      fields = before ++ (field, 0) :: after ∧ Forall (λ x, 1 ≤ x.2) before ∧
      e = InvalidArgument (field +:+ " must be greater than zero")
  end.
Proof.
  induction 1 as [|[f v] fields Hv _ IH]; cbn; [done|]. cbn in Hv. unfold validate_nonzero.
  destruct (Z.eqb_spec v 0) as [->|Hne].
  - by exists [], f, fields.
  - destruct (first_zero fields) as [[]|e].
    + constructor; [cbn; lia|done].
    + destruct IH as (b & g & a & -> & Hb & ->). exists ((f, v) :: b), g, a. split; [done|].
      split; [constructor; [cbn; lia|done]|done].
Qed.

(** ** Properties *)

Lemma system_reads_u64 hw observations :
  is_u64 hw → Forall (λ o, 0 ≤ default 0 o) observations → Forall is_u64 (system_reads hw observations).
Proof.
  intros Hhw Hobs. revert hw Hhw. unfold is_u64, U64_MAX.
  induction Hobs as [|e obs He Hobs IH]; intros hw Hhw; cbn; [constructor|].
  destruct (Z.leb_spec (default 0 e) U64_MAX) as [Hle|Hgt]; unfold U64_MAX in *; (constructor; [lia|apply IH; lia]).
Qed.

(** Time never runs backward: whatever the operating system reports, including
    rollback, times before the epoch and times beyond [u64], the values the system
    clock returns never decrease; and the values of a manual clock never decrease,
    since [set] refuses an earlier time and leaves the clock unchanged. *)
Theorem clocks_never_decrease (hw now : Z) (observations : list (option Z)) (ops : list manual_op) :
  never_decreases (system_reads hw observations) ∧ never_decreases (manual_reads now ops).
Proof.
  split.
  - revert hw. induction observations as [|e obs IH]; intros hw; cbn; [constructor|]. constructor; [apply IH|].
    apply system_reads_above.
  - revert now. induction ops as [|[new|] ops IH]; intros now; cbn; [constructor|apply IH|].
    constructor; [apply IH|apply manual_reads_above].
Qed.

(** Validation is exact: typed options pass exactly when every limit is at
    least one, and a failure is an invalid argument that names the first zero
    field. *)
Theorem options_validate_exact (o : Options) :
  options_typed o →
  match Options_validate o with
  | Ok _ => Forall (λ x, 1 ≤ x.2) (options_fields o)
  | Err e => ∃ before field after,
      options_fields o = before ++ (field, 0) :: after ∧ Forall (λ x, 1 ≤ x.2) before ∧
      e = InvalidArgument (field +:+ " must be greater than zero")
  end.
Proof.
  intros Ht. assert (Forall (λ x, 0 ≤ x.2) (options_fields o)) as Hnn.
  { unfold options_typed, is_u64, is_u8 in Ht. unfold options_fields.
    repeat (apply Forall_cons_2; [cbn; lia|]). constructor. }
  pose proof (validate_fields (options_fields o) Hnn) as H.
  assert (Options_validate o = first_zero (options_fields o)) as ->; [|exact H].
  unfold Options_validate, options_fields, first_zero.
  repeat (destruct (validate_nonzero _ _) as [[]|]; [|done]). done.
Qed.

(** Two zero fields; the block size is checked first. *)
Definition sample_options : Options :=
  {| op_path := "db"; op_durability := Sync; op_memtable_bytes := 64; op_target_sstable_bytes := 64;
     op_block_bytes := 0; op_restart_interval := 1; op_bloom_bits_per_key := 10; op_block_cache_bytes := 0;
     op_max_immutable_memtables := 4; op_max_key_bytes := 8; op_max_value_bytes := 8; op_max_batch_bytes := 16 |}.

(** A use of it. *)
Lemma options_validate_exact_witness :
  ∃ before field after,
    options_fields sample_options = before ++ (field, 0) :: after ∧ Forall (λ x, 1 ≤ x.2) before ∧
    InvalidArgument "block_bytes must be greater than zero" =
      InvalidArgument (field +:+ " must be greater than zero").
Proof.
  apply (options_validate_exact sample_options). unfold options_typed, is_u64, is_u8, U64_MAX, U8_MAX. cbn. lia.
Defined.
