(* ===== verification/ManifestCodec.v ===== *)
(** * The encoding of version edits (src/crates/meteordb/src/manifest.rs)

    [encode_edit] and [decode_edit] with the [Cursor] the decoder reads through,
    the names of manifests and tables, and their exact correspondence. *)

From Stdlib Require Import ZArith Lia Sorting.Sorted.
From stdpp Require Import base list gmap strings.
From S2P Require Import Prelude InternalKey Version.

Local Open Scope Z_scope.

Definition FORMAT_VERSION : Z := 2.
Definition MAX_EDIT_BYTES : Z := 64 * 1024 * 1024.

Definition manifest_corruption (detail : string) : error := Corruption "manifest" detail.

Definition recovery_edit_error (e : error) : error :=
  match e with InvalidArgument detail => manifest_corruption detail | other => other end.

Definition nested_key_error (which : string) (e : error) : error :=
  manifest_corruption ("invalid " ++ which ++ " internal key")%string.

(** ** Encoding *)

Definition put_optional_u64 (encoded : bytes) (value : option Z) : bytes :=
  match value with
  | Some value => (encoded ++ [1]) ++ to_le 8 value
  | None => encoded ++ [0]
  end.

Definition put_count (encoded : bytes) (count : Z) (name : string) : result bytes :=
  if count <=? U32_MAX then Ok (encoded ++ to_le 4 count)
  else Err (InvalidArgument (name ++ " exceeds u32::MAX")%string).

Definition put_level (encoded : bytes) (level : Z) : result bytes :=
  if NUM_LEVELS <=? level then
    Err (InvalidArgument "level is outside the supported range 0..7")
  else Ok (encoded ++ to_le 4 level).

Definition put_bytes (encoded b : bytes) : result bytes :=
  if zlen b <=? U32_MAX then Ok ((encoded ++ to_le 4 (zlen b)) ++ b)
  else Err (InvalidArgument "manifest key length exceeds u32::MAX").

Definition put_deleted (encoded : bytes) (d : Z * Z) : result bytes :=
  let? encoded := put_level encoded d.1 in
  Ok (encoded ++ to_le 8 d.2).

Definition put_added (encoded : bytes) (a : Z * FileMeta) : result bytes :=
  let '(level, file) := a in
  let? encoded := put_level encoded level in
  let encoded := encoded ++ to_le 8 (fm_number file) in
  let encoded := encoded ++ to_le 8 (fm_file_size file) in
  let? encoded := put_bytes encoded (ik_encoded (fm_smallest file)) in
  put_bytes encoded (ik_encoded (fm_largest file)).

Definition encode_edit (edit : VersionEdit) : result bytes :=
  let encoded := [FORMAT_VERSION] in
  let encoded := put_optional_u64 encoded (ve_next_file_number edit) in
  let encoded := put_optional_u64 encoded (ve_last_sequence edit) in
  let encoded := put_optional_u64 encoded (ve_log_number edit) in
  let encoded := put_optional_u64 encoded (ve_active_log_number edit) in
  let encoded := put_optional_u64 encoded (ve_wal_sequence edit) in
  let? encoded := put_count encoded (zlen (ve_deleted_files edit)) "deleted file count" in
  let? encoded := try_fold put_deleted encoded (ve_deleted_files edit) in
  let? encoded := put_count encoded (zlen (ve_added_files edit)) "added file count" in
  let? encoded := try_fold put_added encoded (ve_added_files edit) in
  if MAX_EDIT_BYTES <? zlen encoded then
    Err (InvalidArgument "encoded manifest edit exceeds 67108864 bytes")
  else Ok encoded.

(** ** Decoding

    The [Cursor] is the pair of the bytes, fixed, and the position, threaded. *)

Section Cursor.
  Context (b : bytes).

Definition cursor_take (position length : Z) (name : string) : result (bytes * Z) :=
  match checked_add position length with
  | Some stop =>
    if stop <=? zlen b then Ok (slice position stop b, stop)
    else Err (manifest_corruption ("truncated " ++ name)%string)
  | None => Err (manifest_corruption ("truncated " ++ name)%string)
  end.

Definition cursor_u8 (position : Z) (name : string) : result (Z * Z) :=
  let? (value, position) := cursor_take position 1 name in
  let? byte := index_or_panic 0 value in
  Ok (byte, position).

Definition cursor_u32 (position : Z) (name : string) : result (Z * Z) :=
  let? (value, position) := cursor_take position 4 name in
  Ok (from_le value, position).

Definition cursor_u64 (position : Z) (name : string) : result (Z * Z) :=
  let? (value, position) := cursor_take position 8 name in
  Ok (from_le value, position).

Definition optional_u64 (position : Z) (name : string) : result (option Z * Z) :=
  let? (marker, position) := cursor_u8 position (name ++ " marker")%string in
  if marker =? 0 then Ok (None, position)
  else if marker =? 1 then
    let? (value, position) := cursor_u64 position name in
    Ok (Some value, position)
  else Err (manifest_corruption ("unknown " ++ name ++ " marker")%string).

(** [usize::try_from] of a [u32] succeeds. *)
Definition cursor_count (position : Z) (name : string) : result (Z * Z) :=
  cursor_u32 position name.

Definition cursor_level (position : Z) : result (Z * Z) :=
  let? (level, position) := cursor_count position "level" in
  if NUM_LEVELS <=? level then
    Err (manifest_corruption "level is outside the supported range 0..7")
  else Ok (level, position).

Definition cursor_bytes (position : Z) (name : string) : result (bytes * Z) :=
  let? (length, position) := cursor_count position (name ++ " length")%string in
  cursor_take position length name.

Definition decode_deleted (position : Z) : result (Z * Z * Z) :=
  let? (level, position) := cursor_level position in
  let? (number, position) := cursor_u64 position "deleted file number" in
  Ok (level, number, position).

Definition decode_added (position : Z) : result (Z * FileMeta * Z) :=
  let? (level, position) := cursor_level position in
  let? (number, position) := cursor_u64 position "added file number" in
  let? (file_size, position) := cursor_u64 position "added file size" in
  let? (encoded, position) := cursor_bytes position "smallest key" in
  let? smallest := map_err (nested_key_error "smallest") (InternalKey_decode encoded) in
  let? (encoded, position) := cursor_bytes position "largest key" in
  let? largest := map_err (nested_key_error "largest") (InternalKey_decode encoded) in
  let? file := map_err recovery_edit_error (FileMeta_new number file_size smallest largest) in
  Ok (level, file, position).

(** [for _ in 0..count] *)
Fixpoint decode_times {A} (item : Z → result (A * Z)) (count : nat) (position : Z)
    : result (list A * Z) :=
  match count with
  | O => Ok ([], position)
  | S count =>
    let? (a, position) := item position in
    let? (l, position) := decode_times item count position in
    Ok (a :: l, position)
  end.

Definition decode_edit : result VersionEdit :=
  if MAX_EDIT_BYTES <? zlen b then
    Err (manifest_corruption "logical edit exceeds the checked size limit")
  else
    let? (version, position) := cursor_u8 0 "format version" in
    if negb (version =? 1) && negb (version =? FORMAT_VERSION) then
      Err (UnsupportedFormat "manifest" version)
    else
      let? (next_file_number, position) := optional_u64 position "next file number" in
      let? (last_sequence, position) := optional_u64 position "last sequence" in
      let? (logs, position) :=
        (if 2 <=? version then
           let? (log_number, position) := optional_u64 position "oldest log number" in
           let? (active_log_number, position) := optional_u64 position "active log number" in
           let? (wal_sequence, position) := optional_u64 position "WAL sequence" in
           Ok (log_number, active_log_number, wal_sequence, position)
         else Ok (None, None, None, position)) in
      let '(log_number, active_log_number, wal_sequence) := logs in
      let? (deleted_count, position) := cursor_count position "deleted file count" in
      let? (deleted_files, position) :=
        decode_times decode_deleted (Z.to_nat deleted_count) position in
      let? (added_count, position) := cursor_count position "added file count" in
      let? (added_files, position) :=
        decode_times decode_added (Z.to_nat added_count) position in
      if negb (zlen b - position =? 0) then
        Err (manifest_corruption "trailing bytes after version edit")
      else
        Ok {| ve_added_files := added_files;
              ve_deleted_files := deleted_files;
              ve_next_file_number := next_file_number;
              ve_last_sequence := last_sequence;
              ve_log_number := log_number;
              ve_active_log_number := active_log_number;
              ve_wal_sequence := wal_sequence |}.

End Cursor.

(** ** Reading, as a relation

    [reads b p x p']: the bytes [x] stand at [p] and end at [p']. *)

Definition reads (b : bytes) (p : Z) (x : bytes) (p' : Z) : Prop :=
  drop (Z.to_nat p) b = x ++ drop (Z.to_nat p') b ∧ 0 ≤ p ∧ p' = p + zlen x ∧ p' ≤ zlen b.

Lemma reads_app b p x y p' :
  reads b p (x ++ y) p' ↔ reads b p x (p + zlen x) ∧ reads b (p + zlen x) y p'.
Proof.
  unfold reads. split.
  - intros (Hd & Hp & -> & Hl). rewrite zlen_app in *. rewrite <- app_assoc in Hd. zlen_pos.
    pose proof (drop_advance' _ _ _ _ Hd Hp) as Hd2. rewrite Z.add_assoc in *.
    split; (split; [by rewrite Hd2|lia]).
  - intros [(Hd & Hp & _ & Hl) (Hd2 & _ & -> & Hl2)]. rewrite zlen_app. split; [|lia].
    by rewrite Hd, Hd2, <- app_assoc, <- Z.add_assoc.
Qed.

Lemma reads_nil b p p' : reads b p [] p' ↔ p' = p ∧ 0 ≤ p ≤ zlen b.
Proof. unfold reads. cbn. zlen_nils. split; [|intros [-> ?]; repeat split; lia || done]. intros (_ & ? & -> & ?). lia. Qed.

Lemma reads_bound b p x p' : reads b p x p' → 0 ≤ p ∧ p ≤ p' ≤ zlen b.
Proof. intros (_ & ? & -> & ?). zlen_pos. lia. Qed.

Lemma reads_ok b p x p' : bytes_ok b → reads b p x p' → bytes_ok x.
Proof.
  intros Hb (Hd & _). assert (bytes_ok (drop (Z.to_nat p) b)) as H by (by apply Forall_drop).
  rewrite Hd, bytes_ok_app in H. tauto.
Qed.

Lemma reads_all b x : reads b 0 x (zlen b) ↔ b = x.
Proof.
  unfold reads. split.
  - intros (Hd & _ & Hz & _). rewrite (drop_ge b (Z.to_nat (zlen b))) in Hd by (unfold zlen; lia).
    by rewrite app_nil_r in Hd.
  - intros ->. rewrite (drop_ge x (Z.to_nat (zlen x))) by (unfold zlen; lia). rewrite app_nil_r. zlen_pos. repeat split; lia || done.
Qed.

(** A reader of the decoder parses exactly the encodings [enc] of the values in [P]. *)
Definition parses {A} (b : bytes) (item : Z → result (A * Z)) (enc : A → bytes) (P : A → Prop) : Prop :=
  ∀ p a p', 0 ≤ p ≤ zlen b → item p = Ok (a, p') ↔ P a ∧ reads b p (enc a) p'.

Lemma parses_ok {A} b (item : Z → result (A * Z)) enc P p a p' :
  parses b item enc P → reads b p (enc a) p' → P a → item p = Ok (a, p').
Proof. intros Hi Hr Ha. pose proof (reads_bound _ _ _ _ Hr). by apply Hi; [lia|]. Qed.

Section CursorFacts.
  Context (b : bytes) (Hok : bytes_ok b) (Hmax : zlen b ≤ USIZE_MAX).

Lemma cursor_take_spec p n name x p' :
  0 ≤ p ≤ zlen b → 0 ≤ n → cursor_take b p n name = Ok (x, p') ↔ zlen x = n ∧ reads b p x p'.
Proof using Hmax.
  intros Hp Hn. unfold cursor_take, checked_add, reads. split.
  - destruct (Z.leb_spec (p + n) USIZE_MAX); [|done]. destruct (Z.leb_spec (p + n) (zlen b)); [|done].
    intros [= <- <-]. rewrite zlen_slice by lia. split; [lia|]. split; [|lia].
    unfold slice. replace (p + n - p) with n by lia.
    replace (Z.to_nat (p + n)) with (Z.to_nat p + Z.to_nat n)%nat by lia.
    rewrite <- drop_drop. by rewrite take_drop.
  - intros (<- & Hd & _ & -> & Hl). rewrite !(proj2 (Z.leb_le _ _)) by lia.
    by rewrite (slice_at p x (drop (Z.to_nat (p + zlen x)) b)) by (done || lia).
Qed.

Lemma cursor_u8_spec name : parses b (λ p, cursor_u8 b p name) (λ v, [v]) is_u8.
Proof using Hok Hmax.
  intros p a p' Hp. unfold cursor_u8. split.
  - destruct (cursor_take b p 1 name) as [[x p1]|] eqn:E; [|done].
    apply cursor_take_spec in E as [Hx Hr]; [|lia..]. destruct x as [|v [|w x]]; zlen_simpl; try (zlen_pos; lia).
    cbn. intros [= -> ->]. split; [|done]. apply (reads_ok _ _ _ _ Hok) in Hr. by inversion Hr.
  - intros [Ha Hr]. rewrite (proj2 (cursor_take_spec p 1 name [a] p' Hp ltac:(lia))); [done|]. by split.
Qed.

Lemma cursor_int_spec n name : 
  parses b (λ p, let? (value, position) := cursor_take b p (Z.of_nat n) name in Ok (from_le value, position))
    (to_le n) (λ v, 0 ≤ v < 256 ^ Z.of_nat n).
Proof using Hok Hmax.
  intros p a p' Hp. split.
  - destruct (cursor_take b p _ name) as [[x p1]|] eqn:E; [|done].
    apply cursor_take_spec in E as [Hx Hr]; [|lia..]. intros [= <- <-].
    pose proof (reads_ok _ _ _ _ Hok Hr) as Hxo. assert (n = length x) as -> by (unfold zlen in Hx; lia).
    split; [by apply from_le_bound|]. by rewrite to_le_from_le.
  - intros [Ha Hr]. rewrite (proj2 (cursor_take_spec p (Z.of_nat n) name (to_le n a) p' Hp ltac:(lia))).
    + by rewrite from_le_to_le.
    + split; [apply zlen_to_le|done].
Qed.

Lemma cursor_u32_spec name : parses b (λ p, cursor_u32 b p name) (to_le 4) is_u32.
Proof using Hok Hmax.
  intros p a p' Hp. unfold cursor_u32. etransitivity; [exact (cursor_int_spec 4 name p a p' Hp)|].
  unfold is_u32, U32_MAX. cbn [Z.of_nat Pos.of_succ_nat Pos.succ]. rewrite (Z.lt_le_pred a). done.
Qed.

Lemma cursor_u64_spec name : parses b (λ p, cursor_u64 b p name) (to_le 8) is_u64.
Proof using Hok Hmax.
  intros p a p' Hp. unfold cursor_u64. etransitivity; [exact (cursor_int_spec 8 name p a p' Hp)|].
  unfold is_u64, U64_MAX. cbn [Z.of_nat Pos.of_succ_nat Pos.succ]. rewrite (Z.lt_le_pred a). done.
Qed.

(** Sequencing: a reader behind a reader parses the concatenation. *)
Lemma parses_seq {A B R} (item1 : Z → result (A * Z)) (item2 : A → Z → result (B * Z)) enc1 enc2 P1 P2
    (pack : A → B → R) (encR : R → bytes) (PR : R → Prop) (both : Z → result (R * Z)) :
  parses b item1 enc1 P1 → (∀ a, P1 a → parses b (item2 a) (enc2 a) (P2 a)) →
  (∀ p, both p = let? (a, p) := item1 p in let? (c, p) := item2 a p in Ok (pack a c, p)) →
  (∀ r, PR r ↔ ∃ a c, r = pack a c ∧ P1 a ∧ P2 a c) →
  (∀ a c, P1 a → P2 a c → encR (pack a c) = enc1 a ++ enc2 a c) →
  parses b both encR PR.
Proof.
  intros H1 H2 Hboth HPR Henc p r p' Hp. rewrite Hboth, HPR. split.
  - destruct (item1 p) as [[a p1]|] eqn:E1; [|done]. apply H1 in E1 as [Ha Hr1]; [|done].
    pose proof (reads_bound _ _ _ _ Hr1) as Hb1.
    destruct (item2 a p1) as [[c p2]|] eqn:E2; [|done]. apply (H2 a Ha) in E2 as [Hc Hr2]; [|lia].
    intros [= <- <-]. split; [by exists a, c|]. rewrite Henc by done.
    destruct Hr1 as (? & ? & -> & ?). apply reads_app. by split.
  - intros [(a & c & -> & Ha & Hc) Hr]. rewrite Henc in Hr by done. apply reads_app in Hr as [Hr1 Hr2].
    rewrite (proj2 (H1 p a _ Hp) (conj Ha Hr1)).
    pose proof (reads_bound _ _ _ _ Hr2). by rewrite (proj2 (H2 a Ha (p + zlen (enc1 a)) c p' ltac:(lia)) (conj Hc Hr2)).
Qed.
End CursorFacts.

(** ** The encoding as a function of the edit *)

Definition enc_optional (o : option Z) : bytes :=
  match o with Some v => 1 :: to_le 8 v | None => [0] end.
Definition enc_bytes (x : bytes) : bytes := to_le 4 (zlen x) ++ x.
Definition enc_deleted (d : Z * Z) : bytes := to_le 4 d.1 ++ to_le 8 d.2.
Definition enc_added (a : Z * FileMeta) : bytes :=
  to_le 4 a.1 ++ to_le 8 (fm_number a.2) ++ to_le 8 (fm_file_size a.2) ++
  enc_bytes (ik_encoded (fm_smallest a.2)) ++ enc_bytes (ik_encoded (fm_largest a.2)).
Definition enc_list {A} (enc : A → bytes) (l : list A) : bytes :=
  to_le 4 (zlen l) ++ concat (map enc l).
Definition enc_edit (e : VersionEdit) : bytes :=
  [FORMAT_VERSION] ++ enc_optional (ve_next_file_number e) ++ enc_optional (ve_last_sequence e) ++
  enc_optional (ve_log_number e) ++ enc_optional (ve_active_log_number e) ++
  enc_optional (ve_wal_sequence e) ++
  enc_list enc_deleted (ve_deleted_files e) ++ enc_list enc_added (ve_added_files e).

Definition opt_wf (o : option Z) : Prop := match o with Some v => is_u64 v | None => True end.
Definition level_wf (l : Z) : Prop := 0 ≤ l < NUM_LEVELS.
Definition added_wf (a : Z * FileMeta) : Prop :=
  level_wf a.1 ∧ meta_wf a.2 ∧ zlen (ik_encoded (fm_smallest a.2)) ≤ U32_MAX ∧
  zlen (ik_encoded (fm_largest a.2)) ≤ U32_MAX.
Definition deleted_wf (d : Z * Z) : Prop := level_wf d.1 ∧ is_u64 d.2.

(** The edits that have an encoding. *)
Record edit_wf (e : VersionEdit) : Prop := {
  ew_next : opt_wf (ve_next_file_number e);
  ew_last : opt_wf (ve_last_sequence e);
  ew_log : opt_wf (ve_log_number e);
  ew_active : opt_wf (ve_active_log_number e);
  ew_wal : opt_wf (ve_wal_sequence e);
  ew_deleted : Forall deleted_wf (ve_deleted_files e);
  ew_deleted_count : zlen (ve_deleted_files e) ≤ U32_MAX;
  ew_added : Forall added_wf (ve_added_files e);
  ew_added_count : zlen (ve_added_files e) ≤ U32_MAX
}.

Section Items.
  Context (b : bytes) (Hok : bytes_ok b) (Hmax : zlen b ≤ USIZE_MAX).

Lemma optional_u64_spec name : parses b (λ p, optional_u64 b p name) enc_optional opt_wf.
Proof using Hok Hmax.
  intros p o p' Hp. unfold optional_u64. split.
  - destruct (cursor_u8 b p _) as [[m p1]|] eqn:E; [|done].
    apply (cursor_u8_spec b Hok Hmax) in E as [_ Hr]; [|done]. pose proof (reads_bound _ _ _ _ Hr).
    destruct (Z.eqb_spec m 0) as [->|]; [intros [= <- <-]; done|].
    destruct (Z.eqb_spec m 1) as [->|]; [|done].
    destruct (cursor_u64 b p1 name) as [[v p2]|] eqn:E2; [|done].
    apply (cursor_u64_spec b Hok Hmax) in E2 as [Hv Hr2]; [|lia]. intros [= <- <-].
    split; [done|]. apply (reads_app b p [1]). destruct Hr as (? & ? & -> & ?). by split.
  - intros [Ho Hr]. destruct o as [v|]; cbn [enc_optional] in Hr.
    + change (1 :: to_le 8 v) with ([1] ++ to_le 8 v) in Hr. apply reads_app in Hr as [Hr1 Hr2].
      rewrite (proj2 (cursor_u8_spec b Hok Hmax _ p 1 _ Hp)) by (by split). cbn [Z.eqb].
      pose proof (reads_bound _ _ _ _ Hr2).
      by rewrite (proj2 (cursor_u64_spec b Hok Hmax name (p + zlen [1]) v p' ltac:(lia)) (conj Ho Hr2)).
    + by rewrite (proj2 (cursor_u8_spec b Hok Hmax _ p 0 p' Hp)) by (by split).
Qed.

Lemma cursor_level_spec : parses b (cursor_level b) (to_le 4) level_wf.
Proof using Hok Hmax.
  intros p l p' Hp. unfold cursor_level, cursor_count. split.
  - destruct (cursor_u32 b p _) as [[v p1]|] eqn:E; [|done].
    apply (cursor_u32_spec b Hok Hmax) in E as [Hv Hr]; [|done].
    destruct (Z.leb_spec NUM_LEVELS v); [done|]. intros [= <- <-].
    split; [unfold level_wf, is_u32 in *; lia|done].
  - intros [Hl Hr]. unfold level_wf, NUM_LEVELS in *.
    rewrite (proj2 (cursor_u32_spec b Hok Hmax _ p l p' Hp)).
    + by rewrite (proj2 (Z.leb_gt _ _)) by lia.
    + split; [unfold is_u32, U32_MAX; lia|done].
Qed.

Lemma cursor_bytes_spec name :
  parses b (λ p, cursor_bytes b p name) enc_bytes (λ x, zlen x ≤ U32_MAX).
Proof using Hok Hmax.
  intros p x p' Hp. unfold cursor_bytes, cursor_count, enc_bytes. split.
  - destruct (cursor_u32 b p _) as [[n p1]|] eqn:E; [|done].
    apply (cursor_u32_spec b Hok Hmax) in E as [Hn Hr]; [|done]. pose proof (reads_bound _ _ _ _ Hr).
    unfold is_u32 in Hn. intros H2. apply cursor_take_spec in H2 as [<- Hr2]; [|done|lia|lia].
    split; [lia|]. apply reads_app. destruct Hr as (? & ? & -> & ?). by split.
  - intros [Hx Hr]. apply reads_app in Hr as [Hr1 Hr2]. pose proof (zlen_nonneg x).
    rewrite (proj2 (cursor_u32_spec b Hok Hmax _ p (zlen x) _ Hp)) by (by split).
    pose proof (reads_bound _ _ _ _ Hr2).
    apply cursor_take_spec; [done|lia|lia|]. by split.
Qed.

Lemma decode_deleted_spec : parses b (decode_deleted b) enc_deleted deleted_wf.
Proof using Hok Hmax.
  apply (parses_seq b (cursor_level b) (λ _ p, cursor_u64 b p "deleted file number")
    (to_le 4) (λ _, to_le 8) level_wf (λ _, is_u64) (λ l n, (l, n))).
  - exact cursor_level_spec.
  - intros _ _. exact (cursor_u64_spec b Hok Hmax _).
  - intros p. unfold decode_deleted. destruct (cursor_level b p) as [[l p1]|]; [|done].
    by destruct (cursor_u64 b p1 _) as [[n p2]|].
  - intros [l n]. unfold deleted_wf. cbn. split; [|intros (? & ? & [= -> ->] & ? & ?); done].
    intros [? ?]. by exists l, n.
  - done.
Qed.

(** The two keys of an added file. *)
Definition cursor_key (p : Z) (name which : string) : result (InternalKey * Z) :=
  let? (encoded, p) := cursor_bytes b p name in
  let? key := map_err (nested_key_error which) (InternalKey_decode encoded) in
  Ok (key, p).

Lemma cursor_key_spec name which :
  parses b (λ p, cursor_key p name which) (λ k, enc_bytes (ik_encoded k))
    (λ k, key_wf k ∧ zlen (ik_encoded k) ≤ U32_MAX).
Proof using Hok Hmax.
  intros p k p' Hp. unfold cursor_key. split.
  - destruct (cursor_bytes b p name) as [[x p1]|] eqn:E; [|done].
    apply cursor_bytes_spec in E as [Hx Hr]; [|done..].
    assert (bytes_ok x) as Hxo.
    { apply (reads_ok _ _ _ _ Hok) in Hr. unfold enc_bytes in Hr. apply bytes_ok_app in Hr. tauto. }
    destruct (InternalKey_decode x) as [k'|] eqn:Ed; cbn; [|done]. intros [= <- <-].
    destruct (decode_sound _ _ Hxo Ed) as (u & q & kd & Hu & Hq & -> & ->). cbn [mk_key ik_encoded].
    split; [split; [by apply mk_key_wf|done]|done].
  - intros [[Hk Hl] Hr]. rewrite (proj2 (cursor_bytes_spec name p _ p' Hp) (conj Hl Hr)).
    by rewrite (key_wf_decode _ Hk).
Qed.

Lemma FileMeta_new_spec n size a z f :
  is_u64 n → is_u64 size → key_wf a → key_wf z →
  FileMeta_new n size a z = Ok f ↔
    meta_wf f ∧ fm_number f = n ∧ fm_file_size f = size ∧ fm_smallest f = a ∧ fm_largest f = z.
Proof.
  intros Hn Hs Ha Hz. unfold FileMeta_new, is_u64 in *. split.
  - destruct (Z.eqb_spec n 0); [done|]. destruct (Z.eqb_spec size 0); [done|].
    destruct (InternalKey_cmp a z) eqn:E; [| |done]; intros [= <-]; (split; [|done]);
      split; cbn; try done; try lia; congruence.
  - intros ([Hn' Hs' _ _ Ho] & <- & <- & <- & <-). rewrite !(proj2 (Z.eqb_neq _ 0)) by lia.
    destruct f. cbn in *. by destruct (InternalKey_cmp _ _).
Qed.

Lemma decode_added_spec : parses b (decode_added b) enc_added added_wf.
Proof using Hok Hmax.
  intros p [l f] p' Hp. unfold decode_added. split.
  - destruct (cursor_level b p) as [[l1 p1]|] eqn:E1; [|done].
    apply cursor_level_spec in E1 as [Hl Hr1]; [|done]. pose proof (reads_bound _ _ _ _ Hr1).
    destruct (cursor_u64 b p1 _) as [[n p2]|] eqn:E2; [|done].
    apply cursor_u64_spec in E2 as [Hn Hr2]; [|done|done|lia]. pose proof (reads_bound _ _ _ _ Hr2).
    destruct (cursor_u64 b p2 _) as [[size p3]|] eqn:E3; [|done].
    apply cursor_u64_spec in E3 as [Hs Hr3]; [|done|done|lia]. pose proof (reads_bound _ _ _ _ Hr3).
    intros H3.
    assert ((let? (a, p4) := cursor_key p3 "smallest key" "smallest" in
      let? (z, p5) := cursor_key p4 "largest key" "largest" in
      let? file := map_err recovery_edit_error (FileMeta_new n size a z) in Ok (l1, file, p5)) =
      Ok (l, f, p')) as H4.
    { unfold cursor_key. destruct (cursor_bytes b p3 _) as [[x p4]|]; [|done].
      destruct (map_err _ (InternalKey_decode x)); [|done]. destruct (cursor_bytes b p4 _) as [[y p5]|]; [|done].
      by destruct (map_err _ (InternalKey_decode y)). }
    destruct (cursor_key p3 _ _) as [[a p4]|] eqn:E4; [|done].
    apply cursor_key_spec in E4 as [[Ha Hal] Hr4]; [|lia]. pose proof (reads_bound _ _ _ _ Hr4).
    destruct (cursor_key p4 _ _) as [[z p5]|] eqn:E5; [|done].
    apply cursor_key_spec in E5 as [[Hz Hzl] Hr5]; [|lia].
    destruct (FileMeta_new n size a z) as [f'|] eqn:Ef; [|done]. injection H4 as -> -> ->.
    apply FileMeta_new_spec in Ef as (Hf & <- & <- & <- & <-); [|done..].
    split; [done|]. unfold enc_added. cbn [fst snd].
    destruct Hr1 as (? & ? & -> & ?), Hr2 as (? & ? & -> & ?), Hr3 as (? & ? & -> & ?), Hr4 as (? & ? & -> & ?).
    apply reads_app. split; [done|]. apply reads_app. split; [done|]. apply reads_app. split; [done|].
    apply reads_app. by split.
  - intros [(Hl & Hf & Ha & Hz) Hr]. unfold enc_added in Hr. cbn [fst snd] in *.
    apply reads_app in Hr as [Hr1 Hr]. apply reads_app in Hr as [Hr2 Hr]. apply reads_app in Hr as [Hr3 Hr].
    apply reads_app in Hr as [Hr4 Hr5].
    pose proof Hf as [Hn Hs Hka Hkz _].
    rewrite (parses_ok _ _ _ _ _ _ _ cursor_level_spec Hr1 Hl).
    rewrite (parses_ok _ _ _ _ _ _ _ (cursor_u64_spec b Hok Hmax _) Hr2) by (unfold is_u64; lia).
    rewrite (parses_ok _ _ _ _ _ _ _ (cursor_u64_spec b Hok Hmax _) Hr3) by (unfold is_u64; lia).
    rewrite (parses_ok _ _ _ _ _ _ _ (cursor_bytes_spec _) Hr4 Ha).
    rewrite (key_wf_decode _ Hka). cbn [map_err].
    rewrite (parses_ok _ _ _ _ _ _ _ (cursor_bytes_spec _) Hr5 Hz).
    rewrite (key_wf_decode _ Hkz). cbn [map_err].
    rewrite (proj2 (FileMeta_new_spec (fm_number f) (fm_file_size f) _ _ f ltac:(unfold is_u64; lia) ltac:(unfold is_u64; lia) Hka Hkz)); done.
Qed.

Lemma decode_times_spec {A} (item : Z → result (A * Z)) enc P n :
  parses b item enc P →
  parses b (decode_times item n) (λ l, concat (map enc l)) (λ l, length l = n ∧ Forall P l).
Proof.
  intros Hi. induction n as [|n IH]; intros p l p' Hp; cbn [decode_times].
  - split.
    + intros [= <- <-]. split; [done|]. by apply reads_nil.
    + intros [[Hl _] Hr]. apply nil_length_inv in Hl as ->. cbn in Hr. by apply reads_nil in Hr as [-> _].
  - split.
    + destruct (item p) as [[a p1]|] eqn:E1; [|done]. apply Hi in E1 as [Ha Hr1]; [|done].
      pose proof (reads_bound _ _ _ _ Hr1).
      destruct (decode_times item n p1) as [[l1 p2]|] eqn:E2; [|done]. apply IH in E2 as [[Hl Hall] Hr2]; [|lia].
      intros [= <- <-]. split; [split; [cbn; lia|by constructor]|]. cbn [map concat].
      destruct Hr1 as (? & ? & -> & ?). apply reads_app. by split.
    + intros [[Hl Hall] Hr]. destruct l as [|a l]; [done|]. apply Forall_cons in Hall as [Ha Hall].
      cbn [map concat] in Hr. apply reads_app in Hr as [Hr1 Hr2]. cbn in Hl.
      rewrite (parses_ok _ _ _ _ _ _ _ Hi Hr1 Ha).
      by rewrite (parses_ok _ _ _ _ _ _ _ IH Hr2) by (split; [lia|done]).
Qed.
End Items.

(** Edits of format version 1 have no log fields. *)
Definition enc_edit_v1 (e : VersionEdit) : bytes :=
  [1] ++ enc_optional (ve_next_file_number e) ++ enc_optional (ve_last_sequence e) ++
  enc_list enc_deleted (ve_deleted_files e) ++ enc_list enc_added (ve_added_files e).

Definition no_log_fields (e : VersionEdit) : Prop :=
  ve_log_number e = None ∧ ve_active_log_number e = None ∧ ve_wal_sequence e = None.

Lemma put_optional_app encoded o : put_optional_u64 encoded o = encoded ++ enc_optional o.
Proof. destruct o; cbn; by rewrite <- ?app_assoc. Qed.

Lemma put_deleted_fold l acc :
  Forall deleted_wf l → try_fold put_deleted acc l = Ok (acc ++ concat (map enc_deleted l)).
Proof.
  intros H. revert acc. induction H as [|[lv n] l [Hl Hn] _ IH]; intros acc; cbn [try_fold map concat].
  { by rewrite app_nil_r. }
  unfold put_deleted, put_level at 1. cbn [fst snd] in *. unfold level_wf in Hl.
  rewrite (proj2 (Z.leb_gt _ _)) by lia. rewrite IH. unfold enc_deleted. cbn [fst snd].
  by rewrite <- !app_assoc.
Qed.

Lemma put_added_fold l acc :
  Forall added_wf l → try_fold put_added acc l = Ok (acc ++ concat (map enc_added l)).
Proof.
  intros H. revert acc. induction H as [|[lv f] l (Hl & Hf & Ha & Hz) _ IH]; intros acc; cbn [try_fold map concat].
  { by rewrite app_nil_r. }
  unfold put_added, put_level, put_bytes at 1 2. cbn [fst snd] in *. unfold level_wf in Hl.
  rewrite (proj2 (Z.leb_gt _ _)), !(proj2 (Z.leb_le _ _)) by (done || lia). rewrite IH.
  unfold enc_added, enc_bytes. cbn [fst snd]. by rewrite <- !app_assoc.
Qed.

Lemma encode_edit_enc e :
  edit_wf e →
  encode_edit e = if MAX_EDIT_BYTES <? zlen (enc_edit e)
    then Err (InvalidArgument "encoded manifest edit exceeds 67108864 bytes") else Ok (enc_edit e).
Proof.
  intros [_ _ _ _ _ Hd Hdc Ha Hac]. unfold encode_edit. rewrite !put_optional_app.
  unfold put_count. rewrite (proj2 (Z.leb_le _ _)) by done. rewrite put_deleted_fold by done.
  rewrite (proj2 (Z.leb_le _ _)) by done. rewrite put_added_fold by done.
  set (x := (_ ++ _) ++ _). assert (x = enc_edit e) as ->; [|done].
  unfold x, enc_edit, enc_list. by rewrite <- !app_assoc.
Qed.

Section Edit.
  Context (b : bytes) (Hok : bytes_ok b) (Hlen : zlen b ≤ MAX_EDIT_BYTES).

Lemma edit_max : zlen b ≤ USIZE_MAX.
Proof using Hlen. unfold MAX_EDIT_BYTES, USIZE_MAX, U64_MAX in *. lia. Qed.

Lemma list_spec {A} (item : Z → result (A * Z)) enc P name :
  parses b item enc P →
  parses b (λ p, let? (count, p) := cursor_count b p name in decode_times item (Z.to_nat count) p)
    (enc_list enc) (λ l, zlen l ≤ U32_MAX ∧ Forall P l).
Proof using Hok Hlen.
  intros Hi p l p' Hp. unfold cursor_count, enc_list. split.
  - destruct (cursor_u32 b p name) as [[n p1]|] eqn:E; [|done].
    apply (cursor_u32_spec b Hok edit_max) in E as [Hn Hr]; [|done]. pose proof (reads_bound _ _ _ _ Hr).
    intros H2. apply (decode_times_spec b item enc P _ Hi) in H2 as [[Hl Hall] Hr2]; [|lia].
    unfold is_u32 in Hn. assert (zlen l = n) as Hln by (unfold zlen; lia). rewrite Hln. split; [split; [lia|done]|].
    apply reads_app. destruct Hr as (? & ? & -> & ?). by split.
  - intros [[Hl Hall] Hr]. apply reads_app in Hr as [Hr1 Hr2]. pose proof (zlen_nonneg l).
    rewrite (parses_ok _ _ _ _ _ _ _ (cursor_u32_spec b Hok edit_max _) Hr1) by done.
    apply (parses_ok _ _ _ _ _ _ _ (decode_times_spec b item enc P _ Hi) Hr2).
    split; [unfold zlen; lia|done].
Qed.

Lemma decode_edit_spec e :
  decode_edit b = Ok e ↔ edit_wf e ∧ (b = enc_edit e ∨ b = enc_edit_v1 e ∧ no_log_fields e).
Proof using Hok Hlen.
  pose proof (zlen_nonneg b) as Hb0. unfold decode_edit. rewrite (proj2 (Z.ltb_ge _ _)) by done.
  split.
  - destruct (cursor_u8 b 0 _) as [[v p0]|] eqn:E0; [|done].
    apply (cursor_u8_spec b Hok edit_max) in E0 as [_ Hr0]; [|lia]. pose proof (reads_bound _ _ _ _ Hr0).
    destruct (negb _ && negb _) eqn:Ev; [done|].
    destruct (optional_u64 b p0 _) as [[o1 p1]|] eqn:E1; [|done].
    apply (optional_u64_spec b Hok edit_max) in E1 as [Ho1 Hr1]; [|lia]. pose proof (reads_bound _ _ _ _ Hr1).
    destruct (optional_u64 b p1 _) as [[o2 p2]|] eqn:E2; [|done].
    apply (optional_u64_spec b Hok edit_max) in E2 as [Ho2 Hr2]; [|lia]. pose proof (reads_bound _ _ _ _ Hr2).
    set (logs_enc := λ o : option Z * option Z * option Z,
      if 2 <=? v then enc_optional o.1.1 ++ enc_optional o.1.2 ++ enc_optional o.2 else []).
    match goal with |- match ?r with _ => _ end = _ → _ => destruct r as [[logs p3]|] eqn:E3; [|done] end.
    assert (reads b p2 (logs_enc logs) p3 ∧ opt_wf logs.1.1 ∧ opt_wf logs.1.2 ∧ opt_wf logs.2 ∧
      ((2 <=? v) = false → logs = (None, None, None))) as (Hr3 & Hw1 & Hw2 & Hw3 & Hnone).
    { unfold logs_enc. destruct (2 <=? v).
      - destruct (optional_u64 b p2 _) as [[q1 s1]|] eqn:F1; [|done].
        apply (optional_u64_spec b Hok edit_max) in F1 as [Hq1 Hs1]; [|lia]. pose proof (reads_bound _ _ _ _ Hs1).
        destruct (optional_u64 b s1 _) as [[q2 s2]|] eqn:F2; [|done].
        apply (optional_u64_spec b Hok edit_max) in F2 as [Hq2 Hs2]; [|lia]. pose proof (reads_bound _ _ _ _ Hs2).
        destruct (optional_u64 b s2 _) as [[q3 s3]|] eqn:F3; [|done].
        apply (optional_u64_spec b Hok edit_max) in F3 as [Hq3 Hs3]; [|lia]. injection E3 as <- <-. cbn.
        destruct Hs1 as (? & ? & -> & ?), Hs2 as (? & ? & -> & ?). split; [|done].
        apply reads_app. split; [done|]. apply reads_app. by split.
      - injection E3 as <- <-. split; [apply reads_nil; lia|done]. }
    destruct logs as [[o3 o4] o5]. cbn [fst snd] in *. pose proof (reads_bound _ _ _ _ Hr3). clear E3.
    intros H3.
    pose proof (list_spec (decode_deleted b) _ _ "deleted file count" (decode_deleted_spec b Hok edit_max)) as Sd.
    pose proof (list_spec (decode_added b) _ _ "added file count" (decode_added_spec b Hok edit_max)) as Sa.
    destruct (cursor_count b p3 _) as [[nd p4]|] eqn:Ed0; [|done].
    destruct (decode_times (decode_deleted b) _ p4) as [[dl p5]|] eqn:Ed; [|done].
    destruct (proj1 (Sd p3 dl p5 ltac:(lia))) as [[Hdc Hdl] Hrd]; [by rewrite Ed0|].
    pose proof (reads_bound _ _ _ _ Hrd).
    destruct (cursor_count b p5 _) as [[na p6]|] eqn:Ea0; [|done].
    destruct (decode_times (decode_added b) _ p6) as [[al p7]|] eqn:Ea; [|done].
    destruct (proj1 (Sa p5 al p7 ltac:(lia))) as [[Hac Hal] Hra]; [by rewrite Ea0|].
    destruct (Z.eqb_spec (zlen b - p7) 0); cbn [negb] in H3; [|done]. injection H3 as <-.
    split; [by split|]. cbn [ve_next_file_number].
    destruct Hr0 as (? & ? & -> & ?), Hr1 as (? & ? & -> & ?), Hr2 as (? & ? & -> & ?),
      Hr3 as (? & ? & -> & ?), Hrd as (? & ? & -> & ?).
    assert (b = [v] ++ enc_optional o1 ++ enc_optional o2 ++ logs_enc (o3, o4, o5) ++
      enc_list enc_deleted dl ++ enc_list enc_added al) as Hb.
    { apply reads_all. replace (zlen b) with p7 by lia.
      apply reads_app. split; [done|]. apply reads_app. split; [done|]. apply reads_app. split; [done|].
      apply reads_app. split; [done|]. apply reads_app. by split. }
    unfold FORMAT_VERSION in Ev. destruct (Z.eqb_spec v 1) as [->|].
    + right. cbn in Hnone. injection (Hnone eq_refl) as -> -> ->. done.
    + destruct (Z.eqb_spec v 2) as [->|]; [|done]. left. unfold logs_enc in Hb.
      change (2 <=? 2) with true in Hb. cbv iota in Hb. cbn [fst snd] in Hb.
      unfold enc_edit. cbn [ve_next_file_number ve_last_sequence ve_log_number ve_active_log_number
        ve_wal_sequence ve_deleted_files ve_added_files]. by rewrite <- !app_assoc in Hb.
  - intros [[H1 H2 H3 H4 H5 Hd Hdc Ha Hac] Hb].
    pose proof (list_spec (decode_deleted b) _ _ "deleted file count" (decode_deleted_spec b Hok edit_max)) as Sd.
    pose proof (list_spec (decode_added b) _ _ "added file count" (decode_added_spec b Hok edit_max)) as Sa.
    assert (∀ p q, reads b p (enc_list enc_deleted (ve_deleted_files e)) q →
      reads b q (enc_list enc_added (ve_added_files e)) (zlen b) →
      (let? (deleted_count, position) := cursor_count b p "deleted file count" in
       let? (deleted_files, position) := decode_times (decode_deleted b) (Z.to_nat deleted_count) position in
       let? (added_count, position) := cursor_count b position "added file count" in
       let? (added_files, position) := decode_times (decode_added b) (Z.to_nat added_count) position in
       Ok (deleted_files, added_files, position)) = Ok (ve_deleted_files e, ve_added_files e, zlen b)) as Htail.
    { intros p q Hrd Hra. pose proof (parses_ok _ _ _ _ _ _ _ Sd Hrd (conj Hdc Hd)) as Ed. cbn beta in Ed.
      destruct (cursor_count b p _) as [[nd p4]|]; [|done]. rewrite Ed.
      pose proof (parses_ok _ _ _ _ _ _ _ Sa Hra (conj Hac Ha)) as Ea. cbn beta in Ea.
      destruct (cursor_count b q _) as [[na p6]|]; [|done]. by rewrite Ea. }
    assert (∀ p q l1 l2 l3, reads b p (enc_list enc_deleted (ve_deleted_files e)) q →
      reads b q (enc_list enc_added (ve_added_files e)) (zlen b) →
      (let? (deleted_count, position) := cursor_count b p "deleted file count" in
       let? (deleted_files, position) := decode_times (decode_deleted b) (Z.to_nat deleted_count) position in
       let? (added_count, position) := cursor_count b position "added file count" in
       let? (added_files, position) := decode_times (decode_added b) (Z.to_nat added_count) position in
       if negb (zlen b - position =? 0) then
         Err (manifest_corruption "trailing bytes after version edit")
       else Ok {| ve_added_files := added_files; ve_deleted_files := deleted_files;
                  ve_next_file_number := ve_next_file_number e; ve_last_sequence := ve_last_sequence e;
                  ve_log_number := l1; ve_active_log_number := l2; ve_wal_sequence := l3 |}) =
      Ok {| ve_added_files := ve_added_files e; ve_deleted_files := ve_deleted_files e;
            ve_next_file_number := ve_next_file_number e; ve_last_sequence := ve_last_sequence e;
            ve_log_number := l1; ve_active_log_number := l2; ve_wal_sequence := l3 |}) as Hend.
    { intros p q l1 l2 l3 Hrd Hra. specialize (Htail p q Hrd Hra).
      destruct (cursor_count b p _) as [[nd p4]|]; [|done].
      destruct (decode_times (decode_deleted b) _ p4) as [[dl p5]|]; [|done].
      destruct (cursor_count b p5 _) as [[na p6]|]; [|done].
      destruct (decode_times (decode_added b) _ p6) as [[al p7]|]; [|done]. injection Htail as -> -> ->.
      by rewrite Z.sub_diag. }
    clear Htail Sd Sa. destruct Hb as [Hb|[Hb (N1 & N2 & N3)]]; apply reads_all in Hb;
      [unfold enc_edit in Hb|unfold enc_edit_v1 in Hb];
      apply reads_app in Hb as [R0 Hb]; apply reads_app in Hb as [R1 Hb]; apply reads_app in Hb as [R2 Hb].
    + apply reads_app in Hb as [R3 Hb]. apply reads_app in Hb as [R4 Hb]. apply reads_app in Hb as [R5 Hb].
      apply reads_app in Hb as [Rd Ra].
      rewrite (parses_ok _ _ _ _ _ _ _ (cursor_u8_spec b Hok edit_max _) R0) by done. cbn [negb andb Z.eqb].
      rewrite (parses_ok _ _ _ _ _ _ _ (optional_u64_spec b Hok edit_max _) R1 H1).
      rewrite (parses_ok _ _ _ _ _ _ _ (optional_u64_spec b Hok edit_max _) R2 H2).
      change (2 <=? FORMAT_VERSION) with true. cbv iota.
      rewrite (parses_ok _ _ _ _ _ _ _ (optional_u64_spec b Hok edit_max _) R3 H3).
      rewrite (parses_ok _ _ _ _ _ _ _ (optional_u64_spec b Hok edit_max _) R4 H4).
      rewrite (parses_ok _ _ _ _ _ _ _ (optional_u64_spec b Hok edit_max _) R5 H5).
      rewrite (Hend _ _ _ _ _ Rd Ra). by destruct e.
    + apply reads_app in Hb as [Rd Ra].
      rewrite (parses_ok _ _ _ _ _ _ _ (cursor_u8_spec b Hok edit_max _) R0) by done. cbn [negb andb Z.eqb].
      rewrite (parses_ok _ _ _ _ _ _ _ (optional_u64_spec b Hok edit_max _) R1 H1).
      rewrite (parses_ok _ _ _ _ _ _ _ (optional_u64_spec b Hok edit_max _) R2 H2).
      change (2 <=? 1) with false. cbv iota.
      rewrite (Hend _ _ _ _ _ Rd Ra). destruct e. cbn in *. by subst.
Qed.
End Edit.

(** ** File names *)

(** The bytes of an ASCII literal. *)
Definition ascii_bytes (s : string) : bytes :=
  map (λ c, Z.of_N (Ascii.N_of_ascii c)) (String.list_ascii_of_string s).

(** Decimal digits; a [u64] has at most twenty. *)
Fixpoint dec_digits (fuel : nat) (n : Z) (acc : bytes) : bytes :=
  match fuel with
  | O => acc
  | S fuel =>
    if n <? 10 then (48 + n) :: acc else dec_digits fuel (n / 10) ((48 + n mod 10) :: acc)
  end.

(** [format!("{number:06}")] *)
Definition format06 (number : Z) : bytes :=
  let digits := dec_digits 20 number [] in
  replicate (Z.to_nat (6 - zlen digits)) 48 ++ digits.

Definition manifest_name (number : Z) : bytes := ascii_bytes "MANIFEST-" ++ format06 number.
Definition sstable_name (number : Z) : bytes := format06 number ++ ascii_bytes ".sst".

Definition is_ascii_digit (b : Z) : bool := (48 <=? b) && (b <=? 57).

Fixpoint strip_prefix (prefix b : bytes) : option bytes :=
  match prefix, b with
  | [], b => Some b
  | x :: prefix, y :: b => if x =? y then strip_prefix prefix b else None
  | _ :: _, [] => None
  end.

(** [str::parse::<u64>] on a nonempty string of digits; [None] is an overflow. *)
Definition push_digit (acc : option Z) (digit : Z) : option Z :=
  match acc with
  | Some acc =>
    match checked_mul acc 10 with
    | Some acc => checked_add acc (digit - 48)
    | None => None
    end
  | None => None
  end.
Definition parse_u64 (digits : bytes) : option Z := fold_left push_digit digits (Some 0).

Definition parse_manifest_number (name : bytes) : result Z :=
  let? digits :=
    ok_or (match strip_prefix (ascii_bytes "MANIFEST-") name with
           | Some digits =>
             if (6 <=? zlen digits) && forallb is_ascii_digit digits then Some digits else None
           | None => None
           end) (manifest_corruption "CURRENT contains an invalid manifest name") in
  let? number := ok_or (parse_u64 digits) (manifest_corruption "manifest number does not fit u64") in
  if (number =? 0) || negb (lex_eqb digits (format06 number)) then
    Err (manifest_corruption "CURRENT contains a noncanonical manifest name")
  else Ok number.

(** [std::str::from_utf8] *)
Definition utf8_cont (b : Z) : bool := (0x80 <=? b) && (b <=? 0xbf).
Definition between (lo b hi : Z) : bool := (lo <=? b) && (b <=? hi).

Fixpoint is_utf8 (b : bytes) : bool :=
  match b with
  | [] => true
  | x :: r =>
    if x <? 0x80 then is_utf8 r
    else
      match r with
      | [] => false
      | y :: r =>
        if between 0xc2 x 0xdf then utf8_cont y && is_utf8 r
        else
          match r with
          | [] => false
          | z :: r =>
            if x =? 0xe0 then between 0xa0 y 0xbf && utf8_cont z && is_utf8 r
            else if x =? 0xed then between 0x80 y 0x9f && utf8_cont z && is_utf8 r
            else if between 0xe1 x 0xef then utf8_cont y && utf8_cont z && is_utf8 r
            else
              match r with
              | [] => false
              | w :: r =>
                if x =? 0xf0 then between 0x90 y 0xbf && utf8_cont z && utf8_cont w && is_utf8 r
                else if x =? 0xf4 then between 0x80 y 0x8f && utf8_cont z && utf8_cont w && is_utf8 r
                else if between 0xf1 x 0xf3 then utf8_cont y && utf8_cont z && utf8_cont w && is_utf8 r
                else false
              end
          end
      end
  end.

Definition NEWLINE : Z := 10.

Definition parse_current (b : bytes) : result bytes :=
  let body := take (Z.to_nat (zlen b - 1)) b in
  if match last b with
     | Some x => negb (x =? NEWLINE) || existsb (Z.eqb NEWLINE) body
     | None => true
     end then
    Err (manifest_corruption "CURRENT must contain exactly one newline-terminated manifest name")
  else if negb (is_utf8 body) then
    Err (manifest_corruption "CURRENT manifest name is not UTF-8")
  else
    let? _ := parse_manifest_number body in
    Ok body.

(** *** Correctness of the names *)

Lemma dec_digits_parse fuel n acc :
  0 ≤ n < 10 ^ Z.of_nat fuel → n ≤ U64_MAX →
  fold_left push_digit (dec_digits fuel n acc) (Some 0) = fold_left push_digit acc (Some n).
Proof.
  revert n acc. induction fuel as [|fuel IH]; intros n acc Hn Hmax.
  { cbn in Hn. assert (n = 0) as -> by lia. done. }
  cbn [dec_digits]. unfold USIZE_MAX in *.
  assert (∀ m d, 0 ≤ m → 0 ≤ d ≤ 9 → m * 10 + d ≤ U64_MAX → push_digit (Some m) (48 + d) = Some (m * 10 + d)) as Hpush.
  { intros m d Hm Hd Hb. unfold push_digit, checked_mul, checked_add, USIZE_MAX.
    rewrite (proj2 (Z.leb_le _ _)) by lia. replace (48 + d - 48) with d by lia.
    by rewrite (proj2 (Z.leb_le _ _)) by lia. }
  destruct (Z.ltb_spec n 10).
  - cbn [fold_left]. by rewrite (Hpush 0 n) by lia.
  - pose proof (Z.div_mod n 10 ltac:(lia)) as Hdm. pose proof (Z.mod_pos_bound n 10 ltac:(lia)) as Hmb.
    rewrite IH.
    + cbn [fold_left]. rewrite Hpush by lia. do 2 f_equal. lia.
    + rewrite Nat2Z.inj_succ, Z.pow_succ_r in Hn by lia. split; [apply Z.div_pos; lia|].
      apply Z.div_lt_upper_bound; lia.
    + assert (n / 10 ≤ n) by (apply Z.div_le_upper_bound; lia). lia.
Qed.

Lemma dec_digits_ascii fuel n acc :
  0 ≤ n → forallb is_ascii_digit acc = true → forallb is_ascii_digit (dec_digits fuel n acc) = true.
Proof.
  revert n acc. induction fuel as [|fuel IH]; intros n acc Hn Hacc; [done|]. cbn [dec_digits].
  assert (∀ d, 0 ≤ d ≤ 9 → is_ascii_digit (48 + d) = true) as Hd.
  { intros d Hd. unfold is_ascii_digit. by rewrite !(proj2 (Z.leb_le _ _)) by lia. }
  destruct (Z.ltb_spec n 10); [cbn; by rewrite Hd by lia|].
  pose proof (Z.mod_pos_bound n 10 ltac:(lia)). apply IH; [apply Z.div_pos; lia|].
  cbn. by rewrite Hd by lia.
Qed.

Lemma format06_parse n :
  0 ≤ n ≤ U64_MAX → parse_u64 (format06 n) = Some n ∧ forallb is_ascii_digit (format06 n) = true ∧
    6 ≤ zlen (format06 n).
Proof.
  intros Hn. unfold format06, parse_u64. set (d := dec_digits 20 n []).
  split; [|split].
  - rewrite fold_left_app.
    assert (∀ k, fold_left push_digit (replicate k 48) (Some 0) = Some 0) as ->
      by (intros k; induction k; [done|]; done).
    unfold d. rewrite dec_digits_parse; [done| |lia]. unfold U64_MAX in Hn. cbn. lia.
  - rewrite forallb_app. apply andb_true_iff. split; [|by apply dec_digits_ascii; [lia|]].
    generalize (Z.to_nat (6 - zlen d)). intros k. by induction k.
  - rewrite zlen_app, zlen_replicate. lia.
Qed.

Lemma strip_prefix_app p b : strip_prefix p (p ++ b) = Some b.
Proof. induction p as [|x p IH]; cbn; [done|]. by rewrite Z.eqb_refl. Qed.

Lemma strip_prefix_sound p b r : strip_prefix p b = Some r → b = p ++ r.
Proof.
  revert b. induction p as [|x p IH]; intros [|y b] H; cbn in H; try done.
  1,2: by injection H as <-.
  destruct (Z.eqb_spec x y) as [->|]; [|done]. cbn. f_equal. by apply IH.
Qed.

Lemma parse_manifest_number_name n :
  0 < n ≤ U64_MAX → parse_manifest_number (manifest_name n) = Ok n.
Proof.
  intros Hn. destruct (format06_parse n ltac:(lia)) as (Hp & Ha & Hl).
  unfold parse_manifest_number, manifest_name. rewrite strip_prefix_app.
  rewrite (proj2 (Z.leb_le _ _)), Ha by lia. cbn [andb ok_or]. rewrite Hp. cbn [ok_or].
  rewrite (proj2 (Z.eqb_neq _ _)), lex_eqb_refl by lia. done.
Qed.

Lemma parse_manifest_number_sound name n :
  parse_manifest_number name = Ok n → name = manifest_name n.
Proof.
  unfold parse_manifest_number, manifest_name. intros H.
  destruct (strip_prefix _ name) as [d|] eqn:Es; [|done]. apply strip_prefix_sound in Es as ->.
  destruct (_ && _); cbn [ok_or] in H; [|done]. destruct (parse_u64 d) as [m|]; cbn [ok_or] in H; [|done].
  destruct (Z.eqb_spec m 0); cbn [orb] in H; [done|]. destruct (lex_eqb d (format06 m)) eqn:E; [|done].
  apply lex_eqb_eq in E. injection H as ->. by rewrite <- E.
Qed.

(** ** Properties *)

(** [C36] The codec of version edits is exact: an edit that [encode_edit] accepts
    decodes to itself; and whatever the decoder accepts, it accepts as the only
    encoding of a well-formed edit in the current format, or as one of format 1,
    which has no log fields. *)
Theorem edit_codec_exact (b : bytes) (e : VersionEdit) :
  bytes_ok b → zlen b ≤ MAX_EDIT_BYTES →
  (edit_wf e → encode_edit e = Ok b → decode_edit b = Ok e) ∧
  (decode_edit b = Ok e → edit_wf e ∧
    match b with
    | v :: _ => if v =? FORMAT_VERSION then encode_edit e = Ok b
                else v = 1 ∧ b = enc_edit_v1 e ∧ no_log_fields e
    | [] => False
    end).
Proof.
  intros Hok Hlen. split.
  - intros Hwf He. apply (decode_edit_spec b Hok Hlen). split; [done|]. left.
    rewrite (encode_edit_enc e Hwf) in He. destruct (_ <? _); [done|]. by injection He as <-.
  - intros Hd. apply (decode_edit_spec b Hok Hlen) in Hd as [Hwf Hb]. split; [done|].
    pose proof (encode_edit_enc e Hwf) as He. destruct Hb as [Hb|[Hb Hn]]; rewrite Hb.
    + rewrite <- Hb in He. rewrite (proj2 (Z.ltb_ge _ _)) in He by done. by rewrite Hb in He.
    + done.
Qed.

(** Manifest names are canonical: [CURRENT] holding the name of manifest [n]
    reads back as [n], and a name that parses is the one name of its number, so
    two distinct names never denote the same manifest. *)
Theorem manifest_name_canonical (n : Z) (file : bytes) :
  0 < n ≤ U64_MAX →
  parse_manifest_number (manifest_name n) = Ok n ∧
  (parse_manifest_number file = Ok n ↔ file = manifest_name n).
Proof.
  intros Hn. pose proof (parse_manifest_number_name n Hn) as Hp. split; [done|]. split; [|by intros ->].
  apply parse_manifest_number_sound.
Qed.

(** ** Witnesses *)

Definition sample_encoded : bytes := enc_edit (set_next_file_number sample_edit 8).

(** Witness of C36. *)
Lemma edit_codec_exact_witness :
  decode_edit sample_encoded = Ok (set_next_file_number sample_edit 8) ∧
  encode_edit (set_next_file_number sample_edit 8) = Ok sample_encoded.
Proof.
  destruct (edit_codec_exact sample_encoded (set_next_file_number sample_edit 8)) as [_ H2].
  - eval_done.
  - eval_done.
  - assert (decode_edit sample_encoded = Ok (set_next_file_number sample_edit 8)) as Hd by (by vm_compute).
    split; [exact Hd|]. exact (proj2 (H2 Hd)).
Defined.

(** An instance. *)
Lemma manifest_name_canonical_witness :
  parse_manifest_number (ascii_bytes "MANIFEST-000001") = Ok 1 ∧
  (parse_manifest_number (ascii_bytes "MANIFEST-1") = Ok 1 ↔ ascii_bytes "MANIFEST-1" = manifest_name 1).
Proof. apply (manifest_name_canonical 1 (ascii_bytes "MANIFEST-1")). unfold U64_MAX. lia. Defined.
