(* ===== verification/Manifest.v ===== *)
(** * The manifest and the version set (src/crates/meteordb/src/manifest.rs)

    The manifest is a framed log of version edits.  [replay_manifest] reads it,
    [VersionSet] keeps the published version and the recovery counters, and its
    operations create, recover and extend the log through the file system of
    [Fs].  The advisory lock file is an argument: whether another process holds it. *)

From Stdlib Require Import ZArith Lia Sorting.Sorted.
From stdpp Require Import base list gmap strings.
From S2P Require Import Prelude Fs Checksum Framing InternalKey Version ManifestCodec.

Local Open Scope Z_scope.

(** ** Recovery counters *)

Record Counters : Type := {
  cn_next_file_number : Z;
  cn_last_sequence : Z;
  cn_log_number : Z;
  cn_active_log_number : Z;
  cn_wal_sequence : Z
}.

Definition counters_zero : Counters :=
  {| cn_next_file_number := 0; cn_last_sequence := 0; cn_log_number := 0;
     cn_active_log_number := 0; cn_wal_sequence := 0 |}.

Definition counter_error (recovery : bool) (detail : string) : error :=
  if recovery then manifest_corruption detail else InvalidArgument detail.

(** One monotonic counter: [None] keeps it. *)
Definition advance (recovery : bool) (detail : string) (current : Z) (o : option Z) : result Z :=
  match o with
  | Some v => if v <? current then Err (counter_error recovery detail) else Ok v
  | None => Ok current
  end.

Definition update_counters (edit : VersionEdit) (c : Counters) (recovery : bool) : result Counters :=
  let? next :=
    match ve_next_file_number edit with
    | Some next =>
      if next <? cn_next_file_number c then
        Err (counter_error recovery "next file number moved backward")
      else if next =? 0 then
        Err (counter_error recovery "next file number must be greater than zero")
      else Ok next
    | None => Ok (cn_next_file_number c)
    end in
  let? last := advance recovery "last sequence moved backward" (cn_last_sequence c)
    (ve_last_sequence edit) in
  let? log := advance recovery "log number moved backward" (cn_log_number c) (ve_log_number edit) in
  let? active := advance recovery "active log number moved backward" (cn_active_log_number c)
    (ve_active_log_number edit) in
  let? wal := advance recovery "WAL sequence moved backward" (cn_wal_sequence c)
    (ve_wal_sequence edit) in
  if negb (Bool.eqb (log =? 0) (active =? 0)) then
    Err (counter_error recovery
      "oldest and active log numbers must either both be zero or both be nonzero")
  else if active <? log then
    Err (counter_error recovery "oldest log number exceeds active log number")
  else if (next <=? active) && negb (active =? 0) then
    Err (counter_error recovery "active log number is not below next file number")
  else
    Ok {| cn_next_file_number := next; cn_last_sequence := last; cn_log_number := log;
          cn_active_log_number := active; cn_wal_sequence := wal |}.

Definition validate_file_numbers (edit : VersionEdit) (next_file_number : Z) (used : gset Z)
    (recovery : bool) : result unit :=
  if existsb (λ number, next_file_number <=? number) (elements used) then
    Err (counter_error recovery "next file number does not exceed every previously used file number")
  else
    let deleted : gset Z := list_to_set (map snd (ve_deleted_files edit)) in
    let? _ :=
      try_fold (λ (added : gset Z) (a : Z * FileMeta),
        let number := fm_number a.2 in
        if next_file_number <=? number then
          Err (counter_error recovery "SSTable file number is not below next file number")
        else if bool_decide (number ∈ added) then
          Err (counter_error recovery "SSTable file number is added more than once")
        else if bool_decide (number ∈ deleted) then
          Err (counter_error recovery "SSTable file number is deleted and re-added in the same edit")
        else if bool_decide (number ∈ used) then
          Err (counter_error recovery "SSTable file number has already been used")
        else Ok ({[number]} ∪ added)) ∅ (ve_added_files edit) in
    Ok tt.

(** The file numbers an edit brings in. *)
Definition added_numbers (edit : VersionEdit) : gset Z :=
  list_to_set (map (λ a, fm_number a.2) (ve_added_files edit)).

(** ** Replaying edits *)

(** What the loops of [recover_with_fs] and [validate_interrupted_bootstrap] carry. *)
Record Recovery : Type := {
  rc_version : Version;
  rc_counters : Counters;
  rc_used : gset Z
}.

Definition recovery_start (manifest_number : Z) : Recovery :=
  {| rc_version := Version_empty; rc_counters := counters_zero; rc_used := {[manifest_number]} |}.

Definition recover_edit (r : Recovery) (edit : VersionEdit) : result Recovery :=
  let? counters := update_counters edit (rc_counters r) true in
  let? _ := validate_file_numbers edit (cn_next_file_number counters) (rc_used r) true in
  let? candidate := map_err recovery_edit_error (Version_apply (rc_version r) edit) in
  Ok {| rc_version := candidate; rc_counters := counters; rc_used := added_numbers edit ∪ rc_used r |}.

Definition recover_edits (manifest_number : Z) (edits : list VersionEdit) : result Recovery :=
  if bool_decide (edits = []) then
    Err (manifest_corruption "manifest contains no complete initial edit")
  else
    let? r := try_fold recover_edit (recovery_start manifest_number) edits in
    if cn_next_file_number (rc_counters r) =? 0 then
      Err (manifest_corruption "manifest never records the next file number")
    else Ok r.

(** ** The physical log *)

Record ManifestState (A : Type) : Type := {
  ms_logical : bytes;
  ms_assembling : bool;
  ms_record_start : Z;
  ms_acc : A
}.
Arguments ms_logical {A} _.
Arguments ms_assembling {A} _.
Arguments ms_record_start {A} _.
Arguments ms_acc {A} _.
Arguments Build_ManifestState {A} _ _ _ _.

Section Stream.
  Context {A : Type} (on_edit : A → VersionEdit → result A).

Definition manifest_append_fragment (logical fragment : bytes) : result bytes :=
  match checked_add (zlen logical) (zlen fragment) with
  | Some length =>
    if length <=? MAX_EDIT_BYTES then Ok (logical ++ fragment)
    else Err (manifest_corruption "logical edit exceeds the checked size limit")
  | None => Err (manifest_corruption "logical edit exceeds the checked size limit")
  end.

Definition deliver_edit (acc : A) (encoded : bytes) : result A :=
  let? edit := decode_edit encoded in
  on_edit acc edit.

(** [match fragment_type] *)
Definition manifest_step (position : Z) (st : ManifestState A) (fragment_type : Z) (fragment : bytes)
    : result (ManifestState A) :=
  if (fragment_type =? FULL) && negb (ms_assembling st) then
    let? acc := deliver_edit (ms_acc st) fragment in
    Ok {| ms_logical := ms_logical st; ms_assembling := ms_assembling st;
          ms_record_start := ms_record_start st; ms_acc := acc |}
  else if (fragment_type =? FIRST) && negb (ms_assembling st) then
    let? logical := manifest_append_fragment [] fragment in
    Ok {| ms_logical := logical; ms_assembling := true;
          ms_record_start := position; ms_acc := ms_acc st |}
  else if (fragment_type =? MIDDLE) && ms_assembling st then
    let? logical := manifest_append_fragment (ms_logical st) fragment in
    Ok {| ms_logical := logical; ms_assembling := ms_assembling st;
          ms_record_start := ms_record_start st; ms_acc := ms_acc st |}
  else if (fragment_type =? LAST) && ms_assembling st then
    let? logical := manifest_append_fragment (ms_logical st) fragment in
    let? acc := deliver_edit (ms_acc st) logical in
    Ok {| ms_logical := []; ms_assembling := false;
          ms_record_start := ms_record_start st; ms_acc := acc |}
  else if (fragment_type =? FULL) || (fragment_type =? FIRST) then
    Err (manifest_corruption "new record starts before the previous record ended")
  else if (fragment_type =? MIDDLE) || (fragment_type =? LAST) then
    Err (manifest_corruption "continuation fragment has no preceding FIRST")
  else Err (manifest_corruption "unknown physical fragment type").

(** The result is the state of the callback and [valid_bytes]. *)
Definition ManifestReader : FrameReader (ManifestState A) (A * Z) := {|
  fr_corruption := manifest_corruption;
  fr_crosses := "physical fragment crosses a block boundary";
  fr_step := manifest_step;
  fr_torn position st := (ms_acc st, if ms_assembling st then ms_record_start st else position);
  fr_end file_length st := (ms_acc st, if ms_assembling st then ms_record_start st else file_length)
|}.

Definition replay_manifest_stream `{C : Crc32c} (file : bytes) (acc : A) : result (A * Z) :=
  scan (FR := ManifestReader) file
    {| ms_logical := []; ms_assembling := false; ms_record_start := 0; ms_acc := acc |}.
End Stream.

Record ManifestReplay : Type := {
  mr_edits : list VersionEdit;
  mr_valid_bytes : Z;
  mr_file_length : Z
}.

Definition replay_manifest `{C : Crc32c} (file : bytes) : result ManifestReplay :=
  let? (edits, valid_bytes) :=
    replay_manifest_stream (λ edits edit, Ok (edits ++ [edit])) file [] in
  Ok {| mr_edits := edits; mr_valid_bytes := valid_bytes; mr_file_length := zlen file |}.

(** ** The version set *)

Definition initial_edit : VersionEdit :=
  let edit := set_next_file_number VersionEdit_new 2 in
  let edit := set_last_sequence edit 0 in
  let edit := set_log_number edit 0 in
  let edit := set_active_log_number edit 0 in
  set_wal_sequence edit 0.

Record ManifestWriter : Type := {
  mw_path : name;
  mw_block_offset : Z
}.

Record VersionSet : Type := {
  vs_manifest_number : Z;
  vs_manifest : ManifestWriter;
  vs_current : Version;
  vs_used_file_numbers : gset Z;
  vs_counters : Counters;
  vs_manifest_usable : bool
}.

Section VersionSet.
  Context `{C : Crc32c}.

(** The loop over the fragments of a record, one write for the padding, one for the
    header and one for the payload; the manifest and the write-ahead log differ in
    the names of the operations. *)
Fixpoint fs_append_loop (pad append panic : string) (fuel : nat) (path : name) (logical : bytes) (position : Z)
    (first : bool) (block_offset : Z) : FS Z :=
  match fuel with
  | O => fs_fail (Panicked "loop bound")
  | S fuel =>
    if position <? zlen logical then
      let remaining := BLOCK_BYTES - block_offset in
      let! block_offset :=
        (if remaining <? HEADER_BYTES then
           let! _ := fs_map_err (io_error pad)
             (file_write_all path (replicate (Z.to_nat remaining) 0)) in
           fs_ret 0
         else fs_ret block_offset) in
      let available := BLOCK_BYTES - block_offset - HEADER_BYTES in
      let fragment_length := Z.min available (zlen logical - position) in
      let last := position + fragment_length =? zlen logical in
      let fragment_type :=
        match first, last with
        | true, true => FULL
        | true, false => FIRST
        | false, true => LAST
        | false, false => MIDDLE
        end in
      let fragment := slice position (position + fragment_length) logical in
      if fragment_length <=? U16_MAX then
        let! _ := fs_map_err (io_error append)
          (file_write_all path (fragment_header fragment_type fragment fragment_length)) in
        let! _ := fs_map_err (io_error append) (file_write_all path fragment) in
        fs_append_loop pad append panic fuel path logical (position + fragment_length) false
          (block_offset + (HEADER_BYTES + fragment_length))
      else fs_fail (Panicked panic)
    else fs_ret block_offset
  end.

(** The loop of [ManifestWriter::append]. *)
Definition manifest_append_loop : nat → name → bytes → Z → bool → Z → FS Z :=
  fs_append_loop "pad manifest block" "append manifest edit" "fragment fits physical block".

(** The writer with the offset behind the record. *)
Definition ManifestWriter_append (w : ManifestWriter) (logical : bytes) : FS ManifestWriter :=
  let! block_offset :=
    manifest_append_loop (write_fuel logical) (mw_path w) logical 0 true (mw_block_offset w) in
  fs_ret {| mw_path := mw_path w; mw_block_offset := block_offset |}.

Definition ManifestWriter_sync (w : ManifestWriter) (operation : string) : FS unit :=
  fs_map_err (io_error operation) (file_sync_all (mw_path w)).

Definition CURRENT : name := ascii_bytes "CURRENT".
Definition CURRENT_TMP : name := ascii_bytes "CURRENT.tmp".
Definition DIRECTORY : name := [].

Definition replace_current (manifest : name) : FS unit :=
  let! _ := fs_map_err (io_error "create CURRENT temporary file") (fs_create CURRENT_TMP) in
  let! _ := fs_map_err (io_error "write CURRENT temporary file")
    (file_write_all CURRENT_TMP (manifest ++ [NEWLINE])) in
  let! _ := fs_map_err (io_error "sync CURRENT temporary file") (file_sync_all CURRENT_TMP) in
  let! _ := fs_map_err (io_error "install CURRENT") (atomic_install CURRENT_TMP CURRENT) in
  fs_map_err (io_error "sync CURRENT directory") (sync_directory DIRECTORY).

Definition remove_temporary_if_present (path : name) : FS unit :=
  let! present := fs_map_err (io_error "check temporary metadata file") (entry_exists path) in
  if present then fs_map_err (io_error "remove temporary metadata file") (remove_file path)
  else fs_ret tt.

(** [for level in 0..NUM_LEVELS { for file in version.files(level) }] *)
Definition validate_referenced_files (v : Version) : FS unit :=
  fs_each (λ f : FileMeta,
    fs_map_err (λ _, manifest_corruption "level references missing SSTable or invalid file")
      (validate_file (sstable_name (fm_number f)))) (concat v).

Definition fs_replay_manifest (path : name) : FS ManifestReplay :=
  let! file := fs_map_err (io_error "open manifest") (read_file path) in
  fs_lift (replay_manifest file).

Definition validate_interrupted_bootstrap (manifest_number : Z) (manifest_path : name) : FS unit :=
  let! replay := fs_replay_manifest manifest_path in
  if negb (mr_valid_bytes replay =? mr_file_length replay) then
    fs_fail (manifest_corruption "interrupted bootstrap manifest has a torn tail")
  else
    let! r := fs_lift (recover_edits manifest_number (mr_edits replay)) in
    validate_referenced_files (rc_version r).

Definition recover_with_fs (lock_held : bool) : FS VersionSet :=
  if lock_held then fs_fail (Locked "LOCK")
  else
    let! current := fs_map_err (io_error "read CURRENT") (read_file CURRENT) in
    let! manifest_name := fs_lift (parse_current current) in
    let! manifest_number := fs_lift (parse_manifest_number manifest_name) in
    let! replay := fs_replay_manifest manifest_name in
    let! r := fs_lift (recover_edits manifest_number (mr_edits replay)) in
    let! _ := validate_referenced_files (rc_version r) in
    let! _ :=
      (if mr_valid_bytes replay <? mr_file_length replay then
         let! _ := fs_map_err (io_error "truncate torn manifest tail")
           (truncate_file manifest_name (mr_valid_bytes replay)) in
         fs_map_err (io_error "sync truncated manifest") (sync_file manifest_name)
       else fs_ret tt) in
    let! _ := fs_map_err (io_error "open manifest for append") (append_existing manifest_name) in
    fs_ret {| vs_manifest_number := manifest_number;
              vs_manifest :=
                {| mw_path := manifest_name;
                   mw_block_offset := mr_valid_bytes replay mod BLOCK_BYTES |};
              vs_current := rc_version r;
              vs_used_file_numbers := rc_used r;
              vs_counters := rc_counters r;
              vs_manifest_usable := true |}.

Definition create_with_fs (lock_held : bool) : FS VersionSet :=
  if lock_held then fs_fail (Locked "LOCK")
  else
    let manifest_number := 1 in
    let manifest_path := manifest_name manifest_number in
    let manifest_temp := manifest_path ++ ascii_bytes ".tmp" in
    let! current_exists := fs_map_err (io_error "check CURRENT") (entry_exists CURRENT) in
    if current_exists then fs_fail (InvalidArgument "database already exists")
    else
      let! manifest_exists := fs_map_err (io_error "check manifest") (entry_exists manifest_path) in
      if manifest_exists then
        let! _ := fs_map_err (λ _, InvalidArgument "database already exists")
          (validate_file manifest_path) in
        let! _ := validate_interrupted_bootstrap manifest_number manifest_path in
        let! _ := remove_temporary_if_present CURRENT_TMP in
        let! _ := replace_current manifest_path in
        recover_with_fs false
      else
        let! _ := remove_temporary_if_present manifest_temp in
        let! _ := remove_temporary_if_present CURRENT_TMP in
        let! encoded := fs_lift (encode_edit initial_edit) in
        let! _ := fs_map_err (io_error "create manifest temporary file") (fs_create manifest_temp) in
        let! writer := ManifestWriter_append
          {| mw_path := manifest_temp; mw_block_offset := 0 |} encoded in
        let! _ := ManifestWriter_sync writer "sync new manifest" in
        let! _ := fs_map_err (io_error "install manifest temporary file")
          (atomic_install manifest_temp manifest_path) in
        let! _ := fs_map_err (io_error "sync manifest directory") (sync_directory DIRECTORY) in
        let! _ := replace_current manifest_path in
        let! _ := fs_map_err (io_error "open manifest for append") (append_existing manifest_path) in
        fs_ret {| vs_manifest_number := manifest_number;
                  vs_manifest :=
                    {| mw_path := manifest_path;
                       mw_block_offset := zlen encoded + HEADER_BYTES |};
                  vs_current := Version_empty;
                  vs_used_file_numbers := {[manifest_number]};
                  vs_counters :=
                    {| cn_next_file_number := 2; cn_last_sequence := 0; cn_log_number := 0;
                       cn_active_log_number := 0; cn_wal_sequence := 0 |};
                  vs_manifest_usable := true |}.

(** [Db::open_internal]: an existing database is recovered, a new one created. *)
Definition open_versions (lock_held : bool) : FS VersionSet :=
  let! current_exists := fs_map_err (io_error "check CURRENT") (entry_exists CURRENT) in
  if current_exists then recover_with_fs lock_held else create_with_fs lock_held.

(** The outcome of [apply_with_visibility]: [edit_may_be_visible] tells the engine
    whether recovery could still find the edit. *)
Record VersionApplyError : Type := {
  va_error : error;
  va_edit_may_be_visible : bool
}.

Definition before_manifest (e : error) : VersionApplyError :=
  {| va_error := e; va_edit_may_be_visible := false |}.
Definition during_manifest (e : error) : VersionApplyError :=
  {| va_error := e; va_edit_may_be_visible := true |}.

Definition vs_unusable (vs : VersionSet) : VersionSet :=
  {| vs_manifest_number := vs_manifest_number vs; vs_manifest := vs_manifest vs;
     vs_current := vs_current vs; vs_used_file_numbers := vs_used_file_numbers vs;
     vs_counters := vs_counters vs; vs_manifest_usable := false |}.

(** Everything before the append: the checks on a copy, then the SSTables. *)
Definition prepare_apply (vs : VersionSet) (edit : VersionEdit) : FS (Counters * Version * bytes) :=
  let! counters := fs_lift (update_counters edit (vs_counters vs) false) in
  let! _ := fs_lift (validate_file_numbers edit (cn_next_file_number counters)
                       (vs_used_file_numbers vs) false) in
  let! candidate := fs_lift (Version_apply (vs_current vs) edit) in
  let! encoded := fs_lift (encode_edit edit) in
  let! _ := fs_each (λ a : Z * FileMeta,
    fs_map_err (io_error "sync referenced SSTable")
      (sync_file (sstable_name (fm_number a.2)))) (ve_added_files edit) in
  fs_ret (counters, candidate, encoded).

Definition apply_with_visibility (vs : VersionSet) (edit : VersionEdit) (s : FaultState)
    : option VersionApplyError * VersionSet * FaultState :=
  if negb (vs_manifest_usable vs) then
    (Some (before_manifest (Background "manifest writer is unusable after a failed append or sync")),
     vs, s)
  else
    match prepare_apply vs edit s with
    | (Err e, s) => (Some (before_manifest e), vs, s)
    | (Ok (counters, candidate, encoded), s) =>
      match ManifestWriter_append (vs_manifest vs) encoded s with
      | (Err e, s) => (Some (during_manifest e), vs_unusable vs, s)
      | (Ok writer, s) =>
        match ManifestWriter_sync writer "sync manifest edit" s with
        | (Err e, s) =>
          (Some (during_manifest e),
           vs_unusable {| vs_manifest_number := vs_manifest_number vs; vs_manifest := writer;
                          vs_current := vs_current vs;
                          vs_used_file_numbers := vs_used_file_numbers vs;
                          vs_counters := vs_counters vs; vs_manifest_usable := true |}, s)
        | (Ok _, s) =>
          (None,
           {| vs_manifest_number := vs_manifest_number vs;
              vs_manifest := writer;
              vs_current := candidate;
              vs_used_file_numbers := added_numbers edit ∪ vs_used_file_numbers vs;
              vs_counters := counters;
              vs_manifest_usable := true |}, s)
        end
      end
    end.

End VersionSet.
