(* ===== verification/ManifestLog.v ===== *)
(** * Manifests on disk

    The bytes a sequence of edits leaves in the manifest, also behind a recovered
    torn tail, and what a replay finds in any prefix of them. *)

From Stdlib Require Import ZArith Lia Sorting.Sorted.
From stdpp Require Import base list gmap strings.
From S2P Require Import Prelude Fs Checksum Framing InternalKey Version ManifestCodec Manifest.

Local Open Scope Z_scope.

(** ** The reader satisfies the framing contract *)

Section Laws.
  Context {A : Type} (on_edit : A → VersionEdit → result A).

Definition manifest_rel (st : ManifestState A) (pending : option (Z * bytes)) (a : A) : Prop :=
  ms_acc st = a ∧
  match pending with
  | None => ms_assembling st = false
  | Some (s, p) => ms_assembling st = true ∧ ms_logical st = p ∧ ms_record_start st = s
  end.

Lemma manifest_append_fragment_ok p f :
  zlen (p ++ f) ≤ MAX_EDIT_BYTES → manifest_append_fragment p f = Ok (p ++ f).
Proof.
  intros H. unfold manifest_append_fragment, checked_add. rewrite zlen_app in H.
  rewrite (proj2 (Z.leb_le _ USIZE_MAX)) by (unfold USIZE_MAX, U64_MAX, MAX_EDIT_BYTES in *; lia).
  by rewrite (proj2 (Z.leb_le _ _)).
Qed.

#[refine] Definition ManifestLaws : FrameLaws (ManifestReader on_edit) A := {|
  fl_limit := MAX_EDIT_BYTES;
  fl_rel := manifest_rel;
  fl_deliver := deliver_edit on_edit;
  fl_out a valid := (a, valid)
|}.
Proof.
  - intros pos st a f a' [<- Ha] Hl Hd. cbn. unfold manifest_step. rewrite Ha, Hd. cbn.
    eexists. split; [done|]. done.
  - intros pos st a f [<- Ha] Hl. cbn. unfold manifest_step. rewrite Ha. cbn.
    rewrite manifest_append_fragment_ok by done. eexists. split; [done|]. done.
  - intros pos st a s p f (<- & Ha & <- & <-) Hl. cbn. unfold manifest_step. rewrite Ha. cbn.
    rewrite manifest_append_fragment_ok by done. eexists. split; [done|]. done.
  - intros pos st a s p f a' (<- & Ha & <- & <-) Hl Hd. cbn. unfold manifest_step. rewrite Ha. cbn.
    rewrite manifest_append_fragment_ok, Hd by done. eexists. split; [done|]. done.
  - intros pos st a [<- Ha]. cbn. by rewrite Ha.
  - intros pos st a s p (<- & Ha & _ & <-). cbn. by rewrite Ha.
  - intros n st a [<- Ha]. cbn. by rewrite Ha.
  - intros n st a s p (<- & Ha & _ & <-). cbn. by rewrite Ha.
Defined.
End Laws.

(** ** Offsets and layouts *)

Section Offsets.
  Context `{C : Crc32c}.

Lemma pad_start_mod o :
  0 ≤ o ≤ BLOCK_BYTES → (o + zlen (pad_of o)) mod BLOCK_BYTES = start_of o mod BLOCK_BYTES.
Proof.
  intros Ho. unfold pad_of, start_of. destruct (Z.ltb_spec (BLOCK_BYTES - o) HEADER_BYTES).
  - rewrite zlen_replicate. replace (o + Z.of_nat (Z.to_nat (BLOCK_BYTES - o))) with (0 + 1 * BLOCK_BYTES) by lia.
    by rewrite Z.mod_add.
  - zlen_nils. by rewrite Z.add_0_r.
Qed.

Lemma frags_mod o first L phys o' :
  frags o first L phys o' → 0 ≤ o ≤ BLOCK_BYTES → (o + zlen phys) mod BLOCK_BYTES = o' mod BLOCK_BYTES.
Proof.
  induction 1 as [o first rem Hfit|o first c rem phys o' Hfit Hne Hfr IH]; intros Ho;
    pose proof (pad_start_mod o Ho) as Hp; rewrite !zlen_app, frame_fragment_len.
  - rewrite Z.add_assoc, Z.add_mod, Hp, <- Z.add_mod by (unfold BLOCK_BYTES; lia). f_equal. lia.
  - specialize (IH ltac:(unfold BLOCK_BYTES; lia)). rewrite <- IH.
    rewrite Z.add_assoc, Z.add_mod, Hp, <- Z.add_mod by (unfold BLOCK_BYTES; lia).
    f_equal. lia.
Qed.

Lemma log_frames_offset o recs phys o' :
  log_frames o recs phys o' → 0 ≤ o ≤ BLOCK_BYTES → 0 ≤ o' ≤ BLOCK_BYTES.
Proof. induction 1; [done|]. intros. apply IHlog_frames. by eapply frags_offset. Qed.

Lemma log_frames_mod o recs phys o' :
  log_frames o recs phys o' → 0 ≤ o ≤ BLOCK_BYTES → (o + zlen phys) mod BLOCK_BYTES = o' mod BLOCK_BYTES.
Proof.
  induction 1 as [o|o L phys o1 Ls phys' o2 Hfr Hlog IH]; intros Ho; [zlen_nils; by rewrite Z.add_0_r|].
  rewrite zlen_app, Z.add_assoc, Z.add_mod, (frags_mod _ _ _ _ _ Hfr Ho), <- Z.add_mod by (unfold BLOCK_BYTES; lia).
  apply IH. by eapply frags_offset.
Qed.

Lemma log_frames_app o r1 p1 o1 r2 p2 o2 :
  log_frames o r1 p1 o1 → log_frames o1 r2 p2 o2 → log_frames o (r1 ++ r2) (p1 ++ p2) o2.
Proof.
  induction 1; intros H2; [done|]. cbn. rewrite <- app_assoc. econstructor; [done|]. by apply IHlog_frames.
Qed.

(** A record starts with the padding of its offset, and only with that. *)
Lemma frags_shift o first L phys o' o1 :
  frags o first L phys o' → start_of o1 = start_of o →
  ∃ body, phys = pad_of o ++ body ∧ body ≠ [] ∧ frags o1 first L (pad_of o1 ++ body) o'.
Proof.
  intros H Hs. inversion H as [? ? ? Hfit|? ? c rem ph ? Hfit Hne Hfr]; subst.
  - eexists. split; [done|]. split; [rewrite <- (app_nil_r (frame_fragment _ _)); apply frame_app_nonempty|].
    rewrite <- Hs in *. by apply frags_last.
  - eexists. split; [done|]. split; [apply frame_app_nonempty|]. apply frags_more; [by rewrite Hs|done|done].
Qed.

(** The overhead of the framing is bounded. *)
Lemma frags_len o first L phys o' :
  frags o first L phys o' → L ≠ [] → 0 ≤ o ≤ BLOCK_BYTES →
  zlen phys ≤ 14 * zlen L + (if o =? BLOCK_BYTES then 0 else 13).
Proof.
  induction 1 as [o first rem Hfit|o first c rem phys o' Hfit Hne Hfr IH]; intros HL Ho;
    destruct (zlen_pad_of o ltac:(lia)) as [Hpad Hpad2]; rewrite !zlen_app, frame_fragment_len;
    unfold HEADER_BYTES in *.
  - assert (1 ≤ zlen rem) by (destruct rem; [done|zlen_lia]). destruct (o =? BLOCK_BYTES); lia.
  - specialize (IH Hne ltac:(unfold BLOCK_BYTES; lia)). rewrite Z.eqb_refl in IH. zlen_pos.
    destruct (Z.eqb_spec o BLOCK_BYTES) as [->|]; [|lia].
    change (start_of BLOCK_BYTES) with 0 in Hfit. unfold BLOCK_BYTES in *. lia.
Qed.

Lemma frags_exists o L : 0 ≤ o ≤ BLOCK_BYTES → L ≠ [] → ∃ phys o', frags o true L phys o'.
Proof.
  intros Ho HL. destruct (write_logical_record_spec {| fw_file := []; fw_offset := o |} L Ho HL)
    as (phys & o' & H & _). eauto.
Qed.

(** ** Manifests *)

(** The logical record of an edit that [encode_edit] accepts. *)
Definition edit_record (e : VersionEdit) (L : bytes) : Prop := edit_wf e ∧ encode_edit e = Ok L.

(** [file], with its next write at block offset [o], holds the edits [es]: up to
    padding in front of the next record. *)
Definition manifest_log (file : bytes) (es : list VersionEdit) (o : Z) : Prop :=
  ∃ recs p o1 k, Forall2 edit_record es recs ∧ log_frames 0 recs p o1 ∧
    file = p ++ k ∧ k ++ pad_of o = pad_of o1 ∧ start_of o = start_of o1 ∧ 0 ≤ o ≤ BLOCK_BYTES.

(** [file] is what a crash left of a manifest: [es] are the edits that are whole in
    it, and a prefix of a further record may follow. *)
Definition torn_manifest (file : bytes) (es : list VersionEdit) : Prop :=
  ∃ recs p o1, Forall2 edit_record es recs ∧ log_frames 0 recs p o1 ∧
    (∃ e L phys o2 m, edit_record e L ∧ frags o1 true L phys o2 ∧ 0 ≤ m < zlen phys ∧
      file = p ++ take (Z.to_nat m) phys).

Lemma edit_record_facts e L :
  edit_record e L → L = enc_edit e ∧ L ≠ [] ∧ zlen L ≤ MAX_EDIT_BYTES ∧ bytes_ok L ∧ decode_edit L = Ok e.
Proof.
  intros [Hwf He]. rewrite (encode_edit_enc e Hwf) in He.
  destruct (Z.ltb_spec MAX_EDIT_BYTES (zlen (enc_edit e))); [done|]. injection He as <-.
  assert (bytes_ok (enc_edit e)) as Hok.
  { assert (∀ o, bytes_ok (enc_optional o)) as Ho.
    { intros [v|]; cbn; [|repeat constructor; unfold is_u8, U8_MAX; lia].
      constructor; [unfold is_u8, U8_MAX; lia|apply to_le_ok]. }
    assert (∀ k, key_wf k → bytes_ok (ik_encoded k)) as Hk.
    { intros k (u & q & kd & Hu & Hq & ->). by apply encode_key_ok. }
    destruct Hwf as [_ _ _ _ _ Hd _ Ha _]. unfold enc_edit, enc_list.
    repeat (apply bytes_ok_app; split); auto using to_le_ok.
    - repeat constructor; unfold is_u8, U8_MAX, FORMAT_VERSION; lia.
    - clear -Hd. induction Hd as [|d l _ _ IH]; cbn; [constructor|]. unfold enc_deleted.
      repeat (apply bytes_ok_app; split); auto using to_le_ok.
    - clear -Ha Hk. induction Ha as [|a l (_ & [_ _ H1 H2 _] & _) _ IH]; cbn; [constructor|]. unfold enc_added, enc_bytes.
      repeat (apply bytes_ok_app; split); auto using to_le_ok. }
  split; [done|]. split; [done|]. split; [done|]. split; [done|]. apply decode_edit_spec; auto.
Qed.
End Offsets.

Lemma start_of_idem o :
  0 ≤ o ≤ BLOCK_BYTES → start_of (start_of o) = start_of o ∧ pad_of (start_of o) = [].
Proof.
  intros Ho. destruct (start_of_bounds o Ho) as [H1 H2]. unfold start_of at 1 3, pad_of.
  by rewrite (proj2 (Z.ltb_ge (BLOCK_BYTES - start_of o) _)) by lia.
Qed.

Lemma mod_block o :
  0 ≤ o ≤ BLOCK_BYTES →
  0 ≤ o mod BLOCK_BYTES ≤ BLOCK_BYTES ∧ pad_of (o mod BLOCK_BYTES) = pad_of o ∧
  start_of (o mod BLOCK_BYTES) = start_of o.
Proof.
  intros Ho. destruct (Z.eq_dec o BLOCK_BYTES) as [->|Hne].
  - rewrite Z.mod_same by (unfold BLOCK_BYTES; lia). done.
  - rewrite Z.mod_small by lia. done.
Qed.

Section ReplayTorn.
  Context `{C : Crc32c} {CR : Crc32cRange C}.

Lemma log_frames_app_inv o r1 r2 p o2 :
  log_frames o (r1 ++ r2) p o2 →
  ∃ p1 p2 o1, p = p1 ++ p2 ∧ log_frames o r1 p1 o1 ∧ log_frames o1 r2 p2 o2.
Proof.
  revert o p. induction r1 as [|L r1 IH]; intros o p H; cbn in H.
  - exists [], p, o. split; [done|]. split; [constructor|done].
  - inversion H as [|? ? phys o1 ? phys' ? Hfr Hlog]; subst.
    destruct (IH _ _ Hlog) as (p1 & p2 & oa & -> & H1 & H2).
    exists (phys ++ p1), p2, oa. split; [by rewrite app_assoc|]. split; [by econstructor|done].
Qed.

Lemma log_frames_func o recs p o1 p' o1' :
  log_frames o recs p o1 → log_frames o recs p' o1' → p = p' ∧ o1 = o1'.
Proof.
  intros H. revert p' o1'. induction H as [o|o L phys oa Ls phys' ob Hfr Hlog IH]; intros p' o1' H';
    inversion H' as [|? ? ph2 oa2 ? ph2' ? Hfr2 Hlog2]; subst; [done|].
  destruct (frags_det _ _ _ _ _ _ _ Hfr Hfr2) as [<- <-]. by destruct (IH _ _ Hlog2) as [<- <-].
Qed.

(** The records that are whole in a prefix of a log are the ones in front of the cut. *)
Lemma cut_log_done recs L p o1 phys o2 m done p1 oa :
  log_frames 0 recs p o1 → frags o1 true L phys o2 → 0 ≤ m < zlen phys →
  cut_log 0 (recs ++ [L]) (p ++ phys) (zlen p + m) done p1 oa → done = recs ∧ p1 = p ∧ oa = o1.
Proof.
  intros Hlog Hfr Hm [Hd Hfit (todo & p2 & ox & Hsplit & Hphys & Hrest)].
  assert (done = recs) as ->.
  { destruct todo as [|L' todo].
    { rewrite app_nil_r in Hsplit. subst done. destruct Hrest as [-> _].
      rewrite app_nil_r in Hphys. subst p1. rewrite zlen_app in Hfit. lia. }
    destruct todo as [|x todo' _] using rev_ind.
    { by apply app_inj_tail in Hsplit as [-> _]. }
    exfalso. rewrite app_comm_cons, app_assoc in Hsplit. apply app_inj_tail in Hsplit as [-> _].
    destruct (log_frames_app_inv _ _ _ _ _ Hlog) as (q1 & q2 & oq & -> & Hq1 & Hq2).
    destruct (log_frames_func _ _ _ _ _ _ Hq1 Hd) as [-> ->].
    inversion Hq2 as [|? ? phL oL ? ph' ? HfL _]; subst.
    destruct Hrest as (pL & oL' & p3 & HfL' & _ & Hlt).
    destruct (frags_det _ _ _ _ _ _ _ HfL HfL') as [-> _]. rewrite !zlen_app in Hlt. zlen_pos. lia. }
  split; [done|]. by destruct (log_frames_func _ _ _ _ _ _ Hd Hlog) as [-> ->].
Qed.

Lemma deliver_edits es recs acc :
  Forall2 edit_record es recs →
  try_fold (deliver_edit (λ edits edit, Ok (edits ++ [edit]))) acc recs = Ok (acc ++ es).
Proof.
  intros H. revert acc. induction H as [|e L es recs He _ IH]; intros acc; cbn [try_fold].
  { by rewrite app_nil_r. }
  unfold deliver_edit at 1. destruct (edit_record_facts _ _ He) as (_ & _ & _ & _ & ->).
  rewrite IH. by rewrite <- app_assoc.
Qed.

Lemma replay_torn file es :
  torn_manifest file es → zlen file ≤ 2 ^ 62 →
  ∃ valid, replay_manifest file =
      Ok {| mr_edits := es; mr_valid_bytes := valid; mr_file_length := zlen file |} ∧
    0 ≤ valid ≤ zlen file ∧ manifest_log (take (Z.to_nat valid) file) es (valid mod BLOCK_BYTES).
Proof.
  intros (recs & p & o1 & Hrecs & Hlog & e & L & phys & o2 & m & He & Hfr & Hm & Hfile) Hbig.
  pose proof (log_frames_offset _ _ _ _ Hlog ltac:(unfold BLOCK_BYTES; lia)) as Ho1.
  assert (log_frames 0 (recs ++ [L]) (p ++ phys) o2) as Hall.
  { eapply log_frames_app; [exact Hlog|]. rewrite <- (app_nil_r phys). econstructor; [done|constructor]. }
  assert (Forall2 edit_record (es ++ [e]) (recs ++ [L])) as Hrecs'.
  { apply Forall2_app; [done|]. by constructor. }
  assert (take (Z.to_nat (zlen p + m)) (p ++ phys) = file) as Htake.
  { rewrite Hfile, take_app_more by lia. do 3 f_equal. lia. }
  destruct (scan_prefix (FR := ManifestReader (λ edits edit, Ok (edits ++ [edit])))
    (FL := ManifestLaws _) (recs ++ [L]) (p ++ phys) o2
    {| ms_logical := []; ms_assembling := false; ms_record_start := 0; ms_acc := [] |} [] (es ++ [e]) (zlen p + m))
    as (dn & p1 & oa & a1 & d & Hcut & Hf & Hscan & Hd).
  - done.
  - rewrite zlen_app. zlen_pos. lia.
  - destruct (edit_record_facts _ _ He) as (_ & HL & Hle & _).
    pose proof (frags_len _ _ _ _ _ Hfr HL Ho1) as Hfl. destruct (_ =? _) in Hfl; rewrite Hfile, zlen_app in Hbig; rewrite zlen_app;
      unfold MAX_EDIT_BYTES, USIZE_MAX, U64_MAX in *; zlen_pos; lia.
  - done.
  - clear -Hrecs'. induction Hrecs' as [|x y l k Hx _ IH]; constructor; [|done].
    by destruct (edit_record_facts _ _ Hx) as (_ & _ & ? & _).
  - by apply (deliver_edits (es ++ [e]) (recs ++ [L]) []).
  - destruct (cut_log_done _ _ _ _ _ _ _ _ _ _ Hlog Hfr Hm Hcut) as (-> & -> & ->).
    cbn [fl_deliver ManifestLaws] in Hf. rewrite (deliver_edits es recs [] Hrecs) in Hf. injection Hf as <-.
    rewrite Htake in Hscan. cbn [fl_out ManifestLaws app] in Hscan.
    assert (zlen file = zlen p + m) as Hlen.
    { rewrite <- Htake, zlen_take; [done|]. rewrite zlen_app. zlen_pos. lia. }
    exists (zlen p + d). split; [unfold replay_manifest, replay_manifest_stream; by rewrite Hscan|].
    destruct (zlen_pad_of o1 ltac:(lia)) as [Hpad _].
    pose proof (log_frames_mod _ _ _ _ Hlog ltac:(unfold BLOCK_BYTES; lia)) as Hmod. rewrite Z.add_0_l in Hmod.
    pose proof (zlen_nonneg p). destruct Hd as [-> | [-> Hd]].
    + split; [lia|]. rewrite Z.add_0_r, Hmod, Hfile, take_app_z by done.
      destruct (mod_block o1 Ho1) as (Hb & Hpo & Hso).
      exists recs, p, o1, []. rewrite app_nil_r. do 3 (split; [done|]). by rewrite Hpo, Hso.
    + split; [lia|].
      assert ((zlen p + zlen (pad_of o1)) mod BLOCK_BYTES = start_of o1) as ->.
      { rewrite Z.add_mod, Hmod, <- Z.add_mod, pad_start_mod by (unfold BLOCK_BYTES in *; lia).
        apply Z.mod_small. pose proof (start_of_bounds o1 Ho1). unfold HEADER_BYTES in *. lia. }
      destruct (start_of_idem o1 Ho1) as [Hs1 Hs2]. pose proof (start_of_bounds o1 Ho1).
      exists recs, p, o1, (pad_of o1). do 2 (split; [done|]). rewrite Hs1, Hs2, app_nil_r.
      split; [|split; [done|split; [done|unfold HEADER_BYTES in *; lia]]].
      rewrite Hfile, take_app_more by lia. f_equal.
      replace (zlen p + zlen (pad_of o1) - zlen p) with (zlen (pad_of o1)) by lia.
      rewrite take_take. replace (Z.to_nat (zlen (pad_of o1)) `min` Z.to_nat m)%nat
        with (Z.to_nat (zlen (pad_of o1))) by lia.
      destruct (frags_shift _ _ _ _ _ o1 Hfr eq_refl) as (body & -> & _). by apply take_app_z.
Qed.
End ReplayTorn.

(** ** Extending a manifest *)

Section Extend.
  Context `{C : Crc32c}.

(** A whole record makes the edit part of the manifest, a part of it leaves the
    manifest as it was. *)
Lemma manifest_log_extend file es o e L phys o' :
  manifest_log file es o → edit_record e L → frags o true L phys o' →
  manifest_log (file ++ phys) (es ++ [e]) o' ∧
  ∀ m, 0 ≤ m < zlen phys → torn_manifest (file ++ take (Z.to_nat m) phys) es.
Proof.
  intros (recs & p & o1 & k & Hrecs & Hlog & -> & Hk & Hs & Ho) He Hfr.
  destruct (frags_shift _ _ _ _ _ o1 Hfr (eq_sym Hs)) as (body & -> & Hne & Hfr1).
  assert (k ++ pad_of o ++ body = pad_of o1 ++ body) as Hbody by (by rewrite app_assoc, Hk).
  pose proof (log_frames_offset _ _ _ _ Hlog ltac:(unfold BLOCK_BYTES; lia)) as Ho1. split.
  - exists (recs ++ [L]), (p ++ pad_of o1 ++ body), o', []. split.
    { apply Forall2_app; [done|]. by constructor. }
    split.
    { eapply log_frames_app; [exact Hlog|]. rewrite <- (app_nil_r (pad_of o1 ++ body)).
      econstructor; [done|constructor]. }
    rewrite app_nil_r, <- app_assoc, Hbody. do 3 (split; [done|]). by eapply frags_offset.
  - intros m Hm. exists recs, p, o1. do 2 (split; [done|]).
    exists e, L, (pad_of o1 ++ body), o', (zlen k + m). do 2 (split; [done|]). rewrite <- Hbody. split.
    + rewrite zlen_app. zlen_pos. lia.
    + rewrite (take_app_more k) by (zlen_pos; lia). rewrite <- app_assoc. do 3 f_equal. lia.
Qed.

(** A complete manifest is a torn one with nothing behind its last record. *)
Lemma manifest_log_torn file es o e L :
  edit_record e L → manifest_log file es o → torn_manifest file es.
Proof.
  intros He Hlog. assert (0 ≤ o ≤ BLOCK_BYTES) as Ho by (by destruct Hlog as (? & ? & ? & ? & _ & _ & _ & _ & _ & ?)).
  destruct (edit_record_facts _ _ He) as (_ & HL & _). destruct (frags_exists o L Ho HL) as (phys & o' & Hfr).
  destruct (manifest_log_extend _ _ _ _ _ _ _ Hlog He Hfr) as [_ Ht]. rewrite <- (app_nil_r file).
  apply (Ht 0). destruct (frags_shift _ _ _ _ _ o Hfr eq_refl) as (body & -> & Hne & _).
  rewrite zlen_app. assert (0 < zlen body) by (destruct body; [done|zlen_lia]). zlen_pos. lia.
Qed.

Lemma manifest_log_nil : manifest_log [] [] 0.
Proof. exists [], [], 0, []. repeat split; try constructor; try done; unfold BLOCK_BYTES; lia. Qed.
End Extend.
