(* ===== verification/ManifestSet.v ===== *)
(** * Version sets survive crashes

    The invariant between a [VersionSet], the edits it has acknowledged and the
    directory, and the theorems on [create], [recover] and [apply] under faults
    at any file-system call. *)

From Stdlib Require Import ZArith Lia Sorting.Sorted.
From stdpp Require Import base list gmap strings.
From S2P Require Import Prelude Fs Checksum Framing InternalKey Version ManifestCodec Manifest.
From S2P Require Import ManifestLog.

Local Open Scope Z_scope.

(** ** Appending a record *)

Section Append.
  Context `{C : Crc32c} (g : bool) (path : name) (E : CrashImage → Prop).

(** The loop writes what the pure writer of [Framing] writes. *)
Lemma append_loop_wp pad append panic fuel logical position first w w' i b (Q : Z → CrashImage → Prop) :
  write_fragments fuel logical position first w = Ok w' →
  (g = true → E (durable_image (ci_durable i))) → ci_volatile i !! path = Some b →
  (∀ phys, fw_file w' = fw_file w ++ phys → Q (fw_offset w') (record_write path phys i)) →
  wpf g (fs_append_loop pad append panic fuel path logical position first (fw_offset w)) i Q E.
Proof.
  revert position first w i b Q. induction fuel as [|fuel IH]; intros position first w i b Q Hw HE Hb HQ; [done|].
  cbn [write_fragments] in Hw. cbn [fs_append_loop].
  destruct (position <? zlen logical).
  2:{ injection Hw as <-. apply wp_ret. rewrite <- (record_write_nil path i b Hb). apply HQ. by rewrite app_nil_r. }
  set (w1 := if _ <? HEADER_BYTES then _ else w) in Hw. apply wp_bind.
  assert (∃ padding, fw_file w1 = fw_file w ++ padding ∧
    (∀ Q' : Z → CrashImage → Prop, Q' (fw_offset w1) (record_write path padding i) →
      wpf g (if BLOCK_BYTES - fw_offset w <? HEADER_BYTES then
            let! _ := fs_map_err (io_error pad)
              (file_write_all path (replicate (Z.to_nat (BLOCK_BYTES - fw_offset w)) 0)) in fs_ret 0
          else fs_ret (fw_offset w)) i Q' E)) as (padding & Hpad & Hwp).
  { unfold w1. destruct (_ <? HEADER_BYTES).
    - eexists. split; [done|]. intros Q' HQ'. apply wp_bind, wp_map_err, wp_write; [done|]. by apply wp_ret.
    - exists []. rewrite app_nil_r. split; [done|]. intros Q' HQ'. apply wp_ret.
      by rewrite (record_write_nil _ _ b) in HQ'. }
  apply Hwp. clear Hwp. set (n := Z.min _ _) in Hw |- *.
  set (ty := match first with true => _ | false => _ end) in Hw |- *.
  destruct (n <=? U16_MAX); [|done].
  apply wp_bind, wp_map_err, wp_write; [done|]. apply wp_bind, wp_map_err, wp_write; [done|].
  rewrite !record_write_write. cbn [fw_file fw_offset write_all] in Hw. rewrite Hpad in Hw.
  eapply (IH _ _ {| fw_file := _; fw_offset := _ |}).
  - exact Hw.
  - done.
  - unfold record_write. cbn. rewrite lookup_insert_eq. reflexivity.
  - intros phys Hphys. cbn [fw_file] in Hphys. rewrite record_write_write.
    apply HQ. rewrite Hphys. by rewrite <- !app_assoc.
Qed.

Lemma manifest_append_wp w L i b (Q : ManifestWriter → CrashImage → Prop) :
  mw_path w = path → 0 ≤ mw_block_offset w ≤ BLOCK_BYTES → L ≠ [] →
  (g = true → E (durable_image (ci_durable i))) → ci_volatile i !! path = Some b →
  (∀ phys o', frags (mw_block_offset w) true L phys o' →
    Q {| mw_path := path; mw_block_offset := o' |} (record_write path phys i)) →
  wpf g (ManifestWriter_append w L) i Q E.
Proof.
  intros Hp Ho HL HE Hb HQ. unfold ManifestWriter_append. rewrite Hp.
  destruct (write_logical_record_spec {| fw_file := []; fw_offset := mw_block_offset w |} L Ho HL)
    as (phys & o' & Hfr & Hw).
  apply wp_bind. eapply (append_loop_wp _ _ _ _ _ _ _ {| fw_file := []; fw_offset := mw_block_offset w |});
    [exact Hw|done|exact Hb|].
  intros phys' Hphys. cbn in Hphys. subst phys'. apply wp_ret. by apply HQ.
Qed.
End Append.

(** ** The invariant *)

Section Invariant.
  Context `{C : Crc32c} {CR : Crc32cRange C}.

(** Directory content from which the edits [es] are recovered. *)
Record durable_ok (d : gmap name bytes) (n : Z) (es : list VersionEdit) (r : Recovery) : Prop := {
  do_number : 0 < n ≤ U64_MAX;
  do_current : d !! CURRENT = Some (manifest_name n ++ [NEWLINE]);
  do_manifest : ∃ file, d !! manifest_name n = Some file ∧ torn_manifest file es ∧ zlen file ≤ 2 ^ 61;
  do_edits : recover_edits n es = Ok r;
  do_tables : ∀ f, f ∈ concat (rc_version r) → is_Some (d !! sstable_name (fm_number f))
}.

Definition vs_recovery (vs : VersionSet) : Recovery :=
  {| rc_version := vs_current vs; rc_counters := vs_counters vs; rc_used := vs_used_file_numbers vs |}.

(** A version set that has acknowledged exactly the edits [es]. *)
Record vs_ok (vs : VersionSet) (i : CrashImage) (es : list VersionEdit) : Prop := {
  vo_durable : durable_ok (ci_durable i) (vs_manifest_number vs) es (vs_recovery vs);
  vo_usable : vs_manifest_usable vs = true;
  vo_path : mw_path (vs_manifest vs) = manifest_name (vs_manifest_number vs);
  vo_manifest : ∃ file, ci_volatile i !! mw_path (vs_manifest vs) = Some file ∧
    ci_durable i !! mw_path (vs_manifest vs) = Some file ∧
    manifest_log file es (mw_block_offset (vs_manifest vs))
}.

(** ** Names *)

Lemma format06_head n : 0 ≤ n → ∃ x r, format06 n = x :: r ∧ 48 ≤ x ≤ 57.
Proof.
  intros Hn. pose proof (dec_digits_ascii 20 n [] Hn eq_refl) as Hd. unfold format06.
  set (d := dec_digits 20 n []) in *.
  assert (d ≠ []) as Hne.
  { unfold d. clear. assert (∀ k m acc, acc ≠ [] → dec_digits k m acc ≠ []) as H.
    { intros k. induction k as [|k IH]; intros m acc Hacc; [done|]. cbn. destruct (m <? 10); [done|]. by apply IH. }
    cbn [dec_digits]. destruct (n <? 10); [done|]. by apply (H 19%nat). }
  destruct (Z.to_nat (6 - zlen d)) as [|k]; cbn [replicate app].
  - destruct d as [|x r]; [done|]. exists x, r. split; [done|]. cbn in Hd.
    unfold is_ascii_digit in Hd. apply andb_true_iff in Hd as [Hd _]. apply andb_true_iff in Hd as [H1 H2].
    to_prop. lia.
  - eexists _, _. split; [done|]. lia.
Qed.

Lemma sstable_name_other n m :
  0 ≤ n → sstable_name n ≠ CURRENT ∧ sstable_name n ≠ CURRENT_TMP ∧ sstable_name n ≠ manifest_name m.
Proof.
  intros Hn. destruct (format06_head n Hn) as (x & r & Hx & Hb). unfold sstable_name, manifest_name.
  rewrite Hx. repeat split; intros H; injection H as H _; lia.
Qed.

Lemma manifest_name_current n : manifest_name n ≠ CURRENT ∧ manifest_name n ≠ CURRENT_TMP.
Proof. by split. Qed.

Lemma parse_current_name n :
  0 < n ≤ U64_MAX → parse_current (manifest_name n ++ [NEWLINE]) = Ok (manifest_name n).
Proof.
  intros Hn. unfold parse_current. rewrite last_snoc. change (negb (NEWLINE =? NEWLINE)) with false. cbn [orb].
  rewrite zlen_app. change (zlen [NEWLINE]) with 1.
  replace (zlen (manifest_name n) + 1 - 1) with (zlen (manifest_name n)) by lia. rewrite take_app_z by done.
  destruct (format06_parse n ltac:(lia)) as (_ & Hd & _).
  assert (∀ l, forallb is_ascii_digit l = true → existsb (Z.eqb NEWLINE) l = false ∧ is_utf8 l = true) as Hasc.
  { intros l. induction l as [|x l IH]; [done|]. cbn [forallb]. intros Hx.
    apply andb_true_iff in Hx as [Hx Hl]. destruct (IH Hl) as [H1 H2]. unfold is_ascii_digit in Hx.
    apply andb_true_iff in Hx as [Hx1 Hx2]. to_prop. cbn [existsb is_utf8].
    rewrite (proj2 (Z.eqb_neq _ _)), (proj2 (Z.ltb_lt _ _)), H1, H2 by (unfold NEWLINE; lia). done. }
  destruct (Hasc _ Hd) as [H1 H2]. unfold manifest_name. rewrite existsb_app.
  change (existsb (Z.eqb NEWLINE) (ascii_bytes "MANIFEST-")) with false. rewrite H1. cbn [orb].
  assert (is_utf8 (ascii_bytes "MANIFEST-" ++ format06 n) = true) as -> by exact H2. cbn [negb].
  fold (manifest_name n). by rewrite parse_manifest_number_name.
Qed.

(** ** What the SSTable calls leave alone *)

Definition table_name (p : name) : Prop := ∃ k, 0 ≤ k ∧ p = sstable_name k.

(** Nothing disappears, and only table files change. *)
Definition files_ext (d d' : gmap name bytes) : Prop :=
  (∀ p, ¬ table_name p → d' !! p = d !! p) ∧ ∀ p, is_Some (d !! p) → is_Some (d' !! p).

#[global] Instance files_ext_preorder : PreOrder files_ext.
Proof.
  split; [by split|]. intros a b c [H1 H2] [H3 H4]. split; [|by auto]. intros p Hp. by rewrite H3, H1.
Qed.

(** Table files stay. *)
Definition tables_kept (d d' : gmap name bytes) : Prop :=
  ∀ k, 0 ≤ k → is_Some (d !! sstable_name k) → is_Some (d' !! sstable_name k).

Lemma tables_kept_ext d0 d d' : tables_kept d0 d → files_ext d d' → tables_kept d0 d'.
Proof. intros Hk [_ Hs] k Hk0 Hd. by apply Hs, Hk. Qed.

Lemma not_table_current : ¬ table_name CURRENT.
Proof. intros (k & Hk & H). by destruct (sstable_name_other k 1 Hk) as (? & _). Qed.
Lemma not_table_manifest n : ¬ table_name (manifest_name n).
Proof. intros (k & Hk & H). by destruct (sstable_name_other k n Hk) as (_ & _ & ?). Qed.

Lemma durable_ok_ext d d' n es r : files_ext d d' → durable_ok d n es r → durable_ok d' n es r.
Proof.
  intros [Hsame Hsome] [Hn Hc (file & Hf & Ht & Hl) He Htab]. split; [done| | |done|by auto].
  - rewrite Hsame; [done|apply not_table_current].
  - exists file. rewrite Hsame by apply not_table_manifest. done.
Qed.

Lemma files_ext_insert d p b : table_name p → files_ext d (<[p := b]> d).
Proof.
  intros Hp. split.
  - intros q Hq. rewrite lookup_insert_ne; [done|]. by intros ->.
  - intros q Hq. destruct (decide (p = q)) as [->|Hne]; [rewrite lookup_insert_eq; eauto|].
    by rewrite lookup_insert_ne.
Qed.

Lemma sync_tables_wp g (l : list (Z * FileMeta)) i (Q : unit → CrashImage → Prop) (E : CrashImage → Prop) f :
  Forall (λ a, 0 ≤ fm_number a.2) l →
  Forall (λ a, is_Some (ci_volatile i !! sstable_name (fm_number a.2))) l →
  (g = true → ∀ i', files_ext (ci_durable i) (ci_durable i') → E i') →
  (∀ i', files_ext (ci_volatile i) (ci_volatile i') → files_ext (ci_durable i) (ci_durable i') → Q tt i') →
  wpf g (fs_each (λ a, fs_map_err f (sync_file (sstable_name (fm_number a.2)))) l) i Q E.
Proof.
  intros Hpos. revert i. induction Hpos as [|a l Ha Hl IH]; intros i Hsome HE HQ; cbn [fs_each].
  { apply wp_ret. by apply HQ. }
  apply Forall_cons in Hsome as [[b Hb] Hsome].
  assert (g = true → E (durable_image (ci_durable i))) as Hcrash by (intros Hg; by apply (HE Hg)).
  apply wp_bind, wp_map_err, (wp_sync_file _ i E Hcrash _ b _ Hb).
  set (p := sstable_name (fm_number a.2)) in *. set (i' := record_file_sync _ _).
  assert (table_name p) as Hp by (by exists (fm_number a.2)).
  assert (files_ext (ci_volatile i) (ci_volatile i') ∧ files_ext (ci_durable i) (ci_durable i')) as [Hv Hd].
  { unfold i', record_file_sync, record_truncate. cbn. rewrite lookup_insert_eq. cbn.
    split; [by apply files_ext_insert|]. destruct (bool_decide _); [by apply files_ext_insert|done]. }
  apply IH.
  - eapply Forall_impl; [exact Hsome|]. intros x Hx. by apply Hv.
  - intros Hg i'' H. apply (HE Hg). by etransitivity.
  - intros i'' H1 H2. apply HQ; by etransitivity.
Qed.

(** ** The checks of an edit do not depend on where they run *)

Lemma advance_flag b b' d c o v : advance b d c o = Ok v → advance b' d c o = Ok v.
Proof. unfold advance. destruct o as [x|]; [|done]. by destruct (x <? c). Qed.

Lemma update_counters_flag b b' edit c c' :
  update_counters edit c b = Ok c' → update_counters edit c b' = Ok c'.
Proof.
  unfold update_counters. intros H.
  destruct (ve_next_file_number edit) as [nx|].
  1: destruct (nx <? _); [done|]; destruct (nx =? 0); [done|].
  all: destruct (advance b _ (cn_last_sequence c) _) as [l1|] eqn:E1; [|done];
    rewrite (advance_flag _ b' _ _ _ _ E1);
    destruct (advance b _ (cn_log_number c) _) as [l2|] eqn:E2; [|done];
    rewrite (advance_flag _ b' _ _ _ _ E2);
    destruct (advance b _ (cn_active_log_number c) _) as [l3|] eqn:E3; [|done];
    rewrite (advance_flag _ b' _ _ _ _ E3);
    destruct (advance b _ (cn_wal_sequence c) _) as [l4|] eqn:E4; [|done];
    rewrite (advance_flag _ b' _ _ _ _ E4);
    destruct (negb _); [done|]; destruct (l3 <? l2); [done|]; by destruct (_ && _).
Qed.

Lemma validate_file_numbers_flag b b' edit next used :
  validate_file_numbers edit next used b = Ok tt → validate_file_numbers edit next used b' = Ok tt.
Proof.
  unfold validate_file_numbers. destruct (existsb _ _); [done|]. set (deleted := list_to_set _). clearbody deleted.
  generalize (∅ : gset Z). induction (ve_added_files edit) as [|a l IH]; intros added; [done|].
  cbn [try_fold]. destruct (_ <=? _); [done|]. do 3 (destruct (bool_decide _); [done|]). apply IH.
Qed.

Lemma update_counters_next edit c c' b :
  update_counters edit c b = Ok c' → cn_next_file_number c ≤ cn_next_file_number c' ∧
    (cn_next_file_number c ≠ 0 → cn_next_file_number c' ≠ 0).
Proof.
  unfold update_counters. intros H.
  destruct (ve_next_file_number edit) as [nx|].
  1: destruct (Z.ltb_spec nx (cn_next_file_number c)); [done|]; destruct (Z.eqb_spec nx 0); [done|].
  all: destruct (advance b _ _ _); [|done]; destruct (advance b _ _ _); [|done];
    destruct (advance b _ _ _); [|done]; destruct (advance b _ _ _); [|done];
    destruct (negb _); [done|]; destruct (_ <? _); [done|]; destruct (_ && _); [done|];
    injection H as <-; cbn; lia.
Qed.

(** The recovery of one more edit. *)
Lemma recover_edits_snoc n es edit r c v b :
  recover_edits n es = Ok r → update_counters edit (rc_counters r) b = Ok c →
  validate_file_numbers edit (cn_next_file_number c) (rc_used r) b = Ok tt →
  Version_apply (rc_version r) edit = Ok v →
  recover_edits n (es ++ [edit]) =
    Ok {| rc_version := v; rc_counters := c; rc_used := added_numbers edit ∪ rc_used r |}.
Proof.
  unfold recover_edits. intros H Hc Hv Ha. rewrite bool_decide_false by (by destruct es).
  destruct (bool_decide (es = [])); [done|].
  rewrite try_fold_app. destruct (try_fold recover_edit _ es) as [r'|]; [|done].
  destruct (Z.eqb_spec (cn_next_file_number (rc_counters r')) 0) as [|Hn]; [done|]. injection H as ->.
  cbn [try_fold]. unfold recover_edit.
  rewrite (update_counters_flag _ true _ _ _ Hc), (validate_file_numbers_flag _ true _ _ _ Hv), Ha.
  cbn [map_err rc_counters]. destruct (update_counters_next _ _ _ _ Hc) as [_ Hn'].
  by rewrite (proj2 (Z.eqb_neq _ _)) by auto.
Qed.

(** ** Applying an edit *)

Definition tables_present (i : CrashImage) (edit : VersionEdit) : Prop :=
  Forall (λ a : Z * FileMeta, is_Some (ci_volatile i !! sstable_name (fm_number a.2)) ∧
    is_Some (ci_durable i !! sstable_name (fm_number a.2))) (ve_added_files edit).

Lemma prepare_apply_wp vs edit i es (E : CrashImage → Prop) (Q : Counters * Version * bytes → CrashImage → Prop) :
  vs_ok vs i es → edit_wf edit → tables_present i edit →
  (∀ i', files_ext (ci_durable i) (ci_durable i') → E i') →
  (∀ c v L i', update_counters edit (vs_counters vs) false = Ok c →
    validate_file_numbers edit (cn_next_file_number c) (vs_used_file_numbers vs) false = Ok tt →
    Version_apply (vs_current vs) edit = Ok v → encode_edit edit = Ok L →
    files_ext (ci_volatile i) (ci_volatile i') → files_ext (ci_durable i) (ci_durable i') →
    Q (c, v, L) i') →
  wp (prepare_apply vs edit) i Q E.
Proof.
  intros Hvs Hwf Htab HE HQ. unfold prepare_apply. assert (E i) as HEi by (by apply HE).
  apply wp_bind, wp_lift; [done|]. intros c Hc. apply wp_bind, wp_lift; [done|]. intros [] Hv.
  apply wp_bind, wp_lift; [done|]. intros v Ha. apply wp_bind, wp_lift; [done|]. intros L HL.
  apply wp_bind, sync_tables_wp.
  - eapply Forall_impl; [exact (ew_added _ Hwf)|]. intros a (_ & [? _ _ _ _] & _). lia.
  - eapply Forall_impl; [exact Htab|]. by intros a [? _].
  - by intros _.
  - intros i' H1 H2. apply wp_ret. by apply HQ.
Qed.

(** Without a fault the checks decide. *)
Lemma prepare_apply_ok vs edit i c v L (Q : Counters * Version * bytes → CrashImage → Prop) :
  edit_wf edit → tables_present i edit → update_counters edit (vs_counters vs) false = Ok c →
  validate_file_numbers edit (cn_next_file_number c) (vs_used_file_numbers vs) false = Ok tt →
  Version_apply (vs_current vs) edit = Ok v → encode_edit edit = Ok L →
  (∀ i', files_ext (ci_volatile i) (ci_volatile i') → Q (c, v, L) i') →
  wpf false (prepare_apply vs edit) i Q (λ _, False).
Proof.
  intros Hwf Htab Hc Hv Ha HL HQ. unfold prepare_apply.
  apply wp_bind, (wp_lift_ok _ _ _ _ _ _ Hc), wp_bind, (wp_lift_ok _ _ _ _ _ _ Hv).
  apply wp_bind, (wp_lift_ok _ _ _ _ _ _ Ha), wp_bind, (wp_lift_ok _ _ _ _ _ _ HL).
  apply wp_bind, sync_tables_wp.
  - eapply Forall_impl; [exact (ew_added _ Hwf)|]. intros a (_ & [? _ _ _ _] & _). lia.
  - eapply Forall_impl; [exact Htab|]. by intros a [? _].
  - done.
  - intros i' H1 H2. apply wp_ret. by apply HQ.
Qed.

Definition manifest_small (vs : VersionSet) (i : CrashImage) : Prop :=
  ∀ file, ci_volatile i !! mw_path (vs_manifest vs) = Some file → zlen file ≤ 2 ^ 60.

(** The image after a synchronized append. *)
Lemma synced_write_lookup path phys i file :
  ci_volatile i !! path = Some file → is_Some (ci_durable i !! path) →
  let i' := record_file_sync path (record_write path phys i) in
  ci_volatile i' !! path = Some (file ++ phys) ∧ ci_durable i' !! path = Some (file ++ phys) ∧
  (∀ p, p ≠ path → ci_durable i' !! p = ci_durable i !! p) ∧
  (∀ p, p ≠ path → ci_volatile i' !! p = ci_volatile i !! p).
Proof.
  intros Hv Hd. unfold record_file_sync, record_write. cbn. rewrite Hv. cbn. rewrite lookup_insert_eq. cbn.
  rewrite bool_decide_true by done. rewrite !lookup_insert_eq. do 2 (split; [done|]).
  split; intros p Hp; by rewrite lookup_insert_ne.
Qed.

(** One acknowledged edit. *)
Lemma vs_ok_extend vs edit i es c v L phys o' i' :
  vs_ok vs i es → edit_wf edit → tables_present i edit → manifest_small vs i →
  update_counters edit (vs_counters vs) false = Ok c →
  validate_file_numbers edit (cn_next_file_number c) (vs_used_file_numbers vs) false = Ok tt →
  Version_apply (vs_current vs) edit = Ok v → encode_edit edit = Ok L →
  files_ext (ci_volatile i) (ci_volatile i') → files_ext (ci_durable i) (ci_durable i') →
  frags (mw_block_offset (vs_manifest vs)) true L phys o' →
  vs_ok {| vs_manifest_number := vs_manifest_number vs;
           vs_manifest := {| mw_path := mw_path (vs_manifest vs); mw_block_offset := o' |};
           vs_current := v;
           vs_used_file_numbers := added_numbers edit ∪ vs_used_file_numbers vs;
           vs_counters := c; vs_manifest_usable := true |}
    (record_file_sync (mw_path (vs_manifest vs)) (record_write (mw_path (vs_manifest vs)) phys i'))
    (es ++ [edit]).
Proof.
  intros [Hd Hu Hp (file & Hfv & Hfd & Hlog)] Hwf Htab Hsmall Hc Hv Ha HL Hev Hed Hfr.
  assert (edit_record edit L) as Her by done.
  destruct (manifest_log_extend _ _ _ _ _ _ _ Hlog Her Hfr) as [Hlog' _].
  assert (¬ table_name (mw_path (vs_manifest vs))) as Hnt by (rewrite Hp; apply not_table_manifest).
  destruct (synced_write_lookup (mw_path (vs_manifest vs)) phys i' file) as (Hv' & Hd' & Hother & _).
  { by rewrite (proj1 Hev). } { rewrite (proj1 Hed) by done. eauto. }
  specialize (Hsmall file Hfv).
  assert (zlen (file ++ phys) ≤ 2 ^ 61) as Hlen.
  { destruct (edit_record_facts _ _ Her) as (_ & HLne & HLl & _).
    destruct Hlog as (? & ? & ? & ? & _ & _ & _ & _ & _ & Ho).
    pose proof (frags_len _ _ _ _ _ Hfr HLne Ho) as Hfl. rewrite zlen_app.
    destruct (_ =? _) in Hfl; unfold MAX_EDIT_BYTES in *; lia. }
  pose proof (durable_ok_ext _ _ _ _ _ Hed Hd) as [Hn Hcur _ Hrec Htabs].
  split; cbn [vs_manifest_number vs_manifest mw_path vs_manifest_usable mw_block_offset]; [|done|done|].
  - split; [done| | |by apply (recover_edits_snoc _ _ _ _ _ _ false Hrec)|].
    + rewrite Hother; [done|]. rewrite Hp. apply not_eq_sym, manifest_name_current.
    + exists (file ++ phys). rewrite <- Hp. split; [done|]. split; [|done]. by eapply manifest_log_torn.
    + cbn [vs_recovery rc_version vs_current]. intros f Hf.
      assert (is_Some (ci_durable i' !! sstable_name (fm_number f))) as Hsome.
      { destruct (version_apply_subset _ _ _ _ Ha Hf) as [Hin|Hin]; [by apply Htabs|].
        apply list_elem_of_fmap in Hin as (a & -> & Hin). apply Hed.
        unfold tables_present in Htab. rewrite Forall_forall in Htab. by apply Htab. }
      destruct (decide (sstable_name (fm_number f) = mw_path (vs_manifest vs))) as [->|Hne].
      * eauto.
      * by rewrite Hother.
  - exists (file ++ phys). done.
Qed.

Lemma apply_spec vs edit s es d0 :
  vs_ok vs (fs_image s) es → edit_wf edit → tables_present (fs_image s) edit →
  manifest_small vs (fs_image s) →
  tables_kept d0 (ci_volatile (fs_image s)) → tables_kept d0 (ci_durable (fs_image s)) →
  let '(o, vs', s') := apply_with_visibility vs edit s in
  match o with
  | None => vs_ok vs' (fs_image s') (es ++ [edit]) ∧
      vs_manifest_number vs' = vs_manifest_number vs ∧
      tables_kept d0 (ci_volatile (fs_image s')) ∧ tables_kept d0 (ci_durable (fs_image s'))
  | Some _ => durable_ok (ci_durable (fs_image s')) (vs_manifest_number vs) es (vs_recovery vs) ∧
      vs_recovery vs' = vs_recovery vs ∧ tables_kept d0 (ci_durable (fs_image s'))
  end.
Proof.
  intros Hvs Hwf Htab Hsmall Hkv Hkd. pose proof (vo_durable _ _ _ Hvs) as Hdur.
  set (E := λ i', durable_ok (ci_durable i') (vs_manifest_number vs) es (vs_recovery vs) ∧
    tables_kept d0 (ci_durable i')).
  assert (∀ i', files_ext (ci_durable (fs_image s)) (ci_durable i') → E i') as HE.
  { intros i' Hext. split; [by apply (durable_ok_ext _ _ _ _ _ Hext)|by eapply tables_kept_ext]. }
  unfold apply_with_visibility. rewrite (vo_usable _ _ _ Hvs). cbn [negb].
  pose proof (prepare_apply_wp vs edit (fs_image s) es E
    (λ '(c, v, L) i', update_counters edit (vs_counters vs) false = Ok c ∧
      validate_file_numbers edit (cn_next_file_number c) (vs_used_file_numbers vs) false = Ok tt ∧
      Version_apply (vs_current vs) edit = Ok v ∧ encode_edit edit = Ok L ∧
      files_ext (ci_volatile (fs_image s)) (ci_volatile i') ∧
      files_ext (ci_durable (fs_image s)) (ci_durable i')) Hvs Hwf Htab HE ltac:(done) s eq_refl ltac:(done)) as Hprep.
  destruct (prepare_apply vs edit s) as [[[[c v] L]|e] s1]; [|by destruct Hprep].
  destruct Hprep as [(Hc & Hv & Ha & HL & Hev & Hed) _].
  pose proof Hvs as [_ _ Hp (file & Hfv & Hfd & Hlog)].
  assert (¬ table_name (mw_path (vs_manifest vs))) as Hnt by (rewrite Hp; apply not_table_manifest).
  assert (edit_record edit L) as Her by done. destruct (edit_record_facts _ _ Her) as (_ & HLne & _).
  assert (0 ≤ mw_block_offset (vs_manifest vs) ≤ BLOCK_BYTES) as Ho.
  { by destruct Hlog as (? & ? & ? & ? & _ & _ & _ & _ & _ & ?). }
  assert (E (durable_image (ci_durable (fs_image s1)))) as HE1 by (by apply HE).
  assert (ci_volatile (fs_image s1) !! mw_path (vs_manifest vs) = Some file) as Hf1 by (by rewrite (proj1 Hev)).
  pose proof (manifest_append_wp true (mw_path (vs_manifest vs)) E (vs_manifest vs) L (fs_image s1) file
    (λ w i', ∃ phys o', frags (mw_block_offset (vs_manifest vs)) true L phys o' ∧
      w = {| mw_path := mw_path (vs_manifest vs); mw_block_offset := o' |} ∧
      i' = record_write (mw_path (vs_manifest vs)) phys (fs_image s1))
    eq_refl Ho HLne (λ _, HE1) Hf1
    ltac:(intros phys o' Hfr; by exists phys, o') s1 eq_refl ltac:(done)) as Happ.
  destruct (ManifestWriter_append (vs_manifest vs) L s1) as [[w|e] s2]; [|by destruct Happ].
  destruct Happ as [(phys & o' & Hfr & -> & Hi2) _].
  assert (E (durable_image (ci_durable (fs_image s2)))) as HE2 by (rewrite Hi2; by apply HE).
  pose proof (wp_map_err true (fs_image s2) E (io_error "sync manifest edit") (file_sync_all (mw_path (vs_manifest vs)))
    (λ _ i', i' = record_file_sync (mw_path (vs_manifest vs)) (fs_image s2))
    (wp_sync true _ E (λ _, HE2) _ _ eq_refl) s2 eq_refl ltac:(done)) as Hsync.
  unfold ManifestWriter_sync. cbn [mw_path].
  destruct (fs_map_err _ _ s2) as [[[]|e] s3]; [|by destruct Hsync].
  destruct Hsync as [Hsync _]. rewrite Hsync, Hi2.
  split; [by apply (vs_ok_extend vs edit (fs_image s) es c v L)|]. split; [done|].
  destruct (synced_write_lookup (mw_path (vs_manifest vs)) phys (fs_image s1) file Hf1) as (Hv' & Hd' & Ho' & Hvo').
  { rewrite (proj1 Hed) by done. eauto. }
  split; intros k Hk Hs; (destruct (decide (sstable_name k = mw_path (vs_manifest vs))) as [->|Hne]; [eauto|]).
  - rewrite Hvo' by done. apply Hev. auto.
  - rewrite Ho' by done. apply Hed. auto.
Qed.
(** Without a fault an edit that passes the checks is acknowledged. *)
Lemma apply_accepts vs edit s es c v L :
  vs_ok vs (fs_image s) es → edit_wf edit → tables_present (fs_image s) edit → fs_fail_at s = None →
  update_counters edit (vs_counters vs) false = Ok c →
  validate_file_numbers edit (cn_next_file_number c) (vs_used_file_numbers vs) false = Ok tt →
  Version_apply (vs_current vs) edit = Ok v → encode_edit edit = Ok L →
  ∃ vs' s', apply_with_visibility vs edit s = (None, vs', s') ∧ fs_fail_at s' = None ∧
    vs_current vs' = v ∧ vs_counters vs' = c.
Proof.
  intros Hvs Hwf Htab Hf Hc Hv Ha HL. unfold apply_with_visibility. rewrite (vo_usable _ _ _ Hvs). cbn [negb].
  pose proof (prepare_apply_ok vs edit (fs_image s) c v L
    (λ x i', x = (c, v, L) ∧ files_ext (ci_volatile (fs_image s)) (ci_volatile i'))
    Hwf Htab Hc Hv Ha HL ltac:(done) s eq_refl ltac:(done)) as Hp.
  destruct (prepare_apply vs edit s) as [[[[c1 v1] L1]|e] s1]; [|done].
  destruct Hp as [[[= -> -> ->] Hext] Hf1]. specialize (Hf1 eq_refl).
  pose proof Hvs as [_ _ Hpath (file & Hfv & Hfd & Hlog)].
  destruct (edit_record_facts edit L) as (_ & HLne & _); [done|].
  assert (0 ≤ mw_block_offset (vs_manifest vs) ≤ BLOCK_BYTES) as Ho.
  { by destruct Hlog as (? & ? & ? & ? & _ & _ & _ & _ & _ & ?). }
  assert (ci_volatile (fs_image s1) !! mw_path (vs_manifest vs) = Some file) as Hfile.
  { rewrite (proj1 Hext); [done|]. rewrite Hpath. apply not_table_manifest. }
  pose proof (manifest_append_wp false _ (λ _, False) (vs_manifest vs) L (fs_image s1) file (λ _ _, True)
    eq_refl Ho HLne ltac:(done) Hfile ltac:(done) s1 eq_refl ltac:(done)) as Happ.
  destruct (ManifestWriter_append (vs_manifest vs) L s1) as [[w|e] s2]; [|done]. destruct Happ as [_ Hf2].
  pose proof (wp_map_err false (fs_image s2) (λ _, False) (io_error "sync manifest edit")
    (file_sync_all (mw_path w)) (λ _ _, True) (wp_sync false _ (λ _, False) ltac:(done) _ _ I)
    s2 eq_refl Hf2) as Hsync.
  unfold ManifestWriter_sync. destruct (fs_map_err _ _ s2) as [[[]|e] s3]; [|done].
  eexists _, _. split; [done|]. split; [by apply Hsync|done].
Qed.

(** ** Recovery *)

Lemma validate_referenced_wp g v i (E : CrashImage → Prop) (Q : unit → CrashImage → Prop) :
  (∀ f, f ∈ concat v → is_Some (ci_volatile i !! sstable_name (fm_number f))) → Q tt i →
  wpf g (validate_referenced_files v) i Q E.
Proof.
  unfold validate_referenced_files. induction (concat v) as [|f l IH]; intros Hall HQ; cbn [fs_each].
  { by apply wp_ret. }
  apply wp_bind, wp_map_err, wp_validate; [apply Hall; by left|]. apply IH; [|done].
  intros x Hx. apply Hall. by right.
Qed.

Lemma torn_has_record n file es r :
  torn_manifest file es → recover_edits n es = Ok r → ∃ e L, edit_record e L.
Proof.
  intros (recs & p & o & Hrecs & _) Hr. destruct Hrecs; [done|eauto].
Qed.

(** What the truncation of a torn tail leaves. *)
Lemma truncated_lookup path file valid i :
  ci_durable i !! path = Some file → 0 ≤ valid ≤ zlen file →
  let i' := record_file_sync path (record_truncate path (take (Z.to_nat valid) file)
              (record_truncate path (resize valid file) i)) in
  ci_volatile i' = <[path := take (Z.to_nat valid) file]> (ci_volatile i) ∧
  ci_durable i' = <[path := take (Z.to_nat valid) file]> (ci_durable i).
Proof.
  intros Hf Hv. unfold record_file_sync, record_truncate. cbn. rewrite lookup_insert_eq. cbn.
  rewrite bool_decide_true by eauto. by rewrite insert_insert_eq.
Qed.

Lemma resize_take valid file : 0 ≤ valid ≤ zlen file → resize valid file = take (Z.to_nat valid) file.
Proof.
  intros Hv. unfold resize. replace (Z.to_nat (valid - zlen file)) with 0%nat by lia. cbn. by rewrite app_nil_r.
Qed.

(** The directory after the truncation still holds the same edits. *)
Lemma durable_ok_truncated d n es r file valid :
  durable_ok d n es r → d !! manifest_name n = Some file → 0 ≤ valid ≤ zlen file → zlen file ≤ 2 ^ 61 →
  manifest_log (take (Z.to_nat valid) file) es (valid mod BLOCK_BYTES) →
  durable_ok (<[manifest_name n := take (Z.to_nat valid) file]> d) n es r.
Proof.
  intros [Hn Hc (file' & Hf' & Ht & Hl) Hr Htab] Hf Hv Hlen Hlog.
  destruct (torn_has_record _ _ _ _ Ht Hr) as (e & L & HeL).
  split; [done| | |done|].
  - rewrite lookup_insert_ne; [done|]. apply manifest_name_current.
  - exists (take (Z.to_nat valid) file). rewrite lookup_insert_eq. split; [done|]. split.
    + by eapply manifest_log_torn.
    + rewrite zlen_take by lia. lia.
  - intros f Hin. destruct (decide (manifest_name n = sstable_name (fm_number f))) as [<-|Hne].
    + rewrite lookup_insert_eq. eauto.
    + rewrite lookup_insert_ne by done. by apply Htab.
Qed.

(** The running system sees the durable metadata. *)
Record settled (i : CrashImage) (n : Z) (r : Recovery) : Prop := {
  se_current : ci_volatile i !! CURRENT = ci_durable i !! CURRENT;
  se_manifest : ci_volatile i !! manifest_name n = ci_durable i !! manifest_name n;
  se_tables : ∀ f, f ∈ concat (rc_version r) → is_Some (ci_volatile i !! sstable_name (fm_number f))
}.

Lemma settled_durable d n es r : durable_ok d n es r → settled (durable_image d) n r.
Proof. by intros []. Qed.

Lemma recover_wp g i n es r (E : CrashImage → Prop) (Q : VersionSet → CrashImage → Prop) :
  durable_ok (ci_durable i) n es r → settled i n r → (g = true → E (durable_image (ci_durable i))) →
  (∀ vs i', vs_ok vs i' es → vs_recovery vs = r → vs_manifest_number vs = n →
    (∀ p, p ≠ manifest_name n → ci_volatile i' !! p = ci_volatile i !! p ∧ ci_durable i' !! p = ci_durable i !! p) →
    Q vs i') →
  wpf g (recover_with_fs false) i Q E.
Proof.
  intros Hd [Sc Sm St] HE HQ. pose proof Hd as [Hn Hc (file & Hf & Ht & Hl) Hr Htab].
  rewrite Hc in Sc. rewrite Hf in Sm.
  destruct (replay_torn file es Ht ltac:(lia)) as (valid & Hrep & Hvalid & Hlog).
  pose proof (durable_ok_truncated _ _ _ _ _ _ Hd Hf Hvalid Hl Hlog) as Hd'.
  unfold recover_with_fs. apply wp_bind, wp_map_err. eapply wp_read; [exact Sc|].
  apply wp_bind, (wp_lift_ok _ _ _ _ _ _ (parse_current_name n Hn)).
  apply wp_bind, (wp_lift_ok _ _ _ _ _ _ (parse_manifest_number_name n Hn)).
  apply wp_bind. unfold fs_replay_manifest at 1. apply wp_bind, wp_map_err. eapply wp_read; [exact Sm|].
  apply (wp_lift_ok _ _ _ _ _ _ Hrep). cbn [mr_edits mr_valid_bytes mr_file_length].
  apply wp_bind, (wp_lift_ok _ _ _ _ _ _ Hr). apply wp_bind, validate_referenced_wp; [exact St|].
  apply wp_bind. destruct (Z.ltb_spec valid (zlen file)) as [Hlt|Hge].
  - apply wp_bind, wp_map_err. eapply wp_truncate; [by auto|exact Sm|]. rewrite (resize_take _ _ Hvalid).
    destruct (truncated_lookup _ _ _ _ Hf Hvalid) as [Hv2 Hd2]. rewrite (resize_take _ _ Hvalid) in Hv2, Hd2.
    apply wp_map_err. eapply wp_sync_file; [by auto|apply lookup_insert_eq|].
    apply wp_bind, wp_map_err, wp_validate; [rewrite Hv2, lookup_insert_eq; eauto|].
    apply wp_ret, HQ; [|by destruct r|done|intros p Hp; by rewrite Hv2, Hd2, !lookup_insert_ne].
    split; [rewrite Hd2; by destruct r|done|done|].
    exists (take (Z.to_nat valid) file). rewrite Hv2, Hd2. cbn [vs_manifest mw_path mw_block_offset].
    by rewrite !lookup_insert_eq.
  - assert (valid = zlen file) as -> by lia.
    apply wp_ret, wp_bind, wp_map_err, wp_validate; [eauto|]. apply wp_ret, HQ; [|by destruct r|done|done].
    split; [by destruct r|done|done|]. exists file. cbn. rewrite take_ge in Hlog by (unfold zlen; lia). done.
Qed.
End Invariant.
