(* ===== verification/ManifestBoot.v ===== *)
(** * Bootstrapping a database (src/crates/meteordb/src/manifest.rs, [create_with_fs])

    Creating the first manifest and [CURRENT] can be interrupted by a crash at any
    file-system call and be repeated. *)

From Stdlib Require Import ZArith Lia.
From stdpp Require Import base list gmap strings.
From S2P Require Import Prelude Fs Checksum Framing InternalKey Version ManifestCodec Manifest.
From S2P Require Import ManifestLog ManifestSet.

Local Open Scope Z_scope.

(** ** The image, one name at a time *)

Definition view (i : CrashImage) (p : name) : option bytes * option bytes * option bytes :=
  (ci_volatile i !! p, ci_synced i !! p, ci_durable i !! p).

Section Views.
  Context (i : CrashImage) (q : name).

Lemma view_eq p v s d : view i p = (v, s, d) → ci_volatile i !! p = v ∧ ci_synced i !! p = s ∧ ci_durable i !! p = d.
Proof using. unfold view. by intros [= <- <- <-]. Qed.

Lemma view_create p :
  view (track_new_file q i) p = if decide (p = q) then (Some [], None, ci_durable i !! p) else view i p.
Proof.
  unfold view, track_new_file. cbn. destruct (decide (p = q)) as [->|Hne].
  - by rewrite lookup_insert_eq, lookup_delete_eq.
  - by rewrite lookup_insert_ne, lookup_delete_ne.
Qed.

Lemma view_write b p :
  view (record_write q b i) p = if decide (p = q)
    then (Some (default [] (ci_volatile i !! p) ++ b), ci_synced i !! p, ci_durable i !! p) else view i p.
Proof.
  unfold view, record_write. cbn. destruct (decide (p = q)) as [->|Hne].
  - by rewrite lookup_insert_eq.
  - by rewrite lookup_insert_ne.
Qed.

Lemma view_sync b p :
  ci_volatile i !! q = Some b →
  view (record_file_sync q i) p = if decide (p = q)
    then (Some b, Some b, (λ _, b) <$> ci_durable i !! p) else view i p.
Proof.
  intros Hb. unfold view, record_file_sync. rewrite Hb. cbn. destruct (decide (p = q)) as [->|Hne].
  - rewrite lookup_insert_eq, Hb. do 2 f_equal. case_bool_decide as Hd.
    + destruct Hd as [x ->]. by rewrite lookup_insert_eq.
    + by apply eq_None_not_Some in Hd as ->.
  - rewrite lookup_insert_ne by done. case_bool_decide; [|done]. by rewrite lookup_insert_ne.
Qed.

Lemma view_rename r a b p :
  q ≠ r → ci_volatile i !! q = Some a → ci_synced i !! q = Some b →
  view (record_rename q r i) p = if decide (p = r) then (Some a, Some b, ci_durable i !! p)
    else if decide (p = q) then (None, None, ci_durable i !! p) else view i p.
Proof.
  intros Hqr Ha Hb. unfold view, record_rename, rename_entry. cbn. rewrite Ha, Hb.
  destruct (decide (p = r)) as [->|Hne].
  - by rewrite !lookup_insert_eq.
  - rewrite !lookup_insert_ne by done. destruct (decide (p = q)) as [->|Hnq].
    + by rewrite !lookup_delete_eq.
    + by rewrite !lookup_delete_ne.
Qed.

Lemma view_remove p :
  view (record_remove q i) p = if decide (p = q) then (None, None, ci_durable i !! p) else view i p.
Proof.
  unfold view, record_remove. cbn. destruct (decide (p = q)) as [->|Hne].
  - by rewrite !lookup_delete_eq.
  - by rewrite !lookup_delete_ne.
Qed.

Lemma view_directory p :
  view (record_directory_sync i) p =
    (ci_volatile i !! p, ci_synced i !! p,
     (λ _, default [] (match ci_synced i !! p with Some b => Some b | None => ci_durable i !! p end))
       <$> ci_volatile i !! p).
Proof.
  unfold view, record_directory_sync. cbn. rewrite map_lookup_imap. by destruct (ci_volatile i !! p).
Qed.
End Views.

(** The name is as before, or at most the directory was synchronized. *)
Definition same_at (i i' : CrashImage) (p : name) : Prop :=
  view i' p = view i p ∨ view i' p = view (record_directory_sync i) p.

Lemma same_at_refl i p : same_at i i p.
Proof. by left. Qed.

Lemma view_directory_of i i' p : view i p = view i' p → view (record_directory_sync i) p = view (record_directory_sync i') p.
Proof. intros H. rewrite !view_directory. unfold view in H. by injection H as -> -> ->. Qed.

Lemma view_directory_twice i p :
  view (record_directory_sync (record_directory_sync i)) p = view (record_directory_sync i) p.
Proof.
  rewrite (view_directory (record_directory_sync i)). pose proof (view_directory i p) as H. rewrite H.
  apply view_eq in H as (-> & -> & ->). f_equal. destruct (ci_volatile i !! p); [|done]. cbn. by destruct (ci_synced i !! p).
Qed.

Lemma same_at_trans a b c p : same_at a b p → same_at b c p → same_at a c p.
Proof.
  intros [Hab|Hab] [Hbc|Hbc]; unfold same_at; rewrite Hbc.
  - by left.
  - right. by apply view_directory_of.
  - by right.
  - right. rewrite <- (view_directory_twice a). apply view_directory_of. done.
Qed.

Lemma same_at_content i i' p :
  same_at i i' p → ci_volatile i' !! p = ci_volatile i !! p ∧ ci_synced i' !! p = ci_synced i !! p.
Proof.
  intros [H|H]; [|rewrite view_directory in H]; unfold view in H; by injection H as -> ->.
Qed.

(** A name that is not there stays away. *)
Lemma same_at_none i i' p :
  same_at i i' p → ci_volatile i !! p = None → ci_durable i !! p = None →
  ci_volatile i' !! p = None ∧ ci_durable i' !! p = None.
Proof.
  intros H Hv Hd. destruct (same_at_content _ _ _ H) as [-> _]. split; [done|].
  destruct H as [H|H]; [|rewrite view_directory, Hv in H]; unfold view in H; injection H; congruence.
Qed.

(** ** More rules *)

Section Operations.
  Context (g : bool) (i : CrashImage) (E : CrashImage → Prop)
    (Hcrash : g = true → E (durable_image (ci_durable i))).

Lemma wp_create path (Q : unit → CrashImage → Prop) :
  ci_volatile i !! path = None → Q tt (track_new_file path i) → wpf g (fs_create path) i Q E.
Proof.
  intros Hn HQ. apply wp_bind, wp_exists. rewrite Hn, bool_decide_false by (by intros [? ?]). by apply wp_update.
Qed.

Lemma wp_install src dst b (Q : unit → CrashImage → Prop) :
  ci_volatile i !! src = Some b → ci_volatile i !! dst = None → Q tt (record_rename src dst i) →
  wpf g (atomic_install src dst) i Q E.
Proof using Hcrash.
  intros Hs Hd HQ. apply wp_bind, wp_observe; [done|]. apply wp_bind, wp_validate; [eauto|].
  apply wp_bind, wp_exists. rewrite Hd, bool_decide_false by (by intros [? ?]). by apply wp_update.
Qed.

Lemma wp_directory path (Q : unit → CrashImage → Prop) :
  Q tt (record_directory_sync i) → wpf g (sync_directory path) i Q E.
Proof using Hcrash. intros HQ. apply wp_bind, wp_observe; [done|]. by apply wp_update. Qed.

Lemma wp_remove_temporary path (Q : unit → CrashImage → Prop) :
  (∀ i', (∀ p, p ≠ path → view i' p = view i p) → ci_volatile i' !! path = None →
    ci_durable i' = ci_durable i → Q tt i') →
  wpf g (remove_temporary_if_present path) i Q E.
Proof using Hcrash.
  intros HQ. apply wp_bind, wp_map_err, wp_exists. case_bool_decide as Hp.
  - apply wp_map_err, wp_bind, wp_observe; [done|]. apply wp_bind, wp_validate; [done|]. apply wp_update, HQ.
    + intros p Hp'. rewrite view_remove. by destruct (decide (p = path)).
    + apply lookup_delete_eq.
    + done.
  - apply wp_ret, HQ; [done| |done]. by apply eq_None_not_Some.
Qed.
End Operations.

(** ** The states of a bootstrap *)

Section Boot.
  Context `{C : Crc32c} {CR : Crc32cRange C}.

Definition MANIFEST1 : name := manifest_name 1.
Definition MANIFEST1_TMP : name := MANIFEST1 ++ ascii_bytes ".tmp".

Definition boot_recovery : Recovery :=
  {| rc_version := Version_empty;
     rc_counters := {| cn_next_file_number := 2; cn_last_sequence := 0; cn_log_number := 0;
                       cn_active_log_number := 0; cn_wal_sequence := 0 |};
     rc_used := {[1]} |}.

(** The bytes of the first manifest. *)
Definition boot_file (file : bytes) : Prop :=
  ∃ L o, edit_record initial_edit L ∧ log_frames 0 [L] file o.

(** Nothing installed yet, or only the manifest. *)
Definition boot_empty (d : gmap name bytes) : Prop := d !! CURRENT = None ∧ d !! MANIFEST1 = None.
Definition boot_manifest (d : gmap name bytes) : Prop :=
  d !! CURRENT = None ∧ ∃ file, d !! MANIFEST1 = Some file ∧ boot_file file.

Definition boot_ok (d : gmap name bytes) : Prop :=
  boot_empty d ∨ boot_manifest d ∨ durable_ok d 1 [initial_edit] boot_recovery.

Lemma initial_edit_wf : edit_wf initial_edit.
Proof.
  split; cbn; try (unfold is_u64, U64_MAX; lia); try constructor; done.
Qed.

Lemma initial_recovery : recover_edits 1 [initial_edit] = Ok boot_recovery.
Proof. by vm_compute. Qed.

Lemma initial_record : edit_record initial_edit (enc_edit initial_edit).
Proof. split; [apply initial_edit_wf|]. by vm_compute. Qed.

Lemma boot_file_frags file :
  boot_file file ↔ ∃ o, frags 0 true (enc_edit initial_edit) file o.
Proof.
  split.
  - intros (L & o & HL & Hlog). destruct (edit_record_facts _ _ HL) as (-> & _).
    inversion Hlog as [|? ? ph o1 ? ph' ? Hfr Hnil]; subst. inversion Hnil; subst.
    rewrite app_nil_r. eauto.
  - intros (o & Hfr). exists (enc_edit initial_edit), o. split; [apply initial_record|].
    rewrite <- (app_nil_r file). econstructor; [done|constructor].
Qed.

Lemma boot_file_small file : boot_file file → zlen file ≤ 2 ^ 20.
Proof.
  intros Hb. apply boot_file_frags in Hb as (o & Hfr).
  pose proof (frags_len _ _ _ _ _ Hfr ltac:(done) ltac:(unfold BLOCK_BYTES; lia)) as H.
  change (zlen (enc_edit initial_edit)) with 54 in H. change (0 =? BLOCK_BYTES) with false in H. lia.
Qed.

Lemma boot_file_log file : boot_file file → ∃ o, manifest_log file [initial_edit] o ∧ torn_manifest file [initial_edit].
Proof.
  intros (L & o & HL & Hlog). exists o.
  assert (manifest_log file [initial_edit] o) as Hm.
  { exists [L], file, o, []. rewrite app_nil_r. split; [by constructor|]. do 4 (split; [done|]).
    eapply log_frames_offset; [exact Hlog|]. unfold BLOCK_BYTES. lia. }
  split; [done|]. by eapply manifest_log_torn.
Qed.

(** The whole file is valid. *)
Lemma boot_file_replay file :
  boot_file file → replay_manifest file =
    Ok {| mr_edits := [initial_edit]; mr_valid_bytes := zlen file; mr_file_length := zlen file |}.
Proof.
  intros Hb. pose proof (boot_file_small _ Hb) as Hs. destruct (boot_file_log _ Hb) as (o & _ & Ht).
  destruct (replay_torn file _ Ht ltac:(lia)) as (valid & -> & Hv & recs & p & o1 & k & Hrecs & Hlog & Hfile & _).
  destruct Hb as (L & o' & HL & Hlog').
  apply Forall2_cons_inv_l in Hrecs as (L2 & recs' & HL2 & Hnil & ->). apply Forall2_nil_inv_l in Hnil as ->.
  assert (L2 = L) as ->.
  { destruct (edit_record_facts _ _ HL) as (-> & _). by destruct (edit_record_facts _ _ HL2) as (-> & _). }
  destruct (log_frames_func _ _ _ _ _ _ Hlog Hlog') as [-> _].
  apply (f_equal zlen) in Hfile. rewrite zlen_take, zlen_app in Hfile by lia. zlen_pos.
  by replace valid with (zlen file) by lia.
Qed.

Lemma boot_durable_ok d file :
  d !! CURRENT = Some (MANIFEST1 ++ [NEWLINE]) → d !! MANIFEST1 = Some file → boot_file file →
  durable_ok d 1 [initial_edit] boot_recovery.
Proof.
  intros Hc Hm Hb. split; [unfold U64_MAX; lia|done| |apply initial_recovery|].
  - exists file. split; [done|]. split; [by destruct (boot_file_log _ Hb) as (? & _ & ?)|].
    pose proof (boot_file_small _ Hb). lia.
  - intros f Hf. by apply elem_of_nil in Hf.
Qed.
(** ** Installing [CURRENT] *)

(** [CURRENT] is not there, and the manifest is there with content [m] or not. *)
Record manifest_ready (d0 : gmap name bytes) (m : option bytes) (i : CrashImage) : Prop := {
  mr_current_v : ci_volatile i !! CURRENT = None;
  mr_current_d : ci_durable i !! CURRENT = None;
  mr_file_v : ci_volatile i !! MANIFEST1 = m;
  mr_file_s : ci_synced i !! MANIFEST1 = m ∨ ci_synced i !! MANIFEST1 = None;
  mr_file_d : ci_durable i !! MANIFEST1 = m;
  mr_boot : from_option boot_file True m;
  mr_tables_v : tables_kept d0 (ci_volatile i);
  mr_tables_d : tables_kept d0 (ci_durable i)
}.

Lemma manifest_ready_crash d0 m i :
  manifest_ready d0 m i → boot_ok (ci_durable i) ∧ tables_kept d0 (ci_durable i).
Proof. intros []. split; [|done]. destruct m; [right; left|left]; split; [done|eauto|done|done]. Qed.

(** It stays so while other names change. *)
Lemma manifest_ready_view d0 m i i' (P : name → Prop) :
  manifest_ready d0 m i → (∀ p, ¬ P p → view i' p = view i p) →
  ¬ P CURRENT → ¬ P MANIFEST1 → (∀ k, 0 ≤ k → ¬ P (sstable_name k)) → manifest_ready d0 m i'.
Proof.
  intros [] Hv Hc Hm Ht.
  pose proof (Hv _ Hc) as Hvc. pose proof (Hv _ Hm) as Hvm. unfold view in Hvc, Hvm.
  injection Hvc as Hc1 Hc2 Hc3. injection Hvm as Hm1 Hm2 Hm3.
  split; try congruence.
  all: intros k Hk Hs; specialize (Hv _ (Ht k Hk)); unfold view in Hv; injection Hv as H1 H2 H3;
    rewrite ?H1, ?H3; auto.
Qed.

Lemma manifest_ready_other d0 m i i' q :
  manifest_ready d0 m i → (∀ p, p ≠ q → view i' p = view i p) →
  CURRENT ≠ q → MANIFEST1 ≠ q → (∀ k, 0 ≤ k → sstable_name k ≠ q) → manifest_ready d0 m i'.
Proof.
  intros Hr Hv Hc Hm Ht. apply (manifest_ready_view _ _ i _ (λ p, p = q) Hr); auto.
Qed.

Lemma not_current_tmp : CURRENT ≠ CURRENT_TMP ∧ MANIFEST1 ≠ CURRENT_TMP ∧ ∀ k, 0 ≤ k → sstable_name k ≠ CURRENT_TMP.
Proof. split; [done|]. split; [done|]. intros k Hk. by destruct (sstable_name_other k 1 Hk) as (_ & ? & _). Qed.

Definition crash_safe (g : bool) (d0 : gmap name bytes) (E : CrashImage → Prop) : Prop :=
  g = true → ∀ d', boot_ok d' → tables_kept d0 d' → E (durable_image d').

Lemma ready_safe g d0 E m i :
  crash_safe g d0 E → manifest_ready d0 m i → g = true → E (durable_image (ci_durable i)).
Proof. intros HE Hr Hg. destruct (manifest_ready_crash _ _ _ Hr). by apply HE. Qed.

(** What installing [CURRENT] leaves after the directory was synchronized. *)
Lemma current_installed d0 file i b :
  manifest_ready d0 (Some file) i → ci_volatile i !! CURRENT_TMP = Some b → ci_synced i !! CURRENT_TMP = Some b →
  let i' := record_directory_sync (record_rename CURRENT_TMP CURRENT i) in
  ci_volatile i' !! MANIFEST1 = Some file ∧ ci_durable i' !! MANIFEST1 = Some file ∧
  ci_volatile i' !! CURRENT = Some b ∧ ci_durable i' !! CURRENT = Some b ∧ tables_kept d0 (ci_volatile i') ∧ tables_kept d0 (ci_durable i').
Proof.
  intros [] Hv Hs. set (i1 := record_rename _ _ _).
  assert (∀ p, view i1 p = if decide (p = CURRENT) then (Some b, Some b, ci_durable i !! p)
    else if decide (p = CURRENT_TMP) then (None, None, ci_durable i !! p) else view i p) as H1.
  { intros p. by apply view_rename. }
  cbn zeta. set (i' := record_directory_sync i1).
  assert (∀ p v s d, view i1 p = (v, s, d) →
    ci_volatile i' !! p = v ∧
    ci_durable i' !! p = (λ _, default [] (match s with Some b => Some b | None => d end)) <$> v) as H2.
  { intros p v s d Hp. apply view_eq in Hp as (<- & <- & <-).
    pose proof (view_directory i1 p) as Hd. by apply view_eq in Hd as (? & _ & ?). }
  destruct (H2 MANIFEST1 (Some file) (ci_synced i !! MANIFEST1) (Some file)) as [Hm1 Hm2].
  { rewrite H1. unfold view. by rewrite mr_file_v0, mr_file_d0. }
  destruct (H2 CURRENT (Some b) (Some b) None) as [Hc1 Hc2].
  { rewrite H1. by rewrite decide_True, mr_current_d0. }
  split; [done|]. split; [rewrite Hm2; by destruct mr_file_s0 as [-> | ->]|]. do 2 (split; [done|]).
  assert (∀ k, 0 ≤ k → is_Some (d0 !! sstable_name k) →
    is_Some (ci_volatile i' !! sstable_name k) ∧ is_Some (ci_durable i' !! sstable_name k)) as Ht.
  { intros k Hk Hd. destruct (mr_tables_v0 k Hk Hd) as [x Hx].
    destruct (sstable_name_other k 1 Hk) as (Hn1 & Hn2 & _).
    destruct (H2 (sstable_name k) (Some x) (ci_synced i !! sstable_name k) (ci_durable i !! sstable_name k))
      as [-> ->].
    { rewrite H1, !decide_False by done. unfold view. by rewrite Hx. }
    cbn. eauto. }
  split; intros k Hk Hd; by destruct (Ht k Hk Hd).
Qed.

Lemma replace_current_wp g d0 i file (E : CrashImage → Prop) (Q : unit → CrashImage → Prop) :
  manifest_ready d0 (Some file) i → ci_volatile i !! CURRENT_TMP = None → crash_safe g d0 E →
  (∀ i', durable_ok (ci_durable i') 1 [initial_edit] boot_recovery →
    ci_volatile i' !! CURRENT = ci_durable i' !! CURRENT →
    ci_volatile i' !! MANIFEST1 = Some file → ci_durable i' !! MANIFEST1 = Some file →
    tables_kept d0 (ci_volatile i') → tables_kept d0 (ci_durable i') → Q tt i') →
  wpf g (replace_current MANIFEST1) i Q E.
Proof.
  intros Hr Hn HE HQ. destruct not_current_tmp as (N1 & N2 & N3). unfold replace_current.
  apply wp_bind, wp_map_err, wp_create; [done|]. set (i1 := track_new_file _ _).
  assert (manifest_ready d0 (Some file) i1) as Hr1.
  { apply (manifest_ready_other _ _ i _ CURRENT_TMP Hr); [|done..]. intros p Hp. unfold i1. rewrite view_create.
    by rewrite decide_False. }
  apply wp_bind, wp_map_err, wp_write; [by apply (ready_safe g d0 E (Some file))|]. set (b := MANIFEST1 ++ _).
  set (i2 := record_write _ _ _).
  assert (manifest_ready d0 (Some file) i2) as Hr2.
  { apply (manifest_ready_other _ _ i1 _ CURRENT_TMP Hr1); [|done..]. intros p Hp. unfold i2. rewrite view_write.
    by rewrite decide_False. }
  assert (ci_volatile i2 !! CURRENT_TMP = Some b) as Hb2.
  { unfold i2, i1, record_write, track_new_file. cbn. by rewrite !lookup_insert_eq. }
  apply wp_bind, wp_map_err, wp_sync; [by apply (ready_safe g d0 E (Some file))|]. set (i3 := record_file_sync _ _).
  assert (manifest_ready d0 (Some file) i3) as Hr3.
  { apply (manifest_ready_other _ _ i2 _ CURRENT_TMP Hr2); [|done..]. intros p Hp. unfold i3.
    by rewrite (view_sync _ _ _ _ Hb2), decide_False. }
  pose proof (view_sync i2 CURRENT_TMP b CURRENT_TMP Hb2) as Hv3. rewrite decide_True in Hv3 by done.
  apply view_eq in Hv3 as (Hv3 & Hs3 & _). fold i3 in Hv3, Hs3.
  apply wp_bind, wp_map_err. eapply wp_install; [by apply (ready_safe g d0 E (Some file))|exact Hv3|apply Hr3|].
  destruct (current_installed d0 file i3 b Hr3 Hv3 Hs3) as (H1 & H2 & H3v & H3 & H4 & H5).
  apply wp_map_err, wp_directory; [by apply (ready_safe g d0 E (Some file) i3 HE Hr3)|].
  apply HQ; [|by rewrite H3v, H3|done..]. eapply boot_durable_ok; [done|done|]. by destruct Hr.
Qed.
(** ** Creating the database *)

Lemma frags_small L phys o :
  zlen L ≤ 1000 → frags 0 true L phys o → o = zlen L + HEADER_BYTES.
Proof.
  intros HL H. inversion H as [? ? ? Hfit|? ? c rem ph ? Hfit Hne Hfr]; subst; change (start_of 0) with 0 in *.
  - lia.
  - exfalso. rewrite zlen_app in HL. zlen_pos. unfold BLOCK_BYTES, HEADER_BYTES in *. lia.
Qed.

Lemma not_manifest_tmp :
  CURRENT ≠ MANIFEST1_TMP ∧ MANIFEST1 ≠ MANIFEST1_TMP ∧ CURRENT_TMP ≠ MANIFEST1_TMP ∧
  ∀ k, 0 ≤ k → sstable_name k ≠ MANIFEST1_TMP.
Proof.
  do 3 (split; [done|]). intros k Hk. destruct (format06_head k Hk) as (x & r & Hx & Hb). unfold sstable_name.
  rewrite Hx. intros H. injection H as H _. lia.
Qed.

(** Installing the synchronized manifest makes the directory ready for [CURRENT]. *)
Lemma manifest_installed d0 i b :
  manifest_ready d0 None i → ci_volatile i !! MANIFEST1_TMP = Some b → ci_synced i !! MANIFEST1_TMP = Some b →
  ci_volatile i !! CURRENT_TMP = None → boot_file b →
  let i' := record_directory_sync (record_rename MANIFEST1_TMP MANIFEST1 i) in
  manifest_ready d0 (Some b) i' ∧ ci_volatile i' !! CURRENT_TMP = None.
Proof.
  intros [] Hv Hs Htmp Hb. destruct not_manifest_tmp as (N1 & N2 & N3 & N4). set (i1 := record_rename _ _ _).
  assert (∀ p, view i1 p = if decide (p = MANIFEST1) then (Some b, Some b, ci_durable i !! p)
    else if decide (p = MANIFEST1_TMP) then (None, None, ci_durable i !! p) else view i p) as H1.
  { intros p. by apply view_rename. }
  cbn zeta. set (i' := record_directory_sync i1).
  assert (∀ p v s d, view i1 p = (v, s, d) →
    ci_volatile i' !! p = v ∧ ci_synced i' !! p = s ∧
    ci_durable i' !! p = (λ _, default [] (match s with Some b => Some b | None => d end)) <$> v) as H2.
  { intros p v s d Hp. apply view_eq in Hp as (<- & <- & <-).
    pose proof (view_directory i1 p) as Hd. by apply view_eq in Hd. }
  destruct (H2 MANIFEST1 (Some b) (Some b) None) as (Hm1 & Hm2 & Hm3).
  { rewrite H1. by rewrite decide_True, mr_file_d0. }
  destruct (H2 CURRENT None (ci_synced i !! CURRENT) None) as (Hc1 & _ & Hc3).
  { rewrite H1. unfold view. by rewrite mr_current_v0, mr_current_d0. }
  destruct (H2 CURRENT_TMP None (ci_synced i !! CURRENT_TMP) (ci_durable i !! CURRENT_TMP)) as (Ht1 & _).
  { rewrite H1. unfold view. by rewrite Htmp. }
  assert (∀ k, 0 ≤ k → is_Some (d0 !! sstable_name k) →
    is_Some (ci_volatile i' !! sstable_name k) ∧ is_Some (ci_durable i' !! sstable_name k)) as Ht.
  { intros k Hk Hd. destruct (mr_tables_v0 k Hk Hd) as [x Hx].
    destruct (sstable_name_other k 1 Hk) as (_ & _ & Hn).
    destruct (H2 (sstable_name k) (Some x) (ci_synced i !! sstable_name k) (ci_durable i !! sstable_name k))
      as (-> & _ & ->).
    { rewrite H1, !decide_False by auto. unfold view. by rewrite Hx. }
    cbn. eauto. }
  split; [|done]. split; auto; intros k Hk Hd; by destruct (Ht k Hk Hd).
Qed.

Lemma create_fresh_wp g d (E : CrashImage → Prop) (Q : VersionSet → CrashImage → Prop) :
  boot_empty d → crash_safe g d E →
  (∀ vs i', vs_ok vs i' [initial_edit] → vs_recovery vs = boot_recovery → vs_manifest_number vs = 1 →
    tables_kept d (ci_volatile i') → tables_kept d (ci_durable i') → Q vs i') →
  wpf g (create_with_fs false) (durable_image d) Q E.
Proof.
  intros [Hc Hm] HE HQ. destruct not_manifest_tmp as (N1 & N2 & N3 & N4).
  destruct not_current_tmp as (M1 & M2 & M3).
  assert (manifest_ready d None (durable_image d)) as Hr0 by (split; cbn; auto; (done || by intros k)).
  unfold create_with_fs. apply wp_bind, wp_map_err, wp_exists. cbn [durable_image ci_volatile].
  rewrite Hc, bool_decide_false by (by intros [? ?]).
  apply wp_bind, wp_map_err, wp_exists. cbn [durable_image ci_volatile]. fold MANIFEST1.
  rewrite Hm, bool_decide_false by (by intros [? ?]). cbn zeta. fold MANIFEST1 MANIFEST1_TMP.
  apply wp_bind, wp_remove_temporary; [by apply (ready_safe g d E None)|]. intros i1 V1 T1 _.
  assert (manifest_ready d None i1) as Hr1 by (by apply (manifest_ready_other _ _ _ _ _ Hr0 V1)).
  apply wp_bind, wp_remove_temporary; [by apply (ready_safe g d E None)|]. intros i2 V2 T2 _.
  assert (manifest_ready d None i2) as Hr2 by (by apply (manifest_ready_other _ _ _ _ _ Hr1 V2)).
  pose proof (V2 MANIFEST1_TMP ltac:(done)) as T1'. unfold view in T1'. injection T1' as T1' _ _. rewrite T1 in T1'.
  apply wp_bind, (wp_lift_ok _ _ _ _ _ _ (proj2 initial_record)).
  apply wp_bind, wp_map_err, wp_create; [done|]. set (i3 := track_new_file _ _).
  assert (∀ p, p ≠ MANIFEST1_TMP → view i3 p = view i2 p) as V3.
  { intros p Hp. unfold i3. by rewrite view_create, decide_False. }
  assert (manifest_ready d None i3) as Hr3 by (by apply (manifest_ready_other _ _ _ _ _ Hr2 V3)).
  assert (ci_volatile i3 !! MANIFEST1_TMP = Some []) as T3 by apply lookup_insert_eq.
  apply wp_bind, (manifest_append_wp g MANIFEST1_TMP E _ _ _ []); [done|unfold BLOCK_BYTES; cbn; lia|done| |done|].
  { by apply (ready_safe g d E None). }
  intros phys o' Hfr. cbn [mw_block_offset] in Hfr. set (i4 := record_write _ _ _).
  assert (boot_file phys) as Hboot by (apply boot_file_frags; eauto).
  assert (∀ p, p ≠ MANIFEST1_TMP → view i4 p = view i3 p) as V4.
  { intros p Hp. unfold i4. by rewrite view_write, decide_False. }
  assert (manifest_ready d None i4) as Hr4 by (by apply (manifest_ready_other _ _ _ _ _ Hr3 V4)).
  assert (ci_volatile i4 !! MANIFEST1_TMP = Some phys) as T4.
  { pose proof (view_write i3 MANIFEST1_TMP phys MANIFEST1_TMP) as H4. rewrite decide_True, T3 in H4 by done.
    by apply view_eq in H4 as (H4 & _). }
  apply wp_bind. unfold ManifestWriter_sync. cbn [mw_path]. apply wp_map_err, wp_sync; [by apply (ready_safe g d E None)|].
  set (i5 := record_file_sync _ _).
  assert (∀ p, p ≠ MANIFEST1_TMP → view i5 p = view i4 p) as V5.
  { intros p Hp. unfold i5. by rewrite (view_sync _ _ _ _ T4), decide_False. }
  assert (manifest_ready d None i5) as Hr5 by (by apply (manifest_ready_other _ _ _ _ _ Hr4 V5)).
  pose proof (view_sync i4 MANIFEST1_TMP phys MANIFEST1_TMP T4) as T5. rewrite decide_True in T5 by done.
  apply view_eq in T5 as (T5 & S5 & _). fold i5 in T5, S5.
  assert (ci_volatile i5 !! CURRENT_TMP = None) as C5.
  { pose proof (V5 CURRENT_TMP N3) as H5. rewrite V4, V3 in H5 by done. unfold view in H5.
    injection H5 as H5 _ _. by rewrite H5. }
  apply wp_bind, wp_map_err. eapply wp_install; [by apply (ready_safe g d E None)|exact T5|apply Hr5|].
  destruct (manifest_installed d i5 phys Hr5 T5 S5 C5 Hboot) as [Hr6 C6].
  apply wp_bind, wp_map_err, wp_directory; [by apply (ready_safe g d E None i5 HE Hr5)|].
  apply wp_bind. eapply replace_current_wp; [exact Hr6|exact C6|done|].
  intros i7 Hd7 Hc7 Hv7 Hf7 Htv Htd. apply wp_bind, wp_map_err, wp_validate; [eauto|].
  apply wp_ret, HQ; [|done|done|done|done]. split; [done|done|done|]. exists phys.
  cbn [vs_manifest mw_path mw_block_offset]. do 2 (split; [done|]).
  assert (zlen (enc_edit initial_edit) ≤ 1000) as Hsmall by done.
  pose proof (frags_small _ _ _ Hsmall Hfr) as ->. destruct (manifest_log_extend _ _ _ _ _ _ _ manifest_log_nil initial_record Hfr) as [Hlog _].
  exact Hlog.
Qed.
(** A database whose bootstrap stopped after the manifest. *)
Lemma create_resumed_wp g d (E : CrashImage → Prop) (Q : VersionSet → CrashImage → Prop) :
  boot_manifest d → crash_safe g d E →
  (∀ vs i', vs_ok vs i' [initial_edit] → vs_recovery vs = boot_recovery → vs_manifest_number vs = 1 →
    tables_kept d (ci_volatile i') → tables_kept d (ci_durable i') → Q vs i') →
  wpf g (create_with_fs false) (durable_image d) Q E.
Proof.
  intros (Hc & file & Hm & Hb) HE HQ. destruct not_current_tmp as (M1 & M2 & M3).
  assert (manifest_ready d (Some file) (durable_image d)) as Hr0 by (split; cbn; auto; (done || by intros k)).
  unfold create_with_fs. apply wp_bind, wp_map_err, wp_exists. cbn [durable_image ci_volatile].
  rewrite Hc, bool_decide_false by (by intros [? ?]).
  apply wp_bind, wp_map_err, wp_exists. cbn [durable_image ci_volatile]. fold MANIFEST1.
  rewrite Hm, bool_decide_true by eauto. cbn zeta. fold MANIFEST1.
  apply wp_bind, wp_map_err, wp_validate; [eauto|].
  apply wp_bind. unfold validate_interrupted_bootstrap. apply wp_bind. unfold fs_replay_manifest at 1.
  apply wp_bind, wp_map_err. eapply wp_read; [exact Hm|].
  apply (wp_lift_ok _ _ _ _ _ _ (boot_file_replay _ Hb)). cbn [mr_edits mr_valid_bytes mr_file_length].
  rewrite Z.eqb_refl. cbn [negb]. apply wp_bind, (wp_lift_ok _ _ _ _ _ _ initial_recovery).
  apply validate_referenced_wp; [by intros f Hf%elem_of_nil|].
  apply wp_bind, wp_remove_temporary; [by apply (ready_safe g d E (Some file))|]. intros i1 V1 T1 _.
  assert (manifest_ready d (Some file) i1) as Hr1 by (by apply (manifest_ready_other _ _ _ _ _ Hr0 V1)).
  apply wp_bind. eapply replace_current_wp; [exact Hr1|done|done|].
  intros i2 Hd2 Hc2 Hv2 Hf2 Htv Htd. eapply recover_wp; [exact Hd2| | |].
  - split; [done|fold MANIFEST1; by rewrite Hv2, Hf2|by intros f Hf%elem_of_nil].
  - intros Hg. apply HE; [done|by right; right|done].
  - intros vs i' Hvs Hrec Hnum Hother. apply HQ; try done;
      intros k Hk Hd; destruct (Hother (sstable_name k)) as [H1 H2];
      rewrite ?H1, ?H2; auto; by destruct (sstable_name_other k 1 Hk) as (_ & _ & ?).
Qed.
End Boot.
