(* ===== verification/ManifestCrash.v ===== *)
(** * The version set across crashes

    A database is opened, edits are applied, some file-system call fails and the
    machine restarts, any number of times: the recovered version is exactly the
    acknowledged edits. *)

From Stdlib Require Import ZArith Lia.
From stdpp Require Import base list gmap strings.
From S2P Require Import Prelude Fs Checksum Framing InternalKey Version ManifestCodec Manifest.
From S2P Require Import ManifestLog ManifestSet ManifestBoot.

Local Open Scope Z_scope.

(** ** Sessions *)

(** One run of the program: the file-system call that fails, if any, and the edits. *)
Record Session : Type := {
  ss_fail_at : option Z;
  ss_edits : list VersionEdit
}.

Section Sessions.
  Context `{C : Crc32c}.

(** The acknowledged edits, up to the first failure. *)
Fixpoint apply_edits (vs : VersionSet) (edits : list VersionEdit) (s : FaultState)
    : list VersionEdit * FaultState :=
  match edits with
  | [] => ([], s)
  | edit :: edits =>
    match apply_with_visibility vs edit s with
    | (Some _, _, s) => ([], s)
    | (None, vs, s) => let '(acked, s) := apply_edits vs edits s in (edit :: acked, s)
    end
  end.

(** What a session leaves on disk when the machine stops, and what it acknowledged. *)
Definition run_session (st : gmap name bytes * list VersionEdit) (ss : Session)
    : gmap name bytes * list VersionEdit :=
  match open_versions false (FaultyFs_fail_at (ss_fail_at ss) st.1) with
  | (Err _, s) => (ci_durable (fs_image s), st.2)
  | (Ok vs, s) =>
    let '(acked, s) := apply_edits vs (ss_edits ss) s in
    (ci_durable (fs_image s), st.2 ++ acked)
  end.

Definition run_sessions (d : gmap name bytes) (sessions : list Session)
    : gmap name bytes * list VersionEdit :=
  foldl run_session (d, []) sessions.

(** The tables an edit adds are there. *)
Definition tables_in (d : gmap name bytes) (edit : VersionEdit) : Prop :=
  Forall (λ a : Z * FileMeta, is_Some (d !! sstable_name (fm_number a.2))) (ve_added_files edit).
End Sessions.

Section History.
  Context `{C : Crc32c} {CR : Crc32cRange C}.

(** ** Sizes *)

Lemma log_frames_len o recs p o1 es :
  Forall2 edit_record es recs → log_frames o recs p o1 → 0 ≤ o ≤ BLOCK_BYTES →
  zlen p ≤ 2 ^ 30 * zlen es.
Proof.
  intros Hrecs Hlog. revert es Hrecs. induction Hlog as [o|o L phys oa Ls phys' ob Hfr Hlog IH];
    intros es Hrecs Ho; inversion Hrecs as [|e ? es' ? He Hes]; subst; [done|].
  specialize (IH _ Hes (frags_offset _ _ _ _ _ Hfr Ho)).
  destruct (edit_record_facts _ _ He) as (_ & HL & HLl & _).
  pose proof (frags_len _ _ _ _ _ Hfr HL Ho) as Hl. rewrite zlen_app, zlen_cons.
  destruct (_ =? _) in Hl; unfold MAX_EDIT_BYTES in *; lia.
Qed.

Lemma manifest_log_len file es o : manifest_log file es o → zlen file ≤ 2 ^ 30 * zlen es + 7.
Proof.
  intros (recs & p & o1 & k & Hrecs & Hlog & -> & Hk & _ & Ho).
  pose proof (log_frames_len _ _ _ _ _ Hrecs Hlog ltac:(unfold BLOCK_BYTES; lia)) as Hl.
  pose proof (log_frames_offset _ _ _ _ Hlog ltac:(unfold BLOCK_BYTES; lia)) as Ho1.
  destruct (zlen_pad_of o1 ltac:(lia)) as [Hp _]. apply (f_equal zlen) in Hk. rewrite zlen_app in Hk |- *.
  zlen_pos. unfold HEADER_BYTES in *. lia.
Qed.

(** ** The invariant between sessions *)

Definition hist_ok (d0 d : gmap name bytes) (acked : list VersionEdit) : Prop :=
  tables_kept d0 d ∧
  (acked = [] ∧ (boot_empty d ∨ boot_manifest d) ∨ ∃ r, durable_ok d 1 (initial_edit :: acked) r).

Definition opened (d0 : gmap name bytes) (acked : list VersionEdit) (vs : VersionSet) (i : CrashImage) : Prop :=
  vs_ok vs i (initial_edit :: acked) ∧ vs_manifest_number vs = 1 ∧
  tables_kept d0 (ci_volatile i) ∧ tables_kept d0 (ci_durable i).

Lemma boot_hist d0 d : boot_ok d → tables_kept d0 d → hist_ok d0 d [].
Proof. intros [Hb|[Hb|Hb]] Hk; (split; [done|]); [left; auto|left; auto|right; eauto]. Qed.

Lemma tables_kept_trans d0 d d' : tables_kept d0 d → tables_kept d d' → tables_kept d0 d'.
Proof. intros H1 H2 k Hk Hs. auto. Qed.

Lemma create_wp g d0 d (E : CrashImage → Prop) :
  boot_empty d ∨ boot_manifest d → tables_kept d0 d →
  (g = true → ∀ d', hist_ok d0 d' [] → E (durable_image d')) →
  wpf g (create_with_fs false) (durable_image d) (opened d0 []) E.
Proof.
  intros Hb Hk HE. assert (crash_safe g d E) as Hsafe.
  { intros Hg d' Hd' Hk'. apply (HE Hg), boot_hist; [done|by eapply tables_kept_trans]. }
  destruct Hb as [Hb|Hb]; [apply (create_fresh_wp g d E _ Hb Hsafe)|apply (create_resumed_wp g d E _ Hb Hsafe)];
    intros vs i' Hvs _ Hn Htv Htd; (split; [done|]); (split; [done|]); split; by eapply tables_kept_trans.
Qed.

Lemma open_wp g d0 d acked (E : CrashImage → Prop) :
  hist_ok d0 d acked → (g = true → ∀ d', hist_ok d0 d' acked → E (durable_image d')) →
  wpf g (open_versions false) (durable_image d) (opened d0 acked) E.
Proof.
  intros [Hk Hd] HE. unfold open_versions. apply wp_bind, wp_map_err, wp_exists. cbn [durable_image ci_volatile].
  destruct Hd as [[-> Hb]|[r Hd]].
  - rewrite bool_decide_false; [by apply create_wp|]. intros [x Hx].
    destruct Hb as [[Hc _]|[Hc _]]; by rewrite Hc in Hx.
  - rewrite (do_current _ _ _ _ Hd), bool_decide_true by eauto.
    eapply recover_wp; [exact Hd|by eapply settled_durable| |].
    + intros Hg. apply (HE Hg). split; [done|]. right. eauto.
    + intros vs i' Hvs _ Hn Hother. split; [done|]. split; [done|]. split; intros k Hk0 Hs;
        (destruct (Hother (sstable_name k)) as [H1 H2]; [by destruct (sstable_name_other k 1 Hk0) as (_ & _ & ?)|]);
        rewrite ?H1, ?H2; auto.
Qed.

Lemma opened_hist d0 acked vs i : opened d0 acked vs i → hist_ok d0 (ci_durable i) acked.
Proof.
  intros (Hvs & Hn & _ & Hk). split; [done|]. right. exists (vs_recovery vs). rewrite <- Hn. apply Hvs.
Qed.

Lemma opened_small d0 acked vs i : opened d0 acked vs i → zlen acked < 2 ^ 29 → manifest_small vs i.
Proof.
  intros (Hvs & _) Hl file Hf. destruct (vo_manifest _ _ _ Hvs) as (file' & Hf' & _ & Hlog).
  assert (file' = file) as -> by congruence. apply manifest_log_len in Hlog. rewrite zlen_cons in Hlog. lia.
Qed.

Lemma tables_present_in d0 i edit :
  edit_wf edit → tables_in d0 edit → tables_kept d0 (ci_volatile i) → tables_kept d0 (ci_durable i) →
  tables_present i edit.
Proof.
  intros Hwf Hin Hv Hd. pose proof (ew_added _ Hwf) as Ha. unfold tables_in, tables_present in *.
  rewrite Forall_forall in *. intros a Hi. destruct (Ha a Hi) as (_ & [Hn _ _ _ _] & _). specialize (Hin a Hi).
  split; [apply Hv|apply Hd]; try done; lia.
Qed.

Lemma apply_edits_spec d0 edits vs acked s :
  opened d0 acked vs (fs_image s) → Forall edit_wf edits → Forall (tables_in d0) edits →
  zlen acked + zlen edits ≤ 2 ^ 29 →
  let '(more, s') := apply_edits vs edits s in
  hist_ok d0 (ci_durable (fs_image s')) (acked ++ more) ∧ zlen more ≤ zlen edits.
Proof.
  revert vs acked s. induction edits as [|edit edits IH]; intros vs acked s Hop Hwf Hin Hlen; cbn [apply_edits].
  { rewrite app_nil_r. split; [by eapply opened_hist|done]. }
  apply Forall_cons in Hwf as [Hwf Hwfs]. apply Forall_cons in Hin as [Hin Hins]. rewrite zlen_cons in Hlen.
  pose proof Hop as (Hvs & Hn & Htv & Htd). pose proof (zlen_nonneg edits) as Hz.
  pose proof (apply_spec vs edit s (initial_edit :: acked) d0 Hvs Hwf
    (tables_present_in _ _ _ Hwf Hin Htv Htd) (opened_small _ _ _ _ Hop ltac:(lia)) Htv Htd) as Ha.
  destruct (apply_with_visibility vs edit s) as [[[e|] vs'] s'].
  - destruct Ha as (Hd & _ & Hk). rewrite app_nil_r. split; [|rewrite zlen_cons; zlen_lia].
    split; [done|]. right. rewrite Hn in Hd. eauto.
  - destruct Ha as (Hvs' & Hn' & Htv' & Htd').
    specialize (IH vs' (acked ++ [edit]) s'). destruct (apply_edits vs' edits s') as [more s''].
    rewrite <- app_assoc in IH. cbn [app] in IH. rewrite !zlen_cons. destruct IH as [IH1 IH2]; [|done|done| |].
    + split; [done|]. split; [congruence|done].
    + rewrite zlen_app, zlen_cons. zlen_lia.
    + split; [done|lia].
Qed.

Lemma session_spec d0 d acked ss :
  hist_ok d0 d acked → Forall edit_wf (ss_edits ss) → Forall (tables_in d0) (ss_edits ss) →
  zlen acked + zlen (ss_edits ss) ≤ 2 ^ 29 →
  let '(d', acked') := run_session (d, acked) ss in
  hist_ok d0 d' acked' ∧ zlen acked' ≤ zlen acked + zlen (ss_edits ss).
Proof.
  intros Hh Hwf Hin Hlen. unfold run_session. cbn [fst snd].
  pose proof (open_wp true d0 d acked (λ i, hist_ok d0 (ci_durable i) acked) Hh ltac:(done)
    (FaultyFs_fail_at (ss_fail_at ss) d) eq_refl ltac:(done)) as Ho.
  destruct (open_versions false _) as [[vs|e] s]; [|split; [done|zlen_lia]].
  destruct Ho as [Ho _]. pose proof (apply_edits_spec d0 (ss_edits ss) vs acked s Ho Hwf Hin Hlen) as Ha.
  destruct (apply_edits vs _ s) as [more s']. rewrite zlen_app. destruct Ha. split; [done|lia].
Qed.

Definition total_edits (sessions : list Session) : Z := foldr (λ ss n, zlen (ss_edits ss) + n) 0 sessions.

Lemma sessions_spec d0 sessions d acked :
  hist_ok d0 d acked →
  Forall (λ ss, Forall (λ e, edit_wf e ∧ tables_in d0 e) (ss_edits ss)) sessions →
  zlen acked + total_edits sessions ≤ 2 ^ 29 →
  let '(d', acked') := foldl run_session (d, acked) sessions in hist_ok d0 d' acked'.
Proof.
  revert d acked. induction sessions as [|ss sessions IH]; intros d acked Hh Hall Hlen; cbn [foldl]; [done|].
  apply Forall_cons in Hall as [Hss Hall]. cbn [total_edits foldr] in Hlen. fold (total_edits sessions) in Hlen.
  assert (0 ≤ total_edits sessions) as Hpos.
  { clear. induction sessions; cbn; [done|]. fold (total_edits sessions). zlen_lia. }
  apply Forall_and in Hss as [Hwf Hin].
  pose proof (session_spec d0 d acked ss Hh Hwf Hin ltac:(lia)) as Hs.
  destruct (run_session (d, acked) ss) as [d' acked']. destruct Hs as [Hs Hl]. apply IH; [done|done|lia].
Qed.
End History.

(** ** What recovery accepts is what [apply] accepts *)

Section Accepts.
  Context `{C : Crc32c} {CR : Crc32cRange C}.

Lemma recover_edits_snoc_inv n es edit r r' :
  recover_edits n es = Ok r → recover_edits n (es ++ [edit]) = Ok r' →
  ∃ c v, update_counters edit (rc_counters r) false = Ok c ∧
    validate_file_numbers edit (cn_next_file_number c) (rc_used r) false = Ok tt ∧
    Version_apply (rc_version r) edit = Ok v ∧
    r' = {| rc_version := v; rc_counters := c; rc_used := added_numbers edit ∪ rc_used r |}.
Proof.
  unfold recover_edits. rewrite (bool_decide_false (es ++ [edit] = [])) by (by destruct es).
  destruct (bool_decide (es = [])); [done|]. rewrite try_fold_app.
  destruct (try_fold recover_edit _ es) as [r1|]; [|done].
  destruct (_ =? 0); [done|]. intros [= ->]. cbn [try_fold]. unfold recover_edit.
  destruct (update_counters _ _ true) as [c|] eqn:Hc; [|done].
  destruct (validate_file_numbers _ _ _ true) as [[]|] eqn:Hv; [|done].
  destruct (Version_apply _ _) as [v|] eqn:Ha; [|done]. cbn [map_err rc_counters].
  destruct (_ =? 0); [done|]. intros [= <-]. exists c, v.
  split; [by eapply update_counters_flag|]. split; [by eapply validate_file_numbers_flag|]. done.
Qed.

(** The history extended by the edit is one that recovery accepts, and the edit
    has a record. *)
Definition extends_to (n : Z) (es : list VersionEdit) (edit : VersionEdit) (r : Recovery) : Prop :=
  recover_edits n (es ++ [edit]) = Ok r ∧ ∃ L, encode_edit edit = Ok L.

(** What passed the checks. *)
Lemma prepare_checked vs edit s c v L s1 :
  prepare_apply vs edit s = (Ok (c, v, L), s1) →
  update_counters edit (vs_counters vs) false = Ok c ∧
  validate_file_numbers edit (cn_next_file_number c) (vs_used_file_numbers vs) false = Ok tt ∧
  Version_apply (vs_current vs) edit = Ok v ∧ encode_edit edit = Ok L.
Proof.
  unfold prepare_apply, fs_bind, fs_lift. destruct (update_counters _ _ _) as [c1|]; [|done].
  destruct (validate_file_numbers _ _ _ _) as [[]|] eqn:Hv; [|done].
  destruct (Version_apply _ _) as [v1|]; [|done]. destruct (encode_edit _) as [L1|]; [|done].
  destruct (fs_each _ _ _) as [[[]|] s2]; [|done]. intros [= -> -> -> _]. done.
Qed.

Lemma apply_checked vs edit s vs' s' :
  apply_with_visibility vs edit s = (None, vs', s') →
  ∃ c v L, update_counters edit (vs_counters vs) false = Ok c ∧
    validate_file_numbers edit (cn_next_file_number c) (vs_used_file_numbers vs) false = Ok tt ∧
    Version_apply (vs_current vs) edit = Ok v ∧ encode_edit edit = Ok L ∧
    vs_recovery vs' = {| rc_version := v; rc_counters := c;
                         rc_used := added_numbers edit ∪ vs_used_file_numbers vs |}.
Proof.
  unfold apply_with_visibility. destruct (negb _); [done|].
  destruct (prepare_apply vs edit s) as [[[[c v] L]|] s1] eqn:Hp; [|done].
  destruct (ManifestWriter_append _ _ _) as [[w|] s2]; [|done].
  destruct (ManifestWriter_sync _ _ _) as [[[]|] s3]; [|done]. intros [= <- <-].
  destruct (prepare_checked _ _ _ _ _ _ _ Hp) as (Hc & Hv & Ha & HL). by exists c, v, L.
Qed.

(** Without a fault, a refusal changes nothing. *)
Lemma apply_refused vs edit s es e vs' s' :
  vs_ok vs (fs_image s) es → edit_wf edit → tables_present (fs_image s) edit → fs_fail_at s = None →
  apply_with_visibility vs edit s = (Some e, vs', s') → vs' = vs.
Proof.
  intros Hvs Hwf Htab Hf Ha. destruct (prepare_apply vs edit s) as [[[[c v] L]|err] s1] eqn:Hp.
  - destruct (prepare_checked _ _ _ _ _ _ _ Hp) as (Hc & Hv & Hva & HL).
    destruct (apply_accepts vs edit s es c v L Hvs Hwf Htab Hf Hc Hv Hva HL) as (? & ? & Hok & _). congruence.
  - unfold apply_with_visibility in Ha. rewrite (vo_usable _ _ _ Hvs), Hp in Ha. by injection Ha.
Qed.
End Accepts.

(** ** Properties *)

(** [C17] Edits are atomic and durable across crashes.  Start from a directory
    without a database and run any sequence of sessions; each opens the version
    set (creating or recovering it) and applies edits, and in each any one
    file-system call may fail, which stops the machine and loses everything that
    was not synchronized.  Opening the directory afterwards succeeds and yields
    exactly the state built from the acknowledged edits, in order: no acknowledged
    edit is lost and no part of an unacknowledged one shows. *)
Theorem manifest_history_exact `{C : Crc32c} {CR : Crc32cRange C} (d : gmap name bytes)
    (sessions : list Session) :
  boot_empty d →
  Forall (λ ss, Forall (λ e, edit_wf e ∧ tables_in d e) (ss_edits ss)) sessions →
  total_edits sessions ≤ 2 ^ 29 →
  let '(d', acked) := run_sessions d sessions in
  ∃ vs s', open_versions false (FaultyFs_fail_at None d') = (Ok vs, s') ∧
    recover_edits 1 (initial_edit :: acked) = Ok (vs_recovery vs).
Proof.
  intros Hb Hall Hlen. unfold run_sessions.
  assert (hist_ok d d []) as Hh by (split; [by intros k|left; auto]).
  pose proof (sessions_spec d sessions d [] Hh Hall Hlen) as Hs.
  destruct (foldl run_session (d, []) sessions) as [d' acked].
  pose proof (open_wp false d d' acked (λ _, False) Hs ltac:(done) (FaultyFs_fail_at None d') eq_refl ltac:(done)) as Ho.
  destruct (open_versions _ _) as [[vs|e] s']; [|done]. exists vs, s'. split; [done|].
  destruct Ho as [(Hvs & Hn & _) _]. pose proof (do_edits _ _ _ _ (vo_durable _ _ _ Hvs)) as He. by rewrite Hn in He.
Qed.

(** An edit is acknowledged when recovery would accept it.  With no fault,
    [apply] succeeds exactly when the edit fits a record and the history extended
    by it is one that recovery accepts; it then holds the state recovery would
    build, and otherwise it leaves the version set as it was. *)
Theorem manifest_apply_exact `{C : Crc32c} {CR : Crc32cRange C} (vs : VersionSet) (edit : VersionEdit)
    (s : FaultState) (es : list VersionEdit) :
  vs_ok vs (fs_image s) es → edit_wf edit → tables_present (fs_image s) edit → fs_fail_at s = None →
  let '(o, vs', _) := apply_with_visibility vs edit s in
  match o with
  | None => extends_to (vs_manifest_number vs) es edit (vs_recovery vs')
  | Some _ => vs' = vs ∧ ∀ r, ¬ extends_to (vs_manifest_number vs) es edit r
  end.
Proof.
  intros Hvs Hwf Htab Hf. pose proof (do_edits _ _ _ _ (vo_durable _ _ _ Hvs)) as Hr.
  destruct (apply_with_visibility vs edit s) as [[[e|] vs'] s'] eqn:Ha.
  - split; [by eapply apply_refused|]. intros r [Hsnoc [L HL]].
    destruct (recover_edits_snoc_inv _ _ _ _ _ Hr Hsnoc) as (c & v & Hc & Hv & Hva & _).
    destruct (apply_accepts vs edit s es c v L Hvs Hwf Htab Hf Hc Hv Hva HL) as (? & ? & Hok & _). congruence.
  - destruct (apply_checked _ _ _ _ _ Ha) as (c & v & L & Hc & Hv & Hva & HL & ->). split; [|eauto].
    by apply (recover_edits_snoc _ _ _ _ _ _ false Hr).
Qed.

(** ** Witnesses *)

Definition sample_tables : gmap name bytes := {[sstable_name 5 := [1]; sstable_name 7 := [2]]}.

Definition sample_manifest_edit : VersionEdit := set_next_file_number sample_edit 8.

Definition sample_sessions : list Session :=
  [ {| ss_fail_at := Some 5; ss_edits := [sample_manifest_edit] |};
    {| ss_fail_at := Some 7; ss_edits := [sample_manifest_edit] |};
    {| ss_fail_at := None; ss_edits := [sample_manifest_edit] |} ].

Lemma sample_manifest_edit_wf : edit_wf sample_manifest_edit.
Proof.
  pose proof sample_edit_wf as Ha. split; try (cbn; unfold is_u64, U64_MAX; lia); try eval_done.
  repeat (apply Forall_cons in Ha as [? Ha] || (constructor; [split; [done|split; [done|eval_done]]|])).
  constructor.
Qed.

Lemma sample_tables_in : tables_in sample_tables sample_manifest_edit.
Proof. repeat constructor; eval_done. Qed.

(** Witness of C17. *)
Lemma manifest_history_exact_witness :
  let '(d', acked) := @run_sessions Castagnoli.crc sample_tables sample_sessions in
  ∃ vs s', @open_versions Castagnoli.crc false (FaultyFs_fail_at None d') = (Ok vs, s') ∧
    recover_edits 1 (initial_edit :: acked) = Ok (vs_recovery vs).
Proof.
  apply (@manifest_history_exact Castagnoli.crc castagnoli_range sample_tables sample_sessions).
  - by split; vm_compute.
  - assert (Forall (λ e, edit_wf e ∧ tables_in sample_tables e) [sample_manifest_edit]) as H.
    { constructor; [|constructor]. split; [apply sample_manifest_edit_wf|apply sample_tables_in]. }
    by repeat (constructor; [exact H|]).
  - eval_done.
Defined.

(** The sessions of the sample: interrupted while creating, then while applying. *)
Example sample_sessions_acked :
  (@run_sessions Castagnoli.crc sample_tables sample_sessions).2 = [sample_manifest_edit].
Proof. by vm_compute. Qed.

(** A freshly created database with the sample's tables. *)
Lemma sample_opened :
  ∃ vs s, @open_versions Castagnoli.crc false (FaultyFs_fail_at None sample_tables) = (Ok vs, s) ∧
    opened (C := Castagnoli.crc) sample_tables [] vs (fs_image s) ∧ fs_fail_at s = None.
Proof.
  assert (hist_ok (C := Castagnoli.crc) sample_tables sample_tables []) as Hh.
  { split; [by intros k|]. left. split; [done|]. left. by split; vm_compute. }
  pose proof (open_wp (C := Castagnoli.crc) false sample_tables sample_tables [] (λ _, False) Hh ltac:(done)
    (FaultyFs_fail_at None sample_tables) eq_refl ltac:(done)) as Ho.
  destruct (open_versions _ _) as [[vs|e] s]; [|done]. exists vs, s. destruct Ho as [Ho Hf]. auto.
Qed.

(** An instance. *)
Lemma manifest_apply_exact_witness :
  ∃ vs s, vs_ok (C := Castagnoli.crc) vs (fs_image s) [initial_edit] ∧
  let '(o, vs', _) := @apply_with_visibility Castagnoli.crc vs sample_manifest_edit s in
  match o with
  | None => extends_to (vs_manifest_number vs) [initial_edit] sample_manifest_edit (vs_recovery vs')
  | Some _ => vs' = vs ∧ ∀ r, ¬ extends_to (vs_manifest_number vs) [initial_edit] sample_manifest_edit r
  end.
Proof.
  destruct sample_opened as (vs & s & _ & (Hvs & _ & Hv & Hd) & Hf). exists vs, s. split; [exact Hvs|].
  apply (@manifest_apply_exact Castagnoli.crc castagnoli_range vs sample_manifest_edit s [initial_edit]).
  - exact Hvs.
  - apply sample_manifest_edit_wf.
  - exact (tables_present_in _ _ _ sample_manifest_edit_wf sample_tables_in Hv Hd).
  - exact Hf.
Defined.
