(* ===== verification/ManifestInspect.v ===== *)
(** * Inspecting a manifest (src/crates/meteordb/src/manifest.rs)

    [inspect_manifest_with_fs] replays the manifest without locking or changing any
    file and renders a bounded sample of its edits and live tables.  The theorems say
    that it accepts exactly the directories recovery opens without a repair, whose
    tables have their recorded lengths and whose history stays within the caller's
    limits, and that it reports the state recovery would publish. *)

From Stdlib Require Import ZArith Lia Sorting.Sorted.
From stdpp Require Import base list gmap strings.
From S2P Require Import Prelude Fs Checksum Framing InternalKey Version ManifestCodec Manifest ManifestLog ManifestSet.

Local Open Scope Z_scope.

(** ** Documents *)

Record ManifestFileInspection : Type := {
  mfi_level : Z;
  mfi_number : Z;
  mfi_file_size : Z;
  mfi_smallest_key_hex : bytes;
  mfi_largest_key_hex : bytes
}.

Record ManifestEditInspection : Type := {
  mei_index : Z;
  mei_added_files : list ManifestFileInspection;
  mei_added_files_total : Z;
  mei_added_files_truncated : bool;
  mei_deleted_files : list (Z * Z);
  mei_deleted_files_total : Z;
  mei_deleted_files_truncated : bool;
  mei_next_file_number : option Z;
  mei_last_sequence : option Z;
  mei_log_number : option Z;
  mei_active_log_number : option Z;
  mei_wal_sequence : option Z
}.

Record ManifestInspection : Type := {
  mi_format_version : Z;
  mi_manifest : bytes;
  mi_file_bytes : Z;
  mi_edits : list ManifestEditInspection;
  mi_edits_total : Z;
  mi_edits_truncated : bool;
  mi_levels : list (list ManifestFileInspection);
  mi_files_total : Z;
  mi_level_file_counts : list Z;
  mi_files_truncated : bool;
  mi_next_file_number : Z;
  mi_last_sequence : Z;
  mi_log_number : Z;
  mi_active_log_number : Z;
  mi_wal_sequence : Z
}.

Record ManifestInspectionOptions : Type := {
  mo_max_edits : Z;
  mo_max_files : Z;
  mo_max_bytes : Z;
  mo_max_historical_files : Z
}.

Definition ManifestInspectionOptions_default : ManifestInspectionOptions :=
  {| mo_max_edits := USIZE_MAX; mo_max_files := USIZE_MAX; mo_max_bytes := USIZE_MAX;
     mo_max_historical_files := USIZE_MAX |}.

(** [0..NUM_LEVELS] *)
Definition inspected_levels : list Z := [0; 1; 2; 3; 4; 5; 6].

(** A subtraction of [usize] values that overflows panics. *)
Definition usize_sub (a b : Z) : result Z :=
  ok_or (checked_sub a b) (Panicked "attempt to subtract with overflow").

(** ** Rendering *)

(** [{:x}] of a number below 16, and [{byte:02x}]. *)
Definition hex_digit (n : Z) : Z := if n <? 10 then 48 + n else 87 + n.
Definition hex_byte (byte : Z) : bytes := [hex_digit (byte / 16); hex_digit (byte mod 16)].

Fixpoint encode_hex (b : bytes) : bytes :=
  match b with
  | [] => []
  | byte :: b => hex_byte byte ++ encode_hex b
  end.

Definition manifest_file_key_bytes (file : FileMeta) : Z :=
  saturating_add (zlen (ik_encoded (fm_smallest file))) (zlen (ik_encoded (fm_largest file))).

Definition inspect_file (level : Z) (file : FileMeta) : ManifestFileInspection :=
  {| mfi_level := level; mfi_number := fm_number file; mfi_file_size := fm_file_size file;
     mfi_smallest_key_hex := encode_hex (ik_encoded (fm_smallest file));
     mfi_largest_key_hex := encode_hex (ik_encoded (fm_largest file)) |}.

(** [retained_bytes.checked_add(key_bytes).is_some_and(|total| total <= max_bytes)] *)
Definition bytes_fit (retained_bytes key_bytes max_bytes : Z) : bool :=
  match checked_add retained_bytes key_bytes with
  | Some total => total <=? max_bytes
  | None => false
  end.

(** [for (level, file) in edit.added_files.iter().take(available_files)] *)
Fixpoint inspect_added (available_files max_bytes : Z) (files : list (Z * FileMeta)) (retained_bytes : Z)
    : list ManifestFileInspection * Z :=
  match files with
  | [] => ([], retained_bytes)
  | (level, file) :: files =>
    if available_files =? 0 then ([], retained_bytes)
    else
      let key_bytes := manifest_file_key_bytes file in
      if negb (bytes_fit retained_bytes key_bytes max_bytes) then ([], retained_bytes)
      else
        let '(added_files, retained_bytes) :=
          inspect_added (available_files - 1) max_bytes files (retained_bytes + key_bytes) in
        (inspect_file level file :: added_files, retained_bytes)
  end.

Definition inspect_edit (index : Z) (edit : VersionEdit) (available_files retained_files max_bytes retained_bytes : Z)
    : ManifestEditInspection * Z * Z :=
  let '(added_files, retained_bytes) :=
    inspect_added available_files max_bytes (ve_added_files edit) retained_bytes in
  let retained_added := zlen added_files in
  let remaining := available_files - retained_added in
  let retained_deleted := Z.min (zlen (ve_deleted_files edit)) remaining in
  let retained_files := retained_files + (retained_added + retained_deleted) in
  ({| mei_index := index;
      mei_added_files := added_files;
      mei_added_files_total := zlen (ve_added_files edit);
      mei_added_files_truncated := retained_added <? zlen (ve_added_files edit);
      mei_deleted_files := take (Z.to_nat retained_deleted) (ve_deleted_files edit);
      mei_deleted_files_total := zlen (ve_deleted_files edit);
      mei_deleted_files_truncated := retained_deleted <? zlen (ve_deleted_files edit);
      mei_next_file_number := ve_next_file_number edit;
      mei_last_sequence := ve_last_sequence edit;
      mei_log_number := ve_log_number edit;
      mei_active_log_number := ve_active_log_number edit;
      mei_wal_sequence := ve_wal_sequence edit |}, retained_files, retained_bytes).

(** ** Limits *)

Definition insert_historical_file_number (used_file_numbers : gset Z) (number maximum : Z) : result (gset Z) :=
  if bool_decide (number ∈ used_file_numbers) then Ok used_file_numbers
  else if Z.of_nat (size used_file_numbers) =? maximum then
    Err (InvalidArgument "historical file number count exceeds max_historical_files")
  else Ok ({[number]} ∪ used_file_numbers).

Section Inspect.
  Context (options : ManifestInspectionOptions).

(** The body of the inner loop of [validate_inspection_state_limits]. *)
Definition limit_file (counts : Z * Z) (file : FileMeta) : result (Z * Z) :=
  let '(files, key_bytes) := counts in
  let? files := ok_or (checked_add files 1) (InvalidArgument "live SSTable count exceeds usize") in
  if mo_max_files options <? files then Err (InvalidArgument "live SSTable count exceeds max_files")
  else
    let? key_bytes := ok_or (checked_add key_bytes (manifest_file_key_bytes file))
      (InvalidArgument "live SSTable key bytes exceed usize") in
    if mo_max_bytes options <? key_bytes then Err (InvalidArgument "live SSTable key bytes exceed max_bytes")
    else Ok (files, key_bytes).

Definition validate_inspection_state_limits (version : Version) : result unit :=
  let? _ := try_fold (λ counts level, let? files := Version_files version level in try_fold limit_file counts files)
    (0, 0) inspected_levels in
  Ok tt.

(** ** The replay *)

(** The variables the callback of [inspect_manifest_with_fs] captures. *)
Record Inspecting : Type := {
  in_recovery : Recovery;
  in_edits : list ManifestEditInspection;
  in_edits_total : Z;
  in_retained_files : Z;
  in_retained_bytes : Z
}.

Definition on_inspected_edit (st : Inspecting) (edit : VersionEdit) : result Inspecting :=
  let r := in_recovery st in
  let index := in_edits_total st in
  let? counters := update_counters edit (rc_counters r) true in
  let? _ := validate_file_numbers edit (cn_next_file_number counters) (rc_used r) true in
  let? version := map_err recovery_edit_error (Version_apply (rc_version r) edit) in
  let? _ := validate_inspection_state_limits version in
  let? used := try_fold (λ used (a : Z * FileMeta),
    insert_historical_file_number used (fm_number a.2) (mo_max_historical_files options))
    (rc_used r) (ve_added_files edit) in
  let? (edits, retained_files, retained_bytes) :=
    (if zlen (in_edits st) <? mo_max_edits options then
       let? available_files := usize_sub (mo_max_files options) (in_retained_files st) in
       let '(inspection, retained_files, retained_bytes) :=
         inspect_edit index edit available_files (in_retained_files st) (mo_max_bytes options) (in_retained_bytes st) in
       Ok (in_edits st ++ [inspection], retained_files, retained_bytes)
     else Ok (in_edits st, in_retained_files st, in_retained_bytes st)) in
  let? edits_total := ok_or (checked_add (in_edits_total st) 1) (manifest_corruption "manifest edit count exceeds usize") in
  Ok {| in_recovery := {| rc_version := version; rc_counters := counters; rc_used := used |};
        in_edits := edits; in_edits_total := edits_total;
        in_retained_files := retained_files; in_retained_bytes := retained_bytes |}.

(** ** The live tables *)

(** Loops of the file-system monad that carry a value. *)
Fixpoint fs_fold {A B} (f : B → A → FS B) (b : B) (l : list A) : FS B :=
  match l with
  | [] => fs_ret b
  | a :: l => let! b := f b a in fs_fold f b l
  end.

(** [for file in version.files(level)]: the files shown, and what has been retained. *)
Definition inspect_live_file (level : Z) (st : list ManifestFileInspection * Z * Z) (file : FileMeta)
    : FS (list ManifestFileInspection * Z * Z) :=
  let '(files, retained_files, retained_bytes) := st in
  let! table := fs_map_err (io_error "stat referenced SSTable") (read_file (sstable_name (fm_number file))) in
  if negb (zlen table =? fm_file_size file) then
    fs_fail (manifest_corruption "referenced SSTable has another length than expected")
  else
    fs_ret
      (if retained_files <? mo_max_files options then
         let key_bytes := manifest_file_key_bytes file in
         if bytes_fit retained_bytes key_bytes (mo_max_bytes options) then
           (files ++ [inspect_file level file], retained_files + 1, retained_bytes + key_bytes)
         else (files, retained_files, retained_bytes)
       else (files, retained_files, retained_bytes)).

(** The variables of the loop over the levels. *)
Record LiveLevels : Type := {
  ll_levels : list (list ManifestFileInspection);
  ll_level_file_counts : list Z;
  ll_files_total : Z;
  ll_retained_files : Z;
  ll_retained_bytes : Z
}.

Definition inspect_level (version : Version) (st : LiveLevels) (level : Z) : FS LiveLevels :=
  let! files := fs_lift (Version_files version level) in
  let level_count := zlen files in
  let! files_total := fs_lift (ok_or (checked_add (ll_files_total st) level_count)
    (manifest_corruption "live SSTable count exceeds usize")) in
  let! _ := fs_lift (usize_sub (mo_max_files options) (ll_retained_files st)) in
  let! (shown, retained_files, retained_bytes) :=
    fs_fold (inspect_live_file level) ([], ll_retained_files st, ll_retained_bytes st) files in
  fs_ret {| ll_levels := ll_levels st ++ [shown];
            ll_level_file_counts := ll_level_file_counts st ++ [level_count];
            ll_files_total := files_total;
            ll_retained_files := retained_files;
            ll_retained_bytes := retained_bytes |}.

(** The initial values. *)
Definition inspecting_start (recovery : Recovery) : Inspecting :=
  {| in_recovery := recovery; in_edits := []; in_edits_total := 0; in_retained_files := 0; in_retained_bytes := 0 |}.

Definition live_start (st : Inspecting) : LiveLevels :=
  {| ll_levels := []; ll_level_file_counts := []; ll_files_total := 0;
     ll_retained_files := in_retained_files st; ll_retained_bytes := in_retained_bytes st |}.

(** The part of [inspect_manifest_with_fs] behind its checks of the replay. *)
Definition finish_inspection (manifest_name file : bytes) (st : Inspecting) : FS ManifestInspection :=
  let counters := rc_counters (in_recovery st) in
  let! live := fs_fold (inspect_level (rc_version (in_recovery st))) (live_start st) inspected_levels in
  let retained_live_files := foldr Z.add 0 (map zlen (ll_levels live)) in
  fs_ret {| mi_format_version := 1;
            mi_manifest := manifest_name;
            mi_file_bytes := zlen file;
            mi_edits := in_edits st;
            mi_edits_total := in_edits_total st;
            mi_edits_truncated := mo_max_edits options <? in_edits_total st;
            mi_levels := ll_levels live;
            mi_files_total := ll_files_total live;
            mi_level_file_counts := ll_level_file_counts live;
            mi_files_truncated := retained_live_files <? ll_files_total live;
            mi_next_file_number := cn_next_file_number counters;
            mi_last_sequence := cn_last_sequence counters;
            mi_log_number := cn_log_number counters;
            mi_active_log_number := cn_active_log_number counters;
            mi_wal_sequence := cn_wal_sequence counters |}.

(** The part behind the replay. *)
Definition check_inspection (manifest_name file : bytes) (st : Inspecting) (valid_bytes : Z) : FS ManifestInspection :=
  if negb (valid_bytes =? zlen file) then fs_fail (manifest_corruption "manifest has a torn tail")
  else if in_edits_total st =? 0 then fs_fail (manifest_corruption "manifest contains no complete initial edit")
  else if cn_next_file_number (rc_counters (in_recovery st)) =? 0 then
    fs_fail (manifest_corruption "manifest never records the next file number")
  else finish_inspection manifest_name file st.

Definition inspect_manifest_with_fs `{C : Crc32c} : FS ManifestInspection :=
  if mo_max_edits options =? 0 then fs_fail (InvalidArgument "max_edits must be greater than zero")
  else if mo_max_files options =? 0 then fs_fail (InvalidArgument "max_files must be greater than zero")
  else if mo_max_bytes options =? 0 then fs_fail (InvalidArgument "max_bytes must be greater than zero")
  else if mo_max_historical_files options =? 0 then
    fs_fail (InvalidArgument "max_historical_files must be greater than zero")
  else
    let! current := fs_map_err (io_error "read CURRENT") (read_file CURRENT) in
    let! manifest_name := fs_lift (parse_current current) in
    let! manifest_number := fs_lift (parse_manifest_number manifest_name) in
    let! used := fs_lift (insert_historical_file_number ∅ manifest_number (mo_max_historical_files options)) in
    let! file := fs_map_err (io_error "open manifest") (read_file manifest_name) in
    let! (st, valid_bytes) := fs_lift (replay_manifest_stream on_inspected_edit file
      (inspecting_start {| rc_version := Version_empty; rc_counters := counters_zero; rc_used := used |})) in
    check_inspection manifest_name file st valid_bytes.
End Inspect.

Definition inspect_manifest `{C : Crc32c} : FS ManifestInspection :=
  inspect_manifest_with_fs ManifestInspectionOptions_default.

(** ** What an inspection shows

    A cut [(added, deleted)] says how many of an edit's added and deleted files are
    shown. *)

Definition key_total (files : list FileMeta) : Z := foldr Z.add 0 (map manifest_file_key_bytes files).

Definition shown_edit (index : nat) (shown : VersionEdit * (nat * nat)) : ManifestEditInspection :=
  let '(edit, (added, deleted)) := shown in
  {| mei_index := Z.of_nat index;
     mei_added_files := map (λ a, inspect_file a.1 a.2) (take added (ve_added_files edit));
     mei_added_files_total := zlen (ve_added_files edit);
     mei_added_files_truncated := bool_decide (added < length (ve_added_files edit))%nat;
     mei_deleted_files := take deleted (ve_deleted_files edit);
     mei_deleted_files_total := zlen (ve_deleted_files edit);
     mei_deleted_files_truncated := bool_decide (deleted < length (ve_deleted_files edit))%nat;
     mei_next_file_number := ve_next_file_number edit;
     mei_last_sequence := ve_last_sequence edit;
     mei_log_number := ve_log_number edit;
     mei_active_log_number := ve_active_log_number edit;
     mei_wal_sequence := ve_wal_sequence edit |}.

Definition cut_files (shown : VersionEdit * (nat * nat)) : Z := Z.of_nat shown.2.1 + Z.of_nat shown.2.2.
Definition cut_bytes (shown : VersionEdit * (nat * nat)) : Z := key_total (map snd (take shown.2.1 (ve_added_files shown.1))).
Definition full_cut (edit : VersionEdit) : nat * nat := (length (ve_added_files edit), length (ve_deleted_files edit)).
Definition cut_ok (shown : VersionEdit * (nat * nat)) : Prop :=
  (shown.2.1 ≤ length (ve_added_files shown.1))%nat ∧ (shown.2.2 ≤ length (ve_deleted_files shown.1))%nat.

Definition sum_of {A} (f : A → Z) (l : list A) : Z := foldr Z.add 0 (map f l).

(** What the whole history and a version would take. *)
Definition history_files (es : list VersionEdit) : Z := sum_of (λ e, cut_files (e, full_cut e)) es.
Definition history_bytes (es : list VersionEdit) : Z := sum_of (λ e, cut_bytes (e, full_cut e)) es.

Record options_wf (o : ManifestInspectionOptions) : Prop := {
  ow_edits : 0 ≤ mo_max_edits o ≤ USIZE_MAX;
  ow_files : 0 ≤ mo_max_files o ≤ USIZE_MAX;
  ow_bytes : 0 ≤ mo_max_bytes o ≤ USIZE_MAX;
  ow_historical : 0 ≤ mo_max_historical_files o ≤ USIZE_MAX
}.

Definition within (o : ManifestInspectionOptions) (r : Recovery) : Prop :=
  zlen (concat (rc_version r)) ≤ mo_max_files o ∧ key_total (concat (rc_version r)) ≤ mo_max_bytes o ∧
  Z.of_nat (size (rc_used r)) ≤ mo_max_historical_files o.

Definition options_positive (o : ManifestInspectionOptions) : Prop :=
  0 < mo_max_edits o ∧ 0 < mo_max_files o ∧ 0 < mo_max_bytes o ∧ 0 < mo_max_historical_files o.

(** Limits are positive and hold of every state of the history. *)
Definition admitted (o : ManifestInspectionOptions) (n : Z) (es : list VersionEdit) : Prop :=
  options_positive o ∧ zlen es ≤ USIZE_MAX ∧
  ∀ k r, try_fold recover_edit (recovery_start n) (take k es) = Ok r → within o r.

(** Every live table is there with its recorded length. *)
Definition sized (s : FaultState) (v : Version) : Prop :=
  Forall (λ f, ∃ table, ci_volatile (fs_image s) !! sstable_name (fm_number f) = Some table ∧
                        zlen table = fm_file_size f) (concat v).

(** Recovery opens the directory without a repair, from the edits of its manifest. *)
Definition opens `{C : Crc32c} (s : FaultState) (vs : VersionSet) (file : bytes) (es : list VersionEdit) : Prop :=
  recover_with_fs false s = (Ok vs, s) ∧
  ci_volatile (fs_image s) !! mw_path (vs_manifest vs) = Some file ∧
  replay_manifest file = Ok {| mr_edits := es; mr_valid_bytes := zlen file; mr_file_length := zlen file |}.

(** The document describes the version set and the edits, within the limits, and
    leaves nothing out that fits. *)
Record describes (o : ManifestInspectionOptions) (i : ManifestInspection) (vs : VersionSet) (file : bytes)
    (es : list VersionEdit) (cuts : list (nat * nat)) (live : Version) : Prop := {
  ds_format : mi_format_version i = 1;
  ds_manifest : mi_manifest i = mw_path (vs_manifest vs);
  ds_file_bytes : mi_file_bytes i = zlen file;
  ds_edits : mi_edits i = imap shown_edit (zip es cuts);
  ds_cuts : Z.of_nat (length cuts) = Z.min (zlen es) (mo_max_edits o);
  ds_cuts_ok : Forall cut_ok (zip es cuts);
  ds_total : mi_edits_total i = zlen es;
  ds_truncated : mi_edits_truncated i = true ↔ zlen (mi_edits i) < mi_edits_total i;
  ds_levels : mi_levels i = imap (λ level files, map (inspect_file (Z.of_nat level)) files) live;
  ds_live : Forall2 sublist live (vs_current vs);
  ds_counts : mi_level_file_counts i = map zlen (vs_current vs);
  ds_files_total : mi_files_total i = zlen (concat (vs_current vs));
  ds_files_truncated : mi_files_truncated i = true ↔ live ≠ vs_current vs;
  ds_counters : {| cn_next_file_number := mi_next_file_number i; cn_last_sequence := mi_last_sequence i;
                   cn_log_number := mi_log_number i; cn_active_log_number := mi_active_log_number i;
                   cn_wal_sequence := mi_wal_sequence i |} = vs_counters vs;
  ds_max_files : sum_of cut_files (zip es cuts) + zlen (concat live) ≤ mo_max_files o;
  ds_max_bytes : sum_of cut_bytes (zip es cuts) + key_total (concat live) ≤ mo_max_bytes o;
  ds_complete :
    zlen es ≤ mo_max_edits o →
    history_files es + zlen (concat (vs_current vs)) ≤ mo_max_files o →
    history_bytes es + key_total (concat (vs_current vs)) ≤ mo_max_bytes o →
    cuts = map full_cut es ∧ live = vs_current vs
}.

(** ** Lemmas *)

Lemma sum_of_app {A} (f : A → Z) l k : sum_of f (l ++ k) = sum_of f l + sum_of f k.
Proof. unfold sum_of. induction l; cbn; lia. Qed.

Lemma sum_of_snoc {A} (f : A → Z) l a : sum_of f (l ++ [a]) = sum_of f l + f a.
Proof. rewrite sum_of_app. unfold sum_of at 2. cbn. lia. Qed.

Lemma sum_of_nonneg {A} (f : A → Z) l : (∀ a, 0 ≤ f a) → 0 ≤ sum_of f l.
Proof. intros H. unfold sum_of. induction l as [|a l IH]; cbn; [lia|]. specialize (H a). lia. Qed.

Lemma key_bytes_nonneg f : 0 ≤ manifest_file_key_bytes f.
Proof. unfold manifest_file_key_bytes, saturating_add, USIZE_MAX, U64_MAX. zlen_pos. lia. Qed.

Lemma key_total_app l k : key_total (l ++ k) = key_total l + key_total k.
Proof. apply sum_of_app. Qed.

Lemma key_total_nonneg l : 0 ≤ key_total l.
Proof. apply (sum_of_nonneg _ _ key_bytes_nonneg). Qed.

Lemma cut_files_nonneg c : 0 ≤ cut_files c.
Proof. unfold cut_files. lia. Qed.
Lemma cut_bytes_nonneg c : 0 ≤ cut_bytes c.
Proof. apply key_total_nonneg. Qed.

Lemma bytes_fit_spec rb kb max : max ≤ USIZE_MAX → bytes_fit rb kb max = bool_decide (rb + kb ≤ max).
Proof.
  intros Hm. unfold bytes_fit, checked_add. destruct (Z.leb_spec (rb + kb) USIZE_MAX).
  - destruct (Z.leb_spec (rb + kb) max); by case_bool_decide; try lia.
  - case_bool_decide; [lia|done].
Qed.

Lemma inspect_added_spec available max files rb :
  max ≤ USIZE_MAX → 0 ≤ available → rb ≤ max →
  ∃ n, inspect_added available max files rb =
      (map (λ a, inspect_file a.1 a.2) (take n files), rb + key_total (map snd (take n files))) ∧
    (n ≤ length files)%nat ∧ Z.of_nat n ≤ available ∧ rb + key_total (map snd (take n files)) ≤ max ∧
    (zlen files ≤ available → rb + key_total (map snd files) ≤ max → n = length files).
Proof.
  intros Hm. revert available rb. induction files as [|[level f] files IH]; intros available rb Ha Hrb.
  { exists 0%nat. unfold key_total. cbn. rewrite Z.add_0_r. repeat split; lia. }
  cbn [inspect_added].
  assert (∀ P : Prop, P → available = 0 ∨ max < rb + manifest_file_key_bytes f → ∃ n, (P ∧ n = 0%nat) ∧ (n ≤ length ((level, f) :: files))%nat ∧
    Z.of_nat n ≤ available ∧ rb + key_total (map snd (take n ((level, f) :: files))) ≤ max ∧
    (zlen ((level, f) :: files) ≤ available → rb + key_total (map snd ((level, f) :: files)) ≤ max → n = length ((level, f) :: files))) as Hstop.
  { intros P HP Hstop. exists 0%nat. unfold key_total at 1. cbn [take map foldr]. do 2 (split; [auto with lia|]). split; [lia|]. split; [lia|].
    rewrite zlen_cons. pose proof (zlen_nonneg files). cbn [map snd]. change (key_total (f :: map snd files)) with (manifest_file_key_bytes f + key_total (map snd files)).
    pose proof (key_total_nonneg (map snd files)). lia. }
  destruct (Z.eqb_spec available 0) as [->|Hav].
  { destruct (Hstop True I ltac:(by left)) as (n & [_ ->] & H). exists 0%nat. split; [unfold key_total; cbn; f_equal; lia|done]. }
  rewrite bytes_fit_spec by done. case_bool_decide as Hf; cbn [negb].
  2:{ destruct (Hstop True I ltac:(right; lia)) as (n & [_ ->] & H). exists 0%nat. split; [unfold key_total; cbn; f_equal; lia|done]. }
  destruct (IH (available - 1) (rb + manifest_file_key_bytes f) ltac:(lia) Hf) as (n & -> & Hn & Hna & Hmax & Hall).
  exists (S n). cbn [take map snd length].
  change (key_total (f :: ?l)) with (manifest_file_key_bytes f + key_total l).
  split; [f_equal; lia|]. split; [lia|]. split; [lia|]. split; [lia|]. rewrite zlen_cons. intros H1 H2. f_equal. apply Hall; lia.
Qed.

Lemma inspect_edit_spec (i : nat) e available rf max rb :
  max ≤ USIZE_MAX → 0 ≤ available → rb ≤ max →
  ∃ c, inspect_edit (Z.of_nat i) e available rf max rb =
      (shown_edit i (e, c), rf + cut_files (e, c), rb + cut_bytes (e, c)) ∧
    cut_ok (e, c) ∧ cut_files (e, c) ≤ available ∧ rb + cut_bytes (e, c) ≤ max ∧
    (cut_files (e, full_cut e) ≤ available → rb + cut_bytes (e, full_cut e) ≤ max → c = full_cut e).
Proof.
  intros Hm Ha Hrb. destruct (inspect_added_spec available max (ve_added_files e) rb Hm Ha Hrb) as (na & Hadd & Hna & Hav & Hmax & Hall).
  set (nd := Z.to_nat (Z.min (zlen (ve_deleted_files e)) (available - Z.of_nat na))).
  pose proof (zlen_nonneg (ve_deleted_files e)) as Hd0.
  assert (zlen (map (λ a, inspect_file a.1 a.2) (take na (ve_added_files e))) = Z.of_nat na) as Hz.
  { unfold zlen. rewrite length_map, length_take. lia. }
  assert (Z.of_nat nd = Z.min (zlen (ve_deleted_files e)) (available - Z.of_nat na)) as Hnd by (unfold nd; lia).
  exists (na, nd). unfold inspect_edit. rewrite Hadd, Hz. cbn [fst snd cut_files cut_bytes].
  split; [|split; [|split; [|split]]].
  - assert (∀ a b : nat, bool_decide (a < b)%nat = (Z.of_nat a <? Z.of_nat b)) as Hlt.
    { intros a b. case_bool_decide; destruct (Z.ltb_spec (Z.of_nat a) (Z.of_nat b)); (done || lia). }
    unfold cut_files, cut_bytes, shown_edit. cbn [fst snd]. by rewrite !Hlt, <- Hnd, Nat2Z.id.
  - unfold cut_ok. cbn. unfold zlen in Hnd. lia.
  - unfold cut_files. cbn. lia.
  - done.
  - unfold cut_files, cut_bytes, full_cut. cbn [fst snd]. rewrite take_ge by done. intros H1 H2. unfold zlen in *.
    assert (na = length (ve_added_files e)) as -> by (apply Hall; lia). f_equal. lia.
Qed.

(** The historical numbers. *)
Lemma insert_historical_spec used n max :
  Z.of_nat (size used) ≤ max → ∀ u, insert_historical_file_number used n max = Ok u ↔
  u = {[n]} ∪ used ∧ Z.of_nat (size u) ≤ max.
Proof.
  intros Hs u. unfold insert_historical_file_number. case_bool_decide as Hin.
  - replace ({[n]} ∪ used) with used by set_solver. split; [by intros [= <-]|by intros [-> _]].
  - assert (size ({[n]} ∪ used) = S (size used)) as Hsz by (rewrite size_union, size_singleton by set_solver; lia).
    destruct (Z.eqb_spec (Z.of_nat (size used)) max).
    + split; [done|]. intros [-> Hu]. lia.
    + split; [intros [= <-]; split; [done|lia]|by intros [-> _]].
Qed.

Lemma union_swap (X Y U : gset Z) : X ∪ (Y ∪ U) = Y ∪ X ∪ U ∧ Y ∪ U ⊆ Y ∪ X ∪ U.
Proof. split; set_solver. Qed.

Lemma insert_historical_fold (files : list (Z * FileMeta)) max used u :
  Z.of_nat (size used) ≤ max →
  try_fold (λ used (a : Z * FileMeta), insert_historical_file_number used (fm_number a.2) max) used files = Ok u ↔
  u = list_to_set (map (λ a, fm_number a.2) files) ∪ used ∧ Z.of_nat (size u) ≤ max.
Proof.
  revert used. induction files as [|a files IH]; intros used Hs; cbn [try_fold map list_to_set].
  { replace (∅ ∪ used) with used by set_solver. split; [by intros [= <-]|by intros [-> _]]. }
  destruct (insert_historical_file_number used (fm_number a.2) max) as [u1|] eqn:E.
  - apply insert_historical_spec in E as [-> Hs1]; [|done]. rewrite IH by done.
    by rewrite (proj1 (union_swap _ _ _)).
  - split; [done|]. intros [-> Hu].
    assert (size ({[fm_number a.2]} ∪ used) ≤ size ({[fm_number a.2]} ∪ list_to_set (map (λ a, fm_number a.2) files) ∪ used))%nat
      by (apply subseteq_size, (union_swap _ _ _)).
    destruct (insert_historical_spec used (fm_number a.2) max Hs ({[fm_number a.2]} ∪ used)) as [_ Hback].
    rewrite E in Hback. discriminate Hback. split; [done|lia].
Qed.

(** The levels a loop visits. *)
Lemma Version_files_at (pre : Version) l v : Version_files (pre ++ l :: v) (Z.of_nat (length pre)) = Ok l.
Proof.
  unfold Version_files, index_or_panic, get_at. rewrite (proj2 (Z.ltb_ge _ 0)) by lia.
  by rewrite Nat2Z.id, list_lookup_middle.
Qed.

Lemma inspected_levels_of v : seven_levels v → inspected_levels = map Z.of_nat (seq 0 (length v)).
Proof. unfold seven_levels. by intros ->. Qed.

(** The live-state limits. *)
Section Limits.
  Context (o : ManifestInspectionOptions) (Ho : options_wf o).

Lemma limit_fold files n k p :
  n ≤ mo_max_files o → k ≤ mo_max_bytes o →
  try_fold (limit_file o) (n, k) files = Ok p ↔
  p = (n + zlen files, k + key_total files) ∧ n + zlen files ≤ mo_max_files o ∧ k + key_total files ≤ mo_max_bytes o.
Proof using Ho.
  destruct Ho as [_ Hf Hb _]. revert n k. induction files as [|f files IH]; intros n k Hn Hk; cbn [try_fold].
  { unfold zlen, key_total. cbn. rewrite !Z.add_0_r. split; [intros [= <-]; auto|by intros [-> _]]. }
  rewrite zlen_cons. change (key_total (f :: files)) with (manifest_file_key_bytes f + key_total files).
  pose proof (zlen_nonneg files). pose proof (key_total_nonneg files).
  unfold limit_file at 1, checked_add.
  destruct (Z.leb_spec (n + 1) USIZE_MAX); cbn [ok_or]; [|split; [done|lia]].
  destruct (Z.ltb_spec (mo_max_files o) (n + 1)); [split; [done|lia]|].
  destruct (Z.leb_spec (k + manifest_file_key_bytes f) USIZE_MAX); cbn [ok_or]; [|split; [done|lia]].
  destruct (Z.ltb_spec (mo_max_bytes o) (k + manifest_file_key_bytes f)); [split; [done|lia]|].
  rewrite IH by done. split; (intros [-> ?]; split; [f_equal; lia|lia]).
Qed.

Lemma limit_levels_from pre v acc :
  try_fold (λ counts level, let? files := Version_files (pre ++ v) level in try_fold (limit_file o) counts files) acc
    (map Z.of_nat (seq (length pre) (length v))) = try_fold (limit_file o) acc (concat v).
Proof using.
  revert pre acc. induction v as [|l v IH]; intros pre acc; cbn [length seq map try_fold concat]; [done|].
  rewrite Version_files_at, try_fold_app. destruct (try_fold (limit_file o) acc l) as [acc'|]; [|done].
  specialize (IH (pre ++ [l]) acc'). rewrite <- app_assoc, length_app in IH. cbn in IH.
  by rewrite Nat.add_1_r in IH.
Qed.

Lemma validate_limits_spec v :
  seven_levels v →
  validate_inspection_state_limits o v = Ok tt ↔ zlen (concat v) ≤ mo_max_files o ∧ key_total (concat v) ≤ mo_max_bytes o.
Proof using Ho.
  intros Hv. unfold validate_inspection_state_limits. rewrite (inspected_levels_of v Hv).
  rewrite (limit_levels_from [] v).
  destruct (limit_fold (concat v) 0 0 (0 + zlen (concat v), 0 + key_total (concat v))) as [H1 H2]; [apply Ho..|].
  destruct (try_fold _ _ _) as [p|] eqn:E.
  - apply limit_fold in E as [-> H]; [|apply Ho..]. split; [intros _; lia|done].
  - split; [done|]. intros [Ha Hb]. discriminate H2. split; [done|lia].
Qed.
End Limits.

(** ** The replay *)

Section Replay.
  Context (o : ManifestInspectionOptions) (Ho : options_wf o) (n : Z).

(** After the edits [es]. *)
Record ins_inv (es : list VersionEdit) (cuts : list (nat * nat)) (st : Inspecting) : Prop := {
  ii_recovery : try_fold recover_edit (recovery_start n) es = Ok (in_recovery st);
  ii_seven : seven_levels (rc_version (in_recovery st));
  ii_within : ∀ k r, try_fold recover_edit (recovery_start n) (take k es) = Ok r → within o r;
  ii_total : in_edits_total st = zlen es;
  ii_usize : zlen es ≤ USIZE_MAX;
  ii_edits : in_edits st = imap shown_edit (zip es cuts);
  ii_cuts : Z.of_nat (length cuts) = Z.min (zlen es) (mo_max_edits o);
  ii_cuts_ok : Forall cut_ok (zip es cuts);
  ii_files : in_retained_files st = sum_of cut_files (zip es cuts);
  ii_bytes : in_retained_bytes st = sum_of cut_bytes (zip es cuts);
  ii_max_files : in_retained_files st ≤ mo_max_files o;
  ii_max_bytes : in_retained_bytes st ≤ mo_max_bytes o;
  ii_complete : zlen es ≤ mo_max_edits o → history_files es ≤ mo_max_files o → history_bytes es ≤ mo_max_bytes o →
    cuts = map full_cut es
}.

Lemma ii_current es cuts st : ins_inv es cuts st → within o (in_recovery st).
Proof. intros H. apply (ii_within _ _ _ H (length es)). rewrite take_ge by done. apply (ii_recovery _ _ _ H). Qed.

Lemma zip_more {A B} (l k : list A) (c : list B) : (length c ≤ length l)%nat → zip (l ++ k) c = zip l c.
Proof. revert c. induction l as [|a l IH]; intros [|x c] H; cbn in *; try done; [by destruct k|lia|]. f_equal. apply IH. lia. Qed.

Lemma zip_snoc {A B} (l : list A) (c : list B) a b : length c = length l → zip (l ++ [a]) (c ++ [b]) = zip l c ++ [(a, b)].
Proof. intros H. by rewrite zip_with_app by done. Qed.

Lemma full_sums es : sum_of cut_files (zip es (map full_cut es)) = history_files es ∧
  sum_of cut_bytes (zip es (map full_cut es)) = history_bytes es.
Proof.
  unfold history_files, history_bytes, sum_of. induction es as [|e es [IH1 IH2]]; cbn [map zip zip_with foldr]; [done|].
  unfold zip in *. by rewrite IH1, IH2.
Qed.

(** The part of the callback that shows the edit. *)
Lemma show_edit es cuts st e :
  ins_inv es cuts st →
  ∃ cuts', (if zlen (in_edits st) <? mo_max_edits o then
       let? available_files := usize_sub (mo_max_files o) (in_retained_files st) in
       let '(inspection, retained_files, retained_bytes) :=
         inspect_edit (in_edits_total st) e available_files (in_retained_files st) (mo_max_bytes o) (in_retained_bytes st) in
       Ok (in_edits st ++ [inspection], retained_files, retained_bytes)
     else Ok (in_edits st, in_retained_files st, in_retained_bytes st)) =
    Ok (imap shown_edit (zip (es ++ [e]) cuts'), sum_of cut_files (zip (es ++ [e]) cuts'), sum_of cut_bytes (zip (es ++ [e]) cuts')) ∧
    Z.of_nat (length cuts') = Z.min (zlen (es ++ [e])) (mo_max_edits o) ∧ Forall cut_ok (zip (es ++ [e]) cuts') ∧
    sum_of cut_files (zip (es ++ [e]) cuts') ≤ mo_max_files o ∧ sum_of cut_bytes (zip (es ++ [e]) cuts') ≤ mo_max_bytes o ∧
    (zlen (es ++ [e]) ≤ mo_max_edits o → history_files (es ++ [e]) ≤ mo_max_files o → history_bytes (es ++ [e]) ≤ mo_max_bytes o →
      cuts' = map full_cut (es ++ [e])).
Proof using Ho.
  intros [_ _ _ Ht _ He Hc Hok Hf Hb Hmf Hmb Hall]. destruct Ho as [He0 Hf0 Hb0 _].
  assert (length (zip es cuts) = length cuts) as Hzip by (rewrite length_zip_with; unfold zlen in *; lia).
  assert (zlen (in_edits st) = Z.of_nat (length cuts)) as Hlen by (unfold zlen; by rewrite He, length_imap, Hzip).
  rewrite Hlen. destruct (Z.ltb_spec (Z.of_nat (length cuts)) (mo_max_edits o)) as [Hlt|Hge].
  - assert (length cuts = length es) as Hle by (unfold zlen in *; lia).
    unfold usize_sub, checked_sub. rewrite (proj2 (Z.leb_le _ _)) by done. cbn [ok_or].
    rewrite Ht. destruct (inspect_edit_spec (length es) e (mo_max_files o - in_retained_files st) (in_retained_files st) (mo_max_bytes o)
      (in_retained_bytes st) ltac:(lia) ltac:(lia) ltac:(lia)) as (c & Hie & Hcok & Hcf & Hcb & Hcall).
    unfold zlen at 1. rewrite Hie. exists (cuts ++ [c]). rewrite zip_snoc by done. rewrite !sum_of_snoc, imap_app, He, Hf, Hb. cbn [imap].
    rewrite Hzip, Nat.add_0_r, Hle.
    split; [done|]. rewrite length_app, zlen_app. cbn [length]. split; [unfold zlen in *; cbn; lia|].
    split; [apply Forall_app; by rewrite Forall_singleton|].
    split; [lia|]. split; [lia|]. intros H1 H2 H3. rewrite map_app. unfold history_files, history_bytes in *.
    rewrite sum_of_snoc in H2, H3.
    pose proof (cut_files_nonneg (e, full_cut e)). pose proof (cut_bytes_nonneg (e, full_cut e)).
    assert (cuts = map full_cut es) as -> by (apply Hall; lia). destruct (full_sums es) as [Hs1 Hs2].
    unfold history_files, history_bytes in *. rewrite (Hcall ltac:(lia) ltac:(lia)). done.
  - exists cuts. assert (length cuts ≤ length es)%nat as Hle by (unfold zlen in *; lia).
    rewrite zip_more by done. rewrite <- He, <- Hf, <- Hb. rewrite zlen_app. change (zlen [e]) with 1.
    split; [done|]. split; [lia|]. split; [done|]. do 2 (split; [done|]). lia.
Qed.
(** Every state of the longer history. *)
Lemma within_snoc es e r r' :
  try_fold recover_edit (recovery_start n) es = Ok r → recover_edit r e = Ok r' →
  (∀ k r, try_fold recover_edit (recovery_start n) (take k es) = Ok r → within o r) → within o r' →
  ∀ k r, try_fold recover_edit (recovery_start n) (take k (es ++ [e])) = Ok r → within o r.
Proof.
  intros Hr He Hall Hw k r2 Hk. destruct (decide (k ≤ length es)%nat).
  - rewrite take_app_le in Hk by done. eauto.
  - rewrite take_ge in Hk by (rewrite length_app; cbn; lia). rewrite try_fold_app, Hr in Hk. cbn [try_fold] in Hk.
    rewrite He in Hk. by injection Hk as <-.
Qed.

Lemma inspect_step es cuts st e :
  ins_inv es cuts st →
  match on_inspected_edit o st e with
  | Ok st' => recover_edit (in_recovery st) e = Ok (in_recovery st') ∧ ∃ cuts', ins_inv (es ++ [e]) cuts' st'
  | Err _ => ∀ r, recover_edit (in_recovery st) e = Ok r → within o r → USIZE_MAX < zlen (es ++ [e])
  end.
Proof using Ho.
  intros Hinv. destruct (show_edit _ _ _ e Hinv) as (cuts' & Hshow & Hshown). pose proof Hinv as [Hr Hseven Hw Ht Hu _ _ _ _ _ _ _ _].
  destruct (ii_current _ _ _ Hinv) as (_ & _ & Hhist).
  unfold on_inspected_edit. unfold recover_edit.
  destruct (update_counters _ _ _) as [c|] eqn:Ec; [|by intros r]. destruct (validate_file_numbers _ _ _ _) as [[]|] eqn:Ev; [|by intros r].
  destruct (Version_apply _ _) as [v|] eqn:Ea; cbn [map_err]; [|by intros r].
  assert (seven_levels v) as Hs' by (pose proof (version_apply_accepts _ e Hseven) as Hacc; by rewrite Ea in Hacc).
  pose proof (validate_limits_spec o Ho v Hs') as Hlim.
  destruct (validate_inspection_state_limits o v) as [[]|]; [|intros r [= <-] [Hw1 [Hw2 _]]; by discriminate (proj2 Hlim (conj Hw1 Hw2))].
  destruct (proj1 Hlim eq_refl) as [Hl1 Hl2].
  pose proof (insert_historical_fold (ve_added_files e) (mo_max_historical_files o) (rc_used (in_recovery st)) (added_numbers e ∪ rc_used (in_recovery st)) Hhist) as Hins.
  destruct (try_fold _ (rc_used (in_recovery st)) _) as [used|] eqn:Eu.
  2:{ intros r [= <-] (_ & _ & Hh). by discriminate (proj2 Hins (conj eq_refl Hh)). }
  apply insert_historical_fold in Eu as [-> Hh]; [|done]. fold (added_numbers e) in *.
  rewrite Hshow, Ht. unfold checked_add. rewrite zlen_app in *. change (zlen [e]) with 1 in *.
  destruct (Z.leb_spec (zlen es + 1) USIZE_MAX) as [Hle|Hgt]; cbn [ok_or]; [|intros r _ _; lia].
  split; [done|]. exists cuts'. destruct Hshown as (H1 & H2 & H3 & H4 & H5).
  assert (recover_edit (in_recovery st) e = Ok {| rc_version := v; rc_counters := c; rc_used := added_numbers e ∪ rc_used (in_recovery st) |}) as Hre.
  { unfold recover_edit. by rewrite Ec, Ev, Ea. }
  split; cbn [in_recovery in_edits in_edits_total in_retained_files in_retained_bytes rc_version]; rewrite ?zlen_app; change (zlen [e]) with 1; try done; try lia.
  - rewrite try_fold_app, Hr. cbn [try_fold]. by rewrite Hre.
  - eapply within_snoc; eauto. done.
Qed.

(** Over a whole manifest. *)
Lemma inspected_fold es : ∀ done cuts st,
  ins_inv done cuts st →
  match try_fold (on_inspected_edit o) st es with
  | Ok st' => ∃ cuts', ins_inv (done ++ es) cuts' st'
  | Err _ => ∀ r, try_fold recover_edit (recovery_start n) (done ++ es) = Ok r → zlen (done ++ es) ≤ USIZE_MAX →
      ¬ (∀ k r, try_fold recover_edit (recovery_start n) (take k (done ++ es)) = Ok r → within o r)
  end.
Proof using Ho.
  induction es as [|e es IH]; intros done cuts st Hinv; cbn [try_fold]. { rewrite app_nil_r. eauto. }
  pose proof (inspect_step _ _ _ e Hinv) as Hstep. destruct (on_inspected_edit o st e) as [st'|].
  - destruct Hstep as (_ & cuts' & Hinv'). specialize (IH _ _ _ Hinv'). by rewrite <- app_assoc in IH.
  - intros r Hr Hlen Hall. rewrite try_fold_app, (ii_recovery _ _ _ Hinv) in Hr. cbn [try_fold] in Hr.
    destruct (recover_edit (in_recovery st) e) as [r1|] eqn:E; [|done].
    specialize (Hstep r1 eq_refl). assert (within o r1) as Hw.
    { apply (Hall (S (length done))). change (done ++ e :: es) with (done ++ [e] ++ es).
      rewrite app_assoc, take_app_le, take_ge by (rewrite length_app; cbn; lia).
      rewrite try_fold_app, (ii_recovery _ _ _ Hinv). cbn [try_fold]. by rewrite E. }
    specialize (Hstep Hw). revert Hlen Hstep. rewrite !zlen_app, zlen_cons. change (zlen [e]) with 1. zlen_pos. lia.
Qed.
End Replay.

(** ** The live tables *)

Section Live.
  Context (o : ManifestInspectionOptions) (Ho : options_wf o) (s : FaultState).

Definition sized_file (f : FileMeta) : Prop :=
  ∃ table, ci_volatile (fs_image s) !! sstable_name (fm_number f) = Some table ∧ zlen table = fm_file_size f.

Lemma live_files_spec level files : ∀ shown rf rb,
  rf ≤ mo_max_files o → rb ≤ mo_max_bytes o →
  match fs_fold (inspect_live_file o level) (shown, rf, rb) files s with
  | (Ok r, s') => s' = s ∧ Forall sized_file files ∧
      ∃ kept, r = (shown ++ map (inspect_file level) kept, rf + zlen kept, rb + key_total kept) ∧
        kept `sublist_of` files ∧ rf + zlen kept ≤ mo_max_files o ∧ rb + key_total kept ≤ mo_max_bytes o ∧
        (rf + zlen files ≤ mo_max_files o → rb + key_total files ≤ mo_max_bytes o → kept = files)
  | (Err _, s') => s' = s ∧ ¬ Forall sized_file files
  end.
Proof using Ho.
  destruct Ho as [_ Hf0 Hb0 _].
  induction files as [|f files IH]; intros shown rf rb Hrf Hrb; cbn [fs_fold].
  { unfold fs_ret. split; [done|]. split; [constructor|]. exists []. unfold zlen, key_total. cbn. rewrite app_nil_r, !Z.add_0_r. auto. }
  unfold fs_bind at 1. unfold inspect_live_file at 1, fs_bind, fs_map_err, read_file.
  destruct (ci_volatile (fs_image s) !! sstable_name (fm_number f)) as [table|] eqn:Ht; cbn [ok_or map_err].
  2:{ split; [done|]. intros [[t [Hx _]] _]%Forall_cons. congruence. }
  destruct (Z.eqb_spec (zlen table) (fm_file_size f)) as [Hz|Hz]; cbn [negb].
  2:{ unfold fs_fail. split; [done|]. intros [[t [Hx ?]] _]%Forall_cons. rewrite Ht in Hx. by injection Hx as ->. }
  unfold fs_ret at 1. assert (sized_file f) as Hsf by (by exists table).
  pose proof (zlen_nonneg files). pose proof (key_bytes_nonneg f). pose proof (key_total_nonneg files).
  rewrite bytes_fit_spec by lia. rewrite zlen_cons. change (key_total (f :: files)) with (manifest_file_key_bytes f + key_total files).
  set (fits := (rf <? mo_max_files o) && bool_decide (rb + manifest_file_key_bytes f ≤ mo_max_bytes o)).
  assert ((if rf <? mo_max_files o then if bool_decide (rb + manifest_file_key_bytes f ≤ mo_max_bytes o)
      then (shown ++ [inspect_file level f], rf + 1, rb + manifest_file_key_bytes f) else (shown, rf, rb) else (shown, rf, rb)) =
    if fits then (shown ++ [inspect_file level f], rf + 1, rb + manifest_file_key_bytes f) else (shown, rf, rb)) as ->.
  { unfold fits. by destruct (rf <? mo_max_files o), (bool_decide _). }
  destruct fits eqn:Efits; unfold fits in Efits; clear fits.
  - apply andb_true_iff in Efits as [Hlt%Z.ltb_lt Hle%bool_decide_eq_true].
    specialize (IH (shown ++ [inspect_file level f]) (rf + 1) (rb + manifest_file_key_bytes f) ltac:(lia) Hle).
    destruct (fs_fold _ _ _ _) as [[r|] s']; [|destruct IH as [-> IH]; split; [done|by intros [_ ?]%Forall_cons]].
    destruct IH as (-> & Hs & kept & -> & Hk & Hk1 & Hk2 & Hk3). split; [done|]. split; [by constructor|].
    exists (f :: kept). rewrite zlen_cons. change (key_total (f :: kept)) with (manifest_file_key_bytes f + key_total kept).
    cbn [map]. rewrite <- app_assoc. split; [do 2 (f_equal; try lia)|]. split; [by constructor|]. split; [lia|]. split; [lia|].
    intros. f_equal. apply Hk3; lia.
  - specialize (IH shown rf rb Hrf Hrb).
    destruct (fs_fold _ _ _ _) as [[r|] s']; [|destruct IH as [-> IH]; split; [done|by intros [_ ?]%Forall_cons]].
    destruct IH as (-> & Hs & kept & -> & Hk & Hk1 & Hk2 & Hk3). split; [done|]. split; [by constructor|].
    exists kept. split; [done|]. split; [by constructor|]. split; [done|]. split; [done|]. intros Hx Hy. exfalso.
    rewrite (proj2 (Z.ltb_lt _ _)), bool_decide_true in Efits by lia. done.
Qed.

Lemma live_levels_spec v : ∀ pre st,
  ll_retained_files st ≤ mo_max_files o → ll_retained_bytes st ≤ mo_max_bytes o →
  ll_files_total st + zlen (concat v) ≤ USIZE_MAX →
  match fs_fold (inspect_level o (pre ++ v)) st (map Z.of_nat (seq (length pre) (length v))) s with
  | (Ok st', s') => s' = s ∧ Forall sized_file (concat v) ∧
      ∃ kept, st' = {| ll_levels := ll_levels st ++ imap (λ i files, map (inspect_file (Z.of_nat (length pre + i))) files) kept;
                       ll_level_file_counts := ll_level_file_counts st ++ map zlen v;
                       ll_files_total := ll_files_total st + zlen (concat v);
                       ll_retained_files := ll_retained_files st + zlen (concat kept);
                       ll_retained_bytes := ll_retained_bytes st + key_total (concat kept) |} ∧
        Forall2 sublist kept v ∧
        ll_retained_files st + zlen (concat kept) ≤ mo_max_files o ∧
        ll_retained_bytes st + key_total (concat kept) ≤ mo_max_bytes o ∧
        (ll_retained_files st + zlen (concat v) ≤ mo_max_files o →
         ll_retained_bytes st + key_total (concat v) ≤ mo_max_bytes o → kept = v)
  | (Err _, s') => s' = s ∧ ¬ Forall sized_file (concat v)
  end.
Proof using Ho.
  induction v as [|l v IH]; intros pre st Hrf Hrb Ht; cbn [length seq map fs_fold].
  { unfold fs_ret. split; [done|]. split; [constructor|]. exists []. cbn. unfold key_total, zlen. cbn. rewrite !app_nil_r, !Z.add_0_r.
    split; [by destruct st|]. split; [constructor|auto]. }
  cbn [concat] in *. rewrite zlen_app in *. pose proof (zlen_nonneg l). pose proof (zlen_nonneg (concat v)).
  unfold fs_bind at 1. unfold inspect_level at 1, fs_bind at 1, fs_lift at 1. rewrite Version_files_at.
  unfold fs_bind at 1, fs_lift at 1. unfold checked_add. rewrite (proj2 (Z.leb_le _ USIZE_MAX)) by lia. cbn [ok_or].
  unfold fs_bind at 1, fs_lift at 1. unfold usize_sub, checked_sub. rewrite (proj2 (Z.leb_le _ _)) by done. cbn [ok_or].
  unfold fs_bind at 1. pose proof (live_files_spec (Z.of_nat (length pre)) l [] _ _ Hrf Hrb) as Hl.
  destruct (fs_fold (inspect_live_file o _) _ l s) as [[r|] s1]; [|destruct Hl as [-> Hl]; split; [done|by intros [? _]%Forall_app]].
  destruct Hl as (-> & Hsl & kept & -> & Hk & Hk1 & Hk2 & Hk3). unfold fs_ret. cbn [app].
  match goal with |- context [fs_fold _ ?st1 _ s] => specialize (IH (pre ++ [l]) st1 Hk1 Hk2 ltac:(cbn; lia)) end.
  rewrite <- app_assoc, length_app in IH. cbn [app length] in IH. rewrite Nat.add_1_r in IH.
  destruct (fs_fold _ _ _ s) as [[st'|] s']; [|destruct IH as [-> IH]; split; [done|by intros [_ ?]%Forall_app]].
  destruct IH as (-> & Hsv & keptv & -> & Hkv & Hkv1 & Hkv2 & Hkv3). split; [done|]. split; [by apply Forall_app|].
  cbn [ll_levels ll_level_file_counts ll_files_total ll_retained_files ll_retained_bytes] in *.
  exists (kept :: keptv). cbn [concat imap]. rewrite zlen_app, key_total_app, <- !app_assoc.
  split; [|split; [by constructor|split; [lia|split; [lia|]]]].
  - rewrite Nat.add_0_r. f_equal; try lia; try done. cbn. f_equal. f_equal. apply imap_ext. intros i x _. cbn. by rewrite Nat.add_succ_r.
  - rewrite key_total_app. intros Hx Hy. pose proof (key_total_nonneg (concat v)).
    assert (kept = l) as -> by (apply Hk3; lia). f_equal. apply Hkv3; lia.
Qed.
End Live.

(** ** Streaming and recovery *)

Section Stream.
  Context `{C : Crc32c} {A : Type} (on_edit : A → VersionEdit → result A).

Definition push_edit (edits : list VersionEdit) (edit : VersionEdit) : result (list VersionEdit) := Ok (edits ++ [edit]).

Definition put_acc {B} (st : ManifestState (list VersionEdit)) (b : B) : ManifestState B :=
  {| ms_logical := ms_logical st; ms_assembling := ms_assembling st; ms_record_start := ms_record_start st; ms_acc := b |}.

Lemma manifest_step_extends pos st t f st2 :
  manifest_step push_edit pos st t f = Ok st2 → ∃ l, ms_acc st2 = ms_acc st ++ l.
Proof.
  intros H. unfold manifest_step, deliver_edit, push_edit in H. inv_ok H; cbn; eauto; exists []; by rewrite app_nil_r.
Qed.

Lemma deliver_sim a0 l a b l' :
  try_fold on_edit a0 l = Ok a → deliver_edit push_edit l b = Ok l' →
  deliver_edit on_edit a b = try_fold on_edit a0 l'.
Proof.
  unfold deliver_edit, push_edit. destruct (decode_edit b) as [e|]; [|done]. intros Hl [= <-].
  rewrite try_fold_app, Hl. cbn. by destruct (on_edit a e).
Qed.

Lemma manifest_step_sim a0 pos st t f st2 a :
  try_fold on_edit a0 (ms_acc st) = Ok a → manifest_step push_edit pos st t f = Ok st2 →
  manifest_step on_edit pos (put_acc st a) t f = let? a2 := try_fold on_edit a0 (ms_acc st2) in Ok (put_acc st2 a2).
Proof.
  intros Hl H. unfold manifest_step in *. cbn [put_acc ms_assembling ms_logical ms_acc ms_record_start].
  destruct (_ && _).
  { destruct (deliver_edit push_edit _ _) as [l'|] eqn:E; [|done]. injection H as <-. cbn [ms_acc].
    rewrite (deliver_sim _ _ _ _ _ Hl E). by destruct (try_fold _ a0 l'). }
  destruct (_ && _). { destruct (manifest_append_fragment _ _); [|done]. injection H as <-. cbn [ms_acc]. by rewrite Hl. }
  destruct (_ && _). { destruct (manifest_append_fragment _ _); [|done]. injection H as <-. cbn [ms_acc]. by rewrite Hl. }
  destruct (_ && _).
  { destruct (manifest_append_fragment _ _); [|done]. destruct (deliver_edit push_edit _ _) as [l'|] eqn:E; [|done].
    injection H as <-. cbn [ms_acc]. rewrite (deliver_sim _ _ _ _ _ Hl E). by destruct (try_fold _ a0 l'). }
  destruct (_ || _); [done|]. by destruct (_ || _).
Qed.

Lemma manifest_step_back pos st t f (a : A) st' :
  manifest_step on_edit pos (put_acc st a) t f = Ok st' → ∃ st2, manifest_step push_edit pos st t f = Ok st2.
Proof.
  assert (∀ b a', deliver_edit on_edit a b = Ok a' → ∃ l', deliver_edit push_edit (ms_acc st) b = Ok l') as Hd.
  { intros b a'. unfold deliver_edit, push_edit. destruct (decode_edit b); [eauto|done]. }
  intros H. unfold manifest_step in *. cbn [put_acc ms_assembling ms_logical ms_acc ms_record_start] in H.
  destruct (_ && _). { destruct (deliver_edit on_edit _ _) as [l'|] eqn:E; [|done]. destruct (Hd _ _ E) as [? ->]. eauto. }
  destruct (_ && _). { destruct (manifest_append_fragment _ _); [eauto|done]. }
  destruct (_ && _). { destruct (manifest_append_fragment _ _); [eauto|done]. }
  destruct (_ && _).
  { destruct (manifest_append_fragment _ _); [|done]. destruct (deliver_edit on_edit _ _) as [l'|] eqn:E; [|done].
    destruct (Hd _ _ E) as [? ->]. eauto. }
  destruct (_ || _); [done|]. by destruct (_ || _).
Qed.

(** Streaming with a callback is folding it over the replayed edits. *)
Lemma replay_manifest_stream_fold file a0 a valid :
  replay_manifest_stream on_edit file a0 = Ok (a, valid) ↔
  ∃ es, replay_manifest file = Ok {| mr_edits := es; mr_valid_bytes := valid; mr_file_length := zlen file |} ∧
    try_fold on_edit a0 es = Ok a.
Proof.
  pose proof (scan_fold (ManifestReader push_edit) (ManifestReader on_edit) on_edit a0 ms_acc fst put_acc
    (λ r a, (a, r.2)) ltac:(done) ltac:(done) manifest_step_extends (manifest_step_sim a0) manifest_step_back
    ltac:(done) ltac:(done) file {| ms_logical := []; ms_assembling := false; ms_record_start := 0; ms_acc := [] |}
    a0 (a, valid) eq_refl) as H.
  unfold replay_manifest, replay_manifest_stream. change (λ edits edit, Ok (edits ++ [edit])) with push_edit.
  unfold put_acc in H. cbn [ms_logical ms_assembling ms_record_start] in H. rewrite H. clear H. split.
  - intros ([es v] & a' & -> & Ha & [= -> ->]). eauto.
  - intros (es & Hr & Ha). destruct (scan _ _) as [[es' v]|]; [|done]. injection Hr as -> ->. by exists (es, valid), a.
Qed.
End Stream.

Section Recovers.
  Context `{C : Crc32c}.

Lemma validate_referenced_spec v s :
  validate_referenced_files v s =
    (if decide (Forall (λ f : FileMeta, is_Some (ci_volatile (fs_image s) !! sstable_name (fm_number f))) (concat v))
     then Ok tt else Err (manifest_corruption "level references missing SSTable or invalid file"), s).
Proof.
  unfold validate_referenced_files. induction (concat v) as [|f l IH]; cbn [fs_each].
  { by rewrite decide_True by constructor. }
  assert (∀ g p, fs_map_err g (validate_file p) s =
    (match ci_volatile (fs_image s) !! p with Some _ => Ok tt | None => Err (g (os_error "not found")) end, s)) as Hval.
  { intros g p. unfold fs_map_err, validate_file, fs_bind, read_file. by destruct (ci_volatile (fs_image s) !! p). }
  unfold fs_bind at 1. rewrite Hval.
  destruct (ci_volatile (fs_image s) !! sstable_name (fm_number f)) as [t|] eqn:E.
  - rewrite IH. f_equal. apply decide_ext. rewrite Forall_cons, E. split; [split; eauto|tauto].
  - rewrite decide_False; [done|]. rewrite Forall_cons, E. by intros [[? ?] _].
Qed.

(** Opening without a repair, step by step. *)
Record opens_from (s : FaultState) (nm : name) (n : Z) (file : bytes) (es : list VersionEdit) (r : Recovery) : Prop := {
  of_current : ∃ current, ci_volatile (fs_image s) !! CURRENT = Some current ∧ parse_current current = Ok nm;
  of_number : parse_manifest_number nm = Ok n;
  of_file : ci_volatile (fs_image s) !! nm = Some file;
  of_replay : replay_manifest file = Ok {| mr_edits := es; mr_valid_bytes := zlen file; mr_file_length := zlen file |};
  of_edits : recover_edits n es = Ok r;
  of_tables : Forall (λ f : FileMeta, is_Some (ci_volatile (fs_image s) !! sstable_name (fm_number f))) (concat (rc_version r))
}.

Definition opened_set (nm : name) (n : Z) (file : bytes) (r : Recovery) : VersionSet :=
  {| vs_manifest_number := n; vs_manifest := {| mw_path := nm; mw_block_offset := zlen file mod BLOCK_BYTES |};
     vs_current := rc_version r; vs_used_file_numbers := rc_used r; vs_counters := rc_counters r; vs_manifest_usable := true |}.

Lemma opens_spec s vs file es :
  opens s vs file es ↔ ∃ nm n r, opens_from s nm n file es r ∧ vs = opened_set nm n file r.
Proof.
  unfold opens, recover_with_fs, fs_replay_manifest. split.
  - intros (Hrec & Hfile & Hrep).
    unfold fs_bind, fs_map_err, fs_lift, read_file in Hrec.
    destruct (ci_volatile (fs_image s) !! CURRENT) as [cur|] eqn:Hcur; cbn [ok_or map_err] in Hrec; [|done].
    destruct (parse_current cur) as [nm|] eqn:Hnm; [|done]. destruct (parse_manifest_number nm) as [n|] eqn:Hn; [|done].
    destruct (ci_volatile (fs_image s) !! nm) as [file'|] eqn:Hf; cbn [ok_or map_err] in Hrec; [|done].
    destruct (replay_manifest file') as [rp|] eqn:Hr; [|done].
    destruct (recover_edits n (mr_edits rp)) as [r|] eqn:He; [|done]. rewrite validate_referenced_spec in Hrec.
    destruct (decide _) as [Htab|]; [|done].
    assert (vs_current vs = rc_version r ∧ mw_path (vs_manifest vs) = nm) as [_ Hp].
    { destruct (mr_valid_bytes rp <? mr_file_length rp).
      - destruct (truncate_file nm (mr_valid_bytes rp) s) as [[?|?] s1]; cbn [map_err] in Hrec; [|done].
        destruct (sync_file nm s1) as [[?|?] s2]; cbn [map_err] in Hrec; [|done].
        destruct (append_existing nm s2) as [[?|?] s3]; cbn [map_err] in Hrec; [|done]. unfold fs_ret in Hrec. by injection Hrec as <- _.
      - unfold fs_ret at 1 in Hrec. destruct (append_existing nm s) as [[?|?] s3]; cbn [map_err] in Hrec; [|done]. unfold fs_ret in Hrec. by injection Hrec as <- _. }
    rewrite Hp, Hf in Hfile. injection Hfile as ->. rewrite Hr in Hrep. injection Hrep as ->. cbn [mr_edits mr_valid_bytes mr_file_length] in *.
    rewrite Z.ltb_irrefl in Hrec. exists nm, n, r. split; [split; eauto|].
    unfold fs_ret at 1, append_existing, validate_file, fs_bind, read_file in Hrec. rewrite Hf in Hrec. cbn in Hrec.
    by injection Hrec as <-.
  - intros (nm & n & r & [(cur & Hcur & Hnm) Hn Hf Hrep He Htab] & ->). cbn [opened_set vs_manifest mw_path].
    split; [|done]. unfold fs_bind, fs_map_err, fs_lift, read_file. rewrite Hcur. cbn [ok_or map_err]. rewrite Hnm, Hn, Hf.
    cbn [ok_or map_err]. rewrite Hrep. cbn [mr_edits mr_valid_bytes mr_file_length]. rewrite He, validate_referenced_spec, decide_True by done.
    rewrite Z.ltb_irrefl. unfold fs_ret at 1, append_existing, validate_file, fs_bind, read_file. by rewrite Hf.
Qed.
End Recovers.

(** ** Properties *)

Lemma imap_count {A B} (f : nat → A → B) (kept : list (list A)) :
  foldr Z.add 0 (map zlen (imap (λ i files, map (f i) files) kept)) = zlen (concat kept).
Proof.
  revert f. induction kept as [|l kept IH]; intros f; [done|].
  cbn [imap map foldr concat]. rewrite zlen_app.
  change (imap ((λ i files, map (f i) files) ∘ S) kept) with (imap (λ i files, map (f (S i)) files) kept).
  rewrite (IH (λ i, f (S i))). unfold zlen. by rewrite length_map.
Qed.

Lemma sublist_full {A} (k l : list A) : k `sublist_of` l → (length l ≤ length k)%nat → k = l.
Proof.
  induction 1 as [|x k l H IH|x k l H IH]; cbn; intros Hlen; [done|f_equal; apply IH; lia|].
  apply sublist_length in H. lia.
Qed.

(** Lists that are kept in parts are shorter than the whole. *)
Lemma sublists_short (kept v : Version) : Forall2 sublist kept v → zlen (concat kept) < zlen (concat v) ↔ kept ≠ v.
Proof.
  intros H. assert (zlen (concat kept) ≤ zlen (concat v) ∧ (zlen (concat v) ≤ zlen (concat kept) → kept = v)) as [H1 H2].
  { induction H as [|k l kept v Hk _ [IH1 IH2]]; [done|]. cbn [concat]. rewrite !zlen_app.
    pose proof (sublist_length _ _ Hk). split; [unfold zlen in *; lia|]. intros Hle.
    assert (k = l) as -> by (apply sublist_full; [done|unfold zlen in *; lia]). f_equal. apply IH2. lia. }
  split; [intros Hlt ->; lia|]. intros Hne. destruct (Z.lt_ge_cases (zlen (concat kept)) (zlen (concat v))); [done|].
  destruct Hne. auto.
Qed.

Section Agreement.
  Context `{C : Crc32c} (o : ManifestInspectionOptions) (Ho : options_wf o) (s : FaultState).

Lemma recover_edits_ok n es r :
  recover_edits n es = Ok r ↔
  es ≠ [] ∧ try_fold recover_edit (recovery_start n) es = Ok r ∧ cn_next_file_number (rc_counters r) ≠ 0.
Proof.
  unfold recover_edits. case_bool_decide as He; [split; [done|by intros [? _]]|].
  destruct (try_fold _ _ es) as [r'|]; [|split; [done|by intros (_ & ? & _)]].
  destruct (Z.eqb_spec (cn_next_file_number (rc_counters r')) 0) as [Hz|Hz].
  - split; [done|]. by intros (_ & [= ->] & ?).
  - split; [by intros [= ->]|by intros (_ & [= ->] & _)].
Qed.

Lemma ins_start n : 0 < mo_max_historical_files o → ins_inv o n [] [] (inspecting_start (recovery_start n)).
Proof using Ho.
  intros Hh. destruct Ho as [He Hf Hb _].
  assert (within o (recovery_start n)) as Hw.
  { unfold within. cbn [recovery_start rc_version rc_used]. rewrite size_singleton.
    change (concat Version_empty) with (@nil FileMeta). change (key_total []) with 0. zlen_nils. lia. }
  split; cbn; try done; try lia.
  - intros k r. rewrite take_nil. cbn. by intros [= <-].
  - zlen_nils. lia.
Qed.

Lemma first_historical n :
  0 < mo_max_historical_files o → insert_historical_file_number ∅ n (mo_max_historical_files o) = Ok {[n]}.
Proof using.
  intros Hh. unfold insert_historical_file_number. rewrite bool_decide_false by apply not_elem_of_empty.
  rewrite size_empty, (proj2 (Z.eqb_neq _ _)) by lia. by rewrite union_empty_r_L.
Qed.

(** The replay of an accepted manifest, and only of such a one, succeeds. *)
Lemma inspect_stream n file :
  0 < mo_max_historical_files o →
  match replay_manifest_stream (on_inspected_edit o) file (inspecting_start (recovery_start n)) with
  | Ok (st, valid) => ∃ es cuts, ins_inv o n es cuts st ∧
      replay_manifest file = Ok {| mr_edits := es; mr_valid_bytes := valid; mr_file_length := zlen file |}
  | Err _ => ∀ es valid r, replay_manifest file = Ok {| mr_edits := es; mr_valid_bytes := valid; mr_file_length := zlen file |} →
      try_fold recover_edit (recovery_start n) es = Ok r → zlen es ≤ USIZE_MAX →
      ¬ (∀ k r, try_fold recover_edit (recovery_start n) (take k es) = Ok r → within o r)
  end.
Proof using Ho.
  intros Hh. pose proof (λ es, inspected_fold o Ho n es [] [] _ (ins_start n Hh)) as Hfold. cbn [app] in Hfold.
  destruct (replay_manifest_stream _ _ _) as [[st valid]|e] eqn:E.
  - apply replay_manifest_stream_fold in E as (es & Hrep & Hes). specialize (Hfold es). rewrite Hes in Hfold.
    destruct Hfold as [cuts Hinv]. by exists es, cuts.
  - intros es valid r Hrep Hr Hlen. specialize (Hfold es). destruct (try_fold (on_inspected_edit o) _ es) as [st|] eqn:Hes; [|by eapply Hfold].
    assert (replay_manifest_stream (on_inspected_edit o) file (inspecting_start (recovery_start n)) = Ok (st, valid)) as Hok
      by (apply replay_manifest_stream_fold; eauto). by rewrite Hok in E.
Qed.

(** The document of an accepted directory. *)
Lemma inspected_describes nm n file es cuts st live kept :
  ins_inv o n es cuts st → 0 < mo_max_edits o →
  let v := rc_version (in_recovery st) in
  live = {| ll_levels := imap (λ i files, map (inspect_file (Z.of_nat i)) files) kept;
            ll_level_file_counts := map zlen v; ll_files_total := zlen (concat v);
            ll_retained_files := in_retained_files st + zlen (concat kept);
            ll_retained_bytes := in_retained_bytes st + key_total (concat kept) |} →
  Forall2 sublist kept v →
  in_retained_files st + zlen (concat kept) ≤ mo_max_files o →
  in_retained_bytes st + key_total (concat kept) ≤ mo_max_bytes o →
  (in_retained_files st + zlen (concat v) ≤ mo_max_files o →
   in_retained_bytes st + key_total (concat v) ≤ mo_max_bytes o → kept = v) →
  describes o
    {| mi_format_version := 1; mi_manifest := nm; mi_file_bytes := zlen file; mi_edits := in_edits st;
       mi_edits_total := in_edits_total st; mi_edits_truncated := mo_max_edits o <? in_edits_total st;
       mi_levels := ll_levels live; mi_files_total := ll_files_total live;
       mi_level_file_counts := ll_level_file_counts live;
       mi_files_truncated := foldr Z.add 0 (map zlen (ll_levels live)) <? ll_files_total live;
       mi_next_file_number := cn_next_file_number (rc_counters (in_recovery st));
       mi_last_sequence := cn_last_sequence (rc_counters (in_recovery st));
       mi_log_number := cn_log_number (rc_counters (in_recovery st));
       mi_active_log_number := cn_active_log_number (rc_counters (in_recovery st));
       mi_wal_sequence := cn_wal_sequence (rc_counters (in_recovery st)) |}
    (opened_set nm n file (in_recovery st)) file es cuts kept.
Proof.
  intros [Hr _ _ Ht _ He Hc Hok Hf Hb Hmf Hmb Hall] Hpos v -> Hk Hkf Hkb Hkall.
  assert (length (zip es cuts) = length cuts) as Hzip by (rewrite length_zip_with; unfold zlen in *; lia).
  split; cbn; try done; rewrite ?Ht, ?He, <- ?Hf, <- ?Hb; try done; try lia.
  - rewrite Z.ltb_lt. replace (zlen (imap shown_edit (zip es cuts))) with (Z.of_nat (length cuts)); [lia|].
    unfold zlen. by rewrite length_imap, Hzip.
  - rewrite Z.ltb_lt, (imap_count (λ i, inspect_file (Z.of_nat i))). fold v. by apply sublists_short.
  - fold v. by destruct (rc_counters (in_recovery st)).
  - intros H1 H2 H3. fold v in H2, H3 |- *. fold (key_total (concat v)) in H3. pose proof (zlen_nonneg (concat v)). pose proof (key_total_nonneg (concat v)).
    assert (cuts = map full_cut es) as -> by (apply Hall; lia). split; [done|]. destruct (full_sums es) as [Hs1 Hs2].
    apply Hkall; lia.
Qed.

Lemma finish_spec nm n file es cuts st :
  ins_inv o n es cuts st → 0 < mo_max_edits o →
  match finish_inspection o nm file st s with
  | (Ok i, s') => s' = s ∧ sized s (rc_version (in_recovery st)) ∧
      ∃ kept, describes o i (opened_set nm n file (in_recovery st)) file es cuts kept
  | (Err _, s') => s' = s ∧ ¬ sized s (rc_version (in_recovery st))
  end.
Proof using Ho.
  intros Hinv Hpe. set (v := rc_version (in_recovery st)). unfold finish_inspection. pose proof Ho as [_ Hof _ _].
  destruct (ii_current _ _ _ _ _ Hinv) as (Hwf & _). fold v in Hwf |- *.
  pose proof (live_levels_spec o Ho s v [] (live_start st) (ii_max_files _ _ _ _ _ Hinv) (ii_max_bytes _ _ _ _ _ Hinv) ltac:(cbn; lia)) as Hlive.
  cbn [app length] in Hlive. rewrite <- (inspected_levels_of v (ii_seven _ _ _ _ _ Hinv)) in Hlive.
  unfold fs_bind. destruct (fs_fold _ _ _ _) as [[live|] s']; [|exact Hlive].
  destruct Hlive as (-> & Hsized & kept & Hl & Hk & Hkf & Hkb & Hkall). unfold fs_ret. do 2 (split; [done|]).
  exists kept. by eapply inspected_describes.
Qed.

Lemma options_refused : ¬ options_positive o → ∃ e, inspect_manifest_with_fs o s = (Err e, s).
Proof using Ho.
  intros Hneg. destruct Ho. unfold options_positive in Hneg. unfold inspect_manifest_with_fs.
  destruct (Z.eqb_spec (mo_max_edits o) 0); [by eexists|]. destruct (Z.eqb_spec (mo_max_files o) 0); [by eexists|].
  destruct (Z.eqb_spec (mo_max_bytes o) 0); [by eexists|].
  destruct (Z.eqb_spec (mo_max_historical_files o) 0); [by eexists|lia].
Qed.

(** Whatever stops an inspection stops recovery, or is a torn tail, a table of another
    length or a limit. *)
Lemma refused (P : Prop) :
  (∀ nm n file es r, opens_from s nm n file es r → admitted o n es → sized s (rc_version r) → P) →
  ∀ vs file es, opens s vs file es → sized s (vs_current vs) → admitted o (vs_manifest_number vs) es → P.
Proof. intros H vs file es (nm & n & r & Hof & ->)%opens_spec Hs Ha. by eapply H. Qed.

(** What the theorem below says of the result of an inspection. *)
Definition agrees (res : result ManifestInspection * FaultState) : Prop :=
  match res with
  | (Ok i, s') => s' = s ∧ ∃ vs file es cuts live,
      opens s vs file es ∧ sized s (vs_current vs) ∧ admitted o (vs_manifest_number vs) es ∧
      describes o i vs file es cuts live
  | (Err _, s') => s' = s ∧ ∀ vs file es,
      opens s vs file es → sized s (vs_current vs) → admitted o (vs_manifest_number vs) es → False
  end.

Lemma agrees_err e :
  (∀ nm n file es r, opens_from s nm n file es r → admitted o n es → sized s (rc_version r) → False) → agrees (Err e, s).
Proof. intros H. split; [done|]. by apply refused. Qed.

(** The manifest that [CURRENT] names is the one that recovery opens. *)
Definition named (nm : name) (n : Z) (file : bytes) : Prop :=
  (∃ current, ci_volatile (fs_image s) !! CURRENT = Some current ∧ parse_current current = Ok nm) ∧
  parse_manifest_number nm = Ok n ∧ ci_volatile (fs_image s) !! nm = Some file.

Lemma named_same nm n file nm' n' file' es r :
  named nm n file → opens_from s nm' n' file' es r → nm' = nm ∧ n' = n ∧ file' = file.
Proof.
  intros ((? & ? & ?) & ? & ?) [(? & ? & ?) ? ? _ _ _]. assert (nm' = nm) as -> by congruence. split_and!; congruence.
Qed.

(** The end of an inspection, when the replay delivered [es]. *)
Lemma check_agrees nm n file es cuts st valid :
  named nm n file → ins_inv o n es cuts st → 0 < mo_max_edits o → options_positive o →
  replay_manifest file = Ok {| mr_edits := es; mr_valid_bytes := valid; mr_file_length := zlen file |} →
  agrees (check_inspection o nm file st valid s).
Proof using Ho.
  intros Hnamed Hinv Hpe Hpos Hrep. unfold check_inspection. pose proof (ii_recovery _ _ _ _ _ Hinv) as Hrec.
  destruct (Z.eqb_spec valid (zlen file)) as [->|Hv]; cbn [negb].
  2:{ apply agrees_err. intros nm' n' file' es' r Hof. destruct (named_same _ _ _ _ _ _ _ _ Hnamed Hof) as (-> & -> & ->).
      destruct Hof. congruence. }
  assert (∀ nm' n' file' es' r, opens_from s nm' n' file' es' r → recover_edits n es = Ok r) as Hsame.
  { intros nm' n' file' es' r Hof. destruct (named_same _ _ _ _ _ _ _ _ Hnamed Hof) as (-> & -> & ->). destruct Hof. congruence. }
  rewrite (ii_total _ _ _ _ _ Hinv). destruct (Z.eqb_spec (zlen es) 0) as [Hz|Hz].
  { apply agrees_err. intros ????? (Hne & _)%Hsame%recover_edits_ok. by apply zlen_0_nil in Hz. }
  destruct (Z.eqb_spec (cn_next_file_number (rc_counters (in_recovery st))) 0) as [Hnx|Hnx].
  { apply agrees_err. intros ????? (_ & Hr & Hnz)%Hsame%recover_edits_ok. rewrite Hrec in Hr. congruence. }
  assert (recover_edits n es = Ok (in_recovery st)) as Hre.
  { apply recover_edits_ok. split; [intros ->; by zlen_nils|]. by rewrite Hrec. }
  pose proof (finish_spec nm n file es cuts st Hinv Hpe) as Hfinish. destruct (finish_inspection o nm file st s) as [[i|] s'].
  2:{ destruct Hfinish as [-> Hfinish]. apply agrees_err. intros ????? Hr%Hsame _. rewrite Hre in Hr. by injection Hr as <-. }
  destruct Hfinish as (-> & Hsized & kept & Hd). split; [done|].
  exists (opened_set nm n file (in_recovery st)), file, es, cuts, kept. split; [|split; [exact Hsized|split; [|done]]].
  - apply opens_spec. exists nm, n, (in_recovery st). destruct Hnamed as (? & ? & ?). split; [|done]. split; eauto.
    eapply Forall_impl; [exact Hsized|]. intros f (t & Ht & _). by exists t.
  - split; [done|]. split; [exact (ii_usize _ _ _ _ _ Hinv)|exact (ii_within _ _ _ _ _ Hinv)].
Qed.
End Agreement.

(** [C18] Inspecting a manifest changes nothing and agrees with recovery, on every
    content of the directory.  It succeeds exactly when recovery opens the directory
    without a repair, every live table has its recorded length and every state of the
    history is within the limits; the document then gives the version set's counters and
    file counts, the first edits and a part of the live tables within the limits, says
    truthfully what it leaves out, and leaves out nothing when everything fits. *)
Theorem inspection_agrees_with_recovery `{C : Crc32c} (o : ManifestInspectionOptions) (s : FaultState) :
  options_wf o →
  match inspect_manifest_with_fs o s with
  | (Ok i, s') => s' = s ∧ ∃ vs file es cuts live,
      opens s vs file es ∧ sized s (vs_current vs) ∧ admitted o (vs_manifest_number vs) es ∧
      describes o i vs file es cuts live
  | (Err _, s') => s' = s ∧ ∀ vs file es,
      opens s vs file es → sized s (vs_current vs) → admitted o (vs_manifest_number vs) es → False
  end.
Proof.
  intros Ho. change (agrees o s (inspect_manifest_with_fs o s)). destruct (decide (options_positive o)) as [Hpos|Hneg].
  2:{ destruct (options_refused o Ho s Hneg) as [e ->]. apply agrees_err. by intros ????? _ [? _] _. }
  unfold inspect_manifest_with_fs. pose proof Hpos as (Hpe & Hpf & Hpb & Hph). rewrite !(proj2 (Z.eqb_neq _ 0)) by lia.
  unfold fs_bind at 1, fs_map_err at 1, read_file at 1.
  destruct (ci_volatile (fs_image s) !! CURRENT) as [cur|] eqn:Hcur; cbn [ok_or map_err].
  2:{ apply agrees_err. intros ????? [(? & ? & _) _ _ _ _ _] _ _. congruence. }
  unfold fs_bind at 1, fs_lift at 1. destruct (parse_current cur) as [nm|] eqn:Hnm.
  2:{ apply agrees_err. intros ????? [(? & ? & ?) _ _ _ _ _] _ _. congruence. }
  unfold fs_bind at 1, fs_lift at 1. destruct (parse_manifest_number nm) as [n|] eqn:Hn.
  2:{ apply agrees_err. intros ????? [(? & ? & ?) ? _ _ _ _] _ _. congruence. }
  rewrite (first_historical o n Hph). unfold fs_bind at 1, fs_lift at 1. fold (recovery_start n).
  unfold fs_bind at 1, fs_map_err at 1, read_file at 1.
  destruct (ci_volatile (fs_image s) !! nm) as [file|] eqn:Hf; cbn [ok_or map_err].
  2:{ apply agrees_err. intros nm' ???? [(? & ? & ?) _ ? _ _ _] _ _. assert (nm' = nm) as -> by congruence. congruence. }
  assert (named s nm n file) as Hnamed by (split; [by exists cur|done]).
  unfold fs_bind at 1, fs_lift at 1. pose proof (inspect_stream o Ho n file Hph) as Hstream.
  destruct (replay_manifest_stream _ _ _) as [[st valid]|].
  - destruct Hstream as (es & cuts & Hinv & Hrep). by eapply check_agrees.
  - apply agrees_err. intros nm' n' file' es r Hof (_ & Hle & Hw) _. destruct (named_same _ _ _ _ _ _ _ _ _ Hnamed Hof) as (-> & -> & ->).
    destruct Hof as [_ _ _ Hrep (_ & Hr & _)%recover_edits_ok _]. by eapply Hstream.
Qed.

(** Hexadecimal keys identify the key. *)
Lemma hex_digit_inj m n : 0 ≤ m < 16 → 0 ≤ n < 16 → hex_digit m = hex_digit n → m = n.
Proof. unfold hex_digit. intros. destruct (Z.ltb_spec m 10), (Z.ltb_spec n 10); lia. Qed.

Lemma encode_hex_inj a b : bytes_ok a → bytes_ok b → encode_hex a = encode_hex b → a = b.
Proof.
  intros Ha. revert b. induction Ha as [|x a Hx _ IH]; intros [|y b] Hb; try done.
  apply Forall_cons in Hb as [Hy Hb]. unfold is_u8, U8_MAX in *. cbn. intros [= H1 H2 H3].
  apply hex_digit_inj in H1, H2; try (Z.div_mod_to_equations; lia). f_equal; [Z.div_mod_to_equations; lia|by apply IH].
Qed.

(** ** Witness *)

(** A database with two tables of the recorded length. *)
Definition inspected_tables : gmap name bytes :=
  {[sstable_name 5 := replicate 100 1; sstable_name 7 := replicate 100 2]}.

Definition inspected_state : FaultState :=
  match open_versions (C := Castagnoli.crc) false (FaultyFs_fail_at None inspected_tables) with
  | (Ok vs, s) => (apply_with_visibility (C := Castagnoli.crc) vs (set_next_file_number sample_edit 8) s).2
  | (Err _, s) => s
  end.

Definition narrow_options : ManifestInspectionOptions :=
  {| mo_max_edits := 1; mo_max_files := 2; mo_max_bytes := 50; mo_max_historical_files := 3 |}.

(** Witness of C18: one of two edits is shown. *)
Lemma inspection_agrees_with_recovery_witness :
  options_wf narrow_options ∧
  ∃ i, inspect_manifest_with_fs (C := Castagnoli.crc) narrow_options inspected_state = (Ok i, inspected_state) ∧
    mi_edits_total i = 2 ∧ mi_edits_truncated i = true ∧ mi_files_total i = 2 ∧
    ∃ vs file es cuts live, opens (C := Castagnoli.crc) inspected_state vs file es ∧
      describes narrow_options i vs file es cuts live.
Proof.
  assert (options_wf narrow_options) as Ho by (split; eval_done). split; [exact Ho|].
  pose proof (@inspection_agrees_with_recovery Castagnoli.crc narrow_options inspected_state Ho) as H.
  assert (match (inspect_manifest_with_fs (C := Castagnoli.crc) narrow_options inspected_state).1 with
    | Ok i => mi_edits_total i = 2 ∧ mi_edits_truncated i = true ∧ mi_files_total i = 2
    | Err _ => False
    end) as Hi by (vm_compute; auto).
  revert H Hi. generalize inspected_state. intros s H Hi.
  destruct (inspect_manifest_with_fs (C := Castagnoli.crc) narrow_options s) as [[i|] s']; [|destruct Hi]. cbn [fst] in Hi.
  destruct H as [-> (vs & file & es & cuts & live & Hop & _ & _ & Hd)]. exists i. split; [reflexivity|].
  destruct Hi as (Hi1 & Hi2 & Hi3). do 3 (split; [assumption|]). exists vs, file, es, cuts, live. split; assumption.
Defined.
