(* ===== verification/WalFs.v ===== *)
(** * The write-ahead log on the file system (src/crates/meteordb/src/wal.rs)

    [WalWriter] with the calls it makes on its file, each of which can fail.  The
    pure writer of [Wal] is its specification: [log_rep] relates the two, and what a
    crash leaves of the file is the part that was synchronized. *)

From Stdlib Require Import ZArith Lia.
From stdpp Require Import base list gmap strings.
From S2P Require Import Prelude Fs Checksum Framing Batch Wal ManifestCodec Manifest ManifestSet ManifestBoot.

Local Open Scope Z_scope.

Record LogWriter : Type := {
  lw_path : name;
  lw_max_batch_bytes : Z;
  lw_max_logical_record_bytes : Z;
  lw_block_offset : Z
}.

Section Log.
  Context `{C : Crc32c}.

Definition log_create (path : name) (max_batch_bytes : Z) : FS LogWriter :=
  let! max_logical_record_bytes := fs_lift (encoded_record_limit max_batch_bytes) in
  let! _ := fs_map_err (io_error "create new WAL") (fs_create path) in
  let! _ := fs_map_err (io_error "sync WAL directory") (sync_directory DIRECTORY) in
  fs_ret {| lw_path := path; lw_max_batch_bytes := max_batch_bytes;
            lw_max_logical_record_bytes := max_logical_record_bytes; lw_block_offset := 0 |}.

Definition log_sync (w : LogWriter) : FS unit :=
  fs_map_err (io_error "sync WAL") (file_sync_all (lw_path w)).

(** [write_logical_record]: the writer with the offset behind the record. *)
Definition log_write (w : LogWriter) (logical : bytes) : FS LogWriter :=
  let! block_offset := fs_append_loop "pad WAL block" "append WAL" "fragment fits in a WAL block"
    (write_fuel logical) (lw_path w) logical 0 true (lw_block_offset w) in
  fs_ret {| lw_path := lw_path w; lw_max_batch_bytes := lw_max_batch_bytes w;
            lw_max_logical_record_bytes := lw_max_logical_record_bytes w; lw_block_offset := block_offset |}.

Definition log_append (w : LogWriter) (sequence : Z) (batch : WriteBatch) (durability : Durability)
    : FS LogWriter :=
  if WriteBatch_is_empty batch then
    fs_fail (InvalidArgument "cannot append an empty write batch")
  else if lw_max_batch_bytes w <? approximate_bytes batch then
    fs_fail (InvalidArgument "write batch payload exceeds max_batch_bytes")
  else
    let! logical := fs_lift (encode_batch sequence batch) in
    if lw_max_logical_record_bytes w <? zlen logical then
      fs_fail (InvalidArgument "encoded write batch exceeds the checked WAL limit")
    else
      let! w := log_write w logical in
      let! _ := if bool_decide (durability = Sync) then log_sync w else fs_ret tt in
      fs_ret w.

(** ** Refinement of the pure writer *)

(** The file has the bytes of [ww]; its durable content is what [ww] has synchronized. *)
Record log_rep (i : CrashImage) (w : LogWriter) (ww : WalWriter) : Prop := {
  lr_volatile : ci_volatile i !! lw_path w = Some (wal_bytes ww);
  lr_durable : ci_durable i !! lw_path w = Some (take (Z.to_nat (ww_synced ww)) (wal_bytes ww));
  lr_content : ci_synced i !! lw_path w = None ∨ ci_synced i !! lw_path w = ci_durable i !! lw_path w;
  lr_synced : 0 ≤ ww_synced ww ≤ zlen (wal_bytes ww);
  lr_offset : lw_block_offset w = fw_offset (ww_frames ww);
  lr_block : 0 ≤ fw_offset (ww_frames ww) ≤ BLOCK_BYTES;
  lr_max : lw_max_batch_bytes w = ww_max_batch_bytes ww;
  lr_limit : lw_max_logical_record_bytes w = ww_max_logical_record_bytes ww
}.

(** Only the views of [path] differ. *)
Definition only_at (path : name) (i i' : CrashImage) : Prop := ∀ p, p ≠ path → view i' p = view i p.

#[global] Instance only_at_preorder path : PreOrder (only_at path).
Proof. split; [by intros i p|]. intros a b c H1 H2 p Hp. by rewrite (H2 p Hp), (H1 p Hp). Qed.

Lemma only_at_view path q i i' : (∀ p, p ≠ q → view i' p = view i p) → q = path → only_at path i i'.
Proof. by intros H ->. Qed.

Section Rules.
  Context (g : bool) (i : CrashImage) (E : CrashImage → Prop)
    (Hcrash : g = true → E (durable_image (ci_durable i))).

(** A crash leaves the log where it was synchronized. *)
Lemma log_sync_wp w ww (Q : unit → CrashImage → Prop) :
  log_rep i w ww →
  (∀ i', log_rep i' w (WalWriter_sync ww) → only_at (lw_path w) i i' → Q tt i') →
  wpf g (log_sync w) i Q E.
Proof using Hcrash.
  intros [Hv Hd Hc Hs Ho Hb Hm Hl] HQ. apply wp_map_err, wp_sync; [done|]. apply HQ.
  - pose proof (view_sync i (lw_path w) (wal_bytes ww) (lw_path w) Hv) as H.
    rewrite decide_True in H by done. apply view_eq in H as (H1 & H2 & H3). rewrite Hd in H3. cbn in H3.
    split; cbn; try done; [|right; congruence|unfold wal_bytes; cbn; pose proof (zlen_nonneg (fw_file (ww_frames ww))); lia].
    rewrite H3. unfold wal_bytes, zlen. by rewrite Nat2Z.id, take_ge.
  - intros p Hp. rewrite (view_sync i (lw_path w) (wal_bytes ww) p Hv). by rewrite decide_False.
Qed.

Lemma log_write_wp w ww logical frames (Q : LogWriter → CrashImage → Prop) :
  log_rep i w ww → logical ≠ [] → write_logical_record (ww_frames ww) logical = Ok frames →
  (∀ w' i', log_rep i' w' {| ww_frames := frames; ww_synced := ww_synced ww;
                             ww_max_batch_bytes := ww_max_batch_bytes ww;
                             ww_max_logical_record_bytes := ww_max_logical_record_bytes ww |} →
    lw_path w' = lw_path w → only_at (lw_path w) i i' → ci_durable i' = ci_durable i → Q w' i') →
  wpf g (log_write w logical) i Q E.
Proof using Hcrash.
  intros [Hv Hd Hc Hs Ho Hb Hm Hl] Hne Hw HQ. unfold log_write. rewrite Ho.
  destruct (write_logical_record_spec (ww_frames ww) logical Hb Hne) as (phys & o' & Hfr & Hw').
  rewrite Hw in Hw'. injection Hw' as ->. apply wp_bind. eapply append_loop_wp; [exact Hw|done|exact Hv|].
  intros phys' Hphys. cbn in Hphys. apply app_inv_head in Hphys as <-. apply wp_ret, HQ; [|done| |done].
  - pose proof (view_write i (lw_path w) phys (lw_path w)) as H. rewrite decide_True in H by done.
    apply view_eq in H as (H1 & _ & H3). rewrite Hv in H1. cbn in H1.
    split; cbn; try done.
    + rewrite Hd. f_equal. unfold wal_bytes. cbn. rewrite take_app_le; [done|]. unfold wal_bytes, zlen in Hs. lia.
    + unfold wal_bytes in *. cbn. rewrite zlen_app. zlen_pos. lia.
    + by apply (frags_offset _ _ _ _ _ Hfr).
  - intros p Hp. rewrite view_write. by rewrite decide_False.
Qed.
End Rules.

Lemma log_append_wp g i E w ww sequence batch durability ww' (Q : LogWriter → CrashImage → Prop) :
  log_rep i w ww → WalWriter_append ww sequence batch durability = Ok ww' →
  (g = true → E (durable_image (ci_durable i))) →
  (∀ w' i', log_rep i' w' ww' → lw_path w' = lw_path w → only_at (lw_path w) i i' → Q w' i') →
  wpf g (log_append w sequence batch durability) i Q E.
Proof.
  intros Hrep Ha HE HQ. unfold WalWriter_append in Ha. unfold log_append.
  destruct (WriteBatch_is_empty batch); [done|]. rewrite (lr_max _ _ _ Hrep).
  destruct (_ <? approximate_bytes batch); [done|]. destruct (encode_batch sequence batch) as [logical|] eqn:Ee; [|done].
  apply wp_bind. eapply wp_lift_ok; [done|]. rewrite (lr_limit _ _ _ Hrep). destruct (_ <? zlen logical); [done|].
  destruct (write_logical_record (ww_frames ww) logical) as [frames|] eqn:Ew; [|done]. injection Ha as <-.
  apply wp_bind. eapply log_write_wp; [exact HE|exact Hrep|by eapply encode_batch_nonempty|exact Ew|].
  intros w' i' Hrep' Hp Honly Hdur. apply wp_bind. case_bool_decide.
  - eapply log_sync_wp; [by rewrite Hdur|exact Hrep'|]. intros i2 Hrep2 Honly2. apply wp_ret, HQ; [done|done|].
    rewrite Hp in Honly2. by etrans.
  - by apply wp_ret, wp_ret, HQ.
Qed.

(** What the pure writer refuses is refused before the file changes. *)
Lemma log_append_refused i w ww sequence batch durability e s :
  log_rep i w ww → WalWriter_append ww sequence batch durability = Err e →
  log_append w sequence batch durability s = (Err e, s).
Proof.
  intros Hrep Ha. unfold WalWriter_append in Ha. unfold log_append, fs_fail. rewrite (lr_max _ _ _ Hrep), (lr_limit _ _ _ Hrep).
  destruct (WriteBatch_is_empty batch); [by injection Ha as ->|].
  destruct (_ <? approximate_bytes batch); [by injection Ha as ->|]. unfold fs_bind, fs_lift.
  destruct (encode_batch sequence batch) as [logical|] eqn:Ee; [|by injection Ha as ->].
  destruct (_ <? zlen logical); [by injection Ha as ->|].
  destruct (write_logical_record_spec (ww_frames ww) logical (lr_block _ _ _ Hrep)) as (phys & o' & _ & Hw);
    [by eapply encode_batch_nonempty|]. by rewrite Hw in Ha.
Qed.

(** A new log; the directory is synchronized with it. *)
Lemma log_create_wp g i E path max ww (Q : LogWriter → CrashImage → Prop) :
  WalWriter_create max = Ok ww → ci_volatile i !! path = None → ci_durable i !! path = None →
  (g = true → E (durable_image (ci_durable i))) →
  (∀ w i', log_rep i' w ww → lw_path w = path →
    (∀ p, p ≠ path → view i' p = view (record_directory_sync i) p) → Q w i') →
  wpf g (log_create path max) i Q E.
Proof.
  intros Hc Hv Hd HE HQ. unfold WalWriter_create in Hc. unfold log_create.
  destruct (encoded_record_limit max) as [limit|] eqn:El; [|done]. injection Hc as <-.
  apply wp_bind. eapply wp_lift_ok; [done|]. apply wp_bind, wp_map_err, wp_create; [done|].
  apply wp_bind, wp_map_err, wp_directory.
  { intros Hg. assert (ci_durable (track_new_file path i) = ci_durable i) as -> by done. by apply HE. }
  apply wp_ret, HQ; [|done|].
  - pose proof (view_directory (track_new_file path i) path) as H. pose proof (view_create i path path) as Hc.
    rewrite decide_True in Hc by done. apply view_eq in Hc as (Hc1 & Hc2 & Hc3). rewrite Hc1, Hc2, Hc3, Hd in H.
    apply view_eq in H as (H1 & H2 & H3). split; cbn; try done; rewrite ?H2; unfold BLOCK_BYTES; try lia; by left.
  - intros p Hp. rewrite !view_directory. pose proof (view_create i path p) as Hc. rewrite decide_False in Hc by done.
    apply view_eq in Hc as (-> & -> & ->). done.
Qed.

(** Synchronizing the directory does not touch a log. *)
Lemma log_rep_views i i' w ww :
  log_rep i w ww → view i' (lw_path w) = view i (lw_path w) ∨ view i' (lw_path w) = view (record_directory_sync i) (lw_path w) →
  log_rep i' w ww.
Proof.
  intros [Hv Hd Hc Hs Ho Hb Hm Hl] Hview.
  assert (view i' (lw_path w) = view i (lw_path w)) as Heq.
  { destruct Hview as [|Hview]; [done|]. rewrite Hview, view_directory. unfold view. f_equal.
    rewrite Hv. cbn. destruct Hc as [-> | ->]; rewrite Hd; done. }
  unfold view in Heq. injection Heq as H1 H2 H3. split; rewrite ?H1, ?H2, ?H3; done.
Qed.
End Log.
