(* ===== verification/Bloom.v ===== *)
(** * Bloom filters (src/crates/meteordb/src/bloom.rs)

    The filter is its serialized bytes (the bit array and a final probe-count
    byte) with the cached bit count.  Array accesses that would panic are
    [index_or_panic]; the proofs show that none does. *)

From Stdlib Require Import ZArith Lia.
From stdpp Require Import base list gmap strings.
From S2P Require Import Prelude.

Local Open Scope Z_scope.

Definition MINIMUM_FILTER_BITS : Z := 64.
Definition MAXIMUM_HASH_FUNCTIONS : Z := 30.

Record BloomFilter : Type := { bf_encoded : bytes; bf_bit_count : Z }.

#[global] Instance BloomFilter_eq_dec : EqDecision BloomFilter.
Proof. solve_decision. Defined.

Definition bloom_corruption (detail : string) : error := Corruption "Bloom filter" detail.

(** ** Hashing *)

(** 64-bit FNV-1a. *)
Definition stable_hash (key : bytes) : Z :=
  fold_left (λ hash byte, wrap64 (Z.lxor hash byte * 0x00000100000001b3)) key
    0xcbf29ce484222325.

Definition probe_bits (key : bytes) (bit_count probes : Z) : list Z :=
  let hash := stable_hash key in
  let first := wrap32 hash in
  let second := Z.lor (rotate_right32 (wrap32 (Z.shiftr hash 32)) 17) 1 in
  map (λ probe, wrap32 (first + wrap32 (Z.of_nat probe * second)) mod bit_count)
    (seq 0 (Z.to_nat probes)).

(** [bits[bit / 8] |= 1 << (bit % 8)] *)
Definition set_bit (bits : bytes) (bit : Z) : result bytes :=
  let? b := index_or_panic (bit / 8) bits in
  Ok (<[Z.to_nat (bit / 8) := Z.lor b (Z.shiftl 1 (bit mod 8))]> bits).

Definition set_key_bits (bits : bytes) (bit_count probes : Z) (key : bytes) : result bytes :=
  try_fold set_bit bits (probe_bits key bit_count probes).

(** [Iterator::all] stops at the first bit that is clear. *)
Fixpoint all_bits_set (bits : bytes) (probes : list Z) : result bool :=
  match probes with
  | [] => Ok true
  | bit :: probes =>
    let? b := index_or_panic (bit / 8) bits in
    if negb (Z.land b (Z.shiftl 1 (bit mod 8)) =? 0) then all_bits_set bits probes else Ok false
  end.

Definition key_bits_are_set (bits : bytes) (bit_count probes : Z) (key : bytes) : result bool :=
  all_bits_set bits (probe_bits key bit_count probes).

(** ** The filter *)

Definition from_keys (keys : list bytes) (bits_per_key : Z) : result BloomFilter :=
  if bits_per_key =? 0 then
    Err (InvalidArgument "Bloom filter bits_per_key must be greater than zero")
  else
    let? requested_bits := ok_or (checked_mul (zlen keys) bits_per_key)
      (InvalidArgument "Bloom filter bit allocation overflows usize") in
    let bit_count := Z.max requested_bits MINIMUM_FILTER_BITS in
    let? padded := ok_or (checked_add bit_count 7)
      (InvalidArgument "Bloom filter byte allocation overflows usize") in
    let byte_count := padded / 8 in
    let? bit_count := ok_or (checked_mul byte_count 8)
      (InvalidArgument "Bloom filter bit allocation overflows usize") in
    let probes := Z.max 1 (Z.min (bits_per_key * 69 / 100) MAXIMUM_HASH_FUNCTIONS) in
    let? bits :=
      try_fold (λ bits key, set_key_bits bits bit_count probes key)
        (replicate (Z.to_nat byte_count) 0) keys in
    Ok {| bf_encoded := bits ++ [probes]; bf_bit_count := bit_count |}.

Definition checked_bit_count (byte_count : Z) : result Z :=
  if byte_count =? 0 then Err (bloom_corruption "bit array is empty")
  else ok_or (checked_mul byte_count 8) (bloom_corruption "bit array bit count overflows usize").

(** [split_last] *)
Definition split_last (l : bytes) : option (Z * bytes) :=
  match last l with
  | Some x => Some (x, take (length l - 1) l)
  | None => None
  end.

Definition BloomFilter_decode (encoded : bytes) : result BloomFilter :=
  match split_last encoded with
  | None => Err (bloom_corruption "missing bit array and probe count")
  | Some (probes, bits) =>
    let? bit_count := checked_bit_count (zlen bits) in
    if negb ((1 <=? probes) && (probes <=? MAXIMUM_HASH_FUNCTIONS)) then
      Err (bloom_corruption "probe count is outside the range")
    else Ok {| bf_encoded := encoded; bf_bit_count := bit_count |}
  end.

Definition may_contain (f : BloomFilter) (key : bytes) : result bool :=
  match split_last (bf_encoded f) with
  | None => Err (Panicked "constructed Bloom filters always have a probe byte")
  | Some (probes, bits) => key_bits_are_set bits (bf_bit_count f) probes key
  end.

(** ** Invariant *)

Definition bloom_wf (f : BloomFilter) : Prop :=
  ∃ bits probes, bf_encoded f = bits ++ [probes] ∧ 1 ≤ probes ≤ MAXIMUM_HASH_FUNCTIONS ∧
    bf_bit_count f = 8 * zlen bits ∧ 0 < zlen bits ∧ bf_bit_count f ≤ USIZE_MAX.

Lemma split_last_snoc l x : split_last (l ++ [x]) = Some (x, l).
Proof.
  unfold split_last. rewrite last_snoc, length_app. cbn.
  by rewrite Nat.add_sub, take_app_length.
Qed.

Lemma split_last_spec l x r : split_last l = Some (x, r) → l = r ++ [x].
Proof.
  induction l as [|y l _] using rev_ind; [done|].
  rewrite split_last_snoc. by intros [= -> ->].
Qed.

Lemma probe_bits_bound key n probes :
  0 < n → Forall (λ bit, 0 ≤ bit < n) (probe_bits key n probes).
Proof.
  intros Hn. unfold probe_bits. apply Forall_forall. intros b Hb.
  apply list_elem_of_In, in_map_iff in Hb as (p & <- & _). by apply Z.mod_pos_bound.
Qed.

Lemma bit_byte_bound bit (bits : bytes) :
  0 ≤ bit < 8 * zlen bits → 0 ≤ bit / 8 ∧ (Z.to_nat (bit / 8) < length bits)%nat.
Proof.
  intros H. assert (0 ≤ bit / 8 < zlen bits) as [? ?].
  { split; [apply Z.div_pos; lia|]. apply Z.div_lt_upper_bound; lia. }
  split; [done|]. unfold zlen in *. lia.
Qed.

Lemma get_at_lookup {A} i (l : list A) : 0 ≤ i → get_at i l = l !! Z.to_nat i.
Proof. intros. unfold get_at. by rewrite (proj2 (Z.ltb_ge _ _)). Qed.

(** The bit array as a set of bits. *)
Definition bit_on (bits : bytes) (bit : Z) : Prop :=
  ∃ b, bits !! Z.to_nat (bit / 8) = Some b ∧ Z.testbit b (bit mod 8) = true.

Lemma land_bit b k : 0 ≤ k → negb (Z.land b (Z.shiftl 1 k) =? 0) = Z.testbit b k.
Proof.
  intros Hk. rewrite Z.shiftl_1_l. destruct (Z.testbit b k) eqn:E.
  - apply negb_true_iff, Z.eqb_neq. intros H0.
    assert (Z.testbit (Z.land b (2 ^ k)) k = false) as H by (by rewrite H0, Z.bits_0).
    rewrite Z.land_spec, E, Z.pow2_bits_true in H by done. done.
  - apply negb_false_iff, Z.eqb_eq. apply Z.bits_inj'. intros i Hi.
    rewrite Z.land_spec, Z.bits_0, Z.pow2_bits_eqb by done.
    destruct (Z.eqb_spec k i) as [->|]; [by rewrite E|apply andb_false_r].
Qed.

(** Setting a bit keeps the length and the bits that were on, and turns it on. *)
Lemma set_bit_spec bits bit :
  0 ≤ bit < 8 * zlen bits →
  ∃ bits', set_bit bits bit = Ok bits' ∧ length bits' = length bits ∧
    (∀ k, 0 ≤ k → bit_on bits k → bit_on bits' k) ∧ bit_on bits' bit.
Proof.
  intros Hbit. destruct (bit_byte_bound bit bits Hbit) as [Hpos Hlt].
  pose proof (Z.mod_pos_bound bit 8 ltac:(lia)) as Hm.
  unfold set_bit, index_or_panic. rewrite get_at_lookup by done.
  destruct (lookup_lt_is_Some_2 bits _ Hlt) as [b Hb]. rewrite Hb. cbn [ok_or].
  eexists. split; [done|]. split; [by rewrite length_insert|]. split.
  - intros k Hk (c & Hc & Ht). destruct (decide (Z.to_nat (k / 8) = Z.to_nat (bit / 8))) as [He|He].
    + exists (Z.lor b (Z.shiftl 1 (bit mod 8))). rewrite He, list_lookup_insert_eq by done.
      split; [done|]. rewrite He, Hb in Hc. injection Hc as ->.
      rewrite Z.lor_spec, Ht. done.
    + exists c. by rewrite list_lookup_insert_ne.
  - exists (Z.lor b (Z.shiftl 1 (bit mod 8))). rewrite list_lookup_insert_eq by done.
    split; [done|]. rewrite Z.lor_spec, Z.shiftl_1_l, Z.pow2_bits_true by lia. apply orb_true_r.
Qed.

Lemma set_bits_spec bits ps :
  Forall (λ bit, 0 ≤ bit < 8 * zlen bits) ps →
  ∃ bits', try_fold set_bit bits ps = Ok bits' ∧ length bits' = length bits ∧
    (∀ k, 0 ≤ k → bit_on bits k → bit_on bits' k) ∧ Forall (bit_on bits') ps.
Proof.
  intros Hps. remember (zlen bits) as n eqn:Hn. revert bits Hn.
  induction Hps as [|p ps Hp Hps IH]; intros bits Hn.
  { exists bits. split; [done|]. split; [done|]. split; [done|constructor]. }
  destruct (set_bit_spec bits p) as (b1 & Hb1 & Hl1 & Hk1 & Hp1); [lia|].
  destruct (IH b1) as (b2 & Hb2 & Hl2 & Hk2 & Hp2); [unfold zlen; rewrite Hl1; exact Hn|].
  exists b2. cbn [try_fold]. rewrite Hb1. split; [done|]. split; [lia|].
  split; [auto|]. constructor; [|done]. apply Hk2; [lia|done].
Qed.

Lemma all_bits_set_spec bits ps :
  Forall (λ bit, 0 ≤ bit < 8 * zlen bits) ps →
  ∃ r, all_bits_set bits ps = Ok r ∧ (r = true ↔ Forall (bit_on bits) ps).
Proof.
  induction 1 as [|p ps Hp Hps (r & Hr & Hiff)]; [exists true; done|].
  destruct (bit_byte_bound p bits Hp) as [Hpos Hlt].
  destruct (lookup_lt_is_Some_2 bits _ Hlt) as [b Hb].
  pose proof (Z.mod_pos_bound p 8 ltac:(lia)).
  cbn [all_bits_set]. unfold index_or_panic. rewrite get_at_lookup, Hb by done. cbn [ok_or].
  rewrite land_bit by lia. destruct (Z.testbit b (p mod 8)) eqn:E.
  - exists r. split; [done|]. rewrite Hiff, Forall_cons. split; [|tauto].
    intros Hf. split; [|done]. by exists b.
  - exists false. split; [done|]. rewrite Forall_cons. split; [done|].
    intros [(b' & Hb' & Ht) _]. rewrite Hb in Hb'. injection Hb' as <-. congruence.
Qed.

(** Inserting all keys leaves every probe of every key on. *)
Lemma set_keys_spec keys n probes bits :
  n = 8 * zlen bits → 0 < zlen bits →
  ∃ bits', try_fold (λ bits key, set_key_bits bits n probes key) bits keys = Ok bits' ∧
    length bits' = length bits ∧ (∀ k, 0 ≤ k → bit_on bits k → bit_on bits' k) ∧
    Forall (λ key, Forall (bit_on bits') (probe_bits key n probes)) keys.
Proof.
  revert bits. induction keys as [|key keys IH]; intros bits Hn Hpos.
  { exists bits. split; [done|]. split; [done|]. split; [done|constructor]. }
  pose proof (probe_bits_bound key n probes ltac:(lia)) as Hb.
  destruct (set_bits_spec bits (probe_bits key n probes)) as (b1 & Hb1 & Hl1 & Hk1 & Hp1);
    [by rewrite <- Hn|].
  assert (zlen b1 = zlen bits) as Hz by (unfold zlen; lia).
  destruct (IH b1) as (b2 & Hb2 & Hl2 & Hk2 & Hp2); [lia..|].
  exists b2. cbn [try_fold]. unfold set_key_bits at 1. rewrite Hb1.
  split; [done|]. split; [lia|]. split; [auto|]. constructor; [|done].
  rewrite Forall_forall in Hp1, Hb. apply Forall_forall. intros p Hp. apply Hk2; [|auto].
  by apply Hb.
Qed.

Lemma from_keys_spec keys bpk :
  0 < bpk ≤ 255 → zlen keys * bpk ≤ U32_MAX →
  ∃ f, from_keys keys bpk = Ok f ∧ bloom_wf f ∧
    Forall (λ key, may_contain f key = Ok true) keys ∧
    8 * zlen (bf_encoded f) ≤ zlen keys * bpk + 79.
Proof.
  intros Hbpk Hsmall. unfold from_keys, checked_mul, checked_add.
  rewrite (proj2 (Z.eqb_neq _ _)) by lia. unfold USIZE_MAX, U64_MAX, U32_MAX in *.
  rewrite (proj2 (Z.leb_le (zlen keys * bpk) _)) by lia. cbn [ok_or].
  unfold MINIMUM_FILTER_BITS. set (bc := Z.max (zlen keys * bpk) 64).
  rewrite (proj2 (Z.leb_le (bc + 7) _)) by lia. cbn [ok_or].
  set (byc := (bc + 7) / 8).
  assert (8 ≤ byc ∧ 8 * byc ≤ bc + 7) as [Hb1 Hb2].
  { split; [apply Z.div_le_lower_bound; lia|apply Z.mul_div_le; lia]. }
  rewrite (proj2 (Z.leb_le (byc * 8) _)) by lia. cbn [ok_or].
  set (probes := Z.max 1 _).
  assert (1 ≤ probes ≤ MAXIMUM_HASH_FUNCTIONS) as Hpr by (unfold probes, MAXIMUM_HASH_FUNCTIONS; lia).
  assert (zlen (replicate (Z.to_nat byc) 0) = byc) as Hz by (rewrite zlen_replicate; lia).
  destruct (set_keys_spec keys (byc * 8) probes (replicate (Z.to_nat byc) 0))
    as (bits & -> & Hlen & _ & Hall); [lia..|].
  assert (zlen bits = byc) as Hbits by (unfold zlen in *; lia).
  eexists. split; [done|]. split.
  - exists bits, probes. cbn. unfold USIZE_MAX, U64_MAX. split; [done|]. split; [done|]. lia.
  - split; [|cbn; pose proof (zlen_nonneg keys); zlen_lia].
    eapply Forall_impl; [exact Hall|]. intros key Hkey. unfold may_contain. cbn [bf_encoded bf_bit_count].
    rewrite split_last_snoc. unfold key_bits_are_set.
    pose proof (probe_bits_bound key (byc * 8) probes ltac:(lia)) as Hb.
    destruct (all_bits_set_spec bits (probe_bits key (byc * 8) probes)) as (r & -> & Hr).
    { rewrite Hbits. by rewrite Z.mul_comm. }
    f_equal. by apply Hr.
Qed.

Lemma bloom_wf_decode f : bloom_wf f → BloomFilter_decode (bf_encoded f) = Ok f.
Proof.
  intros (bits & probes & He & Hp & Hc & Hz & Hmax). unfold BloomFilter_decode.
  rewrite He, split_last_snoc. unfold checked_bit_count, checked_mul.
  rewrite (proj2 (Z.eqb_neq _ _)), (proj2 (Z.leb_le (zlen bits * 8) _)) by lia. cbn [ok_or].
  rewrite (proj2 (Z.leb_le 1 _)), (proj2 (Z.leb_le probes _)) by lia. cbn.
  destruct f as [e c]. cbn in *. do 2 f_equal; [done|lia].
Qed.

Lemma may_contain_total f key : bloom_wf f → ∃ answer, may_contain f key = Ok answer.
Proof.
  intros (bits & probes & He & Hp & Hc & Hz & Hmax). unfold may_contain. rewrite He, split_last_snoc.
  unfold key_bits_are_set. destruct (all_bits_set_spec bits (probe_bits key (bf_bit_count f) probes))
    as (r & -> & _); [|eauto].
  replace (8 * zlen bits) with (bf_bit_count f) by lia. apply probe_bits_bound. lia.
Qed.

(** ** Properties *)

(** [C34] No false negatives, end to end: building a filter from keys (at most
    2^32 bits) always succeeds, its serialized bytes decode to the same filter,
    and the decoded filter answers "maybe present" for every inserted key. *)
Theorem bloom_no_false_negatives (keys : list bytes) (bits_per_key : Z) :
  0 < bits_per_key ≤ 255 → zlen keys * bits_per_key ≤ U32_MAX →
  ∃ f, from_keys keys bits_per_key = Ok f ∧ BloomFilter_decode (bf_encoded f) = Ok f ∧
    ∀ key, key ∈ keys → may_contain f key = Ok true.
Proof.
  intros H1 H2. destruct (from_keys_spec keys bits_per_key H1 H2) as (f & Hf & Hwf & Hall & _).
  exists f. split; [done|]. split; [by apply bloom_wf_decode|].
  rewrite Forall_forall in Hall. exact Hall.
Qed.

(** Witness of C34: two keys at ten bits each. *)
Lemma bloom_no_false_negatives_witness :
  ∃ f, from_keys [[1; 2]; [3]] 10 = Ok f ∧ BloomFilter_decode (bf_encoded f) = Ok f ∧
    ∀ key, key ∈ [[1; 2]; [3]] → may_contain f key = Ok true.
Proof. apply (bloom_no_false_negatives [[1; 2]; [3]] 10); eval_done. Defined.

(** A decoded filter never panics: whatever bytes were accepted, a lookup of
    any key stays inside the bit array and returns an answer, and rejected bytes
    are reported as corruption. *)
Theorem bloom_decoded_lookup_total (encoded : bytes) :
  match BloomFilter_decode encoded with
  | Ok f => bf_encoded f = encoded ∧ ∀ key, ∃ answer, may_contain f key = Ok answer
  | Err e => ∃ detail, e = bloom_corruption detail
  end.
Proof.
  unfold BloomFilter_decode. destruct (split_last encoded) as [[probes bits]|] eqn:Es; [|eauto].
  unfold checked_bit_count, checked_mul. destruct (Z.eqb_spec (zlen bits) 0) as [|Hne]; [eauto|].
  destruct (_ <=? USIZE_MAX); cbn [ok_or]; [|eauto]. destruct (negb _); [eauto|].
  split; [done|]. intros key. unfold may_contain. cbn [bf_encoded bf_bit_count]. rewrite Es.
  unfold key_bits_are_set. pose proof (zlen_nonneg bits).
  destruct (all_bits_set_spec bits (probe_bits key (zlen bits * 8) probes)) as (r & -> & _);
    [|eauto].
  rewrite (Z.mul_comm 8). apply probe_bits_bound. lia.
Qed.
