(* ===== verification/Format.v ===== *)
(** * SSTable primitives (src/crates/meteordb/src/sstable/format.rs)

    Unsigned varints, block handles and the checksummed envelope of stored
    blocks.  [read_varint] and [validate_compression] return a message instead
    of an [Error]; their results are sums whose right side is the message. *)

From Stdlib Require Import ZArith Lia.
From stdpp Require Import base list gmap strings.
From S2P Require Import Prelude Checksum.

Local Open Scope Z_scope.

Definition BLOCK_TRAILER_BYTES : Z := 5.
Definition NO_COMPRESSION : Z := 0.
Definition SNAPPY_COMPRESSION : Z := 1.
Definition SSTABLE_FORMAT_VERSION : Z := 2.
Definition SSTABLE_MAGIC : bytes := [77; 69; 84; 69; 79; 82; 48; 49].
Definition SSTABLE_FOOTER_BYTES : Z := 72.

Record BlockHandle : Type := { bh_offset : Z; bh_size : Z }.

#[global] Instance BlockHandle_eq_dec : EqDecision BlockHandle.
Proof. solve_decision. Defined.

Definition handle_corruption (detail : string) : error := Corruption "SSTable block handle" detail.
Definition block_corruption (detail : string) : error := Corruption "SSTable block" detail.

(** ** Varints *)

(** [while value >= 0x80]: at most ten bytes for a [u64]. *)
Fixpoint put_varint_loop (fuel : nat) (value : Z) : bytes :=
  match fuel with
  | O => []
  | S fuel =>
    if 0x80 <=? value then
      Z.lor (value mod 256) 0x80 :: put_varint_loop fuel (Z.shiftr value 7)
    else [value mod 256]
  end.

Definition put_varint (encoded : bytes) (value : Z) : bytes :=
  encoded ++ put_varint_loop 10 value.

(** [for index in 0..10] *)
Fixpoint read_varint_loop (fuel : nat) (encoded : bytes) (start index value : Z)
    : (Z * Z) + string :=
  match fuel with
  | O => inr "varint exceeds ten bytes"%string
  | S fuel =>
    match checked_add start index with
    | None => inr "cursor overflows usize"%string
    | Some position =>
      match get_at position encoded with
      | None => inr "truncated varint"%string
      | Some byte =>
        if (index =? 9) && (1 <? byte) then inr "varint overflows u64"%string
        else
          let value := Z.lor value (wrap64 (Z.shiftl (Z.land byte 0x7f) (index * 7))) in
          if Z.land byte 0x80 =? 0 then
            if (0 <? index) && (byte =? 0) then inr "varint is not canonically encoded"%string
            else inl (value, index + 1)
          else read_varint_loop fuel encoded start (index + 1) value
      end
    end
  end.

Definition read_varint (encoded : bytes) (start : Z) : (Z * Z) + string :=
  read_varint_loop 10 encoded start 0 0.

(** [map_err] from a message. *)
Definition with_error {A} (f : string → error) (r : A + string) : result A :=
  match r with inl a => Ok a | inr detail => Err (f detail) end.

(** ** Block handles *)

Definition BlockHandle_encode (h : BlockHandle) : bytes :=
  put_varint (put_varint [] (bh_offset h)) (bh_size h).

Definition BlockHandle_decode (encoded : bytes) : result (BlockHandle * Z) :=
  let? (offset, offset_bytes) := with_error handle_corruption (read_varint encoded 0) in
  let? (size, size_bytes) := with_error handle_corruption (read_varint encoded offset_bytes) in
  let? consumed := ok_or (checked_add offset_bytes size_bytes)
    (handle_corruption "encoded length overflows usize") in
  let? _ := ok_or (checked_add offset size)
    (handle_corruption "block offset plus size overflows u64") in
  Ok ({| bh_offset := offset; bh_size := size |}, consumed).

(** ** Stored blocks *)

Definition validate_compression (compression : Z) : unit + string :=
  if (compression =? NO_COMPRESSION) || (compression =? SNAPPY_COMPRESSION) then inl tt
  else inr "unknown compression marker"%string.

Section Stored.
  Context `{C : Crc32c}.

Definition block_checksum (payload : bytes) (compression : Z) : Z :=
  crc32c_append (crc32c payload) [compression].

Definition masked_block_checksum (payload : bytes) (compression : Z) : Z :=
  mask_checksum (block_checksum payload compression).

Definition encode_stored_block (payload : bytes) (compression : Z) : result bytes :=
  let? _ := with_error InvalidArgument (validate_compression compression) in
  let? _ := ok_or (checked_add (zlen payload) BLOCK_TRAILER_BYTES)
    (InvalidArgument "stored block length overflows usize") in
  Ok (payload ++ [compression] ++ to_le 4 (masked_block_checksum payload compression)).

Definition decode_stored_block (encoded : bytes) : result (bytes * Z) :=
  if zlen encoded <? BLOCK_TRAILER_BYTES then
    Err (block_corruption "stored block is shorter than its trailer")
  else
    let payload_end := zlen encoded - BLOCK_TRAILER_BYTES in
    let payload := slice 0 payload_end encoded in
    let? compression := index_or_panic payload_end encoded in
    let? _ := with_error block_corruption (validate_compression compression) in
    let stored := from_le (slice (payload_end + 1) (zlen encoded) encoded) in
    if negb (unmask_checksum stored =? block_checksum payload compression) then
      Err (block_corruption "checksum mismatch")
    else Ok (payload, compression).
End Stored.

(** ** Varint arithmetic *)

Lemma lor_shift_add a b k :
  0 ≤ k → 0 ≤ a < 2 ^ k → 0 ≤ b → Z.lor a (Z.shiftl b k) = a + b * 2 ^ k.
Proof.
  intros Hk Ha Hb. rewrite <- Z.shiftl_mul_pow2 by done.
  rewrite <- Z.lxor_lor, Z.add_nocarry_lxor; [done| |].
  all: apply Z.bits_inj'; intros i Hi; rewrite Z.land_spec, Z.bits_0, Z.shiftl_spec by done;
    destruct (Z.lt_ge_cases i k);
    [rewrite (Z.testbit_neg_r b) by lia; apply andb_false_r|].
  all: rewrite <- (Z.mod_small a (2 ^ k)) by done; by rewrite Z.mod_pow2_bits_high by lia.
Qed.

Lemma byte_split b :
  is_u8 b → Z.land b 0x7f = b mod 128 ∧ (Z.land b 0x80 =? 0) = (b <? 128).
Proof.
  intros Hb. unfold is_u8, U8_MAX in Hb.
  assert (Forall (λ n, Z.land (Z.of_nat n) 0x7f = Z.of_nat n mod 128 ∧
    (Z.land (Z.of_nat n) 0x80 =? 0) = (Z.of_nat n <? 128)) (seq 0 256)) as Hall by eval_done.
  rewrite Forall_forall in Hall. specialize (Hall (Z.to_nat b)).
  rewrite Z2Nat.id in Hall by lia. apply Hall, elem_of_seq. lia.
Qed.

Lemma put_byte v : 128 ≤ v → let b := Z.lor (v mod 256) 0x80 in
  is_u8 b ∧ 128 ≤ b ∧ b mod 128 = v mod 128.
Proof.
  intros Hv. cbn zeta.
  assert (Forall (λ n, is_u8 (Z.lor (Z.of_nat n) 0x80) ∧ 128 ≤ Z.lor (Z.of_nat n) 0x80 ∧
    Z.lor (Z.of_nat n) 0x80 mod 128 = Z.of_nat n mod 128) (seq 0 256)) as Hall by eval_done.
  pose proof (Z.mod_pos_bound v 256). rewrite Forall_forall in Hall.
  specialize (Hall (Z.to_nat (v mod 256))). rewrite Z2Nat.id in Hall by lia.
  destruct Hall as (H1 & H2 & H3); [apply elem_of_seq; lia|]. split; [done|]. split; [done|].
  rewrite H3. apply Z.mod_mod_divide. by exists 2.
Qed.

Lemma put_varint_loop_ok fuel v : 0 ≤ v → bytes_ok (put_varint_loop fuel v).
Proof.
  revert v. induction fuel as [|fuel IH]; intros v Hv; cbn [put_varint_loop]; [constructor|].
  destruct (Z.leb_spec 0x80 v).
  - constructor; [by apply put_byte|]. apply IH. by apply Z.shiftr_nonneg.
  - constructor; [apply is_u8_byte|constructor].
Qed.

(** One byte of the reading loop, as arithmetic. *)
Lemma read_accumulate i acc b :
  0 ≤ i ≤ 9 → 0 ≤ acc < 2 ^ (7 * i) → is_u8 b → (i = 9 → b ≤ 1) →
  Z.lor acc (wrap64 (Z.shiftl (Z.land b 0x7f) (i * 7))) = acc + b mod 128 * 2 ^ (7 * i).
Proof.
  intros Hi Hacc Hb H9. destruct (byte_split b Hb) as [-> _]. unfold is_u8, U8_MAX in Hb.
  rewrite (Z.mul_comm i 7). pose proof (Z.mod_pos_bound b 128 ltac:(lia)) as Hm.
  unfold wrap64. rewrite Z.mod_small; [apply lor_shift_add; lia|].
  rewrite Z.shiftl_mul_pow2 by lia. split; [apply Z.mul_nonneg_nonneg; lia|].
  destruct (Z.eq_dec i 9) as [->|Hne].
  - specialize (H9 eq_refl). rewrite Z.mod_small by lia.
    apply Z.le_lt_trans with (1 * 2 ^ (7 * 9)); [apply Z.mul_le_mono_nonneg_r; lia|by vm_compute].
  - apply Z.lt_le_trans with (128 * 2 ^ (7 * i)).
    + apply Z.mul_lt_mono_pos_r; [apply Z.pow_pos_nonneg; lia|lia].
    + change 128 with (2 ^ 7). rewrite <- Z.pow_add_r by lia. apply Z.pow_le_mono_r; lia.
Qed.

Lemma pow_split k i : 0 ≤ i → 7 * i + 7 ≤ k → 2 ^ (k - 7 * i) = 128 * 2 ^ (k - 7 * (i + 1)).
Proof. intros. change 128 with (2 ^ 7). rewrite <- Z.pow_add_r by lia. f_equal. lia. Qed.

Lemma pow_step i : 0 ≤ i → 2 ^ (7 * (i + 1)) = 128 * 2 ^ (7 * i).
Proof. intros. change 128 with (2 ^ 7). rewrite <- Z.pow_add_r by lia. f_equal. lia. Qed.

(** Reading what was put. *)
Lemma read_loop_put fuel encoded start rest i acc v :
  drop (Z.to_nat (start + i)) encoded = put_varint_loop fuel v ++ rest →
  Z.of_nat fuel + i = 10 → 0 ≤ i ≤ 9 → 0 ≤ start → start + i ≤ zlen encoded →
  zlen encoded ≤ USIZE_MAX →
  0 ≤ acc < 2 ^ (7 * i) → 0 ≤ v < 2 ^ (64 - 7 * i) → (0 < i → 0 < v) →
  read_varint_loop fuel encoded start i acc =
    inl (acc + v * 2 ^ (7 * i), i + zlen (put_varint_loop fuel v)).
Proof.
  revert i acc v. induction fuel as [|fuel IH]; intros i acc v Hd Hf Hi Hs Hin Hmax Hacc Hv Hcan; [lia|].
  cbn [put_varint_loop read_varint_loop] in *. unfold checked_add.
  rewrite (proj2 (Z.leb_le (start + i) _)) by lia.
  destruct (Z.leb_spec 0x80 v) as [Hge|Hlt].
  - destruct (put_byte v Hge) as (Hb & Hb128 & Hbm).
    change ((?x :: ?l) ++ rest) with ([x] ++ l ++ rest) in Hd.
    pose proof (drop_advance' _ [Z.lor (v mod 256) 128] _ _ Hd ltac:(lia)) as Hd2.
    pose proof (drop_fits' _ [Z.lor (v mod 256) 128] _ _ Hd ltac:(lia)) as Hfit. zlen_simpl.
    rewrite (get_at_drop' _ _ _ _ Hd ltac:(lia)).
    assert (i ≤ 8) as Hi8.
    { destruct (Z.eq_dec i 9) as [->|]; [|lia]. change (2 ^ (64 - 7 * 9)) with 2 in Hv. lia. }
    rewrite (proj2 (Z.eqb_neq i 9)) by lia. cbn [andb].
    rewrite read_accumulate by (done || lia). destruct (byte_split _ Hb) as [_ ->].
    rewrite (proj2 (Z.ltb_ge _ 128)) by lia. rewrite Hbm, Z.shiftr_div_pow2 by lia.
    change (2 ^ 7) with 128 in *. rewrite Z.shiftr_div_pow2 in Hd2 by lia. change (2 ^ 7) with 128 in Hd2.
    pose proof (Z.mod_pos_bound v 128 ltac:(lia)) as Hvm. pose proof (Z.div_mod v 128 ltac:(lia)) as Hdm.
    pose proof (Z.pow_pos_nonneg 2 (7 * i) ltac:(lia) ltac:(lia)).
    rewrite (IH (i + 1) _ (v / 128)); [| |lia|lia|lia|lia|lia| | |].
    + rewrite pow_step by lia. f_equal. f_equal; [|zlen_lia]. rewrite Hdm at 3. ring.
    + rewrite <- Hd2. do 2 f_equal. zlen_lia.
    + rewrite pow_step by lia. nia.
    + rewrite (pow_split 64 i) in Hv by lia. split; [apply Z.div_pos; lia|].
      apply Z.div_lt_upper_bound; lia.
    + intros _. apply Z.div_str_pos. lia.
  - rewrite (get_at_drop' _ _ _ _ Hd ltac:(lia)).
    assert (is_u8 (v mod 256)) as Hb by apply is_u8_byte.
    assert (v mod 256 = v) as Hv256 by (apply Z.mod_small; lia).
    assert (i = 9 → v ≤ 1) as H9.
    { intros ->. change (2 ^ (64 - 7 * 9)) with 2 in Hv. lia. }
    rewrite Hv256 in *. destruct (Z.eqb_spec i 9) as [He|Hne];
      [rewrite (proj2 (Z.ltb_ge 1 v)) by (specialize (H9 He); lia)|]; cbn [andb].
    all: rewrite read_accumulate by (done || lia); destruct (byte_split v Hb) as [_ ->];
      rewrite (proj2 (Z.ltb_lt v 128)) by lia; rewrite (Z.mod_small v 128) by lia.
    all: destruct (Z.ltb_spec 0 i); cbn [andb]; [rewrite (proj2 (Z.eqb_neq v 0)) by lia|]; done.
Qed.

Lemma get_at_sound {A} pos (l : list A) x :
  get_at pos l = Some x → 0 ≤ pos →
  pos < zlen l ∧ drop (Z.to_nat pos) l = x :: drop (Z.to_nat (pos + 1)) l.
Proof.
  unfold get_at. intros H Hp. rewrite (proj2 (Z.ltb_ge _ _)) in H by done.
  pose proof (lookup_lt_Some _ _ _ H). split; [unfold zlen; lia|].
  replace (Z.to_nat (pos + 1)) with (S (Z.to_nat pos)) by lia. by apply drop_S.
Qed.

(** What is read was put: the encoding is canonical. *)
Lemma read_loop_sound fuel encoded start i acc v n :
  read_varint_loop fuel encoded start i acc = inl (v, n) → bytes_ok encoded →
  Z.of_nat fuel + i = 10 → 0 ≤ i → 0 ≤ start → 0 ≤ acc < 2 ^ (7 * i) →
  ∃ w, 0 ≤ w < 2 ^ (64 - 7 * i) ∧ (0 < i → 0 < w) ∧ v = acc + w * 2 ^ (7 * i) ∧
    n = i + zlen (put_varint_loop fuel w) ∧ start + n ≤ zlen encoded ∧
    drop (Z.to_nat (start + i)) encoded =
      put_varint_loop fuel w ++ drop (Z.to_nat (start + n)) encoded.
Proof.
  revert i acc. induction fuel as [|fuel IH]; intros i acc H Hok Hf Hi Hs Hacc; [done|].
  cbn [read_varint_loop] in H. unfold checked_add in H.
  destruct (_ <=? USIZE_MAX); [|done].
  destruct (get_at _ encoded) as [b|] eqn:Eb; [|done].
  destruct (get_at_sound _ _ _ Eb ltac:(lia)) as [Hlt Hd].
  assert (is_u8 b) as Hb.
  { pose proof (Forall_drop _ (Z.to_nat (start + i)) _ Hok) as Hdk. rewrite Hd in Hdk.
    by apply Forall_cons in Hdk as [? _]. }
  destruct ((i =? 9) && (1 <? b)) eqn:E9; [done|].
  assert (i = 9 → b ≤ 1) as H9.
  { intros ->. destruct (Z.ltb_spec 1 b); [done|lia]. }
  rewrite read_accumulate in H by (done || lia).
  destruct (byte_split b Hb) as [_ Hbit]. rewrite Hbit in H. unfold is_u8, U8_MAX in Hb.
  pose proof (Z.pow_pos_nonneg 2 (7 * i) ltac:(lia) ltac:(lia)).
  destruct (Z.ltb_spec b 128) as [Hsmall|Hbig].
  - destruct ((0 <? i) && (b =? 0)) eqn:Ec; [done|]. injection H as <- <-.
    rewrite (Z.mod_small b 128) by lia. exists b. cbn [put_varint_loop].
    rewrite (proj2 (Z.leb_gt 128 b)), (Z.mod_small b 256) by lia. zlen_simpl.
    split; [split; [lia|]|].
    { destruct (Z.eq_dec i 9) as [->|Hne]; [change (2 ^ (64 - 7 * 9)) with 2; lia|].
      apply Z.lt_le_trans with (2 ^ 7); [change (2 ^ 7) with 128; lia|apply Z.pow_le_mono_r; lia]. }
    split; [intros Hpos; destruct (Z.ltb_spec 0 i); [|lia]; cbn in Ec; to_prop; lia|].
    split; [done|]. split; [lia|]. split; [lia|]. rewrite Hd. cbn [app]. do 3 f_equal. lia.
  - assert (i ≤ 8) as Hi8 by (destruct (Z.eq_dec i 9); [subst i; lia|lia]).
    pose proof (Z.mod_pos_bound b 128 ltac:(lia)).
    apply IH in H as (w & Hw & Hcan & -> & -> & Hn & Hd2); [|done|lia|lia|lia|rewrite pow_step by lia; nia].
    specialize (Hcan ltac:(lia)). exists (b mod 128 + w * 128).
    assert ((b mod 128 + w * 128) mod 128 = b mod 128) as Hm.
    { rewrite Z.mod_add by lia. by rewrite Z.mod_mod by lia. }
    assert ((b mod 128 + w * 128) / 128 = w) as Hq.
    { rewrite Z.div_add by lia. rewrite Z.div_small by lia. lia. }
    cbn [put_varint_loop]. rewrite (proj2 (Z.leb_le 128 _)) by lia.
    rewrite Z.shiftr_div_pow2 by lia. change (2 ^ 7) with 128. rewrite Hq.
    assert (Z.lor ((b mod 128 + w * 128) mod 256) 128 = b) as Hbyte.
    { destruct (put_byte (b mod 128 + w * 128) ltac:(lia)) as (Hu & Hge & Hmm).
      rewrite Hm in Hmm. unfold is_u8, U8_MAX in Hu.
      pose proof (Z.div_mod b 128 ltac:(lia)). pose proof (Z.div_mod (Z.lor ((b mod 128 + w * 128) mod 256) 128) 128 ltac:(lia)).
      assert (b / 128 = 1) by (symmetry; apply (Z.div_unique b 128 1 (b - 128)); lia).
      assert (Z.lor ((b mod 128 + w * 128) mod 256) 128 / 128 = 1)
        by (symmetry; apply (Z.div_unique _ 128 1 (Z.lor ((b mod 128 + w * 128) mod 256) 128 - 128)); lia).
      lia. }
    rewrite Hbyte. zlen_simpl. rewrite (pow_split 64 i) by lia.
    split; [nia|]. split; [lia|]. split; [rewrite pow_step by lia; ring|].
    split; [lia|]. split; [lia|]. rewrite Hd. cbn [app]. f_equal.
    rewrite <- Z.add_assoc, Hd2. done.
Qed.

(** ** Varints at a cursor *)

Lemma read_varint_put encoded start v rest :
  drop (Z.to_nat start) encoded = put_varint [] v ++ rest → is_u64 v →
  0 ≤ start ≤ zlen encoded → zlen encoded ≤ USIZE_MAX →
  read_varint encoded start = inl (v, zlen (put_varint [] v)).
Proof.
  unfold put_varint, read_varint. cbn [app]. intros Hd Hv Hs Hmax.
  rewrite (read_loop_put 10 encoded start rest 0 0 v); rewrite ?Z.add_0_r; try done; try lia.
  - do 2 f_equal. change (2 ^ (7 * 0)) with 1. lia.
  - unfold is_u64, U64_MAX in Hv. change (2 ^ (64 - 7 * 0)) with 18446744073709551616. lia.
Qed.

Lemma read_varint_sound encoded start v n :
  read_varint encoded start = inl (v, n) → bytes_ok encoded → 0 ≤ start →
  is_u64 v ∧ n = zlen (put_varint [] v) ∧ start + n ≤ zlen encoded ∧
  drop (Z.to_nat start) encoded = put_varint [] v ++ drop (Z.to_nat (start + n)) encoded.
Proof.
  unfold put_varint, read_varint. cbn [app]. intros H Hok Hs.
  apply read_loop_sound in H as (w & Hw & _ & -> & -> & Hn & Hd); [|done|lia..|done].
  rewrite Z.add_0_r in Hd. change (2 ^ (7 * 0)) with 1. change (2 ^ (64 - 7 * 0)) with 18446744073709551616 in Hw.
  replace (0 + w * 1) with w by lia. unfold is_u64, U64_MAX.
  split; [lia|]. split; [lia|]. split; [lia|]. exact Hd.
Qed.

Lemma put_varint_len v : 1 ≤ zlen (put_varint [] v) ≤ 10.
Proof.
  unfold put_varint. cbn [app].
  assert (∀ fuel v, zlen (put_varint_loop fuel v) ≤ Z.of_nat fuel) as H.
  { induction fuel as [|fuel IH]; intros w; cbn [put_varint_loop]; [done|].
    destruct (_ <=? w); zlen_simpl; [specialize (IH (Z.shiftr w 7)); lia|lia]. }
  split; [|apply H]. cbn [put_varint_loop]. destruct (_ <=? v); zlen_lia.
Qed.

Lemma BlockHandle_encode_len h : 2 ≤ zlen (BlockHandle_encode h) ≤ 20.
Proof.
  unfold BlockHandle_encode. change (put_varint (put_varint [] ?o) ?z) with (put_varint [] o ++ put_varint [] z).
  rewrite zlen_app. pose proof (put_varint_len (bh_offset h)). pose proof (put_varint_len (bh_size h)). lia.
Qed.

Lemma BlockHandle_decode_put h rest :
  is_u64 (bh_offset h) → is_u64 (bh_size h) → bh_offset h + bh_size h ≤ U64_MAX →
  zlen (BlockHandle_encode h ++ rest) ≤ USIZE_MAX →
  BlockHandle_decode (BlockHandle_encode h ++ rest) = Ok (h, zlen (BlockHandle_encode h)).
Proof.
  destruct h as [o z]. unfold BlockHandle_encode. cbn [bh_offset bh_size].
  change (put_varint (put_varint [] o) z) with (put_varint [] o ++ put_varint [] z).
  intros Ho Hz Hsum Hmax. set (encoded := (put_varint [] o ++ put_varint [] z) ++ rest) in *.
  assert (drop (Z.to_nat 0) encoded = put_varint [] o ++ put_varint [] z ++ rest) as Hd.
  { unfold encoded. by rewrite <- app_assoc. }
  pose proof (put_varint_len o). pose proof (put_varint_len z).
  pose proof (drop_fits' _ _ _ _ Hd ltac:(zlen_pos; lia)).
  pose proof (drop_advance' _ _ _ _ Hd ltac:(lia)) as Hd2.
  unfold BlockHandle_decode.
  rewrite (read_varint_put _ _ _ _ Hd) by (first [done | zlen_pos; lia]). cbn [with_error].
  rewrite Z.add_0_l in Hd2. rewrite (read_varint_put _ _ _ _ Hd2) by (done || lia). cbn [with_error].
  pose proof (drop_fits' _ _ _ _ Hd2 ltac:(lia)).
  unfold checked_add. rewrite (proj2 (Z.leb_le (zlen _ + zlen _) _)) by lia. cbn [ok_or].
  rewrite (proj2 (Z.leb_le (o + z) _)) by (unfold USIZE_MAX; lia). cbn [ok_or]. by rewrite zlen_app.
Qed.

(** ** Properties *)

(** Block handles are exact: a byte string decodes to a handle and a consumed
    length precisely when it starts with the handle's (canonical) encoding of that
    length, for handles whose end does not overflow; non-canonical, truncated and
    overflowing varints are rejected. *)
Theorem block_handle_exact (encoded : bytes) (h : BlockHandle) (consumed : Z) :
  bytes_ok encoded → zlen encoded ≤ USIZE_MAX →
  BlockHandle_decode encoded = Ok (h, consumed) ↔
  is_u64 (bh_offset h) ∧ is_u64 (bh_size h) ∧ bh_offset h + bh_size h ≤ U64_MAX ∧
  consumed = zlen (BlockHandle_encode h) ∧
  encoded = BlockHandle_encode h ++ drop (Z.to_nat consumed) encoded.
Proof.
  intros Hok Hmax. destruct h as [o z]. unfold BlockHandle_encode. cbn [bh_offset bh_size].
  assert (put_varint (put_varint [] o) z = put_varint [] o ++ put_varint [] z) as -> by done.
  pose proof (put_varint_len o). pose proof (put_varint_len z). split.
  - intros H1. unfold BlockHandle_decode in H1.
    destruct (read_varint encoded 0) as [[o' n1]|] eqn:R1; [|done]. cbn [with_error] in H1.
    apply read_varint_sound in R1 as (Ho & -> & Hn1 & Hd1); [|done..].
    destruct (read_varint encoded _) as [[z' n2]|] eqn:R2; [|done]. cbn [with_error] in H1.
    apply read_varint_sound in R2 as (Hz & -> & Hn2 & Hd2); [|done|apply zlen_nonneg].
    unfold checked_add in H1. destruct (_ <=? USIZE_MAX); [|done]. cbn [ok_or] in H1.
    destruct (Z.leb_spec (o' + z') USIZE_MAX); [|done]. cbn [ok_or] in H1. injection H1 as -> -> <-.
    do 2 (split; [done|]). split; [done|]. rewrite zlen_app. split; [lia|].
    change encoded with (drop (Z.to_nat 0) encoded) at 1. rewrite Hd1, Z.add_0_l, Hd2, <- app_assoc. done.
  - intros (Ho & Hz & Hsum & -> & Henc). rewrite Henc at 1.
    apply (BlockHandle_decode_put {| bh_offset := o; bh_size := z |}); [done|done|done|].
    unfold BlockHandle_encode. cbn [bh_offset bh_size].
    change (put_varint (put_varint [] o) z) with (put_varint [] o ++ put_varint [] z).
    by rewrite <- Henc.
Qed.

(** A use of it: a handle followed by padding. *)
Lemma block_handle_exact_witness :
  BlockHandle_decode [172; 2; 5; 0; 0] = Ok ({| bh_offset := 300; bh_size := 5 |}, 3).
Proof.
  apply (block_handle_exact [172; 2; 5; 0; 0] {| bh_offset := 300; bh_size := 5 |} 3); eval_done.
Defined.

Lemma decode_stored_spec `{C : Crc32c} {CR : Crc32cRange C} payload compression trailer :
  zlen trailer = 4 →
  decode_stored_block (payload ++ [compression] ++ trailer) =
    let? _ := with_error block_corruption (validate_compression compression) in
    if negb (unmask_checksum (from_le trailer) =? block_checksum payload compression) then
      Err (block_corruption "checksum mismatch")
    else Ok (payload, compression).
Proof.
  intros Ht. unfold decode_stored_block.
  assert (zlen (payload ++ [compression] ++ trailer) = zlen payload + 5) as Hlen by zlen_lia.
  rewrite Hlen. unfold BLOCK_TRAILER_BYTES. pose proof (zlen_nonneg payload).
  rewrite (proj2 (Z.ltb_ge _ _)) by lia. replace (zlen payload + 5 - 5) with (zlen payload) by lia.
  assert (slice 0 (zlen payload) (payload ++ [compression] ++ trailer) = payload) as ->.
  { unfold slice. cbn [drop]. rewrite Z.sub_0_r. by apply take_app_z. }
  assert (drop (Z.to_nat (zlen payload)) (payload ++ [compression] ++ trailer) =
    [compression] ++ trailer) as Hd by (by apply drop_app_z).
  unfold index_or_panic. rewrite (get_at_drop' _ _ _ _ Hd) by lia. cbn [ok_or].
  apply drop_advance' in Hd; [|lia]. change (zlen [compression]) with 1 in Hd.
  unfold slice. rewrite Hd. rewrite take_ge; [done|]. unfold zlen in Ht. lia.
Qed.

Lemma decode_encode_stored `{C : Crc32c} {CR : Crc32cRange C} payload compression encoded :
  encode_stored_block payload compression = Ok encoded →
  zlen encoded = zlen payload + 5 ∧ decode_stored_block encoded = Ok (payload, compression).
Proof.
  unfold encode_stored_block, validate_compression.
  destruct (_ || _) eqn:E; cbn [with_error]; [|done]. unfold checked_add, BLOCK_TRAILER_BYTES.
  destruct (_ <=? _); cbn [ok_or]; [|done]. intros [= <-].
  split; [zlen_lia|]. change (compression :: to_le 4 ?x) with ([compression] ++ to_le 4 x). rewrite decode_stored_spec by (by zlen_simpl).
  unfold validate_compression. rewrite E. cbn [with_error]. rewrite from_le_to_le.
  2:{ pose proof (mask_checksum_u32 (block_checksum payload compression)) as Hm.
      unfold is_u32, U32_MAX in Hm. unfold masked_block_checksum. lia. }
  unfold masked_block_checksum. rewrite unmask_mask by apply crc32c_append_u32.
  by rewrite Z.eqb_refl.
Qed.

(** Stored blocks: whatever a block framed by [encode_stored_block] is read
    back as, it is the payload and codec that were framed; the only framings
    refused are unknown codecs. *)
Theorem stored_block_roundtrip `{C : Crc32c} {CR : Crc32cRange C} (payload : bytes) (compression : Z) :
  zlen payload + 5 ≤ USIZE_MAX →
  match encode_stored_block payload compression with
  | Ok encoded => zlen encoded = zlen payload + 5 ∧
      decode_stored_block encoded = Ok (payload, compression)
  | Err e => e = InvalidArgument "unknown compression marker" ∧
      compression ≠ NO_COMPRESSION ∧ compression ≠ SNAPPY_COMPRESSION
  end.
Proof.
  intros Hmax. destruct (encode_stored_block payload compression) eqn:E.
  - by apply decode_encode_stored.
  - unfold encode_stored_block, validate_compression in E. destruct (_ || _) eqn:Ec; cbn in E.
    + unfold checked_add, BLOCK_TRAILER_BYTES in E. by rewrite (proj2 (Z.leb_le _ _)) in E by lia.
    + injection E as <-. to_prop. done.
Qed.

(** An instance. *)
Lemma stored_block_roundtrip_witness :
  zlen [1; 2; 3] + 5 ≤ USIZE_MAX ∧
  match @encode_stored_block Castagnoli.crc [1; 2; 3] NO_COMPRESSION with
  | Ok encoded => zlen encoded = zlen [1; 2; 3] + 5 ∧
      @decode_stored_block Castagnoli.crc encoded = Ok ([1; 2; 3], NO_COMPRESSION)
  | Err e => e = InvalidArgument "unknown compression marker" ∧
      NO_COMPRESSION ≠ NO_COMPRESSION ∧ NO_COMPRESSION ≠ SNAPPY_COMPRESSION
  end.
Proof.
  split; [eval_done|].
  apply (@stored_block_roundtrip Castagnoli.crc castagnoli_range [1; 2; 3] NO_COMPRESSION). eval_done.
Defined.
