(* ===== verification/Block.v ===== *)
(** * SSTable data blocks (src/crates/meteordb/src/sstable/block.rs)

    [BlockBuilder] with prefix compression and restart points, the validating
    [Block::decode], iteration and [seek].  The proofs describe a decoded block by
    the chain of its entries ([chain]): whatever bytes were accepted, iteration
    walks that chain in strictly increasing key order and a seek returns its
    first key not below the target; blocks written by the builder decode to the
    entries that were added. *)

From Stdlib Require Import ZArith Lia Sorting.Sorted.
From stdpp Require Import base list gmap strings.
From S2P Require Import Prelude Format.

Local Open Scope Z_scope.

Definition FIXED_RESTART_BYTES : Z := 4.

Definition data_corruption (detail : string) : error := Corruption "SSTable data block" detail.

(** ** Builder *)

Record BlockBuilder : Type := {
  bb_restart_interval : Z;
  bb_entries_since_restart : Z;
  bb_entries : bytes;
  bb_restarts : list Z;
  bb_previous_key : bytes;
  bb_entry_count : Z
}.

Definition BlockBuilder_try_new (restart_interval : Z) : result BlockBuilder :=
  if restart_interval =? 0 then
    Err (InvalidArgument "restart_interval must be greater than zero")
  else
    Ok {| bb_restart_interval := restart_interval;
          bb_entries_since_restart := 0;
          bb_entries := [];
          bb_restarts := [0];
          bb_previous_key := [];
          bb_entry_count := 0 |}.

Fixpoint shared_prefix (l r : bytes) : Z :=
  match l, r with
  | x :: l, y :: r => if x =? y then 1 + shared_prefix l r else 0
  | _, _ => 0
  end.

(** The bytes of one entry. *)
Definition entry_bytes (shared : Z) (key value : bytes) : bytes :=
  let encoded := put_varint [] shared in
  let encoded := put_varint encoded (zlen key - shared) in
  let encoded := put_varint encoded (zlen value) in
  encoded ++ drop (Z.to_nat shared) key ++ value.

Definition BlockBuilder_add (b : BlockBuilder) (key value : bytes) : result BlockBuilder :=
  if negb (bb_entry_count b =? 0) && lex_leb key (bb_previous_key b) then
    Err (InvalidArgument "SSTable block keys must be strictly increasing")
  else
    let? (shared, restarts, since) :=
      (if bb_entries_since_restart b =? bb_restart_interval b then
         if zlen (bb_entries b) <=? U32_MAX then
           Ok (0, bb_restarts b ++ [zlen (bb_entries b)], 0)
         else Err (InvalidArgument "SSTable data block exceeds u32 restart offsets")
       else Ok (shared_prefix (bb_previous_key b) key, bb_restarts b, bb_entries_since_restart b)) in
    Ok {| bb_restart_interval := bb_restart_interval b;
          bb_entries_since_restart := since + 1;
          bb_entries := bb_entries b ++ entry_bytes shared key value;
          bb_restarts := restarts;
          bb_previous_key := key;
          bb_entry_count := bb_entry_count b + 1 |}.

Definition BlockBuilder_finish (b : BlockBuilder) : bytes :=
  let restart_count := wrap32 (zlen (bb_restarts b)) in
  bb_entries b ++ concat (map (to_le 4) (bb_restarts b)) ++ to_le 4 restart_count.

(** ** Entries *)

Record DecodedEntry : Type := {
  de_shared : Z;
  de_key : bytes;
  de_value : bytes;
  de_next : Z
}.

Definition block_checked_add (l r : Z) : result Z :=
  ok_or (checked_add l r) (data_corruption "cursor overflows usize").

Definition decode_entry (entries : bytes) (start : Z) (previous_key : bytes)
    : result DecodedEntry :=
  let? (shared, shared_bytes) := with_error data_corruption (read_varint entries start) in
  let? unshared_start := block_checked_add start shared_bytes in
  let? (unshared, unshared_bytes) :=
    with_error data_corruption (read_varint entries unshared_start) in
  let? value_start := block_checked_add unshared_start unshared_bytes in
  let? (value_len, value_bytes) :=
    with_error data_corruption (read_varint entries value_start) in
  let? suffix_start := block_checked_add value_start value_bytes in
  if zlen previous_key <? shared then
    Err (data_corruption "shared key length exceeds previous key length")
  else
    let? suffix_end := block_checked_add suffix_start unshared in
    let? value_end := block_checked_add suffix_end value_len in
    let? suffix := ok_or (get_range suffix_start suffix_end entries)
      (data_corruption "key suffix extends beyond entry bytes") in
    let? value := ok_or (get_range suffix_end value_end entries)
      (data_corruption "value extends beyond entry bytes") in
    let? _ := ok_or (checked_add shared unshared)
      (data_corruption "reconstructed key length overflows usize") in
    Ok {| de_shared := shared;
          de_key := take (Z.to_nat shared) previous_key ++ suffix;
          de_value := value;
          de_next := value_end |}.

(** ** Decoding *)

Record Block : Type := {
  bl_entries : bytes;
  bl_restarts : list Z;
  bl_entry_count : Z
}.

(** [for index in 0..restart_count]: [restarts] holds the offsets read so far. *)
Fixpoint read_restarts (count : nat) (encoded : bytes) (entries_end restart_count : Z)
    (restarts : list Z) : result (list Z) :=
  match count with
  | O => Ok restarts
  | S count =>
    let index := zlen restarts in
    let? cursor := ok_or (checked_mul index FIXED_RESTART_BYTES)
      (data_corruption "restart-array cursor overflows usize") in
    let? start := ok_or (checked_add entries_end cursor)
      (data_corruption "restart-array cursor overflows usize") in
    let offset := from_le (slice start (start + 4) encoded) in
    if (index =? 0) && negb (offset =? 0) then
      Err (data_corruption "first restart offset is not zero")
    else if match last restarts with Some previous => offset <=? previous | None => false end then
      Err (data_corruption "restart offsets are not strictly increasing")
    else if entries_end =? 0 then
      if negb (restart_count =? 1) || negb (offset =? 0) then
        Err (data_corruption "empty block has invalid restart offsets")
      else read_restarts count encoded entries_end restart_count (restarts ++ [offset])
    else if entries_end <=? offset then
      Err (data_corruption "restart offset is outside the entry bytes")
    else read_restarts count encoded entries_end restart_count (restarts ++ [offset])
  end.

Definition is_restart (restarts : list Z) (cursor : Z) : bool := existsb (Z.eqb cursor) restarts.

(** [while cursor < entries.len()]; every entry takes at least three bytes. *)
Fixpoint check_entries (fuel : nat) (entries : bytes) (restarts : list Z) (cursor : Z)
    (previous_key : bytes) (entry_count observed_restarts : Z) : result (Z * Z * Z) :=
  match fuel with
  | O => Err (Panicked "loop bound")
  | S fuel =>
    if cursor <? zlen entries then
      let observed_restarts :=
        if is_restart restarts cursor then observed_restarts + 1 else observed_restarts in
      let? decoded := decode_entry entries cursor previous_key in
      if is_restart restarts cursor && negb (de_shared decoded =? 0) then
        Err (data_corruption "restart has a shared prefix")
      else if negb (entry_count =? 0) && lex_leb (de_key decoded) previous_key then
        Err (data_corruption "decoded keys are not strictly increasing")
      else
        check_entries fuel entries restarts (de_next decoded) (de_key decoded)
          (entry_count + 1) observed_restarts
    else Ok (cursor, entry_count, observed_restarts)
  end.

Definition Block_decode (encoded : bytes) : result Block :=
  if zlen encoded <? FIXED_RESTART_BYTES * 2 then
    Err (data_corruption "block is too short for restart metadata")
  else
    let count_start := zlen encoded - FIXED_RESTART_BYTES in
    let restart_count := from_le (slice count_start (zlen encoded) encoded) in
    if restart_count =? 0 then Err (data_corruption "restart count is zero")
    else
      let? restart_bytes := ok_or (checked_mul restart_count FIXED_RESTART_BYTES)
        (data_corruption "restart array length overflows usize") in
      let? entries_end := ok_or (checked_sub count_start restart_bytes)
        (data_corruption "restart array extends before the block") in
      let? restarts :=
        read_restarts (Z.to_nat restart_count) encoded entries_end restart_count [] in
      let entries := slice 0 entries_end encoded in
      let? (cursor, entry_count, observed_restarts) :=
        check_entries (S (length entries)) entries restarts 0 [] 0 0 in
      if negb (cursor =? zlen entries) then
        Err (data_corruption "entry cursor does not end at restart array")
      else
        let observed_restarts := if zlen entries =? 0 then 1 else observed_restarts in
        if negb (observed_restarts =? zlen restarts) then
          Err (data_corruption "a restart offset does not point to an entry boundary")
        else
          Ok {| bl_entries := entries; bl_restarts := restarts; bl_entry_count := entry_count |}.

Definition Block_is_empty (b : Block) : bool := bl_entry_count b =? 0.

(** ** Iteration *)

Record BlockIter : Type := { bi_cursor : Z; bi_previous_key : bytes }.

Definition Block_iter : BlockIter := {| bi_cursor := 0; bi_previous_key := [] |}.

Definition BlockIter_next (b : Block) (it : BlockIter)
    : option (result (bytes * bytes)) * BlockIter :=
  if zlen (bl_entries b) <=? bi_cursor it then (None, it)
  else
    match decode_entry (bl_entries b) (bi_cursor it) (bi_previous_key it) with
    | Ok decoded =>
      (Some (Ok (de_key decoded, de_value decoded)),
       {| bi_cursor := de_next decoded; bi_previous_key := de_key decoded |})
    | Err e =>
      (Some (Err e), {| bi_cursor := zlen (bl_entries b); bi_previous_key := bi_previous_key it |})
    end.

(** Collecting an iterator, up to its first error. *)
Fixpoint iter_collect (fuel : nat) (b : Block) (it : BlockIter) : result (list (bytes * bytes)) :=
  match fuel with
  | O => Err (Panicked "loop bound")
  | S fuel =>
    match BlockIter_next b it with
    | (None, _) => Ok []
    | (Some item, it) =>
      let? kv := item in
      let? rest := iter_collect fuel b it in
      Ok (kv :: rest)
    end
  end.

Definition Block_entries (b : Block) : result (list (bytes * bytes)) :=
  iter_collect (S (length (bl_entries b))) b Block_iter.

(** ** Seeking *)

Definition key_at_restart (b : Block) (offset : Z) : result bytes :=
  let? d := decode_entry (bl_entries b) offset [] in Ok (de_key d).

(** [partition_point]: the length of the prefix that satisfies the predicate. *)
Fixpoint partition_point {A} (p : A → bool) (l : list A) : Z :=
  match l with
  | [] => 0
  | x :: l => if p x then 1 + partition_point p l else 0
  end.

Definition restart_at_most (b : Block) (target : bytes) (offset : Z) : bool :=
  match key_at_restart b offset with Ok key => lex_leb key target | Err _ => false end.

Fixpoint seek_loop (fuel : nat) (entries : bytes) (cursor : Z) (previous_key target : bytes)
    : result (option (bytes * bytes)) :=
  match fuel with
  | O => Err (Panicked "loop bound")
  | S fuel =>
    if cursor <? zlen entries then
      let? decoded := decode_entry entries cursor previous_key in
      if lex_leb target (de_key decoded) then Ok (Some (de_key decoded, de_value decoded))
      else seek_loop fuel entries (de_next decoded) (de_key decoded) target
    else Ok None
  end.

Definition Block_seek (b : Block) (target : bytes) : result (option (bytes * bytes)) :=
  if Block_is_empty b then Ok None
  else
    let first_greater := partition_point (restart_at_most b target) (bl_restarts b) in
    let restart_index := saturating_sub first_greater 1 in
    let? cursor := index_or_panic restart_index (bl_restarts b) in
    seek_loop (S (length (bl_entries b))) (bl_entries b) cursor [] target.

(** ** The chain of entries *)

(** [chain entries cursor prev ds]: decoding from [cursor] with previous key [prev]
    reads the entries [ds], each with its offset, up to the end. *)
Inductive chain (entries : bytes) : Z → bytes → list (Z * DecodedEntry) → Prop :=
| chain_nil prev : chain entries (zlen entries) prev []
| chain_cons cursor prev d ds :
    cursor < zlen entries → decode_entry entries cursor prev = Ok d →
    chain entries (de_next d) (de_key d) ds →
    chain entries cursor prev ((cursor, d) :: ds).

Abbreviation chain_kvs ds := (map (λ x, (de_key x.2, de_value x.2)) ds).

Lemma read_varint_len encoded start v n :
  read_varint encoded start = inl (v, n) → 1 ≤ n.
Proof.
  assert (∀ fuel i acc, 0 ≤ i → read_varint_loop fuel encoded start i acc = inl (v, n) → 1 ≤ n) as H.
  { induction fuel as [|fuel IH]; intros i acc Hi H; [done|]. cbn [read_varint_loop] in H.
    destruct (checked_add _ _); [|done]. destruct (get_at _ _); [|done].
    destruct (_ && _); [done|]. destruct (_ =? 0).
    - destruct (_ && _); [done|]. injection H as <- <-. lia.
    - apply IH in H; lia. }
  apply H. lia.
Qed.

Lemma block_checked_add_ok a b c : block_checked_add a b = Ok c → c = a + b.
Proof. unfold block_checked_add, checked_add. destruct (_ <=? _); [|done]. cbn. by intros [=]. Qed.

(** Decoding moves forward inside the entries. *)
Lemma decode_entry_next entries start prev d :
  decode_entry entries start prev = Ok d → start < de_next d ≤ zlen entries.
Proof.
  intros H. unfold decode_entry in H.
  destruct (read_varint entries start) as [[sh n1]|] eqn:R1; [|done]. cbn [with_error] in H.
  destruct (block_checked_add start n1) as [p1|] eqn:A1; [|done].
  destruct (read_varint entries p1) as [[un n2]|] eqn:R2; [|done]. cbn [with_error] in H.
  destruct (block_checked_add p1 n2) as [p2|] eqn:A2; [|done].
  destruct (read_varint entries p2) as [[vl n3]|] eqn:R3; [|done]. cbn [with_error] in H.
  destruct (block_checked_add p2 n3) as [p3|] eqn:A3; [|done].
  destruct (_ <? sh); [done|].
  destruct (block_checked_add p3 un) as [p4|] eqn:A4; [|done].
  destruct (block_checked_add p4 vl) as [p5|] eqn:A5; [|done].
  unfold get_range in H.
  destruct ((p3 <=? p4) && _) eqn:G1; [|done]. destruct ((p4 <=? p5) && _) eqn:G2; [|done].
  cbn [ok_or] in H. destruct (checked_add sh un); [|done]. injection H as <-. cbn.
  apply read_varint_len in R1, R2, R3.
  apply block_checked_add_ok in A1, A2, A3, A4, A5. to_prop. lia.
Qed.

(** An entry without a shared prefix does not depend on the previous key. *)
Lemma decode_entry_restart entries start prev prev' d :
  decode_entry entries start prev = Ok d → de_shared d = 0 →
  decode_entry entries start prev' = Ok d.
Proof.
  intros H H0. unfold decode_entry in *.
  destruct (read_varint entries start) as [[sh n1]|]; [|done]. cbn [with_error] in *.
  destruct (block_checked_add start n1) as [p1|]; [|done].
  destruct (read_varint entries p1) as [[un n2]|]; [|done]. cbn [with_error] in *.
  destruct (block_checked_add p1 n2) as [p2|]; [|done].
  destruct (read_varint entries p2) as [[vl n3]|]; [|done]. cbn [with_error] in *.
  destruct (block_checked_add p2 n3) as [p3|]; [|done].
  destruct (zlen prev <? sh); [done|].
  destruct (block_checked_add p3 un) as [p4|]; [|done].
  destruct (block_checked_add p4 vl) as [p5|]; [|done].
  destruct (get_range p3 p4 entries); [|done]. destruct (get_range p4 p5 entries); [|done].
  cbn [ok_or] in *. destruct (checked_add sh un); [|done]. cbn [ok_or] in *. injection H as <-.
  cbn in H0. subst sh. rewrite (proj2 (Z.ltb_ge _ 0)) by apply zlen_nonneg. done.
Qed.

Lemma chain_det entries cursor prev ds ds' :
  chain entries cursor prev ds → chain entries cursor prev ds' → ds = ds'.
Proof.
  intros H. revert ds'. induction H as [prev|cursor prev d ds Hlt Hd H IH]; intros ds' H';
    inversion H'; subst; [done|lia|lia|]. assert (d = d0) as <- by congruence. f_equal. auto.
Qed.

Lemma chain_len entries cursor prev ds :
  chain entries cursor prev ds → zlen ds ≤ zlen entries - cursor.
Proof.
  induction 1 as [prev|cursor prev d ds Hlt Hd H IH]; [zlen_lia|].
  apply decode_entry_next in Hd. zlen_lia.
Qed.

(** Iterating from a position of the chain collects it. *)
Lemma iter_collect_chain b fuel cursor prev ds :
  chain (bl_entries b) cursor prev ds → zlen ds < Z.of_nat fuel →
  iter_collect fuel b {| bi_cursor := cursor; bi_previous_key := prev |} = Ok (chain_kvs ds).
Proof.
  intros H. revert fuel. induction H as [prev|cursor prev d ds Hlt Hd H IH]; intros fuel Hf;
    (destruct fuel as [|fuel]; [zlen_lia|]); cbn [iter_collect]; unfold BlockIter_next; cbn [bi_cursor bi_previous_key].
  - by rewrite (proj2 (Z.leb_le _ _)) by lia.
  - rewrite (proj2 (Z.leb_gt _ _)), Hd by lia. rewrite IH by zlen_lia. done.
Qed.

(** Seeking from a position of the chain finds its first key not below. *)
Lemma seek_loop_chain entries fuel cursor prev ds target :
  chain entries cursor prev ds → zlen ds < Z.of_nat fuel →
  seek_loop fuel entries cursor prev target =
    Ok (find (λ kv, lex_leb target kv.1) (chain_kvs ds)).
Proof.
  intros H. revert fuel. induction H as [prev|cursor prev d ds Hlt Hd H IH]; intros fuel Hf;
    (destruct fuel as [|fuel]; [zlen_lia|]); cbn [seek_loop].
  - by rewrite (proj2 (Z.ltb_ge _ _)) by lia.
  - rewrite (proj2 (Z.ltb_lt _ _)), Hd by lia. cbn [map find fst snd].
    destruct (lex_leb target (de_key d)); [done|]. apply IH. zlen_lia.
Qed.

(** A suffix of a chain is a chain, from any previous key at an unshared entry. *)
Lemma chain_app entries cursor prev ds1 c d ds2 prev' :
  chain entries cursor prev (ds1 ++ (c, d) :: ds2) → de_shared d = 0 →
  chain entries c prev' ((c, d) :: ds2).
Proof.
  revert cursor prev. induction ds1 as [|[c1 d1] ds1 IH]; intros cursor prev H H0; cbn in H;
    inversion H; subst.
  - constructor; [done|by eapply decode_entry_restart|done].
  - by eapply IH.
Qed.

(** ** What decoding establishes *)

Abbreviation kv_lt := (λ x y : bytes * bytes, lex_cmp x.1 y.1 = Lt).

Definition kvs_sorted (kvs : list (bytes * bytes)) : Prop := StronglySorted kv_lt kvs.

#[global] Instance kv_lt_trans : Transitive kv_lt.
Proof. intros x y z. apply cmp_trans. Qed.

Definition restarts_ok (entries_end : Z) (rs : list Z) : Prop :=
  StronglySorted Z.lt rs ∧ (∀ r, head rs = Some r → r = 0) ∧ Forall (λ r, 0 ≤ r) rs.

(** A decoded block: its chain, in strictly increasing key order, whose restart
    points are unshared entries. *)
Definition block_chain (b : Block) (ds : list (Z * DecodedEntry)) : Prop :=
  chain (bl_entries b) 0 [] ds ∧ kvs_sorted (chain_kvs ds) ∧ bl_entry_count b = zlen ds ∧
  bl_restarts b ≠ [] ∧ restarts_ok (zlen (bl_entries b)) (bl_restarts b) ∧
  (ds ≠ [] → Forall (λ r, ∃ d, (r, d) ∈ ds ∧ de_shared d = 0) (bl_restarts b)).

Lemma sorted_snoc (l : list Z) x :
  StronglySorted Z.lt l → (∀ y, last l = Some y → y < x) → StronglySorted Z.lt (l ++ [x]).
Proof.
  induction 1 as [|a l Hl IH Hall]; intros Hx; cbn; [repeat constructor|].
  assert (Forall (λ y, y < x) (a :: l)) as Hlt.
  { clear IH. revert a Hall Hx. induction Hl as [|b l Hl IH Hall']; intros a Hall Hx.
    - constructor; [by apply Hx|constructor].
    - apply Forall_cons in Hall as [Hab Hall].
      assert (Forall (λ y, y < x) (b :: l)) as Hb by (apply IH; [done|by intros y; apply Hx]).
      constructor; [|done]. apply Forall_cons in Hb as [? _]. lia. }
  apply Forall_cons in Hlt as [Ha Hlt].
  constructor; [|apply Forall_app; split; [done|by constructor]].
  apply IH. intros y Hy. apply Hx. rewrite last_cons, Hy. done.
Qed.

Lemma read_restarts_spec n encoded ee rc rs rs' :
  bytes_ok encoded → restarts_ok ee rs → read_restarts n encoded ee rc rs = Ok rs' →
  restarts_ok ee rs' ∧ length rs' = (length rs + n)%nat.
Proof.
  intros Hok. revert rs. induction n as [|n IH]; intros rs Hrs H; cbn [read_restarts] in H.
  { injection H as <-. split; [done|lia]. }
  destruct (checked_mul _ _) as [c|]; [|done]. cbn [ok_or] in H.
  destruct (checked_add _ _) as [st|]; [|done]. cbn [ok_or] in H.
  set (offset := from_le (slice st (st + 4) encoded)) in *.
  assert (0 ≤ offset) as Hoff.
  { apply from_le_bound. unfold slice. by apply Forall_take, Forall_drop. }
  destruct ((zlen rs =? 0) && negb (offset =? 0)) eqn:E0; [done|].
  destruct (match last rs with Some p => offset <=? p | None => false end) eqn:E1; [done|].
  assert (restarts_ok ee (rs ++ [offset])) as Hrs'.
  { destruct Hrs as (Hs & Hh & Hnn). split; [|split].
    - apply sorted_snoc; [done|]. intros y Hy. rewrite Hy in E1. to_prop. lia.
    - intros r Hr. destruct rs as [|r0 rs]; [|by apply Hh]. cbn in Hr, E0. injection Hr as <-.
      change (zlen (@nil Z) =? 0) with true in E0. cbn in E0. to_prop. done.
    - apply Forall_app; split; [done|by constructor]. }
  assert (read_restarts n encoded ee rc (rs ++ [offset]) = Ok rs') as Hgo.
  { destruct (ee =? 0); [destruct (negb _ || _); [done|exact H]|].
    destruct (ee <=? offset); [done|exact H]. }
  destruct (IH _ Hrs' Hgo) as [? Hl]. split; [done|]. rewrite length_app in Hl. cbn in Hl. lia.
Qed.

Definition count_restarts (rs : list Z) (ds : list (Z * DecodedEntry)) : Z :=
  zlen (List.filter (λ x, is_restart rs x.1) ds).

Lemma check_entries_spec fuel entries rs cursor prev cnt obs c cnt' obs' :
  check_entries fuel entries rs cursor prev cnt obs = Ok (c, cnt', obs') →
  cursor ≤ zlen entries → 0 ≤ cnt →
  ∃ ds, chain entries cursor prev ds ∧ cnt' = cnt + zlen ds ∧
    obs' = obs + count_restarts rs ds ∧
    Forall (λ x, is_restart rs x.1 = true → de_shared x.2 = 0) ds ∧
    Sorted kv_lt (chain_kvs ds) ∧
    (cnt ≠ 0 → HdRel kv_lt (prev, []) (chain_kvs ds)).
Proof.
  revert cursor prev cnt obs. induction fuel as [|fuel IH]; intros cursor prev cnt obs H Hle Hcnt; [done|].
  cbn [check_entries] in H. destruct (Z.ltb_spec cursor (zlen entries)) as [Hlt|Hge].
  2:{ injection H as <- <- <-. assert (cursor = zlen entries) as -> by lia. exists [].
      unfold count_restarts. cbn. zlen_nils. repeat split; try done; try lia; constructor. }
  destruct (decode_entry entries cursor prev) as [d|] eqn:Ed; [|done].
  destruct (is_restart rs cursor && negb (de_shared d =? 0)) eqn:E1; [done|].
  destruct (negb (cnt =? 0) && lex_leb (de_key d) prev) eqn:E2; [done|].
  apply IH in H as (ds & Hch & -> & -> & Hsh & Hs & Hhd); [|apply decode_entry_next in Ed; lia|lia].
  exists ((cursor, d) :: ds). split; [by constructor|]. split; [zlen_lia|]. split.
  { unfold count_restarts. cbn [List.filter fst]. destruct (is_restart rs cursor); zlen_lia. }
  split; [|split].
  - constructor; [|done]. cbn. intros Hr. rewrite Hr in E1. cbn in E1. to_prop. done.
  - cbn [map]. constructor; [done|].
    specialize (Hhd ltac:(lia)). inversion Hhd; constructor; done.
  - intros Hne. constructor. cbn. rewrite (proj2 (Z.eqb_neq _ _)) in E2 by done. cbn in E2.
    unfold lex_leb in E2. destruct (lex_cmp (de_key d) prev) eqn:Ec; try done.
    by apply cmp_gt_lt.
Qed.

Lemma chain_offsets entries cursor prev ds :
  chain entries cursor prev ds →
  StronglySorted Z.lt (map fst ds) ∧ Forall (λ x, cursor ≤ x.1 < zlen entries) ds.
Proof.
  induction 1 as [prev|cursor prev d ds Hlt Hd H [IHs IHb]]; [split; constructor|].
  apply decode_entry_next in Hd. split.
  - cbn. constructor; [done|]. apply Forall_forall. intros y Hy.
    apply list_elem_of_In, in_map_iff in Hy as (x & <- & Hx). apply list_elem_of_In in Hx.
    rewrite Forall_forall in IHb. specialize (IHb _ Hx). lia.
  - constructor; [cbn; lia|]. eapply Forall_impl; [exact IHb|]. cbn. intros; lia.
Qed.

Lemma sorted_NoDup (l : list Z) : StronglySorted Z.lt l → List.NoDup l.
Proof.
  induction 1 as [|x l Hl IH Hall]; constructor; [|done]. intros Hin.
  rewrite Forall_forall in Hall. apply list_elem_of_In in Hin. specialize (Hall _ Hin). lia.
Qed.

Lemma hits_NoDup {B} (f : Z * B → bool) (ds : list (Z * B)) :
  List.NoDup (map fst ds) → List.NoDup (map fst (List.filter f ds)).
Proof.
  induction ds as [|[c d] ds IH]; cbn; intros H; [constructor|].
  inversion H as [|? ? Hni Hnd]; subst. destruct (f (c, d)); [|auto].
  cbn. constructor; [|auto]. intros Hin. apply Hni.
  apply in_map_iff in Hin as (x & Hx & Hin). apply filter_In in Hin as [Hin _].
  apply in_map_iff. by exists x.
Qed.

Lemma is_restart_In rs r : is_restart rs r = true ↔ In r rs.
Proof.
  unfold is_restart. rewrite existsb_exists. split.
  - intros (x & Hx & He). to_prop. by subst.
  - intros H. exists r. by rewrite Z.eqb_refl.
Qed.

(** If as many entries as there are restarts sit at restart offsets, every restart
    offset has its entry. *)
Lemma restarts_covered entries prev ds rs :
  chain entries 0 prev ds → StronglySorted Z.lt rs → count_restarts rs ds = zlen rs →
  ∀ r, In r rs → ∃ d, (r, d) ∈ ds.
Proof.
  intros Hch Hrs Hcount r Hr. destruct (chain_offsets _ _ _ _ Hch) as [Hoff _].
  set (hits := map fst (List.filter (λ x, is_restart rs x.1) ds)).
  assert (List.NoDup hits) as Hnd.
  { by apply hits_NoDup, sorted_NoDup. }
  assert (In r hits) as Hin.
  { apply (NoDup_length_incl Hnd (l' := rs)); [|..|done].
    - unfold hits. rewrite length_map. unfold count_restarts, zlen in Hcount. lia.
    - intros x Hx. unfold hits in Hx. apply in_map_iff in Hx as (y & <- & Hy).
      apply filter_In in Hy as [_ Hy]. by apply is_restart_In. }
  unfold hits in Hin. apply in_map_iff in Hin as ([c d] & Hc & Hin). cbn in Hc. subst c.
  apply filter_In in Hin as [Hin _]. exists d. by apply list_elem_of_In.
Qed.

Lemma Block_decode_chain encoded b :
  bytes_ok encoded → Block_decode encoded = Ok b → ∃ ds, block_chain b ds.
Proof.
  intros Hok H. unfold Block_decode in H. destruct (_ <? _) eqn:El; [done|].
  set (rc := from_le _) in *. destruct (Z.eqb_spec rc 0) as [|Hrc]; [done|].
  destruct (checked_mul rc _) as [rb|]; [|done]. cbn [ok_or] in H.
  destruct (checked_sub _ rb) as [ee|]; [|done]. cbn [ok_or] in H.
  destruct (read_restarts _ _ _ _ _) as [rs|] eqn:Er; [|done].
  destruct (check_entries _ _ _ _ _ _ _) as [[[c cnt] obs]|] eqn:Ec; [|done].
  set (entries := slice 0 ee encoded) in *.
  destruct (negb (c =? _)); [done|]. destruct (negb (_ =? zlen rs)) eqn:Eo; [done|].
  injection H as <-. to_prop.
  apply read_restarts_spec in Er as [Hrs Hlen]; [|done|split; [constructor|split; [done|constructor]]].
  apply check_entries_spec in Ec as (ds & Hch & -> & -> & Hsh & Hs & _); [|apply zlen_nonneg|lia].
  assert (0 ≤ rc) as Hrc0.
  { apply from_le_bound. unfold slice. by apply Forall_take, Forall_drop. }
  exists ds. unfold block_chain. cbn [bl_entries bl_restarts bl_entry_count].
  split; [done|]. split; [apply Sorted_StronglySorted; [apply kv_lt_trans|done]|].
  split; [lia|]. split; [intros ->; cbn in Hlen; lia|]. split.
  { destruct Hrs as (? & ? & ?). by split. }
  intros Hne. apply Forall_forall. intros r Hr. apply list_elem_of_In in Hr.
  destruct (Z.eqb_spec (zlen entries) 0) as [He|He].
  { apply chain_len in Hch. destruct ds; [done|]. zlen_simpl. zlen_pos. lia. }
  destruct (restarts_covered entries [] ds rs Hch (proj1 Hrs) ltac:(lia) r Hr) as [d Hd].
  exists d. split; [done|]. rewrite Forall_forall in Hsh. apply (Hsh _ Hd).
  cbn. by apply is_restart_In.
Qed.

Lemma Block_entries_chain b ds : block_chain b ds → Block_entries b = Ok (chain_kvs ds).
Proof.
  intros (Hch & _). apply iter_collect_chain; [done|].
  apply chain_len in Hch. unfold zlen in *. lia.
Qed.

Lemma partition_point_pos {A} (p : A → bool) l :
  0 < partition_point p l →
  ∃ x, l !! Z.to_nat (partition_point p l - 1) = Some x ∧ p x = true.
Proof.
  assert (∀ l : list A, 0 ≤ partition_point p l) as Hnn.
  { induction l0 as [|x l0 IH]; cbn; [lia|]. destruct (p x); lia. }
  induction l as [|x l IH]; cbn; [lia|]. destruct (p x) eqn:Ex; [|lia]. intros _.
  pose proof (Hnn l). destruct (Z.eq_dec (partition_point p l) 0) as [E|E].
  - exists x. rewrite E. done.
  - destruct IH as (y & Hy & Hpy); [lia|]. exists y. split; [|done].
    replace (Z.to_nat (1 + partition_point p l - 1)) with (S (Z.to_nat (partition_point p l - 1))) by lia.
    done.
Qed.

Lemma partition_point_nonneg {A} (p : A → bool) l : 0 ≤ partition_point p l ≤ zlen l.
Proof. induction l as [|x l IH]; cbn; [done|]. destruct (p x); zlen_lia. Qed.

Lemma find_app {A} (f : A → bool) l1 l2 :
  Forall (λ x, f x = false) l1 → find f (l1 ++ l2) = find f l2.
Proof. induction 1 as [|x l Hx _ IH]; cbn; [done|]. by rewrite Hx. Qed.

Lemma kvs_sorted_app l1 x l2 :
  kvs_sorted (l1 ++ x :: l2) → Forall (λ y, lex_cmp y.1 x.1 = Lt) l1.
Proof.
  induction l1 as [|y l1 IH]; intros H; [constructor|]. apply StronglySorted_inv in H as [H Hall].
  constructor; [|by apply IH]. rewrite Forall_forall in Hall. apply Hall.
  apply elem_of_app. right. by left.
Qed.

(** Restart keys at most the target form a prefix of the restart array, so the
    binary search of [partition_point] is well defined. *)
Lemma restarts_partitioned b ds target r1 r2 rs1 rs2 rs3 :
  block_chain b ds → ds ≠ [] → bl_restarts b = rs1 ++ r1 :: rs2 ++ r2 :: rs3 →
  restart_at_most b target r2 = true → restart_at_most b target r1 = true.
Proof.
  intros (Hch & Hs & _ & _ & (Hrs & _) & Hat) Hne Heq. specialize (Hat Hne). rewrite Heq in Hat, Hrs.
  apply Forall_app in Hat as [_ Hat]. apply Forall_cons in Hat as [(d1 & Hd1 & Hz1) Hat].
  apply Forall_app in Hat as [_ Hat]. apply Forall_cons in Hat as [(d2 & Hd2 & Hz2) _].
  assert (r1 < r2) as Hlt.
  { clear -Hrs. induction rs1 as [|r rs1 IH]; cbn in Hrs; apply StronglySorted_inv in Hrs as [Hrs Hall];
      [|by apply IH]. rewrite Forall_forall in Hall. apply Hall. apply elem_of_app. right. by left. }
  assert (∀ r d, (r, d) ∈ ds → de_shared d = 0 → key_at_restart b r = Ok (de_key d)) as Hkey.
  { intros r d Hd Hz. apply list_elem_of_split in Hd as (l1 & l2 & ->).
    pose proof (chain_app _ _ _ _ _ _ _ [] Hch Hz) as Hc. inversion Hc as [|? ? ? ? _ Hdec]; subst.
    unfold key_at_restart. by rewrite Hdec. }
  unfold restart_at_most. rewrite (Hkey _ _ Hd1 Hz1), (Hkey _ _ Hd2 Hz2).
  intros Hle%lex_leb_le. apply lex_leb_le.
  assert (lex_cmp (de_key d1) (de_key d2) = Lt) as Hk; [|by rewrite (cmp_lt_le _ _ _ Hk Hle)].
  destruct (chain_offsets _ _ _ _ Hch) as [Hoff _].
  apply list_elem_of_split in Hd2 as (l1 & l2 & ->).
  apply elem_of_app in Hd1 as [Hd1|Hd1].
  - rewrite map_app in Hs. cbn in Hs. apply kvs_sorted_app in Hs. rewrite Forall_forall in Hs.
    apply (Hs (de_key d1, de_value d1)). apply list_elem_of_In, in_map_iff.
    exists (r1, d1). split; [done|]. by apply list_elem_of_In.
  - exfalso. rewrite map_app in Hoff. cbn in Hoff. clear -Hoff Hd1 Hlt. apply elem_of_cons in Hd1 as [[= -> _]|Hd1]; [lia|].
    induction l1 as [|x l1 IH]; cbn in Hoff; apply StronglySorted_inv in Hoff as [Hoff Hall]; [|by apply IH].
    rewrite Forall_forall in Hall. assert (r2 < r1); [|lia]. apply Hall.
    apply list_elem_of_In, in_map_iff. exists (r1, d1). split; [done|]. by apply list_elem_of_In.
Qed.

Lemma Block_seek_chain b ds target :
  block_chain b ds →
  Block_seek b target = Ok (find (λ kv, lex_leb target kv.1) (chain_kvs ds)).
Proof.
  intros (Hch & Hs & Hcnt & Hrne & (Hrs & Hhead & Hnn) & Hat). unfold Block_seek, Block_is_empty.
  destruct ds as [|x0 ds0] eqn:Eds. { by rewrite Hcnt. }
  rewrite <- Eds in *. assert (ds ≠ []) as Hne by (by rewrite Eds). specialize (Hat Hne).
  rewrite (proj2 (Z.eqb_neq _ _)) by (rewrite Hcnt, Eds; zlen_lia).
  set (p := restart_at_most b target). set (fg := partition_point p (bl_restarts b)).
  pose proof (partition_point_nonneg p (bl_restarts b)) as Hfg. fold fg in Hfg.
  assert (∃ c ds1 d ds2, index_or_panic (saturating_sub fg 1) (bl_restarts b) = Ok c ∧
    ds = ds1 ++ (c, d) :: ds2 ∧ de_shared d = 0 ∧
    Forall (λ kv, lex_leb target kv.1 = false) (chain_kvs ds1)) as (c & ds1 & d & ds2 & -> & Hds & Hz & Hlow).
  { unfold index_or_panic, saturating_sub.
    destruct (Z.eq_dec fg 0) as [E0|E0].
    - rewrite E0. change (Z.max (0 - 1) 0) with 0.
      destruct (bl_restarts b) as [|r rs]; [done|]. specialize (Hhead r eq_refl). subst r.
      apply Forall_cons in Hat as [(d & Hd & Hz) _]. exists 0, [], d.
      rewrite Eds in Hch, Hd |- *. destruct x0 as [c0 d0].
      assert (c0 = 0) as -> by (by inversion Hch).
      exists ds0. split; [done|]. apply elem_of_cons in Hd as [[= ->]|Hd].
      { split; [done|]. split; [done|constructor]. }
      exfalso. destruct (chain_offsets _ _ _ _ Hch) as [Hoff _]. cbn in Hoff.
      apply StronglySorted_inv in Hoff as [_ Hall]. rewrite Forall_forall in Hall.
      assert (0 < 0); [|lia]. apply Hall. apply list_elem_of_In, in_map_iff.
      exists (0, d). split; [done|]. by apply list_elem_of_In.
    - destruct (partition_point_pos p (bl_restarts b)) as (r & Hr & Hpr); [fold fg; lia|].
      fold fg in Hr. rewrite Z.max_l by lia. unfold get_at. rewrite (proj2 (Z.ltb_ge _ _)) by lia.
      rewrite Hr. cbn [ok_or]. rewrite Forall_forall in Hat.
      destruct (Hat r) as (d & Hd & Hz). { by apply list_elem_of_lookup_2 in Hr. }
      apply list_elem_of_split in Hd as (ds1 & ds2 & Heq). exists r, ds1, d, ds2.
      split; [done|]. split; [done|]. split; [done|].
      rewrite Heq in Hch. pose proof (chain_app _ _ _ _ _ _ _ [] Hch Hz) as Hc.
      inversion Hc as [|? ? ? ? _ Hdec]; subst.
      unfold p, restart_at_most, key_at_restart in Hpr. rewrite Hdec in Hpr.
      rewrite Heq, map_app in Hs. cbn [map] in Hs. apply kvs_sorted_app in Hs. cbn [fst snd] in Hs.
      eapply Forall_impl; [exact Hs|]. cbn. intros y Hy. unfold lex_leb.
      apply lex_leb_le in Hpr. by rewrite (cmp_lt_gt _ _ (cmp_lt_le _ _ _ Hy Hpr)). }
  rewrite Hds, map_app, find_app by done.
  apply (seek_loop_chain (bl_entries b) _ c []).
  - rewrite Hds in Hch. by eapply chain_app.
  - apply chain_len in Hch. rewrite Hds in Hch. zlen_simpl. unfold zlen in *. lia.
Qed.

(** ** Building *)

Lemma get_at_app_l {A} i (l x : list A) v : get_at i l = Some v → get_at i (l ++ x) = Some v.
Proof.
  unfold get_at. destruct (i <? 0); [done|]. intros H. rewrite lookup_app_l; [done|].
  by apply lookup_lt_Some in H.
Qed.

Lemma read_varint_app encoded x start r :
  read_varint encoded start = inl r → read_varint (encoded ++ x) start = inl r.
Proof.
  unfold read_varint.
  assert (∀ fuel i acc, read_varint_loop fuel encoded start i acc = inl r →
    read_varint_loop fuel (encoded ++ x) start i acc = inl r) as Hgo; [|apply Hgo].
  induction fuel as [|fuel IH]; intros i acc H; [done|].
  cbn [read_varint_loop] in *. destruct (checked_add start i) as [p|]; [|done].
  destruct (get_at p encoded) as [b|] eqn:E; [|done]. rewrite (get_at_app_l _ _ _ _ E).
  destruct ((i =? 9) && _); [done|].
  destruct (Z.land b 128 =? 0); [exact H|by apply IH].
Qed.

Lemma get_range_app_l {A} a b (l x r : list A) :
  get_range a b l = Some r → 0 ≤ a → get_range a b (l ++ x) = Some r.
Proof.
  unfold get_range. destruct (_ && _) eqn:E; [|done]. to_prop. intros [= <-] Ha.
  rewrite (proj2 (Z.leb_le a b)), (proj2 (Z.leb_le b _)) by zlen_lia. cbn. f_equal.
  unfold slice, zlen in *. rewrite drop_app_le by lia. rewrite take_app_le; [done|].
  rewrite length_drop. lia.
Qed.

(** More bytes behind an entry do not change it. *)
Lemma decode_entry_app entries x start prev d :
  0 ≤ start → decode_entry entries start prev = Ok d → decode_entry (entries ++ x) start prev = Ok d.
Proof.
  intros H0 H. unfold decode_entry in *.
  destruct (read_varint entries start) as [[sh n1]|] eqn:R1; [|done]. cbn [with_error] in H.
  rewrite (read_varint_app _ _ _ _ R1). cbn [with_error].
  destruct (block_checked_add start n1) as [p1|] eqn:A1; [|done].
  destruct (read_varint entries p1) as [[un n2]|] eqn:R2; [|done]. cbn [with_error] in H.
  rewrite (read_varint_app _ _ _ _ R2). cbn [with_error].
  destruct (block_checked_add p1 n2) as [p2|] eqn:A2; [|done].
  destruct (read_varint entries p2) as [[vl n3]|] eqn:R3; [|done]. cbn [with_error] in H.
  rewrite (read_varint_app _ _ _ _ R3). cbn [with_error].
  destruct (block_checked_add p2 n3) as [p3|] eqn:A3; [|done].
  destruct (_ <? sh); [done|].
  destruct (block_checked_add p3 un) as [p4|] eqn:A4; [|done].
  destruct (block_checked_add p4 vl) as [p5|] eqn:A5; [|done].
  apply read_varint_len in R1, R2, R3. apply block_checked_add_ok in A1, A2, A3.
  destruct (get_range p3 p4 entries) as [s1|] eqn:G1; [|done]. cbn [ok_or] in H.
  destruct (get_range p4 p5 entries) as [s2|] eqn:G2; [|done]. cbn [ok_or] in H.
  rewrite (get_range_app_l _ _ _ _ _ G1 ltac:(lia)). cbn [ok_or].
  assert (0 ≤ p4).
  { unfold get_range in G1. destruct ((p3 <=? p4) && _) eqn:E; [|done]. to_prop. lia. }
  rewrite (get_range_app_l _ _ _ _ _ G2 ltac:(lia)). exact H.
Qed.

Definition last_key (prev : bytes) (ds : list (Z * DecodedEntry)) : bytes :=
  match last ds with Some x => de_key x.2 | None => prev end.

Lemma last_key_cons prev c d ds : last_key prev ((c, d) :: ds) = last_key (de_key d) ds.
Proof. unfold last_key. rewrite last_cons. by destruct (last ds). Qed.

Lemma chain_extend entries x cursor prev ds d :
  chain entries cursor prev ds → 0 ≤ cursor → x ≠ [] →
  decode_entry (entries ++ x) (zlen entries) (last_key prev ds) = Ok d →
  de_next d = zlen (entries ++ x) →
  chain (entries ++ x) cursor prev (ds ++ [(zlen entries, d)]).
Proof.
  intros H H0 Hx Hd Hn. assert (0 < zlen x) as Hpos by (destruct x; [done|zlen_lia]).
  induction H as [prev|cursor prev d' ds Hlt Hdec H IH].
  - cbn. constructor; [zlen_lia|done|]. rewrite Hn. constructor.
  - cbn. rewrite last_key_cons in Hd. constructor; [zlen_lia|by apply decode_entry_app|].
    apply IH; [|done]. apply decode_entry_next in Hdec. lia.
Qed.

Lemma shared_prefix_spec a b :
  0 ≤ shared_prefix a b ≤ zlen a ∧ shared_prefix a b ≤ zlen b ∧
  take (Z.to_nat (shared_prefix a b)) a = take (Z.to_nat (shared_prefix a b)) b.
Proof.
  revert b. induction a as [|x a IH]; intros [|y b]; cbn [shared_prefix]; try (cbn; zlen_lia).
  all: try (split; [zlen_lia|split; [zlen_lia|done]]).
  destruct (Z.eqb_spec x y) as [->|]; [|split; [zlen_lia|split; [zlen_lia|done]]].
  destruct (IH b) as (H1 & H2 & H3). split; [zlen_lia|]. split; [zlen_lia|].
  replace (Z.to_nat (1 + shared_prefix a b)) with (S (Z.to_nat (shared_prefix a b))) by lia.
  cbn. by rewrite H3.
Qed.

Lemma put_varint3 a b c :
  put_varint (put_varint (put_varint [] a) b) c = put_varint [] a ++ put_varint [] b ++ put_varint [] c.
Proof. unfold put_varint. by rewrite <- !app_assoc. Qed.

(** The decoder reads back an entry at its offset. *)
Lemma decode_entry_put entries start prev shared key value rest :
  drop (Z.to_nat start) entries = entry_bytes shared key value ++ rest →
  0 ≤ start ≤ zlen entries → zlen entries ≤ USIZE_MAX →
  0 ≤ shared ≤ zlen prev → shared ≤ zlen key → zlen key ≤ USIZE_MAX →
  take (Z.to_nat shared) prev = take (Z.to_nat shared) key →
  decode_entry entries start prev =
    Ok {| de_shared := shared; de_key := key; de_value := value;
          de_next := start + zlen (entry_bytes shared key value) |}.
Proof.
  intros Hd Hs Hmax Hsh Hshk Hk Htake. unfold entry_bytes in *.
  rewrite put_varint3 in *.
  set (v1 := put_varint [] shared) in *. set (v2 := put_varint [] (zlen key - shared)) in *.
  set (v3 := put_varint [] (zlen value)) in *. set (suf := drop (Z.to_nat shared) key) in *.
  assert (zlen suf = zlen key - shared) as Hsuf by (apply zlen_drop; lia).
  rewrite <- !app_assoc in Hd. rewrite !zlen_app.
  pose proof (put_varint_len shared). pose proof (put_varint_len (zlen key - shared)).
  pose proof (put_varint_len (zlen value)). fold v1 in H. fold v2 in H0. fold v3 in H1.
  pose proof (drop_fits' _ _ _ _ Hd Hs) as F1. pose proof (drop_advance' _ _ _ _ Hd ltac:(lia)) as D1.
  pose proof (drop_fits' _ _ _ _ D1 ltac:(lia)) as F2. pose proof (drop_advance' _ _ _ _ D1 ltac:(lia)) as D2.
  pose proof (drop_fits' _ _ _ _ D2 ltac:(lia)) as F3. pose proof (drop_advance' _ _ _ _ D2 ltac:(lia)) as D3.
  pose proof (drop_fits' _ _ _ _ D3 ltac:(lia)) as F4. zlen_pos.
  pose proof (drop_advance' _ _ _ _ D3 ltac:(lia)) as D4. pose proof (drop_fits' _ _ _ _ D4 ltac:(lia)) as F5.
  unfold decode_entry, block_checked_add, checked_add.
  assert (∀ z, 0 ≤ z ≤ USIZE_MAX → is_u64 z) as Hu by (unfold is_u64, USIZE_MAX; lia).
  rewrite (read_varint_put _ _ _ _ Hd) by (done || (apply Hu; lia)). cbn [with_error]. fold v1.
  rewrite (proj2 (Z.leb_le (start + zlen v1) _)) by lia. cbn [ok_or].
  rewrite (read_varint_put _ _ _ _ D1) by (done || (apply Hu; lia) || lia). cbn [with_error]. fold v2.
  rewrite (proj2 (Z.leb_le (start + zlen v1 + zlen v2) _)) by lia. cbn [ok_or].
  rewrite (read_varint_put _ _ _ _ D2) by (done || (apply Hu; lia) || lia). cbn [with_error]. fold v3.
  rewrite (proj2 (Z.leb_le (start + zlen v1 + zlen v2 + zlen v3) _)) by lia. cbn [ok_or].
  rewrite (proj2 (Z.ltb_ge (zlen prev) _)) by lia. rewrite <- Hsuf.
  rewrite (proj2 (Z.leb_le (start + zlen v1 + zlen v2 + zlen v3 + zlen suf) _)) by lia. cbn [ok_or].
  rewrite (proj2 (Z.leb_le (start + zlen v1 + zlen v2 + zlen v3 + zlen suf + zlen value) _)) by lia. cbn [ok_or].
  rewrite (get_range_at' _ _ _ _ D3), (get_range_at' _ _ _ _ D4) by lia. cbn [ok_or].
  rewrite (proj2 (Z.leb_le (shared + zlen suf) _)) by lia. cbn [ok_or]. do 2 f_equal.
  - rewrite Htake. apply take_drop.
  - lia.
Qed.

(** The builder after adding the entries of [ds]. *)
Record builder_inv (b : BlockBuilder) (ds : list (Z * DecodedEntry)) : Prop := {
  bi_interval : 1 ≤ bb_restart_interval b;
  bi_since : 0 ≤ bb_entries_since_restart b ∧ (ds = [] → bb_entries_since_restart b = 0);
  bi_chain : chain (bb_entries b) 0 [] ds;
  bi_sorted : kvs_sorted (chain_kvs ds);
  bi_count : bb_entry_count b = zlen ds;
  bi_prev : bb_previous_key b = last_key [] ds;
  bi_restarts_sorted : StronglySorted Z.lt (bb_restarts b);
  bi_restarts_head : head (bb_restarts b) = Some 0;
  bi_restarts_at : ∀ r, In r (bb_restarts b) → (ds = [] ∧ r = 0) ∨ ∃ d, (r, d) ∈ ds;
  bi_unshared : ∀ r d, (r, d) ∈ ds → In r (bb_restarts b) → de_shared d = 0;
  bi_first : ∀ d ds', ds = (0, d) :: ds' → de_shared d = 0
}.

Lemma try_new_inv ri b : 0 ≤ ri → BlockBuilder_try_new ri = Ok b → builder_inv b [].
Proof.
  intros Hri. unfold BlockBuilder_try_new. destruct (Z.eqb_spec ri 0); [done|]. intros [= <-].
  split; cbn; try done; try lia.
  - constructor.
  - constructor.
  - repeat constructor.
  - intros r [<-|[]]. by left.
  - intros r d Hd. by apply elem_of_nil in Hd.
Qed.

Lemma last_key_snoc prev ds x : last_key prev (ds ++ [x]) = de_key x.2.
Proof. unfold last_key. by rewrite last_snoc. Qed.

Lemma kvs_sorted_snoc ds c d :
  kvs_sorted (chain_kvs ds) → (ds ≠ [] → lex_cmp (last_key [] ds) (de_key d) = Lt) →
  kvs_sorted (chain_kvs (ds ++ [(c, d)])).
Proof.
  intros Hs Hlt. rewrite map_app. cbn [map fst snd]. destruct ds as [|x ds _] using rev_ind.
  { cbn. repeat constructor. }
  specialize (Hlt ltac:(by destruct ds)). rewrite last_key_snoc in Hlt.
  apply Sorted_StronglySorted; [apply kv_lt_trans|]. apply StronglySorted_Sorted in Hs.
  rewrite map_app in *. cbn [map] in *. clear -Hs Hlt.
  induction (chain_kvs ds) as [|y l IH]; cbn in *.
  - constructor; [repeat constructor|]. by constructor.
  - apply Sorted_inv in Hs as [Hs Hhd]. constructor; [by apply IH|].
    destruct l; cbn in *; inversion Hhd; by constructor.
Qed.

Lemma entry_bytes_len shared key value :
  0 ≤ shared ≤ zlen key →
  3 ≤ zlen (entry_bytes shared key value) ≤ 30 + zlen key + zlen value.
Proof.
  intros Hs. unfold entry_bytes. rewrite put_varint3, !zlen_app, zlen_drop by lia.
  pose proof (put_varint_len shared). pose proof (put_varint_len (zlen key - shared)).
  pose proof (put_varint_len (zlen value)). zlen_pos. lia.
Qed.

Lemma chain_zlen_pos entries prev ds : chain entries 0 prev ds → ds ≠ [] → 0 < zlen entries.
Proof. intros H Hne. inversion H; subst; [done|lia]. Qed.

(** Adding a larger key keeps the invariant. *)
Lemma add_inv b ds key value :
  builder_inv b ds → (ds ≠ [] → lex_cmp (last_key [] ds) key = Lt) →
  zlen (bb_entries b) + (30 + zlen key + zlen value) ≤ U32_MAX →
  ∃ b' d, BlockBuilder_add b key value = Ok b' ∧
    builder_inv b' (ds ++ [(zlen (bb_entries b), d)]) ∧ de_key d = key ∧ de_value d = value ∧
    zlen (bb_entries b') ≤ zlen (bb_entries b) + (30 + zlen key + zlen value).
Proof.
  intros [Hri [Hsi Hs0] Hch Hs Hc Hp Hrs Hrh Hra Hun Hfi] Hlt Hsize. zlen_pos.
  assert (zlen ds = 0 ↔ ds = []) as Hnil by (split; [apply zlen_0_nil|by intros ->]).
  unfold BlockBuilder_add.
  assert (negb (bb_entry_count b =? 0) && lex_leb key (bb_previous_key b) = false) as ->.
  { rewrite Hc, Hp. destruct (Z.eqb_spec (zlen ds) 0); [done|]. cbn. unfold lex_leb.
    by rewrite (cmp_lt_gt _ _ (Hlt ltac:(tauto))). }
  set (shared := if bb_entries_since_restart b =? bb_restart_interval b then 0
    else shared_prefix (bb_previous_key b) key).
  destruct (shared_prefix_spec (bb_previous_key b) key) as (Hsp1 & Hsp2 & Hsp3).
  assert (0 ≤ shared ≤ zlen (bb_previous_key b) ∧ shared ≤ zlen key ∧
    take (Z.to_nat shared) (bb_previous_key b) = take (Z.to_nat shared) key) as (Hsh & Hshk & Hst).
  { unfold shared. destruct (_ =? _); [|done]. split; [zlen_lia|]. split; [lia|done]. }
  assert (bb_entries_since_restart b = bb_restart_interval b → shared = 0) as Hsh0.
  { intros E. unfold shared. by rewrite E, Z.eqb_refl. }
  assert (bb_previous_key b = [] → shared = 0) as Hshnil.
  { intros E. unfold shared. rewrite E. by destruct (_ =? _). }
  assert ((if bb_entries_since_restart b =? bb_restart_interval b then
      if zlen (bb_entries b) <=? U32_MAX then Ok (0, bb_restarts b ++ [zlen (bb_entries b)], 0)
      else Err (InvalidArgument "SSTable data block exceeds u32 restart offsets")
    else Ok (shared_prefix (bb_previous_key b) key, bb_restarts b, bb_entries_since_restart b)) =
    Ok (shared,
        if bb_entries_since_restart b =? bb_restart_interval b
        then bb_restarts b ++ [zlen (bb_entries b)] else bb_restarts b,
        if bb_entries_since_restart b =? bb_restart_interval b
        then 0 else bb_entries_since_restart b)) as ->.
  { unfold shared. destruct (_ =? _); [|done]. by rewrite (proj2 (Z.leb_le _ U32_MAX)) by lia. }
  clearbody shared. cbv beta iota.
  pose proof (entry_bytes_len shared key value ltac:(lia)) as Hel.
  set (eb := entry_bytes shared key value) in *.
  assert (eb ≠ []) as Hne by (intros E; rewrite E in Hel; zlen_nils; lia).
  set (d := {| de_shared := shared; de_key := key; de_value := value;
    de_next := zlen (bb_entries b) + zlen eb |}).
  assert (chain (bb_entries b ++ eb) 0 [] (ds ++ [(zlen (bb_entries b), d)])) as Hch'.
  { apply chain_extend; [done|lia|done| |by rewrite zlen_app].
    rewrite <- Hp. apply (decode_entry_put _ _ _ shared key value []); try done.
    - rewrite app_nil_r. by apply drop_app_z.
    - zlen_lia.
    - rewrite zlen_app. unfold USIZE_MAX, U64_MAX, U32_MAX in *. lia.
    - unfold USIZE_MAX, U64_MAX, U32_MAX in *. lia. }
  assert (kvs_sorted (chain_kvs (ds ++ [(zlen (bb_entries b), d)]))) as Hs' by (by apply kvs_sorted_snoc).
  assert (∀ r d', (r, d') ∈ ds → 0 ≤ r < zlen (bb_entries b)) as Hoff.
  { intros r d' Hd'. destruct (chain_offsets _ _ _ _ Hch) as [_ Hf]. rewrite Forall_forall in Hf.
    by apply (Hf _ Hd'). }
  assert (∀ d0 ds', ds ++ [(zlen (bb_entries b), d)] = (0, d0) :: ds' → de_shared d0 = 0) as Hfi'.
  { intros d0 ds' He. destruct ds as [|x ds]; [|injection He as -> _; by eapply Hfi].
    injection He as Hz <- _. cbn. apply Hshnil. by rewrite Hp. }
  destruct (Z.eqb_spec (bb_entries_since_restart b) (bb_restart_interval b)) as [Hre|Hre].
  - eexists _, d. split; [done|].
    assert (ds ≠ []) as Hdne by (intros ->; specialize (Hs0 eq_refl); lia).
    pose proof (chain_zlen_pos _ _ _ Hch Hdne).
    cbn [bb_entries]. rewrite zlen_app. split; [|done || (split; [done|]; split; [done|]; lia)].
    split; cbn; try done.
    + split; [lia|]. by destruct ds.
    + rewrite Hc. zlen_lia.
    + by rewrite last_key_snoc.
    + apply sorted_snoc; [done|]. intros y Hy. apply last_Some_elem_of in Hy.
      apply list_elem_of_In in Hy. destruct (Hra _ Hy) as [[-> _]|[d' Hd']]; [done|]. apply Hoff in Hd'. lia.
    + by destruct (bb_restarts b).
    + intros r Hr. right. apply in_app_or in Hr as [Hr|[<-|[]]].
      * destruct (Hra _ Hr) as [[-> _]|[d' Hd']]; [done|]. exists d'. apply elem_of_app. by left.
      * exists d. apply elem_of_app. right. by left.
    + intros r d' Hd' Hr. apply elem_of_app in Hd' as [Hd'|Hd'].
      * apply in_app_or in Hr as [Hr|[<-|[]]]; [by eapply Hun|]. apply Hoff in Hd'. lia.
      * apply list_elem_of_singleton in Hd' as [= -> ->]. by apply Hsh0.
  - eexists _, d. split; [done|]. cbn [bb_entries]. rewrite zlen_app.
    split; [|done || (split; [done|]; split; [done|]; lia)].
    split; cbn; try done.
    + split; [lia|]. by destruct ds.
    + rewrite Hc. zlen_lia.
    + by rewrite last_key_snoc.
    + intros r Hr. right. destruct (Hra _ Hr) as [[-> ->]|[d' Hd']].
      * exists d. assert (zlen (bb_entries b) = 0) as Hz by (inversion Hch; congruence).
        apply list_elem_of_singleton. by rewrite Hz.
      * exists d'. apply elem_of_app. by left.
    + intros r d' Hd' Hr. apply elem_of_app in Hd' as [Hd'|Hd']; [by eapply Hun|].
      apply list_elem_of_singleton in Hd' as [= -> ->].
      destruct (Hra _ Hr) as [[-> Hz]|[d' Hd']]; [|apply Hoff in Hd'; lia].
      apply Hshnil. by rewrite Hp.
Qed.

(** ** Decoding what was built *)

Lemma check_entries_chain entries rs fuel cursor prev cnt obs ds :
  chain entries cursor prev ds → zlen ds < Z.of_nat fuel → 0 ≤ cnt →
  Forall (λ x, is_restart rs x.1 = true → de_shared x.2 = 0) ds →
  kvs_sorted (chain_kvs ds) →
  (cnt ≠ 0 → ∀ x, head ds = Some x → lex_cmp prev (de_key x.2) = Lt) →
  check_entries fuel entries rs cursor prev cnt obs =
    Ok (zlen entries, cnt + zlen ds, obs + count_restarts rs ds).
Proof.
  intros H. revert fuel cnt obs.
  induction H as [prev|cursor prev d ds Hlt Hd H IH]; intros fuel cnt obs Hf Hcnt Hsh Hs Hhd;
    (destruct fuel as [|fuel]; [zlen_lia|]); cbn [check_entries].
  - rewrite (proj2 (Z.ltb_ge _ _)) by lia. unfold count_restarts. cbn. zlen_nils. by rewrite !Z.add_0_r.
  - rewrite (proj2 (Z.ltb_lt _ _)), Hd by lia.
    apply Forall_cons in Hsh as [Hsh0 Hsh]. cbn [fst snd] in Hsh0.
    assert (is_restart rs cursor && negb (de_shared d =? 0) = false) as ->.
    { destruct (is_restart rs cursor); [|done]. by rewrite Hsh0. }
    assert (negb (cnt =? 0) && lex_leb (de_key d) prev = false) as ->.
    { destruct (Z.eqb_spec cnt 0) as [|Hne]; [done|]. cbn. unfold lex_leb.
      specialize (Hhd Hne _ eq_refl). cbn in Hhd. by rewrite (cmp_lt_gt _ _ Hhd). }
    cbn [map] in Hs. apply StronglySorted_inv in Hs as [Hs Hall].
    rewrite IH; [|zlen_lia|lia|done|done|].
    + unfold count_restarts. cbn [List.filter fst].
      do 2 f_equal; [f_equal; zlen_lia|]. destruct (is_restart rs cursor); zlen_lia.
    + intros _ [c' d'] Hx. destruct ds as [|x ds]; [done|]. injection Hx as ->.
      by apply Forall_cons in Hall as [? _].
Qed.

Lemma zlen_concat_le4 rs : zlen (concat (map (to_le 4) rs)) = 4 * zlen rs.
Proof. induction rs as [|r rs IH]; cbn [map concat]; [done|]. zlen_simpl. lia. Qed.

Lemma read_restarts_put pre dn todo post rc :
  let rs := dn ++ todo in
  let encoded := pre ++ concat (map (to_le 4) rs) ++ post in
  zlen encoded ≤ USIZE_MAX →
  StronglySorted Z.lt rs → (∀ r, head rs = Some r → r = 0) → Forall is_u32 rs →
  (if zlen pre =? 0 then rc = 1 ∧ rs = [0] else Forall (λ r, r < zlen pre) rs) →
  read_restarts (length todo) encoded (zlen pre) rc dn = Ok rs.
Proof.
  revert dn. induction todo as [|r todo IH]; intros dn rs encoded Hmax Hs Hh Hu Hee.
  { cbn. unfold rs. by rewrite app_nil_r. }
  cbn [length read_restarts].
  assert (encoded = (pre ++ concat (map (to_le 4) dn)) ++ to_le 4 r ++
    (concat (map (to_le 4) todo) ++ post)) as Henc.
  { unfold encoded, rs. rewrite map_app, concat_app. cbn [map concat]. by rewrite <- !app_assoc. }
  assert (zlen (pre ++ concat (map (to_le 4) dn)) = zlen pre + zlen dn * 4) as Hpre.
  { rewrite zlen_app, zlen_concat_le4. lia. }
  assert (zlen pre + zlen dn * 4 + 4 ≤ zlen encoded) as Hfit.
  { rewrite Henc, !zlen_app, zlen_to_le. rewrite zlen_app in Hpre. zlen_pos. lia. }
  unfold checked_mul, checked_add, FIXED_RESTART_BYTES. zlen_pos.
  rewrite (proj2 (Z.leb_le (zlen dn * 4) _)) by lia. cbn [ok_or].
  rewrite (proj2 (Z.leb_le (zlen pre + zlen dn * 4) _)) by lia. cbn [ok_or].
  assert (slice (zlen pre + zlen dn * 4) (zlen pre + zlen dn * 4 + 4) encoded = to_le 4 r) as ->.
  { change 4 with (Z.of_nat 4) at 3. rewrite <- (zlen_to_le 4 r), Henc. rewrite <- Hpre.
    apply slice_app_mid. }
  assert (is_u32 r) as Hr.
  { unfold rs in Hu. apply Forall_app in Hu as [_ Hu]. by apply Forall_cons in Hu as [? _]. }
  rewrite from_le_to_le by (unfold is_u32, U32_MAX in Hr; lia).
  assert ((zlen dn =? 0) && negb (r =? 0) = false) as ->.
  { destruct dn as [|x dn]; [|by rewrite (proj2 (Z.eqb_neq _ _)) by zlen_lia].
    rewrite (Hh r) by done. done. }
  assert (match last dn with Some p => r <=? p | None => false end = false) as ->.
  { destruct (last dn) as [p|] eqn:El; [|done]. apply Z.leb_gt.
    apply last_Some in El as [dn' ->]. unfold rs in Hs. rewrite <- app_assoc in Hs. clear -Hs.
    induction dn' as [|x dn' IH]; cbn in Hs; apply StronglySorted_inv in Hs as [Hs Hall]; [|by apply IH].
    by apply Forall_cons in Hall as [? _]. }
  assert (rs = (dn ++ [r]) ++ todo) as Hrs by (unfold rs; by rewrite <- app_assoc).
  assert (read_restarts (length todo) encoded (zlen pre) rc (dn ++ [r]) = Ok rs) as Hgo.
  { unfold encoded. rewrite Hrs. apply IH; rewrite <- Hrs; done. }
  destruct (Z.eqb_spec (zlen pre) 0) as [E0|E0].
  - destruct Hee as [-> Hrs0]. destruct dn as [|x dn]; [|by destruct dn].
    unfold rs in Hrs0. injection Hrs0 as -> ->. done.
  - assert (r < zlen pre) as Hlt.
    { unfold rs in Hee. apply Forall_app in Hee as [_ Hee]. by apply Forall_cons in Hee as [? _]. }
    by rewrite (proj2 (Z.leb_gt _ _)) by lia.
Qed.

Lemma builder_restarts_len b ds :
  builder_inv b ds → zlen (bb_restarts b) ≤ Z.max 1 (zlen ds) ∧ bb_restarts b ≠ [] ∧
  (ds = [] → bb_restarts b = [0]) ∧
  (ds ≠ [] → count_restarts (bb_restarts b) ds = zlen (bb_restarts b)).
Proof.
  intros [_ _ Hch _ _ _ Hrs Hrh Hra _ _].
  assert (bb_restarts b ≠ []) as Hne by (by destruct (bb_restarts b)).
  destruct (chain_offsets _ _ _ _ Hch) as [Hoff _]. pose proof (sorted_NoDup _ Hrs) as Hnd.
  destruct ds as [|x ds0] eqn:Eds.
  { assert (bb_restarts b = [0]) as Hr0.
    { destruct (bb_restarts b) as [|r0 [|r1 rs]]; [done|by injection Hrh as ->|].
      apply StronglySorted_inv in Hrs as [_ Hall]. apply Forall_cons in Hall as [Hlt _].
      destruct (Hra r0) as [[_ ->]|[? ?%elem_of_nil]]; [by left| |done].
      destruct (Hra r1) as [[_ ->]|[? ?%elem_of_nil]]; [right; by left|lia|done]. }
    rewrite Hr0. done. }
  rewrite <- Eds in *. assert (ds ≠ []) as Hdne by (by rewrite Eds).
  assert (∀ r, In r (bb_restarts b) → In r (map fst ds)) as Hincl.
  { intros r Hr. destruct (Hra _ Hr) as [[-> _]|[d Hd]]; [done|].
    apply in_map_iff. exists (r, d). split; [done|]. by apply list_elem_of_In. }
  assert (count_restarts (bb_restarts b) ds = zlen (bb_restarts b)) as Hcount.
  { unfold count_restarts, zlen. f_equal. rewrite <- (length_map fst).
    apply Permutation_length, NoDup_Permutation_bis.
    - by apply hits_NoDup, sorted_NoDup.
    - apply (NoDup_incl_length Hnd). intros r Hr. pose proof (Hincl r Hr) as Hin.
      apply in_map_iff in Hin as (y & <- & Hy). apply in_map_iff. exists y. split; [done|].
      apply filter_In. split; [done|]. by apply is_restart_In.
    - intros r Hr. apply in_map_iff in Hr as (y & <- & Hy). apply filter_In in Hy as [_ Hy].
      by apply is_restart_In. }
  split; [|split; [done|split; [by intros ->|done]]].
  pose proof (NoDup_incl_length Hnd Hincl) as Hl. rewrite length_map in Hl. unfold zlen. lia.
Qed.

(** The finished block of a builder decodes to its entries. *)
Lemma finish_decode b ds :
  builder_inv b ds → zlen (bb_entries b) ≤ U32_MAX →
  ∃ blk, Block_decode (BlockBuilder_finish b) = Ok blk ∧ block_chain blk ds.
Proof.
  intros Hinv Hsize. pose proof Hinv as [Hri _ Hch Hs Hc _ Hrs Hrh Hra Hun _].
  destruct (builder_restarts_len b ds Hinv) as (Hrl & Hrne & Hr0 & Hcnt).
  pose proof (chain_len _ _ _ _ Hch) as Hdl. pose proof (chain_offsets _ _ _ _ Hch) as [_ Hoff].
  set (rs := bb_restarts b) in *. set (entries := bb_entries b) in *.
  assert (0 < zlen rs) as Hrpos by (destruct rs; [done|zlen_lia]).
  assert (∀ r, In r rs → is_u32 r ∧ (ds ≠ [] → r < zlen entries)) as Hrb.
  { intros r Hr. unfold is_u32, U32_MAX in *. destruct (Hra _ Hr) as [[-> ->]|[d Hd]]; [done|].
    rewrite Forall_forall in Hoff. specialize (Hoff _ Hd). cbn in Hoff. lia. }
  assert (zlen rs ≤ U32_MAX) as Hru by (unfold U32_MAX in *; lia).
  unfold BlockBuilder_finish. fold rs. fold entries.
  assert (wrap32 (zlen rs) = zlen rs) as -> by (unfold wrap32, U32_MAX in *; apply Z.mod_small; lia).
  set (encoded := entries ++ concat (map (to_le 4) rs) ++ to_le 4 (zlen rs)).
  assert (zlen encoded = zlen entries + 4 * zlen rs + 4) as Hlen.
  { unfold encoded. rewrite !zlen_app, zlen_concat_le4, zlen_to_le. lia. }
  unfold Block_decode. rewrite Hlen. unfold FIXED_RESTART_BYTES. zlen_pos.
  rewrite (proj2 (Z.ltb_ge _ _)) by lia.
  replace (zlen entries + 4 * zlen rs + 4 - 4) with (zlen entries + 4 * zlen rs) by lia.
  assert (slice (zlen entries + 4 * zlen rs) (zlen entries + 4 * zlen rs + 4) encoded = to_le 4 (zlen rs)) as ->.
  { unfold encoded. rewrite app_assoc.
    pose proof (slice_app_mid (entries ++ concat (map (to_le 4) rs)) (to_le 4 (zlen rs)) []) as Hm.
    rewrite app_nil_r in Hm. rewrite zlen_app, zlen_concat_le4, zlen_to_le in Hm. exact Hm. }
  rewrite from_le_to_le by (unfold U32_MAX in *; lia).
  rewrite (proj2 (Z.eqb_neq (zlen rs) 0)) by lia. unfold checked_mul, checked_sub.
  rewrite (proj2 (Z.leb_le (zlen rs * 4) _)) by (unfold USIZE_MAX, U64_MAX, U32_MAX in *; lia). cbn [ok_or].
  rewrite (proj2 (Z.leb_le (zlen rs * 4) _)) by lia. cbn [ok_or].
  replace (zlen entries + 4 * zlen rs - zlen rs * 4) with (zlen entries) by lia.
  replace (Z.to_nat (zlen rs)) with (length rs) by (unfold zlen; lia).
  assert (read_restarts (length rs) encoded (zlen entries) (zlen rs) [] = Ok rs) as ->.
  { apply (read_restarts_put entries [] rs (to_le 4 (zlen rs)) (zlen rs)); cbn [app].
    - fold encoded. rewrite Hlen. unfold USIZE_MAX, U64_MAX, U32_MAX in *. lia.
    - done.
    - intros r Hr. rewrite Hrh in Hr. by injection Hr.
    - apply Forall_forall. intros r Hr. apply Hrb. by apply list_elem_of_In.
    - destruct (Z.eqb_spec (zlen entries) 0) as [E0|E0].
      + assert (ds = []) as Hd0 by (apply zlen_0_nil; zlen_pos; lia). by rewrite (Hr0 Hd0).
      + apply Forall_forall. intros r Hr. apply Hrb; [by apply list_elem_of_In|].
        intros ->. apply E0. inversion Hch; congruence. }
  assert (slice 0 (zlen entries) encoded = entries) as ->.
  { unfold slice, encoded. cbn [drop]. rewrite Z.sub_0_r. by apply take_app_z. }
  cbn [app]. rewrite (check_entries_chain entries rs _ 0 [] 0 0 ds Hch).
  - rewrite Z.eqb_refl. cbn [negb].
    assert (((if zlen entries =? 0 then 1 else 0 + count_restarts rs ds) =? zlen rs) = true) as ->.
    { apply Z.eqb_eq. destruct (Z.eqb_spec (zlen entries) 0) as [E0|E0].
      - assert (ds = []) as Hd0 by (apply zlen_0_nil; zlen_pos; lia). by rewrite (Hr0 Hd0).
      - rewrite Hcnt; [lia|]. intros ->. apply E0. inversion Hch; congruence. }
    cbn [negb]. eexists. split; [done|]. unfold block_chain. cbn [bl_entries bl_restarts bl_entry_count].
    split; [done|]. split; [done|]. split; [lia|]. split; [done|]. split.
    + split; [done|]. split; [intros r Hr; rewrite Hrh in Hr; by injection Hr|].
      apply Forall_forall. intros r Hr. apply list_elem_of_In, Hrb in Hr as [Hr _]. apply Hr.
    + intros Hne. apply Forall_forall. intros r Hr%list_elem_of_In.
      destruct (Hra _ Hr) as [[-> _]|[d Hd]]; [done|]. exists d. split; [done|]. by eapply Hun.
  - unfold zlen in *. lia.
  - lia.
  - apply Forall_forall. intros [r d] Hd Hr. cbn in *. apply is_restart_In in Hr. by eapply Hun.
  - done.
  - done.
Qed.

(** Adding a sorted list of entries. *)
Definition add_all (b : BlockBuilder) (kvs : list (bytes * bytes)) : result BlockBuilder :=
  try_fold (λ b '(key, value), BlockBuilder_add b key value) b kvs.

Fixpoint kvs_cost (kvs : list (bytes * bytes)) : Z :=
  match kvs with [] => 0 | (k, v) :: kvs => 30 + zlen k + zlen v + kvs_cost kvs end.

Lemma kvs_cost_nonneg kvs : 0 ≤ kvs_cost kvs.
Proof. induction kvs as [|[k v] kvs IH]; cbn [kvs_cost]; zlen_lia. Qed.

Lemma add_all_inv kvs b ds :
  builder_inv b ds → zlen (bb_entries b) + kvs_cost kvs ≤ U32_MAX →
  kvs_sorted (chain_kvs ds ++ kvs) →
  ∃ b' ds', add_all b kvs = Ok b' ∧ builder_inv b' ds' ∧ chain_kvs ds' = chain_kvs ds ++ kvs ∧
    zlen (bb_entries b') ≤ zlen (bb_entries b) + kvs_cost kvs.
Proof.
  revert b ds. induction kvs as [|[k v] kvs IH]; intros b ds Hinv Hsize Hs; cbn [kvs_cost] in *.
  { exists b, ds. rewrite app_nil_r. split; [done|]. split; [done|]. split; [done|lia]. }
  pose proof (kvs_cost_nonneg kvs).
  destruct (add_inv b ds k v Hinv) as (b1 & d & Hb1 & Hinv1 & Hk & Hv & Hl1).
  { intros Hne. pose proof (kvs_sorted_app _ _ _ Hs) as Hall.
    destruct ds as [|x ds _] using rev_ind; [done|]. rewrite last_key_snoc.
    rewrite map_app in Hall. apply Forall_app in Hall as [_ Hall]. by apply Forall_cons in Hall as [? _]. }
  { lia. }
  assert (chain_kvs (ds ++ [(zlen (bb_entries b), d)]) = chain_kvs ds ++ [(k, v)]) as Hkv.
  { rewrite map_app. cbn. by rewrite Hk, Hv. }
  destruct (IH b1 _ Hinv1) as (b2 & ds2 & Hb2 & Hinv2 & Hkv2 & Hl2); [lia|by rewrite Hkv, <- app_assoc|].
  exists b2, ds2. unfold add_all in *. cbn [try_fold]. rewrite Hb1. split; [done|]. split; [done|].
  rewrite Hkv2, Hkv, <- app_assoc. split; [done|lia].
Qed.

(** ** Properties *)

(** Every accepted block is ordered and searchable: if arbitrary bytes decode,
    then iterating the block yields entries with strictly increasing keys, as many
    as its count, and [seek] returns exactly the first of them whose key is at
    least the target (through the restart binary search), without an error. *)
Theorem block_seek_correct (encoded : bytes) (b : Block) :
  bytes_ok encoded → Block_decode encoded = Ok b →
  ∃ kvs, Block_entries b = Ok kvs ∧ kvs_sorted kvs ∧ bl_entry_count b = zlen kvs ∧
    ∀ target, Block_seek b target = Ok (find (λ kv, lex_leb target kv.1) kvs).
Proof.
  intros Hok Hdec. destruct (Block_decode_chain _ _ Hok Hdec) as [ds Hch].
  exists (chain_kvs ds). split; [by apply Block_entries_chain|].
  pose proof Hch as (_ & Hs & Hcnt & _). split; [done|]. split; [by rewrite zlen_map|].
  intros target. by apply Block_seek_chain.
Qed.

(** The block format round-trips: adding any strictly increasing sequence of
    entries (of less than 4 GiB) with any positive restart interval succeeds, and
    the finished bytes decode to a block with exactly those entries, in order,
    whose seeks find the first key at or above the target. *)
Theorem block_roundtrip (restart_interval : Z) (kvs : list (bytes * bytes)) :
  1 ≤ restart_interval → kvs_sorted kvs → kvs_cost kvs ≤ U32_MAX →
  ∃ b0 b blk, BlockBuilder_try_new restart_interval = Ok b0 ∧ add_all b0 kvs = Ok b ∧
    Block_decode (BlockBuilder_finish b) = Ok blk ∧ Block_entries blk = Ok kvs ∧
    ∀ target, Block_seek blk target = Ok (find (λ kv, lex_leb target kv.1) kvs).
Proof.
  intros Hri Hs Hcost.
  destruct (BlockBuilder_try_new restart_interval) as [b0|] eqn:E0.
  2:{ unfold BlockBuilder_try_new in E0. rewrite (proj2 (Z.eqb_neq _ _)) in E0 by lia. done. }
  pose proof (try_new_inv restart_interval b0 ltac:(lia) E0) as Hinv0.
  assert (bb_entries b0 = []) as Hb0.
  { unfold BlockBuilder_try_new in E0. destruct (_ =? 0); [done|]. by injection E0 as <-. }
  destruct (add_all_inv kvs b0 [] Hinv0) as (b & ds & Hb & Hinv & Hkv & Hl);
    [rewrite Hb0; zlen_nils; lia|done|]. rewrite Hb0 in Hl. zlen_nils. cbn [map app] in Hkv.
  destruct (finish_decode b ds Hinv ltac:(lia)) as (blk & Hdec & Hch).
  exists b0, b, blk. split; [done|]. split; [done|]. split; [done|]. rewrite <- Hkv.
  split; [by apply Block_entries_chain|]. intros target. by apply Block_seek_chain.
Qed.

(** Entries that share prefixes and cross a restart point. *)
Definition sample_kvs : list (bytes * bytes) :=
  [([1; 1], [9]); ([1; 2], []); ([1; 2; 3], [7; 7]); ([5], [1])].
Definition sample_block : bytes :=
  match BlockBuilder_try_new 2 with
  | Ok b => match add_all b sample_kvs with Ok b => BlockBuilder_finish b | Err _ => [] end
  | Err _ => []
  end.

Lemma sample_kvs_sorted : kvs_sorted sample_kvs.
Proof. repeat constructor. Qed.

(** An instance on the sample block. *)
Lemma block_seek_correct_witness :
  ∃ b, Block_decode sample_block = Ok b ∧
  ∃ kvs, Block_entries b = Ok kvs ∧ kvs_sorted kvs ∧ bl_entry_count b = zlen kvs ∧
    ∀ target, Block_seek b target = Ok (find (λ kv, lex_leb target kv.1) kvs).
Proof.
  eexists. split; [vm_compute; reflexivity|].
  apply (block_seek_correct sample_block); [eval_done|vm_compute; reflexivity].
Defined.

(** An instance on the sample entries. *)
Lemma block_roundtrip_witness :
  ∃ b0 b blk, BlockBuilder_try_new 2 = Ok b0 ∧ add_all b0 sample_kvs = Ok b ∧
    Block_decode (BlockBuilder_finish b) = Ok blk ∧ Block_entries blk = Ok sample_kvs ∧
    ∀ target, Block_seek blk target = Ok (find (λ kv, lex_leb target kv.1) sample_kvs).
Proof.
  apply (block_roundtrip 2 sample_kvs); [lia|apply sample_kvs_sorted|eval_done].
Defined.
