(* ===== verification/TableBuilder.v ===== *)
(** * Building SSTables (src/crates/meteordb/src/sstable/builder.rs)

    [TableBuilder] from [create_with_fs] to [finish], on the bytes of its file:
    data blocks, Bloom filter, index with shortest separators, properties and
    the fixed footer.  The Snappy codec (crate [snap]) is the interface [Snappy]. *)

From Stdlib Require Import ZArith Lia Sorting.Sorted.
From stdpp Require Import base list gmap strings.
From S2P Require Import Prelude Checksum InternalKey Bloom Format Block.

Local Open Scope Z_scope.

Definition FOOTER_HANDLE_BYTES : Z := 20.

(** [Compression] of options.rs. *)
Inductive Compression : Type := CompressionNone | CompressionSnappy.

#[global] Instance Compression_eq_dec : EqDecision Compression.
Proof. solve_decision. Defined.

(** The three calls of [snap::raw] the sources make; [None] is an error. *)
Class Snappy : Type := {
  snappy_compress : bytes → option bytes;
  snappy_decompress_len : bytes → option Z;
  snappy_decompress : bytes → option bytes
}.

(** What its documentation promises: inputs up to [u32::MAX] bytes compress,
    [decompress_vec] inverts [compress_vec], [decompress_len] reads the length from the header, and the output is at most
    [max_compress_len] bytes. *)
Class SnappyLaws (S : Snappy) : Prop := {
  snappy_total : ∀ p, zlen p ≤ U32_MAX → is_Some (snappy_compress p);
  snappy_inverse : ∀ p c, snappy_compress p = Some c → snappy_decompress c = Some p;
  snappy_len : ∀ p c, snappy_compress p = Some c → snappy_decompress_len c = Some (zlen p);
  snappy_bound : ∀ p c, snappy_compress p = Some c → zlen c ≤ 32 + zlen p + zlen p / 6
}.

Record TableProperties : Type := {
  tp_file_number : Z;
  tp_entries : Z;
  tp_data_blocks : Z;
  tp_compression : Compression;
  tp_smallest : InternalKey;
  tp_largest : InternalKey;
  tp_max_data_block_bytes : Z;
  tp_engine_value_encoding : bool
}.

Record TableBuildResult : Type := {
  tr_file_number : Z;
  tr_file_size : Z;
  tr_smallest : InternalKey;
  tr_largest : InternalKey;
  tr_entries : Z
}.

Record DataBlockMeta : Type := {
  dm_first : bytes;
  dm_last : bytes;
  dm_handle : BlockHandle
}.

(** [file] is its bytes; the path is left to the file system. *)
Record TableBuilder : Type := {
  tb_file : bytes;
  tb_file_number : Z;
  tb_offset : Z;
  tb_block_bytes : Z;
  tb_restart_interval : Z;
  tb_bloom_bits_per_key : Z;
  tb_compression : Compression;
  tb_block : option BlockBuilder;
  tb_pending_bytes : Z;
  tb_pending_first : option bytes;
  tb_pending_last : option bytes;
  tb_previous_key : option bytes;
  tb_filter_keys : list bytes;
  tb_data_blocks : list DataBlockMeta;
  tb_entries : Z;
  tb_smallest : option InternalKey;
  tb_largest : option InternalKey;
  tb_max_data_block_bytes : Z;
  tb_engine_value_encoding : bool
}.

Definition TableBuilder_create (file_number block_bytes restart_interval bloom_bits_per_key : Z)
    (compression : Compression) : result TableBuilder :=
  if block_bytes =? 0 then Err (InvalidArgument "block_bytes must be greater than zero")
  else if bloom_bits_per_key =? 0 then
    Err (InvalidArgument "bloom_bits_per_key must be greater than zero")
  else
    let? block := BlockBuilder_try_new restart_interval in
    Ok {| tb_file := [];
          tb_file_number := file_number;
          tb_offset := 0;
          tb_block_bytes := block_bytes;
          tb_restart_interval := restart_interval;
          tb_bloom_bits_per_key := bloom_bits_per_key;
          tb_compression := compression;
          tb_block := Some block;
          tb_pending_bytes := 0;
          tb_pending_first := None;
          tb_pending_last := None;
          tb_previous_key := None;
          tb_filter_keys := [];
          tb_data_blocks := [];
          tb_entries := 0;
          tb_smallest := None;
          tb_largest := None;
          tb_max_data_block_bytes := 0;
          tb_engine_value_encoding := false |}.

Definition use_engine_value_encoding (t : TableBuilder) : TableBuilder :=
  {| tb_file := tb_file t; tb_file_number := tb_file_number t; tb_offset := tb_offset t;
     tb_block_bytes := tb_block_bytes t; tb_restart_interval := tb_restart_interval t;
     tb_bloom_bits_per_key := tb_bloom_bits_per_key t; tb_compression := tb_compression t;
     tb_block := tb_block t; tb_pending_bytes := tb_pending_bytes t;
     tb_pending_first := tb_pending_first t; tb_pending_last := tb_pending_last t;
     tb_previous_key := tb_previous_key t; tb_filter_keys := tb_filter_keys t;
     tb_data_blocks := tb_data_blocks t; tb_entries := tb_entries t;
     tb_smallest := tb_smallest t; tb_largest := tb_largest t;
     tb_max_data_block_bytes := tb_max_data_block_bytes t;
     tb_engine_value_encoding := true |}.

(** ** Writing *)

(** The builder with more bytes behind its file. *)
Definition tb_append (t : TableBuilder) (b : bytes) (next : Z) : TableBuilder :=
  {| tb_file := tb_file t ++ b; tb_file_number := tb_file_number t; tb_offset := next;
     tb_block_bytes := tb_block_bytes t; tb_restart_interval := tb_restart_interval t;
     tb_bloom_bits_per_key := tb_bloom_bits_per_key t; tb_compression := tb_compression t;
     tb_block := tb_block t; tb_pending_bytes := tb_pending_bytes t;
     tb_pending_first := tb_pending_first t; tb_pending_last := tb_pending_last t;
     tb_previous_key := tb_previous_key t; tb_filter_keys := tb_filter_keys t;
     tb_data_blocks := tb_data_blocks t; tb_entries := tb_entries t;
     tb_smallest := tb_smallest t; tb_largest := tb_largest t;
     tb_max_data_block_bytes := tb_max_data_block_bytes t;
     tb_engine_value_encoding := tb_engine_value_encoding t |}.

Definition write_raw (t : TableBuilder) (b : bytes) : result TableBuilder :=
  let? next := ok_or (checked_add (tb_offset t) (zlen b))
    (InvalidArgument "SSTable file offset overflows u64") in
  Ok (tb_append t b next).

Section Builder.
  Context `{C : Crc32c} `{SN : Snappy}.

Definition compress_payload (payload : bytes) (compression : Compression) : result (bytes * Z) :=
  match compression with
  | CompressionNone => Ok (payload, NO_COMPRESSION)
  | CompressionSnappy =>
    let? c := ok_or (snappy_compress payload)
      (Corruption "SSTable" "Snappy compression failed") in
    Ok (c, SNAPPY_COMPRESSION)
  end.

Definition write_payload (t : TableBuilder) (payload : bytes) (compression : Compression)
    : result (BlockHandle * TableBuilder) :=
  let? (stored_payload, marker) := compress_payload payload compression in
  let? encoded := encode_stored_block stored_payload marker in
  let handle := {| bh_offset := tb_offset t; bh_size := zlen encoded |} in
  let? t := write_raw t encoded in
  Ok (handle, t).

Definition flush_data_block (t : TableBuilder) : result TableBuilder :=
  if tb_pending_bytes t =? 0 then Ok t
  else
    let? builder := ok_or (tb_block t)
      (Panicked "unfinished builders retain a data block") in
    let block := BlockBuilder_finish builder in
    let max_data_block_bytes := Z.max (tb_max_data_block_bytes t) (zlen block) in
    let? (handle, t) := write_payload t block (tb_compression t) in
    let? first := ok_or (tb_pending_first t) (Panicked "nonempty block has first key") in
    let? last := ok_or (tb_pending_last t) (Panicked "nonempty block has last key") in
    let? block := BlockBuilder_try_new (tb_restart_interval t) in
    Ok {| tb_file := tb_file t; tb_file_number := tb_file_number t; tb_offset := tb_offset t;
          tb_block_bytes := tb_block_bytes t; tb_restart_interval := tb_restart_interval t;
          tb_bloom_bits_per_key := tb_bloom_bits_per_key t; tb_compression := tb_compression t;
          tb_block := Some block; tb_pending_bytes := 0;
          tb_pending_first := None; tb_pending_last := None;
          tb_previous_key := tb_previous_key t; tb_filter_keys := tb_filter_keys t;
          tb_data_blocks := tb_data_blocks t ++
            [{| dm_first := first; dm_last := last; dm_handle := handle |}];
          tb_entries := tb_entries t;
          tb_smallest := tb_smallest t; tb_largest := tb_largest t;
          tb_max_data_block_bytes := max_data_block_bytes;
          tb_engine_value_encoding := tb_engine_value_encoding t |}.

Definition TableBuilder_add (t : TableBuilder) (key : InternalKey) (value : bytes)
    : result TableBuilder :=
  if match tb_previous_key t with
     | Some previous => lex_leb (ik_encoded key) previous
     | None => false
     end then
    Err (InvalidArgument "SSTable keys must be strictly increasing")
  else
    let? entry_bytes := ok_or (checked_add (zlen (ik_encoded key)) (zlen value))
      (InvalidArgument "SSTable entry length overflows usize") in
    let? next_bytes := ok_or (checked_add (tb_pending_bytes t) entry_bytes)
      (InvalidArgument "SSTable block size overflows usize") in
    let? t :=
      (if negb (tb_pending_bytes t =? 0) && (tb_block_bytes t <? next_bytes)
       then flush_data_block t else Ok t) in
    let? builder := ok_or (tb_block t)
      (Panicked "unfinished builders retain a data block") in
    let? builder := BlockBuilder_add builder (ik_encoded key) value in
    let? entries := ok_or (checked_add (tb_entries t) 1)
      (InvalidArgument "SSTable entry count overflows u64") in
    Ok {| tb_file := tb_file t; tb_file_number := tb_file_number t; tb_offset := tb_offset t;
          tb_block_bytes := tb_block_bytes t; tb_restart_interval := tb_restart_interval t;
          tb_bloom_bits_per_key := tb_bloom_bits_per_key t; tb_compression := tb_compression t;
          tb_block := Some builder;
          tb_pending_bytes := if tb_pending_bytes t =? 0 then entry_bytes else next_bytes;
          tb_pending_first := Some (default (ik_encoded key) (tb_pending_first t));
          tb_pending_last := Some (ik_encoded key);
          tb_previous_key := Some (ik_encoded key);
          tb_filter_keys := tb_filter_keys t ++ [ik_user_key key];
          tb_data_blocks := tb_data_blocks t; tb_entries := entries;
          tb_smallest := Some (default key (tb_smallest t)); tb_largest := Some key;
          tb_max_data_block_bytes := tb_max_data_block_bytes t;
          tb_engine_value_encoding := tb_engine_value_encoding t |}.

(** ** Metadata *)

Definition shortest_separator (start limit : bytes) : bytes :=
  let shared := shared_prefix start limit in
  match get_at shared start, get_at shared limit with
  | Some start_byte, Some limit_byte =>
    if (start_byte <? 0xff) && (start_byte + 1 <? limit_byte) then
      take (Z.to_nat shared) start ++ [start_byte + 1]
    else start
  | _, _ => start
  end.

Definition footer_slot (h : BlockHandle) : bytes :=
  let encoded := BlockHandle_encode h in
  encoded ++ replicate (Z.to_nat (FOOTER_HANDLE_BYTES - zlen encoded)) 0.

Definition encode_footer (index filter properties : BlockHandle) : bytes :=
  footer_slot index ++ footer_slot filter ++ footer_slot properties ++
  to_le 4 SSTABLE_FORMAT_VERSION ++ SSTABLE_MAGIC.

Definition compression_marker (c : Compression) : Z :=
  match c with CompressionNone => NO_COMPRESSION | CompressionSnappy => SNAPPY_COMPRESSION end.

Definition put_key (encoded : bytes) (key : InternalKey) : bytes :=
  put_varint encoded (zlen (ik_encoded key)) ++ ik_encoded key.

Definition encode_properties (p : TableProperties) : bytes :=
  let encoded := put_varint [] (tp_file_number p) in
  let encoded := put_varint encoded (tp_entries p) in
  let encoded := put_varint encoded (tp_data_blocks p) in
  let encoded := encoded ++ [compression_marker (tp_compression p)] in
  let encoded := put_varint encoded (tp_max_data_block_bytes p) in
  let encoded := put_key encoded (tp_smallest p) in
  let encoded := put_key encoded (tp_largest p) in
  if tp_engine_value_encoding p then encoded ++ [0xe1; 1] else encoded.

(** [for position in 0..self.data_blocks.len()] *)
Fixpoint index_entries (metas : list DataBlockMeta) : list (bytes * bytes) :=
  match metas with
  | [] => []
  | meta :: metas =>
    let separator :=
      match metas with
      | next :: _ => shortest_separator (dm_last meta) (dm_first next)
      | [] => dm_last meta
      end in
    (separator, BlockHandle_encode (dm_handle meta)) :: index_entries metas
  end.

(** [finish]; the second component is the complete file. *)
Definition TableBuilder_finish (t : TableBuilder) : result (TableBuildResult * bytes) :=
  if tb_entries t =? 0 then Err (InvalidArgument "cannot finish an empty SSTable")
  else
    let? t := flush_data_block t in
    let? filter := from_keys (tb_filter_keys t) (tb_bloom_bits_per_key t) in
    let? (filter_handle, t) := write_payload t (bf_encoded filter) CompressionNone in
    let? index := BlockBuilder_try_new (tb_restart_interval t) in
    let? index := add_all index (index_entries (tb_data_blocks t)) in
    let? (index_handle, t) := write_payload t (BlockBuilder_finish index) CompressionNone in
    let? smallest := ok_or (tb_smallest t) (Panicked "nonempty table has a first key") in
    let? largest := ok_or (tb_largest t) (Panicked "nonempty table has a last key") in
    let properties :=
      {| tp_file_number := tb_file_number t;
         tp_entries := tb_entries t;
         tp_data_blocks := zlen (tb_data_blocks t);
         tp_compression := tb_compression t;
         tp_smallest := smallest;
         tp_largest := largest;
         tp_max_data_block_bytes := tb_max_data_block_bytes t;
         tp_engine_value_encoding := tb_engine_value_encoding t |} in
    let? (properties_handle, t) :=
      write_payload t (encode_properties properties) CompressionNone in
    let? t := write_raw t (encode_footer index_handle filter_handle properties_handle) in
    Ok ({| tr_file_number := tb_file_number t;
           tr_file_size := tb_offset t;
           tr_smallest := smallest;
           tr_largest := largest;
           tr_entries := tb_entries t |}, tb_file t).

End Builder.

(** A codec that satisfies the laws: the identity. *)
Definition identity_snappy : Snappy := {|
  snappy_compress p := Some p;
  snappy_decompress_len p := Some (zlen p);
  snappy_decompress p := Some p
|}.

#[global] Instance identity_snappy_laws : SnappyLaws identity_snappy.
Proof.
  split; cbn.
  - eauto.
  - by intros p c [= ->].
  - by intros p c [= ->].
  - intros p c [= ->]. pose proof (Z.div_pos (zlen c) 6 (zlen_nonneg c)). lia.
Qed.

(** ** Separators *)

Lemma shared_prefix_split a b :
  let n := Z.to_nat (shared_prefix a b) in
  take n a = take n b ∧
  match get_at (shared_prefix a b) a, get_at (shared_prefix a b) b with
  | Some x, Some y => x ≠ y ∧ (∃ a' b', a = take n a ++ x :: a' ∧ b = take n a ++ y :: b')
  | _, _ => True
  end.
Proof.
  revert b. induction a as [|x a IH]; intros [|y b]; cbn [shared_prefix]; try done.
  destruct (Z.eqb_spec x y) as [->|Hne].
  - destruct (shared_prefix_spec a b) as ([H0 _] & _ & _). destruct (IH b) as [H1 H2].
    replace (Z.to_nat (1 + shared_prefix a b)) with (S (Z.to_nat (shared_prefix a b))) by lia.
    cbn zeta. cbn [take]. split; [by rewrite H1|].
    assert (∀ (z : Z) (l : bytes), get_at (1 + shared_prefix a b) (z :: l) = get_at (shared_prefix a b) l) as Hg.
    { intros z l. unfold get_at. rewrite !(proj2 (Z.ltb_ge _ _)) by lia.
      replace (Z.to_nat (1 + shared_prefix a b)) with (S (Z.to_nat (shared_prefix a b))) by lia. done. }
    rewrite !Hg. destruct (get_at _ a) as [u|]; [|done]. destruct (get_at _ b) as [v|]; [|done].
    destruct H2 as (Hn & a' & b' & Ha & Hb). split; [done|]. exists a', b'.
    cbn. rewrite <- Ha. split; [done|]. by rewrite <- Hb.
  - cbn. split; [done|]. split; [done|]. by exists a, b.
Qed.

(** A separator lies between its block's last key and the next block's first. *)
Lemma shortest_separator_between a b :
  lex_cmp a b = Lt →
  lex_cmp a (shortest_separator a b) ≠ Gt ∧ lex_cmp (shortest_separator a b) b = Lt.
Proof.
  intros Hlt. unfold shortest_separator.
  destruct (shared_prefix_split a b) as [Ht Hs].
  assert (lex_cmp a a ≠ Gt ∧ lex_cmp a b = Lt) as Hdef by (by rewrite lex_cmp_refl).
  destruct (get_at _ a) as [x|]; [|done]. destruct (get_at _ b) as [y|]; [|done].
  destruct Hs as (Hne & a' & b' & Ha & Hb). destruct (_ && _) eqn:E; [|done]. to_prop.
  set (p := take _ a) in *. rewrite Ha at 1. rewrite Hb. rewrite !lex_cmp_app_l. cbn.
  rewrite (proj2 (Z.compare_lt_iff x (x + 1))), (proj2 (Z.compare_lt_iff (x + 1) y)) by lia. done.
Qed.
