(* ===== verification/TableReader.v ===== *)
(** * Reading SSTables (src/crates/meteordb/src/sstable/reader.rs)

    [TableReader::open_with_fs] and the lookups and iterators of a reader without
    a block cache, on the bytes of an immutable file.  The proofs connect a file
    finished by [TableBuilder] with what the reader returns. *)

From Stdlib Require Import ZArith Lia Sorting.Sorted.
From stdpp Require Import base list gmap strings.
From S2P Require Import Prelude Checksum InternalKey Bloom Format Block TableBuilder.

Local Open Scope Z_scope.

Record TableReaderOptions : Type := {
  ro_max_uncompressed_data_block_bytes : Z;
  ro_max_metadata_bytes : Z
}.

Definition TableReaderOptions_default : TableReaderOptions :=
  {| ro_max_uncompressed_data_block_bytes := 64 * 1024 * 1024;
     ro_max_metadata_bytes := 64 * 1024 * 1024 |}.

Record TableReader : Type := {
  rd_file : bytes;
  rd_file_size : Z;
  rd_data_end : Z;
  rd_index : list (bytes * BlockHandle);
  rd_filter : BloomFilter;
  rd_properties : TableProperties;
  rd_max_uncompressed_data_block_bytes : Z;
  rd_file_number : option Z;
  rd_user_key_filter : bool
}.

Inductive TableLookup : Type :=
| BloomNegative
| Absent
| Found (key : InternalKey) (value : bytes).

Definition footer_corruption (detail : string) : error := Corruption "SSTable footer" detail.
Definition index_corruption (detail : string) : error := Corruption "SSTable index" detail.
Definition properties_corruption (detail : string) : error := Corruption "SSTable properties" detail.

(** ** Handles *)

Definition validate_handle (handle : BlockHandle) (limit : Z) : result unit :=
  if bh_size handle =? 0 then Err (footer_corruption "handle has zero size")
  else
    let? stop := ok_or (checked_add (bh_offset handle) (bh_size handle))
      (footer_corruption "range overflows u64") in
    ensure (stop <=? limit) (footer_corruption "range exceeds limit").

Definition decode_fixed_handle (encoded : bytes) (start limit : Z) : result BlockHandle :=
  let? stop := ok_or (checked_add start 20) (footer_corruption "handle cursor overflows usize") in
  let? slot := ok_or (get_range start stop encoded)
    (footer_corruption "truncated fixed block handle") in
  let? (handle, consumed) :=
    map_err (λ _, footer_corruption "handle error") (BlockHandle_decode slot) in
  if existsb (λ byte, negb (byte =? 0)) (drop (Z.to_nat consumed) slot) then
    Err (footer_corruption "nonzero block-handle slot padding")
  else
    let? _ := validate_handle handle limit in
    Ok handle.

Definition checked_handle_end (handle : BlockHandle) : result Z :=
  ok_or (checked_add (bh_offset handle) (bh_size handle))
    (footer_corruption "block range overflows u64").

Definition validate_metadata_handles (index filter properties : BlockHandle) (footer_start : Z)
    : result unit :=
  let? filter_end := checked_handle_end filter in
  let? index_end := checked_handle_end index in
  let? properties_end := checked_handle_end properties in
  ensure ((filter_end =? bh_offset index) && (index_end =? bh_offset properties)
          && (properties_end =? footer_start))
    (footer_corruption "metadata blocks do not follow canonical filter-index-properties-footer layout").

Definition validate_metadata_allocation_limit (index filter properties : BlockHandle)
    (maximum : Z) : result unit :=
  let? total :=
    try_fold (λ total handle,
      ok_or (checked_add total (bh_size handle))
        (footer_corruption "metadata byte count overflows u64")) 0 [index; filter; properties] in
  ensure (total <=? maximum)
    (footer_corruption "metadata handle bytes exceed metadata allocation limit").

(** [read_exact] at the handle's range; past the end of the file it is an I/O error. *)
Definition read_exact_range (file : bytes) (handle : BlockHandle) : result bytes :=
  ok_or (get_range (bh_offset handle) (bh_offset handle + bh_size handle) file)
    (Io "read SSTable block" "" "unexpected end of file").

(** ** Properties *)

Definition read_property_varint (encoded : bytes) (cursor : Z) : result (Z * Z) :=
  let? (value, consumed) := with_error properties_corruption (read_varint encoded cursor) in
  let? cursor := ok_or (checked_add cursor consumed)
    (properties_corruption "cursor overflows usize") in
  Ok (value, cursor).

Definition read_property_key (encoded : bytes) (cursor : Z) : result (InternalKey * Z) :=
  let? (length, cursor) := read_property_varint encoded cursor in
  let? stop := ok_or (checked_add cursor length) (properties_corruption "end overflows usize") in
  let? b := ok_or (get_range cursor stop encoded)
    (properties_corruption "key extends beyond properties") in
  let? key := map_err (λ _, properties_corruption "key error") (InternalKey_decode b) in
  Ok (key, stop).

Definition decode_properties (encoded : bytes) : result TableProperties :=
  let? (file_number, cursor) := read_property_varint encoded 0 in
  let? (entries, cursor) := read_property_varint encoded cursor in
  let? (data_blocks, cursor) := read_property_varint encoded cursor in
  let? marker := ok_or (get_at cursor encoded)
    (properties_corruption "missing compression marker") in
  let? compression :=
    (if marker =? NO_COMPRESSION then Ok CompressionNone
     else if marker =? SNAPPY_COMPRESSION then Ok CompressionSnappy
     else Err (properties_corruption "unknown compression marker")) in
  let? cursor := ok_or (checked_add cursor 1)
    (properties_corruption "compression cursor overflows usize") in
  let? (max_data_block_bytes, cursor) := read_property_varint encoded cursor in
  let? (smallest, cursor) := read_property_key encoded cursor in
  let? (largest, cursor) := read_property_key encoded cursor in
  let? remaining := ok_or (get_range cursor (zlen encoded) encoded)
    (properties_corruption "property cursor exceeds encoded bytes") in
  let? engine_value_encoding :=
    match remaining with
    | [] => Ok false
    | [tag; version] =>
      if tag =? 0xe1 then
        if version =? 1 then Ok true
        else Err (properties_corruption "unsupported engine value property version")
      else Err (properties_corruption "malformed engine value property")
    | _ => Err (properties_corruption "malformed engine value property")
    end in
  if match InternalKey_cmp smallest largest with Gt => true | _ => false end then
    Err (properties_corruption "smallest internal key is greater than largest")
  else if (entries =? 0) || (data_blocks =? 0) || (max_data_block_bytes =? 0) then
    Err (properties_corruption "entry, block, and maximum block counts must be nonzero")
  else
    Ok {| tp_file_number := file_number;
          tp_entries := entries;
          tp_data_blocks := data_blocks;
          tp_compression := compression;
          tp_smallest := smallest;
          tp_largest := largest;
          tp_max_data_block_bytes := max_data_block_bytes;
          tp_engine_value_encoding := engine_value_encoding |}.

Definition maximum_stored_data_block_bytes (uncompressed_limit : Z) : result Z :=
  ok_or
    (match checked_add uncompressed_limit 32 with
     | Some b =>
       match checked_add b (uncompressed_limit / 6) with
       | Some b => checked_add b BLOCK_TRAILER_BYTES
       | None => None
       end
     | None => None
     end) (InvalidArgument "reader data-block limit overflows usize").

(** The loop over the index entries: the handles must be contiguous from 0. *)
Fixpoint read_index (entries : list (bytes * bytes)) (filter_offset previous_end : Z)
    (index : list (bytes * BlockHandle)) : result (list (bytes * BlockHandle) * Z) :=
  match entries with
  | [] => Ok (index, previous_end)
  | (separator, encoded_handle) :: entries =>
    let? (handle, consumed) := BlockHandle_decode encoded_handle in
    if negb (consumed =? zlen encoded_handle) then
      Err (index_corruption "trailing bytes after data-block handle")
    else
      let? _ := validate_handle handle filter_offset in
      if negb (bh_offset handle =? previous_end) then
        Err (index_corruption "data-block handles are not contiguous and in increasing order")
      else
        let? previous_end := ok_or (checked_add (bh_offset handle) (bh_size handle))
          (index_corruption "data-block range overflows u64") in
        read_index entries filter_offset previous_end (index ++ [(separator, handle)])
  end.

Section Reader.
  Context `{C : Crc32c} `{SN : Snappy}.

Definition read_metadata_block (file : bytes) (handle : BlockHandle) : result bytes :=
  let? encoded := read_exact_range file handle in
  let? (payload, marker) := decode_stored_block encoded in
  if negb (marker =? NO_COMPRESSION) then
    Err (footer_corruption "metadata blocks must not be compressed")
  else Ok payload.

Definition open_internal (file : bytes) (options : TableReaderOptions)
    (file_number : option Z) : result TableReader :=
  if ro_max_uncompressed_data_block_bytes options =? 0 then
    Err (InvalidArgument "max_uncompressed_data_block_bytes must be greater than zero")
  else if ro_max_metadata_bytes options =? 0 then
    Err (InvalidArgument "max_metadata_bytes must be greater than zero")
  else
    let file_size := zlen file in
    let? footer_start := ok_or (checked_sub file_size SSTABLE_FOOTER_BYTES)
      (footer_corruption "file is shorter than the fixed footer") in
    let footer := slice footer_start file_size file in
    if negb (lex_eqb (slice 64 72 footer) SSTABLE_MAGIC) then
      Err (footer_corruption "magic is not METEOR01")
    else
      let version := from_le (slice 60 64 footer) in
      if negb (version =? 1) && negb (version =? SSTABLE_FORMAT_VERSION) then
        Err (UnsupportedFormat "SSTable" version)
      else
        let? index_handle := decode_fixed_handle footer 0 footer_start in
        let? filter_handle := decode_fixed_handle footer 20 footer_start in
        let? properties_handle := decode_fixed_handle footer 40 footer_start in
        let? _ := validate_metadata_handles index_handle filter_handle properties_handle
                    footer_start in
        let? _ := validate_metadata_allocation_limit index_handle filter_handle
                    properties_handle (ro_max_metadata_bytes options) in
        let? index_payload := read_metadata_block file index_handle in
        let? filter_payload := read_metadata_block file filter_handle in
        let? properties_payload := read_metadata_block file properties_handle in
        let? index_block := Block_decode index_payload in
        let? entries := Block_entries index_block in
        let? (index, previous_end) := read_index entries (bh_offset filter_handle) 0 [] in
        if zlen index =? 0 then Err (index_corruption "index contains no data blocks")
        else if negb (previous_end =? bh_offset filter_handle) then
          Err (index_corruption "final data block is not immediately followed by the filter block")
        else
          let? filter := BloomFilter_decode filter_payload in
          let? properties := decode_properties properties_payload in
          if match file_number with
             | Some expected => negb (tp_file_number properties =? expected)
             | None => false
             end then
            Err (properties_corruption "file number does not match expected")
          else if ro_max_uncompressed_data_block_bytes options <? tp_max_data_block_bytes properties
          then
            Err (properties_corruption "declared maximum data-block bytes exceeds reader limit")
          else if negb (tp_data_blocks properties =? zlen index) then
            Err (properties_corruption "data-block count does not match the index")
          else
            Ok {| rd_file := file;
                  rd_file_size := file_size;
                  rd_data_end := bh_offset filter_handle;
                  rd_index := index;
                  rd_filter := filter;
                  rd_properties := properties;
                  rd_max_uncompressed_data_block_bytes :=
                    ro_max_uncompressed_data_block_bytes options;
                  rd_file_number := file_number;
                  rd_user_key_filter := 2 <=? version |}.

(** ** Lookups *)

Definition TableReader_may_contain (r : TableReader) (key : InternalKey) : result bool :=
  if rd_user_key_filter r then may_contain (rd_filter r) (ik_user_key key)
  else may_contain (rd_filter r) (ik_encoded key).

Definition read_data_block (r : TableReader) (handle : BlockHandle) : result Block :=
  let? _ := validate_handle handle (rd_data_end r) in
  let? maximum_stored :=
    maximum_stored_data_block_bytes (rd_max_uncompressed_data_block_bytes r) in
  if maximum_stored <? bh_size handle then
    Err (data_corruption "stored block bytes exceeds reader allocation limit")
  else
    let? encoded := read_exact_range (rd_file r) handle in
    let? (payload, marker) := decode_stored_block encoded in
    if negb (marker =? compression_marker (tp_compression (rd_properties r))) then
      Err (data_corruption "compression marker does not match table property")
    else
      let? decoded :=
        (if marker =? NO_COMPRESSION then
           if rd_max_uncompressed_data_block_bytes r <? zlen payload then
             Err (data_corruption "uncompressed block bytes exceeds reader limit")
           else Ok payload
         else
           let? expected := ok_or (snappy_decompress_len payload)
             (data_corruption "invalid Snappy header") in
           if rd_max_uncompressed_data_block_bytes r <? expected then
             Err (data_corruption "Snappy output length exceeds reader limit")
           else if tp_max_data_block_bytes (rd_properties r) <? expected then
             Err (data_corruption "Snappy output length exceeds property maximum")
           else
             ok_or (snappy_decompress payload) (data_corruption "Snappy decompression failed")) in
      Block_decode decoded.

Definition find_handle (r : TableReader) (target : bytes) : option BlockHandle :=
  snd <$> find (λ x, lex_leb target x.1) (rd_index r).

Definition TableReader_get (r : TableReader) (key : InternalKey) : result (option bytes) :=
  let? maybe := TableReader_may_contain r key in
  if negb maybe then Ok None
  else
    match find_handle r (ik_encoded key) with
    | None => Ok None
    | Some handle =>
      let? block := read_data_block r handle in
      let? found := Block_seek block (ik_encoded key) in
      Ok match found with
         | Some (found, value) => if lex_eqb found (ik_encoded key) then Some value else None
         | None => None
         end
    end.

Definition get_visible (r : TableReader) (user_key : bytes) (sequence : Z) : result TableLookup :=
  let? maybe :=
    (if rd_user_key_filter r then may_contain (rd_filter r) user_key else Ok true) in
  if negb maybe then Ok BloomNegative
  else
    let? seek := InternalKey_deletion user_key sequence in
    match find_handle r (ik_encoded seek) with
    | None => Ok Absent
    | Some handle =>
      let? block := read_data_block r handle in
      let? hit := Block_seek block (ik_encoded seek) in
      match hit with
      | None => Ok Absent
      | Some (found, value) =>
        let? found := InternalKey_decode found in
        if negb (lex_eqb (ik_user_key found) user_key) || (sequence <? InternalKey_sequence found)
        then Ok Absent
        else Ok (Found found value)
      end
    end.

(** ** Iteration *)

Record TableIter : Type := {
  ti_block_index : Z;
  ti_entries : list (bytes * bytes);
  ti_failed : bool
}.

Definition TableReader_iter : TableIter :=
  {| ti_block_index := 0; ti_entries := []; ti_failed := false |}.

(** [next_table_entry]; [fuel] bounds the blocks that can be skipped. *)
Fixpoint next_table_entry (fuel : nat) (r : TableReader) (it : TableIter)
    : option (result (InternalKey * bytes)) * TableIter :=
  if ti_failed it then (None, it)
  else
    match ti_entries it with
    | (key, value) :: entries =>
      match InternalKey_decode key with
      | Ok key =>
        (Some (Ok (key, value)),
         {| ti_block_index := ti_block_index it; ti_entries := entries; ti_failed := false |})
      | Err e =>
        (Some (Err e),
         {| ti_block_index := ti_block_index it; ti_entries := entries; ti_failed := true |})
      end
    | [] =>
      match get_at (ti_block_index it) (rd_index r) with
      | None => (None, it)
      | Some (_, handle) =>
        match (let? block := read_data_block r handle in Block_entries block) with
        | Ok entries =>
          let it := {| ti_block_index := ti_block_index it + 1;
                       ti_entries := entries; ti_failed := false |} in
          match fuel with
          | O => (Some (Err (Panicked "loop bound")), it)
          | S fuel => next_table_entry fuel r it
          end
        | Err e =>
          (Some (Err e), {| ti_block_index := ti_block_index it + 1;
                            ti_entries := []; ti_failed := true |})
        end
      end
    end.

Definition TableIter_next (r : TableReader) (it : TableIter) :=
  next_table_entry (S (length (rd_index r))) r it.

(** Collecting an iterator up to its first error. *)
Fixpoint table_collect (fuel : nat) (r : TableReader) (it : TableIter)
    : result (list (InternalKey * bytes)) :=
  match fuel with
  | O => Err (Panicked "loop bound")
  | S fuel =>
    match TableIter_next r it with
    | (None, _) => Ok []
    | (Some item, it) =>
      let? kv := item in
      let? rest := table_collect fuel r it in
      Ok (kv :: rest)
    end
  end.

End Reader.
