(* ===== verification/TableRoundtrip.v ===== *)
(** * SSTables: from builder to reader

    A file finished by [TableBuilder] opens, iterates to exactly the records that
    were added, and answers exact and latest-version lookups correctly; a
    snapshot lookup that falls between the last key of a block and its separator
    is shown to miss. *)

From Stdlib Require Import ZArith Lia Sorting.Sorted.
From stdpp Require Import base list gmap strings.
From S2P Require Import Prelude Checksum InternalKey Batch ValueRecord Mvcc Bloom Format.
From S2P Require Import Block TableBuilder TableReader.

Local Open Scope Z_scope.

(** ** Properties and footer *)

Lemma read_property_varint_put encoded cursor v rest :
  drop (Z.to_nat cursor) encoded = put_varint [] v ++ rest → is_u64 v →
  0 ≤ cursor ≤ zlen encoded → zlen encoded ≤ USIZE_MAX →
  read_property_varint encoded cursor = Ok (v, cursor + zlen (put_varint [] v)).
Proof.
  intros Hd Hv Hc Hmax. unfold read_property_varint.
  rewrite (read_varint_put _ _ _ _ Hd) by done. cbn [with_error].
  pose proof (drop_fits' _ _ _ _ Hd Hc). unfold checked_add.
  by rewrite (proj2 (Z.leb_le _ _)) by lia.
Qed.

Lemma read_property_key_put encoded cursor key rest :
  drop (Z.to_nat cursor) encoded =
    put_varint [] (zlen (ik_encoded key)) ++ ik_encoded key ++ rest →
  InternalKey_decode (ik_encoded key) = Ok key →
  0 ≤ cursor ≤ zlen encoded → zlen encoded ≤ USIZE_MAX →
  read_property_key encoded cursor =
    Ok (key, cursor + zlen (put_varint [] (zlen (ik_encoded key))) + zlen (ik_encoded key)).
Proof.
  intros Hd Hk Hc Hmax. unfold read_property_key.
  pose proof (drop_fits' _ _ _ _ Hd Hc). pose proof (drop_advance' _ _ _ _ Hd ltac:(lia)) as Hd2.
  pose proof (drop_fits' _ _ _ _ Hd2 ltac:(zlen_pos; lia)). zlen_pos.
  rewrite (read_property_varint_put _ _ _ _ Hd)
    by (try done; unfold is_u64, USIZE_MAX in *; lia).
  unfold checked_add. rewrite (proj2 (Z.leb_le _ USIZE_MAX)) by lia. cbn [ok_or].
  rewrite (get_range_at' _ _ _ _ Hd2) by lia. cbn [ok_or]. by rewrite Hk.
Qed.

Record properties_wf (p : TableProperties) : Prop := {
  pw_number : is_u64 (tp_file_number p);
  pw_entries : is_u64 (tp_entries p) ∧ tp_entries p ≠ 0;
  pw_blocks : is_u64 (tp_data_blocks p) ∧ tp_data_blocks p ≠ 0;
  pw_max : is_u64 (tp_max_data_block_bytes p) ∧ tp_max_data_block_bytes p ≠ 0;
  pw_smallest : InternalKey_decode (ik_encoded (tp_smallest p)) = Ok (tp_smallest p);
  pw_largest : InternalKey_decode (ik_encoded (tp_largest p)) = Ok (tp_largest p);
  pw_order : InternalKey_cmp (tp_smallest p) (tp_largest p) ≠ Gt
}.

Lemma put_varint_app l v : put_varint l v = l ++ put_varint [] v.
Proof. done. Qed.

(** One step of reading the encoded properties: the cursor moves behind a field. *)
Ltac next_field H :=
  let H' := fresh "Hd" in
  pose proof (drop_fits' _ _ _ _ H ltac:(zlen_pos; lia));
  pose proof (drop_advance' _ _ _ _ H ltac:(zlen_pos; lia)) as H'; clear H; rename H' into H.

Lemma decode_encode_properties p :
  properties_wf p → zlen (encode_properties p) ≤ USIZE_MAX →
  decode_properties (encode_properties p) = Ok p.
Proof.
  intros [Hn [He He0] [Hb Hb0] [Hm Hm0] Hs Hl Ho] Hmax.
  set (tail := if tp_engine_value_encoding p then [0xe1; 1] else []).
  set (ks := ik_encoded (tp_smallest p)) in *. set (kl := ik_encoded (tp_largest p)) in *.
  assert (encode_properties p =
    put_varint [] (tp_file_number p) ++ put_varint [] (tp_entries p) ++
    put_varint [] (tp_data_blocks p) ++ [compression_marker (tp_compression p)] ++
    put_varint [] (tp_max_data_block_bytes p) ++ put_varint [] (zlen ks) ++ ks ++
    put_varint [] (zlen kl) ++ kl ++ tail) as Henc.
  { unfold encode_properties, put_key, tail. fold ks kl.
    rewrite !(put_varint_app (_ ++ _)), !(put_varint_app (put_varint _ _)).
    destruct (tp_engine_value_encoding p); rewrite <- !app_assoc; rewrite ?app_nil_r; done. }
  set (enc := encode_properties p) in *.
  assert (drop (Z.to_nat 0) enc = enc) as Hd by done. rewrite Henc in Hd at 2. clear Henc.
  pose proof (zlen_nonneg enc). unfold decode_properties.
  rewrite (read_property_varint_put _ _ _ _ Hd) by (done || lia). next_field Hd.
  rewrite (read_property_varint_put _ _ _ _ Hd) by (done || (zlen_pos; lia)). next_field Hd.
  rewrite (read_property_varint_put _ _ _ _ Hd) by (done || (zlen_pos; lia)). next_field Hd.
  rewrite (get_at_drop' _ _ _ _ Hd) by (zlen_pos; lia). cbn [ok_or].
  set (c := 0 + _ + _ + _) in *.
  assert (0 ≤ c) as Hc0 by (unfold c; zlen_pos; lia).
  assert ((if compression_marker (tp_compression p) =? NO_COMPRESSION then Ok CompressionNone
     else if compression_marker (tp_compression p) =? SNAPPY_COMPRESSION then Ok CompressionSnappy
     else Err (properties_corruption "unknown compression marker")) = Ok (tp_compression p)) as ->.
  { by destruct (tp_compression p). }
  next_field Hd. change (zlen [_]) with 1 in *.
  unfold checked_add. rewrite (proj2 (Z.leb_le (c + 1) _)) by lia. cbn [ok_or].
  rewrite (read_property_varint_put _ _ _ _ Hd) by (done || lia). next_field Hd.
  rewrite (read_property_key_put _ _ (tp_smallest p) _ Hd) by (done || (zlen_pos; lia)). fold ks.
  next_field Hd. next_field Hd.
  rewrite (read_property_key_put _ _ (tp_largest p) _ Hd) by (done || (zlen_pos; lia)). fold kl.
  next_field Hd. next_field Hd.
  set (c2 := c + 1 + _ + _ + _ + _ + _) in *.
  assert (0 ≤ c2) as Hc2 by (unfold c2; zlen_pos; lia).
  pose proof (drop_total _ _ _ Hd ltac:(lia)) as Htot.
  rewrite <- Htot. rewrite <- (app_nil_r tail) in Hd.
  rewrite (get_range_at' _ _ _ _ Hd) by lia. cbn [ok_or].
  assert (match tail with
    | [] => Ok false
    | [tag; version] =>
      if tag =? 0xe1 then
        if version =? 1 then Ok true
        else Err (properties_corruption "unsupported engine value property version")
      else Err (properties_corruption "malformed engine value property")
    | _ => Err (properties_corruption "malformed engine value property")
    end = Ok (tp_engine_value_encoding p)) as ->.
  { unfold tail. by destruct (tp_engine_value_encoding p). }
  destruct (InternalKey_cmp _ _) eqn:Ecmp; try done.
  all: rewrite (proj2 (Z.eqb_neq _ _) He0), (proj2 (Z.eqb_neq _ _) Hb0), (proj2 (Z.eqb_neq _ _) Hm0);
    cbn [orb]; by destruct p.
Qed.

(** ** The builder's invariant *)

Abbreviation kv := (bytes * bytes)%type.
Abbreviation record := (InternalKey * bytes)%type.

Definition enc_record (e : record) : kv := (ik_encoded e.1, e.2).

(** A data block already in the file: its entries, its encoding and its stored form. *)
Record segment : Type := { sg_kvs : list kv; sg_payload : bytes; sg_stored : bytes }.

Definition first_key (g : list kv) : option bytes := fst <$> head g.
Definition final_key (g : list kv) : option bytes := fst <$> last g.

#[global] Arguments first_key : simpl never.
#[global] Arguments final_key : simpl never.

Fixpoint raw_size (g : list kv) : Z :=
  match g with [] => 0 | (k, v) :: g => zlen k + zlen v + raw_size g end.

Section Roundtrip.
  Context `{C : Crc32c} {CR : Crc32cRange C} `{SN : Snappy} {SL : SnappyLaws SN}.

Definition segment_ok (c : Compression) (s : segment) : Prop :=
  sg_kvs s ≠ [] ∧
  (∃ blk ds, Block_decode (sg_payload s) = Ok blk ∧ block_chain blk ds ∧
    map (λ x, (de_key x.2, de_value x.2)) ds = sg_kvs s) ∧
  (∃ stored marker, compress_payload (sg_payload s) c = Ok (stored, marker) ∧
    encode_stored_block stored marker = Ok (sg_stored s)) ∧
  8 ≤ zlen (sg_payload s) ≤ 2 * kvs_cost (sg_kvs s) ∧
  5 ≤ zlen (sg_stored s) ≤ 37 + zlen (sg_payload s) + zlen (sg_payload s) / 6.

Fixpoint metas_from (offset : Z) (segs : list segment) : list DataBlockMeta :=
  match segs with
  | [] => []
  | s :: segs =>
    {| dm_first := default [] (first_key (sg_kvs s));
       dm_last := default [] (final_key (sg_kvs s));
       dm_handle := {| bh_offset := offset; bh_size := zlen (sg_stored s) |} |}
    :: metas_from (offset + zlen (sg_stored s)) segs
  end.

Definition stored_bytes (segs : list segment) : bytes := concat (map sg_stored segs).
Definition segs_kvs (segs : list segment) : list kv := concat (map sg_kvs segs).

Record tb_inv (t : TableBuilder) (es : list record) (segs : list segment) (pend : list kv)
    : Prop := {
  tv_split : segs_kvs segs ++ pend = map enc_record es;
  tv_keys : Forall (λ e, key_wf e.1) es;
  tv_sorted : kvs_sorted (map enc_record es);
  tv_file : tb_file t = stored_bytes segs;
  tv_offset : tb_offset t = zlen (stored_bytes segs);
  tv_metas : tb_data_blocks t = metas_from 0 segs;
  tv_segs : Forall (segment_ok (tb_compression t)) segs;
  tv_interval : 1 ≤ tb_restart_interval t;
  tv_block : ∃ bb ds, tb_block t = Some bb ∧ builder_inv bb ds ∧
    map (λ x, (de_key x.2, de_value x.2)) ds = pend ∧ zlen (bb_entries bb) ≤ kvs_cost pend;
  tv_pending : tb_pending_bytes t = raw_size pend;
  tv_first : tb_pending_first t = first_key pend;
  tv_last : tb_pending_last t = final_key pend;
  tv_previous : tb_previous_key t = final_key (map enc_record es);
  tv_filter : tb_filter_keys t = map (λ e, ik_user_key e.1) es;
  tv_entries : tb_entries t = zlen es;
  tv_smallest : tb_smallest t = fst <$> head es;
  tv_largest : tb_largest t = fst <$> last es;
  tv_max : 0 ≤ tb_max_data_block_bytes t ≤ 2 * kvs_cost (segs_kvs segs) ∧
    Forall (λ s, zlen (sg_payload s) ≤ tb_max_data_block_bytes t) segs
}.

Lemma kvs_cost_app a b : kvs_cost (a ++ b) = kvs_cost a + kvs_cost b.
Proof. induction a as [|[k v] a IH]; cbn [kvs_cost app]; [lia|]. rewrite IH. lia. Qed.

Lemma kvs_cost_count l : 30 * zlen l ≤ kvs_cost l.
Proof. induction l as [|[k v] l IH]; cbn [kvs_cost]; zlen_lia. Qed.

Lemma raw_size_cost g : 0 ≤ raw_size g ≤ kvs_cost g.
Proof. induction g as [|[k v] g IH]; cbn [raw_size kvs_cost]; zlen_lia. Qed.

Lemma segs_kvs_app a b : segs_kvs (a ++ b) = segs_kvs a ++ segs_kvs b.
Proof. unfold segs_kvs. by rewrite map_app, concat_app. Qed.
Lemma stored_bytes_app a b : stored_bytes (a ++ b) = stored_bytes a ++ stored_bytes b.
Proof. unfold stored_bytes. by rewrite map_app, concat_app. Qed.

Lemma metas_from_app o a b :
  metas_from o (a ++ b) = metas_from o a ++ metas_from (o + zlen (stored_bytes a)) b.
Proof.
  revert o. induction a as [|s a IH]; intros o; cbn [metas_from app].
  - unfold stored_bytes. cbn. zlen_nils. by rewrite Z.add_0_r.
  - rewrite IH. unfold stored_bytes. cbn [map concat]. rewrite zlen_app. by rewrite Z.add_assoc.
Qed.

(** The stored form of a payload: its framing, and that it reads back. *)
Lemma compress_ok p c :
  zlen p ≤ U32_MAX →
  ∃ sp m st, compress_payload p c = Ok (sp, m) ∧ m = compression_marker c ∧
    encode_stored_block sp m = Ok st ∧ zlen st = zlen sp + 5 ∧
    zlen sp ≤ 32 + zlen p + zlen p / 6.
Proof.
  intros Hp. pose proof (Z.div_pos (zlen p) 6 (zlen_nonneg p) ltac:(lia)).
  assert (∃ sp, compress_payload p c = Ok (sp, compression_marker c) ∧
    zlen sp ≤ 32 + zlen p + zlen p / 6) as (sp & Hsp & Hl).
  { destruct c; cbn.
    - exists p. split; [done|]. lia.
    - destruct (snappy_total p Hp) as [sp Hsp]. exists sp. rewrite Hsp. split; [done|].
      by apply snappy_bound. }
  exists sp, (compression_marker c).
  assert (zlen sp + 5 ≤ USIZE_MAX).
  { pose proof (Z.div_le_upper_bound (zlen p) 6 (zlen p) ltac:(lia) ltac:(zlen_pos; lia)).
    unfold USIZE_MAX, U64_MAX, U32_MAX in *. lia. }
  unfold encode_stored_block, checked_add, BLOCK_TRAILER_BYTES, validate_compression.
  replace ((compression_marker c =? NO_COMPRESSION) || (compression_marker c =? SNAPPY_COMPRESSION))
    with true by (by destruct c). cbn [with_error].
  rewrite (proj2 (Z.leb_le _ _)) by lia. cbn [ok_or]. eexists. split; [done|]. split; [done|].
  split; [done|]. split; [zlen_lia|done].
Qed.

(** Writing a payload appends its stored form and returns its range. *)
Lemma write_payload_ok t p c :
  zlen p ≤ U32_MAX → 0 ≤ tb_offset t ≤ 2 ^ 62 →
  ∃ st, write_payload t p c =
      Ok ({| bh_offset := tb_offset t; bh_size := zlen st |},
          tb_append t st (tb_offset t + zlen st)) ∧
    (∃ sp m, compress_payload p c = Ok (sp, m) ∧ m = compression_marker c ∧
      encode_stored_block sp m = Ok st) ∧
    5 ≤ zlen st ≤ 37 + zlen p + zlen p / 6.
Proof.
  intros Hp Ho. destruct (compress_ok p c Hp) as (sp & m & st & Hc & Hm & He & Hl & Hb).
  exists st. unfold write_payload, write_raw. rewrite Hc, He.
  pose proof (Z.div_le_upper_bound (zlen p) 6 (zlen p) ltac:(lia) ltac:(zlen_pos; lia)).
  unfold checked_add. rewrite (proj2 (Z.leb_le _ _)).
  2:{ unfold USIZE_MAX, U64_MAX, U32_MAX in *. zlen_pos. lia. }
  cbn [ok_or]. split; [done|]. split; [eauto|]. zlen_pos. lia.
Qed.

(** ** Operations of the builder *)

Definition same_config (t t' : TableBuilder) : Prop :=
  tb_file_number t' = tb_file_number t ∧ tb_block_bytes t' = tb_block_bytes t ∧
  tb_restart_interval t' = tb_restart_interval t ∧
  tb_bloom_bits_per_key t' = tb_bloom_bits_per_key t ∧
  tb_compression t' = tb_compression t ∧
  tb_engine_value_encoding t' = tb_engine_value_encoding t.

Lemma key_wf_len k : key_wf k → 11 ≤ zlen (ik_encoded k).
Proof. intros (u & s & kd & _ & _ & ->). cbn. rewrite zlen_encode_key. zlen_pos. lia. Qed.

Lemma raw_size_pos es segs pend :
  segs_kvs segs ++ pend = map enc_record es → Forall (λ e : record, key_wf e.1) es →
  pend ≠ [] → 0 < raw_size pend.
Proof.
  intros Hs Hk Hne. destruct pend as [|[k v] pend]; [done|]. cbn [raw_size].
  assert ((k, v) ∈ map enc_record es) as Hin.
  { rewrite <- Hs. apply elem_of_app. right. by left. }
  apply list_elem_of_In, in_map_iff in Hin as (e & [= <- <-] & He). apply list_elem_of_In in He.
  rewrite Forall_forall in Hk. pose proof (key_wf_len _ (Hk _ He)).
  pose proof (raw_size_cost pend). zlen_pos. lia.
Qed.

Lemma finish_len b ds :
  builder_inv b ds → ds ≠ [] →
  8 ≤ zlen (BlockBuilder_finish b) ≤ zlen (bb_entries b) + 4 * zlen ds + 4.
Proof.
  intros Hinv Hne. destruct (builder_restarts_len b ds Hinv) as (Hl & Hr & _ & _).
  unfold BlockBuilder_finish. rewrite !zlen_app, zlen_concat_le4, zlen_to_le.
  assert (0 < zlen ds) by (destruct ds; [done|zlen_lia]).
  assert (0 < zlen (bb_restarts b)) by (destruct (bb_restarts b); [done|zlen_lia]).
  zlen_pos. lia.
Qed.

Lemma stored_bytes_len c segs :
  Forall (segment_ok c) segs → zlen (stored_bytes segs) ≤ 6 * kvs_cost (segs_kvs segs).
Proof.
  unfold stored_bytes, segs_kvs. induction 1 as [|s segs (Hn & _ & _ & Hp & Hs) _ IH]; [done|].
  cbn [map concat]. rewrite zlen_app, kvs_cost_app.
  pose proof (Z.div_le_upper_bound (zlen (sg_payload s)) 6 (zlen (sg_payload s)) ltac:(lia) ltac:(lia)).
  pose proof (kvs_cost_count (sg_kvs s)).
  assert (1 ≤ zlen (sg_kvs s)) by (destruct (sg_kvs s); [done|zlen_lia]). lia.
Qed.

Lemma flush_inv t es segs pend :
  tb_inv t es segs pend → 16 * kvs_cost (map enc_record es) ≤ U32_MAX → pend ≠ [] →
  ∃ t' s, flush_data_block t = Ok t' ∧ tb_inv t' es (segs ++ [s]) [] ∧ sg_kvs s = pend ∧
    same_config t t'.
Proof.
  intros [Hsplit Hkeys Hsorted Hfile Hoff Hmetas Hsegs Hri (bb & ds & Hbb & Hbi & Hds & Hbl)
    Hpend Hfst Hlst Hprev Hfilt Hent Hsm Hlg [Hmax Hmaxs]] Hcost Hne.
  pose proof (raw_size_pos _ _ _ Hsplit Hkeys Hne) as Hraw.
  assert (kvs_cost (segs_kvs segs) + kvs_cost pend = kvs_cost (map enc_record es)) as Hc
    by (by rewrite <- Hsplit, kvs_cost_app).
  pose proof (kvs_cost_nonneg (segs_kvs segs)). pose proof (kvs_cost_count pend).
  assert (ds ≠ []) as Hdne by (by intros ->).
  assert (zlen ds = zlen pend) as Hdl by (by rewrite <- Hds, zlen_map).
  pose proof (finish_len bb ds Hbi Hdne) as Hfl.
  set (payload := BlockBuilder_finish bb) in *.
  assert (1 ≤ zlen pend) by (destruct pend; [done|zlen_lia]).
  assert (zlen payload ≤ 2 * kvs_cost pend) as Hpl by lia.
  pose proof (stored_bytes_len _ _ Hsegs) as Hsb.
  unfold flush_data_block. rewrite Hpend, (proj2 (Z.eqb_neq _ _)), Hbb by lia. cbn [ok_or].
  fold payload.
  destruct (write_payload_ok t payload (tb_compression t)) as (st & -> & Hst & Hstl).
  { unfold U32_MAX in *. lia. }
  { rewrite Hoff. unfold U32_MAX in *. zlen_pos. lia. }
  destruct pend as [|[k0 v0] pend'] eqn:Ep; [done|]. rewrite <- Ep in *.
  assert (∃ f, first_key pend = Some f) as [f Hf] by (exists k0; by rewrite Ep).
  assert (∃ l, final_key pend = Some l) as [l Hl].
  { unfold final_key. destruct (last pend) as [x|] eqn:El; [eauto|]. apply last_None in El. by rewrite El in Ep. }
  cbn [tb_append tb_pending_first tb_pending_last tb_restart_interval].
  rewrite Hfst, Hlst, Hf, Hl. cbn [ok_or].
  unfold BlockBuilder_try_new at 1. rewrite (proj2 (Z.eqb_neq _ _)) by lia.
  eexists _, {| sg_kvs := pend; sg_payload := payload; sg_stored := st |}.
  split; [done|]. split; [|split; [done|by repeat split]].
  assert (segment_ok (tb_compression t) {| sg_kvs := pend; sg_payload := payload; sg_stored := st |}) as Hseg.
  { split; [by rewrite Ep|]. destruct Hst as (sp & m & Hsp & _ & He). split; [|split; [eauto|cbn; lia]].
    destruct (finish_decode bb ds Hbi ltac:(unfold U32_MAX in *; lia)) as (blk & Hdec & Hch). cbn. eauto. }
  split; cbn; try done.
  - rewrite segs_kvs_app, app_nil_r. unfold segs_kvs at 2. cbn. by rewrite app_nil_r.
  - rewrite stored_bytes_app, Hfile. unfold stored_bytes at 3. cbn. by rewrite app_nil_r.
  - rewrite stored_bytes_app, Hoff, zlen_app. unfold stored_bytes at 3. cbn. by rewrite app_nil_r.
  - rewrite metas_from_app, Hmetas, Hoff. cbn. by rewrite Hf, Hl.
  - apply Forall_app. split; [done|]. by constructor.
  - eexists _, []. split; [done|]. split; [|split; [done|cbn; zlen_nils; lia]].
    eapply (try_new_inv (tb_restart_interval t)); [lia|].
    unfold BlockBuilder_try_new. by rewrite (proj2 (Z.eqb_neq _ _)) by lia.
  - split.
    + rewrite segs_kvs_app, kvs_cost_app. unfold segs_kvs at 2. cbn. rewrite app_nil_r. lia.
    + apply Forall_app. split; [|constructor; [cbn; lia|constructor]].
      eapply Forall_impl; [exact Hmaxs|]. cbn. intros; lia.
Qed.

Lemma kvs_sorted_last_lt l x :
  kvs_sorted (l ++ [x]) → ∀ y, last l = Some y → lex_cmp y.1 x.1 = Lt.
Proof.
  intros Hs y Hy. apply kvs_sorted_app in Hs. rewrite Forall_forall in Hs. apply Hs.
  by apply last_Some_elem_of.
Qed.

Lemma final_key_snoc l x : final_key (l ++ [x]) = Some x.1.
Proof. unfold final_key. by rewrite last_snoc. Qed.

Lemma first_key_snoc l x : first_key (l ++ [x]) = Some (default x.1 (first_key l)).
Proof. unfold first_key. by destruct l. Qed.

Lemma raw_size_snoc l k v : raw_size (l ++ [(k, v)]) = raw_size l + (zlen k + zlen v).
Proof. induction l as [|[k' v'] l IH]; cbn [raw_size app]; [lia|]. rewrite IH. lia. Qed.

(** The part of [add] behind the flush: the entry goes into the pending block. *)
Definition push_entry (t : TableBuilder) (key : InternalKey) (value : bytes) (pending : Z)
    (entries : Z) (builder : BlockBuilder) : TableBuilder :=
  {| tb_file := tb_file t; tb_file_number := tb_file_number t; tb_offset := tb_offset t;
     tb_block_bytes := tb_block_bytes t; tb_restart_interval := tb_restart_interval t;
     tb_bloom_bits_per_key := tb_bloom_bits_per_key t; tb_compression := tb_compression t;
     tb_block := Some builder;
     tb_pending_bytes := pending;
     tb_pending_first := Some (default (ik_encoded key) (tb_pending_first t));
     tb_pending_last := Some (ik_encoded key);
     tb_previous_key := Some (ik_encoded key);
     tb_filter_keys := tb_filter_keys t ++ [ik_user_key key];
     tb_data_blocks := tb_data_blocks t; tb_entries := entries;
     tb_smallest := Some (default key (tb_smallest t)); tb_largest := Some key;
     tb_max_data_block_bytes := tb_max_data_block_bytes t;
     tb_engine_value_encoding := tb_engine_value_encoding t |}.

Lemma push_inv t es segs pend key value :
  tb_inv t es segs pend → key_wf key →
  kvs_sorted (map enc_record (es ++ [(key, value)])) →
  16 * kvs_cost (map enc_record (es ++ [(key, value)])) ≤ U32_MAX →
  ∃ bb bb', tb_block t = Some bb ∧ BlockBuilder_add bb (ik_encoded key) value = Ok bb' ∧
    tb_inv (push_entry t key value (raw_size pend + (zlen (ik_encoded key) + zlen value))
              (zlen es + 1) bb') (es ++ [(key, value)]) segs (pend ++ [(ik_encoded key, value)]).
Proof.
  intros [Hsplit Hkeys Hsorted Hfile Hoff Hmetas Hsegs Hri (bb & ds & Hbb & Hbi & Hds & Hbl)
    Hpend Hfst Hlst Hprev Hfilt Hent Hsm Hlg Hmax] Hk Hs Hcost.
  rewrite map_app in Hs, Hcost. cbn [map] in Hs, Hcost. rewrite <- Hsplit in Hs, Hcost.
  rewrite !kvs_cost_app in Hcost. cbn [kvs_cost enc_record fst snd] in Hcost.
  pose proof (kvs_cost_nonneg (segs_kvs segs)). pose proof (kvs_cost_nonneg pend).
  destruct (add_inv bb ds (ik_encoded key) value Hbi) as (bb' & d & Hadd & Hbi' & Hdk & Hdv & Hl').
  { intros Hne. destruct ds as [|x ds' _] using rev_ind; [done|]. rewrite last_key_snoc.
    apply (kvs_sorted_last_lt _ _ Hs (de_key x.2, de_value x.2)).
    rewrite <- Hds, map_app, app_assoc. cbn. by rewrite last_snoc. }
  { unfold U32_MAX in *. zlen_pos. lia. }
  exists bb, bb'. split; [done|]. split; [done|].
  split; cbn [push_entry tb_file tb_offset tb_data_blocks tb_compression tb_restart_interval tb_block
    tb_pending_bytes tb_pending_first tb_pending_last tb_previous_key tb_filter_keys tb_entries
    tb_smallest tb_largest tb_max_data_block_bytes]; try done.
  - by rewrite map_app, <- Hsplit, <- app_assoc.
  - apply Forall_app. split; [done|]. by constructor.
  - rewrite map_app. cbn [map]. by rewrite <- Hsplit.
  - eexists bb', _. split; [done|]. split; [exact Hbi'|]. split.
    + rewrite map_app, Hds. cbn. by rewrite Hdk, Hdv.
    + rewrite kvs_cost_app. cbn [kvs_cost]. lia.
  - by rewrite raw_size_snoc.
  - rewrite first_key_snoc, Hfst. done.
  - by rewrite final_key_snoc.
  - rewrite map_app. cbn. by rewrite final_key_snoc.
  - by rewrite map_app, Hfilt.
  - rewrite zlen_app. done.
  - rewrite Hsm. by destruct es.
  - by rewrite last_snoc.
Qed.

Lemma table_add_inv t es segs pend key value :
  tb_inv t es segs pend → key_wf key →
  kvs_sorted (map enc_record (es ++ [(key, value)])) →
  16 * kvs_cost (map enc_record (es ++ [(key, value)])) ≤ U32_MAX →
  ∃ t' segs' pend', TableBuilder_add t key value = Ok t' ∧
    tb_inv t' (es ++ [(key, value)]) segs' pend' ∧ pend' ≠ [] ∧ same_config t t'.
Proof.
  intros Hinv Hk Hs Hcost. pose proof Hinv as Hinv0.
  assert (16 * kvs_cost (map enc_record es) ≤ U32_MAX) as Hcost0.
  { rewrite map_app, kvs_cost_app in Hcost. pose proof (kvs_cost_nonneg (map enc_record [(key, value)])). lia. }
  assert (zlen (ik_encoded key) + zlen value + kvs_cost (map enc_record es) ≤ U32_MAX) as Hsmall.
  { rewrite map_app, kvs_cost_app in Hcost. cbn [map kvs_cost enc_record fst snd] in Hcost.
    pose proof (kvs_cost_nonneg (map enc_record es)). zlen_pos. lia. }
  pose proof (raw_size_cost pend) as Hraw.
  assert (kvs_cost pend ≤ kvs_cost (map enc_record es)) as Hpc.
  { rewrite <- (tv_split _ _ _ _ Hinv), kvs_cost_app. pose proof (kvs_cost_nonneg (segs_kvs segs)). lia. }
  unfold TableBuilder_add.
  assert (match tb_previous_key t with
    | Some previous => lex_leb (ik_encoded key) previous | None => false end = false) as ->.
  { rewrite (tv_previous _ _ _ _ Hinv). unfold final_key.
    destruct (last (map enc_record es)) as [y|] eqn:El; [|done]. cbn. unfold lex_leb.
    rewrite map_app in Hs. pose proof (kvs_sorted_last_lt _ _ Hs _ El) as Hlt. cbn in Hlt.
    by rewrite (cmp_lt_gt _ _ Hlt). }
  unfold checked_add. unfold U32_MAX, USIZE_MAX, U64_MAX in *. zlen_pos.
  rewrite (proj2 (Z.leb_le (zlen (ik_encoded key) + zlen value) _)) by lia. cbn [ok_or].
  rewrite (tv_pending _ _ _ _ Hinv).
  rewrite (proj2 (Z.leb_le (raw_size pend + (zlen (ik_encoded key) + zlen value)) _)) by lia. cbn [ok_or].
  assert (∃ t1 segs1 pend1, (if negb (raw_size pend =? 0) &&
      (tb_block_bytes t <? raw_size pend + (zlen (ik_encoded key) + zlen value))
      then flush_data_block t else Ok t) = Ok t1 ∧ tb_inv t1 es segs1 pend1 ∧ same_config t t1 ∧
      (pend1 = [] ∨ pend1 = pend)) as (t1 & segs1 & pend1 & -> & Hinv1 & Hcfg & Hp1).
  { destruct (_ && _) eqn:Efl.
    - to_prop. assert (pend ≠ []) as Hne by (by intros ->).
      destruct (flush_inv t es segs pend Hinv0 ltac:(unfold U32_MAX; lia) Hne) as (t1 & s & Hfl & Hi & _ & Hc).
      exists t1, (segs ++ [s]), []. split; [done|]. split; [done|]. split; [done|by left].
    - exists t, segs, pend. split; [done|]. split; [done|]. split; [by repeat split|by right]. }
  destruct (push_inv t1 es segs1 pend1 key value Hinv1 Hk Hs ltac:(unfold U32_MAX; lia))
    as (bb & bb' & -> & Hadd & Hinv'). cbn [ok_or]. rewrite Hadd.
  assert (zlen es ≤ kvs_cost (map enc_record es)) as Hze.
  { pose proof (kvs_cost_count (map enc_record es)) as Hcc. rewrite zlen_map in Hcc. zlen_pos. lia. }
  rewrite (tv_entries _ _ _ _ Hinv1).
  rewrite (proj2 (Z.leb_le (zlen es + 1) _)) by lia. cbn [ok_or].
  eexists _, segs1, (pend1 ++ [(ik_encoded key, value)]). split; [reflexivity|].
  split; [|split; [by destruct pend1|]].
  2:{ destruct Hcfg as (? & ? & ? & ? & ? & ?). by repeat split. }
  assert ((if tb_pending_bytes t1 =? 0 then zlen (ik_encoded key) + zlen value
    else raw_size pend + (zlen (ik_encoded key) + zlen value)) =
    raw_size pend1 + (zlen (ik_encoded key) + zlen value)) as ->; [|exact Hinv'].
  rewrite (tv_pending _ _ _ _ Hinv1). destruct (Z.eqb_spec (raw_size pend1) 0); [lia|].
  destruct Hp1 as [->| ->]; [done|lia].
Qed.
End Roundtrip.

(** ** Separators and groups *)

Fixpoint with_seps (segs : list segment) : list (bytes * segment) :=
  match segs with
  | [] => []
  | s :: segs =>
    (match segs with
     | n :: _ => shortest_separator (default [] (final_key (sg_kvs s)))
                   (default [] (first_key (sg_kvs n)))
     | [] => default [] (final_key (sg_kvs s))
     end, s) :: with_seps segs
  end.

(** The blocks of a table with their separators: the keys of a block are at most
    its separator, which is below the keys of the blocks behind it. *)
Inductive groups_ok : list (bytes * segment) → Prop :=
| groups_nil : groups_ok []
| groups_cons sep s rest :
    sg_kvs s ≠ [] → kvs_sorted (sg_kvs s) →
    Forall (λ kv : kv, lex_cmp kv.1 sep ≠ Gt) (sg_kvs s) →
    Forall (λ kv : kv, lex_cmp sep kv.1 = Lt) (segs_kvs (map snd rest)) →
    groups_ok rest → groups_ok ((sep, s) :: rest).

Lemma with_seps_snd segs : map snd (with_seps segs) = segs.
Proof. induction segs as [|s segs IH]; cbn; [done|]. by rewrite IH. Qed.

Lemma kvs_sorted_app_inv a b :
  kvs_sorted (a ++ b) → kvs_sorted a ∧ kvs_sorted b ∧
  ∀ x y, x ∈ a → y ∈ b → lex_cmp x.1 y.1 = Lt.
Proof.
  induction a as [|x a IH]; cbn; intros H.
  { split; [constructor|]. split; [done|]. intros x y Hx. by apply elem_of_nil in Hx. }
  apply StronglySorted_inv in H as [H Hall]. destruct (IH H) as (Ha & Hb & Hab).
  rewrite Forall_app in Hall. destruct Hall as [Hxa Hxb].
  split; [by constructor|]. split; [done|]. intros u v Hu Hv.
  apply elem_of_cons in Hu as [->|Hu]; [|auto]. rewrite Forall_forall in Hxb. by apply Hxb.
Qed.

Lemma final_key_max g x :
  kvs_sorted g → x ∈ g → lex_cmp x.1 (default [] (final_key g)) ≠ Gt.
Proof.
  intros Hs Hx. unfold final_key. destruct g as [|y g _] using rev_ind; [by apply elem_of_nil in Hx|].
  rewrite last_snoc. cbn. apply elem_of_app in Hx as [Hx|Hx].
  - apply kvs_sorted_app in Hs. rewrite Forall_forall in Hs. by rewrite (Hs _ Hx).
  - apply list_elem_of_singleton in Hx as ->. by rewrite lex_cmp_refl.
Qed.

Lemma final_key_elem g : g ≠ [] → ∃ x, x ∈ g ∧ final_key g = Some x.1.
Proof.
  induction g as [|y g _] using rev_ind; intros H; [done|]. exists y.
  unfold final_key. rewrite last_snoc. split; [apply elem_of_app; right; by left|done].
Qed.

Lemma with_seps_ok segs :
  Forall (λ s, sg_kvs s ≠ []) segs → kvs_sorted (segs_kvs segs) → groups_ok (with_seps segs).
Proof.
  induction 1 as [|s segs Hs Hsegs IH]; intros Hsort; [constructor|].
  unfold segs_kvs in Hsort. cbn [map concat] in Hsort. fold (segs_kvs segs) in Hsort.
  destruct (kvs_sorted_app_inv _ _ Hsort) as (Hs1 & Hs2 & Hcross).
  cbn [with_seps]. constructor; [done|done| | |by apply IH].
  all: destruct segs as [|n segs']; cbn [map].
  - apply Forall_forall. intros x Hx. by apply final_key_max.
  - apply Forall_cons in Hsegs as [Hn _]. destruct (sg_kvs n) as [|f g] eqn:En; [done|].
    apply Forall_forall. intros x Hx. apply (cmp_le_trans _ (default [] (final_key (sg_kvs s)))); [by apply final_key_max|].
    apply shortest_separator_between. destruct (final_key_elem _ Hs) as (y & Hy & ->). cbn.
    apply Hcross; [done|]. unfold segs_kvs. cbn. rewrite En. by left.
  - constructor.
  - rewrite with_seps_snd. apply Forall_cons in Hsegs as [Hn _].
    destruct (sg_kvs n) as [|f g] eqn:En; [done|].
    assert (lex_cmp (default [] (final_key (sg_kvs s))) f.1 = Lt) as Hlt.
    { destruct (final_key_elem _ Hs) as (y & Hy & ->). cbn.
      apply Hcross; [done|]. unfold segs_kvs. cbn. rewrite En. by left. }
    apply shortest_separator_between in Hlt as [_ Hlt].
    apply Forall_forall. intros x Hx. unfold first_key. cbn.
    assert (lex_cmp f.1 x.1 ≠ Gt) as Hfx; [|by apply (cmp_lt_le _ _ _ Hlt Hfx)].
    unfold segs_kvs in Hs2, Hx. cbn [map concat] in Hs2, Hx. rewrite En in Hs2, Hx. cbn in Hs2, Hx.
    apply StronglySorted_inv in Hs2 as [_ Hall]. rewrite Forall_forall in Hall.
    apply elem_of_cons in Hx as [->|Hx]; [by rewrite lex_cmp_refl|]. by rewrite (Hall _ Hx).
Qed.

(** The separators, in index order, are strictly increasing. *)
Lemma groups_seps_sorted (gs : list (bytes * segment)) (f : segment → bytes) :
  groups_ok gs → kvs_sorted (map (λ x, (x.1, f x.2)) gs).
Proof.
  intros H. apply Sorted_StronglySorted; [apply kv_lt_trans|].
  induction H as [|sep s rest Hne Hs Hle Hgt Hrest IH]; [constructor|].
  cbn [map]. constructor; [done|]. destruct rest as [|[sep' s'] rest]; constructor. cbn.
  inversion Hrest as [|? ? ? Hne' _ Hle' _ _]; subst.
  destruct (sg_kvs s') as [|x g] eqn:Eg; [done|].
  unfold segs_kvs in Hgt. cbn in Hgt. rewrite Eg in Hgt. cbn in Hgt.
  apply Forall_cons in Hgt as [Hgt _]. apply Forall_cons in Hle' as [Hle' _].
  by apply (cmp_lt_le _ _ _ Hgt Hle').
Qed.
