(* ===== verification/TableBounds.v ===== *)
(** * The size of data blocks

    A data block holds one entry, or entries whose bytes stay within the block size;
    with its headers and restarts it is at most twice as long.  So a reader whose
    limit covers one largest entry and twice the block size reads every block a
    builder with that block size writes. *)

From Stdlib Require Import ZArith Lia.
From stdpp Require Import base list gmap strings.
From S2P Require Import Prelude Checksum Format Block InternalKey TableBuilder TableReader TableRoundtrip.

Local Open Scope Z_scope.

(** ** Entries *)

Lemma put_varint_ratio v : 0 ≤ v → zlen (put_varint [] v) ≤ 1 + v / 128.
Proof.
  unfold put_varint. cbn [app]. generalize 10%nat. intros fuel. revert v.
  induction fuel as [|fuel IH]; intros v Hv; cbn [put_varint_loop].
  { pose proof (Z.div_pos v 128 Hv ltac:(lia)). zlen_nils. lia. }
  pose proof (Z.div_pos v 128 Hv ltac:(lia)).
  destruct (Z.leb_spec 0x80 v) as [Hge|Hlt]; [|zlen_lia].
  assert (v ≫ 7 = v / 128) as -> by (by rewrite Z.shiftr_div_pow2).
  assert (1 ≤ v / 128) by (apply Z.div_le_lower_bound; lia).
  rewrite zlen_cons. specialize (IH (v / 128) ltac:(lia)).
  pose proof (Z.div_lt (v / 128) 128 ltac:(lia) ltac:(lia)). lia.
Qed.

(** One entry with its three lengths. *)
Lemma entry_bytes_bound shared key value :
  0 ≤ shared ≤ zlen key →
  zlen (entry_bytes shared key value) ≤ zlen key + zlen value + 30 ∧
  64 * zlen (entry_bytes shared key value) ≤ 65 * (zlen key + zlen value) + 192.
Proof.
  intros Hs. unfold entry_bytes. rewrite put_varint3, !zlen_app, zlen_drop by lia.
  pose proof (put_varint_len shared). pose proof (put_varint_len (zlen key - shared)). pose proof (put_varint_len (zlen value)).
  pose proof (put_varint_ratio shared ltac:(lia)) as V1.
  pose proof (put_varint_ratio (zlen key - shared) ltac:(lia)) as V2.
  pose proof (put_varint_ratio (zlen value) (zlen_nonneg value)) as V3.
  split; [lia|].
  pose proof (Z.mul_div_le shared 128 ltac:(lia)). pose proof (Z.mul_div_le (zlen key - shared) 128 ltac:(lia)).
  pose proof (Z.mul_div_le (zlen value) 128 ltac:(lia)). pose proof (zlen_nonneg value). lia.
Qed.

(** ** Blocks *)

(** What the entries of a block take up in it, their restarts included. *)
Definition block_room (b : BlockBuilder) : Z := zlen (bb_entries b) + 4 * zlen (bb_restarts b).

Lemma finish_room b : zlen (BlockBuilder_finish b) = block_room b + 4.
Proof. unfold BlockBuilder_finish, block_room. rewrite !zlen_app, zlen_concat_le4, zlen_to_le. lia. Qed.

Lemma block_add_room b key value b' :
  BlockBuilder_add b key value = Ok b' →
  block_room b' ≤ block_room b + zlen key + zlen value + 34 ∧
  64 * block_room b' ≤ 64 * block_room b + 65 * (zlen key + zlen value) + 448.
Proof.
  unfold BlockBuilder_add. destruct (_ && _); [done|].
  assert (∀ shared restarts since, 0 ≤ shared ≤ zlen key → zlen restarts ≤ zlen (bb_restarts b) + 1 →
    ∀ b', Ok {| bb_restart_interval := bb_restart_interval b; bb_entries_since_restart := since + 1;
             bb_entries := bb_entries b ++ entry_bytes shared key value; bb_restarts := restarts;
             bb_previous_key := key; bb_entry_count := bb_entry_count b + 1 |} = Ok b' →
    block_room b' ≤ block_room b + zlen key + zlen value + 34 ∧
    64 * block_room b' ≤ 64 * block_room b + 65 * (zlen key + zlen value) + 448) as H.
  { intros shared restarts since Hs Hr b2 [= <-]. unfold block_room. cbn [bb_entries bb_restarts].
    rewrite zlen_app. pose proof (entry_bytes_bound shared key value Hs). lia. }
  destruct (_ =? _).
  - destruct (_ <=? _); [|done]. apply H; [zlen_lia|zlen_lia].
  - destruct (shared_prefix_spec (bb_previous_key b) key) as (H1 & H2 & _). apply H; lia.
Qed.

(** ** Builders *)

(** An entry a reader with the limit can hold alone in a block. *)
Definition fits (limit : Z) (e : kv) : Prop := 17 ≤ zlen e.1 + zlen e.2 ∧ zlen e.1 + zlen e.2 + 46 ≤ limit.

(** The block under construction fits, and so does every block that was written. *)
Record size_inv (limit : Z) (t : TableBuilder) (pend : list kv) : Prop := {
  sz_pending : tb_pending_bytes t = raw_size pend;
  sz_fits : Forall (fits limit) pend;
  sz_block : ∃ b, tb_block t = Some b ∧ (pend = [] → block_room b = 4) ∧
    (∀ e, pend = [e] → block_room b + 4 ≤ limit) ∧
    64 * (block_room b + 4) ≤ 65 * raw_size pend + 448 * zlen pend + 512;
  sz_raw : (length pend ≤ 1)%nat ∨ raw_size pend ≤ tb_block_bytes t;
  sz_max : tb_max_data_block_bytes t ≤ limit
}.

Lemma raw_size_fits limit pend : Forall (fits limit) pend → 17 * zlen pend ≤ raw_size pend.
Proof.
  induction 1 as [|[k v] pend [H1 _] _ IH]; [done|]. cbn [raw_size fst snd] in *. zlen_lia.
Qed.

Lemma block_fits limit t pend b :
  2 * tb_block_bytes t ≤ limit → size_inv limit t pend → tb_block t = Some b → pend ≠ [] →
  zlen (BlockBuilder_finish b) ≤ limit.
Proof.
  intros Hl [Hp Hf (b' & Hb & _ & Hone & Hroom) Hraw _] Hb' Hne. rewrite Hb in Hb'. injection Hb' as ->.
  rewrite finish_room. destruct pend as [|e [|e' pend]]; [done|by eapply Hone|].
  pose proof (raw_size_fits _ _ Hf) as H17. destruct Hraw as [Hraw|Hraw]; [cbn in Hraw; lia|].
  rewrite !zlen_cons in *. zlen_pos. lia.
Qed.

Section Sizes.
  Context `{C : Crc32c} `{SN : Snappy} (limit : Z).

Lemma write_payload_config t p c h t' :
  write_payload t p c = Ok (h, t') →
  tb_block_bytes t' = tb_block_bytes t ∧ tb_max_data_block_bytes t' = tb_max_data_block_bytes t.
Proof.
  unfold write_payload. destruct (compress_payload p c) as [[st m]|]; [|done].
  destruct (encode_stored_block st m) as [enc|]; [|done]. unfold write_raw.
  destruct (ok_or _ _); [|done]. intros [= _ <-]. done.
Qed.

Lemma flush_size t t' pend :
  2 * tb_block_bytes t ≤ limit → size_inv limit t pend → pend ≠ [] → flush_data_block t = Ok t' →
  size_inv limit t' [] ∧ tb_block_bytes t' = tb_block_bytes t.
Proof.
  intros Hl Hinv Hne. pose proof Hinv as [Hp Hf (b & Hb & _) _ Hmax]. unfold flush_data_block.
  pose proof (raw_size_fits _ _ Hf) as H17. assert (1 ≤ zlen pend) by (destruct pend; [done|zlen_lia]).
  rewrite Hp, (proj2 (Z.eqb_neq _ _)), Hb by lia. cbn [ok_or].
  pose proof (block_fits limit t pend b Hl Hinv Hb Hne) as Hfit.
  destruct (write_payload _ _ _) as [[h t1]|] eqn:E1; [|done]. destruct (write_payload_config _ _ _ _ _ E1) as [Hbb Hm].
  destruct (ok_or (tb_pending_first t1) _); [|done]. destruct (ok_or (tb_pending_last t1) _); [|done].
  destruct (BlockBuilder_try_new _) as [nb|] eqn:E2; [|done]. intros [= <-].
  unfold BlockBuilder_try_new in E2. destruct (_ =? 0); [done|]. injection E2 as <-. split; [|done].
  split; cbn; [done|constructor| |by left; lia|lia].
  eexists. split; [done|]. by vm_compute.
Qed.

Lemma add_size t pend key value t' :
  2 * tb_block_bytes t ≤ limit → size_inv limit t pend → fits limit (ik_encoded key, value) →
  TableBuilder_add t key value = Ok t' →
  (∃ pend', size_inv limit t' pend' ∧ pend' ≠ []) ∧ tb_block_bytes t' = tb_block_bytes t.
Proof.
  intros Hl Hinv Hfit. unfold TableBuilder_add. destruct (match tb_previous_key t with Some _ => _ | None => _ end); [done|].
  destruct (checked_add (zlen _) (zlen value)) as [n1|] eqn:E1; [|done]. cbn [ok_or].
  destruct (checked_add (tb_pending_bytes t) n1) as [n2|] eqn:E2; [|done]. cbn [ok_or].
  unfold checked_add in E1, E2. destruct (_ <=? _) in E1; [|done]. destruct (_ <=? _) in E2; [|done].
  injection E1 as <-. injection E2 as <-. set (raw := zlen (ik_encoded key) + zlen value) in *.
  pose proof Hinv as [Hp Hf _ Hraw _]. pose proof (raw_size_fits _ _ Hf) as H17.
  assert (∀ t1, (if negb (tb_pending_bytes t =? 0) && (tb_block_bytes t <? tb_pending_bytes t + raw)
      then flush_data_block t else Ok t) = Ok t1 →
    tb_block_bytes t1 = tb_block_bytes t ∧ ∃ pend1, size_inv limit t1 pend1 ∧
      (pend1 = [] ∨ pend1 = pend ∧ pend ≠ [] ∧ raw_size pend + raw ≤ tb_block_bytes t)) as Hflush.
  { intros t1. destruct (Z.eqb_spec (tb_pending_bytes t) 0) as [Hz|Hnz]; cbn [negb andb].
    - intros [= <-]. split; [done|]. exists pend. split; [done|]. left. destruct pend; [done|]. rewrite Hp in Hz. zlen_pos.
      rewrite zlen_cons in H17. zlen_pos. lia.
    - assert (pend ≠ []) as Hne by (intros ->; by rewrite Hp in Hnz).
      destruct (Z.ltb_spec (tb_block_bytes t) (tb_pending_bytes t + raw)) as [Hlt|Hge].
      + intros Hfl. destruct (flush_size t t1 pend Hl Hinv Hne Hfl) as [Hs Hb]. split; [done|]. exists []. auto.
      + intros [= <-]. split; [done|]. exists pend. split; [done|]. right. rewrite Hp in Hge. done. }
  destruct (if _ && _ then _ else _) as [t1|]; [|done]. destruct (Hflush t1 eq_refl) as (Hbb & pend1 & Hinv1 & Hcase).
  destruct Hinv1 as [Hp1 Hf1 (b & Hb & Hempty & _ & Hroom) Hraw1 Hmax1]. rewrite Hb. cbn [ok_or].
  destruct (BlockBuilder_add b (ik_encoded key) value) as [b'|] eqn:Ea; [|done].
  destruct (block_add_room _ _ _ _ Ea) as [Ha1 Ha2].
  destruct (ok_or (checked_add (tb_entries t1) 1) _); [|done]. intros [= <-]. cbn [tb_block_bytes]. split; [|done].
  exists (pend1 ++ [(ik_encoded key, value)]). split; [|by destruct pend1].
  assert (raw_size (pend1 ++ [(ik_encoded key, value)]) = raw_size pend1 + raw) as Hrs by apply raw_size_snoc.
  pose proof (raw_size_fits _ _ Hf1) as H171. pose proof (zlen_nonneg pend1).
  split; cbn [tb_pending_bytes tb_block tb_block_bytes tb_max_data_block_bytes].
  - rewrite Hrs, Hp1. destruct (Z.eqb_spec (raw_size pend1) 0) as [->|Hnz]; [done|].
    destruct Hcase as [->|(-> & _ & _)]; [done|by rewrite Hp].
  - apply Forall_app. split; [done|by constructor].
  - exists b'. split; [done|]. split; [by destruct pend1|]. split.
    + intros e He. assert (pend1 = []) as -> by (destruct pend1 as [|x [|y p]]; [done|by injection He|by injection He]).
      specialize (Hempty eq_refl). destruct Hfit as [_ Hfit]. cbn [fst snd] in Hfit. lia.
    + rewrite Hrs, zlen_app. change (zlen [_]) with 1. lia.
  - destruct Hcase as [->|(-> & _ & Hle)]; [by left; cbn; lia|right; rewrite Hrs, Hbb; done].
  - done.
Qed.

Lemma adds_size es t pend t' :
  2 * tb_block_bytes t ≤ limit → size_inv limit t pend → Forall (λ e : record, fits limit (enc_record e)) es →
  try_fold (λ t e, TableBuilder_add t e.1 e.2) t es = Ok t' →
  (∃ pend', size_inv limit t' pend' ∧ (pend ≠ [] ∨ es ≠ [] → pend' ≠ [])) ∧ tb_block_bytes t' = tb_block_bytes t.
Proof.
  revert t pend. induction es as [|e es IH]; intros t pend Hl Hinv Hf H; cbn in H.
  { injection H as <-. split; [|done]. exists pend. split; [done|]. by intros [?|?]. }
  apply Forall_cons in Hf as [He Hf]. destruct (TableBuilder_add t e.1 e.2) as [t1|] eqn:E; [|done].
  destruct (add_size t pend e.1 e.2 t1 Hl Hinv He E) as [(pend1 & Hinv1 & Hne1) Hb1].
  destruct (IH t1 pend1) as [(pend' & Hinv' & Hne') Hb']; [by rewrite Hb1|done|done|done|].
  split; [|congruence]. exists pend'. split; [done|]. intros _. apply Hne'. by left.
Qed.

Lemma create_size n bb ri bpk c t :
  0 ≤ limit → TableBuilder_create n bb ri bpk c = Ok t → size_inv limit t [] ∧ tb_block_bytes t = bb.
Proof.
  intros Hl. unfold TableBuilder_create. do 2 (destruct (_ =? 0); [done|]).
  destruct (BlockBuilder_try_new ri) as [b|] eqn:E; [|done]. intros [= <-].
  unfold BlockBuilder_try_new in E. destruct (_ =? 0); [done|]. injection E as <-. split; [|done].
  split; cbn; [done|constructor| |by left; lia|done].
  eexists. split; [done|]. by vm_compute.
Qed.
End Sizes.
