(* ===== verification/TableOpen.v ===== *)
(** * Finished SSTables and opening them

    What [TableBuilder::finish] leaves on disk, as a layout of data blocks, filter,
    index, properties and footer, and that [TableReader::open] accepts it. *)

From Stdlib Require Import ZArith Lia Sorting.Sorted.
From stdpp Require Import base list gmap strings.
From S2P Require Import Prelude Checksum InternalKey Batch ValueRecord Mvcc Bloom Format.
From S2P Require Import Block TableBuilder TableReader TableRoundtrip.

Local Open Scope Z_scope.

(** ** The index *)

Fixpoint index_of (o : Z) (gs : list (bytes * segment)) : list (bytes * BlockHandle) :=
  match gs with
  | [] => []
  | (sep, s) :: gs =>
    (sep, {| bh_offset := o; bh_size := zlen (sg_stored s) |}) ::
      index_of (o + zlen (sg_stored s)) gs
  end.

Definition index_kvs (index : list (bytes * BlockHandle)) : list kv :=
  map (λ x, (x.1, BlockHandle_encode x.2)) index.

Lemma index_entries_metas o segs :
  index_entries (metas_from o segs) = index_kvs (index_of o (with_seps segs)).
Proof.
  revert o. induction segs as [|s segs IH]; intros o; [done|].
  cbn [metas_from index_entries with_seps index_of index_kvs map fst snd dm_handle].
  fold (index_kvs (index_of (o + zlen (sg_stored s)) (with_seps segs))). rewrite <- IH.
  by destruct segs as [|n segs].
Qed.

Lemma index_of_fst o gs : map fst (index_of o gs) = map fst gs.
Proof. revert o. induction gs as [|[sep s] gs IH]; intros o; cbn; [done|]. by rewrite IH. Qed.

Lemma zlen_metas o segs : zlen (metas_from o segs) = zlen segs.
Proof. revert o. induction segs as [|s segs IH]; intros o; cbn [metas_from]; [done|]. rewrite !zlen_cons, IH. done. Qed.

Lemma zlen_index o segs : zlen (index_of o (with_seps segs)) = zlen segs.
Proof.
  rewrite <- (zlen_map fst), index_of_fst, zlen_map. rewrite <- (with_seps_snd segs) at 2.
  by rewrite zlen_map.
Qed.

Lemma kvs_sorted_fst a b : map fst a = map fst b → kvs_sorted a → kvs_sorted b.
Proof.
  revert b. induction a as [|x a IH]; intros [|y b]; cbn; intros He Hs; try done.
  injection He as Hxy He. apply StronglySorted_inv in Hs as [Hs Hall].
  constructor; [by apply IH|]. apply Forall_forall. intros z Hz.
  assert (z.1 ∈ map fst a) as Hin by (rewrite He; by apply list_elem_of_fmap_2).
  apply list_elem_of_fmap in Hin as (w & Hw & Hin). rewrite Forall_forall in Hall.
  specialize (Hall _ Hin). cbn in *. by rewrite Hw, <- Hxy.
Qed.

Lemma index_kvs_sorted o gs : groups_ok gs → kvs_sorted (index_kvs (index_of o gs)).
Proof.
  intros H. apply (kvs_sorted_fst (map (λ x, (x.1, [])) gs)); [|by apply (groups_seps_sorted gs (λ _, []))].
  unfold index_kvs. rewrite !map_map. cbn. symmetry. apply index_of_fst.
Qed.

Lemma shortest_separator_len a b : zlen (shortest_separator a b) ≤ zlen a.
Proof.
  unfold shortest_separator. destruct (get_at _ a) as [x|] eqn:Ea; [|lia].
  destruct (get_at _ b) as [y|]; [|lia]. destruct (_ && _); [|lia].
  destruct (shared_prefix_spec a b) as ([H0 H1] & _ & _).
  apply get_at_sound in Ea as [Ha _]; [|done]. rewrite zlen_app, zlen_take by lia. zlen_lia.
Qed.

Lemma final_key_cost g k : final_key g = Some k → zlen k + 30 ≤ kvs_cost g.
Proof.
  induction g as [|[k' v] g _] using rev_ind; [done|]. unfold final_key. rewrite last_snoc. cbn.
  intros [= <-]. rewrite kvs_cost_app. cbn [kvs_cost]. pose proof (kvs_cost_nonneg g). zlen_lia.
Qed.

Lemma index_kvs_cost o segs :
  Forall (λ s, sg_kvs s ≠ []) segs →
  kvs_cost (index_kvs (index_of o (with_seps segs))) ≤ 2 * kvs_cost (segs_kvs segs).
Proof.
  intros H. revert o. induction H as [|s segs Hs _ IH]; intros o; [done|].
  destruct (final_key_elem _ Hs) as (x & _ & Hx). pose proof (final_key_cost _ _ Hx).
  cbn [with_seps index_of index_kvs map kvs_cost fst snd]. specialize (IH (o + zlen (sg_stored s))).
  unfold segs_kvs in *. cbn [map concat]. rewrite kvs_cost_app. fold (segs_kvs segs) in *.
  pose proof (BlockHandle_encode_len {| bh_offset := o; bh_size := zlen (sg_stored s) |}).
  unfold index_kvs in IH. rewrite Hx. cbn [default]. change (id x.1) with x.1. pose proof (zlen_nonneg x.1).
  destruct segs as [|n segs]; [lia|].
  pose proof (shortest_separator_len x.1 (default [] (first_key (sg_kvs n)))). lia.
Qed.

(** ** The finished file *)

Section Finished.
  Context `{C : Crc32c} {CR : Crc32cRange C} `{SN : Snappy} {SL : SnappyLaws SN}.

Definition handle_at (o : Z) (st : bytes) : BlockHandle := {| bh_offset := o; bh_size := zlen st |}.

Record finished (file : bytes) (es : list record) (segs : list segment) (filter : BloomFilter)
    (props : TableProperties) : Prop := {
  fin_kvs : segs_kvs segs = map enc_record es;
  fin_keys : Forall (λ e, key_wf e.1) es;
  fin_sorted : kvs_sorted (map enc_record es);
  fin_segs : Forall (segment_ok (tp_compression props)) segs;
  fin_nonempty : es ≠ [];
  fin_filter : bloom_wf filter;
  fin_members : Forall (λ e, may_contain filter (ik_user_key e.1) = Ok true) es;
  fin_props : properties_wf props;
  fin_blocks : tp_data_blocks props = zlen segs;
  fin_max : tp_max_data_block_bytes props ≤ 2 * kvs_cost (map enc_record es) ∧
    Forall (λ s, zlen (sg_payload s) ≤ tp_max_data_block_bytes props) segs;
  fin_layout : ∃ ipay blk ds stF stI stP,
    let oF := zlen (stored_bytes segs) in
    let oI := oF + zlen stF in
    let oP := oI + zlen stI in
    file = stored_bytes segs ++ stF ++ stI ++ stP ++
      encode_footer (handle_at oI stI) (handle_at oF stF) (handle_at oP stP) ∧
    encode_stored_block (bf_encoded filter) NO_COMPRESSION = Ok stF ∧
    encode_stored_block ipay NO_COMPRESSION = Ok stI ∧
    encode_stored_block (encode_properties props) NO_COMPRESSION = Ok stP ∧
    Block_decode ipay = Ok blk ∧ block_chain blk ds ∧
    chain_kvs ds = index_kvs (index_of 0 (with_seps segs)) ∧
    zlen stF + zlen stI + zlen stP ≤ 8 * kvs_cost (map enc_record es) + 128;
  fin_small : 16 * kvs_cost (map enc_record es) ≤ U32_MAX
}.

Lemma write_plain_ok t p :
  zlen p ≤ U32_MAX → 0 ≤ tb_offset t ≤ 2 ^ 62 →
  ∃ st, write_payload t p CompressionNone =
      Ok (handle_at (tb_offset t) st, tb_append t st (tb_offset t + zlen st)) ∧
    encode_stored_block p NO_COMPRESSION = Ok st ∧ zlen st = zlen p + 5.
Proof.
  intros Hp Ho. destruct (write_payload_ok t p CompressionNone Hp Ho) as (st & Hw & (sp & m & Hc & Hm & He) & _).
  cbn in Hc. injection Hc as <- <-. exists st. split; [done|]. split; [done|].
  by apply decode_encode_stored in He as [? _].
Qed.

Lemma encode_properties_len p :
  zlen (encode_properties p) ≤ 63 + zlen (ik_encoded (tp_smallest p)) + zlen (ik_encoded (tp_largest p)).
Proof.
  unfold encode_properties, put_key.
  rewrite !(put_varint_app (_ ++ _)), !(put_varint_app (put_varint _ _)).
  pose proof (put_varint_len (tp_file_number p)). pose proof (put_varint_len (tp_entries p)).
  pose proof (put_varint_len (tp_data_blocks p)). pose proof (put_varint_len (tp_max_data_block_bytes p)).
  pose proof (put_varint_len (zlen (ik_encoded (tp_smallest p)))).
  pose proof (put_varint_len (zlen (ik_encoded (tp_largest p)))).
  destruct (tp_engine_value_encoding p); zlen_lia.
Qed.

Lemma kvs_cost_elem x l : x ∈ l → zlen x.1 ≤ kvs_cost l.
Proof.
  induction 1 as [[k v] l|x [k v] l _ IH]; cbn [kvs_cost fst];
    pose proof (kvs_cost_nonneg l); zlen_lia.
Qed.

Lemma sorted_head_last (es : list record) a b :
  kvs_sorted (map enc_record es) → head es = Some a → last es = Some b →
  InternalKey_cmp a.1 b.1 ≠ Gt.
Proof.
  destruct es as [|x es]; [done|]. cbn [head map]. intros Hs [= ->] Hl.
  apply StronglySorted_inv in Hs as [_ Hall]. apply last_Some_elem_of in Hl.
  unfold InternalKey_cmp. apply elem_of_cons in Hl as [->|Hl]; [by rewrite lex_cmp_refl|].
  rewrite Forall_forall in Hall. specialize (Hall (enc_record b)).
  cbn in Hall. rewrite Hall; [done|]. by apply list_elem_of_fmap_2.
Qed.

Lemma footer_slot_len h : zlen (footer_slot h) = 20.
Proof.
  unfold footer_slot, FOOTER_HANDLE_BYTES. pose proof (BlockHandle_encode_len h).
  rewrite zlen_app, zlen_replicate. lia.
Qed.

Lemma encode_footer_len a b c : zlen (encode_footer a b c) = 72.
Proof. unfold encode_footer. rewrite !zlen_app, !footer_slot_len. by zlen_simpl. Qed.

(** The bounds on what [finish] writes, in one place. *)
Lemma filter_small (es : list record) bpk (f : BloomFilter) :
  0 < bpk ≤ 255 → 8 * zlen (bf_encoded f) ≤ zlen es * bpk + 79 →
  zlen (bf_encoded f) ≤ 2 * kvs_cost (map enc_record es) + 10.
Proof.
  intros Hb Hf. pose proof (kvs_cost_count (map enc_record es)) as Hc. rewrite zlen_map in Hc.
  pose proof (zlen_nonneg es). nia.
Qed.

Lemma segs_count segs : Forall (λ s, sg_kvs s ≠ []) segs → zlen segs ≤ zlen (segs_kvs segs).
Proof.
  unfold segs_kvs. induction 1 as [|s segs Hs _ IH]; [done|]. cbn [map concat].
  rewrite zlen_cons, zlen_app. assert (1 ≤ zlen (sg_kvs s)) by (destruct (sg_kvs s); [done|zlen_lia]). lia.
Qed.

Lemma index_block_ok ri segs :
  1 ≤ ri → segs ≠ [] → Forall (λ s, sg_kvs s ≠ []) segs → kvs_sorted (segs_kvs segs) →
  16 * kvs_cost (segs_kvs segs) ≤ U32_MAX →
  ∃ b0 b blk ds, BlockBuilder_try_new ri = Ok b0 ∧
    add_all b0 (index_entries (metas_from 0 segs)) = Ok b ∧
    Block_decode (BlockBuilder_finish b) = Ok blk ∧ block_chain blk ds ∧
    chain_kvs ds = index_kvs (index_of 0 (with_seps segs)) ∧
    zlen (BlockBuilder_finish b) ≤ 3 * kvs_cost (segs_kvs segs) + 4.
Proof.
  intros Hri Hsne Hne Hsort Hcost. set (cost := kvs_cost _) in *.
  pose proof (index_kvs_sorted 0 _ (with_seps_ok _ Hne Hsort)) as Hidx.
  pose proof (index_kvs_cost 0 _ Hne) as Hic. fold cost in Hic.
  rewrite index_entries_metas. set (ikvs := index_kvs _) in *.
  destruct (BlockBuilder_try_new ri) as [b0|e0] eqn:Eb0;
    unfold BlockBuilder_try_new in Eb0; rewrite (proj2 (Z.eqb_neq _ _)) in Eb0 by lia; [|done].
  assert (bb_entries b0 = []) as Hb0e by (by injection Eb0 as <-).
  assert (builder_inv b0 []) as Hb0.
  { apply (try_new_inv ri); [lia|]. unfold BlockBuilder_try_new. by rewrite (proj2 (Z.eqb_neq _ _)) by lia. }
  destruct (add_all_inv ikvs b0 [] Hb0) as (b & ds & Hadd & Hb & Hds & Hbl);
    [rewrite Hb0e; unfold U32_MAX in *; zlen_nils; lia|done|].
  rewrite Hb0e in Hbl. change (chain_kvs [] ++ ikvs) with ikvs in Hds. zlen_nils.
  assert (zlen ds = zlen segs) as Hdl.
  { assert (zlen (chain_kvs ds) = zlen ds) as <- by apply zlen_map. rewrite Hds.
    unfold ikvs, index_kvs. by rewrite zlen_map, zlen_index. }
  assert (1 ≤ zlen segs) by (destruct segs; [done|zlen_lia]).
  assert (ds ≠ []) as Hdne by (intros ->; zlen_nils; lia).
  destruct (finish_decode b ds Hb ltac:(unfold U32_MAX in *; lia)) as (blk & Hdec & Hch).
  pose proof (finish_len _ _ Hb Hdne). pose proof (segs_count _ Hne).
  pose proof (kvs_cost_count (segs_kvs segs)) as Hcc. fold cost in Hcc.
  exists b0, b, blk, ds. repeat (split; [done|]). lia.
Qed.

Definition props_of (t : TableBuilder) (es : list record) (segs : list segment) (a z : record)
    (max : Z) : TableProperties :=
  {| tp_file_number := tb_file_number t; tp_entries := zlen es;
     tp_data_blocks := zlen segs; tp_compression := tb_compression t;
     tp_smallest := a.1; tp_largest := z.1;
     tp_max_data_block_bytes := max;
     tp_engine_value_encoding := tb_engine_value_encoding t |}.

Lemma props_of_wf t es segs a z max :
  is_u64 (tb_file_number t) → 1 ≤ zlen es ≤ U32_MAX → 1 ≤ max ≤ U32_MAX ∧ 1 ≤ zlen segs ≤ U32_MAX →
  Forall (λ e, key_wf e.1) es → kvs_sorted (map enc_record es) →
  head es = Some a → last es = Some z → properties_wf (props_of t es segs a z max).
Proof.
  intros Hn He Hm Hk Hs Ha Hz.
  assert (a ∈ es) by (destruct es; [done|injection Ha as <-; by left]).
  assert (z ∈ es) by (by apply last_Some_elem_of). rewrite Forall_forall in Hk.
  split; cbn; unfold is_u64, U64_MAX, U32_MAX in *; try lia.
  - apply key_wf_decode. auto.
  - apply key_wf_decode. auto.
  - by apply (sorted_head_last es).
Qed.

Lemma finish_ok t es segs0 pend :
  tb_inv t es segs0 pend → pend ≠ [] → 16 * kvs_cost (map enc_record es) ≤ U32_MAX →
  0 < tb_bloom_bits_per_key t ≤ 255 → is_u64 (tb_file_number t) →
  ∃ segs filter res file props smallest largest,
    TableBuilder_finish t = Ok (res, file) ∧ finished file es segs filter props ∧
    head es = Some smallest ∧ last es = Some largest ∧
    res = {| tr_file_number := tb_file_number t; tr_file_size := zlen file;
             tr_smallest := smallest.1; tr_largest := largest.1; tr_entries := zlen es |} ∧
    props = props_of t es segs smallest largest (tp_max_data_block_bytes props) ∧
    ∃ t1, flush_data_block t = Ok t1 ∧ tp_max_data_block_bytes props = tb_max_data_block_bytes t1.
Proof.
  intros Hinv Hpend Hcost Hbpk Hnum.
  assert (es ≠ []) as Hes.
  { intros ->. pose proof (tv_split _ _ _ _ Hinv) as H. cbn in H. apply app_eq_nil in H as [_ H]. done. }
  destruct (flush_inv t es segs0 pend Hinv Hcost Hpend) as (t1 & s & Hfl & Hinv1 & Hs & Hcfg).
  set (segs := segs0 ++ [s]) in *. set (cost := kvs_cost (map enc_record es)) in *.
  destruct Hinv1 as [Hsplit Hkeys Hsorted Hfile Hoff Hmetas Hsegs Hri _ _ _ _ _ Hfilt Hent Hsm Hlg [Hmax Hmaxs]].
  destruct Hcfg as (Hn' & _ & Hri' & Hbpk' & Hcomp' & Hev').
  rewrite app_nil_r in Hsplit. rewrite Hsplit in Hmax. fold cost in Hmax.
  pose proof (kvs_cost_count (map enc_record es)) as Hcount. rewrite zlen_map in Hcount. fold cost in Hcount.
  pose proof (zlen_nonneg es). unfold U32_MAX in *.
  assert (1 ≤ zlen es) as Hes1 by (destruct es; [done|zlen_lia]).
  unfold TableBuilder_finish. rewrite (tv_entries _ _ _ _ Hinv), (proj2 (Z.eqb_neq _ _)), Hfl by lia.
  (* the filter *)
  destruct (from_keys_spec (tb_filter_keys t1) (tb_bloom_bits_per_key t1)) as (f & -> & Hfwf & Hfm & Hflen).
  { by rewrite Hbpk'. }
  { rewrite Hfilt, zlen_map, Hbpk'. unfold U32_MAX. nia. }
  rewrite Hfilt, zlen_map, Hbpk' in Hflen. apply filter_small in Hflen; [|done]. fold cost in Hflen.
  pose proof (stored_bytes_len _ _ Hsegs) as Hdata. rewrite Hsplit in Hdata. fold cost in Hdata.
  pose proof (zlen_nonneg (stored_bytes segs)).
  destruct (write_plain_ok t1 (bf_encoded f)) as (stF & -> & HstF & HlF).
  { unfold U32_MAX. lia. } { rewrite Hoff. lia. }
  (* the index *)
  assert (Forall (λ s, sg_kvs s ≠ []) segs) as Hne.
  { eapply Forall_impl; [exact Hsegs|]. by intros ? (? & _). }
  assert (segs ≠ []) as Hsne by (unfold segs; by destruct segs0).
  destruct (index_block_ok (tb_restart_interval t1) segs) as (b0 & ib & blk & ds & Eb0 & Hadd & Hdec & Hch & Hds & Hil);
    [done|done|done|by rewrite Hsplit|by rewrite Hsplit|].
  rewrite Hsplit in Hil. fold cost in Hil.
  cbn [tb_append tb_restart_interval tb_data_blocks tb_offset]. rewrite Eb0, Hmetas, Hadd.
  set (t2 := tb_append _ _ _).
  destruct (write_plain_ok t2 (BlockBuilder_finish ib)) as (stI & -> & HstI & HlI).
  { unfold U32_MAX. lia. } { unfold t2. cbn [tb_append tb_offset]. rewrite Hoff, HlF. zlen_pos. lia. }
  (* the properties *)
  destruct (head es) as [a|] eqn:Eh; [|by destruct es].
  destruct (last es) as [z|] eqn:El; [|by apply last_None in El].
  change (tb_smallest (tb_append _ _ _)) with (tb_smallest t1).
  change (tb_largest (tb_append _ _ _)) with (tb_largest t1).
  rewrite Hsm, Hlg. cbn [fmap option_fmap option_map ok_or].
  set (props := {| tp_file_number := _ |}). set (t3 := tb_append t2 _ _).
  assert (props_of t es segs a z (tb_max_data_block_bytes t1) = props) as Hprops.
  { unfold props, props_of. cbn [tb_append t2 t3 tb_file_number tb_entries tb_data_blocks tb_compression
      tb_engine_value_encoding tb_max_data_block_bytes].
    by rewrite Hn', Hent, Hmetas, zlen_metas, Hcomp', Hev'. }
  rewrite <- Hprops.
  pose proof (kvs_cost_elem (enc_record a) (map enc_record es)) as Hca.
  pose proof (kvs_cost_elem (enc_record z) (map enc_record es)) as Hcz.
  fold cost in Hca, Hcz.
  specialize (Hca ltac:(apply list_elem_of_fmap_2; destruct es; [done|injection Eh as <-; by left])).
  specialize (Hcz ltac:(apply list_elem_of_fmap_2; by apply last_Some_elem_of)).
  pose proof (encode_properties_len (props_of t es segs a z (tb_max_data_block_bytes t1))) as Hpl.
  cbn [props_of tp_smallest tp_largest] in Hpl. cbn [enc_record fst] in Hca, Hcz.
  assert (tb_offset t3 = zlen (stored_bytes segs) + zlen stF + zlen stI) as Ho3.
  { unfold t3, t2. cbn [tb_append tb_offset]. by rewrite Hoff. }
  zlen_pos.
  destruct (write_plain_ok t3 (encode_properties (props_of t es segs a z (tb_max_data_block_bytes t1))))
    as (stP & -> & HstP & HlP). { unfold U32_MAX. lia. } { lia. }
  unfold write_raw, checked_add. rewrite encode_footer_len. cbn [tb_append tb_offset].
  rewrite (proj2 (Z.leb_le _ _)) by (unfold USIZE_MAX, U64_MAX; lia). cbn [ok_or].
  eexists segs, f, _, _, (props_of t es segs a z (tb_max_data_block_bytes t1)), a, z.
  split; [reflexivity|].
  assert (tb_file (tb_append (tb_append t3 stP (tb_offset t3 + zlen stP))
      (encode_footer (handle_at (tb_offset t2) stI) (handle_at (tb_offset t1) stF)
        (handle_at (tb_offset t3) stP)) (tb_offset t3 + zlen stP + 72)) =
    stored_bytes segs ++ stF ++ stI ++ stP ++
    encode_footer (handle_at (zlen (stored_bytes segs) + zlen stF) stI)
      (handle_at (zlen (stored_bytes segs)) stF)
      (handle_at (zlen (stored_bytes segs) + zlen stF + zlen stI) stP)) as Hfin.
  { rewrite Ho3. unfold t3, t2. cbn [tb_append tb_file tb_offset]. by rewrite Hfile, Hoff, <- !app_assoc. }
  rewrite Hfin. split; [|split; [done|split; [done|split; [|split; [done|by exists t1]]]]].
  - assert (1 ≤ tb_max_data_block_bytes t1).
    { clear -Hsegs Hmaxs Hsne. destruct segs as [|s' segs']; [done|].
      apply Forall_cons in Hsegs as [(_ & _ & _ & Hp & _) _]. apply Forall_cons in Hmaxs as [Hm _]. lia. }
    pose proof (segs_count _ Hne) as Hsc. rewrite Hsplit, zlen_map in Hsc.
    assert (1 ≤ zlen segs) by (clear -Hsne; destruct segs; [done|zlen_lia]).
    split; cbn [props_of tp_compression tp_data_blocks tp_max_data_block_bytes]; try done.
    + by rewrite <- Hcomp'.
    + rewrite Hfilt, Forall_fmap in Hfm. exact Hfm.
    + apply props_of_wf; [done| |unfold U32_MAX; lia|done|done|done|done].
      unfold U32_MAX; lia.
    + split; [fold cost; lia|done].
    + eexists (BlockBuilder_finish ib), blk, ds, stF, stI, stP. cbn zeta.
      do 7 (split; [done|]). fold cost. lia.
  - f_equal; unfold t3, t2; cbn [tb_append tb_file_number tb_offset tb_entries]; [done| |done].
    rewrite !zlen_app, encode_footer_len, Hoff. lia.
Qed.

(** ** Opening *)

Lemma validate_handle_ok h limit :
  0 ≤ bh_offset h → 1 ≤ bh_size h → bh_offset h + bh_size h ≤ limit → limit ≤ U64_MAX →
  validate_handle h limit = Ok tt.
Proof.
  intros. unfold validate_handle, checked_add, USIZE_MAX. rewrite (proj2 (Z.eqb_neq _ _)) by lia.
  rewrite (proj2 (Z.leb_le _ U64_MAX)) by lia. cbn [ok_or]. unfold ensure.
  by rewrite (proj2 (Z.leb_le _ limit)) by lia.
Qed.

Lemma decode_fixed_handle_ok encoded start limit h rest :
  drop (Z.to_nat start) encoded = footer_slot h ++ rest →
  0 ≤ start → start + 20 ≤ zlen encoded ≤ 1000 →
  0 ≤ bh_offset h → 1 ≤ bh_size h → bh_offset h + bh_size h ≤ limit → limit ≤ U64_MAX →
  decode_fixed_handle encoded start limit = Ok h.
Proof.
  intros Hd Hs Hl Ho Hz Hlim Hmax. unfold decode_fixed_handle, checked_add.
  rewrite (proj2 (Z.leb_le _ _)) by (unfold USIZE_MAX, U64_MAX; lia). cbn [ok_or].
  pose proof (get_range_at' _ _ _ _ Hd ltac:(lia)) as Hg. rewrite footer_slot_len in Hg.
  rewrite Hg. cbn [ok_or]. pose proof (BlockHandle_encode_len h) as Hel.
  unfold footer_slot. rewrite BlockHandle_decode_put.
  2-4: unfold is_u64; lia.
  2:{ fold (footer_slot h). rewrite footer_slot_len. unfold USIZE_MAX, U64_MAX. lia. }
  cbn [map_err]. rewrite drop_app_z by done.
  assert (existsb (λ byte, negb (byte =? 0)) (replicate (Z.to_nat (FOOTER_HANDLE_BYTES - zlen (BlockHandle_encode h))) 0) = false) as ->.
  { generalize (Z.to_nat (FOOTER_HANDLE_BYTES - zlen (BlockHandle_encode h))). intros n. by induction n. }
  by rewrite validate_handle_ok by done.
Qed.

Lemma read_exact_range_ok file pre st post :
  file = pre ++ st ++ post → read_exact_range file (handle_at (zlen pre) st) = Ok st.
Proof.
  intros ->. unfold read_exact_range. cbn [handle_at bh_offset bh_size].
  rewrite (get_range_at' _ st post); [done|by rewrite drop_app_z|]. zlen_lia.
Qed.

Lemma read_metadata_ok file pre st post p :
  file = pre ++ st ++ post → encode_stored_block p NO_COMPRESSION = Ok st →
  read_metadata_block file (handle_at (zlen pre) st) = Ok p.
Proof.
  intros Hf He. unfold read_metadata_block. rewrite (read_exact_range_ok _ _ _ _ Hf).
  apply decode_encode_stored in He as [_ ->]. done.
Qed.

Lemma read_index_ok gs o limit acc :
  Forall (λ g, 5 ≤ zlen (sg_stored g.2)) gs → 0 ≤ o →
  o + zlen (stored_bytes (map snd gs)) ≤ limit → limit ≤ U64_MAX →
  read_index (index_kvs (index_of o gs)) limit o acc =
    Ok (acc ++ index_of o gs, o + zlen (stored_bytes (map snd gs))).
Proof.
  intros H. revert o acc. induction H as [|[sep s] gs Hs Hgs IH]; intros o acc Ho Hl Hmax.
  { cbn. unfold stored_bytes. cbn. zlen_nils. by rewrite app_nil_r, Z.add_0_r. }
  unfold stored_bytes in *. cbn [map concat] in *. rewrite zlen_app in *.
  fold (stored_bytes (map snd gs)) in *. cbn [snd] in *.
  cbn [index_of index_kvs map read_index fst snd].
  set (h := {| bh_offset := o; bh_size := zlen (sg_stored s) |}).
  pose proof (zlen_nonneg (stored_bytes (map snd gs))). pose proof (BlockHandle_encode_len h).
  assert (bh_offset h = o ∧ bh_size h = zlen (sg_stored s)) as [Hho Hhs] by done.
  rewrite <- (app_nil_r (BlockHandle_encode h)) at 1.
  rewrite (BlockHandle_decode_put h []); rewrite ?app_nil_r, ?Hho, ?Hhs; unfold is_u64, USIZE_MAX in *;
    try lia; [|unfold U64_MAX; lia].
  rewrite Z.eqb_refl. cbn [negb]. rewrite validate_handle_ok by (rewrite ?Hho, ?Hhs; cbn; lia).
  cbn [h bh_offset bh_size]; rewrite Z.eqb_refl. cbn [negb]. unfold checked_add, USIZE_MAX.
  rewrite (proj2 (Z.leb_le _ U64_MAX)) by lia. cbn [ok_or].
  fold (index_kvs (index_of (o + zlen (sg_stored s)) gs)). rewrite IH by lia.
  by rewrite <- app_assoc, Z.add_assoc.
Qed.

Definition reader_of (file : bytes) (segs : list segment) (filter : BloomFilter)
    (props : TableProperties) (limit : Z) (file_number : option Z) : TableReader :=
  {| rd_file := file;
     rd_file_size := zlen file;
     rd_data_end := zlen (stored_bytes segs);
     rd_index := index_of 0 (with_seps segs);
     rd_filter := filter;
     rd_properties := props;
     rd_max_uncompressed_data_block_bytes := limit;
     rd_file_number := file_number;
     rd_user_key_filter := true |}.

(** The reader options that admit a table of the given cost. *)
Definition options_admit (options : TableReaderOptions) (cost : Z) : Prop :=
  2 * cost ≤ ro_max_uncompressed_data_block_bytes options ≤ 2 ^ 62 ∧
  8 * cost + 128 ≤ ro_max_metadata_bytes options.

(** The options that admit one finished table: its largest data block decides. *)
Definition reader_admits (options : TableReaderOptions) (props : TableProperties) (cost : Z) : Prop :=
  tp_max_data_block_bytes props ≤ ro_max_uncompressed_data_block_bytes options ≤ 2 ^ 62 ∧
  8 * cost + 128 ≤ ro_max_metadata_bytes options.

Lemma options_admit_reader file es segs filter props options :
  finished file es segs filter props → options_admit options (kvs_cost (map enc_record es)) →
  reader_admits options props (kvs_cost (map enc_record es)).
Proof. intros Hfin [H1 H2]. pose proof (proj1 (fin_max _ _ _ _ _ Hfin)). split; [lia|done]. Qed.

Lemma footer_fields a b c :
  let f := encode_footer a b c in
  slice 64 72 f = SSTABLE_MAGIC ∧ slice 60 64 f = to_le 4 SSTABLE_FORMAT_VERSION ∧
  drop (Z.to_nat 0) f = footer_slot a ++ drop (Z.to_nat 20) f ∧
  drop (Z.to_nat 20) f = footer_slot b ++ drop (Z.to_nat 40) f ∧
  drop (Z.to_nat 40) f = footer_slot c ++ drop (Z.to_nat 60) f.
Proof.
  set (f := encode_footer a b c). cbn zeta.
  assert (drop (Z.to_nat 0) f = footer_slot a ++ footer_slot b ++ footer_slot c ++
    to_le 4 SSTABLE_FORMAT_VERSION ++ SSTABLE_MAGIC) as H0 by done.
  pose proof (drop_advance' _ _ _ _ H0 ltac:(lia)) as H1. rewrite footer_slot_len in H1.
  pose proof (drop_advance' _ _ _ _ H1 ltac:(lia)) as H2. rewrite footer_slot_len in H2.
  pose proof (drop_advance' _ _ _ _ H2 ltac:(lia)) as H3. rewrite footer_slot_len in H3.
  pose proof (drop_advance' _ _ _ _ H3 ltac:(lia)) as H4. rewrite zlen_to_le in H4.
  cbn [Z.add Pos.add Z.of_nat Pos.of_succ_nat Pos.succ] in *.
  change (0 + 20) with 20 in *. change (20 + 20) with 40 in *. change (40 + 20) with 60 in *.
  split; [|split; [|split; [by rewrite H0, H1|split; [by rewrite H1, H2|by rewrite H2, H3]]]].
  - unfold slice. change (60 + Z.of_nat 4) with 64 in H4. rewrite H4. done.
  - unfold slice. rewrite H3. by apply (take_app_z (64 - 60)).
Qed.

Lemma open_ok file es segs filter props options file_number :
  finished file es segs filter props →
  reader_admits options props (kvs_cost (map enc_record es)) →
  (file_number = None ∨ file_number = Some (tp_file_number props)) →
  open_internal file options file_number =
    Ok (reader_of file segs filter props (ro_max_uncompressed_data_block_bytes options) file_number).
Proof.
  intros Hfin [Hopt Hmeta] Hnum. set (cost := kvs_cost _) in *.
  destruct Hfin as [Hkvs Hkeys Hsorted Hsegs Hes Hfwf Hmem Hprops Hblocks [Hmax _]
    (ipay & blk & ds & stF & stI & stP & Hfile & HeF & HeI & HeP & Hdec & Hch & Hds & Hsum) Hsmall].
  fold cost in Hsum, Hsmall, Hmax. cbn zeta in Hfile.
  pose proof (stored_bytes_len _ _ Hsegs) as Hdata. rewrite Hkvs in Hdata. fold cost in Hdata.
  pose proof (decode_encode_stored _ _ _ HeF) as [HlF _].
  pose proof (decode_encode_stored _ _ _ HeI) as [HlI _].
  pose proof (decode_encode_stored _ _ _ HeP) as [HlP _].
  set (oF := zlen (stored_bytes segs)) in *.
  set (hF := handle_at oF stF) in *. set (hI := handle_at (oF + zlen stF) stI) in *.
  set (hP := handle_at (oF + zlen stF + zlen stI) stP) in *.
  set (foot := encode_footer hI hF hP) in *.
  pose proof (encode_footer_len hI hF hP) as Hfl. fold foot in Hfl.
  assert (0 ≤ oF) by apply zlen_nonneg.
  assert (0 < cost) as Hcpos.
  { destruct es as [|x es]; [done|]. unfold cost. cbn [map kvs_cost enc_record].
    pose proof (kvs_cost_nonneg (map enc_record es)). zlen_pos. lia. }
  pose proof (zlen_nonneg (bf_encoded filter)). pose proof (zlen_nonneg ipay).
  pose proof (zlen_nonneg (encode_properties props)).
  unfold U32_MAX in *.
  pose proof (pw_max _ Hprops) as [Hmx Hmx0]. unfold is_u64 in Hmx.
  unfold open_internal. rewrite (proj2 (Z.eqb_neq _ _)), (proj2 (Z.eqb_neq _ _)) by lia.
  assert (zlen file = oF + zlen stF + zlen stI + zlen stP + 72) as Hlen.
  { rewrite Hfile, !zlen_app, Hfl. fold oF. lia. }
  unfold checked_sub, SSTABLE_FOOTER_BYTES. rewrite (proj2 (Z.leb_le 72 _)) by lia. cbn [ok_or].
  assert (slice (zlen file - 72) (zlen file) file = foot) as ->.
  { assert (drop (Z.to_nat (zlen file - 72)) file = foot ++ []) as Hd.
    { rewrite app_nil_r, Hfile. rewrite !app_assoc. apply drop_app_z. rewrite !zlen_app. fold oF.
      rewrite Hfl. lia. }
    replace (zlen file) with (zlen file - 72 + zlen foot) at 2 by lia.
    apply (slice_at _ _ []); [lia|done]. }
  destruct (footer_fields hI hF hP) as (Hmagic & Hversion & Hd1 & Hd2 & Hd3).
  fold foot in Hmagic, Hversion, Hd1, Hd2, Hd3. rewrite Hmagic, Hversion.
  rewrite from_le_to_le by (unfold SSTABLE_FORMAT_VERSION; lia).
  rewrite lex_eqb_refl. cbn [negb]. change (SSTABLE_FORMAT_VERSION =? SSTABLE_FORMAT_VERSION) with true.
  cbn [negb andb]. rewrite andb_false_r.
  rewrite (decode_fixed_handle_ok _ _ _ _ _ Hd1) by (unfold hF, hI, hP, U64_MAX; cbn [handle_at bh_offset bh_size]; lia).
  rewrite (decode_fixed_handle_ok _ _ _ _ _ Hd2) by (unfold hF, hI, hP, U64_MAX; cbn [handle_at bh_offset bh_size]; lia).
  rewrite (decode_fixed_handle_ok _ _ _ _ _ Hd3) by (unfold hF, hI, hP, U64_MAX; cbn [handle_at bh_offset bh_size]; lia).
  unfold validate_metadata_handles, checked_handle_end, checked_add, USIZE_MAX, U64_MAX.
  unfold hF, hI, hP. cbn [handle_at bh_offset bh_size].
  rewrite !(proj2 (Z.leb_le _ 18446744073709551615)) by lia. cbn [ok_or]. unfold ensure at 1.
  rewrite !(proj2 (Z.eqb_eq _ _)) by lia. cbn [andb].
  unfold validate_metadata_allocation_limit. cbn [try_fold handle_at bh_offset bh_size].
  unfold checked_add, USIZE_MAX, U64_MAX.
  rewrite (proj2 (Z.leb_le (0 + zlen stI) _)) by lia. cbn [ok_or].
  rewrite (proj2 (Z.leb_le (0 + zlen stI + zlen stF) _)) by lia. cbn [ok_or].
  rewrite (proj2 (Z.leb_le (0 + zlen stI + zlen stF + zlen stP) 18446744073709551615)) by lia. cbn [ok_or].
  unfold ensure. rewrite (proj2 (Z.leb_le _ (ro_max_metadata_bytes options))) by lia.
  replace (oF + zlen stF + zlen stI) with (zlen (stored_bytes segs ++ stF ++ stI))
    by (rewrite !zlen_app; fold oF; lia).
  assert (file = (stored_bytes segs ++ stF ++ stI) ++ stP ++ foot) as HfP
    by (rewrite Hfile; by rewrite <- !app_assoc).
  assert (file = (stored_bytes segs ++ stF) ++ stI ++ stP ++ foot) as HfI
    by (rewrite Hfile; by rewrite <- !app_assoc).
  rewrite (read_metadata_ok _ _ _ _ _ HfP HeP).
  replace (oF + zlen stF) with (zlen (stored_bytes segs ++ stF)) by (rewrite !zlen_app; fold oF; lia).
  rewrite (read_metadata_ok _ _ _ _ _ HfI HeI).
  unfold oF at 1. rewrite (read_metadata_ok _ _ _ _ _ Hfile HeF), Hdec, (Block_entries_chain _ _ Hch), Hds.
  rewrite read_index_ok.
  2:{ apply (Forall_fmap snd (λ g, 5 ≤ zlen (sg_stored g))). change (snd <$> ?l) with (map snd l).
      rewrite with_seps_snd. eapply Forall_impl; [exact Hsegs|]. by intros g (_ & _ & _ & _ & ? & _). }
  2-4: rewrite ?with_seps_snd; fold oF; unfold U64_MAX; lia.
  rewrite with_seps_snd. fold oF. cbn [app].
  assert (zlen segs ≠ 0) as Hsne.
  { rewrite <- Hblocks. by destruct (pw_blocks _ Hprops). }
  rewrite zlen_index, (proj2 (Z.eqb_neq _ _)), Z.add_0_l, Z.eqb_refl by done. cbn [negb].
  rewrite bloom_wf_decode, decode_encode_properties by (try done; unfold USIZE_MAX, U64_MAX; lia).
  assert (match file_number with
    | Some expected => negb (tp_file_number props =? expected) | None => false end = false) as ->.
  { destruct Hnum as [->| ->]; [done|]. by rewrite Z.eqb_refl. }
  rewrite (proj2 (Z.ltb_ge _ _)), Hblocks, Z.eqb_refl by lia. done.
Qed.
End Finished.
