(* ===== verification/TableLookups.v ===== *)
(** * SSTables: what a reader returns

    A file built from sorted records opens, iterates to exactly these records, and
    answers exact and latest-version lookups correctly; a snapshot lookup that
    falls between the last key of a block and its separator is shown to miss. *)

From Stdlib Require Import ZArith Lia Sorting.Sorted.
From stdpp Require Import base list gmap strings.
From S2P Require Import Prelude Checksum InternalKey Batch ValueRecord Mvcc Bloom Format.
From S2P Require Import Block TableBuilder TableReader TableRoundtrip TableOpen.

Local Open Scope Z_scope.

Section Lookups.
  Context `{C : Crc32c} {CR : Crc32cRange C} `{SN : Snappy} {SL : SnappyLaws SN}.

(** ** Building *)

(** What a flush and a compaction do with a builder: add the records in order. *)
Definition build_table (file_number block_bytes restart_interval bloom_bits_per_key : Z)
    (compression : Compression) (es : list record) : result (TableBuildResult * bytes) :=
  let? t := TableBuilder_create file_number block_bytes restart_interval bloom_bits_per_key
              compression in
  let? t := try_fold (λ t e, TableBuilder_add t e.1 e.2) t es in
  TableBuilder_finish t.

Lemma create_inv n bb ri bpk c :
  1 ≤ bb → 1 ≤ ri → 1 ≤ bpk →
  ∃ t, TableBuilder_create n bb ri bpk c = Ok t ∧ tb_inv t [] [] [] ∧
    tb_file_number t = n ∧ tb_bloom_bits_per_key t = bpk ∧ tb_compression t = c.
Proof.
  intros Hbb Hri Hbpk. unfold TableBuilder_create, BlockBuilder_try_new.
  rewrite !(proj2 (Z.eqb_neq _ 0)) by lia. eexists. split; [done|]. split; [|done].
  split; cbn; try done; try constructor.
  eexists _, []. split; [done|]. split; [|done].
  apply (try_new_inv ri); [lia|]. unfold BlockBuilder_try_new. by rewrite (proj2 (Z.eqb_neq _ 0)) by lia.
Qed.

Lemma add_records_inv es t es0 segs pend :
  tb_inv t es0 segs pend → (es0 ≠ [] → pend ≠ []) →
  Forall (λ e, key_wf e.1) es → kvs_sorted (map enc_record (es0 ++ es)) →
  16 * kvs_cost (map enc_record (es0 ++ es)) ≤ U32_MAX →
  ∃ t' segs' pend', try_fold (λ t e, TableBuilder_add t e.1 e.2) t es = Ok t' ∧
    tb_inv t' (es0 ++ es) segs' pend' ∧ (es0 ++ es ≠ [] → pend' ≠ []) ∧ same_config t t'.
Proof.
  revert t es0 segs pend. induction es as [|[k v] es IH]; intros t es0 segs pend Hinv Hp Hk Hs Hc.
  { rewrite app_nil_r in *. exists t, segs, pend. do 3 (split; [done|]). by repeat split. }
  apply Forall_cons in Hk as [Hk Hks].
  assert (es0 ++ (k, v) :: es = (es0 ++ [(k, v)]) ++ es) as Hcons by (by rewrite <- app_assoc).
  rewrite Hcons in Hs, Hc |- *.
  assert (kvs_sorted (map enc_record (es0 ++ [(k, v)])) ∧
    kvs_cost (map enc_record (es0 ++ [(k, v)])) ≤ kvs_cost (map enc_record ((es0 ++ [(k, v)]) ++ es))) as [Hs1 Hc1].
  { rewrite (map_app _ (es0 ++ _)) in Hs |- *. rewrite kvs_cost_app.
    pose proof (kvs_cost_nonneg (map enc_record es)). split; [|lia]. by apply kvs_sorted_app_inv in Hs as [? _]. }
  destruct (table_add_inv t es0 segs pend k v Hinv Hk Hs1 ltac:(lia)) as (t1 & s1 & p1 & Hadd & Hinv1 & Hp1 & Hcf).
  cbn [try_fold fst snd]. rewrite Hadd.
  destruct (IH t1 _ _ _ Hinv1 ltac:(done) Hks Hs Hc) as (t' & s' & p' & Hf & Hi & Hp' & Hcf').
  exists t', s', p'. split; [done|]. split; [done|]. split; [done|].
  destruct Hcf as (? & ? & ? & ? & ? & ?), Hcf' as (? & ? & ? & ? & ? & ?). repeat split; congruence.
Qed.

(** Records that make up a table: well-formed keys, strictly increasing, of bounded size. *)
Definition table_records (es : list record) : Prop :=
  es ≠ [] ∧ Forall (λ e, key_wf e.1) es ∧ kvs_sorted (map enc_record es) ∧
  16 * kvs_cost (map enc_record es) ≤ U32_MAX.

(** Parameters with which a table can be built. *)
Definition table_config (n bb ri bpk : Z) : Prop :=
  is_u64 n ∧ 1 ≤ bb ∧ 1 ≤ ri ∧ 1 ≤ bpk ≤ 255.

Lemma build_ok n bb ri bpk c es :
  table_config n bb ri bpk → table_records es →
  ∃ file segs filter props smallest largest,
    head es = Some smallest ∧ last es = Some largest ∧
    build_table n bb ri bpk c es =
      Ok ({| tr_file_number := n; tr_file_size := zlen file; tr_smallest := smallest.1;
             tr_largest := largest.1; tr_entries := zlen es |}, file) ∧
    finished file es segs filter props ∧ tp_file_number props = n.
Proof.
  intros (Hn & Hbb & Hri & Hbpk) (Hne & Hk & Hs & Hc). unfold build_table.
  destruct (create_inv n bb ri bpk c Hbb Hri ltac:(lia)) as (t0 & -> & Hinv0 & Hn0 & Hbpk0 & _).
  destruct (add_records_inv es t0 [] [] [] Hinv0 ltac:(done) Hk Hs Hc)
    as (t & segs & pend & -> & Hinv & Hp & Hcfg).
  destruct Hcfg as (Hn' & _ & _ & Hbpk' & _ & _).
  destruct (finish_ok t es segs pend Hinv (Hp Hne) Hc) as
    (segs' & f & res & file & props & a & z & -> & Hfin & Ha & Hz & -> & Hprops & _).
  { rewrite Hbpk', Hbpk0. lia. } { by rewrite Hn', Hn0. }
  exists file, segs', f, props, a, z. repeat (split; [done|]).
  split; [by rewrite Hn', Hn0|]. split; [done|]. rewrite Hprops. cbn. congruence.
Qed.

(** ** Reading a data block *)

Lemma payload_decodes c payload stored marker limit maximum :
  compress_payload payload c = Ok (stored, marker) → zlen payload ≤ limit → zlen payload ≤ maximum →
  marker = compression_marker c ∧
  (if marker =? NO_COMPRESSION then
     if limit <? zlen stored then
       Err (data_corruption "uncompressed block bytes exceeds reader limit")
     else Ok stored
   else
     let? expected := ok_or (snappy_decompress_len stored)
       (data_corruption "invalid Snappy header") in
     if limit <? expected then
       Err (data_corruption "Snappy output length exceeds reader limit")
     else if maximum <? expected then
       Err (data_corruption "Snappy output length exceeds property maximum")
     else
       ok_or (snappy_decompress stored) (data_corruption "Snappy decompression failed")) = Ok payload.
Proof.
  intros Hc Hl Hm. destruct c; cbn in Hc.
  - injection Hc as <- <-. split; [done|]. cbn. by rewrite (proj2 (Z.ltb_ge _ _)) by lia.
  - destruct (snappy_compress payload) as [st|] eqn:E; cbn in Hc; [|done]. injection Hc as <- <-.
    split; [done|]. cbn. rewrite (snappy_len _ _ E). cbn.
    rewrite !(proj2 (Z.ltb_ge _ _)) by lia. by rewrite (snappy_inverse _ _ E).
Qed.

Lemma read_data_block_ok file es segs filter props options n a s b :
  finished file es segs filter props →
  reader_admits options props (kvs_cost (map enc_record es)) → segs = a ++ s :: b →
  ∃ blk ds,
    read_data_block (reader_of file segs filter props (ro_max_uncompressed_data_block_bytes options) n)
      (handle_at (zlen (stored_bytes a)) (sg_stored s)) = Ok blk ∧
    block_chain blk ds ∧ chain_kvs ds = sg_kvs s.
Proof.
  intros Hfin [Hopt _] Hsegs.
  destruct Hfin as [Hkvs _ _ Hok _ _ _ _ _ [Hmax Hmaxs]
    (ipay & blk0 & ds0 & stF & stI & stP & Hfile & _) Hsmall].
  pose proof (stored_bytes_len _ _ Hok) as Hdata. rewrite Hkvs in Hdata.
  set (cost := kvs_cost _) in *. set (limit := ro_max_uncompressed_data_block_bytes options) in *.
  assert (segment_ok (tp_compression props) s ∧ zlen (sg_payload s) ≤ tp_max_data_block_bytes props) as [Hs Hp].
  { rewrite Forall_forall in Hok, Hmaxs. split; [apply Hok|apply Hmaxs]; rewrite Hsegs;
      apply elem_of_app; right; by left. }
  assert (zlen (stored_bytes segs) = zlen (stored_bytes a) + zlen (sg_stored s) + zlen (stored_bytes b)) as Hlen.
  { rewrite Hsegs, stored_bytes_app. unfold stored_bytes at 2. cbn [map concat]. fold (stored_bytes b).
    rewrite !zlen_app. lia. }
  destruct Hs as (_ & (blk & ds & Hdec & Hch & Hds) & (st & m & Hcp & Hst) & Hpl & Hsl).
  exists blk, ds. split; [|done]. zlen_pos. unfold U32_MAX in *.
  unfold read_data_block. cbn [reader_of rd_data_end rd_max_uncompressed_data_block_bytes rd_file
    rd_properties handle_at bh_size].
  rewrite validate_handle_ok by (cbn; unfold U64_MAX; lia).
  pose proof (Z.div_mod limit 6). pose proof (Z.mod_pos_bound limit 6).
  pose proof (Z.div_le_mono (zlen (sg_payload s)) limit 6 ltac:(lia) ltac:(lia)).
  unfold maximum_stored_data_block_bytes, checked_add, USIZE_MAX, U64_MAX, BLOCK_TRAILER_BYTES.
  rewrite (proj2 (Z.leb_le (limit + 32) _)) by lia.
  rewrite (proj2 (Z.leb_le (limit + 32 + limit / 6) _)) by lia.
  rewrite (proj2 (Z.leb_le (limit + 32 + limit / 6 + 5) _)) by lia. cbn [ok_or].
  rewrite (proj2 (Z.ltb_ge _ _)) by lia.
  rewrite (read_exact_range_ok file (stored_bytes a) (sg_stored s)
    (stored_bytes b ++ stF ++ stI ++ stP ++ encode_footer
       (handle_at (zlen (stored_bytes segs) + zlen stF) stI) (handle_at (zlen (stored_bytes segs)) stF)
       (handle_at (zlen (stored_bytes segs) + zlen stF + zlen stI) stP))).
  2:{ rewrite Hfile. cbn zeta. rewrite Hsegs at 1. rewrite stored_bytes_app.
      unfold stored_bytes at 2. cbn [map concat]. fold (stored_bytes b). by rewrite <- !app_assoc. }
  apply decode_encode_stored in Hst as [_ ->].
  destruct (payload_decodes _ _ _ _ limit (tp_max_data_block_bytes props) Hcp ltac:(lia) Hp) as [-> ->].
  rewrite Z.eqb_refl. cbn [negb]. done.
Qed.

(** ** The index *)

Lemma index_of_app o g1 g2 :
  index_of o (g1 ++ g2) = index_of o g1 ++ index_of (o + zlen (stored_bytes (map snd g1))) g2.
Proof.
  revert o. induction g1 as [|[sep s] g1 IH]; intros o; cbn [index_of app map].
  - unfold stored_bytes. cbn. zlen_nils. by rewrite Z.add_0_r.
  - rewrite IH. unfold stored_bytes. cbn [map concat snd]. rewrite zlen_app. by rewrite Z.add_assoc.
Qed.

Lemma with_seps_split a s b :
  ∃ g1 sep g2, with_seps (a ++ s :: b) = g1 ++ (sep, s) :: g2 ∧ map snd g1 = a ∧ map snd g2 = b.
Proof.
  pose proof (with_seps_snd (a ++ s :: b)) as H. apply map_eq_app in H as (g1 & g2 & -> & H1 & H2).
  apply map_eq_cons in H2 as ([sep s'] & g3 & -> & Hs & H3). cbn in Hs. subst s'.
  by exists g1, sep, g3.
Qed.

Lemma index_get a s b :
  ∃ sep, get_at (zlen a) (index_of 0 (with_seps (a ++ s :: b))) =
    Some (sep, handle_at (zlen (stored_bytes a)) (sg_stored s)).
Proof.
  destruct (with_seps_split a s b) as (g1 & sep & g2 & -> & <- & _). exists sep.
  rewrite index_of_app. cbn [index_of]. rewrite Z.add_0_l.
  eapply get_at_drop'; [|zlen_pos; lia]. apply drop_app_z.
  by rewrite <- (zlen_map fst (index_of _ _)), index_of_fst, !zlen_map.
Qed.

(** The separator that [find] stops at, and the entries on both sides of its block. *)
Lemma find_index target gs o :
  groups_ok gs →
  match find (λ x : bytes * BlockHandle, lex_leb target x.1) (index_of o gs) with
  | None => Forall (λ kv : kv, lex_cmp kv.1 target = Lt) (segs_kvs (map snd gs))
  | Some (sep, h) => ∃ g1 s g2, gs = g1 ++ (sep, s) :: g2 ∧
      h = handle_at (o + zlen (stored_bytes (map snd g1))) (sg_stored s) ∧
      lex_leb target sep = true ∧
      Forall (λ kv : kv, lex_cmp kv.1 target = Lt) (segs_kvs (map snd g1)) ∧
      Forall (λ kv : kv, lex_cmp target kv.1 = Lt) (segs_kvs (map snd g2))
  end.
Proof.
  intros H. revert o. induction H as [|sep s rest Hne Hs Hle Hgt Hrest IH]; intros o; [constructor|].
  cbn [index_of find fst]. destruct (lex_leb target sep) eqn:E.
  - exists [], s, rest. cbn. unfold stored_bytes. cbn. rewrite Z.add_0_r.
    do 3 (split; [done|]). split; [constructor|].
    eapply Forall_impl; [exact Hgt|]. cbn. intros x Hx. unfold lex_leb in E.
    apply (cmp_le_lt target sep); [by destruct (lex_cmp target sep)|done].
  - assert (Forall (λ kv : kv, lex_cmp kv.1 target = Lt) (sg_kvs s)) as Hlt.
    { eapply Forall_impl; [exact Hle|]. cbn. intros x Hx. apply (cmp_le_lt x.1 sep); [done|].
      unfold lex_leb in E. rewrite (cmp_antisym (cmp := lex_cmp) target sep). by destruct (lex_cmp target sep). }
    specialize (IH (o + zlen (sg_stored s))). destruct (find _ _) as [[sep' h]|].
    + destruct IH as (g1 & s' & g2 & -> & -> & Hsep & Hb & Ha). exists ((sep, s) :: g1), s', g2.
      split; [done|]. split.
      { unfold stored_bytes. cbn [map concat snd]. rewrite zlen_app. f_equal. lia. }
      split; [done|]. split; [|done]. unfold segs_kvs. cbn [map concat snd]. apply Forall_app. by split.
    + unfold segs_kvs. cbn [map concat snd]. apply Forall_app. by split.
Qed.

(** The separator of a block whose next block starts with [u], but which holds
    nothing of [u] itself, is below every seek key of [u]. *)
Lemma separator_below_seek u u' s s' kd kd' q :
  bytes_ok u → bytes_ok u' → u' ≠ u →
  let l := encode_key u' s' kd' in
  let f := encode_key u s kd in
  let target := encode_key u q Deletion in
  lex_cmp l target = Lt → lex_cmp (shortest_separator l f) target = Lt.
Proof.
  intros Hu Hu' Hne l f target Hlt. unfold shortest_separator.
  destruct (shared_prefix_split l f) as [_ Hsp].
  destruct (get_at _ l) as [b|]; [|done]. destruct (get_at _ f) as [y|]; [|done].
  destruct Hsp as (_ & l' & f' & Hl & Hf). destruct (_ && _) eqn:E; [|done]. to_prop.
  set (p := take _ l) in *. clearbody p.
  assert (∀ k, l = (escape u ++ [0; 0]) ++ k → False) as Hnot.
  { intros k Hk. apply Hne. unfold l in Hk. rewrite encode_key_split, <- app_assoc in Hk. cbn [app] in Hk.
    pose proof (escape_cmp u' u (to_be 8 (not64 s') ++ [ValueKind_byte kd']) k Hu' Hu) as Hc.
    rewrite Hk, lex_cmp_refl in Hc. apply lex_cmp_eq. by destruct (lex_cmp u' u). }
  assert (f = (escape u ++ [0; 0]) ++ to_be 8 (not64 s) ++ [ValueKind_byte kd]) as Hf'
    by (unfold f; by rewrite encode_key_split, <- app_assoc).
  rewrite Hf' in Hf. apply app_eq_inv in Hf as [(k & Hp1 & Hp2)|(k & Hp1 & Hp2)].
  - destruct k as [|y' k]; [exfalso; apply (Hnot (b :: l')); by rewrite Hp1, app_nil_r|].
    injection Hp2 as -> Hp2. unfold target.
    rewrite encode_key_split. change (0 :: 0 :: ?t) with ([0; 0] ++ t). rewrite app_assoc, Hp1, <- app_assoc.
    rewrite lex_cmp_app_l. cbn. by rewrite (proj2 (Z.compare_lt_iff (b + 1) y')) by lia.
  - exfalso. apply (Hnot (k ++ b :: l')). by rewrite Hl, Hp1, <- !app_assoc.
Qed.

Lemma with_seps_last segs g1 sep s g2 n g3 :
  with_seps segs = g1 ++ (sep, s) :: g2 → map snd g2 = n :: g3 →
  sep = shortest_separator (default [] (final_key (sg_kvs s))) (default [] (first_key (sg_kvs n))).
Proof.
  revert g1. induction segs as [|s0 segs IH]; intros g1 H Hg2; [by destruct g1|].
  cbn [with_seps] in H. destruct g1 as [|x g1].
  - injection H as Hsep -> Hrest. assert (segs = n :: g3) as ->.
    { by rewrite <- Hg2, <- Hrest, with_seps_snd. }
    done.
  - injection H as _ H. by apply (IH g1).
Qed.

Lemma find_sorted_exact l (x : kv) :
  kvs_sorted l → x ∈ l → find (λ kv, lex_leb x.1 kv.1) l = Some x.
Proof.
  induction 1 as [|y l Hs IH Hall]; intros Hx; [by apply elem_of_nil in Hx|]. cbn [find].
  apply elem_of_cons in Hx as [->|Hx]; [by rewrite lex_leb_refl|].
  rewrite Forall_forall in Hall. specialize (Hall _ Hx). unfold lex_leb at 1.
  by rewrite (cmp_lt_gt (cmp := lex_cmp) _ _ Hall), IH.
Qed.

Lemma find_sorted_some l target (x : kv) :
  kvs_sorted l → find (λ kv, lex_leb target kv.1) l = Some x →
  x ∈ l ∧ lex_cmp target x.1 ≠ Gt ∧
  ∀ y, y ∈ l → lex_cmp target y.1 ≠ Gt → lex_cmp x.1 y.1 ≠ Gt.
Proof.
  induction 1 as [|z l Hs IH Hall]; [done|]. cbn [find].
  destruct (lex_leb target z.1) eqn:E.
  - intros [= ->]. split; [by left|]. split; [by apply lex_leb_le|].
    intros y Hy _. apply elem_of_cons in Hy as [->|Hy]; [by rewrite lex_cmp_refl|].
    rewrite Forall_forall in Hall. by rewrite (Hall _ Hy).
  - intros H. destruct (IH H) as (Hx & Ht & Hmin). split; [by right|]. split; [done|].
    intros y Hy Hty. apply elem_of_cons in Hy as [->|Hy]; [|auto].
    apply lex_leb_le in Hty. congruence.
Qed.

Lemma find_none_lt l target :
  find (λ kv : kv, lex_leb target kv.1) l = None → Forall (λ kv, lex_cmp kv.1 target = Lt) l.
Proof.
  intros H. apply Forall_forall. intros x Hx. apply list_elem_of_In in Hx.
  apply (find_none _ _ H) in Hx. unfold lex_leb in Hx.
  rewrite (cmp_antisym (cmp := lex_cmp) target). by destruct (lex_cmp target x.1).
Qed.

(** ** Lookups in a finished table *)

Section Table.
  Context (file : bytes) (es : list record) (segs : list segment) (filter : BloomFilter)
    (props : TableProperties) (options : TableReaderOptions) (n : option Z).
  Context (Hfin : finished file es segs filter props)
    (Hopt : reader_admits options props (kvs_cost (map enc_record es))).

Let r := reader_of file segs filter props (ro_max_uncompressed_data_block_bytes options) n.

Lemma fin_groups : groups_ok (with_seps segs).
Proof using Hfin.
  apply with_seps_ok.
  - eapply Forall_impl; [exact (fin_segs _ _ _ _ _ Hfin)|]. by intros ? (? & _).
  - rewrite (fin_kvs _ _ _ _ _ Hfin). exact (fin_sorted _ _ _ _ _ Hfin).
Qed.

(** What [find] and the block's [seek] see of the whole table: everything before
    the chosen block is below the target and everything behind it is above. *)
Lemma table_seek target :
  match find_handle r target with
  | None => Forall (λ kv : kv, lex_cmp kv.1 target = Lt) (map enc_record es)
  | Some h => ∃ before s after blk sep g1 g2,
      map enc_record es = before ++ sg_kvs s ++ after ∧
      read_data_block r h = Ok blk ∧
      Block_seek blk target = Ok (find (λ kv, lex_leb target kv.1) (sg_kvs s)) ∧
      Forall (λ kv : kv, lex_cmp kv.1 target = Lt) before ∧
      Forall (λ kv : kv, lex_cmp target kv.1 = Lt) after ∧
      lex_leb target sep = true ∧ with_seps segs = g1 ++ (sep, s) :: g2 ∧ after = segs_kvs (map snd g2)
  end.
Proof using Hfin Hopt CR SL.
  unfold find_handle. cbn [r reader_of rd_index]. pose proof (find_index target _ 0 fin_groups) as H.
  destruct (find _ _) as [[sep h]|]; cbn.
  - destruct H as (g1 & s & g2 & Hg & -> & Hsep & Hb & Ha). rewrite Z.add_0_l.
    assert (segs = map snd g1 ++ s :: map snd g2) as Hs.
    { rewrite <- (with_seps_snd segs), Hg, map_app. done. }
    destruct (read_data_block_ok _ _ _ _ _ options n _ _ _ Hfin Hopt Hs) as (blk & ds & Hr & Hch & Hds).
    exists (segs_kvs (map snd g1)), s, (segs_kvs (map snd g2)), blk, sep, g1, g2.
    split; [|split; [exact Hr|split; [by rewrite (Block_seek_chain _ _ _ Hch), Hds|done]]].
    rewrite <- (fin_kvs _ _ _ _ _ Hfin). rewrite Hs at 1. rewrite segs_kvs_app.
    unfold segs_kvs at 2. done.
  - rewrite with_seps_snd, (fin_kvs _ _ _ _ _ Hfin) in H. exact H.
Qed.

(** ** Iteration *)

Lemma next_entry k v kvs i fuel :
  next_table_entry fuel r {| ti_block_index := i; ti_entries := (k, v) :: kvs; ti_failed := false |} =
    match InternalKey_decode k with
    | Ok key => (Some (Ok (key, v)), {| ti_block_index := i; ti_entries := kvs; ti_failed := false |})
    | Err e => (Some (Err e), {| ti_block_index := i; ti_entries := kvs; ti_failed := true |})
    end.
Proof. by destruct fuel. Qed.

Lemma collect_ok fuel kvs a b rest :
  segs = a ++ b → kvs ++ segs_kvs b = map enc_record rest → Forall (λ e, key_wf e.1) rest →
  (length rest < fuel)%nat →
  table_collect fuel r {| ti_block_index := zlen a; ti_entries := kvs; ti_failed := false |} = Ok rest.
Proof using Hfin Hopt CR SL.
  revert kvs a b rest. induction fuel as [|fuel IH]; intros kvs a b rest Hs Hk Hwf Hf; [lia|].
  assert (∀ k v kvs a b, segs = a ++ b → (k, v) :: kvs ++ segs_kvs b = map enc_record rest →
    (let? kv := match InternalKey_decode k with
       | Ok key => Ok (key, v) | Err e => Err e end in
     let? rest := table_collect fuel r {| ti_block_index := zlen a; ti_entries := kvs; ti_failed := false |} in
     Ok (kv :: rest)) = Ok rest) as Hstep.
  { intros k v kvs' a' b' Hs' Hk'. destruct rest as [|[key v'] rest]; [done|]. cbn in Hk'.
    injection Hk' as -> -> Hk'. apply Forall_cons in Hwf as [Hkey Hwf]. cbn in Hkey, Hf.
    rewrite (key_wf_decode _ Hkey), (IH _ _ _ _ Hs' Hk' Hwf ltac:(lia)). done. }
  cbn [table_collect]. unfold TableIter_next. destruct kvs as [|[k v] kvs].
  - destruct b as [|s b].
    + destruct rest; [|done]. cbn [next_table_entry ti_failed ti_entries ti_block_index].
      rewrite app_nil_r in Hs. cbn [r reader_of rd_index]. rewrite <- Hs. unfold get_at.
      pose proof (zlen_nonneg segs). rewrite (proj2 (Z.ltb_ge _ _)) by lia.
      rewrite lookup_ge_None_2; [done|]. pose proof (zlen_index 0 segs) as Hz. unfold zlen in *. lia.
    + destruct (index_get a s b) as [sep Hg].
      destruct (read_data_block_ok _ _ _ _ _ options n _ _ _ Hfin Hopt Hs) as (blk & ds & Hr & Hch & Hds).
      cbn [next_table_entry ti_failed ti_entries ti_block_index]. fold r in Hr.
      replace (get_at (zlen a) (rd_index r)) with
        (Some (sep, handle_at (zlen (stored_bytes a)) (sg_stored s))) by (cbn [r reader_of rd_index]; by rewrite Hs).
      rewrite Hr, (Block_entries_chain _ _ Hch), Hds.
      unfold segs_kvs in Hk. cbn [map concat app] in Hk. fold (segs_kvs b) in Hk.
      assert (sg_kvs s ≠ []) as Hne.
      { pose proof (fin_segs _ _ _ _ _ Hfin) as Hok. rewrite Hs, Forall_app, Forall_cons in Hok.
        by destruct Hok as (_ & (? & _) & _). }
      destruct (sg_kvs s) as [|[k v] kvs]; [done|]. rewrite next_entry.
      assert (zlen a + 1 = zlen (a ++ [s])) as -> by zlen_lia.
      specialize (Hstep k v kvs (a ++ [s]) b ltac:(by rewrite <- app_assoc) Hk).
      by destruct (InternalKey_decode k).
  - rewrite next_entry. specialize (Hstep k v kvs a b Hs Hk). by destruct (InternalKey_decode k).
Qed.

(** ** Exact lookups *)

Lemma elem_enc e : e ∈ es → enc_record e ∈ map enc_record es.
Proof. intros He. by apply list_elem_of_fmap_2. Qed.

Lemma enc_elem k v :
  key_wf k → (ik_encoded k, v) ∈ map enc_record es → (k, v) ∈ es.
Proof using Hfin.
  intros Hk Hin. apply list_elem_of_fmap in Hin as ([k' v'] & [= Hk' ->] & Hin).
  pose proof (elem_of_Forall _ _ _ (fin_keys _ _ _ _ _ Hfin) Hin) as Hwf. cbn in Hwf.
  rewrite (key_wf_cmp_eq k k'); [done|done|done|].
  unfold InternalKey_cmp. rewrite Hk'. apply lex_cmp_refl.
Qed.

Lemma get_exact key :
  key_wf key → ∃ o, TableReader_get r key = Ok o ∧ ∀ v, o = Some v ↔ (key, v) ∈ es.
Proof using Hfin Hopt CR SL.
  intros Hk. unfold TableReader_get, TableReader_may_contain. cbn [r reader_of rd_user_key_filter rd_filter].
  fold r. destruct (may_contain_total filter (ik_user_key key) (fin_filter _ _ _ _ _ Hfin)) as [[] Hm]; rewrite Hm; cbn [negb].
  2:{ exists None. split; [done|]. intros v. split; [done|]. intros Hin.
      pose proof (elem_of_Forall _ _ _ (fin_members _ _ _ _ _ Hfin) Hin) as Hin'. cbn in Hin'. congruence. }
  pose proof (table_seek (ik_encoded key)) as Hseek. destruct (find_handle r (ik_encoded key)) as [h|].
  2:{ exists None. split; [done|]. intros v. split; [done|]. intros Hin%elem_enc.
      pose proof (elem_of_Forall _ _ _ Hseek Hin) as Hlt. cbn in Hlt. by rewrite lex_cmp_refl in Hlt. }
  destruct Hseek as (before & s & after & blk & sep & g1 & g2 & Hall & -> & -> & Hb & Ha & _).
  eexists. split; [done|]. intros v.
  assert (kvs_sorted (sg_kvs s)) as Hss.
  { pose proof (fin_sorted _ _ _ _ _ Hfin) as Hs. rewrite Hall in Hs.
    apply kvs_sorted_app_inv in Hs as (_ & Hs & _). by apply kvs_sorted_app_inv in Hs as (? & _). }
  split.
  - intros Hfound. destruct (find _ (sg_kvs s)) as [[k' v']|] eqn:Ef; [|done].
    apply find_sorted_some in Ef as (Hin & _); [|done].
    destruct (lex_eqb k' (ik_encoded key)) eqn:Ee; [|done]. injection Hfound as ->.
    apply lex_eqb_eq in Ee. subst k'. apply enc_elem; [done|]. rewrite Hall.
    apply elem_of_app. right. apply elem_of_app. by left.
  - intros Hin%elem_enc. cbn in Hin. rewrite Hall, !elem_of_app in Hin. destruct Hin as [Hin|[Hin|Hin]].
    + pose proof (elem_of_Forall _ _ _ Hb Hin) as Hlt. cbn in Hlt. by rewrite lex_cmp_refl in Hlt.
    + pose proof (find_sorted_exact _ _ Hss Hin) as Hx. cbn [enc_record fst snd] in Hx.
      rewrite Hx. unfold enc_record. cbn [fst snd]. by rewrite lex_eqb_refl.
    + pose proof (elem_of_Forall _ _ _ Ha Hin) as Hlt. cbn in Hlt. by rewrite lex_cmp_refl in Hlt.
Qed.

(** ** Versioned lookups *)

(** [o] is the record a read of [u] at sequence [q] must find. *)
Definition record_newest (u : bytes) (q : Z) (es : list record) (o : option record) : Prop :=
  match o with
  | Some e => e ∈ es ∧ ik_user_key e.1 = u ∧ InternalKey_sequence e.1 ≤ q ∧
      ∀ e', e' ∈ es → ik_user_key e'.1 = u → InternalKey_sequence e'.1 ≤ q →
        InternalKey_sequence e'.1 ≤ InternalKey_sequence e.1
  | None => ∀ e', e' ∈ es → ik_user_key e'.1 = u → q < InternalKey_sequence e'.1
  end.

(** A stored key against a seek key. *)
Lemma seek_key_cmp (e : record) u q :
  key_wf e.1 → bytes_ok u → seq_ok q →
  lex_cmp (encode_key u q Deletion) (ik_encoded e.1) ≠ Gt ↔
    lex_cmp u (ik_user_key e.1) = Lt ∨ ik_user_key e.1 = u ∧ InternalKey_sequence e.1 ≤ q.
Proof.
  intros (u' & s & kd & Hu' & Hs & He) Hu Hq. rewrite He, sequence_mk_key by done.
  cbn [mk_key ik_encoded ik_user_key]. rewrite encode_key_cmp by done. unfold version_cmp.
  destruct (lex_cmp u u') eqn:Ec.
  - apply lex_cmp_eq in Ec. subst u'. destruct (Z.compare_spec s q); split; intros H1.
    + right. split; [done|lia]. + by destruct kd. + right. split; [done|lia]. + done.
    + done. + destruct H1 as [H1|[_ H1]]; [done|lia].
  - split; [by left|done].
  - split; [done|]. intros [H|[-> _]]; [done|]. by rewrite lex_cmp_refl in Ec.
Qed.

(** The order of two stored keys of one user key. *)
Lemma key_order_seq (e e' : record) :
  key_wf e.1 → key_wf e'.1 → ik_user_key e.1 = ik_user_key e'.1 →
  lex_cmp (ik_encoded e.1) (ik_encoded e'.1) ≠ Gt →
  InternalKey_sequence e'.1 ≤ InternalKey_sequence e.1.
Proof.
  intros (u1 & s1 & k1 & Hu1 & Hs1 & ->) (u2 & s2 & k2 & Hu2 & Hs2 & ->).
  rewrite !sequence_mk_key by done. cbn [mk_key ik_encoded ik_user_key]. intros ->.
  rewrite encode_key_cmp by done. unfold version_cmp. rewrite lex_cmp_refl.
  destruct (Z.compare_spec s2 s1); try done; lia.
Qed.

Lemma key_order_user (e e' : record) :
  key_wf e.1 → key_wf e'.1 → lex_cmp (ik_encoded e.1) (ik_encoded e'.1) ≠ Gt →
  lex_cmp (ik_user_key e.1) (ik_user_key e'.1) ≠ Gt.
Proof.
  intros (u1 & s1 & k1 & Hu1 & Hs1 & ->) (u2 & s2 & k2 & Hu2 & Hs2 & ->).
  cbn [mk_key ik_encoded ik_user_key]. rewrite encode_key_cmp by done. unfold version_cmp.
  by destruct (lex_cmp u1 u2).
Qed.

(** The first stored key at or above the seek key of [u] decides the read. *)
Lemma first_at_seek u q (x : record) :
  bytes_ok u → seq_ok q → x ∈ es → lex_cmp (encode_key u q Deletion) (ik_encoded x.1) ≠ Gt →
  (∀ e, e ∈ es → lex_cmp (encode_key u q Deletion) (ik_encoded e.1) ≠ Gt →
    lex_cmp (ik_encoded x.1) (ik_encoded e.1) ≠ Gt) →
  record_newest u q es (if lex_eqb (ik_user_key x.1) u then Some x else None) ∧
  (ik_user_key x.1 = u → InternalKey_sequence x.1 ≤ q).
Proof using Hfin.
  intros Hu Hq Hx Hxs Hmin.
  assert (∀ e, e ∈ es → key_wf e.1) as Hwf.
  { intros e He. exact (elem_of_Forall _ _ _ (fin_keys _ _ _ _ _ Hfin) He). }
  apply seek_key_cmp in Hxs; [|auto..].
  assert (ik_user_key x.1 = u → InternalKey_sequence x.1 ≤ q) as Hseq.
  { intros Hxu. destruct Hxs as [Hlt|[_ ?]]; [|done]. by rewrite Hxu, lex_cmp_refl in Hlt. }
  split; [|done]. destruct (lex_eqb (ik_user_key x.1) u) eqn:Eu.
  - apply lex_eqb_eq in Eu. split; [done|]. split; [done|]. split; [auto|].
    intros e' He' Hu' Hq'. apply key_order_seq; [auto|auto|congruence|].
    apply Hmin; [done|]. apply seek_key_cmp; auto.
  - intros e' He' Hu'. destruct (Z.lt_ge_cases q (InternalKey_sequence e'.1)) as [|Hq']; [done|].
    exfalso. assert (lex_cmp (encode_key u q Deletion) (ik_encoded e'.1) ≠ Gt) as Hse
      by (apply seek_key_cmp; auto).
    specialize (Hmin e' He' Hse). apply key_order_user in Hmin; [|auto..]. rewrite Hu' in Hmin.
    destruct Hxs as [Hlt|[Hxu _]]; [|by rewrite Hxu, lex_eqb_refl in Eu].
    apply Hmin. by apply (cmp_lt_gt (cmp := lex_cmp)).
Qed.

(** [q] covers every version of [u] that the table holds. *)
Definition covers_all (u : bytes) (q : Z) (es : list record) : Prop :=
  ∀ e, e ∈ es → ik_user_key e.1 = u → InternalKey_sequence e.1 ≤ q.

(** A block chosen for the seek key of [u], with nothing at or above it: then no
    record of [u] starts the next block, unless one of its versions is above [q]. *)
Lemma no_split_before u q g1 sep s g2 before :
  bytes_ok u → seq_ok q → covers_all u q es →
  with_seps segs = g1 ++ (sep, s) :: g2 →
  map enc_record es = before ++ sg_kvs s ++ segs_kvs (map snd g2) →
  Forall (λ kv : kv, lex_cmp kv.1 (encode_key u q Deletion) = Lt) before →
  Forall (λ kv : kv, lex_cmp kv.1 (encode_key u q Deletion) = Lt) (sg_kvs s) →
  Forall (λ kv : kv, lex_cmp (encode_key u q Deletion) kv.1 = Lt) (segs_kvs (map snd g2)) →
  lex_leb (encode_key u q Deletion) sep = true →
  ∀ e, e ∈ es → ik_user_key e.1 ≠ u.
Proof using Hfin.
  intros Hu Hq Hcov Hseps Hall Hb Hs Ha Hsep e He Heu. set (target := encode_key u q Deletion) in *.
  assert (∀ x, x ∈ map enc_record es → ∃ e, e ∈ es ∧ key_wf e.1 ∧ x = enc_record e) as Hel.
  { intros x Hx. apply list_elem_of_fmap in Hx as (e' & -> & He'). exists e'. split; [done|].
    split; [|done]. exact (elem_of_Forall _ _ _ (fin_keys _ _ _ _ _ Hfin) He'). }
  assert (key_wf e.1) as Hwe by exact (elem_of_Forall _ _ _ (fin_keys _ _ _ _ _ Hfin) He).
  assert (lex_cmp target (ik_encoded e.1) ≠ Gt) as Het by (apply seek_key_cmp; auto).
  pose proof (elem_enc _ He) as Hin. rewrite Hall, !elem_of_app in Hin.
  assert (∀ l, Forall (λ kv : kv, lex_cmp kv.1 target = Lt) l → enc_record e ∉ l) as Hlow.
  { intros l Hl Hx. pose proof (elem_of_Forall _ _ _ Hl Hx) as Hlt. cbn in Hlt.
    by apply Het, (cmp_lt_gt (cmp := lex_cmp)). }
  destruct Hin as [Hin|[Hin|Hin]]; [by apply (Hlow _ Hb)|by apply (Hlow _ Hs)|].
  destruct (map snd g2) as [|nx g3] eqn:Eg; [by apply elem_of_nil in Hin|].
  rewrite (with_seps_last _ _ _ _ _ _ _ Hseps Eg) in Hsep.
  (* the block's last record and the next block's first *)
  assert (∀ s', s' ∈ segs → sg_kvs s' ≠ []) as Hsne.
  { intros s' Hs'. by destruct (elem_of_Forall _ _ _ (fin_segs _ _ _ _ _ Hfin) Hs'). }
  assert (segs = map snd g1 ++ s :: nx :: g3) as Hsegs by (rewrite <- (with_seps_snd segs), Hseps, map_app; cbn; by rewrite Eg).
  destruct (final_key_elem (sg_kvs s)) as (l & Hl & Hlk); [apply Hsne; rewrite Hsegs, elem_of_app, !elem_of_cons; tauto|].
  destruct (sg_kvs nx) as [|f fs] eqn:En; [by destruct (Hsne nx ltac:(rewrite Hsegs, elem_of_app, !elem_of_cons; tauto))|].
  rewrite Hlk in Hsep. unfold first_key in Hsep. cbn in Hsep.
  assert (f ∈ segs_kvs (nx :: g3)) as Hfin2 by (unfold segs_kvs; cbn; rewrite En; by left).
  destruct (Hel l) as (el & Hel1 & Hwl & ->); [rewrite Hall, !elem_of_app; tauto|].
  destruct (Hel f) as (ef & Hef1 & Hwf & ->); [rewrite Hall, !elem_of_app; tauto|].
  pose proof (elem_of_Forall _ _ _ Hs Hl) as Hlt. pose proof (elem_of_Forall _ _ _ Ha Hfin2) as Hft.
  cbn [enc_record fst] in Hlt, Hft, Hsep.
  assert (ik_user_key el.1 ≠ u) as Hlu.
  { intros Hlu. assert (lex_cmp target (ik_encoded el.1) ≠ Gt) as Hx by (apply seek_key_cmp; auto).
    by apply Hx, (cmp_lt_gt (cmp := lex_cmp)). }
  assert (ik_user_key ef.1 = u) as Hfu.
  { assert (lex_cmp (ik_encoded ef.1) (ik_encoded e.1) ≠ Gt) as Hle.
    { pose proof (fin_sorted _ _ _ _ _ Hfin) as Hsort. rewrite Hall in Hsort.
      apply kvs_sorted_app_inv in Hsort as (_ & Hsort & _). apply kvs_sorted_app_inv in Hsort as (_ & Hsort & _).
      unfold segs_kvs in Hsort, Hin. cbn [map concat] in Hsort, Hin. rewrite En in Hsort, Hin. cbn [app] in Hsort, Hin.
      apply StronglySorted_inv in Hsort as [_ Hhd]. apply elem_of_cons in Hin as [Heq|Hin].
      - unfold enc_record in Heq. injection Heq as -> _. by rewrite lex_cmp_refl.
      - pose proof (elem_of_Forall _ _ _ Hhd Hin) as Hx. cbn in Hx. by rewrite Hx. }
    apply key_order_user in Hle; [|done..]. rewrite Heu in Hle.
    assert (lex_cmp target (ik_encoded ef.1) ≠ Gt) as Hx by (by rewrite Hft).
    apply seek_key_cmp in Hx as [Hx|[Hx _]]; [|done..].
    exfalso. by apply Hle, (cmp_lt_gt (cmp := lex_cmp)). }
  destruct Hwl as (ul & sl & kl & Hul & _ & Hel2). destruct Hwf as (uf & sf & kf & Huf & _ & Hef2).
  rewrite Hel2, Hef2 in *. cbn [mk_key ik_user_key ik_encoded] in *. subst uf.
  apply lex_leb_le in Hsep. pose proof (separator_below_seek u ul sf sl kf kl q Hu Hul Hlu Hlt) as Hlt2.
  by apply Hsep, (cmp_lt_gt (cmp := lex_cmp)).
Qed.

Definition lookup_record (l : TableLookup) : option record :=
  match l with Found k v => Some (k, v) | _ => None end.

Lemma get_visible_ok u q :
  bytes_ok u → seq_ok q →
  ∃ l, get_visible r u q = Ok l ∧
    match lookup_record l with
    | Some e => record_newest u q es (Some e)
    | None => covers_all u q es → ∀ e, e ∈ es → ik_user_key e.1 ≠ u
    end.
Proof using Hfin Hopt CR SL.
  intros Hu Hq. unfold get_visible. cbn [r reader_of rd_user_key_filter rd_filter]. fold r.
  destruct (may_contain_total filter u (fin_filter _ _ _ _ _ Hfin)) as [[] Hm]; rewrite Hm; cbn [negb].
  2:{ exists BloomNegative. split; [done|]. cbn. intros _ e He Heu.
      pose proof (elem_of_Forall _ _ _ (fin_members _ _ _ _ _ Hfin) He) as Hx. cbn in Hx. congruence. }
  unfold InternalKey_deletion. rewrite try_new_mk_key by done. cbn [expect mk_key ik_encoded].
  set (target := encode_key u q Deletion). pose proof (table_seek target) as Hseek.
  destruct (find_handle r target) as [h|].
  2:{ exists Absent. split; [done|]. cbn. intros Hcov e He Heu.
      pose proof (elem_of_Forall _ _ _ Hseek (elem_enc _ He)) as Hlt. cbn in Hlt.
      assert (lex_cmp target (ik_encoded e.1) ≠ Gt) as Hx.
      { apply seek_key_cmp; auto. exact (elem_of_Forall _ _ _ (fin_keys _ _ _ _ _ Hfin) He). }
      by apply Hx, (cmp_lt_gt (cmp := lex_cmp)). }
  destruct Hseek as (before & s & after & blk & sep & g1 & g2 & Hall & -> & -> & Hb & Ha & Hsep & Hseps & ->).
  pose proof (fin_sorted _ _ _ _ _ Hfin) as Hsort. rewrite Hall in Hsort.
  apply kvs_sorted_app_inv in Hsort as (_ & Hsort & _). apply kvs_sorted_app_inv in Hsort as (Hss & _ & Hsa).
  destruct (find _ (sg_kvs s)) as [x|] eqn:Ef.
  2:{ exists Absent. split; [done|]. cbn. intros Hcov. apply find_none_lt in Ef.
      by apply (no_split_before u q g1 sep s g2 before). }
  apply find_sorted_some in Ef as (Hx & Hxt & Hmin); [|done].
  assert (x ∈ map enc_record es) as Hxa by (rewrite Hall, !elem_of_app; tauto).
  apply list_elem_of_fmap in Hxa as (e & -> & He). cbn [enc_record fst] in *.
  pose proof (elem_of_Forall _ _ _ (fin_keys _ _ _ _ _ Hfin) He) as Hwf. cbn in Hwf.
  rewrite (key_wf_decode _ Hwf).
  destruct (first_at_seek u q e Hu Hq He Hxt) as [Hnew Hseq].
  { intros e' He' Ht. pose proof (elem_enc _ He') as Hin. rewrite Hall, !elem_of_app in Hin.
    destruct Hin as [Hin|[Hin|Hin]].
    - pose proof (elem_of_Forall _ _ _ Hb Hin) as Hlt. cbn in Hlt. exfalso. by apply Ht, (cmp_lt_gt (cmp := lex_cmp)).
    - by apply (Hmin (enc_record e')).
    - pose proof (Hsa _ _ Hx Hin) as Hlt. cbn in Hlt. by rewrite Hlt. }
  destruct (lex_eqb (ik_user_key e.1) u) eqn:Eu; cbn [negb orb].
  - apply lex_eqb_eq in Eu. rewrite (proj2 (Z.ltb_ge _ _)) by auto. eexists. split; [done|]. by destruct e.
  - exists Absent. split; [done|]. cbn. intros Hcov e' He' Heu'. specialize (Hnew e' He' Heu').
    specialize (Hcov e' He' Heu'). lia.
Qed.

End Table.

(** ** Properties *)


(** Exact lookups: in a built table, [get] finds the value of every stored
    internal key and nothing for any other key. *)
Theorem table_get_exact n bb ri bpk c es options key :
  table_config n bb ri bpk → table_records es →
  options_admit options (kvs_cost (map enc_record es)) → key_wf key →
  ∃ res file r o, build_table n bb ri bpk c es = Ok (res, file) ∧
    open_internal file options (Some n) = Ok r ∧
    TableReader_get r key = Ok o ∧ ∀ v, o = Some v ↔ (key, v) ∈ es.
Proof.
  intros Hcfg Hes Hopt Hk. destruct (build_ok n bb ri bpk c es Hcfg Hes)
    as (file & segs & f & props & a & z & Ha & Hz & Hb & Hfin & Hn).
  apply (options_admit_reader _ _ _ _ _ _ Hfin) in Hopt.
  destruct (get_exact file es segs f props options (Some n) Hfin Hopt key Hk) as (o & Ho & Hspec).
  eexists _, file, _, o. split; [exact Hb|].
  split; [apply (open_ok _ _ _ _ _ _ _ Hfin Hopt); right; by rewrite Hn|]. by split.
Qed.

(** [C22] Versioned lookups in a built table: a version that is found is the
    newest one visible at the sequence, and when the sequence covers every
    version of the user key in the table, a version that exists is found. *)
Theorem table_get_visible n bb ri bpk c es options u q :
  table_config n bb ri bpk → table_records es →
  options_admit options (kvs_cost (map enc_record es)) → bytes_ok u → seq_ok q →
  ∃ res file r l, build_table n bb ri bpk c es = Ok (res, file) ∧
    open_internal file options (Some n) = Ok r ∧ get_visible r u q = Ok l ∧
    (∀ e, lookup_record l = Some e → record_newest u q es (Some e)) ∧
    (covers_all u q es → record_newest u q es (lookup_record l)).
Proof.
  intros Hcfg Hes Hopt Hu Hq. destruct (build_ok n bb ri bpk c es Hcfg Hes)
    as (file & segs & f & props & a & z & Ha & Hz & Hb & Hfin & Hn).
  apply (options_admit_reader _ _ _ _ _ _ Hfin) in Hopt.
  destruct (get_visible_ok file es segs f props options (Some n) Hfin Hopt u q Hu Hq) as (l & Hl & Hspec).
  eexists _, file, _, l. split; [exact Hb|].
  split; [apply (open_ok _ _ _ _ _ _ _ Hfin Hopt); right; by rewrite Hn|]. split; [exact Hl|].
  destruct (lookup_record l) as [e|] eqn:E; split; try done.
  - by intros e' [= <-].
  - intros Hcov e He Heu. by destruct (Hspec Hcov e He Heu).
Qed.

End Lookups.

(** ** Witnesses *)

Definition sample_records : list record :=
  [(mk_key [97] 5 Value, [1; 2]); (mk_key [97] 3 Deletion, []); (mk_key [98; 0] 4 Value, [7])].

Lemma sample_records_ok : table_records sample_records.
Proof.
  split; [done|]. split; [|split; [|by vm_compute]].
  - repeat constructor; cbn; apply mk_key_wf; eval_done.
  - unfold sample_records. cbn [map]. repeat constructor.
Qed.

Lemma sample_options_ok :
  options_admit TableReaderOptions_default (kvs_cost (map enc_record sample_records)).
Proof. split; vm_compute; [split|]; done. Qed.


(** An instance. *)
Lemma table_get_exact_witness :
  ∃ res file r o, @build_table Castagnoli.crc identity_snappy 1 16 2 10 CompressionSnappy sample_records = Ok (res, file) ∧
    @open_internal Castagnoli.crc file TableReaderOptions_default (Some 1) = Ok r ∧
    @TableReader_get Castagnoli.crc identity_snappy r (mk_key [97] 3 Deletion) = Ok o ∧
    ∀ v, o = Some v ↔ (mk_key [97] 3 Deletion, v) ∈ sample_records.
Proof.
  apply (@table_get_exact Castagnoli.crc castagnoli_range identity_snappy identity_snappy_laws
    1 16 2 10 CompressionSnappy sample_records TableReaderOptions_default (mk_key [97] 3 Deletion));
    [by repeat split|apply sample_records_ok|apply sample_options_ok|apply mk_key_wf; eval_done].
Defined.

(** Witness of C22. *)
Lemma table_get_visible_witness :
  ∃ res file r l, @build_table Castagnoli.crc identity_snappy 1 16 2 10 CompressionSnappy sample_records = Ok (res, file) ∧
    @open_internal Castagnoli.crc file TableReaderOptions_default (Some 1) = Ok r ∧
    @get_visible Castagnoli.crc identity_snappy r [97] 6 = Ok l ∧
    (∀ e, lookup_record l = Some e → record_newest [97] 6 sample_records (Some e)) ∧
    (covers_all [97] 6 sample_records → record_newest [97] 6 sample_records (lookup_record l)).
Proof.
  apply (@table_get_visible Castagnoli.crc castagnoli_range identity_snappy identity_snappy_laws
    1 16 2 10 CompressionSnappy sample_records TableReaderOptions_default [97] 6);
    [by repeat split|apply sample_records_ok|apply sample_options_ok|eval_done|eval_done].
Defined.

(** [C38] A snapshot read can miss a visible version: in a table whose first block
    ends with version 65151 of a key and whose second block starts with version
    64255, the separator between them is above the seek key of sequence 65135, so
    the lookup stops in the first block and reports the key as absent although
    version 64255 is visible. *)
Theorem get_visible_misses_next_block :
  ∃ res file r,
    @build_table Castagnoli.crc identity_snappy 1 16 16 10 CompressionNone
      [(mk_key [107] 65151 Value, [1]); (mk_key [107] 64255 Value, [2])] = Ok (res, file) ∧
    @open_internal Castagnoli.crc file TableReaderOptions_default (Some 1) = Ok r ∧
    @get_visible Castagnoli.crc identity_snappy r [107] 65135 = Ok Absent ∧
    @get_visible Castagnoli.crc identity_snappy r [107] 64255 =
      Ok (Found (mk_key [107] 64255 Value) [2]).
Proof.
  eexists _, _, _. split; [vm_compute; reflexivity|]. split; [vm_compute; reflexivity|].
  split; vm_compute; reflexivity.
Qed.
