(* ===== verification/TableStore.v ===== *)
(** * Tables of the engine

    What a flush and a compaction write and what reads rely on: a table with
    engine-value encoding as a file that holds a list of entries, its iterator as
    the list of items [next] returns, and the calls that build, install and
    publish a table file on the crash-sensitive file system.  The bytes one call
    of the builder appends reach the file in one write. *)

From Stdlib Require Import ZArith Lia Sorting.Sorted.
From stdpp Require Import base list gmap strings.
From S2P Require Import Prelude Fs Checksum InternalKey Batch ValueRecord Mvcc Iter.
From S2P Require Import Version ManifestCodec Manifest ManifestSet ManifestBoot Bloom Format Block TableBuilder.
From S2P Require Import TableReader TableRoundtrip TableBounds TableOpen TableLookups Options.

Local Open Scope Z_scope.

Section Tables.
  Context `{C : Crc32c} `{SN : Snappy}.

(** ** The items of a table iterator *)

(** The decoded entries of one block, then the items behind it. *)
Fixpoint block_items (kvs : list (bytes * bytes)) (rest : list (result (InternalKey * bytes)))
    : list (result (InternalKey * bytes)) :=
  match kvs with
  | [] => rest
  | (key, value) :: kvs =>
    match InternalKey_decode key with
    | Ok key => Ok (key, value) :: block_items kvs rest
    | Err e => [Err e]
    end
  end.

Fixpoint index_items (r : TableReader) (index : list (bytes * BlockHandle))
    : list (result (InternalKey * bytes)) :=
  match index with
  | [] => []
  | (_, handle) :: index =>
    match (let? block := read_data_block r handle in Block_entries block) with
    | Ok kvs => block_items kvs (index_items r index)
    | Err e => [Err e]
    end
  end.

Definition iter_items (r : TableReader) (it : TableIter) : list (result (InternalKey * bytes)) :=
  if ti_failed it then []
  else block_items (ti_entries it) (index_items r (drop (Z.to_nat (ti_block_index it)) (rd_index r))).

Definition table_items (r : TableReader) : list (result (InternalKey * bytes)) := index_items r (rd_index r).

(** The child iterator a scan and a compaction make of a reader. *)
Definition table_child (r : TableReader) : ChildIterator :=
  map (λ item, let? (key, value) := item in
               disk_entry key value (tp_engine_value_encoding (rd_properties r))) (table_items r).

(** Stepping the iterator walks down the list of items. *)
Lemma next_items fuel r it :
  0 ≤ ti_block_index it → (length (rd_index r) < fuel + Z.to_nat (ti_block_index it))%nat →
  let '(o, it') := next_table_entry fuel r it in
  iter_items r it = match o with Some x => x :: iter_items r it' | None => [] end ∧ 0 ≤ ti_block_index it'.
Proof.
  revert it. induction fuel as [|fuel IH]; intros [i kvs failed] Hi Hf; cbn [ti_block_index] in *;
    cbn [next_table_entry ti_failed ti_entries ti_block_index]; (destruct failed; [done|]);
    (destruct kvs as [|[k v] kvs]; [|unfold iter_items; cbn; destruct (InternalKey_decode k); done]);
    unfold get_at; rewrite (proj2 (Z.ltb_ge _ _)) by lia;
    (destruct (rd_index r !! Z.to_nat i) as [[sep h]|] eqn:E;
     [|split; [|done]; unfold iter_items; cbn; rewrite drop_ge by (by apply lookup_ge_None_1); done]).
  - apply lookup_lt_Some in E. lia.
  - assert (iter_items r {| ti_block_index := i; ti_entries := []; ti_failed := false |} =
      match (let? block := read_data_block r h in Block_entries block) with
      | Ok kvs => iter_items r {| ti_block_index := i + 1; ti_entries := kvs; ti_failed := false |}
      | Err e => [Err e]
      end) as ->.
    { unfold iter_items. cbn. rewrite (drop_S _ _ _ E). cbn. rewrite Z2Nat.inj_add by lia.
      change (Z.to_nat 1) with 1%nat. rewrite Nat.add_1_r. done. }
    destruct (let? block := read_data_block r h in Block_entries block) as [kvs|e]; [|split; [done|cbn; lia]].
    specialize (IH {| ti_block_index := i + 1; ti_entries := kvs; ti_failed := false |}).
    cbn [ti_block_index] in IH. apply IH; lia.
Qed.

Lemma collect_items fuel r it es :
  0 ≤ ti_block_index it → table_collect fuel r it = Ok es → iter_items r it = map Ok es.
Proof.
  revert it es. induction fuel as [|fuel IH]; intros it es Hi H; [done|]. cbn [table_collect] in H.
  pose proof (next_items (S (length (rd_index r))) r it Hi ltac:(lia)) as Hn.
  unfold TableIter_next in H. destruct (next_table_entry _ r it) as [[x|] it'].
  - destruct Hn as [-> Hi']. destruct x as [kv|]; [|done]. cbn in H.
    destruct (table_collect fuel r it') as [rest|] eqn:E; [|done]. injection H as <-. cbn. f_equal. by apply IH.
  - destruct Hn as [-> _]. by injection H as <-.
Qed.

(** ** What a table holds *)

Definition enc_entries (es : list entry) : list record := map (λ e, (e.1, encode_engine_value e.2)) es.

(** What a table reader promises to its clients. *)
Record table_holds (options : TableReaderOptions) (n : Z) (file : bytes) (es : list entry) : Prop := {
  th_wf : Forall entry_wf es;
  th_sorted : entries_sorted es;
  th_some : es ≠ [];
  th_open : ∃ r, open_internal file options (Some n) = Ok r ∧ rd_file_size r = zlen file ∧
    tp_engine_value_encoding (rd_properties r) = true ∧
    table_child r = map Ok es ∧
    ∀ u q, bytes_ok u → seq_ok q → ∃ l, get_visible r u q = Ok l ∧
      (∀ e, lookup_record l = Some e → record_newest u q (enc_entries es) (Some e)) ∧
      (covers_all u q (enc_entries es) → record_newest u q (enc_entries es) (lookup_record l))
}.

Lemma disk_entry_enc e :
  entry_wf e → disk_entry e.1 (encode_engine_value e.2) true = Ok e.
Proof.
  intros (u & s & r & Hu & Hs & Hr & ->). unfold disk_entry. cbn [mk_entry fst snd].
  rewrite kind_mk_key by done. by rewrite decode_encode_engine_value.
Qed.

(** ** Building *)

(** What [build_sstable] and a compaction's output do with a builder. *)
Definition build_entries (file_number block_bytes restart_interval bloom_bits_per_key : Z)
    (es : list entry) : result (TableBuildResult * bytes) :=
  let? t := TableBuilder_create file_number block_bytes restart_interval bloom_bits_per_key
              CompressionNone in
  let? t := try_fold (λ t e, TableBuilder_add t e.1 (encode_engine_value e.2))
              (use_engine_value_encoding t) es in
  TableBuilder_finish t.

Definition entries_cost (es : list entry) : Z := kvs_cost (map enc_record (enc_entries es)).

(** The entries a reader with the limit can hold alone in a block. *)
Definition entries_fit (limit : Z) (es : list entry) : Prop :=
  Forall (λ e : entry, zlen (ik_encoded e.1) + zlen (encode_engine_value e.2) + 46 ≤ limit) es.

(** Entries that make up one table. *)
Definition table_entries (limit : Z) (es : list entry) : Prop :=
  es ≠ [] ∧ Forall entry_wf es ∧ entries_sorted es ∧ 16 * entries_cost es ≤ U32_MAX ∧ entries_fit limit es.

Lemma table_entries_records limit es : table_entries limit es → table_records (enc_entries es).
Proof.
  intros (Hne & Hwf & Hs & Hc & _). split; [by destruct es|]. split; [|split; [|done]].
  - apply Forall_map. eapply Forall_impl; [exact Hwf|]. intros e He. by apply entry_wf_key.
  - clear -Hs. induction Hs as [|e es Hs IH Hall]; cbn; [constructor|]. constructor; [done|].
    apply Forall_map, Forall_map. exact Hall.
Qed.

Lemma use_engine_inv t : tb_inv t [] [] [] → tb_inv (use_engine_value_encoding t) [] [] [].
Proof. intros []. by split. Qed.

Lemma try_fold_map {A B D} (f : B → D → result B) (g : A → D) b l :
  try_fold f b (map g l) = try_fold (λ b a, f b (g a)) b l.
Proof. revert b. induction l as [|a l IH]; intros b; cbn; [done|]. by destruct (f b (g a)). Qed.

Context {CR : Crc32cRange C} {SL : SnappyLaws SN}.

Lemma table_child_ok r es :
  tp_engine_value_encoding (rd_properties r) = true → Forall entry_wf es →
  table_collect (S (length es)) r TableReader_iter = Ok (enc_entries es) → table_child r = map Ok es.
Proof.
  intros Hev Hwf Hc. apply collect_items in Hc; [|done]. unfold iter_items in Hc. cbn in Hc.
  change (drop (Z.to_nat 0) (rd_index r)) with (rd_index r) in Hc.
  unfold table_child, table_items. rewrite Hev, Hc. unfold enc_entries. rewrite !map_map.
  apply map_ext_Forall. eapply Forall_impl; [exact Hwf|]. intros e He. cbn. by apply disk_entry_enc.
Qed.

(** [file] is a table of [es] for every reader with large enough limits: blocks of
    up to [limit] bytes, or of any size the entries allow. *)
Definition is_table (limit n : Z) (file : bytes) (es : list entry) : Prop :=
  ∀ options, limit ≤ ro_max_uncompressed_data_block_bytes options ∨
      2 * entries_cost es ≤ ro_max_uncompressed_data_block_bytes options →
    ro_max_uncompressed_data_block_bytes options ≤ 2 ^ 62 →
    8 * entries_cost es + 128 ≤ ro_max_metadata_bytes options → table_holds options n file es.

Lemma engine_value_len r : 6 ≤ zlen (encode_engine_value r).
Proof. destruct r as [v [t|]|]; cbn; zlen_lia. Qed.

Lemma entry_fits limit e : entry_wf e →
  zlen (ik_encoded e.1) + zlen (encode_engine_value e.2) + 46 ≤ limit → fits limit (enc_record (e.1, encode_engine_value e.2)).
Proof.
  intros He Hl. pose proof (key_wf_len _ (entry_wf_key _ He)). pose proof (engine_value_len e.2). split; cbn [enc_record fst snd]; lia.
Qed.

(** The largest data block of a table that was built. *)
Lemma built_block_limit n bb ri bpk limit es t0 t t1 :
  0 ≤ limit → 2 * bb ≤ limit → es ≠ [] → Forall entry_wf es → entries_fit limit es →
  TableBuilder_create n bb ri bpk CompressionNone = Ok t0 →
  try_fold (λ t e, TableBuilder_add t e.1 e.2) (use_engine_value_encoding t0) (enc_entries es) = Ok t →
  flush_data_block t = Ok t1 → tb_max_data_block_bytes t1 ≤ limit.
Proof.
  intros Hl Hbb Hne Hwf Hfit Hc Hadd Hfl. destruct (create_size limit _ _ _ _ _ _ Hl Hc) as [Hs0 Hb0].
  assert (size_inv limit (use_engine_value_encoding t0) []) as Hs0' by (destruct Hs0; by split).
  destruct (adds_size limit (enc_entries es) (use_engine_value_encoding t0) [] t ltac:(cbn; lia) Hs0') as [(pend & Hs & Hp) Hb].
  { unfold enc_entries. apply Forall_map. unfold entries_fit in Hfit. rewrite Forall_forall in *.
    intros e He. apply entry_fits; auto. }
  { exact Hadd. }
  destruct (flush_size limit t t1 pend) as [[_ _ _ _ Hmax] _]; [cbn in Hb; lia|done| |done|done].
  apply Hp. right. by destruct es.
Qed.

Lemma finished_size file es segs filter props :
  finished file es segs filter props → 0 < zlen file ≤ U64_MAX.
Proof using CR SL.
  intros Hfin. pose proof (stored_bytes_len _ _ (fin_segs _ _ _ _ _ Hfin)) as Hdata.
  rewrite (fin_kvs _ _ _ _ _ Hfin) in Hdata. pose proof (fin_small _ _ _ _ _ Hfin) as Hsmall.
  destruct (fin_layout _ _ _ _ _ Hfin) as (ipay & blk & ds & stF & stI & stP & Hfile & _ & _ & _ & _ & _ & _ & Hsum).
  rewrite Hfile. rewrite !zlen_app, encode_footer_len. zlen_pos. unfold U32_MAX, U64_MAX in *. lia.
Qed.

(** What a finished file promises a reader. *)
Lemma finished_holds options n file es segs filter props :
  finished file (enc_entries es) segs filter props → reader_admits options props (entries_cost es) →
  tp_file_number props = n → tp_engine_value_encoding props = true →
  es ≠ [] → Forall entry_wf es → entries_sorted es → table_holds options n file es.
Proof using CR SL.
  intros Hfin Hopt Hpn Hpe Hne Hwf Hsort.
  split; [done..|]. eexists. split; [apply (open_ok _ _ _ _ _ _ _ Hfin Hopt); right; by rewrite Hpn|].
  split; [done|]. split; [done|]. split.
  - apply table_child_ok; [done|done|].
    assert (length es = length (enc_entries es)) as -> by (unfold enc_entries; by rewrite length_map).
    apply (collect_ok _ _ _ _ _ _ _ Hfin Hopt _ [] [] segs (enc_entries es)); [done| |apply (fin_keys _ _ _ _ _ Hfin)|lia].
    by rewrite (fin_kvs _ _ _ _ _ Hfin).
  - intros u q Hu Hq.
    destruct (get_visible_ok file _ segs filter props options (Some n) Hfin Hopt u q Hu Hq) as (l & Hl & Hspec).
    exists l. split; [done|]. destruct (lookup_record l) as [e|]; split; try done.
    + by intros e' [= <-].
    + intros Hcov e He Heu. by destruct (Hspec Hcov e He Heu).
Qed.

Lemma enc_entries_ends es a z :
  es ≠ [] → head (enc_entries es) = Some a → last (enc_entries es) = Some z →
  ∃ smallest largest, head es = Some smallest ∧ last es = Some largest ∧ a.1 = smallest.1 ∧ z.1 = largest.1.
Proof.
  intros Hne Ha Hz. unfold enc_entries in Ha, Hz. change (map ?f es) with (f <$> es) in Ha, Hz. rewrite fmap_last in Hz.
  destruct es as [|sm es], (last _) as [lg|]; try done. cbn in Ha, Hz. injection Ha as <-. injection Hz as <-.
  by exists sm, lg.
Qed.

Lemma build_entries_ok limit n bb ri bpk es :
  table_config n bb ri bpk → table_entries limit es → 2 * bb ≤ limit →
  ∃ file smallest largest,
    head es = Some smallest ∧ last es = Some largest ∧
    build_entries n bb ri bpk es =
      Ok ({| tr_file_number := n; tr_file_size := zlen file; tr_smallest := smallest.1;
             tr_largest := largest.1; tr_entries := zlen es |}, file) ∧
    is_table limit n file es ∧ 0 < zlen file ≤ U64_MAX.
Proof using CR SL.
  intros Hcfg Hes Hbl. pose proof (table_entries_records limit es Hes) as (Hne & Hk & Hs & Hc).
  destruct Hcfg as (Hn & Hbb & Hri & Hbpk). unfold build_entries.
  destruct (create_inv n bb ri bpk CompressionNone Hbb Hri ltac:(lia)) as (t0 & E0 & Hinv0%use_engine_inv & Hn0 & Hbpk0 & _).
  destruct (add_records_inv (enc_entries es) (use_engine_value_encoding t0) [] [] [] Hinv0 ltac:(done) Hk Hs Hc)
    as (t & segs & pend & Hadd & Hinv & Hp & Hcf).
  pose proof Hadd as Hadd'. unfold enc_entries in Hadd at 1. rewrite try_fold_map in Hadd. cbn [fst snd] in Hadd.
  rewrite E0, Hadd. destruct Hcf as (Hn' & _ & _ & Hbpk' & _ & Hev').
  destruct (finish_ok t (enc_entries es) segs pend Hinv (Hp Hne) Hc) as
    (segs' & f & res & file & props & a & z & -> & Hfin & Ha & Hz & -> & Hprops & t1 & Hfl & Hmax).
  { rewrite Hbpk'. cbn. rewrite Hbpk0. lia. } { rewrite Hn'. cbn. by rewrite Hn0. }
  assert (tp_file_number props = n ∧ tp_engine_value_encoding props = true) as [Hpn Hpe].
  { rewrite Hprops. cbn. rewrite Hn', Hev'. cbn. by rewrite Hn0. }
  destruct Hes as (Hne' & Hwf & Hsort & _ & Hfit).
  destruct (enc_entries_ends es a z Hne' Ha Hz) as (sm & lg & Hsm & Hlg & Ha1 & Hz1).
  exists file, sm, lg. do 2 (split; [done|]). split.
  { rewrite Ha1, Hz1, Hn'. cbn. rewrite Hn0. do 3 f_equal. unfold enc_entries. by rewrite zlen_map. }
  split; [|by eapply finished_size].
  intros options Hopt Hcap Hmeta. eapply finished_holds; [exact Hfin| |done..]. split; [|done]. split; [|done].
  destruct Hopt as [Hopt|Hopt].
  - etrans; [|exact Hopt]. rewrite Hmax. by eapply (built_block_limit n bb ri bpk limit es t0 t t1); try done; lia.
  - etrans; [apply (fin_max _ _ _ _ _ Hfin)|exact Hopt].
Qed.

(** ** Writing a table file *)

Definition sstable_temporary (number : Z) : name := format06 number ++ ascii_bytes ".sst.tmp".

(** [TableBuilder::create_with_fs] behind its validation. *)
Definition create_table (temporary : name) (number : Z) (options : Options) : FS TableBuilder :=
  let! t := fs_lift (TableBuilder_create number (op_block_bytes options) (op_restart_interval options)
                       (op_bloom_bits_per_key options) CompressionNone) in
  let! _ := fs_map_err (io_error "create SSTable") (fs_create temporary) in
  fs_ret (use_engine_value_encoding t).

(** The bytes a builder call has appended. *)
Definition write_appended (temporary : name) (before after : bytes) : FS unit :=
  let appended := drop (length before) after in
  if bool_decide (appended = []) then fs_ret tt
  else fs_map_err (io_error "write SSTable") (file_write_all temporary appended).

Definition add_entry (temporary : name) (t : TableBuilder) (e : entry) : FS TableBuilder :=
  let! t' := fs_lift (TableBuilder_add t e.1 (encode_engine_value e.2)) in
  let! _ := write_appended temporary (tb_file t) (tb_file t') in
  fs_ret t'.

Fixpoint add_entries (temporary : name) (t : TableBuilder) (es : list entry) : FS TableBuilder :=
  match es with
  | [] => fs_ret t
  | e :: es => let! t := add_entry temporary t e in add_entries temporary t es
  end.

Definition finish_table (temporary : name) (t : TableBuilder) : FS TableBuildResult :=
  let! (built, file) := fs_lift (TableBuilder_finish t) in
  let! _ := write_appended temporary (tb_file t) file in
  let! _ := fs_map_err (io_error "sync SSTable") (file_sync_all temporary) in
  fs_ret built.

(** The name becomes durable with the directory. *)
Definition install_table (install sync : string) (temporary final_path : name) : FS unit :=
  let! _ := fs_map_err (io_error install) (atomic_install temporary final_path) in
  fs_map_err (io_error sync) (sync_directory DIRECTORY).

(** [build_sstable] of engine.rs; [es] is [table.iter()]. *)
Definition build_sstable (options : Options) (file_number : Z) (es : list entry) : FS TableBuildResult :=
  let temporary := sstable_temporary file_number in
  let final_path := sstable_name file_number in
  let! t := create_table temporary file_number options in
  let! t := add_entries temporary t es in
  let! built := finish_table temporary t in
  let! _ := install_table "install SSTable" "sync SSTable directory" temporary final_path in
  fs_ret built.

(** ** What the builder has written is never changed *)

Lemma write_raw_extends t b t' : write_raw t b = Ok t' → tb_file t `prefix_of` tb_file t'.
Proof.
  unfold write_raw. destruct (ok_or _ _); [|done]. intros [= <-]. cbn. by apply prefix_app_r.
Qed.

Lemma write_payload_extends t p c h t' : write_payload t p c = Ok (h, t') → tb_file t `prefix_of` tb_file t'.
Proof.
  unfold write_payload. destruct (compress_payload p c) as [[st m]|]; [|done].
  destruct (encode_stored_block st m) as [enc|]; [|done].
  destruct (write_raw t enc) as [t1|] eqn:E; [|done]. intros [= _ <-]. by eapply write_raw_extends.
Qed.

Lemma flush_extends t t' : flush_data_block t = Ok t' → tb_file t `prefix_of` tb_file t'.
Proof.
  unfold flush_data_block. destruct (_ =? 0); [by intros [= ->]|].
  destruct (ok_or (tb_block t) _) as [b|]; [|done].
  destruct (write_payload _ _ _) as [[h t1]|] eqn:E; [|done]. apply write_payload_extends in E.
  destruct (ok_or (tb_pending_first t1) _); [|done]. destruct (ok_or (tb_pending_last t1) _); [|done].
  destruct (BlockBuilder_try_new _); [|done]. intros [= <-]. exact E.
Qed.

Lemma add_extends t k v t' : TableBuilder_add t k v = Ok t' → tb_file t `prefix_of` tb_file t'.
Proof.
  unfold TableBuilder_add. destruct (match tb_previous_key t with Some _ => _ | None => _ end); [done|].
  destruct (ok_or (checked_add (zlen _) _) _) as [n1|]; [|done]. destruct (ok_or (checked_add _ n1) _) as [n2|]; [|done].
  destruct (if _ && _ then flush_data_block t else Ok t) as [t1|] eqn:E; [|done].
  assert (tb_file t `prefix_of` tb_file t1) as Hp.
  { destruct (_ && _); [by apply flush_extends|by injection E as <-]. }
  destruct (ok_or (tb_block t1) _); [|done]. destruct (BlockBuilder_add _ _ _); [|done].
  destruct (ok_or (checked_add (tb_entries t1) 1) _); [|done]. intros [= <-]. exact Hp.
Qed.

Lemma finish_extends t res file : TableBuilder_finish t = Ok (res, file) → tb_file t `prefix_of` file.
Proof.
  unfold TableBuilder_finish. destruct (_ =? 0); [done|].
  destruct (flush_data_block t) as [t1|] eqn:E1; [|done]. apply flush_extends in E1.
  destruct (from_keys _ _); [|done]. destruct (write_payload t1 _ _) as [[h2 t2]|] eqn:E2; [|done]. apply write_payload_extends in E2.
  destruct (BlockBuilder_try_new _); [|done]. destruct (add_all _ _); [|done].
  destruct (write_payload t2 _ _) as [[h3 t3]|] eqn:E3; [|done]. apply write_payload_extends in E3.
  destruct (ok_or (tb_smallest t3) _); [|done]. destruct (ok_or (tb_largest t3) _); [|done].
  destruct (write_payload t3 _ _) as [[h4 t4]|] eqn:E4; [|done]. apply write_payload_extends in E4.
  destruct (write_raw t4 _) as [t5|] eqn:E5; [|done]. apply write_raw_extends in E5. intros [= _ <-].
  etrans; [exact E1|]. etrans; [exact E2|]. etrans; [exact E3|]. etrans; [exact E4|exact E5].
Qed.

(** ** The file system while a table is written *)

(** [i'] is [i] but for the file [tmp], which has content [b] and synchronized
    content [s] and is not durable. *)
Record scratch (i i' : CrashImage) (tmp : name) (b : bytes) (s : option bytes) : Prop := {
  sc_other : ∀ p, p ≠ tmp → view i' p = view i p;
  sc_tmp : view i' tmp = (Some b, s, None);
  sc_durable : ci_durable i' = ci_durable i
}.

(** The durable content of a name after the directory is synchronized. *)
Definition directory_content (i : CrashImage) (p : name) : option bytes :=
  (λ _, default [] (match ci_synced i !! p with Some b => Some b | None => ci_durable i !! p end))
    <$> ci_volatile i !! p.

(** [file] has been published as [final]; the rest of the directory is synchronized. *)
Record published (i i' : CrashImage) (tmp final : name) (file : bytes) : Prop := {
  pb_final : view i' final = (Some file, Some file, Some file);
  pb_tmp : ci_volatile i' !! tmp = None;
  pb_other : ∀ p, p ≠ tmp → p ≠ final →
    view i' p = (ci_volatile i !! p, ci_synced i !! p, directory_content i p)
}.

Section Writing.
  Context (g : bool) (i : CrashImage) (E : CrashImage → Prop) (tmp : name).
  Context (Hcrash : g = true → E (durable_image (ci_durable i))).
  Context (Htmp : ci_volatile i !! tmp = None) (Htmpd : ci_durable i !! tmp = None).

Lemma scratch_crash i' b s : scratch i i' tmp b s → g = true → E (durable_image (ci_durable i')).
Proof using Hcrash. intros Hs. by rewrite (sc_durable _ _ _ _ _ Hs). Qed.

Lemma create_table_wp number options t (Q : TableBuilder → CrashImage → Prop) :
  TableBuilder_create number (op_block_bytes options) (op_restart_interval options)
    (op_bloom_bits_per_key options) CompressionNone = Ok t →
  (∀ i', scratch i i' tmp [] None → Q (use_engine_value_encoding t) i') →
  wpf g (create_table tmp number options) i Q E.
Proof using Htmp Htmpd.
  intros Ht HQ. apply wp_bind. eapply wp_lift_ok; [exact Ht|]. apply wp_bind, wp_map_err, wp_create; [done|].
  apply wp_ret, HQ. split; [| |done].
  - intros p Hp. rewrite view_create. by rewrite decide_False.
  - rewrite view_create, decide_True by done. by rewrite Htmpd.
Qed.

Lemma write_appended_wp i1 before after s (Q : unit → CrashImage → Prop) :
  scratch i i1 tmp before s → before `prefix_of` after →
  (∀ i2, scratch i i2 tmp after s → Q tt i2) → wpf g (write_appended tmp before after) i1 Q E.
Proof using Hcrash.
  intros Hs [b ->] HQ. unfold write_appended. rewrite drop_app_length. case_bool_decide as Hb.
  - subst b. rewrite app_nil_r in HQ. by apply wp_ret, HQ.
  - apply wp_map_err, wp_write; [by eapply scratch_crash|]. apply HQ.
    destruct Hs as [Ho Ht Hd]. apply view_eq in Ht as (Hv & Hsy & Hdu). split; [| |done].
    + intros p Hp. rewrite view_write, decide_False by done. by apply Ho.
    + by rewrite view_write, decide_True, Hv, Hsy, Hdu.
Qed.

Lemma add_entries_wp es t t' i1 s (Q : TableBuilder → CrashImage → Prop) :
  try_fold (λ t e, TableBuilder_add t e.1 (encode_engine_value e.2)) t es = Ok t' →
  scratch i i1 tmp (tb_file t) s → (∀ i2, scratch i i2 tmp (tb_file t') s → Q t' i2) →
  wpf g (add_entries tmp t es) i1 Q E.
Proof using Hcrash.
  revert t i1. induction es as [|e es IH]; intros t i1 Hf Hs HQ; cbn in Hf |- *.
  { injection Hf as <-. by apply wp_ret, HQ. }
  destruct (TableBuilder_add t e.1 _) as [t1|] eqn:Ea; [|done].
  apply wp_bind. unfold add_entry. apply wp_bind. eapply wp_lift_ok; [exact Ea|].
  apply wp_bind. eapply write_appended_wp; [exact Hs|by eapply add_extends|]. intros i2 Hs2.
  apply wp_ret. by apply IH.
Qed.

Lemma finish_table_wp t res file i1 (Q : TableBuildResult → CrashImage → Prop) :
  TableBuilder_finish t = Ok (res, file) → scratch i i1 tmp (tb_file t) None →
  (∀ i2, scratch i i2 tmp file (Some file) → Q res i2) → wpf g (finish_table tmp t) i1 Q E.
Proof using Hcrash.
  intros Hf Hs HQ. apply wp_bind. eapply wp_lift_ok; [exact Hf|]. apply wp_bind.
  eapply write_appended_wp; [exact Hs|by eapply finish_extends|]. intros i2 Hs2.
  apply wp_bind, wp_map_err, wp_sync; [by eapply scratch_crash|]. apply wp_ret, HQ.
  destruct Hs2 as [Ho Ht Hd]. pose proof (view_eq _ _ _ _ _ Ht) as (Hv & Hsy & Hdu). split.
  - intros p Hp. rewrite (view_sync _ _ file), decide_False by done. by apply Ho.
  - by rewrite (view_sync _ _ file), decide_True, Hdu.
  - rewrite <- Hd. unfold record_file_sync. rewrite Hv. cbn. by rewrite Hdu.
Qed.

(** [atomic_install] and [sync_directory] behind a finished file. *)
Lemma install_table_wp op1 op2 final file i1 (Q : unit → CrashImage → Prop) :
  tmp ≠ final → ci_volatile i !! final = None → scratch i i1 tmp file (Some file) →
  (∀ i2, published i i2 tmp final file → Q tt i2) →
  wpf g (install_table op1 op2 tmp final) i1 Q E.
Proof using Hcrash.
  intros Hne Hfin Hs HQ. pose proof (view_eq _ _ _ _ _ (sc_tmp _ _ _ _ _ Hs)) as (Hv & Hsy & Hdu).
  pose proof (sc_other _ _ _ _ _ Hs) as Ho. pose proof (sc_durable _ _ _ _ _ Hs) as Hd.
  apply wp_bind, wp_map_err. eapply wp_install; [by eapply scratch_crash|exact Hv| |].
  { specialize (Ho final ltac:(done)). apply (f_equal (λ x, x.1.1)) in Ho. cbn in Ho. congruence. }
  apply wp_map_err, wp_directory; [cbn; rewrite Hd; done|]. apply HQ.
  pose proof (λ p, view_rename i1 tmp final file file p Hne Hv Hsy) as Hr. split.
  - specialize (Hr final). rewrite decide_True in Hr by done. apply view_eq in Hr as (H1 & H2 & H3).
    by rewrite view_directory, H1, H2.
  - specialize (Hr tmp). rewrite decide_False, decide_True in Hr by done. apply view_eq in Hr as (H1 & _ & _).
    cbn in H1. done.
  - intros p Hp1 Hp2. specialize (Hr p). rewrite !decide_False in Hr by done. rewrite (Ho p Hp1) in Hr.
    unfold view in Hr. injection Hr as H1 H2 H3. rewrite view_directory. unfold directory_content.
    cbn in *. by rewrite H1, H2, H3.
Qed.
End Writing.

Lemma temporary_not_final n m : sstable_temporary n ≠ sstable_name m.
Proof.
  unfold sstable_temporary, sstable_name. intros H. apply (f_equal reverse) in H.
  rewrite !reverse_app in H. cbn in H. discriminate.
Qed.

(** ** Names *)

Lemma format06_inj n m : 0 ≤ n ≤ U64_MAX → 0 ≤ m ≤ U64_MAX → format06 n = format06 m → n = m.
Proof.
  intros Hn Hm H. destruct (format06_parse n Hn) as (Hp & _). destruct (format06_parse m Hm) as (Hp' & _).
  rewrite H in Hp. congruence.
Qed.

Lemma sstable_name_inj n m : 0 ≤ n ≤ U64_MAX → 0 ≤ m ≤ U64_MAX → sstable_name n = sstable_name m → n = m.
Proof. intros Hn Hm H. apply app_inv_tail in H. by apply format06_inj. Qed.

Lemma sstable_temporary_inj n m :
  0 ≤ n ≤ U64_MAX → 0 ≤ m ≤ U64_MAX → sstable_temporary n = sstable_temporary m → n = m.
Proof. intros Hn Hm H. apply app_inv_tail in H. by apply format06_inj. Qed.

(** ** Files that are safe *)

(** A file whose content has reached the disk under its name. *)
Definition stored (i : CrashImage) (p : name) (b : bytes) : Prop := view i p = (Some b, Some b, Some b).

(** Everything that was safe still is. *)
Definition kept (i i' : CrashImage) : Prop := ∀ p b, stored i p b → stored i' p b.

(** No file uses a number from [n] on. *)
Definition fresh (i : CrashImage) (n : Z) : Prop :=
  ∀ k, n ≤ k ≤ U64_MAX → ci_volatile i !! sstable_temporary k = None ∧
    ci_durable i !! sstable_temporary k = None ∧ ci_volatile i !! sstable_name k = None.

(** A name that belongs to a table with a number from [n] on. *)
Definition output_name (n : Z) (p : name) : Prop :=
  ∃ k, n ≤ k ≤ U64_MAX ∧ (p = sstable_temporary k ∨ p = sstable_name k).

#[global] Instance kept_preorder : PreOrder kept.
Proof. split; [by intros i p b|]. intros i1 i2 i3 H1 H2 p b Hs. by apply H2, H1. Qed.

Lemma kept_crash i i' : kept i i' → kept i (durable_image (ci_durable i')).
Proof. intros H p b Hs. apply H in Hs. apply view_eq in Hs as (_ & _ & Hd). unfold stored, view. cbn. by rewrite Hd. Qed.

Lemma stored_not_output i n p b : fresh i n → stored i p b → ¬ output_name n p.
Proof.
  intros Hf Hs (k & Hk & [->| ->]); destruct (Hf k Hk) as (H1 & _ & H3);
    apply view_eq in Hs as (Hv & _ & _); congruence.
Qed.

Lemma scratch_kept i i' n b s : fresh i n → 0 ≤ n ≤ U64_MAX → scratch i i' (sstable_temporary n) b s → kept i i'.
Proof.
  intros Hf Hn Hs p b' Hp. unfold stored. rewrite (sc_other _ _ _ _ _ Hs); [done|]. intros ->.
  eapply (stored_not_output i n); [done|done|]. exists n. split; [lia|by left].
Qed.

Lemma published_kept i i' n file :
  fresh i n → 0 ≤ n ≤ U64_MAX → published i i' (sstable_temporary n) (sstable_name n) file → kept i i'.
Proof.
  intros Hf Hn Hp p b Hs. pose proof (stored_not_output i n p b Hf Hs) as Hno.
  assert (p ≠ sstable_temporary n ∧ p ≠ sstable_name n) as [H1 H2].
  { split; intros ->; apply Hno; exists n; (split; [lia|]); auto. }
  unfold stored. rewrite (pb_other _ _ _ _ _ Hp p H1 H2). unfold directory_content.
  apply view_eq in Hs as (Hv & Hsy & _). by rewrite Hv, Hsy.
Qed.

Lemma published_fresh i i' n file :
  fresh i n → 0 ≤ n ≤ U64_MAX → published i i' (sstable_temporary n) (sstable_name n) file → fresh i' (n + 1).
Proof.
  intros Hf Hn Hp k Hk. destruct (Hf k ltac:(lia)) as (H1 & H2 & H3).
  assert (sstable_temporary k ≠ sstable_temporary n) as Hd1.
  { intros Heq. apply sstable_temporary_inj in Heq; lia. }
  assert (sstable_name k ≠ sstable_name n) as Hd2.
  { intros Heq. apply sstable_name_inj in Heq; lia. }
  pose proof (pb_other _ _ _ _ _ Hp (sstable_temporary k) Hd1 (temporary_not_final _ _)) as Ht.
  pose proof (pb_other _ _ _ _ _ Hp (sstable_name k) (not_eq_sym (temporary_not_final _ _)) Hd2) as Hnm.
  unfold directory_content in *. rewrite H1 in Ht. rewrite H3 in Hnm. cbn in *.
  apply view_eq in Ht as (-> & _ & ->). apply view_eq in Hnm as (-> & _ & _). done.
Qed.

(** The files of other names are as before. *)
Definition others_same (n : Z) (i i' : CrashImage) : Prop := ∀ p, ¬ output_name n p → same_at i i' p.

Lemma published_others i i' n file :
  0 ≤ n ≤ U64_MAX → published i i' (sstable_temporary n) (sstable_name n) file → others_same n i i'.
Proof.
  intros Hn Hp p Hno. assert (p ≠ sstable_temporary n ∧ p ≠ sstable_name n) as [H1 H2].
  { split; intros ->; apply Hno; exists n; (split; [lia|]); auto. }
  right. rewrite (pb_other _ _ _ _ _ Hp p H1 H2), view_directory. done.
Qed.

Lemma build_sstable_wp g i E limit options n es (Q : TableBuildResult → CrashImage → Prop) :
  (g = true → E (durable_image (ci_durable i))) →
  ci_volatile i !! sstable_temporary n = None → ci_durable i !! sstable_temporary n = None →
  ci_volatile i !! sstable_name n = None →
  table_config n (op_block_bytes options) (op_restart_interval options) (op_bloom_bits_per_key options) →
  table_entries limit es → 2 * op_block_bytes options ≤ limit →
  (∀ file smallest largest i', head es = Some smallest → last es = Some largest →
    published i i' (sstable_temporary n) (sstable_name n) file → is_table limit n file es → 0 < zlen file ≤ U64_MAX →
    Q {| tr_file_number := n; tr_file_size := zlen file; tr_smallest := smallest.1;
         tr_largest := largest.1; tr_entries := zlen es |} i') →
  wpf g (build_sstable options n es) i Q E.
Proof using CR SL.
  intros Hcrash Ht Htd Hf Hcfg Hes Hbl HQ.
  destruct (build_entries_ok limit n _ _ _ es Hcfg Hes Hbl) as (file & sm & lg & Hsm & Hlg & Hb & Hh & Hsz).
  unfold build_entries in Hb. destruct (TableBuilder_create _ _ _ _ _) as [t0|] eqn:E0; [|done].
  destruct (try_fold _ _ es) as [t1|] eqn:E1; [|done].
  apply wp_bind. eapply create_table_wp; [done|done|exact E0|]. intros i1 H1.
  apply wp_bind. eapply add_entries_wp; [done|exact E1| |].
  { assert (tb_file (use_engine_value_encoding t0) = []) as ->; [|exact H1].
    clear -E0. unfold TableBuilder_create in E0. do 2 (destruct (_ =? 0); [done|]).
    destruct (BlockBuilder_try_new _); [|done]. by injection E0 as <-. }
  intros i2 H2. apply wp_bind. eapply finish_table_wp; [done|exact Hb|exact H2|]. intros i3 H3.
  apply wp_bind. eapply install_table_wp; [done|apply temporary_not_final|exact Hf|exact H3|]. intros i4 H4.
  apply wp_ret. by eapply HQ.
Qed.

End Tables.
