(* ===== verification/TableInspect.v ===== *)
(** * Inspecting an SSTable (src/crates/meteordb/src/sstable/reader.rs)

    [inspect_with_limits] reads every data block of an open table and renders a bounded
    sample of its blocks and records.  The theorem says, for any file the reader could
    open, when it succeeds and what its document shows. *)

From Stdlib Require Import ZArith Lia Sorting.Sorted.
From stdpp Require Import base list gmap strings.
From S2P Require Import Prelude Checksum InternalKey ManifestInspect Bloom Format Block TableBuilder.
From S2P Require Import TableReader TableRoundtrip TableOpen TableLookups TableStore.

Local Open Scope Z_scope.

(** ** Documents *)

Record SstableBlockInspection : Type := {
  sbi_index : Z;
  sbi_offset : Z;
  sbi_size : Z
}.

Record SstableEntryInspection : Type := {
  sei_key_hex : bytes;
  sei_user_key_hex : bytes;
  sei_sequence : Z;
  sei_kind : string;
  sei_value_bytes : Z
}.

Record SstableInspection : Type := {
  si_format_version : Z;
  si_file_bytes : Z;
  si_file_number : Z;
  si_entries : Z;
  si_data_blocks : Z;
  si_compression : string;
  si_smallest_key_hex : bytes;
  si_largest_key_hex : bytes;
  si_max_data_block_bytes : Z;
  si_engine_value_encoding : bool;
  si_blocks : list SstableBlockInspection;
  si_blocks_truncated : bool;
  si_shown : list SstableEntryInspection;
  si_shown_bytes : Z;
  si_bytes_truncated : bool;
  si_truncated : bool
}.

(** ** The loop over the records *)

(** The variables of the loop in [inspect_internal]. *)
Record InspectLoop : Type := {
  il_shown : list SstableEntryInspection;
  il_shown_bytes : Z;
  il_bytes_truncated : bool;
  il_checked_entries : Z
}.

Definition kind_name (kind : ValueKind) : string :=
  match kind with Value => "value" | Deletion => "deletion" end.

Definition compression_name (c : Compression) : string :=
  match c with CompressionNone => "none" | CompressionSnappy => "snappy" end.

Definition retained_key_bytes (key : InternalKey) : Z :=
  saturating_add (zlen (ik_encoded key)) (zlen (ik_user_key key)).

Definition inspect_table_record (max_entries max_bytes : Z) (st : InspectLoop) (entry : result (InternalKey * bytes))
    : result InspectLoop :=
  let? (key, value) := entry in
  let checked_entries := saturating_add (il_checked_entries st) 1 in
  if zlen (il_shown st) <? max_entries then
    let retained := retained_key_bytes key in
    if bytes_fit (il_shown_bytes st) retained max_bytes then
      let? kind := InternalKey_kind key in
      Ok {| il_shown := il_shown st ++
              [{| sei_key_hex := encode_hex (ik_encoded key);
                  sei_user_key_hex := encode_hex (ik_user_key key);
                  sei_sequence := InternalKey_sequence key;
                  sei_kind := kind_name kind;
                  sei_value_bytes := zlen value |}];
            il_shown_bytes := il_shown_bytes st + retained;
            il_bytes_truncated := il_bytes_truncated st;
            il_checked_entries := checked_entries |}
    else
      Ok {| il_shown := il_shown st; il_shown_bytes := il_shown_bytes st;
            il_bytes_truncated := true; il_checked_entries := checked_entries |}
  else
    Ok {| il_shown := il_shown st; il_shown_bytes := il_shown_bytes st;
          il_bytes_truncated := il_bytes_truncated st; il_checked_entries := checked_entries |}.

(** [.iter().take(max_blocks).enumerate().map(..)] *)
Fixpoint inspect_blocks (index max_blocks : Z) (blocks : list (bytes * BlockHandle)) : list SstableBlockInspection :=
  match blocks with
  | [] => []
  | (_, handle) :: blocks =>
    if max_blocks =? 0 then []
    else {| sbi_index := index; sbi_offset := bh_offset handle; sbi_size := bh_size handle |} ::
           inspect_blocks (index + 1) (max_blocks - 1) blocks
  end.

Section Inspect.
  Context `{C : Crc32c} `{SN : Snappy}.

(** [for entry in self.iter()] takes the iterator's items in turn. *)
Definition inspect_internal (r : TableReader) (max_entries max_blocks max_bytes : Z) : result SstableInspection :=
  let p := rd_properties r in
  let? property_key_bytes := ok_or (checked_add (zlen (ik_encoded (tp_smallest p))) (zlen (ik_encoded (tp_largest p))))
    (InvalidArgument "SSTable property key byte count exceeds usize") in
  if max_bytes <? property_key_bytes then Err (InvalidArgument "SSTable property key bytes exceed max_bytes")
  else
    let? st := try_fold (inspect_table_record max_entries max_bytes)
      {| il_shown := []; il_shown_bytes := property_key_bytes; il_bytes_truncated := false; il_checked_entries := 0 |}
      (iter_items r TableReader_iter) in
    if negb (il_checked_entries st =? tp_entries p) then
      Err (properties_corruption "record count does not match declared")
    else
      Ok {| si_format_version := 1;
            si_file_bytes := rd_file_size r;
            si_file_number := tp_file_number p;
            si_entries := il_checked_entries st;
            si_data_blocks := tp_data_blocks p;
            si_compression := compression_name (tp_compression p);
            si_smallest_key_hex := encode_hex (ik_encoded (tp_smallest p));
            si_largest_key_hex := encode_hex (ik_encoded (tp_largest p));
            si_max_data_block_bytes := tp_max_data_block_bytes p;
            si_engine_value_encoding := tp_engine_value_encoding p;
            si_blocks := inspect_blocks 0 max_blocks (rd_index r);
            si_blocks_truncated := max_blocks <? zlen (rd_index r);
            si_shown := il_shown st;
            si_shown_bytes := il_shown_bytes st;
            si_bytes_truncated := il_bytes_truncated st;
            si_truncated := zlen (il_shown st) <? il_checked_entries st |}.

Definition TableReader_inspect (r : TableReader) (max_entries max_blocks : Z) : result SstableInspection :=
  inspect_internal r max_entries max_blocks USIZE_MAX.

Definition inspect_with_limits (r : TableReader) (max_entries max_blocks max_bytes : Z) : result SstableInspection :=
  if (max_entries =? 0) || (max_blocks =? 0) || (max_bytes =? 0) then
    Err (InvalidArgument "SSTable inspection limits must be greater than zero")
  else inspect_internal r max_entries max_blocks max_bytes.
End Inspect.

(** ** What an inspection shows *)

Definition shows_record (e : record) (d : SstableEntryInspection) : Prop :=
  ∃ kind, InternalKey_kind e.1 = Ok kind ∧
    d = {| sei_key_hex := encode_hex (ik_encoded e.1); sei_user_key_hex := encode_hex (ik_user_key e.1);
           sei_sequence := InternalKey_sequence e.1; sei_kind := kind_name kind; sei_value_bytes := zlen e.2 |}.

Definition property_bytes (p : TableProperties) : Z := zlen (ik_encoded (tp_smallest p)) + zlen (ik_encoded (tp_largest p)).

Definition retained_total (es : list record) : Z := sum_of (λ e : record, retained_key_bytes e.1) es.

(** The document of a table with the records [es], of which it shows [kept]. *)
Record describes_table (r : TableReader) (max_entries max_blocks max_bytes : Z) (es kept : list record)
    (i : SstableInspection) : Prop := {
  dt_format : si_format_version i = 1;
  dt_file : si_file_bytes i = rd_file_size r;
  dt_number : si_file_number i = tp_file_number (rd_properties r);
  dt_entries : si_entries i = zlen es;
  dt_blocks_total : si_data_blocks i = tp_data_blocks (rd_properties r);
  dt_compression : si_compression i = compression_name (tp_compression (rd_properties r));
  dt_keys : si_smallest_key_hex i = encode_hex (ik_encoded (tp_smallest (rd_properties r))) ∧
            si_largest_key_hex i = encode_hex (ik_encoded (tp_largest (rd_properties r)));
  dt_encoding : si_engine_value_encoding i = tp_engine_value_encoding (rd_properties r);
  dt_block_bytes : si_max_data_block_bytes i = tp_max_data_block_bytes (rd_properties r);
  dt_blocks : si_blocks i =
    imap (λ n b, {| sbi_index := Z.of_nat n; sbi_offset := bh_offset b.2; sbi_size := bh_size b.2 |})
      (take (Z.to_nat (Z.min max_blocks (zlen (rd_index r)))) (rd_index r));
  dt_blocks_truncated : si_blocks_truncated i = true ↔ zlen (si_blocks i) < zlen (rd_index r);
  dt_shown : Forall2 shows_record kept (si_shown i);
  dt_kept : kept `sublist_of` es;
  dt_max_entries : zlen kept ≤ max_entries;
  dt_shown_bytes : si_shown_bytes i = property_bytes (rd_properties r) + retained_total kept;
  dt_max_bytes : si_shown_bytes i ≤ max_bytes;
  dt_truncated : si_truncated i = true ↔ kept ≠ es;
  dt_bytes_truncated : si_bytes_truncated i = true ↔ kept ≠ take (Z.to_nat (Z.min max_entries (zlen es))) es
}.

(** ** Lemmas *)

Lemma retained_nonneg k : 0 ≤ retained_key_bytes k.
Proof. unfold retained_key_bytes, saturating_add, USIZE_MAX, U64_MAX. zlen_pos. lia. Qed.

Lemma decode_kind e k : InternalKey_decode e = Ok k → ∃ kd, InternalKey_kind k = Ok kd.
Proof.
  unfold InternalKey_decode, InternalKey_kind. intros H. inv_ok H.
  all: cbn [ik_encoded]; match goal with E : ok_or (get_at (zlen ?e - 1) ?e) _ = Ok _ |- _ => rewrite E end.
  all: unfold expect; match goal with E : ValueKind_from_byte ?b = Ok _ |- _ => rewrite E end; eauto.
Qed.

Lemma block_items_kind kvs rest k v :
  Ok (k, v) ∈ block_items kvs rest → (∃ kd, InternalKey_kind k = Ok kd) ∨ Ok (k, v) ∈ rest.
Proof.
  induction kvs as [|[k0 v0] kvs IH]; cbn [block_items]; [by right|].
  destruct (InternalKey_decode k0) as [k1|] eqn:E; rewrite elem_of_cons.
  - intros [[= -> ->]|H]; [left; by eapply decode_kind|auto].
  - by intros [?|?%elem_of_nil].
Qed.

Section Items.
  Context `{C : Crc32c} `{SN : Snappy}.

Lemma items_kind r k v : Ok (k, v) ∈ iter_items r TableReader_iter → ∃ kd, InternalKey_kind k = Ok kd.
Proof.
  unfold iter_items. cbn [ti_failed TableReader_iter ti_entries ti_block_index block_items].
  generalize (drop (Z.to_nat 0) (rd_index r)). intros index. induction index as [|[key h] index IH]; cbn [index_items].
  { by intros ?%elem_of_nil. }
  destruct (let? block := read_data_block r h in Block_entries block) as [kvs|].
  - by intros [?|?]%block_items_kind; [|apply IH].
  - by intros ?%list_elem_of_singleton.
Qed.
End Items.

Section Loop.
  Context (max_entries max_bytes pb : Z) (Hme : 0 ≤ max_entries) (Hmx : max_bytes ≤ USIZE_MAX).

Definition refused_at (es kept : list record) : Prop :=
  ∃ pre x post k2, es = pre ++ x :: post ∧ zlen pre < max_entries ∧ kept = pre ++ k2 ∧
    Forall (λ y : record, retained_key_bytes y.1 < retained_key_bytes x.1) k2 ∧
    max_bytes < pb + retained_total pre + retained_key_bytes x.1.

Record loop_inv (es kept : list record) (st : InspectLoop) : Prop := {
  li_shown : Forall2 shows_record kept (il_shown st);
  li_kept : kept `sublist_of` es;
  li_entries : zlen kept ≤ max_entries;
  li_bytes : il_shown_bytes st = pb + retained_total kept;
  li_max : il_shown_bytes st ≤ max_bytes;
  li_checked : il_checked_entries st = zlen es;
  li_truncated : if il_bytes_truncated st then refused_at es kept
                 else kept = take (Z.to_nat (Z.min max_entries (zlen es))) es
}.

Lemma refused_more es kept e k2 :
  refused_at es kept → Forall (λ y : record, pb + retained_total kept + retained_key_bytes y.1 ≤ max_bytes) k2 →
  refused_at (es ++ [e]) (kept ++ k2).
Proof using.
  intros (pre & x & post & k & -> & Hpre & -> & Hk & Hx) H2.
  exists pre, x, (post ++ [e]), (k ++ k2). split; [by rewrite <- app_assoc|]. split; [done|]. split; [by rewrite app_assoc|].
  split; [|done]. apply Forall_app. split; [done|]. eapply Forall_impl; [exact H2|]. intros y Hy. cbn in Hy.
  unfold retained_total in *. rewrite sum_of_app in Hy.
  pose proof (sum_of_nonneg (λ e : record, retained_key_bytes e.1) k ltac:(intros; apply retained_nonneg)). lia.
Qed.

Lemma loop_step es kept st e :
  loop_inv es kept st → (∃ kd, InternalKey_kind e.1 = Ok kd) → zlen es + 1 ≤ USIZE_MAX →
  ∃ st' kept', inspect_table_record max_entries max_bytes st (Ok e) = Ok st' ∧ loop_inv (es ++ [e]) kept' st'.
Proof using Hme Hmx.
  intros [Hs Hk He Hb Hm Hc Ht] [kd Hkd] Hlen. destruct e as [key value]. cbn [fst] in Hkd.
  assert (saturating_add (il_checked_entries st) 1 = zlen (es ++ [(key, value)])) as Hchk.
  { rewrite Hc, zlen_app. unfold saturating_add. change (zlen [(key, value)]) with 1. lia. }
  unfold inspect_table_record. rewrite Hchk.
  assert (zlen (il_shown st) = zlen kept) as -> by (unfold zlen; by rewrite (Forall2_length _ _ _ Hs)).
  pose proof (sublist_length _ _ Hk) as Hkl. pose proof (zlen_nonneg es).
  assert (∀ k2, if il_bytes_truncated st then Forall (λ y : record, pb + retained_total kept + retained_key_bytes y.1 ≤ max_bytes) k2 → 
    refused_at (es ++ [(key, value)]) (kept ++ k2) else True) as Hmore.
  { intros k2. destruct (il_bytes_truncated st); [|done]. by apply refused_more. }
  destruct (Z.ltb_spec (zlen kept) max_entries) as [Hlt|Hge].
  - assert (il_bytes_truncated st = false → kept = es) as Hall.
    { intros Hf. rewrite Hf in Ht. rewrite Ht. apply take_ge. rewrite Ht in Hlt. rewrite zlen_take in Hlt by lia. unfold zlen in *. lia. }
    rewrite bytes_fit_spec by done. case_bool_decide as Hfit.
    + rewrite Hkd. eexists _, (kept ++ [(key, value)]). split; [done|]. rewrite Hb in Hfit.
      split; cbn [il_shown il_shown_bytes il_bytes_truncated il_checked_entries].
      * apply Forall2_app; [done|]. constructor; [|constructor]. by exists kd.
      * by apply sublist_app.
      * rewrite zlen_app. change (zlen [(key, value)]) with 1. lia.
      * rewrite Hb. unfold retained_total. rewrite sum_of_snoc. cbn. lia.
      * lia.
      * done.
      * destruct (il_bytes_truncated st).
        -- apply Hmore. by constructor; [cbn|].
        -- rewrite (Hall eq_refl) in *. rewrite take_ge; [done|]. rewrite !zlen_app in *. rewrite length_app. change (zlen [(key, value)]) with 1.
           unfold zlen in *. cbn. lia.
    + eexists _, kept. split; [done|].
      split; cbn [il_shown il_shown_bytes il_bytes_truncated il_checked_entries]; try done.
      * by apply sublist_inserts_r.
      * destruct (il_bytes_truncated st) eqn:Et; [specialize (Hmore []); rewrite app_nil_r in Hmore; by apply Hmore|].
        rewrite <- (Hall eq_refl) in *. exists kept, (key, value), [], []. rewrite app_nil_r. rewrite Hb in Hfit.
        split; [done|]. split; [done|]. split; [done|]. split; [constructor|cbn; lia].
  - eexists _, kept. split; [done|].
    split; cbn [il_shown il_shown_bytes il_bytes_truncated il_checked_entries]; try done.
    + by apply sublist_inserts_r.
    + destruct (il_bytes_truncated st); [specialize (Hmore []); rewrite app_nil_r in Hmore; by apply Hmore|].
      rewrite zlen_app. change (zlen [(key, value)]) with 1. rewrite take_app_le by (unfold zlen in *; lia).
      rewrite Ht at 1. f_equal. unfold zlen in *. lia.
Qed.
End Loop.

Lemma loop_fold me mx pb items : 0 ≤ me → mx ≤ USIZE_MAX → ∀ done kept st,
  loop_inv me mx pb done kept st → (∀ k v, Ok (k, v) ∈ items → ∃ kd, InternalKey_kind k = Ok kd) →
  zlen done + zlen items ≤ USIZE_MAX →
  match try_fold (inspect_table_record me mx) st items with
  | Ok st' => ∃ es kept', items = map Ok es ∧ loop_inv me mx pb (done ++ es) kept' st'
  | Err _ => ∀ es, items ≠ map Ok es
  end.
Proof.
  intros Hme Hmx. induction items as [|[e|x] items IH]; intros done kept st Hinv Hk Hlen; cbn [try_fold].
  - exists [], kept. by rewrite app_nil_r.
  - rewrite zlen_cons in Hlen. pose proof (zlen_nonneg items).
    destruct (loop_step me mx pb Hme Hmx _ _ _ e Hinv) as (st1 & kept1 & -> & Hinv1); [|lia|].
    { destruct e as [k v]. apply (Hk k v). by left. }
    specialize (IH _ _ _ Hinv1 ltac:(intros k v Hin; apply (Hk k v); by right) ltac:(rewrite zlen_app; change (zlen [e]) with 1; lia)).
    destruct (try_fold _ st1 items) as [st2|].
    + destruct IH as (es & kept2 & -> & Hinv2). exists (e :: es), kept2. by rewrite <- app_assoc in Hinv2.
    + intros [|e' es]; [done|]. cbn. intros [= _ ->]. by eapply IH.
  - by intros [|e es].
Qed.

Lemma map_Ok_inj {A} (l k : list A) : map Ok l = map Ok k → l = k.
Proof. revert k. induction l as [|a l IH]; intros [|b k]; try done. cbn. intros [= -> H]. f_equal. by apply IH. Qed.

Lemma inspect_blocks_spec i max l :
  0 ≤ max → inspect_blocks i max l =
    imap (λ n b, {| sbi_index := i + Z.of_nat n; sbi_offset := bh_offset b.2; sbi_size := bh_size b.2 |})
      (take (Z.to_nat (Z.min max (zlen l))) l).
Proof.
  revert i max. induction l as [|[k h] l IH]; intros i max Hm; cbn [inspect_blocks]; [by rewrite take_nil|].
  rewrite zlen_cons. pose proof (zlen_nonneg l). destruct (Z.eqb_spec max 0) as [->|Hne].
  { by rewrite Z.min_l by lia. }
  rewrite IH by lia. replace (Z.to_nat (max `min` (1 + zlen l))) with (S (Z.to_nat ((max - 1) `min` zlen l))) by lia.
  cbn [take imap]. rewrite Z.add_0_r. f_equal. apply imap_ext. intros n b _. cbn. f_equal. lia.
Qed.

Section Agreement.
  Context `{C : Crc32c} `{SN : Snappy}.

Lemma table_collect_S fuel r it :
  table_collect (S fuel) r it =
    match TableIter_next r it with
    | (None, _) => Ok []
    | (Some item, it) => let? kv := item in let? rest := table_collect fuel r it in Ok (kv :: rest)
    end.
Proof. done. Qed.

(** The iterator's items are records exactly when collecting it returns them. *)
Lemma items_collect es : ∀ r it,
  0 ≤ ti_block_index it → iter_items r it = map Ok es → table_collect (S (length es)) r it = Ok es.
Proof.
  induction es as [|e es IH]; intros r it Hi H; rewrite table_collect_S;
    pose proof (next_items (S (length (rd_index r))) r it Hi ltac:(lia)) as Hn;
    unfold TableIter_next; rewrite H in Hn; destruct (next_table_entry _ r it) as [[x|] it'].
  - by destruct Hn.
  - done.
  - destruct Hn as [[= <- Hes] Hi']. cbn [length]. by rewrite (IH r it' Hi' (eq_sym Hes)).
  - by destruct Hn.
Qed.

Lemma kept_prefix me mx pb es kept st :
  loop_inv me mx pb es kept st → il_bytes_truncated st = true ↔ kept ≠ take (Z.to_nat (Z.min me (zlen es))) es.
Proof.
  intros [_ _ _ _ _ _ Ht]. destruct (il_bytes_truncated st); [|by rewrite Ht]. split; [|done]. intros _.
  destruct Ht as (pre & x & post & k2 & -> & Hpre & -> & Hk2 & _). intros Heq.
  apply (f_equal (λ l, l !! length pre)) in Heq.
  rewrite lookup_app_r, Nat.sub_diag in Heq by lia. rewrite lookup_take_lt, list_lookup_middle in Heq;
    [|done|rewrite zlen_app, zlen_cons; zlen_pos; unfold zlen in *; lia].
  destruct k2 as [|y k2]; [done|]. injection Heq as ->. apply Forall_cons in Hk2 as [? _]. lia.
Qed.
End Agreement.

(** ** Property *)

Section Exact.
  Context `{C : Crc32c} `{SN : Snappy}.

(** [C21] Inspecting an open table, whatever its file holds: it succeeds exactly when the
    limits are positive and cover the bounds' keys, every block and key can be read and
    the records are as many as the properties say; the document then lists the first
    blocks and, within the limits, records of the table in order, and says truthfully
    whether records or blocks were left out, and whether for their bytes. *)
Theorem table_inspection_exact (r : TableReader) (max_entries max_blocks max_bytes : Z) :
  0 ≤ max_entries → 0 ≤ max_blocks → 0 ≤ max_bytes ≤ USIZE_MAX →
  zlen (iter_items r TableReader_iter) ≤ USIZE_MAX →
  match inspect_with_limits r max_entries max_blocks max_bytes with
  | Ok i => ∃ es kept, table_collect (S (length es)) r TableReader_iter = Ok es ∧
      zlen es = tp_entries (rd_properties r) ∧ property_bytes (rd_properties r) ≤ max_bytes ∧
      0 < max_entries ∧ 0 < max_blocks ∧ describes_table r max_entries max_blocks max_bytes es kept i
  | Err _ => ∀ fuel es, table_collect fuel r TableReader_iter = Ok es →
      zlen es = tp_entries (rd_properties r) → property_bytes (rd_properties r) ≤ max_bytes →
      0 < max_entries → 0 < max_blocks → 0 < max_bytes → False
  end.
Proof.
  intros Hme Hmb Hmx Hitems. unfold inspect_with_limits.
  destruct ((max_entries =? 0) || (max_blocks =? 0) || (max_bytes =? 0)) eqn:Ez.
  { intros fuel es _ _ _ H1 H2 H3. rewrite !orb_true_iff, !Z.eqb_eq in Ez. lia. }
  rewrite !orb_false_iff, !Z.eqb_neq in Ez. unfold inspect_internal, checked_add. fold (property_bytes (rd_properties r)).
  destruct (Z.leb_spec (property_bytes (rd_properties r)) USIZE_MAX); cbn [ok_or]; [|intros fuel es _ _ Hp; lia].
  destruct (Z.ltb_spec max_bytes (property_bytes (rd_properties r))); [intros fuel es _ _ Hp; lia|].
  pose proof (loop_fold max_entries max_bytes (property_bytes (rd_properties r)) (iter_items r TableReader_iter) Hme (proj2 Hmx)
    [] [] {| il_shown := []; il_shown_bytes := property_bytes (rd_properties r); il_bytes_truncated := false; il_checked_entries := 0 |}) as Hloop.
  specialize (Hloop ltac:(split; cbn; [constructor|constructor|zlen_nils; lia|unfold retained_total, sum_of; cbn; lia|lia|done|by rewrite take_nil])
    (items_kind r) ltac:(zlen_nils; lia)).
  destruct (try_fold _ _ _) as [st|].
  2:{ intros fuel es Hc%collect_items; [|done]. by destruct (Hloop es). }
  destruct Hloop as (es & kept & Hes & Hinv). cbn [app] in Hinv.
  assert (∀ fuel es', table_collect fuel r TableReader_iter = Ok es' → es' = es) as Hsame.
  { intros fuel es' Hc%collect_items; [|done]. rewrite Hes in Hc. symmetry in Hc. revert Hc. apply map_Ok_inj. }
  pose proof (li_checked _ _ _ _ _ _ Hinv) as Hchk. rewrite Hchk.
  destruct (Z.eqb_spec (zlen es) (tp_entries (rd_properties r))) as [Heq|Hneq]; cbn [negb].
  2:{ intros fuel es' ->%Hsame. done. }
  exists es, kept. split; [by apply items_collect|]. split; [done|]. split; [done|]. split; [lia|]. split; [lia|].
  pose proof (Forall2_length _ _ _ (li_shown _ _ _ _ _ _ Hinv)) as Hlen.
  pose proof (li_kept _ _ _ _ _ _ Hinv) as Hk. pose proof (sublist_length _ _ Hk).
  split; cbn; try apply Hinv; try done.
  - by rewrite inspect_blocks_spec.
  - rewrite Z.ltb_lt, inspect_blocks_spec by done. pose proof (zlen_nonneg (rd_index r)).
    replace (zlen (imap _ _)) with (Z.min max_blocks (zlen (rd_index r))); [lia|].
    unfold zlen at 2. rewrite length_imap, length_take. unfold zlen in *. lia.
  - rewrite Z.ltb_lt. unfold zlen. rewrite <- Hlen. split; [intros Hlt ->; lia|]. intros Hne.
    destruct (Nat.lt_ge_cases (length kept) (length es)); [lia|]. destruct Hne. by apply sublist_full.
  - by eapply kept_prefix.
Qed.
End Exact.

(** ** Witness *)

(** A reader of a table of three records in two blocks. *)
Definition sample_reader : result TableReader :=
  let? (_, file) := build_table (C := Castagnoli.crc) (SN := identity_snappy) 1 16 2 10 CompressionNone sample_records in
  open_internal (C := Castagnoli.crc) file TableReaderOptions_default (Some 1).

(** Witness of C21: two of the three records are shown. *)
Lemma table_inspection_exact_witness :
  ∃ r i, sample_reader = Ok r ∧
    inspect_with_limits (C := Castagnoli.crc) (SN := identity_snappy) r 2 1 80 = Ok i ∧
    si_entries i = 3 ∧ si_truncated i = true ∧ si_bytes_truncated i = false ∧
    ∃ es kept, table_collect (C := Castagnoli.crc) (SN := identity_snappy) (S (length es)) r TableReader_iter = Ok es ∧
      describes_table r 2 1 80 es kept i.
Proof.
  assert (match sample_reader with
    | Ok r => zlen (iter_items (C := Castagnoli.crc) (SN := identity_snappy) r TableReader_iter) ≤ USIZE_MAX ∧
        match inspect_with_limits (C := Castagnoli.crc) (SN := identity_snappy) r 2 1 80 with
        | Ok i => si_entries i = 3 ∧ si_truncated i = true ∧ si_bytes_truncated i = false
        | Err _ => False
        end
    | Err _ => False
    end) as H by (vm_compute; repeat split; discriminate).
  destruct sample_reader as [r|]; [|destruct H]. destruct H as [Hlen H].
  pose proof (@table_inspection_exact Castagnoli.crc identity_snappy r 2 1 80 ltac:(lia) ltac:(lia)
    ltac:(unfold USIZE_MAX, U64_MAX; lia) Hlen) as Ht.
  destruct (inspect_with_limits (C := Castagnoli.crc) (SN := identity_snappy) r 2 1 80) as [i|] eqn:E; [|destruct H].
  destruct Ht as (es & kept & Hc & _ & _ & _ & _ & Hd). exists r, i. split; [reflexivity|]. split; [exact E|].
  destruct H as (H1 & H2 & H3). do 3 (split; [assumption|]). exists es, kept. split; assumption.
Defined.
