(* ===== verification/Compaction.v ===== *)
(** * Compaction planning and retention (src/crates/meteordb/src/compaction.rs)

    The picker with its f64 scores, the expansion of a plan to every overlapping
    file, and the choice of the versions a compaction keeps.  Floats are the
    Standard Library's specification of binary64 arithmetic. *)

From Stdlib Require Import ZArith Lia Sorting.Sorted SpecFloat.
From stdpp Require Import base list gmap strings.
From S2P Require Import Prelude InternalKey Batch ValueRecord Mvcc Version.

Local Open Scope Z_scope.

(** ** Scores *)

(** [x as f64] for a [u64] or [usize], rounding to nearest even. *)
Definition f64_from (x : Z) : spec_float := binary_normalize 53 1024 x 0 false.
Definition f64_div (x y : spec_float) : spec_float := SFdiv 53 1024 x y.
Definition f64_gt (x y : spec_float) : bool := SFltb y x.
Definition f64_one : spec_float := f64_from 1.

Definition DEFAULT_L0_COMPACTION_TRIGGER : Z := 4.

Record CompactionPicker : Type := {
  cp_l0_trigger : Z;
  cp_level_base_bytes : Z
}.

Definition CompactionPicker_new (l0_trigger level_base_bytes : Z) : CompactionPicker :=
  {| cp_l0_trigger := Z.max l0_trigger 1; cp_level_base_bytes := Z.max level_base_bytes 1 |}.

Definition level_target (p : CompactionPicker) (level : Z) : Z := cp_level_base_bytes p.

Record CompactionPlan : Type := {
  pl_input_level : Z;
  pl_output_level : Z;
  pl_inputs : list FileMeta;
  pl_overlaps : list FileMeta;
  pl_score : spec_float
}.

(** ** Plans *)

Definition ranges_overlap (file : FileMeta) (smallest largest : bytes) : bool :=
  lex_leb (ik_user_key (fm_smallest file)) largest &&
  lex_leb smallest (ik_user_key (fm_largest file)).

Definition user_range_step (range : option bytes * option bytes) (file : FileMeta)
    : option bytes * option bytes :=
  let '(smallest, largest) := range in
  let file_smallest := ik_user_key (fm_smallest file) in
  let file_largest := ik_user_key (fm_largest file) in
  (if match smallest with Some key => lex_ltb file_smallest key | None => true end
   then Some file_smallest else smallest,
   if match largest with Some key => lex_ltb key file_largest | None => true end
   then Some file_largest else largest).

Definition user_range (files : list FileMeta) : result (bytes * bytes) :=
  let '(smallest, largest) := fold_left user_range_step files (None, None) in
  let? smallest := ok_or smallest (Panicked "compaction has at least one input") in
  let? largest := ok_or largest (Panicked "compaction has at least one input") in
  Ok (smallest, largest).

(** The [loop] of [make_plan]: widen until nothing changes. *)
Fixpoint expand_plan (fuel : nat) (version : Version) (level : Z)
    (inputs overlaps : list FileMeta) : result (list FileMeta * list FileMeta) :=
  match fuel with
  | O => Err (Panicked "loop bound")
  | S fuel =>
    let? (smallest, largest) := user_range (inputs ++ overlaps) in
    let? output_files := Version_files version (level + 1) in
    let next_overlaps := List.filter (λ file, ranges_overlap file smallest largest) output_files in
    let? (expanded_smallest, expanded_largest) := user_range (inputs ++ next_overlaps) in
    let? input_files := Version_files version level in
    let expanded_inputs :=
      if level =? 0 then inputs
      else List.filter (λ file, ranges_overlap file expanded_smallest expanded_largest) input_files in
    if bool_decide (next_overlaps = overlaps) && bool_decide (expanded_inputs = inputs)
    then Ok (inputs, overlaps)
    else expand_plan fuel version level expanded_inputs next_overlaps
  end.

(** Each round that is not the last one adds a file. *)
Definition plan_fuel (version : Version) (level : Z) : nat :=
  S (length (level_files version level) + length (level_files version (level + 1))).

Definition make_plan (version : Version) (level : Z) (score : spec_float)
    : result (option CompactionPlan) :=
  let? files := Version_files version level in
  let inputs := if level =? 0 then files else take 1 files in
  if bool_decide (inputs = []) then Ok None
  else
    let? (inputs, overlaps) := expand_plan (plan_fuel version level) version level inputs [] in
    Ok (Some {| pl_input_level := level; pl_output_level := level + 1;
                pl_inputs := inputs; pl_overlaps := overlaps; pl_score := score |}).

(** [iter().sum::<u64>()]: an overflow panics where overflow checks are on. *)
Definition sum_u64 (sizes : list Z) : result Z :=
  try_fold (λ total size, ok_or (checked_add total size) (Panicked "attempt to add with overflow")) 0 sizes.

Definition level_score (p : CompactionPicker) (version : Version) (level : Z) : result spec_float :=
  let? files := Version_files version level in
  if level =? 0 then Ok (f64_div (f64_from (zlen files)) (f64_from (cp_l0_trigger p)))
  else
    let? bytes := sum_u64 (map fm_file_size files) in
    Ok (f64_div (f64_from bytes) (f64_from (level_target p level))).

(** One round of the loop over the levels. *)
Definition pick_level (p : CompactionPicker) (version : Version)
    (selected : option CompactionPlan) (level : Z) : result (option CompactionPlan) :=
  let? score := level_score p version level in
  if f64_gt score f64_one &&
     match selected with Some plan => f64_gt score (pl_score plan) | None => true end
  then make_plan version level score else Ok selected.

(** [0..NUM_LEVELS - 1] *)
Definition input_levels : list Z := [0; 1; 2; 3; 4; 5].

Definition pick (p : CompactionPicker) (version : Version) : result (option CompactionPlan) :=
  try_fold (pick_level p version) None input_levels.

(** ** Retention *)

Definition key_may_exist_below (version : Version) (output_level : Z) (key : bytes) : bool :=
  existsb (λ files,
    existsb (λ file, lex_leb (ik_user_key (fm_smallest file)) key &&
                     lex_leb key (ik_user_key (fm_largest file))) files)
    (drop (Z.to_nat (output_level + 1)) version).

(** The first loop of [retain_versions]: an expired value becomes a tombstone. *)
Definition expire_entry (read_time_unix_ms : Z) (e : entry) : result entry :=
  match e.2 with
  | VValue _ (Some expires) =>
    if expires <=? read_time_unix_ms then
      let? key := expect (InternalKey_try_new (ik_user_key e.1) (InternalKey_sequence e.1) Deletion)
        "an existing internal key remains valid when changed to a tombstone" in
      Ok (key, VTombstone)
    else Ok e
  | _ => Ok e
  end.

(** The second loop; [retained] is the vector so far. *)
Fixpoint retain_loop (oldest_snapshot : option Z) (retained : list entry) (kept_snapshot_base : bool)
    (entries : list entry) : list entry :=
  match entries with
  | [] => retained
  | e :: entries =>
    if bool_decide (retained = []) then
      let kept_snapshot_base :=
        match oldest_snapshot with
        | Some snapshot => if e_seq e <=? snapshot then true else kept_snapshot_base
        | None => kept_snapshot_base
        end in
      retain_loop oldest_snapshot (retained ++ [e]) kept_snapshot_base entries
    else
      match oldest_snapshot with
      | Some snapshot =>
        if snapshot <? e_seq e then
          retain_loop oldest_snapshot (retained ++ [e]) kept_snapshot_base entries
        else if negb kept_snapshot_base then
          retain_loop oldest_snapshot (retained ++ [e]) true entries
        else retain_loop oldest_snapshot retained kept_snapshot_base entries
      | None => retain_loop oldest_snapshot retained kept_snapshot_base entries
      end
  end.

Definition retain_versions (entries : list entry) (oldest_snapshot : option Z)
    (key_may_exist_below : bool) (read_time_unix_ms : Z) : result (list entry) :=
  let? entries := try_map (expire_entry read_time_unix_ms) entries in
  let retained := retain_loop oldest_snapshot [] false entries in
  match retained with
  | [] => Ok []
  | e :: _ =>
    let? kind := InternalKey_kind e.1 in
    if bool_decide (kind = Deletion) && negb key_may_exist_below &&
       match oldest_snapshot with Some snapshot => e_seq e <=? snapshot | None => true end
    then Ok [] else Ok retained
  end.

(** ** Lists *)

Lemma sublist_filter_b {A} (f : A → bool) l files :
  l `sublist_of` files → (∀ x, x ∈ l → f x = true) → l `sublist_of` List.filter f files.
Proof.
  induction 1 as [|x l files Hs IH|x l files Hs IH]; intros Hf; cbn; [constructor| |].
  - rewrite (Hf x) by (by left). constructor. apply IH. intros y Hy. apply Hf. by right.
  - destruct (f x); [constructor|]; auto.
Qed.

Lemma filter_sublist {A} (f : A → bool) l : List.filter f l `sublist_of` l.
Proof. induction l as [|x l IH]; cbn; [constructor|]. destruct (f x); by constructor. Qed.

Lemma sublist_same_length {A} (l k : list A) :
  l `sublist_of` k → (length k ≤ length l)%nat → l = k.
Proof.
  induction 1 as [|x l k Hs IH|x l k Hs IH]; cbn; intros Hle; [done|f_equal; apply IH; lia|].
  pose proof (sublist_length _ _ Hs). lia.
Qed.

(** ** Ranges *)

(** [s] and [l] are the least smallest and the greatest largest key of [files]. *)
Definition range_of (files : list FileMeta) (s l : bytes) : Prop :=
  (∃ f, f ∈ files ∧ s = ik_user_key (fm_smallest f)) ∧
  (∃ f, f ∈ files ∧ l = ik_user_key (fm_largest f)) ∧
  ∀ f, f ∈ files → lex_cmp s (ik_user_key (fm_smallest f)) ≠ Gt ∧
                   lex_cmp (ik_user_key (fm_largest f)) l ≠ Gt.

Lemma lex_min a b :
  let m := if lex_ltb a b then a else b in
  lex_cmp m a ≠ Gt ∧ lex_cmp m b ≠ Gt ∧ (m = a ∨ m = b).
Proof.
  cbn. unfold lex_ltb. destruct (lex_cmp a b) eqn:E; rewrite ?lex_cmp_refl, ?E; auto.
  - rewrite (cmp_antisym (cmp := lex_cmp)), E. auto.
  - rewrite (cmp_antisym (cmp := lex_cmp)), E. auto.
Qed.

Lemma lex_max a b :
  let m := if lex_ltb b a then a else b in
  lex_cmp a m ≠ Gt ∧ lex_cmp b m ≠ Gt ∧ (m = a ∨ m = b).
Proof.
  cbn. unfold lex_ltb. destruct (lex_cmp b a) eqn:E; rewrite ?lex_cmp_refl, ?E; auto.
  - rewrite (cmp_antisym (cmp := lex_cmp)), E. auto.
  - rewrite (cmp_antisym (cmp := lex_cmp)), E. auto.
Qed.

Lemma range_of_snoc files s l f :
  range_of files s l →
  range_of (files ++ [f])
    (if lex_ltb (ik_user_key (fm_smallest f)) s then ik_user_key (fm_smallest f) else s)
    (if lex_ltb l (ik_user_key (fm_largest f)) then ik_user_key (fm_largest f) else l).
Proof.
  intros ((fs & Hfs & Hs) & (fl & Hfl & Hl) & Hall).
  destruct (lex_min (ik_user_key (fm_smallest f)) s) as (Hm1 & Hm2 & Hm).
  destruct (lex_max (ik_user_key (fm_largest f)) l) as (Hn1 & Hn2 & Hn).
  split; [|split].
  - destruct Hm as [->| ->]; [exists f|exists fs]; (split; [|done]); apply elem_of_app; [right; by left|by left].
  - destruct Hn as [->| ->]; [exists f|exists fl]; (split; [|done]); apply elem_of_app; [right; by left|by left].
  - intros g [Hg| ->%list_elem_of_singleton]%elem_of_app; [|done]. destruct (Hall g Hg) as [H1 H2].
    split; [exact (cmp_le_trans (cmp := lex_cmp) _ _ _ Hm2 H1)|exact (cmp_le_trans (cmp := lex_cmp) _ _ _ H2 Hn2)].
Qed.

Lemma user_range_fold files :
  match fold_left user_range_step files (None, None) with
  | (Some s, Some l) => range_of files s l
  | (None, None) => files = []
  | _ => False
  end.
Proof.
  induction files as [|f files IH] using rev_ind; [done|]. rewrite fold_left_app. cbn [fold_left].
  destruct (fold_left _ files _) as [[s|] [l|]]; try done; cbn [user_range_step].
  - pose proof (range_of_snoc files s l f IH) as H. by destruct (lex_ltb _ s), (lex_ltb l _).
  - subst files. split; [|split]; [exists f; split; [by left|done]..|].
    intros g ->%list_elem_of_singleton. by rewrite !lex_cmp_refl.
Qed.

Lemma user_range_spec files :
  files ≠ [] → ∃ s l, user_range files = Ok (s, l) ∧ range_of files s l.
Proof.
  intros Hne. unfold user_range. pose proof (user_range_fold files) as H.
  destruct (fold_left _ files _) as [[s|] [l|]]; try done. by exists s, l.
Qed.

Lemma in_range_overlaps files s l f :
  range_of files s l → meta_wf f → f ∈ files → ranges_overlap f s l = true.
Proof.
  intros (_ & _ & H) Hf Hin. destruct (H f Hin) as [H1 H2]. pose proof (meta_user_range f Hf) as Ho.
  unfold ranges_overlap. rewrite andb_true_iff, !lex_leb_le.
  split; eapply (cmp_le_trans (cmp := lex_cmp)); eauto.
Qed.

(** ** Expansion *)

(** The two levels of a plan, inside the version. *)
Record expansion (v : Version) (level : Z) (inputs overlaps : list FileMeta) : Prop := {
  ex_some : inputs ≠ [];
  ex_inputs : inputs `sublist_of` level_files v level;
  ex_level0 : level = 0 → inputs = level_files v 0;
  ex_overlaps : overlaps `sublist_of` level_files v (level + 1)
}.

(** A user key between the least and the greatest key of a set of files. *)
Definition in_files_range (files : list FileMeta) (u : bytes) : Prop :=
  (∃ f, f ∈ files ∧ lex_cmp (ik_user_key (fm_smallest f)) u ≠ Gt) ∧
  (∃ f, f ∈ files ∧ lex_cmp u (ik_user_key (fm_largest f)) ≠ Gt).

(** Nothing outside the plan, in its two levels, shares a key with its range. *)
Definition plan_closed (v : Version) (level : Z) (inputs overlaps : list FileMeta) : Prop :=
  ∀ f u, file_covers u f → in_files_range (inputs ++ overlaps) u →
    (f ∈ level_files v level → f ∈ inputs) ∧ (f ∈ level_files v (level + 1) → f ∈ overlaps).

Lemma covers_overlap files s l f u :
  range_of files s l → in_files_range files u → file_covers u f → ranges_overlap f s l = true.
Proof.
  intros (_ & _ & H) ((f1 & Hf1 & Hu1) & (f2 & Hf2 & Hu2)) [Hs Hl].
  destruct (H f1 Hf1) as [Hs1 _]. destruct (H f2 Hf2) as [_ Hl2].
  unfold ranges_overlap. rewrite andb_true_iff, !lex_leb_le. split.
  - apply (cmp_le_trans (cmp := lex_cmp) _ u); [done|].
    exact (cmp_le_trans (cmp := lex_cmp) _ _ _ Hu2 Hl2).
  - apply (cmp_le_trans (cmp := lex_cmp) _ u); [|done].
    exact (cmp_le_trans (cmp := lex_cmp) _ _ _ Hs1 Hu1).
Qed.

Lemma Version_files_ok v level :
  version_wf v → 0 ≤ level < 7 → Version_files v level = Ok (level_files v level).
Proof.
  intros Hv Hl. pose proof (vw_levels _ Hv) as Hlen. unfold Version_files, index_or_panic, get_at, level_files.
  rewrite (proj2 (Z.ltb_ge level 0)) by lia. cbn.
  destruct (lookup_lt_is_Some_2 v (Z.to_nat level)) as [files Hf]; [rewrite Hlen; unfold NUM_LEVELS; lia|].
  by rewrite Hf.
Qed.

Lemma level_files_wf v level f : version_wf v → f ∈ level_files v level → meta_wf f.
Proof. intros Hv Hf. apply (elem_of_Forall _ _ _ (vw_files _ Hv)). by eapply concat_level_elem. Qed.

Section Expand.
  Context (v : Version) (level : Z) (Hv : version_wf v) (Hl : 0 ≤ level < 6).

(** The files one round selects. *)
Definition round_inputs (inputs : list FileMeta) (s l : bytes) : list FileMeta :=
  if level =? 0 then inputs
  else List.filter (λ file, ranges_overlap file s l) (level_files v level).

Definition round_overlaps (s l : bytes) : list FileMeta :=
  List.filter (λ file, ranges_overlap file s l) (level_files v (level + 1)).

Lemma round_overlaps_grow inputs overlaps s l :
  expansion v level inputs overlaps → range_of (inputs ++ overlaps) s l →
  overlaps `sublist_of` round_overlaps s l.
Proof using Hv.
  intros Hex Hr. apply sublist_filter_b; [exact (ex_overlaps _ _ _ _ Hex)|]. intros f Hf.
  apply (in_range_overlaps _ _ _ _ Hr); [|apply elem_of_app; by right].
  apply (level_files_wf v (level + 1)); [done|]. by apply (sublist_subseteq _ _ (ex_overlaps _ _ _ _ Hex)).
Qed.

Lemma round_inputs_grow inputs next s l :
  inputs `sublist_of` level_files v level → range_of (inputs ++ next) s l →
  inputs `sublist_of` round_inputs inputs s l.
Proof using Hv.
  intros Hin Hr. unfold round_inputs. destruct (level =? 0); [done|].
  apply sublist_filter_b; [done|]. intros f Hf.
  apply (in_range_overlaps _ _ _ _ Hr); [|apply elem_of_app; by left].
  apply (level_files_wf v level); [done|]. by apply (sublist_subseteq _ _ Hin).
Qed.

Lemma round_closed inputs overlaps s l s' l' :
  expansion v level inputs overlaps → range_of (inputs ++ overlaps) s l → range_of (inputs ++ overlaps) s' l' →
  round_overlaps s l = overlaps → round_inputs inputs s' l' = inputs → plan_closed v level inputs overlaps.
Proof.
  intros Hex Hr Hr' Ho Hi f u Hu Hin. pose proof (covers_overlap _ _ _ _ _ Hr Hin Hu) as Hov.
  pose proof (covers_overlap _ _ _ _ _ Hr' Hin Hu) as Hov'. split; intros Hf.
  - unfold round_inputs in Hi. destruct (Z.eqb_spec level 0) as [->|Hne]; [by rewrite (ex_level0 _ _ _ _ Hex)|].
    rewrite <- Hi. apply elem_of_filter_b. by split.
  - rewrite <- Ho. apply elem_of_filter_b. by split.
Qed.

Lemma round_expansion inputs overlaps s l s' l' :
  expansion v level inputs overlaps → inputs `sublist_of` round_inputs inputs s' l' →
  expansion v level (round_inputs inputs s' l') (round_overlaps s l).
Proof.
  intros [Hsome Hin H0 Ho] Hgrow. unfold round_inputs in *. split.
  - intros Hnil. rewrite Hnil in Hgrow. by apply sublist_nil_r in Hgrow.
  - destruct (level =? 0); [done|]. apply filter_sublist.
  - intros ->. by rewrite H0.
  - apply filter_sublist.
Qed.

Lemma expand_plan_ok fuel inputs overlaps :
  expansion v level inputs overlaps →
  (length (level_files v level) + length (level_files v (level + 1)) <
     fuel + length inputs + length overlaps)%nat →
  ∃ inputs' overlaps', expand_plan fuel v level inputs overlaps = Ok (inputs', overlaps') ∧
    expansion v level inputs' overlaps' ∧ plan_closed v level inputs' overlaps'.
Proof using Hv Hl.
  revert inputs overlaps. induction fuel as [|fuel IH]; intros inputs overlaps Hex Hfuel.
  { pose proof (sublist_length _ _ (ex_inputs _ _ _ _ Hex)).
    pose proof (sublist_length _ _ (ex_overlaps _ _ _ _ Hex)). lia. }
  assert (∀ rest, inputs ++ rest ≠ []) as Hne.
  { intros rest Happ. by apply app_eq_nil in Happ as [? _]; destruct (ex_some _ _ _ _ Hex). }
  cbn [expand_plan]. destruct (user_range_spec (inputs ++ overlaps) (Hne _)) as (s & l & -> & Hr).
  rewrite !Version_files_ok by (done || lia). fold (round_overlaps s l).
  destruct (user_range_spec (inputs ++ round_overlaps s l) (Hne _)) as (s' & l' & -> & Hr').
  fold (round_inputs inputs s' l').
  pose proof (round_overlaps_grow _ _ _ _ Hex Hr) as Hgo.
  pose proof (round_inputs_grow _ _ _ _ (ex_inputs _ _ _ _ Hex) Hr') as Hgi.
  destruct (bool_decide_reflect (round_overlaps s l = overlaps)) as [Eo|Eo];
    [destruct (bool_decide_reflect (round_inputs inputs s' l' = inputs)) as [Ei|Ei]|]; cbn [andb].
  { exists inputs, overlaps. split; [done|]. split; [done|]. rewrite Eo in Hr'. by apply (round_closed _ _ s l s' l'). }
  all: apply IH; [by apply (round_expansion inputs overlaps)|].
  all: pose proof (sublist_length _ _ Hgo); pose proof (sublist_length _ _ Hgi).
  - destruct (le_lt_dec (length (round_inputs inputs s' l')) (length inputs)) as [Hle|Hlt]; [|lia].
    destruct Ei. symmetry. by apply sublist_same_length.
  - destruct (le_lt_dec (length (round_overlaps s l)) (length overlaps)) as [Hle|Hlt]; [|lia].
    destruct Eo. symmetry. by apply sublist_same_length.
Qed.
End Expand.

(** ** Plans *)

Record plan_ok (v : Version) (p : CompactionPlan) : Prop := {
  po_level : 0 ≤ pl_input_level p < 6;
  po_output : pl_output_level p = pl_input_level p + 1;
  po_files : expansion v (pl_input_level p) (pl_inputs p) (pl_overlaps p);
  po_closed : plan_closed v (pl_input_level p) (pl_inputs p) (pl_overlaps p)
}.

Lemma make_plan_ok v level score :
  version_wf v → 0 ≤ level < 6 →
  (level_files v level = [] ∧ make_plan v level score = Ok None) ∨
  ∃ p, make_plan v level score = Ok (Some p) ∧ plan_ok v p ∧ pl_input_level p = level ∧ pl_score p = score.
Proof.
  intros Hv Hl. unfold make_plan. rewrite Version_files_ok by (done || lia).
  set (inputs := if level =? 0 then level_files v level else take 1 (level_files v level)).
  destruct (bool_decide_reflect (inputs = [])) as [E|E].
  - left. split; [|done]. unfold inputs in E. destruct (level =? 0); [done|]. by destruct (level_files v level).
  - right. assert (expansion v level inputs []) as Hex.
    { split; [done| | |apply sublist_nil_l]; unfold inputs.
      - destruct (level =? 0); [done|]. apply sublist_take.
      - by intros ->. }
    destruct (expand_plan_ok v level Hv Hl (plan_fuel v level) inputs []) as (i & o & -> & Hex' & Hcl); [done| |].
    { unfold plan_fuel. lia. }
    eexists. split; [done|]. split; [|done]. by split.
Qed.

(** ** Scores *)

(** The order of the floats other than NaN, lexicographically on three integers. *)
Definition f64_rank (x : spec_float) : Z * Z * Z :=
  match x with
  | S754_infinity true => (-2, 0, 0)
  | S754_finite true m e => (-1, - e, Z.neg m)
  | S754_zero _ => (0, 0, 0)
  | S754_finite false m e => (1, e, Z.pos m)
  | S754_infinity false => (2, 0, 0)
  | S754_nan => (3, 0, 0)
  end.

Definition rank_lt (x y : Z * Z * Z) : Prop :=
  let '(c1, e1, m1) := x in
  let '(c2, e2, m2) := y in
  c1 < c2 ∨ c1 = c2 ∧ (e1 < e2 ∨ e1 = e2 ∧ m1 < m2).

Lemma f64_gt_rank x y :
  f64_gt x y = true ↔ x ≠ S754_nan ∧ y ≠ S754_nan ∧ rank_lt (f64_rank y) (f64_rank x).
Proof.
  assert (∀ a b, Pos.compare_cont Eq a b = Z.compare (Z.pos a) (Z.pos b)) as Hpos by done.
  unfold f64_gt, SFltb, rank_lt, f64_rank.
  destruct x as [[]|[]| |[] m1 e1], y as [[]|[]| |[] m2 e2]; cbn -[Z.compare Pos.compare_cont]; rewrite ?Hpos;
    try destruct (Z.compare_spec e2 e1), (Z.compare_spec (Z.pos m2) (Z.pos m1)); cbn -[Z.lt];
    (split; [intros ?; first [done|split; [done|split; [done|lia]]]|intros (H1 & H2 & H3); first [done|lia]]).
Qed.

Lemma f64_gt_trans x y z : f64_gt x y = true → f64_gt y z = true → f64_gt x z = true.
Proof.
  rewrite !f64_gt_rank. intros (Hx & _ & H1) (_ & Hz & H2). split; [done|]. split; [done|].
  unfold rank_lt in *. destruct (f64_rank x) as [[??]?], (f64_rank y) as [[??]?], (f64_rank z) as [[??]?]. lia.
Qed.

(** An empty level scores zero, whatever its target. *)
Lemma zero_score x : f64_gt (f64_div (f64_from 0) x) f64_one = false.
Proof. by destruct x as [[]|[]| |[] m e]. Qed.

Definition sum_sizes (files : list FileMeta) : Z := foldr Z.add 0 (map fm_file_size files).

(** The bytes of a level fit a [u64]. *)
Definition levels_fit (v : Version) : Prop := ∀ level, sum_sizes (level_files v level) ≤ U64_MAX.

Lemma sum_sizes_nonneg files : Forall meta_wf files → 0 ≤ sum_sizes files.
Proof. unfold sum_sizes. induction 1 as [|f files Hf _ IH]; cbn; [done|]. pose proof (mw_size _ Hf). lia. Qed.

Lemma sum_u64_from files total :
  Forall meta_wf files → total + sum_sizes files ≤ U64_MAX →
  try_fold (λ total size, ok_or (checked_add total size) (Panicked "attempt to add with overflow")) total
    (map fm_file_size files) = Ok (total + sum_sizes files).
Proof.
  intros Hwf. revert total. induction Hwf as [|f files Hf Hwf IH]; intros total Hle.
  { unfold sum_sizes. cbn. by rewrite Z.add_0_r. }
  change (sum_sizes (f :: files)) with (fm_file_size f + sum_sizes files) in *. cbn [map try_fold]. pose proof (sum_sizes_nonneg files Hwf).
  assert (checked_add total (fm_file_size f) = Some (total + fm_file_size f)) as ->.
  { unfold checked_add, USIZE_MAX. by rewrite (proj2 (Z.leb_le _ _)) by lia. }
  cbn [ok_or]. rewrite IH by lia. f_equal. lia.
Qed.

Lemma sum_u64_ok files :
  Forall meta_wf files → sum_sizes files ≤ U64_MAX → sum_u64 (map fm_file_size files) = Ok (sum_sizes files).
Proof. apply (sum_u64_from files 0). Qed.

Lemma level_score_ok p v level :
  version_wf v → levels_fit v → 0 ≤ level < 7 →
  ∃ s, level_score p v level = Ok s ∧ (level_files v level = [] → f64_gt s f64_one = false).
Proof.
  intros Hv Hfit Hl. unfold level_score. rewrite Version_files_ok by done.
  destruct (level =? 0); [eexists; split; [done|]; intros ->; apply zero_score|].
  rewrite sum_u64_ok; [|apply Forall_forall; intros f Hf; by eapply level_files_wf|apply Hfit].
  eexists. split; [done|]. intros ->. apply zero_score.
Qed.

(** What the loop has found in the levels it has seen. *)
Definition best_of (p : CompactionPicker) (v : Version) (seen : list Z) (o : option CompactionPlan) : Prop :=
  match o with
  | None => ∀ level s, level ∈ seen → level_score p v level = Ok s → f64_gt s f64_one = false
  | Some plan =>
    plan_ok v plan ∧ pl_input_level plan ∈ seen ∧
    level_score p v (pl_input_level plan) = Ok (pl_score plan) ∧
    f64_gt (pl_score plan) f64_one = true ∧
    ∀ level s, level ∈ seen → level_score p v level = Ok s → f64_gt s (pl_score plan) = false
  end.

Lemma f64_gt_irrefl x : f64_gt x x = false.
Proof.
  destruct (f64_gt x x) eqn:E; [|done]. apply f64_gt_rank in E as (_ & _ & Hr).
  unfold rank_lt in Hr. destruct (f64_rank x) as [[??]?]. lia.
Qed.

Lemma best_of_keep p v seen o level s :
  best_of p v seen o → level_score p v level = Ok s →
  f64_gt s f64_one && match o with Some plan => f64_gt s (pl_score plan) | None => true end = false →
  best_of p v (seen ++ [level]) o.
Proof.
  intros Hbest Hs E. destruct o as [plan|]; cbn [best_of] in *.
  - destruct Hbest as (H1 & H2 & H3 & H4 & H5). split; [done|]. split; [apply elem_of_app; by left|].
    do 2 (split; [done|]). intros l s' [Hin| ->%list_elem_of_singleton]%elem_of_app Hs'; [by eapply H5|].
    assert (s' = s) as -> by congruence. destruct (f64_gt s (pl_score plan)) eqn:E'; [|done].
    by rewrite (f64_gt_trans _ _ _ E' H4) in E.
  - intros l s' [Hin| ->%list_elem_of_singleton]%elem_of_app Hs'; [by eapply Hbest|].
    assert (s' = s) as -> by congruence. by rewrite andb_true_r in E.
Qed.

Lemma best_of_select p v seen o level plan :
  best_of p v seen o → level_score p v level = Ok (pl_score plan) →
  f64_gt (pl_score plan) f64_one && match o with Some p' => f64_gt (pl_score plan) (pl_score p') | None => true end = true →
  plan_ok v plan → pl_input_level plan = level → best_of p v (seen ++ [level]) (Some plan).
Proof.
  intros Hbest Hs [E1 E2]%andb_true_iff Hok <-. cbn [best_of]. split; [done|]. split; [apply elem_of_app; right; by left|].
  do 2 (split; [done|]). intros l s' [Hin| ->%list_elem_of_singleton]%elem_of_app Hs'.
  - destruct (f64_gt s' (pl_score plan)) eqn:E'; [|done]. destruct o as [plan'|].
    + destruct Hbest as (_ & _ & _ & _ & H5). rewrite <- (H5 l s' Hin Hs'). symmetry. by eapply f64_gt_trans.
    + rewrite <- (Hbest l s' Hin Hs'). symmetry. by eapply f64_gt_trans.
  - assert (s' = pl_score plan) as -> by congruence. apply f64_gt_irrefl.
Qed.

Lemma pick_level_ok p v seen o level :
  version_wf v → levels_fit v → 0 ≤ level < 6 → best_of p v seen o →
  ∃ o', pick_level p v o level = Ok o' ∧ best_of p v (seen ++ [level]) o'.
Proof.
  intros Hv Hfit Hl Hbest. unfold pick_level.
  destruct (level_score_ok p v level Hv Hfit ltac:(lia)) as (s & Hs & Hempty). rewrite Hs.
  destruct (f64_gt s f64_one && _) eqn:E; [|exists o; split; [done|]; by eapply best_of_keep].
  destruct (make_plan_ok v level s Hv Hl) as [[Hnil _]|(plan & Hmk & Hok & Hlev & Hsc)].
  - by rewrite (Hempty Hnil) in E.
  - rewrite Hmk. subst s. exists (Some plan). split; [done|]. by eapply best_of_select.
Qed.

Lemma pick_levels_ok p v levels seen o :
  version_wf v → levels_fit v → Forall (λ level, 0 ≤ level < 6) levels → best_of p v seen o →
  ∃ o', try_fold (pick_level p v) o levels = Ok o' ∧ best_of p v (seen ++ levels) o'.
Proof.
  intros Hv Hfit Hl. revert seen o. induction Hl as [|level levels Hlev _ IH]; intros seen o Hbest.
  { exists o. by rewrite app_nil_r. }
  destruct (pick_level_ok p v seen o level Hv Hfit Hlev Hbest) as (o1 & H1 & Hb1). cbn. rewrite H1.
  destruct (IH _ _ Hb1) as (o' & ? & ?). exists o'. by rewrite <- app_assoc in *.
Qed.

(** ** What a reader sees *)

(** [o] is the value a reader of [u] at sequence [q] and time [now] must get. *)
Definition reads (u : bytes) (q now : Z) (es : list entry) (o : option bytes) : Prop :=
  ∃ newest, is_newest u q es newest ∧ o = newest ≫= λ e, record_into_value e.2 now.

(** The versions of one user key, newest first. *)
Record key_group (u : bytes) (es : list entry) : Prop := {
  kg_wf : Forall entry_wf es;
  kg_user : Forall (λ e, e_user e = u) es;
  kg_sorted : StronglySorted (λ x y, e_seq y < e_seq x) es
}.

(** A reader that the oldest snapshot protects; without a snapshot, one that sees
    everything that was compacted. *)
Definition protected (oldest_snapshot : option Z) (q : Z) (es : list entry) : Prop :=
  match oldest_snapshot with
  | Some snapshot => snapshot ≤ q
  | None => ∀ e, e ∈ es → e_seq e ≤ q
  end.

(** ** Expiry *)

Definition expired (now : Z) (e : entry) : entry :=
  match e.2 with
  | VValue _ (Some t) => if t <=? now then mk_entry (e_user e) (e_seq e) VTombstone else e
  | _ => e
  end.

Lemma expire_entry_ok now e : entry_wf e → expire_entry now e = Ok (expired now e).
Proof.
  intros (u & s & r & Hu & Hs & Hr & ->). unfold expire_entry, expired. rewrite e_user_mk, e_seq_mk by done.
  cbn [mk_entry snd fst]. destruct r as [x [t|]|]; try done. destruct (t <=? now); [|done].
  unfold InternalKey_try_new. rewrite sequence_mk_key by done. destruct Hs as [_ Hs].
  by rewrite (proj2 (Z.ltb_ge _ _) Hs).
Qed.

Lemma expired_facts now e :
  entry_wf e →
  entry_wf (expired now e) ∧ e_user (expired now e) = e_user e ∧ e_seq (expired now e) = e_seq e ∧
  ∀ now', now ≤ now' → record_into_value (expired now e).2 now' = record_into_value e.2 now'.
Proof.
  intros Hwf. pose proof Hwf as (u & s & r & Hu & Hs & Hr & ->). unfold expired.
  rewrite e_user_mk, e_seq_mk by done. cbn [mk_entry snd]. destruct r as [x [t|]|]; [|by rewrite e_user_mk, e_seq_mk..].
  destruct (Z.leb_spec t now) as [Hle|_]; [|by rewrite e_user_mk, e_seq_mk].
  rewrite e_user_mk, e_seq_mk by done. split; [by apply entry_wf_mk|]. do 2 (split; [done|]).
  intros now' Hn. cbn. by rewrite (proj2 (Z.ltb_ge now' t)) by lia.
Qed.

Lemma expire_group u now es :
  key_group u es → try_map (expire_entry now) es = Ok (map (expired now) es) ∧ key_group u (map (expired now) es).
Proof.
  intros [Hwf Hu Hs]. split.
  { clear Hu Hs. induction Hwf as [|e es He _ IH]; cbn; [done|]. by rewrite expire_entry_ok, IH. }
  split.
  - apply Forall_map. eapply Forall_impl; [exact Hwf|]. intros e He. by apply expired_facts.
  - apply Forall_map. apply Forall_forall. intros e He.
    destruct (expired_facts now e) as (_ & -> & _); [by apply (elem_of_Forall _ _ _ Hwf)|]. by apply (elem_of_Forall _ _ _ Hu).
  - induction Hs as [|e es Hs IH Hall]; cbn; [constructor|].
    apply Forall_cons in Hwf as [He Hwf]. apply Forall_cons in Hu as [_ Hu].
    constructor; [by apply IH|]. apply Forall_map. apply Forall_forall. intros x Hx.
    destruct (expired_facts now e He) as (_ & _ & -> & _).
    destruct (expired_facts now x) as (_ & _ & -> & _); [by apply (elem_of_Forall _ _ _ Hwf)|].
    by apply (elem_of_Forall _ _ _ Hall).
Qed.

Lemma is_newest_expired u q now es o :
  Forall entry_wf es → is_newest u q es o → is_newest u q (map (expired now) es) (expired now <$> o).
Proof.
  intros Hwf. assert (∀ e, e ∈ es → e_user (expired now e) = e_user e ∧ e_seq (expired now e) = e_seq e) as H.
  { intros e He. destruct (expired_facts now e) as (_ & ? & ? & _); [by apply (elem_of_Forall _ _ _ Hwf)|done]. }
  destruct o as [e|]; cbn.
  - intros (He & Hu & Hs & Hm). destruct (H e He) as [Hu' Hs']. rewrite Hu', Hs'.
    split; [by apply list_elem_of_fmap_2|]. do 2 (split; [done|]).
    intros e' (x & -> & Hx)%list_elem_of_fmap. destruct (H x Hx) as [-> ->]. auto.
  - intros Hn e' (x & -> & Hx)%list_elem_of_fmap. destruct (H x Hx) as [-> ->]. auto.
Qed.

(** ** The loop *)

(** What the loop keeps of versions that are newest first. *)
Definition kept_versions (oldest_snapshot : option Z) (es : list entry) : list entry :=
  match oldest_snapshot with
  | None => take 1 es
  | Some snapshot =>
    List.filter (λ e, snapshot <? e_seq e) es ++ take 1 (List.filter (λ e, e_seq e <=? snapshot) es)
  end.

Lemma retain_loop_none r kept es : r ≠ [] → retain_loop None r kept es = r.
Proof. intros Hr. induction es as [|e es IH]; cbn; [done|]. by rewrite bool_decide_eq_false_2. Qed.

Lemma retain_loop_base s r es :
  r ≠ [] → retain_loop (Some s) r true es = r ++ List.filter (λ e, s <? e_seq e) es.
Proof.
  revert r. induction es as [|e es IH]; intros r Hr; cbn; [by rewrite app_nil_r|].
  rewrite bool_decide_eq_false_2 by done. destruct (s <? e_seq e); [|by apply IH].
  rewrite IH by (by destruct r). by rewrite <- app_assoc.
Qed.

(** Once a version is at or below the snapshot, so are the rest. *)
Lemma sorted_tail_below s e es :
  Forall (λ y, e_seq y < e_seq e) es → e_seq e ≤ s → List.filter (λ e, s <? e_seq e) es = [].
Proof.
  intros Hall Hle. apply filter_all_false. apply Forall_forall. intros y Hy.
  pose proof (elem_of_Forall _ _ _ Hall Hy) as Hlt. cbn in Hlt. apply Z.ltb_ge. lia.
Qed.

Lemma retain_loop_open s r es :
  r ≠ [] → StronglySorted (λ x y, e_seq y < e_seq x) es →
  retain_loop (Some s) r false es = r ++ kept_versions (Some s) es.
Proof.
  intros Hr Hs. revert r Hr. unfold kept_versions.
  induction Hs as [|e es Hs IH Hall]; intros r Hr; cbn; [by rewrite app_nil_r|].
  rewrite bool_decide_eq_false_2 by done. destruct (Z.ltb_spec s (e_seq e)) as [Hlt|Hge].
  - rewrite (proj2 (Z.leb_gt _ _)) by lia. rewrite IH by (by destruct r). by rewrite <- app_assoc.
  - rewrite (proj2 (Z.leb_le _ _)) by lia. rewrite retain_loop_base by (by destruct r).
    by rewrite (sorted_tail_below s e es Hall Hge), app_nil_r.
Qed.

Lemma retain_loop_kept oldest es :
  StronglySorted (λ x y, e_seq y < e_seq x) es → retain_loop oldest [] false es = kept_versions oldest es.
Proof.
  destruct es as [|e es]; intros Hs; [by destruct oldest|]. apply StronglySorted_inv in Hs as [Hs Hall].
  cbn. destruct oldest as [s|]; cbn; [|by rewrite retain_loop_none].
  destruct (Z.leb_spec (e_seq e) s) as [Hle|Hgt].
  - rewrite (proj2 (Z.ltb_ge _ _)) by lia. by rewrite retain_loop_base, (sorted_tail_below s e es Hall Hle).
  - rewrite (proj2 (Z.ltb_lt _ _)) by lia. by rewrite retain_loop_open.
Qed.

Lemma kept_subset oldest es e : e ∈ kept_versions oldest es → e ∈ es.
Proof.
  destruct oldest as [s|]; cbn; [|apply sublist_subseteq, sublist_take].
  intros [H|H]%elem_of_app; [by apply elem_of_filter_b in H as [_ ?]|].
  apply (sublist_subseteq _ _ (sublist_take _ _)) in H. by apply elem_of_filter_b in H as [_ ?].
Qed.

Lemma filter_desc (f : entry → bool) es :
  StronglySorted (λ x y, e_seq y < e_seq x) es → StronglySorted (λ x y, e_seq y < e_seq x) (List.filter f es).
Proof.
  induction 1 as [|e es Hs IH Hall]; cbn; [constructor|]. destruct (f e); [|done]. constructor; [done|].
  apply Forall_forall. intros y [_ Hy]%elem_of_filter_b. by apply (elem_of_Forall _ _ _ Hall).
Qed.

(** The head of a descending list is its only greatest element. *)
Lemma desc_head es e :
  StronglySorted (λ x y, e_seq y < e_seq x) es → e ∈ es →
  (∀ x, x ∈ es → e_seq x ≤ e_seq e) → e ∈ take 1 es.
Proof.
  destruct es as [|h es]; intros Hs Hin Hmax; [by apply elem_of_nil in Hin|]. cbn.
  apply StronglySorted_inv in Hs as [_ Hall]. apply elem_of_cons in Hin as [->|Hin]; [by left|].
  pose proof (elem_of_Forall _ _ _ Hall Hin) as Hlt. cbn in Hlt. specialize (Hmax h ltac:(by left)). lia.
Qed.

(** Retention keeps the version every protected reader needs. *)
Lemma kept_newest u oldest q es o :
  key_group u es → protected oldest q es → is_newest u q es o → is_newest u q (kept_versions oldest es) o.
Proof.
  intros [Hwf Hu Hs] Hp. assert (∀ e, e ∈ es → e_user e = u) as Hu' by (intros e; by apply (elem_of_Forall _ _ _ Hu)).
  destruct o as [e|]; cbn; [|intros Hn e' He'; apply Hn; by apply kept_subset in He'].
  intros (He & Heu & Hq & Hmax). split; [|do 2 (split; [done|]); intros e' He'; apply Hmax; by apply kept_subset in He'].
  destruct oldest as [s|]; cbn in *.
  - apply elem_of_app. destruct (Z.lt_ge_cases s (e_seq e)) as [Hlt|Hge].
    + left. apply elem_of_filter_b. split; [by apply Z.ltb_lt|done].
    + right. apply desc_head; [by apply filter_desc|apply elem_of_filter_b; split; [by apply Z.leb_le|done]|].
      intros x [Hx%Z.leb_le Hin]%elem_of_filter_b. apply Hmax; [done|by apply Hu'|lia].
  - apply desc_head; [done|done|]. intros x Hx. apply Hmax; auto.
Qed.

Lemma retain_ok u es oldest below now :
  key_group u es →
  retain_versions es oldest below now =
    Ok (let kept := kept_versions oldest (map (expired now) es) in
        match kept with
        | e :: _ =>
          if bool_decide (record_kind e.2 = Deletion) && negb below &&
             match oldest with Some s => e_seq e <=? s | None => true end then [] else kept
        | [] => []
        end).
Proof.
  intros Hg. destruct (expire_group u now es Hg) as [He [Hwf' _ Hs']]. unfold retain_versions. rewrite He.
  rewrite retain_loop_kept by done. destruct (kept_versions _ _) as [|e kept] eqn:Ek; [done|]. cbn zeta.
  assert (entry_wf e) as (u' & s & r & Hu & Hs & Hr & ->).
  { apply (elem_of_Forall _ _ _ Hwf'), (kept_subset oldest). rewrite Ek. by left. }
  cbn [mk_entry fst snd]. rewrite kind_mk_key by done. by destruct (_ && _).
Qed.

(** A group whose first version is a tombstone nobody needs. *)
Lemma cleared_reads u es oldest q e kept :
  key_group u es → protected oldest q es → kept_versions oldest es = e :: kept →
  match oldest with Some s => e_seq e <=? s | None => true end = true → is_newest u q es (Some e).
Proof.
  intros [_ Hu Hs] Hp Hk Hle. assert (head es = Some e) as Hh.
  { destruct es as [|h es]; [by destruct oldest|]. destruct oldest as [s|]; cbn in Hk; [|by injection Hk as ->].
    destruct (Z.ltb_spec s (e_seq h)) as [|Hge]; [by injection Hk as ->|]. apply StronglySorted_inv in Hs as [_ Hall].
    rewrite (proj2 (Z.leb_le _ _)) in Hk by lia. rewrite (sorted_tail_below s h es Hall Hge) in Hk. by injection Hk as ->. }
  destruct es as [|h es]; [done|]. injection Hh as ->. apply Forall_cons in Hu as [Hue _].
  assert (e_seq e ≤ q) as Hq.
  { destruct oldest as [s|]; cbn in Hp; [apply Z.leb_le in Hle; lia|]. apply Hp. by left. }
  split; [by left|]. do 2 (split; [done|]). intros e' [->|He']%elem_of_cons _ _; [done|].
  apply StronglySorted_inv in Hs as [_ Hall]. pose proof (elem_of_Forall _ _ _ Hall He') as Hlt. cbn in Hlt. lia.
Qed.

Lemma desc_unique es : StronglySorted (λ x y, e_seq y < e_seq x) es → versions_unique es.
Proof.
  intros Hs. apply versions_unique_seqs. induction Hs as [|e es Hs IH Hall]; cbn; [constructor|].
  constructor; [|done]. intros (x & Hx & Hin)%list_elem_of_fmap.
  pose proof (elem_of_Forall _ _ _ Hall Hin) as Hlt. cbn in Hlt. lia.
Qed.

Lemma retained_source u es oldest below now retained e :
  key_group u es → retain_versions es oldest below now = Ok retained → e ∈ retained →
  ∃ x, x ∈ es ∧ e = expired now x.
Proof.
  intros Hg. rewrite (retain_ok u) by done. intros [= <-] He.
  assert (e ∈ kept_versions oldest (map (expired now) es)) as Hk.
  { destruct (kept_versions _ _) as [|e0 kept]; [done|]. by destruct (_ && _) in He; [apply elem_of_nil in He|]. }
  apply kept_subset, list_elem_of_fmap in Hk as (x & -> & Hx). by exists x.
Qed.

Lemma reads_below u q now upper rest rest' :
  layer_above u upper rest → layer_above u upper rest' →
  (∃ o, reads u q now rest o ∧ reads u q now rest' o) →
  ∃ o, reads u q now (upper ++ rest) o ∧ reads u q now (upper ++ rest') o.
Proof.
  intros Hl Hl' (o & (x & Hx & ->) & (y & Hy & Ho)). destruct (newest_exists u q upper) as [[e|] He].
  - eexists. split; exists (Some e); (split; [by apply is_newest_layer_hit|done]).
  - exists (x ≫= λ e, record_into_value e.2 now). split.
    + exists x. split; [by apply is_newest_layer_miss|done].
    + exists y. split; [by apply is_newest_layer_miss|done].
Qed.

Section Group.
  Context (u : bytes) (es retained lower : list entry) (oldest : option Z) (below : bool) (now : Z).
  Context (Hg : key_group u es) (Hret : retain_versions es oldest below now = Ok retained).
  Context (Hlow : layer_above u es lower).
  Context (Hbelow : below = false → ∀ e, e ∈ lower → e_user e ≠ u).

Lemma retained_facts e :
  e ∈ retained → ∃ x, x ∈ es ∧ e_user e = e_user x ∧ e_seq e = e_seq x.
Proof using Hg Hret.
  intros (x & Hx & ->)%(retained_source u es oldest below now); [|done..]. exists x. split; [done|].
  destruct (expired_facts now x) as (_ & ? & ? & _); [by apply (elem_of_Forall _ _ _ (kg_wf _ _ Hg))|done].
Qed.

Lemma group_newest q e now' :
  protected oldest q es → now ≤ now' → is_newest u q es (Some e) →
  reads u q now' (retained ++ lower) (record_into_value e.2 now').
Proof using Hg Hret Hlow Hbelow.
  intros Hp Hnow He. destruct (expire_group u now es Hg) as [_ Hg'].
  assert (∀ x, x ∈ es → entry_wf x) as Hwf by (intros x; apply (elem_of_Forall _ _ _ (kg_wf _ _ Hg))).
  assert (protected oldest q (map (expired now) es)) as Hp'.
  { destruct oldest; [done|]. intros e' (x & -> & Hx)%list_elem_of_fmap.
    destruct (expired_facts now x (Hwf x Hx)) as (_ & _ & -> & _). by apply Hp. }
  pose proof (is_newest_expired u q now es (Some e) (kg_wf _ _ Hg) He) as He'. cbn [fmap option_fmap option_map] in He'.
  destruct (expired_facts now e) as (Hwe & Hue & Hse & Hval); [apply Hwf, He|].
  pose proof (kept_newest u oldest q _ _ Hg' Hp' He') as Hk.
  assert (layer_above u retained lower) as Hlay.
  { intros x y (x' & Hx' & Hxu & Hxs)%retained_facts Hy Hu1 Hu2. rewrite Hxs. apply Hlow; congruence. }
  pose proof Hret as Hr. rewrite (retain_ok u) in Hr by done. apply Ok_inj in Hr. cbn zeta in Hr.
  destruct (kept_versions oldest _) as [|h kept] eqn:Ek; [destruct Hk as [Hk _]; by apply elem_of_nil in Hk|].
  destruct (bool_decide_reflect (record_kind h.2 = Deletion)) as [Hdel|_];
    [destruct below; [|destruct (match oldest with Some _ => _ | None => _ end) eqn:Eo]|]; cbn [andb negb] in Hr.
  2:{ subst retained. pose proof (cleared_reads u _ oldest q h kept Hg' Hp' Ek Eo) as Hh.
      assert (Some h = Some (expired now e)) as [= ->].
      { eapply is_newest_unique; [apply desc_unique; exact (kg_sorted _ _ Hg')|done..]. }
      exists None. split; [intros x Hx Hxu; by destruct (Hbelow eq_refl x Hx)|].
      rewrite <- (Hval now' Hnow). destruct Hwe as (u' & s' & r' & _ & _ & _ & Hwe). rewrite Hwe in *.
      by destruct r'. }
  all: exists (Some (expired now e)); split; [|cbn; by rewrite Hval].
  all: apply is_newest_layer_hit; [done|by rewrite <- Hr].
Qed.

Lemma group_reads q now' :
  protected oldest q es → now ≤ now' →
  ∃ o, reads u q now' (es ++ lower) o ∧ reads u q now' (retained ++ lower) o.
Proof using Hg Hret Hlow Hbelow.
  intros Hp Hnow. destruct (newest_exists u q es) as [[e|] He].
  - exists (record_into_value e.2 now'). split; [|by apply group_newest].
    exists (Some e). split; [by apply is_newest_layer_hit|done].
  - destruct (newest_exists u q lower) as [o Ho]. eexists. split; exists o; (split; [|done]);
      apply is_newest_layer_miss; try done.
    intros x (x' & Hx' & Hxu & Hxs)%retained_facts Hu. rewrite Hxs. apply He; congruence.
Qed.
End Group.

Lemma retained_reads u es oldest below now retained upper lower q now' o :
  key_group u es → retain_versions es oldest below now = Ok retained →
  layer_above u upper (es ++ lower) → layer_above u es lower → versions_unique (upper ++ es ++ lower) →
  (below = false → ∀ e, e ∈ lower → e_user e ≠ u) → protected oldest q es → now ≤ now' →
  reads u q now' (upper ++ es ++ lower) o → reads u q now' (upper ++ retained ++ lower) o.
Proof.
  intros Hg Hret Hup Hlow Huniq Hbelow Hp Hnow (x & Hx & ->).
  destruct (reads_below u q now' upper (es ++ lower) (retained ++ lower)) as (o & (y & Hy & ->) & Ho); [done| |by eapply group_reads|].
  - intros e e' He [He'|He']%elem_of_app Hu Hu'; [|apply Hup; try done; apply elem_of_app; by right].
    destruct (retained_facts u es retained oldest below now Hg Hret e' He') as (z & Hz & Hzu & ->).
    apply Hup; try done; [apply elem_of_app; by left|congruence].
  - by rewrite (is_newest_unique _ _ _ _ _ Huniq Hx Hy).
Qed.

(** ** Properties *)

(** [C29] Planning ends and covers every overlap: for a well-formed version and a
    level that can be compacted, [make_plan] returns without exhausting its loop;
    it gives no plan exactly when the level is empty, and otherwise a plan of files
    of that level (all of them for level 0) and the next one, such that every other
    file of the two levels shares no user key with the plan's key range. *)
Theorem make_plan_closed (v : Version) (level : Z) (score : spec_float) :
  version_wf v → 0 ≤ level < 6 →
  ∃ o, make_plan v level score = Ok o ∧
  match o with
  | None => level_files v level = []
  | Some p => level_files v level ≠ [] ∧ pl_input_level p = level ∧ pl_score p = score ∧ plan_ok v p
  end.
Proof.
  intros Hv Hl. destruct (make_plan_ok v level score Hv Hl) as [[Hnil H]|(p & H & Hok & Hlev & Hs)];
    (eexists; split; [exact H|]); [done|]. split; [|done].
  intros Hnil. pose proof (ex_inputs _ _ _ _ (po_files _ _ Hok)) as Hin. rewrite Hlev, Hnil in Hin.
  apply sublist_nil_r in Hin. by apply (ex_some _ _ _ _ (po_files _ _ Hok)).
Qed.

(** [C30] The picker takes the most overfull level: when the level sizes fit a
    [u64], [pick] returns, and it returns no plan exactly when no level scores above
    one; otherwise the plan is closed and no level has a higher score. *)
Theorem pick_most_overfull (p : CompactionPicker) (v : Version) :
  version_wf v → levels_fit v → ∃ o, pick p v = Ok o ∧ best_of p v input_levels o.
Proof.
  intros Hv Hfit. apply (pick_levels_ok p v input_levels [] None); [done|done| |].
  { unfold input_levels. repeat (apply Forall_cons_2; [lia|]). constructor. }
  intros level s Hin. by apply elem_of_nil in Hin.
Qed.

(** Dropping versions is invisible: for the versions of one user key, newest
    first, [retain_versions] succeeds, and whatever newer data lies above and older
    data below the compacted files, a reader at or above the oldest snapshot (or one
    that sees everything, when there is none) reads the same value after the
    compaction as before it, at any time from the compaction on. *)
Theorem retention_preserves_reads (u : bytes) (es : list entry) (oldest : option Z) (below : bool) (now : Z) :
  key_group u es →
  ∃ retained, retain_versions es oldest below now = Ok retained ∧
  ∀ upper lower q now' o,
    layer_above u upper (es ++ lower) → layer_above u es lower → versions_unique (upper ++ es ++ lower) →
    (below = false → ∀ e, e ∈ lower → e_user e ≠ u) → protected oldest q es → now ≤ now' →
    reads u q now' (upper ++ es ++ lower) o → reads u q now' (upper ++ retained ++ lower) o.
Proof.
  intros Hg. eexists. split; [by apply (retain_ok u)|]. intros. eapply retained_reads; [exact Hg|by apply (retain_ok u)|done..].
Qed.

(** ** Witnesses *)

(** Two files on level 1 joined by one on level 2. *)
Definition sample_levels : Version :=
  [[]; [sample_meta 5 [97] [98]; sample_meta 7 [99] [100]]; [sample_meta 9 [98] [99]]; []; []; []; []].

Lemma sample_levels_wf : version_wf sample_levels.
Proof.
  destruct (version_apply_spec Version_empty (add_file sample_edit 2 (sample_meta 9 [98] [99])) sample_levels)
    as [H _]; [apply version_empty_wf| |by vm_compute|exact H].
  repeat constructor; cbn; try lia; try (unfold U64_MAX; lia); try (apply mk_key_wf; eval_done); by vm_compute.
Qed.

Lemma sample_levels_fit : levels_fit sample_levels.
Proof.
  assert (Forall (λ files, sum_sizes files ≤ U64_MAX) sample_levels) as H.
  { unfold sample_levels. repeat (apply Forall_cons_2; [by vm_compute|]). constructor. }
  intros level. unfold level_files. destruct (level <? 0); [by vm_compute|].
  destruct (sample_levels !! Z.to_nat level) as [files|] eqn:E; [|by vm_compute].
  exact (Forall_lookup_1 _ _ _ _ H E).
Qed.

(** Witness of C29: the plan takes all three files. *)
Lemma make_plan_closed_witness :
  ∃ o, make_plan sample_levels 1 f64_one = Ok o ∧
  match o with
  | None => level_files sample_levels 1 = []
  | Some p => level_files sample_levels 1 ≠ [] ∧ pl_input_level p = 1 ∧ pl_score p = f64_one ∧ plan_ok sample_levels p
  end.
Proof. apply (make_plan_closed sample_levels 1 f64_one); [apply sample_levels_wf|lia]. Defined.

Example sample_plan_files :
  match make_plan sample_levels 1 f64_one with
  | Ok (Some p) => (map fm_number (pl_inputs p), map fm_number (pl_overlaps p))
  | _ => ([], [])
  end = ([5; 7], [9]).
Proof. by vm_compute. Qed.

(** Witness of C30. *)
Lemma pick_most_overfull_witness :
  ∃ o, pick (CompactionPicker_new 4 150) sample_levels = Ok o ∧
    best_of (CompactionPicker_new 4 150) sample_levels input_levels o.
Proof.
  apply (pick_most_overfull (CompactionPicker_new 4 150) sample_levels);
    [apply sample_levels_wf|apply sample_levels_fit].
Defined.

Definition sample_group : list entry :=
  [mk_entry [97] 9 VTombstone; mk_entry [97] 6 (VValue [1] (Some 40)); mk_entry [97] 4 (VValue [2] None);
   mk_entry [97] 2 (VValue [3] None)].

Lemma sample_group_ok : key_group [97] sample_group.
Proof.
  split.
  - repeat (apply Forall_cons_2; [apply entry_wf_mk; eval_done|]). constructor.
  - repeat constructor.
  - repeat (constructor; [|repeat (apply Forall_cons_2; [by vm_compute|]); constructor]). constructor.
Qed.

(** An instance: with a snapshot at 5 the version at 4 stays and the one at 2 goes. *)
Lemma retention_preserves_reads_witness :
  ∃ retained, retain_versions sample_group (Some 5) false 50 = Ok retained ∧
  ∀ upper lower q now' o,
    layer_above [97] upper (sample_group ++ lower) → layer_above [97] sample_group lower →
    versions_unique (upper ++ sample_group ++ lower) →
    (false = false → ∀ e, e ∈ lower → e_user e ≠ [97]) → protected (Some 5) q sample_group → 50 ≤ now' →
    reads [97] q now' (upper ++ sample_group ++ lower) o → reads [97] q now' (upper ++ retained ++ lower) o.
Proof. apply (retention_preserves_reads [97] sample_group (Some 5) false 50). apply sample_group_ok. Defined.

Example sample_retained :
  retain_versions sample_group (Some 5) false 50 =
    Ok [mk_entry [97] 9 VTombstone; mk_entry [97] 6 VTombstone; mk_entry [97] 4 (VValue [2] None)].
Proof. by vm_compute. Qed.
