(* ===== verification/CompactionRun.v ===== *)
(** * Running a compaction (src/crates/meteordb/src/compaction.rs, [run])

    The inputs are merged, the versions of each user key are filtered by
    [retain_versions], and the rest is written to new table files.  The cleanup
    guard, which removes its files when the run fails, is state that survives an
    error. *)

From Stdlib Require Import ZArith Lia Sorting.Sorted.
From stdpp Require Import base list gmap strings sorting.
From S2P Require Import Prelude Fs StateFs Checksum InternalKey Batch ValueRecord Mvcc Iter IterFacts.
From S2P Require Import Version ManifestCodec Manifest ManifestSet ManifestBoot Block TableBuilder TableReader.
From S2P Require Import TableRoundtrip TableOpen TableLookups Options TableStore Compaction.

Local Open Scope Z_scope.

(** ** Peekable iterators *)

(** [std::iter::Peekable] over the merging iterator. *)
Record Peekable : Type := {
  pk_merged : InternalMergingIterator;
  pk_peeked : option (option (result entry))
}.

Definition peekable (it : InternalMergingIterator) : Peekable := {| pk_merged := it; pk_peeked := None |}.

Definition peekable_next (pk : Peekable) : result (option (result entry) * Peekable) :=
  match pk_peeked pk with
  | Some item => Ok (item, peekable (pk_merged pk))
  | None =>
    let? (item, it) := merging_next (pk_merged pk) in
    Ok (item, peekable it)
  end.

Definition peekable_peek (pk : Peekable) : result (option (result entry) * Peekable) :=
  match pk_peeked pk with
  | Some item => Ok (item, pk)
  | None =>
    let? (item, it) := merging_next (pk_merged pk) in
    Ok (item, {| pk_merged := it; pk_peeked := Some item |})
  end.

(** The inner [while]: more versions of [user_key]. *)
Fixpoint group_loop (fuel : nat) (user_key : bytes) (pending : list entry) (merged : Peekable)
    : result (list entry * Peekable) :=
  match fuel with
  | O => Err (Panicked "loop bound")
  | S fuel =>
    let? (peeked, merged) := peekable_peek merged in
    match peeked with
    | Some (Ok e) =>
      if lex_eqb (e_user e) user_key then
        let? (item, merged) := peekable_next merged in
        match item with
        | Some item => let? e := item in group_loop fuel user_key (pending ++ [e]) merged
        | None => Err (Panicked "peeked entry exists")
        end
      else Ok (pending, merged)
    | _ => Ok (pending, merged)
    end
  end.

(** [merged.next()] and the versions behind it. *)
Definition next_group (fuel : nat) (merged : Peekable)
    : result (option (bytes * list entry) * Peekable) :=
  let? (item, merged) := peekable_next merged in
  match item with
  | None => Ok (None, merged)
  | Some item =>
    let? e := item in
    let user_key := e_user e in
    let? (pending, merged) := group_loop fuel user_key [e] merged in
    Ok (Some (user_key, pending), merged)
  end.

(** ** The cleanup guard *)

(** Computations that track files to remove; the paths survive an error. *)
Abbreviation CFS := (SFS (list name)).

Definition track_temporary (number : Z) : CFS unit :=
  λ paths s, ((Ok tt, paths ++ [sstable_temporary number]), s).
Definition track_destination (number : Z) : CFS unit :=
  λ paths s, ((Ok tt, paths ++ [sstable_name number]), s).

(** [Drop for CompactionCleanup] when armed. *)
Definition cleanup_drop (paths : list name) : FS unit :=
  let! _ := fs_each (λ path, fs_ignore (remove_file path)) (reverse paths) in
  if bool_decide (paths = []) then fs_ret tt else fs_ignore (sync_directory DIRECTORY).

(** ** The run *)

Definition compaction_block_limit (options : Options) : Z :=
  saturating_mul (Z.max (op_block_bytes options) (64 * 1024 * 1024)) 4.

Record CompactionContext : Type := {
  cc_options : Options;
  cc_version : Version;
  cc_oldest_active_snapshot : option Z;
  cc_read_time_unix_ms : Z;
  cc_next_file_number : Z
}.

Record CompactionOutput : Type := {
  co_files : list FileMeta;
  co_next_file_number : Z;
  co_paths : list name
}.

Record OutputBuilder : Type := {
  ob_builder : TableBuilder;
  ob_number : Z;
  ob_estimated_bytes : Z
}.

(** The local variables of [run]. *)
Record RunState : Type := {
  rn_next_file_number : Z;
  rn_outputs : list FileMeta;
  rn_builder : option OutputBuilder
}.

Section Run.
  Context `{C : Crc32c} `{SN : Snappy}.

Definition compaction_reader_options (options : Options) : TableReaderOptions :=
  {| ro_max_uncompressed_data_block_bytes := compaction_block_limit options;
     ro_max_metadata_bytes := USIZE_MAX |}.

Definition open_input (options : Options) (file : FileMeta) : FS ChildIterator :=
  let! b := fs_map_err (io_error "open SSTable") (read_file (sstable_name (fm_number file))) in
  let! reader := fs_lift (open_internal b (compaction_reader_options options) (Some (fm_number file))) in
  if negb (rd_file_size reader =? fm_file_size file) then
    fs_fail (Corruption "SSTable" "table has an unexpected length")
  else fs_ret (table_child reader).

Fixpoint open_inputs (options : Options) (files : list FileMeta) : FS (list ChildIterator) :=
  match files with
  | [] => fs_ret []
  | file :: files =>
    let! child := open_input options file in
    let! children := open_inputs options files in
    fs_ret (child :: children)
  end.

Definition start_output (number : Z) (options : Options) : FS OutputBuilder :=
  let! t := create_table (sstable_temporary number) number options in
  fs_ret {| ob_builder := t; ob_number := number; ob_estimated_bytes := 0 |}.

Definition finish_output (output : OutputBuilder) : CFS FileMeta :=
  let temporary := sstable_temporary (ob_number output) in
  let* built := c_fs (finish_table temporary (ob_builder output)) in
  let* _ := track_destination (tr_file_number built) in
  let* _ := c_fs (install_table "install compacted SSTable" "sync compacted SSTable directory"
                    (sstable_temporary (tr_file_number built)) (sstable_name (ob_number output))) in
  c_lift (FileMeta_new (tr_file_number built) (tr_file_size built) (tr_smallest built) (tr_largest built)).

(** [try_fold] over the retained entries. *)
Definition group_bytes (retained : list entry) : result Z :=
  try_fold (λ bytes e,
    let? bytes := ok_or (checked_add bytes (zlen (ik_encoded e.1)))
      (InvalidArgument "compaction output size overflows usize") in
    ok_or (checked_add bytes (zlen (encode_engine_value e.2)))
      (InvalidArgument "compaction output size overflows usize")) 0 retained.

Definition must_split (options : Options) (output : OutputBuilder) (bytes : Z) : bool :=
  negb (ob_estimated_bytes output =? 0) &&
  (op_target_sstable_bytes options <? saturating_add (ob_estimated_bytes output) bytes).

(** The output the group is written to: finish a full one, start a new one. *)
Definition output_for (options : Options) (bytes : Z) (st : RunState) : CFS (OutputBuilder * RunState) :=
  let* st :=
    match rn_builder st with
    | Some output =>
      if must_split options output bytes then
        let* file := finish_output output in
        c_ret {| rn_next_file_number := rn_next_file_number st;
                 rn_outputs := rn_outputs st ++ [file]; rn_builder := None |}
      else c_ret st
    | None => c_ret st
    end in
  match rn_builder st with
  | Some output => c_ret (output, st)
  | None =>
    let number := rn_next_file_number st in
    let* next := c_lift (ok_or (checked_add number 1) (InvalidArgument "file number space is exhausted")) in
    let* output := c_fs (start_output number options) in
    let* _ := track_temporary number in
    c_ret (output, {| rn_next_file_number := next; rn_outputs := rn_outputs st; rn_builder := rn_builder st |})
  end.

Definition write_group (options : Options) (retained : list entry) (st : RunState) : CFS RunState :=
  let* bytes := c_lift (group_bytes retained) in
  let* (output, st) := output_for options bytes st in
  let* t := c_fs (add_entries (sstable_temporary (ob_number output)) (ob_builder output) retained) in
  c_ret {| rn_next_file_number := rn_next_file_number st;
           rn_outputs := rn_outputs st;
           rn_builder := Some {| ob_builder := t; ob_number := ob_number output;
                                 ob_estimated_bytes := saturating_add (ob_estimated_bytes output) bytes |} |}.

(** The outer [while]. *)
Fixpoint run_loop (fuel : nat) (plan : CompactionPlan) (context : CompactionContext) (merged : Peekable)
    (st : RunState) : CFS RunState :=
  match fuel with
  | O => c_lift (Err (Panicked "loop bound"))
  | S fuel =>
    let* (group, merged) := c_lift (next_group (S fuel) merged) in
    match group with
    | None => c_ret st
    | Some (user_key, pending) =>
      let* retained := c_lift (retain_versions pending (cc_oldest_active_snapshot context)
        (key_may_exist_below (cc_version context) (pl_output_level plan) user_key)
        (cc_read_time_unix_ms context)) in
      if bool_decide (retained = []) then run_loop fuel plan context merged st
      else
        let* st := write_group (cc_options context) retained st in
        run_loop fuel plan context merged st
    end
  end.

(** [run] after the inputs are open, with the guard. *)
Definition run_guarded (plan : CompactionPlan) (context : CompactionContext) (merged : Peekable)
    : CFS RunState :=
  let* st := run_loop (S (S (merging_size (pk_merged merged)))) plan context merged
    {| rn_next_file_number := cc_next_file_number context; rn_outputs := []; rn_builder := None |} in
  match rn_builder st with
  | Some output =>
    let* file := finish_output output in
    c_ret {| rn_next_file_number := rn_next_file_number st;
             rn_outputs := rn_outputs st ++ [file]; rn_builder := None |}
  | None => c_ret st
  end.

(** The guard is dropped, armed, when the run fails. *)
Definition with_cleanup {A} (m : CFS A) : FS (A * list name) := λ s,
  match m [] s with
  | ((Ok a, paths), s) => (Ok (a, paths), s)
  | ((Err e, paths), s) => (Err e, (cleanup_drop paths s).2)
  end.

Definition run (plan : CompactionPlan) (context : CompactionContext) : FS CompactionOutput :=
  let! children := open_inputs (cc_options context) (pl_inputs plan ++ pl_overlaps plan) in
  let! it := fs_lift (InternalMergingIterator_new children) in
  let! (st, paths) := with_cleanup (run_guarded plan context (peekable it)) in
  fs_ret {| co_files := rn_outputs st; co_next_file_number := rn_next_file_number st; co_paths := paths |}.

End Run.

(** ** Groups of a merged list *)

Definition pk_yields (pk : Peekable) (m : list entry) : Prop :=
  match pk_peeked pk with
  | None => yields (pk_merged pk) m
  | Some None => m = [] ∧ yields (pk_merged pk) []
  | Some (Some (Ok e)) => ∃ m', m = e :: m' ∧ yields (pk_merged pk) m'
  | Some (Some (Err _)) => False
  end.

Lemma peekable_next_yields pk m :
  pk_yields pk m →
  match m with
  | [] => ∃ pk', peekable_next pk = Ok (None, pk') ∧ pk_yields pk' []
  | e :: m' => ∃ pk', peekable_next pk = Ok (Some (Ok e), pk') ∧ pk_yields pk' m'
  end.
Proof.
  unfold pk_yields, peekable_next. destruct (pk_peeked pk) as [[[e|err]|]|] eqn:E.
  - intros (m' & -> & Hy). by eexists.
  - done.
  - intros [-> Hy]. by eexists.
  - intros Hy. inversion Hy as [it Hn|it e it' m' Hn Hy']; subst; rewrite Hn; by eexists.
Qed.

Lemma peekable_peek_yields pk m :
  pk_yields pk m →
  ∃ pk', peekable_peek pk = Ok (match m with [] => None | e :: _ => Some (Ok e) end, pk') ∧ pk_yields pk' m.
Proof.
  unfold pk_yields, peekable_peek. destruct (pk_peeked pk) as [[[e|err]|]|] eqn:E.
  - intros (m' & -> & Hy). exists pk. split; [done|]. rewrite E. eauto.
  - done.
  - intros [-> Hy]. exists pk. split; [done|]. by rewrite E.
  - intros Hy. inversion Hy as [it Hn|it e it' m' Hn Hy']; subst; rewrite Hn; (eexists; split; [done|]); cbn; eauto.
Qed.

Lemma group_loop_yields fuel u pending pk m g r :
  pk_yields pk m → span_user u m = (g, r) → (length m < fuel)%nat →
  ∃ pk', group_loop fuel u pending pk = Ok (pending ++ g, pk') ∧ pk_yields pk' r.
Proof.
  revert pending pk m g. induction fuel as [|fuel IH]; intros pending pk m g Hy Hs Hf; [lia|]. cbn [group_loop].
  destruct (peekable_peek_yields pk m Hy) as (pk1 & -> & Hy1). destruct m as [|e m]; cbn in Hs.
  - injection Hs as <- <-. exists pk1. by rewrite app_nil_r.
  - destruct (lex_eqb (e_user e) u).
    + destruct (span_user u m) as [g' r'] eqn:Es. injection Hs as <- <-.
      destruct (peekable_next_yields pk1 _ Hy1) as (pk2 & -> & Hy2).
      destruct (IH (pending ++ [e]) pk2 m g' Hy2 Es) as (pk' & -> & ?); [cbn in Hf; lia|].
      exists pk'. by rewrite <- app_assoc.
    + injection Hs as <- <-. exists pk1. by rewrite app_nil_r.
Qed.

Lemma next_group_yields fuel pk m :
  pk_yields pk m → (length m < fuel)%nat →
  ∃ o pk', next_group fuel pk = Ok (o, pk') ∧
  match m with
  | [] => o = None
  | e :: m' => let '(g, r) := span_user (e_user e) m' in o = Some (e_user e, e :: g) ∧ pk_yields pk' r
  end.
Proof.
  intros Hy Hf. unfold next_group. pose proof (peekable_next_yields pk m Hy) as Hn.
  destruct m as [|e m]; destruct Hn as (pk1 & -> & Hy1); [by eexists _, _|].
  destruct (span_user (e_user e) m) as [g r] eqn:Es.
  destruct (group_loop_yields fuel (e_user e) [e] pk1 m g r Hy1 Es) as (pk' & -> & ?); [cbn in Hf; lia|].
  by eexists _, _.
Qed.

(** ** Rules for guarded computations *)

Section GuardRules.
  Context (g : bool) (paths : list name) (i : CrashImage) (E : list name → CrashImage → Prop).

Lemma cwp_track_temporary n (Q : unit → list name → CrashImage → Prop) :
  Q tt (paths ++ [sstable_temporary n]) i → cwpf g (track_temporary n) paths i Q E.
Proof. by intros H s <-. Qed.

Lemma cwp_track_destination n (Q : unit → list name → CrashImage → Prop) :
  Q tt (paths ++ [sstable_name n]) i → cwpf g (track_destination n) paths i Q E.
Proof. by intros H s <-. Qed.
End GuardRules.

(** ** Groups and their costs *)

Lemma kept_sublist oldest es :
  StronglySorted (λ x y, e_seq y < e_seq x) es → kept_versions oldest es `sublist_of` es.
Proof.
  intros Hs. destruct oldest as [s|]; [|apply sublist_take]. cbn.
  assert (List.filter (λ e, s <? e_seq e) es ++ List.filter (λ e, e_seq e <=? s) es = es) as Hsplit.
  { induction Hs as [|e es Hs IH Hall]; cbn; [done|]. destruct (Z.ltb_spec s (e_seq e)) as [Hlt|Hge].
    - rewrite (proj2 (Z.leb_gt _ _)) by lia. cbn. by rewrite IH.
    - rewrite (proj2 (Z.leb_le _ _)) by lia. rewrite (sorted_tail_below s e es Hall Hge) in *. cbn in *. by rewrite IH. }
  rewrite <- Hsplit at 3. apply sublist_app; [done|apply sublist_take].
Qed.

Lemma key_group_sublist u es es' : es' `sublist_of` es → key_group u es → key_group u es'.
Proof.
  intros Hsub [Hwf Hu Hs]. split.
  - apply Forall_forall. intros e He. apply (elem_of_Forall _ _ _ Hwf). by apply (sublist_subseteq _ _ Hsub).
  - apply Forall_forall. intros e He. apply (elem_of_Forall _ _ _ Hu). by apply (sublist_subseteq _ _ Hsub).
  - clear Hwf Hu. induction Hsub as [|x es' es Hsub IH|x es' es Hsub IH]; [constructor| |];
      apply StronglySorted_inv in Hs as [Hs Hall].
    + constructor; [by apply IH|]. apply Forall_forall. intros y Hy. apply (elem_of_Forall _ _ _ Hall).
      by apply (sublist_subseteq _ _ Hsub).
    + by apply IH.
Qed.

Lemma retained_group u es oldest below now retained :
  key_group u es → retain_versions es oldest below now = Ok retained →
  key_group u retained ∧ retained `sublist_of` map (expired now) es.
Proof.
  intros Hg. rewrite (retain_ok u) by done. intros [= <-]. destruct (expire_group u now es Hg) as [_ Hg'].
  pose proof (kept_sublist oldest _ (kg_sorted _ _ Hg')) as Hsub.
  assert (retained_nil : key_group u [] ∧ [] `sublist_of` map (expired now) es).
  { split; [repeat constructor|apply sublist_nil_l]. }
  destruct (kept_versions _ _) as [|e kept]; [done|]. destruct (_ && _); [done|].
  split; [by eapply key_group_sublist|done].
Qed.

Lemma key_group_sorted u es : key_group u es → entries_sorted es.
Proof.
  intros [Hwf Hu Hs]. induction Hs as [|e es Hs IH Hall]; [constructor|].
  apply Forall_cons in Hwf as [He Hwf]. apply Forall_cons in Hu as [Hue Hu]. constructor; [by apply IH|].
  apply Forall_forall. intros y Hy. unfold bt_lt. rewrite entry_cmp by (done || by apply (elem_of_Forall _ _ _ Hwf)).
  unfold version_cmp. pose proof (elem_of_Forall _ _ _ Hu Hy) as Huy. cbn in Huy. rewrite Hue, Huy, lex_cmp_refl.
  pose proof (elem_of_Forall _ _ _ Hall Hy) as Hlt. cbn in Hlt. by apply Z.compare_lt_iff in Hlt as ->.
Qed.

(** The versions at the head of a merged list are a group. *)
Lemma span_key_group e m g r :
  key_sorted (e :: m) → Forall entry_wf (e :: m) → versions_unique (e :: m) → NoDup (e :: m) →
  span_user (e_user e) m = (g, r) → key_group (e_user e) (e :: g).
Proof.
  intros Hs Hwf Huniq Hnd Hsp. destruct (span_user_spec _ _ _ _ Hsp) as (-> & Hg & _).
  change (e :: g ++ r) with ((e :: g) ++ r) in *. apply Forall_app in Hwf as [Hwf _].
  apply StronglySorted_app_1_l in Hs. apply NoDup_app in Hnd as (Hnd & _ & _).
  assert (Forall (λ x, e_user x = e_user e) (e :: g)) as Hu by (by constructor).
  split; [done|done|]. assert (∀ x y, x ∈ e :: g → y ∈ e :: g → e_seq x = e_seq y → x = y) as Hinj.
  { intros x y Hx Hy. apply Huniq; [apply elem_of_app; by left..|].
    by rewrite (elem_of_Forall _ _ _ Hu Hx), (elem_of_Forall _ _ _ Hu Hy). }
  clear Huniq Hg Hsp. induction Hs as [|x l Hs IH Hall]; [constructor|].
  apply Forall_cons in Hwf as [Hx Hwf]. apply Forall_cons in Hu as [Hux Hu]. apply NoDup_cons in Hnd as [Hnx Hnd].
  constructor; [apply IH; try done; intros a b Ha Hb; apply Hinj; by right|].
  apply Forall_forall. intros y Hy. pose proof (elem_of_Forall _ _ _ Hall Hy) as Hle. cbv beta in Hle.
  rewrite entry_cmp in Hle by (done || by apply (elem_of_Forall _ _ _ Hwf)). unfold version_cmp in Hle.
  pose proof (elem_of_Forall _ _ _ Hu Hy) as Huy. cbn in Huy. rewrite Hux, Huy, lex_cmp_refl in Hle.
  destruct (Z.compare_spec (e_seq y) (e_seq x)) as [Heq|Hlt|Hgt]; [|done|done].
  destruct Hnx. assert (x = y) as ->; [|done]. apply Hinj; [by left|by right|done].
Qed.

Lemma entries_cost_cons e es :
  entries_cost (e :: es) = 30 + zlen (ik_encoded e.1) + zlen (encode_engine_value e.2) + entries_cost es.
Proof. done. Qed.

Lemma entries_cost_app a b : entries_cost (a ++ b) = entries_cost a + entries_cost b.
Proof. induction a as [|e a IH]; [done|]. cbn [app]. rewrite !entries_cost_cons, IH. lia. Qed.

Lemma entries_cost_nonneg es : 0 ≤ entries_cost es.
Proof. apply kvs_cost_nonneg. Qed.

Lemma entries_cost_sublist a b : a `sublist_of` b → entries_cost a ≤ entries_cost b.
Proof.
  induction 1 as [|e a b _ IH|e a b _ IH]; [done| |]; rewrite ?entries_cost_cons; zlen_pos; lia.
Qed.

Lemma expired_size now e :
  entry_wf e → zlen (ik_encoded (expired now e).1) + zlen (encode_engine_value (expired now e).2) ≤
    zlen (ik_encoded e.1) + zlen (encode_engine_value e.2).
Proof.
  intros (u & s & r & Hu & Hs & Hr & ->). unfold expired. rewrite e_user_mk, e_seq_mk by done.
  cbn [mk_entry fst snd]. destruct r as [x [t|]|]; [|done|done]. destruct (t <=? now); [|done].
  cbn [mk_entry fst snd record_kind mk_key ik_encoded]. rewrite !zlen_encode_key. cbn. zlen_lia.
Qed.

Lemma expired_cost now es : Forall entry_wf es → entries_cost (map (expired now) es) ≤ entries_cost es.
Proof.
  induction 1 as [|e es He _ IH]; [done|]. cbn [map]. rewrite !entries_cost_cons. pose proof (expired_size now e He). lia.
Qed.

Lemma entries_fit_subset limit es es' : (∀ e, e ∈ es' → e ∈ es) → entries_fit limit es → entries_fit limit es'.
Proof. unfold entries_fit. rewrite !Forall_forall. auto. Qed.

Lemma retained_fit limit now es retained :
  Forall entry_wf es → entries_fit limit es → retained `sublist_of` map (expired now) es → entries_fit limit retained.
Proof.
  intros Hwf Hfit Hsub. eapply entries_fit_subset; [by apply sublist_subseteq|].
  apply Forall_forall. intros e (x & -> & Hx)%list_elem_of_fmap.
  pose proof (expired_size now x (elem_of_Forall _ _ _ Hwf Hx)). pose proof (elem_of_Forall _ _ _ Hfit Hx) as Hf. cbn in Hf. lia.
Qed.

Lemma group_bytes_from es acc :
  0 ≤ acc → acc + entries_cost es ≤ U64_MAX →
  ∃ b, try_fold (λ bytes e,
    let? bytes := ok_or (checked_add bytes (zlen (ik_encoded e.1)))
      (InvalidArgument "compaction output size overflows usize") in
    ok_or (checked_add bytes (zlen (encode_engine_value e.2)))
      (InvalidArgument "compaction output size overflows usize")) acc es = Ok b.
Proof.
  revert acc. induction es as [|e es IH]; intros acc Hacc Hle; [by eexists|]. rewrite entries_cost_cons in Hle.
  pose proof (entries_cost_nonneg es). pose proof (zlen_nonneg (ik_encoded e.1)). pose proof (zlen_nonneg (encode_engine_value e.2)).
  cbn [try_fold]. assert (∀ a b, a + b ≤ U64_MAX → checked_add a b = Some (a + b)) as Hadd.
  { intros a b Hab. unfold checked_add, USIZE_MAX. by rewrite (proj2 (Z.leb_le _ _)). }
  rewrite Hadd by lia. cbn [ok_or]. rewrite Hadd by lia. cbn [ok_or]. apply IH; lia.
Qed.

(** ** The loop over the groups *)

Definition user_before (a b : list entry) : Prop :=
  ∀ x y, x ∈ a → y ∈ b → lex_cmp (e_user x) (e_user y) = Lt.

(** What is written of a merged list: the retained versions of each group. *)
Inductive compacted (plan : CompactionPlan) (context : CompactionContext) : list entry → list (list entry) → Prop :=
| compacted_nil : compacted plan context [] []
| compacted_group e m g r retained rs :
    span_user (e_user e) m = (g, r) →
    retain_versions (e :: g) (cc_oldest_active_snapshot context)
      (key_may_exist_below (cc_version context) (pl_output_level plan) (e_user e))
      (cc_read_time_unix_ms context) = Ok retained →
    compacted plan context r rs → compacted plan context (e :: m) (retained :: rs).

(** A group goes behind the current output or starts the next one. *)
Definition group_written (outs : list (list entry)) (cur retained : list entry)
    (outs' : list (list entry)) (cur' : list entry) : Prop :=
  (outs' = outs ∧ cur' = cur ++ retained) ∨ (cur ≠ [] ∧ outs' = outs ++ [cur] ∧ cur' = retained).

(** The files and the current output, in key order. *)
Record written (limit : Z) (outs : list (list entry)) (cur : list entry) : Prop := {
  wr_cur : Forall entry_wf cur;
  wr_fit : entries_fit limit cur;
  wr_sorted : entries_sorted cur;
  wr_before : StronglySorted user_before (outs ++ [cur])
}.

Lemma merged_tail e m g r :
  key_sorted (e :: m) → Forall entry_wf (e :: m) → versions_unique (e :: m) → NoDup (e :: m) →
  span_user (e_user e) m = (g, r) →
  key_sorted r ∧ Forall entry_wf r ∧ versions_unique r ∧ NoDup r ∧
  Forall (λ x, lex_cmp (e_user e) (e_user x) = Lt) r ∧
  entries_cost (e :: m) = entries_cost (e :: g) + entries_cost r ∧ (length r < length (e :: m))%nat.
Proof.
  intros Hs Hwf Huniq Hnd Hsp. destruct (span_user_spec _ _ _ _ Hsp) as (-> & Hg & Hr).
  pose proof (group_split _ _ _ _ Hs Hwf eq_refl Hg Hr) as Hgt.
  change (e :: g ++ r) with ((e :: g) ++ r) in *.
  split; [by apply StronglySorted_app_1_r in Hs|]. split; [by apply Forall_app in Hwf as [_ ?]|].
  split; [eapply versions_unique_subset; [|exact Huniq]; intros x Hx; apply elem_of_app; by right|].
  split; [by apply NoDup_app in Hnd as (_ & _ & ?)|]. split; [done|].
  split; [apply entries_cost_app|]. rewrite length_app. cbn. lia.
Qed.

Lemma user_key_order x y : entry_wf x → entry_wf y → lex_cmp (e_user x) (e_user y) = Lt → bt_lt InternalKey_cmp x y.
Proof. intros Hx Hy H. unfold bt_lt. rewrite entry_cmp by done. unfold version_cmp. by rewrite H. Qed.

Lemma written_group limit u outs cur retained outs' cur' :
  written limit outs cur → key_group u retained → entries_fit limit retained → retained ≠ [] →
  Forall (λ x, lex_cmp (e_user x) u = Lt) (concat outs ++ cur) →
  group_written outs cur retained outs' cur' →
  written limit outs' cur' ∧ concat outs' ++ cur' = (concat outs ++ cur) ++ retained.
Proof.
  intros [Hwf Hfit Hs Hb] Hg Hfr Hne Hlt Hcase.
  assert (∀ x, x ∈ retained → e_user x = u) as Hu by (intros x; apply (elem_of_Forall _ _ _ (kg_user _ _ Hg))).
  assert (∀ l, (∀ x, x ∈ l → x ∈ concat outs ++ cur) → user_before l retained) as Hub.
  { intros l Hl x y Hx Hy. rewrite (Hu y Hy). by apply (elem_of_Forall _ _ _ Hlt), Hl. }
  assert (∀ a, a ∈ outs → user_before a retained) as Houts.
  { intros a Ha. apply Hub. intros x Hx. apply elem_of_app. left. apply elem_of_concat. eauto. }
  assert (user_before cur retained) as Hcur by (apply Hub; intros x Hx; apply elem_of_app; by right).
  rewrite StronglySorted_app in Hb. destruct Hb as (Hb1 & Hb2 & _).
  destruct Hcase as [[-> ->]|(Hc & -> & ->)].
  - split; [|by rewrite app_assoc]. split.
    + apply Forall_app. split; [done|apply Hg].
    + by apply Forall_app.
    + apply StronglySorted_app. split; [|split; [done|by eapply key_group_sorted]].
      intros x y Hx Hy. apply user_key_order; [by apply (elem_of_Forall _ _ _ Hwf)|by apply (elem_of_Forall _ _ _ (kg_wf _ _ Hg))|].
      by apply Hcur.
    + apply StronglySorted_app. split; [|split; [done|repeat constructor]].
      intros a b Ha ->%list_elem_of_singleton x y Hx [Hy|Hy]%elem_of_app; [|by apply (Houts a Ha)].
      by apply (Hb1 a cur Ha ltac:(by left)).
  - split; [|rewrite concat_app; cbn; by rewrite app_nil_r].
    split; [apply Hg|done|by eapply key_group_sorted|]. apply StronglySorted_app.
    split; [|split; [|repeat constructor]].
    + intros a b [Ha| ->%list_elem_of_singleton]%elem_of_app ->%list_elem_of_singleton; [by apply Houts|done].
    + apply StronglySorted_app. split; [done|]. split; [done|repeat constructor].
Qed.

(** ** Readers across a run *)

Definition of_user (u : bytes) (es : list entry) : list entry := List.filter (λ e, lex_eqb (e_user e) u) es.

Lemma elem_of_user u es e : e ∈ of_user u es ↔ e_user e = u ∧ e ∈ es.
Proof. unfold of_user. rewrite elem_of_filter_b. by rewrite lex_eqb_eq. Qed.

Lemma of_user_all u es : Forall (λ e, e_user e = u) es → of_user u es = es.
Proof. intros H. apply filter_all_true. eapply Forall_impl; [exact H|]. intros e <-. apply lex_eqb_refl. Qed.

Lemma of_user_none u es : Forall (λ e, e_user e ≠ u) es → of_user u es = [].
Proof.
  intros H. apply filter_all_false. eapply Forall_impl; [exact H|]. intros e Hne.
  destruct (lex_eqb (e_user e) u) eqn:E; [|done]. by apply lex_eqb_eq in E.
Qed.

Lemma of_user_app u a b : of_user u (a ++ b) = of_user u a ++ of_user u b.
Proof. apply List.filter_app. Qed.

(** The keys of what is written are keys of what was read. *)
Lemma compacted_users plan context m rs x :
  compacted plan context m rs → key_sorted m → Forall entry_wf m → versions_unique m → NoDup m →
  x ∈ concat rs → ∃ y, y ∈ m ∧ e_user x = e_user y.
Proof.
  induction 1 as [|e m g r retained rs Hsp Hret Hc IH]; intros Hs Hwf Huniq Hnd Hx; [by apply elem_of_nil in Hx|].
  pose proof (span_key_group e m g r Hs Hwf Huniq Hnd Hsp) as Hg.
  destruct (merged_tail e m g r Hs Hwf Huniq Hnd Hsp) as (Hs' & Hwf' & Hu' & Hnd' & _).
  destruct (span_user_spec _ _ _ _ Hsp) as (Hm & _ & _).
  cbn in Hx. apply elem_of_app in Hx as [Hx|Hx].
  - exists e. split; [by left|]. destruct (retained_group _ _ _ _ _ _ Hg Hret) as [Hgr _].
    by apply (elem_of_Forall _ _ _ (kg_user _ _ Hgr)).
  - destruct (IH Hs' Hwf' Hu' Hnd' Hx) as (y & Hy & ?). exists y. split; [|done]. rewrite Hm. right.
    apply elem_of_app. by right.
Qed.

(** One user key of a run: its versions were one group, or it does not occur. *)
Lemma compacted_of_user plan context m rs u :
  compacted plan context m rs → key_sorted m → Forall entry_wf m → versions_unique m → NoDup m →
  (of_user u m = [] ∧ of_user u (concat rs) = []) ∨
  (key_group u (of_user u m) ∧
   retain_versions (of_user u m) (cc_oldest_active_snapshot context)
     (key_may_exist_below (cc_version context) (pl_output_level plan) u)
     (cc_read_time_unix_ms context) = Ok (of_user u (concat rs))).
Proof.
  induction 1 as [|e m g r retained rs Hsp Hret Hc IH]; intros Hs Hwf Huniq Hnd; [by left|].
  pose proof (span_key_group e m g r Hs Hwf Huniq Hnd Hsp) as Hg.
  destruct (merged_tail e m g r Hs Hwf Huniq Hnd Hsp) as (Hs' & Hwf' & Hu' & Hnd' & Hgt & _).
  destruct (span_user_spec _ _ _ _ Hsp) as (-> & _ & _).
  destruct (retained_group _ _ _ _ _ _ Hg Hret) as [Hgr _].
  change (e :: g ++ r) with ((e :: g) ++ r). cbn [concat]. rewrite !of_user_app.
  destruct (decide (e_user e = u)) as [<-|Hne].
  - right. assert (Forall (λ x, e_user x ≠ e_user e) r) as Hnr.
    { eapply Forall_impl; [exact Hgt|]. intros x Hx Heq. cbv beta in Hx. by rewrite Heq, lex_cmp_refl in Hx. }
    assert (Forall (λ x, e_user x ≠ e_user e) (concat rs)) as Hnrs.
    { apply Forall_forall. intros x Hx. destruct (compacted_users _ _ _ _ _ Hc Hs' Hwf' Hu' Hnd' Hx) as (y & Hy & ->).
      by apply (elem_of_Forall _ _ _ Hnr). }
    rewrite (of_user_none _ _ Hnr), (of_user_none _ _ Hnrs), !app_nil_r.
    rewrite (of_user_all _ _ (kg_user _ _ Hg)), (of_user_all _ _ (kg_user _ _ Hgr)). done.
  - assert (∀ l, Forall (λ x, e_user x = e_user e) l → of_user u l = []) as Hno.
    { intros l Hl. apply of_user_none. eapply Forall_impl; [exact Hl|]. intros x Hx. congruence. }
    rewrite (Hno _ (kg_user _ _ Hg)), (Hno _ (kg_user _ _ Hgr)). cbn [app]. by apply IH.
Qed.

(** The surroundings of the compacted files in which reads are preserved: newer
    data above and older data below, and the lower levels of the version. *)
Record surrounds (plan : CompactionPlan) (context : CompactionContext) (upper m lower : list entry) (u : bytes) (q : Z)
    : Prop := {
  su_upper : layer_above u upper (m ++ lower);
  su_lower : layer_above u m lower;
  su_unique : versions_unique (upper ++ m ++ lower);
  su_below : key_may_exist_below (cc_version context) (pl_output_level plan) u = false →
    ∀ e, e ∈ lower → e_user e ≠ u;
  su_protected : protected (cc_oldest_active_snapshot context) q m
}.

Lemma compacted_reads plan context ess m rs outs upper lower u q now o :
  Forall entry_wf (concat ess) → versions_unique (concat ess) → NoDup (concat ess) →
  m ≡ₚ concat ess → key_sorted m → compacted plan context m rs → concat outs = concat rs →
  surrounds plan context upper (concat ess) lower u q → cc_read_time_unix_ms context ≤ now →
  reads u q now (upper ++ concat ess ++ lower) o → reads u q now (upper ++ concat outs ++ lower) o.
Proof.
  intros Hwf Huniq Hnd Hp Hs Hc Heq [Hup Hlow Hun Hbel Hpr] Hnow Hread.
  assert (Forall entry_wf m) as Hwm by (by rewrite Hp).
  assert (versions_unique m) as Hum by (eapply versions_unique_subset; [|exact Huniq]; intros e; by rewrite Hp).
  assert (NoDup m) as Hnm by (by rewrite Hp).
  assert (∀ e, e ∈ of_user u m → e ∈ concat ess) as Hin by (intros e [_ He]%elem_of_user; by rewrite <- Hp).
  assert (∀ a e, e_user e = u → e ∈ upper ++ a ++ lower ↔ e ∈ upper ++ of_user u a ++ lower) as Hmem.
  { intros a e He. rewrite !elem_of_app, elem_of_user. tauto. }
  assert (reads u q now (upper ++ of_user u m ++ lower) o) as Hread'.
  { destruct Hread as (x & Hx & ->). exists x. split; [|done]. eapply is_newest_user; [|exact Hx].
    intros e He. rewrite <- (Hmem m e He). by rewrite !elem_of_app, Hp. }
  assert (reads u q now (upper ++ of_user u (concat rs) ++ lower) o) as (x & Hx & ->).
  { destruct (compacted_of_user plan context m rs u Hc Hs Hwm Hum Hnm) as [[Hn1 Hn2]|[Hg Hret]]; [by rewrite Hn2; rewrite Hn1 in Hread'|].
    eapply retained_reads; [exact Hg|exact Hret|..|exact Hnow|exact Hread'].
    - intros e e' He [He'|He']%elem_of_app; apply Hup; try done; apply elem_of_app; [left; by apply Hin|by right].
    - intros e e' He He'. apply Hlow; [by apply Hin|done].
    - eapply versions_unique_subset; [|exact Hun]. intros e. rewrite !elem_of_app. intros [?|[?|?]]; auto.
    - exact Hbel.
    - destruct (cc_oldest_active_snapshot context); [done|]. intros e He. apply Hpr. by apply Hin. }
  exists x. split; [|done]. rewrite Heq. eapply is_newest_user; [|exact Hx]. intros e He. by rewrite <- (Hmem (concat rs) e He).
Qed.

(** ** The state of a run *)

Section RunState.
  Context `{C : Crc32c} {CR : Crc32cRange C} `{SN : Snappy} {SL : SnappyLaws SN}.
  Context (limit : Z) (i0 : CrashImage) (options : Options) (n0 : Z).

Definition options_build (options : Options) : Prop :=
  1 ≤ op_block_bytes options ∧ 1 ≤ op_restart_interval options ∧ 1 ≤ op_bloom_bits_per_key options ≤ 255.

Context (Hopt : options_build options) (Hlimit : 2 * op_block_bytes options ≤ limit) (Hn0 : 1 ≤ n0).

(** A file of the version and the table it names. *)
Definition output_ok (i : CrashImage) (f : FileMeta) (es : list entry) : Prop :=
  ∃ file, stored i (sstable_name (fm_number f)) file ∧ is_table limit (fm_number f) file es ∧
    table_entries limit es ∧ fm_file_size f = zlen file ∧ meta_wf f ∧
    fst <$> head es = Some (fm_smallest f) ∧ fst <$> last es = Some (fm_largest f).

(** The builder that has received [cur]. *)
Definition building (n : Z) (t : TableBuilder) (cur : list entry) : Prop :=
  ∃ t0, TableBuilder_create n (op_block_bytes options) (op_restart_interval options)
          (op_bloom_bits_per_key options) CompressionNone = Ok t0 ∧
    try_fold (λ t e, TableBuilder_add t e.1 (encode_engine_value e.2)) (use_engine_value_encoding t0) cur = Ok t.

(** [outs] are in finished files, [cur] in the builder. *)
Record run_inv (st : RunState) (i : CrashImage) (outs : list (list entry)) (cur : list entry) : Prop := {
  ri_numbers : map fm_number (rn_outputs st) = seqZ n0 (zlen outs);
  ri_next : rn_next_file_number st =
    n0 + zlen outs + match rn_builder st with Some _ => 1 | None => 0 end;
  ri_base : ∃ ib, kept i0 ib ∧ others_same n0 i0 ib ∧ fresh ib (n0 + zlen outs) ∧
    Forall2 (output_ok ib) (rn_outputs st) outs ∧
    match rn_builder st with
    | None => i = ib ∧ cur = []
    | Some ob => cur ≠ [] ∧ ob_number ob = n0 + zlen outs ∧ building (ob_number ob) (ob_builder ob) cur ∧
        scratch ib i (sstable_temporary (ob_number ob)) (tb_file (ob_builder ob)) None
    end
}.

Lemma config_ok n : is_u64 n → table_config n (op_block_bytes options) (op_restart_interval options) (op_bloom_bits_per_key options).
Proof using Hopt. intros Hn. destruct Hopt as (H1 & H2 & H3). unfold table_config. done. Qed.

Lemma building_finish n t cur :
  is_u64 n → building n t cur → table_entries limit cur →
  ∃ file smallest largest, head cur = Some smallest ∧ last cur = Some largest ∧
    TableBuilder_finish t = Ok ({| tr_file_number := n; tr_file_size := zlen file; tr_smallest := smallest.1;
                                   tr_largest := largest.1; tr_entries := zlen cur |}, file) ∧
    is_table limit n file cur ∧ 0 < zlen file ≤ U64_MAX.
Proof using CR SL Hlimit Hopt.
  intros Hn (t0 & Hc & Hf) Hcur.
  destruct (build_entries_ok limit n _ _ _ cur (config_ok n Hn) Hcur Hlimit) as (file & sm & lg & Hsm & Hlg & Hb & Ht & Hsz).
  unfold build_entries in Hb. rewrite Hc, Hf in Hb. by exists file, sm, lg.
Qed.

Lemma building_more n t cur more :
  is_u64 n → building n t cur → table_entries limit (cur ++ more) →
  ∃ t', try_fold (λ t e, TableBuilder_add t e.1 (encode_engine_value e.2)) t more = Ok t' ∧ building n t' (cur ++ more).
Proof using CR SL Hlimit Hopt.
  intros Hn (t0 & Hc & Hf) Hcur.
  destruct (build_entries_ok limit n _ _ _ (cur ++ more) (config_ok n Hn) Hcur Hlimit) as (file & sm & lg & _ & _ & Hb & _).
  unfold build_entries in Hb. rewrite Hc in Hb. destruct (try_fold _ _ (cur ++ more)) as [t'|] eqn:E; [|done].
  pose proof E as E'. rewrite try_fold_app, Hf in E'. exists t'. split; [done|]. by exists t0.
Qed.

Lemma start_building n :
  is_u64 n → ∃ t0, TableBuilder_create n (op_block_bytes options) (op_restart_interval options)
    (op_bloom_bits_per_key options) CompressionNone = Ok t0 ∧ building n (use_engine_value_encoding t0) [] ∧
    tb_file (use_engine_value_encoding t0) = [].
Proof using CR SL Hlimit Hopt.
  intros Hn. destruct Hopt as (H1 & H2 & H3).
  destruct (create_inv n _ _ _ CompressionNone H1 H2 (proj1 H3)) as (t0 & Hc & Hinv & _).
  exists t0. split; [done|]. split; [by exists t0|]. cbn. by rewrite (tv_file _ _ _ _ Hinv).
Qed.

Lemma entries_head_last es a z :
  entries_sorted es → head es = Some a → last es = Some z → InternalKey_cmp a.1 z.1 ≠ Gt.
Proof.
  intros Hs Ha Hz. destruct es as [|x es]; [done|]. injection Ha as ->.
  apply (sorted_head_le a es); [done|]. by apply last_Some_elem_of.
Qed.

Lemma output_ok_kept i i' f es : kept i i' → output_ok i f es → output_ok i' f es.
Proof. intros Hk (file & Hs & H). exists file. split; [by apply Hk|done]. Qed.

Context (g : bool) (E : list name → CrashImage → Prop).
Context (HE : g = true → ∀ paths i, kept i0 i → Forall (output_name n0) paths → E paths i).

Lemma finish_output_wp st i outs cur ob paths (Q : FileMeta → list name → CrashImage → Prop) :
  run_inv st i outs cur → rn_builder st = Some ob → table_entries limit cur → n0 + zlen outs ≤ U64_MAX →
  Forall (output_name n0) paths →
  (∀ f paths' i', Forall (output_name n0) paths' →
    run_inv {| rn_next_file_number := rn_next_file_number st; rn_outputs := rn_outputs st ++ [f]; rn_builder := None |}
      i' (outs ++ [cur]) [] → Q f paths' i') →
  cwpf g (finish_output ob) paths i Q E.
Proof using CR SL Hlimit Hopt Hn0 HE.
  intros [Hnum Hnext (ib & Hk & Ho & Hfr & Hall & Hb)] Hob Hcur Hmax Hp HQ. rewrite Hob in Hb, Hnext.
  destruct Hb as (Hne & Hn & Hbld & Hscr). set (n := ob_number ob) in *. pose proof (zlen_nonneg outs).
  assert (is_u64 n) as Hu by (unfold is_u64, U64_MAX in *; lia). rewrite <- Hn in Hfr.
  assert (output_name n0 (sstable_name n)) as Hout by (exists n; split; [unfold is_u64 in Hu; lia|by right]).
  destruct (building_finish n _ cur Hu Hbld Hcur) as (file & sm & lg & Hsm & Hlg & Hfin & Htab & Hsz).
  assert (g = true → ∀ paths, Forall (output_name n0) paths → E paths (durable_image (ci_durable ib))) as Hcr.
  { intros Hg ps Hps. apply HE; [done| |done]. by apply kept_crash. }
  unfold finish_output. fold n. cbv zeta.
  apply cwp_bind, cwp_fs. eapply finish_table_wp; [intros Hg; by apply Hcr|exact Hfin|exact Hscr|]. intros i2 Hscr2.
  apply cwp_bind, cwp_track_destination. cbn [tr_file_number].
  assert (Forall (output_name n0) (paths ++ [sstable_name n])) as Hp' by (apply Forall_app; split; [done|by constructor]).
  apply cwp_bind, cwp_fs. eapply install_table_wp;
    [intros Hg; by apply Hcr|apply temporary_not_final|apply (Hfr n); unfold is_u64 in Hu; lia|exact Hscr2|].
  intros i3 Hpub. cbn [tr_file_size tr_smallest tr_largest].
  assert (InternalKey_cmp sm.1 lg.1 ≠ Gt) as Hord by (eapply entries_head_last; [apply Hcur|done..]).
  set (f := {| fm_number := n; fm_file_size := zlen file; fm_smallest := sm.1; fm_largest := lg.1 |}).
  assert (FileMeta_new n (zlen file) sm.1 lg.1 = Ok f) as Hf.
  { unfold FileMeta_new. rewrite !(proj2 (Z.eqb_neq _ _)) by (unfold is_u64 in Hu; lia). by destruct (InternalKey_cmp _ _). }
  eapply cwp_lift_ok; [exact Hf|]. apply HQ; [done|].
  assert (kept ib i3) as Hk3 by (eapply published_kept; [exact Hfr|done|exact Hpub]).
  split; cbn [rn_outputs rn_next_file_number rn_builder].
  - rewrite map_app, Hnum. cbn [map]. rewrite zlen_app. change (zlen [cur]) with 1. rewrite seqZ_app by lia.
    f_equal. unfold f. cbn [fm_number]. by rewrite Hn.
  - rewrite Hnext, zlen_app. change (zlen [cur]) with 1. lia.
  - exists i3. split; [by etrans|]. split; [|split; [|split; [|done]]].
    + intros p Hno. eapply same_at_trans; [by apply Ho|]. eapply published_others; [done|exact Hpub|].
      intros (k & Hk' & Hp2). apply Hno. exists k. split; [unfold is_u64 in Hu; lia|done].
    + rewrite zlen_app. change (zlen [cur]) with 1. rewrite Z.add_assoc, <- Hn.
      eapply published_fresh; [exact Hfr|done|exact Hpub].
    + apply Forall2_app.
      * eapply Forall2_impl; [exact Hall|]. intros f' es'. by apply output_ok_kept.
      * constructor; [|constructor]. exists file. cbn [f fm_number fm_file_size fm_smallest fm_largest].
        split; [exact (pb_final _ _ _ _ _ Hpub)|]. do 3 (split; [done|]). rewrite Hsm, Hlg. split; [|done].
        destruct Hcur as (_ & Hwf & _). unfold f. split; cbn [fm_number fm_file_size fm_smallest fm_largest];
          [unfold is_u64 in Hu; lia|done| | |done].
        -- apply entry_wf_key, (elem_of_Forall _ _ _ Hwf). by apply head_Some_elem_of.
        -- apply entry_wf_key, (elem_of_Forall _ _ _ Hwf). by apply last_Some_elem_of.
Qed.

Lemma start_output_wp i (outs : list (list entry)) (Q : OutputBuilder → CrashImage → Prop) ps :
  kept i0 i → fresh i (n0 + zlen outs) → n0 + zlen outs ≤ U64_MAX → Forall (output_name n0) ps →
  (∀ ob i', ob_number ob = n0 + zlen outs → building (ob_number ob) (ob_builder ob) [] →
    scratch i i' (sstable_temporary (ob_number ob)) (tb_file (ob_builder ob)) None → Q ob i') →
  wpf g (start_output (n0 + zlen outs) options) i Q (E ps).
Proof using CR SL Hlimit Hopt Hn0 HE.
  intros Hk Hfr Hmax Hps HQ. pose proof (zlen_nonneg outs). set (n := n0 + zlen outs) in *.
  assert (is_u64 n) as Hu by (unfold is_u64; lia).
  destruct (start_building n Hu) as (t0 & Hc & Hb & Hnil). destruct (Hfr n ltac:(lia)) as (H1 & H2 & _).
  apply wp_bind. eapply create_table_wp; [done|done|exact Hc|].
  intros i' Hs. apply wp_ret, HQ; cbn [ob_number ob_builder]; [done|done|by rewrite Hnil].
Qed.

Lemma output_for_wp bytes st i outs cur ps (Q : OutputBuilder * RunState → list name → CrashImage → Prop) :
  run_inv st i outs cur → (cur ≠ [] → table_entries limit cur) → n0 + zlen outs + 1 ≤ U64_MAX - 1 →
  Forall (output_name n0) ps →
  (∀ ob st' ps' i' outs' cur', Forall (output_name n0) ps' →
    (outs' = outs ∧ cur' = cur ∨ cur ≠ [] ∧ outs' = outs ++ [cur] ∧ cur' = []) →
    map fm_number (rn_outputs st') = seqZ n0 (zlen outs') →
    rn_next_file_number st' = n0 + zlen outs' + 1 → ob_number ob = n0 + zlen outs' →
    building (ob_number ob) (ob_builder ob) cur' →
    (∃ ib, kept i0 ib ∧ others_same n0 i0 ib ∧ fresh ib (n0 + zlen outs') ∧
      Forall2 (output_ok ib) (rn_outputs st') outs' ∧
      scratch ib i' (sstable_temporary (ob_number ob)) (tb_file (ob_builder ob)) None) →
    Q (ob, st') ps' i') →
  cwpf g (output_for options bytes st) ps i Q E.
Proof using CR SL Hlimit Hopt Hn0 HE.
  intros Hinv Hcur Hmax Hps HQ. unfold output_for.
  assert (∀ st1 ps1 i1 outs1, run_inv st1 i1 outs1 [] → rn_builder st1 = None → n0 + zlen outs1 + 1 ≤ U64_MAX →
    Forall (output_name n0) ps1 → (outs1 = outs ∧ [] = cur ∨ cur ≠ [] ∧ outs1 = outs ++ [cur]) →
    cwpf g (match rn_builder st1 with
            | Some output => c_ret (output, st1)
            | None =>
              let* next := c_lift (ok_or (checked_add (rn_next_file_number st1) 1) (InvalidArgument "file number space is exhausted")) in
              let* output := c_fs (start_output (rn_next_file_number st1) options) in
              let* _ := track_temporary (rn_next_file_number st1) in
              c_ret (output, {| rn_next_file_number := next; rn_outputs := rn_outputs st1; rn_builder := rn_builder st1 |})
            end) ps1 i1 Q E) as Hstart.
  { intros st1 ps1 i1 outs1 [Hnum Hnext (ib & Hk & Ho & Hfr & Hall & Hb)] Hnone Hm1 Hps1 Hcase.
    rewrite Hnone in Hnext, Hb |- *. destruct Hb as [-> _]. rewrite Z.add_0_r in Hnext. pose proof (zlen_nonneg outs1).
    rewrite Hnext. apply cwp_bind. eapply cwp_lift_ok.
    { unfold checked_add, USIZE_MAX. by rewrite (proj2 (Z.leb_le _ _)) by lia. }
    apply cwp_bind, cwp_fs. eapply start_output_wp; [done|done|lia|done|]. intros ob i' Hob Hbl Hsc.
    apply cwp_bind, cwp_track_temporary, cwp_ret.
    eapply (HQ _ _ _ _ outs1 []); cbn [rn_outputs rn_next_file_number]; try done.
    - apply Forall_app. split; [done|]. constructor; [|constructor]. exists (n0 + zlen outs1). split; [lia|by left].
    - destruct Hcase as [[-> <-]|[? ->]]; auto.
    - by exists ib. }
  pose proof Hinv as [Hnum Hnext (ib & Hk & Ho & Hfr & Hall & Hb)]. pose proof (zlen_nonneg outs). apply cwp_bind.
  destruct (rn_builder st) as [ob|] eqn:Eb.
  - destruct Hb as (Hne & Hob & Hbl & Hsc). destruct (must_split options ob bytes).
    + apply cwp_bind. eapply (finish_output_wp st i outs cur); [done|done|by apply Hcur|lia|done|].
      intros f ps' i' Hps' Hinv'. apply cwp_ret. eapply Hstart; [exact Hinv'|done|zlen_lia|done|by right].
    + apply cwp_ret. rewrite Eb. apply cwp_ret. eapply (HQ _ _ _ _ outs cur); try done; [by left|]. by exists ib.
  - apply cwp_ret. destruct Hb as [-> Hnil]. eapply Hstart; [by subst cur|done|lia|done|by left].
Qed.

Lemma write_group_wp retained st i outs cur ps (Q : RunState → list name → CrashImage → Prop) :
  run_inv st i outs cur → (cur ≠ [] → table_entries limit cur) → retained ≠ [] → table_entries limit retained →
  table_entries limit (cur ++ retained) → n0 + zlen outs + 1 ≤ U64_MAX - 1 → Forall (output_name n0) ps →
  (∀ st' ps' i' outs' cur', Forall (output_name n0) ps' → group_written outs cur retained outs' cur' →
    run_inv st' i' outs' cur' → Q st' ps' i') →
  cwpf g (write_group options retained st) ps i Q E.
Proof using CR SL Hlimit Hopt Hn0 HE.
  intros Hinv Hcur Hne Hret Happ Hmax Hps HQ. unfold write_group. apply cwp_bind.
  destruct (group_bytes_from retained 0 ltac:(lia)) as [bytes Hb].
  { destruct Hret as (_ & _ & _ & Hc). pose proof (entries_cost_nonneg retained). unfold U32_MAX, U64_MAX in *. lia. }
  eapply cwp_lift_ok; [exact Hb|]. apply cwp_bind.
  eapply output_for_wp; [exact Hinv|done|done|done|].
  intros ob st' ps' i' outs' cur' Hps' Hcase Hnum Hnext Hob Hbl (ib & Hk & Ho & Hfr & Hall & Hsc).
  assert (zlen outs' ≤ zlen outs + 1) as Hle.
  { destruct Hcase as [[-> _]|(_ & -> & _)]; [lia|zlen_lia]. }
  pose proof (zlen_nonneg outs').
  assert (table_entries limit (cur' ++ retained)) as Htab by (by destruct Hcase as [[_ ->]|(_ & _ & ->)]).
  assert (is_u64 (ob_number ob)) as Hu by (unfold is_u64; lia).
  destruct (building_more _ _ cur' retained Hu Hbl Htab) as (t' & Hadd & Hbl').
  apply cwp_bind, cwp_fs. eapply add_entries_wp; [|exact Hadd|exact Hsc|].
  { intros Hg. apply HE; [done| |done]. by apply kept_crash. }
  intros i2 Hsc2. apply cwp_ret. eapply (HQ _ _ _ outs' (cur' ++ retained)); [done| |].
  - destruct Hcase as [[-> ->]|(? & -> & ->)]; [by left|right; done].
  - split; cbn [rn_outputs rn_next_file_number rn_builder]; [done|done|]. exists ib.
    do 4 (split; [done|]). cbn [ob_number ob_builder]. split; [by destruct cur'; [|done]|]. done.
Qed.

Lemma written_table outs cur : written limit outs cur → 16 * entries_cost cur ≤ U32_MAX → cur ≠ [] → table_entries limit cur.
Proof. intros [Hwf Hfit Hs _] Hc Hne. done. Qed.

Context (plan : CompactionPlan) (context : CompactionContext) (Hctx : cc_options context = options).

Lemma run_loop_wp fuel pk m st i outs cur ps (Q : RunState → list name → CrashImage → Prop) :
  pk_yields pk m → (length m < fuel)%nat →
  key_sorted m → Forall entry_wf m → versions_unique m → NoDup m → entries_fit limit m →
  run_inv st i outs cur → written limit outs cur → user_before (concat outs ++ cur) m →
  16 * (entries_cost cur + entries_cost m) ≤ U32_MAX → n0 + zlen outs + zlen m + 2 ≤ U64_MAX →
  Forall (output_name n0) ps →
  (∀ rs st' ps' i' outs' cur', Forall (output_name n0) ps' → compacted plan context m rs →
    run_inv st' i' outs' cur' → written limit outs' cur' → concat outs' ++ cur' = (concat outs ++ cur) ++ concat rs →
    16 * entries_cost cur' ≤ U32_MAX → n0 + zlen outs' + 2 ≤ U64_MAX → Q st' ps' i') →
  cwpf g (run_loop fuel plan context pk st) ps i Q E.
Proof using CR SL Hlimit Hopt Hn0 HE Hctx.
  revert pk m st i outs cur ps Q. induction fuel as [|fuel IH];
    intros pk m st i outs cur ps Q Hy Hf Hs Hwf Huniq Hnd Hfit Hinv Hwr Hbef Hcost Hmax Hps HQ; [lia|].
  cbn [run_loop]. pose proof (zlen_nonneg outs). pose proof (zlen_nonneg m). pose proof (entries_cost_nonneg m).
  destruct (next_group_yields (S fuel) pk m Hy ltac:(lia)) as (o & pk' & Hng & Ho).
  apply cwp_bind. eapply cwp_lift_ok; [exact Hng|]. destruct m as [|e m].
  { subst o. apply cwp_ret. eapply (HQ []); try done; [constructor|by rewrite app_nil_r|lia|change (zlen (@nil entry)) with 0 in *; lia]. }
  destruct (span_user (e_user e) m) as [g' r] eqn:Esp. destruct Ho as [-> Hy'].
  pose proof (span_key_group e m g' r Hs Hwf Huniq Hnd Esp) as Hg.
  destruct (merged_tail e m g' r Hs Hwf Huniq Hnd Esp) as (Hs' & Hwf' & Hu' & Hnd' & Hgt & Hsum & Hlen).
  set (below := key_may_exist_below _ _ _). set (now := cc_read_time_unix_ms context). set (oldest := cc_oldest_active_snapshot context).
  assert (∃ retained, retain_versions (e :: g') oldest below now = Ok retained) as [retained Hret] by (eexists; by apply (retain_ok (e_user e))).
  apply cwp_bind. eapply cwp_lift_ok; [exact Hret|].
  destruct (retained_group _ _ _ _ _ _ Hg Hret) as [Hgr Hsub].
  assert (entries_cost retained ≤ entries_cost (e :: g')) as Hcr.
  { etrans; [by apply entries_cost_sublist|]. apply expired_cost, (kg_wf _ _ Hg). }
  pose proof (entries_cost_nonneg r). pose proof (entries_cost_nonneg cur). pose proof (entries_cost_nonneg retained).
  assert (zlen r + 1 ≤ zlen (e :: m)) as Hzr by (unfold zlen; cbn in *; lia).
  assert (entries_fit limit (e :: g') ∧ entries_fit limit r) as [Hfg Hfr].
  { destruct (span_user_spec _ _ _ _ Esp) as (Em & _ & _). rewrite Em in Hfit.
    change (e :: g' ++ r) with ((e :: g') ++ r) in Hfit. by apply Forall_app in Hfit. }
  pose proof (retained_fit limit _ _ _ (kg_wf _ _ Hg) Hfg Hsub) as Hfret.
  assert (user_before (concat outs ++ cur) r) as Hbr.
  { intros x y Hx Hy2. apply Hbef; [done|]. destruct (span_user_spec _ _ _ _ Esp) as (-> & _ & _).
    right. apply elem_of_app. by right. }
  case_bool_decide as Hnil.
  - subst retained. eapply (IH pk' r); try done; [cbn in *; lia|lia|lia|].
    intros rs st' ps' i' outs' cur' Hps' Hc Hinv' Hwr' Heq. apply (HQ ([] :: rs)); [done| |done|done|done].
    by eapply compacted_group.
  - rewrite Hctx. apply cwp_bind.
    assert (Forall (λ x, lex_cmp (e_user x) (e_user e) = Lt) (concat outs ++ cur)) as Hall.
    { apply Forall_forall. intros x Hx. apply Hbef; [done|by left]. }
    destruct (written_group limit (e_user e) outs cur retained outs (cur ++ retained) Hwr Hgr Hfret Hnil Hall) as [Hwa _]; [by left|].
    eapply (write_group_wp retained st i outs cur); [done| |done| | |lia|done|].
    + intros Hc. apply (written_table outs); [done|lia|done].
    + split; [done|]. split; [apply Hgr|]. split; [by eapply key_group_sorted|]. split; [lia|done].
    + apply (written_table outs); [done|rewrite entries_cost_app; lia|]. destruct cur; [by destruct retained|done].
    + intros st' ps' i' outs' cur' Hps' Hgw Hinv'.
      destruct (written_group limit (e_user e) outs cur retained outs' cur' Hwr Hgr Hfret Hnil Hall Hgw) as [Hwr' Heq'].
      assert (entries_cost cur' ≤ entries_cost cur + entries_cost retained ∧ zlen outs' ≤ zlen outs + 1) as [Hc' Ho'].
      { destruct Hgw as [[-> ->]|(_ & -> & ->)]; [rewrite entries_cost_app; lia|split; [lia|zlen_lia]]. }
      eapply (IH pk' r); try done; [cbn in *; lia| |lia|lia|].
      * rewrite Heq'. intros x y [Hx|Hx]%elem_of_app Hy2; [by apply Hbr|].
        rewrite (elem_of_Forall _ _ _ (kg_user _ _ Hgr) Hx). by apply (elem_of_Forall _ _ _ Hgt).
      * intros rs st2 ps2 i2 outs2 cur2 Hps2 Hc2 Hinv2 Hwr2 Heq2. apply (HQ (retained :: rs)); [done| |done|done|].
        -- by eapply compacted_group.
        -- rewrite Heq2, Heq'. cbn. by rewrite <- !app_assoc.
Qed.
End RunState.

(** ** The cleanup guard keeps what was safe *)

Lemma stored_remove i p q b : p ≠ q → stored i q b → stored (record_remove p i) q b.
Proof. intros Hne Hs. unfold stored. by rewrite view_remove, decide_False. Qed.

Lemma stored_directory i q b : stored i q b → stored (record_directory_sync i) q b.
Proof.
  intros Hs. unfold stored. rewrite view_directory. apply view_eq in Hs as (Hv & Hsy & _). by rewrite Hv, Hsy.
Qed.

Section Cleanup.
  Context (i0 : CrashImage) (n0 : Z) (Hfresh : fresh i0 n0).

Lemma remove_kept p s :
  output_name n0 p → kept i0 (fs_image s) → kept i0 (fs_image (remove_file p s).2).
Proof using Hfresh.
  intros Hp Hk. unfold remove_file, fs_bind, observe, validate_file, read_file.
  case_bool_decide; cbn; [by apply kept_crash|]. unfold fs_bind. cbn.
  destruct (ci_volatile (fs_image s) !! p); cbn; [|done].
  intros q b Hs. apply stored_remove; [|by apply Hk]. intros <-. by eapply stored_not_output.
Qed.

Lemma cleanup_kept paths s :
  Forall (output_name n0) paths → kept i0 (fs_image s) → kept i0 (fs_image (cleanup_drop paths s).2).
Proof using Hfresh.
  intros Hp Hk. unfold cleanup_drop, fs_bind.
  assert (∀ l s, Forall (output_name n0) l → kept i0 (fs_image s) →
    ∃ s', fs_each (λ path, fs_ignore (remove_file path)) l s = (Ok tt, s') ∧ kept i0 (fs_image s')) as Heach.
  { intros l. induction l as [|p l IH]; intros s1 Hl Hk1; [by eexists|]. apply Forall_cons in Hl as [Hp1 Hl].
    cbn. unfold fs_bind, fs_ignore at 1. apply IH; [done|]. by apply remove_kept. }
  destruct (Heach (reverse paths) s) as (s' & -> & Hk'); [|done|].
  { apply Forall_forall. intros p Hin. apply (elem_of_Forall _ _ _ Hp). by apply elem_of_reverse. }
  case_bool_decide; [done|]. unfold fs_ignore, sync_directory, fs_bind, observe. cbn.
  case_bool_decide; cbn; [by apply kept_crash|]. intros q b Hs. by apply stored_directory, Hk'.
Qed.

Lemma with_cleanup_wp {A} g (m : CFS A) i (Q : A * list name → CrashImage → Prop) (E : CrashImage → Prop) :
  (g = true → ∀ i', kept i0 i' → E i') →
  cwpf g m [] i (λ a paths i', Q (a, paths) i')
    (λ paths i', g = true ∧ kept i0 i' ∧ Forall (output_name n0) paths) →
  wpf g (with_cleanup m) i Q E.
Proof using Hfresh.
  intros HE H s Hs Hf. specialize (H s Hs Hf). unfold with_cleanup.
  destruct (m [] s) as [[[a|e] paths] s']; [done|]. destruct H as (Hg & Hk & Hp). apply HE; [done|].
  by apply cleanup_kept.
Qed.
End Cleanup.

(** ** The whole run *)

Section Whole.
  Context `{C : Crc32c} {CR : Crc32cRange C} `{SN : Snappy} {SL : SnappyLaws SN}.

Definition options_read (options : Options) : Prop := op_block_bytes options ≤ 2 ^ 60.

Lemma compaction_admits options es :
  options_read options → 16 * entries_cost es ≤ 2 ^ 31 →
  2 * entries_cost es ≤ ro_max_uncompressed_data_block_bytes (compaction_reader_options options) ≤ 2 ^ 62 ∧
  8 * entries_cost es + 128 ≤ ro_max_metadata_bytes (compaction_reader_options options).
Proof.
  unfold options_read, compaction_reader_options, compaction_block_limit, saturating_mul, USIZE_MAX, U64_MAX.
  cbn [ro_max_uncompressed_data_block_bytes ro_max_metadata_bytes]. lia.
Qed.

Lemma open_inputs_wp limit g i E options files ess (Q : list ChildIterator → CrashImage → Prop) :
  options_read options → Forall2 (output_ok limit i) files ess → 16 * entries_cost (concat ess) ≤ 2 ^ 31 →
  Q (map (map Ok) ess) i → wpf g (open_inputs options files) i Q E.
Proof.
  intros Ho Hall. revert Q. induction Hall as [|f es files ess Hf Hall IH]; intros Q Hc HQ; [by apply wp_ret|].
  cbn [concat] in Hc. rewrite entries_cost_app in Hc.
  pose proof (entries_cost_nonneg es). pose proof (entries_cost_nonneg (concat ess)).
  destruct Hf as (file & Hs & Ht & Hte & Hsz & _). apply view_eq in Hs as (Hv & _ & _).
  destruct (compaction_admits options es Ho ltac:(lia)) as [[Hadm Hcap] Hmeta].
  destruct (th_open _ _ _ _ (Ht _ (or_intror Hadm) Hcap Hmeta)) as (r & Hr & Hfs & _ & Hch & _).
  cbn [open_inputs]. apply wp_bind. unfold open_input.
  apply wp_bind, wp_map_err, (wp_read _ _ _ _ file); [done|]. apply wp_bind. eapply wp_lift_ok; [exact Hr|].
  rewrite Hfs, Hsz, Z.eqb_refl. cbn [negb]. apply wp_ret, wp_bind, IH; [lia|]. apply wp_ret. by rewrite Hch.
Qed.

(** What a run leaves behind: [outs] are the contents of the output files. *)
Record run_result (limit : Z) (i0 i : CrashImage) (plan : CompactionPlan) (context : CompactionContext)
    (ess outs : list (list entry)) (out : CompactionOutput) : Prop := {
  rr_compacted : ∃ m rs, m ≡ₚ concat ess ∧ key_sorted m ∧ compacted plan context m rs ∧ concat outs = concat rs;
  rr_ordered : StronglySorted user_before outs;
  rr_files : Forall2 (output_ok limit i) (co_files out) outs;
  rr_numbers : map fm_number (co_files out) = seqZ (cc_next_file_number context) (zlen outs);
  rr_next : co_next_file_number out = cc_next_file_number context + zlen outs;
  rr_kept : kept i0 i;
  rr_others : others_same (cc_next_file_number context) i0 i;
  rr_fresh : fresh i (cc_next_file_number context + zlen outs);
  rr_paths : Forall (output_name (cc_next_file_number context)) (co_paths out)
}.

(** A directory and a context in which a compaction of [ess] can run. *)
Record run_ready (limit : Z) (i : CrashImage) (plan : CompactionPlan) (context : CompactionContext) (ess : list (list entry)) : Prop := {
  ry_files : Forall2 (output_ok limit i) (pl_inputs plan ++ pl_overlaps plan) ess;
  ry_unique : versions_unique (concat ess);
  ry_nodup : NoDup (concat ess);
  ry_fresh : fresh i (cc_next_file_number context);
  ry_number : 1 ≤ cc_next_file_number context;
  ry_numbers : cc_next_file_number context + zlen (concat ess) + 2 ≤ U64_MAX;
  ry_cost : 16 * entries_cost (concat ess) ≤ 2 ^ 31;
  ry_build : options_build (cc_options context);
  ry_limit : 2 * op_block_bytes (cc_options context) ≤ limit;
  ry_read : options_read (cc_options context)
}.

Lemma ready_entries_wf limit i plan context ess : run_ready limit i plan context ess → Forall entry_wf (concat ess).
Proof.
  intros [Hfiles _ _ _ _ _ _ _ _ _].
  induction Hfiles as [|f es files ess (file & _ & _ & (_ & Hw & _) & _) _ IH]; [done|]. cbn. by apply Forall_app.
Qed.

Lemma sorted_of_strict es : entries_sorted es → key_sorted es.
Proof. induction 1 as [|e es Hs IH Hall]; constructor; [done|]. eapply Forall_impl; [exact Hall|]. intros y Hy. cbv beta. unfold bt_lt in Hy. by rewrite Hy. Qed.

Lemma entries_cost_perm a b : a ≡ₚ b → entries_cost a = entries_cost b.
Proof. induction 1; rewrite ?entries_cost_cons; [done|lia|lia|congruence]. Qed.

Lemma zlen_perm {A} (a b : list A) : a ≡ₚ b → zlen a = zlen b.
Proof. intros H. unfold zlen. by rewrite H. Qed.

Lemma run_inv_result limit i0 i plan context ess outs st ps m rs :
  run_inv limit i0 (cc_options context) (cc_next_file_number context) st i outs [] → rn_builder st = None →
  Forall (output_name (cc_next_file_number context)) ps → m ≡ₚ concat ess → key_sorted m →
  compacted plan context m rs → concat outs = concat rs → StronglySorted user_before outs →
  run_result limit i0 i plan context ess outs
    {| co_files := rn_outputs st; co_next_file_number := rn_next_file_number st; co_paths := ps |}.
Proof.
  intros [Hnum Hnext (ib & Hk & Ho & Hfr & Hall & Hb)] Hnone Hps Hp Hs Hc Heq Hord. rewrite Hnone in Hb, Hnext.
  destruct Hb as [-> _]. split; cbn; try done; [by exists m, rs|lia].
Qed.

Lemma run_wp limit g i0 E plan context ess :
  run_ready limit i0 plan context ess → (g = true → ∀ i, kept i0 i → E i) →
  wpf g (run plan context) i0 (λ out i, ∃ outs, run_result limit i0 i plan context ess outs out) E.
Proof using CR SL.
  intros [Hfiles Huniq Hnd Hfr Hn Hmax Hcost Hbuild Hlimit Hread] HE. set (n0 := cc_next_file_number context) in *.
  assert (Forall key_sorted ess ∧ Forall entry_wf (concat ess) ∧ entries_fit limit (concat ess)) as (Hsort & Hwf & Hfit).
  { clear -Hfiles. induction Hfiles as [|f es files ess (file & _ & _ & (Hne & Hw & Hs & _ & Hf) & _) _ (IH1 & IH2 & IH3)].
    { repeat split; constructor. }
    split; [constructor; [by apply sorted_of_strict|done]|]. cbn. split; by apply Forall_app. }
  destruct (merging_yields ess Hsort) as (it & m & Hnew & Hy & Hp & Hs).
  unfold run. apply wp_bind. eapply open_inputs_wp; [done|exact Hfiles|done|].
  apply wp_bind. eapply wp_lift_ok; [exact Hnew|]. apply wp_bind.
  assert (length m ≤ merging_size it)%nat as Hsize.
  { apply yields_size; [|done]. destruct (merging_new_ok (map (map Ok) ess)) as (it' & Hnew' & Hw). congruence. }
  apply (with_cleanup_wp i0 n0 Hfr); [done|]. unfold run_guarded. apply cwp_bind.
  set (Ec := λ paths i', g = true ∧ kept i0 i' ∧ Forall (output_name n0) paths).
  assert (g = true → ∀ ps i, kept i0 i → Forall (output_name n0) ps → Ec ps i) as HEc by (intros; by split).
  pose proof (entries_cost_perm _ _ Hp) as Hcp. pose proof (zlen_perm _ _ Hp) as Hzp.
  eapply (run_loop_wp limit i0 (cc_options context) n0 Hbuild Hlimit Hn g Ec HEc plan context eq_refl _ (peekable it) m _ i0 [] []);
    [by cbn|cbn; lia|done|by rewrite Hp| |by rewrite Hp| | | | | | |done|].
  - eapply versions_unique_subset; [|exact Huniq]. intros e. by rewrite Hp.
  - eapply entries_fit_subset; [|exact Hfit]. intros e. by rewrite Hp.
  - split; cbn [rn_outputs rn_next_file_number rn_builder]; [done|unfold n0, zlen; cbn; lia|].
    exists i0. change (zlen (@nil (list entry))) with 0. rewrite Z.add_0_r. split; [reflexivity|]. split; [intros p _; apply same_at_refl|]. split; [done|]. split; [constructor|done].
  - split; [constructor|constructor|constructor|repeat constructor].
  - intros x y Hx. by apply elem_of_nil in Hx.
  - change (entries_cost []) with 0. unfold U32_MAX. lia.
  - change (zlen (@nil (list entry))) with 0. lia.
  - intros rs st ps i outs cur Hps Hc Hinv Hwr Heq Hcc Hm. cbn in Heq.
    destruct (rn_builder st) as [ob|] eqn:Eb.
    + apply cwp_bind. eapply (finish_output_wp limit i0 (cc_options context) n0 Hbuild Hlimit Hn g Ec HEc st i outs cur); [done|done| |lia|done|].
      { apply (written_table limit outs); [done|done|]. destruct Hinv as [_ _ (ib & _ & _ & _ & _ & Hb)]. rewrite Eb in Hb. by destruct Hb as [? _]. }
      intros f ps' i' Hps' Hinv'. apply cwp_ret, wp_ret. exists (outs ++ [cur]).
      eapply run_inv_result; [exact Hinv'|done|done|exact Hp|done|exact Hc| |apply Hwr].
      rewrite concat_app. cbn. by rewrite app_nil_r.
    + apply cwp_ret, wp_ret. exists outs. assert (cur = []) as ->.
      { destruct Hinv as [_ _ (ib & _ & _ & _ & _ & Hb)]. rewrite Eb in Hb. by destruct Hb as [_ ?]. }
      rewrite app_nil_r in Heq.
      eapply run_inv_result; [exact Hinv|done|done|exact Hp|done|exact Hc|done|].
      destruct Hwr as [_ _ _ Hb]. by apply StronglySorted_app_1_l in Hb.
Qed.
End Whole.

(** ** Properties *)



(** ** Witnesses *)

(** Two tables whose keys interleave. *)
Definition sample_inputs : list (list entry) :=
  [[mk_entry [97] 9 VTombstone; mk_entry [97] 6 (VValue [1] (Some 40)); mk_entry [99] 8 (VValue [7] None)];
   [mk_entry [97] 4 (VValue [2] None); mk_entry [98] 3 (VValue [4] None)]].

Definition sample_run_options : Options := Options_new "db".

Definition sample_built (n : Z) (es : list entry) : bytes :=
  match @build_entries Castagnoli.crc identity_snappy n (op_block_bytes sample_run_options)
          (op_restart_interval sample_run_options) (op_bloom_bits_per_key sample_run_options) es with
  | Ok (_, file) => file
  | Err _ => []
  end.

Definition sample_file_meta (n : Z) (es : list entry) (first last : InternalKey) : FileMeta :=
  {| fm_number := n; fm_file_size := zlen (sample_built n es); fm_smallest := first; fm_largest := last |}.

Definition sample_file_5 : FileMeta :=
  sample_file_meta 5 (sample_inputs !!! 0%nat) (mk_key [97] 9 Deletion) (mk_key [99] 8 Value).
Definition sample_file_6 : FileMeta :=
  sample_file_meta 6 (sample_inputs !!! 1%nat) (mk_key [97] 4 Value) (mk_key [98] 3 Value).

Definition sample_disk : gmap name bytes :=
  {[ sstable_name 5 := sample_built 5 (sample_inputs !!! 0%nat);
     sstable_name 6 := sample_built 6 (sample_inputs !!! 1%nat) ]}.

Definition sample_image : CrashImage := durable_image sample_disk.

Definition sample_run_plan : CompactionPlan :=
  {| pl_input_level := 0; pl_output_level := 1; pl_inputs := [sample_file_5; sample_file_6];
     pl_overlaps := []; pl_score := f64_one |}.

Definition sample_context : CompactionContext :=
  {| cc_options := sample_run_options;
     cc_version := [[sample_file_5; sample_file_6]; []; []; []; []; []; []];
     cc_oldest_active_snapshot := Some 5; cc_read_time_unix_ms := 50; cc_next_file_number := 7 |}.

Lemma sample_input_entries n : n ∈ [0; 1]%nat → table_entries 200000 (sample_inputs !!! n).
Proof.
  intros Hn. repeat (apply elem_of_cons in Hn as [->|Hn]); [| |by apply elem_of_nil in Hn];
    (split; [done|]; split; [repeat (apply Forall_cons_2; [apply entry_wf_mk; eval_done|]); constructor|]);
    (split; [|split; [by vm_compute|repeat (apply Forall_cons_2; [by vm_compute|]); constructor]]);
    repeat (constructor; [|repeat (apply Forall_cons_2; [by vm_compute|]); constructor]); constructor.
Qed.

Lemma sample_output n k first last :
  1 ≤ n ≤ 10 → k ∈ [0; 1]%nat → ci_durable sample_image !! sstable_name n = Some (sample_built n (sample_inputs !!! k)) →
  meta_wf (sample_file_meta n (sample_inputs !!! k) first last) →
  fst <$> head (sample_inputs !!! k) = Some first → fst <$> list.last (sample_inputs !!! k) = Some last →
  output_ok (C := Castagnoli.crc) (SN := identity_snappy) 200000 sample_image
    (sample_file_meta n (sample_inputs !!! k) first last) (sample_inputs !!! k).
Proof.
  intros Hn Hk Hd Hm Hfirst Hlast. pose proof (sample_input_entries k Hk) as He.
  destruct (@build_entries_ok Castagnoli.crc identity_snappy castagnoli_range identity_snappy_laws 200000 n
    (op_block_bytes sample_run_options) (op_restart_interval sample_run_options)
    (op_bloom_bits_per_key sample_run_options) (sample_inputs !!! k)) as (file & a & z & _ & _ & Hb & Ht & Hsz).
  { unfold table_config, is_u64, U64_MAX. cbn. lia. } { done. } { by vm_compute. }
  assert (sample_built n (sample_inputs !!! k) = file) as Hfile by (unfold sample_built; by rewrite Hb).
  exists file. cbn [sample_file_meta fm_number fm_file_size fm_smallest fm_largest]. rewrite Hfile.
  rewrite Hfile in Hd. split; [|done]. unfold stored, view. cbn in *. by rewrite Hd.
Qed.

Lemma sample_ready : run_ready (C := Castagnoli.crc) (SN := identity_snappy) 200000 sample_image sample_run_plan sample_context sample_inputs.
Proof.
  split.
  - repeat constructor.
    + apply (sample_output 5 0 (mk_key [97] 9 Deletion) (mk_key [99] 8 Value)); [lia|set_solver|by vm_compute| |done..].
      split; [by vm_compute|by vm_compute|apply mk_key_wf; eval_done|apply mk_key_wf; eval_done|by vm_compute].
    + apply (sample_output 6 1 (mk_key [97] 4 Value) (mk_key [98] 3 Value)); [lia|set_solver|by vm_compute| |done..].
      split; [by vm_compute|by vm_compute|apply mk_key_wf; eval_done|apply mk_key_wf; eval_done|by vm_compute].
  - apply versions_unique_seqs. eval_done.
  - eapply (NoDup_fmap_1 e_seq). eval_done.
  - intros k Hk. cbn in Hk. unfold sample_image, sample_disk. cbn [ci_volatile ci_durable durable_image].
    assert (∀ n, 5 ≤ n ≤ 6 → sstable_temporary k ≠ sstable_name n ∧ sstable_name k ≠ sstable_name n) as Hne.
    { intros n Hn. split; [apply temporary_not_final|]. intros Heq%sstable_name_inj; unfold U64_MAX in *; lia. }
    destruct (Hne 5 ltac:(lia)), (Hne 6 ltac:(lia)).
    repeat split; rewrite lookup_insert_ne by done; rewrite lookup_singleton_ne by done; done.
  - by vm_compute.
  - by vm_compute.
  - by vm_compute.
  - by vm_compute.
  - by vm_compute.
  - by vm_compute.
Qed.



(** The run on the two tables: one output, which holds the versions a snapshot at 5
    still needs; the expired value has become a tombstone. *)
Example sample_run_output :
  match @run Castagnoli.crc identity_snappy sample_run_plan sample_context (FaultyFs_fail_at None sample_disk) with
  | (Ok out, s) =>
    (map fm_number (co_files out),
     match @open_internal Castagnoli.crc (default [] (ci_durable (fs_image s) !! sstable_name 7))
             (compaction_reader_options sample_run_options) (Some 7) with
     | Ok r => @table_child Castagnoli.crc identity_snappy r
     | Err _ => []
     end)
  | _ => ([], [])
  end =
  ([7], map Ok [mk_entry [97] 9 VTombstone; mk_entry [97] 6 VTombstone; mk_entry [97] 4 (VValue [2] None);
                mk_entry [98] 3 (VValue [4] None); mk_entry [99] 8 (VValue [7] None)]).
Proof. by vm_compute. Qed.
