(* ===== verification/Engine.v ===== *)
(** * The engine (src/crates/meteordb/src/engine.rs, background.rs)

    The write state behind the engine's mutex, its guards and failures, and the
    read path.  A computation under the lock is a stateful computation over the file
    system; the clock's reading is an argument.  An [Arc] of a version is the version
    with the number of edits that had been applied when it was published
    ([es_epoch]), so that reference counts can be told from the holders: the
    version set, the queue of obsolete tables and the readers in flight.  The block
    cache and the statistics do not change what is returned, and the tests' hooks,
    the condition variables and the worker thread itself are left out. *)

From Stdlib Require Import ZArith Lia Sorting.Sorted.
From stdpp Require Import base list gmap strings pretty.
From S2P Require Import Prelude Fs StateFs Checksum InternalKey Batch ValueRecord Snapshot Mvcc MemTable Iter.
From S2P Require Import Version Wal Options ManifestCodec Manifest WalFs Block TableBuilder TableReader.
From S2P Require Import TableStore Compaction CompactionRun.

Local Open Scope Z_scope.

(** ** Errors that stay *)

Definition display_z (n : Z) : string := pretty (Z.to_N n).

(** [Display] of [Error]. *)
Definition error_to_string (e : error) : string :=
  match e with
  | InvalidArgument message => "invalid argument: " +:+ message
  | Io operation path source => operation +:+ " failed for " +:+ path +:+ ": " +:+ source
  | Corruption context detail => "corruption in " +:+ context +:+ ": " +:+ detail
  | UnsupportedFormat kind version => "unsupported " +:+ kind +:+ " format version " +:+ display_z version
  | Reentrant operation => "reentrant operation would deadlock: " +:+ operation
  | Locked path => "database is locked: " +:+ path
  | Closed => "database is closed"
  | Background message => "background worker failed: " +:+ message
  | WriteStall n => "write stalled with " +:+ display_z n +:+ " immutable memtables"
  | Panicked message => message
  end%string.

(** The kind and the message of an I/O error are one string in [Io]. *)
Record TerminalFailure : Type := {
  tf_operation : option string;
  tf_path : option string;
  tf_source_kind : option string;
  tf_message : string
}.

Definition TerminalFailure_from_error (e : error) : TerminalFailure :=
  match e with
  | Io operation path source =>
    {| tf_operation := Some operation; tf_path := Some path; tf_source_kind := Some source; tf_message := source |}
  | e => {| tf_operation := None; tf_path := None; tf_source_kind := None; tf_message := error_to_string e |}
  end.

Definition TerminalFailure_to_error (f : TerminalFailure) : error :=
  match tf_operation f, tf_path f, tf_source_kind f with
  | Some operation, Some path, Some kind => Io operation path (tf_message f)
  | _, _, _ => Background (tf_message f)
  end.

(** ** State *)

Record MutableMemTable : Type := { mm_table : MemTable; mm_wal_number : Z }.

Record ImmutableMemTable : Type := {
  im_table : MemTable;
  im_wal_number : Z;
  im_largest_sequence : Z
}.

(** [Arc<Version>]: the identity and the value. *)
Record ArcVersion : Type := { av_id : Z; av_version : Version }.

Record ObsoleteSstables : Type := { ob_version : ArcVersion; ob_files : list Z }.

(** Weak references to a version and to a lease. *)
Record ReaderVersion : Type := { rv_version : ArcVersion; rv_lease : Z }.

Record WriteState : Type := {
  es_versions : VersionSet;
  es_wal : LogWriter;
  es_mutable : MutableMemTable;
  es_immutables : list ImmutableMemTable;
  es_wal_numbers : list Z;
  es_next_file_number : Z;
  es_next_sequence : Z;
  es_flush_running : bool;
  es_obsolete_sstables : list ObsoleteSstables;
  es_reader_versions : list ReaderVersion;
  es_closed : bool;
  es_terminal_failure : option TerminalFailure;
  es_background_failure : bool;
  es_epoch : Z
}.

Definition with_wal (x : LogWriter) (st : WriteState) : WriteState :=
  {| es_versions := es_versions st; es_wal := x; es_mutable := es_mutable st;
     es_immutables := es_immutables st; es_wal_numbers := es_wal_numbers st;
     es_next_file_number := es_next_file_number st; es_next_sequence := es_next_sequence st;
     es_flush_running := es_flush_running st; es_obsolete_sstables := es_obsolete_sstables st;
     es_reader_versions := es_reader_versions st; es_closed := es_closed st;
     es_terminal_failure := es_terminal_failure st; es_background_failure := es_background_failure st;
     es_epoch := es_epoch st |}.

Definition with_mutable (x : MutableMemTable) (st : WriteState) : WriteState :=
  {| es_versions := es_versions st; es_wal := es_wal st; es_mutable := x;
     es_immutables := es_immutables st; es_wal_numbers := es_wal_numbers st;
     es_next_file_number := es_next_file_number st; es_next_sequence := es_next_sequence st;
     es_flush_running := es_flush_running st; es_obsolete_sstables := es_obsolete_sstables st;
     es_reader_versions := es_reader_versions st; es_closed := es_closed st;
     es_terminal_failure := es_terminal_failure st; es_background_failure := es_background_failure st;
     es_epoch := es_epoch st |}.

Definition with_immutables (x : list ImmutableMemTable) (st : WriteState) : WriteState :=
  {| es_versions := es_versions st; es_wal := es_wal st; es_mutable := es_mutable st;
     es_immutables := x; es_wal_numbers := es_wal_numbers st;
     es_next_file_number := es_next_file_number st; es_next_sequence := es_next_sequence st;
     es_flush_running := es_flush_running st; es_obsolete_sstables := es_obsolete_sstables st;
     es_reader_versions := es_reader_versions st; es_closed := es_closed st;
     es_terminal_failure := es_terminal_failure st; es_background_failure := es_background_failure st;
     es_epoch := es_epoch st |}.

Definition with_wal_numbers (x : list Z) (st : WriteState) : WriteState :=
  {| es_versions := es_versions st; es_wal := es_wal st; es_mutable := es_mutable st;
     es_immutables := es_immutables st; es_wal_numbers := x;
     es_next_file_number := es_next_file_number st; es_next_sequence := es_next_sequence st;
     es_flush_running := es_flush_running st; es_obsolete_sstables := es_obsolete_sstables st;
     es_reader_versions := es_reader_versions st; es_closed := es_closed st;
     es_terminal_failure := es_terminal_failure st; es_background_failure := es_background_failure st;
     es_epoch := es_epoch st |}.

Definition with_next_file_number (x : Z) (st : WriteState) : WriteState :=
  {| es_versions := es_versions st; es_wal := es_wal st; es_mutable := es_mutable st;
     es_immutables := es_immutables st; es_wal_numbers := es_wal_numbers st; es_next_file_number := x;
     es_next_sequence := es_next_sequence st; es_flush_running := es_flush_running st;
     es_obsolete_sstables := es_obsolete_sstables st; es_reader_versions := es_reader_versions st;
     es_closed := es_closed st; es_terminal_failure := es_terminal_failure st;
     es_background_failure := es_background_failure st; es_epoch := es_epoch st |}.

Definition with_next_sequence (x : Z) (st : WriteState) : WriteState :=
  {| es_versions := es_versions st; es_wal := es_wal st; es_mutable := es_mutable st;
     es_immutables := es_immutables st; es_wal_numbers := es_wal_numbers st;
     es_next_file_number := es_next_file_number st; es_next_sequence := x;
     es_flush_running := es_flush_running st; es_obsolete_sstables := es_obsolete_sstables st;
     es_reader_versions := es_reader_versions st; es_closed := es_closed st;
     es_terminal_failure := es_terminal_failure st; es_background_failure := es_background_failure st;
     es_epoch := es_epoch st |}.

Definition with_flush_running (x : bool) (st : WriteState) : WriteState :=
  {| es_versions := es_versions st; es_wal := es_wal st; es_mutable := es_mutable st;
     es_immutables := es_immutables st; es_wal_numbers := es_wal_numbers st;
     es_next_file_number := es_next_file_number st; es_next_sequence := es_next_sequence st;
     es_flush_running := x; es_obsolete_sstables := es_obsolete_sstables st;
     es_reader_versions := es_reader_versions st; es_closed := es_closed st;
     es_terminal_failure := es_terminal_failure st; es_background_failure := es_background_failure st;
     es_epoch := es_epoch st |}.

Definition with_obsolete_sstables (x : list ObsoleteSstables) (st : WriteState) : WriteState :=
  {| es_versions := es_versions st; es_wal := es_wal st; es_mutable := es_mutable st;
     es_immutables := es_immutables st; es_wal_numbers := es_wal_numbers st;
     es_next_file_number := es_next_file_number st; es_next_sequence := es_next_sequence st;
     es_flush_running := es_flush_running st; es_obsolete_sstables := x;
     es_reader_versions := es_reader_versions st; es_closed := es_closed st;
     es_terminal_failure := es_terminal_failure st; es_background_failure := es_background_failure st;
     es_epoch := es_epoch st |}.

Definition with_reader_versions (x : list ReaderVersion) (st : WriteState) : WriteState :=
  {| es_versions := es_versions st; es_wal := es_wal st; es_mutable := es_mutable st;
     es_immutables := es_immutables st; es_wal_numbers := es_wal_numbers st;
     es_next_file_number := es_next_file_number st; es_next_sequence := es_next_sequence st;
     es_flush_running := es_flush_running st; es_obsolete_sstables := es_obsolete_sstables st;
     es_reader_versions := x; es_closed := es_closed st; es_terminal_failure := es_terminal_failure st;
     es_background_failure := es_background_failure st; es_epoch := es_epoch st |}.

Definition with_closed (x : bool) (st : WriteState) : WriteState :=
  {| es_versions := es_versions st; es_wal := es_wal st; es_mutable := es_mutable st;
     es_immutables := es_immutables st; es_wal_numbers := es_wal_numbers st;
     es_next_file_number := es_next_file_number st; es_next_sequence := es_next_sequence st;
     es_flush_running := es_flush_running st; es_obsolete_sstables := es_obsolete_sstables st;
     es_reader_versions := es_reader_versions st; es_closed := x;
     es_terminal_failure := es_terminal_failure st; es_background_failure := es_background_failure st;
     es_epoch := es_epoch st |}.

Definition with_terminal_failure (x : option TerminalFailure) (st : WriteState) : WriteState :=
  {| es_versions := es_versions st; es_wal := es_wal st; es_mutable := es_mutable st;
     es_immutables := es_immutables st; es_wal_numbers := es_wal_numbers st;
     es_next_file_number := es_next_file_number st; es_next_sequence := es_next_sequence st;
     es_flush_running := es_flush_running st; es_obsolete_sstables := es_obsolete_sstables st;
     es_reader_versions := es_reader_versions st; es_closed := es_closed st; es_terminal_failure := x;
     es_background_failure := es_background_failure st; es_epoch := es_epoch st |}.

Definition with_background_failure (x : bool) (st : WriteState) : WriteState :=
  {| es_versions := es_versions st; es_wal := es_wal st; es_mutable := es_mutable st;
     es_immutables := es_immutables st; es_wal_numbers := es_wal_numbers st;
     es_next_file_number := es_next_file_number st; es_next_sequence := es_next_sequence st;
     es_flush_running := es_flush_running st; es_obsolete_sstables := es_obsolete_sstables st;
     es_reader_versions := es_reader_versions st; es_closed := es_closed st;
     es_terminal_failure := es_terminal_failure st; es_background_failure := x;
     es_epoch := es_epoch st |}.

(** The version set has published a new version. *)
Definition publish_versions (vs : VersionSet) (st : WriteState) : WriteState :=
  {| es_versions := vs; es_wal := es_wal st; es_mutable := es_mutable st;
     es_immutables := es_immutables st; es_wal_numbers := es_wal_numbers st;
     es_next_file_number := es_next_file_number st; es_next_sequence := es_next_sequence st;
     es_flush_running := es_flush_running st; es_obsolete_sstables := es_obsolete_sstables st;
     es_reader_versions := es_reader_versions st; es_closed := es_closed st;
     es_terminal_failure := es_terminal_failure st; es_background_failure := es_background_failure st;
     es_epoch := es_epoch st + 1 |}.

(** The version set after a failed edit. *)
Definition keep_versions (vs : VersionSet) (st : WriteState) : WriteState :=
  {| es_versions := vs; es_wal := es_wal st; es_mutable := es_mutable st;
     es_immutables := es_immutables st; es_wal_numbers := es_wal_numbers st;
     es_next_file_number := es_next_file_number st; es_next_sequence := es_next_sequence st;
     es_flush_running := es_flush_running st; es_obsolete_sstables := es_obsolete_sstables st;
     es_reader_versions := es_reader_versions st; es_closed := es_closed st;
     es_terminal_failure := es_terminal_failure st; es_background_failure := es_background_failure st;
     es_epoch := es_epoch st |}.

(** A point read or a scan in flight: its version, its lease and the sequence its
    guard protects. *)
Record Reader : Type := { rd_version : ArcVersion; rd_lease : Z; rd_sequence : Z }.

Record Engine : Type := {
  en_state : WriteState;
  en_committed_sequence : Z;
  en_snapshots : SnapshotRegistry;
  en_readers : list Reader;
  en_next_lease : Z
}.

Definition with_state (st : WriteState) (en : Engine) : Engine :=
  {| en_state := st; en_committed_sequence := en_committed_sequence en; en_snapshots := en_snapshots en;
     en_readers := en_readers en; en_next_lease := en_next_lease en |}.
Definition with_committed_sequence (sequence : Z) (en : Engine) : Engine :=
  {| en_state := en_state en; en_committed_sequence := sequence; en_snapshots := en_snapshots en;
     en_readers := en_readers en; en_next_lease := en_next_lease en |}.
Definition with_snapshots (snapshots : SnapshotRegistry) (en : Engine) : Engine :=
  {| en_state := en_state en; en_committed_sequence := en_committed_sequence en; en_snapshots := snapshots;
     en_readers := en_readers en; en_next_lease := en_next_lease en |}.
Definition with_readers (readers : list Reader) (next_lease : Z) (en : Engine) : Engine :=
  {| en_state := en_state en; en_committed_sequence := en_committed_sequence en; en_snapshots := en_snapshots en;
     en_readers := readers; en_next_lease := next_lease |}.

(** A computation on the write state as one on the engine. *)
Definition on_state {A} (m : SFS WriteState A) : SFS Engine A := λ en s,
  let '((r, st), s) := m (en_state en) s in ((r, with_state st en), s).

(** ** Guards and failures *)

Definition ensure_open (st : WriteState) : result unit := if es_closed st then Err Closed else Ok tt.

Definition ensure_writable (st : WriteState) : result unit :=
  match es_terminal_failure st with
  | Some failure => Err (TerminalFailure_to_error failure)
  | None => ensure_open st
  end.

Definition ensure_no_background_failure (st : WriteState) : result unit :=
  if es_background_failure st then
    let? failure := ok_or (es_terminal_failure st) (Panicked "a background failure stores its diagnostic") in
    Err (TerminalFailure_to_error failure)
  else Ok tt.

Definition ensure_readable (st : WriteState) : result unit :=
  let? _ := ensure_no_background_failure st in ensure_open st.

Definition record_terminal_failure (e : error) (st : WriteState) : error * WriteState :=
  match es_terminal_failure st with
  | Some failure => (TerminalFailure_to_error failure, st)
  | None =>
    let failure := TerminalFailure_from_error e in
    (TerminalFailure_to_error failure, with_terminal_failure (Some failure) st)
  end.

Definition record_background_failure (e : error) (st : WriteState) : error * WriteState :=
  let '(returned, st) := record_terminal_failure e st in
  (returned, with_background_failure true st).

(** [return Err(record_terminal_failure(&mut state, error))] *)
Definition fail_terminally {A} (e : error) : SFS WriteState A := λ st s,
  let '(returned, st) := record_terminal_failure e st in ((Err returned, st), s).

(** ** Requests *)

Definition validate_length (kind : string) (length : Z) (limit_name : string) (limit : Z) : result unit :=
  if limit <? length then
    Err (InvalidArgument (kind +:+ " length " +:+ display_z length +:+ " exceeds " +:+ limit_name +:+
                          " " +:+ display_z limit)%string)
  else Ok tt.

Definition validate_operation (options : Options) (op : WriteOp) : result unit :=
  let '(key, value) := match op with Put key value _ => (key, Some value) | Delete key => (key, None) end in
  let? _ := validate_length "key" (zlen key) "max_key_bytes" (op_max_key_bytes options) in
  match value with
  | Some value => validate_length "value" (zlen value) "max_value_bytes" (op_max_value_bytes options)
  | None => Ok tt
  end.

Definition validate_batch (options : Options) (batch : WriteBatch) : result unit :=
  if WriteBatch_is_empty batch then Err (InvalidArgument "cannot write an empty batch")
  else if MAX_WRITE_BATCH_OPERATIONS <? WriteBatch_len batch then
    Err (InvalidArgument "write batch operation count exceeds the limit")
  else if op_max_batch_bytes options <? approximate_bytes batch then
    Err (InvalidArgument "write batch payload exceeds max_batch_bytes")
  else try_fold (λ _ op, validate_operation options op) tt (operations batch).

Definition bound_key (bound : Bound) : list bytes :=
  match bound with Included key => [key] | Excluded key => [key] | Unbounded => [] end.

Definition validate_scan_bounds (options : Options) (bounds : ScanBounds) : result unit :=
  try_fold (λ _ key, validate_length "bound" (zlen key) "max_key_bytes" (op_max_key_bytes options)) tt
    (bound_key (sb_start bounds) ++ bound_key (sb_end bounds)).

Record WriteBatchLimits : Type := { wl_max_payload_bytes : Z; wl_max_operations : Z }.

Definition write_batch_limits (options : Options) : WriteBatchLimits :=
  {| wl_max_payload_bytes := op_max_batch_bytes options; wl_max_operations := MAX_WRITE_BATCH_OPERATIONS |}.

Definition validate_next_put (limits : WriteBatchLimits) (batch : WriteBatch) (key value : bytes) : result unit :=
  if wl_max_operations limits <=? WriteBatch_len batch then
    Err (InvalidArgument "write batch operation count would exceed the limit")
  else
    let? projected_bytes := ok_or (projected_put_bytes batch key value)
      (InvalidArgument "write batch payload byte count overflow") in
    if wl_max_payload_bytes limits <? projected_bytes then
      Err (InvalidArgument "write batch payload exceeds max_batch_bytes")
    else Ok tt.

(** ** Files *)

Definition wal_name (number : Z) : name := format06 number ++ ascii_bytes ".wal".

(** [str::strip_suffix] *)
Definition strip_suffix (suffix name : bytes) : option bytes :=
  reverse <$> strip_prefix (reverse suffix) (reverse name).

Definition parse_numbered_name (name suffix : bytes) : option Z :=
  match strip_suffix suffix name with
  | Some digits =>
    if (zlen digits <? 6) || negb (forallb is_ascii_digit digits) then None
    else
      match parse_u64 digits with
      | Some number =>
        if negb (number =? 0) && lex_eqb digits (format06 number) then Some number else None
      | None => None
      end
  | None => None
  end.

Definition allocate_file_number : SFS WriteState Z :=
  let* st := c_get in
  let number := es_next_file_number st in
  if number =? 0 then c_lift (Err (InvalidArgument "file number must be greater than zero"))
  else
    let* next := c_lift (ok_or (checked_add number 1) (InvalidArgument "file number space is exhausted")) in
    let* _ := c_update (with_next_file_number next) in
    c_ret number.

(** The least log number of the memtables. *)
Definition oldest_of (immutables : list ImmutableMemTable) (mutable : MutableMemTable) : Z :=
  foldr Z.min (mm_wal_number mutable) (map im_wal_number immutables).

Definition oldest_required_wal (st : WriteState) : Z := oldest_of (es_immutables st) (es_mutable st).

Definition overlaps (file : FileMeta) (key : bytes) : bool :=
  lex_leb (ik_user_key (fm_smallest file)) key && lex_leb key (ik_user_key (fm_largest file)).

Definition engine_block_limit (options : Options) : Z :=
  let target_with_encoding := saturating_mul (op_block_bytes options) 2 in
  let largest_entry :=
    saturating_add (saturating_add (saturating_mul (op_max_key_bytes options) 2) (op_max_value_bytes options)) 128 in
  Z.max target_with_encoding largest_entry.

Definition engine_reader_options (options : Options) : TableReaderOptions :=
  {| ro_max_uncompressed_data_block_bytes := engine_block_limit options; ro_max_metadata_bytes := USIZE_MAX |}.

Definition validate_table_length (reader : TableReader) (file : FileMeta) : result unit :=
  if negb (rd_file_size reader =? fm_file_size file) then
    Err (Corruption "SSTable" "table has an unexpected length")
  else Ok tt.

(** ** Readers in flight *)

Section Leases.
  Context (readers : list Reader) (st : WriteState).

(** [Weak::strong_count] of a lease and [Arc::strong_count] of a version: the
    holders are the version set, the obsolete queue and the readers. *)
Definition lease_alive (lease : Z) : bool := existsb (λ r, rd_lease r =? lease) readers.

Definition version_strong_count (id : Z) : Z :=
  (if es_epoch st =? id then 1 else 0) +
  zlen (List.filter (λ o, av_id (ob_version o) =? id) (es_obsolete_sstables st)) +
  zlen (List.filter (λ r, av_id (rd_version r) =? id) readers).

Definition reader_alive (r : ReaderVersion) : bool :=
  lease_alive (rv_lease r) && (0 <? version_strong_count (av_id (rv_version r))).

Definition is_unreferenced (o : ObsoleteSstables) : bool := version_strong_count (av_id (ob_version o)) =? 1.
End Leases.

Definition READER_LEASE_PRUNE_INTERVAL : Z := 64.

Definition current_version (st : WriteState) : ArcVersion :=
  {| av_id := es_epoch st; av_version := vs_current (es_versions st) |}.

(** [register_reader_version], and the caller keeps the version and the lease. *)
Definition register_reader_version (version : ArcVersion) (sequence : Z) : SFS Engine Reader := λ en s,
  let st := en_state en in
  let kept :=
    if READER_LEASE_PRUNE_INTERVAL <=? zlen (es_reader_versions st)
    then List.filter (reader_alive (en_readers en) st) (es_reader_versions st) else es_reader_versions st in
  let lease := en_next_lease en in
  let reader := {| rd_version := version; rd_lease := lease; rd_sequence := sequence |} in
  let st := with_reader_versions (kept ++ [{| rv_version := version; rv_lease := lease |}]) st in
  ((Ok reader, with_readers (reader :: en_readers en) (lease + 1) (with_state st en)), s).

(** The reader goes out of scope. *)
Definition drop_reader (reader : Reader) : SFS Engine unit :=
  c_update (λ en, with_readers (List.filter (λ r, negb (rd_lease r =? rd_lease reader)) (en_readers en))
                    (en_next_lease en) en).

Definition acquire_snapshot (sequence : Z) : SFS Engine unit :=
  let* en := c_get in
  let* snapshots := c_lift (acquire (en_snapshots en) sequence) in
  c_update (with_snapshots snapshots).

Definition drop_snapshot (sequence : Z) : SFS Engine unit :=
  c_update (λ en, with_snapshots (drop_guard (en_snapshots en) sequence) en).

(** ** Point reads *)

(** The first hit of the memtables, newest first. *)
Fixpoint get_from_memory (tables : list MemTable) (key : bytes) (sequence : Z) : result (option ValueRecord) :=
  match tables with
  | [] => Ok None
  | table :: tables =>
    let? hit := get_entry table key sequence in
    match hit with
    | Some (_, record) => Ok (Some record)
    | None => get_from_memory tables key sequence
    end
  end.

Definition memory_tables (st : WriteState) : list MemTable :=
  mm_table (es_mutable st) :: map im_table (reverse (es_immutables st)).

Section Reads.
  Context `{C : Crc32c} `{SN : Snappy} (options : Options).

Definition open_table (file : FileMeta) : FS TableReader :=
  let! b := fs_map_err (io_error "open SSTable") (read_file (sstable_name (fm_number file))) in
  let! reader := fs_lift (open_internal b (engine_reader_options options) (Some (fm_number file))) in
  let! _ := fs_lift (validate_table_length reader file) in
  fs_ret reader.

Definition read_table_candidate (file : FileMeta) (key : bytes) (sequence read_time_unix_ms : Z)
    : FS (option (option bytes)) :=
  let! reader := open_table file in
  let! hit := fs_lift (get_visible reader key sequence) in
  match hit with
  | BloomNegative | Absent => fs_ret None
  | Found internal_key value =>
    let! kind := fs_lift (InternalKey_kind internal_key) in
    let! record := fs_lift (decode_sstable kind value (tp_engine_value_encoding (rd_properties reader))) in
    fs_ret (Some (record_into_value record read_time_unix_ms))
  end.

(** The first file with a hit. *)
Fixpoint read_candidates (files : list FileMeta) (key : bytes) (sequence read_time_unix_ms : Z)
    : FS (option (option bytes)) :=
  match files with
  | [] => fs_ret None
  | file :: files =>
    let! value := read_table_candidate file key sequence read_time_unix_ms in
    match value with
    | Some value => fs_ret (Some value)
    | None => read_candidates files key sequence read_time_unix_ms
    end
  end.

(** The file of a sorted level that can hold the key. *)
Definition level_candidate (files : list FileMeta) (key : bytes) : list FileMeta :=
  let index := partition_point (λ file, lex_ltb (ik_user_key (fm_largest file)) key) files in
  match files !! Z.to_nat index with
  | Some file => if overlaps file key then [file] else []
  | None => []
  end.

(** The loop over the levels from 1 on. *)
Fixpoint read_levels (levels : list (list FileMeta)) (key : bytes) (sequence read_time_unix_ms : Z)
    : FS (option bytes) :=
  match levels with
  | [] => fs_ret None
  | files :: levels =>
    let! value := read_candidates (level_candidate files key) key sequence read_time_unix_ms in
    match value with
    | Some value => fs_ret value
    | None => read_levels levels key sequence read_time_unix_ms
    end
  end.

Definition get_from_version (version : Version) (key : bytes) (sequence read_time_unix_ms : Z)
    : FS (option bytes) :=
  let! files := fs_lift (Version_files version 0) in
  let! value := read_candidates (List.filter (λ file, overlaps file key) files) key sequence read_time_unix_ms in
  match value with
  | Some value => fs_ret value
  | None => read_levels (drop 1 version) key sequence read_time_unix_ms
  end.

(** Under the lock: a value from the memtables, or a reader of the current version. *)
Definition get_locked (key : bytes) (sequence read_time_unix_ms : Z) : SFS Engine (option bytes + Reader) :=
  let* en := c_get in
  let* hit := c_lift (get_from_memory (memory_tables (en_state en)) key sequence) in
  match hit with
  | Some record => c_ret (inl (record_into_value record read_time_unix_ms))
  | None =>
    let* reader := register_reader_version (current_version (en_state en)) sequence in
    c_ret (inr reader)
  end.

(** [m] with a destructor that runs on both exits. *)
Definition c_finally {A} (m : SFS Engine A) (cleanup : SFS Engine unit) : SFS Engine A :=
  let* a := c_try m (λ e, let* _ := cleanup in c_lift (Err e)) in
  let* _ := cleanup in
  c_ret a.

Definition get_from_state (key : bytes) (sequence read_time_unix_ms : Z) : SFS Engine (option bytes) :=
  let* r := get_locked key sequence read_time_unix_ms in
  match r with
  | inl value => c_ret value
  | inr reader =>
    c_finally (c_fs (get_from_version (av_version (rd_version reader)) key sequence read_time_unix_ms))
      (drop_reader reader)
  end.

Definition Engine_get (key : bytes) (read_time_unix_ms : Z) : SFS Engine (option bytes) :=
  let* en := c_get in
  let* _ := c_lift (ensure_readable (en_state en)) in
  let* _ := c_lift (validate_length "key" (zlen key) "max_key_bytes" (op_max_key_bytes options)) in
  let sequence := en_committed_sequence en in
  let* _ := acquire_snapshot sequence in
  c_finally (get_from_state key sequence read_time_unix_ms) (drop_snapshot sequence).

(** [Snapshot::get]; the snapshot's own guard protects the sequence. *)
Definition Engine_get_at (key : bytes) (sequence read_time_unix_ms : Z) : SFS Engine (option bytes) :=
  let* en := c_get in
  let* _ := c_lift (ensure_readable (en_state en)) in
  let* _ := c_lift (validate_length "key" (zlen key) "max_key_bytes" (op_max_key_bytes options)) in
  get_from_state key sequence read_time_unix_ms.

Definition Engine_snapshot : SFS Engine Z :=
  let* en := c_get in
  let* _ := c_lift (ensure_readable (en_state en)) in
  let sequence := en_committed_sequence en in
  let* _ := acquire_snapshot sequence in
  c_ret sequence.

(** ** Scans *)

Definition push_memtable_child (children : list ChildIterator) (table : MemTable) (bounds : ScanBounds)
    : list ChildIterator :=
  children ++ [map Ok (owned_entries_matching table (λ key, user_key_in_bounds bounds (ik_user_key key)))].

Definition open_child (file : FileMeta) : FS ChildIterator :=
  let! reader := open_table file in fs_ret (table_child reader).

Fixpoint open_children (files : list FileMeta) : FS (list ChildIterator) :=
  match files with
  | [] => fs_ret []
  | file :: files =>
    let! child := open_child file in
    let! children := open_children files in
    fs_ret (child :: children)
  end.

Definition scan_files (version : Version) (bounds : ScanBounds) : list FileMeta :=
  List.filter (λ file, overlaps_bounds (ik_user_key (fm_smallest file)) (ik_user_key (fm_largest file)) bounds)
    (concat version).

(** The iterator with its [ReadLifetime]. *)
Definition scan_from_state (bounds : ScanBounds) (limit sequence read_time_unix_ms : Z)
    : SFS Engine (KvIterator * Reader) :=
  let* en := c_get in
  let children := fold_left (λ children table, push_memtable_child children table bounds)
                    (memory_tables (en_state en)) [] in
  let* reader := register_reader_version (current_version (en_state en)) sequence in
  let* disk := c_try (c_fs (open_children (scan_files (av_version (rd_version reader)) bounds)))
    (λ e, let* _ := drop_reader reader in c_lift (Err e)) in
  let* it := c_lift (KvIterator_new (children ++ disk) bounds sequence read_time_unix_ms limit) in
  c_ret (it, reader).

(** [scan_at]; with a limit of zero there is nothing to protect. *)
Definition scan_at (bounds : ScanBounds) (limit sequence read_time_unix_ms : Z)
    : SFS Engine (KvIterator * option Reader) :=
  let* en := c_get in
  let* _ := c_lift (ensure_no_background_failure (en_state en)) in
  let* _ := c_lift (validate_scan_bounds options bounds) in
  if limit =? 0 then
    let* it := c_lift (KvIterator_empty bounds sequence read_time_unix_ms) in
    c_ret (it, None)
  else
    let* _ := c_lift (ensure_open (en_state en)) in
    let* _ := acquire_snapshot sequence in
    let* (it, reader) := c_try (scan_from_state bounds limit sequence read_time_unix_ms)
      (λ e, let* _ := drop_snapshot sequence in c_lift (Err e)) in
    c_ret (it, Some reader).

(** [scan_current] reads the committed sequence under the lock. *)
Definition scan_current (bounds : ScanBounds) (limit read_time_unix_ms : Z)
    : SFS Engine (KvIterator * option Reader) :=
  let* en := c_get in scan_at bounds limit (en_committed_sequence en) read_time_unix_ms.

Definition Engine_scan_prefix (prefix : bytes) (limit read_time_unix_ms : Z)
    : SFS Engine (KvIterator * option Reader) :=
  let* en := c_get in
  let* _ := c_lift (ensure_readable (en_state en)) in
  let* _ := c_lift (validate_length "prefix" (zlen prefix) "max_key_bytes" (op_max_key_bytes options)) in
  scan_current (prefix_bounds prefix) limit read_time_unix_ms.

End Reads.
