(* ===== verification/EngineOps.v ===== *)
(** * The engine: writes, flushes and compactions (src/crates/meteordb/src/engine.rs)

    The operations that change the write state.  A flush has three steps, of which
    the first and the last hold the lock; the others hold it throughout. *)

From Stdlib Require Import ZArith Lia Sorting.Sorted.
From stdpp Require Import base list gmap strings.
From S2P Require Import Prelude Fs StateFs Checksum InternalKey Batch ValueRecord Snapshot Mvcc MemTable Iter.
From S2P Require Import Version Wal Options ManifestCodec Manifest WalFs Block TableBuilder TableReader.
From S2P Require Import TableStore Compaction CompactionRun Engine.

Local Open Scope Z_scope.

(** ** Sets of numbers *)

(** [BTreeSet<u64>] as an increasing list. *)
Fixpoint set_insert (n : Z) (l : list Z) : list Z :=
  match l with
  | [] => [n]
  | m :: l => match n ?= m with Lt => n :: m :: l | Eq => m :: l | Gt => m :: set_insert n l end
  end.

Definition set_remove (n : Z) (l : list Z) : list Z := List.filter (λ m, negb (m =? n)) l.

Definition set_of (l : list Z) : list Z := fold_left (λ acc n, set_insert n acc) l [].

Section Ops.
  Context `{C : Crc32c} `{SN : Snappy} (options : Options).

(** ** The version set *)

Definition versions_apply_with_visibility (edit : VersionEdit)
    : WriteState → FaultState → (option VersionApplyError * WriteState) * FaultState := λ st s,
  match apply_with_visibility (es_versions st) edit s with
  | (None, vs, s) => ((None, publish_versions vs st), s)
  | (Some failure, vs, s) => ((Some failure, keep_versions vs st), s)
  end.

(** [VersionSet::apply] *)
Definition versions_apply (edit : VersionEdit) : SFS WriteState unit := λ st s,
  match versions_apply_with_visibility edit st s with
  | ((None, st), s) => ((Ok tt, st), s)
  | ((Some failure, st), s) => ((Err (va_error failure), st), s)
  end.

(** ** Writes *)

Definition rotate_memtable (largest_sequence : Z) : SFS WriteState unit :=
  let* new_number := allocate_file_number in
  let* new_wal := c_fs (log_create (wal_name new_number) (op_max_batch_bytes options)) in
  let* st := c_get in
  let edit := set_active_log_number
    (set_log_number (set_next_file_number VersionEdit_new (es_next_file_number st)) (oldest_required_wal st))
    new_number in
  let* _ := versions_apply edit in
  c_update (λ st,
    let old := es_mutable st in
    with_immutables (es_immutables st ++
        [{| im_table := mm_table old; im_wal_number := mm_wal_number old;
            im_largest_sequence := largest_sequence |}])
      (with_wal_numbers (set_insert new_number (es_wal_numbers st))
        (with_wal new_wal
          (with_mutable {| mm_table := MemTable_default; mm_wal_number := new_number |} st)))).

(** What [write_serialized] does once the batch is accepted. *)
Definition commit_batch (batch : WriteBatch) (sequence : Z) : SFS WriteState unit :=
  let* st := c_get in
  let* wal := c_try (c_fs (log_append (es_wal st) sequence batch (op_durability options))) fail_terminally in
  let* _ := c_update (with_wal wal) in
  let* table := c_lift (MemTable_apply (mm_table (es_mutable st)) sequence batch) in
  c_update (λ st, with_next_sequence (sequence + 1)
    (with_mutable {| mm_table := table; mm_wal_number := mm_wal_number (es_mutable st) |} st)).

(** A failed rotation is terminal, but the batch is committed. *)
Definition rotate_if_full (sequence : Z) : SFS WriteState unit :=
  let* st := c_get in
  if op_memtable_bytes options <=? mt_approximate_bytes (mm_table (es_mutable st)) then
    c_try (rotate_memtable sequence) (λ e, c_update (λ st, (record_terminal_failure e st).2))
  else c_ret tt.

Definition write_serialized (prepare : result WriteBatch) : SFS Engine unit :=
  let* en := c_get in
  let* _ := c_lift (ensure_writable (en_state en)) in
  let* batch := c_lift prepare in
  let* _ := c_lift (validate_batch options batch) in
  if op_max_immutable_memtables options <=? zlen (es_immutables (en_state en)) then
    c_lift (Err (WriteStall (zlen (es_immutables (en_state en)))))
  else
    let sequence := es_next_sequence (en_state en) in
    if sequence =? U64_MAX then c_lift (Err (InvalidArgument "sequence number space is exhausted"))
    else
      let* _ := on_state (commit_batch batch sequence) in
      let* _ := c_update (with_committed_sequence sequence) in
      on_state (rotate_if_full sequence).

Definition Engine_write (batch : WriteBatch) : SFS Engine unit := write_serialized (Ok batch).
Definition Engine_put (key value : bytes) : SFS Engine unit :=
  write_serialized (WriteBatch_put WriteBatch_default key value).
Definition Engine_delete (key : bytes) : SFS Engine unit :=
  write_serialized (WriteBatch_delete WriteBatch_default key).

(** The deadline is computed under the lock; [ttl_ms] is an [i64]. *)
Definition ttl_batch (key value : bytes) (ttl_ms now_unix_ms : Z) : result WriteBatch :=
  if ttl_ms <? 0 then Err (InvalidArgument "ttl_ms must not be negative")
  else
    let? expires_at_unix_ms := ok_or (checked_add now_unix_ms ttl_ms)
      (InvalidArgument "TTL expiration timestamp overflow") in
    put_with_expiration WriteBatch_default key value (Some expires_at_unix_ms).

Definition put_with_ttl (key value : bytes) (ttl_ms now_unix_ms : Z) : SFS Engine unit :=
  write_serialized (ttl_batch key value ttl_ms now_unix_ms).

(** ** Synchronization *)

Definition sync_owned_wals : SFS WriteState unit :=
  let* st := c_get in
  let active := mm_wal_number (es_mutable st) in
  let required := set_of (map im_wal_number (es_immutables st) ++ [active]) in
  c_fs (fs_each (λ number,
    if number =? active then log_sync (es_wal st)
    else fs_map_err (io_error "sync WAL") (sync_file (wal_name number))) required).

Definition persist_wal_state : SFS WriteState unit :=
  let* st := c_get in
  versions_apply (set_wal_sequence (set_active_log_number (set_log_number
    (set_next_file_number VersionEdit_new (es_next_file_number st))
    (oldest_required_wal st)) (mm_wal_number (es_mutable st)))
    (saturating_sub (es_next_sequence st) 1)).

Definition Engine_sync : SFS WriteState unit :=
  let* st := c_get in
  let* _ := c_lift (ensure_writable st) in
  let* _ := c_try sync_owned_wals fail_terminally in
  c_try persist_wal_state fail_terminally.

Definition Engine_close : SFS WriteState unit :=
  let* st := c_get in
  match es_terminal_failure st with
  | Some failure =>
    let* _ := c_update (with_closed true) in
    c_lift (Err (TerminalFailure_to_error failure))
  | None =>
    if es_closed st then c_ret tt
    else
      let* _ := c_try (let* _ := sync_owned_wals in persist_wal_state)
        (λ e, λ st s, let '(e, st) := record_terminal_failure e st in ((Err e, with_closed true st), s)) in
      c_update (with_closed true)
  end.

(** ** Flushes *)

Fixpoint remove_wals (numbers : list Z) : SFS WriteState unit :=
  match numbers with
  | [] => c_ret tt
  | number :: numbers =>
    let* _ := c_fs (fs_map_err (io_error "remove obsolete WAL") (remove_file (wal_name number))) in
    let* _ := c_update (λ st, with_wal_numbers (set_remove number (es_wal_numbers st)) st) in
    remove_wals numbers
  end.

(** [take_while] on an increasing set. *)
Fixpoint take_while_below (bound : Z) (l : list Z) : list Z :=
  match l with
  | [] => []
  | n :: l => if n <? bound then n :: take_while_below bound l else []
  end.

Definition retire_obsolete_wals : SFS WriteState unit :=
  let* st := c_get in
  let obsolete := take_while_below (oldest_required_wal st) (es_wal_numbers st) in
  let* _ := remove_wals obsolete in
  if bool_decide (obsolete = []) then c_ret tt
  else c_fs (fs_map_err (io_error "sync WAL retirement") (sync_directory DIRECTORY)).

(** The worker takes the oldest immutable memtable and a file number; [None] when
    there is nothing to do or the worker stops. *)
Definition flush_begin : SFS WriteState (option (ImmutableMemTable * Z)) :=
  let* st := c_get in
  if es_closed st || bool_decide (is_Some (es_terminal_failure st)) then c_ret None
  else
    match es_immutables st with
    | [] => c_ret None
    | immutable :: _ =>
      let* _ := c_update (with_flush_running true) in
      c_try (let* number := allocate_file_number in c_ret (Some (immutable, number)))
        (λ e, let* _ := c_update (λ st, with_flush_running false (record_background_failure e st).2) in
              c_ret None)
    end.

(** Without the lock. *)
Definition flush_build (immutable : ImmutableMemTable) (file_number : Z) : FS TableBuildResult :=
  build_sstable options file_number (mt_entries (im_table immutable)).

(** The closure over the build result. *)
Definition flush_publish (immutable : ImmutableMemTable) (built : TableBuildResult) : SFS WriteState unit :=
  let* st := c_get in
  let oldest_required_after_flush := oldest_of (drop 1 (es_immutables st)) (es_mutable st) in
  let* file := c_lift (FileMeta_new (tr_file_number built) (tr_file_size built) (tr_smallest built) (tr_largest built)) in
  let edit := set_active_log_number (set_log_number (set_last_sequence (set_next_file_number
    (add_file VersionEdit_new 0 file) (es_next_file_number st)) (im_largest_sequence immutable))
    oldest_required_after_flush) (mm_wal_number (es_mutable st)) in
  let* _ := versions_apply edit in
  let* _ := c_update (λ st, with_immutables (drop 1 (es_immutables st)) st) in
  retire_obsolete_wals.

Definition flush_finish (immutable : ImmutableMemTable) (built : result TableBuildResult) : SFS WriteState unit :=
  let* _ := c_try (let* built := c_lift built in flush_publish immutable built)
    (λ e, c_update (λ st, (record_background_failure e (with_flush_running false st)).2)) in
  c_update (with_flush_running false).

(** One iteration of the worker. *)
Definition background_iteration : SFS WriteState unit :=
  let* job := flush_begin in
  match job with
  | None => c_ret tt
  | Some (immutable, file_number) =>
    λ st s, let '(built, s) := flush_build immutable file_number s in flush_finish immutable built st s
  end.

(** What [flush] does itself: the rotation, between two waits for the worker. *)
Definition flush_rotate : SFS WriteState unit :=
  let* st := c_get in
  let* _ := c_lift (ensure_writable st) in
  if MemTable_is_empty (mm_table (es_mutable st)) then c_ret tt
  else c_try (rotate_memtable (saturating_sub (es_next_sequence st) 1)) fail_terminally.

(** ** Compactions *)

Definition validate_compaction_plan (plan : CompactionPlan) (version : Version) : result unit :=
  let? input_files := Version_files version (pl_input_level plan) in
  let inputs_are_live := forallb (λ input, bool_decide (input ∈ input_files)) (pl_inputs plan) in
  let? output_files := Version_files version (pl_output_level plan) in
  let overlaps_are_live := forallb (λ input, bool_decide (input ∈ output_files)) (pl_overlaps plan) in
  if negb inputs_are_live || negb overlaps_are_live then
    Err (InvalidArgument "compaction plan no longer matches the current version")
  else Ok tt.

(** The files that readers of older versions still need. *)
Definition protected_files (readers : list Reader) (st : WriteState) : list Z :=
  let versions :=
    map (λ o, av_version (ob_version o))
      (List.filter (λ o, negb (is_unreferenced readers st o)) (es_obsolete_sstables st)) ++
    map (λ r, av_version (rv_version r))
      (List.filter (reader_alive readers st) (es_reader_versions st)) in
  flat_map file_numbers versions.

Inductive reclaim_outcome : Type :=
| Reclaimed (still_protected : list Z) (removed : bool)
| ReclaimFailed (files : list Z) (e : error).

(** The inner loop over the files of one obsolete set. *)
Fixpoint reclaim_files (protected files still_protected : list Z) (removed : bool) : FS reclaim_outcome :=
  match files with
  | [] => fs_ret (Reclaimed still_protected removed)
  | number :: files =>
    if bool_decide (number ∈ protected) then reclaim_files protected files (still_protected ++ [number]) removed
    else λ s,
      match remove_file (sstable_name number) s with
      | (Ok _, s) => reclaim_files protected files still_protected true s
      | (Err source, s) =>
        (Ok (ReclaimFailed (number :: still_protected ++ files) (io_error "remove obsolete SSTable" source)), s)
      end
  end.

(** The outer loop; the queue is put back when a removal fails. *)
Fixpoint reclaim_loop (protected : list Z) (queue retained : list ObsoleteSstables) (removed : bool)
    : SFS WriteState bool :=
  match queue with
  | [] =>
    let* _ := c_update (with_obsolete_sstables retained) in c_ret removed
  | obsolete :: queue =>
    let* outcome := c_fs (reclaim_files protected (ob_files obsolete) [] removed) in
    match outcome with
    | Reclaimed still_protected removed =>
      let retained :=
        if bool_decide (still_protected = []) then retained
        else retained ++ [{| ob_version := ob_version obsolete; ob_files := still_protected |}] in
      reclaim_loop protected queue retained removed
    | ReclaimFailed files e =>
      let* _ := c_update (with_obsolete_sstables
        ({| ob_version := ob_version obsolete; ob_files := files |} :: retained ++ queue)) in
      c_lift (Err e)
    end
  end.

Definition reclaim_obsolete_sstables (readers : list Reader) : SFS WriteState unit :=
  let* _ := c_update (λ st, with_reader_versions
    (List.filter (reader_alive readers st) (es_reader_versions st)) st) in
  let* st := c_get in
  let* removed := reclaim_loop (protected_files readers st) (es_obsolete_sstables st) [] false in
  if removed then c_fs (fs_map_err (io_error "sync obsolete SSTable retirement") (sync_directory DIRECTORY))
  else c_ret tt.

Definition compaction_edit (plan : CompactionPlan) (output : CompactionOutput) : VersionEdit :=
  let edit := fold_left (λ edit file, delete_file edit (pl_input_level plan) (fm_number file))
    (pl_inputs plan) VersionEdit_new in
  let edit := fold_left (λ edit file, delete_file edit (pl_output_level plan) (fm_number file))
    (pl_overlaps plan) edit in
  let edit := fold_left (λ edit file, add_file edit (pl_output_level plan) file) (co_files output) edit in
  set_next_file_number edit (co_next_file_number output).

(** [output] is dropped armed unless the edit may be visible. *)
Definition publish_compaction (plan : CompactionPlan) (output : CompactionOutput) : SFS WriteState unit := λ st s,
  match versions_apply_with_visibility (compaction_edit plan output) st s with
  | ((None, st), s) => ((Ok tt, st), s)
  | ((Some failure, st), s) =>
    ((Err (va_error failure), st),
     if va_edit_may_be_visible failure then s else (cleanup_drop (co_paths output) s).2)
  end.

Definition execute_valid_compaction_plan (plan : CompactionPlan) (readers : list Reader)
    (oldest_active_snapshot : option Z) (read_time_unix_ms : Z) : SFS WriteState unit :=
  let* st := c_get in
  let old_version := current_version st in
  let* output := c_fs (run plan
    {| cc_options := options; cc_version := av_version old_version;
       cc_oldest_active_snapshot := oldest_active_snapshot;
       cc_read_time_unix_ms := read_time_unix_ms; cc_next_file_number := es_next_file_number st |}) in
  let* _ := publish_compaction plan output in
  let* _ := c_update (λ st, with_obsolete_sstables
    (es_obsolete_sstables st ++
      [{| ob_version := old_version; ob_files := map fm_number (pl_inputs plan ++ pl_overlaps plan) |}])
    (with_next_file_number (co_next_file_number output) st)) in
  reclaim_obsolete_sstables readers.

(** A failure is recorded as a background failure. *)
Definition execute_compaction_plan (plan : CompactionPlan) (read_time_unix_ms : Z) : SFS Engine unit :=
  let* en := c_get in
  let st := en_state en in
  let* _ := c_lift (ensure_writable st) in
  if negb (bool_decide (es_immutables st = [])) || es_flush_running st then
    c_lift (Err (Background "cannot compact while a memtable flush is running"))
  else
    let* _ := c_lift (validate_compaction_plan plan (vs_current (es_versions st))) in
    on_state (c_try
      (execute_valid_compaction_plan plan (en_readers en) (oldest_active (en_snapshots en)) read_time_unix_ms)
      (λ e, λ st s, let '(e, st) := record_background_failure e st in ((Err e, st), s))).

(** [compact] behind its flush: the plan, or [None] when no level is overfull. *)
Definition compact_pick : SFS Engine (option CompactionPlan) :=
  let* en := c_get in
  let* _ := c_lift (ensure_writable (en_state en)) in
  let* _ := on_state (reclaim_obsolete_sstables (en_readers en)) in
  let* en := c_get in
  c_lift (pick (CompactionPicker_new DEFAULT_L0_COMPACTION_TRIGGER (op_target_sstable_bytes options))
            (vs_current (es_versions (en_state en)))).

Definition compact_flushed (read_time_unix_ms : Z) : SFS Engine bool :=
  let* plan := compact_pick in
  match plan with
  | None => c_ret false
  | Some plan =>
    let* _ := execute_compaction_plan plan read_time_unix_ms in
    c_ret true
  end.
End Ops.
