(* ===== verification/EngineOpen.v ===== *)
(** * Opening an engine (src/crates/meteordb/src/engine.rs)

    [Engine::open_with_fs_and_clock]: the version set is recovered or created, tables
    that no version refers to are removed, the logs that the manifest asks for are
    replayed into memtables, and a new log is started.  A listing of the directory
    shows the names in some order that nothing depends on; a name that
    [parse_numbered_name] accepts is the canonical name of its number, so logs are
    listed by number.  The block cache is created last and can only fail for a size
    that [Options::validate] has refused; the worker thread is not modelled. *)

From Stdlib Require Import ZArith Lia Sorting.Sorted.
From stdpp Require Import base list gmap strings.
From S2P Require Import Prelude Fs StateFs Checksum InternalKey Batch ValueRecord Snapshot Mvcc MemTable Iter.
From S2P Require Import Version Wal Options ManifestCodec Manifest WalFs Block TableBuilder TableReader.
From S2P Require Import TableStore Compaction CompactionRun Engine EngineOps.

Local Open Scope Z_scope.

(** [std::fs::read_dir] *)
Definition read_dir : FS (list name) := λ s, (Ok (map fst (map_to_list (ci_volatile (fs_image s)))), s).

Section Open.
  Context `{C : Crc32c} (options : Options).

(** ** Unpublished tables *)

Definition is_unpublished (live : list Z) (entry : name) : bool :=
  bool_decide (is_Some (parse_numbered_name entry (ascii_bytes ".sst.tmp"))) ||
  match parse_numbered_name entry (ascii_bytes ".sst") with
  | Some number => negb (bool_decide (number ∈ live))
  | None => false
  end.

Definition remove_unpublished_sstables (versions : VersionSet) : FS unit :=
  let live := file_numbers (vs_current versions) in
  let! entries := fs_map_err (io_error "list database") read_dir in
  let unpublished := List.filter (is_unpublished live) entries in
  let! _ := fs_each (λ entry, fs_map_err (io_error "remove unpublished SSTable") (remove_file entry)) unpublished in
  if bool_decide (unpublished = []) then fs_ret tt
  else fs_map_err (io_error "sync SSTable cleanup") (sync_directory DIRECTORY).

(** ** Logs *)

Definition wal_paths : FS (list Z) :=
  let! entries := fs_map_err (io_error "list database") read_dir in
  fs_ret (sort_by Z.compare (omap (λ entry, parse_numbered_name entry (ascii_bytes ".wal")) entries)).

(** The oldest and the active log that the manifest, or in its absence the directory,
    names. *)
Definition required_logs (versions : VersionSet) (all_wal_paths : list Z) : option Z * option Z :=
  let c := vs_counters versions in
  if (cn_log_number c =? 0) && (cn_active_log_number c =? 0) then (head all_wal_paths, last all_wal_paths)
  else (Some (cn_log_number c), Some (cn_active_log_number c)).

Definition check_required (all_wal_paths : list Z) (required : option Z * option Z) : result unit :=
  match required with
  | (Some oldest, Some active) =>
    if bool_decide (oldest ∈ all_wal_paths) && bool_decide (active ∈ all_wal_paths) then Ok tt
    else Err (wal_corruption "missing required WAL")
  | _ => Ok tt
  end.

Definition is_required (required : option Z * option Z) (number : Z) : bool :=
  match required.1 with Some oldest => oldest <=? number | None => true end &&
  match required.2 with Some active => number <=? active | None => true end.

(** The variables of the replay loop. *)
Record Replay : Type := {
  rp_largest_sequence : Z;
  rp_expected_sequence : Z;
  rp_recovered : list (Z * MemTable * Z)
}.

(** The inner loop: the table, its largest sequence, and the two outer variables. *)
Definition replay_record (legacy : bool) (last_sequence : Z) (acc : MemTable * Z * (Z * Z)) (record : RecoveredBatch)
    : result (MemTable * Z * (Z * Z)) :=
  let '(table, table_largest, (largest, expected)) := acc in
  if legacy && (rb_sequence record <=? last_sequence) then Ok acc
  else if negb (rb_sequence record =? expected) then Err (wal_corruption "unexpected sequence")
  else
    let? next := ok_or (checked_add (rb_sequence record) 1) (InvalidArgument "sequence number space is exhausted") in
    let? table := MemTable_apply table (rb_sequence record) (rb_batch record) in
    Ok (table, rb_sequence record, (rb_sequence record, next)).

Definition replay_log (legacy : bool) (last_sequence : Z) (acc : Replay) (number : Z) : FS Replay :=
  let! file := fs_map_err (io_error "read WAL") (read_file (wal_name number)) in
  let! records := fs_lift (replay_wal file (op_max_batch_bytes options)) in
  let! (table, table_largest, (largest, expected)) :=
    fs_lift (try_fold (replay_record legacy last_sequence)
      (MemTable_default, 0, (rp_largest_sequence acc, rp_expected_sequence acc)) records) in
  fs_ret {| rp_largest_sequence := largest; rp_expected_sequence := expected;
            rp_recovered := rp_recovered acc ++ [(number, table, table_largest)] |}.

Fixpoint replay_logs (legacy : bool) (last_sequence : Z) (acc : Replay) (numbers : list Z) : FS Replay :=
  match numbers with
  | [] => fs_ret acc
  | number :: numbers =>
    let! acc := replay_log legacy last_sequence acc number in
    replay_logs legacy last_sequence acc numbers
  end.

(** The recovered tables that are not empty. *)
Definition recovered_immutables (recovered : list (Z * MemTable * Z)) : list ImmutableMemTable :=
  map (λ r : Z * MemTable * Z,
        {| im_table := r.1.2; im_wal_number := r.1.1; im_largest_sequence := r.2 |})
    (List.filter (λ r : Z * MemTable * Z, negb (MemTable_is_empty r.1.2)) recovered).

(** [Iterator::min] with a default. *)
Definition min_or (otherwise : Z) (numbers : list Z) : Z :=
  match numbers with [] => otherwise | n :: numbers => foldr Z.min n numbers end.

(** ** The whole *)

(** Behind the replay: the new log, the edit that records it, and the logs that are not
    needed any more. *)
Definition start_engine (versions : VersionSet) (all_wal_paths paths : list Z) (replay : Replay) : FS Engine :=
  let c := vs_counters versions in
  let largest_file_number := fold_left Z.max all_wal_paths (saturating_sub (cn_next_file_number c) 1) in
  let largest_sequence := rp_largest_sequence replay in
  if largest_sequence <? cn_wal_sequence c then
    fs_fail (wal_corruption "required WALs end before the durable WAL sequence")
  else
    let! number := fs_lift (ok_or (checked_add largest_file_number 1)
      (InvalidArgument "file number space is exhausted")) in
    let immutables := recovered_immutables (rp_recovered replay) in
    let! _ := fs_lift (if number =? 0 then Err (InvalidArgument "file number must be greater than zero") else Ok tt) in
    let! next_file_number := fs_lift (ok_or (checked_add number 1)
      (InvalidArgument "file number space is exhausted")) in
    let! wal := log_create (wal_name number) (op_max_batch_bytes options) in
    let! _ := fs_each (λ n, fs_map_err (io_error "sync WAL") (sync_file (wal_name n))) paths in
    let oldest_recovered := min_or number (map im_wal_number immutables) in
    let edit := set_wal_sequence (set_active_log_number (set_log_number (set_last_sequence
      (set_next_file_number VersionEdit_new next_file_number) (cn_last_sequence c))
      oldest_recovered) number) largest_sequence in
    λ s,
    match apply_with_visibility versions edit s with
    | (Some failure, _, s) => (Err (va_error failure), s)
    | (None, versions, s) =>
      (let retained_wals := set_of (map im_wal_number immutables ++ [number]) in
       let obsolete_wals := List.filter (λ n, negb (bool_decide (n ∈ retained_wals))) all_wal_paths in
       let! _ := fs_each (λ n, fs_map_err (io_error "remove obsolete WAL") (remove_file (wal_name n))) obsolete_wals in
       let! _ := if bool_decide (obsolete_wals = []) then fs_ret tt
                 else fs_map_err (io_error "sync WAL retirement") (sync_directory DIRECTORY) in
       let! next_sequence := fs_lift (ok_or (checked_add largest_sequence 1)
         (InvalidArgument "sequence number space is exhausted")) in
       fs_ret {| en_state :=
                   {| es_versions := versions; es_wal := wal;
                      es_mutable := {| mm_table := MemTable_default; mm_wal_number := number |};
                      es_immutables := immutables; es_wal_numbers := retained_wals;
                      es_next_file_number := next_file_number; es_next_sequence := next_sequence;
                      es_flush_running := false; es_obsolete_sstables := []; es_reader_versions := [];
                      es_closed := false; es_terminal_failure := None; es_background_failure := false;
                      es_epoch := 1 |};
                 en_committed_sequence := largest_sequence; en_snapshots := []; en_readers := [];
                 en_next_lease := 0 |}) s
    end.

Definition Engine_open (lock_held : bool) : FS Engine :=
  let! _ := fs_lift (Options_validate options) in
  let! versions := open_versions lock_held in
  let! _ := remove_unpublished_sstables versions in
  let! all_wal_paths := wal_paths in
  let c := vs_counters versions in
  let legacy := (cn_log_number c =? 0) && (cn_active_log_number c =? 0) in
  let required := required_logs versions all_wal_paths in
  let! _ := fs_lift (check_required all_wal_paths required) in
  let paths := List.filter (is_required required) all_wal_paths in
  let! expected := fs_lift (ok_or (checked_add (cn_last_sequence c) 1)
    (InvalidArgument "sequence number space is exhausted")) in
  let! replay := replay_logs legacy (cn_last_sequence c)
    {| rp_largest_sequence := cn_last_sequence c; rp_expected_sequence := expected; rp_recovered := [] |} paths in
  start_engine versions all_wal_paths paths replay.
End Open.
