(* ===== verification/EngineRead.v ===== *)
(** * What the engine reads

    The memtables and the tables of a version are layers, the newer ones first: for
    every user key each version in a layer is newer than those behind it.  Over such
    layers a point read at a sequence that covers them returns the newest version,
    and a scan the live pairs. *)

From Stdlib Require Import ZArith Lia Sorting.Sorted.
From stdpp Require Import base list gmap strings sorting.
From S2P Require Import Prelude Fs StateFs Checksum InternalKey Batch ValueRecord Snapshot Mvcc MemTable Iter IterFacts.
From S2P Require Import Version Wal Options ManifestCodec Manifest ManifestSet ManifestBoot WalFs Block TableBuilder.
From S2P Require Import TableReader TableRoundtrip TableBounds TableOpen TableLookups TableStore Compaction CompactionRun.
From S2P Require Import Engine.

Local Open Scope Z_scope.

(** ** Layers *)

Definition layered (u : bytes) (layers : list (list entry)) : Prop := StronglySorted (layer_above u) layers.

(** Every version of [u] is visible at [q]. *)
Definition covered (u : bytes) (q : Z) (es : list entry) : Prop := ∀ e, e ∈ es → e_user e = u → e_seq e ≤ q.

Lemma layer_above_concat u layer layers :
  Forall (layer_above u layer) layers → layer_above u layer (concat layers).
Proof.
  intros Hall e e' He (l & He' & Hl)%elem_of_concat. by apply (elem_of_Forall _ _ _ Hall Hl).
Qed.

Lemma layered_app u a b :
  layered u (a ++ b) ↔ layered u a ∧ layered u b ∧ layer_above u (concat a) (concat b).
Proof.
  unfold layered. rewrite StronglySorted_app. split.
  - intros (H1 & H2 & H3). do 2 (split; [done|]).
    intros e e' (l & He & Hl)%elem_of_concat (l' & He' & Hl')%elem_of_concat. by apply (H1 l l').
  - intros (H2 & H3 & H1). split; [|done]. intros l l' Hl Hl' e e' He He'. apply H1; apply elem_of_concat; eauto.
Qed.

(** ** Tables *)

(** The files of a version, in order, hold [ess]. *)
Definition version_holds `{C : Crc32c} `{SN : Snappy} (limit : Z) (i : CrashImage) (v : Version)
    (ess : list (list entry)) : Prop :=
  Forall2 (output_ok limit i) (concat v) ess.

Section Tables.
  Context `{C : Crc32c} {CR : Crc32cRange C} `{SN : Snappy} {SL : SnappyLaws SN}.

Lemma output_keys limit i f es e :
  output_ok limit i f es → e ∈ es → overlaps f (e_user e) = true.
Proof.
  intros (file & _ & _ & (_ & Hwf & Hs & _) & _ & _ & Hhead & Hlast) He. unfold overlaps.
  assert (∀ x, x ∈ es → entry_wf x) as Hwf' by (intros x; apply (elem_of_Forall _ _ _ Hwf)).
  apply andb_true_iff. rewrite !lex_leb_le. split.
  - destruct es as [|h es]; [by apply elem_of_nil in He|]. cbn in Hhead. injection Hhead as <-.
    change (ik_user_key h.1) with (e_user h). apply key_le_user; [apply Hwf'; by left|by apply Hwf'|].
    by apply (sorted_head_le h es).
  - destruct es as [|l es _] using rev_ind; [by apply elem_of_nil in He|]. rewrite last_snoc in Hlast.
    cbn in Hlast. injection Hlast as <-. change (ik_user_key l.1) with (e_user l).
    apply key_le_user; [by apply Hwf'|apply Hwf'; apply elem_of_app; right; by left|].
    unfold entries_sorted, bt_sorted in Hs. rewrite StronglySorted_app in Hs. destruct Hs as (Hs & _ & _).
    apply elem_of_app in He as [He| ->%list_elem_of_singleton].
    + specialize (Hs e l He ltac:(by left)). unfold bt_lt in Hs. by rewrite Hs.
    + unfold InternalKey_cmp. by rewrite lex_cmp_refl.
Qed.

Lemma record_newest_entries u q es o :
  record_newest u q (enc_entries es) o →
  ∃ o', is_newest u q es o' ∧ o = (λ e : entry, (e.1, encode_engine_value e.2)) <$> o'.
Proof.
  assert (∀ e : entry, e ∈ es → (e.1, encode_engine_value e.2) ∈ enc_entries es) as Hin.
  { intros e He. unfold enc_entries. apply (list_elem_of_fmap_2 (λ e : entry, (e.1, encode_engine_value e.2))). done. }
  destruct o as [r|]; cbn.
  - intros (Hr & Hu & Hq & Hm). unfold enc_entries in Hr. apply list_elem_of_fmap in Hr as (e & -> & He).
    exists (Some e). split; [|done]. split; [done|]. do 2 (split; [done|]). intros e' He' Hu' Hq'.
    apply (Hm (e'.1, encode_engine_value e'.2)); [by apply Hin|done|done].
  - intros Hn. exists None. split; [|done]. intros e' He' Hu'. apply (Hn (e'.1, encode_engine_value e'.2)); [by apply Hin|done].
Qed.

Context (options : Options) (Hcap : engine_block_limit options ≤ 2 ^ 62).
Abbreviation limit := (engine_block_limit options).

Lemma open_table_wp g i E f es (Q : TableReader → CrashImage → Prop) :
  output_ok limit i f es →
  (∀ r file, table_holds (engine_reader_options options) (fm_number f) file es →
    open_internal file (engine_reader_options options) (Some (fm_number f)) = Ok r → Q r i) →
  wpf g (open_table options f) i Q E.
Proof using Hcap.
  intros (file & Hst & Ht & (_ & _ & _ & Hc & _) & Hsz & _) HQ. apply view_eq in Hst as (Hv & _ & _).
  assert (table_holds (engine_reader_options options) (fm_number f) file es) as Hh.
  { apply Ht; cbn [engine_reader_options ro_max_uncompressed_data_block_bytes ro_max_metadata_bytes]; [by left|done|].
    unfold USIZE_MAX, U64_MAX, U32_MAX in *. lia. }
  destruct (th_open _ _ _ _ Hh) as (r & Hr & Hfs & _). unfold open_table.
  apply wp_bind, wp_map_err. eapply wp_read; [exact Hv|]. apply wp_bind. eapply wp_lift_ok; [exact Hr|].
  apply wp_bind. eapply wp_lift_ok; [|by apply wp_ret, (HQ r file)].
  unfold validate_table_length. by rewrite Hfs, Hsz, Z.eqb_refl.
Qed.

Lemma read_candidate_wp g i E f es u q now (Q : option (option bytes) → CrashImage → Prop) :
  output_ok limit i f es → bytes_ok u → seq_ok q → covered u q es →
  (∀ o, is_newest u q es o → Q ((λ e, record_into_value e.2 now) <$> o) i) →
  wpf g (read_table_candidate options f u q now) i Q E.
Proof using CR SL Hcap.
  intros Hf Hu Hq Hcov HQ. unfold read_table_candidate. apply wp_bind. eapply open_table_wp; [exact Hf|].
  intros r file Hh Hr. destruct (th_open _ _ _ _ Hh) as (r' & Hr' & _ & Hev & _ & Hget). rewrite Hr in Hr'. injection Hr' as <-.
  destruct (Hget u q Hu Hq) as (l & Hl & _ & Hall). apply wp_bind. eapply wp_lift_ok; [exact Hl|].
  assert (covers_all u q (enc_entries es)) as Hc.
  { intros x (e & -> & He)%list_elem_of_fmap. cbn. by apply Hcov. }
  destruct (record_newest_entries _ _ _ _ (Hall Hc)) as (o & Ho & Heq).
  destruct l as [| |k v]; cbn in Heq.
  - destruct o; [done|]. apply wp_ret. by apply (HQ None).
  - destruct o; [done|]. apply wp_ret. by apply (HQ None).
  - destruct o as [e|]; [|done]. cbn in Heq. injection Heq as -> ->.
    assert (entry_wf e) as He by (apply (elem_of_Forall _ _ _ (th_wf _ _ _ _ Hh)), Ho).
    assert (InternalKey_kind e.1 = Ok (record_kind e.2)) as Hk.
    { destruct He as (u' & s' & rec & ? & ? & ? & ->). cbn. by rewrite kind_mk_key. }
    apply wp_bind. eapply wp_lift_ok; [exact Hk|]. rewrite Hev.
    apply wp_bind. eapply wp_lift_ok; [apply decode_encode_engine_value|by apply wp_ret, (HQ (Some e))].
    by apply entry_wf_view in He as (_ & _ & ? & _).
Qed.

Lemma read_candidates_wp g i E files ess u q now (Q : option (option bytes) → CrashImage → Prop) :
  Forall2 (output_ok limit i) files ess → bytes_ok u → seq_ok q → covered u q (concat ess) → layered u ess →
  (∀ o, is_newest u q (concat ess) o → Q ((λ e, record_into_value e.2 now) <$> o) i) →
  wpf g (read_candidates options (List.filter (λ f, overlaps f u) files) u q now) i Q E.
Proof using CR SL Hcap.
  intros Hall Hu Hq. revert Q. induction Hall as [|f es files ess Hf Hall IH]; intros Q Hcov Hlay HQ.
  { cbn. apply wp_ret, (HQ None). intros e He. by apply elem_of_nil in He. }
  apply StronglySorted_inv in Hlay as [Hlay Habove].
  assert (covered u q es ∧ covered u q (concat ess)) as [Hc1 Hc2].
  { split; intros e He; apply Hcov; cbn; apply elem_of_app; auto. }
  assert (layer_above u es (concat ess)) as Hla by (by apply layer_above_concat).
  assert (∀ o, is_newest u q es None → is_newest u q (concat ess) o → Q ((λ e, record_into_value e.2 now) <$> o) i) as Hmiss.
  { intros o Hn Ho. apply HQ. cbn. by apply is_newest_layer_miss. }
  cbn [List.filter]. destruct (overlaps f u) eqn:Eo.
  - cbn [read_candidates]. apply wp_bind. eapply read_candidate_wp; [exact Hf|done|done|done|].
    intros [e|] Ho; cbn [fmap option_fmap option_map].
    + apply wp_ret, (HQ (Some e)). cbn [concat]. by apply is_newest_layer_hit.
    + apply IH; [done|done|]. intros o. by apply Hmiss.
  - apply IH; [done|done|]. intros o. apply Hmiss. intros e He Heu. exfalso.
    by rewrite <- Heu, (output_keys _ _ _ _ _ Hf He) in Eo.
Qed.

(** ** Levels *)

Lemma candidates_app a b u q now s :
  read_candidates options (a ++ b) u q now s =
    (let! o := read_candidates options a u q now in
     match o with Some v => fs_ret (Some v) | None => read_candidates options b u q now end) s.
Proof.
  revert s. induction a as [|f a IH]; intros s; [done|]. cbn [app read_candidates]. unfold fs_bind.
  destruct (read_table_candidate options f u q now s) as [[[v|]|e] s']; [done| |done]. rewrite IH. done.
Qed.

(** In a sorted level at most one file can hold the key, and the search finds it. *)
Lemma level_candidate_filter files u :
  Forall meta_wf files → StronglySorted range_before files →
  level_candidate files u = List.filter (λ f, overlaps f u) files.
Proof.
  intros Hwf Hs. unfold level_candidate. induction Hs as [|f files Hs IH Hall]; [done|].
  apply Forall_cons in Hwf as [Hf Hwf]. cbn [partition_point List.filter].
  destruct (lex_ltb (ik_user_key (fm_largest f)) u) eqn:El.
  - assert (overlaps f u = false) as ->.
    { unfold overlaps. apply andb_false_iff. right. apply lex_ltb_lt in El. unfold lex_leb. by rewrite (cmp_lt_gt _ _ El). }
    pose proof (partition_point_nonneg (λ file, lex_ltb (ik_user_key (fm_largest file)) u) files).
    rewrite Z2Nat.inj_add by lia. cbn. by apply IH.
  - cbn. assert (List.filter (λ f, overlaps f u) files = []) as Hnil.
    { apply filter_all_false. apply Forall_forall. intros g Hg. unfold overlaps. apply andb_false_iff. left.
      pose proof (elem_of_Forall _ _ _ Hall Hg) as Hb. unfold range_before in Hb.
      assert (lex_cmp u (ik_user_key (fm_largest f)) ≠ Gt) as Hle.
      { intros Hgt. apply cmp_gt_lt in Hgt. unfold lex_ltb in El. by rewrite Hgt in El. }
      pose proof (cmp_le_lt _ _ _ Hle Hb) as Hlt. unfold lex_leb. by rewrite (cmp_lt_gt _ _ Hlt). }
    rewrite Hnil. change (Z.to_nat 0) with 0%nat. cbn. by destruct (overlaps f u).
Qed.

(** The loop over the levels visits the candidates of the whole version in order. *)
Lemma read_levels_candidates levels u q now s :
  Forall (λ files, Forall meta_wf files ∧ StronglySorted range_before files) levels →
  read_levels options levels u q now s =
    (let! o := read_candidates options (List.filter (λ f, overlaps f u) (concat levels)) u q now in fs_ret (default None o)) s.
Proof.
  intros Hall. revert s. induction Hall as [|files levels [Hwf Hs] Hall IH]; intros s; [done|].
  cbn [read_levels concat]. rewrite (level_candidate_filter _ _ Hwf Hs), List.filter_app.
  unfold fs_bind. rewrite candidates_app. unfold fs_bind.
  destruct (read_candidates options _ u q now s) as [[[v|]|e] s']; [done| |done]. rewrite IH. done.
Qed.

Lemma get_from_version_candidates v u q now s :
  version_wf v →
  get_from_version options v u q now s =
    (let! o := read_candidates options (List.filter (λ f, overlaps f u) (concat v)) u q now in fs_ret (default None o)) s.
Proof.
  intros Hv. pose proof (vw_levels _ Hv) as Hlen. destruct v as [|files v]; [done|].
  assert (Forall (λ files, Forall meta_wf files ∧ StronglySorted range_before files) v) as Hall.
  { pose proof (vw_files _ Hv) as Hm. apply Forall_forall. intros l Hl. split.
    - apply Forall_forall. intros f Hf. apply (elem_of_Forall _ _ _ Hm). cbn. apply elem_of_app. right. apply elem_of_concat. eauto.
    - apply list_elem_of_lookup in Hl as [k Hk]. pose proof (vw_disjoint _ Hv (Z.of_nat (S k)) ltac:(lia)) as Hd.
      unfold level_files in Hd. rewrite (proj2 (Z.ltb_ge _ _)), Nat2Z.id in Hd by lia.
      change ((files :: v) !! S k) with (v !! k) in Hd. by rewrite Hk in Hd. }
  unfold get_from_version, Version_files, fs_bind, fs_lift. cbn [fst snd].
  change (index_or_panic 0 (files :: v)) with (@Ok (list FileMeta) files). cbn [drop concat].
  rewrite List.filter_app, candidates_app. unfold fs_bind.
  destruct (read_candidates options _ u q now s) as [[[w|]|e] s']; [done| |done].
  rewrite (read_levels_candidates _ _ _ _ _ Hall). done.
Qed.

(** A read of the tables of a version. *)
Lemma get_from_version_wp g i E v ess u q now (Q : option bytes → CrashImage → Prop) :
  version_wf v → version_holds limit i v ess → bytes_ok u → seq_ok q → covered u q (concat ess) → layered u ess →
  (∀ o, reads u q now (concat ess) o → Q o i) →
  wpf g (get_from_version options v u q now) i Q E.
Proof using CR SL Hcap.
  intros Hv Hh Hu Hq Hcov Hlay HQ s Hs Hf. rewrite (get_from_version_candidates v u q now s Hv).
  revert s Hs Hf. apply wp_bind. eapply read_candidates_wp; [exact Hh|done..|].
  intros o Ho. apply wp_ret, HQ. exists o. split; [done|]. by destruct o.
Qed.

(** ** Memtables *)

Definition memtable_ok (t : MemTable) : Prop := entries_sorted (mt_entries t) ∧ Forall entry_wf (mt_entries t).

Lemma get_from_memory_spec tables u q :
  Forall memtable_ok tables → bytes_ok u → seq_ok q → layered u (map mt_entries tables) →
  ∃ o, is_newest u q (concat (map mt_entries tables)) o ∧ get_from_memory tables u q = Ok (snd <$> o).
Proof.
  intros Hall Hu Hq. induction Hall as [|t tables [Hs Hwf] Hall IH]; intros Hlay.
  { exists None. split; [|done]. intros e He. by apply elem_of_nil in He. }
  cbn [map] in Hlay. apply StronglySorted_inv in Hlay as [Hlay Habove]. apply layer_above_concat in Habove.
  destruct (get_entry_newest t u q Hs Hwf Hu Hq) as (o & Hget & Ho). cbn [get_from_memory map concat]. rewrite Hget.
  destruct o as [[k r]|].
  - exists (Some (k, r)). split; [by apply is_newest_layer_hit|done].
  - destruct (IH Hlay) as (o & Ho' & Heq). exists o. split; [by apply is_newest_layer_miss|done].
Qed.
End Tables.

(** ** Readers *)

(** Every reader is registered, under a lease of its own. *)
Record readers_ok (en : Engine) : Prop := {
  ro_leases : NoDup (map rd_lease (en_readers en));
  ro_old : Forall (λ r, rd_lease r < en_next_lease en) (en_readers en);
  ro_registered : Forall (λ r, {| rv_version := rd_version r; rv_lease := rd_lease r |} ∈
    es_reader_versions (en_state en)) (en_readers en)
}.

(** A read leaves everything but the registrations of readers that have gone. *)
Record read_only (en en' : Engine) : Prop := {
  rn_committed : en_committed_sequence en' = en_committed_sequence en;
  rn_snapshots : ∀ guards, registry_rep guards (en_snapshots en) → registry_rep guards (en_snapshots en');
  rn_readers : en_readers en' = en_readers en;
  rn_state : ∃ versions, en_state en' = with_reader_versions versions (en_state en);
  rn_ok : readers_ok en'
}.

Lemma with_reader_versions_same st : with_reader_versions (es_reader_versions st) st = st.
Proof. by destruct st. Qed.

Lemma read_only_refl en : readers_ok en → read_only en en.
Proof. intros Hr. split; try done. exists (es_reader_versions (en_state en)). by rewrite with_reader_versions_same. Qed.

Lemma readers_registered_alive en r :
  readers_ok en → r ∈ en_readers en →
  reader_alive (en_readers en) (en_state en) {| rv_version := rd_version r; rv_lease := rd_lease r |} = true.
Proof.
  intros _ Hr. unfold reader_alive, lease_alive, version_strong_count. cbn [rv_version rv_lease]. apply andb_true_iff. split.
  - apply existsb_exists. exists r. split; [by apply list_elem_of_In|apply Z.eqb_refl].
  - apply Z.ltb_lt. assert (1 ≤ zlen (List.filter (λ r0, av_id (rd_version r0) =? av_id (rd_version r)) (en_readers en))).
    { assert (r ∈ List.filter (λ r0, av_id (rd_version r0) =? av_id (rd_version r)) (en_readers en)) as Hin.
      { apply elem_of_filter_b. split; [apply Z.eqb_refl|done]. }
      destruct (List.filter _ _); [by apply elem_of_nil in Hin|zlen_lia]. }
    pose proof (zlen_nonneg (List.filter (λ o, av_id (ob_version o) =? av_id (rd_version r)) (es_obsolete_sstables (en_state en)))).
    destruct (_ =? _); lia.
Qed.

(** The engine behind a registration. *)
Definition registered (versions : list ReaderVersion) (reader : Reader) (en : Engine) : Engine :=
  with_readers (reader :: en_readers en) (en_next_lease en + 1)
    (with_state (with_reader_versions versions (en_state en)) en).

Lemma register_wp g i E en version q (Q : Reader → Engine → CrashImage → Prop) :
  readers_ok en →
  (∀ versions, let reader := {| rd_version := version; rd_lease := en_next_lease en; rd_sequence := q |} in
    readers_ok (registered versions reader en) → Q reader (registered versions reader en) i) →
  cwpf g (register_reader_version version q) en i Q E.
Proof.
  intros Hr HQ s Hs Hf. cbn. split; [|done]. rewrite Hs. apply HQ. pose proof Hr as [Hnd Hold Hreg].
  split; cbn.
  - apply NoDup_cons. split; [|done]. intros (r & Hlr & Hin)%list_elem_of_fmap.
    pose proof (elem_of_Forall _ _ _ Hold Hin) as Hlt. cbn in Hlt. lia.
  - constructor; [cbn; lia|]. eapply Forall_impl; [exact Hold|]. intros r Hlt. cbn in Hlt. lia.
  - constructor; [apply elem_of_app; right; by left|]. apply Forall_forall. intros r Hin.
    apply elem_of_app. left. pose proof (elem_of_Forall _ _ _ Hreg Hin) as Hrv. cbn in Hrv.
    destruct (_ <=? _); [|done]. apply elem_of_filter_b. split; [|done].
    by apply readers_registered_alive.
Qed.

Lemma dropped_reader versions en version q :
  readers_ok en →
  let reader := {| rd_version := version; rd_lease := en_next_lease en; rd_sequence := q |} in
  readers_ok (registered versions reader en) →
  let en' := registered versions reader en in
  read_only en (with_readers (List.filter (λ r, negb (rd_lease r =? en_next_lease en)) (en_readers en'))
    (en_next_lease en') en').
Proof.
  intros Hr reader [Hnd Hold Hreg] en'. cbn in Hnd, Hold, Hreg.
  apply NoDup_cons in Hnd as [_ Hnd]. apply Forall_cons in Hold as [_ Hold]. apply Forall_cons in Hreg as [_ Hreg].
  assert (List.filter (λ r, negb (rd_lease r =? en_next_lease en)) (en_readers en') = en_readers en) as Heq.
  { cbn. rewrite Z.eqb_refl. cbn. apply filter_all_true. eapply Forall_impl; [exact (ro_old _ Hr)|].
    intros r Hlt. cbn in Hlt |- *. by rewrite (proj2 (Z.eqb_neq _ _)) by lia. }
  rewrite Heq. split; try done. by exists versions.
Qed.

(** ** Point reads *)

(** The layers of an engine over the contents of its tables. *)
Definition engine_layers (st : WriteState) (ess : list (list entry)) : list (list entry) :=
  map mt_entries (memory_tables st) ++ ess.

Section Get.
  Context `{C : Crc32c} {CR : Crc32cRange C} `{SN : Snappy} {SL : SnappyLaws SN}.
  Context (options : Options) (Hcap : engine_block_limit options ≤ 2 ^ 62).

(** What reads rely on: the layers of the state, on the disk image. *)
Record readable (i : CrashImage) (st : WriteState) (ess : list (list entry)) : Prop := {
  ra_tables : Forall memtable_ok (memory_tables st);
  ra_version : version_wf (vs_current (es_versions st));
  ra_holds : version_holds (engine_block_limit options) i (vs_current (es_versions st)) ess;
  ra_layered : ∀ u, layered u (engine_layers st ess)
}.

Lemma c_finally_wp {A} g i E (m : SFS Engine A) cleanup en (Q : A → Engine → CrashImage → Prop) :
  cwpf g m en i (λ a en' i', cwpf g cleanup en' i' (λ _, Q a) E) (λ _ _, False) →
  cwpf g (c_finally m cleanup) en i Q E.
Proof.
  intros H. unfold c_finally. apply cwp_bind, cwp_try_ok. intros s Hs Hf. specialize (H s Hs Hf).
  destruct (m en s) as [[[a|e] en'] s']; [|done]. destruct H as [H Hf']. split; [|done].
  apply cwp_bind. intros s2 Hs2 Hf2. specialize (H s2 Hs2 Hf2). destruct (cleanup en' s2) as [[[[]|e] en2] s3]; [|done].
  destruct H as [H Hf3]. split; [by apply cwp_ret|done].
Qed.

Lemma get_from_state_wp g i E en ess u q now (Q : option bytes → Engine → CrashImage → Prop) :
  readable i (en_state en) ess → readers_ok en → bytes_ok u → seq_ok q →
  covered u q (concat (engine_layers (en_state en) ess)) →
  (∀ o en', reads u q now (concat (engine_layers (en_state en) ess)) o → read_only en en' → Q o en' i) →
  cwpf g (get_from_state options u q now) en i Q E.
Proof using CR SL Hcap.
  intros [Ht Hv Hh Hlay] Hro Hu Hq Hcov HQ. unfold get_from_state, get_locked.
  pose proof (Hlay u) as Hlu. unfold engine_layers in *. apply layered_app in Hlu as (Hl1 & Hl2 & Habove).
  rewrite concat_app in *.
  destruct (get_from_memory_spec _ u q Ht Hu Hq Hl1) as (o & Ho & Hget).
  apply cwp_bind, cwp_bind, cwp_get. apply cwp_bind. eapply cwp_lift_ok; [exact Hget|].
  destruct o as [e|]; cbn [fmap option_fmap option_map].
  - apply cwp_ret, cwp_ret, HQ; [|by apply read_only_refl]. exists (Some e). split; [by apply is_newest_layer_hit|done].
  - apply cwp_bind. eapply register_wp; [done|]. intros versions reader Hok. apply cwp_ret, c_finally_wp, cwp_fs.
    cbn [rd_version av_version reader current_version].
    eapply get_from_version_wp; [exact Hcap|exact Hv|exact Hh|done|done| |exact Hl2|].
    { intros e He. apply Hcov. apply elem_of_app. by right. }
    intros o (x & Hx & ->). unfold drop_reader. apply cwp_update, HQ; [|by apply dropped_reader].
    exists x. split; [|done]. by apply is_newest_layer_miss.
Qed.

(** ** Guards *)

Lemma remove_one_head s guards : remove_one s (s :: guards) = guards.
Proof. cbn. by rewrite Z.eqb_refl. Qed.

Lemma acquire_ok guards active s :
  registry_rep guards active → zlen guards < USIZE_MAX → ∃ active', acquire active s = Ok active'.
Proof.
  intros [_ Hg] Hlen. unfold acquire. rewrite Hg. pose proof (occurrences_bounds s guards).
  assert (default 0 (if occurrences s guards =? 0 then None else Some (occurrences s guards)) = occurrences s guards) as ->.
  { destruct (Z.eqb_spec (occurrences s guards) 0) as [->|]; done. }
  unfold checked_add. rewrite (proj2 (Z.leb_le _ _)) by (unfold USIZE_MAX in *; lia). eauto.
Qed.

Lemma read_only_trans a b c : read_only a b → read_only b c → read_only a c.
Proof.
  intros [Hc1 Hs1 Hr1 [v1 Hv1] Ho1] [Hc2 Hs2 Hr2 [v2 Hv2] Ho2].
  split; [congruence|by auto|congruence| |done]. exists v2. by rewrite Hv2, Hv1.
Qed.

Lemma engine_get_wp g i E en ess guards u now (Q : option bytes → Engine → CrashImage → Prop) :
  readable i (en_state en) ess → readers_ok en → registry_rep guards (en_snapshots en) → zlen guards < USIZE_MAX →
  ensure_readable (en_state en) = Ok tt → bytes_ok u → zlen u ≤ op_max_key_bytes options →
  seq_ok (en_committed_sequence en) → covered u (en_committed_sequence en) (concat (engine_layers (en_state en) ess)) →
  (∀ o en', reads u (en_committed_sequence en) now (concat (engine_layers (en_state en) ess)) o →
    registry_rep guards (en_snapshots en') → read_only en en' → Q o en' i) →
  cwpf g (Engine_get options u now) en i Q E.
Proof using CR SL Hcap.
  intros Hra Hro Hreg Hlen Hens Hu Hmax Hq Hcov HQ. unfold Engine_get.
  apply cwp_bind, cwp_get, cwp_bind. eapply cwp_lift_ok; [exact Hens|].
  apply cwp_bind. eapply cwp_lift_ok; [unfold validate_length; by rewrite (proj2 (Z.ltb_ge _ _)) by lia|].
  destruct (acquire_ok _ _ (en_committed_sequence en) Hreg Hlen) as [active Hacq].
  pose proof (acquire_rep _ _ _ _ Hreg Hacq) as Hreg'.
  unfold acquire_snapshot. apply cwp_bind, cwp_bind, cwp_get, cwp_bind. eapply cwp_lift_ok; [exact Hacq|].
  apply cwp_update, c_finally_wp. eapply (get_from_state_wp _ _ _ _ ess); [done| |done|done|done|].
  { destruct Hro as [? ? ?]. by split. }
  intros o en' Hread [Hc Hs Hr Hst Hok]. apply cwp_update.
  pose proof (Hs _ Hreg') as Hrep. apply (drop_rep _ _ (en_committed_sequence en)) in Hrep; [|by left].
  rewrite remove_one_head in Hrep. apply HQ; [done|done|]. split; cbn; try done; [|by destruct Hok].
  intros guards' Hg'. pose proof (acquire_rep _ _ _ _ Hg' Hacq) as Hrep'. apply Hs in Hrep'.
  apply (drop_rep _ _ (en_committed_sequence en)) in Hrep'; [|by left]. by rewrite remove_one_head in Hrep'.
Qed.
End Get.

(** ** Scans *)

(** A collected scan is the live pairs of [es] within the bounds, in key order, up to
    the limit. *)
Definition scan_yields (bounds : ScanBounds) (q now limit : Z) (es : list entry) (it : KvIterator) : Prop :=
  ∃ fuel pairs, kv_collect fuel it = Ok (map Ok (take (Z.to_nat limit) pairs)) ∧
    StronglySorted (λ x y, lex_cmp x.1 y.1 = Lt) pairs ∧
    ∀ u v, (u, v) ∈ pairs ↔ live_pair bounds q now es u v.

(** The entries of the bounds. *)
Definition in_bounds (bounds : ScanBounds) (es : list entry) : list entry :=
  List.filter (λ e, user_key_in_bounds bounds (e_user e)) es.

Lemma live_pair_users bounds q now es es' u v :
  (∀ e, user_key_in_bounds bounds (e_user e) = true → e ∈ es ↔ e ∈ es') →
  live_pair bounds q now es u v ↔ live_pair bounds q now es' u v.
Proof.
  intros H. assert (∀ e, user_key_in_bounds bounds u = true → e_user e = u → e ∈ es ↔ e ∈ es') as Hu by (intros e Hb <-; auto).
  unfold live_pair. split; intros (Hb & e & Hn & Hv); (split; [done|]; exists e; split; [|done]);
    (eapply is_newest_user; [|exact Hn]; intros x Hx); [by apply Hu|symmetry; by apply Hu].
Qed.

Lemma StronglySorted_filter {A} (R : A → A → Prop) f l : StronglySorted R l → StronglySorted R (List.filter f l).
Proof.
  induction 1 as [|x l Hs IH Hall]; cbn; [constructor|]. destruct (f x); [|done]. constructor; [done|].
  rewrite Forall_forall in *. intros y [_ Hy]%elem_of_filter_b. auto.
Qed.

Section Scan.
  Context `{C : Crc32c} {CR : Crc32cRange C} `{SN : Snappy} {SL : SnappyLaws SN}.
  Context (options : Options) (Hcap : engine_block_limit options ≤ 2 ^ 62).
  Abbreviation limit := (engine_block_limit options).

Lemma open_children_wp g i E files ess bounds (Q : list ChildIterator → CrashImage → Prop) :
  Forall2 (output_ok limit i) files ess →
  (∀ ess', Forall (Forall entry_wf) ess' → Forall key_sorted ess' → concat ess' `sublist_of` concat ess →
    (∀ e, e ∈ concat ess → user_key_in_bounds bounds (e_user e) = true → e ∈ concat ess') →
    Q (map (map Ok) ess') i) →
  wpf g (open_children options (List.filter (λ file,
    overlaps_bounds (ik_user_key (fm_smallest file)) (ik_user_key (fm_largest file)) bounds) files)) i Q E.
Proof using CR SL Hcap.
  intros Hall. revert Q. induction Hall as [|f es files ess Hf Hall IH]; intros Q HQ.
  { cbn. apply wp_ret, (HQ []); [constructor|constructor|done|done]. }
  cbn [List.filter]. destruct (overlaps_bounds _ _ _) eqn:Eo.
  - cbn [open_children]. unfold open_child. apply wp_bind, wp_bind. eapply open_table_wp; [exact Hcap|exact Hf|].
    intros r file Hh Hr. pose proof (th_open _ _ _ _ Hh) as (r' & Hr' & _ & _ & Hch & _). rewrite Hr in Hr'. injection Hr' as <-.
    apply wp_ret, wp_bind, IH. intros ess' Hwf Hs Hsub Hin. apply wp_ret. rewrite Hch. apply (HQ (es :: ess')).
    + constructor; [apply Hh|done].
    + constructor; [apply sorted_of_strict, Hh|done].
    + cbn. by apply sublist_app.
    + cbn. intros e [He|He]%elem_of_app Hb; apply elem_of_app; [by left|right; by apply Hin].
  - apply IH. intros ess' Hwf Hs Hsub Hin. apply HQ; [done|done|cbn; by apply sublist_inserts_l|].
    cbn. intros e [He|He]%elem_of_app Hb; [exfalso|by apply Hin].
    pose proof (output_keys _ _ _ _ _ Hf He) as Hov. unfold overlaps in Hov. apply andb_true_iff in Hov as [H1 H2].
    rewrite lex_leb_le in H1, H2. by rewrite (overlaps_bounds_covers _ _ _ _ H1 H2 Hb) in Eo.
Qed.

Lemma memory_children bounds tables children :
  fold_left (λ children table, push_memtable_child children table bounds) tables children =
  children ++ map (map Ok) (map (λ t, in_bounds bounds (mt_entries t)) tables).
Proof.
  revert children. induction tables as [|t tables IH]; intros children; cbn [fold_left map]; [by rewrite app_nil_r|].
  rewrite IH. unfold push_memtable_child. by rewrite <- app_assoc.
Qed.

Lemma in_bounds_concat bounds l : concat (map (in_bounds bounds) l) = in_bounds bounds (concat l).
Proof. induction l as [|es l IH]; cbn; [done|]. unfold in_bounds in *. by rewrite IH, List.filter_app. Qed.

(** The layers a scan merges have the live pairs of all the layers. *)
Lemma scan_layers bounds q now n memory ess ess' :
  Forall memtable_ok memory → versions_unique (concat (map mt_entries memory ++ ess)) → 0 ≤ n →
  Forall (Forall entry_wf) ess' → Forall key_sorted ess' → concat ess' `sublist_of` concat ess →
  (∀ e, e ∈ concat ess → user_key_in_bounds bounds (e_user e) = true → e ∈ concat ess') →
  ∃ it, KvIterator_new (map (map Ok) (map (λ t, in_bounds bounds (mt_entries t)) memory) ++ map (map Ok) ess')
      bounds q now n = Ok it ∧ scan_yields bounds q now n (concat (map mt_entries memory ++ ess)) it.
Proof.
  intros Hmem Huniq Hn Hwf Hs Hsub Hin. rewrite <- map_app.
  rewrite <- (map_map mt_entries (in_bounds bounds)). rewrite concat_app in *.
  set (ss := map (in_bounds bounds) (map mt_entries memory) ++ ess').
  assert (concat ss = in_bounds bounds (concat (map mt_entries memory)) ++ concat ess') as Hss.
  { unfold ss. by rewrite concat_app, in_bounds_concat. }
  assert (∀ e, e ∈ concat ss → e ∈ concat (map mt_entries memory) ++ concat ess) as Hincl.
  { intros e. rewrite Hss, !elem_of_app. intros [[_ He]%elem_of_filter_b|He]; [by left|right].
    by eapply elem_of_sublist. }
  destruct (scan_children ss bounds q now n) as (it & pairs & Hnew & Hc & Hsort & Hmem').
  - apply Forall_app. split; [|done]. rewrite map_map. apply Forall_fmap. eapply Forall_impl; [exact Hmem|].
    intros t [Ht _]. cbn. apply sorted_of_strict. by apply StronglySorted_filter.
  - apply Forall_app. split; [|done]. rewrite map_map. apply Forall_fmap. eapply Forall_impl; [exact Hmem|].
    intros t [_ Ht]. cbn. apply Forall_forall. intros e [_ He]%elem_of_filter_b. by apply (elem_of_Forall _ _ _ Ht).
  - eapply versions_unique_subset; [exact Hincl|done].
  - done.
  - exists it. split; [exact Hnew|]. eexists _, pairs. split; [exact Hc|]. split; [done|]. intros u v. rewrite Hmem'.
    apply live_pair_users. intros e Hb. split; [apply Hincl|]. rewrite Hss, !elem_of_app.
    intros [He|He]; [left; by apply elem_of_filter_b|right; by apply Hin].
Qed.

Lemma scan_from_state_wp g i E en ess bounds n q now (Q : KvIterator * Reader → Engine → CrashImage → Prop) :
  readable options i (en_state en) ess → readers_ok en → 0 ≤ n →
  versions_unique (concat (engine_layers (en_state en) ess)) →
  (∀ it versions, let reader := {| rd_version := current_version (en_state en); rd_lease := en_next_lease en; rd_sequence := q |} in
    scan_yields bounds q now n (concat (engine_layers (en_state en) ess)) it →
    readers_ok (registered versions reader en) → Q (it, reader) (registered versions reader en) i) →
  cwpf g (scan_from_state options bounds n q now) en i Q E.
Proof using CR SL Hcap.
  intros [Ht Hv Hh Hlay] Hro Hn Huniq HQ. unfold scan_from_state. apply cwp_bind, cwp_get. apply cwp_bind.
  eapply register_wp; [done|]. intros versions reader Hok. apply cwp_bind, cwp_try_ok, cwp_fs. unfold scan_files.
  cbn [rd_version av_version reader current_version]. eapply open_children_wp; [exact Hh|].
  intros ess' Hwf Hs Hsub Hin. apply cwp_bind. rewrite memory_children. cbn [app].
  destruct (scan_layers bounds q now n (memory_tables (en_state en)) ess ess' Ht Huniq Hn Hwf Hs Hsub Hin) as (it & Hnew & Hy).
  eapply cwp_lift_ok; [exact Hnew|]. apply cwp_ret. by apply HQ.
Qed.
End Scan.
