(* ===== verification/EngineEdits.v ===== *)
(** * What the engine's edits do to a version

    Well-formed versions are determined by the files of their levels.  An edit without
    files leaves the version as it is, and the edit of a flush puts its table, which
    has the largest number, in front of all others. *)

From Stdlib Require Import ZArith Lia Sorting.Sorted.
From stdpp Require Import base list gmap strings sorting.
From S2P Require Import Prelude InternalKey Version.

Local Open Scope Z_scope.

(** ** Sorted lists *)

Section Sorted.
  Context {A : Type} (R : A → A → Prop).

Lemma sorted_asym_nodup l :
  StronglySorted R l → (∀ x, x ∈ l → ¬ R x x) → NoDup l.
Proof.
  induction 1 as [|x l Hs IH Hall]; intros Hirr; constructor.
  - intros Hin. apply (Hirr x); [by left|]. by rewrite Forall_forall in Hall; apply Hall.
  - apply IH. intros y Hy. apply Hirr. by right.
Qed.

Lemma sorted_perm_eq l1 l2 :
  StronglySorted R l1 → StronglySorted R l2 → (∀ x y, x ∈ l1 → y ∈ l1 → R x y → ¬ R y x) → l1 ≡ₚ l2 → l1 = l2.
Proof.
  intros H1. revert l2. induction H1 as [|x l1 Hs IH Hall]; intros l2 H2 Hasym Hp.
  { by apply Permutation_nil_l in Hp. }
  destruct H2 as [|y l2 Hs2 Hall2]; [by apply Permutation_nil_r in Hp|]. rewrite Forall_forall in Hall, Hall2.
  assert (x = y) as <-.
  { assert (y ∈ x :: l1) as Hy by (rewrite Hp; by left). assert (x ∈ y :: l2) as Hx by (rewrite <- Hp; by left).
    apply elem_of_cons in Hy as [->|Hy]; [done|]. apply elem_of_cons in Hx as [->|Hx]; [done|]. exfalso.
    apply (Hasym x y); [by left|by right|by apply Hall|by apply Hall2]. }
  f_equal. apply IH; [done| |by apply Permutation_cons_inv in Hp].
  intros a b Ha Hb. apply Hasym; by right.
Qed.

Lemma sorted_ext l1 l2 :
  StronglySorted R l1 → StronglySorted R l2 → (∀ x y, x ∈ l1 → y ∈ l1 → R x y → ¬ R y x) →
  (∀ x, x ∈ l1 ↔ x ∈ l2) → l1 = l2.
Proof.
  intros H1 H2 Hasym Hm. apply sorted_perm_eq; [done..|]. apply NoDup_Permutation; [| |done].
  - apply sorted_asym_nodup; [done|]. intros x Hx Hr. by apply (Hasym x x).
  - apply sorted_asym_nodup; [done|]. intros x Hx%Hm Hr. by apply (Hasym x x).
Qed.
End Sorted.

(** ** Versions by their levels *)

Lemma range_before_asym f g : meta_wf f → meta_wf g → range_before f g → ¬ range_before g f.
Proof.
  intros Hf%meta_user_range Hg%meta_user_range H1 H2. unfold range_before in *.
  pose proof (cmp_lt_le (cmp := lex_cmp) _ _ _ H1 Hg) as H3. pose proof (cmp_trans (cmp := lex_cmp) _ _ _ H3 H2) as H4.
  pose proof (cmp_lt_le (cmp := lex_cmp) _ _ _ H4 Hf) as H5. by rewrite lex_cmp_refl in H5.
Qed.

(** The files of a level have one order. *)
Lemma level_ext v v' level :
  version_wf v → version_wf v' → 0 ≤ level →
  (∀ f, f ∈ level_files v level ↔ f ∈ level_files v' level) → level_files v level = level_files v' level.
Proof.
  intros Hv Hv' Hl Hm. destruct (decide (level = 0)) as [->|Hne].
  - eapply sorted_ext; [apply Hv|apply Hv'| |done]. intros x y _ _ H1 H2; cbn in H1, H2; lia.
  - eapply sorted_ext; [apply Hv; lia|apply Hv'; lia| |done]. intros x y Hx Hy.
    pose proof (vw_files _ Hv) as Hwf. rewrite Forall_forall in Hwf.
    apply range_before_asym; apply Hwf; by eapply concat_level_elem.
Qed.

Lemma versions_by_levels (v v' : Version) :
  length v = length v' → (∀ level, 0 ≤ level → level_files v level = level_files v' level) → v = v'.
Proof.
  intros Hlen Hl. apply list_eq_same_length with (length v); [done|done|]. intros k x y Hk Hx Hy.
  specialize (Hl (Z.of_nat k) ltac:(lia)). unfold level_files in Hl.
  rewrite (proj2 (Z.ltb_ge _ _)), Nat2Z.id, Hx, Hy in Hl by lia. done.
Qed.

Definition no_files (e : VersionEdit) : Prop := ve_added_files e = [] ∧ ve_deleted_files e = [].

Lemma version_apply_nil v v' edit : version_wf v → no_files edit → Version_apply v edit = Ok v' → v' = v.
Proof.
  intros Hv [Ha Hd] H. destruct (version_apply_spec v edit v' Hv) as [Hv' Hm]; [by unfold edit_files_wf; rewrite Ha|done|].
  apply versions_by_levels; [by rewrite (vw_levels _ Hv), (vw_levels _ Hv')|]. intros level Hl. symmetry.
  apply level_ext; [done..|]. intros f. rewrite (Hm level f), Ha, Hd, !elem_of_nil. tauto.
Qed.

(** ** Flushes *)

Lemma version_apply_flush v v' edit f :
  version_wf v → meta_wf f → ve_added_files edit = [(0, f)] → ve_deleted_files edit = [] →
  (∀ g, g ∈ concat v → fm_number g < fm_number f) → Version_apply v edit = Ok v' →
  version_wf v' ∧ concat v' = f :: concat v.
Proof.
  intros Hv Hf Ha Hd Hlast H.
  destruct (version_apply_spec v edit v' Hv) as [Hv' Hm]; [unfold edit_files_wf; rewrite Ha; constructor; [done|constructor]|done|].
  split; [done|]. pose proof (vw_levels _ Hv) as Hlen. pose proof (vw_levels _ Hv') as Hlen'.
  destruct v as [|files v]; [done|].
  assert (v' = (f :: files) :: v) as ->; [|done].
  apply versions_by_levels; [cbn in *; congruence|]. intros level Hl. destruct (decide (level = 0)) as [->|Hne].
  - change (level_files ((f :: files) :: v) 0) with (f :: files). eapply sorted_ext; [apply Hv'| |intros x y _ _ H1 H2; cbn in H1, H2; lia|].
    + constructor; [apply (vw_newest _ Hv)|]. apply Forall_forall. intros g Hg. apply Hlast. cbn. apply elem_of_app. by left.
    + intros x. rewrite (Hm 0 x), Ha, Hd. change (level_files (files :: v) 0) with files.
      rewrite list_elem_of_singleton, elem_of_nil, elem_of_cons. split; [intros [[? _]|[= ->]]; auto|intros [->|?]; auto].
  - rewrite (level_ext v' (files :: v) level); [|done|done|done|].
    + unfold level_files. rewrite (proj2 (Z.ltb_ge _ _)) by lia. destruct (Z.to_nat level) eqn:E; [lia|done].
    + intros x. rewrite (Hm level x), Ha, Hd, list_elem_of_singleton, elem_of_nil. split; [|auto].
      intros [[? _]|[= -> _]]; [done|lia].
Qed.
