(* ===== verification/EngineFrame.v ===== *)
(** * What the operations leave alone

    The engine's files are safe in the sense of [TableStore]: CURRENT, the manifest
    and the tables of a version are synchronized under their names.  An edit that is
    applied writes to the manifest only, and what keeps safe files safe keeps the
    version set recoverable. *)

From Stdlib Require Import ZArith Lia Sorting.Sorted.
From stdpp Require Import base list gmap strings.
From S2P Require Import Prelude Fs StateFs Checksum Framing InternalKey Batch ValueRecord Snapshot Mvcc MemTable Iter IterFacts.
From S2P Require Import Version Wal Options ManifestCodec Manifest ManifestLog ManifestSet ManifestBoot ManifestCrash WalFs.
From S2P Require Import TableBuilder TableReader TableStore Compaction CompactionRun Engine EngineOps EngineRead.

Local Open Scope Z_scope.

(** ** Safe files *)

Lemma stored_same i i' p b : same_at i i' p → stored i p b → stored i' p b.
Proof.
  intros [H|H] Hs; unfold stored; [by rewrite H|]. rewrite H, view_directory. by apply view_eq in Hs as (-> & -> & _).
Qed.

(** ** Names *)

(** Names with different suffixes of the same length differ. *)
Lemma suffix_ne (a b x y : bytes) : length x = length y → x ≠ y → a ++ x ≠ b ++ y.
Proof. intros Hl Hne H. apply app_inj_2 in H as [_ ?]; done. Qed.

Lemma wal_name_table n m : wal_name n ≠ sstable_name m.
Proof. by apply suffix_ne. Qed.

Lemma wal_name_temporary n m : wal_name n ≠ sstable_temporary m.
Proof.
  unfold wal_name, sstable_temporary. change (ascii_bytes ".sst.tmp") with (ascii_bytes ".sst" ++ ascii_bytes ".tmp").
  rewrite app_assoc. by apply suffix_ne.
Qed.

(** A numbered name starts with a digit (a negative number does not occur). *)
Lemma format06_digit n : ∃ x r, format06 n = x :: r ∧ 48 ≤ x ≤ 57.
Proof.
  destruct (Z.le_gt_cases 0 n) as [Hn|Hn]; [by apply format06_head|]. unfold format06. cbn [dec_digits].
  rewrite (proj2 (Z.ltb_lt n 10)) by lia. eexists _, _. split; [reflexivity|lia].
Qed.

Lemma table_name_meta n m :
  (sstable_name n ≠ CURRENT ∧ sstable_name n ≠ manifest_name m) ∧
  sstable_temporary n ≠ CURRENT ∧ sstable_temporary n ≠ manifest_name m.
Proof.
  destruct (format06_digit n) as (x & r & Hx & Hb). unfold sstable_name, sstable_temporary, manifest_name.
  rewrite Hx. repeat split; intros H; injection H as H _; lia.
Qed.

Lemma wal_name_meta n m : wal_name n ≠ CURRENT ∧ wal_name n ≠ manifest_name m.
Proof.
  destruct (format06_digit n) as (x & r & Hx & Hb). unfold wal_name, manifest_name.
  rewrite Hx. split; intros H; injection H as H _; lia.
Qed.

Lemma wal_name_inj n m : 0 ≤ n ≤ U64_MAX → 0 ≤ m ≤ U64_MAX → wal_name n = wal_name m → n = m.
Proof. intros Hn Hm H. apply app_inv_tail in H. by apply format06_inj. Qed.

(** ** Metadata *)

(** CURRENT and the manifest are safe. *)
Definition vs_stored (vs : VersionSet) (i : CrashImage) : Prop :=
  (∃ b, stored i CURRENT b) ∧ ∃ b, stored i (mw_path (vs_manifest vs)) b.

Definition tables_stored (i : CrashImage) (v : Version) : Prop :=
  ∀ f, f ∈ concat v → ∃ b, stored i (sstable_name (fm_number f)) b.

(** The version set's files stay safe. *)
Definition meta_kept (vs : VersionSet) (i i' : CrashImage) : Prop :=
  ∀ p b, p = CURRENT ∨ p = mw_path (vs_manifest vs) ∨ (∃ f, f ∈ concat (vs_current vs) ∧ p = sstable_name (fm_number f)) →
    stored i p b → stored i' p b.

Lemma vs_stored_kept vs i i' : meta_kept vs i i' → vs_stored vs i → vs_stored vs i'.
Proof. intros Hk [[b Hb] [b' Hb']]. split; [exists b|exists b']; apply Hk; auto. Qed.

Section Frame.
  Context `{C : Crc32c} {CR : Crc32cRange C}.

Lemma vs_ok_kept vs i i' es :
  meta_kept vs i i' → vs_ok vs i es → vs_stored vs i → tables_stored i (vs_current vs) → vs_ok vs i' es.
Proof.
  intros Hk [[Hn Hc (file & Hf & Ht & Hl) He Htab] Hu Hp (file' & Hv & Hd & Hlog)] [[b Hb] [b' Hb']] Hts.
  assert (stored i' CURRENT b) as Hbk by (apply Hk; auto).
  assert (stored i' (mw_path (vs_manifest vs)) b') as Hbk' by (apply Hk; auto).
  apply view_eq in Hb as (_ & _ & Hb), Hb' as (_ & _ & Hb').
  apply view_eq in Hbk as (_ & _ & Hbk), Hbk' as (Hv' & _ & Hbk').
  split; [|done|done|].
  - split; [done|congruence| |done|].
    + exists file. rewrite <- Hp in Hf |- *. rewrite Hf in Hb'. injection Hb' as <-. done.
    + intros f Hin. destruct (Hts f Hin) as [bf Hbf]. apply Hk in Hbf; [|eauto]. apply view_eq in Hbf as (_ & _ & Hbf). eauto.
  - exists file'. rewrite Hd in Hb'. injection Hb' as <-. done.
Qed.

(** Synchronizing a safe file changes nothing. *)
Lemma sync_stored_view i p b q :
  stored i p b → view (record_file_sync p (record_truncate p b i)) q = view i q.
Proof.
  intros Hs. apply view_eq in Hs as Hs'. destruct Hs' as (Hv & Hsy & Hd).
  assert (record_truncate p b i = i) as ->.
  { unfold record_truncate. rewrite insert_id by done. by destruct i. }
  rewrite (view_sync i p b q Hv). destruct (decide (q = p)) as [->|]; [|done]. rewrite Hd. cbn. by rewrite Hs.
Qed.

Definition added_stored (i : CrashImage) (edit : VersionEdit) : Prop :=
  Forall (λ a : Z * FileMeta, ∃ b, stored i (sstable_name (fm_number a.2)) b) (ve_added_files edit).

Lemma sync_stored_wp (l : list (Z * FileMeta)) f i i0 (Q : unit → CrashImage → Prop) E :
  Forall (λ a : Z * FileMeta, ∃ b, stored i (sstable_name (fm_number a.2)) b) l → (∀ p, view i p = view i0 p) →
  (∀ i', (∀ p, view i' p = view i0 p) → Q tt i') →
  wpf false (fs_each (λ a, fs_map_err f (sync_file (sstable_name (fm_number a.2)))) l) i Q E.
Proof.
  intros Hall. revert i Hall. induction l as [|a l IH]; intros i Hall Hi HQ; cbn [fs_each].
  { by apply wp_ret, HQ. }
  apply Forall_cons in Hall as [[b Hb] Hall]. apply view_eq in Hb as Hv. destruct Hv as (Hv & _ & _).
  apply wp_bind, wp_map_err. eapply wp_sync_file; [done|exact Hv|].
  pose proof (λ q, sync_stored_view i (sstable_name (fm_number a.2)) b q Hb) as Hview. apply IH; [|intros p; by rewrite Hview|done].
  eapply Forall_impl; [exact Hall|]. intros x [bx Hx]. exists bx. unfold stored. by rewrite Hview.
Qed.

Lemma added_present i edit : added_stored i edit → tables_present i edit.
Proof. intros H. eapply Forall_impl; [exact H|]. intros a [b Hb]. apply view_eq in Hb as (-> & _ & ->). eauto. Qed.

(** What [apply] does without a fault. *)
Record applied (vs vs' : VersionSet) (edit : VersionEdit) (es : list VersionEdit) (i i' : CrashImage) : Prop := {
  ap_ok : vs_ok vs' i' (es ++ [edit]);
  ap_stored : vs_stored vs' i';
  ap_only : only_at (mw_path (vs_manifest vs)) i i';
  ap_kept : ∀ p b, p ≠ mw_path (vs_manifest vs) → stored i p b → stored i' p b;
  ap_path : mw_path (vs_manifest vs') = mw_path (vs_manifest vs);
  ap_version : Version_apply (vs_current vs) edit = Ok (vs_current vs');
  ap_counters : update_counters edit (vs_counters vs) false = Ok (vs_counters vs')
}.

(** A check refuses the edit before anything is written. *)
Ltac refused_by :=
  unfold apply_with_visibility, prepare_apply, fs_bind, fs_lift;
  repeat match goal with H : _ = _ |- context [?x] => match type of H with x = _ => rewrite H end end; done.

Lemma apply_frame vs edit s es :
  vs_ok vs (fs_image s) es → vs_stored vs (fs_image s) → edit_wf edit → added_stored (fs_image s) edit →
  manifest_small vs (fs_image s) → fs_fail_at s = None →
  let '(o, vs', s') := apply_with_visibility vs edit s in
  fs_fail_at s' = None ∧
  match o with
  | None => applied vs vs' edit es (fs_image s) (fs_image s')
  | Some _ => vs' = vs ∧ fs_image s' = fs_image s
  end.
Proof.
  intros Hvs [[bc Hbc] [bm Hbm]] Hwf Hadd Hsmall Hf. pose proof (added_present _ _ Hadd) as Hpres.
  pose proof (vo_usable _ _ _ Hvs) as Hu.
  destruct (update_counters edit (vs_counters vs) false) as [c|] eqn:Hc; [|refused_by].
  destruct (validate_file_numbers edit (cn_next_file_number c) (vs_used_file_numbers vs) false) as [[]|] eqn:Hv; [|refused_by].
  destruct (Version_apply (vs_current vs) edit) as [v|] eqn:Ha; [|refused_by].
  destruct (encode_edit edit) as [L|] eqn:HL; [|refused_by].
  unfold apply_with_visibility. rewrite Hu. cbn [negb].
  assert (wpf false (prepare_apply vs edit) (fs_image s)
    (λ x i', x = (c, v, L) ∧ ∀ p, view i' p = view (fs_image s) p) (λ _, False)) as Hp.
  { unfold prepare_apply. apply wp_bind. eapply wp_lift_ok; [done|]. apply wp_bind. eapply wp_lift_ok; [done|].
    apply wp_bind. eapply wp_lift_ok; [done|]. apply wp_bind. eapply wp_lift_ok; [done|].
    apply wp_bind. eapply sync_stored_wp; [exact Hadd|done|]. intros i' Hi'. by apply wp_ret. }
  specialize (Hp s eq_refl ltac:(done)). destruct (prepare_apply vs edit s) as [[[[c1 v1] L1]|e] s1]; [|done].
  destruct Hp as [[[= -> -> ->] Hview] Hf1]. specialize (Hf1 eq_refl).
  set (path := mw_path (vs_manifest vs)) in *.
  assert (stored (fs_image s1) path bm) as Hbm1 by (unfold stored; by rewrite Hview).
  apply view_eq in Hbm1 as Hv1. destruct Hv1 as (Hv1 & _ & Hd1).
  destruct (edit_record_facts edit L) as (_ & HLne & _); [done|].
  assert (0 ≤ mw_block_offset (vs_manifest vs) ≤ BLOCK_BYTES) as Ho.
  { destruct (vo_manifest _ _ _ Hvs) as (? & _ & _ & Hlog). by destruct Hlog as (? & ? & ? & ? & _ & _ & _ & _ & _ & ?). }
  pose proof (manifest_append_wp false path (λ _, False) (vs_manifest vs) L (fs_image s1) bm
    (λ w i', ∃ phys o', frags (mw_block_offset (vs_manifest vs)) true L phys o' ∧
      w = {| mw_path := path; mw_block_offset := o' |} ∧ i' = record_write path phys (fs_image s1))
    eq_refl Ho HLne ltac:(done) Hv1 ltac:(intros phys o' Hfr; by exists phys, o') s1 eq_refl ltac:(done)) as Happ.
  destruct (ManifestWriter_append (vs_manifest vs) L s1) as [[w|e] s2]; [|done].
  destruct Happ as [(phys & o' & Hfr & -> & Hi2) Hf2]. specialize (Hf2 eq_refl).
  pose proof (wp_map_err false (fs_image s2) (λ _, False) (io_error "sync manifest edit") (file_sync_all path)
    (λ _ i', i' = record_file_sync path (fs_image s2)) (wp_sync false _ _ ltac:(done) _ _ eq_refl) s2 eq_refl ltac:(done)) as Hsync.
  unfold ManifestWriter_sync. cbn [mw_path]. destruct (fs_map_err _ _ s2) as [[[]|e] s3]; [|done].
  destruct Hsync as [Hi3 Hf3]. split; [by apply Hf3|]. rewrite Hi3, Hi2.
  assert (∀ p, view (record_file_sync path (record_write path phys (fs_image s1))) p =
    if decide (p = path) then (Some (bm ++ phys), Some (bm ++ phys), Some (bm ++ phys)) else view (fs_image s) p) as Hfin.
  { intros p. pose proof (view_write (fs_image s1) path phys path) as Hw. rewrite decide_True in Hw by done.
    apply view_eq in Hw as (Hw1 & _ & Hw3). rewrite Hv1 in Hw1. cbn [default] in Hw1.
    rewrite (view_sync (record_write path phys (fs_image s1)) path (bm ++ phys) p Hw1). destruct (decide (p = path)) as [->|Hne].
    - rewrite Hw3, Hd1. done.
    - rewrite view_write, decide_False by done. apply Hview. }
  assert (∀ p b, p ≠ path → stored (fs_image s) p b →
    stored (record_file_sync path (record_write path phys (fs_image s1))) p b) as Hkept.
  { intros p b Hne Hs. unfold stored. rewrite Hfin, decide_False by done. done. }
  assert (files_ext (ci_volatile (fs_image s)) (ci_volatile (fs_image s1)) ∧
    files_ext (ci_durable (fs_image s)) (ci_durable (fs_image s1))) as [Hev Hed].
  { assert (∀ p, ci_volatile (fs_image s1) !! p = ci_volatile (fs_image s) !! p ∧
      ci_durable (fs_image s1) !! p = ci_durable (fs_image s) !! p) as Hsame.
    { intros p. specialize (Hview p). unfold view in Hview. by injection Hview as -> _ ->. }
    split; (split; [intros p _; apply Hsame|intros p Hx; destruct (Hsame p) as [H1 H2]; by rewrite ?H1, ?H2]). }
  split; cbn [vs_manifest mw_path vs_current vs_counters]; [| | |done|done|done|done].
  - by apply (vs_ok_extend vs edit (fs_image s) es c v L phys o').
  - split; [|exists (bm ++ phys); unfold stored; by rewrite Hfin, decide_True].
    exists bc. apply Hkept; [|done]. unfold path. rewrite (vo_path _ _ _ Hvs). apply not_eq_sym, manifest_name_current.
  - intros p Hne. by rewrite Hfin, decide_False.
Qed.
End Frame.
