(* ===== verification/EngineHistory.v ===== *)
(** * Histories and what reads see of them

    The value that a history of batches gives a key, the versions that a batch adds,
    and the sizes that the engine's options admit. *)

From Stdlib Require Import ZArith Lia Sorting.Sorted.
From stdpp Require Import base list gmap strings sorting.
From S2P Require Import Prelude Fs StateFs Checksum Framing InternalKey Batch ValueRecord Snapshot Mvcc MemTable Iter IterFacts.
From S2P Require Import Version Wal Options ManifestCodec Manifest ManifestSet ManifestBoot WalFs Block TableBuilder.
From S2P Require Import TableReader TableStore Compaction CompactionRun Engine EngineOps EngineRead.

Local Open Scope Z_scope.

(** What the history says about a key at a sequence and a time. *)
Definition hist_value (h : history) (u : bytes) (q now : Z) : option bytes :=
  hist_get h u q ≫= λ r, record_into_value r now.

(** The contents of the tables of a version. *)
Definition contents (T : Z → list entry) (v : Version) : list (list entry) :=
  map (λ f, T (fm_number f)) (concat v).

Definition version_key (e : entry) : bytes * Z := (e_user e, e_seq e).

Lemma keys_unique es : NoDup (map version_key es) → versions_unique es.
Proof.
  intros Hnd e e' He He' Hu Hs. apply list_elem_of_lookup in He as [i Hi]. apply list_elem_of_lookup in He' as [j Hj].
  assert (i = j) as ->; [|congruence]. eapply (NoDup_lookup (version_key <$> es)); [exact Hnd| |];
    rewrite list_lookup_fmap, ?Hi, ?Hj; cbn; [done|]. unfold version_key. congruence.
Qed.

(** ** Histories *)

Lemma hist_get_above h u q c :
  Forall (λ x, x.1 ≤ c) h → c ≤ q → hist_get h u q = hist_get h u c.
Proof.
  intros Hall Hq. induction h as [|[s b] h IH] using rev_ind; [done|].
  apply Forall_app in Hall as [Hall Hs]. apply Forall_cons in Hs as [Hs _]. cbn in Hs.
  rewrite !hist_get_snoc, IH by done. rewrite !(proj2 (Z.leb_le _ _)) by lia. done.
Qed.

Lemma reads_perm u q now es es' o : es ≡ₚ es' → reads u q now es o → reads u q now es' o.
Proof. intros Hp (x & Hx & ->). exists x. split; [by rewrite <- Hp|done]. Qed.

(** Older readers do not see a new batch. *)
Lemma reads_before u q now s new es o :
  Forall (λ e, e_seq e = s) new → q < s → reads u q now es o → reads u q now (new ++ es) o.
Proof.
  intros Hnew Hq (x & Hx & ->). exists x. split; [|done]. rewrite Forall_forall in Hnew.
  apply is_newest_layer_miss; [|done]. intros e He _. rewrite (Hnew e He). done.
Qed.

(** The reader at the new sequence sees the batch over what was there. *)
Lemma reads_committed u s c now h b es :
  hist_wf (h ++ [(s, b)]) → Forall (λ x, x.1 ≤ c) h → c < s → (∀ e, e ∈ es → e_seq e ≤ c) →
  reads u c now es (hist_value h u c now) →
  reads u s now (batch_entries s b ++ es) (hist_value (h ++ [(s, b)]) u s now).
Proof.
  intros [_ Hwf] Hold Hc Hcov (x & Hx & Heq). apply Forall_app in Hwf as [_ Hwf].
  apply Forall_cons in Hwf as [[Hs _] _]. cbn in Hs.
  unfold hist_value. rewrite hist_get_snoc, Z.leb_refl, (hist_get_above h u s c) by (done || lia).
  destruct (last_op u (operations b)) as [r|] eqn:El.
  - exists (Some (mk_entry u s r)). split; [|done]. split; [apply elem_of_app; left; apply elem_of_batch_entries; eauto|].
    split; [done|]. rewrite e_seq_mk by done. split; [lia|].
    intros e [(u' & r' & _ & ->)%elem_of_batch_entries|He]%elem_of_app _ _; [by rewrite e_seq_mk|].
    specialize (Hcov e He). lia.
  - exists x. split; [|done]. apply is_newest_layer_miss.
    + intros e (u' & r' & Hl & ->)%elem_of_batch_entries Hu. rewrite e_user_mk in Hu. congruence.
    + destruct x as [e|]; cbn in Hx |- *.
      * destruct Hx as (H1 & H2 & H3 & H4). do 2 (split; [done|]). split; [lia|]. intros e' He' Hu' _. apply H4; auto.
      * intros e He Hu. specialize (Hx e He Hu). specialize (Hcov e He). lia.
Qed.

Lemma batch_keys s b :
  seq_ok s → NoDup (map version_key (batch_entries s b)).
Proof.
  intros Hs. unfold batch_entries. rewrite map_map. destruct (final_operations_spec (operations b)) as [Hsort _].
  induction Hsort as [|[u r] m Hm IH Hall]; cbn; [constructor|]. apply NoDup_cons. split; [|done].
  intros ([u' r'] & Heq & Hin)%list_elem_of_fmap. unfold version_key in Heq. cbn in Heq. injection Heq as -> _.
  apply (elem_of_Forall _ _ _ Hall) in Hin. unfold bt_lt in Hin. cbn in Hin. by rewrite lex_cmp_refl in Hin.
Qed.

Lemma batch_seqs s b : seq_ok s → Forall (λ e, e_seq e = s) (batch_entries s b).
Proof. intros Hs. apply Forall_forall. intros e (u & r & _ & ->)%elem_of_batch_entries. by rewrite e_seq_mk. Qed.

Lemma hist_wf_snoc h c s b :
  hist_wf h → Forall (λ x, x.1 ≤ c) h → c < s → seq_ok s → Forall op_wf (operations b) → hist_wf (h ++ [(s, b)]).
Proof.
  intros [Hs Hwf] Hold Hc Hseq Hops. split; [|apply Forall_app; split; [done|constructor; [done|constructor]]].
  unfold hist_sorted. apply StronglySorted_app. split; [|split; [done|repeat constructor]].
  intros x y Hx ->%list_elem_of_singleton. apply (elem_of_Forall _ _ _ Hold) in Hx. cbn in *. lia.
Qed.

(** ** Sizes *)

Lemma escape_len u : zlen (escape u) ≤ 2 * zlen u.
Proof. induction u as [|x u IH]; [done|]. unfold escape in *. cbn [flat_map]. destruct (x =? 0); cbn [app]; zlen_lia. Qed.

Lemma entry_len u s r :
  zlen (ik_encoded (mk_entry u s r).1) + zlen (encode_engine_value r) ≤
    2 * zlen u + 25 + match r with VValue v _ => zlen v | VTombstone => 0 end.
Proof.
  pose proof (escape_len u). cbn [mk_entry fst mk_key ik_encoded]. unfold encode_key, encode_user_key.
  destruct r as [v [t|]|]; cbn; zlen_lia.
Qed.

(** What the engine's options must satisfy: they can build and read tables, and the
    limits are far from the ends of the integers. *)
Record options_ok (options : Options) : Prop := {
  oo_cap : engine_block_limit options ≤ 2 ^ 62;
  oo_build : options_build options;
  oo_read : options_read options;
  oo_key : 0 ≤ op_max_key_bytes options;
  oo_value : 0 ≤ op_max_value_bytes options;
  oo_batch : 0 ≤ op_max_batch_bytes options
}.

Lemma limit_entry options :
  options_ok options →
  2 * op_max_key_bytes options + op_max_value_bytes options + 128 ≤ engine_block_limit options ∧
  2 * op_block_bytes options ≤ engine_block_limit options.
Proof.
  intros [Hcap _ _ Hk Hv _]. unfold engine_block_limit, saturating_add, saturating_mul in *.
  assert (2 ^ 62 < USIZE_MAX) as Hmax by done. revert Hcap Hmax. generalize (2 ^ 62), USIZE_MAX. intros a m Hcap Hmax. lia.
Qed.

Lemma last_op_in u ops r : last_op u ops = Some r → ∃ op, op ∈ ops ∧ op_key op = u ∧ op_record op = r.
Proof.
  induction ops as [|op ops IH]; cbn; [done|]. destruct (last_op u ops) as [r'|].
  - intros [= ->]. destruct (IH eq_refl) as (op' & Hin & H). exists op'. split; [by right|done].
  - destruct (lex_eqb (op_key op) u) eqn:E; [|done]. apply lex_eqb_eq in E. intros [= <-]. exists op. split; [by left|done].
Qed.

Lemma try_fold_unit {A} (f : A → result unit) l :
  try_fold (λ _ a, f a) tt l = Ok tt → ∀ a, a ∈ l → f a = Ok tt.
Proof.
  induction l as [|x l IH]; cbn; intros H a Ha; [by apply elem_of_nil in Ha|].
  destruct (f x) as [[]|] eqn:E; [|done]. apply elem_of_cons in Ha as [->|Ha]; auto.
Qed.

Lemma validate_length_ok kind n name max : validate_length kind n name max = Ok tt → n ≤ max.
Proof. unfold validate_length. destruct (Z.ltb_spec max n); [done|lia]. Qed.

(** What [validate_batch] has checked. *)
Lemma validate_batch_ok options b :
  validate_batch options b = Ok tt →
  operations b ≠ [] ∧ approximate_bytes b ≤ op_max_batch_bytes options ∧
  ∀ op, op ∈ operations b → zlen (op_key op) ≤ op_max_key_bytes options ∧
    match op_record op with VValue v _ => zlen v ≤ op_max_value_bytes options | VTombstone => True end.
Proof.
  unfold validate_batch, WriteBatch_is_empty. destruct (operations b) as [|op ops] eqn:Eops; [done|].
  rewrite <- Eops. cbn [bool_decide]. destruct (_ <? WriteBatch_len b); [done|].
  destruct (Z.ltb_spec (op_max_batch_bytes options) (approximate_bytes b)); [done|].
  intros Hall. split; [by rewrite Eops|]. split; [lia|]. intros x Hx. pose proof (try_fold_unit _ _ Hall x Hx) as Hv.
  unfold validate_operation in Hv. destruct x as [key value t|key]; cbn.
  - destruct (validate_length "key" _ _ _) as [[]|] eqn:E; [|done].
    split; [by eapply validate_length_ok|by eapply validate_length_ok].
  - destruct (validate_length "key" _ _ _) as [[]|] eqn:E; [|done]. split; [by eapply validate_length_ok|done].
Qed.

Lemma batch_fit options s b :
  options_ok options → validate_batch options b = Ok tt → entries_fit (engine_block_limit options) (batch_entries s b).
Proof.
  intros Ho (_ & _ & Hops)%validate_batch_ok. destruct (limit_entry _ Ho) as [Hlim _]. apply Forall_forall.
  intros e (u & r & Hl & ->)%elem_of_batch_entries. pose proof (entry_len u s r) as Hlen.
  destruct (last_op_in _ _ _ Hl) as (op & Hin & <- & <-). destruct (Hops op Hin) as [Hk Hv].
  cbn [snd mk_entry]. pose proof (oo_value _ Ho). destruct (op_record op); lia.
Qed.

Lemma batch_entries_some s b : operations b ≠ [] → batch_entries s b ≠ [].
Proof.
  intros Hne Hnil. destruct (operations b) as [|op ops] eqn:E using rev_ind; [done|].
  assert (mk_entry (op_key op) s (op_record op) ∈ batch_entries s b) as Hin.
  { apply elem_of_batch_entries. exists (op_key op), (op_record op). split; [|done].
    rewrite E, last_op_app. cbn. by rewrite lex_eqb_refl. }
  rewrite Hnil in Hin. by apply elem_of_nil in Hin.
Qed.

(** Every sequence that covers the versions reads the same. *)
Lemma reads_covered u q q' now es o :
  (∀ e, e ∈ es → e_seq e ≤ q) → (∀ e, e ∈ es → e_seq e ≤ q') → reads u q now es o → reads u q' now es o.
Proof.
  intros Hq Hq' ([e|] & Hn & ->); [exists (Some e)|exists None]; (split; [|done]).
  - destruct Hn as (He & Hu & _ & Hmax). split; [done|]. split; [done|]. split; [by apply Hq'|]. auto.
  - intros e' He Hu. pose proof (Hn e' He Hu). specialize (Hq e' He). lia.
Qed.
