(* ===== verification/EngineLogs.v ===== *)
(** * The logs of an engine

    Every memtable has a log that holds its batches; what a crash leaves of the logs is
    the batches up to some point of the history.  The counters of the manifest say
    which logs to replay, and behind which sequence the tables take over. *)

From Stdlib Require Import ZArith Lia Sorting.Sorted.
From stdpp Require Import base list gmap strings sorting.
From S2P Require Import Prelude Fs StateFs Checksum Framing InternalKey Batch ValueRecord Snapshot Mvcc MemTable Iter.
From S2P Require Import Version Wal Options ManifestCodec Manifest ManifestSet ManifestBoot WalFs Block TableBuilder.
From S2P Require Import TableReader TableStore Compaction CompactionRun Engine EngineOps EngineRead EngineFrame EngineHistory.

Local Open Scope Z_scope.

(** ** One log *)

(** The memtable that a log's batches give. *)
Definition replay_table (batches : history) : result MemTable :=
  try_fold (λ t x, MemTable_apply t x.1 x.2) MemTable_default batches.

(** The sequences from [l + 1] on. *)
Definition numbered (l : Z) (batches : history) : Prop := map fst batches = seqZ (l + 1) (zlen batches).

(** A log's batches, and those that are synchronized. *)
Record Segment : Type := { sg_number : Z; sg_batches : history; sg_synced : history }.

Definition sg_full (s : Segment) : Prop := sg_synced s = sg_batches s.

Definition all_batches (segs : list Segment) : history := concat (map sg_batches segs).
Definition all_synced (segs : list Segment) : history := concat (map sg_synced segs).

(** The batches that are known to survive a crash. *)
Class Acknowledged : Type := acknowledged : history.

Section Logs.
  Context `{C : Crc32c} {AK : Acknowledged} (options : Options).

(** A batch that a write has accepted. *)
Definition logged (x : Z * WriteBatch) : Prop :=
  seq_ok x.1 ∧ batch_wf x.2 ∧ validate_batch options x.2 = Ok tt.

(** The frames that appending the batches to a new log gives. *)
Definition frames_hold (batches : history) (frames : FrameWriter) : Prop :=
  ∃ w0 recs w, WalWriter_create (op_max_batch_bytes options) = Ok w0 ∧ map fst recs = batches ∧
    append_all w0 recs = Ok w ∧ ww_frames w = frames.

Record log_file (i : CrashImage) (s : Segment) : Prop := {
  lf_volatile : ∃ frames, frames_hold (sg_batches s) frames ∧ ci_volatile i !! wal_name (sg_number s) = Some (fw_file frames);
  lf_durable : ∃ frames, frames_hold (sg_synced s) frames ∧ ci_durable i !! wal_name (sg_number s) = Some (fw_file frames);
  lf_content : ci_synced i !! wal_name (sg_number s) = None ∨
    ci_synced i !! wal_name (sg_number s) = ci_durable i !! wal_name (sg_number s);
  lf_prefix : sg_synced s `prefix_of` sg_batches s
}.

(** A log that nothing has been synchronized to. *)
Definition idle (i : CrashImage) (p : name) : Prop :=
  default [] (ci_durable i !! p) = [] ∧ default [] (ci_synced i !! p) = [].

(** ** All of them *)

(** The counters of the manifest fit the logs. *)
Record counters_ok (c : Counters) (st : WriteState) (i : CrashImage) (segs : list Segment) : Prop := {
  ck_log : cn_log_number c = oldest_required_wal st;
  ck_active : mm_wal_number (es_mutable st) ≤ cn_active_log_number c < es_next_file_number st;
  ck_file : is_Some (ci_volatile i !! wal_name (cn_active_log_number c)) ∧
    is_Some (ci_durable i !! wal_name (cn_active_log_number c));
  ck_wal : 0 ≤ cn_wal_sequence c ≤ cn_last_sequence c + zlen (all_synced segs);
  ck_next : 1 ≤ cn_next_file_number c ≤ es_next_file_number st ∧ es_next_file_number st ≤ U64_MAX;
  ck_files : ∀ f, f ∈ concat (vs_current (es_versions st)) → fm_number f < cn_next_file_number c
}.

(** The last log is the one that is written. *)
Definition log_active (st : WriteState) (i : CrashImage) (segs : list Segment) : Prop :=
  ∃ s file, last segs = Some s ∧ ci_volatile i !! wal_name (mm_wal_number (es_mutable st)) = Some file ∧
    frames_hold (sg_batches s) {| fw_file := file; fw_offset := lw_block_offset (es_wal st) |}.

Record log_state (h : history) (T : Z → list entry) (clock : Z) (st : WriteState) (i : CrashImage)
    (old : history) (segs : list Segment) : Prop := {
  lg_numbers : map sg_number segs = map im_wal_number (es_immutables st) ++ [mm_wal_number (es_mutable st)];
  lg_order : StronglySorted Z.lt (map sg_number segs);
  lg_bounds : Forall (λ s, 1 ≤ sg_number s ≤ U64_MAX) segs;
  lg_files : Forall (log_file i) segs;
  lg_active : log_active st i segs;
  lg_cut : StronglySorted (λ a b, sg_synced b = [] ∨ sg_full a) segs;
  lg_durability : op_durability options = Sync → Forall sg_full segs;
  lg_history : h = old ++ all_batches segs;
  lg_old : Forall (λ x, x.1 ≤ cn_last_sequence (vs_counters (es_versions st))) old;
  lg_last : 0 ≤ cn_last_sequence (vs_counters (es_versions st));
  lg_sequences : numbered (cn_last_sequence (vs_counters (es_versions st))) (all_batches segs);
  lg_next : es_next_sequence st = cn_last_sequence (vs_counters (es_versions st)) + zlen (all_batches segs) + 1;
  lg_valid : Forall logged (all_batches segs);
  lg_tables : Forall2 (λ t b, replay_table b = Ok t)
    (map im_table (es_immutables st) ++ [mm_table (es_mutable st)]) (map sg_batches segs);
  lg_largest : Forall2 (λ m b, fst <$> last b = Some (im_largest_sequence m))
    (es_immutables st) (take (length (es_immutables st)) (map sg_batches segs));
  lg_contents : ∀ u now, clock ≤ now → reads u (cn_last_sequence (vs_counters (es_versions st))) now
    (concat (contents T (vs_current (es_versions st))))
    (hist_value old u (cn_last_sequence (vs_counters (es_versions st))) now);
  lg_covered : ∀ e, e ∈ concat (contents T (vs_current (es_versions st))) →
    e_seq e ≤ cn_last_sequence (vs_counters (es_versions st));
  lg_counters : counters_ok (vs_counters (es_versions st)) st i segs;
  lg_unowned : ∀ k, oldest_required_wal st ≤ k ≤ U64_MAX → k ∉ map sg_number segs →
    idle i (wal_name k);
  lg_acknowledged : acknowledged `prefix_of` old ++ all_synced segs
}.

Definition logs_ok (h : history) (T : Z → list entry) (clock : Z) (st : WriteState) (i : CrashImage) : Prop :=
  ∃ old segs, log_state h T clock st i old segs.

(** ** What depends on what *)

Lemma append_limits w s b d w' :
  WalWriter_append w s b d = Ok w' →
  ww_max_batch_bytes w' = ww_max_batch_bytes w ∧ ww_max_logical_record_bytes w' = ww_max_logical_record_bytes w.
Proof.
  unfold WalWriter_append. destruct (WriteBatch_is_empty b); [done|]. destruct (_ <? approximate_bytes b); [done|].
  destruct (encode_batch s b); [|done]. destruct (_ <? zlen _); [done|]. destruct (write_logical_record _ _); [|done].
  intros [= <-]. by destruct (bool_decide _).
Qed.

Lemma append_all_limits recs w w' :
  append_all w recs = Ok w' →
  ww_max_batch_bytes w' = ww_max_batch_bytes w ∧ ww_max_logical_record_bytes w' = ww_max_logical_record_bytes w.
Proof.
  revert w. induction recs as [|[[s b] d] recs IH]; intros w H; [by injection H as <-|]. cbn in H.
  destruct (WalWriter_append w s b d) as [w1|] eqn:E; [|done]. apply append_limits in E as [<- <-]. by apply IH.
Qed.

(** The frames depend on the frames before. *)
Lemma append_frames w1 w2 s b d w' :
  ww_frames w1 = ww_frames w2 → ww_max_batch_bytes w1 = ww_max_batch_bytes w2 →
  ww_max_logical_record_bytes w1 = ww_max_logical_record_bytes w2 → WalWriter_append w1 s b d = Ok w' →
  ∃ w2', WalWriter_append w2 s b d = Ok w2' ∧ ww_frames w2' = ww_frames w'.
Proof.
  intros Hf Hm Hl. unfold WalWriter_append. rewrite Hf, Hm, Hl. destruct (WriteBatch_is_empty b); [done|].
  destruct (_ <? approximate_bytes b); [done|]. destruct (encode_batch s b); [|done]. destruct (_ <? zlen _); [done|].
  destruct (write_logical_record _ _); [|done]. cbn. intros [= <-]. eexists. split; [reflexivity|]. by destruct (bool_decide _).
Qed.

Lemma frames_nil limit : encoded_record_limit (op_max_batch_bytes options) = Ok limit → frames_hold [] {| fw_file := []; fw_offset := 0 |}.
Proof.
  intros Hl. unfold frames_hold, WalWriter_create. rewrite Hl. eexists _, [], _. split; [reflexivity|]. done.
Qed.

Lemma frames_append batches ww s b d ww' :
  frames_hold batches (ww_frames ww) → ww_max_batch_bytes ww = op_max_batch_bytes options →
  encoded_record_limit (op_max_batch_bytes options) = Ok (ww_max_logical_record_bytes ww) →
  WalWriter_append ww s b d = Ok ww' → frames_hold (batches ++ [(s, b)]) (ww_frames ww').
Proof.
  intros (w0 & recs & w & Hw0 & <- & Hall & Hf) Hm Hl Ha.
  pose proof (append_all_limits _ _ _ Hall) as [Hm' Hl']. pose proof Hw0 as Hc. unfold WalWriter_create in Hc. rewrite Hl in Hc.
  injection Hc as <-. cbn in Hm', Hl'.
  destruct (append_frames ww w s b d ww') as (w' & Hw' & Hf'); [done|congruence|congruence|done|].
  exists {| ww_frames := {| fw_file := []; fw_offset := 0 |}; ww_synced := 0; ww_max_batch_bytes := op_max_batch_bytes options;
            ww_max_logical_record_bytes := ww_max_logical_record_bytes ww |}, (recs ++ [(s, b, d)]), w'.
  split; [done|]. split; [by rewrite map_app|]. split; [|done]. unfold append_all in *. rewrite try_fold_app, Hall. cbn. by rewrite Hw'.
Qed.

(** Replaying a log returns its batches. *)
Lemma frames_replay {CR : Crc32cRange C} batches frames :
  0 ≤ op_max_batch_bytes options → frames_hold batches frames → Forall logged batches → zlen (fw_file frames) ≤ USIZE_MAX →
  replay_wal (fw_file frames) (op_max_batch_bytes options) =
    Ok (map (λ x, {| rb_sequence := x.1; rb_batch := x.2 |}) batches).
Proof.
  intros H0 (w0 & recs & w & Hw0 & <- & Hall & <-) Hl Hfit. set (n := zlen (fw_file (ww_frames w))).
  assert (w0 = {| ww_frames := {| fw_file := []; fw_offset := 0 |}; ww_synced := 0; ww_max_batch_bytes := ww_max_batch_bytes w0;
    ww_max_logical_record_bytes := ww_max_logical_record_bytes w0 |}) as Hw.
  { unfold WalWriter_create in Hw0. destruct (encoded_record_limit _); [|done]. by injection Hw0 as <-. }
  assert (0 ≤ fw_offset (ww_frames w0) ≤ BLOCK_BYTES ∧ ww_synced w0 ≤ zlen (wal_bytes w0)) as [Hoff Hsy] by (by rewrite Hw).
  destruct (replay_prefix (op_max_batch_bytes options) (ww_max_logical_record_bytes w0) recs w0 w n H0 Hw0) as (k & wk & Hk & Hr & Hwk & _ & Hmore);
    [|done|done| |reflexivity|].
  { apply Forall_forall. intros [[s b] d] Hin. apply (elem_of_Forall _ _ (s, b)) in Hl as (Hs & Hb & _).
    - split; [|done]. unfold seq_ok, is_u64, MAX_SEQUENCE_NUMBER in *. cbn in *. lia.
    - apply list_elem_of_fmap. by exists (s, b, d). }
  { unfold n, wal_bytes. pose proof (zlen_nonneg (fw_file (ww_frames w))). lia. }
  assert (k = length recs) as ->.
  { destruct (decide (k < length recs)%nat) as [Hlt|]; [|lia]. destruct (Hmore Hlt) as (wk' & Hwk' & Hn).
    destruct (append_all_take w0 recs w (S k) Hoff Hall) as (wj & Hwj & Hrest & Hoj). rewrite Hwk' in Hwj. injection Hwj as ->.
    pose proof (append_all_grows w0 _ wj Hoff Hsy Hwk') as [_ Hb]. apply append_all_grows in Hrest as [Hge _]; [|done|lia].
    unfold n, wal_bytes in *. lia. }
  rewrite firstn_all in Hr. unfold wal_bytes in Hr. replace (take (Z.to_nat n) (fw_file (ww_frames w))) with (fw_file (ww_frames w)) in Hr.
  - rewrite Hr. f_equal. unfold recovered. rewrite map_map. apply map_ext. by intros [[s b] d].
  - unfold n, zlen. by rewrite Nat2Z.id, firstn_all.
Qed.

Lemma log_file_same i i' s : log_file i s → same_at i i' (wal_name (sg_number s)) → log_file i' s.
Proof.
  intros [(f & Hf & Hv) (g & Hg & Hd) Hc Hp] Hs. destruct (same_at_content _ _ _ Hs) as [Hv' Hs'].
  assert (ci_durable i' !! wal_name (sg_number s) = ci_durable i !! wal_name (sg_number s)) as Hd'.
  { destruct Hs as [E|E]; [by apply view_eq in E as (_ & _ & ?)|]. rewrite view_directory in E. apply view_eq in E as (_ & _ & E).
    rewrite E, Hv. cbn. rewrite Hd in Hc |- *. destruct Hc as [E1|E1]; by rewrite E1. }
  split; [exists f; by rewrite Hv'|exists g; by rewrite Hd'|by rewrite Hs', Hd'|done].
Qed.

Lemma oldest_le immutables mutable n :
  n ∈ map im_wal_number immutables ++ [mm_wal_number mutable] → oldest_of immutables mutable ≤ n.
Proof.
  unfold oldest_of. induction (map im_wal_number immutables) as [|m ms IH]; cbn.
  - intros ->%list_elem_of_singleton. lia.
  - intros [->|Hin]%elem_of_cons; [lia|]. specialize (IH Hin). lia.
Qed.

Lemma segment_range h T clock st i old segs s :
  log_state h T clock st i old segs → s ∈ segs → oldest_required_wal st ≤ sg_number s ≤ U64_MAX.
Proof.
  intros Hl Hs. pose proof (elem_of_Forall _ _ _ (lg_bounds _ _ _ _ _ _ _ Hl) Hs) as Hb. cbn in Hb. split; [|lia].
  apply oldest_le. rewrite <- (lg_numbers _ _ _ _ _ _ _ Hl). by apply list_elem_of_fmap_2.
Qed.

Lemma active_range h T clock st i old segs :
  log_state h T clock st i old segs → 1 ≤ oldest_required_wal st ≤ mm_wal_number (es_mutable st) ≤ U64_MAX.
Proof.
  intros Hl. pose proof (lg_numbers _ _ _ _ _ _ _ Hl) as Hn. pose proof (lg_bounds _ _ _ _ _ _ _ Hl) as Hb.
  assert (∀ n, n ∈ map im_wal_number (es_immutables st) ++ [mm_wal_number (es_mutable st)] → 1 ≤ n ≤ U64_MAX) as Hall.
  { intros n Hin. rewrite <- Hn in Hin. apply list_elem_of_fmap in Hin as (s & -> & Hs). by apply (elem_of_Forall _ _ _ Hb). }
  split; [|split].
  - unfold oldest_required_wal, oldest_of. clear -Hall. revert Hall.
    induction (map im_wal_number (es_immutables st)) as [|m ms IH]; cbn; intros Hall; [apply Hall; by left|].
    assert (1 ≤ m) by (apply Hall; by left). enough (1 ≤ foldr Z.min (mm_wal_number (es_mutable st)) ms) by lia.
    apply IH. intros n Hin. apply Hall. by right.
  - apply oldest_le, elem_of_app. right. by left.
  - apply Hall, elem_of_app. right. by left.
Qed.

Lemma idle_same i i' p : same_at i i' p → idle i p → idle i' p.
Proof.
  intros Hs [Hd Hc]. destruct (same_at_content _ _ _ Hs) as [_ Hc']. unfold idle. rewrite Hc'. split; [|done].
  destruct Hs as [E|E]; [by apply view_eq in E as (_ & _ & ->)|]. rewrite view_directory in E. apply view_eq in E as (_ & _ & ->).
  destruct (ci_volatile i !! p); [|done]. cbn. by destruct (ci_synced i !! p).
Qed.

Lemma present_same i i' p :
  same_at i i' p → is_Some (ci_volatile i !! p) ∧ is_Some (ci_durable i !! p) →
  is_Some (ci_volatile i' !! p) ∧ is_Some (ci_durable i' !! p).
Proof.
  intros Hs [Hv Hd]. destruct (same_at_content _ _ _ Hs) as [-> _]. split; [done|].
  destruct Hs as [E|E]; [by apply view_eq in E as (_ & _ & ->)|]. rewrite view_directory in E. apply view_eq in E as (_ & _ & ->).
  by destruct Hv as [b ->].
Qed.

(** The edit's counters replace the old ones. *)
Lemma counters_updated edit c c' recovery :
  update_counters edit c recovery = Ok c' →
  cn_next_file_number c' = default (cn_next_file_number c) (ve_next_file_number edit) ∧
  cn_last_sequence c' = default (cn_last_sequence c) (ve_last_sequence edit) ∧
  cn_log_number c' = default (cn_log_number c) (ve_log_number edit) ∧
  cn_active_log_number c' = default (cn_active_log_number c) (ve_active_log_number edit) ∧
  cn_wal_sequence c' = default (cn_wal_sequence c) (ve_wal_sequence edit).
Proof.
  assert (∀ d x o v, advance recovery d x o = Ok v → v = default x o) as Hadv.
  { intros d x [y|] v; cbn; [destruct (y <? x); [done|]|]; by intros [= <-]. }
  unfold update_counters.
  assert (∀ next, (let? last := advance recovery "last sequence moved backward" (cn_last_sequence c) (ve_last_sequence edit) in
    let? log := advance recovery "log number moved backward" (cn_log_number c) (ve_log_number edit) in
    let? active := advance recovery "active log number moved backward" (cn_active_log_number c) (ve_active_log_number edit) in
    let? wal := advance recovery "WAL sequence moved backward" (cn_wal_sequence c) (ve_wal_sequence edit) in
    if negb (Bool.eqb (log =? 0) (active =? 0)) then
      Err (counter_error recovery "oldest and active log numbers must either both be zero or both be nonzero")
    else if active <? log then Err (counter_error recovery "oldest log number exceeds active log number")
    else if (next <=? active) && negb (active =? 0) then
      Err (counter_error recovery "active log number is not below next file number")
    else Ok {| cn_next_file_number := next; cn_last_sequence := last; cn_log_number := log;
               cn_active_log_number := active; cn_wal_sequence := wal |}) = Ok c' →
    cn_next_file_number c' = next ∧ cn_last_sequence c' = default (cn_last_sequence c) (ve_last_sequence edit) ∧
    cn_log_number c' = default (cn_log_number c) (ve_log_number edit) ∧
    cn_active_log_number c' = default (cn_active_log_number c) (ve_active_log_number edit) ∧
    cn_wal_sequence c' = default (cn_wal_sequence c) (ve_wal_sequence edit)) as H.
  { intros next.
    destruct (advance recovery _ (cn_last_sequence c) _) as [l|] eqn:E1; [|done].
    destruct (advance recovery _ (cn_log_number c) _) as [g|] eqn:E2; [|done].
    destruct (advance recovery _ (cn_active_log_number c) _) as [a|] eqn:E3; [|done].
    destruct (advance recovery _ (cn_wal_sequence c) _) as [w|] eqn:E4; [|done].
    apply Hadv in E1, E2, E3, E4. destruct (negb _); [done|]. destruct (_ <? _); [done|]. destruct (_ && _); [done|]. by intros [= <-]. }
  destruct (ve_next_file_number edit) as [next|]; [|apply H].
  destruct (next <? _); [done|]. destruct (next =? 0); [done|]. apply H.
Qed.

(** The state with other counters; the tables are the same. *)
Lemma log_state_counters h T clock st st' i i' old segs :
  log_state h T clock st i old segs →
  cn_last_sequence (vs_counters (es_versions st')) = cn_last_sequence (vs_counters (es_versions st)) →
  vs_current (es_versions st') = vs_current (es_versions st) → es_mutable st' = es_mutable st →
  es_immutables st' = es_immutables st → lw_block_offset (es_wal st') = lw_block_offset (es_wal st) →
  es_next_sequence st' = es_next_sequence st →
  (∀ k, oldest_required_wal st ≤ k ≤ U64_MAX → same_at i i' (wal_name k) ∨ (k ∉ map sg_number segs) ∧ idle i' (wal_name k)) →
  counters_ok (vs_counters (es_versions st')) st' i' segs →
  log_state h T clock st' i' old segs.
Proof.
  intros Hl Hc Hv Hm Hi Hw Hs Hsame Hck. pose proof (lg_numbers _ _ _ _ _ _ _ Hl) as Hnum.
  assert (∀ k, k ∈ map sg_number segs → same_at i i' (wal_name k)) as Hown.
  { intros k (s & -> & Hin)%list_elem_of_fmap. destruct (Hsame (sg_number s)) as [?|[Hout _]]; [by eapply segment_range|done|].
    destruct Hout. by apply list_elem_of_fmap_2. } pose proof (active_range _ _ _ _ _ _ _ Hl) as Ha.
  assert (oldest_required_wal st' = oldest_required_wal st) as Ho by (unfold oldest_required_wal; by rewrite Hm, Hi).
  assert (Forall (log_file i') segs) as Hf.
  { apply Forall_forall. intros s Hin. eapply log_file_same; [by apply (elem_of_Forall _ _ _ (lg_files _ _ _ _ _ _ _ Hl))|].
    apply Hown. by apply list_elem_of_fmap_2. }
  destruct Hl as [? ? ? _ (s & file & Hlast & Hfile & Hfr) ? ? ? ? ? ? ? ? ? ? ? ? _ Hu ?].
  split; rewrite ?Hc, ?Hv, ?Hm, ?Hi, ?Hs; try done.
  - exists s, file. split; [done|]. split; [|by rewrite Hw]. rewrite Hm.
    destruct (same_at_content i i' (wal_name (mm_wal_number (es_mutable st)))) as [-> _]; [|done].
    apply Hown. rewrite Hnum. apply elem_of_app. right. by left.
  - intros k Hk Hout. rewrite Ho in Hk. destruct (Hsame k Hk) as [Hk'|[_ ?]]; [|done]. eapply idle_same; [done|]. by apply Hu.
Qed.

(** Nothing that the logs depend on has changed. *)
Lemma log_state_same h T clock st st' i i' old segs :
  log_state h T clock st i old segs → vs_counters (es_versions st') = vs_counters (es_versions st) →
  vs_current (es_versions st') = vs_current (es_versions st) → es_mutable st' = es_mutable st →
  es_immutables st' = es_immutables st → lw_block_offset (es_wal st') = lw_block_offset (es_wal st) →
  es_next_sequence st' = es_next_sequence st → es_next_file_number st ≤ es_next_file_number st' ≤ U64_MAX →
  (∀ k, oldest_required_wal st ≤ k ≤ U64_MAX → same_at i i' (wal_name k)) →
  log_state h T clock st' i' old segs.
Proof.
  intros Hl Hc Hv Hm Hi Hw Hs Hn Hsame. pose proof (active_range _ _ _ _ _ _ _ Hl) as Ha.
  assert (oldest_required_wal st' = oldest_required_wal st) as Ho by (unfold oldest_required_wal; by rewrite Hm, Hi).
  eapply log_state_counters; [exact Hl|by rewrite Hc|done..|by left; apply Hsame|]. destruct (lg_counters _ _ _ _ _ _ _ Hl).
  split; rewrite ?Hc, ?Ho, ?Hm, ?Hv; try done; try lia. eapply present_same; [apply Hsame; lia|done].
Qed.

Lemma log_state_clock h T clock clock' st i old segs :
  log_state h T clock st i old segs → clock ≤ clock' → log_state h T clock' st i old segs.
Proof. intros [? ? ? ? ? ? ? ? ? ? ? ? ? ? ? Hcon ? ? ? ?] Hle. split; try done. intros u now Hnow. apply Hcon. lia. Qed.

Lemma log_state_agree h T T' clock st i old segs :
  log_state h T clock st i old segs →
  contents T' (vs_current (es_versions st)) = contents T (vs_current (es_versions st)) → log_state h T' clock st i old segs.
Proof. intros [] Heq. split; try done; by rewrite Heq. Qed.

(** ** Changes *)

Lemma all_batches_app a b : all_batches (a ++ b) = all_batches a ++ all_batches b.
Proof. unfold all_batches. by rewrite map_app, concat_app. Qed.

Lemma all_synced_app a b : all_synced (a ++ b) = all_synced a ++ all_synced b.
Proof. unfold all_synced. by rewrite map_app, concat_app. Qed.

Lemma active_last h T clock st i old segs :
  log_state h T clock st i old segs →
  ∃ l s, segs = l ++ [s] ∧ sg_number s = mm_wal_number (es_mutable st) ∧ map sg_number l = map im_wal_number (es_immutables st) ∧
    replay_table (sg_batches s) = Ok (mm_table (es_mutable st)) ∧
    Forall2 (λ t b, replay_table b = Ok t) (map im_table (es_immutables st)) (map sg_batches l) ∧
    Forall2 (λ m b, fst <$> last b = Some (im_largest_sequence m)) (es_immutables st) (map sg_batches l).
Proof.
  intros Hl. pose proof (lg_numbers _ _ _ _ _ _ _ Hl) as Hn. destruct segs as [|s l _] using rev_ind; [by destruct (es_immutables st)|].
  rewrite map_app in Hn. apply app_inj_2 in Hn as [Hn [= Hs]]; [|done]. exists l, s. do 3 (split; [done|]).
  pose proof (lg_tables _ _ _ _ _ _ _ Hl) as Ht. rewrite map_app in Ht.
  apply Forall2_app_inv in Ht as [Ht Ht']; [|by rewrite !length_map, <- (length_map im_wal_number), <- Hn, length_map].
  apply Forall2_cons in Ht' as [Ht' _]. do 2 (split; [done|]). pose proof (lg_largest _ _ _ _ _ _ _ Hl) as Hg.
  rewrite map_app, take_app_length' in Hg; [done|]. by rewrite length_map, <- (length_map sg_number), Hn, length_map.
Qed.

Lemma numbered_snoc l batches b : numbered l batches → numbered l (batches ++ [(l + zlen batches + 1, b)]).
Proof.
  unfold numbered. intros H. rewrite map_app, H, zlen_app. cbn. change (zlen [_]) with 1.
  rewrite seqZ_app by (pose proof (zlen_nonneg batches); lia). f_equal. rewrite seqZ_cons by lia. cbn. f_equal. lia.
Qed.

Lemma replay_table_snoc batches t s b : replay_table batches = Ok t → replay_table (batches ++ [(s, b)]) = MemTable_apply t s b.
Proof.
  intros H. unfold replay_table in *. rewrite try_fold_app, H. cbn. by destruct (MemTable_apply t s b).
Qed.

(** The active log before and after an append. *)
Lemma log_rep_frames i w ww : log_rep i w ww → ww_frames ww = {| fw_file := wal_bytes ww; fw_offset := lw_block_offset w |}.
Proof. intros []. unfold wal_bytes. destruct (ww_frames ww). cbn in *. by rewrite lr_offset. Qed.

Lemma appended_file i i' w w' ww ww' n s q b d :
  log_rep i w ww → log_rep i' w' ww' → lw_path w = wal_name n → lw_path w' = wal_name n → sg_number s = n →
  0 ≤ fw_offset (ww_frames ww) ≤ BLOCK_BYTES →
  WalWriter_append ww q b d = Ok ww' → log_file i s → frames_hold (sg_batches s ++ [(q, b)]) (ww_frames ww') →
  log_file i' {| sg_number := n; sg_batches := sg_batches s ++ [(q, b)];
                 sg_synced := if bool_decide (d = Sync) then sg_batches s ++ [(q, b)] else sg_synced s |}.
Proof.
  intros Hr Hr' Hp Hp' <- Hoff Ha [_ (f & Hf & Hd) _ Hpre] Hfr.
  destruct (append_spec _ _ _ _ _ Hoff Ha) as (e & phys & _ & _ & Hb & _ & _ & Hsync).
  pose proof (lr_durable _ _ _ Hr) as Hd1. rewrite Hp, Hd in Hd1. injection Hd1 as Hd1.
  pose proof (lr_durable _ _ _ Hr') as Hd2. rewrite Hp' in Hd2. pose proof (lr_content _ _ _ Hr') as Hc. rewrite Hp' in Hc.
  split; cbn [sg_number sg_batches sg_synced]; [| |done|].
  - exists (ww_frames ww'). split; [done|]. rewrite <- Hp'. apply Hr'.
  - rewrite Hsync in Hd2. case_bool_decide.
    + exists (ww_frames ww'). split; [done|]. rewrite Hd2. unfold zlen. by rewrite Nat2Z.id, firstn_all.
    + exists f. split; [done|]. rewrite Hd2, Hb, take_app_le; [by rewrite <- Hd1|].
      pose proof (lr_synced _ _ _ Hr) as Hsy. unfold zlen in Hsy. lia.
  - case_bool_decide; [done|]. by apply prefix_app_r.
Qed.

Lemma log_present i i' s k :
  log_file i' s → is_Some (ci_volatile i !! wal_name k) ∧ is_Some (ci_durable i !! wal_name k) →
  (k ≠ sg_number s → same_at i i' (wal_name k)) → is_Some (ci_volatile i' !! wal_name k) ∧ is_Some (ci_durable i' !! wal_name k).
Proof.
  intros [(f & _ & Hv) (g & _ & Hd) _ _] Hk Hs. destruct (decide (k = sg_number s)) as [->|Hne].
  - rewrite Hv, Hd. eauto.
  - eapply present_same; [by apply Hs|done].
Qed.

Lemma log_state_committed h T clock st st' i i' old segs w ww ww' table b :
  let q := es_next_sequence st in
  log_state h T clock st i old segs → log_rep i (es_wal st) ww → log_rep i' w ww' →
  lw_path (es_wal st) = wal_name (mm_wal_number (es_mutable st)) → lw_path w = wal_name (mm_wal_number (es_mutable st)) →
  ww_max_batch_bytes ww = op_max_batch_bytes options →
  encoded_record_limit (op_max_batch_bytes options) = Ok (ww_max_logical_record_bytes ww) →
  WalWriter_append ww q b (op_durability options) = Ok ww' → MemTable_apply (mm_table (es_mutable st)) q b = Ok table →
  logged (q, b) → only_at (wal_name (mm_wal_number (es_mutable st))) i i' →
  es_versions st' = es_versions st → es_immutables st' = es_immutables st → es_wal st' = w →
  es_mutable st' = {| mm_table := table; mm_wal_number := mm_wal_number (es_mutable st) |} → es_next_sequence st' = q + 1 →
  es_next_file_number st' = es_next_file_number st →
  ∃ segs', log_state (h ++ [(q, b)]) T clock st' i' old segs'.
Proof.
  intros q Hl Hr Hr' Hp Hp' Hm Hlim Ha Htab Hlog Ho Hvs Him Hw Hmu Hseq Hnf.
  destruct (active_last _ _ _ _ _ _ _ Hl) as (l & s & -> & Hs & Hnl & Hst & Htl & Hgl).
  pose proof (active_range _ _ _ _ _ _ _ Hl) as Har. pose proof (lg_next _ _ _ _ _ _ _ Hl) as Hnext. fold q in Hnext.
  set (s' := {| sg_number := mm_wal_number (es_mutable st); sg_batches := sg_batches s ++ [(q, b)];
    sg_synced := if bool_decide (op_durability options = Sync) then sg_batches s ++ [(q, b)] else sg_synced s |}).
  assert (∀ k, 1 ≤ k ≤ U64_MAX → k ≠ mm_wal_number (es_mutable st) → same_at i i' (wal_name k)) as Hsame.
  { intros k Hk Hne. left. apply Ho. intros Heq. apply wal_name_inj in Heq; lia. }
  assert (all_batches (l ++ [s']) = all_batches (l ++ [s]) ++ [(q, b)]) as Hall.
  { rewrite !all_batches_app. unfold all_batches. cbn. by rewrite !app_nil_r, <- app_assoc. }
  assert (frames_hold (sg_batches s) (ww_frames ww)) as Hfr.
  { destruct (lg_active _ _ _ _ _ _ _ Hl) as (s0 & file & Hlast & Hv & Hfr). rewrite last_snoc in Hlast. injection Hlast as <-.
    rewrite (log_rep_frames _ _ _ Hr). pose proof (lr_volatile _ _ _ Hr) as Hv'. rewrite Hp, Hv in Hv'. by injection Hv' as <-. }
  pose proof (frames_append _ _ _ _ _ _ Hfr Hm Hlim Ha) as Hfr'.
  pose proof (lg_files _ _ _ _ _ _ _ Hl) as Hfiles. apply Forall_app in Hfiles as [Hfl Hfs]. apply Forall_cons in Hfs as [Hfs _].
  pose proof (appended_file _ _ _ _ _ _ _ _ _ _ _ Hr Hr' Hp Hp' Hs (lr_block _ _ _ Hr) Ha Hfs Hfr') as Hfs'. fold s' in Hfs'.
  assert (map sg_number (l ++ [s']) = map sg_number (l ++ [s])) as Hnum by (by rewrite !map_app; cbn; rewrite Hs).
  assert (all_synced (l ++ [s]) `prefix_of` all_synced (l ++ [s'])) as Hpre.
  { rewrite !all_synced_app. apply prefix_app. unfold all_synced. cbn. rewrite !app_nil_r. case_bool_decide; [|done].
    apply prefix_app_r, (lf_prefix _ _ Hfs). }
  pose proof (prefix_length _ _ Hpre) as Hsy. apply Nat2Z.inj_le in Hsy. fold (zlen (all_synced (l ++ [s]))) (zlen (all_synced (l ++ [s']))) in Hsy.
  assert (∀ a, a ∈ l → a ∈ l ++ [s]) as Hin by (intros a Ha'; apply elem_of_app; by left).
  assert (oldest_required_wal st' = oldest_required_wal st) as Hold by (unfold oldest_required_wal, oldest_of; by rewrite Him, Hmu).
  exists (l ++ [s']). destruct Hl. split; rewrite ?Hvs, ?Him, ?Hmu, ?Hseq, ?Hall, ?Hnum; cbn [mm_table mm_wal_number]; try done.
  - apply Forall_app in lg_bounds0 as [H1 H2]. apply Forall_app. split; [done|]. constructor; [cbn; lia|constructor].
  - apply Forall_app. split; [|by constructor]. apply Forall_forall. intros a Hal. eapply log_file_same; [by apply (elem_of_Forall _ _ _ Hfl)|].
    pose proof (elem_of_Forall _ _ _ lg_bounds0 (Hin a Hal)) as Hb. cbn in Hb. apply Hsame; [lia|]. rewrite <- Hs.
    rewrite map_app in lg_order0. apply StronglySorted_app in lg_order0 as (H & _).
    specialize (H (sg_number a) (sg_number s) ltac:(by apply list_elem_of_fmap_2) ltac:(by left)). lia.
  - exists s', (wal_bytes ww'). rewrite last_snoc, Hmu, Hw. split; [done|]. split; [cbn; rewrite <- Hp'; apply Hr'|].
    by rewrite <- (log_rep_frames _ _ _ Hr').
  - apply StronglySorted_app in lg_cut0 as (Hc1 & Hc2 & _). apply StronglySorted_app. split; [|split; [done|by repeat constructor]].
    intros a x Hal ->%list_elem_of_singleton. cbn. case_bool_decide as Hd; [right|].
    + specialize (lg_durability0 Hd). by apply (elem_of_Forall _ _ _ lg_durability0), Hin.
    + apply (Hc1 a s); [done|by left].
  - intros Hd. specialize (lg_durability0 Hd). apply Forall_app in lg_durability0 as [H1 _]. apply Forall_app. split; [done|].
    constructor; [|constructor]. unfold sg_full, s'. cbn. by rewrite bool_decide_true.
  - by rewrite lg_history0, app_assoc.
  - rewrite Hnext. by apply numbered_snoc.
  - rewrite zlen_app. change (zlen [_]) with 1. lia.
  - apply Forall_app. split; [done|by constructor].
  - rewrite map_app. apply Forall2_app; [done|]. constructor; [|constructor]. cbn. by rewrite (replay_table_snoc _ _ _ _ Hst).
  - rewrite map_app, take_app_length'; [done|]. by rewrite length_map, <- (length_map sg_number), Hnl, length_map.
  - destruct lg_counters0. split; rewrite ?Hold, ?Hvs, ?Hmu, ?Hnf; try done; [|lia].
    eapply (log_present i); [exact Hfs'|exact ck_file0|]. cbn. intros Hne. apply Hsame; [|done].
    lia.
  - intros k Hk Hout. rewrite Hold in Hk. eapply idle_same; [|by apply lg_unowned0]. apply Hsame; [lia|]. intros ->. apply Hout.
    rewrite map_app, elem_of_app, <- Hs. right. by left.
  - etrans; [exact lg_acknowledged0|]. by apply prefix_app.
Qed.

(** *** Synchronization *)

Definition synced_below (n : Z) (segs : list Segment) : Prop := ∀ s, s ∈ segs → sg_number s < n → sg_full s.

(** The file is synchronized. *)
Definition file_synced (i : CrashImage) (p : name) (b : bytes) : Prop :=
  ci_volatile i !! p = Some b ∧ ci_durable i !! p = Some b ∧ (ci_synced i !! p = None ∨ ci_synced i !! p = ci_durable i !! p).

Lemma synced_file i i' s b :
  log_file i s → ci_volatile i !! wal_name (sg_number s) = Some b → file_synced i' (wal_name (sg_number s)) b →
  log_file i' {| sg_number := sg_number s; sg_batches := sg_batches s; sg_synced := sg_batches s |}.
Proof.
  intros [(f & Hf & Hv) _ _ _] Hb (H1 & H2 & H3). rewrite Hb in Hv. injection Hv as ->.
  split; cbn; [by exists f|by exists f|done|done].
Qed.

(** A log that is not synchronized is the last one with something synchronized. *)
Lemma synced_extend s segs :
  sg_synced s `prefix_of` sg_batches s → Forall (λ b, sg_synced b = [] ∨ sg_full s) segs →
  sg_synced s ++ all_synced segs `prefix_of` sg_batches s ++ all_synced segs.
Proof.
  intros Hp Hc. destruct (decide (sg_synced s = sg_batches s)) as [->|Hne]; [done|].
  assert (all_synced segs = []) as ->; [|by rewrite !app_nil_r].
  induction Hc as [|b segs [Hb|Hb] _ IH]; [done| |done]. change (sg_synced b ++ all_synced segs = []). by rewrite Hb.
Qed.

Lemma log_state_synced h T clock st i i' old segs s b :
  log_state h T clock st i old segs → s ∈ segs → synced_below (sg_number s) segs →
  ci_volatile i !! wal_name (sg_number s) = Some b → file_synced i' (wal_name (sg_number s)) b →
  only_at (wal_name (sg_number s)) i i' →
  ∃ segs', log_state h T clock st i' old segs' ∧ synced_below (sg_number s + 1) segs'.
Proof.
  intros Hl Hin Hbelow Hb Hview Ho. apply list_elem_of_split in Hin as (l1 & l2 & ->).
  set (s' := {| sg_number := sg_number s; sg_batches := sg_batches s; sg_synced := sg_batches s |}).
  assert (∀ k, 1 ≤ k ≤ U64_MAX → k ≠ sg_number s → same_at i i' (wal_name k)) as Hsame.
  { pose proof (segment_range _ _ _ _ _ _ _ s Hl ltac:(apply elem_of_app; right; by left)) as Hr.
    pose proof (active_range _ _ _ _ _ _ _ Hl).
    intros k Hk Hne. left. apply Ho. intros Heq. apply wal_name_inj in Heq; lia. }
  pose proof (active_range _ _ _ _ _ _ _ Hl) as Har.
  assert (∀ a, a ∈ l1 ++ s' :: l2 ↔ a = s' ∨ a ∈ l1 ++ l2) as Hmem.
  { intros a. rewrite !elem_of_app, elem_of_cons. tauto. }
  assert (∀ a, a ∈ l1 ++ l2 → a ∈ l1 ++ s :: l2) as Hmem'.
  { intros a. rewrite !elem_of_app, elem_of_cons. tauto. }
  assert (∀ a, a ∈ l1 → sg_full a) as Hfull.
  { pose proof (lg_order _ _ _ _ _ _ _ Hl) as Hs. rewrite map_app in Hs. apply StronglySorted_app in Hs as (Hs & _).
    intros a Ha. apply Hbelow; [apply Hmem', elem_of_app; by left|]. apply Hs; [by apply list_elem_of_fmap_2|by left]. }
  assert (∀ a, a ∈ l1 ++ l2 → sg_number a ≠ sg_number s ∧ 1 ≤ sg_number a ≤ U64_MAX) as Hne.
  { pose proof (lg_order _ _ _ _ _ _ _ Hl) as Hs. rewrite map_app in Hs. apply StronglySorted_app in Hs as (Hs1 & _ & Hs2).
    cbn in Hs2. apply StronglySorted_inv in Hs2 as [_ Hs2]. rewrite Forall_forall in Hs2.
    intros a Ha. split; [|by apply (elem_of_Forall _ _ _ (lg_bounds _ _ _ _ _ _ _ Hl)), Hmem'].
    apply elem_of_app in Ha as [Ha|Ha].
    - specialize (Hs1 (sg_number a) (sg_number s) ltac:(by apply list_elem_of_fmap_2) ltac:(by left)). lia.
    - specialize (Hs2 (sg_number a) ltac:(by apply list_elem_of_fmap_2)). lia. }
  assert (log_file i s) as Hs by (apply (elem_of_Forall _ _ _ (lg_files _ _ _ _ _ _ _ Hl)), elem_of_app; right; by left).
  assert (log_file i' s') as Hs' by (by eapply synced_file).
  assert (all_synced (l1 ++ s :: l2) `prefix_of` all_synced (l1 ++ s' :: l2)) as Hpre.
  { rewrite !all_synced_app. apply prefix_app. pose proof (lg_cut _ _ _ _ _ _ _ Hl) as Hc. apply StronglySorted_app in Hc as (_ & _ & Hc).
    apply StronglySorted_inv in Hc as [_ Hc]. exact (synced_extend s l2 (lf_prefix _ _ Hs) Hc). }
  pose proof (prefix_length _ _ Hpre) as Hsy. apply Nat2Z.inj_le in Hsy.
  fold (zlen (all_synced (l1 ++ s :: l2))) (zlen (all_synced (l1 ++ s' :: l2))) in Hsy.
  assert (all_batches (l1 ++ s' :: l2) = all_batches (l1 ++ s :: l2)) as Hall by (by rewrite !all_batches_app).
  assert (map sg_number (l1 ++ s' :: l2) = map sg_number (l1 ++ s :: l2)) as Hnum by (by rewrite !map_app).
  assert (map sg_batches (l1 ++ s' :: l2) = map sg_batches (l1 ++ s :: l2)) as Hbat by (by rewrite !map_app).
  assert (∀ k, 1 ≤ k ≤ U64_MAX → ci_volatile i' !! wal_name k = ci_volatile i !! wal_name k) as Hvol.
  { intros k Hk. destruct (decide (k = sg_number s)) as [->|Hk']; [destruct Hview as (-> & _); congruence|].
    by destruct (same_at_content _ _ _ (Hsame k Hk Hk')). }
  exists (l1 ++ s' :: l2). split.
  - destruct Hl. split; rewrite ?Hall, ?Hnum, ?Hbat; try done.
    + apply Forall_forall. intros a [->|Ha]%Hmem; [|by apply Hne].
      cbn. by apply (elem_of_Forall _ _ s lg_bounds0), elem_of_app; right; left.
    + apply Forall_forall. intros a [->|Ha]%Hmem; [done|]. eapply log_file_same; [apply (elem_of_Forall _ _ _ lg_files0); by apply Hmem'|].
      apply Hsame; by apply Hne.
    + destruct lg_active0 as (s0 & file & Hlast & Hfile & Hfr). rewrite <- (Hvol (mm_wal_number (es_mutable st)) ltac:(lia)) in Hfile.
      destruct l2 as [|x l2 _] using rev_ind.
      * rewrite last_snoc in Hlast. injection Hlast as <-. exists s', file. by rewrite last_snoc.
      * change (s :: l2 ++ [x]) with ((s :: l2) ++ [x]) in Hlast. rewrite app_assoc, last_snoc in Hlast. injection Hlast as <-.
        exists x, file. change (s' :: l2 ++ [x]) with ((s' :: l2) ++ [x]). by rewrite app_assoc, last_snoc.
    + apply StronglySorted_app in lg_cut0 as (_ & Hc1 & Hc2). apply StronglySorted_inv in Hc2 as [Hc2 _].
      apply StronglySorted_app. split; [intros a x Ha _; right; by apply Hfull|]. split; [done|].
      constructor; [done|]. apply Forall_forall. intros x _. by right.
    + intros Hd. specialize (lg_durability0 Hd). apply Forall_forall. intros a [->|Ha]%Hmem; [done|].
      by apply (elem_of_Forall _ _ _ lg_durability0), Hmem'.
    + destruct lg_counters0. split; try done.
      * eapply (log_present i); [exact Hs'|done|]. intros Hk. apply Hsame; [lia|done].
      * lia.
    + intros k Hk Hout. eapply idle_same; [|by apply lg_unowned0]. apply Hsame; [lia|]. intros ->. apply Hout.
      rewrite map_app. apply elem_of_app. right. by left.
    + etrans; [exact lg_acknowledged0|]. by apply prefix_app.
  - intros a [->|Ha]%Hmem Hlt; [done|]. destruct (Hne a Ha). apply Hbelow; [by apply Hmem'|lia].
Qed.

(** *** What the replay of a log gives *)

Lemma numbered_app l a b : numbered l (a ++ b) ↔ numbered l a ∧ numbered (l + zlen a) b.
Proof.
  unfold numbered. rewrite map_app, zlen_app, seqZ_app by (pose proof (zlen_nonneg a); pose proof (zlen_nonneg b); lia).
  replace (l + 1 + zlen a) with (l + zlen a + 1) by lia. split; [|by intros [-> ->]].
  apply app_inj_1. rewrite length_map, length_seqZ. unfold zlen. lia.
Qed.

Lemma numbered_last l batches : numbered l batches → batches ≠ [] → fst <$> last batches = Some (l + zlen batches).
Proof.
  intros H Hne. destruct batches as [|x batches _] using rev_ind; [done|]. apply numbered_app in H as [_ H].
  unfold numbered in H. cbn in H. injection H as H. rewrite last_snoc, zlen_app. change (zlen [x]) with 1. cbn. f_equal. lia.
Qed.

Lemma numbered_range l batches x : numbered l batches → x ∈ batches → l < x.1 ≤ l + zlen batches.
Proof.
  intros H Hx. assert (x.1 ∈ seqZ (l + 1) (zlen batches)) as Hin by (rewrite <- H; by apply list_elem_of_fmap_2).
  apply elem_of_seqZ in Hin. lia.
Qed.

Lemma replay_reads l batches t old es u now :
  numbered l batches → Forall logged batches → replay_table batches = Ok t → hist_wf (old ++ batches) →
  Forall (λ x, x.1 ≤ l) old → (∀ e, e ∈ es → e_seq e ≤ l) → reads u l now es (hist_value old u l now) →
  (entries_sorted (mt_entries t) ∧ Forall entry_wf (mt_entries t)) ∧ (∀ e, e ∈ mt_entries t → l < e_seq e ≤ l + zlen batches) ∧
  reads u (l + zlen batches) now (mt_entries t ++ es) (hist_value (old ++ batches) u (l + zlen batches) now).
Proof.
  intros Hn Hv. revert t. induction batches as [|[s b] batches IH] using rev_ind; intros t Ht Hwf Hold Hes Hr.
  { injection Ht as <-. split; [split; constructor|]. split; [by intros e He%elem_of_nil|]. cbn. by rewrite app_nil_r, Z.add_0_r. }
  apply numbered_app in Hn as [Hn Hs]. apply Forall_app in Hv as [Hv Hb]. apply Forall_cons in Hb as [(Hseq & Hb & _) _].
  unfold numbered in Hs. cbn in Hs, Hseq, Hb. injection Hs as Hs. rewrite app_assoc in Hwf |- *.
  destruct (replay_table batches) as [t0|] eqn:E; [|unfold replay_table in *; rewrite try_fold_app, E in Ht; done].
  rewrite (replay_table_snoc _ _ _ _ E) in Ht.
  assert (hist_wf (old ++ batches)) as Hwf0.
  { destruct Hwf as [H1 H2]. apply StronglySorted_app_1_l in H1. by apply Forall_app in H2 as [H2 _]. }
  destruct (IH Hn Hv t0 eq_refl Hwf0 Hold Hes Hr) as ((Hts & Htw) & Hrange & Hr0).
  destruct (apply_entries t0 s b Hts Htw) as (t' & Ht' & Hs' & Hw' & Hp); [| |apply Hb|].
  { apply Forall_forall. intros e He. specialize (Hrange e He). lia. }
  { done. }
  rewrite Ht in Ht'. injection Ht' as <-. rewrite zlen_app. change (zlen [_]) with 1. split; [done|].
  pose proof (batch_seqs s b Hseq) as Hbs. pose proof (zlen_nonneg batches) as H0. split.
  - intros e. rewrite Hp, elem_of_app. intros [He|He]; [rewrite (elem_of_Forall _ _ _ Hbs He); lia|specialize (Hrange e He); lia].
  - replace (l + (zlen batches + 1)) with s by lia.
    apply (reads_perm _ _ _ (batch_entries s b ++ mt_entries t0 ++ es)); [by rewrite Hp, app_assoc|].
    apply (reads_committed _ _ (l + zlen batches)); [done| |lia| |done].
    + apply Forall_app. split; [eapply Forall_impl; [exact Hold|]; intros x Hx; cbn in Hx; lia|].
      apply Forall_forall. intros x Hx. by apply (numbered_range l batches).
    + intros e [He|He]%elem_of_app; [by apply Hrange|specialize (Hes e He); lia].
Qed.

(** *** Rotation *)

Lemma oldest_snoc immutables m mutable :
  im_wal_number m ≤ mm_wal_number mutable →
  oldest_of (immutables ++ [m]) mutable = foldr Z.min (im_wal_number m) (map im_wal_number immutables).
Proof.
  intros Hle. unfold oldest_of. rewrite map_app, foldr_app. cbn. by rewrite Z.min_l by lia.
Qed.

Lemma log_state_switched h T clock st st' i old segs n m limit :
  log_state h T clock st i old segs → mm_wal_number (es_mutable st) < n ≤ cn_active_log_number (vs_counters (es_versions st)) →
  mt_entries (mm_table (es_mutable st)) ≠ [] → encoded_record_limit (op_max_batch_bytes options) = Ok limit →
  ci_volatile i !! wal_name n = Some [] → ci_durable i !! wal_name n = Some [] →
  ci_synced i !! wal_name n = None ∨ ci_synced i !! wal_name n = ci_durable i !! wal_name n →
  im_table m = mm_table (es_mutable st) → im_wal_number m = mm_wal_number (es_mutable st) →
  im_largest_sequence m = es_next_sequence st - 1 →
  es_versions st' = es_versions st → es_immutables st' = es_immutables st ++ [m] →
  es_mutable st' = {| mm_table := MemTable_default; mm_wal_number := n |} → lw_block_offset (es_wal st') = 0 →
  es_next_sequence st' = es_next_sequence st → es_next_file_number st' = es_next_file_number st →
  ∃ segs', log_state h T clock st' i old segs'.
Proof.
  intros Hl Hn Hne Hlim Hv Hd Hsy Hmt Hmw Hms Hvs Him Hmu Hoff Hseq Hnf.
  destruct (active_last _ _ _ _ _ _ _ Hl) as (l & s & -> & Hs & Hnl & Hst & Htl & Hgl).
  pose proof (active_range _ _ _ _ _ _ _ Hl) as Har. pose proof (frames_nil _ Hlim) as Hnil.
  set (s' := {| sg_number := n; sg_batches := []; sg_synced := [] |}).
  assert (sg_batches s ≠ []) as Hsb by (intros Hb; rewrite Hb in Hst; injection Hst as Hst; by rewrite <- Hst in Hne).
  assert (oldest_required_wal st' = oldest_required_wal st) as Hold.
  { unfold oldest_required_wal. rewrite Him, Hmu, oldest_snoc by (cbn; lia). unfold oldest_of. by rewrite Hmw. }
  assert (∀ a, a ∈ l ++ [s] → sg_number a < n) as Hless.
  { pose proof (lg_order _ _ _ _ _ _ _ Hl) as Hso. rewrite map_app in Hso. apply StronglySorted_app in Hso as (Hso & _).
    intros a [Ha|Ha%list_elem_of_singleton]%elem_of_app; [|subst; lia].
    specialize (Hso (sg_number a) (sg_number s) ltac:(by apply list_elem_of_fmap_2) ltac:(by left)). lia. }
  assert (all_batches ((l ++ [s]) ++ [s']) = all_batches (l ++ [s])) as Hall by (rewrite all_batches_app; apply app_nil_r).
  assert (all_synced ((l ++ [s]) ++ [s']) = all_synced (l ++ [s])) as Hals by (rewrite all_synced_app; apply app_nil_r).
  exists ((l ++ [s]) ++ [s']). destruct Hl. destruct lg_counters0.
  split; rewrite ?Hvs, ?Him, ?Hmu, ?Hseq, ?Hall; cbn [mm_table mm_wal_number]; try done.
  - by rewrite map_app, lg_numbers0, map_app; cbn; rewrite Hmw.
  - rewrite map_app. apply StronglySorted_app. split; [|split; [done|repeat constructor]].
    intros x y (a & -> & Ha)%list_elem_of_fmap ->%list_elem_of_singleton. by apply Hless.
  - apply Forall_app. split; [done|]. constructor; [cbn; lia|constructor].
  - apply Forall_app. split; [done|]. constructor; [|constructor]. split; cbn; [|by exists {| fw_file := []; fw_offset := 0 |}|done|done].
    by exists {| fw_file := []; fw_offset := 0 |}.
  - exists s', []. rewrite last_snoc, Hmu, Hoff. done.
  - apply StronglySorted_app. split; [|split; [done|repeat constructor]]. intros a x _ ->%list_elem_of_singleton. by left.
  - intros Hdur. apply Forall_app. split; [by apply lg_durability0|by repeat constructor].
  - rewrite map_app. cbn. rewrite Hmt. rewrite map_app. cbn. apply Forall2_app; [done|by repeat constructor].
  - rewrite length_app. cbn. rewrite !map_app, take_app_length'.
    2: { rewrite length_app, !length_map. cbn. f_equal. by rewrite <- (length_map sg_number), Hnl, length_map. }
    apply Forall2_app; [done|]. constructor; [|constructor]. rewrite Hms, lg_next0. rewrite all_batches_app in lg_sequences0 |- *.
    apply numbered_app in lg_sequences0 as [_ Hsq]. unfold all_batches in Hsq at 2. cbn in Hsq. rewrite app_nil_r in Hsq.
    rewrite (numbered_last _ _ Hsq Hsb). unfold all_batches at 3. cbn. rewrite app_nil_r, zlen_app. f_equal. lia.
  - split; rewrite ?Hold, ?Hvs, ?Hmu, ?Hnf, ?Hals; cbn [mm_wal_number]; try done; lia.
  - intros k Hk Hout. rewrite Hold in Hk. apply lg_unowned0; [done|]. rewrite map_app, elem_of_app in Hout. tauto.
  - by rewrite Hals.
Qed.

(** *** Flushes and compactions *)

Lemma oldest_above bound immutables mutable :
  (∀ n, n ∈ map im_wal_number immutables ++ [mm_wal_number mutable] → bound < n) → bound < oldest_of immutables mutable.
Proof.
  unfold oldest_of. induction (map im_wal_number immutables) as [|m ms IH]; cbn; intros H; [apply H; by left|].
  assert (bound < m) by (apply H; by left). enough (bound < foldr Z.min (mm_wal_number mutable) ms) by lia.
  apply IH. intros n Hn. apply H. by right.
Qed.

(** The log of the flushed memtable is not needed any more. *)
Lemma log_state_flushed h T clock st st' i i' old segs imm :
  log_state h T clock st i old segs → hist_wf h → es_immutables st = imm :: es_immutables st' →
  concat (contents T (vs_current (es_versions st'))) =
    mt_entries (im_table imm) ++ concat (contents T (vs_current (es_versions st))) →
  cn_last_sequence (vs_counters (es_versions st')) = im_largest_sequence imm →
  es_mutable st' = es_mutable st → lw_block_offset (es_wal st') = lw_block_offset (es_wal st) →
  es_next_sequence st' = es_next_sequence st → (∀ k, oldest_required_wal st ≤ k ≤ U64_MAX → same_at i i' (wal_name k)) →
  (∀ segs', 0 ≤ cn_wal_sequence (vs_counters (es_versions st)) ≤ im_largest_sequence imm + zlen (all_synced segs') →
    counters_ok (vs_counters (es_versions st')) st' i' segs') →
  logs_ok h T clock st' i'.
Proof.
  intros Hl Hwf Him Hcon Hlast Hmu Hoff Hseq Hsame Hck. pose proof (lg_numbers _ _ _ _ _ _ _ Hl) as Hnum. rewrite Him in Hnum.
  destruct segs as [|s rest]; [done|]. cbn in Hnum. injection Hnum as Hs Hrest.
  pose proof (lg_order _ _ _ _ _ _ _ Hl) as Hord. cbn in Hord. apply StronglySorted_inv in Hord as [Hord Hsl]. rewrite Forall_forall in Hsl.
  pose proof (lg_tables _ _ _ _ _ _ _ Hl) as Ht. rewrite Him in Ht. cbn in Ht. apply Forall2_cons in Ht as [Ht Htl].
  pose proof (lg_largest _ _ _ _ _ _ _ Hl) as Hg. rewrite Him in Hg. cbn in Hg. apply Forall2_cons in Hg as [Hg Hgl].
  pose proof (lg_sequences _ _ _ _ _ _ _ Hl) as Hsq. change (all_batches (s :: rest)) with (sg_batches s ++ all_batches rest) in Hsq.
  apply numbered_app in Hsq as [Hsq1 Hsq2]. set (l := cn_last_sequence (vs_counters (es_versions st))) in *.
  assert (sg_batches s ≠ []) as Hsb by (intros Hb; by rewrite Hb in Hg).
  assert (im_largest_sequence imm = l + zlen (sg_batches s)) as Hlarge.
  { rewrite (numbered_last _ _ Hsq1 Hsb) in Hg. by injection Hg as <-. }
  pose proof (lg_valid _ _ _ _ _ _ _ Hl) as Hval. change (all_batches (s :: rest)) with (sg_batches s ++ all_batches rest) in Hval.
  apply Forall_app in Hval as [Hval1 Hval2].
  pose proof (lg_history _ _ _ _ _ _ _ Hl) as Hh. change (all_batches (s :: rest)) with (sg_batches s ++ all_batches rest) in Hh.
  rewrite app_assoc in Hh.
  assert (hist_wf (old ++ sg_batches s)) as Hwf1.
  { rewrite Hh in Hwf. destruct Hwf as [H1 H2]. apply StronglySorted_app_1_l in H1. by apply Forall_app in H2 as [H2 _]. }
  assert (oldest_required_wal st < oldest_required_wal st' ∧ sg_number s < oldest_required_wal st') as [Hold Hold'].
  { assert (sg_number s < oldest_required_wal st') as H.
    { apply oldest_above. rewrite Hmu, <- Hrest. exact Hsl. }
    split; [|done]. enough (oldest_required_wal st ≤ sg_number s) by lia. eapply segment_range; [exact Hl|by left]. }
  pose proof (λ u now Hc, replay_reads l (sg_batches s) (im_table imm) old _ u now Hsq1 Hval1 Ht Hwf1
    (lg_old _ _ _ _ _ _ _ Hl) (lg_covered _ _ _ _ _ _ _ Hl) (lg_contents _ _ _ _ _ _ _ Hl u now Hc)) as Hrr.
  exists (old ++ sg_batches s), rest.
  pose proof (lg_files _ _ _ _ _ _ _ Hl) as Hf. apply Forall_cons in Hf as [Hfs Hf].
  pose proof (lg_bounds _ _ _ _ _ _ _ Hl) as Hb. apply Forall_cons in Hb as [_ Hb].
  split; rewrite ?Hlast, ?Hmu, ?Hseq, ?Hcon; rewrite ?Hlarge; try done.
  - apply Forall_forall. intros a Ha. eapply log_file_same; [by apply (elem_of_Forall _ _ _ Hf)|]. apply Hsame.
    eapply segment_range; [exact Hl|by right].
  - destruct (lg_active _ _ _ _ _ _ _ Hl) as (x & file & Hx & Hv & Hfr). exists x, file. rewrite Hoff, Hmu.
    pose proof (active_range _ _ _ _ _ _ _ Hl) as Har.
    destruct (same_at_content _ _ _ (Hsame (mm_wal_number (es_mutable st)) ltac:(lia))) as [-> _].
    split; [|done]. destruct rest; [by destruct (es_immutables st')|done].
  - pose proof (lg_cut _ _ _ _ _ _ _ Hl) as Hc. by apply StronglySorted_inv in Hc as [Hc _].
  - intros Hd. pose proof (lg_durability _ _ _ _ _ _ _ Hl Hd) as H. by apply Forall_cons in H as [_ H].
  - apply Forall_app. split; [eapply Forall_impl; [apply (lg_old _ _ _ _ _ _ _ Hl)|]; intros x Hx; cbn in Hx; fold l in Hx; pose proof (zlen_nonneg (sg_batches s)); lia|].
    apply Forall_forall. intros x Hx. by apply (numbered_range l (sg_batches s)).
  - pose proof (lg_last _ _ _ _ _ _ _ Hl) as H0. fold l in H0. pose proof (zlen_nonneg (sg_batches s)). lia.
  - rewrite (lg_next _ _ _ _ _ _ _ Hl). change (all_batches (s :: rest)) with (sg_batches s ++ all_batches rest). rewrite zlen_app. fold l. lia.
  - intros u now Hc. by apply Hrr.
  - intros e [He|He]%elem_of_app.
    + destruct (Hrr [] (Z.max clock 0) ltac:(lia)) as (_ & H & _). by apply H.
    + pose proof (lg_covered _ _ _ _ _ _ _ Hl e He). fold l in H. pose proof (zlen_nonneg (sg_batches s)). lia.
  - apply Hck. destruct (lg_counters _ _ _ _ _ _ _ Hl) as [_ _ _ Hw _ _]. rewrite Hlarge.
    change (all_synced (s :: rest)) with (sg_synced s ++ all_synced rest) in Hw. rewrite zlen_app in Hw. fold l in Hw.
    pose proof (prefix_length _ _ (lf_prefix _ _ Hfs)). unfold zlen in *. lia.
  - intros k Hk Hout. eapply idle_same; [apply Hsame; lia|]. eapply (lg_unowned _ _ _ _ _ _ _ Hl); [lia|].
    cbn. rewrite elem_of_cons. intros [->|?]; [lia|done].
  - etrans; [apply (lg_acknowledged _ _ _ _ _ _ _ Hl)|]. rewrite <- app_assoc. apply prefix_app.
    pose proof (lg_cut _ _ _ _ _ _ _ Hl) as Hc. apply StronglySorted_inv in Hc as [_ Hc].
    apply (synced_extend s rest (lf_prefix _ _ Hfs) Hc).
Qed.

(** The tables have been replaced by others that read the same. *)
Lemma log_state_compacted h T clock clock' st st' i i' old segs :
  log_state h T clock st i old segs → clock ≤ clock' →
  cn_last_sequence (vs_counters (es_versions st')) = cn_last_sequence (vs_counters (es_versions st)) →
  es_mutable st' = es_mutable st → es_immutables st' = es_immutables st →
  lw_block_offset (es_wal st') = lw_block_offset (es_wal st) → es_next_sequence st' = es_next_sequence st →
  (∀ k, oldest_required_wal st ≤ k ≤ U64_MAX → same_at i i' (wal_name k)) →
  counters_ok (vs_counters (es_versions st')) st' i' segs →
  (∀ e, e ∈ concat (contents T (vs_current (es_versions st'))) → e_seq e ≤ cn_last_sequence (vs_counters (es_versions st))) →
  (∀ u now o, clock' ≤ now → reads u (cn_last_sequence (vs_counters (es_versions st))) now
      (concat (contents T (vs_current (es_versions st)))) o →
    reads u (cn_last_sequence (vs_counters (es_versions st))) now (concat (contents T (vs_current (es_versions st')))) o) →
  log_state h T clock' st' i' old segs.
Proof.
  intros Hl Hclock Hc Hm Hi Hw Hs Hsame Hck Hcov Hr. pose proof (lg_numbers _ _ _ _ _ _ _ Hl) as Hnum.
  assert (oldest_required_wal st' = oldest_required_wal st) as Ho by (unfold oldest_required_wal; by rewrite Hm, Hi).
  pose proof (active_range _ _ _ _ _ _ _ Hl) as Har.
  assert (Forall (log_file i') segs) as Hf.
  { apply Forall_forall. intros s Hin. eapply log_file_same; [by apply (elem_of_Forall _ _ _ (lg_files _ _ _ _ _ _ _ Hl))|].
    apply Hsame. by eapply segment_range. }
  destruct Hl as [? ? ? _ (s & file & Hlast & Hfile & Hfr) ? ? ? ? ? ? ? ? ? ? Hcon ? _ Hu ?].
  split; rewrite ?Hc, ?Hm, ?Hi, ?Hs; try done.
  - exists s, file. split; [done|]. split; [|by rewrite Hw]. rewrite Hm.
    by destruct (same_at_content _ _ _ (Hsame (mm_wal_number (es_mutable st)) ltac:(lia))) as [-> _].
  - intros u now Hnow. apply Hr; [done|]. apply Hcon. lia.
  - intros k Hk Hout. rewrite Ho in Hk. eapply idle_same; [by apply Hsame|]. by apply Hu.
Qed.

(** ** The logs as a whole *)

Lemma logs_same h T clock st st' i i' :
  logs_ok h T clock st i → vs_counters (es_versions st') = vs_counters (es_versions st) →
  vs_current (es_versions st') = vs_current (es_versions st) → es_mutable st' = es_mutable st →
  es_immutables st' = es_immutables st → es_wal st' = es_wal st →
  es_next_sequence st' = es_next_sequence st → es_next_file_number st ≤ es_next_file_number st' ≤ U64_MAX →
  (∀ k, oldest_required_wal st ≤ k ≤ U64_MAX → same_at i i' (wal_name k)) → logs_ok h T clock st' i'.
Proof.
  intros (old & segs & Hl) Hc Hv Hm Hi Hw Hs Hn Hsame. exists old, segs. eapply log_state_same; [exact Hl|try done..]. by rewrite Hw.
Qed.

Lemma logs_next h T clock st i : logs_ok h T clock st i → es_next_file_number st ≤ U64_MAX.
Proof. intros (old & segs & Hl). by destruct (ck_next _ _ _ _ (lg_counters _ _ _ _ _ _ _ Hl)). Qed.

(** The image is the same, and so is what the logs depend on. *)
Lemma logs_fields h T clock st st' i :
  logs_ok h T clock st i → es_versions st' = es_versions st → es_mutable st' = es_mutable st →
  es_immutables st' = es_immutables st → es_wal st' = es_wal st →
  es_next_sequence st' = es_next_sequence st → es_next_file_number st' = es_next_file_number st → logs_ok h T clock st' i.
Proof.
  intros Hl Hv Hm Hi Hw Hs Hn. pose proof (logs_next _ _ _ _ _ Hl).
  eapply logs_same; [exact Hl|by rewrite Hv..|done|done|done|done|lia|]. intros k _. apply same_at_refl.
Qed.

Lemma logs_image h T clock st i i' :
  logs_ok h T clock st i → (∀ k, oldest_required_wal st ≤ k ≤ U64_MAX → same_at i i' (wal_name k)) → logs_ok h T clock st i'.
Proof. intros Hl. pose proof (logs_next _ _ _ _ _ Hl). intros Hs. eapply logs_same; [exact Hl|done..|lia|done]. Qed.

(** A log has been created that nothing refers to yet. *)
Lemma logs_new h T clock st i i' :
  logs_ok h T clock st i → let n := es_next_file_number st in
  (∀ p, p ≠ wal_name n → same_at i i' p) → idle i' (wal_name n) → logs_ok h T clock st i'.
Proof.
  intros (old & segs & Hl) n Hsame Hidle. exists old, segs. destruct (lg_counters _ _ _ _ _ _ _ Hl).
  pose proof (active_range _ _ _ _ _ _ _ Hl) as Har.
  assert (∀ k, 1 ≤ k ≤ U64_MAX → k ≠ n → same_at i i' (wal_name k)) as Hw.
  { intros k Hk Hne. apply Hsame. intros Heq. apply wal_name_inj in Heq; lia. }
  eapply log_state_counters; [exact Hl|done..| |].
  - intros k Hk. destruct (decide (k = n)) as [->|Hne]; [right|left; apply Hw; [lia|done]]. split; [|done].
    rewrite (lg_numbers _ _ _ _ _ _ _ Hl). intros Hin.
    assert (n ≤ mm_wal_number (es_mutable st)); [|lia]. pose proof (lg_order _ _ _ _ _ _ _ Hl) as Hord.
    rewrite (lg_numbers _ _ _ _ _ _ _ Hl) in Hord. apply StronglySorted_app in Hord as (Hord & _).
    apply elem_of_app in Hin as [Hin|Hin%list_elem_of_singleton]; [|lia]. specialize (Hord n _ Hin ltac:(by left)). lia.
  - split; try done. eapply present_same; [apply Hw; lia|done].
Qed.

(** An edit without files has been published. *)
Lemma logs_published h T clock st i i' vs' segs old :
  log_state h T clock st i old segs →
  vs_current vs' = vs_current (es_versions st) →
  cn_last_sequence (vs_counters vs') = cn_last_sequence (vs_counters (es_versions st)) →
  (∀ k, oldest_required_wal st ≤ k ≤ U64_MAX → same_at i i' (wal_name k)) →
  counters_ok (vs_counters vs') (publish_versions vs' st) i' segs →
  log_state h T clock (publish_versions vs' st) i' old segs.
Proof. intros Hl Hv Hc Hs Hck. eapply log_state_counters; [exact Hl|done..|by left; apply Hs|done]. Qed.

(** Every log below a number, and every log, is synchronized. *)
Definition logs_upto (n : Z) (h : history) (T : Z → list entry) (clock : Z) (st : WriteState) (i : CrashImage) : Prop :=
  ∃ old segs, log_state h T clock st i old segs ∧ synced_below n segs.

Definition logs_synced (h : history) (T : Z → list entry) (clock : Z) (st : WriteState) (i : CrashImage) : Prop :=
  ∃ old segs, log_state h T clock st i old segs ∧ Forall sg_full segs.

Definition owned_log (st : WriteState) (n : Z) : Prop :=
  n ∈ map im_wal_number (es_immutables st) ++ [mm_wal_number (es_mutable st)].

Lemma logs_upto_zero h T clock st i : logs_ok h T clock st i → logs_upto 0 h T clock st i.
Proof.
  intros (old & segs & Hl). exists old, segs. split; [done|]. intros s Hs Hlt.
  pose proof (elem_of_Forall _ _ _ (lg_bounds _ _ _ _ _ _ _ Hl) Hs) as Hb. cbn in Hb. lia.
Qed.

Lemma logs_upto_all m h T clock st i :
  logs_upto m h T clock st i → (∀ k, owned_log st k → k < m) → logs_synced h T clock st i.
Proof.
  intros (old & segs & Hl & Hb) Hall. exists old, segs. split; [done|]. apply Forall_forall. intros s Hs. apply Hb; [done|].
  apply Hall. unfold owned_log. rewrite <- (lg_numbers _ _ _ _ _ _ _ Hl). by apply list_elem_of_fmap_2.
Qed.

Lemma logs_upto_next m n h T clock st i :
  logs_upto m h T clock st i → (∀ k, owned_log st k → k < n → k < m) → logs_upto n h T clock st i.
Proof.
  intros (old & segs & Hl & Hb) Hall. exists old, segs. split; [done|]. intros s Hs Hlt. apply Hb; [done|].
  apply Hall; [|done]. unfold owned_log. rewrite <- (lg_numbers _ _ _ _ _ _ _ Hl). by apply list_elem_of_fmap_2.
Qed.

Lemma logs_sync n h T clock st i i' b :
  logs_upto n h T clock st i → owned_log st n → ci_volatile i !! wal_name n = Some b → file_synced i' (wal_name n) b →
  only_at (wal_name n) i i' → logs_upto (n + 1) h T clock st i'.
Proof.
  intros (old & segs & Hl & Hb) Hin Hv Hs Ho. unfold owned_log in Hin. rewrite <- (lg_numbers _ _ _ _ _ _ _ Hl) in Hin.
  apply list_elem_of_fmap in Hin as (s & -> & Hin).
  destruct (log_state_synced _ _ _ _ _ _ _ _ s b Hl Hin Hb Hv Hs Ho) as (segs' & Hl' & Hb'). by exists old, segs'.
Qed.

Lemma logs_upto_ok n h T clock st i : logs_upto n h T clock st i → logs_ok h T clock st i.
Proof. intros (old & segs & Hl & _). by exists old, segs. Qed.

(** An owned log is on the disk. *)
Lemma owned_file h T clock st i n :
  logs_ok h T clock st i → owned_log st n → is_Some (ci_volatile i !! wal_name n) ∧ is_Some (ci_durable i !! wal_name n).
Proof.
  intros (old & segs & Hl) Hin. unfold owned_log in Hin. rewrite <- (lg_numbers _ _ _ _ _ _ _ Hl) in Hin.
  apply list_elem_of_fmap in Hin as (s & -> & Hin). destruct (elem_of_Forall _ _ _ (lg_files _ _ _ _ _ _ _ Hl) Hin) as [(f & _ & ->) (g & _ & ->) _ _].
  eauto.
Qed.
End Logs.

(** ** What survives *)

Section Acknowledge.
  Context `{C : Crc32c} (options : Options).

Lemma all_full segs : Forall sg_full segs → all_synced segs = all_batches segs.
Proof. unfold all_synced, all_batches. induction 1 as [|s segs Hs _ IH]; cbn; [done|]. by rewrite Hs, IH. Qed.

Lemma synced_prefix segs : Forall (λ s, sg_synced s `prefix_of` sg_batches s) segs →
  StronglySorted (λ a b, sg_synced b = [] ∨ sg_full a) segs → all_synced segs `prefix_of` all_batches segs.
Proof.
  intros Hp. induction Hp as [|s segs Hs _ IH]; intros Hc; [done|]. apply StronglySorted_inv in Hc as [Hc Hall].
  change (sg_synced s ++ all_synced segs `prefix_of` sg_batches s ++ all_batches segs).
  etrans; [by apply synced_extend|]. by apply prefix_app, IH.
Qed.

(** Synchronized logs acknowledge everything. *)
Lemma logs_acknowledge (a : Acknowledged) h T clock st i :
  logs_synced (AK := a) options h T clock st i → logs_synced (AK := h) options h T clock st i.
Proof.
  intros (old & segs & [] & Hf). exists old, segs. split; [|done]. split; try done.
  change (h `prefix_of` old ++ all_synced segs). by rewrite all_full, <- lg_history0.
Qed.

Lemma logs_weaken (a b : Acknowledged) h T clock st i :
  (acknowledged (Acknowledged := b)) `prefix_of` (acknowledged (Acknowledged := a)) →
  logs_ok (AK := a) options h T clock st i → logs_ok (AK := b) options h T clock st i.
Proof. intros Hp (old & segs & []). exists old, segs. split; try done. by etrans. Qed.

Lemma logs_history (a : Acknowledged) h T clock st i :
  logs_ok (AK := a) options h T clock st i → (acknowledged (Acknowledged := a)) `prefix_of` h.
Proof.
  intros (old & segs & Hl). etrans; [apply (lg_acknowledged _ _ _ _ _ _ _ _ Hl)|]. rewrite (lg_history _ _ _ _ _ _ _ _ Hl).
  apply prefix_app, synced_prefix; [|apply Hl]. eapply Forall_impl; [apply (lg_files _ _ _ _ _ _ _ _ Hl)|]. by intros s [].
Qed.
End Acknowledge.
