(* ===== verification/EngineInv.v ===== *)
(** * The engine's invariant

    The state of an engine, its directory and the history of committed batches: the
    memtables and the tables of the current version hold, layer by layer, versions
    that a reader at the committed sequence or at an active snapshot resolves to the
    history's value, and the files that the state and its readers refer to are safe.
    The contents of the tables are a ghost map [T] from file numbers. *)

From Stdlib Require Import ZArith Lia Sorting.Sorted.
From stdpp Require Import base list gmap strings sorting.
From S2P Require Import Prelude Fs StateFs Checksum InternalKey Batch ValueRecord Snapshot Mvcc MemTable Iter IterFacts.
From S2P Require Import Version Wal Options ManifestCodec Manifest ManifestSet ManifestBoot WalFs Block TableBuilder.
From S2P Require Import TableReader TableStore Compaction CompactionRun Engine EngineOps EngineRead EngineFrame.
From S2P Require Import EngineHistory EngineLogs.

Local Open Scope Z_scope.

Definition layers (T : Z → list entry) (st : WriteState) : list (list entry) :=
  engine_layers st (contents T (vs_current (es_versions st))).

(** A flush between its first and its last step: the memtable, the number of its
    table and the result of the build, once there is one. *)
Record Flush : Type := {
  fl_immutable : ImmutableMemTable;
  fl_number : Z;
  fl_built : option (result TableBuildResult)
}.

Section Inv.
  Context `{C : Crc32c} {CR : Crc32cRange C} `{SN : Snappy} {SL : SnappyLaws SN} {AK : Acknowledged}.
  Context (options : Options).
  Abbreviation limit := (engine_block_limit options).

(** The tables of a version are on the disk, and in layers. *)
Record version_ok (T : Z → list entry) (i : CrashImage) (next : Z) (v : Version) : Prop := {
  vk_wf : version_wf v;
  vk_tables : ∀ f, f ∈ concat v → output_ok limit i f (T (fm_number f));
  vk_layered : ∀ u, layered u (contents T v);
  vk_numbers : ∀ f, f ∈ concat v → fm_number f < next
}.

Record reads_ok (h : history) (T : Z → list entry) (clock : Z) (guards : list Z) (en : Engine) (i : CrashImage)
    : Prop := {
  rk_history : hist_wf h;
  rk_old : Forall (λ x, x.1 ≤ en_committed_sequence en) h;
  rk_sequence : 0 ≤ en_committed_sequence en ∧ es_next_sequence (en_state en) = en_committed_sequence en + 1 ∧
    seq_ok (en_committed_sequence en);
  rk_memory : Forall memtable_ok (memory_tables (en_state en));
  rk_fit : Forall (λ t, entries_fit limit (mt_entries t)) (memory_tables (en_state en));
  rk_version : version_ok T i (es_next_file_number (en_state en)) (vs_current (es_versions (en_state en)));
  rk_layered : ∀ u, layered u (layers T (en_state en));
  rk_unique : NoDup (map version_key (concat (layers T (en_state en))));
  rk_covered : ∀ e, e ∈ concat (layers T (en_state en)) → e_seq e ≤ en_committed_sequence en;
  rk_reads : ∀ u q now, q ∈ en_committed_sequence en :: guards → clock ≤ now →
    reads u q now (concat (layers T (en_state en))) (hist_value h u q now);
  rk_registry : registry_rep guards (en_snapshots en);
  rk_guards : Forall (λ q, 0 ≤ q ≤ en_committed_sequence en) guards;
  rk_readers : readers_ok en;
  rk_held : ∀ r, r ∈ en_readers en → version_ok T i (es_next_file_number (en_state en)) (av_version (rd_version r))
}.

(** The names of a number that has no file yet. *)
Definition unused (i : CrashImage) (n : Z) : Prop :=
  ci_volatile i !! sstable_temporary n = None ∧ ci_durable i !! sstable_temporary n = None ∧
  ci_volatile i !! sstable_name n = None.

(** The version set can be recovered. *)
Definition meta_ok (vs : VersionSet) (i : CrashImage) : Prop := (∃ edits, vs_ok vs i edits) ∧ vs_stored vs i.

(** The log of the mutable memtable. *)
Definition log_ok (st : WriteState) (i : CrashImage) : Prop :=
  lw_path (es_wal st) = wal_name (mm_wal_number (es_mutable st)) ∧
  ∃ ww, log_rep i (es_wal st) ww ∧ ww_max_batch_bytes ww = op_max_batch_bytes options ∧
    encoded_record_limit (op_max_batch_bytes options) = Ok (ww_max_logical_record_bytes ww).

(** The numbers given out, and the files that have them. *)
Record numbers_ok (st : WriteState) (i : CrashImage) : Prop := {
  nk_next : 1 ≤ es_next_file_number st ≤ U64_MAX;
  nk_fresh : es_terminal_failure st = None → fresh i (es_next_file_number st);
  nk_wal_fresh : ∀ k, es_next_file_number st ≤ k ≤ U64_MAX →
    ci_volatile i !! wal_name k = None ∧ ci_durable i !! wal_name k = None;
  nk_immutables : Forall (λ m, mt_entries (im_table m) ≠ [] ∧ is_u64 (im_largest_sequence m)) (es_immutables st);
  nk_wal_numbers : Forall (λ n, 1 ≤ n < es_next_file_number st) (es_wal_numbers st);
  nk_wal_order : StronglySorted Z.lt (es_wal_numbers st);
  nk_wal_files : ∀ n, n ∈ es_wal_numbers st → is_Some (ci_volatile i !! wal_name n);
  nk_owned : ∀ n, n = mm_wal_number (es_mutable st) ∨ n ∈ map im_wal_number (es_immutables st) →
    n ∈ es_wal_numbers st;
  nk_obsolete : ∀ n, n ∈ flat_map ob_files (es_obsolete_sstables st) →
    1 ≤ n < es_next_file_number st ∧ (n ∉ file_numbers (vs_current (es_versions st))) ∧
    ∃ b, stored i (sstable_name n) b;
  nk_obsolete_once : NoDup (flat_map ob_files (es_obsolete_sstables st))
}.

(** The table of the flush in flight. *)
Definition flush_ok (T : Z → list entry) (st : WriteState) (i : CrashImage) (fl : option Flush) : Prop :=
  match fl with
  | None => es_flush_running st = false
  | Some fl =>
    es_flush_running st = true ∧ head (es_immutables st) = Some (fl_immutable fl) ∧
    T (fl_number fl) = mt_entries (im_table (fl_immutable fl)) ∧
    1 ≤ fl_number fl < es_next_file_number st ∧
    (∀ f, f ∈ concat (vs_current (es_versions st)) → fm_number f < fl_number fl) ∧
    (fl_number fl ∉ flat_map ob_files (es_obsolete_sstables st)) ∧
    match fl_built fl with
    | None => unused i (fl_number fl)
    | Some (Err _) => True
    | Some (Ok r) => ∃ f, FileMeta_new (tr_file_number r) (tr_file_size r) (tr_smallest r) (tr_largest r) = Ok f ∧
        fm_number f = fl_number fl ∧ output_ok limit i f (T (fl_number fl))
    end
  end.

Record engine_inv (h : history) (T : Z → list entry) (clock : Z) (guards : list Z) (fl : option Flush)
    (en : Engine) (i : CrashImage) : Prop := {
  ei_reads : reads_ok h T clock guards en i;
  ei_meta : meta_ok (es_versions (en_state en)) i;
  ei_log : log_ok (en_state en) i;
  ei_numbers : numbers_ok (en_state en) i;
  ei_flush : flush_ok T (en_state en) i fl;
  ei_logs : logs_ok options h T clock (en_state en) i
}.

(** The ghost contents of the numbers already given out do not change. *)
Definition agree_below (next : Z) (T T' : Z → list entry) : Prop := ∀ n, n < next → T' n = T n.

(** ** Changes of the image *)

(** The tables that the engine and its readers refer to stay safe. *)
Definition tables_safe (en : Engine) (i i' : CrashImage) : Prop :=
  ∀ v f b, v = vs_current (es_versions (en_state en)) ∨ (∃ r, r ∈ en_readers en ∧ v = av_version (rd_version r)) →
    f ∈ concat v → stored i (sstable_name (fm_number f)) b → stored i' (sstable_name (fm_number f)) b.

Lemma version_ok_kept T i i' next next' v :
  version_ok T i next v → next ≤ next' →
  (∀ f b, f ∈ concat v → stored i (sstable_name (fm_number f)) b → stored i' (sstable_name (fm_number f)) b) →
  version_ok T i' next' v.
Proof.
  intros [Hwf Ht Hl Hn] Hle Hk. split; [done| |done|intros f Hf; specialize (Hn f Hf); lia].
  intros f Hf. destruct (Ht f Hf) as (file & Hs & H). exists file. split; [by apply Hk|done].
Qed.

Lemma version_tables_stored T i next v : version_ok T i next v → tables_stored i v.
Proof. intros Hv f Hf. destruct (vk_tables _ _ _ _ Hv f Hf) as (file & Hs & _). eauto. Qed.

(** The layers are the same collection, and the rest of what reads use is as before. *)
Lemma reads_ok_step h T clock guards en en' i i' :
  reads_ok h T clock guards en i →
  en_committed_sequence en' = en_committed_sequence en → en_snapshots en' = en_snapshots en →
  en_readers en' = en_readers en → readers_ok en' →
  es_next_sequence (en_state en') = es_next_sequence (en_state en) →
  es_next_file_number (en_state en) ≤ es_next_file_number (en_state en') →
  Forall memtable_ok (memory_tables (en_state en')) →
  Forall (λ t, entries_fit limit (mt_entries t)) (memory_tables (en_state en')) →
  version_ok T i' (es_next_file_number (en_state en')) (vs_current (es_versions (en_state en'))) →
  (∀ u, layered u (layers T (en_state en'))) → concat (layers T (en_state en')) = concat (layers T (en_state en)) →
  (∀ r f b, r ∈ en_readers en → f ∈ concat (av_version (rd_version r)) →
    stored i (sstable_name (fm_number f)) b → stored i' (sstable_name (fm_number f)) b) →
  reads_ok h T clock guards en' i'.
Proof.
  intros Hr Hc Hs Hrd Hro Hseq Hle Hm Hfit Hv Hlay Heq Hk. destruct Hr.
  split; rewrite ?Hc, ?Hs, ?Hrd, ?Hseq, ?Heq; try done.
  intros r Hin. eapply version_ok_kept; [by apply rk_held0|done|]. intros f b. by apply (Hk r).
Qed.

Lemma reads_ok_image h T clock guards en i i' :
  reads_ok h T clock guards en i → tables_safe en i i' → reads_ok h T clock guards en i'.
Proof.
  intros Hr Hs. eapply reads_ok_step; [exact Hr|done..|apply Hr|done|lia|apply Hr|apply Hr| |apply Hr|done|].
  - eapply version_ok_kept; [apply Hr|lia|]. intros f b. apply Hs. by left.
  - intros r f b Hin. apply Hs. right. eauto.
Qed.

Lemma meta_ok_kept vs i i' :
  meta_ok vs i → meta_kept vs i i' → tables_stored i (vs_current vs) → meta_ok vs i'.
Proof. intros [[edits He] Hs] Hk Ht. split; [exists edits; by eapply vs_ok_kept|by eapply vs_stored_kept]. Qed.

Lemma log_ok_same st i i' : log_ok st i → same_at i i' (lw_path (es_wal st)) → log_ok st i'.
Proof. intros [Hp (ww & Hrep & H)] Hs. split; [done|]. exists ww. split; [by eapply log_rep_views|done]. Qed.

Lemma unused_same i i' n :
  unused i n → same_at i i' (sstable_temporary n) → same_at i i' (sstable_name n) → unused i' n.
Proof.
  intros (H1 & H2 & H3) Ht Hn. destruct (same_at_none _ _ _ Ht H1 H2) as [H1' H2'].
  destruct (same_at_content _ _ _ Hn) as [Hv _]. unfold unused. by rewrite Hv.
Qed.

(** The names of tables are as before. *)
Definition tables_same (i i' : CrashImage) : Prop :=
  ∀ k, same_at i i' (sstable_temporary k) ∧ same_at i i' (sstable_name k).

Lemma tables_same_safe en i i' : tables_same i i' → tables_safe en i i'.
Proof. intros Hs v f b _ _. apply stored_same, Hs. Qed.

Lemma fresh_same i i' n : fresh i n → tables_same i i' → fresh i' n.
Proof. intros Hf Hs k Hk. destruct (Hs k) as [H1 H2]. apply (unused_same i); [by apply Hf|done..]. Qed.

Lemma tables_same_trans a b c : tables_same a b → tables_same b c → tables_same a c.
Proof. intros H1 H2 k. destruct (H1 k), (H2 k). split; by eapply same_at_trans. Qed.

(** The logs that the numbers speak about. *)
Definition wals_same (st : WriteState) (i i' : CrashImage) : Prop :=
  ∀ k, es_next_file_number st ≤ k ≤ U64_MAX ∨ k ∈ es_wal_numbers st → same_at i i' (wal_name k).

Lemma numbers_ok_same st i i' : numbers_ok st i → tables_same i i' → wals_same st i i' → numbers_ok st i'.
Proof.
  intros [] Hs Hw. split; try done.
  - intros Hok. eapply fresh_same; [by apply nk_fresh0|done].
  - intros k Hk. destruct (nk_wal_fresh0 k Hk). apply (same_at_none i); [apply Hw; by left|done..].
  - intros n Hn. destruct (same_at_content i i' (wal_name n)) as [-> _]; [apply Hw; by right|auto].
  - intros n Hn. destruct (nk_obsolete0 n Hn) as (H1 & H2 & b & Hb). do 2 (split; [done|]). exists b.
    eapply stored_same; [apply Hs|done].
Qed.

Lemma flush_ok_same T st st' i i' fl :
  flush_ok T st i fl → tables_same i i' → es_flush_running st' = es_flush_running st →
  (∀ m, head (es_immutables st) = Some m → head (es_immutables st') = Some m) →
  es_next_file_number st ≤ es_next_file_number st' →
  vs_current (es_versions st') = vs_current (es_versions st) →
  (∀ n, n ∈ flat_map ob_files (es_obsolete_sstables st') → n ∈ flat_map ob_files (es_obsolete_sstables st)) →
  flush_ok T st' i' fl.
Proof.
  intros H Hs Hr Hh Hn Hv Ho. destruct fl as [fl|]; cbn in *; [|congruence].
  destruct H as (H1 & H2 & H3 & H4 & H5 & H6 & H7). rewrite Hv, Hr.
  do 3 (split; [by auto|]). split; [lia|]. split; [done|]. split; [by auto|].
  destruct (fl_built fl) as [[r|e]|]; [|done|].
  - destruct H7 as (f & Hf & Hnum & file & Hst & H7). exists f. do 2 (split; [done|]). exists file.
    split; [eapply stored_same; [apply Hs|done]|done].
  - destruct (Hs (fl_number fl)). by apply (unused_same i).
Qed.

(** The state is the same, and the tables are. *)
Lemma inv_same h T clock guards fl en i i' :
  engine_inv h T clock guards fl en i → tables_same i i' → wals_same (en_state en) i i' →
  meta_ok (es_versions (en_state en)) i' → log_ok (en_state en) i' → logs_ok options h T clock (en_state en) i' →
  engine_inv h T clock guards fl en i'.
Proof.
  intros [Hr Hm Hl Hn Hf _] Hs Hw Hm' Hl' Hg'. split; [|done|done| | |done].
  - eapply reads_ok_image; [done|]. by apply tables_same_safe.
  - by eapply numbers_ok_same.
  - eapply flush_ok_same; done.
Qed.

(** ** Reading *)

Lemma version_holds_contents T i next v : version_ok T i next v → version_holds limit i v (contents T v).
Proof.
  intros [_ Ht _ _]. unfold version_holds, contents. induction (concat v) as [|f fs IH]; cbn; constructor.
  - apply Ht. by left.
  - apply IH. intros f' Hf'. apply Ht. by right.
Qed.

Lemma reads_ok_readable h T clock guards en i :
  reads_ok h T clock guards en i →
  readable options i (en_state en) (contents T (vs_current (es_versions (en_state en)))).
Proof.
  intros Hr. split; [apply Hr|apply Hr|by eapply version_holds_contents, Hr|apply Hr].
Qed.

Lemma reads_unique h T clock guards en i :
  reads_ok h T clock guards en i → versions_unique (concat (layers T (en_state en))).
Proof. intros Hr. apply keys_unique, Hr. Qed.

Lemma reads_functional u q now es o o' : versions_unique es → reads u q now es o → reads u q now es o' → o = o'.
Proof. intros Hu (x & Hx & ->) (y & Hy & ->). by rewrite (is_newest_unique _ _ _ _ _ Hu Hx Hy). Qed.

(** A read changes the registry of readers only. *)
Lemma read_only_inv h T clock guards fl en en' i :
  engine_inv h T clock guards fl en i → read_only en en' → engine_inv h T clock guards fl en' i.
Proof.
  intros [Hr Hm Hl Hn Hfl Hg] [Hc Hs Hrd [versions Hst] Hok].
  split; [|by rewrite Hst|by rewrite Hst|rewrite Hst; by destruct Hn|by rewrite Hst|rewrite Hst; by eapply logs_fields].
  destruct Hr. split; unfold layers, engine_layers, memory_tables in *; rewrite ?Hst, ?Hc, ?Hrd; cbn; try done. by apply Hs.
Qed.

Lemma engine_get_inv g h T clock guards fl en i u now (Q : option bytes → Engine → CrashImage → Prop) E :
  engine_block_limit options ≤ 2 ^ 62 →
  engine_inv h T clock guards fl en i → ensure_readable (en_state en) = Ok tt → zlen guards < USIZE_MAX →
  bytes_ok u → zlen u ≤ op_max_key_bytes options → clock ≤ now →
  (∀ en', read_only en en' → engine_inv h T clock guards fl en' i →
    Q (hist_value h u (en_committed_sequence en) now) en' i) →
  cwpf g (Engine_get options u now) en i Q E.
Proof using CR SL.
  intros Hcap Hinv Hens Hlen Hu Hmax Hnow HQ. pose proof (ei_reads _ _ _ _ _ _ _ Hinv) as Hr.
  eapply (engine_get_wp options Hcap); [by eapply reads_ok_readable|apply Hr|apply Hr|done|done|done|done|apply Hr| |].
  { intros e He _. by apply (rk_covered _ _ _ _ _ _ Hr). }
  intros o en' Hread Hreg Hro. assert (o = hist_value h u (en_committed_sequence en) now) as ->.
  { eapply reads_functional; [by eapply reads_unique|exact Hread|]. apply (rk_reads _ _ _ _ _ _ Hr); [by left|done]. }
  apply HQ; [done|]. by eapply read_only_inv.
Qed.
End Inv.
