(* ===== verification/EngineCompact.v ===== *)
(** * Compactions keep the layers

    The tables of a version are layers: on level 0 the larger number is newer, and a
    level is newer than the next.  When a compaction replaces its files by the outputs
    of [run], the layers stay layers and the protected readers read the same. *)

From Stdlib Require Import ZArith Lia Sorting.Sorted.
From stdpp Require Import base list gmap strings sorting.
From S2P Require Import Prelude Fs StateFs Checksum InternalKey Batch ValueRecord Snapshot Mvcc MemTable Iter IterFacts.
From S2P Require Import Version Wal Options ManifestCodec Manifest ManifestSet ManifestBoot WalFs Block TableBuilder.
From S2P Require Import TableReader TableStore Compaction CompactionRun Engine EngineOps EngineRead EngineEdits EngineFrame.
From S2P Require Import EngineHistory EngineLogs EngineInv.

Local Open Scope Z_scope.

(** ** Layers by level *)

Lemma StronglySorted_concat {A} (R : A → A → Prop) ls :
  StronglySorted R (concat ls) ↔
  Forall (StronglySorted R) ls ∧ StronglySorted (λ a b, ∀ x y, x ∈ a → y ∈ b → R x y) ls.
Proof.
  induction ls as [|l ls IH]; cbn; [split; [repeat constructor|constructor]|].
  rewrite StronglySorted_app, IH, Forall_cons. split.
  - intros (H1 & H2 & H3 & H4). split; [done|]. constructor; [done|]. apply Forall_forall. intros l' Hl' x y Hx Hy.
    apply H1; [done|]. apply elem_of_concat. eauto.
  - intros ((H1 & H2) & H3). apply StronglySorted_inv in H3 as [H3 Hall]. rewrite Forall_forall in Hall.
    split; [|done]. intros x y Hx (l' & Hy & Hl')%elem_of_concat. by apply (Hall l').
Qed.

Definition above (a b : list entry) : Prop := ∀ u, layer_above u a b.

(** The order of the tables. *)
Record tables_layered (T : Z → list entry) (v : Version) : Prop := {
  tl_zero : ∀ f g, f ∈ level_files v 0 → g ∈ level_files v 0 → fm_number g < fm_number f →
    above (T (fm_number f)) (T (fm_number g));
  tl_levels : ∀ l l' f g, 0 ≤ l < l' → f ∈ level_files v l → g ∈ level_files v l' →
    above (T (fm_number f)) (T (fm_number g))
}.

(** Entries lie in the ranges of their files. *)
Definition in_ranges (T : Z → list entry) (v : Version) : Prop :=
  ∀ f e, f ∈ concat v → e ∈ T (fm_number f) → file_covers (e_user e) f.

Lemma level_lookup v l files : v !! l = Some files → level_files v (Z.of_nat l) = files.
Proof. intros H. unfold level_files. by rewrite (proj2 (Z.ltb_ge _ _)), Nat2Z.id, H by lia. Qed.

Lemma level_files_some v l f : f ∈ level_files v l → ∃ files, v !! Z.to_nat l = Some files ∧ f ∈ files ∧ 0 ≤ l.
Proof.
  unfold level_files. destruct (Z.ltb_spec l 0); [by intros ?%elem_of_nil|].
  destruct (v !! Z.to_nat l) as [files|]; cbn; [|by intros ?%elem_of_nil]. intros Hf. by exists files.
Qed.

Lemma concat_level v f : f ∈ concat v → ∃ l, 0 ≤ l ∧ f ∈ level_files v l.
Proof.
  intros (files & Hf & Hin)%elem_of_concat. apply list_elem_of_lookup in Hin as [k Hk].
  exists (Z.of_nat k). split; [lia|]. by rewrite (level_lookup _ _ _ Hk).
Qed.

Lemma StronglySorted_lookup {A} (R : A → A → Prop) l :
  StronglySorted R l ↔ ∀ i j x y, (i < j)%nat → l !! i = Some x → l !! j = Some y → R x y.
Proof.
  split.
  - intros H. induction H as [|a l Hs IH Hall]; intros i j x y Hij Hi Hj; [done|].
    destruct j as [|j]; [lia|]. destruct i as [|i]; cbn in *.
    + injection Hi as ->. rewrite Forall_forall in Hall. apply Hall. by eapply list_elem_of_lookup_2.
    + apply (IH i j); [lia|done|done].
  - induction l as [|a l IH]; intros H; constructor.
    + apply IH. intros i j x y Hij Hi Hj. by apply (H (S i) (S j)); [lia|..].
    + apply Forall_forall. intros y Hy. apply list_elem_of_lookup in Hy as [j Hj]. by apply (H 0%nat (S j)); [lia|..].
Qed.

(** Files of one level below the first share no key. *)
Lemma level_disjoint T v l f g :
  version_wf v → in_ranges T v → 1 ≤ l → f ∈ level_files v l → g ∈ level_files v l → f ≠ g →
  above (T (fm_number f)) (T (fm_number g)).
Proof.
  intros Hv Hr Hl Hf Hg Hne u e e' He He' Hu Hu'. destruct Hne.
  apply (level_unique v l u); [done|done|done|done|..].
  - rewrite <- Hu. apply Hr; [by eapply concat_level_elem|done].
  - rewrite <- Hu'. apply Hr; [by eapply concat_level_elem|done].
Qed.

Lemma contents_layered T v : (∀ u, layered u (contents T v)) ↔ StronglySorted (λ f g, above (T (fm_number f)) (T (fm_number g))) (concat v).
Proof.
  unfold layered, contents, above. setoid_rewrite StronglySorted_lookup. split.
  - intros H i j x y Hij Hi Hj u. apply (H u i j); [done|by rewrite list_lookup_fmap, Hi|by rewrite list_lookup_fmap, Hj].
  - intros H u i j x y Hij Hi Hj. rewrite list_lookup_fmap in Hi, Hj.
    destruct (concat v !! i) as [f|] eqn:Ef; [|done]. destruct (concat v !! j) as [g|] eqn:Eg; [|done].
    injection Hi as <-. injection Hj as <-. by apply (H i j).
Qed.

Lemma layered_levels T v :
  version_wf v → in_ranges T v → (∀ u, layered u (contents T v)) ↔ tables_layered T v.
Proof.
  intros Hv Hr. rewrite contents_layered, StronglySorted_concat, Forall_forall. split.
  - intros [Hin Hout]. split.
    + intros f g Hf Hg Hlt. apply level_files_some in Hf as (files & Hfiles & Hf & _).
      apply level_files_some in Hg as (files' & Hfiles' & Hg & _). rewrite Hfiles in Hfiles'. injection Hfiles' as <-.
      pose proof (vw_newest _ Hv) as Hn. pose proof (level_lookup v 0 files Hfiles) as Hlev.
      change (Z.of_nat 0) with 0 in Hlev. rewrite Hlev in Hn.
      specialize (Hin files ltac:(by eapply list_elem_of_lookup_2)). rewrite StronglySorted_lookup in Hn, Hin.
      apply list_elem_of_lookup in Hf as [i Hi]. apply list_elem_of_lookup in Hg as [j Hj].
      destruct (decide (i < j)%nat) as [Hij|Hij]; [by apply (Hin i j)|]. exfalso.
      destruct (decide (i = j)) as [->|Hne]; [rewrite Hi in Hj; injection Hj as ->; lia|].
      specialize (Hn j i g f ltac:(lia) Hj Hi). cbn in Hn. lia.
    + intros l l' f g Hl Hf Hg. apply level_files_some in Hf as (files & Hfiles & Hf & _).
      apply level_files_some in Hg as (files' & Hfiles' & Hg & _). rewrite StronglySorted_lookup in Hout.
      apply (Hout (Z.to_nat l) (Z.to_nat l') files files'); [lia|done..].
  - intros [Hz Hl]. split.
    + intros files Hf. apply list_elem_of_lookup in Hf as [k Hk]. pose proof (level_lookup _ _ _ Hk) as Hlev.
      destruct (decide (k = 0)%nat) as [->|Hne].
      * pose proof (vw_newest _ Hv) as Hn. change (Z.of_nat 0) with 0 in Hlev. rewrite Hlev in Hn, Hz.
        rewrite StronglySorted_lookup in Hn |- *. intros i j x y Hij Hi Hj.
        apply Hz; [by eapply list_elem_of_lookup_2..|by apply (Hn i j)].
      * pose proof (vw_disjoint _ Hv (Z.of_nat k) ltac:(lia)) as Hd. rewrite Hlev in Hd.
        rewrite StronglySorted_lookup in Hd |- *. intros i j x y Hij Hi Hj.
        apply (level_disjoint T v (Z.of_nat k)); [done|done|lia|rewrite Hlev; by eapply list_elem_of_lookup_2..|].
        intros ->. specialize (Hd i j y y Hij Hi Hj). unfold range_before in Hd.
        assert (meta_wf y) as Hy%meta_user_range.
        { apply (elem_of_Forall _ _ _ (vw_files _ Hv)). apply (concat_level_elem v (Z.of_nat k)). rewrite Hlev. by eapply list_elem_of_lookup_2. }
        by apply Hy, cmp_lt_gt.
    + rewrite StronglySorted_lookup. intros i j a b Hij Ha Hb x y Hx Hy.
      apply (Hl (Z.of_nat i) (Z.of_nat j)); [lia|by rewrite (level_lookup _ _ _ Ha)|by rewrite (level_lookup _ _ _ Hb)].
Qed.

Lemma reads_user u q now es es' o :
  (∀ e, e_user e = u → e ∈ es ↔ e ∈ es') → reads u q now es o → reads u q now es' o.
Proof. intros H (x & Hx & ->). exists x. split; [by eapply is_newest_user|done]. Qed.

(** ** Plans that may be executed *)

Definition plan_files (p : CompactionPlan) : list FileMeta := pl_inputs p ++ pl_overlaps p.

(** What else lies in the two levels does not get between the versions of a key. *)
Record plan_safe (v : Version) (p : CompactionPlan) : Prop := {
  ps_level : 0 ≤ pl_input_level p < 6;
  ps_output : pl_output_level p = pl_input_level p + 1;
  ps_inputs : ∀ f, f ∈ pl_inputs p → f ∈ level_files v (pl_input_level p);
  ps_overlaps : ∀ f, f ∈ pl_overlaps p → f ∈ level_files v (pl_output_level p);
  ps_nodup : NoDup (map fm_number (plan_files p));
  ps_newer : ∀ f g u, f ∈ pl_inputs p → g ∈ level_files v (pl_input_level p) → g ∉ pl_inputs p →
    file_covers u f → file_covers u g → pl_input_level p = 0 ∧ fm_number f < fm_number g;
  ps_apart : ∀ f g u, f ∈ pl_inputs p → g ∈ level_files v (pl_output_level p) → g ∉ pl_overlaps p →
    file_covers u f → file_covers u g → False
}.

(** A file is on one level. *)
Lemma file_level v l l' f g :
  version_wf v → f ∈ level_files v l → g ∈ level_files v l' → fm_number f = fm_number g → l = l' ∧ f = g.
Proof.
  intros Hv Hf Hg Hn. apply level_files_some in Hf as (files & Hfiles & Hf & Hl).
  apply level_files_some in Hg as (files' & Hfiles' & Hg & Hl'). pose proof (vw_numbers _ Hv) as Hnd. unfold file_numbers in Hnd.
  assert (∀ a b x y, (a < b)%nat → v !! a = Some x → v !! b = Some y → (∃ f, f ∈ x ∧ fm_number f ∈ map fm_number y) → False) as Hdis.
  { clear -Hnd. intros a b x y Hab Ha Hb (f & Hf & Hin). apply list_elem_of_split_length in Ha as (l1 & l2 & -> & Hla).
    rewrite lookup_app_r in Hb by lia. destruct (b - length l1)%nat as [|k] eqn:E; [lia|]. cbn in Hb.
    rewrite concat_app, map_app in Hnd. apply NoDup_app in Hnd as (_ & _ & Hnd). cbn in Hnd. rewrite map_app in Hnd.
    apply NoDup_app in Hnd as (_ & Hnd & _). apply (Hnd (fm_number f)); [by apply list_elem_of_fmap_2|].
    apply list_elem_of_fmap in Hin as (g & -> & Hg). apply list_elem_of_fmap_2. apply elem_of_concat. exists y. split; [done|].
    by eapply list_elem_of_lookup_2. }
  assert (Z.to_nat l = Z.to_nat l') as Heq.
  { destruct (lt_eq_lt_dec (Z.to_nat l) (Z.to_nat l')) as [[Hlt|?]|Hgt]; [exfalso|done|exfalso].
    - apply (Hdis _ _ _ _ Hlt Hfiles Hfiles'). exists f. split; [done|]. rewrite Hn. by apply list_elem_of_fmap_2.
    - apply (Hdis _ _ _ _ Hgt Hfiles' Hfiles). exists g. split; [done|]. rewrite <- Hn. by apply list_elem_of_fmap_2. }
  split; [lia|]. rewrite Heq, Hfiles' in Hfiles. injection Hfiles as ->.
  assert (f ∈ concat v ∧ g ∈ concat v) as [Hf' Hg'].
  { split; apply elem_of_concat; exists files; (split; [done|by eapply list_elem_of_lookup_2]). }
  apply list_elem_of_lookup in Hf' as [i Hi]. apply list_elem_of_lookup in Hg' as [j Hj].
  assert (i = j) as ->; [|congruence].
  eapply (NoDup_lookup (fm_number <$> concat v)); [exact Hnd|by rewrite list_lookup_fmap, Hi|by rewrite list_lookup_fmap, Hj, Hn].
Qed.

Lemma sublist_fmap {A B} (f : A → B) l l' : l `sublist_of` l' → map f l `sublist_of` map f l'.
Proof. induction 1; cbn; by constructor. Qed.

Lemma plan_ok_safe v p : version_wf v → plan_ok v p → plan_safe v p.
Proof.
  intros Hv [Hlev Hout [Hsome Hin Hzero Hov] Hclosed]. rewrite <- Hout in Hov.
  assert (∀ f, f ∈ pl_inputs p → f ∈ level_files v (pl_input_level p)) as Hin' by (intros f Hf; by eapply sublist_subseteq).
  assert (∀ f, f ∈ pl_overlaps p → f ∈ level_files v (pl_output_level p)) as Hov' by (intros f Hf; by eapply sublist_subseteq).
  split; try done.
  - unfold plan_files. rewrite map_app. apply NoDup_app. split; [|split].
    + eapply sublist_NoDup; [|by apply sublist_fmap]. by apply level_numbers_nodup, Hv.
    + intros n (f & -> & Hf)%list_elem_of_fmap (g & Hn & Hg)%list_elem_of_fmap.
      destruct (file_level v _ _ f g Hv (Hin' f Hf) (Hov' g Hg) Hn) as [Heq _]. lia.
    + eapply sublist_NoDup; [|by apply sublist_fmap]. by apply level_numbers_nodup, Hv.
  - intros f g u Hf Hg Hno Huf Hug. destruct (Hclosed g u Hug) as [H _]; [|by destruct Hno; apply H].
    destruct Huf. split; exists f; (split; [apply elem_of_app; by left|done]).
  - intros f g u Hf Hg Hno Huf Hug. destruct (Hclosed g u Hug) as [_ H]; [|destruct Hno; apply H; by rewrite <- Hout].
    destruct Huf. split; exists f; (split; [apply elem_of_app; by left|done]).
Qed.

(** ** The new version *)

(** [v'] has [files], with contents in [T'], where [v] has the files of the plan. *)
Record replaced (T T' : Z → list entry) (v v' : Version) (p : CompactionPlan) (files : list FileMeta) : Prop := {
  rp_old_wf : version_wf v;
  rp_new_wf : version_wf v';
  rp_safe : plan_safe v p;
  rp_members : ∀ l f, f ∈ level_files v' l ↔
    (f ∈ level_files v l ∧ f ∉ plan_files p) ∨ (l = pl_output_level p ∧ f ∈ files);
  rp_same : ∀ f, f ∈ concat v → T' (fm_number f) = T (fm_number f);
  rp_old_ranges : in_ranges T v;
  rp_new_ranges : in_ranges T' v';
  rp_keys : ∀ f e, f ∈ files → e ∈ T' (fm_number f) →
    ∃ g x, g ∈ plan_files p ∧ x ∈ T (fm_number g) ∧ version_key x = version_key e;
  rp_once : NoDup (map version_key (concat (map (λ f, T' (fm_number f)) files)));
  rp_files : NoDup files;
  rp_fresh : ∀ f, f ∈ files → f ∉ concat v
}.

Section Replaced.
  Context (T T' : Z → list entry) (v v' : Version) (p : CompactionPlan) (files : list FileMeta).
  Context (Hrep : replaced T T' v v' p files).

Lemma plan_file_level g :
  g ∈ plan_files p → g ∈ pl_inputs p ∧ g ∈ level_files v (pl_input_level p) ∨
    g ∈ pl_overlaps p ∧ g ∈ level_files v (pl_output_level p).
Proof using Hrep.
  intros [Hg|Hg]%elem_of_app; [left|right]; (split; [done|]).
  - by apply (ps_inputs _ _ (rp_safe _ _ _ _ _ _ Hrep)).
  - by apply (ps_overlaps _ _ (rp_safe _ _ _ _ _ _ Hrep)).
Qed.

(** A file outside the plan, not below its levels, is above the files of the plan. *)
Lemma rest_above l f g :
  tables_layered T v → f ∈ level_files v l → f ∉ plan_files p → l < pl_output_level p → g ∈ plan_files p →
  above (T (fm_number f)) (T (fm_number g)).
Proof using Hrep.
  intros [Hz Hl] Hf Hno Hlt Hg. pose proof (rp_safe _ _ _ _ _ _ Hrep) as Hs. pose proof (ps_output _ _ Hs) as Ho.
  assert (0 ≤ l) as H0 by (apply level_files_some in Hf as (_ & _ & _ & ?); done).
  destruct (plan_file_level g Hg) as [[Hin Hg']|[Hin Hg']]; [|by apply (Hl l (pl_output_level p))].
  destruct (decide (l = pl_input_level p)) as [->|Hne]; [|apply (Hl l (pl_input_level p)); [lia|done..]].
  intros u e e' He He' Hu Hu'.
  assert (file_covers u f) as Hcf by (rewrite <- Hu; apply Hrep; [by eapply concat_level_elem|done]).
  assert (file_covers u g) as Hcg by (rewrite <- Hu'; apply Hrep; [by eapply concat_level_elem|done]).
  destruct (ps_newer _ _ Hs g f u Hin Hf) as [Hzero Hnum]; [|done|done|].
  - intros Hf'. apply Hno, elem_of_app. by left.
  - rewrite Hzero in Hf, Hg'. by apply (Hz f g Hf Hg' Hnum u).
Qed.

(** What holds of the plan's entries by their keys holds of the new ones. *)
Lemma above_new_l es :
  (∀ g, g ∈ plan_files p → above (T (fm_number g)) es) → ∀ f, f ∈ files → above (T' (fm_number f)) es.
Proof using Hrep.
  intros H f Hf u e e' He He' Hu Hu'. destruct (rp_keys _ _ _ _ _ _ Hrep f e Hf He) as (g & x & Hg & Hx & Hk).
  unfold version_key in Hk. injection Hk as Hku Hks. rewrite <- Hks. apply (H g Hg u x e'); congruence.
Qed.

Lemma above_new_r es :
  (∀ g, g ∈ plan_files p → above es (T (fm_number g))) → ∀ f, f ∈ files → above es (T' (fm_number f)).
Proof using Hrep.
  intros H f Hf u e e' He He' Hu Hu'. destruct (rp_keys _ _ _ _ _ _ Hrep f e' Hf He') as (g & x & Hg & Hx & Hk).
  unfold version_key in Hk. injection Hk as Hku Hks. rewrite <- Hks. apply (H g Hg u e x); congruence.
Qed.

Lemma replaced_layered : tables_layered T v → tables_layered T' v'.
Proof using Hrep.
  intros Hlay. pose proof Hlay as [Hz Hl]. pose proof (rp_safe _ _ _ _ _ _ Hrep) as Hs.
  pose proof (ps_level _ _ Hs) as Hlev. pose proof (ps_output _ _ Hs) as Ho.
  assert (∀ l f, f ∈ level_files v l → T' (fm_number f) = T (fm_number f)) as Hsame.
  { intros l f Hf. apply Hrep. by eapply concat_level_elem. }
  split.
  - intros f g [[Hf _]|[Heq _]]%Hrep [[Hg _]|[Heq' _]]%Hrep Hlt; [|lia..].
    rewrite (Hsame 0 f Hf), (Hsame 0 g Hg). by apply Hz.
  - intros l l' f g Hll [[Hf Hno]|[-> Hf]]%Hrep [[Hg Hno']|[-> Hg]]%Hrep.
    + rewrite (Hsame l f Hf), (Hsame l' g Hg). by apply (Hl l l').
    + rewrite (Hsame l f Hf). apply above_new_r; [|done]. intros x Hx. apply (rest_above l); [done|done|done|lia|done].
    + rewrite (Hsame l' g Hg). apply above_new_l; [|done]. intros x Hx.
      destruct (plan_file_level x Hx) as [[_ Hx']|[_ Hx']]; eapply Hl; [|exact Hx'|exact Hg| |exact Hx'|exact Hg]; lia.
    + lia.
Qed.

Lemma replaced_above es :
  (∀ f, f ∈ concat v → above es (T (fm_number f))) → ∀ f, f ∈ concat v' → above es (T' (fm_number f)).
Proof using Hrep.
  intros H f (l & _ & [[Hf _]|[_ Hf]]%Hrep)%concat_level.
  - apply concat_level_elem in Hf. rewrite (rp_same _ _ _ _ _ _ Hrep f Hf). auto.
  - apply above_new_r; [|done]. intros g Hg. apply H. destruct (plan_file_level g Hg) as [[_ Hg']|[_ Hg']]; by eapply concat_level_elem.
Qed.

(** ** One version per key and sequence *)

(** The files outside the plan. *)
Definition rest_files : list FileMeta := List.filter (λ f, negb (bool_decide (f ∈ plan_files p))) (concat v).

Lemma elem_of_rest f : f ∈ rest_files ↔ f ∈ concat v ∧ f ∉ plan_files p.
Proof. unfold rest_files. rewrite elem_of_filter_b, negb_true_iff, bool_decide_eq_false. tauto. Qed.

Lemma version_nodup w : version_wf w → NoDup (concat w).
Proof. intros Hw. eapply (NoDup_fmap_1 fm_number). apply Hw. Qed.

Lemma plan_file_in g : g ∈ plan_files p → g ∈ concat v.
Proof using Hrep. intros Hg. destruct (plan_file_level g Hg) as [[_ H]|[_ H]]; by eapply concat_level_elem. Qed.

Lemma old_files_perm : concat v ≡ₚ rest_files ++ plan_files p.
Proof using Hrep.
  apply NoDup_Permutation; [apply version_nodup, Hrep| |].
  - apply NoDup_app. split; [apply NoDup_ListNoDup, List.NoDup_filter, NoDup_ListNoDup, version_nodup, Hrep|].
    split; [by intros f [_ Hf]%elem_of_rest|]. eapply (NoDup_fmap_1 fm_number). apply (ps_nodup _ _ (rp_safe _ _ _ _ _ _ Hrep)).
  - intros f. rewrite elem_of_app, elem_of_rest. split; [|intros [[? _]|Hf]; [done|by apply plan_file_in]].
    intros Hf. destruct (decide (f ∈ plan_files p)); auto.
Qed.

Lemma new_files_perm : concat v' ≡ₚ rest_files ++ files.
Proof using Hrep.
  apply NoDup_Permutation; [apply version_nodup, Hrep| |].
  - apply NoDup_app. split; [apply NoDup_ListNoDup, List.NoDup_filter, NoDup_ListNoDup, version_nodup, Hrep|].
    split; [|apply Hrep]. intros f [Hf _]%elem_of_rest Hf'. by apply (rp_fresh _ _ _ _ _ _ Hrep f).
  - intros f. rewrite elem_of_app, elem_of_rest. split.
    + intros (l & _ & [[Hf Hno]|[_ Hf]]%Hrep)%concat_level; [left|by right]. split; [by eapply concat_level_elem|done].
    + intros [[Hf Hno]|Hf].
      * apply concat_level in Hf as (l & _ & Hf). apply (concat_level_elem v' l), Hrep. by left.
      * apply (concat_level_elem v' (pl_output_level p)), Hrep. by right.
Qed.

Lemma concat_perm {A} (ls ls' : list (list A)) : ls ≡ₚ ls' → concat ls ≡ₚ concat ls'.
Proof. induction 1; cbn; [done|by f_equiv|by rewrite !app_assoc, (Permutation_app_comm x)|by etrans]. Qed.

Lemma old_contents : concat (contents T v) ≡ₚ
  concat (map (λ f, T (fm_number f)) rest_files) ++ concat (map (λ f, T (fm_number f)) (plan_files p)).
Proof using Hrep. unfold contents. rewrite <- concat_app, <- map_app. by apply concat_perm, Permutation_map, old_files_perm. Qed.

Lemma new_contents : concat (contents T' v') ≡ₚ
  concat (map (λ f, T (fm_number f)) rest_files) ++ concat (map (λ f, T' (fm_number f)) files).
Proof using Hrep.
  assert (map (λ f, T (fm_number f)) rest_files = map (λ f, T' (fm_number f)) rest_files) as ->.
  { apply map_ext_in. intros f Hf. symmetry. apply Hrep. by apply list_elem_of_In, elem_of_rest in Hf as [? _]. }
  unfold contents. rewrite <- concat_app, <- map_app. by apply concat_perm, Permutation_map, new_files_perm.
Qed.

Lemma elem_of_tables (U : Z → list entry) fs e :
  e ∈ concat (map (λ f, U (fm_number f)) fs) ↔ ∃ f, f ∈ fs ∧ e ∈ U (fm_number f).
Proof.
  rewrite elem_of_concat. split.
  - intros (es & He & (f & -> & Hf)%list_elem_of_fmap). eauto.
  - intros (f & Hf & He). exists (U (fm_number f)). split; [done|]. by apply (list_elem_of_fmap_2 (λ f, U (fm_number f))).
Qed.

Lemma new_keys k :
  k ∈ map version_key (concat (map (λ f, T' (fm_number f)) files)) →
  k ∈ map version_key (concat (map (λ f, T (fm_number f)) (plan_files p))).
Proof using Hrep.
  intros (e & -> & (f & Hf & He)%elem_of_tables)%list_elem_of_fmap.
  destruct (rp_keys _ _ _ _ _ _ Hrep f e Hf He) as (g & x & Hg & Hx & <-).
  apply list_elem_of_fmap_2, elem_of_tables. eauto.
Qed.

Lemma replaced_keys mem :
  NoDup (map version_key (mem ++ concat (contents T v))) → NoDup (map version_key (mem ++ concat (contents T' v'))).
Proof using Hrep.
  rewrite old_contents, new_contents, !map_app. rewrite !NoDup_app. intros (H1 & H2 & H3 & H4 & H5).
  split; [done|]. split; [|split; [done|split; [|apply Hrep]]].
  - intros k Hk. specialize (H2 k Hk). rewrite elem_of_app in *. intros [?|?%new_keys]; auto.
  - intros k Hk Hk'%new_keys. by apply (H4 k).
Qed.

Lemma replaced_seqs q : (∀ e, e ∈ concat (contents T v) → e_seq e ≤ q) → ∀ e, e ∈ concat (contents T' v') → e_seq e ≤ q.
Proof using Hrep.
  intros H e. rewrite new_contents, elem_of_app. intros [He|He].
  - apply H. rewrite old_contents, elem_of_app. by left.
  - assert (version_key e ∈ map version_key (concat (map (λ f, T' (fm_number f)) files))) as Hk by (by apply list_elem_of_fmap_2).
    apply new_keys in Hk. apply list_elem_of_fmap in Hk as (x & Hk & Hx). unfold version_key in Hk. injection Hk as _ ->.
    apply H. rewrite old_contents, elem_of_app. by right.
Qed.

(** ** Readers *)

Lemma elem_of_take_levels n f : f ∈ concat (take (Z.to_nat n) v) ↔ ∃ l, 0 ≤ l < n ∧ f ∈ level_files v l.
Proof.
  rewrite elem_of_concat. split.
  - intros (fs & Hf & Hin). apply list_elem_of_lookup in Hin as [k Hk]. apply lookup_take_Some in Hk as [Hk Hlt].
    exists (Z.of_nat k). split; [lia|]. by rewrite (level_lookup _ _ _ Hk).
  - intros (l & Hl & Hf). apply level_files_some in Hf as (fs & Hk & Hf & _). exists fs. split; [done|].
    apply (list_elem_of_lookup_2 _ (Z.to_nat l)). apply lookup_take_Some. split; [done|lia].
Qed.

Lemma elem_of_drop_levels n f : 0 ≤ n → f ∈ concat (drop (Z.to_nat n) v) ↔ ∃ l, n ≤ l ∧ f ∈ level_files v l.
Proof.
  intros Hn. rewrite elem_of_concat. split.
  - intros (fs & Hf & Hin). apply list_elem_of_lookup in Hin as [k Hk]. rewrite lookup_drop in Hk.
    exists (Z.of_nat (Z.to_nat n + k)). split; [lia|]. by rewrite (level_lookup _ _ _ Hk).
  - intros (l & Hl & Hf). apply level_files_some in Hf as (fs & Hk & Hf & _). exists fs. split; [done|].
    apply (list_elem_of_lookup_2 _ (Z.to_nat l - Z.to_nat n)). rewrite lookup_drop. by replace (Z.to_nat n + (Z.to_nat l - Z.to_nat n))%nat with (Z.to_nat l) by lia.
Qed.

Definition upper_files : list FileMeta :=
  List.filter (λ f, negb (bool_decide (f ∈ plan_files p))) (concat (take (Z.to_nat (pl_output_level p)) v)).
Definition lower_files : list FileMeta := concat (drop (Z.to_nat (pl_output_level p + 1)) v).

Lemma elem_of_upper f : f ∈ upper_files ↔ (∃ l, 0 ≤ l < pl_output_level p ∧ f ∈ level_files v l) ∧ f ∉ plan_files p.
Proof. unfold upper_files. rewrite elem_of_filter_b, negb_true_iff, bool_decide_eq_false, elem_of_take_levels. tauto. Qed.

(** A key of the plan is in no other file of the output level. *)
Lemma middle_apart u f g :
  f ∈ level_files v (pl_output_level p) → f ∉ plan_files p → g ∈ plan_files p →
  file_covers u f → file_covers u g → False.
Proof using Hrep.
  intros Hf Hno Hg Huf Hug. pose proof (rp_safe _ _ _ _ _ _ Hrep) as Hs.
  pose proof (ps_level _ _ Hs). pose proof (ps_output _ _ Hs).
  destruct (plan_file_level g Hg) as [[Hin Hg']|[Hin Hg']].
  - apply (ps_apart _ _ Hs g f u); try done. intros Hf'. apply Hno, elem_of_app. by right.
  - apply Hno. rewrite (level_unique v (pl_output_level p) u f g); try done; [apply Hrep|lia].
Qed.

Lemma rest_split u e :
  e_user e = u → (∃ g x, g ∈ plan_files p ∧ x ∈ T (fm_number g) ∧ e_user x = u) →
  e ∈ concat (map (λ f, T (fm_number f)) rest_files) ↔
  e ∈ concat (map (λ f, T (fm_number f)) upper_files) ∨ e ∈ concat (map (λ f, T (fm_number f)) lower_files).
Proof using Hrep.
  intros Hu (g & x & Hg & Hx & Hxu). pose proof (rp_safe _ _ _ _ _ _ Hrep) as Hs.
  pose proof (ps_level _ _ Hs) as Hlev. pose proof (ps_output _ _ Hs) as Hout.
  rewrite !elem_of_tables. setoid_rewrite elem_of_rest. setoid_rewrite elem_of_upper. unfold lower_files.
  setoid_rewrite elem_of_drop_levels; [|lia]. split.
  - intros (f & [Hf Hno] & He). pose proof Hf as Hf'. apply concat_level in Hf' as (l & Hl & Hfl).
    destruct (Z.lt_total l (pl_output_level p)) as [Hlt|[->|Hgt]].
    + left. exists f. split; [split; [exists l; auto|done]|done].
    + exfalso. apply (middle_apart u f g); try done.
      * rewrite <- Hu. by apply Hrep.
      * rewrite <- Hxu. apply Hrep; [by apply plan_file_in|done].
    + right. exists f. split; [exists l; split; [lia|done]|done].
  - intros [(f & [(l & Hl & Hf) Hno] & He)|(f & (l & Hl & Hf) & He)].
    + exists f. split; [split; [by eapply concat_level_elem|done]|done].
    + exists f. split; [split; [by eapply concat_level_elem|]|done]. intros Hpf.
      destruct (plan_file_level f Hpf) as [[_ Hf']|[_ Hf']];
        destruct (file_level v _ _ f f (rp_old_wf _ _ _ _ _ _ Hrep) Hf Hf' eq_refl); lia.
Qed.

Section Reads.
  Context (context : CompactionContext) (mem m : list entry) (rs : list (list entry)).
  Abbreviation inputs := (concat (map (λ f, T (fm_number f)) (plan_files p))).
  Abbreviation outputs := (concat (map (λ f, T' (fm_number f)) files)).
  Abbreviation upper := (mem ++ concat (map (λ f, T (fm_number f)) upper_files)).
  Abbreviation lower := (concat (map (λ f, T (fm_number f)) lower_files)).
  Context (Hversion : cc_version context = v) (Hlay : tables_layered T v).
  Context (Hmem : ∀ f, f ∈ concat v → above mem (T (fm_number f))).
  Context (Huniq : versions_unique (mem ++ concat (contents T v))).

Lemma lower_level f : f ∈ lower_files → ∃ l, pl_output_level p < l ∧ f ∈ level_files v l.
Proof using Hrep.
  pose proof (ps_level _ _ (rp_safe _ _ _ _ _ _ Hrep)). pose proof (ps_output _ _ (rp_safe _ _ _ _ _ _ Hrep)).
  unfold lower_files. rewrite elem_of_drop_levels by lia. intros (l & Hl & Hf). exists l. split; [lia|done].
Qed.

Lemma plan_above_lower g f : g ∈ plan_files p → f ∈ lower_files → above (T (fm_number g)) (T (fm_number f)).
Proof using Hrep Hlay.
  intros Hg (l & Hl & Hf)%lower_level. pose proof (ps_level _ _ (rp_safe _ _ _ _ _ _ Hrep)).
  pose proof (ps_output _ _ (rp_safe _ _ _ _ _ _ Hrep)).
  destruct (plan_file_level g Hg) as [[_ Hg']|[_ Hg']]; eapply (tl_levels _ _ Hlay); [|exact Hg'|exact Hf| |exact Hg'|exact Hf]; lia.
Qed.

Lemma upper_above u : layer_above u upper (inputs ++ lower).
Proof using Hrep Hlay Hmem.
  intros e e' [He|(f & Hf & He)%elem_of_tables]%elem_of_app [(g & Hg & He')%elem_of_tables|(g & Hg & He')%elem_of_tables]%elem_of_app.
  - apply (Hmem g); [by apply plan_file_in|done|done].
  - apply lower_level in Hg as (l & _ & Hg). apply (Hmem g); [by eapply concat_level_elem|done|done].
  - apply elem_of_upper in Hf as [(l & Hl & Hf) Hno]. apply (rest_above l f g); try done. lia.
  - apply elem_of_upper in Hf as [(l & Hl & Hf) Hno]. apply lower_level in Hg as (l' & Hl' & Hg).
    apply (tl_levels _ _ Hlay l l' f g); [lia|done..].
Qed.

Lemma below_absent u :
  key_may_exist_below v (pl_output_level p) u = false → ∀ e, e ∈ lower → e_user e ≠ u.
Proof using Hrep.
  intros Hk e (f & Hf & He)%elem_of_tables Hu. unfold key_may_exist_below in Hk. rewrite <- not_true_iff_false in Hk. apply Hk.
  pose proof Hf as Hf'. unfold lower_files in Hf'. apply elem_of_concat in Hf' as (fs & Hfs & Hin).
  apply existsb_exists. exists fs. split; [by apply list_elem_of_In|]. apply existsb_exists. exists f. split; [by apply list_elem_of_In|].
  apply lower_level in Hf as (l & _ & Hf). destruct (rp_old_ranges _ _ _ _ _ _ Hrep f e) as [H1 H2]; [by eapply concat_level_elem|done|].
  rewrite Hu in H1, H2. apply andb_true_iff. by rewrite !lex_leb_le.
Qed.

Lemma plan_surrounds u q :
  protected (cc_oldest_active_snapshot context) q inputs → surrounds p context upper inputs lower u q.
Proof using Hrep Hlay Hmem Huniq Hversion.
  intros Hp. split; [apply upper_above| | |rewrite Hversion; apply below_absent|done].
  - intros e e' (g & Hg & He)%elem_of_tables (f & Hf & He')%elem_of_tables. by apply (plan_above_lower g f).
  - eapply versions_unique_subset; [|exact Huniq]. intros e. rewrite !elem_of_app. unfold contents.
    rewrite !elem_of_tables. intros [[He|(f & Hf & He)]|[(f & Hf & He)|(f & Hf & He)]].
    + by left.
    + right. apply elem_of_upper in Hf as [(l & _ & Hf) _]. exists f. split; [by eapply concat_level_elem|done].
    + right. exists f. split; [by apply plan_file_in|done].
    + right. apply lower_level in Hf as (l & _ & Hf). exists f. split; [by eapply concat_level_elem|done].
Qed.

(** The compaction is invisible. *)
Lemma replaced_reads u q now o :
  Forall entry_wf inputs → NoDup inputs → m ≡ₚ inputs → key_sorted m → compacted p context m rs → outputs = concat rs →
  protected (cc_oldest_active_snapshot context) q inputs → cc_read_time_unix_ms context ≤ now →
  reads u q now (mem ++ concat (contents T v)) o → reads u q now (mem ++ concat (contents T' v')) o.
Proof using Hrep Hlay Hmem Huniq Hversion.
  intros Hwf Hnd Hp Hs Hc Heq Hprot Hnow Hread.
  destruct (decide (Exists (λ e, e_user e = u) inputs)) as [Hex|Hnex].
  - apply Exists_exists in Hex as (x & Hx & Hxu). apply elem_of_tables in Hx as (g & Hg & Hx).
    assert (∃ g x, g ∈ plan_files p ∧ x ∈ T (fm_number g) ∧ e_user x = u) as Hpl by eauto.
    apply (reads_user u q now (upper ++ outputs ++ lower)).
    { intros e He. rewrite !elem_of_app, new_contents, elem_of_app, (rest_split u e He Hpl). tauto. }
    apply (compacted_reads p context (map (λ f, T (fm_number f)) (plan_files p)) m rs (map (λ f, T' (fm_number f)) files));
      try done; [|by apply plan_surrounds|].
    + eapply versions_unique_subset; [|exact Huniq]. intros e He. rewrite old_contents. rewrite !elem_of_app. auto.
    + apply (reads_user u q now (mem ++ concat (contents T v))); [|done].
      intros e He. rewrite !elem_of_app, old_contents, elem_of_app, (rest_split u e He Hpl). tauto.
  - apply (reads_user u q now (mem ++ concat (contents T v))); [|done]. intros e He.
    rewrite !elem_of_app, old_contents, new_contents, !elem_of_app.
    assert (e ∉ inputs) as H1 by (intros Hin; apply Hnex, Exists_exists; eauto).
    assert (e ∉ outputs) as H2; [|tauto]. intros Hin. apply Hnex.
    assert (version_key e ∈ map version_key outputs) as Hk by (by apply list_elem_of_fmap_2).
    apply new_keys in Hk. apply list_elem_of_fmap in Hk as (x & Hk & Hx). unfold version_key in Hk. injection Hk as Hk _.
    apply Exists_exists. exists x. split; [done|congruence].
Qed.
End Reads.
End Replaced.
