(* ===== verification/EngineWrite.v ===== *)
(** * Writes keep the invariant

    A batch that is accepted extends the history, and a rotation adds a layer that is
    empty; whatever a check refuses leaves the engine as it was. *)

From Stdlib Require Import ZArith Lia Sorting.Sorted.
From stdpp Require Import base list gmap strings sorting.
From S2P Require Import Prelude Fs StateFs Checksum Framing InternalKey Batch ValueRecord Snapshot Mvcc MemTable Iter IterFacts.
From S2P Require Import Version Wal Options ManifestCodec Manifest ManifestSet ManifestBoot WalFs Block TableBuilder.
From S2P Require Import TableReader TableStore Compaction CompactionRun Engine EngineOps EngineRead EngineEdits EngineFrame.
From S2P Require Import EngineHistory EngineLogs EngineInv.

Local Open Scope Z_scope.

(** ** Rules *)

Lemma swp_on_state {A} (m : SFS WriteState A) en i (Q : A → Engine → CrashImage → Prop) E :
  swp m (en_state en) i (λ a st, Q a (with_state st en)) (λ st, E (with_state st en)) →
  swp (on_state m) en i Q E.
Proof.
  intros H s Hs Hf. specialize (H s Hs Hf). unfold on_state. by destruct (m (en_state en) s) as [[[a|e] st] s'].
Qed.

Lemma with_state_same en : with_state (en_state en) en = en.
Proof. by destruct en. Qed.

Lemma keep_versions_same st : keep_versions (es_versions st) st = st.
Proof. by destruct st. Qed.

Lemma allocate_wp st i (Q : Z → WriteState → CrashImage → Prop) E :
  1 ≤ es_next_file_number st ≤ U64_MAX → E st i →
  (es_next_file_number st + 1 ≤ U64_MAX →
    Q (es_next_file_number st) (with_next_file_number (es_next_file_number st + 1) st) i) →
  swp allocate_file_number st i Q E.
Proof.
  intros Hn HE HQ. unfold allocate_file_number. apply swp_bind, swp_get. rewrite (proj2 (Z.eqb_neq _ _)) by lia.
  unfold checked_add. change USIZE_MAX with U64_MAX. destruct (Z.leb_spec (es_next_file_number st + 1) U64_MAX) as [Hle|Hgt].
  - apply swp_bind. eapply swp_lift_ok; [done|]. apply swp_bind, swp_update, swp_ret. auto.
  - apply swp_bind. intros s Hs Hf. cbn. by rewrite Hs.
Qed.

Section Apply.
  Context `{C : Crc32c} {CR : Crc32cRange C}.

(** An edit is applied, or refused without a trace. *)
Lemma versions_apply_wp st i edit (Q : unit → WriteState → CrashImage → Prop) E :
  meta_ok (es_versions st) i → edit_wf edit → added_stored i edit → manifest_small (es_versions st) i →
  (∀ vs' edits i', applied (es_versions st) vs' edit edits i i' → Q tt (publish_versions vs' st) i') → E st i →
  swp (versions_apply edit) st i Q E.
Proof.
  intros [[edits Hvs] Hst] Hwf Hadd Hsmall HQ HE s Hs Hf. unfold versions_apply, versions_apply_with_visibility.
  pose proof (apply_frame (es_versions st) edit s edits) as H. rewrite Hs in H.
  specialize (H Hvs Hst Hwf Hadd Hsmall Hf).
  destruct (apply_with_visibility (es_versions st) edit s) as [[[e|] vs'] s'].
  - destruct H as (Hf' & -> & ->). by rewrite keep_versions_same.
  - destruct H as (Hf' & Ha). split; [by eapply HQ|done].
Qed.

Lemma applied_meta vs vs' edit es i i' : applied vs vs' edit es i i' → meta_ok vs' i'.
Proof. intros [Hok Hst _ _ _ _ _]. split; [by eexists|done]. Qed.

Lemma manifest_path vs i : meta_ok vs i → ∃ n, mw_path (vs_manifest vs) = manifest_name n.
Proof. intros [[es Hvs] _]. eexists. apply (vo_path _ _ _ Hvs). Qed.

Lemma manifest_small_same vs i i' :
  manifest_small vs i → same_at i i' (mw_path (vs_manifest vs)) → manifest_small vs i'.
Proof. intros Hs Hsame file. destruct (same_at_content _ _ _ Hsame) as [-> _]. apply Hs. Qed.

(** An edit is invisible to the tables and the logs. *)
Lemma applied_same vs vs' edit es i i' p :
  applied vs vs' edit es i i' → p ≠ mw_path (vs_manifest vs) → same_at i i' p.
Proof. intros Ha Hp. left. by apply (ap_only _ _ _ _ _ _ Ha). Qed.

Lemma applied_tables vs vs' edit es i i' : applied vs vs' edit es i i' → meta_ok vs i → tables_same i i'.
Proof.
  intros Ha Hm k. destruct (manifest_path _ _ Hm) as [n Hn]. destruct (table_name_meta k n) as ((_ & H1) & _ & H2).
  split; (eapply applied_same; [exact Ha|]; by rewrite Hn).
Qed.

Lemma applied_wal vs vs' edit es i i' k : applied vs vs' edit es i i' → meta_ok vs i → same_at i i' (wal_name k).
Proof.
  intros Ha Hm. destruct (manifest_path _ _ Hm) as [n Hn]. eapply applied_same; [exact Ha|]. rewrite Hn. apply wal_name_meta.
Qed.
End Apply.

(** ** Rotation *)

Lemma set_insert_sorted n l :
  StronglySorted Z.lt l → StronglySorted Z.lt (set_insert n l) ∧ ∀ m, m ∈ set_insert n l ↔ m = n ∨ m ∈ l.
Proof.
  induction 1 as [|x l Hs [IH1 IH2] Hall]; cbn.
  { split; [repeat constructor|]. intros m. rewrite list_elem_of_singleton, elem_of_nil. tauto. }
  rewrite Forall_forall in Hall. destruct (Z.compare_spec n x) as [->|Hlt|Hgt].
  - split; [constructor; [done|by apply Forall_forall]|]. intros m. rewrite elem_of_cons. tauto.
  - split; [|intros m; by rewrite elem_of_cons]. constructor; [constructor; [done|by apply Forall_forall]|].
    constructor; [done|]. apply Forall_forall. intros y Hy. specialize (Hall y Hy). lia.
  - split; [|intros m; rewrite !elem_of_cons, IH2; tauto]. constructor; [done|]. apply Forall_forall.
    intros y [->|Hy]%IH2; [lia|auto].
Qed.

Lemma layered_nil u ls : layered u ls → layered u ([] :: ls).
Proof. intros H. constructor; [done|]. apply Forall_forall. intros l _ e e' He. by apply elem_of_nil in He. Qed.

Section Rotate.
  Context `{C : Crc32c} {CR : Crc32cRange C} `{SN : Snappy} {SL : SnappyLaws SN} {AK : Acknowledged}.
  Context (options : Options).
  Abbreviation inv := (engine_inv options).

Lemma inv_allocate h T clock guards fl en i :
  inv h T clock guards fl en i → es_next_file_number (en_state en) + 1 ≤ U64_MAX →
  inv h T clock guards fl
    (with_state (with_next_file_number (es_next_file_number (en_state en) + 1) (en_state en)) en) i.
Proof.
  intros [Hr Hm Hl Hn Hf Hg] Hmax. set (n := es_next_file_number (en_state en)) in *. split; [|done|done| | |].
  - eapply reads_ok_step; [exact Hr|done..|by destruct (rk_readers _ _ _ _ _ _ _ Hr)|done|cbn; fold n; lia|apply Hr|apply Hr| |apply Hr|done|done].
    eapply version_ok_kept; [apply Hr|cbn; fold n; lia|done].
  - destruct Hn. split; cbn; try done.
    + lia.
    + intros Hok k Hk. apply (nk_fresh Hok). fold n. lia.
    + intros k Hk. apply nk_wal_fresh. fold n. lia.
    + eapply Forall_impl; [exact nk_wal_numbers|]. intros k Hk. cbn in Hk. fold n in Hk. lia.
    + intros k Hk. destruct (nk_obsolete k Hk) as (H1 & H2). fold n in H1. split; [lia|done].
  - eapply flush_ok_same; [exact Hf|intros k; split; apply same_at_refl|done|done|cbn; fold n; lia|done|done].
  - eapply logs_same; [exact Hg|done..|cbn; fold n; lia|intros k _; apply same_at_refl].
Qed.

(** The engine with a fresh log, which nothing refers to yet. *)
Lemma inv_new_log h T clock guards fl en i i' n :
  inv h T clock guards fl en i → 0 ≤ n < es_next_file_number (en_state en) → n ∉ es_wal_numbers (en_state en) →
  (∀ p, p ≠ wal_name n → same_at i i' p) → logs_ok options h T clock (en_state en) i' → inv h T clock guards fl en i'.
Proof.
  intros Hinv Hn Hnew Hsame Hg'. pose proof Hinv as [Hr Hm Hl Hk Hf _].
  assert (tables_same i i') as Ht.
  { intros k. split; apply Hsame; apply not_eq_sym; [apply wal_name_temporary|apply wal_name_table]. }
  pose proof (nk_next _ _ Hk) as Hmax.
  assert (∀ k, 0 ≤ k ≤ U64_MAX → k ≠ n → same_at i i' (wal_name k)) as Hw.
  { intros k Hk0 Hne. apply Hsame. intros Heq. apply wal_name_inj in Heq; lia. }
  assert (∀ k, k ∈ es_wal_numbers (en_state en) → same_at i i' (wal_name k)) as Hw'.
  { intros k Hin. pose proof (elem_of_Forall _ _ _ (nk_wal_numbers _ _ Hk) Hin) as Hb. cbn in Hb.
    apply Hw; [lia|]. by intros ->. }
  eapply inv_same; [exact Hinv|done| | | |done].
  - intros k [Hge|Hin]; [apply Hw; lia|by apply Hw'].
  - eapply meta_ok_kept; [done| |eapply version_tables_stored, Hr].
    intros p b Hp. apply stored_same, Hsame. intros ->. destruct (manifest_path _ _ Hm) as [m Hpath].
    destruct (wal_name_meta n m) as [H1 H2]. rewrite Hpath in Hp. destruct Hp as [?|[?|(f & _ & Heq)]]; [done..|].
    by apply wal_name_table in Heq.
  - eapply log_ok_same; [done|]. rewrite (proj1 Hl). apply Hw', (nk_owned _ _ Hk). by left.
Qed.

(** The state behind the switch of logs. *)
Definition switched (n largest : Z) (wal : LogWriter) (st : WriteState) : WriteState :=
  let old := es_mutable st in
  with_immutables (es_immutables st ++
      [{| im_table := mm_table old; im_wal_number := mm_wal_number old; im_largest_sequence := largest |}])
    (with_wal_numbers (set_insert n (es_wal_numbers st))
      (with_wal wal (with_mutable {| mm_table := MemTable_default; mm_wal_number := n |} st))).

Lemma switched_memory n largest wal st :
  memory_tables (switched n largest wal st) = MemTable_default :: memory_tables st.
Proof.
  unfold memory_tables, switched.
  cbn [es_immutables es_mutable with_immutables with_wal_numbers with_wal with_mutable mm_table]. by rewrite reverse_app.
Qed.

Lemma switched_layers T n largest wal st : layers T (switched n largest wal st) = [] :: layers T st.
Proof. unfold layers, engine_layers. by rewrite switched_memory. Qed.

Lemma inv_switched h T clock guards fl en i n largest wal :
  inv h T clock guards fl en i → 1 ≤ n < es_next_file_number (en_state en) → is_u64 largest →
  mt_entries (mm_table (es_mutable (en_state en))) ≠ [] → is_Some (ci_volatile i !! wal_name n) →
  log_ok options (switched n largest wal (en_state en)) i →
  logs_ok options h T clock (switched n largest wal (en_state en)) i →
  inv h T clock guards fl (with_state (switched n largest wal (en_state en)) en) i.
Proof.
  intros [Hr Hm Hl Hk Hf _] Hn Hlargest Hne Hfile Hlog Hg'. split; [|done|done| | |done].
  - eapply reads_ok_step; [exact Hr|done..|by destruct (rk_readers _ _ _ _ _ _ _ Hr)|done|done| | |apply Hr| | |done].
    + cbn [en_state with_state]. rewrite switched_memory. constructor; [by split; constructor|apply Hr].
    + cbn [en_state with_state]. rewrite switched_memory. constructor; [constructor|apply Hr].
    + intros u. cbn [en_state with_state]. rewrite switched_layers. apply layered_nil, Hr.
    + cbn [en_state with_state]. by rewrite switched_layers.
  - destruct Hk. destruct (set_insert_sorted n _ nk_wal_order) as [Hs Hm']. split; cbn; try done.
    + apply Forall_app. split; [done|]. by constructor.
    + apply Forall_forall. intros k [->|Hin]%Hm'; [done|]. by apply (elem_of_Forall _ _ _ nk_wal_numbers).
    + intros k [->|Hin]%Hm'; auto.
    + intros k Hkn. rewrite Hm'. rewrite map_app, elem_of_app in Hkn. cbn in Hkn. rewrite list_elem_of_singleton in Hkn.
      destruct Hkn as [?|[?|?]]; [by left|right; apply nk_owned; by right|right; apply nk_owned; by left].
  - eapply flush_ok_same; [exact Hf|intros k; split; apply same_at_refl|done| |done|done|done].
    intros m Hh. cbn. by destruct (es_immutables (en_state en)).
Qed.

(** An edit without files publishes the same tables. *)
Lemma inv_applied_nil h T clock guards fl en i i' vs' edit edits :
  inv h T clock guards fl en i → applied (es_versions (en_state en)) vs' edit edits i i' → no_files edit →
  logs_ok options h T clock (publish_versions vs' (en_state en)) i' →
  inv h T clock guards fl (with_state (publish_versions vs' (en_state en)) en) i'.
Proof.
  intros [Hr Hm Hl Hk Hf _] Ha Hnil Hg'. pose proof (applied_tables _ _ _ _ _ _ Ha Hm) as Ht.
  assert (vs_current vs' = vs_current (es_versions (en_state en))) as Hv.
  { eapply version_apply_nil; [apply Hr|exact Hnil|apply Ha]. }
  assert (layers T (publish_versions vs' (en_state en)) = layers T (en_state en)) as Hlay.
  { unfold layers. cbn [es_versions publish_versions]. by rewrite Hv. }
  split; [|by eapply applied_meta| | | |done].
  - eapply reads_ok_step; [exact Hr|done..|by destruct (rk_readers _ _ _ _ _ _ _ Hr)|done|done|apply Hr|apply Hr| | | |].
    + cbn. rewrite Hv. eapply version_ok_kept; [apply Hr|cbn; lia|]. intros f b _. apply stored_same, Ht.
    + intros u. cbn [en_state with_state]. rewrite Hlay. apply Hr.
    + cbn [en_state with_state]. by rewrite Hlay.
    + intros r f b _ _. apply stored_same, Ht.
  - eapply log_ok_same; [exact Hl|]. cbn. rewrite (proj1 Hl). by eapply applied_wal.
  - eapply (numbers_ok_same _ i); [|done|intros k _; by eapply applied_wal]. destruct Hk. by split; cbn; rewrite ?Hv.
  - eapply flush_ok_same; [exact Hf|done..].
Qed.

Lemma oldest_of_in immutables mutable :
  oldest_of immutables mutable = mm_wal_number mutable ∨ oldest_of immutables mutable ∈ map im_wal_number immutables.
Proof.
  unfold oldest_of. induction immutables as [|m ms IH]; cbn; [by left|].
  destruct (Z.min_spec (im_wal_number m) (foldr Z.min (mm_wal_number mutable) (map im_wal_number ms))) as [[_ ->]|[_ ->]].
  - right. by left.
  - destruct IH as [->|IH]; [by left|]. right. by right.
Qed.

Lemma owned_bounds st i n : numbers_ok st i → n = mm_wal_number (es_mutable st) ∨ n ∈ map im_wal_number (es_immutables st) → 1 ≤ n < es_next_file_number st.
Proof. intros Hk Hn. apply (elem_of_Forall _ _ _ (nk_wal_numbers _ _ Hk)). by apply (nk_owned _ _ Hk). Qed.

Lemma oldest_bounds st i : numbers_ok st i → 1 ≤ oldest_required_wal st < es_next_file_number st.
Proof. intros Hk. eapply owned_bounds; [exact Hk|]. apply oldest_of_in. Qed.

(** The log of a writer that has just been created. *)
Lemma log_rep_empty i w ww max :
  log_rep i w ww → WalWriter_create max = Ok ww →
  ci_volatile i !! lw_path w = Some [] ∧ ci_durable i !! lw_path w = Some [] ∧
  (ci_synced i !! lw_path w = None ∨ ci_synced i !! lw_path w = ci_durable i !! lw_path w).
Proof.
  intros [] Hc. unfold WalWriter_create in Hc. destruct (encoded_record_limit max); [|done]. injection Hc as <-. done.
Qed.

(** The logs behind the edit of a rotation, and behind the switch. *)
Lemma logs_rotated h T clock st i i' vs' edit edits n largest w limit :
  logs_ok options h T clock st i → version_wf (vs_current (es_versions st)) → meta_ok (es_versions st) i →
  applied (es_versions st) vs' edit edits i i' →
  edit = set_active_log_number (set_log_number (set_next_file_number VersionEdit_new (es_next_file_number st))
    (oldest_required_wal st)) n →
  mm_wal_number (es_mutable st) < n < es_next_file_number st → es_next_sequence st - 1 = largest →
  mt_entries (mm_table (es_mutable st)) ≠ [] → encoded_record_limit (op_max_batch_bytes options) = Ok limit →
  ci_volatile i !! wal_name n = Some [] → ci_durable i !! wal_name n = Some [] →
  ci_synced i !! wal_name n = None ∨ ci_synced i !! wal_name n = ci_durable i !! wal_name n → lw_block_offset w = 0 →
  logs_ok options h T clock (publish_versions vs' st) i' ∧ logs_ok options h T clock (switched n largest w (publish_versions vs' st)) i'.
Proof.
  intros (old & segs & Hl) Hwf Hm Ha He Hn Hlast Hne Hlim Hv Hd Hs Hoff.
  destruct (counters_updated _ _ _ _ (ap_counters _ _ _ _ _ _ Ha)) as (C1 & C2 & C3 & C4 & C5).
  rewrite He in C1, C2, C3, C4, C5. cbn in C1, C2, C3, C4, C5.
  assert (vs_current vs' = vs_current (es_versions st)) as Hcur.
  { eapply version_apply_nil; [exact Hwf| |apply Ha]. by rewrite He. }
  assert (view i' (wal_name n) = view i (wal_name n)) as Hview.
  { apply (ap_only _ _ _ _ _ _ Ha). destruct (manifest_path _ _ Hm) as [m ->]. apply wal_name_meta. }
  apply view_eq in Hview as (Hv' & Hs' & Hd').
  assert (log_state options h T clock (publish_versions vs' st) i' old segs) as Hl'.
  { eapply logs_published; [exact Hl|done|done|intros k _; by eapply applied_wal|]. destruct (lg_counters _ _ _ _ _ _ _ _ Hl) as [K1 K2 K3 K4 K5 K6].
    split; cbn; rewrite ?C1, ?C2, ?C3, ?C4, ?C5, ?Hcur; try done; try lia.
    - rewrite Hv', Hd', Hv, Hd. eauto.
    - intros f Hf. specialize (K6 f Hf). lia. }
  split; [by exists old, segs|].
  edestruct (log_state_switched options h T clock (publish_versions vs' st) (switched n largest w (publish_versions vs' st)) i' old segs n)
    as [segs' Hl2]; [exact Hl'|cbn; rewrite C4; lia|done|exact Hlim|by rewrite Hv'|by rewrite Hd'|
      by rewrite Hs', Hd'| | | | |reflexivity|..|by exists old, segs']; done.
Qed.

(** Rotation. *)
Lemma rotate_inv h T clock guards fl en i largest :
  inv h T clock guards fl en i → manifest_small (es_versions (en_state en)) i → is_u64 largest →
  largest = es_next_sequence (en_state en) - 1 → mt_entries (mm_table (es_mutable (en_state en))) ≠ [] →
  swp (rotate_memtable options largest) (en_state en) i
    (λ _ st' i', inv h T clock guards fl (with_state st' en) i')
    (λ st' i', inv h T clock guards fl (with_state st' en) i').
Proof.
  intros Hinv Hsmall Hlargest Hlast Hne. pose proof Hinv as [Hr Hm Hl Hk Hf Hg]. pose proof (nk_next _ _ Hk) as Hnext.
  set (n := es_next_file_number (en_state en)) in *. unfold rotate_memtable.
  apply swp_bind, allocate_wp; [exact Hnext|by rewrite with_state_same|]. fold n. intros Hmax.
  pose proof (inv_allocate _ _ _ _ _ _ _ Hinv Hmax) as Hinv1. fold n in Hinv1.
  set (en1 := with_state (with_next_file_number (n + 1) (en_state en)) en) in *.
  destruct Hl as [Hpath (ww & _ & _ & Hlim)]. destruct (nk_wal_fresh _ _ Hk n ltac:(lia)) as [Hwv Hwd].
  assert (∃ ww0, WalWriter_create (op_max_batch_bytes options) = Ok ww0) as [ww0 Hcreate] by (unfold WalWriter_create; rewrite Hlim; eauto).
  apply swp_bind, swp_fs. eapply log_create_wp; [exact Hcreate|done|done|done|].
  intros w i1 Hrep Hp Hview.
  assert (∀ p, p ≠ wal_name n → same_at i i1 p) as Hsame by (intros p Hne'; right; by apply Hview).
  assert (n ∉ es_wal_numbers (en_state en)) as Hnew.
  { intros Hin. apply (elem_of_Forall _ _ _ (nk_wal_numbers _ _ Hk)) in Hin. cbn in Hin. fold n in Hin. lia. }
  destruct (log_rep_empty _ _ _ _ Hrep Hcreate) as (He1 & He2 & He3). rewrite Hp in He1, He2, He3.
  assert (idle i1 (wal_name n)) as Hidle.
  { unfold idle. rewrite He2. split; [done|]. destruct He3 as [->| ->]; [done|by rewrite He2]. }
  assert (inv h T clock guards fl en1 i1) as Hinv2 by (eapply (inv_new_log _ _ _ _ _ _ _ _ n); [exact Hinv1|unfold en1; cbn; lia|done|done|
    eapply logs_same; [exact (logs_new _ _ _ _ _ _ _ Hg Hsame Hidle)|done..|unfold en1; cbn; lia|intros k _; apply same_at_refl]]).
  apply swp_bind, swp_get. apply swp_bind. eapply versions_apply_wp.
  - apply (ei_meta _ _ _ _ _ _ _ _ Hinv2).
  - pose proof (oldest_bounds _ _ (ei_numbers _ _ _ _ _ _ _ _ Hinv2)) as Hold. cbn in Hold.
    split; cbn; unfold is_u64; try done; lia.
  - constructor.
  - change (manifest_small (es_versions (en_state en)) i1). eapply manifest_small_same; [exact Hsmall|].
    apply Hsame. destruct (manifest_path _ _ Hm) as [m ->]. apply not_eq_sym, wal_name_meta.
  - intros vs' edits i2 Ha. apply swp_update.
    pose proof (applied_wal _ _ _ _ _ _ n Ha (ei_meta _ _ _ _ _ _ _ _ Hinv2)) as Hwal.
    assert (logs_ok options h T clock (publish_versions vs' (en_state en1)) i2 ∧
      logs_ok options h T clock (switched n largest w (publish_versions vs' (en_state en1))) i2) as [Hg2 Hg3].
    { eapply logs_rotated; [apply Hinv2|apply (vk_wf _ _ _ _ _ (rk_version _ _ _ _ _ _ _ Hr))|apply Hinv2|exact Ha|reflexivity| |by rewrite Hlast|done|
        exact Hlim|done|done|done|].
      - cbn. pose proof (owned_bounds _ _ (mm_wal_number (es_mutable (en_state en))) Hk ltac:(by left)) as Hb. fold n in Hb. lia.
      - rewrite (lr_offset _ _ _ Hrep). unfold WalWriter_create in Hcreate. rewrite Hlim in Hcreate. by injection Hcreate as <-. }
    pose proof (inv_applied_nil _ _ _ _ _ _ _ _ _ _ _ Hinv2 Ha ltac:(done) Hg2) as Hinv3.
    apply (inv_switched _ _ _ _ _ _ _ n largest w Hinv3); [unfold en1; cbn; lia|done|done| | |done].
    + destruct (same_at_content _ _ _ Hwal) as [-> _]. by rewrite He1.
    + split; [done|]. eexists. split; [eapply log_rep_views; [exact Hrep|cbn; rewrite Hp; exact Hwal]|].
      unfold WalWriter_create in Hcreate. rewrite Hlim in Hcreate. by injection Hcreate as <-.
  - exact Hinv2.
Qed.

(** ** Failures *)

(** The flags that stop writes and reads are not part of what is stored; a failure
    stays. *)
Definition same_data (st st' : WriteState) : Prop :=
  ∃ failure background closed, (failure = None → es_terminal_failure st = None) ∧ st' = with_terminal_failure failure (with_background_failure background (with_closed closed st)).

Lemma inv_flags h T clock guards fl en st i :
  inv h T clock guards fl en i → same_data (en_state en) st → inv h T clock guards fl (with_state st en) i.
Proof.
  intros [[] Hm Hl [] Hf Hg] (failure & background & closed & Hstay & ->).
  split; [split; try done; by destruct rk_readers|done|done|split; try done; cbn; auto|done|by eapply logs_fields].
Qed.

Lemma record_terminal_same e st : same_data st (record_terminal_failure e st).2.
Proof.
  unfold record_terminal_failure. destruct (es_terminal_failure st) as [f|] eqn:E; cbn.
  - exists (Some f), (es_background_failure st), (es_closed st). split; [done|]. destruct st. cbn in *. by subst.
  - eexists (Some _), (es_background_failure st), (es_closed st). split; [done|]. by destruct st.
Qed.

Lemma record_background_same e st : same_data st (record_background_failure e st).2.
Proof.
  unfold record_background_failure. destruct (record_terminal_same e st) as (f & b & c & Hf & Hst).
  destruct (record_terminal_failure e st) as [e' st']. cbn in *. subst st'. by exists f, true, c.
Qed.

Lemma fail_terminally_wp {A} e st i (Q : A → WriteState → CrashImage → Prop) (E : WriteState → CrashImage → Prop) :
  (∀ st', same_data st st' → E st' i) → swp (fail_terminally e) st i Q E.
Proof.
  intros HE s Hs Hf. unfold fail_terminally. pose proof (record_terminal_same e st) as H.
  destruct (record_terminal_failure e st) as [e' st']. rewrite Hs. split; [by apply HE|done].
Qed.

(** ** Commits *)

Definition committed_state (wal : LogWriter) (table : MemTable) (s : Z) (st : WriteState) : WriteState :=
  with_next_sequence (s + 1)
    (with_mutable {| mm_table := table; mm_wal_number := mm_wal_number (es_mutable st) |} (with_wal wal st)).

Lemma committed_layers T wal table s b st :
  mt_entries table ≡ₚ batch_entries s b ++ mt_entries (mm_table (es_mutable st)) →
  ∃ rest, layers T (committed_state wal table s st) = mt_entries table :: rest ∧
    layers T st = mt_entries (mm_table (es_mutable st)) :: rest ∧
    concat (layers T (committed_state wal table s st)) ≡ₚ batch_entries s b ++ concat (layers T st).
Proof.
  intros Hp. unfold layers, engine_layers, memory_tables. eexists. split; [reflexivity|]. split; [reflexivity|].
  cbn [map app concat mm_table es_mutable committed_state with_next_sequence with_mutable with_wal].
  by rewrite Hp, app_assoc.
Qed.

Lemma reads_ok_committed h T clock guards en i i' b wal table :
  let s := es_next_sequence (en_state en) in
  options_ok options → reads_ok options h T clock guards en i → tables_same i i' → seq_ok s →
  validate_batch options b = Ok tt → Forall op_wf (operations b) →
  memtable_ok table → mt_entries table ≡ₚ batch_entries s b ++ mt_entries (mm_table (es_mutable (en_state en))) →
  reads_ok options (h ++ [(s, b)]) T clock guards
    (with_committed_sequence s (with_state (committed_state wal table s (en_state en)) en)) i'.
Proof.
  intros s Ho Hr Ht Hs Hval Hops Htab Hp.
  destruct (committed_layers T wal table s b (en_state en) Hp) as (rest & Hlay' & Hlay & Hc).
  pose proof (rk_sequence _ _ _ _ _ _ _ Hr) as (Hc0 & Hnext & Hcs). fold s in Hnext.
  pose proof (rk_covered _ _ _ _ _ _ _ Hr) as Hcov. pose proof (rk_old _ _ _ _ _ _ _ Hr) as Hold.
  set (c := en_committed_sequence en) in *. set (st' := committed_state wal table s (en_state en)) in *.
  assert (hist_wf (h ++ [(s, b)])) as Hwf by (eapply hist_wf_snoc; [apply Hr|exact Hold|lia|done|done]).
  pose proof (reads_ok_image _ _ _ _ _ _ _ i' Hr (tables_same_safe _ _ _ Ht)) as Hr'.
  destruct Hr' as [_ _ _ Hmem Hfit Hver Hl Hun _ Hrd Hreg Hg Hro Hheld].
  split; cbn [en_committed_sequence en_state with_committed_sequence with_state en_snapshots en_readers]; fold s; fold st'.
  - done.
  - apply Forall_app. split; [|constructor; [cbn; lia|constructor]]. eapply Forall_impl; [exact Hold|]. intros x Hx. cbn in *. lia.
  - split; [lia|]. split; [done|done].
  - unfold memory_tables in *. apply Forall_cons in Hmem as [_ Hmem]. by constructor.
  - unfold memory_tables in *. apply Forall_cons in Hfit as [Hf1 Hfit]. constructor; [|done].
    unfold entries_fit in *. cbn. rewrite Hp. apply Forall_app. split; [by apply batch_fit|done].
  - done.
  - intros u. specialize (Hl u). rewrite Hlay in Hl. rewrite Hlay'. apply StronglySorted_inv in Hl as [Hl Habove].
    constructor; [done|]. rewrite Forall_forall in Habove |- *. intros l Hin e e' He He' Hu Hu'.
    rewrite Hp, elem_of_app in He. destruct He as [He|He]; [|by apply (Habove l Hin e e')].
    rewrite (elem_of_Forall _ _ _ (batch_seqs s b Hs) He). enough (e_seq e' ≤ c) by lia. apply Hcov.
    rewrite Hlay. cbn. apply elem_of_app. right. apply elem_of_concat. eauto.
  - rewrite Hc, map_app. apply NoDup_app. split; [by apply batch_keys|]. split; [|done].
    intros x (e & -> & He)%list_elem_of_fmap (e' & Heq & He')%list_elem_of_fmap. unfold version_key in Heq. injection Heq as _ Heq.
    rewrite (elem_of_Forall _ _ _ (batch_seqs s b Hs) He) in Heq. specialize (Hcov e' He'). lia.
  - intros e. rewrite Hc, elem_of_app. intros [He|He]; [by rewrite (elem_of_Forall _ _ _ (batch_seqs s b Hs) He)|].
    specialize (Hcov e He). lia.
  - intros u q now Hq Hnow. apply (reads_perm _ _ _ (batch_entries s b ++ concat (layers T (en_state en)))); [by rewrite Hc|].
    apply elem_of_cons in Hq as [->|Hq].
    + apply (reads_committed _ _ c); try done; [lia|]. apply Hrd; [by left|done].
    + pose proof (elem_of_Forall _ _ _ Hg Hq) as Hqc. cbn in Hqc. fold c in Hqc.
      eapply (reads_before _ _ _ s); [by apply batch_seqs|lia|]. unfold hist_value.
      rewrite hist_get_snoc, (proj2 (Z.leb_gt s q)) by lia. apply Hrd; [by right|done].
  - done.
  - eapply Forall_impl; [exact Hg|]. intros q Hq. cbn in *. fold c in Hq. lia.
  - by destruct Hro.
  - done.
Qed.

(** Only the log [n] is touched. *)
Lemma only_wal_tables n i i' : only_at (wal_name n) i i' → tables_same i i'.
Proof. intros Ho k. split; left; apply Ho, not_eq_sym; [apply wal_name_temporary|apply wal_name_table]. Qed.

Lemma only_wal_meta vs n i i' :
  meta_ok vs i → tables_stored i (vs_current vs) → only_at (wal_name n) i i' → meta_ok vs i'.
Proof.
  intros Hm Ht Ho. eapply meta_ok_kept; [exact Hm| |done]. intros p b Hp. apply stored_same. left. apply Ho.
  intros ->. destruct (manifest_path _ _ Hm) as [m Hpm]. rewrite Hpm in Hp. destruct (wal_name_meta n m).
  destruct Hp as [?|[?|(f & _ & Heq)]]; [done..|]. by apply wal_name_table in Heq.
Qed.

Lemma only_wal_numbers st n i i' :
  numbers_ok st i → n ∈ es_wal_numbers st → only_at (wal_name n) i i' → is_Some (ci_volatile i' !! wal_name n) →
  numbers_ok st i'.
Proof.
  intros Hk Hin Ho Hfile. pose proof (only_wal_tables _ _ _ Ho) as Ht. pose proof (nk_next _ _ Hk) as Hnext.
  pose proof (elem_of_Forall _ _ _ (nk_wal_numbers _ _ Hk) Hin) as Hn. cbn in Hn.
  assert (∀ k, 0 ≤ k ≤ U64_MAX → k ≠ n → same_at i i' (wal_name k)) as Hwal.
  { intros k Hk0 Hne. left. apply Ho. intros Heq. apply wal_name_inj in Heq; lia. }
  destruct Hk. split; try done.
  - intros Hok. eapply fresh_same; [by apply nk_fresh|done].
  - intros k Hk. destruct (nk_wal_fresh k Hk). apply (same_at_none i); [apply Hwal; lia|done..].
  - intros k Hk. destruct (decide (k = n)) as [->|Hne]; [done|].
    pose proof (elem_of_Forall _ _ _ nk_wal_numbers Hk) as Hkb. cbn in Hkb.
    destruct (same_at_content i i' (wal_name k)) as [-> _]; [apply Hwal; [lia|done]|auto].
  - intros k Hk. destruct (nk_obsolete k Hk) as (H1 & H2 & b & Hb). do 2 (split; [done|]). exists b.
    eapply stored_same; [apply Ht|done].
Qed.

Lemma inv_committed h T clock guards fl en i i' b wal ww table :
  let s := es_next_sequence (en_state en) in
  options_ok options → inv h T clock guards fl en i → seq_ok s →
  validate_batch options b = Ok tt → Forall op_wf (operations b) → memtable_ok table →
  mt_entries table ≡ₚ batch_entries s b ++ mt_entries (mm_table (es_mutable (en_state en))) →
  log_rep i' wal ww → lw_path wal = lw_path (es_wal (en_state en)) →
  ww_max_batch_bytes ww = op_max_batch_bytes options →
  encoded_record_limit (op_max_batch_bytes options) = Ok (ww_max_logical_record_bytes ww) →
  only_at (lw_path (es_wal (en_state en))) i i' →
  logs_ok options (h ++ [(s, b)]) T clock (committed_state wal table s (en_state en)) i' →
  inv (h ++ [(s, b)]) T clock guards fl
    (with_committed_sequence s (with_state (committed_state wal table s (en_state en)) en)) i'.
Proof.
  intros s Ho [Hr Hm Hl Hk Hf _] Hs Hval Hops Htab Hp Hrep Hpath Hmax Hlim Honly Hg'. pose proof (proj1 Hl) as Hw.
  rewrite Hw in Honly. pose proof (only_wal_tables _ _ _ Honly) as Ht.
  split.
  - by apply (reads_ok_committed _ _ _ _ _ i).
  - eapply only_wal_meta; [exact Hm|eapply version_tables_stored, Hr|done].
  - split; [cbn; congruence|]. by exists ww.
  - assert (numbers_ok (en_state en) i') as []; [|by split].
    eapply only_wal_numbers; [exact Hk|apply (nk_owned _ _ Hk); by left|done|].
    rewrite <- Hw, <- Hpath, (lr_volatile _ _ _ Hrep). eauto.
  - eapply flush_ok_same; [exact Hf|done..].
  - done.
Qed.

(** A batch that the log accepts when the payload limit admits it. *)
Definition appendable (s : Z) (b : WriteBatch) : Prop :=
  batch_wf b ∧ Forall (λ op, 1 ≤ op_payload op) (operations b) ∧ ∃ e, encode_batch s b = Ok e.

(** What becomes of the log when a batch is appended. *)
Lemma append_wp st i s b (Q : LogWriter → WriteState → CrashImage → Prop) E :
  log_ok options st i → operations b ≠ [] → approximate_bytes b ≤ op_max_batch_bytes options →
  0 ≤ op_max_batch_bytes options →
  (∀ ww w ww' i', log_rep i (es_wal st) ww → ww_max_batch_bytes ww = op_max_batch_bytes options →
    encoded_record_limit (op_max_batch_bytes options) = Ok (ww_max_logical_record_bytes ww) →
    WalWriter_append ww s b (op_durability options) = Ok ww' → log_rep i' w ww' → lw_path w = lw_path (es_wal st) →
    only_at (lw_path (es_wal st)) i i' → Q w st i') → (¬ appendable s b → E st i) →
  swp (c_fs (log_append (es_wal st) s b (op_durability options))) st i Q E.
Proof.
  intros [_ (ww & Hrep & Hmax & Hlim)] Hne Hle H0 HQ HE.
  destruct (WalWriter_append ww s b (op_durability options)) as [ww'|e] eqn:Ea.
  - apply swp_fs. eapply log_append_wp; [exact Hrep|exact Ea|done|]. intros w' i' Hrep' Hp Honly.
    by apply (HQ ww w' ww' i').
  - intros fs Hs Hf. unfold c_fs. rewrite (log_append_refused i _ ww s b _ e fs Hrep Ea), Hs.
    split; [|done]. apply HE. intros (Hwf & Hpay & e' & He').
    assert (∃ w0, WalWriter_create (op_max_batch_bytes options) = Ok w0 ∧
      ww_max_logical_record_bytes ww = ww_max_logical_record_bytes w0) as (w0 & Hw0 & Hl0).
    { unfold WalWriter_create. rewrite Hlim. by eexists. }
    destruct (wal_limit_covers_payload ww w0 _ s b (op_durability options) e' H0 Hw0 Hmax Hl0
      (lr_block _ _ _ Hrep) Hwf Hne Hle Hpay He') as (? & Hok & _). congruence.
Qed.

Lemma manifest_small_only vs i i' p :
  meta_ok vs i → manifest_small vs i → only_at (wal_name p) i i' → manifest_small vs i'.
Proof.
  intros Hm Hs Ho. eapply manifest_small_same; [exact Hs|]. left. apply Ho. destruct (manifest_path _ _ Hm) as [n ->].
  apply not_eq_sym, wal_name_meta.
Qed.

(** A rotation that fails is recorded, and the write is done. *)
Lemma rotate_if_full_inv h T clock guards fl en i s (E : WriteState → CrashImage → Prop) :
  inv h T clock guards fl en i → manifest_small (es_versions (en_state en)) i → is_u64 s → s = es_next_sequence (en_state en) - 1 →
  mt_entries (mm_table (es_mutable (en_state en))) ≠ [] →
  swp (rotate_if_full options s) (en_state en) i (λ _ st' i', inv h T clock guards fl (with_state st' en) i') E.
Proof.
  intros Hinv Hsmall Hs Hlast Hne. unfold rotate_if_full. apply swp_bind, swp_get. destruct (_ <=? _).
  - apply swp_try. eapply swp_mono; [by apply (rotate_inv h T clock guards fl)|done|].
    intros st' i' Hinv' e. apply swp_update. apply (inv_flags _ _ _ _ _ _ _ _ Hinv'). apply record_terminal_same.
  - apply swp_ret. by rewrite with_state_same.
Qed.

(** What a write needs: an open engine, room for its memtable, and a batch within the
    limits (operations without a byte can exceed the log's limit). *)
Definition write_accepted (en : Engine) (prepare : result WriteBatch) : Prop :=
  ensure_writable (en_state en) = Ok tt ∧ zlen (es_immutables (en_state en)) < op_max_immutable_memtables options ∧
  es_next_sequence (en_state en) ≠ U64_MAX ∧
  ∃ b, prepare = Ok b ∧ validate_batch options b = Ok tt ∧ appendable (es_next_sequence (en_state en)) b.

(** A write commits its batch, or leaves the history as it was and was not acceptable. *)
Lemma write_inv h T clock guards fl en i prepare :
  options_ok options → inv h T clock guards fl en i → manifest_small (es_versions (en_state en)) i →
  (∀ b, prepare = Ok b → batch_wf b) →
  swp (write_serialized options prepare) en i
    (λ _ en' i', ∃ b, prepare = Ok b ∧ inv (h ++ [(es_next_sequence (en_state en), b)]) T clock guards fl en' i')
    (λ en' i', inv h T clock guards fl en' i' ∧ ¬ write_accepted en prepare).
Proof.
  intros Ho Hinv Hsmall Hops. unfold write_serialized. apply swp_bind, swp_get, swp_bind, swp_refuse; [|intros [] Hens].
  { intros Hr. split; [done|]. intros (Hok & _). by apply Hr in Hok. }
  apply swp_bind, swp_refuse; [|intros b Hb].
  { intros Hr. split; [done|]. intros (_ & _ & _ & b & Hok & _). by apply Hr in Hok. }
  apply swp_bind, swp_refuse; [|intros [] Hval].
  { intros Hr. split; [done|]. intros (_ & _ & _ & b' & Hb' & Hok & _). rewrite Hb in Hb'. injection Hb' as <-. by apply Hr in Hok. }
  destruct (Z.leb_spec (op_max_immutable_memtables options) (zlen (es_immutables (en_state en)))) as [Hfull|_].
  { apply swp_fail. split; [done|]. intros (_ & Hroom & _). lia. }
  pose proof Hinv as [Hr Hm Hl Hk Hf Hg]. destruct (Hops b Hb) as (Hbb & Hbm & Hbo).
  set (s := es_next_sequence (en_state en)). destruct (Z.eqb_spec s U64_MAX) as [Heq|Hne].
  { apply swp_fail. split; [done|]. by intros (_ & _ & Hne & _). }
  assert (seq_ok s ∧ en_committed_sequence en < s) as [Hs Hcs].
  { destruct (rk_sequence _ _ _ _ _ _ _ Hr) as (? & Heq & ?). fold s in Heq. unfold seq_ok, MAX_SEQUENCE_NUMBER in *. lia. }
  pose proof (rk_memory _ _ _ _ _ _ _ Hr) as Hmem. unfold memory_tables in Hmem. apply Forall_cons in Hmem as [[Hsort Hwf] _].
  destruct (apply_entries (mm_table (es_mutable (en_state en))) s b Hsort Hwf) as (table & Happly & Hs' & Hw' & Hp);
    [|done|done|].
  { apply Forall_forall. intros e He. enough (e_seq e ≤ en_committed_sequence en) by lia.
    apply (rk_covered _ _ _ _ _ _ _ Hr). unfold layers, engine_layers, memory_tables. cbn. apply elem_of_app. by left. }
  destruct (validate_batch_ok _ _ Hval) as (Hsome & Hle & _).
  apply swp_bind, swp_on_state. unfold commit_batch. apply swp_bind, swp_get, swp_bind, swp_try.
  apply append_wp; [exact Hl|done|done|apply Ho| |].
  - intros ww w ww' i' Hrep Hmax Hlim Happend Hrep' Hpath Honly. apply swp_bind, swp_update, swp_bind. eapply swp_lift_ok; [exact Happly|].
    apply swp_update, swp_bind, swp_update, swp_on_state. destruct (append_limits _ _ _ _ _ Happend) as [Hmax' Hlim'].
    assert (logs_ok options (h ++ [(s, b)]) T clock (committed_state w table s (en_state en)) i') as Hg'.
    { destruct Hg as (old & segs & Hg). rewrite (proj1 Hl) in Hpath, Honly.
      destruct (log_state_committed options h T clock (en_state en) (committed_state w table s (en_state en)) i i' old segs w ww ww' table b)
        as [segs' Hg']; [exact Hg|exact Hrep|exact Hrep'|apply Hl|done|done|done|done|done|done|done|try done..|by exists old, segs']. }
    pose proof (inv_committed h T clock guards fl en i i' b w ww' table Ho Hinv Hs Hval Hbo (conj Hs' Hw') Hp
      Hrep' Hpath ltac:(congruence) ltac:(congruence) Honly Hg') as Hinv'.
    eapply swp_mono; [apply (rotate_if_full_inv _ _ _ _ _ _ _ _ (λ _ _, False) Hinv')| |done].
    + rewrite (proj1 Hl) in Honly. by eapply manifest_small_only.
    + unfold is_u64, seq_ok, MAX_SEQUENCE_NUMBER in *. lia.
    + cbn. lia.
    + cbn. intros Hnil. rewrite Hnil in Hp. apply (batch_entries_some s b) in Hsome.
      apply Permutation_nil_l in Hp. by destruct (batch_entries s b).
    + intros [] st' i2 Hi2. by exists b.
  - intros Hna e. apply fail_terminally_wp. intros st' Hsame. split; [by apply (inv_flags _ _ _ _ _ _ _ _ Hinv)|].
    intros (_ & _ & _ & b' & Hb' & _ & Hap). rewrite Hb in Hb'. injection Hb' as <-. done.
Qed.

End Rotate.
