(* ===== verification/EngineFlush.v ===== *)
(** * Synchronization and flushes keep the invariant

    Logs are synchronized and retired, and an immutable memtable becomes the newest
    table of level 0, which is the layer it was. *)

From Stdlib Require Import ZArith Lia Sorting.Sorted.
From stdpp Require Import base list gmap strings sorting.
From S2P Require Import Prelude Fs StateFs Checksum InternalKey Batch ValueRecord Snapshot Mvcc MemTable Iter IterFacts.
From S2P Require Import Version Wal Options ManifestCodec Manifest ManifestSet ManifestBoot WalFs Block TableBuilder.
From S2P Require Import TableReader TableStore Compaction CompactionRun Engine EngineOps EngineRead EngineEdits EngineFrame.
From S2P Require Import EngineHistory EngineLogs EngineInv EngineWrite.

Local Open Scope Z_scope.

Section Sync.
  Context `{C : Crc32c} {CR : Crc32cRange C} `{SN : Snappy} {SL : SnappyLaws SN} {AK : Acknowledged}.
  Context (options : Options).
  Abbreviation inv := (engine_inv options).

(** ** Synchronization *)

Lemma inv_touch_wal h T clock guards fl en i i' n :
  inv h T clock guards fl en i → n ∈ es_wal_numbers (en_state en) → only_at (wal_name n) i i' →
  is_Some (ci_volatile i' !! wal_name n) → log_ok options (en_state en) i' → logs_ok options h T clock (en_state en) i' →
  inv h T clock guards fl en i'.
Proof.
  intros [Hr Hm Hl Hk Hf _] Hin Ho Hfile Hl' Hg'. pose proof (only_wal_tables _ _ _ Ho) as Ht. split.
  - eapply reads_ok_image; [exact Hr|by apply tables_same_safe].
  - eapply only_wal_meta; [exact Hm|eapply version_tables_stored, Hr|done].
  - done.
  - by eapply only_wal_numbers.
  - eapply flush_ok_same; [exact Hf|done..].
  - done.
Qed.

Lemma log_paths_differ st i n :
  numbers_ok st i → log_ok options st i → n ∈ es_wal_numbers st → n ≠ mm_wal_number (es_mutable st) →
  lw_path (es_wal st) ≠ wal_name n.
Proof.
  intros Hk [-> _] Hin Hne Heq. pose proof (owned_bounds _ _ _ Hk ltac:(by left)) as Hb.
  pose proof (elem_of_Forall _ _ _ (nk_wal_numbers _ _ Hk) Hin) as Hn. cbn in Hn. pose proof (nk_next _ _ Hk).
  apply wal_name_inj in Heq; lia.
Qed.

Lemma owned_number st i n : numbers_ok st i → owned_log st n → n ∈ es_wal_numbers st.
Proof. intros Hk Hn. apply (nk_owned _ _ Hk). apply elem_of_app in Hn as [?|?%list_elem_of_singleton]; auto. Qed.

Lemma sync_wal_wp h T clock guards fl en i n (Q : unit → CrashImage → Prop) :
  inv h T clock guards fl en i → owned_log (en_state en) n → logs_upto options n h T clock (en_state en) i →
  (∀ i', inv h T clock guards fl en i' → only_at (wal_name n) i i' → logs_upto options (n + 1) h T clock (en_state en) i' → Q tt i') →
  wpf false (if n =? mm_wal_number (es_mutable (en_state en)) then log_sync (es_wal (en_state en))
    else fs_map_err (io_error "sync WAL") (sync_file (wal_name n))) i Q (λ _, False).
Proof.
  intros Hinv Hown Hup HQ. pose proof Hinv as [Hr Hm Hl Hk Hf Hg]. pose proof (owned_number _ _ _ Hk Hown) as Hin.
  destruct (owned_file _ _ _ _ _ _ _ Hg Hown) as [[b Hb] [d Hd]].
  assert (∀ i', only_at (wal_name n) i i' → file_synced i' (wal_name n) b → log_ok options (en_state en) i' → Q tt i') as Hdone.
  { intros i' Ho Hs Hl'. pose proof (logs_sync _ _ _ _ _ _ _ _ _ Hup Hown Hb Hs Ho) as Hup'. apply HQ; [|done|done].
    eapply inv_touch_wal; [exact Hinv|exact Hin|done|destruct Hs as (-> & _); eauto|done|by eapply logs_upto_ok]. }
  destruct (Z.eqb_spec n (mm_wal_number (es_mutable (en_state en)))) as [->|Hne].
  - destruct Hl as [Hpath (ww & Hrep & Hmax & Hlim)]. eapply log_sync_wp; [done|exact Hrep|]. rewrite Hpath.
    intros i' Hrep' Ho. pose proof (lr_volatile _ _ _ Hrep) as Hv. rewrite Hpath, Hb in Hv. injection Hv as ->.
    apply Hdone; [done| |split; [done|by exists (WalWriter_sync ww)]]. destruct Hrep'. rewrite Hpath in *.
    split; [done|]. split; [|done]. rewrite lr_durable. cbn. unfold zlen. by rewrite Nat2Z.id, firstn_all.
  - apply wp_map_err. eapply wp_sync_file; [done|exact Hb|].
    assert (record_truncate (wal_name n) b i = i) as ->.
    { unfold record_truncate. rewrite insert_id by done. by destruct i. }
    pose proof (view_sync i (wal_name n) b) as Hview.
    assert (only_at (wal_name n) i (record_file_sync (wal_name n) i)) as Ho.
    { intros p Hp. rewrite Hview by done. by rewrite decide_False. }
    apply Hdone; [done| |].
    + specialize (Hview (wal_name n) Hb). rewrite decide_True, Hd in Hview by done. apply view_eq in Hview as (H1 & H2 & H3).
      split; [by rewrite H1|]. split; [done|right; by rewrite H2, H3].
    + eapply log_ok_same; [exact Hl|]. left. apply Ho. by eapply log_paths_differ.
Qed.

Lemma set_of_elem l : StronglySorted Z.lt (set_of l) ∧ ∀ n, n ∈ set_of l ↔ n ∈ l.
Proof.
  unfold set_of. induction l as [|x l [IH1 IH2]] using rev_ind; [split; [constructor|done]|].
  rewrite fold_left_app. cbn. destruct (set_insert_sorted x _ IH1) as [Hs Hm]. split; [done|].
  intros n. rewrite Hm, IH2, elem_of_app, list_elem_of_singleton. tauto.
Qed.

(** A log is not the manifest. *)
Definition manifest_same (vs : VersionSet) (i i' : CrashImage) : Prop :=
  ∀ file, ci_volatile i' !! mw_path (vs_manifest vs) = Some file → ci_volatile i !! mw_path (vs_manifest vs) = Some file.

Lemma only_wal_manifest vs n i i' : meta_ok vs i → only_at (wal_name n) i i' → manifest_same vs i i'.
Proof.
  intros Hm Ho file. destruct (same_at_content i i' (mw_path (vs_manifest vs))) as [-> _]; [|done].
  left. apply Ho. destruct (manifest_path _ _ Hm) as [m ->]. apply not_eq_sym, wal_name_meta.
Qed.

Lemma sync_wals_wp h T clock guards fl en i m numbers (Q : unit → CrashImage → Prop) :
  inv h T clock guards fl en i → StronglySorted Z.lt numbers → (∀ n, n ∈ numbers → owned_log (en_state en) n) →
  (∀ n, owned_log (en_state en) n → m ≤ n → n ∈ numbers) → Forall (λ n, m ≤ n) numbers → logs_upto options m h T clock (en_state en) i →
  (∀ i', inv h T clock guards fl en i' → manifest_same (es_versions (en_state en)) i i' →
    logs_synced options h T clock (en_state en) i' → Q tt i') →
  wpf false (fs_each (λ n, if n =? mm_wal_number (es_mutable (en_state en)) then log_sync (es_wal (en_state en))
    else fs_map_err (io_error "sync WAL") (sync_file (wal_name n))) numbers) i Q (λ _, False).
Proof.
  intros Hinv Hs. revert i m Hinv. induction Hs as [|n numbers Hs IH Hall]; intros i m Hinv Hin Hcover Hlow Hup HQ; cbn [fs_each].
  { apply wp_ret, HQ; [done|by intros file|]. eapply logs_upto_all; [exact Hup|]. intros k Hk.
    destruct (decide (m ≤ k)) as [Hle|]; [|lia]. by apply Hcover, elem_of_nil in Hle. }
  apply Forall_cons in Hlow as [Hmn _]. rewrite Forall_forall in Hall. apply wp_bind. eapply sync_wal_wp; [exact Hinv|apply Hin; by left| |].
  { eapply logs_upto_next; [exact Hup|]. intros k Hk Hlt. destruct (decide (m ≤ k)) as [Hle|]; [|lia].
    apply Hcover, elem_of_cons in Hle as [->|Hle]; [lia| |done]. specialize (Hall k Hle). lia. }
  intros i' Hinv' Ho Hup'. apply (IH i' (n + 1)); [done| | | |done|].
  - intros k Hk. apply Hin. by right.
  - intros k Hk Hle. assert (k ∈ n :: numbers) as [->|?]%elem_of_cons by (apply Hcover; [done|lia]); [lia|done].
  - apply Forall_forall. intros k Hk. specialize (Hall k Hk). lia.
  - intros i2 Hinv2 Hsame Hsy. apply HQ; [done| |done]. intros file Hfile. apply Hsame in Hfile.
    eapply only_wal_manifest; [apply (ei_meta _ _ _ _ _ _ _ _ Hinv)|exact Ho|exact Hfile].
Qed.

Lemma sync_owned_inv h T clock guards fl en i (Q : unit → WriteState → CrashImage → Prop) E :
  inv h T clock guards fl en i → manifest_small (es_versions (en_state en)) i →
  (∀ i', inv h T clock guards fl en i' → manifest_small (es_versions (en_state en)) i' →
    logs_synced options h T clock (en_state en) i' → Q tt (en_state en) i') →
  swp sync_owned_wals (en_state en) i Q E.
Proof.
  intros Hinv Hsmall HQ. unfold sync_owned_wals. apply swp_bind, swp_get, swp_fs.
  destruct (set_of_elem (map im_wal_number (es_immutables (en_state en)) ++ [mm_wal_number (es_mutable (en_state en))])) as [Hs Hm].
  eapply sync_wals_wp; [exact Hinv|exact Hs|by intros n Hn%Hm|by intros n Hn _; apply Hm| |apply logs_upto_zero, Hinv|].
  { apply Forall_forall. intros n Hn%Hm. pose proof (owned_number _ _ _ (ei_numbers _ _ _ _ _ _ _ _ Hinv) Hn) as Hin.
    pose proof (elem_of_Forall _ _ _ (nk_wal_numbers _ _ (ei_numbers _ _ _ _ _ _ _ _ Hinv)) Hin) as Hb. cbn in Hb. lia. }
  intros i' Hinv' Hsame Hsy. apply HQ; [done| |done]. intros file Hfile. by apply Hsmall, Hsame.
Qed.

(** The manifest knows where the synchronized logs end. *)
Lemma logs_persisted h T clock st i i' vs' edit edits :
  logs_synced options h T clock st i → version_wf (vs_current (es_versions st)) → meta_ok (es_versions st) i →
  mm_wal_number (es_mutable st) < es_next_file_number st → seq_ok (es_next_sequence st - 1) →
  applied (es_versions st) vs' edit edits i i' →
  edit = set_wal_sequence (set_active_log_number (set_log_number
    (set_next_file_number VersionEdit_new (es_next_file_number st)) (oldest_required_wal st)) (mm_wal_number (es_mutable st)))
    (saturating_sub (es_next_sequence st) 1) →
  logs_ok options h T clock (publish_versions vs' st) i'.
Proof.
  intros (old & segs & Hl & Hfull) Hwf Hm Hact Hseq Ha He. exists old, segs.
  destruct (counters_updated _ _ _ _ (ap_counters _ _ _ _ _ _ Ha)) as (C1 & C2 & C3 & C4 & C5).
  rewrite He in C1, C2, C3, C4, C5. cbn in C1, C2, C3, C4, C5.
  assert (vs_current vs' = vs_current (es_versions st)) as Hcur.
  { eapply version_apply_nil; [exact Hwf| |apply Ha]. by rewrite He. }
  assert (all_synced segs = all_batches segs) as Hall.
  { unfold all_synced, all_batches. f_equal. clear -Hfull. induction Hfull as [|s segs Hs _ IH]; cbn; [done|]. by rewrite Hs, IH. }
  eapply logs_published; [exact Hl|done|done|intros k _; by eapply applied_wal|].
  destruct (lg_counters _ _ _ _ _ _ _ _ Hl) as [K1 K2 K3 K4 K5 K6]. pose proof (lg_next _ _ _ _ _ _ _ _ Hl) as Hn.
  pose proof (lg_last _ _ _ _ _ _ _ _ Hl) as H0. pose proof (zlen_nonneg (all_batches segs)).
  split; cbn; rewrite ?C1, ?C2, ?C3, ?C4, ?C5, ?Hcur, ?Hall; try done; try lia.
  - eapply present_same; [by eapply applied_wal|]. eapply owned_file; [by exists old, segs|]. apply elem_of_app. right. by left.
  - unfold saturating_sub. lia.
  - intros f Hf. specialize (K6 f Hf). lia.
Qed.

Lemma persist_inv h T clock guards fl en i :
  inv h T clock guards fl en i → manifest_small (es_versions (en_state en)) i → logs_synced options h T clock (en_state en) i →
  swp persist_wal_state (en_state en) i
    (λ _ st' i', inv h T clock guards fl (with_state st' en) i') (λ st' i', inv h T clock guards fl (with_state st' en) i').
Proof.
  intros Hinv Hsmall Hsy. pose proof Hinv as [Hr Hm Hl Hk Hf _]. unfold persist_wal_state. apply swp_bind, swp_get.
  eapply versions_apply_wp; [done| |constructor|done| |by rewrite with_state_same].
  - pose proof (oldest_bounds _ _ Hk). pose proof (nk_next _ _ Hk).
    pose proof (owned_bounds _ _ (mm_wal_number (es_mutable (en_state en))) Hk ltac:(by left)).
    destruct (rk_sequence _ _ _ _ _ _ _ Hr) as (Hc0 & Hseq & Hc).
    split; cbn; unfold is_u64, saturating_sub, seq_ok, MAX_SEQUENCE_NUMBER in *; try done; lia.
  - intros vs' edits i' Ha. eapply inv_applied_nil; [exact Hinv|exact Ha|done|].
    destruct (rk_sequence _ _ _ _ _ _ _ Hr) as (Hc0 & Hseq & Hc).
    eapply logs_persisted; [exact Hsy|apply (vk_wf _ _ _ _ _ (rk_version _ _ _ _ _ _ _ Hr))|exact Hm| | |exact Ha|reflexivity].
    + eapply owned_bounds; [exact Hk|by left].
    + by replace (es_next_sequence (en_state en) - 1) with (en_committed_sequence en) by lia.
Qed.

End Sync.

Section Acknowledge.
  Context `{C : Crc32c} {CR : Crc32cRange C} `{SN : Snappy} {SL : SnappyLaws SN} {AK : Acknowledged}.
  Context (options : Options).
  Abbreviation inv := (engine_inv options).

Lemma inv_acknowledge (a b : Acknowledged) h T clock guards fl en i :
  engine_inv (AK := a) options h T clock guards fl en i → logs_ok (AK := b) options h T clock (en_state en) i →
  engine_inv (AK := b) options h T clock guards fl en i.
Proof. by intros []. Qed.

Lemma inv_weaken (a : history) h T clock guards fl en i :
  acknowledged `prefix_of` a → engine_inv (AK := a) options h T clock guards fl en i → inv h T clock guards fl en i.
Proof.
  intros Hp Hinv. eapply (inv_acknowledge a AK); [exact Hinv|]. eapply (logs_weaken _ a); [exact Hp|apply (ei_logs _ _ _ _ _ _ _ _ Hinv)].
Qed.

(** Behind the synchronization everything is safe. *)
Lemma sync_all_inv h T clock guards fl en i (Q : unit → WriteState → CrashImage → Prop) E :
  inv h T clock guards fl en i → manifest_small (es_versions (en_state en)) i →
  (let P st' i' := engine_inv (AK := h) options h T clock guards fl (with_state st' en) i' in
   (∀ st' i', P st' i' → Q tt st' i') ∧ (∀ st' i', P st' i' → E st' i')) →
  swp (let* _ := sync_owned_wals in persist_wal_state) (en_state en) i Q E.
Proof.
  intros Hinv Hsmall [HQ HE]. apply swp_bind. eapply sync_owned_inv; [exact Hinv|done|]. intros i' Hinv' Hsmall' Hsy.
  apply logs_acknowledge in Hsy as Hsy'.
  assert (engine_inv (AK := h) options h T clock guards fl en i') as Hinv2.
  { eapply inv_acknowledge; [exact Hinv'|]. destruct Hsy' as (old & segs & Hl & _). by exists old, segs. }
  eapply swp_mono; [exact (persist_inv options h T clock guards fl en i' Hinv2 Hsmall' Hsy')| |done].
  intros [] st' i2. apply HQ.
Qed.

Lemma with_closed_same b st : same_data st (with_closed b st).
Proof. exists (es_terminal_failure st), (es_background_failure st), b. by destruct st. Qed.

Lemma same_data_trans a b c : same_data a b → same_data b c → same_data a c.
Proof. intros (f & g & k & Hf & ->) (f' & g' & k' & Hf' & ->). exists f', g', k'. split; [auto|done]. Qed.

Lemma sync_inv h T clock guards fl en i :
  inv h T clock guards fl en i → manifest_small (es_versions (en_state en)) i →
  swp Engine_sync (en_state en) i
    (λ _ st' i', (es_closed (en_state en) = false → engine_inv (AK := h) options h T clock guards fl (with_state st' en) i') ∧
      inv h T clock guards fl (with_state st' en) i')
    (λ st' i', inv h T clock guards fl (with_state st' en) i').
Proof.
  intros Hinv Hsmall. pose proof (logs_history _ _ _ _ _ _ _ (ei_logs _ _ _ _ _ _ _ _ Hinv)) as Hpre.
  unfold Engine_sync. apply swp_bind, swp_get, swp_bind, swp_lift; [by rewrite with_state_same|].
  intros [] _. apply swp_bind, swp_try. eapply sync_owned_inv; [exact Hinv|done|]. intros i' Hinv' Hsmall' Hsy.
  apply logs_acknowledge in Hsy as Hsy'.
  assert (engine_inv (AK := h) options h T clock guards fl en i') as Hinv2.
  { eapply inv_acknowledge; [exact Hinv'|]. destruct Hsy' as (old & segs & Hl & _). by exists old, segs. }
  apply swp_try. eapply swp_mono; [exact (persist_inv options h T clock guards fl en i' Hinv2 Hsmall' Hsy')| |].
  { intros [] st' i2 Hinv3. split; [done|]. by apply (inv_weaken h). }
  intros st' i2 Hinv3 e. apply fail_terminally_wp. intros st2 Hsame. apply (inv_weaken h); [done|].
  by apply (inv_flags _ _ _ _ _ _ _ _ _ Hinv3).
Qed.

(** A close that has something to do. *)
Lemma close_inv h T clock guards fl en i :
  inv h T clock guards fl en i → manifest_small (es_versions (en_state en)) i →
  swp Engine_close (en_state en) i
    (λ _ st' i', (es_closed (en_state en) = false → engine_inv (AK := h) options h T clock guards fl (with_state st' en) i') ∧
      inv h T clock guards fl (with_state st' en) i')
    (λ st' i', inv h T clock guards fl (with_state st' en) i').
Proof.
  intros Hinv Hsmall. pose proof (logs_history _ _ _ _ _ _ _ (ei_logs _ _ _ _ _ _ _ _ Hinv)) as Hpre.
  unfold Engine_close. apply swp_bind, swp_get. destruct (es_terminal_failure (en_state en)).
  { apply swp_bind, swp_update, swp_fail. apply (inv_flags _ _ _ _ _ _ _ _ _ Hinv), with_closed_same. }
  destruct (es_closed (en_state en)); [apply swp_ret; by rewrite with_state_same|].
  apply swp_bind, swp_try. eapply sync_all_inv; [exact Hinv|done|]. split.
  - intros st' i2 Hinv2. apply swp_update.
    pose proof (inv_flags _ _ _ _ _ _ _ _ _ Hinv2 (with_closed_same true st')) as Hinv3. cbn in Hinv3.
    split; [done|]. by apply (inv_weaken h).
  - intros st' i2 Hinv2 e s Hs Hf. pose proof (record_terminal_same e st') as Hsame.
    destruct (record_terminal_failure e st') as [e' st2]. rewrite Hs. split; [|done]. apply (inv_weaken h); [done|].
    apply (inv_flags _ _ _ _ _ _ _ _ _ Hinv2). eapply same_data_trans; [exact Hsame|apply with_closed_same].
Qed.

(** [flush] rotates a memtable that holds something. *)
Lemma flush_rotate_inv h T clock guards fl en i :
  inv h T clock guards fl en i → manifest_small (es_versions (en_state en)) i →
  swp (flush_rotate options) (en_state en) i
    (λ _ st' i', inv h T clock guards fl (with_state st' en) i') (λ st' i', inv h T clock guards fl (with_state st' en) i').
Proof.
  intros Hinv Hsmall. unfold flush_rotate. apply swp_bind, swp_get, swp_bind, swp_lift; [by rewrite with_state_same|].
  intros [] _. destruct (MemTable_is_empty _) eqn:Ee; [apply swp_ret; by rewrite with_state_same|].
  apply swp_try. eapply swp_mono; [apply (rotate_inv _ h T clock guards fl); [done|done| | |]|done|].
  - destruct (rk_sequence _ _ _ _ _ _ _ (ei_reads _ _ _ _ _ _ _ _ Hinv)) as (H0 & Hseq & Hc).
    unfold is_u64, saturating_sub, seq_ok, MAX_SEQUENCE_NUMBER in *. lia.
  - destruct (rk_sequence _ _ _ _ _ _ _ (ei_reads _ _ _ _ _ _ _ _ Hinv)) as (H0 & Hseq & Hc). unfold saturating_sub. lia.
  - intros Hnil. unfold MemTable_is_empty in Ee. by rewrite Hnil in Ee.
  - intros st' i' Hinv' e. apply fail_terminally_wp. intros st2 Hsame. by apply (inv_flags _ _ _ _ _ _ _ _ _ Hinv').
Qed.
End Acknowledge.

(** ** Flushes *)

Section Flush.
  Context `{C : Crc32c} {CR : Crc32cRange C} `{SN : Snappy} {SL : SnappyLaws SN} {AK : Acknowledged}.
  Context (options : Options).
  Abbreviation inv := (engine_inv options).
  Abbreviation limit := (engine_block_limit options).

(** ** Ghost contents *)

Lemma contents_agree T T' next v :
  agree_below next T T' → (∀ f, f ∈ concat v → fm_number f < next) → contents T' v = contents T v.
Proof.
  intros Ha Hn. unfold contents. apply map_ext_in. intros f Hf. apply Ha, Hn. by apply list_elem_of_In.
Qed.

Lemma version_ok_agree T T' i next v :
  agree_below next T T' → version_ok options T i next v → version_ok options T' i next v.
Proof.
  intros Ha [Hwf Ht Hl Hn]. pose proof (contents_agree _ _ _ _ Ha Hn) as Hc. split; [done| | |done].
  - intros f Hf. rewrite Ha; auto.
  - by rewrite Hc.
Qed.

Lemma inv_agree h T T' clock guards fl en i :
  agree_below (es_next_file_number (en_state en)) T T' → inv h T clock guards fl en i → inv h T' clock guards fl en i.
Proof.
  intros Ha [Hr Hm Hl Hk Hf (old & segs & Hg)]. split; [|done|done|done| |].
  - assert (layers T' (en_state en) = layers T (en_state en)) as Hlay.
    { unfold layers. f_equal. eapply contents_agree; [exact Ha|apply (rk_version _ _ _ _ _ _ _ Hr)]. }
    destruct Hr. split; rewrite ?Hlay; try done; [by eapply version_ok_agree|].
    intros r Hin. eapply version_ok_agree; [exact Ha|auto].
  - destruct fl as [fl|]; [|done]. destruct Hf as (H1 & H2 & H3 & H4 & H5). cbn. rewrite (Ha (fl_number fl)) by lia. done.
  - exists old, segs. eapply log_state_agree; [exact Hg|]. eapply contents_agree; [exact Ha|apply (rk_version _ _ _ _ _ _ _ Hr)].
Qed.

(** ** The first step *)

Definition with_table (n : Z) (es : list entry) (T : Z → list entry) : Z → list entry :=
  λ k, if k =? n then es else T k.

Lemma with_table_agree n es T : agree_below n T (with_table n es T).
Proof. intros k Hk. unfold with_table. by rewrite (proj2 (Z.eqb_neq _ _)) by lia. Qed.

(** The worker's flag belongs to the flush. *)
Lemma inv_flush_running h T clock guards fl fl' en i b :
  inv h T clock guards fl en i → flush_ok options T (with_flush_running b (en_state en)) i fl' →
  inv h T clock guards fl' (with_state (with_flush_running b (en_state en)) en) i.
Proof.
  intros [[] Hm Hl [] _ Hg] Hf. split; [split; try done; by destruct rk_readers|done|done|by split|done|by eapply logs_fields].
Qed.

Lemma flush_flag_same st : with_flush_running (es_flush_running st) st = st.
Proof. by destruct st. Qed.

Lemma background_flag e b st :
  ∃ st', same_data st st' ∧ with_flush_running b (record_background_failure e (with_flush_running true st)).2 = with_flush_running b st'.
Proof.
  destruct (record_background_same e (with_flush_running true st)) as (f & g & c & Hf & ->).
  exists (with_terminal_failure f (with_background_failure g (with_closed c st))). split; [by exists f, g, c|done].
Qed.

Lemma flush_begin_inv h T clock guards en i :
  inv h T clock guards None en i →
  swp flush_begin (en_state en) i
    (λ job st' i', match job with
      | None => inv h T clock guards None (with_state st' en) i'
      | Some (imm, n) => n = es_next_file_number (en_state en) ∧
          inv h (with_table n (mt_entries (im_table imm)) T) clock guards
            (Some {| fl_immutable := imm; fl_number := n; fl_built := None |}) (with_state st' en) i'
      end) (λ _ _, False).
Proof.
  intros Hinv. pose proof Hinv as [Hr Hm Hl Hk Hf Hg]. cbn in Hf. unfold flush_begin. apply swp_bind, swp_get.
  destruct (es_closed (en_state en) || _) eqn:Estop; [apply swp_ret; by rewrite with_state_same|].
  destruct (es_immutables (en_state en)) as [|imm rest] eqn:Eimm; [apply swp_ret; by rewrite with_state_same|].
  apply swp_bind, swp_update, swp_try, swp_bind. pose proof (nk_next _ _ Hk) as Hnext.
  set (n := es_next_file_number (en_state en)) in *. apply allocate_wp; [exact Hnext| |].
  - intros e. apply swp_bind, swp_update, swp_ret. destruct (background_flag e false (en_state en)) as (st' & Hsame & ->).
    pose proof (inv_flags _ _ _ _ _ _ _ _ _ Hinv Hsame) as Hinv'. destruct Hsame as (f & g & c & _ & ->).
    by apply (inv_flush_running _ _ _ _ _ _ _ _ false Hinv').
  - intros Hmax. cbn [es_next_file_number with_flush_running] in *. fold n in Hmax |- *. apply swp_ret. split; [done|].
    set (T' := with_table n (mt_entries (im_table imm)) T).
    pose proof (inv_agree _ T T' _ _ _ _ _ (with_table_agree n _ T) Hinv) as Hinv1.
    pose proof (inv_allocate _ _ _ _ _ _ _ _ Hinv1 Hmax) as Hinv2. fold n in Hinv2.
    apply (inv_flush_running _ _ _ _ _ _ _ _ true Hinv2). cbn.
    split; [done|]. split; [by rewrite Eimm|]. split; [unfold T', with_table; by rewrite Z.eqb_refl|]. split; [lia|].
    split; [apply (vk_numbers _ _ _ _ _ (rk_version _ _ _ _ _ _ _ Hr))|]. split.
    + intros Hin. destruct (nk_obsolete _ _ Hk n Hin) as [Hlt _]. fold n in Hlt. lia.
    + apply (nk_fresh _ _ Hk); [|fold n; lia]. apply orb_false_iff in Estop as [_ Estop].
      apply bool_decide_eq_false in Estop. by apply eq_None_not_Some.
Qed.

(** ** The build *)

(** A table has been published under a number that was not in use. *)
Lemma published_same i i' n file p :
  published i i' (sstable_temporary n) (sstable_name n) file → p ≠ sstable_temporary n → p ≠ sstable_name n → same_at i i' p.
Proof. intros Hp H1 H2. right. rewrite (pb_other _ _ _ _ _ Hp p H1 H2), view_directory. done. Qed.

Lemma published_stored i i' n file p b :
  published i i' (sstable_temporary n) (sstable_name n) file → unused i n → stored i p b → stored i' p b.
Proof.
  intros Hp (H1 & _ & H3) Hs. eapply stored_same; [eapply published_same; [exact Hp|..]|done];
    intros ->; apply view_eq in Hs as (Hv & _); congruence.
Qed.

Lemma published_numbers st i i' n file :
  published i i' (sstable_temporary n) (sstable_name n) file → unused i n → 0 ≤ n < es_next_file_number st →
  numbers_ok st i → numbers_ok st i'.
Proof.
  intros Hp Hu Hn Hk. pose proof (nk_next _ _ Hk) as Hnext.
  assert (∀ k, same_at i i' (wal_name k)) as Hw.
  { intros k. eapply published_same; [exact Hp|apply wal_name_temporary|apply wal_name_table]. }
  destruct Hk. split; try done.
  - intros Hok k Hk. apply (unused_same i); [by apply (nk_fresh Hok)|eapply published_same; [exact Hp|..]..].
    + intros Heq. apply sstable_temporary_inj in Heq; lia.
    + apply temporary_not_final.
    + apply not_eq_sym, temporary_not_final.
    + intros Heq. apply sstable_name_inj in Heq; lia.
  - intros k Hk. destruct (nk_wal_fresh k Hk). by apply (same_at_none i).
  - intros k Hk. destruct (same_at_content _ _ _ (Hw k)) as [-> _]. auto.
  - intros k Hk. destruct (nk_obsolete k Hk) as (H1 & H2 & b & Hb). do 2 (split; [done|]). exists b.
    by eapply published_stored.
Qed.

Lemma inv_published h T clock guards imm n en i i' file smallest largest :
  inv h T clock guards (Some {| fl_immutable := imm; fl_number := n; fl_built := None |}) en i →
  published i i' (sstable_temporary n) (sstable_name n) file →
  is_table limit n file (T n) → table_entries limit (T n) → 0 < zlen file ≤ U64_MAX →
  head (T n) = Some smallest → last (T n) = Some largest →
  inv h T clock guards (Some {| fl_immutable := imm; fl_number := n;
    fl_built := Some (Ok {| tr_file_number := n; tr_file_size := zlen file; tr_smallest := smallest.1;
                            tr_largest := largest.1; tr_entries := zlen (T n) |}) |}) en i'.
Proof.
  intros [Hr Hm Hl Hk (Hrun & Hhead & HT & Hn & Hlast & Hobs & Hu) Hg] Hp Ht Hes Hsz Hsm Hlg. cbn [fl_number fl_immutable fl_built] in *.
  pose proof (nk_next _ _ Hk) as Hnext.
  assert (∀ p b, stored i p b → stored i' p b) as Hkept by (intros p b; by eapply published_stored).
  split.
  - eapply reads_ok_image; [exact Hr|]. intros v f b _ _. apply Hkept.
  - eapply meta_ok_kept; [exact Hm| |eapply version_tables_stored, Hr]. intros p b _. apply Hkept.
  - eapply log_ok_same; [exact Hl|]. rewrite (proj1 Hl). eapply published_same; [exact Hp|apply wal_name_temporary|apply wal_name_table].
  - eapply published_numbers; [exact Hp|done|lia|done].
  - cbn. do 6 (split; [done|]).
    destruct Hes as (Hne & Hwf & Hsort & Hcost & Hfit). rewrite Forall_forall in Hwf.
    pose proof (entries_head_last _ _ _ Hsort Hsm Hlg) as Hord.
    set (f := {| fm_number := n; fm_file_size := zlen file; fm_smallest := smallest.1; fm_largest := largest.1 |}).
    exists f. split; [|split; [done|]].
    + unfold FileMeta_new. rewrite !(proj2 (Z.eqb_neq _ _)) by lia. by destruct (InternalKey_cmp _ _).
    + exists file. split; [exact (pb_final _ _ _ _ _ Hp)|]. split; [done|]. split; [by rewrite <- Forall_forall in Hwf|].
      split; [done|]. cbn. rewrite Hsm, Hlg. split; [|done]. split; cbn; [lia|lia| | |done].
      * apply entry_wf_key, Hwf. destruct (T n); [done|]. injection Hsm as ->. by left.
      * apply entry_wf_key, Hwf. by apply last_Some_elem_of.
  - eapply logs_image; [exact Hg|]. intros k _. eapply published_same; [exact Hp|apply wal_name_temporary|apply wal_name_table].
Qed.

Lemma flush_build_inv h T clock guards imm n en i :
  options_ok options →
  inv h T clock guards (Some {| fl_immutable := imm; fl_number := n; fl_built := None |}) en i →
  16 * entries_cost (mt_entries (im_table imm)) ≤ U32_MAX →
  wpf false (flush_build options imm n) i
    (λ r i', inv h T clock guards (Some {| fl_immutable := imm; fl_number := n; fl_built := Some (Ok r) |}) en i')
    (λ _, False).
Proof using CR SL.
  intros Ho Hinv Hcost. pose proof Hinv as [Hr Hm Hl Hk (Hrun & Hhead & HT & Hn & Hlast & Hobs & (Hu1 & Hu2 & Hu3)) Hg].
  cbn [fl_number fl_immutable fl_built] in *. pose proof (nk_next _ _ Hk) as Hnext.
  assert (imm ∈ es_immutables (en_state en)) as Hin.
  { destruct (es_immutables (en_state en)); [done|]. injection Hhead as ->. by left. }
  assert (im_table imm ∈ memory_tables (en_state en)) as Hmem.
  { unfold memory_tables. right. apply list_elem_of_fmap_2. by apply elem_of_reverse. }
  assert (table_entries limit (mt_entries (im_table imm))) as Hes.
  { destruct (elem_of_Forall _ _ _ (rk_memory _ _ _ _ _ _ _ Hr) Hmem) as [Hs Hw].
    destruct (elem_of_Forall _ _ _ (nk_immutables _ _ Hk) Hin) as [Hne _].
    do 4 (split; [done|]). apply (elem_of_Forall _ _ _ (rk_fit _ _ _ _ _ _ _ Hr) Hmem). }
  unfold flush_build. eapply (build_sstable_wp _ _ _ limit); [done|done|done|done| |exact Hes|apply limit_entry, Ho|].
  { apply config_ok; [apply Ho|unfold is_u64; lia]. }
  intros file smallest largest i' Hsm Hlg Hp Ht Hsz. rewrite <- HT in Hsm, Hlg, Ht, Hes |- *. by eapply inv_published.
Qed.

(** ** Retiring logs *)

(** Every name is as before. *)
Lemma inv_all_same h T clock guards fl en i i' :
  inv h T clock guards fl en i → (∀ p, same_at i i' p) → inv h T clock guards fl en i'.
Proof.
  intros Hinv Hs. pose proof Hinv as [Hr Hm Hl Hk Hf Hg]. eapply inv_same; [exact Hinv|by intros k|by intros k| | |].
  - eapply meta_ok_kept; [exact Hm| |eapply version_tables_stored, Hr]. intros p b _. by apply stored_same.
  - by eapply log_ok_same.
  - by eapply logs_image.
Qed.

Lemma wp_remove_file g i E path (Q : unit → CrashImage → Prop) :
  (g = true → E (durable_image (ci_durable i))) → is_Some (ci_volatile i !! path) → Q tt (record_remove path i) →
  wpf g (remove_file path) i Q E.
Proof. intros HE Hs HQ. apply wp_bind, wp_observe; [done|]. apply wp_bind, wp_validate; [done|]. by apply wp_update. Qed.

Lemma set_remove_sorted n l :
  StronglySorted Z.lt l → StronglySorted Z.lt (set_remove n l) ∧ ∀ m, m ∈ set_remove n l ↔ m ≠ n ∧ m ∈ l.
Proof.
  intros Hs. split; [by apply StronglySorted_filter|]. intros m. unfold set_remove. rewrite elem_of_filter_b.
  by rewrite negb_true_iff, Z.eqb_neq.
Qed.

Lemma oldest_below n st :
  n < oldest_required_wal st → n ∉ mm_wal_number (es_mutable st) :: map im_wal_number (es_immutables st).
Proof.
  unfold oldest_required_wal, oldest_of. intros Hlt Hin. induction (map im_wal_number (es_immutables st)) as [|m ms IH]; cbn in *.
  - apply list_elem_of_singleton in Hin. lia.
  - rewrite !elem_of_cons in *. destruct Hin as [->|[->|Hin]]; [apply IH; [lia|by left]|lia|apply IH; [lia|by right]].
Qed.

Lemma inv_remove_wal h T clock guards fl en i n :
  inv h T clock guards fl en i → n ∈ es_wal_numbers (en_state en) →
  n < oldest_required_wal (en_state en) →
  inv h T clock guards fl
    (with_state (with_wal_numbers (set_remove n (es_wal_numbers (en_state en))) (en_state en)) en) (record_remove (wal_name n) i).
Proof.
  intros [Hr Hm Hl Hk Hf Hg] Hin Hlow. pose proof (oldest_below _ _ Hlow) as Hno. rewrite not_elem_of_cons in Hno. destruct Hno as [Hno1 Hno2].
  assert (only_at (wal_name n) i (record_remove (wal_name n) i)) as Ho.
  { intros p Hp. rewrite view_remove. by rewrite decide_False. }
  pose proof (only_wal_tables _ _ _ Ho) as Ht. pose proof (nk_next _ _ Hk) as Hnext.
  pose proof (elem_of_Forall _ _ _ (nk_wal_numbers _ _ Hk) Hin) as Hn. cbn in Hn.
  assert (∀ k, 0 ≤ k ≤ U64_MAX → k ≠ n → same_at i (record_remove (wal_name n) i) (wal_name k)) as Hwal.
  { intros k Hk0 Hne. left. apply Ho. intros Heq. apply wal_name_inj in Heq; lia. }
  split.
  - assert (reads_ok options h T clock guards en (record_remove (wal_name n) i)) as []; [|split; try done; by destruct rk_readers].
    eapply reads_ok_image; [exact Hr|by apply tables_same_safe].
  - eapply only_wal_meta; [exact Hm|eapply version_tables_stored, Hr|done].
  - destruct Hl as [Hpath Hl]. eapply (log_ok_same _ _ i); [by split|]. left. apply Ho. cbn.
    eapply log_paths_differ; [exact Hk|by split|done|]. congruence.
  - destruct Hk. destruct (set_remove_sorted n _ nk_wal_order) as [Hs Hmem].
    split; cbn [en_state with_state with_wal_numbers es_next_file_number es_wal_numbers es_mutable es_immutables
      es_obsolete_sstables es_versions]; try done.
    + intros Hok. eapply fresh_same; [by apply nk_fresh|done].
    + intros k Hk. destruct (nk_wal_fresh k Hk). apply (same_at_none i); [apply Hwal; lia|done..].
    + apply Forall_forall. intros k [_ Hk]%Hmem. by apply (elem_of_Forall _ _ _ nk_wal_numbers).
    + intros k [Hne Hk]%Hmem. pose proof (elem_of_Forall _ _ _ nk_wal_numbers Hk) as Hkb. cbn in Hkb.
      destruct (same_at_content i (record_remove (wal_name n) i) (wal_name k)) as [-> _]; [apply Hwal; [lia|done]|auto].
    + intros k Hk. apply Hmem. split; [|by apply nk_owned]. intros ->. by destruct Hk.
    + intros k Hk. destruct (nk_obsolete k Hk) as (H1 & H2 & b & Hb). do 2 (split; [done|]). exists b.
      eapply stored_same; [apply Ht|done].
  - eapply flush_ok_same; [exact Hf|done..].
  - pose proof (nk_next _ _ Hk). eapply logs_same; [exact Hg|done..|cbn; lia|].
    pose proof (oldest_bounds _ _ Hk). intros k Hkb. apply Hwal; lia.
Qed.

Lemma remove_wals_inv h T clock guards en numbers st i (Q : unit → WriteState → CrashImage → Prop) E :
  let P st i := inv h T clock guards None (with_state (with_flush_running false st) en) i in
  P st i → NoDup numbers → Forall (λ n, n ∈ es_wal_numbers st ∧ n < oldest_required_wal st) numbers →
  (∀ st' i', P st' i' → Q tt st' i') → swp (remove_wals numbers) st i Q E.
Proof.
  intros P. revert st i. induction numbers as [|n numbers IH]; intros st i HP Hnd Hall HQ; cbn [remove_wals].
  { by apply swp_ret, HQ. }
  apply Forall_cons in Hall as [[Hin Hlt] Hall]. apply NoDup_cons in Hnd as [Hni Hnd].
  apply swp_bind, swp_fs, wp_map_err, wp_remove_file; [done|by apply (nk_wal_files _ _ (ei_numbers _ _ _ _ _ _ _ _ HP))|].
  apply swp_bind, swp_update. apply IH; [|done| |done].
  - by apply (inv_remove_wal _ _ _ _ _ _ _ n HP Hin).
  - rewrite Forall_forall in Hall |- *. intros k Hk. destruct (Hall k Hk) as [Hk1 Hk2]. split; [|done].
    cbn. unfold set_remove. apply elem_of_filter_b. split; [|done]. apply negb_true_iff, Z.eqb_neq. by intros ->.
Qed.

Lemma take_while_below_spec bound l :
  StronglySorted Z.lt l → NoDup (take_while_below bound l) ∧ ∀ n, n ∈ take_while_below bound l → n ∈ l ∧ n < bound.
Proof.
  induction 1 as [|x l Hs [IH1 IH2] Hall]; cbn; [split; [constructor|by intros n ?%elem_of_nil]|].
  rewrite Forall_forall in Hall. destruct (Z.ltb_spec x bound); [|split; [constructor|by intros n ?%elem_of_nil]]. split.
  - apply NoDup_cons. split; [|done]. intros Hin. apply IH2 in Hin as [Hin _]. specialize (Hall x Hin). lia.
  - intros n [->|Hn]%elem_of_cons; [split; [by left|done]|]. destruct (IH2 n Hn). split; [by right|done].
Qed.

Lemma retire_inv h T clock guards en st i E :
  let P st i := inv h T clock guards None (with_state (with_flush_running false st) en) i in
  P st i → swp retire_obsolete_wals st i (λ _, P) E.
Proof.
  intros P HP. unfold retire_obsolete_wals. apply swp_bind, swp_get, swp_bind.
  destruct (take_while_below_spec (oldest_required_wal st) _ (nk_wal_order _ _ (ei_numbers _ _ _ _ _ _ _ _ HP))) as [Hnd Hin].
  eapply (remove_wals_inv h T clock guards en); [exact HP|exact Hnd|by apply Forall_forall|].
  intros st' i' HP'. case_bool_decide; [by apply swp_ret|]. apply swp_fs, wp_map_err, wp_directory; [done|].
  eapply inv_all_same; [exact HP'|]. intros p. by right.
Qed.

(** ** The last step *)

Definition flushed (vs : VersionSet) (st : WriteState) : WriteState :=
  with_immutables (drop 1 (es_immutables st)) (publish_versions vs st).

(** The flushed memtable is the layer in front of the tables. *)
Lemma flushed_layers T vs st imm f :
  head (es_immutables st) = Some imm → T (fm_number f) = mt_entries (im_table imm) →
  concat (vs_current vs) = f :: concat (vs_current (es_versions st)) →
  layers T (flushed vs st) = layers T st ∧
  ∃ upper, layers T st = upper ++ contents T (vs_current vs) ∧
    memory_tables st = memory_tables (flushed vs st) ++ [im_table imm].
Proof.
  intros Hh HT Hc. unfold layers, engine_layers, contents, memory_tables, flushed.
  cbn [es_immutables es_mutable es_versions with_immutables publish_versions].
  destruct (es_immutables st) as [|m rest]; [done|]. injection Hh as ->. cbn [drop]. rewrite drop_0, Hc, reverse_cons.
  cbn [map]. rewrite !map_app. cbn [map]. rewrite HT. split.
  - cbn. by rewrite <- app_assoc.
  - exists (map mt_entries (mm_table (es_mutable st) :: map im_table (reverse rest))). split; [|done].
    cbn. by rewrite <- app_assoc.
Qed.

Definition flush_edit (imm : ImmutableMemTable) (f : FileMeta) (st : WriteState) : VersionEdit :=
  set_active_log_number (set_log_number (set_last_sequence (set_next_file_number (add_file VersionEdit_new 0 f)
    (es_next_file_number st)) (im_largest_sequence imm)) (oldest_of (drop 1 (es_immutables st)) (es_mutable st)))
    (mm_wal_number (es_mutable st)).

Lemma logs_flushed h T clock st i i' vs' imm f edits :
  logs_ok options h T clock st i → hist_wf h → meta_ok (es_versions st) i → head (es_immutables st) = Some imm →
  T (fm_number f) = mt_entries (im_table imm) → concat (vs_current vs') = f :: concat (vs_current (es_versions st)) →
  mm_wal_number (es_mutable st) < es_next_file_number st → fm_number f < es_next_file_number st →
  applied (es_versions st) vs' (flush_edit imm f st) edits i i' → logs_ok options h T clock (flushed vs' st) i'.
Proof.
  intros Hg Hwf Hm Hhead HT Hc Hact Hnum Ha. pose proof Hg as (old & segs & Hl).
  destruct (counters_updated _ _ _ _ (ap_counters _ _ _ _ _ _ Ha)) as (C1 & C2 & C3 & C4 & C5).
  cbn in C1, C2, C3, C4, C5. destruct (lg_counters _ _ _ _ _ _ _ _ Hl) as [K1 K2 K3 K4 K5 K6].
  eapply (log_state_flushed _ _ _ _ st (flushed vs' st) _ _ _ _ imm); [exact Hl|done| | |done|done|done|done| |].
  - cbn. destruct (es_immutables st); [done|]. injection Hhead as ->. cbn. by rewrite drop_0.
  - unfold contents. cbn. rewrite Hc. cbn. by rewrite HT.
  - intros k _. by eapply applied_wal.
  - intros segs' Hw. split; cbn; rewrite ?C1, ?C2, ?C3, ?C4, ?C5, ?Hc; try done; try lia.
    + eapply present_same; [by eapply applied_wal|]. eapply owned_file; [exact Hg|]. apply elem_of_app. right. by left.
    + intros g [->|Hin]%elem_of_cons; [done|]. specialize (K6 g Hin). lia.
Qed.

Lemma inv_flushed h T clock guards imm n r en i i' vs' edit edits f :
  inv h T clock guards (Some {| fl_immutable := imm; fl_number := n; fl_built := Some (Ok r) |}) en i →
  fm_number f = n → output_ok limit i f (T n) →
  edit = flush_edit imm f (en_state en) →
  applied (es_versions (en_state en)) vs' edit edits i i' →
  inv h T clock guards None (with_state (with_flush_running false (flushed vs' (en_state en))) en) i'.
Proof.
  intros [Hr Hm Hl Hk (Hrun & Hhead & HT & Hn & Hlast & Hobs & _) Hg] <- Hf -> Ha. cbn [fl_number fl_immutable] in *.
  pose proof (applied_tables _ _ _ _ _ _ Ha Hm) as Ht. destruct Hf as (file & Hst & Htab & Hes & Hsz & Hmw & Hends).
  destruct (version_apply_flush _ _ (flush_edit imm f (en_state en)) f (vk_wf _ _ _ _ _ (rk_version _ _ _ _ _ _ _ Hr)) Hmw eq_refl eq_refl Hlast (ap_version _ _ _ _ _ _ Ha))
    as [Hwf Hc].
  destruct (flushed_layers T vs' (en_state en) imm f Hhead HT Hc) as (Hlay & upper & Hup & Hmem).
  pose proof (rk_version _ _ _ _ _ _ _ Hr) as Hver.
  assert (∀ k b, stored i (sstable_name k) b → stored i' (sstable_name k) b) as Hkept by (intros k b; apply stored_same, Ht).
  split.
  - eapply reads_ok_step; [exact Hr|done..|by destruct (rk_readers _ _ _ _ _ _ _ Hr)|done|done| | | | | |].
    + pose proof (rk_memory _ _ _ _ _ _ _ Hr) as H. rewrite Hmem in H. by apply Forall_app in H as [H _].
    + pose proof (rk_fit _ _ _ _ _ _ _ Hr) as H. rewrite Hmem in H. by apply Forall_app in H as [H _].
    + split; cbn [en_state with_state with_flush_running es_versions flushed with_immutables publish_versions es_next_file_number].
      * done.
      * rewrite Hc. intros g [->|Hgt]%elem_of_cons; [exists file; by split; [apply Hkept|]|].
        destruct (vk_tables _ _ _ _ _ Hver g Hgt) as (b & Hb & H). exists b. split; [by apply Hkept|done].
      * intros u. pose proof (rk_layered _ _ _ _ _ _ _ Hr u) as H. rewrite Hup in H. by apply layered_app in H as (_ & H & _).
      * rewrite Hc. intros g [->|Hgt]%elem_of_cons; [lia|by apply (vk_numbers _ _ _ _ _ Hver)].
    + intros u. change (layered u (layers T (flushed vs' (en_state en)))). rewrite Hlay. apply Hr.
    + change (concat (layers T (flushed vs' (en_state en))) = concat (layers T (en_state en))). by rewrite Hlay.
    + intros r' g b _ _. apply Hkept.
  - by eapply applied_meta.
  - eapply (log_ok_same _ _ i); [by destruct Hl|]. cbn. rewrite (proj1 Hl). by eapply applied_wal.
  - eapply (numbers_ok_same _ i); [|done|intros k _; by eapply applied_wal].
    destruct Hk. split; cbn [en_state with_state with_flush_running flushed with_immutables publish_versions es_next_file_number es_wal_numbers es_mutable es_immutables
      es_obsolete_sstables es_versions]; try done.
    + by apply Forall_drop.
    + intros k Hk. apply nk_owned. destruct Hk as [?|Hk]; [by left|right].
      destruct (es_immutables (en_state en)) as [|m rest]; [done|]. right. exact Hk.
    + intros k Hk. destruct (nk_obsolete k Hk) as (H1 & H2 & Hb). split; [done|]. split; [|done].
      unfold file_numbers. rewrite Hc. cbn. intros [->|Hin]%elem_of_cons; [by apply Hobs|done].
  - done.
  - eapply (logs_fields _ _ _ _ (flushed vs' (en_state en))); [eapply logs_flushed; [exact Hg|apply Hr|exact Hm|exact Hhead|exact HT|exact Hc| |lia|exact Ha]|done..].
    eapply owned_bounds; [exact Hk|by left].
Qed.

Lemma entry_cost_len e es : e ∈ es → zlen (ik_encoded e.1) ≤ entries_cost es.
Proof.
  induction es as [|x es IH]; intros He; [by apply elem_of_nil in He|]. rewrite entries_cost_cons.
  pose proof (zlen_nonneg (encode_engine_value x.2)). pose proof (zlen_nonneg (ik_encoded x.1)).
  pose proof (entries_cost_nonneg es). apply elem_of_cons in He as [->|He]; [lia|]. specialize (IH He). lia.
Qed.

(** A table's metadata fits a record. *)
Lemma output_added i f es level : output_ok limit i f es → 0 ≤ level < NUM_LEVELS → added_wf (level, f).
Proof.
  intros (file & _ & _ & (Hne & _ & _ & Hc & _) & _ & Hm & Hh & Hl) Hlev. split; [done|]. split; [done|]. cbn.
  assert (∀ o : option entry, (∀ e, o = Some e → e ∈ es) → ∀ k, fst <$> o = Some k → zlen (ik_encoded k) ≤ U32_MAX) as H.
  { intros [e|] Ho k Hk; [|done]. injection Hk as <-. pose proof (entry_cost_len e es (Ho e eq_refl)). pose proof (entries_cost_nonneg es). lia. }
  split; [apply (H (head es))|apply (H (last es))]; try done; intros e He.
  - destruct es; [done|]. injection He as ->. by left.
  - by apply last_Some_elem_of.
Qed.

Lemma flush_publish_inv h T clock guards imm n r en i :
  inv h T clock guards (Some {| fl_immutable := imm; fl_number := n; fl_built := Some (Ok r) |}) en i →
  manifest_small (es_versions (en_state en)) i →
  let P st i := inv h T clock guards None (with_state (with_flush_running false st) en) i in
  swp (flush_publish imm r) (en_state en) i (λ _, P) P.
Proof.
  intros Hinv Hsmall P. pose proof Hinv as [Hr Hm Hl Hk (Hrun & Hhead & HT & Hn & Hlast & Hobs & (f & Hf & Hfn & Hout)) Hg].
  cbn [fl_number fl_immutable fl_built] in *.
  assert (P (en_state en) i) as HP by (by apply (inv_flush_running _ _ _ _ _ _ _ _ false Hinv)).
  assert (imm ∈ es_immutables (en_state en)) as Hin.
  { destruct (es_immutables (en_state en)); [done|]. injection Hhead as ->. by left. }
  unfold flush_publish. apply swp_bind, swp_get, swp_bind. eapply swp_lift_ok; [exact Hf|]. apply swp_bind.
  eapply versions_apply_wp; [exact Hm| |constructor; [|constructor]|done| |exact HP].
  - pose proof (nk_next _ _ Hk) as Hnext. destruct (elem_of_Forall _ _ _ (nk_immutables _ _ Hk) Hin) as [_ Hlarge].
    pose proof (owned_bounds _ _ (mm_wal_number (es_mutable (en_state en))) Hk ltac:(by left)) as Hb.
    assert (1 ≤ oldest_of (drop 1 (es_immutables (en_state en))) (es_mutable (en_state en)) < es_next_file_number (en_state en)) as Hold.
    { eapply owned_bounds; [exact Hk|]. destruct (oldest_of_in (drop 1 (es_immutables (en_state en))) (es_mutable (en_state en))) as [Heq|Heq]; [by left|right].
      destruct (es_immutables (en_state en)) as [|m rest]; [by apply elem_of_nil in Heq|]. right. exact Heq. }
    split; cbn; unfold is_u64 in *; try done; try lia.
    constructor; [by eapply output_added|constructor].
  - destruct Hout as (file & Hst & _). by exists file.
  - intros vs' edits i' Ha. apply swp_bind, swp_update. apply retire_inv.
    eapply inv_flushed; [exact Hinv|exact Hfn|exact Hout| |exact Ha]; done.
Qed.

Lemma flush_finish_inv h T clock guards imm n built en i :
  inv h T clock guards (Some {| fl_immutable := imm; fl_number := n; fl_built := Some built |}) en i →
  manifest_small (es_versions (en_state en)) i →
  swp (flush_finish imm built) (en_state en) i (λ _ st' i', inv h T clock guards None (with_state st' en) i') (λ _ _, False).
Proof.
  intros Hinv Hsmall. unfold flush_finish. apply swp_bind, swp_try.
  set (P st i := inv h T clock guards None (with_state (with_flush_running false st) en) i).
  assert (∀ e st' i', P st' i' → swp (c_update (λ st, (record_background_failure e (with_flush_running false st)).2)) st' i'
    (λ _ st2 i2, swp (c_update (with_flush_running false)) st2 i2 (λ _ st3 i3, inv h T clock guards None (with_state st3 en) i3)
      (λ _ _, False)) (λ _ _, False)) as Hfail.
  { intros e st' i' HP. apply swp_update, swp_update.
    pose proof (inv_flags _ _ _ _ _ _ _ _ _ HP (record_background_same e (with_flush_running false st'))) as Hinv'.
    by apply (inv_flush_running _ _ _ _ _ _ _ _ false Hinv'). }
  destruct built as [r|e].
  - apply swp_bind. eapply swp_lift_ok; [done|]. eapply swp_mono; [by apply (flush_publish_inv h T clock guards imm n)| |].
    + intros [] st' i' HP. by apply swp_update.
    + intros st' i' HP e. by apply Hfail.
  - apply swp_bind, swp_fail. intros e'. apply Hfail. by apply (inv_flush_running _ _ _ _ _ _ _ _ false Hinv).
Qed.
End Flush.
