(* ===== verification/EngineReclaim.v ===== *)
(** * Reclaiming tables keeps the invariant

    A table that compaction has made obsolete is removed when no reader in flight
    holds a version with it. *)

From Stdlib Require Import ZArith Lia Sorting.Sorted.
From stdpp Require Import base list gmap strings sorting.
From S2P Require Import Prelude Fs StateFs Checksum InternalKey Batch ValueRecord Snapshot Mvcc MemTable Iter IterFacts.
From S2P Require Import Version Wal Options ManifestCodec Manifest ManifestSet ManifestBoot WalFs Block TableBuilder.
From S2P Require Import TableReader TableStore Compaction CompactionRun Engine EngineOps EngineRead EngineEdits EngineFrame.
From S2P Require Import EngineHistory EngineLogs EngineInv EngineWrite EngineFlush.

Local Open Scope Z_scope.

Section Reclaim.
  Context `{C : Crc32c} {CR : Crc32cRange C} `{SN : Snappy} {SL : SnappyLaws SN} {AK : Acknowledged}.
  Context (options : Options).
  Abbreviation inv := (engine_inv options).

(** No reader holds the table. *)
Definition unheld (en : Engine) (n : Z) : Prop := ∀ r, r ∈ en_readers en → n ∉ file_numbers (av_version (rd_version r)).

Lemma inv_remove_table h T clock guards fl en i n queue before after :
  inv h T clock guards fl en i → unheld en n →
  flat_map ob_files (es_obsolete_sstables (en_state en)) = before ++ n :: after → flat_map ob_files queue = before ++ after →
  inv h T clock guards fl (with_state (with_obsolete_sstables queue (en_state en)) en) (record_remove (sstable_name n) i).
Proof.
  intros [Hr Hm Hl Hk Hf Hg] Hun Hq Hq'. pose proof (nk_next _ _ Hk) as Hnext.
  assert (n ∈ flat_map ob_files (es_obsolete_sstables (en_state en))) as Hin.
  { rewrite Hq. apply elem_of_app. right. by left. }
  destruct (nk_obsolete _ _ Hk n Hin) as (Hn & Hcur & _).
  assert (∀ p, p ≠ sstable_name n → same_at i (record_remove (sstable_name n) i) p) as Hsame.
  { intros p Hp. left. by rewrite view_remove, decide_False. }
  assert (∀ k, 0 ≤ k ≤ U64_MAX → k ≠ n → same_at i (record_remove (sstable_name n) i) (sstable_name k)) as Hother.
  { intros k Hk0 Hne. apply Hsame. intros Heq. apply sstable_name_inj in Heq; lia. }
  assert (∀ k, same_at i (record_remove (sstable_name n) i) (wal_name k)) as Hwal by (intros k; apply Hsame, wal_name_table).
  assert (∀ k, same_at i (record_remove (sstable_name n) i) (sstable_temporary k)) as Htmp by (intros k; apply Hsame, temporary_not_final).
  assert (∀ v next f b, version_ok options T i next v → f ∈ concat v → n ∉ file_numbers v →
    stored i (sstable_name (fm_number f)) b → stored (record_remove (sstable_name n) i) (sstable_name (fm_number f)) b) as Hver.
  { intros v next f b Hv Hfv Hno. apply stored_same, Hother.
    - pose proof (elem_of_Forall _ _ _ (vw_files _ (vk_wf _ _ _ _ _ Hv)) Hfv) as [? _ _ _ _]. lia.
    - intros <-. by apply Hno, list_elem_of_fmap_2. }
  assert (NoDup (before ++ after) ∧ n ∉ before ++ after) as [Hnd Hno].
  { pose proof (nk_obsolete_once _ _ Hk) as Hnd. rewrite Hq, <- Permutation_middle in Hnd. by apply NoDup_cons in Hnd as [? ?]. }
  split.
  - assert (reads_ok options h T clock guards en (record_remove (sstable_name n) i)) as [].
    { eapply reads_ok_image; [exact Hr|]. intros v f b [->|(r & Hin' & ->)] Hfv.
      - by eapply Hver; [apply Hr|..].
      - eapply Hver; [by apply (rk_held _ _ _ _ _ _ _ Hr)|done|by apply Hun]. }
    split; try done. by destruct rk_readers.
  - change (meta_ok (es_versions (en_state en)) (record_remove (sstable_name n) i)).
    eapply meta_ok_kept; [exact Hm| |eapply version_tables_stored, Hr]. intros p b [->|[->|(f & Hfv & ->)]].
    + apply stored_same, Hsame. apply not_eq_sym, (table_name_meta n 1).
    + apply stored_same, Hsame. destruct (manifest_path _ _ Hm) as [m ->]. apply not_eq_sym, (table_name_meta n m).
    + by eapply Hver; [apply Hr|..].
  - eapply (log_ok_same _ _ i); [by destruct Hl|]. cbn. rewrite (proj1 Hl). apply Hwal.
  - destruct Hk. split; cbn [en_state with_state with_obsolete_sstables es_next_file_number es_wal_numbers es_mutable es_immutables
      es_obsolete_sstables es_versions es_terminal_failure]; try done.
    + intros Hok k Hk. apply (unused_same i); [by apply nk_fresh|done|apply Hother; lia].
    + intros k Hk. destruct (nk_wal_fresh k Hk). by apply (same_at_none i).
    + intros k Hk. destruct (same_at_content _ _ _ (Hwal k)) as [-> _]. auto.
    + rewrite Hq'. intros k Hk. destruct (nk_obsolete k) as (H1 & H2 & b & Hb).
      { rewrite Hq. apply elem_of_app. apply elem_of_app in Hk as [?|?]; [by left|right; by right]. }
      do 2 (split; [done|]). exists b. eapply stored_same; [|done]. apply Hother; [lia|]. by intros ->.
    + by rewrite Hq'.
  - destruct fl as [fl|]; [|done]. cbn in Hf |- *. destruct Hf as (H1 & H2 & H3 & H4 & H5 & H6 & H7).
    assert (fl_number fl ≠ n) as Hfn by (intros Heq; by rewrite Heq in H6). do 5 (split; [done|]). split.
    + rewrite Hq'. intros Hin'. apply H6. rewrite Hq. apply elem_of_app. apply elem_of_app in Hin' as [?|?]; [by left|right; by right].
    + pose proof (Hother (fl_number fl) ltac:(lia) Hfn) as Hs. destruct (fl_built fl) as [[r|e]|]; [|done|by apply (unused_same i)].
      destruct H7 as (f & Hf & Hnum & file & Hst & H7). exists f. do 2 (split; [done|]). exists file.
      split; [eapply stored_same; [|exact Hst]; by rewrite Hnum|done].
  - eapply logs_fields; [eapply logs_image; [exact Hg|by intros k _]|done..].
Qed.

(** The queue during the loop: what is kept, the set at hand and what is left. *)
Definition queue_at (retained : list ObsoleteSstables) (o : ObsoleteSstables) (files : list Z) (queue : list ObsoleteSstables) :=
  retained ++ {| ob_version := ob_version o; ob_files := files |} :: queue.

Lemma with_obsolete_twice a b st : with_obsolete_sstables a (with_obsolete_sstables b st) = with_obsolete_sstables a st.
Proof. done. Qed.

Lemma reclaim_files_wp h T clock guards fl en protected retained o queue files still removed i
    (Q : reclaim_outcome → CrashImage → Prop) :
  let P files i := inv h T clock guards fl (with_state (with_obsolete_sstables (queue_at retained o files queue) (en_state en)) en) i in
  (∀ n, n ∉ protected → unheld en n) → P (still ++ files) i →
  (∀ still' removed' i', P still' i' → Q (Reclaimed still' removed') i') →
  wpf false (reclaim_files protected files still removed) i Q (λ _, False).
Proof.
  intros P Hun. revert still removed i. induction files as [|n files IH]; intros still removed i HP HQ; cbn [reclaim_files].
  { apply wp_ret, HQ. by rewrite app_nil_r in HP. }
  case_bool_decide as Hp.
  - apply IH; [|done]. by rewrite <- app_assoc.
  - assert (P (still ++ files) (record_remove (sstable_name n) i)) as HP'.
    { eapply (inv_remove_table _ _ _ _ _ _ _ n _ (flat_map ob_files retained ++ still) (files ++ flat_map ob_files queue)) in HP; [exact HP|by apply Hun|..].
      - cbn. unfold queue_at. rewrite flat_map_app. cbn. by rewrite <- !app_assoc.
      - unfold queue_at. rewrite flat_map_app. cbn. by rewrite <- !app_assoc. }
    assert (is_Some (ci_volatile i !! sstable_name n)) as Hfile.
    { destruct (nk_obsolete _ _ (ei_numbers _ _ _ _ _ _ _ _ HP) n) as (_ & _ & b & Hb).
      { cbn. unfold queue_at. rewrite flat_map_app, !elem_of_app. right. cbn. rewrite !elem_of_app. left. right. by left. }
      apply view_eq in Hb as (-> & _). eauto. }
    intros s Hs Hf.
    pose proof (wp_remove_file false i (λ _, False) (sstable_name n) (λ _ i', i' = record_remove (sstable_name n) i) ltac:(done) Hfile eq_refl s Hs Hf) as Hrm.
    destruct (remove_file (sstable_name n) s) as [[[]|e] s']; [|done]. destruct Hrm as [Hi' Hf'].
    exact (IH still true _ HP' HQ s' Hi' Hf').
Qed.

Lemma reclaim_loop_inv h T clock guards fl en protected queue retained removed st i
    (Q : bool → WriteState → CrashImage → Prop) E :
  (∀ n, n ∉ protected → unheld en n) →
  inv h T clock guards fl (with_state (with_obsolete_sstables (retained ++ queue) st) en) i →
  (∀ removed' queue' i', inv h T clock guards fl (with_state (with_obsolete_sstables queue' st) en) i' →
    Q removed' (with_obsolete_sstables queue' st) i') →
  swp (reclaim_loop protected queue retained removed) st i Q E.
Proof.
  intros Hun. revert retained removed i. induction queue as [|o queue IH]; intros retained removed i HP HQ; cbn [reclaim_loop].
  { apply swp_bind, swp_update, swp_ret, HQ. by rewrite app_nil_r in HP. }
  apply swp_bind, swp_fs.
  apply (reclaim_files_wp h T clock guards fl (with_state st en) protected retained o queue (ob_files o) []);
    [exact Hun|by destruct o|].
  intros still' removed' i' HP'. apply IH; [|done].
  case_bool_decide as Hs; [subst still'|by rewrite <- app_assoc].
  destruct HP' as [[] Hm Hl [] Hf Hg].
  assert (flat_map ob_files (queue_at retained o [] queue) = flat_map ob_files (retained ++ queue)) as Hq.
  { unfold queue_at. by rewrite !flat_map_app. }
  split; [split; try done; by destruct rk_readers|done|done| | |by eapply logs_fields]; clear Hg.
  - split; cbn in *; try done; by rewrite <- Hq.
  - destruct fl as [fl|]; [|done]. cbn in *. by rewrite <- Hq.
Qed.

(** The versions of the readers are among the protected ones. *)
Lemma protected_held en n :
  readers_ok en → n ∉ protected_files (en_readers en) (en_state en) → unheld en n.
Proof.
  intros Hro Hno r Hr Hin. apply Hno. unfold protected_files. apply list_elem_of_In, in_flat_map.
  exists (av_version (rd_version r)). split; [|by apply list_elem_of_In].
  apply in_app_iff. right. apply in_map_iff. exists {| rv_version := rd_version r; rv_lease := rd_lease r |}. split; [done|].
  apply filter_In. split; [apply list_elem_of_In, (elem_of_Forall _ _ _ (ro_registered _ Hro) Hr)|by apply readers_registered_alive].
Qed.

Lemma reclaim_inv h T clock guards fl en i E :
  inv h T clock guards fl en i →
  swp (reclaim_obsolete_sstables (en_readers en)) (en_state en) i
    (λ _ st' i', inv h T clock guards fl (with_state st' en) i' ∧
      es_versions st' = es_versions (en_state en)) E.
Proof.
  intros Hinv. unfold reclaim_obsolete_sstables. apply swp_bind, swp_update, swp_bind, swp_get.
  set (st := with_reader_versions _ (en_state en)).
  assert (inv h T clock guards fl (with_state st en) i) as Hinv1.
  { destruct Hinv as [Hr Hm Hl Hk Hf Hg]. split; [|done|done|by destruct Hk|done|by eapply logs_fields].
    destruct Hr. split; try done. pose proof rk_readers as [Hnd Hold Hreg]. split; cbn; [done|done|].
    apply Forall_forall. intros r Hr. apply elem_of_filter_b. split; [by apply readers_registered_alive|].
    by apply (elem_of_Forall _ _ _ Hreg). }
  apply swp_bind. eapply (reclaim_loop_inv h T clock guards fl en); [|exact Hinv1|].
  - intros n Hn. apply (protected_held (with_state st en)); [apply (rk_readers _ _ _ _ _ _ _ (ei_reads _ _ _ _ _ _ _ _ Hinv1))|exact Hn].
  - intros removed queue i' Hinv2. destruct removed; [|by apply swp_ret].
    apply swp_fs, wp_map_err, wp_directory; [done|]. split; [|done]. eapply inv_all_same; [exact Hinv2|]. intros p. by right.
Qed.
End Reclaim.
