(* ===== verification/EngineMaintain.v ===== *)
(** * Compactions keep the invariant

    The outputs of [run] get numbers that nothing uses; the edit puts them in the
    place of the plan's files, which become obsolete.  The readers that are in flight
    keep their tables, and the values that the protected readers see stay. *)

From Stdlib Require Import ZArith Lia Sorting.Sorted.
From stdpp Require Import base list gmap strings sorting.
From S2P Require Import Prelude Fs StateFs Checksum InternalKey Batch ValueRecord Snapshot Mvcc MemTable Iter IterFacts.
From S2P Require Import Version Wal Options ManifestCodec Manifest ManifestSet ManifestBoot WalFs Block TableBuilder.
From S2P Require Import TableReader TableStore Compaction CompactionRun Engine EngineOps EngineRead EngineEdits EngineFrame.
From S2P Require Import EngineHistory EngineLogs EngineInv EngineCompact EngineWrite EngineFlush EngineReclaim.

Local Open Scope Z_scope.

(** ** What is written *)

Lemma expired_keys now es : Forall entry_wf es → map version_key (map (expired now) es) = map version_key es.
Proof.
  induction 1 as [|e es He _ IH]; [done|]. cbn. rewrite IH. f_equal. unfold version_key.
  by destruct (expired_facts now e He) as (_ & -> & -> & _).
Qed.

(** The keys of the outputs are keys of the inputs, each at most once. *)
Lemma compacted_keys plan context m rs :
  compacted plan context m rs → key_sorted m → Forall entry_wf m → versions_unique m → NoDup m →
  map version_key (concat rs) `sublist_of` map version_key m.
Proof.
  induction 1 as [|e m g r retained rs Hsp Hret Hc IH]; intros Hs Hwf Hu Hnd; [done|].
  pose proof (span_key_group e m g r Hs Hwf Hu Hnd Hsp) as Hg.
  destruct (merged_tail e m g r Hs Hwf Hu Hnd Hsp) as (Hs' & Hwf' & Hu' & Hnd' & _).
  destruct (span_user_spec _ _ _ _ Hsp) as (-> & _ & _). destruct (retained_group _ _ _ _ _ _ Hg Hret) as [_ Hsub].
  change (e :: g ++ r) with ((e :: g) ++ r). cbn [concat]. rewrite !map_app. apply sublist_app; [|by apply IH].
  rewrite <- (expired_keys (cc_read_time_unix_ms context) (e :: g)) by apply Hg. by apply sublist_fmap.
Qed.

(** The ghost contents with the outputs. *)
Definition with_outputs (n : Z) (outs : list (list entry)) (T : Z → list entry) : Z → list entry :=
  λ k, if k <? n then T k else default (T k) (outs !! Z.to_nat (k - n)).

Lemma with_outputs_agree n outs T : agree_below n T (with_outputs n outs T).
Proof. intros k Hk. unfold with_outputs. by rewrite (proj2 (Z.ltb_lt _ _)) by lia. Qed.

Lemma with_outputs_files n outs T files :
  map fm_number files = seqZ n (zlen outs) → map (λ f, with_outputs n outs T (fm_number f)) files = outs.
Proof.
  intros Hnum. rewrite <- (map_map fm_number (with_outputs n outs T)), Hnum. apply list_eq. intros j.
  change (map (with_outputs n outs T) (seqZ n (zlen outs))) with (with_outputs n outs T <$> seqZ n (zlen outs)). rewrite list_lookup_fmap.
  destruct (decide (j < length outs)%nat) as [Hj|Hj].
  - rewrite lookup_seqZ_lt by (unfold zlen; lia). cbn. unfold with_outputs. rewrite (proj2 (Z.ltb_ge _ _)) by lia.
    replace (Z.to_nat (n + Z.of_nat j - n)) with j by lia. destruct (lookup_lt_is_Some_2 _ _ Hj) as [x ->]. done.
  - rewrite lookup_seqZ_ge by (unfold zlen; lia). cbn. symmetry. apply lookup_ge_None. lia.
Qed.

(** Lists without empty elements are no longer than what they hold. *)
Lemma concat_len {A} (ls : list (list A)) : Forall (λ l, l ≠ []) ls → zlen ls ≤ zlen (concat ls).
Proof.
  induction 1 as [|l ls Hl _ IH]; [done|]. cbn. destruct l as [|x l]; [done|]. rewrite zlen_app. pose proof (zlen_nonneg l). zlen_lia.
Qed.

Lemma entries_cost_len es : zlen es ≤ entries_cost es.
Proof.
  induction es as [|e es IH]; [done|]. rewrite entries_cost_cons. pose proof (zlen_nonneg (ik_encoded e.1)).
  pose proof (zlen_nonneg (encode_engine_value e.2)). zlen_lia.
Qed.

(** ** The edit *)

Lemma compaction_edit_fields plan output :
  compaction_edit plan output =
    {| ve_added_files := map (λ f, (pl_output_level plan, f)) (co_files output);
       ve_deleted_files := map (λ f, (pl_input_level plan, fm_number f)) (pl_inputs plan) ++
         map (λ f, (pl_output_level plan, fm_number f)) (pl_overlaps plan);
       ve_next_file_number := Some (co_next_file_number output);
       ve_last_sequence := None; ve_log_number := None; ve_active_log_number := None; ve_wal_sequence := None |}.
Proof.
  assert (∀ level files e, fold_left (λ edit file, delete_file edit level (fm_number file)) files e =
    {| ve_added_files := ve_added_files e; ve_deleted_files := ve_deleted_files e ++ map (λ f, (level, fm_number f)) files;
       ve_next_file_number := ve_next_file_number e; ve_last_sequence := ve_last_sequence e; ve_log_number := ve_log_number e;
       ve_active_log_number := ve_active_log_number e; ve_wal_sequence := ve_wal_sequence e |}) as Hdel.
  { intros level files. induction files as [|f files IH]; intros e; cbn; [rewrite app_nil_r; by destruct e|].
    rewrite IH. cbn. by rewrite <- app_assoc. }
  assert (∀ level files e, fold_left (λ edit file, add_file edit level file) files e =
    {| ve_added_files := ve_added_files e ++ map (λ f, (level, f)) files; ve_deleted_files := ve_deleted_files e;
       ve_next_file_number := ve_next_file_number e; ve_last_sequence := ve_last_sequence e; ve_log_number := ve_log_number e;
       ve_active_log_number := ve_active_log_number e; ve_wal_sequence := ve_wal_sequence e |}) as Hadd.
  { intros level files. induction files as [|f files IH]; intros e; cbn; [rewrite app_nil_r; by destruct e|].
    rewrite IH. cbn. by rewrite <- app_assoc. }
  unfold compaction_edit. by rewrite !Hdel, Hadd.
Qed.

(** The deleted files are the plan's. *)
Lemma plan_deleted v plan l f :
  version_wf v → plan_safe v plan → f ∈ level_files v l →
  (l, fm_number f) ∈ map (λ f, (pl_input_level plan, fm_number f)) (pl_inputs plan) ++
    map (λ f, (pl_output_level plan, fm_number f)) (pl_overlaps plan) ↔ f ∈ plan_files plan.
Proof.
  intros Hv Hs Hf. unfold plan_files. rewrite !elem_of_app. split.
  - intros [(g & Heq & Hg)%list_elem_of_fmap|(g & Heq & Hg)%list_elem_of_fmap]; injection Heq as -> Hn.
    + left. by destruct (file_level v _ _ f g Hv Hf (ps_inputs _ _ Hs g Hg) Hn) as [_ ->].
    + right. by destruct (file_level v _ _ f g Hv Hf (ps_overlaps _ _ Hs g Hg) Hn) as [_ ->].
  - intros [Hg|Hg].
    + left. destruct (file_level v _ _ f f Hv Hf (ps_inputs _ _ Hs f Hg) eq_refl) as [-> _].
      by apply (list_elem_of_fmap_2 (λ f, (pl_input_level plan, fm_number f))).
    + right. destruct (file_level v _ _ f f Hv Hf (ps_overlaps _ _ Hs f Hg) eq_refl) as [-> _].
      by apply (list_elem_of_fmap_2 (λ f, (pl_output_level plan, fm_number f))).
Qed.

Section Maintain.
  Context `{C : Crc32c} {CR : Crc32cRange C} `{SN : Snappy} {SL : SnappyLaws SN} {AK : Acknowledged}.
  Context (options : Options).
  Abbreviation inv := (engine_inv options).
  Abbreviation limit := (engine_block_limit options).

Lemma version_ranges T i next v : version_ok options T i next v → in_ranges T v.
Proof.
  intros Hv f e Hf He. pose proof (output_keys _ _ _ _ _ (vk_tables _ _ _ _ _ Hv f Hf) He) as Ho.
  unfold overlaps in Ho. by rewrite andb_true_iff, !lex_leb_le in Ho.
Qed.

(** ** The new version *)

(** The outputs and what they hold. *)
Record outputs_ok (T : Z → list entry) (i : CrashImage) (n next : Z) (p : CompactionPlan) (context : CompactionContext)
    (files : list FileMeta) : Prop := {
  ou_tables : ∀ f, f ∈ files → output_ok limit i f (T (fm_number f));
  ou_numbers : ∀ f, f ∈ files → n ≤ fm_number f < next;
  ou_once : NoDup files;
  ou_compacted : ∃ m rs, m ≡ₚ concat (map (λ f, T (fm_number f)) (plan_files p)) ∧ key_sorted m ∧
    compacted p context m rs ∧ concat (map (λ f, T (fm_number f)) files) = concat rs
}.

Section Publish.
  Context (T : Z → list entry) (i i' : CrashImage) (n next : Z) (p : CompactionPlan) (context : CompactionContext).
  Context (files : list FileMeta) (v v' : Version) (edit : VersionEdit) (mem : list entry).
  Context (Hv : version_ok options T i next v) (Hold : ∀ f, f ∈ concat v → fm_number f < n) (Hsafe : plan_safe v p).
  Context (Hout : outputs_ok T i n next p context files).
  Context (Hkeys : NoDup (map version_key (mem ++ concat (contents T v)))).
  Context (Hadded : ve_added_files edit = map (λ f, (pl_output_level p, f)) files).
  Context (Hdeleted : ve_deleted_files edit = map (λ f, (pl_input_level p, fm_number f)) (pl_inputs p) ++
    map (λ f, (pl_output_level p, fm_number f)) (pl_overlaps p)).
  Context (Happly : Version_apply v edit = Ok v').
  Abbreviation inputs := (concat (map (λ f, T (fm_number f)) (plan_files p))).

Lemma plan_member f : f ∈ plan_files p → f ∈ concat v.
Proof using Hsafe.
  intros [Hf|Hf]%elem_of_app; [apply (ps_inputs _ _ Hsafe) in Hf|apply (ps_overlaps _ _ Hsafe) in Hf]; by eapply concat_level_elem.
Qed.

(** The inputs are among the contents. *)
Lemma inputs_among : ∃ rest, concat (contents T v) ≡ₚ inputs ++ rest.
Proof using Hsafe.
  destruct (submseteq_Permutation (plan_files p) (concat v)) as [rest Hrest].
  { apply NoDup_submseteq; [eapply (NoDup_fmap_1 fm_number), (ps_nodup _ _ Hsafe)|apply plan_member]. }
  exists (concat (map (λ f, T (fm_number f)) rest)). unfold contents. rewrite <- concat_app, <- map_app.
  by apply concat_perm, Permutation_map.
Qed.

Lemma inputs_keys : NoDup (map version_key inputs).
Proof using Hsafe Hkeys.
  destruct inputs_among as [rest Hrest]. rewrite Hrest, !map_app in Hkeys.
  apply NoDup_app in Hkeys as (_ & _ & H). by apply NoDup_app in H as (H & _ & _).
Qed.

Lemma inputs_wf : Forall entry_wf inputs.
Proof using Hv Hsafe.
  apply Forall_forall. intros e (f & Hf & He)%elem_of_tables.
  destruct (vk_tables _ _ _ _ _ Hv f (plan_member f Hf)) as (_ & _ & _ & (_ & Hwf & _) & _). by apply (elem_of_Forall _ _ _ Hwf).
Qed.

Lemma inputs_nodup : NoDup inputs.
Proof using Hsafe Hkeys. eapply (NoDup_fmap_1 version_key), inputs_keys. Qed.

Lemma outputs_keys :
  ∃ ks, ks ≡ₚ map version_key inputs ∧
    map version_key (concat (map (λ f, T (fm_number f)) files)) `sublist_of` ks.
Proof using Hv Hsafe Hkeys Hout.
  destruct (ou_compacted _ _ _ _ _ _ _ Hout) as (m & rs & Hp & Hs & Hc & ->). exists (map version_key m).
  split; [by rewrite Hp|]. apply (compacted_keys p context); [done|done|by rewrite Hp; apply inputs_wf| |by rewrite Hp; apply inputs_nodup].
  eapply versions_unique_subset; [|apply keys_unique, inputs_keys]. intros e. by rewrite Hp.
Qed.

Lemma compaction_members l f :
  f ∈ level_files v' l ↔ (f ∈ level_files v l ∧ f ∉ plan_files p) ∨ (l = pl_output_level p ∧ f ∈ files).
Proof using Hv Hsafe Hout Hadded Hdeleted Happly.
  destruct (version_apply_spec v edit v' (vk_wf _ _ _ _ _ Hv)) as [_ Hm]; [|exact Happly|].
  { unfold edit_files_wf. rewrite Hadded. apply Forall_fmap, Forall_forall. intros g Hg.
    by destruct (ou_tables _ _ _ _ _ _ _ Hout g Hg) as (_ & _ & _ & _ & _ & ? & _). }
  rewrite Hm, Hadded, Hdeleted. split.
  - intros [[Hf Hno]|(g & [= -> ->] & Hg)%list_elem_of_fmap]; [left|by right]. split; [done|].
    intros Hpf. apply Hno. by apply (plan_deleted v p l f); [apply Hv|..].
  - intros [[Hf Hno]|[-> Hf]]; [left|right].
    + split; [done|]. intros Hd. apply Hno. by apply (plan_deleted v p l f); [apply Hv|..].
    + by apply (list_elem_of_fmap_2 (λ f, (pl_output_level p, f))).
Qed.

Lemma compaction_files f : f ∈ concat v' → f ∈ concat v ∧ (f ∉ plan_files p) ∨ f ∈ files.
Proof using Hv Hsafe Hout Hadded Hdeleted Happly.
  intros (l & _ & [[Hf Hno]|[_ Hf]]%compaction_members)%concat_level; [left|by right].
  split; [by eapply concat_level_elem|done].
Qed.

Lemma compaction_replaced : replaced T T v v' p files.
Proof using Hv Hold Hsafe Hkeys Hout Hadded Hdeleted Happly.
  destruct outputs_keys as (ks & Hks & Hsub). split.
  - apply Hv.
  - destruct (version_apply_spec v edit v' (vk_wf _ _ _ _ _ Hv)) as [Hwf _]; [|exact Happly|done].
    unfold edit_files_wf. rewrite Hadded. apply Forall_fmap, Forall_forall. intros g Hg.
    by destruct (ou_tables _ _ _ _ _ _ _ Hout g Hg) as (_ & _ & _ & _ & _ & ? & _).
  - done.
  - apply compaction_members.
  - done.
  - by eapply version_ranges.
  - intros f e [[Hf _]|Hf]%compaction_files He; [by apply (version_ranges T i next v Hv)|].
    pose proof (output_keys _ _ _ _ _ (ou_tables _ _ _ _ _ _ _ Hout f Hf) He) as Ho.
    unfold overlaps in Ho. by rewrite andb_true_iff, !lex_leb_le in Ho.
  - intros f e Hf He. assert (version_key e ∈ map version_key inputs) as Hk.
    { rewrite <- Hks. eapply sublist_subseteq; [exact Hsub|]. apply list_elem_of_fmap_2, elem_of_tables. eauto. }
    apply list_elem_of_fmap in Hk as (x & Hk & (g & Hg & Hx)%elem_of_tables). by exists g, x.
  - eapply sublist_NoDup; [|exact Hsub]. rewrite Hks. apply inputs_keys.
  - apply Hout.
  - intros f Hf Hin. specialize (Hold f Hin). pose proof (ou_numbers _ _ _ _ _ _ _ Hout f Hf). lia.
Qed.
End Publish.

(** ** The engine behind the publication *)

(** The readers that a compaction must not disturb. *)
Lemma readers_protected h T clock guards en i q es :
  reads_ok options h T clock guards en i → q ∈ en_committed_sequence en :: guards →
  (∀ e, e ∈ es → e ∈ concat (layers T (en_state en))) → protected (oldest_active (en_snapshots en)) q es.
Proof.
  intros Hr Hq Hes. pose proof (oldest_rep _ _ (rk_registry _ _ _ _ _ _ _ Hr)) as Ho. unfold protected.
  destruct (oldest_active (en_snapshots en)) as [s|].
  - destruct Ho as [Hin Hle]. apply elem_of_cons in Hq as [->|Hq]; [|by apply Hle].
    pose proof (elem_of_Forall _ _ _ (rk_guards _ _ _ _ _ _ _ Hr) Hin) as Hs. cbn in Hs. lia.
  - subst guards. apply list_elem_of_singleton in Hq as ->. intros e He. by apply (rk_covered _ _ _ _ _ _ _ Hr), Hes.
Qed.

Definition compacted_state (vs : VersionSet) (p : CompactionPlan) (st : WriteState) : WriteState :=
  with_obsolete_sstables (es_obsolete_sstables st ++
      [{| ob_version := current_version st; ob_files := map fm_number (plan_files p) |}]) (publish_versions vs st).

Section Compacted.
  Context (h : history) (T : Z → list entry) (clock : Z) (guards : list Z) (en : Engine) (i i' : CrashImage) (n : Z).
  Context (p : CompactionPlan) (context : CompactionContext) (files : list FileMeta) (vs' : VersionSet).
  Context (edit : VersionEdit) (edits : list VersionEdit).
  Abbreviation v := (vs_current (es_versions (en_state en))).
  Abbreviation next := (es_next_file_number (en_state en)).
  Context (Hinv : inv h T clock guards None en i) (Hsafe : plan_safe v p).
  Context (Hold : ∀ f, f ∈ concat v → fm_number f < n).
  Context (Hobs : ∀ k, k ∈ flat_map ob_files (es_obsolete_sstables (en_state en)) → k < n).
  Context (Hout : outputs_ok T i n next p context files).
  Context (Hcv : cc_version context = v) (Hco : cc_oldest_active_snapshot context = oldest_active (en_snapshots en)).
  Context (Hadded : ve_added_files edit = map (λ f, (pl_output_level p, f)) files).
  Context (Hdeleted : ve_deleted_files edit = map (λ f, (pl_input_level p, fm_number f)) (pl_inputs p) ++
    map (λ f, (pl_output_level p, fm_number f)) (pl_overlaps p)).
  Context (Hcounts : ve_next_file_number edit = Some next ∧ ve_last_sequence edit = None ∧ ve_log_number edit = None ∧
    ve_active_log_number edit = None ∧ ve_wal_sequence edit = None).
  Context (Ha : applied (es_versions (en_state en)) vs' edit edits i i').
  Abbreviation mem := (concat (map mt_entries (memory_tables (en_state en)))).
  Abbreviation st' := (compacted_state vs' p (en_state en)).

Let Hr := ei_reads _ _ _ _ _ _ _ _ Hinv.
Let Hver := rk_version _ _ _ _ _ _ _ Hr.

Lemma state_layers : concat (layers T (en_state en)) = mem ++ concat (contents T v).
Proof. unfold layers, engine_layers. by rewrite concat_app. Qed.

Lemma new_layers : concat (layers T st') = mem ++ concat (contents T (vs_current vs')).
Proof. unfold layers, engine_layers. by rewrite concat_app. Qed.

Lemma state_keys : NoDup (map version_key (mem ++ concat (contents T v))).
Proof using Hinv. rewrite <- state_layers. apply (rk_unique _ _ _ _ _ _ _ Hr). Qed.

Lemma state_replaced : replaced T T v (vs_current vs') p files.
Proof using Hinv Hold Hsafe Hout Hadded Hdeleted Ha.
  eapply (compaction_replaced T i n next p context files v (vs_current vs') edit mem);
    [exact Hver|exact Hold|exact Hsafe|exact Hout|exact state_keys|exact Hadded|exact Hdeleted|apply Ha].
Qed.

Lemma memory_above f : f ∈ concat v → above mem (T (fm_number f)).
Proof using Hinv.
  intros Hf u. pose proof (rk_layered _ _ _ _ _ _ _ Hr u) as Hl. unfold layers, engine_layers in Hl.
  apply layered_app in Hl as (_ & _ & Hl). intros e e' He He'. apply Hl; [done|].
  apply elem_of_concat. exists (T (fm_number f)). split; [done|]. by apply (list_elem_of_fmap_2 (λ f, T (fm_number f))).
Qed.

Lemma tables_order : tables_layered T v.
Proof using Hinv. apply layered_levels; [apply Hver|by eapply version_ranges|apply Hver]. Qed.

Lemma new_tables f : f ∈ concat (vs_current vs') → output_ok limit i' f (T (fm_number f)) ∧ fm_number f < next.
Proof using Hinv Hold Hsafe Hout Hadded Hdeleted Ha.
  intros Hf. pose proof (applied_tables _ _ _ _ _ _ Ha (ei_meta _ _ _ _ _ _ _ _ Hinv)) as Ht.
  assert (output_ok limit i f (T (fm_number f)) ∧ fm_number f < next) as [(file & Hst & H) Hlt].
  { eapply (compaction_files T i n next p context files v (vs_current vs') edit) in Hf; [|exact Hver|exact Hsafe|exact Hout|exact Hadded|exact Hdeleted|apply Ha].
    destruct Hf as [[Hf _]|Hf].
    - split; [by apply (vk_tables _ _ _ _ _ Hver)|by apply (vk_numbers _ _ _ _ _ Hver)].
    - split; [by apply (ou_tables _ _ _ _ _ _ _ Hout)|by apply (ou_numbers _ _ _ _ _ _ _ Hout)]. }
  split; [|done]. exists file. split; [|done]. eapply stored_same; [apply Ht|done].
Qed.

Lemma reads_compacted clock' :
  clock ≤ clock' → cc_read_time_unix_ms context ≤ clock' → reads_ok options h T clock' guards (with_state st' en) i'.
Proof using Hinv Hold Hsafe Hout Hcv Hco Hadded Hdeleted Ha.
  intros Hc Ht. pose proof state_replaced as Hrep. pose proof (ei_meta _ _ _ _ _ _ _ _ Hinv) as Hm.
  pose proof (applied_tables _ _ _ _ _ _ Ha Hm) as Hts.
  assert (∀ u, layered u (contents T (vs_current vs'))) as Hlay.
  { apply layered_levels; [apply Hrep|apply Hrep|]. eapply replaced_layered; [exact Hrep|exact tables_order]. }
  pose proof Hr as [Hwf Hold' Hseq Hmem Hfit _ Hl Huq Hcov Hrd Hreg Hg Hro Hheld].
  split; try done.
  - split; cbn [en_state with_state es_versions compacted_state with_obsolete_sstables publish_versions es_next_file_number].
    + apply Hrep.
    + intros f Hf. by apply new_tables.
    + exact Hlay.
    + intros f Hf. by apply new_tables.
  - intros u. specialize (Hl u). unfold layers, engine_layers in Hl |- *.
    apply layered_app in Hl as (Hl & _). apply layered_app. split; [exact Hl|]. split; [apply Hlay|].
    intros e e' He (es & He' & (f & -> & Hf)%list_elem_of_fmap)%elem_of_concat.
    by apply (replaced_above T T v (vs_current vs') p files Hrep mem memory_above f Hf u).
  - cbn [en_state with_state]. rewrite new_layers. eapply replaced_keys; [exact Hrep|exact state_keys].
  - intros e. cbn [en_state with_state]. rewrite new_layers. rewrite state_layers in Hcov.
    intros [He|He]%elem_of_app; [apply Hcov, elem_of_app; by left|]. revert e He. eapply replaced_seqs; [exact Hrep|].
    intros e He. apply Hcov, elem_of_app. by right.
  - intros u q now Hq Hnow. cbn [en_state with_state]. rewrite new_layers.
    destruct (ou_compacted _ _ _ _ _ _ _ Hout) as (m & rs & Hp & Hs & Hcomp & Heq).
    eapply (replaced_reads T T v (vs_current vs') p files Hrep context mem m rs Hcv tables_order memory_above); try done.
    + apply keys_unique, state_keys.
    + eapply inputs_wf; [exact Hver|exact Hsafe].
    + eapply inputs_nodup; [exact Hsafe|exact state_keys].
    + rewrite Hco. eapply readers_protected; [exact Hr|exact Hq|]. intros e He. rewrite state_layers.
      destruct (inputs_among T p v Hsafe) as [rest Hrest]. rewrite Hrest, !elem_of_app. auto.
    + lia.
    + rewrite <- state_layers. apply Hrd; [done|lia].
  - destruct Hro. by split.
  - intros r Hin. eapply version_ok_kept; [by apply Hheld|cbn; lia|]. intros f b _. apply stored_same, Hts.
Qed.

Lemma plan_obsolete k :
  k ∈ map fm_number (plan_files p) →
  (1 ≤ k < next ∧ (k ∉ file_numbers (vs_current vs')) ∧ ∃ b, stored i' (sstable_name k) b) ∧
  k ∉ flat_map ob_files (es_obsolete_sstables (en_state en)).
Proof using Hinv Hold Hsafe Hout Hadded Hdeleted Ha.
  intros (f & -> & Hf)%list_elem_of_fmap. pose proof (plan_member p v Hsafe f Hf) as Hfv. split.
  - split; [split|split].
    + pose proof (elem_of_Forall _ _ _ (vw_files _ (vk_wf _ _ _ _ _ Hver)) Hfv) as [? _ _ _ _]. lia.
    + by apply (vk_numbers _ _ _ _ _ Hver).
    + intros (g & Hn & Hg)%list_elem_of_fmap.
      eapply (compaction_files T i n next p context files v (vs_current vs') edit) in Hg; [|exact Hver|exact Hsafe|exact Hout|exact Hadded|exact Hdeleted|apply Ha].
      destruct Hg as [[Hg Hno]|Hg].
      * apply concat_level in Hg as (l & _ & Hg). apply concat_level in Hfv as (l' & _ & Hfv).
        destruct (file_level v l' l f g (vk_wf _ _ _ _ _ Hver) Hfv Hg Hn) as [_ <-]. done.
      * pose proof (ou_numbers _ _ _ _ _ _ _ Hout g Hg). specialize (Hold f Hfv). lia.
    + destruct (vk_tables _ _ _ _ _ Hver f Hfv) as (b & Hb & _). exists b.
      eapply stored_same; [eapply applied_tables; [exact Ha|apply (ei_meta _ _ _ _ _ _ _ _ Hinv)]|done].
  - intros Hin. destruct (nk_obsolete _ _ (ei_numbers _ _ _ _ _ _ _ _ Hinv) _ Hin) as (_ & Hno & _). apply Hno. by apply list_elem_of_fmap_2.
Qed.

Lemma numbers_compacted : numbers_ok st' i'.
Proof using Hinv Hold Hobs Hsafe Hout Hadded Hdeleted Ha.
  pose proof (ei_meta _ _ _ _ _ _ _ _ Hinv) as Hm. pose proof (applied_tables _ _ _ _ _ _ Ha Hm) as Ht.
  pose proof (numbers_ok_same _ _ _ (ei_numbers _ _ _ _ _ _ _ _ Hinv) Ht ltac:(intros k _; by eapply applied_wal)) as [].
  split; cbn [compacted_state with_obsolete_sstables publish_versions es_next_file_number es_wal_numbers es_mutable es_immutables
      es_obsolete_sstables es_versions es_terminal_failure]; try done.
  - intros k. rewrite flat_map_app, elem_of_app. cbn. rewrite app_nil_r. intros [Hk|Hk]; [|by apply plan_obsolete].
    destruct (nk_obsolete k Hk) as (H1 & H2 & Hb). split; [done|]. split; [|done]. intros (g & Hn & Hg)%list_elem_of_fmap.
    eapply (compaction_files T i n next p context files v (vs_current vs') edit) in Hg; [|exact Hver|exact Hsafe|exact Hout|exact Hadded|exact Hdeleted|apply Ha].
    destruct Hg as [[Hg _]|Hg]; [apply H2; rewrite Hn; by apply list_elem_of_fmap_2|].
    pose proof (ou_numbers _ _ _ _ _ _ _ Hout g Hg). specialize (Hobs k Hk). lia.
  - rewrite flat_map_app. cbn. rewrite app_nil_r. apply NoDup_app. split; [done|]. split; [|apply (ps_nodup _ _ Hsafe)].
    intros k Hk Hk'. by apply plan_obsolete in Hk' as [_ ?].
Qed.

(** The tables on their own read as before, up to the last sequence in them. *)
Lemma tables_compacted l u now o :
  (∀ e, e ∈ concat (contents T v) → e_seq e ≤ l) → cc_read_time_unix_ms context ≤ now →
  reads u l now (concat (contents T v)) o → reads u l now (concat (contents T (vs_current vs'))) o.
Proof using Hinv Hold Hsafe Hout Hcv Hco Hadded Hdeleted Ha.
  intros Hl Hnow Hread. pose proof state_replaced as Hrep. set (q := en_committed_sequence en).
  assert (∀ e, e ∈ concat (contents T v) → e_seq e ≤ q) as Hq.
  { intros e He. apply (rk_covered _ _ _ _ _ _ _ Hr). rewrite state_layers. apply elem_of_app. by right. }
  apply (reads_covered u q l); [eapply replaced_seqs; [exact Hrep|done]|eapply replaced_seqs; [exact Hrep|done]|].
  apply (reads_covered u l q) in Hread; [|done|done].
  destruct (ou_compacted _ _ _ _ _ _ _ Hout) as (m & rs & Hp & Hs & Hcomp & Heq).
  eapply (replaced_reads T T v (vs_current vs') p files Hrep context [] m rs Hcv tables_order); try done.
  - intros f _ u' e e' He. by apply elem_of_nil in He.
  - eapply versions_unique_subset; [|apply keys_unique, state_keys]. intros e He. apply elem_of_app. by right.
  - eapply inputs_wf; [exact Hver|exact Hsafe].
  - eapply inputs_nodup; [exact Hsafe|exact state_keys].
  - rewrite Hco. eapply readers_protected; [exact Hr|by left|]. intros e He. rewrite state_layers.
    destruct (inputs_among T p v Hsafe) as [rest Hrest]. rewrite Hrest, !elem_of_app. auto.
Qed.

Lemma logs_compacted clock' :
  clock ≤ clock' → cc_read_time_unix_ms context ≤ clock' → logs_ok options h T clock' st' i'.
Proof using Hinv Hold Hsafe Hout Hcv Hco Hadded Hdeleted Hcounts Ha.
  intros Hc Ht. destruct (ei_logs _ _ _ _ _ _ _ _ Hinv) as (old & segs & Hl). exists old, segs.
  destruct Hcounts as (E1 & E2 & E3 & E4 & E5).
  destruct (counters_updated _ _ _ _ (ap_counters _ _ _ _ _ _ Ha)) as (C1 & C2 & C3 & C4 & C5).
  rewrite E1 in C1. rewrite E2 in C2. rewrite E3 in C3. rewrite E4 in C4. rewrite E5 in C5. cbn in C1, C2, C3, C4, C5.
  pose proof (ei_meta _ _ _ _ _ _ _ _ Hinv) as Hm. pose proof (lg_covered _ _ _ _ _ _ _ _ Hl) as Hcov.
  destruct (lg_counters _ _ _ _ _ _ _ _ Hl) as [K1 K2 K3 K4 K5 K6].
  eapply log_state_compacted; [exact Hl|exact Hc|exact C2|done|done|done|done|intros k _; by eapply applied_wal| | |].
  - split; cbn; rewrite ?C1, ?C2, ?C3, ?C4, ?C5; try done; try lia.
    + eapply present_same; [by eapply applied_wal|done].
    + intros f Hf. by apply new_tables.
  - intros e He. revert e He. eapply replaced_seqs; [exact state_replaced|exact Hcov].
  - intros u now o Hnow. apply tables_compacted; [exact Hcov|lia].
Qed.

Lemma inv_compacted clock' :
  clock ≤ clock' → cc_read_time_unix_ms context ≤ clock' → inv h T clock' guards None (with_state st' en) i'.
Proof using Hinv Hold Hobs Hsafe Hout Hcv Hco Hadded Hdeleted Hcounts Ha.
  intros Hc Ht. pose proof Hinv as [_ Hm Hl Hk Hf _]. split.
  - by apply reads_compacted.
  - by eapply applied_meta.
  - eapply (log_ok_same _ _ i); [by destruct Hl|]. cbn. rewrite (proj1 Hl). by eapply applied_wal.
  - apply numbers_compacted.
  - exact Hf.
  - by apply logs_compacted.
Qed.
End Compacted.

(** ** The run and its files *)

Lemma wal_not_output n k : ¬ output_name n (wal_name k).
Proof. intros (m & _ & [H|H]); [by apply wal_name_temporary in H|by apply wal_name_table in H]. Qed.

(** Files with numbers from the next one on are nobody's business. *)
Lemma inv_outputs h T clock guards en i i1 n1 :
  inv h T clock guards None en i → kept i i1 → others_same (es_next_file_number (en_state en)) i i1 →
  es_next_file_number (en_state en) ≤ n1 ≤ U64_MAX → (es_terminal_failure (en_state en) = None → fresh i1 n1) →
  inv h T clock guards None (with_state (with_next_file_number n1 (en_state en)) en) i1.
Proof.
  intros [Hr Hm Hl Hk Hf Hg] Hkept Hsame Hn1 Hfresh. split; [| | | |exact Hf|eapply logs_same; [exact Hg|done..|]; intros k _; apply Hsame, wal_not_output].
  - eapply reads_ok_step; [exact Hr|done..|by destruct (rk_readers _ _ _ _ _ _ _ Hr)|done|cbn; lia|apply Hr|apply Hr| |apply Hr|done|].
    + eapply version_ok_kept; [apply Hr|cbn; lia|]. intros f b _. apply Hkept.
    + intros r f b _ _. apply Hkept.
  - eapply meta_ok_kept; [exact Hm| |eapply version_tables_stored, Hr]. intros q b _. apply Hkept.
  - eapply (log_ok_same _ _ i); [by destruct Hl|]. cbn. rewrite (proj1 Hl). apply Hsame, wal_not_output.
  - assert (∀ k, same_at i i1 (wal_name k)) as Hw by (intros k; apply Hsame, wal_not_output).
    destruct Hk. split; cbn [en_state with_state with_next_file_number es_next_file_number es_wal_numbers es_mutable es_immutables
      es_obsolete_sstables es_versions es_terminal_failure]; try done; [lia| | | |].
    + intros k Hk. destruct (nk_wal_fresh k ltac:(lia)). by apply (same_at_none i).
    + eapply Forall_impl; [exact nk_wal_numbers|]. intros k Hk. cbn in *. lia.
    + intros k Hk. destruct (same_at_content _ _ _ (Hw k)) as [-> _]. auto.
    + intros k Hk. destruct (nk_obsolete k Hk) as (H1 & H2 & b & Hb). split; [lia|]. split; [done|]. exists b. by apply Hkept.
Qed.

Lemma remove_faultless q s :
  fs_fail_at s = None →
  fs_fail_at (remove_file q s).2 = None ∧
  (fs_image (remove_file q s).2 = fs_image s ∨ fs_image (remove_file q s).2 = record_remove q (fs_image s)).
Proof.
  intros Hf. unfold remove_file, fs_bind, observe. cbn. rewrite Hf, bool_decide_false by done.
  unfold validate_file, read_file, fs_bind. cbn. destruct (ci_volatile (fs_image s) !! q); cbn; auto.
Qed.

(** The guard of the run removes its own files only. *)
Lemma cleanup_others n i0 paths s :
  Forall (output_name n) paths → fs_fail_at s = None → others_same n i0 (fs_image s) →
  let s' := (cleanup_drop paths s).2 in fs_fail_at s' = None ∧ others_same n i0 (fs_image s').
Proof.
  intros Hp Hf Hs. unfold cleanup_drop, fs_bind.
  assert (∀ l s, Forall (output_name n) l → fs_fail_at s = None → others_same n i0 (fs_image s) →
    ∃ s', fs_each (λ path, fs_ignore (remove_file path)) l s = (Ok tt, s') ∧ fs_fail_at s' = None ∧
      others_same n i0 (fs_image s')) as Heach.
  { intros l. induction l as [|q l IH]; intros s1 Hl Hf1 Hs1; [by eexists|]. apply Forall_cons in Hl as [Hq Hl].
    cbn. unfold fs_bind, fs_ignore at 1. destruct (remove_faultless q s1 Hf1) as [Hf2 Hi]. apply IH; [done|done|].
    intros p Hno. eapply same_at_trans; [by apply Hs1|]. destruct Hi as [->| ->]; [apply same_at_refl|].
    left. rewrite view_remove, decide_False; [done|]. by intros ->. }
  destruct (Heach (reverse paths) s) as (s' & -> & Hf' & Hs'); [|done|done|].
  { apply Forall_forall. intros q Hin. apply (elem_of_Forall _ _ _ Hp). by apply elem_of_reverse. }
  case_bool_decide; [done|]. unfold fs_ignore, sync_directory, fs_bind, observe. cbn. rewrite Hf', bool_decide_false by done. cbn. split; [done|].
  intros p Hno. eapply same_at_trans; [by apply Hs'|]. by right.
Qed.

(** What a compaction may take: tables that fit the reader of the compaction, and a
    number for every entry. *)
Definition plan_small (next : Z) (i : CrashImage) (p : CompactionPlan) : Prop :=
  ∀ ess, Forall2 (output_ok limit i) (plan_files p) ess →
    16 * entries_cost (concat ess) ≤ 2 ^ 31 ∧ next + zlen (concat ess) + 2 ≤ U64_MAX.

Section Execute.
  Context (h : history) (T : Z → list entry) (clock now : Z) (guards : list Z) (en : Engine) (i : CrashImage).
  Context (p : CompactionPlan).
  Abbreviation st := (en_state en).
  Abbreviation v := (vs_current (es_versions st)).
  Abbreviation next := (es_next_file_number st).
  Context (Ho : options_ok options) (Hinv : inv h T clock guards None en i) (Hsafe : plan_safe v p).
  Context (Hsmall : plan_small next i p) (Hmanifest : manifest_small (es_versions st) i).
  Context (Hwritable : es_terminal_failure st = None).

Definition run_context : CompactionContext :=
  {| cc_options := options; cc_version := v; cc_oldest_active_snapshot := oldest_active (en_snapshots en);
     cc_read_time_unix_ms := now; cc_next_file_number := next |}.

Abbreviation ess := (map (λ f, T (fm_number f)) (plan_files p)).

Lemma plan_inputs_ok : Forall2 (output_ok limit i) (plan_files p) ess.
Proof using Hinv Hsafe.
  apply Forall2_fmap_r, Forall_Forall2_diag, Forall_forall. intros f Hf.
  apply (vk_tables _ _ _ _ _ (rk_version _ _ _ _ _ _ _ (ei_reads _ _ _ _ _ _ _ _ Hinv))). by apply (plan_member p v Hsafe).
Qed.

Lemma plan_run_ready : run_ready limit i p run_context ess.
Proof using Ho Hinv Hsafe Hsmall Hwritable.
  pose proof (ei_numbers _ _ _ _ _ _ _ _ Hinv) as Hk. destruct (Hsmall _ plan_inputs_ok) as [Hcost Hnum].
  pose proof (state_keys h T clock guards en i Hinv) as Hkeys.
  split; cbn [run_context cc_options cc_next_file_number]; try done.
  - apply plan_inputs_ok.
  - eapply keys_unique, inputs_keys; [exact Hsafe|exact Hkeys].
  - eapply inputs_nodup; [exact Hsafe|exact Hkeys].
  - by apply (nk_fresh _ _ Hk).
  - apply (nk_next _ _ Hk).
  - apply Ho.
  - by apply limit_entry.
  - apply Ho.
Qed.

Section Result.
  Context (i1 : CrashImage) (outs : list (list entry)) (out : CompactionOutput).
  Context (Hres : run_result limit i i1 p run_context ess outs out).
  Abbreviation T' := (with_outputs next outs T).

Lemma outputs_some : Forall (λ es, es ≠ []) outs.
Proof using Hres.
  apply Forall_forall. intros es Hes. apply list_elem_of_lookup in Hes as [j Hj].
  destruct (Forall2_lookup_r _ _ _ _ _ (rr_files _ _ _ _ _ _ _ _ Hres) Hj) as (f & _ & (file & _ & _ & (Hne & _) & _)). done.
Qed.

Lemma outputs_few : zlen outs ≤ zlen (concat ess).
Proof using Hinv Hsafe Hres.
  etrans; [apply concat_len, outputs_some|]. destruct (rr_compacted _ _ _ _ _ _ _ _ Hres) as (m & rs & Hp & Hs & Hc & ->).
  pose proof (state_keys h T clock guards en i Hinv) as Hkeys.
  assert (map version_key (concat rs) `sublist_of` map version_key m) as Hsub.
  { apply (compacted_keys p run_context); [done|done| | |].
    - rewrite Hp. eapply inputs_wf; [apply Hinv|exact Hsafe].
    - eapply versions_unique_subset; [|eapply keys_unique, inputs_keys; [exact Hsafe|exact Hkeys]]. intros e. by rewrite Hp.
    - rewrite Hp. eapply inputs_nodup; [exact Hsafe|exact Hkeys]. }
  apply sublist_length in Hsub. rewrite !length_map in Hsub. rewrite <- (zlen_perm _ _ Hp). unfold zlen. lia.
Qed.

Lemma outputs_next : next ≤ next + zlen outs ≤ U64_MAX.
Proof using Hinv Hsafe Hsmall Hres.
  destruct (Hsmall _ plan_inputs_ok) as [_ Hnum]. pose proof outputs_few. pose proof (zlen_nonneg outs). lia.
Qed.

Lemma outputs_inv :
  inv h T' clock guards None (with_state (with_next_file_number (next + zlen outs) st) en) i1.
Proof using Ho Hinv Hsafe Hsmall Hwritable Hres.
  apply (inv_outputs _ _ _ _ en i).
  - eapply inv_agree; [apply with_outputs_agree|exact Hinv].
  - apply Hres.
  - apply (rr_others _ _ _ _ _ _ _ _ Hres).
  - apply outputs_next.
  - intros _. apply (rr_fresh _ _ _ _ _ _ _ _ Hres).
Qed.

Lemma plan_inputs_agree : map (λ f, T' (fm_number f)) (plan_files p) = ess.
Proof using Hinv Hsafe.
  apply map_ext_in. intros f Hf. apply with_outputs_agree.
  apply (vk_numbers _ _ _ _ _ (rk_version _ _ _ _ _ _ _ (ei_reads _ _ _ _ _ _ _ _ Hinv))), (plan_member p v Hsafe). by apply list_elem_of_In.
Qed.

Lemma outputs_result : outputs_ok T' i1 next (next + zlen outs) p run_context (co_files out).
Proof using Hinv Hsafe Hres.
  destruct Hres as [Hcomp Hord Hfiles Hnum Hnext _ _ _ _]. cbn [run_context cc_next_file_number] in Hnum.
  pose proof (with_outputs_files next outs T (co_files out) Hnum) as Hmap. split.
  - intros f Hf. apply list_elem_of_lookup in Hf as [j Hj].
    destruct (Forall2_lookup_l _ _ _ _ _ Hfiles Hj) as (es & Hes & Hok). assert (T' (fm_number f) = es) as ->; [|done].
    rewrite <- Hmap in Hes. change (map (λ f, T' (fm_number f)) (co_files out)) with ((λ f, T' (fm_number f)) <$> co_files out) in Hes.
    rewrite list_lookup_fmap, Hj in Hes. by injection Hes.
  - intros f Hf. assert (fm_number f ∈ seqZ next (zlen outs)) as Hin by (rewrite <- Hnum; by apply list_elem_of_fmap_2).
    apply elem_of_seqZ in Hin. lia.
  - eapply (NoDup_fmap_1 fm_number). change (NoDup (map fm_number (co_files out))). rewrite Hnum. apply NoDup_seqZ.
  - destruct Hcomp as (m & rs & Hp & Hs & Hc & Heq). exists m, rs. rewrite plan_inputs_agree, Hmap. done.
Qed.

Lemma output_edit_wf : edit_wf (compaction_edit p out) ∧ added_stored i1 (compaction_edit p out).
Proof using Hinv Hsafe Hsmall Hres.
  rewrite compaction_edit_fields. pose proof outputs_next as Hnext. destruct (Hsmall _ plan_inputs_ok) as [Hcost _].
  pose proof (ps_level _ _ Hsafe) as Hlev. pose proof (ps_output _ _ Hsafe) as Hout.
  pose proof (nk_next _ _ (ei_numbers _ _ _ _ _ _ _ _ Hinv)) as Hn.
  pose proof (Forall2_length _ _ _ (rr_files _ _ _ _ _ _ _ _ Hres)) as Hlen. pose proof outputs_few as Hfew.
  pose proof (entries_cost_len (concat ess)) as Hcl.
  assert (∀ f, f ∈ plan_files p → 1 ≤ fm_number f ≤ U64_MAX) as Hnums.
  { intros f Hf. pose proof (rk_version _ _ _ _ _ _ _ (ei_reads _ _ _ _ _ _ _ _ Hinv)) as Hver.
    pose proof (plan_member p v Hsafe f Hf) as Hfv. pose proof (vk_numbers _ _ _ _ _ Hver f Hfv).
    pose proof (elem_of_Forall _ _ _ (vw_files _ (vk_wf _ _ _ _ _ Hver)) Hfv) as [? _ _ _ _]. lia. }
  assert (zlen (plan_files p) ≤ zlen (concat ess)) as Hplan.
  { etrans; [|apply concat_len].
    - unfold zlen. by rewrite length_map.
    - apply Forall_fmap, Forall_forall. intros f Hf.
      destruct (vk_tables _ _ _ _ _ (rk_version _ _ _ _ _ _ _ (ei_reads _ _ _ _ _ _ _ _ Hinv)) f (plan_member p v Hsafe f Hf))
        as (_ & _ & _ & (Hne & _) & _). exact Hne. }
  split; [split; cbn [ve_next_file_number ve_last_sequence ve_log_number ve_active_log_number ve_wal_sequence ve_deleted_files ve_added_files]; try done|].
  - cbn. rewrite (rr_next _ _ _ _ _ _ _ _ Hres). cbn [run_context cc_next_file_number]. unfold is_u64. lia.
  - apply Forall_app. split; apply Forall_fmap, Forall_forall; intros f Hf; (split; [unfold level_wf, NUM_LEVELS; cbn; lia|]);
      (assert (1 ≤ fm_number f ≤ U64_MAX) by (apply Hnums, elem_of_app; auto)); cbn; unfold is_u64; lia.
  - trans (zlen (concat ess)); [etrans; [|exact Hplan]|unfold U32_MAX; lia].
    unfold plan_files. rewrite !zlen_app. unfold zlen. rewrite !length_map. lia.
  - apply Forall_fmap, Forall_forall. intros f Hf. cbn. eapply output_added.
    + apply (ou_tables _ _ _ _ _ _ _ outputs_result f Hf).
    + unfold NUM_LEVELS. lia.
  - trans (zlen (concat ess)); [etrans; [|exact Hfew]|unfold U32_MAX; lia]. unfold zlen. rewrite length_map, Hlen. lia.
  - unfold added_stored. cbn [ve_added_files]. apply Forall_fmap, Forall_forall. intros f Hf. cbn.
    destruct (ou_tables _ _ _ _ _ _ _ outputs_result f Hf) as (file & Hst & _). by exists file.
Qed.
End Result.

Lemma publish_wp st1 i1 out (Q : unit → WriteState → CrashImage → Prop) E :
  meta_ok (es_versions st1) i1 → edit_wf (compaction_edit p out) → added_stored i1 (compaction_edit p out) →
  manifest_small (es_versions st1) i1 →
  (∀ vs' edits i', applied (es_versions st1) vs' (compaction_edit p out) edits i1 i' → Q tt (publish_versions vs' st1) i') →
  E st1 i1 →
  (∀ s, fs_image s = i1 → fs_fail_at s = None →
    let s' := (cleanup_drop (co_paths out) s).2 in fs_fail_at s' = None ∧ E st1 (fs_image s')) →
  swp (publish_compaction p out) st1 i1 Q E.
Proof.
  intros [[edits Hvs] Hst] Hwf Hadd Hsm HQ HE Hclean s Hs Hf. unfold publish_compaction, versions_apply_with_visibility.
  pose proof (apply_frame (es_versions st1) (compaction_edit p out) s edits) as H. rewrite Hs in H.
  specialize (H Hvs Hst Hwf Hadd Hsm Hf).
  destruct (apply_with_visibility (es_versions st1) (compaction_edit p out) s) as [[[e|] vs'] s'].
  - destruct H as (Hf' & -> & Hi). rewrite keep_versions_same. destruct (va_edit_may_be_visible e); [by rewrite Hi|].
    destruct (Hclean s' Hi Hf'). by split.
  - destruct H as (Hf' & Ha). split; [by eapply HQ|done].
Qed.

(** A refused compaction leaves files behind, if any, that a stopped engine ignores. *)
Lemma inv_refused i1 :
  kept i i1 → others_same next i i1 →
  ∀ st2, same_data st st2 → es_terminal_failure st2 ≠ None → inv h T clock guards None (with_state st2 en) i1.
Proof using Hinv.
  intros Hk Hs st2 Hsame Hne. pose proof (inv_flags _ _ _ _ _ _ _ _ _ Hinv Hsame) as Hinv2.
  pose proof (nk_next _ _ (ei_numbers _ _ _ _ _ _ _ _ Hinv)) as Hn.
  assert (es_next_file_number st2 = next) as Hn2 by (by destruct Hsame as (? & ? & ? & _ & ->)).
  assert (with_next_file_number next st2 = st2) as Heq by (rewrite <- Hn2; by destruct st2).
  rewrite <- Heq. change (with_state (with_next_file_number next st2) en)
    with (with_state (with_next_file_number next (en_state (with_state st2 en))) (with_state st2 en)).
  apply (inv_outputs _ _ _ _ (with_state st2 en) i); [exact Hinv2|done|cbn; by rewrite Hn2|cbn; lia|done].
Qed.

Lemma execute_valid_inv clock' :
  clock ≤ clock' → now ≤ clock' →
  swp (execute_valid_compaction_plan options p (en_readers en) (oldest_active (en_snapshots en)) now) st i
    (λ _ st' i', ∃ T', agree_below next T T' ∧ inv h T' clock' guards None (with_state st' en) i')
    (λ st' i', ∀ st2, same_data st' st2 → es_terminal_failure st2 ≠ None → inv h T clock guards None (with_state st2 en) i').
Proof using Ho Hinv Hsafe Hsmall Hmanifest Hwritable CR SL.
  intros Hc Hnow. unfold execute_valid_compaction_plan. apply swp_bind, swp_get, swp_bind, swp_fs.
  pose proof (run_wp limit false i (λ _, False) p run_context ess plan_run_ready ltac:(done)) as Hrun.
  intros s Hs Hf. specialize (Hrun s Hs Hf). unfold run_context in Hrun. cbn [av_version current_version].
  destruct (run p _ s) as [[out|e] s1]; [|done]. destruct Hrun as [(outs & Hres) Hf1]. split; [|exact Hf1].
  fold run_context in Hres. set (i1 := fs_image s1) in *. clearbody i1. clear s s1 Hs Hf Hf1.
  set (T' := with_outputs next outs T). pose proof (outputs_inv i1 outs out Hres) as Hinv1.
  destruct (output_edit_wf i1 outs out Hres) as [Hwf Hadd]. pose proof (outputs_next i1 outs out Hres) as Hnext.
  assert (manifest_small (es_versions st) i1) as Hms.
  { eapply manifest_small_same; [exact Hmanifest|]. apply (rr_others _ _ _ _ _ _ _ _ Hres). cbn [run_context cc_next_file_number].
    destruct (manifest_path _ _ (ei_meta _ _ _ _ _ _ _ _ Hinv)) as [m ->].
    intros (k & _ & [Heq|Heq]); destruct (table_name_meta k m) as ((_ & H1) & _ & H2); by symmetry in Heq. }
  apply swp_bind, publish_wp; [exact (ei_meta _ _ _ _ _ _ _ _ Hinv1)|exact Hwf|exact Hadd|exact Hms| | |].
  - intros vs' edits i2 Ha. apply swp_bind, swp_update.
    assert (inv h T' clock' guards None (with_state (compacted_state vs' p (with_next_file_number (next + zlen outs) st)) en) i2) as Hinv2.
    { rewrite compaction_edit_fields in Ha.
      eapply (inv_compacted h T' clock guards (with_state (with_next_file_number (next + zlen outs) st) en) i1 i2 next p run_context
        (co_files out) vs' _ edits Hinv1 Hsafe); [| | | | | | | |exact Ha|done|done]; try done.
      - apply (vk_numbers _ _ _ _ _ (rk_version _ _ _ _ _ _ _ (ei_reads _ _ _ _ _ _ _ _ Hinv))).
      - intros k Hk. destruct (nk_obsolete _ _ (ei_numbers _ _ _ _ _ _ _ _ Hinv) k Hk) as [? _]. lia.
      - exact (outputs_result i1 outs out Hres).
      - cbn. rewrite (rr_next _ _ _ _ _ _ _ _ Hres). done. }
    rewrite (rr_next _ _ _ _ _ _ _ _ Hres). cbn [run_context cc_next_file_number].
    eapply swp_mono; [exact (reclaim_inv options h T' clock' guards None _ i2 (λ _ _, False) Hinv2)| |done].
    intros [] st2 i3 [Hinv3 _]. exists T'. split; [apply with_outputs_agree|exact Hinv3].
  - apply inv_refused; [apply Hres|apply (rr_others _ _ _ _ _ _ _ _ Hres)].
  - intros s Hs Hf. pose proof (rr_paths _ _ _ _ _ _ _ _ Hres) as Hpaths. cbn [run_context cc_next_file_number] in Hpaths.
    pose proof (cleanup_others next i (co_paths out) s Hpaths Hf) as Hclean. rewrite Hs in Hclean.
    destruct (Hclean (rr_others _ _ _ _ _ _ _ _ Hres)) as [Hf' Ho']. split; [exact Hf'|]. apply inv_refused; [|exact Ho'].
    apply (cleanup_kept i next); [by apply (nk_fresh _ _ (ei_numbers _ _ _ _ _ _ _ _ Hinv))|exact Hpaths|]. rewrite Hs. apply Hres.
Qed.
End Execute.

(** ** Requests *)

Lemma ensure_writable_ok st : ensure_writable st = Ok tt → es_terminal_failure st = None.
Proof. unfold ensure_writable. by destruct (es_terminal_failure st). Qed.

(** What is known about a plan until it is executed: if its files are still there, it
    may be executed. *)
Definition plan_pending (v : Version) (p : CompactionPlan) : Prop :=
  validate_compaction_plan p v = Ok tt → plan_safe v p.

Lemma execute_inv h T clock clock' guards fl en i p now :
  options_ok options → inv h T clock guards fl en i → plan_pending (vs_current (es_versions (en_state en))) p →
  plan_small (es_next_file_number (en_state en)) i p → manifest_small (es_versions (en_state en)) i →
  clock ≤ clock' → now ≤ clock' →
  let P en' i' := ∃ T' st', en' = with_state st' en ∧ agree_below (es_next_file_number (en_state en)) T T' ∧
    inv h T' clock' guards fl (with_state st' en) i' in
  swp (execute_compaction_plan options p now) en i (λ _, P) P.
Proof using CR SL.
  intros Ho Hinv Hplan Hsmall Hman Hc Hnow P.
  assert (∀ st' i', inv h T clock guards fl (with_state st' en) i' → P (with_state st' en) i') as Hstay.
  { intros st' i' H. exists T, st'. split; [done|]. split; [by intros n|]. destruct H as [[] Hm Hl Hk Hf (old & segs & Hg)].
    split; [|done..|exists old, segs; by eapply log_state_clock]. split; try done. intros u q now' Hq Hle. apply rk_reads; [done|lia]. }
  assert (P en i) as Hen by (rewrite <- (with_state_same en); apply Hstay; by rewrite with_state_same).
  unfold execute_compaction_plan. apply swp_bind, swp_get, swp_bind, swp_lift; [done|]. intros [] Hw%ensure_writable_ok.
  destruct (negb _ || es_flush_running (en_state en)) eqn:Eb; [by apply swp_fail|].
  apply orb_false_iff in Eb as [_ Erun].
  assert (fl = None) as ->.
  { pose proof (ei_flush _ _ _ _ _ _ _ _ Hinv) as Hf. destruct fl; [|done]. destruct Hf as [Hf _]. congruence. }
  apply swp_bind, swp_lift; [done|]. intros [] Hval.
  apply swp_on_state, swp_try.
  eapply swp_mono; [apply (execute_valid_inv h T clock now guards en i p Ho Hinv (Hplan Hval) Hsmall Hman Hw clock' Hc Hnow)| |].
  - intros [] st' i' (T' & Ha & Hinv'). by exists T', st'.
  - intros st' i' Hst e s Hs Hf. cbn beta zeta.
    assert (es_terminal_failure (record_background_failure e st').2 ≠ None) as Hne.
    { unfold record_background_failure, record_terminal_failure. by destruct (es_terminal_failure st') eqn:E; cbn; rewrite ?E. }
    pose proof (Hst _ (record_background_same e st') Hne) as Hinv'.
    destruct (record_background_failure e st') as [e' st2]. rewrite Hs. split; [|done]. by apply Hstay.
Qed.

Lemma pick_inv h T clock guards fl en i :
  inv h T clock guards fl en i → levels_fit (vs_current (es_versions (en_state en))) →
  let P en' i' := ∃ st', en' = with_state st' en ∧ es_versions st' = es_versions (en_state en) ∧
    inv h T clock guards fl (with_state st' en) i' in
  swp (compact_pick options) en i
    (λ plan en' i', P en' i' ∧ match plan with Some p => plan_safe (vs_current (es_versions (en_state en))) p | None => True end) P.
Proof.
  intros Hinv Hfit P. assert (P en i) as HP.
  { exists (en_state en). rewrite with_state_same. done. }
  unfold compact_pick. apply swp_bind, swp_get, swp_bind, swp_lift; [done|]. intros [] _.
  apply swp_bind, swp_on_state. eapply swp_mono; [exact (reclaim_inv options h T clock guards fl en i (λ _ _, False) Hinv)| |done].
  intros [] st' i' [Hinv' Hvs]. assert (P (with_state st' en) i') as HP' by (by exists st').
  apply swp_bind, swp_get, swp_lift; [done|]. cbn [en_state with_state]. rewrite Hvs. intros plan Hpick. split; [done|].
  pose proof (vk_wf _ _ _ _ _ (rk_version _ _ _ _ _ _ _ (ei_reads _ _ _ _ _ _ _ _ Hinv))) as Hwf.
  destruct (pick_levels_ok (CompactionPicker_new DEFAULT_L0_COMPACTION_TRIGGER (op_target_sstable_bytes options))
    (vs_current (es_versions (en_state en))) input_levels [] None) as (o & Ho & Hbest); [done|done| | |].
  { unfold input_levels. repeat (apply Forall_cons_2; [lia|]). constructor. }
  { intros level s Hin. by apply elem_of_nil in Hin. }
  assert (o = plan) as -> by (unfold pick in Hpick; congruence). destruct plan as [p|]; [|done].
  apply plan_ok_safe; [done|]. by destruct Hbest.
Qed.
End Maintain.
