(* ===== verification/EngineDir.v ===== *)
(** * The directory of an engine that is opened

    What a listing shows: the numbered names are exactly the canonical names, so the
    logs that [wal_paths] finds are the logs of the directory in order, and the files
    that [remove_unpublished_sstables] removes are the tables that no version has. *)

From Stdlib Require Import ZArith Lia Sorting.Sorted.
From stdpp Require Import base list gmap strings sorting.
From S2P Require Import Prelude Fs StateFs Checksum Framing InternalKey Batch ValueRecord Snapshot Mvcc MemTable Iter.
From S2P Require Import Version Wal Options ManifestCodec Manifest ManifestLog ManifestSet ManifestBoot WalFs Block TableBuilder.
From S2P Require Import TableReader TableStore Compaction CompactionRun Engine EngineOps EngineOpen EngineRead EngineFrame.
From S2P Require Import EngineHistory EngineLogs EngineInv EngineWrite EngineFlush.

Local Open Scope Z_scope.

(** ** Names *)

Lemma strip_suffix_app suffix b : strip_suffix suffix (b ++ suffix) = Some b.
Proof. unfold strip_suffix. rewrite reverse_app, strip_prefix_app. cbn. by rewrite reverse_involutive. Qed.

Lemma strip_suffix_sound suffix b r : strip_suffix suffix b = Some r → b = r ++ suffix.
Proof.
  unfold strip_suffix. destruct (strip_prefix _ _) as [x|] eqn:E; cbn; [|done]. intros [= <-].
  apply strip_prefix_sound in E. rewrite <- (reverse_involutive b), E, reverse_app, reverse_involutive. done.
Qed.

Lemma parse_u64_range digits n :
  forallb is_ascii_digit digits = true → parse_u64 digits = Some n → 0 ≤ n ≤ U64_MAX.
Proof.
  unfold parse_u64. assert (∀ l acc, forallb is_ascii_digit l = true → 0 ≤ acc ≤ U64_MAX →
    fold_left push_digit l (Some acc) = Some n → 0 ≤ n ≤ U64_MAX) as H; [|intros Hd; by apply H].
  induction l as [|d l IH]; intros acc Hd Hacc Hf; [injection Hf as <-; done|]. cbn in Hd, Hf.
  apply andb_true_iff in Hd as [Hd Hl]. unfold is_ascii_digit in Hd. apply andb_true_iff in Hd as [H1 H2]. to_prop.
  assert (∀ l, fold_left push_digit l None = None) as Hnone by (intros l'; by induction l').
  unfold checked_mul, checked_add in Hf. destruct (Z.leb_spec (acc * 10) USIZE_MAX); [|by rewrite Hnone in Hf].
  destruct (Z.leb_spec (acc * 10 + (d - 48)) USIZE_MAX); [|by rewrite Hnone in Hf].
  apply IH in Hf; [done|done|]. unfold USIZE_MAX, U64_MAX in *. lia.
Qed.

(** [parse_numbered_name] accepts exactly the names that are written. *)
Lemma parse_numbered_ok n suffix : 1 ≤ n ≤ U64_MAX → parse_numbered_name (format06 n ++ suffix) suffix = Some n.
Proof.
  intros Hn. unfold parse_numbered_name. rewrite strip_suffix_app. destruct (format06_parse n ltac:(lia)) as (-> & -> & Hl).
  rewrite (proj2 (Z.ltb_ge _ _)), (proj2 (Z.eqb_neq _ _)), lex_eqb_refl by lia. done.
Qed.

Lemma parse_numbered_sound p suffix n :
  parse_numbered_name p suffix = Some n → p = format06 n ++ suffix ∧ 1 ≤ n ≤ U64_MAX.
Proof.
  unfold parse_numbered_name. destruct (strip_suffix suffix p) as [d|] eqn:Es; [|done]. apply strip_suffix_sound in Es as ->.
  destruct (zlen d <? 6); [done|]. destruct (forallb is_ascii_digit d) eqn:Ed; [|done]. cbn.
  destruct (parse_u64 d) as [m|] eqn:Ep; [|done]. pose proof (parse_u64_range d m Ed Ep) as Hm.
  destruct (Z.eqb_spec m 0); cbn; [done|]. destruct (lex_eqb d (format06 m)) eqn:E; [|done].
  apply lex_eqb_eq in E as ->. intros [= <-]. split; [done|lia].
Qed.

(** ** Removing files *)

(** The names are gone, also behind a crash; the rest is as before. *)
Record removed (gone : name → Prop) (i i' : CrashImage) : Prop := {
  rv_gone : ∀ p, gone p → view i' p = (None, None, None);
  rv_kept : ∀ p, ¬ gone p → same_at i i' p
}.

Section Remove.
  Context {X : Type} (path : X → name) (f : error → error).

Lemma remove_each_wp (l : list X) i (Q : unit → CrashImage → Prop) E :
  NoDup (map path l) → (∀ p, p ∈ map path l → is_Some (ci_volatile i !! p)) →
  (∀ i', (∀ p, view i' p = if decide (p ∈ map path l) then (None, None, ci_durable i !! p) else view i p) → Q tt i') →
  wpf false (fs_each (λ x, fs_map_err f (remove_file (path x))) l) i Q E.
Proof.
  revert i. induction l as [|x l IH]; intros i Hnd Hin HQ; cbn [fs_each map] in *.
  { apply wp_ret, HQ. intros p. rewrite decide_False; [done|apply not_elem_of_nil]. }
  apply NoDup_cons in Hnd as [Hx Hnd]. apply wp_bind, wp_map_err, wp_remove_file; [done|apply Hin; by left|].
  apply IH; [done| |].
  - intros p Hp. pose proof (view_remove i (path x) p) as Hv. rewrite decide_False in Hv by (by intros ->).
    apply view_eq in Hv as (-> & _). apply Hin. by right.
  - intros i' Hi'. apply HQ. intros p. rewrite Hi'. pose proof (view_remove i (path x) p) as Hv.
    destruct (decide (p = path x)) as [->|Hne].
    + rewrite decide_False by done. rewrite decide_True by (by left). done.
    + destruct (decide (p ∈ map path l)) as [Hp|Hp].
      * rewrite decide_True by (by right). apply view_eq in Hv as (_ & _ & ->). done.
      * rewrite decide_False by (rewrite elem_of_cons; tauto). done.
Qed.

Lemma removed_directory (l : list X) i i' :
  (∀ p, view i' p = if decide (p ∈ map path l) then (None, None, ci_durable i !! p) else view i p) →
  removed (λ p, p ∈ map path l) i (if bool_decide (l = []) then i' else record_directory_sync i').
Proof.
  intros Hi. case_bool_decide as Hl; [subst l|]; split; intros p Hp; specialize (Hi p).
  - by apply elem_of_nil in Hp.
  - left. rewrite decide_False in Hi; [done|apply not_elem_of_nil].
  - rewrite decide_True in Hi by done. apply view_eq in Hi as (Hv & Hs & _). by rewrite view_directory, Hv, Hs.
  - rewrite decide_False in Hi by done. right. by apply view_directory_of.
Qed.

Lemma sync_if_wp (l : list X) i (Q : unit → CrashImage → Prop) E :
  Q tt (if bool_decide (l = []) then i else record_directory_sync i) →
  wpf false (if bool_decide (l = []) then fs_ret tt else fs_map_err f (sync_directory DIRECTORY)) i Q E.
Proof. intros HQ. case_bool_decide; [by apply wp_ret|]. by apply wp_map_err, wp_directory. Qed.
End Remove.

(** ** A directory at rest *)

(** What is there is safe. *)
Definition quiet (m : gmap name bytes) (i : CrashImage) : Prop := ∀ p, view i p = (m !! p, m !! p, m !! p).

Lemma quiet_durable m : quiet m (durable_image m).
Proof. done. Qed.

Lemma quiet_volatile m i p : quiet m i → ci_volatile i !! p = m !! p.
Proof. intros H. specialize (H p). by apply view_eq in H as (? & _). Qed.

Lemma quiet_stored m i p b : quiet m i → m !! p = Some b → stored i p b.
Proof. intros H Hb. unfold stored. by rewrite H, Hb. Qed.

Lemma quiet_directory m i p : quiet m i → view (record_directory_sync i) p = view i p.
Proof. intros H. rewrite view_directory. specialize (H p). apply view_eq in H as H'. destruct H' as (-> & -> & _). rewrite H. by destruct (m !! p). Qed.

Lemma quiet_same m i i' p : quiet m i → same_at i i' p → view i' p = (m !! p, m !! p, m !! p).
Proof. intros Hq [->| ->]; [done|]. by rewrite (quiet_directory m). Qed.

Lemma read_dir_wp i (Q : list name → CrashImage → Prop) E :
  Q (map fst (map_to_list (ci_volatile i))) i → wpf false read_dir i Q E.
Proof. intros HQ s Hs Hf. cbn. rewrite Hs. by split. Qed.

Lemma dir_entries (m : gmap name bytes) p : p ∈ map fst (map_to_list m) ↔ is_Some (m !! p).
Proof.
  split.
  - intros ([q b] & -> & H)%list_elem_of_fmap. apply elem_of_map_to_list in H. eauto.
  - intros [b Hb]. apply list_elem_of_fmap. exists (p, b). split; [done|]. by apply elem_of_map_to_list.
Qed.

Lemma dir_nodup (m : gmap name bytes) : NoDup (map fst (map_to_list m)).
Proof. apply NoDup_fst_map_to_list. Qed.

(** ** Unpublished tables *)

Definition unpublished (live : list Z) (p : name) : Prop :=
  ∃ n, 1 ≤ n ≤ U64_MAX ∧ (p = sstable_temporary n ∨ p = sstable_name n ∧ n ∉ live).

Lemma is_unpublished_spec live p : is_unpublished live p = true ↔ unpublished live p.
Proof.
  unfold is_unpublished. rewrite orb_true_iff, bool_decide_eq_true. split.
  - intros [[n Hn]|H].
    + apply parse_numbered_sound in Hn as [-> Hn]. exists n. split; [done|]. by left.
    + destruct (parse_numbered_name p _) as [n|] eqn:E; [|done]. apply parse_numbered_sound in E as [-> Hn]. exists n.
      split; [done|]. right. split; [done|]. apply negb_true_iff, bool_decide_eq_false in H. done.
  - intros (n & Hn & [->|[-> Hl]]).
    + left. unfold sstable_temporary. rewrite parse_numbered_ok by done. eauto.
    + right. unfold sstable_name. rewrite parse_numbered_ok by done. by rewrite bool_decide_false.
Qed.

Lemma remove_unpublished_wp vs m i (Q : unit → CrashImage → Prop) E :
  quiet m i →
  (∀ m' i', quiet m' i' → (∀ p, unpublished (file_numbers (vs_current vs)) p → m' !! p = None) →
    (∀ p, ¬ unpublished (file_numbers (vs_current vs)) p → m' !! p = m !! p) → Q tt i') →
  wpf false (remove_unpublished_sstables vs) i Q E.
Proof.
  intros Hq HQ. unfold remove_unpublished_sstables. set (live := file_numbers (vs_current vs)) in *.
  apply wp_bind, wp_map_err, read_dir_wp. set (l := List.filter _ _).
  assert (∀ p, p ∈ l ↔ unpublished live p ∧ is_Some (m !! p)) as Hl.
  { intros p. unfold l. rewrite elem_of_filter_b, is_unpublished_spec, dir_entries. by rewrite (quiet_volatile m i p Hq). }
  assert (map id l = l) as Hid by apply map_id.
  apply wp_bind, (remove_each_wp id); rewrite Hid.
  - unfold l. apply NoDup_ListNoDup, List.NoDup_filter, NoDup_ListNoDup, dir_nodup.
  - intros p [_ Hp]%Hl. by rewrite (quiet_volatile m i p Hq).
  - intros i1 Hi1. apply sync_if_wp. set (i' := if bool_decide _ then _ else _).
    assert (removed (λ p, p ∈ l) i i') as [Hg Hk].
    { rewrite <- Hid. apply removed_directory. by rewrite Hid. }
    assert (∀ p, view i' p = (ci_volatile i' !! p, ci_volatile i' !! p, ci_volatile i' !! p) ∧
        ci_volatile i' !! p = if decide (p ∈ l) then None else m !! p) as Hv.
      { intros p. destruct (decide (p ∈ l)) as [Hp|Hp].
        - specialize (Hg p Hp). apply view_eq in Hg as Hg'. destruct Hg' as (-> & _). by rewrite Hg.
        - pose proof (quiet_same _ _ _ p Hq (Hk p Hp)) as Hg'. rewrite Hg'. apply view_eq in Hg' as (-> & _). done. }
      apply (HQ (ci_volatile i')).
      * intros p. apply Hv.
      * intros p Hp. destruct (Hv p) as [_ ->]. destruct (decide (p ∈ l)) as [|Hn]; [done|]. rewrite Hl in Hn.
        apply eq_None_not_Some. tauto.
      * intros p Hp. destruct (Hv p) as [_ ->]. rewrite decide_False; [done|]. rewrite Hl. tauto.
Qed.

(** ** Logs *)

Lemma wal_paths_wp m i (Q : list Z → CrashImage → Prop) E :
  quiet m i →
  (∀ l, StronglySorted Z.lt l → (∀ k, k ∈ l ↔ 1 ≤ k ≤ U64_MAX ∧ is_Some (m !! wal_name k)) → Q l i) →
  wpf false wal_paths i Q E.
Proof.
  intros Hq HQ. unfold wal_paths. apply wp_bind, wp_map_err, read_dir_wp. apply wp_ret. set (l := omap _ _).
  assert (∀ k, k ∈ l ↔ 1 ≤ k ≤ U64_MAX ∧ is_Some (m !! wal_name k)) as Hl.
  { intros k. unfold l. rewrite list_elem_of_omap. split.
    - intros (p & Hp & Hk). rewrite dir_entries, (quiet_volatile m i p Hq) in Hp.
      apply parse_numbered_sound in Hk as [-> Hk]. done.
    - intros [Hk Hp]. exists (wal_name k). rewrite dir_entries, (quiet_volatile m i _ Hq). split; [done|].
      unfold wal_name. by apply parse_numbered_ok. }
  assert (NoDup l) as Hnd.
  { unfold l. generalize (dir_nodup (ci_volatile i)). generalize (map fst (map_to_list (ci_volatile i))). intros names Hnames.
    induction Hnames as [|p names Hp _ IH]; cbn; [constructor|]. destruct (parse_numbered_name p _) as [k|] eqn:Ep; [|done].
    constructor; [|done]. intros (q & Hq' & E')%list_elem_of_omap. apply parse_numbered_sound in Ep as [-> _], E' as [-> _]. done. }
  apply HQ; [|intros k; by rewrite sort_by_perm].
  assert (NoDup (sort_by Z.compare l)) as Hnd' by (by rewrite sort_by_perm).
  assert (StronglySorted (λ x y, Z.compare x y ≠ Gt) (sort_by Z.compare l)) as Hs.
  { apply sort_by_sorted; intros x y; [rewrite Z.compare_gt_iff|intros z]; rewrite ?Z.compare_ngt_iff; lia. }
  clear -Hnd' Hs. induction Hs as [|x l' Hs IH Hall]; [constructor|]. apply NoDup_cons in Hnd' as [Hx Hnd].
  constructor; [by apply IH|]. rewrite Forall_forall in Hall |- *. intros y Hy. specialize (Hall y Hy).
  rewrite Z.compare_ngt_iff in Hall. assert (x ≠ y) by (by intros ->). lia.
Qed.

(** ** The version set *)

Lemma wp_and {X} g (m : FS X) i (Q Q' : X → CrashImage → Prop) E E' :
  wpf g m i Q E → wpf g m i Q' E' → wpf g m i (λ x i', Q x i' ∧ Q' x i') E.
Proof.
  intros H H' s Hs Hf. specialize (H s Hs Hf). specialize (H' s Hs Hf).
  destruct (m s) as [[x|e] s']; [|done]. destruct H as [H Hf1], H' as [H' _]. done.
Qed.

(** What a file holds is safe once its name is. *)
Definition calm (i : CrashImage) (p : name) : Prop := ci_synced i !! p = ci_volatile i !! p.

Lemma calm_directory i p : calm i p → let i' := record_directory_sync i in view i' p = (ci_volatile i' !! p, ci_volatile i' !! p, ci_volatile i' !! p).
Proof.
  intros H i'. unfold calm in H. pose proof (view_directory i p) as Hv. fold i' in Hv. rewrite H in Hv. rewrite Hv.
  apply view_eq in Hv as (-> & _). by destruct (ci_volatile i !! p).
Qed.

Lemma calm_view i i' p : view i' p = view i p → calm i p → calm i' p.
Proof. intros H. apply view_eq in H as (H1 & H2 & _). unfold calm. by rewrite H1, H2. Qed.

(** A temporary file is written and installed. *)
Definition installed (src dst : name) (content : bytes) (i : CrashImage) : CrashImage :=
  record_directory_sync (record_rename src dst (record_file_sync src (record_write src content (track_new_file src i)))).

Lemma installed_spec src dst content i :
  src ≠ dst → (∀ p, calm i p) → let i' := installed src dst content i in
  quiet (ci_volatile i') i' ∧ ci_volatile i' !! dst = Some content ∧ ci_volatile i' !! src = None ∧
  ∀ p, p ≠ src → p ≠ dst → ci_volatile i' !! p = ci_volatile i !! p.
Proof.
  intros Hne Hcalm i'. set (i1 := record_write src content (track_new_file src i)).
  assert (∀ p, p ≠ src → view i1 p = view i p) as H1.
  { intros p Hp. unfold i1. by rewrite view_write, decide_False, view_create, decide_False. }
  assert (ci_volatile i1 !! src = Some content) as Hs.
  { unfold i1, record_write, track_new_file. cbn. by rewrite !lookup_insert_eq. }
  set (i2 := record_file_sync src i1). pose proof (λ p, view_sync i1 src content p Hs) as H2.
  pose proof (H2 src) as H2s. rewrite decide_True in H2s by done. apply view_eq in H2s as (Hv2 & Hs2 & _).
  set (i3 := record_rename src dst i2). pose proof (λ p, view_rename i2 src dst content content p Hne Hv2 Hs2) as H3.
  assert (∀ p, calm i3 p ∧ ci_volatile i3 !! p = if decide (p = dst) then Some content else if decide (p = src) then None else ci_volatile i !! p) as H.
  { intros p. specialize (H3 p). fold i3 in H3. destruct (decide (p = dst)) as [->|Hd].
    - apply view_eq in H3 as (E1 & E2 & _). unfold calm. by rewrite E1, E2.
    - destruct (decide (p = src)) as [->|Hp].
      + apply view_eq in H3 as (E1 & E2 & _). unfold calm. by rewrite E1, E2.
      + unfold i2 in H3. rewrite H2, decide_False, H1 in H3 by done. split; [by eapply calm_view|].
        by apply view_eq in H3 as (? & _). }
  split; [intros p; apply calm_directory; apply H|].
  assert (∀ p, ci_volatile i' !! p = ci_volatile i3 !! p) as Hv by done.
  split; [|split].
  - rewrite Hv. destruct (H dst) as [_ ->]. by rewrite decide_True.
  - rewrite Hv. destruct (H src) as [_ ->]. by rewrite decide_False, decide_True.
  - intros p Hp Hd. rewrite Hv. destruct (H p) as [_ ->]. by rewrite !decide_False.
Qed.

(** [CURRENT] is replaced. *)
Lemma replace_current_views manifest i (Q : unit → CrashImage → Prop) :
  ci_volatile i !! CURRENT_TMP = None → ci_volatile i !! CURRENT = None →
  Q tt (installed CURRENT_TMP CURRENT (manifest ++ [NEWLINE]) i) → wpf false (replace_current manifest) i Q (λ _, True).
Proof.
  intros Ht Hc HQ. unfold replace_current. apply wp_bind, wp_map_err, wp_create; [done|].
  apply wp_bind, wp_map_err, wp_write; [done|]. apply wp_bind, wp_map_err, wp_sync; [done|].
  set (i1 := record_write _ _ _).
  assert (ci_volatile i1 !! CURRENT_TMP = Some (manifest ++ [NEWLINE])) as Hv.
  { unfold i1, record_write, track_new_file. cbn. by rewrite !lookup_insert_eq. }
  assert (ci_volatile i1 !! CURRENT = None) as Hn.
  { unfold i1, record_write, track_new_file. cbn. by rewrite !lookup_insert_ne. }
  apply wp_bind, wp_map_err. eapply wp_install; [done| | |by apply wp_map_err, wp_directory].
  - pose proof (view_sync i1 CURRENT_TMP _ CURRENT_TMP Hv) as H. rewrite decide_True in H by done. by apply view_eq in H as (? & _).
  - pose proof (view_sync i1 CURRENT_TMP _ CURRENT Hv) as H. rewrite decide_False in H by done. by apply view_eq in H as (-> & _).
Qed.

Definition boot_names : list name := [CURRENT; CURRENT_TMP; MANIFEST1; MANIFEST1_TMP].

Lemma remove_temporary_calm path i (Q : unit → CrashImage → Prop) E :
  (∀ p, calm i p) →
  (∀ i', (∀ p, calm i' p) → ci_volatile i' !! path = None →
    (∀ p, p ≠ path → ci_volatile i' !! p = ci_volatile i !! p) → Q tt i') →
  wpf false (remove_temporary_if_present path) i Q E.
Proof.
  intros Hcalm HQ. apply wp_bind, wp_map_err, wp_exists. case_bool_decide as Hp.
  - apply wp_map_err, wp_remove_file; [done|done|]. pose proof (view_remove i path) as Hv. apply HQ.
    + intros p. specialize (Hv p). destruct (decide (p = path)); [|by eapply calm_view].
      apply view_eq in Hv as (E1 & E2 & _). unfold calm. by rewrite E1, E2.
    + specialize (Hv path). rewrite decide_True in Hv by done. by apply view_eq in Hv as (? & _).
    + intros p Hne. specialize (Hv p). rewrite decide_False in Hv by done. by apply view_eq in Hv as (? & _).
  - apply wp_ret, HQ; [done| |done]. by apply eq_None_not_Some.
Qed.

(** A new database leaves nothing unsettled. *)
Lemma create_views `{C : Crc32c} d :
  boot_empty d →
  wpf false (create_with_fs false) (durable_image d)
    (λ _ i', ∃ m, quiet m i' ∧ ∀ p, p ∉ boot_names → m !! p = d !! p) (λ _, True).
Proof.
  intros [Hc Hm]. destruct not_manifest_tmp as (N1 & N2 & N3 & _). destruct not_current_tmp as (M1 & M2 & _).
  unfold create_with_fs. apply wp_bind, wp_map_err, wp_exists. cbn [durable_image ci_volatile].
  rewrite Hc, bool_decide_false by (by intros [? ?]).
  apply wp_bind, wp_map_err, wp_exists. cbn [durable_image ci_volatile]. fold MANIFEST1.
  rewrite Hm, bool_decide_false by (by intros [? ?]). cbn zeta. fold MANIFEST1 MANIFEST1_TMP.
  apply wp_bind, remove_temporary_calm; [done|]. intros i1 C1 T1 V1.
  apply wp_bind, remove_temporary_calm; [done|]. intros i2 C2 T2 V2.
  apply wp_bind, (wp_lift_ok _ _ _ _ _ _ (proj2 initial_record)).
  apply wp_bind, wp_map_err, wp_create; [by rewrite V2|].
  apply wp_bind, (manifest_append_wp false MANIFEST1_TMP _ _ _ _ []); [done|unfold BLOCK_BYTES; cbn; lia|done|done|apply lookup_insert_eq|].
  intros phys o' _. apply wp_bind. unfold ManifestWriter_sync. cbn [mw_path]. apply wp_map_err, wp_sync; [done|].
  set (i4 := record_write _ _ _).
  assert (ci_volatile i4 !! MANIFEST1_TMP = Some phys) as T4.
  { unfold i4, record_write, track_new_file. cbn. by rewrite !lookup_insert_eq. }
  pose proof (λ p, view_sync i4 MANIFEST1_TMP phys p T4) as V5.
  apply wp_bind, wp_map_err. eapply wp_install; [done| | |apply wp_bind, wp_map_err, wp_directory; [done|]].
  { specialize (V5 MANIFEST1_TMP). rewrite decide_True in V5 by done. by apply view_eq in V5 as (? & _). }
  { specialize (V5 MANIFEST1). rewrite decide_False in V5 by done. apply view_eq in V5 as (-> & _).
    unfold i4, record_write, track_new_file. cbn. rewrite !lookup_insert_ne by done. by rewrite V2, V1. }
  destruct (installed_spec MANIFEST1_TMP MANIFEST1 phys i2 ltac:(done) C2) as (Q6 & F6 & T6 & V6).
  change (record_directory_sync _) with (installed MANIFEST1_TMP MANIFEST1 phys i2). set (i6 := installed _ _ _ _) in *.
  apply wp_bind, replace_current_views; [by rewrite V6|by rewrite V6, V2, V1|].
  destruct (installed_spec CURRENT_TMP CURRENT (MANIFEST1 ++ [NEWLINE]) i6 ltac:(done)) as (Q7 & F7 & T7 & V7).
  { intros p. specialize (Q6 p). apply view_eq in Q6 as (_ & Q6 & _). exact Q6. }
  set (i7 := installed _ _ _ i6) in *. apply wp_bind, wp_map_err, wp_validate; [rewrite V7, F6 by done; eauto|].
  apply wp_ret. exists (ci_volatile i7). split; [done|]. intros p Hp. unfold boot_names in Hp. rewrite !not_elem_of_cons in Hp.
  destruct Hp as (P1 & P2 & P3 & P4 & _). by rewrite V7, V6, V2, V1.
Qed.

(** Recovery changes the manifest only. *)
Lemma recover_views `{C : Crc32c} {CR : Crc32cRange C} d n es r :
  durable_ok d n es r →
  wpf false (recover_with_fs false) (durable_image d)
    (λ _ i', ∃ m, quiet m i' ∧ ∀ p, p ≠ manifest_name n → m !! p = d !! p) (λ _, True).
Proof.
  intros Hd. pose proof Hd as [Hn Hc (file & Hf & Ht & Hl) Hr Htab].
  destruct (replay_torn file es Ht ltac:(lia)) as (valid & Hrep & Hvalid & Hlog).
  unfold recover_with_fs. apply wp_bind, wp_map_err. eapply wp_read; [exact Hc|].
  apply wp_bind, (wp_lift_ok _ _ _ _ _ _ (parse_current_name n Hn)).
  apply wp_bind, (wp_lift_ok _ _ _ _ _ _ (parse_manifest_number_name n Hn)).
  apply wp_bind. unfold fs_replay_manifest at 1. apply wp_bind, wp_map_err. eapply wp_read; [exact Hf|].
  apply (wp_lift_ok _ _ _ _ _ _ Hrep). cbn [mr_edits mr_valid_bytes mr_file_length].
  apply wp_bind, (wp_lift_ok _ _ _ _ _ _ Hr). apply wp_bind, validate_referenced_wp; [exact Htab|].
  apply wp_bind. destruct (Z.ltb_spec valid (zlen file)) as [Hlt|Hge].
  - apply wp_bind, wp_map_err. eapply wp_truncate; [done|exact Hf|].
    apply wp_map_err. eapply wp_sync_file; [done|apply lookup_insert_eq|]. set (b := resize valid file).
    set (i2 := record_truncate _ b (record_truncate _ b _)).
    assert (ci_volatile i2 !! manifest_name n = Some b) as Hb by apply lookup_insert_eq.
    pose proof (λ p, view_sync i2 (manifest_name n) b p Hb) as V.
    assert (quiet (<[manifest_name n := b]> d) (record_file_sync (manifest_name n) i2)) as Hq.
    { intros p. rewrite V. destruct (decide (p = manifest_name n)) as [->|Hne].
      - rewrite lookup_insert_eq. change (ci_durable i2) with d. by rewrite Hf.
      - rewrite lookup_insert_ne by done. unfold view. cbn. by rewrite !lookup_insert_ne. }
    apply wp_bind, wp_map_err, wp_validate; [rewrite (quiet_volatile _ _ _ Hq), lookup_insert_eq; eauto|].
    apply wp_ret. eexists. split; [exact Hq|]. intros p Hp. by rewrite lookup_insert_ne.
  - apply wp_ret, wp_bind, wp_map_err, wp_validate; [eauto|]. apply wp_ret. by exists d.
Qed.

Lemma quiet_vs_stored `{C : Crc32c} vs m i es : quiet m i → vs_ok vs i es → vs_stored vs i.
Proof.
  intros Hq [Hd _ Hp (file & Hv & _)]. split.
  - exists (manifest_name (vs_manifest_number vs) ++ [NEWLINE]). eapply quiet_stored; [exact Hq|].
    pose proof (do_current _ _ _ _ Hd) as Hc. specialize (Hq CURRENT). apply view_eq in Hq as (_ & _ & Hq). by rewrite <- Hq.
  - exists file. eapply quiet_stored; [exact Hq|]. by rewrite <- (quiet_volatile _ _ _ Hq).
Qed.

Lemma open_recovered_wp `{C : Crc32c} {CR : Crc32cRange C} d n es r (Q : VersionSet → CrashImage → Prop) :
  durable_ok d n es r →
  (∀ vs m i', quiet m i' → vs_ok vs i' es → vs_recovery vs = r → (∀ p, p ≠ manifest_name n → m !! p = d !! p) → Q vs i') →
  wpf false (open_versions false) (durable_image d) Q (λ _, False).
Proof.
  intros Hd HQ. unfold open_versions. apply wp_bind, wp_map_err, wp_exists. cbn [durable_image ci_volatile].
  rewrite (do_current _ _ _ _ Hd), bool_decide_true by eauto.
  assert (wpf false (recover_with_fs false) (durable_image d) (λ vs i', vs_ok vs i' es ∧ vs_recovery vs = r) (λ _, False)) as H1.
  { eapply recover_wp; [exact Hd|by eapply settled_durable|done|]. intros vs i' Hvs Hr _ _. done. }
  pose proof (wp_and _ _ _ _ _ _ _ H1 (recover_views d n es r Hd)) as H.
  intros s Hs Hf. specialize (H s Hs Hf). destruct (recover_with_fs false s) as [[vs|e] s']; [|done].
  destruct H as [[[Hvs Hr] (m & Hq & Hm)] Hf']. split; [by eapply HQ|done].
Qed.

Lemma open_created_wp `{C : Crc32c} {CR : Crc32cRange C} d (Q : VersionSet → CrashImage → Prop) :
  boot_empty d →
  (∀ vs m i', quiet m i' → vs_ok vs i' [initial_edit] → vs_recovery vs = boot_recovery →
    (∀ p, p ∉ boot_names → m !! p = d !! p) → Q vs i') →
  wpf false (open_versions false) (durable_image d) Q (λ _, False).
Proof.
  intros Hd HQ. unfold open_versions. apply wp_bind, wp_map_err, wp_exists. cbn [durable_image ci_volatile].
  rewrite (proj1 Hd), bool_decide_false by (by intros [? ?]).
  assert (wpf false (create_with_fs false) (durable_image d)
    (λ vs i', vs_ok vs i' [initial_edit] ∧ vs_recovery vs = boot_recovery) (λ _, False)) as H1.
  { eapply create_fresh_wp; [exact Hd|done|]. intros vs i' Hvs Hr _ _ _. done. }
  pose proof (wp_and _ _ _ _ _ _ _ H1 (create_views d Hd)) as H.
  intros s Hs Hf. specialize (H s Hs Hf). destruct (create_with_fs false s) as [[vs|e] s']; [|done].
  destruct H as [[[Hvs Hr] (m & Hq & Hm)] Hf']. split; [by eapply HQ|done].
Qed.
