(* ===== verification/EngineReplay.v ===== *)
(** * Replaying logs

    The logs that a crash has left become memtables, one per log that holds something,
    and together with the tables they hold the history up to the last batch that was
    synchronized. *)

From Stdlib Require Import ZArith Lia Sorting.Sorted.
From stdpp Require Import base list gmap strings sorting.
From S2P Require Import Prelude Fs StateFs Checksum Framing InternalKey Batch ValueRecord Snapshot Mvcc MemTable Iter.
From S2P Require Import Version Wal Options ManifestCodec Manifest ManifestLog ManifestSet ManifestBoot WalFs Block TableBuilder.
From S2P Require Import TableReader TableStore Compaction CompactionRun Engine EngineOps EngineOpen EngineRead EngineFrame.
From S2P Require Import EngineHistory EngineLogs EngineInv EngineWrite EngineFlush EngineDir.

Local Open Scope Z_scope.

(** A log and its batches. *)
Definition Log : Type := Z * history.

Definition log_batches (logs : list Log) : history := concat (map snd logs).

Section Replay.
  Context `{C : Crc32c} {CR : Crc32cRange C} (options : Options) (Ho : options_ok options).
  Abbreviation limit := (engine_block_limit options).

(** ** One log *)

Record replayed_table (l : Z) (batches : history) (t : MemTable) : Prop := {
  rt_ok : memtable_ok t;
  rt_keys : NoDup (map version_key (mt_entries t));
  rt_fit : entries_fit limit (mt_entries t);
  rt_range : ∀ e, e ∈ mt_entries t → l < e_seq e ≤ l + zlen batches;
  rt_some : batches ≠ [] → mt_entries t ≠ []
}.

Lemma replay_total l batches :
  numbered l batches → Forall (logged options) batches → ∃ t, replay_table batches = Ok t ∧ replayed_table l batches t.
Proof using Ho.
  intros Hn Hv. induction batches as [|[s b] batches IH] using rev_ind.
  { exists MemTable_default. split; [done|]. split; cbn; try done; [split; constructor|constructor|constructor|by intros e ?%elem_of_nil]. }
  apply numbered_app in Hn as [Hn Hs]. apply Forall_app in Hv as [Hv Hb]. apply Forall_cons in Hb as [(Hseq & Hb & Hval) _].
  unfold numbered in Hs. cbn in Hs, Hseq, Hb, Hval. injection Hs as Hs.
  destruct (IH Hn Hv) as (t0 & Ht0 & [[Hts Htw] Hk Hf Hr _]). pose proof (zlen_nonneg batches) as H0.
  destruct (apply_entries t0 s b Hts Htw) as (t & Ht & Hs' & Hw' & Hp); [|done|apply Hb|].
  { apply Forall_forall. intros e He. specialize (Hr e He). lia. }
  exists t. split; [by rewrite (replay_table_snoc _ _ _ _ Ht0)|].
  pose proof (batch_seqs s b Hseq) as Hbs. rewrite Forall_forall in Hbs. split.
  - done.
  - rewrite Hp, map_app. apply NoDup_app. split; [by apply batch_keys|]. split; [|done].
    intros k (e & -> & He)%list_elem_of_fmap (e' & Heq & He')%list_elem_of_fmap. unfold version_key in Heq. injection Heq as _ Heq.
    rewrite (Hbs e He) in Heq. specialize (Hr e' He'). lia.
  - unfold entries_fit. rewrite Hp. apply Forall_app. split; [by apply batch_fit|done].
  - intros e. rewrite Hp, elem_of_app, zlen_app. change (zlen [_]) with 1. intros [He|He]; [rewrite (Hbs e He); lia|specialize (Hr e He); lia].
  - intros _ Hnil. rewrite Hnil in Hp. apply Permutation_nil_l in Hp. symmetry in Hp. apply app_nil in Hp as [Hp _].
    apply (batch_entries_some s b); [|done]. by apply validate_batch_ok in Hval as (? & _).
Qed.

(** The loop over the records of a log. *)
Lemma replay_records legacy l last batches :
  last ≤ l → numbered l batches → Forall (logged options) batches → ∀ t, replay_table batches = Ok t →
  try_fold (replay_record legacy last) (MemTable_default, 0, (l, l + 1))
    (map (λ x : Z * WriteBatch, {| rb_sequence := x.1; rb_batch := x.2 |}) batches) =
  Ok (t, match batches with [] => 0 | _ => l + zlen batches end, (l + zlen batches, l + zlen batches + 1)).
Proof.
  intros Hle Hn Hv. induction batches as [|[s b] batches IH] using rev_ind; intros t Ht.
  { injection Ht as <-. cbn. by rewrite Z.add_0_r. }
  apply numbered_app in Hn as [Hn Hs]. apply Forall_app in Hv as [Hv Hb]. apply Forall_cons in Hb as [(Hseq & _) _].
  unfold numbered in Hs. cbn in Hs, Hseq. injection Hs as Hs.
  destruct (replay_table batches) as [t0|] eqn:E; [|unfold replay_table in *; rewrite try_fold_app, E in Ht; done].
  rewrite (replay_table_snoc _ _ _ _ E) in Ht. rewrite map_app, try_fold_app, (IH Hn Hv t0 eq_refl). cbn.
  pose proof (zlen_nonneg batches). rewrite (proj2 (Z.leb_gt s last)), andb_false_r by lia.
  rewrite (proj2 (Z.eqb_eq s _)) by lia. cbn. unfold checked_add. unfold seq_ok, MAX_SEQUENCE_NUMBER in Hseq.
  rewrite (proj2 (Z.leb_le (s + 1) USIZE_MAX)) by (unfold USIZE_MAX; lia). cbn [ok_or]. rewrite Ht.
  rewrite zlen_app. change (zlen [_]) with 1. replace (l + (zlen batches + 1)) with s by lia. by destruct batches.
Qed.

(** ** All of them *)

(** What the loop over the logs has collected. *)
Fixpoint replayed (l : Z) (logs : list Log) (recs : list (Z * MemTable * Z)) : Prop :=
  match logs, recs with
  | [], [] => True
  | (n, b) :: logs, (n', t, q) :: recs =>
    n' = n ∧ replay_table b = Ok t ∧ (b ≠ [] → q = l + zlen b) ∧ replayed (l + zlen b) logs recs
  | _, _ => False
  end.

Definition log_on_disk (i : CrashImage) (x : Log) : Prop :=
  ∃ frames, frames_hold options x.2 frames ∧ ci_volatile i !! wal_name x.1 = Some (fw_file frames) ∧
    zlen (fw_file frames) ≤ USIZE_MAX.

Lemma replay_logs_wp legacy last i logs l before (Q : Replay → CrashImage → Prop) E :
  last ≤ l → Forall (log_on_disk i) logs → numbered l (log_batches logs) → Forall (logged options) (log_batches logs) →
  (∀ recs, replayed l logs recs → Q {| rp_largest_sequence := l + zlen (log_batches logs);
    rp_expected_sequence := l + zlen (log_batches logs) + 1; rp_recovered := before ++ recs |} i) →
  wpf false (replay_logs options legacy last {| rp_largest_sequence := l; rp_expected_sequence := l + 1; rp_recovered := before |}
    (map fst logs)) i Q E.
Proof using Ho CR.
  revert l before. induction logs as [|[n b] logs IH]; intros l before Hle Hd Hn Hv HQ; cbn [map replay_logs].
  { apply wp_ret. specialize (HQ [] I). change (log_batches []) with (@nil (Z * WriteBatch)) in HQ. cbn in HQ.
    by rewrite Z.add_0_r, app_nil_r in HQ. }
  apply Forall_cons in Hd as [(frames & Hf & Hfile & Hsize) Hd]. cbn in Hf, Hfile.
  change (log_batches ((n, b) :: logs)) with (b ++ log_batches logs) in *. rewrite zlen_app in HQ.
  apply numbered_app in Hn as [Hn Hn']. apply Forall_app in Hv as [Hv Hv'].
  destruct (replay_total l b Hn Hv) as (t & Ht & _).
  apply wp_bind. unfold replay_log. cbn [fst]. apply wp_bind, wp_map_err. eapply wp_read; [exact Hfile|].
  apply wp_bind. eapply wp_lift_ok; [apply frames_replay; [exact CR|apply (oo_batch _ Ho)|exact Hf|exact Hv|exact Hsize]|].
  apply wp_bind. eapply wp_lift_ok; [apply replay_records; [exact Hle|exact Hn|exact Hv|exact Ht]|]. cbn. apply wp_ret.
  apply IH; [pose proof (zlen_nonneg b); lia|done|done|done|]. intros recs Hr. rewrite <- app_assoc.
  replace (l + zlen b + zlen (log_batches logs)) with (l + (zlen b + zlen (log_batches logs))) by lia. apply HQ.
  cbn. split; [done|]. split; [done|]. split; [by destruct b|done].
Qed.

(** ** The memtables *)

Definition live_logs (logs : list Log) : list Log := List.filter (λ x : Log, negb (bool_decide (x.2 = []))) logs.

Lemma live_batches logs : log_batches (live_logs logs) = log_batches logs.
Proof.
  unfold log_batches, live_logs. induction logs as [|[n b] logs IH]; cbn; [done|]. case_bool_decide as Hb; cbn; [by rewrite IH, Hb|by rewrite IH].
Qed.

Record immutable_of (m : ImmutableMemTable) (x : Log) : Prop := {
  io_number : im_wal_number m = x.1;
  io_table : replay_table x.2 = Ok (im_table m);
  io_last : fst <$> last x.2 = Some (im_largest_sequence m);
  io_some : mt_entries (im_table m) ≠ []
}.

Lemma recovered_live l logs recs :
  numbered l (log_batches logs) → Forall (logged options) (log_batches logs) → replayed l logs recs →
  Forall2 immutable_of (recovered_immutables recs) (live_logs logs).
Proof using Ho.
  revert l recs. induction logs as [|[n b] logs IH]; intros l [|[[n' t] q] recs] Hn Hv Hr; try done.
  destruct Hr as (-> & Ht & Hq & Hr). change (log_batches ((n, b) :: logs)) with (b ++ log_batches logs) in *.
  apply numbered_app in Hn as [Hn Hn']. apply Forall_app in Hv as [Hv Hv']. specialize (IH _ _ Hn' Hv' Hr).
  destruct (replay_total l b Hn Hv) as (t' & Ht' & [_ _ _ _ Hsome]). rewrite Ht in Ht'. injection Ht' as <-.
  unfold recovered_immutables, live_logs in *. cbn. case_bool_decide as Hb; cbn.
  - subst b. injection Ht as <-. cbn. exact IH.
  - unfold MemTable_is_empty. specialize (Hsome Hb). specialize (Hq Hb). destruct (mt_entries t) eqn:E; [done|]. cbn.
    constructor; [|exact IH]. split; cbn; [done|done| |by rewrite E]. by rewrite (numbered_last _ _ Hn Hb), Hq.
Qed.

(** ** What the engine reads *)

Record layers_ok (h : history) (clock l : Z) (ls : list (list entry)) : Prop := {
  lk_layered : ∀ u, layered u ls;
  lk_unique : NoDup (map version_key (concat ls));
  lk_covered : ∀ e, e ∈ concat ls → e_seq e ≤ l;
  lk_reads : ∀ u now, clock ≤ now → reads u l now (concat ls) (hist_value h u l now)
}.

Lemma layers_push h clock l ls batches t :
  layers_ok h clock l ls → numbered l batches → Forall (logged options) batches → replay_table batches = Ok t →
  hist_wf (h ++ batches) → Forall (λ x, x.1 ≤ l) h →
  layers_ok (h ++ batches) clock (l + zlen batches) (mt_entries t :: ls) ∧ memtable_ok t ∧ entries_fit limit (mt_entries t).
Proof using Ho.
  intros [Hl Hu Hc Hr] Hn Hv Ht Hwf Hold. destruct (replay_total l batches Hn Hv) as (t' & Ht' & [Hok Hk Hf Hrg _]).
  rewrite Ht in Ht'. injection Ht' as <-. split; [|done]. pose proof (zlen_nonneg batches) as H0. split; cbn [concat].
  - intros u. constructor; [apply Hl|]. apply Forall_forall. intros lay Hlay e e' He He' _ _.
    specialize (Hrg e He). assert (e_seq e' ≤ l) by (apply Hc, elem_of_concat; eauto). lia.
  - rewrite map_app. apply NoDup_app. split; [done|]. split; [|done].
    intros k (e & -> & He)%list_elem_of_fmap (e' & Heq & He')%list_elem_of_fmap. unfold version_key in Heq. injection Heq as _ Heq.
    specialize (Hrg e He). specialize (Hc e' He'). lia.
  - intros e [He|He]%elem_of_app; [by apply Hrg|specialize (Hc e He); lia].
  - intros u now Hnow. by apply (replay_reads options l batches t h (concat ls) u now Hn Hv Ht Hwf Hold Hc (Hr u now Hnow)).
Qed.

Lemma layers_replayed h clock l ls logs ms :
  layers_ok h clock l ls → numbered l (log_batches logs) → Forall (logged options) (log_batches logs) →
  Forall2 immutable_of ms logs → hist_wf (h ++ log_batches logs) → Forall (λ x, x.1 ≤ l) h →
  layers_ok (h ++ log_batches logs) clock (l + zlen (log_batches logs)) (map mt_entries (map im_table (reverse ms)) ++ ls) ∧
  Forall (λ m, memtable_ok (im_table m) ∧ entries_fit limit (mt_entries (im_table m))) ms.
Proof using Ho.
  intros Hl Hn Hv Hms. revert h l ls Hl Hn Hv. induction Hms as [|m [n b] ms logs [_ Ht _ _] _ IH]; intros h l ls Hl Hn Hv Hwf Hold.
  { change (log_batches []) with (@nil (Z * WriteBatch)). cbn. rewrite app_nil_r, Z.add_0_r. done. }
  change (log_batches ((n, b) :: logs)) with (b ++ log_batches logs) in *. cbn in Ht.
  apply numbered_app in Hn as [Hn Hn']. apply Forall_app in Hv as [Hv Hv']. rewrite app_assoc in Hwf |- *.
  assert (hist_wf (h ++ b)) as Hwf1.
  { destruct Hwf as [H1 H2]. apply StronglySorted_app_1_l in H1. by apply Forall_app in H2 as [H2 _]. }
  destruct (layers_push h clock l ls b (im_table m) Hl Hn Hv Ht Hwf1 Hold) as (Hl1 & Hok & Hfit).
  destruct (IH (h ++ b) (l + zlen b) (mt_entries (im_table m) :: ls) Hl1 Hn' Hv' Hwf) as [Hl2 Hall].
  { apply Forall_app. pose proof (zlen_nonneg b). split; [eapply Forall_impl; [exact Hold|]; intros x Hx; cbn in Hx; lia|].
    apply Forall_forall. intros x Hx. by apply (numbered_range l b). }
  split; [|by constructor]. rewrite reverse_cons, !map_app, zlen_app. cbn. rewrite <- (app_assoc _ [_] ls).
  replace (l + (zlen b + zlen (log_batches logs))) with (l + zlen b + zlen (log_batches logs)) by lia. exact Hl2.
Qed.
End Replay.
