(* ===== verification/EngineRecover.v ===== *)
(** * Opening an engine recovers its history

    From what a crash leaves of a directory, [Engine::open] succeeds and the engine
    holds the history up to the last synchronized batch. *)

From Stdlib Require Import ZArith Lia Sorting.Sorted.
From stdpp Require Import base list gmap strings sorting.
From S2P Require Import Prelude Fs StateFs Checksum Framing InternalKey Batch ValueRecord Snapshot Mvcc MemTable Iter.
From S2P Require Import Version Wal Options ManifestCodec Manifest ManifestLog ManifestSet ManifestBoot WalFs Block TableBuilder.
From S2P Require Import TableReader TableStore Compaction CompactionRun Engine EngineOps EngineOpen EngineRead EngineEdits EngineFrame.
From S2P Require Import EngineHistory EngineLogs EngineInv EngineWrite EngineFlush EngineDir EngineReplay.

Local Open Scope Z_scope.

(** ** An edit without files is accepted *)

Lemma sort_by_id {A} (cmp : A → A → comparison) l : StronglySorted (λ x y, cmp x y ≠ Gt) l → sort_by cmp l = l.
Proof.
  induction 1 as [|x l Hs IH Hall]; [done|]. unfold sort_by in *. cbn. rewrite IH. destruct l as [|y l]; [done|].
  apply Forall_cons in Hall as [Hy _]. cbn. by destruct (cmp x y).
Qed.

Lemma level_in_order v level :
  version_wf v → 1 ≤ level → let files := level_files v level in
  sort_by by_smallest files = files ∧ validate_non_overlapping files = Ok tt.
Proof.
  intros Hv Hl files. pose proof (vw_disjoint _ Hv level Hl) as Hs. fold files in Hs.
  assert (Forall meta_wf files) as Hwf.
  { apply Forall_forall. intros f Hf. by apply (elem_of_Forall _ _ _ (vw_files _ Hv)), (concat_level_elem v level). }
  split.
  - apply sort_by_id. clear -Hs Hwf. induction Hs as [|a l Hs IH Hall]; [constructor|]. apply Forall_cons in Hwf as [Ha Hwf].
    constructor; [by apply IH|]. rewrite Forall_forall in Hall |- *. intros b Hb. specialize (Hall b Hb).
    unfold by_smallest, range_before in *. apply meta_user_range in Ha. rewrite (cmp_le_lt (cmp := lex_cmp) _ _ _ Ha Hall). done.
  - clear Hwf. induction Hs as [|a l Hs IH Hall]; [done|]. destruct l as [|b l]; [done|]. cbn.
    apply Forall_cons in Hall as [Hb _]. unfold range_before in Hb. unfold lex_leb. rewrite (cmp_antisym (cmp := lex_cmp)), Hb. exact IH.
Qed.

Lemma version_apply_none v edit : version_wf v → no_files edit → Version_apply v edit = Ok v.
Proof.
  intros Hv [Ha Hd]. unfold Version_apply. rewrite Ha, Hd. cbn [try_fold].
  assert (∀ level, 0 ≤ level < 7 → index_or_panic level v = Ok (level_files v level)) as Hidx.
  { intros level Hl. pose proof (vw_levels _ Hv) as Hlen. unfold index_or_panic, level_files, get_at.
    rewrite !(proj2 (Z.ltb_ge level 0)) by lia.
    destruct (lookup_lt_is_Some_2 v (Z.to_nat level)) as [x ->]; [rewrite Hlen; unfold NUM_LEVELS; lia|done]. }
  assert (∀ level, 0 ≤ level < 7 → put_level_files v level (level_files v level) = v) as Hput.
  { intros level Hl. specialize (Hidx level Hl). unfold index_or_panic, get_at in Hidx. rewrite (proj2 (Z.ltb_ge level 0)) in Hidx by lia.
    destruct (v !! Z.to_nat level) as [x|] eqn:E; [|done]. cbn in Hidx. injection Hidx as <-. unfold put_level_files. by apply list_insert_id. }
  rewrite Hidx by lia.
  assert (sort_by newest_first (level_files v 0) = level_files v 0) as ->.
  { apply sort_by_id. induction (vw_newest _ Hv) as [|a l _ IH Hall]; constructor; [done|].
    eapply Forall_impl; [exact Hall|]. intros b Hab. cbn in Hab. unfold newest_first. rewrite Z.compare_ngt_iff. lia. }
  rewrite Hput by lia.
  assert (∀ levels, Forall (λ l, 1 ≤ l < 7) levels → try_fold sort_level v levels = Ok v) as Hall; [|apply (Hall [1; 2; 3; 4; 5; 6]); repeat constructor; lia].
  induction levels as [|l levels IH]; intros Hl; [done|]. apply Forall_cons in Hl as [Hl Hls]. cbn [try_fold]. unfold sort_level.
  rewrite Hidx by lia. destruct (level_in_order v l Hv ltac:(lia)) as [-> ->]. rewrite Hput by lia. by apply IH.
Qed.

(** The numbers in use are below the next one. *)
Lemma recovered_used n es r : recover_edits n es = Ok r → ∀ k, k ∈ rc_used r → k < cn_next_file_number (rc_counters r).
Proof.
  unfold recover_edits. destruct es as [|e es _] using rev_ind; [done|]. rewrite bool_decide_false by (by destruct es).
  rewrite try_fold_app. destruct (try_fold recover_edit _ es) as [r0|]; [|done]. cbn [try_fold]. unfold recover_edit.
  destruct (update_counters e _ true) as [c|]; [|done]. destruct (validate_file_numbers _ _ _ _) as [[]|] eqn:Hv; [|done].
  destruct (map_err _ _); [|done]. cbn [rc_counters]. destruct (_ =? 0); [done|]. intros [= <-] k. cbn.
  unfold validate_file_numbers in Hv. destruct (existsb _ _) eqn:Hex; [done|].
  rewrite elem_of_union. intros [Hk|Hk].
  - unfold added_numbers in Hk. rewrite elem_of_list_to_set in Hk. revert Hv Hk. generalize (∅ : gset Z).
    set (deleted := list_to_set _). clearbody deleted. induction (ve_added_files e) as [|x l IH]; intros added Hv Hk; [by apply elem_of_nil in Hk|].
    cbn in Hv, Hk. destruct (Z.leb_spec (cn_next_file_number c) (fm_number x.2)); [done|]. do 3 (destruct (bool_decide _); [done|]).
    apply elem_of_cons in Hk as [->|Hk]; [done|]. eapply IH; [exact Hv|exact Hk].
  - assert (¬ cn_next_file_number c ≤ k); [|lia]. intros Hle. apply not_true_iff_false in Hex. apply Hex, existsb_exists.
    exists k. split; [by apply list_elem_of_In, elem_of_elements|by apply Z.leb_le].
Qed.

(** ** The engine that is returned *)

Lemma min_or_oldest number ms :
  Forall (λ m, im_wal_number m < number) ms →
  min_or number (map im_wal_number ms) = oldest_of ms {| mm_table := MemTable_default; mm_wal_number := number |}.
Proof.
  assert (∀ l a b, a ≤ b → foldr Z.min a l = Z.min a (foldr Z.min b l)) as Hmin.
  { induction l as [|x l IH]; intros a b Hab; cbn; [lia|]. rewrite (IH a b Hab). lia. }
  unfold oldest_of. intros [|m ms' Hm _]; cbn; [done|]. rewrite (Hmin _ _ number) by lia. done.
Qed.

Definition open_edit (c : Counters) (number oldest largest : Z) : VersionEdit :=
  set_wal_sequence (set_active_log_number (set_log_number (set_last_sequence
    (set_next_file_number VersionEdit_new (number + 1)) (cn_last_sequence c)) oldest) number) largest.

Section Opened.
  Context `{C : Crc32c} {CR : Crc32cRange C} `{SN : Snappy} {SL : SnappyLaws SN}.
  Context (options : Options) (Ho : options_ok options) (T : Z → list entry) (clock : Z) (old : history).
  Context (vs vs' : VersionSet) (m : gmap name bytes) (i0 i2 i3 i4 : CrashImage) (es : list VersionEdit).
  Context (w : LogWriter) (ww : WalWriter) (number : Z) (live : list Log) (ims : list ImmutableMemTable).
  Abbreviation c := (vs_counters vs).
  Abbreviation v := (vs_current vs).
  Abbreviation h := (old ++ log_batches live).
  Abbreviation q := (cn_last_sequence c + zlen (log_batches live)).
  Abbreviation limit := (engine_block_limit options).
  Abbreviation oldest := (min_or number (map im_wal_number ims)).
  Context (Hquiet : quiet m i0) (Hversion : version_ok options T i0 (cn_next_file_number c) v).
  Context (Hlayers : layers_ok old clock (cn_last_sequence c) (contents T v)).
  Context (Hold : Forall (λ x, x.1 ≤ cn_last_sequence c) old) (Hlast : 0 ≤ cn_last_sequence c).
  Context (Hnum : numbered (cn_last_sequence c) (log_batches live)) (Hval : Forall (logged options) (log_batches live)).
  Context (Hwf : hist_wf h) (Hseq : seq_ok q) (Hims : Forall2 immutable_of ims live) (Hlive : Forall (λ x, x.2 ≠ []) live).
  Context (Horder : StronglySorted Z.lt (map fst live ++ [number])) (Hbounds : Forall (λ x : Log, 1 ≤ x.1) live).
  Context (Hnumber : 1 ≤ number < U64_MAX) (Hnext : 1 ≤ cn_next_file_number c ≤ number).
  Context (Hdisk : Forall (λ x : Log, ∃ frames, frames_hold options x.2 frames ∧ m !! wal_name x.1 = Some (fw_file frames)) live).
  Context (Hnew : ∀ k, number ≤ k ≤ U64_MAX → m !! wal_name k = None).
  Context (Hunpub : ∀ p, unpublished (file_numbers v) p → m !! p = None).
  Context (Hrep : log_rep i2 w ww) (Hpath : lw_path w = wal_name number).
  Context (Hcreate : WalWriter_create (op_max_batch_bytes options) = Ok ww).
  Context (Hview : ∀ p, p ≠ wal_name number → view i2 p = view i0 p) (Hmeta : meta_ok vs i2).
  Context (Ha : applied vs vs' (open_edit c number oldest q) es i2 i3).

(** The logs that are not needed any more. *)
Definition obsolete_log (p : name) : Prop :=
  ∃ k, 1 ≤ k ≤ U64_MAX ∧ (k ∉ map fst live ++ [number]) ∧ is_Some (m !! wal_name k) ∧ p = wal_name k.

  Context (Hrem : removed obsolete_log i3 i4).

Definition opened_state : WriteState :=
  {| es_versions := vs'; es_wal := w; es_mutable := {| mm_table := MemTable_default; mm_wal_number := number |};
     es_immutables := ims; es_wal_numbers := set_of (map im_wal_number ims ++ [number]);
     es_next_file_number := number + 1; es_next_sequence := q + 1; es_flush_running := false;
     es_obsolete_sstables := []; es_reader_versions := []; es_closed := false; es_terminal_failure := None;
     es_background_failure := false; es_epoch := 1 |}.

Definition opened_engine : Engine :=
  {| en_state := opened_state; en_committed_sequence := q; en_snapshots := []; en_readers := []; en_next_lease := 0 |}.

(** *** The files *)

Lemma ims_numbers : map im_wal_number ims = map fst live.
Proof using Hims. clear -Hims. induction Hims as [|x y xs ys [Hx _ _ _] Hr IH]; cbn; [done|]. by rewrite Hx, (IH Hr). Qed.

Lemma live_below x : x ∈ live → 1 ≤ x.1 < number.
Proof using Horder Hbounds.
  intros Hx. apply StronglySorted_app in Horder as (Hlt & _). split; [by apply (elem_of_Forall _ _ _ Hbounds)|].
  apply Hlt; [by apply list_elem_of_fmap_2|by left].
Qed.

Lemma not_manifest_path p : (∀ k, p ≠ manifest_name k) → p ≠ mw_path (vs_manifest vs).
Proof using Hmeta. intros Hp. destruct (manifest_path _ _ Hmeta) as [k ->]. apply Hp. Qed.

(** Names that nothing has touched. *)
Lemma final_kept p :
  p ≠ wal_name number → (∀ k, p ≠ manifest_name k) → ¬ obsolete_log p → view i4 p = (m !! p, m !! p, m !! p).
Proof using Hquiet Hview Hmeta Ha Hrem.
  intros Hn Hm Hob. eapply quiet_same; [exact Hquiet|].
  eapply same_at_trans; [|apply (rv_kept _ _ _ Hrem p Hob)]. eapply same_at_trans; [left; by apply Hview|].
  eapply applied_same; [exact Ha|]. by apply not_manifest_path.
Qed.

Lemma final_table k : view i4 (sstable_name k) = (m !! sstable_name k, m !! sstable_name k, m !! sstable_name k).
Proof using Hquiet Hview Hmeta Ha Hrem.
  apply final_kept; [apply not_eq_sym, wal_name_table|intros j; apply (table_name_meta k j)|].
  intros (j & _ & _ & _ & Heq). symmetry in Heq. by apply wal_name_table in Heq.
Qed.

Lemma final_temporary k : view i4 (sstable_temporary k) = (m !! sstable_temporary k, m !! sstable_temporary k, m !! sstable_temporary k).
Proof using Hquiet Hview Hmeta Ha Hrem.
  apply final_kept; [apply not_eq_sym, wal_name_temporary|intros j; apply (table_name_meta k j)|].
  intros (j & _ & _ & _ & Heq). symmetry in Heq. by apply wal_name_temporary in Heq.
Qed.

Lemma final_log x : x ∈ live → view i4 (wal_name x.1) = (m !! wal_name x.1, m !! wal_name x.1, m !! wal_name x.1).
Proof using Hquiet Hview Hmeta Ha Hrem Horder Hbounds Hnumber.
  intros Hx. pose proof (live_below x Hx) as Hb. apply final_kept.
  - intros Heq. apply wal_name_inj in Heq; lia.
  - intros j. apply wal_name_meta.
  - intros (j & Hj & Hno & _ & Heq). apply wal_name_inj in Heq; [|lia|lia]. apply Hno, elem_of_app. left. rewrite <- Heq.
    by apply list_elem_of_fmap_2.
Qed.

Lemma final_gone k : 1 ≤ k ≤ U64_MAX → k ∉ map fst live ++ [number] → view i4 (wal_name k) = (None, None, None).
Proof using Hquiet Hview Hmeta Ha Hrem Hnumber.
  intros Hk Hno. destruct (m !! wal_name k) as [b|] eqn:E.
  - apply (rv_gone _ _ _ Hrem). exists k. rewrite E. eauto.
  - rewrite <- E. apply final_kept.
    + intros Heq. apply wal_name_inj in Heq; [|lia|lia]. apply Hno, elem_of_app. right. subst. by left.
    + intros j. apply wal_name_meta.
    + intros (j & Hj & _ & [b Hb] & Heq). apply wal_name_inj in Heq; [|lia|lia]. congruence.
Qed.

Lemma final_new : same_at i2 i4 (wal_name number).
Proof using Hmeta Ha Hrem Hnumber.
  eapply same_at_trans; [eapply applied_same; [exact Ha|]; apply not_manifest_path; intros j; apply wal_name_meta|].
  apply (rv_kept _ _ _ Hrem). intros (j & Hj & Hno & _ & Heq). apply wal_name_inj in Heq; [|lia|lia].
  apply Hno, elem_of_app. right. subst. by left.
Qed.

(** *** What is read *)

Lemma opened_version : vs_current vs' = v.
Proof using Hversion Ha. eapply version_apply_nil; [apply Hversion| |apply (ap_version _ _ _ _ _ _ Ha)]. done. Qed.

Lemma opened_counters :
  cn_next_file_number (vs_counters vs') = number + 1 ∧ cn_last_sequence (vs_counters vs') = cn_last_sequence c ∧
  cn_log_number (vs_counters vs') = oldest ∧ cn_active_log_number (vs_counters vs') = number ∧ cn_wal_sequence (vs_counters vs') = q.
Proof using Ha. apply (counters_updated _ _ _ _ (ap_counters _ _ _ _ _ _ Ha)). Qed.

Lemma opened_tables : version_ok options T i4 (number + 1) v.
Proof using Hquiet Hversion Hview Hmeta Ha Hrem Hnext.
  eapply version_ok_kept; [exact Hversion|lia|]. intros f b _ Hs. unfold stored in *. rewrite final_table.
  rewrite Hquiet in Hs. done.
Qed.

Lemma opened_layers :
  layers_ok h clock q (layers T opened_state) ∧
  Forall (λ x, memtable_ok (im_table x) ∧ entries_fit limit (mt_entries (im_table x))) ims.
Proof using Ho Hversion Hlayers Hold Hnum Hval Hwf Hims Ha.
  destruct (layers_replayed options Ho old clock _ _ _ ims Hlayers Hnum Hval Hims Hwf Hold) as [Hl Hall]. split; [|done].
  unfold layers, engine_layers, memory_tables. cbn. rewrite opened_version.
  destruct Hl as [H1 H2 H3 H4]. split; cbn; try done. intros u. constructor; [apply H1|].
  apply Forall_forall. intros l _ e e' He. by apply elem_of_nil in He.
Qed.

Lemma history_covered : Forall (λ x, x.1 ≤ q) h.
Proof using Hold Hnum.
  apply Forall_app. pose proof (zlen_nonneg (log_batches live)). split.
  - eapply Forall_impl; [exact Hold|]. intros x Hx. cbn in Hx. lia.
  - apply Forall_forall. intros x Hx. by apply (numbered_range (cn_last_sequence c) (log_batches live)).
Qed.

Lemma opened_reads : reads_ok options h T clock [] opened_engine i4.
Proof using Ho Hquiet Hversion Hlayers Hold Hlast Hnum Hval Hwf Hseq Hims Hnext Hview Hmeta Ha Hrem.
  destruct opened_layers as [[H1 H2 H3 H4] Hall]. rewrite Forall_forall in Hall.
  assert (∀ t, t ∈ memory_tables opened_state → memtable_ok t ∧ entries_fit limit (mt_entries t)) as Hmem.
  { intros t [->|(x & -> & Hx)%list_elem_of_fmap]%elem_of_cons; [split; [split|]; constructor|].
    apply Hall. apply (elem_of_reverse x ims). exact Hx. }
  pose proof history_covered as Hcov. pose proof (zlen_nonneg (log_batches live)).
  split; cbn [opened_engine en_committed_sequence en_state en_snapshots en_readers]; try done.
  - split; [lia|]. done.
  - apply Forall_forall. intros t Ht. by apply Hmem.
  - apply Forall_forall. intros t Ht. by apply Hmem.
  - cbn. rewrite opened_version. apply opened_tables.
  - intros u x now Hx%list_elem_of_singleton. subst x. apply H4.
  - split; [constructor|done].
  - split; cbn; constructor.
  - intros r Hr. by apply elem_of_nil in Hr.
Qed.

Lemma opened_meta : meta_ok vs' i4.
Proof using Hversion Hmeta Hquiet Hview Ha Hrem.
  pose proof (applied_meta _ _ _ _ _ _ Ha) as Hm3. eapply meta_ok_kept; [exact Hm3| |].
  - intros p b Hp Hs. eapply stored_same; [|exact Hs]. apply (rv_kept _ _ _ Hrem). intros (k & _ & _ & _ & ->).
    destruct Hp as [Hp|[Hp|(f & _ & Hp)]].
    + by apply (wal_name_meta k 0) in Hp.
    + destruct (manifest_path _ _ Hm3) as [j Hj]. rewrite Hj in Hp. by apply wal_name_meta in Hp.
    + by apply wal_name_table in Hp.
  - rewrite opened_version. intros f Hf. destruct (vk_tables _ _ _ _ _ Hversion f Hf) as (b & Hb & _). exists b.
    eapply stored_same; [eapply applied_tables; [exact Ha|exact Hmeta]|]. unfold stored in *. rewrite Hview; [done|].
    apply not_eq_sym, wal_name_table.
Qed.

Lemma opened_log : log_ok options opened_state i4.
Proof using Hrep Hpath Hcreate Hmeta Ha Hrem Hnumber.
  split; [exact Hpath|]. exists ww. split; [eapply log_rep_views; [exact Hrep|]; cbn; rewrite Hpath; apply final_new|].
  unfold WalWriter_create in Hcreate. destruct (encoded_record_limit _) as [x|]; [|done]. injection Hcreate as <-. done.
Qed.

Lemma owned_numbers k : k ∈ set_of (map im_wal_number ims ++ [number]) ↔ k ∈ map fst live ++ [number].
Proof using Hims. rewrite <- ims_numbers. apply (set_of_elem (map im_wal_number ims ++ [number])). Qed.

Lemma opened_numbers : numbers_ok opened_state i4.
Proof using Ho Hquiet Hversion Hnum Hval Hims Hlive Horder Hbounds Hnumber Hnext Hdisk Hnew Hunpub Hrep Hpath Hview Hmeta Ha Hrem Hseq Hlast.
  assert (∀ k, number + 1 ≤ k ≤ U64_MAX → unpublished (file_numbers v) (sstable_name k)) as Hfree.
  { intros k Hk. exists k. split; [lia|]. right. split; [done|]. intros (f & -> & Hf)%list_elem_of_fmap.
    pose proof (vk_numbers _ _ _ _ _ Hversion f Hf). lia. }
  split; cbn [opened_state es_next_file_number es_terminal_failure es_immutables es_wal_numbers es_mutable es_obsolete_sstables
    es_versions mm_wal_number]; try done; [lia|..].
  - intros _ k Hk. pose proof (final_table k) as H1. pose proof (final_temporary k) as H2.
    apply view_eq in H1 as (H1 & _), H2 as (H2 & _ & H2'). rewrite H1, H2, H2'.
    assert (m !! sstable_temporary k = None) as -> by (apply Hunpub; exists k; split; [lia|by left]).
    do 2 (split; [done|]). by apply Hunpub, Hfree.
  - intros k Hk. pose proof (final_gone k ltac:(lia)) as Hg. destruct (decide (k ∈ map fst live ++ [number])) as [Hin|Hin].
    + apply elem_of_app in Hin as [(x & -> & Hx)%list_elem_of_fmap|Hin%list_elem_of_singleton]; [|lia].
      pose proof (live_below x Hx). lia.
    + specialize (Hg Hin). apply view_eq in Hg as (-> & _ & ->). done.
  - apply Forall_forall. intros x Hx. apply list_elem_of_lookup in Hx as [j Hj].
    destruct (Forall2_lookup_l _ _ _ _ _ Hims Hj) as (y & Hy & [_ _ Hl Hsome]). apply list_elem_of_lookup_2 in Hy.
    assert (∀ z, z ∈ y.2 → z ∈ log_batches live) as Hsub.
    { intros z Hz. apply elem_of_concat. exists y.2. split; [done|]. by apply list_elem_of_fmap_2. }
    split; [done|]. destruct (last y.2) as [z|] eqn:E; [|done]. injection Hl as <-. apply last_Some_elem_of in E.
    pose proof (numbered_range _ _ z Hnum (Hsub z E)). unfold is_u64, seq_ok, MAX_SEQUENCE_NUMBER in *. lia.
  - apply Forall_forall. intros k Hk%owned_numbers. apply elem_of_app in Hk as [(x & -> & Hx)%list_elem_of_fmap|Hk%list_elem_of_singleton]; [|lia].
    pose proof (live_below x Hx). lia.
  - apply set_of_elem.
  - intros k Hk%owned_numbers. apply elem_of_app in Hk as [(x & -> & Hx)%list_elem_of_fmap|Hk%list_elem_of_singleton].
    + pose proof (final_log x Hx) as Hl. apply view_eq in Hl as (-> & _).
      destruct (elem_of_Forall _ _ _ Hdisk Hx) as (f & _ & ->). eauto.
    + subst. destruct (same_at_content _ _ _ final_new) as [-> _]. rewrite <- Hpath, (lr_volatile _ _ _ Hrep). eauto.
  - intros k Hk. apply set_of_elem, elem_of_app. destruct Hk as [->|Hk]; [right; by left|by left].
  - by intros k Hk%elem_of_nil.
  - constructor.
Qed.

(** *** The logs *)

Definition full_segment (x : Log) : Segment := {| sg_number := x.1; sg_batches := x.2; sg_synced := x.2 |}.
Abbreviation opened_segments := (map full_segment (live ++ [(number, [])])).

Lemma opened_batches : all_batches opened_segments = log_batches live ∧ all_synced opened_segments = log_batches live.
Proof.
  assert (∀ l, all_batches (map full_segment l) = log_batches l ∧ all_synced (map full_segment l) = log_batches l) as H.
  { intros l. unfold all_batches, all_synced, log_batches. rewrite !map_map. done. }
  destruct (H (live ++ [(number, [])])) as [-> ->]. unfold log_batches. rewrite map_app, concat_app. cbn. by rewrite app_nil_r.
Qed.

Lemma opened_oldest : oldest = oldest_required_wal opened_state.
Proof using Hims Horder Hbounds.
  apply min_or_oldest. apply Forall_forall. intros x Hx. apply list_elem_of_lookup in Hx as [j Hj].
  destruct (Forall2_lookup_l _ _ _ _ _ Hims Hj) as (y & Hy & [-> _ _ _]). apply list_elem_of_lookup_2 in Hy. by apply live_below.
Qed.

Lemma opened_files : Forall (log_file options i4) opened_segments.
Proof using Hquiet Horder Hbounds Hnumber Hdisk Hrep Hpath Hcreate Hview Hmeta Ha Hrem.
  apply Forall_fmap, Forall_app. split.
  - apply Forall_forall. intros x Hx. pose proof (final_log x Hx) as Hv. apply view_eq in Hv as (Hv & Hs & Hd).
    destruct (elem_of_Forall _ _ _ Hdisk Hx) as (f & Hf & Hm). rewrite Hm in Hv, Hs, Hd.
    split; cbn; [by exists f|by exists f|right; congruence|done].
  - constructor; [|constructor]. destruct opened_log as [_ (ww' & Hrep' & _)]. cbn in Hrep'.
    pose proof (log_rep_views _ _ _ _ Hrep ltac:(rewrite Hpath; apply final_new)) as Hr4.
    destruct (log_rep_empty _ _ _ _ Hr4 Hcreate) as (E1 & E2 & E3). rewrite Hpath in E1, E2, E3.
    unfold WalWriter_create in Hcreate. destruct (encoded_record_limit _) as [lim|] eqn:El; [|done].
    pose proof (frames_nil options lim El) as Hnil. split; cbn; [by eexists|by eexists|done|done].
Qed.

Lemma opened_logs : logs_ok (AK := h) options h T clock opened_state i4.
Proof using Ho Hquiet Hversion Hlayers Hold Hlast Hnum Hval Hims Hlive Horder Hbounds Hnumber Hnext Hdisk Hnew Hunpub Hseq Hrep Hpath Hcreate Hview Hmeta Ha Hrem.
  destruct opened_counters as (C1 & C2 & C3 & C4 & C5). destruct opened_batches as [Hab Has]. pose proof (zlen_nonneg (log_batches live)) as H0.
  assert (map sg_number opened_segments = map fst live ++ [number]) as Hnums by (by rewrite map_map, map_app).
  assert (∀ k, k ∈ map fst live ++ [number] → 1 ≤ k ≤ U64_MAX) as Hrange.
  { intros k [(x & -> & Hx)%list_elem_of_fmap|Hk%list_elem_of_singleton]%elem_of_app; [|lia]. pose proof (live_below x Hx). lia. }
  exists old, opened_segments. split; cbn [opened_state es_immutables es_mutable es_versions es_next_sequence mm_wal_number mm_table];
    rewrite ?Hnums, ?Hab, ?Has, ?C2, ?opened_version.
  - by rewrite ims_numbers.
  - exact Horder.
  - apply Forall_fmap, Forall_forall. intros x Hx. apply Hrange. rewrite <- Hnums. apply list_elem_of_fmap. exists (full_segment x).
    split; [done|]. by apply list_elem_of_fmap_2.
  - apply opened_files.
  - pose proof (log_rep_views _ _ _ _ Hrep ltac:(rewrite Hpath; apply final_new)) as Hr4.
    destruct (log_rep_empty _ _ _ _ Hr4 Hcreate) as (E1 & _). rewrite Hpath in E1.
    exists (full_segment (number, [])), []. rewrite map_app. cbn [map]. rewrite last_snoc. do 2 (split; [done|]). cbn.
    rewrite (lr_offset _ _ _ Hrep). unfold WalWriter_create in Hcreate.
    destruct (encoded_record_limit _) as [lim|] eqn:El; [|done]. injection Hcreate as <-. by apply (frames_nil options lim).
  - assert (∀ l, StronglySorted (λ a b : Segment, sg_synced b = [] ∨ sg_full a) (map full_segment l)) as Hs; [|apply Hs].
    induction l as [|x l IH]; cbn; constructor; [done|]. apply Forall_forall. intros y _. by right.
  - intros _. apply Forall_fmap, Forall_forall. by intros x _.
  - done.
  - done.
  - done.
  - done.
  - lia.
  - done.
  - rewrite !map_app, map_map. cbn. apply Forall2_app; [|by repeat constructor]. clear -Hims.
    induction Hims as [|x y xs ys [_ Hx _ _] Hr IH]; cbn; constructor; [done|by apply IH].
  - assert (length ims = length (map (λ x, sg_batches (full_segment x)) live)) as ->.
    { rewrite length_map. by eapply Forall2_length. }
    rewrite map_map, map_app, take_app_length. clear -Hims.
    induction Hims as [|x y xs ys [_ _ Hx _] Hr IH]; cbn; constructor; [done|by apply IH].
  - apply Hlayers.
  - apply Hlayers.
  - split; rewrite ?C1, ?C2, ?C3, ?C4, ?C5, ?opened_version, ?Has; cbn [opened_state es_next_file_number es_mutable es_versions mm_wal_number]; try lia.
    + apply opened_oldest.
    + pose proof (log_rep_views _ _ _ _ Hrep ltac:(rewrite Hpath; apply final_new)) as Hr4.
      destruct (log_rep_empty _ _ _ _ Hr4 Hcreate) as (E1 & E2 & _). rewrite Hpath in E1, E2. rewrite E1, E2. eauto.
    + rewrite opened_version. intros f Hf. pose proof (vk_numbers _ _ _ _ _ Hversion f Hf). lia.
  - intros k Hk Hout. assert (1 ≤ k ≤ U64_MAX) as Hk1.
    { pose proof (oldest_bounds _ _ opened_numbers). lia. }
    pose proof (final_gone k Hk1 Hout) as Hg. apply view_eq in Hg as (_ & E2 & E3). unfold idle. by rewrite E2, E3.
  - done.
Qed.

Lemma opened_inv : engine_inv (AK := h) options h T clock [] None opened_engine i4.
Proof using All.
  split; [apply opened_reads|apply opened_meta|apply opened_log|apply opened_numbers|done|apply opened_logs].
Qed.
End Opened.

(** ** What a crash leaves *)

Definition log_content (segs : list Segment) (k : Z) : history :=
  match List.find (λ s, sg_number s =? k) segs with Some s => sg_synced s | None => [] end.

Lemma content_none segs k : (k ∉ map sg_number segs) → log_content segs k = [].
Proof.
  intros Hk. unfold log_content. destruct (List.find _ segs) as [s|] eqn:E; [|done]. apply find_some in E as [Hin Heq].
  apply Z.eqb_eq in Heq as <-. destruct Hk. apply list_elem_of_fmap_2. by apply list_elem_of_In.
Qed.

Lemma content_some segs s : StronglySorted Z.lt (map sg_number segs) → s ∈ segs → log_content segs (sg_number s) = sg_synced s.
Proof.
  unfold log_content. induction segs as [|a segs IH]; intros Hs Hin; [by apply elem_of_nil in Hin|]. cbn in Hs |- *.
  apply StronglySorted_inv in Hs as [Hs Hall]. rewrite Forall_forall in Hall.
  apply elem_of_cons in Hin as [->|Hin]; [by rewrite Z.eqb_refl|].
  assert (sg_number a < sg_number s) by (by apply Hall, list_elem_of_fmap_2). rewrite (proj2 (Z.eqb_neq _ _)) by lia. by apply IH.
Qed.

Definition content_logs (segs : list Segment) (paths : list Z) : list Log := map (λ k, (k, log_content segs k)) paths.

Lemma content_paths paths segs :
  StronglySorted Z.lt paths → StronglySorted Z.lt (map sg_number segs) → (∀ s, s ∈ segs → sg_number s ∈ paths) →
  log_batches (content_logs segs paths) = all_synced segs.
Proof.
  intros Hp. revert segs. unfold log_batches, content_logs. setoid_rewrite map_map. cbn.
  induction Hp as [|k paths Hp IH Hall]; intros segs Hs Hin.
  { destruct segs as [|s segs]; [done|]. by specialize (Hin s ltac:(by left)) as ?%elem_of_nil. }
  rewrite Forall_forall in Hall. cbn [map concat]. destruct segs as [|s segs].
  { rewrite (IH []); [done|constructor|by intros s ?%elem_of_nil]. }
  pose proof Hs as Hs'. cbn in Hs'. apply StronglySorted_inv in Hs' as [Hs' Hlt]. rewrite Forall_forall in Hlt.
  destruct (decide (sg_number s = k)) as [<-|Hne].
  - rewrite content_some by (done || by left). change (all_synced (s :: segs)) with (sg_synced s ++ all_synced segs). f_equal.
    rewrite <- (IH segs Hs').
    + f_equal. apply map_ext_in. intros k Hk%list_elem_of_In. specialize (Hall k Hk). unfold log_content. cbn.
      by rewrite (proj2 (Z.eqb_neq _ _)) by lia.
    + intros a Ha. assert (sg_number s < sg_number a) by (by apply Hlt, list_elem_of_fmap_2).
      specialize (Hin a ltac:(by right)) as [?|?]%elem_of_cons; [lia|done].
  - assert (k < sg_number s) as Hk.
    { specialize (Hin s ltac:(by left)) as [?|Hin]%elem_of_cons; [congruence|]. by apply Hall. }
    rewrite content_none, IH; [done|done| |].
    + intros a Ha. specialize (Hin a Ha) as [Heq|?]%elem_of_cons; [|done]. exfalso.
      apply elem_of_cons in Ha as [->|Ha]; [lia|]. assert (sg_number s < sg_number a) by (by apply Hlt, list_elem_of_fmap_2). lia.
    + cbn. rewrite not_elem_of_cons. split; [lia|]. intros Hin'. specialize (Hlt k Hin'). lia.
Qed.

Section Recover.
  Context `{C : Crc32c} {CR : Crc32cRange C} `{SN : Snappy} {SL : SnappyLaws SN}.
  Context (options : Options) (Ho : options_ok options) (Hvalid : Options_validate options = Ok tt).

(** The directory [d] after a crash: its tables hold [old], and its logs the batches
    behind it. *)
Record recoverable (T : Z → list entry) (clock : Z) (old : history) (segs : list Segment) (d : gmap name bytes)
    (c : Counters) (v : Version) : Prop := {
  rl_version : version_ok options T (durable_image d) (cn_next_file_number c) v;
  rl_layers : layers_ok old clock (cn_last_sequence c) (contents T v);
  rl_order : StronglySorted Z.lt (map sg_number segs);
  rl_range : Forall (λ s, 1 ≤ sg_number s ≤ U64_MAX ∧ cn_log_number c ≤ sg_number s ≤ cn_active_log_number c) segs;
  rl_files : Forall (λ s, ∃ frames, frames_hold options (sg_synced s) frames ∧
    d !! wal_name (sg_number s) = Some (fw_file frames)) segs;
  rl_others : ∀ k, 1 ≤ k ≤ U64_MAX → cn_log_number c ≤ k ≤ cn_active_log_number c → k ∉ map sg_number segs →
    default [] (d !! wal_name k) = [];
  rl_required :
    (cn_log_number c = 0 ∧ cn_active_log_number c = 0 ∧ segs = [] ∧ ∀ k, 1 ≤ k ≤ U64_MAX → d !! wal_name k = None) ∨
    (1 ≤ cn_log_number c ≤ U64_MAX ∧ 1 ≤ cn_active_log_number c ≤ U64_MAX ∧ is_Some (d !! wal_name (cn_log_number c)) ∧
      is_Some (d !! wal_name (cn_active_log_number c)));
  rl_history : hist_wf (old ++ all_synced segs);
  rl_old : Forall (λ x, x.1 ≤ cn_last_sequence c) old;
  rl_last : 0 ≤ cn_last_sequence c;
  rl_numbered : numbered (cn_last_sequence c) (all_synced segs);
  rl_logged : Forall (logged options) (all_synced segs);
  rl_sequence : seq_ok (cn_last_sequence c + zlen (all_synced segs));
  rl_wal : 0 ≤ cn_wal_sequence c ≤ cn_last_sequence c + zlen (all_synced segs);
  rl_next : 1 ≤ cn_next_file_number c;
  rl_free : ∃ bound, cn_next_file_number c ≤ bound < U64_MAX ∧ ∀ k, bound ≤ k ≤ U64_MAX → d !! wal_name k = None;
  rl_sizes : ∀ k file, d !! wal_name k = Some file → zlen file ≤ USIZE_MAX;
  rl_limit : ∃ limit, encoded_record_limit (op_max_batch_bytes options) = Ok limit
}.

(** The version set behind [open_versions]. *)
Record versions_opened (d : gmap name bytes) (c : Counters) (v : Version) (vs : VersionSet) (m : gmap name bytes)
    (i : CrashImage) : Prop := {
  vn_quiet : quiet m i;
  vn_ok : ∃ es, vs_ok vs i es;
  vn_small : manifest_small vs i;
  vn_counters : vs_counters vs = c;
  vn_current : vs_current vs = v;
  vn_logs : ∀ k, m !! wal_name k = d !! wal_name k;
  vn_tables : ∀ f, f ∈ concat v → m !! sstable_name (fm_number f) = d !! sstable_name (fm_number f)
}.

Lemma sync_logs_wp l i i0 (Q : unit → CrashImage → Prop) E f :
  (∀ k, k ∈ l → ∃ b, stored i (wal_name k) b) → (∀ p, view i p = view i0 p) →
  (∀ i', (∀ p, view i' p = view i0 p) → Q tt i') →
  wpf false (fs_each (λ n, fs_map_err f (sync_file (wal_name n))) l) i Q E.
Proof.
  revert i. induction l as [|k l IH]; intros i Hall Hi HQ; cbn [fs_each]; [by apply wp_ret, HQ|].
  destruct (Hall k ltac:(by left)) as [b Hb]. apply view_eq in Hb as Hv. destruct Hv as (Hv & _ & _).
  apply wp_bind, wp_map_err. eapply wp_sync_file; [done|exact Hv|].
  pose proof (λ q, sync_stored_view i (wal_name k) b q Hb) as Hview. apply IH; [|intros p; by rewrite Hview|done].
  intros j Hj. destruct (Hall j ltac:(by right)) as [bj Hbj]. exists bj. unfold stored. by rewrite Hview.
Qed.

(** ** Which logs are replayed *)

Lemma recover_paths T clock old segs d vs v l :
  recoverable T clock old segs d (vs_counters vs) v → StronglySorted Z.lt l →
  (∀ k, k ∈ l ↔ 1 ≤ k ≤ U64_MAX ∧ is_Some (d !! wal_name k)) →
  let paths := List.filter (is_required (required_logs vs l)) l in
  check_required l (required_logs vs l) = Ok tt ∧ StronglySorted Z.lt paths ∧
  (∀ k, k ∈ paths → k ∈ l ∧ cn_log_number (vs_counters vs) ≤ k) ∧ (∀ s, s ∈ segs → sg_number s ∈ paths) ∧
  (∀ k, k ∈ paths → ∃ frames, frames_hold options (log_content segs k) frames ∧ d !! wal_name k = Some (fw_file frames)).
Proof.
  intros Hr Hs Hl paths. set (c := vs_counters vs) in *. split; [|split].
  - unfold required_logs. fold c. destruct (rl_required _ _ _ _ _ _ _ Hr) as [(-> & -> & _ & Hnone)|(H1 & H2 & H3 & H4)].
    + assert (l = []) as ->; [|done]. destruct l as [|k l]; [done|]. exfalso.
      destruct (proj1 (Hl k) ltac:(by left)) as [Hk [b Hb]]. by rewrite Hnone in Hb.
    + rewrite (proj2 (Z.eqb_neq (cn_log_number c) 0)) by lia. cbn [andb check_required].
      rewrite (bool_decide_true (cn_log_number c ∈ l)), (bool_decide_true (cn_active_log_number c ∈ l));
        [reflexivity|apply Hl; split; assumption|apply Hl; split; assumption].
  - unfold paths. clear -Hs. by apply StronglySorted_filter.
  - assert (∀ k, k ∈ paths ↔ k ∈ l ∧ cn_log_number c ≤ k ≤ cn_active_log_number c) as Hp.
    { intros k. unfold paths. rewrite elem_of_filter_b. unfold required_logs. fold c.
      destruct (rl_required _ _ _ _ _ _ _ Hr) as [(-> & -> & _ & Hnone)|(H1 & H2 & H3 & H4)].
      - assert (∀ x, x ∉ l) as Hn.
        { intros x Hx. apply Hl in Hx as [Hx [b Hb]]. by rewrite Hnone in Hb. }
        split; [intros [_ Hk]|intros [Hk _]]; by destruct (Hn k).
      - rewrite (proj2 (Z.eqb_neq (cn_log_number c) 0)) by lia. unfold is_required. cbn [fst snd andb].
        rewrite andb_true_iff, !Z.leb_le. clear. split; intros [? ?]; auto. }
    assert (∀ s, s ∈ segs → sg_number s ∈ paths) as Hseg.
    { intros s Hin. destruct (elem_of_Forall _ _ _ (rl_range _ _ _ _ _ _ _ Hr) Hin) as [Hb Hb'].
      destruct (elem_of_Forall _ _ _ (rl_files _ _ _ _ _ _ _ Hr) Hin) as (f & _ & Hf).
      apply Hp. split; [|done]. apply Hl. split; [done|]. eauto. }
    split; [intros k [Hk Hk']%Hp; split; [done|lia]|]. split; [done|].
    intros k [Hk Hk']%Hp. destruct (decide (k ∈ map sg_number segs)) as [(s & -> & Hin)%list_elem_of_fmap|Hno].
    + rewrite content_some; [|apply (rl_order _ _ _ _ _ _ _ Hr)|done]. apply (elem_of_Forall _ _ _ (rl_files _ _ _ _ _ _ _ Hr) Hin).
    + rewrite content_none by done. apply Hl in Hk as [Hk [b Hb]]. destruct (rl_limit _ _ _ _ _ _ _ Hr) as [lim Hlim].
      exists {| fw_file := []; fw_offset := 0 |}. split; [by eapply frames_nil|]. cbn.
      pose proof (rl_others _ _ _ _ _ _ _ Hr k Hk Hk' Hno) as Hemp. rewrite Hb in Hemp |- *. cbn in Hemp. by rewrite Hemp.
Qed.

Lemma fold_max_spec l a : a ≤ fold_left Z.max l a ∧ (∀ k, k ∈ l → k ≤ fold_left Z.max l a) ∧
  ∀ b, a ≤ b → (∀ k, k ∈ l → k ≤ b) → fold_left Z.max l a ≤ b.
Proof.
  revert a. induction l as [|x l IH]; intros a; cbn; [split; [lia|]; split; [by intros k ?%elem_of_nil|done]|].
  destruct (IH (Z.max a x)) as (H1 & H2 & H3). split; [lia|]. split.
  - intros k [->|Hk]%elem_of_cons; [lia|by apply H2].
  - intros b Hb Hk. apply H3; [pose proof (Hk x ltac:(by left)); lia|]. intros k Hk'. apply Hk. by right.
Qed.

(** ** The first edit *)

Lemma open_edit_wf c number oldest largest :
  is_u64 (number + 1) → is_u64 (cn_last_sequence c) → is_u64 oldest → is_u64 number → is_u64 largest →
  edit_wf (open_edit c number oldest largest) ∧ ∃ L, encode_edit (open_edit c number oldest largest) = Ok L.
Proof.
  intros H1 H2 H3 H4 H5. assert (edit_wf (open_edit c number oldest largest)) as Hwf by (split; cbn; try done; constructor).
  split; [done|]. rewrite encode_edit_enc by done. eexists. rewrite (proj2 (Z.ltb_ge _ _)); [done|].
  assert (∀ x, zlen (enc_optional (Some x)) = 9) as Hopt by (intros x; unfold enc_optional; by rewrite zlen_cons, zlen_to_le).
  unfold enc_edit, enc_list, open_edit.
  cbn [ve_next_file_number ve_last_sequence ve_log_number ve_active_log_number ve_wal_sequence ve_deleted_files ve_added_files
    set_wal_sequence set_active_log_number set_log_number set_last_sequence set_next_file_number VersionEdit_new map concat].
  rewrite !app_nil_r, !zlen_app, !Hopt, !zlen_to_le. unfold MAX_EDIT_BYTES. change (zlen [FORMAT_VERSION]) with 1. lia.
Qed.

Lemma open_counters c number oldest largest :
  1 ≤ cn_next_file_number c ≤ number → cn_log_number c ≤ oldest → 1 ≤ oldest ≤ number → cn_active_log_number c ≤ number →
  cn_wal_sequence c ≤ largest →
  ∃ c', update_counters (open_edit c number oldest largest) c false = Ok c' ∧ cn_next_file_number c' = number + 1.
Proof.
  intros H1 H2 H3 H4 H5. unfold update_counters, open_edit, advance. cbn -[Z.ltb Z.eqb Z.leb Z.add].
  rewrite (proj2 (Z.ltb_ge (number + 1) _)), (proj2 (Z.eqb_neq (number + 1) 0)) by lia.
  rewrite Z.ltb_irrefl, (proj2 (Z.ltb_ge oldest (cn_log_number c))), (proj2 (Z.ltb_ge number (cn_active_log_number c))),
    (proj2 (Z.ltb_ge largest (cn_wal_sequence c))) by lia.
  rewrite (proj2 (Z.eqb_neq oldest 0)), (proj2 (Z.eqb_neq number 0)), (proj2 (Z.ltb_ge number oldest)) by lia.
  rewrite (proj2 (Z.leb_gt (number + 1) number)) by lia. by eexists.
Qed.

Lemma open_applied vs number oldest largest s es :
  vs_ok vs (fs_image s) es → vs_stored vs (fs_image s) → manifest_small vs (fs_image s) → version_wf (vs_current vs) →
  fs_fail_at s = None → let c := vs_counters vs in
  1 ≤ cn_next_file_number c ≤ number → number < U64_MAX → cn_log_number c ≤ oldest → 1 ≤ oldest ≤ number →
  cn_active_log_number c ≤ number → cn_wal_sequence c ≤ largest → is_u64 largest → is_u64 (cn_last_sequence c) →
  ∃ vs' s', apply_with_visibility vs (open_edit c number oldest largest) s = (None, vs', s') ∧ fs_fail_at s' = None ∧
    applied vs vs' (open_edit c number oldest largest) es (fs_image s) (fs_image s').
Proof.
  intros Hvs Hst Hsm Hwf Hf c H1 H2 H3 H4 H5 H6 H7 H8.
  destruct (open_edit_wf c number oldest largest) as [Hew [L HL]]; [unfold is_u64; lia|done|unfold is_u64; lia|unfold is_u64; lia|done|].
  destruct (open_counters c number oldest largest H1 H3 H4 H5 H6) as (c' & Hc & Hn).
  pose proof (apply_frame vs (open_edit c number oldest largest) s es Hvs Hst Hew ltac:(constructor) Hsm Hf) as Hfr.
  destruct (apply_accepts vs (open_edit c number oldest largest) s es c' (vs_current vs) L) as (vs' & s' & Heq & Hf' & _);
    [done|done|constructor|done|done| |by apply version_apply_none|done|].
  - unfold validate_file_numbers. cbn. destruct (existsb _ _) eqn:E; [|done]. exfalso. apply existsb_exists in E as (k & Hk & Hle).
    apply list_elem_of_In, elem_of_elements in Hk. apply Z.leb_le in Hle.
    pose proof (recovered_used _ _ _ (do_edits _ _ _ _ (vo_durable _ _ _ Hvs)) k Hk) as Hlt. cbn in Hlt. fold c in Hlt. lia.
  - rewrite Heq in Hfr. exists vs', s'. by destruct Hfr.
Qed.
(** ** The whole *)

Lemma removed_iff (gone gone' : name → Prop) i i' : (∀ p, gone p ↔ gone' p) → removed gone i i' → removed gone' i i'.
Proof. intros H [H1 H2]. split; intros p Hp; [by apply H1, H|apply H2; by rewrite H]. Qed.

Lemma min_or_bounds lo number l : lo ≤ number → (∀ k, k ∈ l → lo ≤ k < number) → lo ≤ min_or number l ≤ number.
Proof.
  intros Hlo Hl. destruct l as [|n l]; cbn; [lia|]. pose proof (Hl n ltac:(by left)) as Hn.
  assert (∀ k, k ∈ l → lo ≤ k < number) as Hl' by (intros k Hk; apply Hl; by right). clear Hl.
  induction l as [|x l IH]; cbn; [lia|]. pose proof (Hl' x ltac:(by left)).
  enough (lo ≤ foldr Z.min n l ≤ number) by lia. apply IH. intros k Hk. apply Hl'. by right.
Qed.

Lemma checked_add_ok a b : a + b ≤ USIZE_MAX → checked_add a b = Some (a + b).
Proof. intros H. unfold checked_add. by rewrite (proj2 (Z.leb_le _ _)). Qed.

Lemma live_some logs : Forall (λ x : Log, x.2 ≠ []) (live_logs logs).
Proof. apply Forall_forall. intros x [Hx _]%elem_of_filter_b. by apply negb_true_iff, bool_decide_eq_false in Hx. Qed.

(** The logs that hold something come before the new one. *)
Lemma live_order segs paths number :
  StronglySorted Z.lt paths → (∀ k, k ∈ paths → k < number) →
  StronglySorted Z.lt (map fst (live_logs (content_logs segs paths)) ++ [number]) ∧
  ∀ k, k ∈ map fst (live_logs (content_logs segs paths)) → k ∈ paths.
Proof.
  intros Hs Hlt. assert (∀ k, k ∈ map fst (live_logs (content_logs segs paths)) → k ∈ paths) as Hin.
  { intros k (x & -> & [_ (j & -> & Hj)%list_elem_of_fmap]%elem_of_filter_b)%list_elem_of_fmap. done. }
  split; [|done]. apply StronglySorted_app. split; [|split; [|repeat constructor]].
  - intros x y Hx%Hin ->%list_elem_of_singleton. by apply Hlt.
  - clear Hlt. induction Hs as [|k paths Hs IH Hall]; cbn; [constructor|].
    assert (StronglySorted Z.lt (map fst (live_logs (content_logs segs paths)))) as Hrest.
    { apply IH. intros j (x & -> & [_ (y & -> & Hj)%list_elem_of_fmap]%elem_of_filter_b)%list_elem_of_fmap. done. }
    unfold live_logs, content_logs in *. cbn. case_bool_decide; cbn; [done|]. constructor; [done|].
    rewrite Forall_forall in Hall |- *. intros j (x & -> & [_ (y & -> & Hy)%list_elem_of_fmap]%elem_of_filter_b)%list_elem_of_fmap.
    by apply Hall.
Qed.

(** The tables of the version are as the crash left them. *)
Lemma opened_version_ok T clock old segs d c v vs m i :
  recoverable T clock old segs d c v → versions_opened d c v vs m i → version_ok options T i (cn_next_file_number c) v.
Proof.
  intros Hr Hv. eapply version_ok_kept; [apply Hr|lia|]. intros f b Hf Hb. eapply quiet_stored; [apply Hv|].
  rewrite (vn_tables _ _ _ _ _ _ Hv f Hf). by apply view_eq in Hb as (? & _).
Qed.

(** Removing tables that nobody refers to. *)
Lemma swept_opened T clock old segs d c v vs m1 m i1 i2 :
  recoverable T clock old segs d c v → versions_opened d c v vs m1 i1 → quiet m i2 →
  (∀ p, ¬ unpublished (file_numbers (vs_current vs)) p → m !! p = m1 !! p) → versions_opened d c v vs m i2.
Proof.
  intros Hr Hv Hq Hk. pose proof (opened_version_ok _ _ _ _ _ _ _ _ _ _ Hr Hv) as Hver. destruct Hv as [Hq1 [es Hvs] Hsm Hc Hcur Hml Hmt].
  assert (∀ k, m !! wal_name k = m1 !! wal_name k) as Kw.
  { intros k. apply Hk. intros (n & _ & [Heq|[Heq _]]); [by apply wal_name_temporary in Heq|by apply wal_name_table in Heq]. }
  assert (∀ f, f ∈ concat v → m !! sstable_name (fm_number f) = m1 !! sstable_name (fm_number f)) as Kt.
  { intros f Hf. apply Hk. intros (n & Hn & [Heq|[Heq Hno]]); [symmetry in Heq; by apply temporary_not_final in Heq|].
    pose proof (elem_of_Forall _ _ _ (vw_files _ (vk_wf _ _ _ _ _ Hver)) Hf) as [Hb _ _ _ _].
    apply sstable_name_inj in Heq as <-; [|lia|lia]. rewrite Hcur in Hno. by apply Hno, list_elem_of_fmap_2. }
  assert (∀ k, m !! manifest_name k = m1 !! manifest_name k) as Km.
  { intros k. apply Hk. intros (n & _ & [Heq|[Heq _]]); symmetry in Heq; by apply (table_name_meta n k) in Heq. }
  assert (m !! CURRENT = m1 !! CURRENT) as Kc.
  { apply Hk. intros (n & _ & [Heq|[Heq _]]); symmetry in Heq; by apply (table_name_meta n 0) in Heq. }
  pose proof (vo_path _ _ _ Hvs) as Kp.
  split; [done| | |done|done|intros k; by rewrite Kw|intros f Hf; by rewrite Kt, Hmt].
  - exists es. eapply vs_ok_kept; [|exact Hvs|by eapply quiet_vs_stored|].
    + intros p b Hp Hb. eapply quiet_stored; [exact Hq|]. unfold stored in Hb. rewrite Hq1 in Hb. injection Hb as Hb.
      rewrite Hcur in Hp. destruct Hp as [->|[->|(f & Hf & ->)]]; [by rewrite Kc|by rewrite Kp, Km, <- Kp|by rewrite Kt].
    + rewrite Hcur. eapply version_tables_stored, Hver.
  - intros file. rewrite (quiet_volatile _ _ _ Hq), Kp, Km, <- Kp, <- (quiet_volatile _ _ _ Hq1). apply Hsm.
Qed.

(** The directory, its logs and the ones to replay. *)
Record listed (d : gmap name bytes) (c : Counters) (segs : list Segment) (l paths : list Z) : Prop := {
  li_all : ∀ k, k ∈ l ↔ 1 ≤ k ≤ U64_MAX ∧ is_Some (d !! wal_name k);
  li_sorted : StronglySorted Z.lt l;
  li_paths : StronglySorted Z.lt paths;
  li_required : ∀ k, k ∈ paths → k ∈ l ∧ cn_log_number c ≤ k;
  li_files : ∀ k, k ∈ paths → ∃ frames, frames_hold options (log_content segs k) frames ∧ d !! wal_name k = Some (fw_file frames);
  li_batches : log_batches (content_logs segs paths) = all_synced segs
}.

(** The number of the new log. *)
Lemma new_number T clock old segs d c v l paths :
  recoverable T clock old segs d c v → listed d c segs l paths →
  let number := fold_left Z.max l (saturating_sub (cn_next_file_number c) 1) + 1 in
  (1 ≤ cn_next_file_number c ≤ number ∧ number < U64_MAX) ∧ cn_log_number c ≤ number ∧ cn_active_log_number c ≤ number ∧
  (∀ k, k ∈ l → k < number) ∧ ∀ k, number ≤ k ≤ U64_MAX → d !! wal_name k = None.
Proof.
  intros Hr [Hl _ _ _ _ _] number. destruct (rl_free _ _ _ _ _ _ _ Hr) as (bound & Hbound & Hfree).
  pose proof (rl_next _ _ _ _ _ _ _ Hr) as Hnext. destruct (fold_max_spec l (saturating_sub (cn_next_file_number c) 1)) as (F1 & F2 & F3).
  assert (fold_left Z.max l (saturating_sub (cn_next_file_number c) 1) ≤ bound - 1) as F4.
  { apply F3; [unfold saturating_sub; lia|]. intros k Hk. apply Hl in Hk as [Hk [b Hb]].
    destruct (Z.le_gt_cases bound k); [|lia]. by rewrite Hfree in Hb by lia. }
  assert (∀ k, k ∈ l → k < number) as Hbelow by (intros k Hk; specialize (F2 k Hk); unfold number; lia).
  split; [unfold number, saturating_sub in *; lia|].
  assert (cn_log_number c ≤ number ∧ cn_active_log_number c ≤ number) as [H1 H2].
  { destruct (rl_required _ _ _ _ _ _ _ Hr) as [(E1 & E2 & _)|(E1 & E2 & E3 & E4)]; [unfold number, saturating_sub in *; lia|].
    assert (cn_log_number c ∈ l) as Q1%Hbelow by (apply Hl; split; assumption).
    assert (cn_active_log_number c ∈ l) as Q2%Hbelow by (apply Hl; split; assumption). lia. }
  do 2 (split; [done|]). split; [done|]. intros k Hk. destruct (d !! wal_name k) as [b|] eqn:E; [|done]. exfalso.
  assert (k ∈ l) as Hin%Hbelow by (apply Hl; split; [unfold number, saturating_sub in *; lia|eauto]). lia.
Qed.

(** The logs that hold nothing any more are removed. *)
Lemma retire_wp {X} l live number m i (rest : FS X) (Q : X → CrashImage → Prop) E f f' :
  StronglySorted Z.lt l → (∀ k, k ∈ l ↔ 1 ≤ k ≤ U64_MAX ∧ is_Some (m !! wal_name k)) → 1 ≤ number ≤ U64_MAX →
  (∀ k, k ≠ number → 1 ≤ k ≤ U64_MAX → ci_volatile i !! wal_name k = m !! wal_name k) →
  (∀ i', removed (obsolete_log m number live) i i' → wpf false rest i' Q E) →
  let obsolete := List.filter (λ n, negb (bool_decide (n ∈ set_of (map fst live ++ [number])))) l in
  wpf false (let! _ := fs_each (λ n, fs_map_err f (remove_file (wal_name n))) obsolete in
    let! _ := if bool_decide (obsolete = []) then fs_ret tt else fs_map_err f' (sync_directory DIRECTORY) in rest) i Q E.
Proof.
  intros Hs Hl Hn Hv HQ obsolete.
  assert (∀ k, k ∈ obsolete ↔ k ∈ l ∧ (k ∉ map fst live ++ [number])) as Hob.
  { intros k. unfold obsolete. rewrite elem_of_filter_b, negb_true_iff, bool_decide_eq_false.
    rewrite (proj2 (set_of_elem (map fst live ++ [number])) k). tauto. }
  assert (∀ k, k ∈ obsolete → 1 ≤ k ≤ U64_MAX ∧ k ≠ number ∧ is_Some (m !! wal_name k)) as Hok.
  { intros k [Hk Hno]%Hob. apply Hl in Hk as [Hk Hm]. split; [done|]. split; [|done]. intros ->. apply Hno, elem_of_app. right. by left. }
  apply wp_bind, (remove_each_wp wal_name).
  - assert (NoDup obsolete) as Hnd.
    { unfold obsolete. apply NoDup_ListNoDup, List.NoDup_filter, NoDup_ListNoDup. eapply sorted_asym_nodup; [exact Hs|]. intros x _. lia. }
    clear -Hnd Hok. induction Hnd as [|k ks Hk _ IH]; cbn; [constructor|]. constructor; [|apply IH; intros j Hj; apply Hok; by right].
    intros (j & Heq & Hj)%list_elem_of_fmap. destruct (Hok k ltac:(by left)) as [? _], (Hok j ltac:(by right)) as [? _].
    apply wal_name_inj in Heq as ->; [done|lia|lia].
  - intros p (k & -> & Hk)%list_elem_of_fmap. destruct (Hok k Hk) as (H1 & H2 & H3). by rewrite Hv.
  - intros i1 Hi1. apply wp_bind, sync_if_wp. apply HQ. eapply removed_iff; [|by apply removed_directory].
    intros p. split.
    + intros (k & -> & Hk)%list_elem_of_fmap. destruct (Hok k Hk) as (H1 & H2 & H3). apply Hob in Hk as [_ Hno]. by exists k.
    + intros (k & H1 & H2 & H3 & ->). apply list_elem_of_fmap_2, Hob. split; [|done]. by apply Hl.
Qed.

(** An engine that holds [h], with nothing going on. *)
Definition opened_with (T : Z → list entry) (clock : Z) (h : history) (q : Z) (en : Engine) (i : CrashImage) : Prop :=
  engine_inv (AK := h) options h T clock [] None en i ∧ en_readers en = [] ∧ en_committed_sequence en = q.

(** What the new log leaves alone. *)
Lemma start_meta vs i i' es number T :
  vs_ok vs i es → manifest_small vs i → vs_stored vs i → version_ok options T i (cn_next_file_number (vs_counters vs)) (vs_current vs) →
  (∀ p, p ≠ wal_name number → view i' p = view i p) → meta_ok vs i' ∧ manifest_small vs i'.
Proof.
  intros Hvs Hsm Hst Hver Hk. split.
  - eapply meta_ok_kept; [split; [by exists es|exact Hst]| |by eapply version_tables_stored].
    intros p b Hp Hb. unfold stored in *. rewrite Hk; [done|]. destruct Hp as [->|[->|(f & _ & ->)]].
    + apply not_eq_sym, (wal_name_meta number 0).
    + rewrite (vo_path _ _ _ Hvs). apply not_eq_sym, wal_name_meta.
    + apply not_eq_sym, wal_name_table.
  - intros file. assert (view i' (mw_path (vs_manifest vs)) = view i (mw_path (vs_manifest vs))) as Hv.
    { apply Hk. rewrite (vo_path _ _ _ Hvs). apply not_eq_sym, wal_name_meta. }
    apply view_eq in Hv as (-> & _). apply Hsm.
Qed.

Lemma start_engine_wp T clock old segs d vs m i es l paths recs :
  recoverable T clock old segs d (vs_counters vs) (vs_current vs) → quiet m i → vs_ok vs i es → manifest_small vs i →
  version_ok options T i (cn_next_file_number (vs_counters vs)) (vs_current vs) →
  (∀ p, unpublished (file_numbers (vs_current vs)) p → m !! p = None) → (∀ k, m !! wal_name k = d !! wal_name k) →
  listed d (vs_counters vs) segs l paths →
  replayed (cn_last_sequence (vs_counters vs)) (content_logs segs paths) recs →
  let q := cn_last_sequence (vs_counters vs) + zlen (all_synced segs) in
  wpf false (start_engine options vs l paths {| rp_largest_sequence := q; rp_expected_sequence := q + 1; rp_recovered := recs |}) i
    (opened_with T clock (old ++ all_synced segs) q) (λ _, False).
Proof using CR SL Ho.
  intros Hr Hq Hvs Hsm Hver Hun Hml Hli Hrecs q. destruct (new_number _ _ _ _ _ _ _ _ _ Hr Hli) as (Hnumber & N2 & N3 & Hbelow & Hnew).
  set (c := vs_counters vs) in *. unfold start_engine. cbn [rp_largest_sequence rp_recovered]. fold c.
  rewrite (proj2 (Z.ltb_ge _ _)) by apply Hr.
  apply wp_bind. eapply wp_lift_ok; [rewrite checked_add_ok by (unfold USIZE_MAX; lia); reflexivity|].
  set (number := fold_left Z.max l (saturating_sub (cn_next_file_number c) 1) + 1) in *. clearbody number.
  apply wp_bind. eapply wp_lift_ok; [by rewrite (proj2 (Z.eqb_neq number 0)) by lia|].
  apply wp_bind. eapply wp_lift_ok; [rewrite checked_add_ok by (unfold USIZE_MAX; lia); reflexivity|].
  destruct (rl_limit _ _ _ _ _ _ _ Hr) as [lim Hlim].
  assert (∃ ww, WalWriter_create (op_max_batch_bytes options) = Ok ww) as [ww Hcreate] by (unfold WalWriter_create; rewrite Hlim; eauto).
  pose proof (Hnew number ltac:(lia)) as Hnone. rewrite <- Hml in Hnone. pose proof (Hq (wal_name number)) as Hvn. rewrite Hnone in Hvn.
  apply view_eq in Hvn as (Hn1 & _ & Hn2).
  apply wp_bind. eapply log_create_wp; [exact Hcreate|done|done|done|]. intros w i1 Hrep Hpath Hview.
  assert (∀ p, p ≠ wal_name number → view i1 p = view i p) as Hview1.
  { intros p Hp. rewrite Hview by done. by eapply quiet_directory. }
  apply wp_bind, (sync_logs_wp _ _ i1); [|done|].
  { intros k Hk. destruct (li_files _ _ _ _ _ Hli k Hk) as (f & _ & Hd). exists (fw_file f). unfold stored.
    pose proof (proj1 (li_required _ _ _ _ _ Hli k Hk)) as Hin. specialize (Hbelow k Hin). apply (li_all _ _ _ _ _ Hli) in Hin as [Hin _].
    rewrite Hview1, Hq, Hml, Hd; [done|]. intros Heq. apply wal_name_inj in Heq; lia. }
  intros i2 Hview2. assert (∀ p, p ≠ wal_name number → view i2 p = view i p) as Hkept by (intros p Hp; by rewrite Hview2, Hview1).
  assert (log_rep i2 w ww) as Hrep2 by (eapply log_rep_views; [exact Hrep|left; apply Hview2]).
  destruct (start_meta vs i i2 es number T Hvs Hsm (quiet_vs_stored _ _ _ _ Hq Hvs) Hver Hkept) as ([[es2 Hvs2] Hst2] & Hsm2).
  set (live := live_logs (content_logs segs paths)). set (ims := recovered_immutables recs).
  pose proof (li_batches _ _ _ _ _ Hli) as Hbat. assert (all_synced segs = log_batches live) as Hall by (unfold live; by rewrite live_batches).
  assert (Forall2 immutable_of ims live) as Hims by (eapply recovered_live; [exact Ho| | |exact Hrecs]; rewrite Hbat; apply Hr).
  rewrite (ims_numbers live ims Hims).
  destruct (live_order segs paths number (li_paths _ _ _ _ _ Hli)) as [Horder Hin].
  { intros k Hk. by apply Hbelow, (li_required _ _ _ _ _ Hli). }
  fold live in Horder, Hin.
  assert (∀ k, k ∈ map fst live → (1 ≤ k ≤ U64_MAX ∧ cn_log_number c ≤ k) ∧ k < number) as Hlive.
  { intros k Hk%Hin. apply (li_required _ _ _ _ _ Hli) in Hk as [Hk Hk']. specialize (Hbelow k Hk). apply (li_all _ _ _ _ _ Hli) in Hk as [Hk _]. done. }
  assert (∀ k, k ∈ map fst live → 1 ≤ k < number ∧ cn_log_number c ≤ k) as Hrange by (intros k Hk; specialize (Hlive k Hk); lia).
  destruct (min_or_bounds 1 number (map fst live) ltac:(lia) ltac:(intros k Hk; specialize (Hrange k Hk); lia)) as [M1 M2].
  destruct (min_or_bounds (cn_log_number c) number (map fst live) N2 ltac:(intros k Hk; specialize (Hrange k Hk); lia)) as [M3 _].
  pose proof (rl_last _ _ _ _ _ _ _ Hr) as Hlast. pose proof (rl_sequence _ _ _ _ _ _ _ Hr) as Hsq.
  pose proof (zlen_nonneg (all_synced segs)) as Hz. fold q in Hsq. pose proof Hsq as Hsq'. unfold seq_ok, MAX_SEQUENCE_NUMBER in Hsq'.
  intros s Hs Hf.
  destruct (open_applied vs number (min_or number (map fst live)) q s es2) as (vs' & s' & Happ & Hf' & Ha);
    [by rewrite Hs|by rewrite Hs|by rewrite Hs|apply Hver|by apply Hf|fold c; lia|lia|exact M3|lia|exact N3|apply Hr|
     unfold is_u64; lia|fold c; unfold is_u64; unfold q in Hsq'; lia|].
  rewrite Hs in Ha. unfold open_edit in Happ. fold c in Happ. rewrite Happ.
  set (h := old ++ all_synced segs).
  refine ((_ : wpf false _ (fs_image s') (opened_with T clock h q) (λ _, False)) s' eq_refl (λ _, Hf')).
  apply (retire_wp l live number m); [apply Hli|..].
  { intros k. rewrite Hml. apply (li_all _ _ _ _ _ Hli). }
  { lia. }
  { intros k Hk Hb. rewrite <- (quiet_volatile _ _ _ Hq). assert (same_at i (fs_image s') (wal_name k)) as Hsame.
    { eapply same_at_trans; [left; apply Hkept; intros Heq; by apply wal_name_inj in Heq; [|lia|lia]|].
      eapply applied_same; [exact Ha|]. rewrite (vo_path _ _ _ Hvs). apply wal_name_meta. }
    by destruct (same_at_content _ _ _ Hsame). }
  intros i4 Hrem. apply wp_bind. eapply wp_lift_ok; [rewrite checked_add_ok by (unfold USIZE_MAX; lia); reflexivity|].
  apply wp_ret. split; [|done]. unfold h, q. rewrite Hall.
  rewrite <- (ims_numbers live ims Hims).
  apply (opened_inv options Ho T clock old vs vs' m i i2 (fs_image s') i4 es2 w ww number live ims); rewrite <- ?Hall; fold c;
    try assumption; try apply Hr; [apply live_some| |lia|lia| | |by split; [exists es2|]|by rewrite (ims_numbers live ims Hims)].
  - apply Forall_forall. intros x Hx. destruct (Hrange x.1) as [H1 _]; [by apply list_elem_of_fmap_2|lia].
  - apply Forall_forall. intros x [_ (k & -> & Hk)%list_elem_of_fmap]%elem_of_filter_b. cbn. rewrite Hml. by apply (li_files _ _ _ _ _ Hli).
  - intros k Hk. rewrite Hml. by apply Hnew.
Qed.

Lemma open_engine_wp T clock old segs d c v :
  recoverable T clock old segs d c v →
  wpf false (open_versions false) (durable_image d) (λ vs i, ∃ m, versions_opened d c v vs m i) (λ _, False) →
  wpf false (Engine_open options false) (durable_image d)
    (opened_with T clock (old ++ all_synced segs) (cn_last_sequence c + zlen (all_synced segs))) (λ _, False).
Proof using CR SL Ho Hvalid.
  intros Hr Hopen. unfold Engine_open. apply wp_bind. eapply wp_lift_ok; [exact Hvalid|]. apply wp_bind.
  intros s0 Hs0 Hf0. specialize (Hopen s0 Hs0 Hf0). destruct (open_versions false s0) as [[vs|e] s1]; [|done].
  destruct Hopen as [(m1 & Hvn) Hf1]. split; [|done]. set (i1 := fs_image s1) in *. clearbody i1. clear s0 s1 Hs0 Hf0 Hf1.
  apply wp_bind. eapply remove_unpublished_wp; [apply Hvn|]. intros m i2 Hq Hun Hkept.
  pose proof (swept_opened _ _ _ _ _ _ _ _ _ _ _ _ Hr Hvn Hq Hkept) as Hvn2. clear Hvn Hkept m1 i1.
  pose proof (opened_version_ok _ _ _ _ _ _ _ _ _ _ Hr Hvn2) as Hver. destruct Hvn2 as [_ [es Hvs] Hsm <- <- Hml _].
  pose proof (quiet_vs_stored _ _ _ _ Hq Hvs) as Hst.
  apply wp_bind. eapply wal_paths_wp; [exact Hq|]. intros l Hsort Hl. setoid_rewrite Hml in Hl.
  destruct (recover_paths _ _ _ _ _ _ _ l Hr Hsort Hl) as (Hchk & Hps & Hpl & Hseg & Hfile).
  set (paths := List.filter _ _) in *. apply wp_bind. eapply wp_lift_ok; [exact Hchk|].
  set (c := vs_counters vs) in *. pose proof (rl_last _ _ _ _ _ _ _ Hr) as Hlast. pose proof (rl_sequence _ _ _ _ _ _ _ Hr) as Hsq.
  pose proof (zlen_nonneg (all_synced segs)) as Hz. unfold seq_ok, MAX_SEQUENCE_NUMBER in Hsq.
  apply wp_bind. eapply wp_lift_ok; [rewrite checked_add_ok by (unfold USIZE_MAX; lia); reflexivity|].
  pose proof (content_paths paths segs Hps (rl_order _ _ _ _ _ _ _ Hr) Hseg) as Hcont.
  set (logs := content_logs segs paths) in *.
  assert (paths = map fst logs) as Hfst by (unfold logs, content_logs; rewrite map_map; cbn; by rewrite map_id).
  apply wp_bind. rewrite Hfst at 1. apply replay_logs_wp; [exact Ho|lia| | | |].
  { apply Forall_fmap, Forall_forall. intros k Hk. destruct (Hfile k Hk) as (f & Hf & Hd). exists f. split; [done|]. cbn.
    rewrite (quiet_volatile _ _ _ Hq), Hml. split; [done|]. by apply (rl_sizes _ _ _ _ _ _ _ Hr k). }
  { rewrite Hcont. apply Hr. }
  { rewrite Hcont. apply Hr. }
  intros recs Hrecs. rewrite Hcont. cbn [app].
  apply (start_engine_wp T clock old segs d vs m i2 es); try assumption. by split.
Qed.
End Recover.
