(* ===== verification/EngineKeep.v ===== *)
(** * What the engine's operations leave alone

    Every operation that publishes an edit without files leaves the current version as
    it is, whether it succeeds or fails, and a flush only adds a table to level 0: the
    plan of a compaction that has been picked stays safe until it is executed.
    Writes, flushes and synchronization do not touch readers and snapshots. *)

From Stdlib Require Import ZArith Lia Sorting.Sorted.
From stdpp Require Import base list gmap strings.
From S2P Require Import Prelude Fs StateFs Checksum InternalKey Batch ValueRecord Snapshot MemTable Version Wal Options.
From S2P Require Import ManifestCodec Manifest WalFs TableBuilder TableReader TableStore Compaction CompactionRun Engine EngineOps.
From S2P Require Import EngineEdits EngineCompact.

Local Open Scope Z_scope.

(** ** A relation between the states around a computation *)

Definition keeps {St A} (R : St → St → Prop) (m : SFS St A) : Prop := ∀ st s, R st (m st s).1.2.

Section Keeps.
  Context {St A B : Type} (R : St → St → Prop) {PO : PreOrder R}.

Lemma keeps_ret (a : A) : keeps R (c_ret a).
Proof. intros st s. cbn. reflexivity. Qed.

Lemma keeps_get : keeps R c_get.
Proof. intros st s. cbn. reflexivity. Qed.

Lemma keeps_fs (m : FS A) : keeps R (c_fs m).
Proof. intros st s. unfold c_fs. destruct (m s). cbn. reflexivity. Qed.

Lemma keeps_lift (r : result A) : keeps R (c_lift r).
Proof. apply keeps_fs. Qed.

Lemma keeps_update f : (∀ st, R st (f st)) → keeps R (c_update f).
Proof. intros H st s. apply H. Qed.

Lemma keeps_bind (m : SFS St A) (k : A → SFS St B) : keeps R m → (∀ a, keeps R (k a)) → keeps R (c_bind m k).
Proof.
  intros Hm Hk st s. specialize (Hm st s). unfold c_bind. destruct (m st s) as [[[a|e] st'] s']; cbn in *; [|done].
  transitivity st'; [done|apply Hk].
Qed.

Lemma keeps_try (m : SFS St A) handler : keeps R m → (∀ e, keeps R (handler e)) → keeps R (c_try m handler).
Proof.
  intros Hm Hk st s. specialize (Hm st s). unfold c_try. destruct (m st s) as [[[a|e] st'] s']; cbn in *; [done|].
  transitivity st'; [done|apply Hk].
Qed.

(** Before and after what keeps another relation. *)
Lemma keeps_after (S : St → St → Prop) (m : SFS St A) (k : A → SFS St B) :
  (∀ a b c, S a b → R b c → R a c) → (∀ a b, S a b → R a b) →
  keeps S m → (∀ a, keeps R (k a)) → keeps R (c_bind m k).
Proof using.
  intros Ht Hi Hm Hk st s. specialize (Hm st s). unfold c_bind. destruct (m st s) as [[[a|e] st'] s']; cbn in *; [|auto].
  eapply Ht; [done|apply Hk].
Qed.

Lemma keeps_before (S : St → St → Prop) (m : SFS St A) (k : A → SFS St B) :
  (∀ a b c, R a b → S b c → R a c) → keeps R m → (∀ a, keeps S (k a)) → keeps R (c_bind m k).
Proof using.
  intros Ht Hm Hk st s. specialize (Hm st s). unfold c_bind. destruct (m st s) as [[[a|e] st'] s']; cbn in *; [|auto].
  eapply Ht; [done|apply Hk].
Qed.

Lemma keeps_try_before (S : St → St → Prop) (m : SFS St A) handler :
  (∀ a b c, R a b → S b c → R a c) → keeps R m → (∀ e, keeps S (handler e)) → keeps R (c_try m handler).
Proof using.
  intros Ht Hm Hk st s. specialize (Hm st s). unfold c_try. destruct (m st s) as [[[a|e] st'] s']; cbn in *; [done|].
  eapply Ht; [done|apply Hk].
Qed.
End Keeps.

Create HintDb keeps.

(** Through the structure of a computation down to its updates. *)
Ltac keeps_step :=
  match goal with
  | |- keeps _ (c_bind _ _) => apply keeps_bind; [apply _| |intros ?]
  | |- keeps _ (c_try _ _) => apply keeps_try; [apply _| |intros ?]
  | |- keeps _ (c_ret _) => apply keeps_ret; apply _
  | |- keeps _ c_get => apply keeps_get; apply _
  | |- keeps _ (c_fs _) => apply keeps_fs; apply _
  | |- keeps _ (c_lift _) => apply keeps_lift; apply _
  | |- keeps _ (if ?b then _ else _) => destruct b
  | |- keeps _ (match ?x with _ => _ end) => destruct x
  | |- _ => solve [eauto with keeps]
  end.

Ltac keeps_auto := repeat keeps_step.

(** ** The current version *)

Definition current (st : WriteState) : Version := vs_current (es_versions st).

Definition same_version (st st' : WriteState) : Prop := version_wf (current st) → current st' = current st.

#[export] Instance same_version_preorder : PreOrder same_version.
Proof.
  split; [by intros st|]. intros a b c Hab Hbc Hv. specialize (Hab Hv). unfold same_version in Hbc. rewrite Hab in Hbc. auto.
Qed.

(** An update of another field. *)
Lemma keeps_field f : (∀ st, es_versions (f st) = es_versions st) → keeps same_version (c_update f).
Proof. intros H. apply keeps_update. intros st _. unfold current. by rewrite H. Qed.

Lemma record_terminal_versions e st : es_versions (record_terminal_failure e st).2 = es_versions st.
Proof. unfold record_terminal_failure. by destruct (es_terminal_failure st). Qed.

Lemma record_background_versions e st : es_versions (record_background_failure e st).2 = es_versions st.
Proof.
  unfold record_background_failure. pose proof (record_terminal_versions e st) as H.
  by destruct (record_terminal_failure e st).
Qed.

Lemma keeps_fail {A} e : keeps same_version (@fail_terminally A e).
Proof.
  intros st s _. unfold fail_terminally. pose proof (record_terminal_versions e st) as H.
  destruct (record_terminal_failure e st) as [e' st']. cbn in *. unfold current. by rewrite H.
Qed.

#[export] Hint Resolve keeps_fail : keeps.
#[export] Hint Extern 1 (keeps same_version (c_update _)) => apply keeps_field; intros ?; 
  first [done | apply record_terminal_versions | apply record_background_versions] : keeps.

Section Versions.
  Context `{C : Crc32c} `{SN : Snappy} (options : Options).

(** The version of a published edit. *)
Lemma apply_current vs edit s :
  let '(o, vs', _) := apply_with_visibility vs edit s in
  vs_current vs' = vs_current vs ∨ o = None ∧ Version_apply (vs_current vs) edit = Ok (vs_current vs').
Proof.
  unfold apply_with_visibility. destruct (negb _); [by left|].
  destruct (prepare_apply vs edit s) as [[[[c v] L]|e] s1] eqn:Hp; [|by left].
  assert (Version_apply (vs_current vs) edit = Ok v) as Hv.
  { unfold prepare_apply, fs_bind, fs_lift in Hp. destruct (update_counters _ _ _) as [c0|]; [|done].
    destruct (validate_file_numbers _ _ _ _); [|done]. destruct (Version_apply _ _) as [v0|]; [|done].
    destruct (encode_edit _) as [L0|]; [|done]. destruct (fs_each _ _ _) as [[?|] ?]; [|done]. by injection Hp as <- <- <- <-. }
  destruct (ManifestWriter_append _ _ _) as [[w|e] s2]; [|by left].
  destruct (ManifestWriter_sync _ _ _) as [[w'|e] s3]; [|by left]. right. by cbn.
Qed.

Lemma keeps_apply edit : no_files edit → keeps same_version (versions_apply edit).
Proof.
  intros Hnil st s Hv. unfold versions_apply, versions_apply_with_visibility, current.
  pose proof (apply_current (es_versions st) edit s) as H.
  destruct (apply_with_visibility _ _ _) as [[o vs'] s']. destruct H as [H|[-> H]]; [by destruct o|].
  cbn. by eapply version_apply_nil.
Qed.

Lemma keeps_allocate : keeps same_version allocate_file_number.
Proof. unfold allocate_file_number. keeps_auto. Qed.
#[local] Hint Resolve keeps_apply keeps_allocate : keeps.
#[local] Hint Extern 1 (no_files _) => split; reflexivity : keeps.

Lemma keeps_rotate largest : keeps same_version (rotate_memtable options largest).
Proof. unfold rotate_memtable. keeps_auto. Qed.

Lemma keeps_persist : keeps same_version persist_wal_state.
Proof. unfold persist_wal_state. keeps_auto. Qed.

Lemma keeps_sync_owned : keeps same_version sync_owned_wals.
Proof. unfold sync_owned_wals. keeps_auto. Qed.

#[local] Hint Resolve keeps_rotate keeps_persist keeps_sync_owned : keeps.

Lemma keeps_commit batch sequence : keeps same_version (commit_batch options batch sequence).
Proof. unfold commit_batch. keeps_auto. Qed.

Lemma keeps_rotate_if_full sequence : keeps same_version (rotate_if_full options sequence).
Proof. unfold rotate_if_full. keeps_auto. Qed.

Lemma keeps_sync : keeps same_version Engine_sync.
Proof. unfold Engine_sync. keeps_auto. Qed.

Lemma keeps_close : keeps same_version Engine_close.
Proof.
  unfold Engine_close. keeps_auto.
  intros st s _. cbn. pose proof (record_terminal_versions e st) as H. destruct (record_terminal_failure e st) as [e' st'].
  cbn in *. unfold current. cbn. by rewrite H.
Qed.

Lemma keeps_flush_rotate : keeps same_version (flush_rotate options).
Proof. unfold flush_rotate. keeps_auto. Qed.

Lemma keeps_flush_begin : keeps same_version flush_begin.
Proof. unfold flush_begin. keeps_auto. Qed.

Lemma keeps_retire : keeps same_version retire_obsolete_wals.
Proof.
  assert (∀ numbers, keeps same_version (remove_wals numbers)) as Hr; [|unfold retire_obsolete_wals; keeps_auto].
  induction numbers; cbn [remove_wals]; keeps_auto.
Qed.
End Versions.

(** ** The engine around the write state *)

(** The version, the readers and the snapshots. *)
Record same_frame (en en' : Engine) : Prop := {
  sf_version : same_version (en_state en) (en_state en');
  sf_readers : en_readers en' = en_readers en;
  sf_snapshots : en_snapshots en' = en_snapshots en
}.

#[export] Instance same_frame_preorder : PreOrder same_frame.
Proof.
  split; [by intros en; split|]. intros a b c [] []. split; [by etransitivity|congruence..].
Qed.

Lemma keeps_on_state {A} (m : SFS WriteState A) : keeps same_version m → keeps same_frame (on_state m).
Proof.
  intros H en s. specialize (H (en_state en) s). unfold on_state. by destruct (m (en_state en) s) as [[r st] s'].
Qed.

Lemma keeps_write `{C : Crc32c} options prepare : keeps same_frame (write_serialized options prepare).
Proof.
  unfold write_serialized. keeps_auto; [apply keeps_on_state, keeps_commit| |apply keeps_on_state, keeps_rotate_if_full].
  by apply keeps_update.
Qed.

(** ** A compaction's plan while tables are flushed *)

(** The version has one more table, the newest of level 0. *)
Definition flushed_onto (number : Z) (v v' : Version) : Prop :=
  ∃ f, fm_number f = number ∧ (∀ x, x ∈ level_files v' 0 ↔ x = f ∨ x ∈ level_files v 0) ∧
    ∀ level, level ≠ 0 → level_files v' level = level_files v level.

Lemma plan_safe_flushed number v v' p :
  plan_safe v p → flushed_onto number v v' → (∀ f, f ∈ concat v → fm_number f < number) → plan_safe v' p.
Proof.
  intros [] (f & Hn & H0 & Hl) Hold.
  assert (∀ x l, x ∈ level_files v l → x ∈ level_files v' l) as Hsub.
  { intros x l Hx. destruct (decide (l = 0)) as [->|Hne]; [apply H0; by right|by rewrite Hl]. }
  split; [done|done|auto|auto|done| |].
  - intros a g u Ha Hg Hout Hca Hcg. destruct (decide (pl_input_level p = 0)) as [E|Hne]; [|rewrite Hl in Hg by done; eauto].
    rewrite E in Hg. apply H0 in Hg as [->|Hg]; [|rewrite <- E in Hg; eauto]. split; [done|]. rewrite Hn. apply Hold.
    eapply concat_level_elem. by apply ps_inputs.
  - intros a g u Ha Hg. rewrite Hl in Hg by lia. eauto.
Qed.

Definition version_grown (number : Z) (st st' : WriteState) : Prop :=
  version_wf (current st) → current st' = current st ∨
    flushed_onto number (current st) (current st') ∧ version_wf (current st').

Lemma same_grown number a b : same_version a b → version_grown number a b.
Proof. intros H Hv. left. auto. Qed.

Lemma grown_after number a b c : same_version a b → version_grown number b c → version_grown number a c.
Proof. intros H1 H2 Hv. specialize (H1 Hv). unfold version_grown in H2. rewrite H1 in H2. auto. Qed.

Lemma grown_before number a b c : version_grown number a b → same_version b c → version_grown number a c.
Proof.
  intros H1 H2 Hv. destruct (H1 Hv) as [H|[H Hb]]; unfold same_version in H2.
  - rewrite H in H2. left. auto.
  - rewrite H2 by done. auto.
Qed.

Lemma flushed_onto_apply v v' f edit :
  version_wf v → meta_wf f → ve_added_files edit = [(0, f)] → ve_deleted_files edit = [] →
  Version_apply v edit = Ok v' → version_wf v' ∧ flushed_onto (fm_number f) v v'.
Proof.
  intros Hv Hf Ha Hd H.
  destruct (version_apply_spec v edit v' Hv) as [Hv' Hm]; [unfold edit_files_wf; rewrite Ha; constructor; [done|constructor]|done|].
  split; [done|]. exists f. split; [done|]. rewrite Ha, Hd in Hm. split.
  - intros x. rewrite (Hm 0 x), list_elem_of_singleton, elem_of_nil. split; [intros [[? _]|[= ->]]; auto|intros [->|?]; auto].
  - intros level Hne. destruct (decide (level < 0)) as [Hlt|Hge].
    { unfold level_files. by rewrite (proj2 (Z.ltb_lt _ _)). }
    apply level_ext; [done..|lia|]. intros x. rewrite (Hm level x), list_elem_of_singleton, elem_of_nil. split; [|auto].
    intros [[? _]|[= -> _]]; [done|lia].
Qed.

Section Flush.
  Context `{C : Crc32c} `{SN : Snappy}.

Lemma apply_grown edit f :
  meta_wf f → ve_added_files edit = [(0, f)] → ve_deleted_files edit = [] →
  keeps (version_grown (fm_number f)) (versions_apply edit).
Proof.
  intros Hf Ha Hd st s Hv. unfold versions_apply, versions_apply_with_visibility, current.
  pose proof (apply_current (es_versions st) edit s) as H.
  destruct (apply_with_visibility _ _ _) as [[o vs'] s']. destruct H as [H|[-> H]]; [left; by destruct o|right].
  cbn. destruct (flushed_onto_apply _ _ _ _ Hv Hf Ha Hd H). auto.
Qed.

(** A flush leaves the version, or adds its table. *)
Lemma flush_finish_grown imm built number :
  (∀ r f, built = Ok r → FileMeta_new (tr_file_number r) (tr_file_size r) (tr_smallest r) (tr_largest r) = Ok f →
    meta_wf f ∧ fm_number f = number) →
  keeps (version_grown number) (flush_finish imm built).
Proof.
  intros Hmeta. unfold flush_finish. eapply (keeps_before _ same_version); [apply grown_before| |intros _; keeps_auto].
  eapply (keeps_try_before _ same_version); [apply grown_before| |intros e].
  2: { apply keeps_field. intros st. by rewrite record_background_versions. }
  destruct built as [r|e]; [change (keeps (version_grown number) (flush_publish imm r))|intros st s Hv; by left].
  unfold flush_publish.
  eapply (keeps_after _ same_version); [apply grown_after|apply same_grown|keeps_auto|]. intros st.
  destruct (FileMeta_new _ _ _ _) as [f|e] eqn:E; [|intros st' s Hv; by left].
  destruct (Hmeta r f eq_refl E) as [Hf <-].
  apply (keeps_before _ same_version (versions_apply _)); [apply grown_before|by apply apply_grown|].
  intros _. keeps_auto. apply keeps_retire.
Qed.
End Flush.
