(* ===== verification/EngineWorld.v ===== *)
(** * An engine in use

    An engine, its directory and the activities around it that are split into several
    critical sections: the flush worker between taking a memtable and publishing its
    table, a compaction between the choice of its plan and its execution, point reads
    and scans that hold an older version, and the snapshots a client has.  The
    operations are those of the engine; each takes effect under the lock, or is one of
    the parts that run without it.  Calls of [compact] do not overlap each other; all
    else interleaves freely.  The history of acknowledged batches is kept beside the
    engine and no operation looks at it. *)

From Stdlib Require Import ZArith Lia Sorting.Sorted.
From stdpp Require Import base list gmap strings.
From S2P Require Import Prelude Fs StateFs Checksum InternalKey Batch ValueRecord Snapshot Mvcc MemTable Iter.
From S2P Require Import Version Wal Options ManifestCodec Manifest WalFs Block TableBuilder TableReader.
From S2P Require Import TableStore Compaction CompactionRun Engine EngineOps EngineOpen EngineHistory EngineLogs EngineInv.

Local Open Scope Z_scope.

(** A point read behind the lock, with the history it started from. *)
Record PointRead : Type := {
  pr_reader : Reader;
  pr_key : bytes;
  pr_time : Z;
  pr_history : history
}.

Record World : Type := {
  w_engine : Engine;
  w_fs : FaultState;
  w_flush : option Flush;
  w_plan : option CompactionPlan;
  w_reads : list PointRead;
  w_scans : list Reader;
  w_snapshots : list Z;
  w_clock : Z;
  w_history : history;
  w_durable : history
}.

Definition w_state (w : World) : WriteState := en_state (w_engine w).
Definition w_image (w : World) : CrashImage := fs_image (w_fs w).

(** The sequences that guards protect. *)
Definition w_guards (w : World) : list Z :=
  w_snapshots w ++ map (λ j, rd_sequence (pr_reader j)) (w_reads w) ++ map rd_sequence (w_scans w).

Definition w_ran (en : Engine) (s : FaultState) (w : World) : World :=
  {| w_engine := en; w_fs := s; w_flush := w_flush w; w_plan := w_plan w; w_reads := w_reads w; w_scans := w_scans w;
     w_snapshots := w_snapshots w; w_clock := w_clock w; w_history := w_history w; w_durable := w_durable w |}.
Definition w_with_flush (x : option Flush) (w : World) : World :=
  {| w_engine := w_engine w; w_fs := w_fs w; w_flush := x; w_plan := w_plan w; w_reads := w_reads w;
     w_scans := w_scans w; w_snapshots := w_snapshots w; w_clock := w_clock w; w_history := w_history w; w_durable := w_durable w |}.
Definition w_with_plan (x : option CompactionPlan) (w : World) : World :=
  {| w_engine := w_engine w; w_fs := w_fs w; w_flush := w_flush w; w_plan := x; w_reads := w_reads w;
     w_scans := w_scans w; w_snapshots := w_snapshots w; w_clock := w_clock w; w_history := w_history w; w_durable := w_durable w |}.
Definition w_with_reads (x : list PointRead) (w : World) : World :=
  {| w_engine := w_engine w; w_fs := w_fs w; w_flush := w_flush w; w_plan := w_plan w; w_reads := x;
     w_scans := w_scans w; w_snapshots := w_snapshots w; w_clock := w_clock w; w_history := w_history w; w_durable := w_durable w |}.
Definition w_with_scans (x : list Reader) (w : World) : World :=
  {| w_engine := w_engine w; w_fs := w_fs w; w_flush := w_flush w; w_plan := w_plan w; w_reads := w_reads w;
     w_scans := x; w_snapshots := w_snapshots w; w_clock := w_clock w; w_history := w_history w; w_durable := w_durable w |}.
Definition w_with_snapshots (x : list Z) (w : World) : World :=
  {| w_engine := w_engine w; w_fs := w_fs w; w_flush := w_flush w; w_plan := w_plan w; w_reads := w_reads w;
     w_scans := w_scans w; w_snapshots := x; w_clock := w_clock w; w_history := w_history w; w_durable := w_durable w |}.
Definition w_with_clock (x : Z) (w : World) : World :=
  {| w_engine := w_engine w; w_fs := w_fs w; w_flush := w_flush w; w_plan := w_plan w; w_reads := w_reads w;
     w_scans := w_scans w; w_snapshots := w_snapshots w; w_clock := x; w_history := w_history w; w_durable := w_durable w |}.
Definition w_with_history (x : history) (w : World) : World :=
  {| w_engine := w_engine w; w_fs := w_fs w; w_flush := w_flush w; w_plan := w_plan w; w_reads := w_reads w;
     w_scans := w_scans w; w_snapshots := w_snapshots w; w_clock := w_clock w; w_history := x; w_durable := w_durable w |}.
Definition w_with_durable (x : history) (w : World) : World :=
  {| w_engine := w_engine w; w_fs := w_fs w; w_flush := w_flush w; w_plan := w_plan w; w_reads := w_reads w;
     w_scans := w_scans w; w_snapshots := w_snapshots w; w_clock := w_clock w; w_history := w_history w; w_durable := x |}.

Section World.
  Context `{C : Crc32c} `{SN : Snappy} (options : Options).

(** ** A point read in two parts *)

(** Under the lock: the value when a memtable has it, or else a reader whose guard
    and lease are held. *)
Definition get_begin (key : bytes) (read_time_unix_ms : Z) : SFS Engine (option bytes + Reader) :=
  let* en := c_get in
  let* _ := c_lift (ensure_readable (en_state en)) in
  let* _ := c_lift (validate_length "key" (zlen key) "max_key_bytes" (op_max_key_bytes options)) in
  let sequence := en_committed_sequence en in
  let* _ := acquire_snapshot sequence in
  let* r := c_try (get_locked key sequence read_time_unix_ms)
    (λ e, let* _ := drop_snapshot sequence in c_lift (Err e)) in
  match r with
  | inl value => let* _ := drop_snapshot sequence in c_ret (inl value)
  | inr reader => c_ret (inr reader)
  end.

(** Without the lock: the tables of the reader's version. *)
Definition get_finish (reader : Reader) (key : bytes) (read_time_unix_ms : Z) : SFS Engine (option bytes) :=
  c_finally (c_finally (c_fs (get_from_version options (av_version (rd_version reader)) key (rd_sequence reader)
      read_time_unix_ms)) (drop_reader reader))
    (drop_snapshot (rd_sequence reader)).

Lemma get_locked_sequence key q now en s :
  match get_locked key q now en s with ((Ok (inr reader), _), _) => rd_sequence reader = q | _ => True end.
Proof.
  unfold get_locked, c_bind, c_get, c_lift, c_fs, fs_lift. by destruct (get_from_memory _ _ _) as [[r|]|].
Qed.

(** The parts are the whole. *)
Lemma get_in_parts key now en s :
  Engine_get options key now en s =
    (let* r := get_begin key now in
     match r with inl value => c_ret value | inr reader => get_finish reader key now end) en s.
Proof.
  unfold Engine_get, get_begin. rewrite !c_bind_assoc. apply c_bind_ext. intros a en1 s1.
  clear en s. rewrite !c_bind_assoc. apply c_bind_ext. clear. intros _ en s. rewrite !c_bind_assoc. apply c_bind_ext.
  clear. intros _ en s. rewrite !c_bind_assoc. apply c_bind_ext. clear. intros _ en s.
  unfold c_finally, get_from_state, c_bind, c_try.
  pose proof (get_locked_sequence key (en_committed_sequence a) now en s) as Hq.
  destruct (get_locked _ _ _ _ _) as [[[[v|r]|e] en'] s']; [done| |done]. unfold c_ret at 2.
  by rewrite <- Hq.
Qed.

(** ** The operations *)

Inductive Op : Type :=
| Tick (now_unix_ms : Z)
| Write (batch : WriteBatch)
| PutWithTtl (key value : bytes) (ttl_ms : Z)
| SyncWals
| CloseEngine
| FlushRotate
| FlushBegin
| FlushBuild
| FlushFinish
| CompactPick
| CompactExecute
| TakeSnapshot
| DropSnapshot (sequence : Z)
| GetBegin (key : bytes)
| GetFinish (job : nat)
| ScanBegin (snapshot : option Z) (bounds : ScanBounds) (limit : Z)
| ScanEnd (job : nat).

Definition apply_write (prepare : result WriteBatch) (w : World) : World :=
  let '((r, en), s) := write_serialized options prepare (w_engine w) (w_fs w) in
  let h := match r, prepare with
           | Ok _, Ok batch => w_history w ++ [(es_next_sequence (w_state w), batch)]
           | _, _ => w_history w
           end in
  w_with_history h (w_ran en s w).

Definition apply_unit (m : SFS WriteState unit) (w : World) : World :=
  let '((_, en), s) := on_state m (w_engine w) (w_fs w) in w_ran en s w.

(** A success makes what is there durable, unless the engine was closed before. *)
Definition apply_sync (m : SFS WriteState unit) (w : World) : World :=
  let '((r, en), s) := on_state m (w_engine w) (w_fs w) in
  w_with_durable (if is_ok r && negb (es_closed (w_state w)) then w_history w else w_durable w) (w_ran en s w).

Definition apply_flush_begin (w : World) : World :=
  match w_flush w with
  | Some _ => w
  | None =>
    let '((r, en), s) := on_state flush_begin (w_engine w) (w_fs w) in
    let job := match r with
               | Ok (Some (immutable, number)) =>
                 Some {| fl_immutable := immutable; fl_number := number; fl_built := None |}
               | _ => None
               end in
    w_with_flush job (w_ran en s w)
  end.

Definition apply_flush_build (w : World) : World :=
  match w_flush w with
  | Some {| fl_immutable := immutable; fl_number := number; fl_built := None |} =>
    let '(built, s) := flush_build options immutable number (w_fs w) in
    w_with_flush (Some {| fl_immutable := immutable; fl_number := number; fl_built := Some built |})
      (w_ran (w_engine w) s w)
  | _ => w
  end.

Definition apply_flush_finish (w : World) : World :=
  match w_flush w with
  | Some {| fl_immutable := immutable; fl_built := Some built |} =>
    w_with_flush None (apply_unit (flush_finish immutable built) w)
  | _ => w
  end.

Definition apply_compact_pick (w : World) : World :=
  match w_plan w with
  | Some _ => w
  | None =>
    let '((r, en), s) := compact_pick options (w_engine w) (w_fs w) in
    w_with_plan (match r with Ok plan => plan | Err _ => None end) (w_ran en s w)
  end.

Definition apply_compact_execute (w : World) : World :=
  match w_plan w with
  | None => w
  | Some plan =>
    let '((_, en), s) := execute_compaction_plan options plan (w_clock w) (w_engine w) (w_fs w) in
    w_with_plan None (w_ran en s w)
  end.

Definition apply_snapshot (w : World) : World :=
  match Engine_snapshot (w_engine w) (w_fs w) with
  | ((Ok sequence, en), s) => w_with_snapshots (sequence :: w_snapshots w) (w_ran en s w)
  | ((Err _, en), s) => w_ran en s w
  end.

Definition apply_drop_snapshot (sequence : Z) (w : World) : World :=
  if bool_decide (sequence ∈ w_snapshots w) then
    let '((_, en), s) := drop_snapshot sequence (w_engine w) (w_fs w) in
    w_with_snapshots (remove_one sequence (w_snapshots w)) (w_ran en s w)
  else w.

Definition apply_get_begin (key : bytes) (w : World) : World :=
  let '((r, en), s) := get_begin key (w_clock w) (w_engine w) (w_fs w) in
  match r with
  | Ok (inr reader) =>
    w_with_reads ({| pr_reader := reader; pr_key := key; pr_time := w_clock w; pr_history := w_history w |}
                    :: w_reads w) (w_ran en s w)
  | _ => w_ran en s w
  end.

Definition apply_get_finish (job : nat) (w : World) : World :=
  match w_reads w !! job with
  | None => w
  | Some j =>
    let '((_, en), s) := get_finish (pr_reader j) (pr_key j) (pr_time j) (w_engine w) (w_fs w) in
    w_with_reads (delete job (w_reads w)) (w_ran en s w)
  end.

(** A scan of the engine, or of one of the client's snapshots. *)
Definition apply_scan_begin (snapshot : option Z) (bounds : ScanBounds) (limit : Z) (w : World) : World :=
  if match snapshot with Some q => bool_decide (q ∈ w_snapshots w) | None => true end then
    let scan := match snapshot with
                | Some q => scan_at options bounds limit q (w_clock w)
                | None => scan_current options bounds limit (w_clock w)
                end in
    let '((r, en), s) := scan (w_engine w) (w_fs w) in
    match r with
    | Ok (_, Some reader) => w_with_scans (reader :: w_scans w) (w_ran en s w)
    | _ => w_ran en s w
    end
  else w.

(** The iterator is dropped: its lease and its guard. *)
Definition apply_scan_end (job : nat) (w : World) : World :=
  match w_scans w !! job with
  | None => w
  | Some reader =>
    let '((_, en), s) := (let* _ := drop_reader reader in drop_snapshot (rd_sequence reader)) (w_engine w) (w_fs w) in
    w_with_scans (delete job (w_scans w)) (w_ran en s w)
  end.

Definition apply_op (op : Op) (w : World) : World :=
  match op with
  | Tick now => if (w_clock w <=? now) && (now <=? U64_MAX) then w_with_clock now w else w
  | Write batch => apply_write (Ok batch) w
  | PutWithTtl key value ttl_ms => apply_write (ttl_batch key value ttl_ms (w_clock w)) w
  | SyncWals => apply_sync Engine_sync w
  | CloseEngine => apply_sync Engine_close w
  | FlushRotate => apply_unit (flush_rotate options) w
  | FlushBegin => apply_flush_begin w
  | FlushBuild => apply_flush_build w
  | FlushFinish => apply_flush_finish w
  | CompactPick => apply_compact_pick w
  | CompactExecute => apply_compact_execute w
  | TakeSnapshot => apply_snapshot w
  | DropSnapshot sequence => apply_drop_snapshot sequence w
  | GetBegin key => apply_get_begin key w
  | GetFinish job => apply_get_finish job w
  | ScanBegin snapshot bounds limit => apply_scan_begin snapshot bounds limit w
  | ScanEnd job => apply_scan_end job w
  end.

Definition run_ops (ops : list Op) (w : World) : World := fold_left (λ w op, apply_op op w) ops w.

(** An engine that has just been opened. *)
Definition opened_world (en : Engine) (s : FaultState) (now : Z) (h : history) : World :=
  {| w_engine := en; w_fs := s; w_flush := None; w_plan := None; w_reads := []; w_scans := []; w_snapshots := [];
     w_clock := now; w_history := h; w_durable := h |}.
End World.
