(* ===== verification/EngineReaders.v ===== *)
(** * Readers and snapshots keep the invariant

    Guards are acquired and dropped, readers register the current version and go out of
    scope.  A reader's version stays as it was when it was registered, so a point read
    returns what the history said then, whatever happened in between. *)

From Stdlib Require Import ZArith Lia Sorting.Sorted.
From stdpp Require Import base list gmap strings sorting.
From S2P Require Import Prelude Fs StateFs Checksum InternalKey Batch ValueRecord Snapshot Mvcc MemTable Iter IterFacts.
From S2P Require Import Version Wal Options ManifestCodec Manifest ManifestSet ManifestBoot WalFs Block TableBuilder.
From S2P Require Import TableReader TableStore Compaction CompactionRun Engine EngineOps EngineOpen EngineRead EngineEdits.
From S2P Require Import EngineFrame EngineHistory EngineLogs EngineInv EngineWorld.

Local Open Scope Z_scope.

(** ** Guards *)

Lemma occurrences_perm s l l' : l ≡ₚ l' → occurrences s l = occurrences s l'.
Proof. induction 1; cbn; lia. Qed.

Lemma registry_rep_perm l l' active : l ≡ₚ l' → registry_rep l active → registry_rep l' active.
Proof. intros Hp [Hs Hg]. split; [done|]. intros s. by rewrite Hg, (occurrences_perm s l l' Hp). Qed.

Lemma remove_one_perm s l : s ∈ l → l ≡ₚ s :: remove_one s l.
Proof.
  induction l as [|x l IH]; cbn; [by intros H%elem_of_nil|]. intros H. destruct (Z.eqb_spec x s) as [->|Hne]; [done|].
  apply elem_of_cons in H as [->|H]; [done|]. rewrite (IH H) at 1. constructor.
Qed.

Section Readers.
  Context `{C : Crc32c} {CR : Crc32cRange C} `{SN : Snappy} {SL : SnappyLaws SN} {AK : Acknowledged}.
  Context (options : Options).
  Abbreviation inv := (engine_inv options).
  Abbreviation limit := (engine_block_limit options).

(** Only what is said about guards, readers and the time has changed. *)
Lemma inv_guards h T clock clock' guards guards' fl en en' i :
  inv h T clock guards fl en i → clock ≤ clock' →
  en_committed_sequence en' = en_committed_sequence en →
  (∃ versions, en_state en' = with_reader_versions versions (en_state en)) →
  registry_rep guards' (en_snapshots en') →
  (∀ q, q ∈ guards' → q ∈ en_committed_sequence en :: guards) →
  readers_ok en' → (∀ r, r ∈ en_readers en' → r ∈ en_readers en ∨ rd_version r = current_version (en_state en)) →
  inv h T clock' guards' fl en' i.
Proof.
  intros [Hr Hm Hl Hn Hf (old & segs & Hlogs)] Hclock Hc [versions Hst] Hreg Hg Hro Hrd.
  split; [|by rewrite Hst|by rewrite Hst|rewrite Hst; by destruct Hn|by rewrite Hst|
    rewrite Hst; eapply logs_fields; [exists old, segs; by eapply log_state_clock|done..]].
  pose proof (rk_version _ _ _ _ _ _ _ Hr) as Hv.
  destruct Hr as [H1 H2 H3 H4 H5 _ H7 H8 H9 Hread _ Hguards _ Hheld].
  split; unfold layers, engine_layers, memory_tables in *; rewrite ?Hst, ?Hc; cbn; try done.
  - intros u q now Hq Hnow. apply Hread; [|lia]. apply elem_of_cons in Hq as [->|Hq]; [by left|by apply Hg].
  - apply Forall_forall. intros q Hq. apply Hg, elem_of_cons in Hq as [->|Hq]; [lia|]. by apply (elem_of_Forall _ _ _ Hguards).
  - intros r [Hin| ->]%Hrd; [by apply Hheld|done].
Qed.

Lemma inv_perm h T clock guards guards' fl en i :
  inv h T clock guards fl en i → guards ≡ₚ guards' → inv h T clock guards' fl en i.
Proof.
  intros Hinv Hp. pose proof (ei_reads _ _ _ _ _ _ _ _ Hinv) as Hr. eapply inv_guards; [exact Hinv|lia|done| | | |apply Hr|by left].
  - exists (es_reader_versions (en_state en)). by rewrite with_reader_versions_same.
  - eapply registry_rep_perm; [exact Hp|apply Hr].
  - intros q Hq. right. by rewrite Hp.
Qed.

Lemma inv_clock h T clock clock' guards fl en i :
  inv h T clock guards fl en i → clock ≤ clock' → inv h T clock' guards fl en i.
Proof.
  intros Hinv Hle. pose proof (ei_reads _ _ _ _ _ _ _ _ Hinv) as Hr.
  eapply inv_guards; [exact Hinv|done|done| |apply Hr|by right|apply Hr|by left].
  exists (es_reader_versions (en_state en)). by rewrite with_reader_versions_same.
Qed.

Lemma inv_acquired h T clock guards fl en i q active :
  inv h T clock guards fl en i → q ∈ en_committed_sequence en :: guards → acquire (en_snapshots en) q = Ok active →
  inv h T clock (q :: guards) fl (with_snapshots active en) i.
Proof.
  intros Hinv Hq Ha. pose proof (ei_reads _ _ _ _ _ _ _ _ Hinv) as Hr. eapply inv_guards; [exact Hinv|lia|done| | | | |by left].
  - exists (es_reader_versions (en_state en)). by rewrite with_reader_versions_same.
  - eapply acquire_rep; [apply Hr|done].
  - intros q' [->|Hin]%elem_of_cons; [done|by right].
  - by destruct (rk_readers _ _ _ _ _ _ _ Hr).
Qed.

Lemma inv_dropped h T clock guards fl en i q :
  inv h T clock (q :: guards) fl en i → inv h T clock guards fl (with_snapshots (drop_guard (en_snapshots en) q) en) i.
Proof.
  intros Hinv. pose proof (ei_reads _ _ _ _ _ _ _ _ Hinv) as Hr. eapply inv_guards; [exact Hinv|lia|done| | | | |by left].
  - exists (es_reader_versions (en_state en)). by rewrite with_reader_versions_same.
  - cbn. rewrite <- (remove_one_head q guards). apply drop_rep; [apply Hr|by left].
  - intros q' Hin. right. by right.
  - by destruct (rk_readers _ _ _ _ _ _ _ Hr).
Qed.

Lemma inv_registered h T clock guards fl en i versions reader :
  inv h T clock guards fl en i → rd_version reader = current_version (en_state en) →
  readers_ok (registered versions reader en) → inv h T clock guards fl (registered versions reader en) i.
Proof.
  intros Hinv Hv Hro. pose proof (ei_reads _ _ _ _ _ _ _ _ Hinv) as Hr.
  eapply inv_guards; [exact Hinv|lia|done|by exists versions|apply Hr|by right|done|].
  intros r [->|Hin]%elem_of_cons; [by right|by left].
Qed.

(** Exactly one reader has the lease. *)
Lemma dropped_readers r rest readers :
  NoDup (map rd_lease readers) → readers ≡ₚ r :: rest →
  List.filter (λ x, negb (rd_lease x =? rd_lease r)) readers ≡ₚ rest.
Proof.
  intros Hnd Hp. apply NoDup_Permutation.
  - apply NoDup_ListNoDup, List.NoDup_filter, NoDup_ListNoDup. by eapply NoDup_fmap_1.
  - assert (NoDup (r :: rest)) as [_ ?]%NoDup_cons; [|done]. rewrite <- Hp. by eapply NoDup_fmap_1.
  - rewrite Hp in Hnd. cbn in Hnd. apply NoDup_cons in Hnd as [Hout _]. intros x. rewrite elem_of_filter_b, negb_true_iff, Z.eqb_neq, Hp, elem_of_cons.
    split; [intros [Hne [->|?]]; done|]. intros Hx. split; [|by right]. intros Heq. apply Hout. rewrite <- Heq. by apply list_elem_of_fmap_2.
Qed.

Lemma inv_drop_reader h T clock guards fl en i r rest :
  inv h T clock guards fl en i → en_readers en ≡ₚ r :: rest →
  let en' := with_readers (List.filter (λ x, negb (rd_lease x =? rd_lease r)) (en_readers en)) (en_next_lease en) en in
  inv h T clock guards fl en' i ∧ en_readers en' ≡ₚ rest.
Proof.
  intros Hinv Hp en'. pose proof (ei_reads _ _ _ _ _ _ _ _ Hinv) as Hr. destruct (rk_readers _ _ _ _ _ _ _ Hr) as [Hnd Hold Hreg].
  split; [|by apply dropped_readers]. eapply inv_guards; [exact Hinv|lia|done| |apply Hr|by right| |].
  - exists (es_reader_versions (en_state en)). cbn. by rewrite with_reader_versions_same.
  - split; cbn.
    + rewrite (dropped_readers r rest _ Hnd Hp). rewrite Hp in Hnd. by apply NoDup_cons in Hnd as [_ Hnd].
    + apply Forall_forall. intros x [_ Hx]%elem_of_filter_b. by apply (elem_of_Forall _ _ _ Hold).
    + apply Forall_forall. intros x [_ Hx]%elem_of_filter_b. by apply (elem_of_Forall _ _ _ Hreg).
  - intros x [_ Hx]%elem_of_filter_b. by left.
Qed.

(** ** Point reads *)

(** The tables of the reader's version say [o]. *)
Definition pinned (T : Z → list entry) (key : bytes) (now : Z) (o : option bytes) (r : Reader) : Prop :=
  bytes_ok key ∧ seq_ok (rd_sequence r) ∧ covered key (rd_sequence r) (concat (contents T (av_version (rd_version r)))) ∧
  ∀ o', reads key (rd_sequence r) now (concat (contents T (av_version (rd_version r)))) o' → o' = o.

(** What changes when a reader starts. *)
Definition started (en en' : Engine) : Prop := ∃ versions, en_state en' = with_reader_versions versions (en_state en).

Lemma started_same en en' : en_state en' = en_state en → started en en'.
Proof. intros H. exists (es_reader_versions (en_state en)). by rewrite H, with_reader_versions_same. Qed.

Lemma acquire_swp h T clock guards fl en i q (Q : unit → Engine → CrashImage → Prop) E :
  inv h T clock guards fl en i → zlen guards < USIZE_MAX → q ∈ en_committed_sequence en :: guards →
  (∀ active, inv h T clock (q :: guards) fl (with_snapshots active en) i → Q tt (with_snapshots active en) i) →
  swp (acquire_snapshot q) en i Q E.
Proof.
  intros Hinv Hlen Hq HQ. pose proof (ei_reads _ _ _ _ _ _ _ _ Hinv) as Hr.
  destruct (acquire_ok guards (en_snapshots en) q) as [active Ha]; [apply Hr|done|].
  unfold acquire_snapshot. apply swp_bind, swp_get, swp_bind. eapply swp_lift_ok; [exact Ha|]. apply swp_update, HQ.
  by eapply inv_acquired.
Qed.

Lemma get_locked_swp h T clock guards fl en i u now (Q : option bytes + Reader → Engine → CrashImage → Prop) E :
  inv h T clock guards fl en i → bytes_ok u → clock ≤ now → let q := en_committed_sequence en in
  Q (inl (hist_value h u q now)) en i →
  (∀ versions, let reader := {| rd_version := current_version (en_state en); rd_lease := en_next_lease en; rd_sequence := q |} in
    inv h T clock guards fl (registered versions reader en) i → pinned T u now (hist_value h u q now) reader →
    Q (inr reader) (registered versions reader en) i) →
  swp (get_locked u q now) en i Q E.
Proof using CR SL.
  intros Hinv Hu Hnow q Hhit Hmiss. pose proof (ei_reads _ _ _ _ _ _ _ _ Hinv) as Hr.
  pose proof (rk_layered _ _ _ _ _ _ _ Hr u) as Hlu. unfold layers, engine_layers in Hlu.
  apply layered_app in Hlu as (Hl1 & Hl2 & Habove).
  pose proof (rk_reads _ _ _ _ _ _ _ Hr u q now ltac:(by left) Hnow) as Hread.
  unfold layers, engine_layers in Hread. rewrite concat_app in Hread.
  destruct (get_from_memory_spec (memory_tables (en_state en)) u q) as (o & Ho & Hget); [apply Hr|done|apply Hr|done|].
  pose proof (reads_unique _ _ _ _ _ _ _ Hr) as Huniq. unfold layers, engine_layers in Huniq. rewrite concat_app in Huniq.
  unfold get_locked. apply swp_bind, swp_get, swp_bind. eapply swp_lift_ok; [exact Hget|].
  destruct o as [e|]; cbn [fmap option_fmap option_map].
  - apply swp_ret. replace (record_into_value e.2 now) with (hist_value h u q now); [done|].
    eapply reads_functional; [exact Huniq|exact Hread|]. exists (Some e). split; [by apply is_newest_layer_hit|done].
  - apply swp_bind, swp_cwp. eapply register_wp; [apply Hr|]. intros versions reader Hok.
    intros s Hs Hf. cbn. split; [|done]. rewrite Hs. apply Hmiss; [by apply inv_registered|].
    split; [done|]. split; [apply Hr|]. cbn [rd_version rd_sequence av_version reader current_version]. split.
    + intros e He _. apply (rk_covered _ _ _ _ _ _ _ Hr). unfold layers, engine_layers. rewrite concat_app. apply elem_of_app. by right.
    + intros o' (x & Hx & ->). eapply reads_functional; [exact Huniq| |exact Hread]. exists x. split; [|done].
      by apply is_newest_layer_miss.
Qed.

(** The part of a point read under the lock. *)
Definition get_accepted (en : Engine) (key : bytes) : Prop :=
  ensure_readable (en_state en) = Ok tt ∧ zlen key ≤ op_max_key_bytes options.

Definition scan_accepted (en : Engine) (bounds : ScanBounds) : Prop :=
  ensure_readable (en_state en) = Ok tt ∧ validate_scan_bounds options bounds = Ok tt.

Lemma get_begin_inv h T clock guards fl en i u now :
  inv h T clock guards fl en i → zlen guards < USIZE_MAX → bytes_ok u → clock ≤ now →
  let q := en_committed_sequence en in
  swp (get_begin options u now) en i
    (λ r en' i', i' = i ∧ started en en' ∧
      match r with
      | inl o => o = hist_value h u q now ∧ inv h T clock guards fl en' i ∧ en_readers en' = en_readers en
      | inr reader => inv h T clock (q :: guards) fl en' i ∧ en_readers en' = reader :: en_readers en ∧
          rd_sequence reader = q ∧ pinned T u now (hist_value h u q now) reader
      end)
    (λ en' i', en' = en ∧ i' = i ∧ ¬ get_accepted en u).
Proof using CR SL.
  intros Hinv Hlen Hu Hnow q. unfold get_begin. apply swp_bind, swp_get, swp_bind, swp_refuse; [|intros [] _].
  { intros Hr. do 2 (split; [done|]). intros [Hok _]. by apply Hr in Hok. }
  apply swp_bind, swp_refuse; [|intros [] _].
  { intros Hr. do 2 (split; [done|]). intros [_ Hok]. apply (Hr tt). unfold validate_length. by rewrite (proj2 (Z.ltb_ge _ _)). }
  apply swp_bind. eapply acquire_swp; [done|done|by left|]. intros active Hinv1.
  apply swp_bind, swp_try.
  eapply (get_locked_swp _ _ _ _ _ (with_snapshots active en)); [exact Hinv1|done|done| |].
  - apply swp_bind, swp_update, swp_ret. split; [done|]. split; [by apply started_same|]. split; [done|].
    split; [|done]. by apply inv_dropped in Hinv1.
  - intros versions reader Hinv2 Hp. apply swp_ret. split; [done|]. split; [by exists versions|]. done.
Qed.

(** The part without it, however long it takes. *)
Lemma get_finish_inv h T clock guards fl en i u now o r rest :
  engine_block_limit options ≤ 2 ^ 62 →
  inv h T clock (rd_sequence r :: guards) fl en i → en_readers en ≡ₚ r :: rest → pinned T u now o r →
  swp (get_finish options r u now) en i
    (λ o' en' i', o' = o ∧ i' = i ∧ started en en' ∧ inv h T clock guards fl en' i ∧ en_readers en' ≡ₚ rest) (λ _ _, False).
Proof using CR SL.
  intros Hcap Hinv Hp (Hu & Hq & Hcov & Hpin). pose proof (ei_reads _ _ _ _ _ _ _ _ Hinv) as Hr.
  assert (version_ok options T i (es_next_file_number (en_state en)) (av_version (rd_version r))) as Hv.
  { apply Hr. rewrite Hp. by left. }
  unfold get_finish. apply swp_cwp, c_finally_wp, c_finally_wp, cwp_fs.
  eapply get_from_version_wp; [exact Hcap|apply Hv|by apply (version_holds_contents options T i _ _ Hv)|done|done|done|apply Hv|].
  intros o' Ho'. apply Hpin in Ho' as ->. destruct (inv_drop_reader _ _ _ _ _ _ _ _ _ Hinv Hp) as [Hinv' Hp'].
  apply cwp_update, cwp_update. apply inv_dropped in Hinv'. do 2 (split; [done|]). split; [by apply started_same|]. done.
Qed.

(** ** Scans *)

(** Collecting the iterator gives the pairs the history has in the bounds, in key
    order, up to the limit. *)
Definition scan_answers (h : history) (bounds : ScanBounds) (q now n : Z) (it : KvIterator) : Prop :=
  ∃ fuel pairs, kv_collect fuel it = Ok (map Ok (take (Z.to_nat n) pairs)) ∧
    StronglySorted (λ x y, lex_cmp x.1 y.1 = Lt) pairs ∧
    ∀ u v, (u, v) ∈ pairs ↔ user_key_in_bounds bounds u = true ∧ hist_value h u q now = Some v.

Lemma yields_answers h T clock guards fl en i bounds q now n it :
  inv h T clock guards fl en i → q ∈ en_committed_sequence en :: guards → clock ≤ now →
  scan_yields bounds q now n (concat (layers T (en_state en))) it → scan_answers h bounds q now n it.
Proof.
  intros Hinv Hq Hnow (fuel & pairs & Hc & Hs & Hp). exists fuel, pairs. do 2 (split; [done|]). intros u v. rewrite Hp.
  pose proof (ei_reads _ _ _ _ _ _ _ _ Hinv) as Hr. pose proof (rk_reads _ _ _ _ _ _ _ Hr u q now Hq Hnow) as Hread.
  unfold live_pair. apply and_iff_compat_l. split.
  - intros (e & He & Hv). eapply reads_functional; [by eapply reads_unique|exact Hread|]. exists (Some e). by cbn.
  - intros Hv. destruct Hread as ([e|] & He & Heq); [|by rewrite Hv in Heq]. exists e. split; [done|]. by rewrite <- Hv, Heq.
Qed.

Lemma empty_answers h T clock guards fl en i bounds q now :
  inv h T clock guards fl en i → q ∈ en_committed_sequence en :: guards → clock ≤ now →
  ∃ it, KvIterator_empty bounds q now = Ok it ∧ scan_answers h bounds q now 0 it.
Proof using CR SL.
  intros Hinv Hq Hnow. pose proof (ei_reads _ _ _ _ _ _ _ _ Hinv) as Hr.
  assert (∀ es, es ∈ contents T (vs_current (es_versions (en_state en))) → table_entries limit es) as Ht.
  { intros es (f & -> & Hf)%list_elem_of_fmap. destruct (vk_tables _ _ _ _ _ (rk_version _ _ _ _ _ _ _ Hr) f Hf) as (file & _ & _ & Ht & _).
    done. }
  destruct (scan_layers bounds q now 0 (memory_tables (en_state en)) (contents T (vs_current (es_versions (en_state en))))
    (contents T (vs_current (es_versions (en_state en))))) as (it & _ & Hy); [apply Hr|by eapply reads_unique|done| | |done|done|].
  - apply Forall_forall. intros es Hes. apply (Ht es Hes).
  - apply Forall_forall. intros es Hes. apply sorted_of_strict, (Ht es Hes).
  - eexists. split; [reflexivity|]. apply yields_answers with (1 := Hinv) in Hy as (fuel & pairs & _ & Hs & Hp); [|done..].
    by exists 1%nat, pairs.
Qed.

Lemma scan_at_inv h T clock guards fl en i bounds n q now :
  engine_block_limit options ≤ 2 ^ 62 →
  inv h T clock guards fl en i → zlen guards < USIZE_MAX → q ∈ en_committed_sequence en :: guards → clock ≤ now → 0 ≤ n →
  swp (scan_at options bounds n q now) en i
    (λ r en' i', i' = i ∧ started en en' ∧ scan_answers h bounds q now n r.1 ∧
      match r.2 with
      | None => en' = en
      | Some reader => inv h T clock (q :: guards) fl en' i ∧ en_readers en' = reader :: en_readers en ∧ rd_sequence reader = q
      end)
    (λ en' i', en' = en ∧ i' = i ∧ ¬ scan_accepted en bounds).
Proof using CR SL.
  intros Hcap Hinv Hlen Hq Hnow Hn. unfold scan_at. apply swp_bind, swp_get, swp_bind, swp_refuse; [|intros [] _].
  { intros Hr. do 2 (split; [done|]). intros [Hok _]. unfold ensure_readable in Hok.
    destruct (ensure_no_background_failure _) as [[]|]; [by destruct (Hr tt)|done]. }
  apply swp_bind, swp_refuse; [|intros [] _].
  { intros Hr. do 2 (split; [done|]). intros [_ Hok]. by apply Hr in Hok. }
  destruct (Z.eqb_spec n 0) as [->|Hne].
  { destruct (empty_answers _ _ _ _ _ _ _ bounds q now Hinv Hq Hnow) as (it & Hit & Ha).
    apply swp_bind. eapply swp_lift_ok; [exact Hit|]. apply swp_ret. do 2 (split; [by try apply started_same|]). done. }
  apply swp_bind, swp_refuse; [|intros [] _].
  { intros Hr. do 2 (split; [done|]). intros [Hok _]. unfold ensure_readable in Hok.
    destruct (ensure_no_background_failure _) as [[]|]; [by apply Hr in Hok|done]. }
  apply swp_bind. eapply acquire_swp; [done..|]. intros active Hinv1.
  apply swp_bind, swp_try, swp_cwp. pose proof (ei_reads _ _ _ _ _ _ _ _ Hinv1) as Hr1.
  eapply scan_from_state_wp; [exact Hcap|by eapply reads_ok_readable|apply Hr1|done|by eapply reads_unique|].
  intros it versions reader Hy Hok. apply swp_ret. split; [done|]. split; [by exists versions|].
  split; [|split; [by apply inv_registered|done]].
  eapply (yields_answers _ _ _ _ _ (with_snapshots active en)); [exact Hinv1| |done|exact Hy]. right. by left.
Qed.
End Readers.
