(* ===== verification/EngineRefine.v ===== *)
(** * The engine implements its history

    Whatever operations run on an open engine, in whatever order the critical sections
    of writers, readers, the flush worker and a compaction take turns, the engine holds
    the history of the batches it acknowledged. *)

From Stdlib Require Import ZArith Lia Sorting.Sorted.
From stdpp Require Import base list gmap strings sorting.
From S2P Require Import Prelude Fs StateFs Checksum InternalKey Batch ValueRecord Snapshot Mvcc MemTable Iter IterFacts.
From S2P Require Import Version Wal Options ManifestCodec Manifest ManifestSet ManifestBoot WalFs Block TableBuilder.
From S2P Require Import TableReader TableStore Compaction CompactionRun Engine EngineOps EngineOpen EngineRead EngineEdits.
From S2P Require Import EngineFrame EngineHistory EngineLogs EngineInv EngineCompact EngineWrite EngineFlush EngineReclaim EngineMaintain EngineKeep.
From S2P Require Import EngineWorld EngineReaders.

Local Open Scope Z_scope.

Section Refine.
  Context `{C : Crc32c} {CR : Crc32cRange C} `{SN : Snappy} {SL : SnappyLaws SN}.
  Context (options : Options) (Ho : options_ok options).
  Abbreviation inv d := (engine_inv (AK := d) options).

(** ** What every operation preserves *)

(** What the history said when a point read started. *)
Definition expected (j : PointRead) : option bytes :=
  hist_value (pr_history j) (pr_key j) (rd_sequence (pr_reader j)) (pr_time j).

Definition read_ok (T : Z → list entry) (j : PointRead) : Prop :=
  pinned T (pr_key j) (pr_time j) (expected j) (pr_reader j).

Record world_ok (T : Z → list entry) (w : World) : Prop := {
  wk_inv : inv (w_durable w) (w_history w) T (w_clock w) (w_guards w) (w_flush w) (w_engine w) (w_image w);
  wk_faultless : fs_fail_at (w_fs w) = None;
  wk_clock : 0 ≤ w_clock w ≤ U64_MAX;
  wk_readers : en_readers (w_engine w) ≡ₚ map pr_reader (w_reads w) ++ w_scans w;
  wk_reads : Forall (read_ok T) (w_reads w);
  wk_plan : ∀ p, w_plan w = Some p → plan_safe (current (w_state w)) p
}.

(** The sizes the code has room for. *)
Definition op_fits (op : Op) (w : World) : Prop :=
  zlen (w_guards w) < USIZE_MAX ∧ manifest_small (es_versions (w_state w)) (w_image w) ∧
  match op with
  | Write batch => batch_wf batch
  | PutWithTtl key value _ => bytes_ok key ∧ bytes_ok value
  | FlushBuild => ∀ fl, w_flush w = Some fl → 16 * entries_cost (mt_entries (im_table (fl_immutable fl))) ≤ U32_MAX
  | CompactPick => levels_fit (current (w_state w))
  | CompactExecute => ∀ p, w_plan w = Some p → plan_small options (es_next_file_number (w_state w)) (w_image w) p
  | GetBegin key => bytes_ok key
  | ScanBegin _ _ limit => 0 ≤ limit
  | _ => True
  end.

Fixpoint ops_fit (ops : list Op) (w : World) : Prop :=
  match ops with
  | [] => True
  | op :: ops => op_fits op w ∧ ops_fit ops (apply_op options op w)
  end.

(** ** Steps *)

Lemma pinned_agree T T' next key now o r :
  agree_below next T T' → (∀ f, f ∈ concat (av_version (rd_version r)) → fm_number f < next) →
  pinned T key now o r → pinned T' key now o r.
Proof. intros Ha Hn H. unfold pinned. by rewrite (contents_agree T T' next). Qed.

(** The reads in flight are as they were. *)
Lemma world_step T T' w w' :
  world_ok T w → agree_below (es_next_file_number (w_state w)) T T' →
  w_reads w' = w_reads w → w_scans w' = w_scans w → en_readers (w_engine w') ≡ₚ en_readers (w_engine w) →
  inv (w_durable w') (w_history w') T' (w_clock w') (w_guards w') (w_flush w') (w_engine w') (w_image w') →
  fs_fail_at (w_fs w') = None → 0 ≤ w_clock w' ≤ U64_MAX → (∀ p, w_plan w' = Some p → plan_safe (current (w_state w')) p) →
  world_ok T' w'.
Proof.
  intros [Hinv Hf Hc Hrd Hj Hp] Ha Hr Hs Hen Hinv' Hf' Hc' Hp'. split; [done|done|done| | |done].
  - by rewrite Hen, Hr, Hs.
  - rewrite Hr. apply Forall_forall. intros j Hin. eapply pinned_agree; [exact Ha| |by apply (elem_of_Forall _ _ _ Hj)].
    eapply (rk_held _ _ _ _ _ _ _ (ei_reads _ _ _ _ _ _ _ _ Hinv)). rewrite Hrd. apply elem_of_app. left.
    by apply list_elem_of_fmap_2.
Qed.

Lemma agree_refl next T : agree_below next T T.
Proof. by intros n _. Qed.

Lemma world_wf T w : world_ok T w → version_wf (current (w_state w)).
Proof. intros Hw. eapply vk_wf, rk_version, (ei_reads _ _ _ _ _ _ _ _ (wk_inv _ _ Hw)). Qed.

(** An operation that keeps the version. *)
Lemma plan_kept T w st' :
  world_ok T w → same_version (w_state w) st' → ∀ p, w_plan w = Some p → plan_safe (current st') p.
Proof. intros Hw Hs p Hp. rewrite (Hs (world_wf _ _ Hw)). by apply (wk_plan _ _ Hw). Qed.

(** What [swp] says about a run. *)
Lemma swp_run {A} (m : SFS Engine A) w (Q : A → Engine → CrashImage → Prop) E r en s :
  swp m (w_engine w) (w_image w) Q E → fs_fail_at (w_fs w) = None → m (w_engine w) (w_fs w) = ((r, en), s) →
  fs_fail_at s = None ∧ match r with Ok a => Q a en (fs_image s) | Err _ => E en (fs_image s) end.
Proof. intros H Hf Heq. specialize (H (w_fs w) eq_refl Hf). rewrite Heq in H. destruct r; by destruct H. Qed.

Lemma swp_on_run {A} (m : SFS WriteState A) w (Q : A → WriteState → CrashImage → Prop) E r en s :
  swp m (w_state w) (w_image w) Q E → fs_fail_at (w_fs w) = None → on_state m (w_engine w) (w_fs w) = ((r, en), s) →
  ∃ st, en = with_state st (w_engine w) ∧ m (w_state w) (w_fs w) = ((r, st), s) ∧ fs_fail_at s = None ∧
    match r with Ok a => Q a st (fs_image s) | Err _ => E st (fs_image s) end.
Proof.
  intros H Hf Heq. specialize (H (w_fs w) eq_refl Hf). unfold on_state in Heq. fold (w_state w) in Heq.
  destruct (m (w_state w) (w_fs w)) as [[r' st'] s']. injection Heq as <- <- <-. exists st'. destruct r'; by destruct H.
Qed.

Lemma apply_unit_ok m T w :
  world_ok T w → keeps same_version m →
  (let P st' i' := inv (w_durable w) (w_history w) T (w_clock w) (w_guards w) (w_flush w) (with_state st' (w_engine w)) i' in
   swp m (w_state w) (w_image w) (λ _, P) P) →
  world_ok T (apply_unit m w).
Proof.
  intros Hw Hk Hm. unfold apply_unit. destruct (on_state m (w_engine w) (w_fs w)) as [[r en] s] eqn:E.
  eapply swp_on_run in E as (st & -> & E & Hf & HQ); [|exact Hm|apply Hw]. specialize (Hk (w_state w) (w_fs w)). rewrite E in Hk.
  eapply world_step; [exact Hw|apply agree_refl|done|done|done|by destruct r|done|apply Hw|].
  by apply plan_kept with (1 := Hw).
Qed.

Lemma apply_sync_ok m T w :
  world_ok T w → keeps same_version m →
  (let P d st' i' := inv d (w_history w) T (w_clock w) (w_guards w) (w_flush w) (with_state st' (w_engine w)) i' in
   swp m (w_state w) (w_image w)
     (λ _ st' i', (es_closed (w_state w) = false → P (w_history w) st' i') ∧ P (w_durable w) st' i') (P (w_durable w))) →
  world_ok T (apply_sync m w).
Proof.
  intros Hw Hk Hm. unfold apply_sync. destruct (on_state m (w_engine w) (w_fs w)) as [[r en] s] eqn:E.
  eapply swp_on_run in E as (st & -> & E & Hf & HQ); [|exact Hm|apply Hw]. specialize (Hk (w_state w) (w_fs w)). rewrite E in Hk.
  eapply world_step; [exact Hw|apply agree_refl|done|done|done| |done|apply Hw|by apply plan_kept with (1 := Hw)].
  destruct r as [[]|e]; [|exact HQ]. destruct HQ as [HQ1 HQ2]. cbn. destruct (es_closed (w_state w)); [exact HQ2|]. by apply HQ1.
Qed.

Lemma apply_write_ok prepare T w :
  world_ok T w → manifest_small (es_versions (w_state w)) (w_image w) →
  (∀ b, prepare = Ok b → batch_wf b) → world_ok T (apply_write options prepare w).
Proof using CR SL Ho.
  intros Hw Hsm Hwf. unfold apply_write. destruct (write_serialized _ _ _ _) as [[r en] s] eqn:E.
  pose proof (keeps_write options prepare (w_engine w) (w_fs w)) as Hfr. rewrite E in Hfr. cbn in Hfr. destruct Hfr as [Hv Hrd _].
  eapply swp_run in E as [Hf HQ]; [|by eapply write_inv; [exact Ho|apply Hw|exact Hsm|exact Hwf]|apply Hw].
  eapply world_step; [exact Hw|apply agree_refl|done|done|cbn; by rewrite Hrd| |done|apply Hw|by apply plan_kept with (1 := Hw)].
  destruct r as [[]|e]; [|destruct HQ as [HQ _]; exact HQ]. destruct HQ as (b & -> & HQ). exact HQ.
Qed.

Lemma ttl_batch_wf key value ttl_ms now b :
  bytes_ok key → bytes_ok value → 0 ≤ now → ttl_batch key value ttl_ms now = Ok b → batch_wf b.
Proof.
  intros Hk Hv Hnow. unfold ttl_batch. destruct (Z.ltb_spec ttl_ms 0); [done|]. unfold checked_add at 1.
  destruct (Z.leb_spec (now + ttl_ms) USIZE_MAX); [|done]. cbn [ok_or].
  intros Hb. apply (push_wf WriteBatch_default (Put key value (Some (now + ttl_ms)))); [done| |exact Hb].
  split; [done|]. split; [done|]. split; [lia|done].
Qed.

Lemma apply_flush_begin_ok T w : world_ok T w → ∃ T', world_ok T' (apply_flush_begin w).
Proof.
  intros Hw. unfold apply_flush_begin. destruct (w_flush w) as [fl|] eqn:Efl; [by exists T|].
  destruct (on_state flush_begin _ _) as [[r en] s] eqn:E. pose proof (wk_inv _ _ Hw) as Hinv. rewrite Efl in Hinv.
  eapply swp_on_run in E as (st & -> & E & Hf & HQ); [|by eapply flush_begin_inv|apply Hw].
  pose proof (keeps_flush_begin (w_state w) (w_fs w)) as Hv. rewrite E in Hv. cbn in Hv.
  destruct r as [[[imm n]|]|e]; [|exists T|done].
  - destruct HQ as [-> HQ]. eexists. eapply world_step; [exact Hw|apply with_table_agree|done|done|done|
      exact HQ|done|apply Hw|by apply plan_kept with (1 := Hw)].
  - eapply world_step; [exact Hw|apply agree_refl|done|done|done|exact HQ|done|apply Hw|
      by apply plan_kept with (1 := Hw)].
Qed.

Lemma apply_flush_build_ok T w :
  world_ok T w → op_fits FlushBuild w → world_ok T (apply_flush_build options w).
Proof using CR SL Ho.
  intros Hw (_ & _ & Hfit). unfold apply_flush_build. destruct (w_flush w) as [[imm n [built|]]|] eqn:Efl; [done| |done].
  pose proof (wk_inv _ _ Hw) as Hinv. rewrite Efl in Hinv. destruct (flush_build _ _ _ _) as [built s] eqn:E.
  pose proof (flush_build_inv options _ _ _ _ _ _ _ _ Ho Hinv (Hfit _ eq_refl) (w_fs w) eq_refl (λ _, wk_faultless _ _ Hw)) as H.
  rewrite E in H. destruct built as [built|e]; [|done]. destruct H as [H Hf].
  eapply world_step; [exact Hw|apply agree_refl|done|done|done|exact H|by apply Hf|apply Hw|].
  by apply plan_kept with (1 := Hw).
Qed.

Lemma apply_flush_finish_ok T w :
  world_ok T w → manifest_small (es_versions (w_state w)) (w_image w) → world_ok T (apply_flush_finish w).
Proof using CR SL.
  intros Hw Hsm. unfold apply_flush_finish, apply_unit. destruct (w_flush w) as [[imm n [built|]]|] eqn:Efl; [|done|done].
  pose proof (wk_inv _ _ Hw) as Hinv. rewrite Efl in Hinv. destruct (on_state _ _ _) as [[r en] s] eqn:E.
  pose proof (ei_flush _ _ _ _ _ _ _ _ Hinv) as (_ & _ & _ & _ & Hnew & _ & Hb). cbn in Hnew, Hb.
  pose proof (flush_finish_grown imm built n) as Hg.
  assert (keeps (version_grown n) (flush_finish imm built)) as Hk.
  { apply Hg. intros r' f -> Hf. destruct Hb as (f' & Hf' & Hn & _ & _ & _ & _ & _ & Hm & _). rewrite Hf in Hf'.
    by injection Hf' as <-. }
  eapply swp_on_run in E as (st & -> & E & Hf & HQ); [|by eapply flush_finish_inv; [exact Hinv|exact Hsm]|apply Hw].
  specialize (Hk (w_state w) (w_fs w)). rewrite E in Hk. cbn in Hk. destruct r as [[]|e]; [|done].
  eapply world_step; [exact Hw|apply agree_refl|done|done|done|exact HQ|done|apply Hw|].
  intros p Hp. apply (wk_plan _ _ Hw) in Hp. cbn. destruct (Hk (world_wf _ _ Hw)) as [Heq|[Hon _]].
  - unfold w_state in *. cbn. by rewrite Heq.
  - by eapply plan_safe_flushed.
Qed.

Lemma apply_compact_pick_ok T w :
  world_ok T w → op_fits CompactPick w → world_ok T (apply_compact_pick options w).
Proof using CR SL.
  intros Hw (_ & _ & Hfit). unfold apply_compact_pick. destruct (w_plan w) as [p|] eqn:Ep; [done|].
  destruct (compact_pick _ _ _) as [[r en] s] eqn:E.
  eapply swp_run in E as [Hf HQ]; [|by eapply pick_inv; [apply Hw|exact Hfit]|apply Hw].
  destruct r as [plan|e]; [destruct HQ as [HQ Hplan]|]; destruct HQ as (st' & -> & Hvs & HQ).
  all: eapply world_step; [exact Hw|apply agree_refl|done|done|done|exact HQ|done|apply Hw|intros p Hp; cbn in Hp].
  2: done.
  subst plan. unfold current, w_state. cbn. by rewrite Hvs.
Qed.

Lemma apply_compact_execute_ok T w :
  world_ok T w → op_fits CompactExecute w → ∃ T', world_ok T' (apply_compact_execute options w).
Proof using CR SL Ho.
  intros Hw (_ & Hsm & Hfit). unfold apply_compact_execute. destruct (w_plan w) as [p|] eqn:Ep; [|by exists T].
  destruct (execute_compaction_plan _ _ _ _ _) as [[r en] s] eqn:E.
  eapply swp_run in E as [Hf HQ]; [| |apply Hw].
  2: { eapply (execute_inv options _ _ _ (w_clock w)); [exact Ho|apply Hw| |by apply Hfit|exact Hsm|lia|lia].
       intros _. by apply (wk_plan _ _ Hw). }
  assert (∃ T' st', en = with_state st' (w_engine w) ∧ agree_below (es_next_file_number (w_state w)) T T' ∧
    inv (w_durable w) (w_history w) T' (w_clock w) (w_guards w) (w_flush w) (with_state st' (w_engine w)) (fs_image s)) as (T' & st' & -> & Ha & HQ')
    by (destruct r; exact HQ).
  exists T'. eapply world_step; [exact Hw|exact Ha|done|done|done|exact HQ'|done|apply Hw|done].
Qed.

(** A reader has joined or left. *)
Lemma world_readers T w w' :
  world_ok T w → started (w_engine w) (w_engine w') → w_image w' = w_image w → fs_fail_at (w_fs w') = None →
  w_history w' = w_history w → w_durable w' = w_durable w → w_clock w' = w_clock w → w_flush w' = w_flush w → w_plan w' = w_plan w →
  inv (w_durable w) (w_history w) T (w_clock w) (w_guards w') (w_flush w) (w_engine w') (w_image w) →
  en_readers (w_engine w') ≡ₚ map pr_reader (w_reads w') ++ w_scans w' → Forall (read_ok T) (w_reads w') →
  world_ok T w'.
Proof.
  intros Hw [versions Hst] Hi Hf Hh Hd Hc Hfl Hp Hinv Hrd Hj. split; [by rewrite Hh, Hd, Hc, Hfl, Hi|done|rewrite Hc; apply Hw|done|done|].
  intros p Hpp. rewrite Hp in Hpp. unfold w_state, current. rewrite Hst. by apply (wk_plan _ _ Hw).
Qed.

Lemma world_same T w s : world_ok T w → s = w_fs w → world_ok T (w_ran (w_engine w) s w).
Proof. intros Hw ->. by destruct w. Qed.

Lemma apply_snapshot_ok T w :
  world_ok T w → op_fits TakeSnapshot w → world_ok T (apply_snapshot w).
Proof.
  intros Hw (Hlen & _). unfold apply_snapshot. destruct (Engine_snapshot _ _) as [[r en] s] eqn:E.
  eapply (swp_run _ _ (λ q en' i', i' = w_image w ∧ started (w_engine w) en' ∧ en_readers en' = en_readers (w_engine w) ∧
      inv (w_durable w) (w_history w) T (w_clock w) (q :: w_guards w) (w_flush w) en' i') (λ en' i', en' = w_engine w ∧ i' = w_image w))
    in E as [Hf HQ]; [| |apply Hw].
  - destruct r as [q|e].
    + destruct HQ as (Hi & Hst & Hrd & HQ). eapply world_readers; [exact Hw|exact Hst|exact Hi|done..| |cbn; rewrite Hrd; apply Hw|apply Hw].
      cbn. change (w_guards _) with (q :: w_guards w). by rewrite <- Hi.
    + destruct HQ as [-> Hi]. eapply world_readers; [exact Hw|by apply started_same|exact Hi|done..|apply Hw|apply Hw|apply Hw].
  - unfold Engine_snapshot. apply swp_bind, swp_get, swp_bind, swp_lift; [done|]. intros [] _.
    apply swp_bind. eapply acquire_swp; [apply Hw|done|by left|]. intros active Hinv. apply swp_ret.
    do 2 (split; [by try apply started_same|]). done.
Qed.

Lemma apply_drop_snapshot_ok q T w : world_ok T w → world_ok T (apply_drop_snapshot q w).
Proof.
  intros Hw. unfold apply_drop_snapshot. case_bool_decide as Hq; [|done]. cbn.
  eapply world_readers; [exact Hw|by apply started_same|done|apply Hw|done..| |apply Hw|apply Hw].
  cbn. apply inv_dropped. eapply inv_perm; [apply Hw|]. unfold w_guards. cbn.
  by rewrite (remove_one_perm _ _ Hq) at 1.
Qed.

Lemma apply_get_begin_ok key T w :
  world_ok T w → op_fits (GetBegin key) w → world_ok T (apply_get_begin options key w).
Proof using CR SL.
  intros Hw (Hlen & _ & Hk). unfold apply_get_begin. destruct (get_begin _ _ _ _ _) as [[r en] s] eqn:E.
  eapply swp_run in E as [Hf HQ]; [|by eapply get_begin_inv; [apply Hw|done|exact Hk|lia]|apply Hw].
  destruct r as [[o|reader]|e].
  - destruct HQ as (Hi & Hst & _ & HQ & Hrd).
    eapply world_readers; [exact Hw|exact Hst|exact Hi|done..|exact HQ|cbn; rewrite Hrd; apply Hw|apply Hw].
  - destruct HQ as (Hi & Hst & HQ & Hrd & Hseq & Hpin).
    eapply world_readers; [exact Hw|exact Hst|exact Hi|done..| | |].
    + eapply inv_perm; [exact HQ|]. rewrite <- Hseq. unfold w_guards. cbn. solve_Permutation.
    + cbn. rewrite Hrd. by rewrite (wk_readers _ _ Hw).
    + cbn. constructor; [|apply Hw]. unfold read_ok, expected. cbn. by rewrite Hseq.
  - destruct HQ as (-> & Hi & _). eapply world_readers; [exact Hw|by apply started_same|exact Hi|done..|apply Hw|apply Hw|apply Hw].
Qed.

(** A read in flight among the others. *)
Lemma reads_split w job j :
  w_reads w !! job = Some j →
  w_reads w ≡ₚ j :: delete job (w_reads w).
Proof. intros Hj. by apply delete_Permutation. Qed.

Lemma reads_others T w job j :
  world_ok T w → w_reads w !! job = Some j → read_ok T j ∧ Forall (read_ok T) (delete job (w_reads w)).
Proof. intros Hw Hj. pose proof (wk_reads _ _ Hw) as H. rewrite (reads_split _ _ _ Hj) in H. by apply Forall_cons in H. Qed.

(** A point read returns what the history said when it started. *)
Lemma read_inv T w job j :
  world_ok T w → w_reads w !! job = Some j →
  swp (get_finish options (pr_reader j) (pr_key j) (pr_time j)) (w_engine w) (w_image w)
    (λ o en' i', o = expected j ∧ i' = w_image w ∧ started (w_engine w) en' ∧
      inv (w_durable w) (w_history w) T (w_clock w) (w_guards (w_with_reads (delete job (w_reads w)) w)) (w_flush w) en' (w_image w) ∧
      en_readers en' ≡ₚ map pr_reader (delete job (w_reads w)) ++ w_scans w) (λ _ _, False).
Proof using CR SL Ho.
  intros Hw Hj. pose proof (reads_split _ _ _ Hj) as Hp. eapply get_finish_inv.
  - apply Ho.
  - eapply inv_perm; [apply Hw|]. unfold w_guards. cbn. rewrite Hp at 1. cbn. solve_Permutation.
  - rewrite (wk_readers _ _ Hw), Hp at 1. cbn. reflexivity.
  - by destruct (reads_others _ _ _ _ Hw Hj).
Qed.

Lemma apply_get_finish_ok job T w : world_ok T w → world_ok T (apply_get_finish options job w).
Proof using CR SL Ho.
  intros Hw. unfold apply_get_finish. destruct (w_reads w !! job) as [j|] eqn:Hj; [|done].
  destruct (get_finish _ _ _ _ _ _) as [[r en] s] eqn:E. destruct (reads_others _ _ _ _ Hw Hj) as [_ Hrest].
  eapply swp_run in E as [Hf HQ]; [|by eapply read_inv|apply Hw]. destruct r as [o|e]; [|done].
  destruct HQ as (_ & Hi & Hst & Hinv & Hrd).
  eapply world_readers; [exact Hw|exact Hst|exact Hi|done..|exact Hinv|exact Hrd|exact Hrest].
Qed.

(** A scan of a snapshot of the client, or of the committed state. *)
Definition scan_sequence (snapshot : option Z) (w : World) : Z := default (en_committed_sequence (w_engine w)) snapshot.

Definition scan_of (snapshot : option Z) (bounds : ScanBounds) (n : Z) (w : World)
    : SFS Engine (KvIterator * option Reader) :=
  match snapshot with
  | Some q => scan_at options bounds n q (w_clock w)
  | None => scan_current options bounds n (w_clock w)
  end.

Lemma scan_inv T snapshot bounds n w :
  world_ok T w → zlen (w_guards w) < USIZE_MAX → 0 ≤ n → from_option (λ q, q ∈ w_snapshots w) True snapshot →
  let q := scan_sequence snapshot w in
  swp (scan_of snapshot bounds n w) (w_engine w) (w_image w)
    (λ r en' i', i' = w_image w ∧ started (w_engine w) en' ∧ scan_answers (w_history w) bounds q (w_clock w) n r.1 ∧
      match r.2 with
      | None => en' = w_engine w
      | Some reader => inv (w_durable w) (w_history w) T (w_clock w) (q :: w_guards w) (w_flush w) en' (w_image w) ∧
          en_readers en' = reader :: en_readers (w_engine w) ∧ rd_sequence reader = q
      end)
    (λ en' i', en' = w_engine w ∧ i' = w_image w ∧ ¬ scan_accepted options (w_engine w) bounds).
Proof using CR SL Ho.
  intros Hw Hlen Hn Hs q.
  assert (swp (scan_at options bounds n q (w_clock w)) (w_engine w) (w_image w)
    (λ r en' i', i' = w_image w ∧ started (w_engine w) en' ∧ scan_answers (w_history w) bounds q (w_clock w) n r.1 ∧
      match r.2 with
      | None => en' = w_engine w
      | Some reader => inv (w_durable w) (w_history w) T (w_clock w) (q :: w_guards w) (w_flush w) en' (w_image w) ∧
          en_readers en' = reader :: en_readers (w_engine w) ∧ rd_sequence reader = q
      end)
    (λ en' i', en' = w_engine w ∧ i' = w_image w ∧ ¬ scan_accepted options (w_engine w) bounds)) as H.
  { apply scan_at_inv; [apply Ho|apply Hw|done| |lia|done]. unfold q, scan_sequence. destruct snapshot as [q'|]; [right|by left].
    cbn in *. unfold w_guards. apply elem_of_app. by left. }
  unfold scan_of. destruct snapshot as [q'|]; [exact H|]. unfold scan_current. apply swp_bind, swp_get. exact H.
Qed.

Lemma apply_scan_begin_ok snapshot bounds n T w :
  world_ok T w → op_fits (ScanBegin snapshot bounds n) w → world_ok T (apply_scan_begin options snapshot bounds n w).
Proof using CR SL Ho.
  intros Hw (Hlen & _ & Hn). unfold apply_scan_begin. fold (scan_of snapshot bounds n w).
  destruct (match snapshot with Some q => _ | None => _ end) eqn:Hs; [|done].
  destruct (scan_of _ _ _ _ _ _) as [[r en] s] eqn:E.
  eapply swp_run in E as [Hf HQ]; [|by eapply scan_inv; [done|done|done|destruct snapshot; [by apply bool_decide_eq_true in Hs|done]]|apply Hw].
  assert (en = w_engine w ∧ fs_image s = w_image w → world_ok T (w_ran en s w)) as Hsame.
  { intros [-> Hi]. eapply world_readers; [exact Hw|by apply started_same|exact Hi|done..|apply Hw|apply Hw|apply Hw]. }
  destruct r as [[it [reader|]]|e]; [|by apply Hsame; destruct HQ as (? & ? & ? & ?)|by apply Hsame; destruct HQ as (? & ? & ?)].
  destruct HQ as (Hi & Hst & _ & HQ & Hrd & Hseq). cbn in Hseq.
  eapply world_readers; [exact Hw|exact Hst|exact Hi|done..| | |apply Hw].
  - eapply inv_perm; [exact HQ|]. rewrite <- Hseq. unfold w_guards. cbn. solve_Permutation.
  - cbn. rewrite Hrd, (wk_readers _ _ Hw). solve_Permutation.
Qed.

Lemma apply_scan_end_ok job T w : world_ok T w → world_ok T (apply_scan_end job w).
Proof.
  intros Hw. unfold apply_scan_end. destruct (w_scans w !! job) as [reader|] eqn:Hj; [|done]. cbn.
  pose proof (delete_Permutation _ _ _ Hj) as Hp.
  destruct (inv_drop_reader (AK := w_durable w) options (w_history w) T (w_clock w) (w_guards w) (w_flush w) (w_engine w) (w_image w) reader
    (map pr_reader (w_reads w) ++ delete job (w_scans w))) as [Hinv Hrd]; [apply Hw| |].
  { rewrite (wk_readers _ _ Hw), Hp at 1. solve_Permutation. }
  apply (inv_perm (AK := w_durable w) options _ _ _ _ (rd_sequence reader :: w_guards (w_with_scans (delete job (w_scans w)) w))) in Hinv.
  2: { unfold w_guards. cbn. rewrite Hp at 1. cbn. solve_Permutation. }
  apply inv_dropped in Hinv.
  eapply world_readers; [exact Hw|by apply started_same|done|apply Hw|done..|exact Hinv|exact Hrd|apply Hw].
Qed.

(** ** All of them *)

Lemma apply_op_ok op T w : world_ok T w → op_fits op w → ∃ T', world_ok T' (apply_op options op w).
Proof using CR SL Ho.
  intros Hw Hfit. pose proof Hfit as (Hlen & Hsm & Hop). destruct op; cbn [apply_op] in *.
  - exists T. destruct (Z.leb_spec (w_clock w) now_unix_ms) as [Hle|]; [|done]. destruct (Z.leb_spec now_unix_ms U64_MAX); [|done]. cbn.
    pose proof (wk_clock _ _ Hw) as Hc.
    eapply world_step; [exact Hw|apply agree_refl|done|done|done| |apply Hw|cbn; lia|by apply plan_kept with (1 := Hw)].
    eapply inv_clock; [apply Hw|done].
  - exists T. apply apply_write_ok; [done|done|]. by intros b [= <-].
  - exists T. apply apply_write_ok; [done|done|]. intros b. apply ttl_batch_wf; [apply Hop|apply Hop|apply Hw].
  - exists T. apply apply_sync_ok; [done|apply keeps_sync|]. by apply sync_inv; [apply Hw|].
  - exists T. apply apply_sync_ok; [done|apply keeps_close|]. by apply close_inv; [apply Hw|].
  - exists T. apply apply_unit_ok; [done|apply keeps_flush_rotate|by apply flush_rotate_inv; [apply Hw|]].
  - by eapply apply_flush_begin_ok.
  - exists T. by apply apply_flush_build_ok.
  - exists T. by apply apply_flush_finish_ok.
  - exists T. by apply apply_compact_pick_ok.
  - by eapply apply_compact_execute_ok.
  - exists T. by apply apply_snapshot_ok.
  - exists T. by apply apply_drop_snapshot_ok.
  - exists T. by apply apply_get_begin_ok.
  - exists T. by apply apply_get_finish_ok.
  - exists T. by apply apply_scan_begin_ok.
  - exists T. by apply apply_scan_end_ok.
Qed.

Lemma run_ops_ok ops T w : world_ok T w → ops_fit ops w → ∃ T', world_ok T' (run_ops options ops w).
Proof using CR SL Ho.
  revert T w. induction ops as [|op ops IH]; intros T w Hw Hfit; [by exists T|]. destruct Hfit as [Hop Hfit].
  destruct (apply_op_ok op T w Hw Hop) as [T' Hw']. by eapply IH.
Qed.
End Refine.
