(* ===== verification/EngineRestart.v ===== *)
(** * Crashes and restarts

    A power loss leaves what is durable; opening the directory again gives an engine
    that holds the history up to its last synchronized batch, and everything that an
    operation has reported as durable is in it.  A new directory gives an engine with
    an empty history. *)

From Stdlib Require Import ZArith Lia Sorting.Sorted.
From stdpp Require Import base list gmap strings sorting.
From S2P Require Import Prelude Fs StateFs Checksum Framing InternalKey Batch ValueRecord Snapshot Mvcc MemTable Iter IterFacts.
From S2P Require Import Version Wal Options ManifestCodec Manifest ManifestLog ManifestSet ManifestBoot ManifestCrash WalFs Block.
From S2P Require Import TableBuilder TableReader TableStore Compaction CompactionRun Engine EngineOps EngineOpen EngineRead EngineEdits.
From S2P Require Import EngineFrame EngineHistory EngineLogs EngineInv EngineWrite EngineFlush EngineDir EngineReplay EngineRecover.
From S2P Require Import EngineWorld EngineReaders EngineRefine.

Local Open Scope Z_scope.

Section Restart.
  Context `{C : Crc32c} {CR : Crc32cRange C} `{SN : Snappy} {SL : SnappyLaws SN}.
  Context (options : Options) (Ho : options_ok options) (Hvalid : Options_validate options = Ok tt).
  Abbreviation inv d := (engine_inv (AK := d) options).

(** ** What is on the disk *)

(** The sizes that reopening has room for. *)
Record restart_fits (vs : VersionSet) (next : Z) (i : CrashImage) : Prop := {
  rf_next : next < U64_MAX;
  rf_manifest : ∀ file, ci_volatile i !! mw_path (vs_manifest vs) = Some file → zlen file + 7 ≤ 2 ^ 60;
  rf_logs : ∀ k file, ci_durable i !! wal_name k = Some file → zlen file ≤ USIZE_MAX
}.

Lemma stored_durable i p b : stored i p b → stored (durable_image (ci_durable i)) p b.
Proof. intros H. apply view_eq in H as (_ & _ & H). unfold stored, view. cbn. by rewrite H. Qed.

(** The last log has the largest number. *)
Lemma segment_last h T clock st i old segs (d : Acknowledged) s :
  log_state options h T clock st i old segs → s ∈ segs → sg_number s ≤ mm_wal_number (es_mutable st).
Proof.
  intros Hl Hs. pose proof (lg_order _ _ _ _ _ _ _ _ Hl) as Hsort. rewrite (lg_numbers _ _ _ _ _ _ _ _ Hl) in Hsort.
  assert (sg_number s ∈ map im_wal_number (es_immutables st) ++ [mm_wal_number (es_mutable st)]) as Hin.
  { rewrite <- (lg_numbers _ _ _ _ _ _ _ _ Hl). by apply list_elem_of_fmap_2. }
  apply elem_of_app in Hin as [Hin| ->%list_elem_of_singleton]; [|lia]. apply StronglySorted_app in Hsort as (Hlt & _).
  specialize (Hlt _ (mm_wal_number (es_mutable st)) Hin ltac:(by left)). lia.
Qed.

Lemma oldest_among ims mutable : oldest_of ims mutable ∈ map im_wal_number ims ++ [mm_wal_number mutable].
Proof.
  unfold oldest_of. induction (map im_wal_number ims) as [|n l IH]; cbn; [by left|].
  destruct (Z.min_spec n (foldr Z.min (mm_wal_number mutable) l)) as [[_ ->]|[_ ->]]; [by left|by right].
Qed.

Lemma version_ok_next T i next next' v :
  version_ok options T i next v → (∀ f, f ∈ concat v → fm_number f < next') → version_ok options T i next' v.
Proof. intros [H1 H2 H3 _] H. by split. Qed.

(** The tables hold what the manifest says they hold. *)
Lemma disk_layers h T clock guards fl en i old segs (d : Acknowledged) :
  inv d h T clock guards fl en i → log_state (AK := d) options h T clock (en_state en) i old segs →
  layers_ok old clock (cn_last_sequence (vs_counters (es_versions (en_state en)))) (contents T (vs_current (es_versions (en_state en)))).
Proof.
  intros Hinv Hl. pose proof (ei_reads _ _ _ _ _ _ _ _ Hinv) as Hr. split.
  - apply (vk_layered _ _ _ _ _ (rk_version _ _ _ _ _ _ _ Hr)).
  - pose proof (rk_unique _ _ _ _ _ _ _ Hr) as Hu. unfold layers, engine_layers in Hu. rewrite concat_app, map_app in Hu.
    by apply NoDup_app in Hu as (_ & _ & ?).
  - apply Hl.
  - apply Hl.
Qed.

Lemma inv_recoverable h T clock guards fl en i old segs (d : Acknowledged) :
  let st := en_state en in
  inv d h T clock guards fl en i → log_state (AK := d) options h T clock st i old segs →
  restart_fits (es_versions st) (es_next_file_number st) i →
  recoverable options T clock old segs (ci_durable i) (vs_counters (es_versions st)) (vs_current (es_versions st)).
Proof.
  intros st Hinv Hl [Hnext _ Hlogs]. pose proof (ei_reads _ _ _ _ _ _ _ _ Hinv) as Hr. pose proof (ei_numbers _ _ _ _ _ _ _ _ Hinv) as Hn.
  pose proof (lg_counters _ _ _ _ _ _ _ _ Hl) as [K1 K2 K3 K4 K5 K6]. fold st in Hr, Hn.
  assert (all_synced segs `prefix_of` all_batches segs) as [rest Hrest].
  { apply synced_prefix; [|apply Hl]. eapply Forall_impl; [apply (lg_files _ _ _ _ _ _ _ _ Hl)|]. by intros s []. }
  pose proof (lg_sequences _ _ _ _ _ _ _ _ Hl) as Hsq. rewrite Hrest in Hsq. apply numbered_app in Hsq as [Hsq _].
  pose proof (lg_valid _ _ _ _ _ _ _ _ Hl) as Hv. rewrite Hrest in Hv. apply Forall_app in Hv as [Hv _].
  pose proof (rk_history _ _ _ _ _ _ _ Hr) as Hh. rewrite (lg_history _ _ _ _ _ _ _ _ Hl), Hrest, app_assoc in Hh. apply hist_wf_app_l in Hh.
  pose proof (active_range _ _ _ _ _ _ _ _ Hl) as Hact. pose proof (lg_last _ _ _ _ _ _ _ _ Hl) as Hlast.
  split.
  - eapply version_ok_next; [eapply version_ok_kept; [apply Hr|reflexivity|]|].
    + intros f b _. apply stored_durable.
    + exact K6.
  - by eapply disk_layers.
  - apply Hl.
  - apply Forall_forall. intros s Hs. split; [by apply (elem_of_Forall _ _ _ (lg_bounds _ _ _ _ _ _ _ _ Hl))|].
    pose proof (segment_range _ _ _ _ _ _ _ _ _ Hl Hs). pose proof (segment_last _ _ _ _ _ _ _ _ _ Hl Hs). rewrite K1. lia.
  - eapply Forall_impl; [apply (lg_files _ _ _ _ _ _ _ _ Hl)|]. by intros s [].
  - intros k Hk Hk' Hno. apply (lg_unowned _ _ _ _ _ _ _ _ Hl k); [rewrite <- K1; lia|done].
  - right. rewrite K1. split; [lia|]. split; [lia|]. split; [|apply K3].
    pose proof (oldest_among (es_immutables st) (es_mutable st)) as Hin. rewrite <- (lg_numbers _ _ _ _ _ _ _ _ Hl) in Hin.
    apply list_elem_of_fmap in Hin as (s & Heq & Hs). unfold oldest_required_wal. rewrite Heq.
    destruct (elem_of_Forall _ _ _ (lg_files _ _ _ _ _ _ _ _ Hl) Hs) as [_ (f & _ & ->) _ _]. eauto.
  - exact Hh.
  - apply Hl.
  - exact Hlast.
  - exact Hsq.
  - exact Hv.
  - pose proof (lg_next _ _ _ _ _ _ _ _ Hl) as Hnx. destruct (rk_sequence _ _ _ _ _ _ _ Hr) as (_ & Hc & Hs). fold st in Hc.
    rewrite Hrest, zlen_app in Hnx. pose proof (zlen_nonneg rest). pose proof (zlen_nonneg (all_synced segs)). unfold seq_ok in *. lia.
  - exact K4.
  - lia.
  - exists (es_next_file_number st). split; [lia|]. intros k Hk. by apply (nk_wal_fresh _ _ Hn).
  - exact Hlogs.
  - destruct (ei_log _ _ _ _ _ _ _ _ Hinv) as (_ & ww & _ & _ & Hlim). eauto.
Qed.

(** ** The version set *)

Lemma records_func es recs recs' : Forall2 edit_record es recs → Forall2 edit_record es recs' → recs = recs'.
Proof.
  intros H. revert recs'. induction H as [|e L es recs [_ HL] _ IH]; intros recs' H'; inversion H' as [|? L' ? ? [_ HL'] Hr]; subst; [done|].
  rewrite HL in HL'. injection HL' as <-. f_equal. by apply IH.
Qed.

(** Two manifests of the same edits differ in padding only. *)
Lemma manifest_log_similar file file' es o o' : manifest_log file es o → manifest_log file' es o' → zlen file' ≤ zlen file + 7.
Proof.
  intros (recs & p & o1 & k & Hrecs & Hlog & -> & _) (recs' & p' & o1' & k' & Hrecs' & Hlog' & -> & Hk & _).
  pose proof (records_func _ _ _ Hrecs Hrecs') as <-. destruct (log_frames_func _ _ _ _ _ _ Hlog Hlog') as [<- <-].
  pose proof (log_frames_offset _ _ _ _ Hlog ltac:(unfold BLOCK_BYTES; lia)) as Ho1.
  destruct (zlen_pad_of o1 ltac:(lia)) as [Hp _]. apply (f_equal zlen) in Hk. rewrite !zlen_app in *. zlen_pos. unfold HEADER_BYTES in *. lia.
Qed.

Lemma restart_versions vs i es next :
  vs_ok vs i es → restart_fits vs next i →
  wpf false (open_versions false) (durable_image (ci_durable i))
    (λ vs' i', ∃ m, versions_opened (ci_durable i) (vs_counters vs) (vs_current vs) vs' m i') (λ _, False).
Proof using CR.
  intros Hvs Hfit. eapply open_recovered_wp; [apply Hvs|]. intros vs' m i' Hq Hvs' Hrec Hm. exists m.
  injection Hrec as H1 H2 _. split; [done|by exists es| |done|done| |].
  - intros file' Hf'. destruct (vo_manifest _ _ _ Hvs') as (g' & Hg' & _ & Hlog'). rewrite Hg' in Hf'. injection Hf' as <-.
    destruct (vo_manifest _ _ _ Hvs) as (g & Hg & _ & Hlog). pose proof (rf_manifest _ _ _ Hfit g Hg).
    pose proof (manifest_log_similar _ _ _ _ _ Hlog Hlog'). lia.
  - intros k. apply Hm, wal_name_meta.
  - intros f _. apply Hm. apply (table_name_meta _ (vs_manifest_number vs)).
Qed.

(** ** A new directory *)

(** No database and no logs. *)
Definition new_directory (d : gmap name bytes) : Prop := boot_empty d ∧ ∀ k, d !! wal_name k = None.

Lemma wal_name_boot k : wal_name k ∉ boot_names.
Proof.
  destruct (format06_digit k) as (x & r & Hx & Hb). unfold wal_name. rewrite Hx. unfold boot_names. rewrite !not_elem_of_cons.
  repeat split; try (intros H; injection H as H _; lia). apply not_elem_of_nil.
Qed.

Lemma new_recoverable d clock limit :
  new_directory d → encoded_record_limit (op_max_batch_bytes options) = Ok limit →
  recoverable options (λ _, []) clock [] [] d (rc_counters boot_recovery) (rc_version boot_recovery).
Proof.
  intros [_ Hd] Hlim. assert (concat Version_empty = ([] : list FileMeta)) as Hv by done.
  split; cbn [rc_counters rc_version boot_recovery cn_next_file_number cn_last_sequence cn_log_number cn_active_log_number cn_wal_sequence];
    try (unfold seq_ok, MAX_SEQUENCE_NUMBER, U64_MAX; cbn; lia); try by constructor.
  - split; [apply version_empty_wf|rewrite Hv; by intros f ?%elem_of_nil| |rewrite Hv; by intros f ?%elem_of_nil].
    intros u. unfold contents. rewrite Hv. constructor.
  - unfold contents. rewrite Hv. split; cbn; [intros u; constructor|constructor|by intros e ?%elem_of_nil|].
    intros u now _. exists None. split; [by intros e ?%elem_of_nil|done].
  - split; constructor.
  - exists 2. split; [unfold U64_MAX; lia|]. auto.
  - intros k file. by rewrite Hd.
  - eauto.
Qed.

Lemma new_versions d :
  new_directory d →
  wpf false (open_versions false) (durable_image d)
    (λ vs' i', ∃ m, versions_opened d (rc_counters boot_recovery) (rc_version boot_recovery) vs' m i') (λ _, False).
Proof using CR.
  intros [Hb Hd]. apply open_created_wp; [done|]. intros vs m i' Hq Hvs Hrec Hm. exists m. injection Hrec as H1 H2 _.
  split; [done|by eexists| |done|done| |].
  - intros file Hf. destruct (vo_manifest _ _ _ Hvs) as (g & Hg & _ & Hlog). rewrite Hg in Hf. injection Hf as <-.
    pose proof (manifest_log_len _ _ _ Hlog) as Hlen. change (zlen [initial_edit]) with 1 in Hlen. lia.
  - intros k. apply Hm. by apply wal_name_boot.
  - intros f Hf. by apply elem_of_nil in Hf.
Qed.

Lemma new_engine d clock limit :
  new_directory d → encoded_record_limit (op_max_batch_bytes options) = Ok limit →
  wpf false (Engine_open options false) (durable_image d) (opened_with options (λ _, []) clock [] 0) (λ _, False).
Proof using CR SL Ho Hvalid.
  intros Hd Hlim. apply (open_engine_wp options Ho Hvalid (λ _, []) clock [] [] d (rc_counters boot_recovery) (rc_version boot_recovery)).
  - by eapply new_recoverable.
  - by apply new_versions.
Qed.

(** ** A power loss *)

(** What a crash leaves is opened again. *)
Lemma restart_engine h T clock guards fl en i old segs (d : Acknowledged) :
  let st := en_state en in
  inv d h T clock guards fl en i → log_state (AK := d) options h T clock st i old segs →
  restart_fits (es_versions st) (es_next_file_number st) i →
  wpf false (Engine_open options false) (durable_image (ci_durable i))
    (opened_with options T clock (old ++ all_synced segs)
      (cn_last_sequence (vs_counters (es_versions st)) + zlen (all_synced segs))) (λ _, False).
Proof using CR SL Ho Hvalid.
  intros st Hinv Hl Hfit. destruct (ei_meta _ _ _ _ _ _ _ _ Hinv) as [[es Hvs] _].
  eapply open_engine_wp; [exact Ho|exact Hvalid|by eapply inv_recoverable|by eapply restart_versions].
Qed.

Definition power_loss (s : FaultState) : FaultState := FaultyFs_fail_at None (ci_durable (fs_image s)).

(** The batches that an engine has recovered. *)
Definition survivors (en : Engine) (h : history) : history := List.filter (λ x, x.1 <=? en_committed_sequence en) h.

Definition restart (w : World) : result World :=
  match Engine_open options false (power_loss (w_fs w)) with
  | (Ok en, s) => Ok (opened_world en s (w_clock w) (survivors en (w_history w)))
  | (Err e, _) => Err e
  end.

(** The recovered sequence is where the history was cut. *)
Lemma survivors_cut l old synced rest en :
  Forall (λ x, x.1 ≤ l) old → numbered l (synced ++ rest) → en_committed_sequence en = l + zlen synced →
  survivors en (old ++ synced ++ rest) = old ++ synced.
Proof.
  intros Ho' Hn Hc. unfold survivors. rewrite Hc, !List.filter_app. pose proof (zlen_nonneg synced) as Hz.
  apply numbered_app in Hn as [Hs Hr].
  assert (∀ a, Forall (λ x : Z * WriteBatch, x.1 ≤ l + zlen synced) a → List.filter (λ x, x.1 <=? l + zlen synced) a = a) as Hall.
  { induction 1 as [|x a Hx _ IH]; cbn; [done|]. by rewrite (proj2 (Z.leb_le _ _)), IH by done. }
  rewrite (Hall old), (Hall synced).
  - replace (List.filter _ rest) with (@nil (Z * WriteBatch)); [by rewrite app_nil_r|]. symmetry.
    assert (Forall (λ x, l + zlen synced < x.1) rest) as Hlt.
    { apply Forall_forall. intros x Hx. by apply (numbered_range _ _ x Hr) in Hx as [? _]. }
    clear -Hlt. induction Hlt as [|x rest Hx _ IH]; cbn; [done|]. by rewrite (proj2 (Z.leb_gt _ _)).
  - apply Forall_forall. intros x Hx. by apply (numbered_range _ _ x Hs) in Hx as [_ ?].
  - eapply Forall_impl; [exact Ho'|]. intros x Hx. cbn in Hx. lia.
Qed.

(** A restart succeeds, loses nothing that was durable, and recovers a prefix. *)
Lemma restart_ok T w :
  world_ok options T w → restart_fits (es_versions (w_state w)) (es_next_file_number (w_state w)) (w_image w) →
  ∃ w', restart w = Ok w' ∧ world_ok options T w' ∧ w_durable w' = w_history w' ∧ w_clock w' = w_clock w ∧
    w_durable w `prefix_of` w_history w' ∧ w_history w' `prefix_of` w_history w ∧
    (op_durability options = Sync → w_history w' = w_history w).
Proof using CR SL Ho Hvalid.
  intros Hw Hfit. pose proof (wk_inv _ _ _ Hw) as Hinv. pose proof (ei_logs _ _ _ _ _ _ _ _ Hinv) as (old & segs & Hl).
  pose proof (restart_engine _ _ _ _ _ _ _ _ _ _ Hinv Hl Hfit (power_loss (w_fs w)) eq_refl (λ _, eq_refl)) as H. unfold restart.
  destruct (Engine_open options false (power_loss (w_fs w))) as [[en|e] s]; [|done]. destruct H as [(Hinv' & Hrd & Hc) Hf].
  assert (all_synced segs `prefix_of` all_batches segs) as [rest Hrest].
  { apply synced_prefix; [|apply Hl]. eapply Forall_impl; [apply (lg_files _ _ _ _ _ _ _ _ Hl)|]. by intros s' []. }
  pose proof (lg_history _ _ _ _ _ _ _ _ Hl) as Hh. rewrite Hrest in Hh.
  pose proof (lg_sequences _ _ _ _ _ _ _ _ Hl) as Hsq. rewrite Hrest in Hsq.
  pose proof (survivors_cut _ old (all_synced segs) rest en (lg_old _ _ _ _ _ _ _ _ Hl) Hsq Hc) as Hsv.
  eexists. split; [reflexivity|]. rewrite Hh, Hsv. split; [split|]; cbn.
  - exact Hinv'.
  - by apply Hf.
  - apply Hw.
  - by rewrite Hrd.
  - constructor.
  - done.
  - do 2 (split; [done|]). split; [apply Hl|]. split; [rewrite app_assoc; by apply prefix_app_r|].
    intros Hd. pose proof (all_full _ (lg_durability _ _ _ _ _ _ _ _ Hl Hd)) as Hfull. rewrite Hrest in Hfull.
    assert (rest = []) as ->; [|by rewrite !app_nil_r]. apply (f_equal length) in Hfull. rewrite length_app in Hfull.
    destruct rest; [done|]. cbn in Hfull. lia.
Qed.
End Restart.
