(* ===== verification/EngineCorrect.v ===== *)
(** * The database as its clients see it

    A database starts in a new directory; then operations of any clients and of the
    background work take effect in any order, and the power may fail between them.
    Whatever has happened, the engine answers from the history of the batches it
    acknowledged. *)

From Stdlib Require Import ZArith Lia Sorting.Sorted.
From stdpp Require Import base list gmap strings sorting relations.
From S2P Require Import Prelude Fs StateFs Checksum Framing InternalKey Batch ValueRecord Snapshot Mvcc MemTable Iter IterFacts.
From S2P Require Import Version Wal Options ManifestCodec Manifest ManifestSet ManifestBoot WalFs Block TableBuilder.
From S2P Require Import TableReader TableStore Compaction CompactionRun Engine EngineOps EngineOpen EngineRead EngineFrame.
From S2P Require Import EngineHistory EngineLogs EngineInv EngineCompact EngineWrite EngineMaintain EngineKeep EngineWorld EngineReaders.
From S2P Require Import EngineRefine EngineRestart.

Local Open Scope Z_scope.

Section Correct.
  Context `{C : Crc32c} {CR : Crc32cRange C} `{SN : Snappy} {SL : SnappyLaws SN}.
  Context (options : Options).

(** ** What can happen *)

Definition open_world (d : gmap name bytes) (clock : Z) : result World :=
  match Engine_open options false (FaultyFs_fail_at None d) with
  | (Ok en, s) => Ok (opened_world en s clock [])
  | (Err e, _) => Err e
  end.

Definition reopens (w : World) : Prop := restart_fits (es_versions (w_state w)) (es_next_file_number (w_state w)) (w_image w).

Inductive step : World → World → Prop :=
| step_op op w : op_fits options op w → step w (apply_op options op w)
| step_crash w w' : reopens w → restart options w = Ok w' → step w w'.

(** Options and a directory to start from. *)
Record usable (d : gmap name bytes) (clock : Z) : Prop := {
  us_options : options_ok options;
  us_valid : Options_validate options = Ok tt;
  us_limit : ∃ limit, encoded_record_limit (op_max_batch_bytes options) = Ok limit;
  us_new : new_directory d;
  us_clock : 0 ≤ clock ≤ U64_MAX
}.

Definition reachable (d : gmap name bytes) (clock : Z) (w : World) : Prop :=
  usable d clock ∧ ∃ w0, open_world d clock = Ok w0 ∧ rtc step w0 w.

Lemma open_world_ok d clock :
  usable d clock → ∃ w, open_world d clock = Ok w ∧ world_ok options (λ _, []) w ∧ w_history w = [].
Proof using CR SL.
  intros [Ho Hv [limit Hl] Hd Hc]. unfold open_world.
  pose proof (new_engine options Ho Hv d clock limit Hd Hl (FaultyFs_fail_at None d) eq_refl (λ _, eq_refl)) as H.
  destruct (Engine_open options false (FaultyFs_fail_at None d)) as [[en|e] s]; [|done]. destruct H as [(Hinv & Hr & _) Hf].
  eexists. split; [reflexivity|]. split; [|done]. split; cbn; [exact Hinv|by apply Hf|done|by rewrite Hr|constructor|done].
Qed.

Lemma step_ok T w w' : options_ok options → Options_validate options = Ok tt → world_ok options T w → step w w' → ∃ T', world_ok options T' w'.
Proof using CR SL.
  intros Ho Hv Hw Hs. destruct Hs as [op w Hfit|w w' Hfit Hres]; [by eapply apply_op_ok|].
  destruct (restart_ok options Ho Hv T w Hw Hfit) as (w1 & Hw1 & Hok & _). rewrite Hres in Hw1. injection Hw1 as <-. by exists T.
Qed.

Lemma reachable_ok d clock w : reachable d clock w → ∃ T, world_ok options T w.
Proof using CR SL.
  intros [Hu (w0 & H0 & Hsteps)]. destruct (open_world_ok _ _ Hu) as (w1 & H1 & Hw1 & _). rewrite H0 in H1. injection H1 as <-.
  generalize (ex_intro _ _ Hw1 : ∃ T, world_ok options T w0). clear H0 Hw1.
  induction Hsteps as [w|w w1 w2 Hs _ IH]; [done|]. intros [T Hw]. apply IH. by eapply step_ok; [apply Hu|apply Hu|exact Hw|exact Hs].
Qed.

Lemma ops_reachable d clock w ops : reachable d clock w → ops_fit options ops w → reachable d clock (run_ops options ops w).
Proof.
  revert w. induction ops as [|op ops IH]; intros w Hw Hfit; [done|]. destruct Hfit as [Hop Hfit]. cbn. apply IH; [|done].
  destruct Hw as [Hu (w0 & H0 & Hs)]. split; [done|]. exists w0. split; [done|]. eapply rtc_r; [exact Hs|by constructor].
Qed.

(** ** What is promised *)

(** [C1] After any operations and power losses, another power loss is survived: the
    directory opens again, with a history that has everything that was reported as
    durable and is a prefix of the history before; with synchronous durability it is
    all of it. *)
Theorem power_loss_keeps_durable d clock w :
  reachable d clock w → reopens w →
  ∃ w', restart options w = Ok w' ∧ reachable d clock w' ∧ w_durable w `prefix_of` w_history w' ∧
    w_history w' `prefix_of` w_history w ∧ (op_durability options = Sync → w_history w' = w_history w).
Proof using CR SL.
  intros Hr Hfit. destruct (reachable_ok _ _ _ Hr) as [T Hw]. destruct Hr as [Hu (w0 & H0 & Hs)].
  destruct (restart_ok options (us_options _ _ Hu) (us_valid _ _ Hu) T w Hw Hfit) as (w' & Hres & _ & _ & _ & H1 & H2 & H3).
  exists w'. split; [done|]. split; [|done]. split; [done|]. exists w0. split; [done|]. eapply rtc_r; [exact Hs|]. by eapply step_crash.
Qed.

(** A point read of an engine in use. *)
Lemma get_correct T w key :
  options_ok options → world_ok options T w → bytes_ok key → zlen (w_guards w) < USIZE_MAX →
  match Engine_get options key (w_clock w) (w_engine w) (w_fs w) with
  | ((Ok value, _), s) => value = hist_value (w_history w) key (en_committed_sequence (w_engine w)) (w_clock w) ∧ fs_image s = w_image w
  | ((Err _, en), s) => ¬ get_accepted options (w_engine w) key ∧ en = w_engine w ∧ fs_image s = w_image w
  end.
Proof using CR SL.
  intros Ho Hw Hk Hlen. rewrite get_in_parts. set (q := en_committed_sequence (w_engine w)).
  assert (swp (let* r := get_begin options key (w_clock w) in
      match r with inl value => c_ret value | inr reader => get_finish options reader key (w_clock w) end) (w_engine w) (w_image w)
    (λ o en' i', o = hist_value (w_history w) key q (w_clock w) ∧ i' = w_image w)
    (λ en' i', ¬ get_accepted options (w_engine w) key ∧ en' = w_engine w ∧ i' = w_image w)) as H.
  { apply swp_bind. eapply swp_mono; [by eapply get_begin_inv; [apply Hw|exact Hlen|exact Hk|lia]| |]; cbn.
    - intros [o|reader] en' i' (-> & _ & HQ); [by apply swp_ret; destruct HQ as [-> _]|].
      destruct HQ as (Hinv & Hrd & Hq & Hpin). eapply swp_mono; [eapply get_finish_inv; [apply Ho|by rewrite Hq|by rewrite Hrd|exact Hpin]| |]; cbn; [|done].
      intros o en2 i2 (-> & -> & _). done.
    - by intros en' i' (-> & -> & Hno). }
  specialize (H (w_fs w) eq_refl (wk_faultless _ _ _ Hw)). destruct (c_bind _ _ _ _) as [[[o|e] en] s]; by destruct H.
Qed.

(** [C2] A point read of a reachable engine succeeds unless the engine is closed or
    has failed or the key is too long, and returns what the acknowledged batches say
    about the key: the value of the last put unless a delete followed or it has
    expired. *)
Theorem get_answers_history d clock w key :
  reachable d clock w → bytes_ok key → zlen (w_guards w) < USIZE_MAX →
  match Engine_get options key (w_clock w) (w_engine w) (w_fs w) with
  | ((Ok value, _), s) => value = hist_value (w_history w) key (en_committed_sequence (w_engine w)) (w_clock w) ∧ fs_image s = w_image w
  | ((Err _, en), s) => ¬ get_accepted options (w_engine w) key ∧ en = w_engine w ∧ fs_image s = w_image w
  end.
Proof using CR SL.
  intros Hr Hk Hlen. destruct (reachable_ok _ _ _ Hr) as [T Hw]. destruct Hr as [[Ho _ _ _ _] _]. by eapply get_correct.
Qed.

(** [C3] A scan of a reachable engine, or of a snapshot that is still held, returns in
    key order and up to its limit exactly the pairs within the bounds that the
    acknowledged batches up to its sequence say are live. *)
Theorem scan_answers_history d clock w snapshot bounds n :
  reachable d clock w → zlen (w_guards w) < USIZE_MAX → 0 ≤ n → from_option (λ q, q ∈ w_snapshots w) True snapshot →
  match scan_of options snapshot bounds n w (w_engine w) (w_fs w) with
  | ((Ok (it, _), _), _) => scan_answers (w_history w) bounds (scan_sequence snapshot w) (w_clock w) n it
  | ((Err _, en), _) => ¬ scan_accepted options (w_engine w) bounds ∧ en = w_engine w
  end.
Proof using CR SL.
  intros Hr Hlen Hn Hs. destruct (reachable_ok _ _ _ Hr) as [T Hw]. destruct Hr as [[Ho _ _ _ _] _].
  destruct (scan_of _ _ _ _ _ _ _) as [[r en] s] eqn:E.
  eapply (swp_run _ _ _ _ r en s) in E as [_ HQ]; [|by eapply (scan_inv options Ho)|apply Hw].
  destruct r as [[it reader]|e]; [by destruct HQ as (_ & _ & ? & _)|by destruct HQ as (? & _ & ?)].
Qed.

(** [C4] A point read that has left the lock returns what the history said when it
    started, whatever writes, flushes, compactions and file removals ran meanwhile. *)
Theorem pending_get_answers_start d clock w job j :
  reachable d clock w → w_reads w !! job = Some j →
  ∃ en s, get_finish options (pr_reader j) (pr_key j) (pr_time j) (w_engine w) (w_fs w) = ((Ok (expected j), en), s).
Proof using CR SL.
  intros Hr Hj. destruct (reachable_ok _ _ _ Hr) as [T Hw]. destruct Hr as [[Ho _ _ _ _] _].
  destruct (get_finish _ _ _ _ _ _) as [[r en] s] eqn:E.
  eapply swp_run in E as [_ HQ]; [|by eapply (read_inv options Ho)|apply Hw]. destruct r as [o|e]; [|done].
  destruct HQ as [-> _]. eauto.
Qed.

(** A write that is accepted extends the history. *)
Lemma write_extends T w batch :
  options_ok options → world_ok options T w → op_fits options (Write batch) w → write_accepted options (w_engine w) (Ok batch) →
  w_history (apply_op options (Write batch) w) = w_history w ++ [(es_next_sequence (w_state w), batch)].
Proof using CR SL.
  intros Ho Hw (_ & Hsm & Hb) Ha. cbn [apply_op]. unfold apply_write. destruct (write_serialized _ _ _ _) as [[r en] s] eqn:E.
  eapply swp_run in E as [_ HQ]; [|by eapply write_inv; [exact Ho|apply Hw|exact Hsm|intros b [= <-]; exact Hb]|apply Hw].
  destruct r as [[]|e]; [done|]. by destruct HQ as [_ Hno].
Qed.

(** A write that the engine has room for commits its batch behind the history,
    and a point read that follows returns the batch's last operation on the key. *)
Theorem write_is_read_back d clock w batch :
  reachable d clock w → op_fits options (Write batch) w → write_accepted options (w_engine w) (Ok batch) →
  let w' := apply_op options (Write batch) w in
  w_history w' = w_history w ++ [(es_next_sequence (w_state w), batch)] ∧
  ∀ key r, last_op key (operations batch) = Some r → bytes_ok key → get_accepted options (w_engine w') key → zlen (w_guards w') < USIZE_MAX →
    ∃ en s, Engine_get options key (w_clock w') (w_engine w') (w_fs w') = ((Ok (record_into_value r (w_clock w')), en), s).
Proof using CR SL.
  intros Hr Hfit Ha w'. destruct (reachable_ok _ _ _ Hr) as [T Hw]. destruct Hr as [[Ho _ _ _ _] _].
  pose proof (write_extends T w batch Ho Hw Hfit Ha) as Hh. fold w' in Hh. split; [done|]. intros key r Hlast Hk Hg Hlen.
  destruct (apply_op_ok options Ho (Write batch) T w Hw Hfit) as [T' Hw']. fold w' in Hw'.
  pose proof (get_correct T' w' key Ho Hw' Hk Hlen) as Hget. destruct (Engine_get _ _ _ _ _) as [[[o|e] en] s]; [|by destruct Hget].
  destruct Hget as [-> _]. exists en, s. do 3 f_equal. rewrite Hh. unfold hist_value. rewrite hist_get_snoc, Hlast.
  pose proof (rk_old _ _ _ _ _ _ _ (ei_reads _ _ _ _ _ _ _ _ (wk_inv _ _ _ Hw'))) as Hold. rewrite Hh in Hold.
  apply Forall_app in Hold as [_ Hold]. apply Forall_cons in Hold as [Hold _]. cbn in Hold. by rewrite (proj2 (Z.leb_le _ _)).
Qed.
End Correct.

(** ** Checking that the operations fit *)

Section Check.
  Context `{C : Crc32c} `{SN : Snappy} (options : Options).

(** What an operation needs from its arguments. *)
Definition op_static (op : Op) : Prop :=
  match op with
  | Write batch => batch_wf batch
  | PutWithTtl key value _ => bytes_ok key ∧ bytes_ok value
  | GetBegin key => bytes_ok key
  | ScanBegin _ _ limit => 0 ≤ limit
  | CompactExecute => False
  | _ => True
  end.

#[local] Instance op_static_dec op : Decision (op_static op).
Proof. destruct op; cbn; apply _. Defined.

(** What it needs from the engine. *)
Definition op_check (op : Op) (w : World) : bool :=
  (zlen (w_guards w) <? USIZE_MAX) &&
  from_option (λ file, zlen file <=? 2 ^ 60) true (ci_volatile (w_image w) !! mw_path (vs_manifest (es_versions (w_state w)))) &&
  match op with
  | FlushBuild => from_option (λ fl, 16 * entries_cost (mt_entries (im_table (fl_immutable fl))) <=? U32_MAX) true (w_flush w)
  | CompactPick => forallb (λ files, sum_sizes files <=? U64_MAX) (vs_current (es_versions (w_state w)))
  | _ => bool_decide (op_static op)
  end.

Fixpoint ops_check (ops : list Op) (w : World) : bool :=
  match ops with
  | [] => true
  | op :: ops => op_check op w && ops_check ops (apply_op options op w)
  end.

Lemma op_check_fits op w : op_check op w = true → op_fits options op w.
Proof.
  unfold op_check. rewrite !andb_true_iff. intros [[H1 H2] H3]. apply Z.ltb_lt in H1. split; [done|]. split.
  - intros file Hf. rewrite Hf in H2. by apply Z.leb_le.
  - destruct op; try apply bool_decide_eq_true in H3; try done.
    + intros fl Hfl. rewrite Hfl in H3. by apply Z.leb_le.
    + intros level. rewrite forallb_forall in H3. unfold level_files, get_at.
      destruct (level <? 0); [unfold U64_MAX; cbn; lia|]. unfold current.
      destruct (vs_current _ !! Z.to_nat level) as [files|] eqn:E; cbn; [|unfold U64_MAX; lia].
      apply Z.leb_le, H3, list_elem_of_In. by eapply list_elem_of_lookup_2.
Qed.

Lemma ops_check_fits ops w : ops_check ops w = true → ops_fit options ops w.
Proof.
  revert w. induction ops as [|op ops IH]; intros w; cbn; [done|]. rewrite andb_true_iff. intros [H1 H2].
  split; [by apply op_check_fits|by apply IH].
Qed.

Definition reopens_check (w : World) : bool :=
  (es_next_file_number (w_state w) <? U64_MAX) &&
  from_option (λ file, zlen file + 7 <=? 2 ^ 60) true (ci_volatile (w_image w) !! mw_path (vs_manifest (es_versions (w_state w)))) &&
  bool_decide (map_Forall (λ _ file, zlen file ≤ U32_MAX) (ci_durable (w_image w))).

Lemma reopens_checked w : reopens_check w = true → reopens w.
Proof.
  unfold reopens_check. rewrite !andb_true_iff. intros [[H1 H2] H3]. apply Z.ltb_lt in H1. apply bool_decide_eq_true in H3. split; [done| |].
  - intros file Hf. rewrite Hf in H2. by apply Z.leb_le.
  - intros k file Hf. specialize (H3 _ _ Hf). unfold U32_MAX, USIZE_MAX, U64_MAX in *. cbn in H3. lia.
Qed.
End Check.

(** ** A database in use *)

#[local] Existing Instance Castagnoli.crc.
#[local] Existing Instance identity_snappy.

Definition sample_db : Options :=
  {| op_path := "db"; op_durability := Buffered; op_memtable_bytes := 64 * 1024 * 1024;
     op_target_sstable_bytes := 64 * 1024 * 1024; op_block_bytes := 4 * 1024; op_restart_interval := 16;
     op_bloom_bits_per_key := 10; op_block_cache_bytes := 64 * 1024 * 1024; op_max_immutable_memtables := 4;
     op_max_key_bytes := 1024 * 1024; op_max_value_bytes := 64 * 1024 * 1024; op_max_batch_bytes := 64 * 1024 * 1024 |}.

Definition sample_first : WriteBatch := {| operations := [Put [97] [1] None; Put [98] [2] None]; approximate_bytes := 4 |}.
Definition sample_second : WriteBatch := {| operations := [Put [97] [3] None; Delete [98]]; approximate_bytes := 3 |}.

(** A table, a read of it in flight, a snapshot, a synchronized and a buffered write. *)
Definition sample_use : list Op :=
  [Write sample_first; FlushRotate; FlushBegin; FlushBuild; FlushFinish; GetBegin [97]; TakeSnapshot; Write sample_second; SyncWals;
   PutWithTtl [99] [4] 10; CompactPick].

Definition sample_world : result World := let? w := open_world sample_db ∅ 5 in Ok (run_ops sample_db sample_use w).

Lemma sample_usable : usable sample_db ∅ 5.
Proof.
  split; [|reflexivity|by eexists|by repeat split; intros; apply lookup_empty|unfold U64_MAX; lia].
  split; cbn; try lia; [vm_compute; discriminate|split; cbn; lia|vm_compute; discriminate].
Qed.

Lemma sample_reachable : ∃ w, sample_world = Ok w ∧ reachable sample_db ∅ 5 w.
Proof.
  destruct (open_world_ok sample_db ∅ 5 sample_usable) as (w & Hw & _).
  assert (match open_world sample_db ∅ 5 with Ok w => ops_check sample_db sample_use w | Err _ => false end = true) as Hc by (by vm_compute).
  rewrite Hw in Hc. exists (run_ops sample_db sample_use w). unfold sample_world. rewrite Hw. split; [reflexivity|].
  apply ops_reachable; [|apply ops_check_fits; exact Hc]. split; [apply sample_usable|]. exists w. split; [exact Hw|apply rtc_refl].
Qed.

Lemma is_ok_unit (r : result unit) : is_ok r = true → r = Ok tt.
Proof. by destruct r as [[]|]. Qed.

Lemma sample_keys : bytes_ok [97] ∧ bytes_ok [98].
Proof. unfold bytes_ok. apply (proj1 (bool_decide_eq_true _)). vm_compute. reflexivity. Qed.

(** Witness of C1, for an engine whose last write is not synchronized. *)
Lemma power_loss_keeps_durable_witness :
  ∃ w w', sample_world = Ok w ∧ restart sample_db w = Ok w' ∧ w_durable w `prefix_of` w_history w' ∧ w_history w' `prefix_of` w_history w ∧
    length (w_durable w) = 2%nat ∧ length (w_history w) = 3%nat.
Proof.
  destruct sample_reachable as (w & Hw & Hr).
  assert (match sample_world with Ok w => reopens_check w && bool_decide (length (w_durable w) = 2 ∧ length (w_history w) = 3)%nat
    | Err _ => false end = true) as Hc by (vm_compute; reflexivity).
  rewrite Hw in Hc. apply andb_true_iff in Hc as [Hc Hl]. apply bool_decide_eq_true in Hl.
  destruct (power_loss_keeps_durable sample_db ∅ 5 w Hr (reopens_checked w Hc)) as (w' & H1 & _ & H2 & H3 & _).
  exists w, w'. split; [exact Hw|]. split; [exact H1|]. split; [exact H2|]. split; [exact H3|]. exact Hl.
Defined.

(** Witness of C2, for a key whose newest version is in the memtable. *)
Lemma get_answers_history_witness :
  ∃ w, sample_world = Ok w ∧ hist_value (w_history w) [97] (en_committed_sequence (w_engine w)) (w_clock w) = Some [3] ∧
    match Engine_get sample_db [97] (w_clock w) (w_engine w) (w_fs w) with ((Ok value, _), _) => value = Some [3] | _ => False end.
Proof.
  destruct sample_reachable as (w & Hw & Hr).
  assert (match sample_world with
    | Ok w => bool_decide (zlen (w_guards w) < USIZE_MAX ∧
        hist_value (w_history w) [97] (en_committed_sequence (w_engine w)) (w_clock w) = Some [3] ∧
        is_ok (Engine_get sample_db [97] (w_clock w) (w_engine w) (w_fs w)).1.1 = true)
    | Err _ => false end = true) as Hc by (vm_compute; reflexivity).
  rewrite Hw in Hc. apply bool_decide_eq_true in Hc as (Hl & Hv & Hok).
  pose proof (get_answers_history sample_db ∅ 5 w [97] Hr (proj1 sample_keys) Hl) as H.
  exists w. split; [exact Hw|]. split; [exact Hv|]. rewrite Hv in H.
  destruct (Engine_get sample_db [97] (w_clock w) (w_engine w) (w_fs w)) as [[[v|e] en] s]; [apply H|discriminate Hok].
Defined.

(** Witness of C3, for the snapshot at sequence 1. *)
Lemma scan_answers_history_witness :
  ∃ w, sample_world = Ok w ∧
    match scan_of sample_db (Some 1) ScanBounds_all 10 w (w_engine w) (w_fs w) with
    | ((Ok (it, _), _), _) => scan_answers (w_history w) ScanBounds_all 1 (w_clock w) 10 it
    | _ => False
    end.
Proof.
  destruct sample_reachable as (w & Hw & Hr).
  assert (match sample_world with
    | Ok w => bool_decide (zlen (w_guards w) < USIZE_MAX ∧ 1 ∈ w_snapshots w ∧
        is_ok (scan_of sample_db (Some 1) ScanBounds_all 10 w (w_engine w) (w_fs w)).1.1 = true)
    | Err _ => false end = true) as Hc by (vm_compute; reflexivity).
  rewrite Hw in Hc. apply bool_decide_eq_true in Hc as (Hl & Hs & Hok).
  pose proof (scan_answers_history sample_db ∅ 5 w (Some 1) ScanBounds_all 10 Hr Hl ltac:(lia) Hs) as H.
  exists w. split; [exact Hw|].
  destruct (scan_of sample_db (Some 1) ScanBounds_all 10 w (w_engine w) (w_fs w)) as [[[[it r]|e] en] s]; [exact H|discriminate Hok].
Defined.

(** Witness of C4: the read of [97] began before the second batch. *)
Lemma pending_get_answers_start_witness :
  ∃ w j en s, sample_world = Ok w ∧ w_reads w !! 0%nat = Some j ∧ expected j = Some [1] ∧
    get_finish sample_db (pr_reader j) (pr_key j) (pr_time j) (w_engine w) (w_fs w) = ((Ok (Some [1]), en), s).
Proof.
  destruct sample_reachable as (w & Hw & Hr).
  assert (match sample_world with
    | Ok w => match w_reads w !! 0%nat with Some j => bool_decide (expected j = Some [1]) | None => false end
    | Err _ => false end = true) as Hc by (vm_compute; reflexivity).
  rewrite Hw in Hc. destruct (w_reads w !! 0%nat) as [j|] eqn:Hj; [|discriminate Hc]. apply bool_decide_eq_true in Hc.
  destruct (pending_get_answers_start sample_db ∅ 5 w 0 j Hr Hj) as (en & s & H). rewrite Hc in H.
  exists w, j, en, s. split; [exact Hw|]. split; [exact Hj|]. split; [exact Hc|exact H].
Defined.

(** An instance: the second batch written once more. *)
Lemma write_is_read_back_witness :
  ∃ w en s, sample_world = Ok w ∧ let w' := apply_op sample_db (Write sample_second) w in
    length (w_history w') = 4%nat ∧ Engine_get sample_db [98] (w_clock w') (w_engine w') (w_fs w') = ((Ok None, en), s).
Proof.
  destruct sample_reachable as (w & Hw & Hr).
  assert (match sample_world with
    | Ok w => op_check (Write sample_second) w && bool_decide (is_ok (ensure_writable (en_state (w_engine w))) = true ∧
        zlen (es_immutables (en_state (w_engine w))) < op_max_immutable_memtables sample_db ∧
        es_next_sequence (en_state (w_engine w)) = 4 ∧ length (w_history w) = 3%nat ∧
        is_ok (ensure_readable (en_state (w_engine (apply_op sample_db (Write sample_second) w)))) = true ∧
        zlen (w_guards (apply_op sample_db (Write sample_second) w)) < USIZE_MAX)
    | Err _ => false end = true) as Hc by (vm_compute; reflexivity).
  rewrite Hw in Hc. apply andb_true_iff in Hc as [Hc Hb]. apply bool_decide_eq_true in Hb as (H1%is_ok_unit & H2 & H3 & H4 & H5%is_ok_unit & H6).
  destruct (write_is_read_back sample_db ∅ 5 w sample_second Hr (op_check_fits _ _ _ Hc)) as [Hh Hget].
  { split; [exact H1|]. split; [exact H2|]. rewrite H3. split; [unfold U64_MAX; lia|]. exists sample_second.
    split; [reflexivity|]. split; [vm_compute; reflexivity|]. split; [apply (proj1 (bool_decide_eq_true _)); vm_compute; reflexivity|].
    split; [apply (proj1 (bool_decide_eq_true _)); vm_compute; reflexivity|]. eexists. vm_compute. reflexivity. }
  destruct (Hget [98] VTombstone) as (en & s & H);
    [vm_compute; reflexivity|apply sample_keys|split; [exact H5|vm_compute; discriminate]|exact H6|].
  exists w, en, s. split; [exact Hw|]. split; [rewrite Hh, length_app, H4; reflexivity|exact H].
Defined.
