(* ===== verification/FlushSignal.v ===== *)
(** * The flush worker and its signals (src/crates/meteordb/src/background.rs and engine.rs)

    The worker thread of [background_loop] and any number of calls of [Engine::flush],
    with the condition variables and the generation counter of [BackgroundSignal], the
    handle count of [Clone] and [Drop], and the other operations of the engine between
    their critical sections.  The engine's state and the file system are those of
    [EngineOps].  The theorems say when every flush returns and every drop joins the
    worker, and exhibit a flush that waits forever. *)

From Stdlib Require Import ZArith Lia.
From stdpp Require Import base list gmap strings relations.
From S2P Require Import Prelude Fs StateFs Checksum InternalKey Batch ValueRecord Snapshot MemTable Version Wal Options.
From S2P Require Import ManifestCodec Manifest WalFs TableBuilder TableReader TableStore Compaction CompactionRun Engine EngineOps.
From S2P Require Import EngineOpen EngineKeep EngineCorrect TableLookups.

Local Open Scope Z_scope.

(** ** State *)

(** Where the worker is.  The number is its [generation] variable. *)
Inductive wpoint : Type :=
| WStart
| WProbe (generation : Z)
| WTake (generation : Z)
| WBuild (generation : Z) (immutable : ImmutableMemTable) (file_number : Z)
| WPublish (generation : Z) (immutable : ImmutableMemTable) (built : result TableBuildResult)
| WWait (generation : Z)
| WSleep (generation : Z)
| WExit.

(** Where a call of [flush] is: about to lock the state, in one of its two waits
    (awake, about to look at the state again, or asleep), or returned. *)
Inductive fpoint : Type :=
| FStart
| FRoom
| FRoomSleep
| FDrain
| FDrainSleep
| FDone (r : result unit).

(** [pl_wakes] counts the calls of [wake_all]; the counter of the source has 64 bits. *)
Record Plant : Type := {
  pl_engine : Engine;
  pl_fs : FaultState;
  pl_wakes : Z;
  pl_shutdown : bool;
  pl_handles : Z;
  pl_worker : wpoint;
  pl_calls : list fpoint
}.

Definition pl_state (p : Plant) : WriteState := en_state (pl_engine p).

Definition ran (en : Engine) (s : FaultState) (p : Plant) : Plant :=
  {| pl_engine := en; pl_fs := s; pl_wakes := pl_wakes p; pl_shutdown := pl_shutdown p;
     pl_handles := pl_handles p; pl_worker := pl_worker p; pl_calls := pl_calls p |}.
Definition at_worker (w : wpoint) (p : Plant) : Plant :=
  {| pl_engine := pl_engine p; pl_fs := pl_fs p; pl_wakes := pl_wakes p; pl_shutdown := pl_shutdown p;
     pl_handles := pl_handles p; pl_worker := w; pl_calls := pl_calls p |}.
Definition with_calls (calls : list fpoint) (p : Plant) : Plant :=
  {| pl_engine := pl_engine p; pl_fs := pl_fs p; pl_wakes := pl_wakes p; pl_shutdown := pl_shutdown p;
     pl_handles := pl_handles p; pl_worker := pl_worker p; pl_calls := calls |}.
Definition at_call (c : nat) (f : fpoint) (p : Plant) : Plant := with_calls (<[c := f]> (pl_calls p)) p.
Definition with_handles (handles : Z) (p : Plant) : Plant :=
  {| pl_engine := pl_engine p; pl_fs := pl_fs p; pl_wakes := pl_wakes p; pl_shutdown := pl_shutdown p;
     pl_handles := handles; pl_worker := pl_worker p; pl_calls := pl_calls p |}.
Definition with_shutdown (p : Plant) : Plant :=
  {| pl_engine := pl_engine p; pl_fs := pl_fs p; pl_wakes := pl_wakes p; pl_shutdown := true;
     pl_handles := pl_handles p; pl_worker := pl_worker p; pl_calls := pl_calls p |}.

(** ** Signals *)

Definition generation (p : Plant) : Z := wrap64 (pl_wakes p).

(** [worker_changed.notify_all()] and [state_changed.notify_all()] *)
Definition woken_worker (w : wpoint) : wpoint := match w with WSleep g => WWait g | w => w end.
Definition woken_call (f : fpoint) : fpoint :=
  match f with FRoomSleep => FRoom | FDrainSleep => FDrain | f => f end.

Definition wake_all (p : Plant) : Plant :=
  {| pl_engine := pl_engine p; pl_fs := pl_fs p; pl_wakes := pl_wakes p + 1; pl_shutdown := pl_shutdown p;
     pl_handles := pl_handles p; pl_worker := woken_worker (pl_worker p); pl_calls := map woken_call (pl_calls p) |}.

(** [while *generation == observed { wait }] *)
Definition wait_for_work (observed : Z) (p : Plant) : wpoint :=
  if generation p =? observed then WSleep observed else WProbe (generation p).

Section Threads.
  Context `{C : Crc32c} `{SN : Snappy} (options : Options).

(** A critical section. *)
Definition locked {A} (m : SFS Engine A) (p : Plant) : result A * Plant :=
  let '((r, en), s) := m (pl_engine p) (pl_fs p) in (r, ran en s p).

Definition is_failed (st : WriteState) : bool := bool_decide (is_Some (es_terminal_failure st)).

(** ** The worker *)

(** The closure of the iteration, whose result decides whether the loop goes on. *)
Definition flush_attempt (immutable : ImmutableMemTable) (built : result TableBuildResult) : SFS WriteState unit :=
  let* built := c_lift built in flush_publish immutable built.

(** The next action of [background_loop].  [weak.upgrade()] succeeds: the last handle
    joins the worker before the engine is freed. *)
Definition worker_step (p : Plant) : option Plant :=
  match pl_worker p with
  | WStart => Some (at_worker (WProbe (generation p)) p)
  | WProbe g => Some (at_worker (if pl_shutdown p then WExit else WTake g) p)
  | WTake g =>
    if es_closed (pl_state p) || is_failed (pl_state p) then Some (at_worker WExit p)
    else
      match es_immutables (pl_state p) with
      | [] => Some (at_worker (WWait g) p)
      | _ :: _ =>
        Some (match locked (on_state flush_begin) p with
              | (Ok (Some (immutable, file_number)), p) => at_worker (WBuild g immutable file_number) p
              | (_, p) => at_worker WExit (wake_all p)
              end)
      end
  | WBuild g immutable file_number =>
    let '(built, s) := flush_build options immutable file_number (pl_fs p) in
    Some (at_worker (WPublish g immutable built) (ran (pl_engine p) s p))
  | WPublish g immutable built =>
    let published := is_ok (flush_attempt immutable built (pl_state p) (pl_fs p)).1.1 in
    let '(_, p) := locked (on_state (flush_finish immutable built)) p in
    Some (at_worker (if published then WProbe g else WExit) (wake_all p))
  | WWait g => Some (at_worker (wait_for_work g p) p)
  | WSleep _ | WExit => None
  end.

(** ** Calls of [flush] *)

(** [while !state.immutables.is_empty() || state.flush_running] *)
Definition drain_point (p : Plant) : fpoint :=
  if negb (bool_decide (es_immutables (pl_state p) = [])) || es_flush_running (pl_state p) then FDrainSleep
  else FDone (Ok tt).

(** From the first loop on. *)
Definition flush_section (c : nat) (p : Plant) : Plant :=
  let fresh := MemTable_is_empty (mm_table (es_mutable (pl_state p))) in
  if negb fresh && (op_max_immutable_memtables options <=? zlen (es_immutables (pl_state p))) then at_call c FRoomSleep p
  else
    match locked (on_state (flush_rotate options)) p with
    | (Err e, p) => at_call c (FDone (Err e)) p
    | (Ok _, p) =>
      let p := if fresh then p else wake_all p in
      at_call c (drain_point p) p
    end.

(** The next action of a call. *)
Definition call_step (c : nat) (p : Plant) : option Plant :=
  match pl_calls p !! c with
  | Some FStart | Some FRoom =>
    Some (match ensure_writable (pl_state p) with
          | Err e => at_call c (FDone (Err e)) p
          | Ok _ => flush_section c p
          end)
  | Some FDrain =>
    Some (at_call c (match ensure_writable (pl_state p) with Err e => FDone (Err e) | Ok _ => drain_point p end) p)
  | _ => None
  end.

(** ** The other operations *)

(** [write_serialized] wakes the worker when it has rotated the memtable. *)
Definition write_call (prepare : result WriteBatch) (p : Plant) : Plant :=
  let '(_, p') := locked (write_serialized options prepare) p in
  if zlen (es_immutables (pl_state p)) <? zlen (es_immutables (pl_state p')) then wake_all p' else p'.

Definition sync_call (p : Plant) : Plant := (locked (on_state Engine_sync) p).2.

(** [close] wakes everybody unless the engine is closed already. *)
Definition close_call (p : Plant) : Plant :=
  let '(_, p') := locked (on_state Engine_close) p in
  if es_closed (pl_state p) && negb (is_failed (pl_state p)) then p' else wake_all p'.

(** [execute_compaction_plan] wakes everybody when it fails behind its checks. *)
Definition compact_call (plan : CompactionPlan) (read_time_unix_ms : Z) (p : Plant) : Plant :=
  let '(_, p') := locked (execute_compaction_plan options plan read_time_unix_ms) p in
  if negb (is_failed (pl_state p)) && is_failed (pl_state p') then wake_all p' else p'.

Definition pick_call (p : Plant) : Plant := (locked (compact_pick options) p).2.

(** [Clone] and [Drop]: the last handle stops the worker and waits for its end. *)
Definition clone_handle (p : Plant) : Plant := with_handles (pl_handles p + 1) p.
Definition drop_handle (p : Plant) : Plant :=
  let p' := with_handles (pl_handles p - 1) p in
  if pl_handles p =? 1 then wake_all (with_shutdown p') else p'.

Definition call_done (f : fpoint) : Prop := match f with FDone _ => True | _ => False end.

(** Reads, scans and snapshots touch none of the fields the threads look at. *)
Definition read_only (en en' : Engine) : Prop :=
  ∃ versions, en_state en' = with_reader_versions versions (en_state en).

(** The worker and the calls act on their own; callers with a handle do the rest. *)
Inductive acts : Plant → Plant → Prop :=
| acts_worker p p' : worker_step p = Some p' → acts p p'
| acts_call c p p' : call_step c p = Some p' → acts p p'.

Inductive step : Plant → Plant → Prop :=
| step_acts p p' : acts p p' → step p p'
| step_flush p : 0 < pl_handles p → step p (with_calls (pl_calls p ++ [FStart]) p)
| step_write prepare p : 0 < pl_handles p → step p (write_call prepare p)
| step_sync p : 0 < pl_handles p → step p (sync_call p)
| step_close p : 0 < pl_handles p → step p (close_call p)
| step_pick p : 0 < pl_handles p → step p (pick_call p)
| step_compact plan now p : 0 < pl_handles p → step p (compact_call plan now p)
| step_read en s p : 0 < pl_handles p → read_only (pl_engine p) en → step p (ran en s p)
| step_opened p : 0 < pl_handles p → step p (wake_all p)
| step_clone p : 0 < pl_handles p → step p (clone_handle p)
| step_drop p : 0 < pl_handles p → (pl_handles p = 1 → Forall call_done (pl_calls p)) → step p (drop_handle p)
| step_spurious_worker g p : pl_worker p = WSleep g → step p (at_worker (WWait g) p)
| step_spurious_call c f p : pl_calls p !! c = Some f → step p (at_call c (woken_call f) p).

(** An engine that has been opened: its worker has been started, [open_internal] still
    has to wake it when recovery left memtables to flush. *)
Definition opened_plant (en : Engine) (s : FaultState) : Plant :=
  {| pl_engine := en; pl_fs := s; pl_wakes := 0; pl_shutdown := false; pl_handles := 1;
     pl_worker := WStart; pl_calls := [] |}.

Definition reachable_plant (p : Plant) : Prop :=
  ∃ s0 en s, Engine_open options false s0 = (Ok en, s) ∧ rtc step (opened_plant en s) p.
End Threads.

(** ** What the operations do to the flush state *)

(** The fields the threads look at stay; a failure is never forgotten. *)
Record quiet (st st' : WriteState) : Prop := {
  qu_immutables : es_immutables st' = es_immutables st;
  qu_running : es_flush_running st' = es_flush_running st;
  qu_closed : es_closed st' = es_closed st;
  qu_failed : is_failed st = true → is_failed st' = true
}.

#[export] Instance quiet_preorder : PreOrder quiet.
Proof. split; [by intros st; split|]. intros a b c [] []. split; try congruence. auto. Qed.

Lemma quiet_terminal e st : quiet st (record_terminal_failure e st).2 ∧ is_failed (record_terminal_failure e st).2 = true.
Proof.
  unfold record_terminal_failure. destruct (es_terminal_failure st) eqn:E; cbn.
  - split; [done|]. unfold is_failed. by rewrite E.
  - split; [by split|done].
Qed.

Lemma quiet_background e st : quiet st (record_background_failure e st).2 ∧ is_failed (record_background_failure e st).2 = true.
Proof.
  unfold record_background_failure. pose proof (quiet_terminal e st) as [[] Hf]. destruct (record_terminal_failure e st) as [e' st'].
  cbn in *. split; [by split|done].
Qed.

Lemma quiet_fail {A} e : keeps quiet (@fail_terminally A e).
Proof.
  intros st s. unfold fail_terminally. pose proof (quiet_terminal e st) as [H _].
  by destruct (record_terminal_failure e st) as [e' st'].
Qed.

Lemma quiet_field f :
  (∀ st, es_immutables (f st) = es_immutables st ∧ es_flush_running (f st) = es_flush_running st ∧
         es_closed (f st) = es_closed st ∧ es_terminal_failure (f st) = es_terminal_failure st) → keeps quiet (c_update f).
Proof. intros H. apply keeps_update. intros st. destruct (H st) as (? & ? & ? & Hf). split; try done. unfold is_failed. by rewrite Hf. Qed.

#[local] Hint Resolve quiet_fail : keeps.
#[local] Hint Extern 1 (keeps quiet (c_update _)) => apply quiet_field; intros ?; split_and!; reflexivity : keeps.

Section Quiet.
  Context `{C : Crc32c} `{SN : Snappy} (options : Options).

Lemma quiet_apply_visibility edit st s : quiet st (versions_apply_with_visibility edit st s).1.2.
Proof.
  unfold versions_apply_with_visibility. destruct (apply_with_visibility _ _ _) as [[[o|] vs'] s']; by split.
Qed.

Lemma quiet_apply edit : keeps quiet (versions_apply edit).
Proof.
  intros st s. unfold versions_apply. pose proof (quiet_apply_visibility edit st s) as H.
  by destruct (versions_apply_with_visibility edit st s) as [[[o|] st'] s'].
Qed.

Lemma quiet_allocate : keeps quiet allocate_file_number.
Proof. unfold allocate_file_number. keeps_auto. Qed.
#[local] Hint Resolve quiet_apply quiet_allocate : keeps.

Lemma quiet_persist : keeps quiet persist_wal_state.
Proof. unfold persist_wal_state. keeps_auto. Qed.
Lemma quiet_sync_owned : keeps quiet sync_owned_wals.
Proof. unfold sync_owned_wals. keeps_auto. Qed.
#[local] Hint Resolve quiet_persist quiet_sync_owned : keeps.

Lemma quiet_sync : keeps quiet Engine_sync.
Proof. unfold Engine_sync. keeps_auto. Qed.

Lemma quiet_commit batch sequence : keeps quiet (commit_batch options batch sequence).
Proof. unfold commit_batch. keeps_auto. Qed.

Lemma quiet_retire : keeps quiet retire_obsolete_wals.
Proof.
  assert (∀ numbers, keeps quiet (remove_wals numbers)) as Hr; [|unfold retire_obsolete_wals; keeps_auto].
  induction numbers; cbn [remove_wals]; keeps_auto.
Qed.

Lemma quiet_reclaim readers : keeps quiet (reclaim_obsolete_sstables readers).
Proof.
  assert (∀ protected queue retained removed, keeps quiet (reclaim_loop protected queue retained removed)) as Hl.
  { intros protected queue. induction queue as [|o queue IH]; intros retained removed; cbn [reclaim_loop]; keeps_auto. }
  unfold reclaim_obsolete_sstables. keeps_auto.
Qed.
#[local] Hint Resolve quiet_retire quiet_reclaim : keeps.

Lemma quiet_publish plan output : keeps quiet (publish_compaction plan output).
Proof.
  intros st s. unfold publish_compaction. pose proof (quiet_apply_visibility (compaction_edit plan output) st s) as H.
  by destruct (versions_apply_with_visibility _ st s) as [[[o|] st'] s'].
Qed.
#[local] Hint Resolve quiet_publish : keeps.

Lemma quiet_execute plan readers oldest now : keeps quiet (execute_valid_compaction_plan options plan readers oldest now).
Proof. unfold execute_valid_compaction_plan. keeps_auto. Qed.

(** A rotation adds a memtable exactly when it succeeds. *)
Lemma rotate_flush_state largest st s :
  match rotate_memtable options largest st s with
  | ((Ok _, st'), _) => ∃ imm, es_immutables st' = es_immutables st ++ [imm] ∧ es_flush_running st' = es_flush_running st ∧
      es_closed st' = es_closed st ∧ (is_failed st = true → is_failed st' = true)
  | ((Err _, st'), _) => quiet st st'
  end.
Proof.
  unfold rotate_memtable. unfold c_bind at 1. pose proof (quiet_allocate st s) as H1.
  destruct (allocate_file_number st s) as [[[number|e] st1] s1]; cbn in H1; [|done].
  unfold c_bind at 1, c_fs. destruct (log_create _ _ s1) as [[wal|e] s2]; [|done].
  unfold c_bind at 1, c_get. unfold c_bind at 1.
  match goal with |- context [versions_apply ?edit st1 s2] => pose proof (quiet_apply edit st1 s2) as H2;
    destruct (versions_apply edit st1 s2) as [[[u|e] st2] s3] end; cbn in H2.
  - unfold c_update. cbn. destruct H1, H2. eexists. split; [by rewrite qu_immutables1, qu_immutables0|].
    split; [congruence|]. split; [congruence|]. auto.
  - by transitivity st1.
Qed.
End Quiet.

(** A computation that only appends memtables. *)
Record grown (l : list ImmutableMemTable) (st st' : WriteState) : Prop := {
  gr_immutables : es_immutables st' = es_immutables st ++ l;
  gr_running : es_flush_running st' = es_flush_running st;
  gr_closed : es_closed st' = es_closed st;
  gr_failed : is_failed st = true → is_failed st' = true
}.

Lemma quiet_grown st st' : quiet st st' ↔ grown [] st st'.
Proof. split; intros []; split; rewrite ?app_nil_r in *; done. Qed.

Lemma grown_quiet l a b c : quiet a b → grown l b c → grown l a c.
Proof. intros [] []. split; [congruence|congruence|congruence|auto]. Qed.

Lemma quiet_after l a b c : grown l a b → quiet b c → grown l a c.
Proof. intros [] []. split; [congruence|congruence|congruence|auto]. Qed.

Section States.
  Context `{C : Crc32c} `{SN : Snappy} (options : Options).

Lemma rotate_if_full_grown sequence st s : ∃ l, grown l st (rotate_if_full options sequence st s).1.2.
Proof.
  unfold rotate_if_full, c_bind, c_get. destruct (_ <=? _); [|exists []; by apply quiet_grown].
  unfold c_try. pose proof (rotate_flush_state options sequence st s) as H.
  destruct (rotate_memtable options sequence st s) as [[[u|e] st'] s'].
  - destruct H as (imm & ? & ? & ? & ?). exists [imm]. by split.
  - exists []. apply quiet_grown. transitivity st'; [done|]. apply quiet_terminal.
Qed.

Lemma write_grown prepare en s : ∃ l, grown l (en_state en) (en_state (write_serialized options prepare en s).1.2).
Proof.
  assert (∀ en', en' = en → ∃ l, grown l (en_state en) (en_state en')) as Hsame by (intros en' ->; exists []; by apply quiet_grown).
  unfold write_serialized, c_bind, c_get, c_lift, c_fs, fs_lift. destruct (ensure_writable _); [|by apply Hsame].
  destruct prepare as [batch|]; [|by apply Hsame]. destruct (validate_batch options batch); [|by apply Hsame].
  destruct (_ <=? _); [by apply Hsame|]. destruct (_ =? _); [by apply Hsame|].
  unfold on_state, c_update. pose proof (quiet_commit options batch (es_next_sequence (en_state en)) (en_state en) s) as Hc.
  destruct (commit_batch options batch _ (en_state en) s) as [[[u|e] st1] s1]; cbn [fst snd] in *.
  2:{ exists []. by apply quiet_grown. }
  destruct (rotate_if_full_grown (es_next_sequence (en_state en)) st1 s1) as [l Hl].
  change (en_state (with_committed_sequence _ (with_state st1 en))) with st1.
  destruct (rotate_if_full options _ st1 s1) as [[r st2] s2]. exists l. exact (grown_quiet _ _ _ _ Hc Hl).
Qed.

Lemma flush_rotate_state st s :
  ensure_writable st = Ok tt →
  if MemTable_is_empty (mm_table (es_mutable st)) then flush_rotate options st s = ((Ok tt, st), s)
  else match flush_rotate options st s with
       | ((Ok _, st'), _) => ∃ imm, grown [imm] st st'
       | ((Err _, st'), _) => quiet st st'
       end.
Proof.
  intros Hw. assert (flush_rotate options st s =
    if MemTable_is_empty (mm_table (es_mutable st)) then ((Ok tt, st), s)
    else c_try (rotate_memtable options (saturating_sub (es_next_sequence st) 1)) fail_terminally st s) as ->.
  { unfold flush_rotate, c_bind, c_get, c_lift, c_fs, fs_lift. rewrite Hw. by destruct (MemTable_is_empty _). }
  destruct (MemTable_is_empty _); [done|]. unfold c_try.
  pose proof (rotate_flush_state options (saturating_sub (es_next_sequence st) 1) st s) as H.
  destruct (rotate_memtable options _ st s) as [[[u|e] st'] s'].
  - destruct H as (imm & ? & ? & ? & ?). exists imm. by split.
  - unfold fail_terminally. pose proof (quiet_terminal e st') as [Hq _].
    destruct (record_terminal_failure e st'). by transitivity st'.
Qed.

Lemma close_state st s :
  let st' := (Engine_close st s).1.2 in
  es_immutables st' = es_immutables st ∧ es_flush_running st' = es_flush_running st ∧ es_closed st' = true ∧
  (is_failed st = true → is_failed st' = true) ∧ (es_closed st = true → is_failed st = false → st' = st).
Proof.
  destruct (Engine_close st s) as [[r st'] s'] eqn:E. cbn. unfold Engine_close, c_bind at 1, c_get in E.
  destruct (es_terminal_failure st) as [f|] eqn:Ef.
  { cbn in E. injection E as <- <- <-. cbn. repeat split; try done. intros _ Hf. unfold is_failed in Hf. by rewrite Ef in Hf. }
  destruct (es_closed st) eqn:Ec; [by injection E as <- <- <-|].
  assert (keeps quiet (let* _ := sync_owned_wals in persist_wal_state)) as Hk.
  { apply keeps_bind; [apply _|apply quiet_sync_owned|intros _; apply quiet_persist]. }
  specialize (Hk st s). unfold c_bind at 1, c_try in E.
  destruct ((let* _ := sync_owned_wals in persist_wal_state) st s) as [[[u|e] st1] s1]; cbn in Hk.
  - injection E as <- <- <-. destruct Hk. cbn. repeat split; done.
  - pose proof (quiet_terminal e st1) as [Hq Hf]. destruct (record_terminal_failure e st1) as [e' st2]. cbn in *.
    injection E as <- <- <-. destruct Hk, Hq. cbn. repeat split; try congruence. intros _. exact Hf.
Qed.

Lemma execute_quiet plan now en s : quiet (en_state en) (en_state (execute_compaction_plan options plan now en s).1.2).
Proof.
  unfold execute_compaction_plan, c_bind, c_get, c_lift, c_fs, fs_lift.
  destruct (ensure_writable _); [|done]. destruct (_ || _); [done|]. destruct (validate_compaction_plan _ _); [|done].
  unfold on_state, c_try. pose proof (quiet_execute options plan (en_readers en) (oldest_active (en_snapshots en)) now (en_state en) s) as H.
  destruct (execute_valid_compaction_plan _ _ _ _ _ _ _) as [[[u|e] st'] s']; cbn in *; [done|].
  pose proof (quiet_background e st') as [Hq _]. destruct (record_background_failure e st'). cbn in *. by transitivity st'.
Qed.

Lemma pick_quiet en s : quiet (en_state en) (en_state (compact_pick options en s).1.2).
Proof.
  unfold compact_pick, c_bind, c_get, c_lift, c_fs, fs_lift. destruct (ensure_writable _); [|done].
  unfold on_state. pose proof (quiet_reclaim (en_readers en) (en_state en) s) as H.
  by destruct (reclaim_obsolete_sstables (en_readers en) (en_state en) s) as [[[u|e] st'] s'].
Qed.

(** The worker's two critical sections. *)
Lemma begin_state st s :
  es_closed st = false → is_failed st = false → es_immutables st ≠ [] →
  let st' := (flush_begin st s).1.2 in
  es_immutables st' = es_immutables st ∧ es_closed st' = false ∧
  match (flush_begin st s).1.1 with
  | Ok (Some _) => es_flush_running st' = true
  | _ => es_flush_running st' = false ∧ is_failed st' = true
  end.
Proof.
  intros Hc Hf Hi. destruct (flush_begin st s) as [[r st'] s'] eqn:E. cbn. unfold flush_begin, c_bind at 1, c_get in E.
  fold (is_failed st) in E. rewrite Hc, Hf in E. cbn [orb] in E.
  destruct (es_immutables st) as [|imm rest] eqn:Ei; [done|].
  unfold c_bind at 1, c_update at 1 in E. unfold c_try, c_bind at 1 in E.
  pose proof (quiet_allocate (with_flush_running true st) s) as Ha.
  destruct (allocate_file_number (with_flush_running true st) s) as [[[n|e] st1] s1]; cbn in Ha.
  - injection E as <- <- <-. destruct Ha. cbn in *. repeat split; congruence.
  - unfold c_bind, c_update, c_ret in E. injection E as <- <- <-. cbn.
    pose proof (quiet_background e st1) as [[] Hb]. destruct Ha. cbn in *. repeat split; try congruence. exact Hb.
Qed.

Lemma attempt_state imm built st s :
  let st' := (flush_attempt imm built st s).1.2 in
  es_flush_running st' = es_flush_running st ∧ es_closed st' = es_closed st ∧ (is_failed st = true → is_failed st' = true) ∧
  (es_immutables st' = es_immutables st ∨ es_immutables st' = drop 1 (es_immutables st)) ∧
  (is_ok (flush_attempt imm built st s).1.1 = true → es_immutables st' = drop 1 (es_immutables st)).
Proof.
  destruct (flush_attempt imm built st s) as [[r st'] s'] eqn:E. cbn.
  unfold flush_attempt, c_bind at 1, c_lift, c_fs, fs_lift in E. destruct built as [built|]; [|injection E as <- <- <-; repeat split; auto; done].
  unfold flush_publish, c_bind at 1, c_get in E. unfold c_bind at 1, c_lift, c_fs, fs_lift in E.
  destruct (FileMeta_new _ _ _ _) as [file|]; [|injection E as <- <- <-; repeat split; auto; done]. unfold c_bind at 1 in E.
  match type of E with context [versions_apply ?edit st s] => pose proof (quiet_apply edit st s) as H2;
    destruct (versions_apply edit st s) as [[[u|e] st2] s3] end; cbn in H2.
  2:{ injection E as <- <- <-. destruct H2. cbn. repeat split; auto; done. }
  unfold c_bind, c_update in E. pose proof (quiet_retire (with_immutables (drop 1 (es_immutables st2)) st2) s3) as H3.
  destruct (retire_obsolete_wals _ s3) as [[r3 st3] s4]. injection E as <- <- <-. destruct H2, H3. cbn in *.
  assert (es_immutables st3 = drop 1 (es_immutables st)) as Hd by congruence.
  repeat split; try congruence; auto.
Qed.

Lemma finish_state imm built st s :
  let st' := (flush_finish imm built st s).1.2 in
  es_flush_running st' = false ∧ es_closed st' = es_closed st ∧ (is_failed st = true → is_failed st' = true) ∧
  (es_immutables st' = es_immutables st ∨ es_immutables st' = drop 1 (es_immutables st)) ∧
  if is_ok (flush_attempt imm built st s).1.1 then es_immutables st' = drop 1 (es_immutables st)
  else is_failed st' = true.
Proof.
  pose proof (attempt_state imm built st s) as Ha.
  destruct (flush_finish imm built st s) as [[r st'] s'] eqn:E. cbn [fst snd]. unfold flush_finish in E.
  fold (flush_attempt imm built) in E. unfold c_bind at 1, c_try in E.
  destruct (flush_attempt imm built st s) as [[[u|e] st1] s1]; cbn in *; destruct Ha as (Hr & Hc & Hf & Hi & Hok);
    injection E as <- <- <-; cbn.
  - repeat split; auto.
  - pose proof (quiet_background e (with_flush_running false st1)) as [[] Hb]. cbn in *.
    repeat split; [congruence|auto| |exact Hb]. destruct Hi; [left|right]; congruence.
Qed.
End States.

(** ** The invariant *)

Definition busy (w : wpoint) : bool := match w with WBuild _ _ _ | WPublish _ _ _ => true | _ => false end.

Definition seen (w : wpoint) : option Z :=
  match w with
  | WProbe g | WTake g | WBuild g _ _ | WPublish g _ _ | WWait g | WSleep g => Some g
  | WStart | WExit => None
  end.

(** The worker's generation will be compared before it looks for a shutdown. *)
Definition committed (w : wpoint) : bool :=
  match w with WTake _ | WBuild _ _ _ | WPublish _ _ _ | WWait _ | WSleep _ => true | _ => false end.

Definition asleep (f : fpoint) : bool := match f with FRoomSleep | FDrainSleep => true | _ => false end.

(** What holds also between a change and its signal. *)
Record plant_core (p : Plant) : Prop := {
  pc_wakes : 0 ≤ pl_wakes p;
  pc_running : es_flush_running (pl_state p) = busy (pl_worker p);
  pc_job : busy (pl_worker p) = true → es_immutables (pl_state p) ≠ [];
  pc_exit : pl_worker p = WExit → es_closed (pl_state p) = true ∨ is_failed (pl_state p) = true ∨ pl_shutdown p = true;
  pc_shutdown : pl_shutdown p = true → pl_handles p ≤ 0 ∧ Forall call_done (pl_calls p);
  pc_seen : pl_wakes p < 2 ^ 64 → ∀ g, seen (pl_worker p) = Some g → 0 ≤ g ≤ pl_wakes p
}.

Record plant_inv (max : Z) (p : Plant) : Prop := {
  pi_core : plant_core p;
  pi_room : FRoomSleep ∈ pl_calls p → max ≤ zlen (es_immutables (pl_state p));
  pi_drain : FDrainSleep ∈ pl_calls p → es_immutables (pl_state p) ≠ [] ∨ es_flush_running (pl_state p) = true;
  pi_closed : es_closed (pl_state p) = true → ∀ f, f ∈ pl_calls p → asleep f = false;
  pi_sleep : pl_wakes p < 2 ^ 64 → ∀ g, pl_worker p = WSleep g → g = pl_wakes p;
  pi_idle : pl_wakes p < 2 ^ 64 → ∀ g, pl_worker p = WWait g ∨ pl_worker p = WSleep g → g = pl_wakes p →
    es_immutables (pl_state p) = [];
  pi_late : pl_wakes p < 2 ^ 64 → pl_shutdown p = true → committed (pl_worker p) = true →
    ∀ g, seen (pl_worker p) = Some g → g < pl_wakes p
}.

Lemma generation_small p : 0 ≤ pl_wakes p < 2 ^ 64 → generation p = pl_wakes p.
Proof. intros H. unfold generation, wrap64. by apply Z.mod_small. Qed.

Lemma not_asleep_woken f : asleep (woken_call f) = false.
Proof. by destruct f. Qed.

Lemma woken_done l : Forall call_done l → Forall call_done (map woken_call l).
Proof. intros H. apply Forall_map. eapply Forall_impl; [exact H|]. by intros []. Qed.

(** A signal restores the invariant. *)
Lemma wake_inv max p : plant_core p → plant_inv max (wake_all p).
Proof.
  intros [Hw Hr Hj He Hs Hg].
  assert (∀ f, f ∈ map woken_call (pl_calls p) → asleep f = false) as Hno.
  { intros f (f0 & -> & _)%list_elem_of_fmap. apply not_asleep_woken. }
  assert (seen (woken_worker (pl_worker p)) = seen (pl_worker p)) as Hseen by (by destruct (pl_worker p)).
  assert (busy (woken_worker (pl_worker p)) = busy (pl_worker p)) as Hbusy by (by destruct (pl_worker p)).
  split; [split| | | | | |]; unfold pl_state in *; cbn; rewrite ?Hseen, ?Hbusy; auto.
  - lia.
  - intros Hx. apply He. by destruct (pl_worker p).
  - intros Hx. destruct (Hs Hx). split; [done|by apply woken_done].
  - intros Hlt g Hx. destruct (Hg ltac:(lia) g Hx). lia.
  - intros Hx. by specialize (Hno _ Hx).
  - intros Hx. by specialize (Hno _ Hx).
  - intros _ g Hx. by destruct (pl_worker p).
  - intros Hlt g Hx ->. exfalso. assert (seen (pl_worker p) = Some (pl_wakes p + 1)) as Hsn.
    { rewrite <- Hseen. by destruct Hx as [-> | ->]. }
    destruct (Hg ltac:(lia) _ Hsn). lia.
  - intros Hlt _ _ g Hx. destruct (Hg ltac:(lia) g Hx). lia.
Qed.

Section Preserved.
  Context (max : Z).

(** The state changes under the threads. *)
Lemma core_grown l en s p : plant_core p → grown l (pl_state p) (en_state en) → plant_core (ran en s p).
Proof.
  intros [Hw Hr Hj He Hs Hg] [Gi Gr Gc Gf]. unfold pl_state in *. split; unfold pl_state; cbn; auto; [congruence| |].
  - intros Hb Hnil. rewrite Gi in Hnil. apply app_eq_nil in Hnil as [Hnil _]. by apply Hj.
  - intros Hx. destruct (He Hx) as [?|[?|?]]; [left; congruence|auto..].
Qed.

Lemma inv_quiet en s p : plant_inv max p → quiet (pl_state p) (en_state en) → plant_inv max (ran en s p).
Proof.
  intros [Hcore Hroom Hdrain Hclosed Hsleep Hidle Hlate] Hq.
  split; [apply (core_grown []); [done|by apply quiet_grown]|..]; destruct Hq as [Qi Qr Qc Qf]; unfold pl_state in *; cbn; auto.
  - by rewrite Qi.
  - by rewrite Qi, Qr.
  - by rewrite Qc.
  - by rewrite Qi.
Qed.

(** A call moves without going to sleep, or to sleep for a reason. *)
Lemma inv_call c f p :
  plant_inv max p → pl_shutdown p = false →
  (f = FRoomSleep → max ≤ zlen (es_immutables (pl_state p))) →
  (f = FDrainSleep → es_immutables (pl_state p) ≠ [] ∨ es_flush_running (pl_state p) = true) →
  (asleep f = true → es_closed (pl_state p) = false) →
  plant_inv max (at_call c f p).
Proof.
  intros [[Hw Hr Hj He Hs Hg] Hroom Hdrain Hclosed Hsleep Hidle Hlate] Hsd Hf1 Hf2 Hf3.
  assert (∀ x, x ∈ <[c := f]> (pl_calls p) → x = f ∨ x ∈ pl_calls p) as Hin.
  { intros x Hx. apply list_elem_of_lookup in Hx as [i Hi]. destruct (decide (i = c)) as [->|Hne].
    - apply list_lookup_insert_Some in Hi as [(_ & -> & _)|(? & _)]; [by left|done].
    - rewrite list_lookup_insert_ne in Hi by done. right. by apply list_elem_of_lookup_2 in Hi. }
  split; [split|..]; unfold pl_state in *; cbn; auto.
  - by rewrite Hsd.
  - intros [<-|?]%Hin; auto.
  - intros [<-|?]%Hin; auto.
  - intros Hx x [->|Hy]%Hin; [|eauto]. destruct (asleep f) eqn:E; [|done]. rewrite (Hf3 eq_refl) in Hx. done.
Qed.

(** The worker moves on without a change of the state. *)
Lemma inv_worker w p :
  plant_inv max p → busy w = busy (pl_worker p) →
  (w = WExit → es_closed (pl_state p) = true ∨ is_failed (pl_state p) = true ∨ pl_shutdown p = true) →
  (pl_wakes p < 2 ^ 64 → ∀ g, seen w = Some g → seen (pl_worker p) = Some g ∨ g = generation p) →
  (pl_wakes p < 2 ^ 64 → ∀ g, w = WSleep g → g = pl_wakes p) →
  (pl_wakes p < 2 ^ 64 → ∀ g, w = WWait g ∨ w = WSleep g → g = pl_wakes p → es_immutables (pl_state p) = []) →
  (pl_wakes p < 2 ^ 64 → pl_shutdown p = true → committed w = true → ∀ g, seen w = Some g → g < pl_wakes p) →
  plant_inv max (at_worker w p).
Proof.
  intros [[Hw Hr Hj He Hs Hg] Hroom Hdrain Hclosed Hsleep Hidle Hlate] Hb Hx Hsn H1 H2 H3.
  split; [split|..]; unfold pl_state in *; cbn; auto.
  - by rewrite Hb.
  - by rewrite Hb.
  - intros Hlt g Hgx. destruct (Hsn Hlt g Hgx) as [Hy| ->]; [by apply Hg|]. rewrite generation_small by lia. lia.
Qed.
End Preserved.

Section Steps.
  Context `{C : Crc32c} `{SN : Snappy} (options : Options).
  Abbreviation max := (op_max_immutable_memtables options).

Lemma locked_on_state {A} (m : SFS WriteState A) p :
  locked (on_state m) p =
    ((m (pl_state p) (pl_fs p)).1.1, ran (with_state (m (pl_state p) (pl_fs p)).1.2 (pl_engine p)) (m (pl_state p) (pl_fs p)).2 p).
Proof. unfold locked, on_state, pl_state. by destruct (m _ _) as [[r st] s]. Qed.

(** A state with the same memtables under a worker that is at another point. *)
Lemma core_flush st s w p :
  plant_core p → es_flush_running st = busy w → (busy w = true → es_immutables st ≠ []) →
  es_closed st = es_closed (pl_state p) → (is_failed (pl_state p) = true → is_failed st = true) →
  (w = WExit → is_failed st = true) →
  (∀ g, seen w = Some g → seen (pl_worker p) = Some g) →
  plant_core (at_worker w (ran (with_state st (pl_engine p)) s p)).
Proof.
  intros [Hw Hr Hj He Hs Hg] Hb Hi Hc Hf Hx Hsn. split; unfold pl_state in *; cbn; auto.
Qed.

Lemma wake_at_worker w p : woken_worker w = w → at_worker w (wake_all p) = wake_all (at_worker w p).
Proof. intros Hw. unfold wake_all, at_worker. cbn. by rewrite Hw. Qed.

Lemma inv_take g p p' :
  plant_inv max p → pl_worker p = WTake g → worker_step options p = Some p' → plant_inv max p'.
Proof.
  intros Hinv Hp. unfold worker_step. rewrite Hp. pose proof Hinv as [Hcore Hroom Hdrain Hclosed Hsleep Hidle Hlate].
  destruct (es_closed (pl_state p)) eqn:Ec; [cbn [orb]|destruct (is_failed (pl_state p)) eqn:Ef; cbn [orb]].
  1, 2: intros [= <-]; apply inv_worker; rewrite ?Hp; auto; first [done|by intros ? ? [?|?]].
  destruct (es_immutables (pl_state p)) as [|imm rest] eqn:Ei.
  { intros [= <-]. apply inv_worker; rewrite ?Hp; auto; try done.
    intros Hlt Hsd _ g' [= <-]. by apply Hlate; rewrite ?Hp. }
  intros [= <-]. rewrite locked_on_state.
  pose proof (begin_state (pl_state p) (pl_fs p) Ec Ef ltac:(by rewrite Ei)) as Hb.
  destruct (flush_begin (pl_state p) (pl_fs p)) as [[r st] s]. cbn [fst snd] in *. destruct Hb as (Hi & Hc & Hr).
  assert (∀ w, es_flush_running st = busy w → (w = WExit → is_failed st = true) → (∀ g', seen w = Some g' → g' = g) →
    plant_core (at_worker w (ran (with_state st (pl_engine p)) s p))) as Hnew.
  { intros w H1 H2 H3. apply core_flush; auto; [rewrite Hi; by rewrite Ei|congruence|congruence|].
    intros g' ->%H3. by rewrite Hp. }
  assert (es_flush_running st = false ∧ is_failed st = true →
    plant_inv max (at_worker WExit (wake_all (ran (with_state st (pl_engine p)) s p)))) as Hexit.
  { intros [? ?]. rewrite wake_at_worker by done. apply wake_inv, Hnew; done. }
  destruct r as [[[im n]|]|e]; auto. clear Hexit.
  split; [apply Hnew; [done|done|by intros g' [= <-]]|..]; unfold pl_state; cbn; try done.
  - rewrite Hi, Ei. exact Hroom.
  - intros _. by right.
  - by rewrite Hc.
  - intros ? ? [?|?]; done.
  - intros Hlt Hsd _ g' [= <-]. apply Hlate; by rewrite ?Hp.
Qed.

Lemma inv_publish g imm built p p' :
  plant_inv max p → pl_worker p = WPublish g imm built → worker_step options p = Some p' → plant_inv max p'.
Proof.
  intros [Hcore _ _ _ _ _ _] Hp. unfold worker_step. rewrite Hp, locked_on_state.
  pose proof (finish_state imm built (pl_state p) (pl_fs p)) as Hf.
  destruct (flush_finish imm built (pl_state p) (pl_fs p)) as [[r st] s]. cbn [fst snd] in *.
  destruct Hf as (Hr & Hc & Hfl & _ & Hok).
  intros [= <-]. rewrite wake_at_worker by (by destruct (is_ok _)). apply wake_inv, core_flush; auto.
  - by destruct (is_ok _).
  - by destruct (is_ok _).
  - by destruct (is_ok _).
  - intros g' Hg'. rewrite Hp. by destruct (is_ok _).
Qed.

Lemma inv_worker_step p p' : plant_inv max p → worker_step options p = Some p' → plant_inv max p'.
Proof.
  intros Hinv Hstep. destruct (pl_worker p) as [|g|g|g imm n|g imm built|g|g|] eqn:Hp;
    [| |by eapply inv_take| |by eapply inv_publish| | |]; unfold worker_step in Hstep; rewrite Hp in Hstep;
    pose proof Hinv as [Hcore Hroom Hdrain Hclosed Hsleep Hidle Hlate]; rewrite ?Hp in *; try done.
  - injection Hstep as <-. apply inv_worker; rewrite ?Hp; auto; try done.
    + intros _ g [= <-]. by right.
    + by intros ? ? [?|?].
  - injection Hstep as <-. destruct (pl_shutdown p) eqn:Es; apply inv_worker; rewrite ?Hp, ?Es; auto; try done;
      by intros ? ? [?|?].
  - destruct (flush_build options imm n (pl_fs p)) as [built s]. injection Hstep as <-.
    apply inv_worker; [by apply inv_quiet|..]; cbn; rewrite ?Hp; auto; try done. by intros ? ? [?|?].
  - injection Hstep as <-. unfold wait_for_work. pose proof (pc_wakes _ Hcore) as Hpos.
    destruct (Z.eqb_spec (generation p) g) as [He|Hne]; apply inv_worker; rewrite ?Hp; auto; try done.
    + intros Hlt g' [= <-]. rewrite generation_small in He; lia.
    + intros Hlt g' [?|[= <-]] Hgw; [done|]. apply (Hidle Hlt g); auto.
    + intros Hlt g' [= <-]. by right.
    + by intros ? ? [?|?].
Qed.

Lemma writable_open st : ensure_writable st = Ok tt → es_closed st = false ∧ is_failed st = false.
Proof. unfold ensure_writable, ensure_open, is_failed. destruct (es_terminal_failure st); [done|]. by destruct (es_closed st). Qed.

Lemma drain_reason p : drain_point p = FDrainSleep → es_immutables (pl_state p) ≠ [] ∨ es_flush_running (pl_state p) = true.
Proof. unfold drain_point. case_bool_decide; [|by left]. destruct (es_flush_running _); [by right|done]. Qed.

Lemma drain_not_room p : drain_point p ≠ FRoomSleep.
Proof. unfold drain_point. by destruct (_ || _). Qed.

Lemma inv_flush_section c p :
  plant_inv max p → pl_shutdown p = false → ensure_writable (pl_state p) = Ok tt → plant_inv max (flush_section options c p).
Proof.
  intros Hinv Hsd Hw. destruct (writable_open _ Hw) as [Hc _]. unfold flush_section.
  pose proof (flush_rotate_state options (pl_state p) (pl_fs p) Hw) as Hrot.
  destruct (MemTable_is_empty _); cbn [negb andb].
  - rewrite locked_on_state, Hrot. cbn [fst snd].
    assert (plant_inv max (ran (with_state (pl_state p) (pl_engine p)) (pl_fs p) p)) as Hinv' by (by apply inv_quiet).
    apply inv_call; auto; [by intros ?%drain_not_room|by apply drain_reason].
  - destruct (Z.leb_spec max (zlen (es_immutables (pl_state p)))) as [Hfull|Hroom].
    { apply inv_call; auto; done. }
    rewrite locked_on_state. destruct (flush_rotate options (pl_state p) (pl_fs p)) as [[[u|e] st] s]; cbn [fst snd].
    + destruct Hrot as [im Hg]. set (p1 := ran (with_state st (pl_engine p)) s p).
      assert (plant_inv max (wake_all p1)) as Hinv'.
      { apply wake_inv, (core_grown [im]); [apply Hinv|exact Hg]. }
      apply inv_call; auto; [by intros ?%drain_not_room|by apply drain_reason|].
      intros _. unfold pl_state. cbn. by rewrite (gr_closed _ _ _ Hg).
    + apply inv_call; auto; try done. by apply inv_quiet.
Qed.

Lemma live_call p c f : plant_inv max p → pl_calls p !! c = Some f → ¬ call_done f → pl_shutdown p = false.
Proof.
  intros [[_ _ _ _ Hs _] _ _ _ _ _ _] Hc Hf. destruct (pl_shutdown p); [|done].
  destruct (Hs eq_refl) as [_ Hall]. rewrite Forall_lookup in Hall. by destruct (Hf (Hall _ _ Hc)).
Qed.

Lemma inv_call_step c p p' : plant_inv max p → call_step options c p = Some p' → plant_inv max p'.
Proof.
  intros Hinv. unfold call_step. destruct (pl_calls p !! c) as [f|] eqn:Hc; [|done].
  assert (¬ call_done f → pl_shutdown p = false) as Hsd by (by eapply live_call).
  destruct f; try done; intros [= <-]; specialize (Hsd ltac:(by intros []));
    destruct (ensure_writable (pl_state p)) as [[]|e] eqn:Hw; try (by apply inv_flush_section); apply inv_call; auto; try done.
  - by intros ?%drain_not_room.
  - apply drain_reason.
  - intros _. by apply writable_open in Hw as [? _].
Qed.

Lemma inv_handles h p : plant_inv max p → pl_shutdown p = false → plant_inv max (with_handles h p).
Proof.
  intros [[Hw Hr Hj He Hs Hg] Hroom Hdrain Hclosed Hsleep Hidle Hlate] Hsd. split; [split|..]; auto. cbn. by rewrite Hsd.
Qed.
End Steps.

Section Reachable.
  Context `{C : Crc32c} `{SN : Snappy} (options : Options).
  Abbreviation max := (op_max_immutable_memtables options).

Lemma inv_write prepare p : plant_inv max p → plant_inv max (write_call options prepare p).
Proof.
  intros Hinv. unfold write_call, locked. destruct (write_grown options prepare (pl_engine p) (pl_fs p)) as [l Hl].
  destruct (write_serialized options prepare (pl_engine p) (pl_fs p)) as [[r en] s]. cbn [fst snd] in Hl.
  destruct (Z.ltb_spec (zlen (es_immutables (pl_state p))) (zlen (es_immutables (pl_state (ran en s p))))) as [Hlt|Hge].
  - apply wake_inv, (core_grown l); [apply Hinv|exact Hl].
  - apply inv_quiet; [done|]. destruct l as [|x l]; [by apply quiet_grown|]. exfalso.
    unfold pl_state in Hge. cbn in Hge. rewrite (gr_immutables _ _ _ Hl), zlen_app, zlen_cons in Hge. zlen_pos. lia.
Qed.

Lemma inv_close p : plant_inv max p → plant_inv max (close_call p).
Proof.
  intros Hinv. unfold close_call. rewrite locked_on_state.
  pose proof (close_state (pl_state p) (pl_fs p)) as Hcl.
  destruct (Engine_close (pl_state p) (pl_fs p)) as [[r st] s]. cbn [fst snd] in *. destruct Hcl as (Hi & Hr & Hc & Hf & Hsame).
  destruct (es_closed (pl_state p) && negb (is_failed (pl_state p))) eqn:E.
  - apply andb_true_iff in E as [Ec Ef]. rewrite Hsame by (done || by apply negb_true_iff). by apply inv_quiet.
  - apply wake_inv. destruct Hinv as [[Hw Hru Hj He Hs Hg] _ _ _ _ _ _].
    split; unfold pl_state in *; cbn; rewrite ?Hi, ?Hr; auto.
Qed.

Lemma inv_drop p :
  plant_inv max p → 0 < pl_handles p → (pl_handles p = 1 → Forall call_done (pl_calls p)) → plant_inv max (drop_handle p).
Proof.
  intros Hinv Hpos Hdone. assert (pl_shutdown p = false) as Hsd.
  { destruct (pl_shutdown p) eqn:E; [|done]. destruct (pc_shutdown _ (pi_core _ _ Hinv) E). lia. }
  unfold drop_handle. destruct (Z.eqb_spec (pl_handles p) 1) as [H1|H1]; [|by apply inv_handles].
  apply wake_inv. destruct Hinv as [[Hw Hru Hj He Hs Hg] _ _ _ _ _ _]. split; auto. cbn. intros _. split; [lia|auto].
Qed.

Lemma plant_inv_step p p' : plant_inv max p → step options p p' → plant_inv max p'.
Proof.
  intros Hinv Hstep. assert (0 < pl_handles p → pl_shutdown p = false) as Hsd.
  { intros Hpos. destruct (pl_shutdown p) eqn:E; [|done]. destruct (pc_shutdown _ (pi_core _ _ Hinv) E). lia. }
  destruct Hstep as [p p' [q q' Hw|c q q' Hc]|p Hp|prepare p Hp|p Hp|p Hp|p Hp|plan now p Hp|en s p Hp Hro|p Hp|p Hp|p Hp Hd|g p Hg|c f p Hc].
  - by eapply inv_worker_step.
  - by eapply inv_call_step.
  - specialize (Hsd Hp). destruct Hinv as [[Hw Hru Hj He Hs Hg] Hroom Hdrain Hclosed Hsleep Hidle Hlate].
    assert (∀ f, f ∈ pl_calls p ++ [FStart] → f = FStart ∨ f ∈ pl_calls p) as Hin.
    { intros f [?|?%list_elem_of_singleton]%elem_of_app; auto. }
    split; [split|..]; unfold pl_state in *; cbn; auto; [by rewrite Hsd|intros [?|?]%Hin; auto; done..|].
    intros Hx f [->|?]%Hin; eauto.
  - by apply inv_write.
  - unfold sync_call. rewrite locked_on_state. apply inv_quiet; [done|apply quiet_sync].
  - by apply inv_close.
  - unfold pick_call, locked. pose proof (pick_quiet options (pl_engine p) (pl_fs p)) as Hq.
    destruct (compact_pick options _ _) as [[r en] s]. by apply inv_quiet.
  - unfold compact_call, locked. pose proof (execute_quiet options plan now (pl_engine p) (pl_fs p)) as Hq.
    destruct (execute_compaction_plan options plan now _ _) as [[r en] s]. cbn [fst snd] in Hq.
    assert (plant_inv max (ran en s p)) as Hinv' by (by apply inv_quiet).
    destruct (_ && _); [apply wake_inv, Hinv'|done].
  - apply inv_quiet; [done|]. destruct Hro as [versions Hro]. unfold pl_state. rewrite Hro. by split.
  - by apply wake_inv, Hinv.
  - by apply inv_handles; auto.
  - by apply inv_drop.
  - pose proof Hinv as [_ _ _ _ Hsleep Hidle Hlate]. apply inv_worker; rewrite ?Hg; auto; try done.
    + intros Hlt g' [[= <-]|?]; [|done]. apply (Hidle Hlt g). auto.
    + intros Hlt Hs _ g' [= <-]. by apply Hlate; rewrite ?Hg.
  - destruct (asleep f) eqn:Ea.
    + assert (pl_shutdown p = false) as Hsd' by (eapply live_call; [done|done|destruct f; (done || by intros [])]).
      apply inv_call; auto; by destruct f.
    + assert (woken_call f = f) as -> by (by destruct f).
      replace (at_call c f p) with p; [done|]. unfold at_call, with_calls. rewrite list_insert_id by done. by destruct p.
Qed.

(** What a computation returns. *)
Definition returns {A} (P : A → Prop) (m : FS A) : Prop := ∀ s a s', m s = (Ok a, s') → P a.

Lemma fs_returns_bind {A B} (P : B → Prop) (m : FS A) (k : A → FS B) : (∀ a, returns P (k a)) → returns P (fs_bind m k).
Proof. intros Hk s b s'. unfold fs_bind. destruct (m s) as [[a|] s1]; [apply Hk|done]. Qed.

Lemma opened_idle : returns (λ en, es_flush_running (en_state en) = false) (Engine_open options false).
Proof.
  unfold Engine_open. do 7 (apply fs_returns_bind; intros ?). unfold start_engine. destruct (_ <? _); [done|].
  do 5 (apply fs_returns_bind; intros ?). intros s en s'. destruct (apply_with_visibility _ _ _) as [[[f|] vs] s1]; [done|].
  revert s1 en s'. do 3 (apply fs_returns_bind; intros ?). by intros s1 en s' [= <- _].
Qed.

Lemma plant_inv_reachable p : reachable_plant options p → plant_inv max p.
Proof.
  intros (s0 & en & s & Hopen & Hr). pose proof (opened_idle _ _ _ Hopen) as Hrun. cbn in Hrun. assert (plant_inv max (opened_plant en s)) as H0.
  { split; [split|..]; unfold pl_state; cbn; try done; try lia.
    all: try (by intros ?%elem_of_nil). all: try (intros _ f ?%elem_of_nil; done). all: by intros ? ? [?|?]. }
  induction Hr as [p|p q r Hs _ IH]; [done|]. apply IH. by eapply plant_inv_step.
Qed.
End Reachable.

(** ** Termination *)

Fixpoint total (f : fpoint → nat) (l : list fpoint) : nat :=
  match l with
  | [] => 0
  | x :: l => f x + total f l
  end.

(** A call that may still rotate the memtable, and a call that can act. *)
Definition pending (f : fpoint) : nat := match f with FStart | FRoom | FRoomSleep => 1 | _ => 0 end.
Definition awake (f : fpoint) : nat := match f with FStart | FRoom | FDrain => 1 | _ => 0 end.

(** Memtables to flush, counting those that calls may still rotate. *)
Definition work (p : Plant) : nat := 2 * total pending (pl_calls p) + length (es_immutables (pl_state p)).
Definition alive (p : Plant) : nat := match pl_worker p with WExit => 0 | _ => 1 end.
Definition stale (p : Plant) (g : Z) : nat := if generation p =? g then 0 else 5.
Definition rank (p : Plant) : nat :=
  match pl_worker p with
  | WStart => 12
  | WProbe g => 4 + stale p g
  | WTake g => 3 + stale p g
  | WWait g => 2 + stale p g
  | WBuild _ _ _ => 2
  | WPublish _ _ _ => 1
  | WSleep _ | WExit => 0
  end.
Definition effort (p : Plant) : nat := rank p + total awake (pl_calls p).

Definition smaller (p' p : Plant) : Prop :=
  (work p' < work p ∨ work p' = work p ∧ alive p' < alive p ∨
   work p' = work p ∧ alive p' = alive p ∧ effort p' < effort p)%nat.

Lemma total_insert f l c x y : l !! c = Some x → (total f (<[c := y]> l) + f x = total f l + f y)%nat.
Proof.
  revert c. induction l as [|z l IH]; intros [|c] Hc; try done.
  - injection Hc as ->. cbn. lia.
  - specialize (IH c Hc). change (<[S c := y]> (z :: l)) with (z :: <[c := y]> l). cbn [total]. lia.
Qed.

Lemma total_pending_woken l : total pending (map woken_call l) = total pending l.
Proof. induction l as [|[] l IH]; cbn in *; lia. Qed.

Section Termination.
  Context `{C : Crc32c} `{SN : Snappy} (options : Options).
  Abbreviation max := (op_max_immutable_memtables options).

Lemma worker_smaller p p' : plant_inv max p → worker_step options p = Some p' → smaller p' p.
Proof.
  intros Hinv. unfold worker_step, smaller.
  destruct (pl_worker p) as [|g|g|g imm n|g imm built|g|g|] eqn:Hp; [| | | | | |done|done].
  - intros [= <-]. right; right. unfold work, alive, effort, rank, stale, pl_state, generation. cbn. rewrite Hp, Z.eqb_refl. lia.
  - intros [= <-]. right. unfold work, alive, effort, rank, stale, pl_state, generation. cbn. rewrite Hp.
    destruct (pl_shutdown p); [left; lia|right; lia].
  - destruct (es_closed (pl_state p)) eqn:Ec; [cbn [orb]|destruct (is_failed (pl_state p)) eqn:Ef; cbn [orb]].
    1, 2: intros [= <-]; right; left; unfold work, alive, pl_state; cbn; rewrite Hp; lia.
    destruct (es_immutables (pl_state p)) as [|imm rest] eqn:Ei.
    { intros [= <-]. right; right. unfold work, alive, effort, rank, stale, pl_state, generation. cbn. rewrite Hp. lia. }
    intros [= <-]. rewrite locked_on_state. pose proof (begin_state (pl_state p) (pl_fs p) Ec Ef ltac:(by rewrite Ei)) as (Hi & _ & _).
    destruct (flush_begin (pl_state p) (pl_fs p)) as [[r st] s]. cbn [fst snd] in *.
    assert (∀ w, work (at_worker w (ran (with_state st (pl_engine p)) s p)) = work p) as Hwork.
    { intros w. unfold work, pl_state. cbn. by rewrite Hi. }
    assert (work (at_worker WExit (wake_all (ran (with_state st (pl_engine p)) s p))) = work p ∧
      (alive (at_worker WExit (wake_all (ran (with_state st (pl_engine p)) s p))) < alive p)%nat) as Hexit.
    { split; [|unfold alive; cbn; rewrite Hp; lia]. unfold work, pl_state. cbn. by rewrite total_pending_woken, Hi. }
    destruct r as [[[im n]|]|e]; [|right; left; lia..]. right; right. rewrite Hwork.
    unfold alive, effort, rank, stale. cbn. rewrite Hp. lia.
  - destruct (flush_build options imm n (pl_fs p)) as [built s]. intros [= <-]. right; right.
    unfold work, alive, effort, rank, pl_state. cbn. rewrite Hp. lia.
  - rewrite locked_on_state. pose proof (finish_state imm built (pl_state p) (pl_fs p)) as (_ & _ & _ & Hi & Hok).
    pose proof (pc_job _ (pi_core _ _ Hinv)) as Hjob. rewrite Hp in Hjob. specialize (Hjob eq_refl).
    destruct (flush_finish imm built (pl_state p) (pl_fs p)) as [[r st] s]. cbn [fst snd] in *. intros [= <-].
    assert (length (drop 1 (es_immutables (pl_state p))) < length (es_immutables (pl_state p)))%nat as Hless.
    { rewrite length_drop. destruct (es_immutables (pl_state p)); [done|cbn [length]; lia]. }
    unfold work, alive, pl_state at 1 3 5 7. cbn. rewrite total_pending_woken, Hp. destruct (is_ok _).
    + left. rewrite Hok. lia.
    + destruct Hi as [-> | ->]; [right; left|left]; lia.
  - intros [= <-]. right; right. unfold wait_for_work, work, alive, effort, rank, stale, pl_state. cbn. rewrite Hp.
    destruct (Z.eqb_spec (generation p) g); cbn; [lia|]. unfold generation. cbn. rewrite Z.eqb_refl. lia.
Qed.

Lemma call_smaller c p p' : call_step options c p = Some p' → smaller p' p.
Proof.
  unfold call_step. destruct (pl_calls p !! c) as [f|] eqn:Hc; [|done].
  assert (∀ q y, pl_calls q !! c = Some f → total pending (pl_calls q) = total pending (pl_calls p) → pending f = 1%nat → pending y = 0%nat →
    (length (es_immutables (pl_state q)) ≤ S (length (es_immutables (pl_state p))))%nat → smaller (at_call c y q) p) as Hleft.
  { intros q y Hq Ht H1 H0 Hi. left. unfold work, pl_state in *. cbn. pose proof (total_insert pending _ _ _ y Hq). lia. }
  assert (∀ y, pending y = pending f → (awake y < awake f)%nat → smaller (at_call c y p) p) as Hright.
  { intros y H1 H2. right; right. unfold work, alive, effort, pl_state. cbn.
    pose proof (total_insert pending _ _ _ y Hc). pose proof (total_insert awake _ _ _ y Hc).
    unfold rank, stale, generation. cbn. lia. }
  assert (∀ q, pending (drain_point q) = 0%nat ∧ awake (drain_point q) = 0%nat) as Hdrain.
  { intros q. unfold drain_point. by destruct (_ || _). }
  assert (pending f = 1%nat → awake f = 1%nat → smaller
    match ensure_writable (pl_state p) with Err e => at_call c (FDone (Err e)) p | Ok _ => flush_section options c p end p) as Hpre.
  { intros Hpf Haf. destruct (ensure_writable (pl_state p)) as [[]|e] eqn:Hw; [|apply Hleft; auto; lia].
    unfold flush_section. pose proof (flush_rotate_state options (pl_state p) (pl_fs p) Hw) as Hrot.
    destruct (MemTable_is_empty _); cbn [negb andb].
    - rewrite locked_on_state, Hrot. cbn [fst snd]. apply Hleft; auto; apply Hdrain.
    - destruct (_ <=? _); [apply Hright; [done|cbn; lia]|]. rewrite locked_on_state.
      destruct (flush_rotate options (pl_state p) (pl_fs p)) as [[[u|e] st] s]; cbn [fst snd].
      + destruct Hrot as [im [Hi _ _ _]]. assert (woken_call f = f) as Hwf by (by destruct f).
        apply Hleft; auto; [|apply total_pending_woken|apply Hdrain|].
        * cbn. rewrite list_lookup_fmap, Hc. cbn. by rewrite Hwf.
        * unfold pl_state at 1. cbn. rewrite Hi, length_app. cbn. lia.
      + destruct Hrot as [Hi _ _ _]. apply Hleft; auto. unfold pl_state in *. cbn. rewrite Hi. lia. }
  destruct f; try done; intros [= <-]; auto.
  apply Hright; destruct (ensure_writable (pl_state p)); cbn; try (apply Hdrain); try lia. destruct (Hdrain p) as [_ ->]. lia.
Qed.

Lemma acts_terminate p : plant_inv max p → Acc (flip (acts options)) p.
Proof.
  remember (work p) as a eqn:Ha. revert p Ha. induction (lt_wf a) as [a _ IHa].
  intros p Ha. remember (alive p) as b eqn:Hb. revert p Ha Hb. induction (lt_wf b) as [b _ IHb].
  intros p Ha Hb. remember (effort p) as e eqn:He. revert p Ha Hb He. induction (lt_wf e) as [e _ IHe].
  intros p -> -> -> Hinv. constructor. intros p' Hacts. cbn in Hacts.
  assert (plant_inv max p') as Hinv' by (eapply plant_inv_step; [done|by apply step_acts]).
  assert (smaller p' p) as [Hlt|[[Heq Hlt]|(Heq & Heq2 & Hlt)]].
  { destruct Hacts; [by eapply worker_smaller|by eapply call_smaller]. }
  - by apply (IHa (work p')).
  - by apply (IHb (alive p')).
  - by apply (IHe (effort p')).
Qed.

(** Where nobody can act. *)
Lemma stuck_points p :
  (∀ p', ¬ acts options p p') →
  (pl_worker p = WExit ∨ ∃ g, pl_worker p = WSleep g) ∧
  ∀ f, f ∈ pl_calls p → call_done f ∨ asleep f = true.
Proof.
  intros Hstuck. split.
  - assert (worker_step options p = None) as Hw.
    { destruct (worker_step options p) eqn:E; [|done]. by destruct (Hstuck p0 (acts_worker _ _ _ E)). }
    unfold worker_step in Hw. destruct (pl_worker p) as [|g|g|g imm n|g imm built|g|g|]; try done; eauto.
    + destruct (_ || _); [done|]. by destruct (es_immutables _).
    + by destruct (flush_build options imm n (pl_fs p)).
    + by destruct (locked _ _).
  - intros f Hf. apply list_elem_of_lookup in Hf as [c Hc].
    assert (call_step options c p = None) as Hn.
    { destruct (call_step options c p) eqn:E; [|done]. by destruct (Hstuck p0 (acts_call _ _ _ _ E)). }
    unfold call_step in Hn. rewrite Hc in Hn. destruct f; try done; [by right|by right|by left].
Qed.

(** Everybody has returned, unless the engine has failed terminally. *)
Lemma resting_done p :
  plant_inv max p → 1 ≤ max → pl_wakes p < 2 ^ 64 → (∀ p', ¬ acts options p p') →
  (pl_shutdown p = true → pl_worker p = WExit) ∧
  (is_failed (pl_state p) = false →
    Forall call_done (pl_calls p) ∧
    (es_closed (pl_state p) = false → pl_shutdown p = false → es_immutables (pl_state p) = [])).
Proof.
  intros [[Hw Hr Hj He Hs Hg] Hroom Hdrain Hclosed Hsleep Hidle Hlate] Hmax Hlt Hstuck.
  destruct (stuck_points p Hstuck) as [[Hx|[g Hg']] Hcalls].
  - split; [done|]. intros Hf. rewrite Hf in He. destruct (He Hx) as [Hc|[?|Hsd]]; [|done|].
    + split; [|congruence]. rewrite Forall_forall. intros f Hin. destruct (Hcalls f Hin) as [?|Ha]; [done|].
      by rewrite (Hclosed Hc f Hin) in Ha.
    + split; [by apply Hs|congruence].
  - assert (g = pl_wakes p) as Hgw by (by apply Hsleep). assert (es_immutables (pl_state p) = []) as Hnil by (apply (Hidle Hlt g); auto).
    rewrite Hg' in Hr. cbn in Hr. split.
    { intros Hsd. specialize (Hlate Hlt Hsd). rewrite Hg' in Hlate. specialize (Hlate eq_refl g eq_refl). lia. }
    intros _. split; [|done]. rewrite Forall_forall. intros f Hin. destruct (Hcalls f Hin) as [?|Ha]; [done|]. exfalso.
    destruct f; try done.
    + specialize (Hroom Hin). rewrite Hnil in Hroom. zlen_nils. lia.
    + destruct (Hdrain Hin) as [?|?]; congruence.
Qed.
End Termination.

(** ** Properties *)

Section Returns.
  Context `{C : Crc32c} `{SN : Snappy} (options : Options).

(** [C9] Flushes return and drops join the worker.  From every state that opening, calls
    of any operation, spurious wake-ups and the handles' clones and drops can reach, the
    worker and the calls of [flush] come to rest; when they do, and the engine has not
    failed terminally, every call has returned and nothing is left to flush unless the
    engine is closed or being dropped; and when the last handle has been dropped the
    worker has ended.  The counter must not have wrapped around. *)
Theorem flush_calls_return (p : Plant) :
  1 ≤ op_max_immutable_memtables options → reachable_plant options p →
  Acc (flip (acts options)) p ∧
  ∀ p', rtc (acts options) p p' → (∀ p'', ¬ acts options p' p'') → pl_wakes p' < 2 ^ 64 →
    (pl_shutdown p' = true → pl_worker p' = WExit) ∧
    (is_failed (pl_state p') = false →
      Forall call_done (pl_calls p') ∧
      (es_closed (pl_state p') = false → pl_shutdown p' = false → es_immutables (pl_state p') = [])).
Proof.
  intros Hmax Hr. pose proof (plant_inv_reachable options p Hr) as Hinv. split; [by apply acts_terminate|].
  intros p' Hrtc Hstuck Hlt. apply (resting_done options p'); auto. clear Hstuck Hlt. revert Hinv. clear -Hrtc.
  induction Hrtc as [q|q1 q2 q3 Ha _ IH]; [done|]. intros Hinv. apply IH. eapply plant_inv_step; [done|by apply step_acts].
Qed.
End Returns.

(** ** A flush that never returns *)

#[local] Existing Instance Castagnoli.crc.
#[local] Existing Instance identity_snappy.

(** A database whose twentieth file-system call fails is opened and written to; its worker
    goes to sleep. *)
Definition sample_plant : option Plant :=
  match Engine_open sample_db false (FaultyFs_fail_at (Some 20) ∅) with
  | (Ok en, s) => Some (opened_plant en s)
  | (Err _, _) => None
  end.

(** An action of the worker or of a call, or an operation of another thread. *)
Inductive move : Type := MWorker | MCall (c : nat) | MFlush | MWrite (batch : WriteBatch) | MSync | MDrop.

Definition play (m : move) (p : Plant) : option Plant :=
  match m with
  | MWorker => worker_step sample_db p
  | MCall c => call_step sample_db c p
  | MFlush => if 0 <? pl_handles p then Some (with_calls (pl_calls p ++ [FStart]) p) else None
  | MWrite batch => if 0 <? pl_handles p then Some (write_call sample_db (Ok batch) p) else None
  | MSync => if 0 <? pl_handles p then Some (sync_call p) else None
  | MDrop => if (1 <? pl_handles p) then Some (drop_handle p) else None
  end.

Fixpoint play_all (moves : list move) (p : Plant) : option Plant :=
  match moves with
  | [] => Some p
  | m :: moves => match play m p with Some p => play_all moves p | None => None end
  end.

Lemma play_step m p p' : play m p = Some p' → step sample_db p p'.
Proof.
  destruct m; cbn [play]; intros H.
  - by apply step_acts, acts_worker.
  - by eapply step_acts, acts_call.
  - destruct (Z.ltb_spec 0 (pl_handles p)); [|done]. injection H as <-. by apply step_flush.
  - destruct (Z.ltb_spec 0 (pl_handles p)); [|done]. injection H as <-. by apply step_write.
  - destruct (Z.ltb_spec 0 (pl_handles p)); [|done]. injection H as <-. by apply step_sync.
  - destruct (Z.ltb_spec 1 (pl_handles p)); [|done]. injection H as <-. apply step_drop; lia.
Qed.

Lemma play_all_rtc moves p p' : play_all moves p = Some p' → rtc (step sample_db) p p'.
Proof.
  revert p. induction moves as [|m moves IH]; intros p; cbn [play_all]; [intros [= ->]; apply rtc_refl|].
  destruct (play m p) as [q|] eqn:E; [|done]. intros H. eapply rtc_l; [by eapply play_step|by apply IH].
Qed.

Lemma played_reachable moves p0 p : sample_plant = Some p0 → play_all moves p0 = Some p → reachable_plant sample_db p.
Proof.
  unfold sample_plant. destruct (Engine_open sample_db false (FaultyFs_fail_at (Some 20) ∅)) as [[en|] s] eqn:E; [|done].
  intros [= <-] H. exists (FaultyFs_fail_at (Some 20) ∅), en, s. split; [exact E|by apply play_all_rtc in H].
Qed.

(** The flush has rotated the memtable and waits. *)
Definition waiting_moves : list move := [MWrite sample_first; MWorker; MWorker; MWorker; MWorker; MFlush; MCall 0].

(** Then a synchronization fails before the worker has looked at the state. *)
Definition hanging_moves : list move := waiting_moves ++ [MSync; MWorker; MWorker; MWorker].

(** Nobody can act: the worker has ended, all calls are asleep. *)
Definition at_rest (p : Plant) : bool :=
  match pl_worker p with WExit => true | _ => false end && forallb asleep (pl_calls p).

Lemma at_rest_stuck options p : at_rest p = true → ∀ p', ¬ acts options p p'.
Proof.
  unfold at_rest. rewrite andb_true_iff, forallb_forall. intros [Hw Hc] p' Ha. revert Hw Hc. destruct Ha as [q q' H|c q q' H]; intros Hw Hc.
  - assert (pl_worker q = WExit) as E by (destruct (pl_worker q); done). unfold worker_step in H. rewrite E in H. done.
  - unfold call_step in H. destruct (pl_calls q !! c) as [f|] eqn:E; [|done].
    specialize (Hc f (proj1 (list_elem_of_In _ _) (list_elem_of_lookup_2 _ _ _ E))). by destruct f.
Qed.

(** [C40] A flush can wait forever: when a synchronization of another thread fails after
    the flush has rotated the memtable and before the worker has taken it, the failure is
    recorded without a signal, the worker sees it and ends without a signal, and the flush
    sleeps although the engine has failed; nothing the worker or the call can do wakes it. *)
Theorem flush_can_wait_forever :
  ∃ p, reachable_plant sample_db p ∧ pl_calls p = [FDrainSleep] ∧ is_failed (pl_state p) = true ∧
    es_closed (pl_state p) = false ∧ (∀ p', ¬ acts sample_db p p').
Proof.
  assert (match sample_plant with
    | Some p0 => match play_all hanging_moves p0 with
                 | Some p => pl_calls p = [FDrainSleep] ∧ is_failed (pl_state p) = true ∧ es_closed (pl_state p) = false ∧ at_rest p = true
                 | None => False end
    | None => False end) as H by (vm_compute; auto).
  destruct sample_plant as [p0|] eqn:E0; [|destruct H]. destruct (play_all hanging_moves p0) as [p|] eqn:E; [|destruct H].
  destruct H as (H1 & H2 & H3 & H4). exists p. split; [exact (played_reachable _ _ _ E0 E)|]. split; [exact H1|]. split; [exact H2|]. split; [exact H3|]. exact (at_rest_stuck _ _ H4).
Qed.

(** Witness of C9: the state in which the flush waits and the worker has been woken. *)
Lemma flush_calls_return_witness :
  ∃ p, pl_calls p = [FDrainSleep] ∧ pl_worker p = WWait 0 ∧ Acc (flip (acts sample_db)) p ∧
    ∀ p', rtc (acts sample_db) p p' → (∀ p'', ¬ acts sample_db p' p'') → pl_wakes p' < 2 ^ 64 →
      is_failed (pl_state p') = false → Forall call_done (pl_calls p').
Proof.
  assert (match sample_plant with
    | Some p0 => match play_all waiting_moves p0 with
                 | Some p => pl_calls p = [FDrainSleep] ∧ pl_worker p = WWait 0
                 | None => False end
    | None => False end) as H by (vm_compute; auto).
  destruct sample_plant as [p0|] eqn:E0; [|destruct H]. destruct (play_all waiting_moves p0) as [p|] eqn:E; [|destruct H].
  destruct H as (H1 & H2). exists p. split; [exact H1|]. split; [exact H2|].
  destruct (flush_calls_return sample_db p ltac:(cbn; lia) (played_reachable _ _ _ E0 E)) as [Hacc Hret]. split; [exact Hacc|].
  intros p' Hrtc Hstuck Hlt Hf. destruct (Hret p' Hrtc Hstuck Hlt) as [_ Hdone]. apply (Hdone Hf).
Defined.
