(* ===== verification/KvStore.v ===== *)
(** * What the engine promises to the workload adapters

    The adapters of [src/crates/meteordb/src/workloads] read single keys, scan ranges
    and write single pairs or batches.  [KvStore] has these operations and [KvLaws]
    what the adapters rely on: answers are those of a view from keys to live values,
    and a write that is accepted changes the view at its keys.  The adapters' theorems
    use the laws only; [KvEngine] proves them for the engine.  What a read does to the
    leases and guards of the engine is not visible here, only its answer. *)

From Stdlib Require Import ZArith Lia Sorting.Sorted.
From stdpp Require Import base list gmap strings.
From S2P Require Import Prelude Batch ValueRecord Mvcc MemTable Iter Engine.

Local Open Scope Z_scope.

(** What an adapter asks the engine to write. *)
Inductive StoreWrite : Type :=
| StorePut (key value : bytes)
| StorePutTtl (key value : bytes) (ttl_ms : Z)
| StoreDelete (key : bytes)
| StoreBatch (batch : WriteBatch).

Class KvStore (St : Type) : Type := {
  kv_get : bytes → St → result (option bytes);
  kv_scan : ScanBounds → Z → St → result (list (result (bytes * bytes)));
  kv_write : StoreWrite → St → result unit * St;
  (** [Engine::snapshot] and then [Snapshot::get] of any number of keys. *)
  kv_snapshot : St → result (bytes → result (option bytes));
  (** [Engine::write_batch_limits] *)
  kv_limits : St → WriteBatchLimits
}.

(** What an accepted write leaves under a key, if it mentions the key. *)
Definition written (now : Z) (w : StoreWrite) (key : bytes) : option (option bytes) :=
  match w with
  | StorePut k v => if decide (key = k) then Some (Some v) else None
  | StorePutTtl k v ttl_ms => if decide (key = k) then Some (if 0 <? ttl_ms then Some v else None) else None
  | StoreDelete k => if decide (key = k) then Some None else None
  | StoreBatch b => (λ r, record_into_value r now) <$> last_op key (operations b)
  end.

(** The adapters put with or without a time to live. *)
Definition put_write (key value : bytes) (ttl_ms : option Z) : StoreWrite :=
  match ttl_ms with Some ttl_ms => StorePutTtl key value ttl_ms | None => StorePut key value end.

Lemma put_write_written now k b ttl_ms key :
  written now (put_write k b ttl_ms) key =
    if decide (key = k) then Some (match ttl_ms with Some ttl_ms => if 0 <? ttl_ms then Some b else None | None => Some b end) else None.
Proof. by destruct ttl_ms. Qed.

(** A view, the states that the laws are about, and when an operation is accepted. *)
Class KvLaws (St : Type) `{KvStore St} : Type := {
  kv_ok : St → Prop;
  kv_view : St → bytes → option bytes;
  kv_now : St → Z;
  kv_readable : St → bytes → Prop;
  kv_scannable : St → ScanBounds → Prop;
  kv_writable : St → StoreWrite → Prop;
  kv_get_law : ∀ s key, kv_ok s → kv_readable s key → kv_get key s = Ok (kv_view s key);
  kv_scan_law : ∀ s bounds limit, kv_ok s → kv_scannable s bounds → 0 ≤ limit →
    ∃ pairs, kv_scan bounds limit s = Ok (map Ok (take (Z.to_nat limit) pairs)) ∧
      StronglySorted (λ x y, lex_cmp x.1 y.1 = Lt) pairs ∧
      ∀ key value, (key, value) ∈ pairs ↔ user_key_in_bounds bounds key = true ∧ kv_view s key = Some value;
  kv_write_law : ∀ s w, kv_ok s → kv_writable s w →
    ∃ s', kv_write w s = (Ok tt, s') ∧ kv_ok s' ∧ ∀ key, kv_view s' key = default (kv_view s key) (written (kv_now s) w key)
}.
