(* ===== verification/KvEngine.v ===== *)
(** * The engine keeps the laws that the workload adapters rely on

    The world of [EngineCorrect], with all that clients and the background work do to
    it, is an instance of [KvStore] and [KvLaws]: its view has what the acknowledged
    history says is live at the clock. *)

From Stdlib Require Import ZArith Lia Sorting.Sorted.
From stdpp Require Import base list gmap strings sorting relations.
From S2P Require Import Prelude Fs StateFs Checksum InternalKey Batch ValueRecord Snapshot Mvcc MemTable Iter.
From S2P Require Import Options TableBuilder Compaction CompactionRun Engine EngineOps EngineOpen EngineHistory EngineInv EngineWrite.
From S2P Require Import EngineWorld EngineReaders EngineRefine EngineRestart EngineCorrect KvStore.

Local Open Scope Z_scope.

(** ** Collecting an iterator *)

Lemma kv_collect_agree f g it a b : kv_collect f it = Ok a → kv_collect g it = Ok b → a = b.
Proof.
  revert g it a b. induction f as [|f IH]; intros [|g] it a b; cbn [kv_collect]; try done.
  destruct (KvIterator_next it) as [[[item|] it']|]; [|by intros [= <-] [= <-]|done].
  destruct (kv_collect f it') as [x|] eqn:Ex; [|done]. destruct (kv_collect g it') as [y|] eqn:Ey; [|done].
  intros [= <-] [= <-]. f_equal. by eapply IH.
Qed.

Lemma KvIterator_new_wf children bounds q now limit it : KvIterator_new children bounds q now limit = Ok it → kv_wf it.
Proof.
  destruct (merging_new_ok children) as (mit & Hnew & Hwf). unfold KvIterator_new. rewrite Hnew. intros [= <-]. exact Hwf.
Qed.

(** The bound that [scan_terminates] gives. *)
Definition collect_all (it : KvIterator) : result (list (result (bytes * bytes))) := kv_collect (S (S (kv_size it))) it.

Lemma collect_all_eq fuel it items : kv_wf it → kv_collect fuel it = Ok items → collect_all it = Ok items.
Proof.
  intros Hwf Hc. destruct (kv_collect_ok (S (kv_size it)) it Hwf (Nat.lt_succ_diag_r _)) as (items' & Hi & _).
  unfold collect_all. rewrite Hi. f_equal. by eapply kv_collect_agree.
Qed.

(** What a computation returns satisfies [P]. *)
Definition returns {S A} (P : A → Prop) (m : SFS S A) : Prop :=
  ∀ st fs, match m st fs with ((Ok a, _), _) => P a | _ => True end.

Lemma returns_bind {S A B} (P : B → Prop) (m : SFS S A) (k : A → SFS S B) : (∀ a, returns P (k a)) → returns P (c_bind m k).
Proof. intros Hk st fs. unfold c_bind. destruct (m st fs) as [[[a|e] st'] fs']; [apply Hk|done]. Qed.

Lemma returns_bind_lift {S A B} (P : B → Prop) (r : result A) (k : A → SFS S B) :
  (∀ a, r = Ok a → returns P (k a)) → returns P (c_bind (c_lift r) k).
Proof. intros Hk st fs. unfold c_bind, c_lift. destruct r as [a|e]; [by apply Hk|done]. Qed.

Lemma returns_ret {S A} (P : A → Prop) a : P a → returns (S := S) P (c_ret a).
Proof. by intros Ha st fs. Qed.

Lemma returns_bind_if {S A B} (P : A → Prop) (Q : B → Prop) (m : SFS S A) (k : A → SFS S B) :
  returns P m → (∀ a, P a → returns Q (k a)) → returns Q (c_bind m k).
Proof. intros Hm Hk st fs. specialize (Hm st fs). unfold c_bind. destruct (m st fs) as [[[a|e] st'] fs']; [by apply Hk|done]. Qed.

Lemma returns_try {S A B} (P : A → Prop) (m : SFS S A) (h : error → SFS S B) e' :
  returns P m → returns P (c_try m (λ e, c_bind (h e) (λ _, c_lift (Err (e' e))))).
Proof.
  intros Hm st fs. specialize (Hm st fs). unfold c_try. destruct (m st fs) as [[[a|e] st1] fs1]; [done|].
  unfold c_bind. destruct (h e st1 fs1) as [[[b|e1] st2] fs2]; [|done]. by unfold c_lift, c_fs, fs_lift.
Qed.

Section KvEngine.
  Context `{C : Crc32c} {CR : Crc32cRange C} `{SN : Snappy} {SL : SnappyLaws SN}.
  Context (options : Options).

Lemma scan_current_wf bounds n now : returns (λ r, kv_wf r.1) (scan_current options bounds n now).
Proof.
  unfold scan_current, scan_at. apply returns_bind. intros en. apply returns_bind. intros en'. apply returns_bind. intros _.
  apply returns_bind. intros _. destruct (n =? 0).
  - apply returns_bind_lift. intros it Hit. apply returns_ret. by eapply KvIterator_new_wf.
  - apply returns_bind. intros _. apply returns_bind. intros _.
    eapply (returns_bind_if (λ r : KvIterator * Reader, kv_wf r.1)); [|intros [it reader] Hit; by apply returns_ret].
    apply (returns_try _ _ _ (λ e, e)). unfold scan_from_state. apply returns_bind. intros en2. apply returns_bind. intros reader.
    apply returns_bind. intros disk. apply returns_bind_lift. intros it Hit. apply returns_ret. by eapply KvIterator_new_wf.
Qed.

(** ** The operations *)

(** The batch of a request, at the time of the clock. *)
Definition prepare (w : StoreWrite) (now : Z) : result WriteBatch :=
  match w with
  | StorePut key value => WriteBatch_put WriteBatch_default key value
  | StorePutTtl key value ttl_ms => ttl_batch key value ttl_ms now
  | StoreDelete key => WriteBatch_delete WriteBatch_default key
  | StoreBatch batch => Ok batch
  end.

Definition world_get (key : bytes) (w : World) : result (option bytes) :=
  (Engine_get options key (w_clock w) (w_engine w) (w_fs w)).1.1.

Definition world_scan (bounds : ScanBounds) (limit : Z) (w : World) : result (list (result (bytes * bytes))) :=
  let? (it, _) := (scan_current options bounds limit (w_clock w) (w_engine w) (w_fs w)).1.1 in
  collect_all it.

Definition world_write (req : StoreWrite) (w : World) : result unit * World :=
  ((write_serialized options (prepare req (w_clock w)) (w_engine w) (w_fs w)).1.1,
   apply_write options (prepare req (w_clock w)) w).

(** What the reads leave of their leases is not visible to the adapter. *)
Definition world_snapshot (w : World) : result (bytes → result (option bytes)) :=
  match Engine_snapshot (w_engine w) (w_fs w) with
  | ((Ok sequence, en), s) => Ok (λ key, (Engine_get_at options key sequence (w_clock w) en s).1.1)
  | ((Err e, _), _) => Err e
  end.

Definition World_kv : KvStore World := {|
  kv_get := world_get; kv_scan := world_scan; kv_write := world_write;
  kv_snapshot := world_snapshot; kv_limits := λ _, write_batch_limits options
|}.

(** ** The view *)

Definition world_view (w : World) (key : bytes) : option bytes :=
  hist_value (w_history w) key (en_committed_sequence (w_engine w)) (w_clock w).

Definition world_started (w : World) : Prop := ∃ d clock, reachable options d clock w.

Definition world_readable (w : World) (key : bytes) : Prop :=
  bytes_ok key ∧ zlen (w_guards w) < USIZE_MAX ∧ get_accepted options (w_engine w) key.

Definition world_scannable (w : World) (bounds : ScanBounds) : Prop :=
  zlen (w_guards w) < USIZE_MAX ∧ scan_accepted options (w_engine w) bounds.

Definition world_writable (w : World) (req : StoreWrite) : Prop :=
  ∃ b, prepare req (w_clock w) = Ok b ∧ op_fits options (Write b) w ∧ write_accepted options (w_engine w) (Ok b).

Lemma world_get_law w key : world_started w → world_readable w key → world_get key w = Ok (world_view w key).
Proof using CR SL.
  intros (d & clock & Hr) (Hk & Hlen & Ha). destruct (reachable_ok options _ _ _ Hr) as [T Hw]. destruct Hr as [Hu _].
  pose proof (get_correct options T w key (us_options _ _ _ Hu) Hw Hk Hlen) as H. unfold world_get, world_view.
  destruct (Engine_get _ _ _ _ _) as [[[v|e] en] s]; cbn; [by destruct H as [-> _]|by destruct H].
Qed.

Lemma world_scan_law w bounds limit :
  world_started w → world_scannable w bounds → 0 ≤ limit →
  ∃ pairs, world_scan bounds limit w = Ok (map Ok (take (Z.to_nat limit) pairs)) ∧
    StronglySorted (λ x y, lex_cmp x.1 y.1 = Lt) pairs ∧
    ∀ key value, (key, value) ∈ pairs ↔ user_key_in_bounds bounds key = true ∧ world_view w key = Some value.
Proof using CR SL.
  intros (d & clock & Hr) (Hlen & Ha) Hlim. destruct (reachable_ok options _ _ _ Hr) as [T Hw]. destruct Hr as [Hu _].
  unfold world_scan. destruct (scan_current options bounds limit (w_clock w) (w_engine w) (w_fs w)) as [[r en] s] eqn:E.
  pose proof (scan_current_wf bounds limit (w_clock w) (w_engine w) (w_fs w)) as Hwf. rewrite E in Hwf.
  eapply (swp_run (scan_of options None bounds limit w) _ _ _ r en s) in E as [_ HQ];
    [|by eapply (scan_inv options (us_options _ _ _ Hu))|apply Hw].
  destruct r as [[it reader]|e]; [|by destruct HQ as (_ & _ & ?)]. destruct HQ as (_ & _ & (fuel & pairs & Hc & Hs & Hp) & _).
  exists pairs. cbn. split; [by apply (collect_all_eq fuel)|]. split; [done|exact Hp].
Qed.

(** The batch of a request says what the request writes. *)
Lemma prepare_written req now b key :
  prepare req now = Ok b → written now req key = (λ r, record_into_value r now) <$> last_op key (operations b).
Proof.
  assert (∀ k, lex_eqb k key = bool_decide (key = k)) as Heq.
  { intros k. case_bool_decide as E; [subst; apply lex_eqb_refl|]. destruct (lex_eqb k key) eqn:E'; [|done]. apply lex_eqb_eq in E'. congruence. }
  assert (∀ op, operations b = [op] → last_op key (operations b) = if decide (key = op_key op) then Some (op_record op) else None) as Hone.
  { intros op ->. cbn. rewrite Heq. case_bool_decide; [by rewrite decide_True|by rewrite decide_False]. }
  destruct req as [k v|k v ttl_ms|k|batch]; cbn [prepare written].
  - unfold WriteBatch_put, put_with_expiration, add_bytes. intros Hb.
    assert (operations b = [Put k v None]) as Hops by (repeat case_match; simplify_eq; done).
    rewrite (Hone _ Hops). cbn. by destruct (decide (key = k)).
  - unfold ttl_batch, put_with_expiration, add_bytes. destruct (Z.ltb_spec ttl_ms 0); [done|]. unfold checked_add at 1.
    destruct (_ <=? _); [|done]. cbn [ok_or]. intros Hb.
    assert (operations b = [Put k v (Some (now + ttl_ms))]) as Hops by (repeat case_match; simplify_eq; done).
    rewrite (Hone _ Hops). cbn. destruct (decide (key = k)); [|done]. cbn. f_equal.
    destruct (Z.ltb_spec 0 ttl_ms), (Z.ltb_spec now (now + ttl_ms)); done || lia.
  - unfold WriteBatch_delete, add_bytes. intros Hb.
    assert (operations b = [Delete k]) as Hops by (repeat case_match; simplify_eq; done).
    rewrite (Hone _ Hops). cbn. by destruct (decide (key = k)).
  - intros [= ->]. done.
Qed.

Lemma world_write_law w req :
  world_started w → world_writable w req →
  ∃ w', world_write req w = (Ok tt, w') ∧ world_started w' ∧
    ∀ key, world_view w' key = default (world_view w key) (written (w_clock w) req key).
Proof using CR SL.
  intros (d & clock & Hr) (b & Hb & Hfit & Ha). destruct (reachable_ok options _ _ _ Hr) as [T Hw].
  pose proof (us_options _ _ _ (proj1 Hr)) as Ho. unfold world_write. rewrite Hb. exists (apply_op options (Write b) w).
  pose proof (write_extends options T w b Ho Hw Hfit Ha) as Hh. split; [|split].
  - f_equal. destruct (write_serialized options (Ok b) (w_engine w) (w_fs w)) as [[r en] s] eqn:E.
    eapply swp_run in E as [_ HQ]; [|eapply write_inv; [exact Ho|apply Hw|apply Hfit|intros x [= <-]; apply Hfit]|apply Hw].
    destruct r as [[]|e]; [done|]. by destruct HQ as [_ Hno].
  - exists d, clock. destruct Hr as [Hu (w0 & H0 & Hs)]. split; [exact Hu|]. exists w0. split; [exact H0|].
    eapply rtc_r; [exact Hs|]. apply step_op. exact Hfit.
  - intros key. destruct (apply_op_ok options Ho (Write b) T w Hw Hfit) as [T' Hw']. set (w' := apply_op options (Write b) w) in *.
    pose proof (rk_old _ _ _ _ _ _ _ (ei_reads _ _ _ _ _ _ _ _ (wk_inv _ _ _ Hw'))) as Hold. rewrite Hh in Hold.
    pose proof (rk_old _ _ _ _ _ _ _ (ei_reads _ _ _ _ _ _ _ _ (wk_inv _ _ _ Hw))) as Hold0.
    apply Forall_app in Hold as [Hold1 Hold2]. apply Forall_cons in Hold2 as [Hlast _]. cbn in Hlast.
    assert (w_clock w' = w_clock w) as Hclock by (unfold w'; cbn; unfold apply_write; by destruct (write_serialized _ _ _ _) as [[r en] s]).
    unfold world_view, hist_value. rewrite Hh, Hclock, hist_get_snoc, (proj2 (Z.leb_le _ _)) by done. rewrite (prepare_written _ _ _ _ Hb).
    destruct (last_op key (operations b)) as [r|]; cbn; [done|].
    f_equal. destruct (Z.le_ge_cases (en_committed_sequence (w_engine w)) (en_committed_sequence (w_engine w'))) as [Hle|Hge].
    + by apply hist_get_above.
    + symmetry. by apply hist_get_above.
Qed.
End KvEngine.

Section Laws.
  Context `{C : Crc32c} {CR : Crc32cRange C} `{SN : Snappy} {SL : SnappyLaws SN}.
  Context (options : Options).

Definition World_laws : @KvLaws World (World_kv options) :=
  @Build_KvLaws World (World_kv options) (world_started options) world_view w_clock
    (world_readable options) (world_scannable options) (world_writable options)
    (world_get_law options) (world_scan_law options) (world_write_law options).

(** [C5] The engine is the key-value store that the workload adapters assume: in every
    reachable world, after any operations and power losses, a read that is accepted
    returns the view's value, a scan that is accepted returns the live pairs of its
    bounds in key order up to the limit, and a put, a put with a time to live, a delete
    or a batch that is accepted changes the view at exactly its keys, to what it says,
    and leads to a reachable world. *)
Theorem engine_is_key_value_store (w : World) :
  world_started options w →
  (∀ key, world_readable options w key → world_get options key w = Ok (world_view w key)) ∧
  (∀ bounds limit, world_scannable options w bounds → 0 ≤ limit →
     ∃ pairs, world_scan options bounds limit w = Ok (map Ok (take (Z.to_nat limit) pairs)) ∧
       StronglySorted (λ x y, lex_cmp x.1 y.1 = Lt) pairs ∧
       ∀ key value, (key, value) ∈ pairs ↔ user_key_in_bounds bounds key = true ∧ world_view w key = Some value) ∧
  (∀ req, world_writable options w req →
     ∃ w', world_write options req w = (Ok tt, w') ∧ world_started options w' ∧
       ∀ key, world_view w' key = default (world_view w key) (written (w_clock w) req key)).
Proof using CR SL.
  intros Hw. split; [|split].
  - intros key. by apply world_get_law.
  - intros bounds limit. by apply world_scan_law.
  - intros req. by apply world_write_law.
Qed.
End Laws.

#[local] Existing Instance Castagnoli.crc.
#[local] Existing Instance identity_snappy.

(** Witness of C5: the sample database accepts a read and a batch. *)
Lemma engine_is_key_value_store_witness :
  ∃ w w', sample_world = Ok w ∧ world_get sample_db [97] w = Ok (Some [3]) ∧
    world_write sample_db (StoreBatch sample_second) w = (Ok tt, w') ∧ world_view w' [98] = None.
Proof.
  destruct sample_reachable as (w & Hw & Hr).
  assert (match sample_world with
    | Ok w => op_check (Write sample_second) w && bool_decide (is_ok (ensure_writable (en_state (w_engine w))) = true ∧
        zlen (es_immutables (en_state (w_engine w))) < op_max_immutable_memtables sample_db ∧
        es_next_sequence (en_state (w_engine w)) = 4 ∧ is_ok (ensure_readable (en_state (w_engine w))) = true ∧
        zlen (w_guards w) < USIZE_MAX ∧ world_view w [97] = Some [3])
    | Err _ => false end = true) as Hc by (vm_compute; reflexivity).
  rewrite Hw in Hc. apply andb_true_iff in Hc as [Hc Hb].
  apply bool_decide_eq_true in Hb as (H1%is_ok_unit & H2 & H3 & H4%is_ok_unit & H5 & H6).
  destruct (engine_is_key_value_store sample_db w (ex_intro _ ∅ (ex_intro _ 5 Hr))) as (Hget & _ & Hwrite).
  destruct (Hwrite (StoreBatch sample_second)) as (w' & Hw' & _ & Hv').
  { exists sample_second. split; [reflexivity|]. split; [exact (op_check_fits sample_db _ _ Hc)|].
    split; [exact H1|]. split; [exact H2|]. rewrite H3. split; [unfold U64_MAX; lia|]. exists sample_second.
    split; [reflexivity|]. split; [vm_compute; reflexivity|]. split; [apply (proj1 (bool_decide_eq_true _)); vm_compute; reflexivity|].
    split; [apply (proj1 (bool_decide_eq_true _)); vm_compute; reflexivity|]. eexists. vm_compute. reflexivity. }
  exists w, w'. split; [exact Hw|]. split.
  - rewrite <- H6. apply Hget. split; [apply sample_keys|]. split; [exact H5|]. split; [exact H4|vm_compute; discriminate].
  - split; [exact Hw'|]. rewrite Hv'. reflexivity.
Defined.
