(* ===== verification/MemStore.v ===== *)
(** * A key-value store in memory

    The reference instance of [KvLaws]: a sorted list of live pairs at time 0.  The
    adapters' theorems are applied to it where a concrete store is wanted; the engine
    is the instance that the program has. *)

From Stdlib Require Import ZArith Lia Sorting.Sorted.
From stdpp Require Import base list gmap strings.
From S2P Require Import Prelude Batch ValueRecord Mvcc MemTable Iter Engine.
From S2P Require Import KvStore.

Local Open Scope Z_scope.

Definition MemStore : Type := list (bytes * bytes).

Definition mem_set (key : bytes) (value : option bytes) (s : MemStore) : MemStore :=
  match value with Some v => bt_insert lex_cmp key v s | None => bt_remove lex_cmp key s end.

Definition mem_apply (s : MemStore) (op : WriteOp) : MemStore :=
  mem_set (op_key op) (record_into_value (op_record op) 0) s.

Definition mem_scan (bounds : ScanBounds) (s : MemStore) : list (bytes * bytes) :=
  List.filter (λ e, user_key_in_bounds bounds e.1) s.

#[global] Instance MemStore_kv : KvStore MemStore := {
  kv_get := λ key s, Ok (bt_get lex_cmp key s);
  kv_scan := λ bounds limit s, Ok (map Ok (take (Z.to_nat limit) (mem_scan bounds s)));
  kv_write := λ w s,
    match w with
    | StorePut key value => (Ok tt, mem_set key (Some value) s)
    | StorePutTtl key value ttl_ms => (Ok tt, mem_set key (if 0 <? ttl_ms then Some value else None) s)
    | StoreDelete key => (Ok tt, mem_set key None s)
    | StoreBatch b => (Ok tt, fold_left mem_apply (operations b) s)
    end;
  kv_snapshot := λ s, Ok (λ key, Ok (bt_get lex_cmp key s));
  kv_limits := λ _, {| wl_max_payload_bytes := USIZE_MAX; wl_max_operations := MAX_WRITE_BATCH_OPERATIONS |}
}.

Lemma mem_set_sorted key value s : bt_sorted lex_cmp s → bt_sorted lex_cmp (mem_set key value s).
Proof. destruct value; [apply bt_insert_sorted|apply bt_remove_sorted]. Qed.

Lemma mem_set_get key value s k :
  bt_sorted lex_cmp s → bt_get lex_cmp k (mem_set key value s) = if decide (k = key) then value else bt_get lex_cmp k s.
Proof.
  intros Hs. assert (bt_get lex_cmp k (mem_set key value s) = match lex_cmp k key with Eq => value | _ => bt_get lex_cmp k s end) as ->.
  { destruct value; cbn; [by rewrite bt_get_insert|by rewrite bt_get_remove]. }
  destruct (decide (k = key)) as [->|Hne]; [by rewrite lex_cmp_refl|]. destruct (lex_cmp k key) eqn:E; [|done..].
  by apply lex_cmp_eq in E.
Qed.

Lemma mem_apply_get ops s k :
  bt_sorted lex_cmp s →
  bt_sorted lex_cmp (fold_left mem_apply ops s) ∧
  bt_get lex_cmp k (fold_left mem_apply ops s) =
    default (bt_get lex_cmp k s) ((λ r, record_into_value r 0) <$> last_op k ops).
Proof.
  revert s. induction ops as [|op ops IH]; intros s Hs; cbn [fold_left last_op]; [done|].
  destruct (IH (mem_apply s op)) as [H1 H2]; [by apply mem_set_sorted|]. split; [done|]. rewrite H2.
  destruct (last_op k ops) as [r|]; [done|]. cbn. unfold mem_apply. rewrite mem_set_get by done.
  destruct (decide (k = op_key op)) as [->|Hne]; [by rewrite lex_eqb_refl|]. destruct (lex_eqb (op_key op) k) eqn:E; [|done].
  apply lex_eqb_eq in E. congruence.
Qed.

Lemma mem_scan_sorted bounds (s : MemStore) : bt_sorted lex_cmp s → StronglySorted (λ x y, lex_cmp x.1 y.1 = Lt) (mem_scan bounds s).
Proof.
  induction 1 as [|e s Hs IH Hall]; cbn; [constructor|]. destruct (user_key_in_bounds bounds e.1); [|done].
  constructor; [done|]. rewrite Forall_forall in *. intros x [_ Hx]%elem_of_filter_b. by apply Hall.
Qed.

Lemma mem_scan_law bounds limit (s : MemStore) :
  bt_sorted lex_cmp s →
  ∃ pairs, kv_scan bounds limit s = Ok (map Ok (take (Z.to_nat limit) pairs)) ∧
    StronglySorted (λ x y, lex_cmp x.1 y.1 = Lt) pairs ∧
    ∀ key value, (key, value) ∈ pairs ↔ user_key_in_bounds bounds key = true ∧ bt_get lex_cmp key s = Some value.
Proof.
  intros Hs. exists (mem_scan bounds s). split; [done|]. split; [by apply mem_scan_sorted|].
  intros key value. unfold mem_scan. rewrite elem_of_filter_b, bt_get_elem by done. done.
Qed.

Lemma mem_write_law w (s : MemStore) :
  bt_sorted lex_cmp s →
  ∃ s', kv_write w s = (Ok tt, s') ∧ bt_sorted lex_cmp s' ∧
    ∀ key, bt_get lex_cmp key s' = default (bt_get lex_cmp key s) (written 0 w key).
Proof.
  intros Hs. destruct w as [k v|k v ttl_ms|k|b]; cbn [kv_write MemStore_kv].
  1-3: eexists; split; [reflexivity|]; split; [by apply mem_set_sorted|];
    intros key; cbn [written]; rewrite mem_set_get by done; by destruct (decide (key = k)).
  eexists. split; [reflexivity|]. split; [by apply (mem_apply_get _ _ [])|]. intros key. by apply mem_apply_get.
Qed.

#[global] Instance MemStore_laws : KvLaws MemStore := {
  kv_ok := bt_sorted lex_cmp;
  kv_view := λ s key, bt_get lex_cmp key s;
  kv_now := λ _, 0;
  kv_readable := λ _ _, True;
  kv_scannable := λ _ _, True;
  kv_writable := λ _ _, True;
  kv_get_law := λ _ _ _ _, eq_refl;
  kv_scan_law := λ s bounds limit Hs _ _, mem_scan_law bounds limit s Hs;
  kv_write_law := λ s w Hs _, mem_write_law w s Hs
}.
