(* ===== verification/StoreKeys.v ===== *)
(** * Keys and values of the workload adapters (src/crates/meteordb/src/workloads)

    What the feature and embedding stores share: components of a key are escaped and
    terminated, so that no encoding is a prefix of another one and the order of
    encodings is that of the components; values are a schema byte and a body that the
    [postcard] crate writes, accepted only when it is the body that would be written.
    The crate is a parameter: [Postcard] has the two functions the adapters call, and
    [PostcardLaws] its documented round trip. *)

From Stdlib Require Import ZArith Lia Sorting.Sorted.
From stdpp Require Import base list gmap strings.
From S2P Require Import Prelude InternalKey ManifestCodec.

Local Open Scope Z_scope.

(** ** Postcard *)

(** [postcard::to_allocvec] and [postcard::take_from_bytes]; [None] is an error. *)
Class Postcard (A : Type) : Type := {
  to_allocvec : A → option bytes;
  take_from_bytes : bytes → option (A * bytes)
}.

(** What the crate documents: a value of the Rust type is written in the length that
    the wire format gives, is read back from what was written, and only values of the
    type are read. *)
Class PostcardLaws (A : Type) `{Postcard A} (value : A → Prop) (wire_len : A → Z) : Prop := {
  postcard_total : ∀ x, value x → is_Some (to_allocvec x);
  postcard_len : ∀ x body, value x → to_allocvec x = Some body → zlen body = wire_len x;
  postcard_bytes : ∀ x body, value x → to_allocvec x = Some body → bytes_ok body;
  postcard_round_trip : ∀ x body rest, value x → to_allocvec x = Some body → take_from_bytes (body ++ rest) = Some (x, rest);
  postcard_typed : ∀ b x rest, take_from_bytes b = Some (x, rest) → value x
}.

(** The wire format has variable-length integers of seven bits in a byte. *)
Fixpoint varint_len_loop (fuel : nat) (value bytes : Z) : Z :=
  match fuel with
  | O => bytes
  | S fuel => if 128 <=? value then varint_len_loop fuel (Z.shiftr value 7) (bytes + 1) else bytes
  end.

(** [postcard_varint_len]: a [usize] has at most ten groups of seven bits. *)
Definition postcard_varint_len (value : Z) : Z := varint_len_loop 10 value 1.
Arguments postcard_varint_len : simpl never.

Lemma varint_len_loop_bound fuel value bytes :
  bytes ≤ varint_len_loop fuel value bytes ≤ bytes + Z.of_nat fuel.
Proof.
  revert value bytes. induction fuel as [|fuel IH]; intros value bytes; cbn; [lia|].
  destruct (128 <=? value); [|lia]. specialize (IH (Z.shiftr value 7) (bytes + 1)). lia.
Qed.

(** A group fewer for every seven bits that are zero. *)
Lemma varint_len_loop_small n fuel value bytes :
  0 ≤ value < 2 ^ (7 * (1 + Z.of_nat n)) → varint_len_loop fuel value bytes ≤ bytes + Z.of_nat n.
Proof.
  revert fuel value bytes. induction n as [|n IH]; intros fuel value bytes Hv.
  - destruct fuel; cbn; [lia|]. cbn in Hv. rewrite (proj2 (Z.leb_gt _ _)) by lia. lia.
  - destruct fuel as [|fuel]; cbn [varint_len_loop]; [lia|]. destruct (128 <=? value); [|lia].
    replace (7 * (1 + Z.of_nat (S n))) with (7 + 7 * (1 + Z.of_nat n)) in Hv by lia. rewrite Z.pow_add_r in Hv by lia.
    specialize (IH fuel (Z.shiftr value 7) (bytes + 1)). rewrite Z.shiftr_div_pow2 in * by lia.
    enough (0 ≤ value / 2 ^ 7 < 2 ^ (7 * (1 + Z.of_nat n))) by lia.
    split; [apply Z.div_pos; lia|]. apply Z.div_lt_upper_bound; lia.
Qed.

Lemma varint_len_pos value : 1 ≤ postcard_varint_len value.
Proof. apply (varint_len_loop_bound 10 value 1). Qed.

Lemma varint_len_usize value : is_u64 value → postcard_varint_len value ≤ 10.
Proof. intros [H0 H1]. apply (varint_len_loop_small 9). unfold U64_MAX in H1. cbn. lia. Qed.

(** ** Versioned bodies

    [decode_record], [decode_embedding] and [decode_entry] are the same function but
    for the constants, the texts and the validation of the value. *)

Section Versioned.
  Context {A : Type} `{P : Postcard A} (context kind too_large reencode : string) (version max_body : Z) (validate : A → result unit).

Definition decode_versioned (b : bytes) : result A :=
  match b with
  | [] => Err (Corruption context "missing schema version")
  | v :: body =>
    if negb (v =? version) then Err (UnsupportedFormat kind v)
    else if max_body <? zlen body then Err (Corruption context too_large)
    else
      let? (x, trailing) := ok_or (take_from_bytes body) (Corruption context "invalid postcard body") in
      if bool_decide (trailing ≠ []) then Err (Corruption context "trailing bytes after postcard body")
      else
        let? _ := map_err (λ _, Corruption context "invalid value") (validate x) in
        let? canonical := ok_or (to_allocvec x) (Corruption context reencode) in
        if bool_decide (canonical ≠ body) then Err (Corruption context "non-canonical postcard body") else Ok x
  end.

(** Exactly the bytes that the encoder writes are accepted. *)
Lemma decode_versioned_iff {value wire_len} {L : PostcardLaws A value wire_len} b x :
  decode_versioned b = Ok x ↔
    value x ∧ ∃ body, b = version :: body ∧ zlen body ≤ max_body ∧ to_allocvec x = Some body ∧ validate x = Ok tt.
Proof.
  split.
  - destruct b as [|v body]; [done|]. cbn. destruct (Z.eqb_spec v version) as [->|]; [|done]. cbn.
    destruct (Z.ltb_spec max_body (zlen body)); [done|]. destruct (take_from_bytes body) as [[y t]|] eqn:Et; [|done]. cbn.
    apply postcard_typed in Et. case_bool_decide; [done|]. destruct (validate y) as [[]|] eqn:Ev; [|done]. cbn.
    destruct (to_allocvec y) as [c|] eqn:Ec; [|done]. cbn. case_bool_decide as Hc; [done|].
    intros [= <-]. subst c. eauto 10.
  - intros (Hty & body & -> & Hlen & Hb & Hv). cbn. rewrite Z.eqb_refl. cbn. rewrite (proj2 (Z.ltb_ge _ _)) by lia.
    pose proof (postcard_round_trip x body [] Hty Hb) as Hr. rewrite app_nil_r in Hr. rewrite Hr. cbn. rewrite Hv. cbn.
    rewrite Hb. cbn. by rewrite bool_decide_false by (intros H; by apply H).
Qed.
End Versioned.

(** ** Components *)

(** [push_escaped] *)
Definition push_escaped (output b : bytes) : bytes :=
  fold_left (λ output byte, if byte =? 0 then output ++ [0; 255] else output ++ [byte]) b output ++ [0; 0].

Definition escaped_len (b : bytes) : Z := zlen b + zlen (List.filter (λ x, x =? 0) b) + 2.

Definition MAX_COMPONENT_BYTES : Z := 16 * 1024.

Definition validate_component (name : string) (b : bytes) : result unit :=
  if bool_decide (b = []) then Err (InvalidArgument (name +:+ " must not be empty"))
  else if MAX_COMPONENT_BYTES <? zlen b then Err (InvalidArgument (name +:+ " exceeds the limit"))
  else Ok tt.

Definition component_valid (b : bytes) : Prop := b ≠ [] ∧ zlen b ≤ MAX_COMPONENT_BYTES.

#[global] Instance component_valid_dec b : Decision (component_valid b).
Proof. unfold component_valid. apply _. Defined.

Lemma validate_component_iff name b : validate_component name b = Ok tt ↔ component_valid b.
Proof.
  unfold validate_component, component_valid. case_bool_decide; [split; [done|by intros []]|].
  destruct (Z.ltb_spec MAX_COMPONENT_BYTES (zlen b)); split; [done|intros []; lia|by intros _|done].
Qed.

(** The adapters escape as internal keys do. *)
Lemma push_escaped_eq output b : push_escaped output b = output ++ encode_user_key b.
Proof.
  unfold push_escaped, encode_user_key. rewrite app_assoc. f_equal. revert output.
  induction b as [|x b IH]; intros output; cbn [fold_left]; [by rewrite app_nil_r|].
  rewrite IH. destruct (Z.eqb_spec x 0) as [->|Hx].
  - by rewrite escape_zero, <- app_assoc.
  - by rewrite escape_byte, <- app_assoc by (by apply Z.eqb_neq).
Qed.

(** No component's encoding is a prefix of another's. *)
Lemma component_inj a b s t : encode_user_key a ++ s = encode_user_key b ++ t → a = b ∧ s = t.
Proof.
  unfold encode_user_key. rewrite <- !app_assoc. cbn [app]. intros H.
  pose proof (decode_user_key_loop_escape a s 0 []) as Ha. pose proof (decode_user_key_loop_escape b t 0 []) as Hb.
  rewrite H in Ha. rewrite Ha in Hb. cbn in Hb. injection Hb as -> _. split; [done|].
  apply app_inv_head in H. by injection H.
Qed.

Lemma component_len b : zlen (encode_user_key b) = escaped_len b.
Proof.
  unfold encode_user_key, escaped_len. rewrite zlen_app. change (zlen [0; 0]) with 2. f_equal.
  induction b as [|x b IH]; [done|]. cbn [List.filter]. destruct (Z.eqb_spec x 0) as [->|Hx].
  - rewrite escape_zero, !zlen_cons. lia.
  - rewrite escape_byte, !zlen_cons by (by apply Z.eqb_neq). lia.
Qed.

Lemma component_ok b : bytes_ok b → bytes_ok (encode_user_key b).
Proof. intros H. apply bytes_ok_app. split; [by apply escape_ok|]. repeat constructor; unfold is_u8, U8_MAX; lia. Qed.

Lemma component_cmp a b s t :
  bytes_ok a → bytes_ok b →
  lex_cmp (encode_user_key a ++ s) (encode_user_key b ++ t) = match lex_cmp a b with Eq => lex_cmp s t | c => c end.
Proof. intros Ha Hb. unfold encode_user_key. rewrite <- !app_assoc. by apply escape_cmp. Qed.

(** ** Times *)

Definition I64_MIN : Z := - 2 ^ 63.
Definition I64_MAX : Z := 2 ^ 63 - 1.
Definition is_i64 (z : Z) : Prop := I64_MIN ≤ z ≤ I64_MAX.

(** [time as u64] and [x as i64] *)
Definition i64_as_u64 (z : Z) : Z := z mod 2 ^ 64.
Definition u64_as_i64 (z : Z) : Z := if z <? 2 ^ 63 then z else z - 2 ^ 64.

Definition encode_time (time : Z) : bytes := to_be 8 (Z.lxor (i64_as_u64 time) (Z.shiftl 1 63)).
Definition decode_time (b : bytes) : Z := u64_as_i64 (Z.lxor (from_be b) (Z.shiftl 1 63)).

(** Flipping the sign bit. *)
Lemma flip_sign z : is_i64 z → Z.lxor (i64_as_u64 z) (Z.shiftl 1 63) = z + 2 ^ 63.
Proof.
  unfold is_i64, I64_MIN, I64_MAX, i64_as_u64. intros Hz. change (Z.shiftl 1 63) with (2 ^ 63).
  destruct (Z.le_gt_cases 0 z) as [Hp|Hn].
  - rewrite Z.mod_small by lia. rewrite <- Z.add_nocarry_lxor; [done|]. apply Z.bits_inj'. intros n Hnn.
    rewrite Z.land_spec, Z.bits_0, Z.pow2_bits_eqb by lia. destruct (Z.eqb_spec 63 n) as [<-|]; [|by rewrite andb_false_r].
    rewrite andb_true_r. rewrite Z.testbit_false by lia. rewrite Z.div_small by lia. done.
  - replace (z mod 2 ^ 64) with ((z + 2 ^ 63) + 2 ^ 63).
    2: { symmetry. rewrite <- (Z.mod_small (z + 2 ^ 63 + 2 ^ 63) (2 ^ 64)) by lia.
         replace (z + 2 ^ 63 + 2 ^ 63) with (z + 1 * 2 ^ 64) by lia. by rewrite Z.mod_add. }
    rewrite (Z.add_nocarry_lxor (z + 2 ^ 63)).
    + rewrite Z.lxor_assoc, Z.lxor_nilpotent, Z.lxor_0_r. done.
    + apply Z.bits_inj'. intros n Hnn. rewrite Z.land_spec, Z.bits_0, Z.pow2_bits_eqb by lia.
      destruct (Z.eqb_spec 63 n) as [<-|]; [|by rewrite andb_false_r]. rewrite andb_true_r, Z.testbit_false by lia.
      rewrite Z.div_small by lia. done.
Qed.

Lemma time_range z : is_i64 z → 0 ≤ z + 2 ^ 63 < 256 ^ Z.of_nat 8.
Proof. unfold is_i64, I64_MIN, I64_MAX. cbn. lia. Qed.

Lemma decode_encode_time z : is_i64 z → decode_time (encode_time z) = z.
Proof.
  intros Hz. unfold decode_time, encode_time. rewrite flip_sign by done. rewrite from_be_to_be by (by apply time_range).
  pose proof Hz as Hz'. unfold is_i64, I64_MIN, I64_MAX in Hz'.
  assert (Z.lxor (z + 2 ^ 63) (Z.shiftl 1 63) = i64_as_u64 z) as ->.
  { rewrite <- flip_sign by done. by rewrite Z.lxor_assoc, Z.lxor_nilpotent, Z.lxor_0_r. }
  unfold u64_as_i64, i64_as_u64. destruct (Z.le_gt_cases 0 z).
  - rewrite Z.mod_small by lia. rewrite (proj2 (Z.ltb_lt _ _)) by lia. done.
  - assert (z mod 2 ^ 64 = z + 2 ^ 64) as ->.
    { rewrite <- (Z.mod_small (z + 2 ^ 64) (2 ^ 64)) by lia. replace (z + 2 ^ 64) with (z + 1 * 2 ^ 64) by lia. by rewrite Z.mod_add. }
    rewrite (proj2 (Z.ltb_ge _ _)) by lia. lia.
Qed.

Lemma zlen_encode_time z : zlen (encode_time z) = 8.
Proof. unfold encode_time. by rewrite zlen_to_be. Qed.

Lemma encode_time_ok z : bytes_ok (encode_time z).
Proof. apply to_be_ok. Qed.

Lemma encode_time_cmp a b : is_i64 a → is_i64 b → lex_cmp (encode_time a) (encode_time b) = (a ?= b).
Proof.
  intros Ha Hb. unfold encode_time. rewrite !flip_sign by done. rewrite lex_cmp_to_be by (by apply time_range).
  rewrite (Z.add_comm a), (Z.add_comm b). apply Z.add_compare_mono_l.
Qed.

(** Eight bytes are the encoding of a time. *)
Lemma encode_time_onto b : bytes_ok b → zlen b = 8 → ∃ t, is_i64 t ∧ b = encode_time t.
Proof.
  intros Hb Hlen. assert (length b = 8%nat) as Hl by (unfold zlen in Hlen; lia).
  pose proof (from_le_bound (reverse b) (proj2 (Forall_reverse _ _) Hb)) as Hr. rewrite zlen_reverse, Hlen in Hr.
  change (from_le (reverse b)) with (from_be b) in Hr. exists (from_be b - 2 ^ 63).
  assert (is_i64 (from_be b - 2 ^ 63)) as Hi by (unfold is_i64, I64_MIN, I64_MAX; cbn in Hr; lia). split; [done|].
  unfold encode_time. rewrite flip_sign by done. replace (from_be b - 2 ^ 63 + 2 ^ 63) with (from_be b) by lia.
  symmetry. rewrite <- Hl. by apply to_be_from_be.
Qed.

(** ** Scans of a prefix *)

(** A key between two keys with a common prefix has the prefix. *)
Lemma between_prefix p x y k :
  lex_cmp (p ++ x) k ≠ Gt → lex_cmp k (p ++ y) ≠ Gt → ∃ r, k = p ++ r ∧ lex_cmp x r ≠ Gt ∧ lex_cmp r y ≠ Gt.
Proof.
  revert k. induction p as [|b p IH]; intros k; cbn [app]; [eauto|]. destruct k as [|c k]; [done|]. cbn [lex_cmp].
  destruct (b ?= c) eqn:E.
  - apply Z.compare_eq_iff in E. subst c. rewrite Z.compare_refl. intros H1 H2. destruct (IH k H1 H2) as (r & -> & H). by exists r.
  - rewrite Z.compare_antisym, E. by intros _ H.
  - by intros H.
Qed.

(** ** Lists of results *)

Lemma try_map_Forall2 {A B} (f : A → result B) (P : A → B → Prop) l :
  (∀ x, x ∈ l → ∃ y, f x = Ok y ∧ P x y) → ∃ ys, try_map f l = Ok ys ∧ Forall2 P l ys.
Proof.
  induction l as [|x l IH]; intros H; cbn; [by exists []|]. destruct (H x) as (y & -> & Hy); [set_solver|].
  destruct IH as (ys & -> & Hys); [intros z Hz; apply H; set_solver|]. exists (y :: ys). by split; [|constructor].
Qed.

Lemma try_map_Ok {A B} (f : A → result B) l ys :
  try_map f l = Ok ys → ∀ n, try_map f (take n l) = Ok (take n ys).
Proof.
  revert ys. induction l as [|x l IH]; intros ys; cbn; [intros [= <-] []; done|].
  destruct (f x) as [y|] eqn:Ef; [|done]. destruct (try_map f l) as [zs|]; [|done]. intros [= <-] [|n]; [done|].
  cbn [take try_map]. by rewrite Ef, (IH zs).
Qed.

Lemma try_map_map {A B C} (g : A → B) (f : B → result C) l : try_map f (map g l) = try_map (λ x, f (g x)) l.
Proof. induction l as [|x l IH]; cbn; [done|]. by rewrite IH. Qed.

Lemma Forall2_in_l {A B} (P : A → B → Prop) l k x : Forall2 P l k → x ∈ l → ∃ y, y ∈ k ∧ P x y.
Proof. induction 1 as [|a b l k Hab _ IH]; [by intros ?%not_elem_of_nil|]. rewrite elem_of_cons. intros [-> |Hin]; [exists b; by rewrite elem_of_cons; auto|]. destruct (IH Hin) as (z & Hz & HP). exists z. by rewrite elem_of_cons; auto. Qed.

Lemma Forall2_in_r {A B} (P : A → B → Prop) l k y : Forall2 P l k → y ∈ k → ∃ x, x ∈ l ∧ P x y.
Proof. induction 1 as [|a b l k Hab _ IH]; [by intros ?%not_elem_of_nil|]. rewrite elem_of_cons. intros [-> |Hin]; [exists a; by rewrite elem_of_cons; auto|]. destruct (IH Hin) as (z & Hz & HP). exists z. by rewrite elem_of_cons; auto. Qed.

Lemma StronglySorted_Forall2 {A B} (P : A → B → Prop) (R : A → A → Prop) (S : B → B → Prop) l k :
  Forall2 P l k → (∀ x y x' y', P x x' → P y y' → R x y → S x' y') → StronglySorted R l → StronglySorted S k.
Proof.
  intros HP HR. induction HP as [|x y l k Hx Hl IH]; intros Hs; [constructor|]. inversion_clear Hs as [|? ? Hs' Hall].
  constructor; [by apply IH|]. apply Forall_forall. intros z Hz. destruct (Forall2_in_r _ _ _ _ Hl Hz) as (w & Hw & Hwz).
  rewrite Forall_forall in Hall. by apply (HR x w); [..|apply Hall].
Qed.

Lemma try_map_length {A B} (f : A → result B) l ys : try_map f l = Ok ys → length l = length ys.
Proof.
  revert ys. induction l as [|x l IH]; intros ys; cbn; [by intros [= <-]|]. destruct (f x); [|done].
  destruct (try_map f l); [|done]. intros [= <-]. cbn. by rewrite (IH _ eq_refl).
Qed.

Lemma try_map_last {A B} (f : A → result B) l ys :
  try_map f l = Ok ys →
  match last l with Some x => ∃ y, last ys = Some y ∧ f x = Ok y | None => ys = [] end.
Proof.
  destruct (decide (l = [])) as [->|Hne]; cbn; [by intros [= <-]|].
  destruct (exists_last Hne) as (l' & x & ->). rewrite last_snoc. clear Hne. revert ys.
  induction l' as [|z l' IH]; intros ys; cbn [app try_map].
  - destruct (f x) as [y|]; [|done]. intros [= <-]. by exists y.
  - destruct (f z) as [y|]; [|done]. destruct (try_map f (l' ++ [x])) as [zs|] eqn:E; [|done]. intros [= <-].
    destruct (IH zs eq_refl) as (w & Hw & Hf). exists w. split; [|done].
    destruct zs; [done|]. by rewrite last_cons_cons.
Qed.

(** The loop that keeps the last entry. *)
Lemma try_fold_last {A} (l : list A) init :
  try_fold (λ _ entry, let? entry := entry in Ok (Some entry)) init (map Ok l) =
    Ok (match last l with Some x => Some x | None => init end).
Proof. revert init. induction l as [|x l IH]; intros init; cbn [map try_fold]; [done|]. rewrite IH. destruct l; [done|]. rewrite last_cons_cons.
  by destruct (last _) eqn:E; [|apply last_None in E]. Qed.

(** Distinct integers of an interval. *)
Lemma NoDup_interval (l : list Z) a n : 0 ≤ n → NoDup l → (∀ x, x ∈ l → a ≤ x < a + n) → zlen l ≤ n.
Proof.
  intros Hn Hnd Hin. assert (l ⊆+ seqZ a n) as Hs by (apply NoDup_submseteq; [done|]; intros x Hx; by apply elem_of_seqZ, Hin).
  apply submseteq_length in Hs. rewrite length_seqZ in Hs. unfold zlen. lia.
Qed.

Lemma sorted_last {A} (R : A → A → Prop) l x y : StronglySorted R l → last l = Some x → y ∈ l → y = x ∨ R y x.
Proof.
  intros Hs Hl Hy. induction Hs as [|z l Hs IH Hall]; [done|]. apply elem_of_cons in Hy as [-> |Hy].
  - destruct l as [|w l]; [by injection Hl as ->; left|]. right. rewrite last_cons_cons in Hl.
    apply last_Some_elem_of in Hl. rewrite Forall_forall in Hall. by apply Hall.
  - destruct l as [|w l]; [by apply not_elem_of_nil in Hy|]. rewrite last_cons_cons in Hl. by apply IH.
Qed.

(** ** Maps *)

Definition contains_key {V} (name : bytes) (m : list (bytes * V)) : bool :=
  match bt_get lex_cmp name m with Some _ => true | None => false end.

Definition replaced {V} (name : bytes) (value : V) (e : bytes * V) : bytes * V :=
  (e.1, if lex_eqb e.1 name then value else e.2).

Lemma contains_key_false {V} name (m : list (bytes * V)) :
  contains_key name m = false ↔ Forall (λ e, e.1 ≠ name) m.
Proof.
  unfold contains_key. induction m as [|[k v] m IH]; cbn [bt_get]; [done|]. rewrite Forall_cons. cbn [fst].
  destruct (lex_cmp name k) eqn:E.
  - apply lex_cmp_eq in E. subst k. split; [done|]. by intros [].
  - rewrite IH. split; [|by intros []]. intros ?. split; [|done]. intros ->. by rewrite lex_cmp_refl in E.
  - rewrite IH. split; [|by intros []]. intros ?. split; [|done]. intros ->. by rewrite lex_cmp_refl in E.
Qed.

Lemma sorted_above_absent {V} name k v (m : list (bytes * V)) :
  lex_cmp name k ≠ Gt → bt_sorted lex_cmp ((k, v) :: m) → Forall (λ e, e.1 ≠ name) m.
Proof.
  intros Hle Hs. inversion_clear Hs as [|? ? _ Hall]. eapply Forall_impl; [exact Hall|].
  intros e Hlt He. unfold bt_lt in Hlt. cbn [fst] in Hlt. rewrite He in Hlt. pose proof (cmp_lt_gt _ _ Hlt). congruence.
Qed.

(** A sorted map keeps its other entries in place. *)
Lemma bt_insert_replaced {V} name (value : V) m :
  bt_sorted lex_cmp m →
  contains_key name m = true → bt_insert lex_cmp name value m = map (replaced name value) m.
Proof.
  induction 1 as [|[k v] m Hm IH Hall]; [done|]. unfold contains_key. cbn [bt_get bt_insert map].
  assert (bt_sorted lex_cmp ((k, v) :: m)) as Hs by (by constructor).
  destruct (lex_cmp name k) eqn:E.
  - intros _. apply lex_cmp_eq in E as E'. subst k. unfold replaced at 1. cbn [fst snd]. rewrite lex_eqb_refl. f_equal.
    assert (Forall (λ e, e.1 ≠ name) m) as Hne by (eapply sorted_above_absent; [|exact Hs]; congruence).
    clear -Hne. induction Hne as [|[k v] m Hk _ IH]; [done|]. cbn [map]. rewrite <- IH. f_equal. unfold replaced. cbn [fst snd] in *.
    destruct (lex_eqb k name) eqn:E; [|done]. by apply lex_eqb_eq in E.
  - intros Hc. assert (contains_key name m = false) as Hf by (apply contains_key_false; eapply sorted_above_absent; [|exact Hs]; congruence).
    unfold contains_key in Hf. by rewrite Hf in Hc.
  - intros Hc. rewrite IH by done. f_equal. unfold replaced. cbn [fst snd]. destruct (lex_eqb k name) eqn:E'; [|done].
    apply lex_eqb_eq in E'. subst k. by rewrite lex_cmp_refl in E.
Qed.

Lemma map_replaced_absent {V} name (value : V) m : contains_key name m = false → map (replaced name value) m = m.
Proof.
  intros Hc%contains_key_false. induction Hc as [|[k v] m Hk _ IH]; [done|]. cbn [map]. rewrite IH. f_equal.
  unfold replaced. cbn [fst snd] in *. destruct (lex_eqb k name) eqn:E; [|done]. by apply lex_eqb_eq in E.
Qed.

Lemma bt_insert_new {V} name (value : V) m :
  contains_key name m = false → bt_insert lex_cmp name value m ≡ₚ (name, value) :: map (replaced name value) m.
Proof.
  intros Hc. rewrite map_replaced_absent by done. apply contains_key_false in Hc.
  induction Hc as [|[k v] m Hk _ IH]; [done|]. cbn [bt_insert fst] in *. destruct (lex_cmp name k) eqn:E; [|done|].
  - apply lex_cmp_eq in E. congruence.
  - rewrite IH. apply Permutation_swap.
Qed.

Lemma bt_insert_has {V} name (value : V) m : (name, value) ∈ bt_insert lex_cmp name value m.
Proof.
  induction m as [|[k v] m IH]; cbn [bt_insert]; [set_solver|]. destruct (lex_cmp name k) eqn:E; [|set_solver|set_solver].
  apply lex_cmp_eq in E. subst k. set_solver.
Qed.

Lemma insert_len {V} name (value : V) m :
  bt_sorted lex_cmp m → zlen (bt_insert lex_cmp name value m) = zlen m + Z.b2z (negb (contains_key name m)).
Proof.
  intros Hs. destruct (contains_key name m) eqn:Hc; [rewrite bt_insert_replaced by done; rewrite zlen_map; cbn; lia|].
  unfold zlen. rewrite (bt_insert_new name value m Hc). cbn. rewrite length_map. lia.
Qed.

Lemma try_fold_each {A} (f : A → result unit) l : try_fold (λ _ a, f a) tt l = Ok tt ↔ Forall (λ a, f a = Ok tt) l.
Proof.
  induction l as [|a l IH]; cbn; [done|]. rewrite Forall_cons. destruct (f a) as [[]|]; [|by split; [|intros []]].
  rewrite IH. by split; [|intros []].
Qed.

