(* ===== verification/PostcardWire.v ===== *)
(** * The postcard wire format

    The concrete codec that instantiates [Postcard] where a theorem about the workload
    adapters is applied: variable-length integers, length-prefixed vectors and maps,
    tagged options, in the lengths that the adapters' size bounds count.  The theorems
    themselves use [PostcardLaws] only. *)

From Stdlib Require Import ZArith Lia Sorting.Sorted.
From stdpp Require Import base list gmap strings.
From S2P Require Import Prelude InternalKey StoreKeys.

Local Open Scope Z_scope.

Record codec (A : Type) : Type := { enc : A → bytes; dec : bytes → option (A * bytes) }.
Arguments enc {A} _ _.
Arguments dec {A} _ _.

(** The values of [P] are written in [len] bytes and read back. *)
Record codec_ok {A} (c : codec A) (P : A → Prop) (len : A → Z) : Prop := {
  codec_dec : ∀ x rest, P x → dec c (enc c x ++ rest) = Some (x, rest);
  codec_bytes : ∀ x, P x → bytes_ok (enc c x);
  codec_len : ∀ x, P x → zlen (enc c x) = len x
}.

(** ** Integers *)

Fixpoint varint_enc (fuel : nat) (z : Z) : bytes :=
  match fuel with
  | O => [z]
  | S fuel => if 128 <=? z then (128 + z mod 128) :: varint_enc fuel (Z.shiftr z 7) else [z]
  end.

Fixpoint varint_dec (fuel : nat) (b : bytes) : option (Z * bytes) :=
  match fuel, b with
  | O, _ | _, [] => None
  | S fuel, x :: b =>
    if x <? 128 then Some (x, b)
    else match varint_dec fuel b with Some (z, rest) => Some ((x - 128) + 128 * z, rest) | None => None end
  end.

Definition varint : codec Z := {| enc := varint_enc 10; dec := varint_dec 11 |}.

Lemma varint_spec fuel z :
  0 ≤ z < 128 ^ (1 + Z.of_nat fuel) →
  (∀ rest, varint_dec (S fuel) (varint_enc fuel z ++ rest) = Some (z, rest)) ∧ bytes_ok (varint_enc fuel z) ∧
  ∀ n, n - 1 + zlen (varint_enc fuel z) = varint_len_loop fuel z n.
Proof.
  revert z. induction fuel as [|fuel IH]; intros z Hz.
  { cbn in Hz. cbn [varint_enc]. split; [|split].
    - intros rest. cbn. by rewrite (proj2 (Z.ltb_lt _ _)) by lia.
    - constructor; [|constructor]. unfold is_u8, U8_MAX. lia.
    - intros n. cbn. unfold zlen. cbn. lia. }
  cbn [varint_enc varint_len_loop]. destruct (Z.leb_spec 128 z) as [Hge|Hlt].
  - rewrite Z.shiftr_div_pow2 by lia. change (2 ^ 7) with 128. pose proof (Z.mod_pos_bound z 128 ltac:(lia)) as Hm.
    pose proof (Z.div_mod z 128 ltac:(lia)) as Hdm. destruct (IH (z / 128)) as (Hd & Hb & Hl).
    { split; [apply Z.div_pos; lia|]. apply Z.div_lt_upper_bound; [lia|].
      replace (1 + Z.of_nat (S fuel)) with (1 + (1 + Z.of_nat fuel)) in Hz by lia. rewrite (Z.pow_add_r 128 1) in Hz by lia. lia. }
    split; [|split].
    + intros rest. cbn [app]. remember (S fuel) as f. cbn [varint_dec]. rewrite (proj2 (Z.ltb_ge _ _)) by lia. rewrite Hd.
      do 2 f_equal. lia.
    + constructor; [|done]. unfold is_u8, U8_MAX. lia.
    + intros n. rewrite zlen_cons. rewrite <- Hl. lia.
  - split; [|split].
    + intros rest. cbn. by rewrite (proj2 (Z.ltb_lt _ _)) by lia.
    + constructor; [|constructor]. unfold is_u8, U8_MAX. lia.
    + intros n. unfold zlen. cbn. lia.
Qed.

Lemma varint_ok : codec_ok varint is_u64 postcard_varint_len.
Proof.
  assert (∀ x, is_u64 x → 0 ≤ x < 128 ^ (1 + Z.of_nat 10)) as Hr by (unfold is_u64, U64_MAX; cbn; lia).
  split; intros x; [intros rest|..]; intros Hx%Hr; destruct (varint_spec 10 x Hx) as (Hd & Hb & Hl); [apply Hd|done|].
  specialize (Hl 1). unfold postcard_varint_len. cbn [varint enc]. lia.
Qed.

(** ** Vectors, options and pairs *)

Definition vec : codec bytes :=
  {| enc := λ b, enc varint (zlen b) ++ b;
     dec := λ b, match dec varint b with
                 | Some (n, b) => if n <=? zlen b then Some (take (Z.to_nat n) b, drop (Z.to_nat n) b) else None
                 | None => None
                 end |}.

Definition vec_typed (b : bytes) : Prop := bytes_ok b ∧ zlen b ≤ USIZE_MAX.
Definition vec_len (b : bytes) : Z := postcard_varint_len (zlen b) + zlen b.

Lemma vec_ok : codec_ok vec vec_typed vec_len.
Proof.
  assert (∀ b : bytes, zlen b ≤ USIZE_MAX → is_u64 (zlen b)) as Hu by (intros b; split; [apply zlen_nonneg|done]).
  split; intros b; [intros rest|..]; intros [Hb Hn%Hu]; cbn [vec enc dec].
  - rewrite <- app_assoc, (codec_dec _ _ _ varint_ok) by done. rewrite zlen_app, (proj2 (Z.leb_le _ _)) by (pose proof (zlen_nonneg rest); lia).
    by rewrite take_app_z, drop_app_z.
  - apply bytes_ok_app. split; [by apply (codec_bytes _ _ _ varint_ok)|done].
  - rewrite zlen_app. by rewrite (codec_len _ _ _ varint_ok).
Qed.

Definition opt {A} (c : codec A) : codec (option A) :=
  {| enc := λ o, match o with Some x => 1 :: enc c x | None => [0] end;
     dec := λ b, match b with
                 | 0 :: b => Some (None, b)
                 | 1 :: b => match dec c b with Some (x, rest) => Some (Some x, rest) | None => None end
                 | _ => None
                 end |}.

Definition opt_typed {A} (P : A → Prop) (o : option A) : Prop := match o with Some x => P x | None => True end.
Definition opt_len {A} (len : A → Z) (o : option A) : Z := match o with Some x => 1 + len x | None => 1 end.

Lemma opt_ok {A} (c : codec A) P len : codec_ok c P len → codec_ok (opt c) (opt_typed P) (opt_len len).
Proof.
  intros [Hd Hb Hl]. split; [intros [x|] rest|intros [x|]..]; cbn; intros Hx.
  - by rewrite Hd.
  - done.
  - constructor; [by unfold is_u8, U8_MAX|by apply Hb].
  - constructor; [by unfold is_u8, U8_MAX|constructor].
  - rewrite zlen_cons. by rewrite Hl.
  - done.
Qed.

Definition pair_codec {A B} (c : codec A) (d : codec B) : codec (A * B) :=
  {| enc := λ p, enc c p.1 ++ enc d p.2;
     dec := λ b, match dec c b with
                 | Some (x, b) => match dec d b with Some (y, b) => Some ((x, y), b) | None => None end
                 | None => None
                 end |}.

Lemma pair_ok {A B} (c : codec A) (d : codec B) P Q m n :
  codec_ok c P m → codec_ok d Q n → codec_ok (pair_codec c d) (λ p, P p.1 ∧ Q p.2) (λ p, m p.1 + n p.2).
Proof.
  intros [Hd Hb Hl] [Hd' Hb' Hl']. split; [intros [x y] rest|intros [x y]..]; cbn; intros [Hx Hy].
  - by rewrite <- app_assoc, Hd, Hd'.
  - apply bytes_ok_app. auto.
  - rewrite zlen_app. by rewrite Hl, Hl'.
Qed.

(** ** Sequences and maps *)

Fixpoint elems_dec {A} (c : codec A) (n : nat) (b : bytes) : option (list A * bytes) :=
  match n with
  | O => Some ([], b)
  | S n => match dec c b with
           | Some (x, b) => match elems_dec c n b with Some (l, b) => Some (x :: l, b) | None => None end
           | None => None
           end
  end.

Definition seq_codec {A} (c : codec A) : codec (list A) :=
  {| enc := λ l, enc varint (zlen l) ++ concat (map (enc c) l);
     dec := λ b, match dec varint b with
                 | Some (n, b) => if n <=? zlen b then elems_dec c (Z.to_nat n) b else None
                 | None => None
                 end |}.

Fixpoint elems_len {A} (len : A → Z) (l : list A) : Z := match l with [] => 0 | x :: l => len x + elems_len len l end.

(** Elements of at least one byte: a count above the rest of the input is an error. *)
Lemma seq_ok {A} (c : codec A) P len :
  (∀ x, P x → 1 ≤ len x) → codec_ok c P len →
  codec_ok (seq_codec c) (λ l, zlen l ≤ USIZE_MAX ∧ Forall P l) (λ l, postcard_varint_len (zlen l) + elems_len len l).
Proof.
  intros Hpos [Hd Hb Hl].
  assert (∀ l : list A, zlen l ≤ USIZE_MAX → is_u64 (zlen l)) as Hu by (intros l; split; [apply zlen_nonneg|done]).
  assert (∀ l, Forall P l → zlen (concat (map (enc c) l)) = elems_len len l ∧ zlen l ≤ elems_len len l) as Hlen.
  { induction 1 as [|x l Hx _ [IH1 IH2]]; cbn; [done|]. rewrite zlen_app, zlen_cons, Hl, IH1 by done. specialize (Hpos x Hx). lia. }
  split; intros l; [intros rest|..]; intros [Hn%Hu Hall]; cbn [seq_codec enc dec].
  - rewrite <- app_assoc, (codec_dec _ _ _ varint_ok) by done. destruct (Hlen l Hall) as [H1 H2]. pose proof (zlen_nonneg rest).
    rewrite zlen_app, (proj2 (Z.leb_le _ _)) by lia. unfold zlen. rewrite Nat2Z.id. clear -Hd Hall.
    induction Hall as [|x l Hx _ IH]; cbn; [done|]. by rewrite <- app_assoc, Hd, IH.
  - apply bytes_ok_app. split; [by apply (codec_bytes _ _ _ varint_ok)|]. clear -Hb Hall.
    induction Hall; cbn; [constructor|]. apply bytes_ok_app. auto.
  - rewrite zlen_app. rewrite (codec_len _ _ _ varint_ok) by done. by rewrite (proj1 (Hlen l Hall)).
Qed.

(** ** Instances of the laws *)

Section Instances.
  Context {A : Type} (c : codec A) (value : A → Prop) (wire_len : A → Z) `{!∀ x, Decision (value x)}.

Definition postcard_of : Postcard A :=
  {| to_allocvec := λ x, Some (enc c x);
     take_from_bytes := λ b, match dec c b with
                             | Some (x, rest) => if decide (value x) then Some (x, rest) else None
                             | None => None
                             end |}.

Lemma postcard_of_laws : codec_ok c value wire_len → @PostcardLaws A postcard_of value wire_len.
Proof.
  intros [Hd Hb Hl]. split; cbn.
  - intros x _. by eexists.
  - intros x body Hx [= <-]. by apply Hl.
  - intros x body Hx [= <-]. by apply Hb.
  - intros x body rest Hx [= <-]. rewrite Hd by done. by rewrite decide_True.
  - intros b x rest. destruct (dec c b) as [[y r]|]; [|done]. destruct (decide (value y)); [|done]. by intros [= <- _].
Qed.
End Instances.

#[global] Instance sorted_dec {V} (m : list (bytes * V)) : Decision (bt_sorted lex_cmp m).
Proof.
  unfold bt_sorted. induction m as [|x m IH]; [left; constructor|].
  destruct IH as [IH|IH]; [|right; intros H; inversion H; done].
  destruct (decide (Forall (λ y, lex_cmp x.1 y.1 = Lt) m)) as [Hx|Hx].
  - left. by constructor.
  - right. intros H. inversion H. done.
Defined.
