(* ===== verification/FeatureStore.v ===== *)
(** * Feature store (src/crates/meteordb/src/workloads/feature_store.rs)

    Rows of features under an entity, a group and an event time.  A row is valid when
    its features are and an upper bound of its encoded size is within the limit; the
    insertion of a feature keeps it valid, and the encoding of a valid row is always
    within the limit.  Keys are injective and ordered by time within a group, so that
    point-in-time reads are range scans.  The store is proved against [KvLaws]. *)

From Stdlib Require Import ZArith Lia Sorting.Sorted.
From stdpp Require Import base list gmap strings.
From S2P Require Import Prelude InternalKey Batch ValueRecord ManifestCodec Mvcc MemTable Iter Engine.
From S2P Require Import KvStore MemStore StoreKeys PostcardWire.

Local Open Scope Z_scope.

Definition FEATURE_KEY_PREFIX : bytes := 0 :: ascii_bytes "meteordb:feature-store" ++ [0].
Definition FEATURE_KEY_SCHEMA_VERSION : Z := 1.
Definition RECORD_SCHEMA_VERSION : Z := 1.
Definition MAX_FEATURE_COUNT : Z := 1024.
Definition MAX_FEATURE_NAME_BYTES : Z := 16 * 1024.
Definition MAX_FEATURE_VALUE_BYTES : Z := 16 * 1024 * 1024.

(** ** Data *)

Record FeatureKey : Type := {
  fk_entity_type : bytes;
  fk_entity_id : bytes;
  fk_feature_group : bytes;
  fk_event_time : Z
}.

#[global] Instance FeatureKey_eq_dec : EqDecision FeatureKey.
Proof. solve_decision. Defined.

(** An [f64] is its bit pattern, a [String] its UTF-8 bytes. *)
Inductive FeatureValue : Type :=
| FvNull
| FvBool (b : bool)
| FvI64 (z : Z)
| FvF64 (bits : Z)
| FvBytes (b : bytes)
| FvString (b : bytes).

#[global] Instance FeatureValue_eq_dec : EqDecision FeatureValue.
Proof. solve_decision. Defined.

(** [BTreeMap<Vec<u8>, FeatureValue>] *)
Record FeatureRecord : Type := { features : list (bytes * FeatureValue) }.

(** [f64::is_finite] *)
Definition f64_is_finite (bits : Z) : bool := negb (Z.land bits (Z.shiftl 2047 52) =? Z.shiftl 2047 52).

(** ** Validation and size bounds *)

Definition validate_feature (name : bytes) (value : FeatureValue) : result unit :=
  if bool_decide (name = []) then Err (InvalidArgument "feature name must not be empty")
  else if MAX_FEATURE_NAME_BYTES <? zlen name then Err (InvalidArgument "feature name exceeds the limit")
  else
    match value with
    | FvF64 bits => if negb (f64_is_finite bits) then Err (InvalidArgument "feature floats must be finite") else Ok tt
    | FvBytes b => if MAX_FEATURE_VALUE_BYTES <? zlen b then Err (InvalidArgument "feature bytes exceed size limit") else Ok tt
    | FvString b => if MAX_FEATURE_VALUE_BYTES <? zlen b then Err (InvalidArgument "feature string exceeds size limit") else Ok tt
    | _ => Ok tt
    end.

Definition feature_value_encoded_upper_bound (value : FeatureValue) : result Z :=
  let fixed_size :=
    match value with
    | FvNull => Some 0
    | FvBool _ => Some 1
    | FvI64 _ => Some 10
    | FvF64 _ => Some 8
    | FvBytes _ | FvString _ => None
    end in
  match fixed_size with
  | Some size => Ok size
  | None =>
    let? length :=
      match value with
      | FvBytes b => Ok (zlen b)
      | FvString b => Ok (zlen b)
      | _ => Err (Panicked "fixed-size variants returned above")
      end in
    ok_or (checked_add (postcard_varint_len length) length) (InvalidArgument "encoded feature row size overflow")
  end.

Definition checked_feature_size_add (current : Z) (name : bytes) (value : FeatureValue) : result Z :=
  let? value_size := feature_value_encoded_upper_bound value in
  ok_or
    (size ← checked_add current (postcard_varint_len (zlen name));
     size ← checked_add size (zlen name);
     size ← checked_add size 1;
     checked_add size value_size)
    (InvalidArgument "encoded feature row size overflow").

Definition record_encoded_upper_bound (record : FeatureRecord) : result Z :=
  try_fold (λ size '(name, value), checked_feature_size_add size name value)
    (postcard_varint_len (zlen (features record))) (features record).

Definition projected_record_encoded_upper_bound (record : FeatureRecord) (inserted_name : bytes)
    (inserted_value : FeatureValue) : result Z :=
  let replacing := contains_key inserted_name (features record) in
  let? feature_count := ok_or (checked_add (zlen (features record)) (Z.b2z (negb replacing)))
    (InvalidArgument "feature count overflow") in
  let? size := try_fold
    (λ size '(name, value), checked_feature_size_add size name (if lex_eqb name inserted_name then inserted_value else value))
    (postcard_varint_len feature_count) (features record) in
  if negb replacing then checked_feature_size_add size inserted_name inserted_value else Ok size.

Definition validate_record (record : FeatureRecord) : result unit :=
  if MAX_FEATURE_COUNT <? zlen (features record) then Err (InvalidArgument "feature count exceeds the limit")
  else
    let? _ := try_fold (λ _ '(name, value), validate_feature name value) tt (features record) in
    let? encoded_upper_bound := record_encoded_upper_bound record in
    if MAX_FEATURE_VALUE_BYTES <? encoded_upper_bound then Err (InvalidArgument "encoded feature row may exceed the limit")
    else Ok tt.

(** [FeatureRecord::new], [FeatureRecord::insert], [FeatureRecord::get] *)
Definition FeatureRecord_new : FeatureRecord := {| features := [] |}.

Definition FeatureRecord_insert (name : bytes) (value : FeatureValue) (record : FeatureRecord) : result FeatureRecord :=
  let? _ := validate_feature name value in
  if negb (contains_key name (features record)) && (MAX_FEATURE_COUNT <=? zlen (features record)) then
    Err (InvalidArgument "feature count exceeds the limit")
  else
    let? projected_size := projected_record_encoded_upper_bound record name value in
    if MAX_FEATURE_VALUE_BYTES <? projected_size then
      Err (InvalidArgument "encoded feature row may exceed the limit")
    else Ok {| features := bt_insert lex_cmp name value (features record) |}.

Definition FeatureRecord_get (name : bytes) (record : FeatureRecord) : option FeatureValue :=
  bt_get lex_cmp name (features record).

(** ** Values of the Rust types, and the wire format *)

Definition value_typed (v : FeatureValue) : Prop :=
  match v with
  | FvI64 z => is_i64 z
  | FvF64 bits => is_u64 bits
  | FvBytes b | FvString b => bytes_ok b ∧ zlen b ≤ USIZE_MAX
  | _ => True
  end.

Definition record_typed (r : FeatureRecord) : Prop :=
  bt_sorted lex_cmp (features r) ∧ zlen (features r) ≤ USIZE_MAX ∧
  Forall (λ e, bytes_ok e.1 ∧ zlen e.1 ≤ USIZE_MAX ∧ value_typed e.2) (features r).

(** A signed integer is written as the variable-length integer of [zigzag]. *)
Definition zigzag (z : Z) : Z := if 0 <=? z then 2 * z else - 2 * z - 1.

Definition value_wire_len (v : FeatureValue) : Z :=
  match v with
  | FvNull => 0
  | FvBool _ => 1
  | FvI64 z => postcard_varint_len (zigzag z)
  | FvF64 _ => 8
  | FvBytes b | FvString b => postcard_varint_len (zlen b) + zlen b
  end.

Fixpoint entries_wire_len (l : list (bytes * FeatureValue)) : Z :=
  match l with
  | [] => 0
  | (name, v) :: l => postcard_varint_len (zlen name) + zlen name + 1 + value_wire_len v + entries_wire_len l
  end.

Definition record_wire_len (r : FeatureRecord) : Z :=
  postcard_varint_len (zlen (features r)) + entries_wire_len (features r).

(** ** The bounds without their overflow checks *)

Definition value_bound (v : FeatureValue) : Z :=
  match v with
  | FvNull => 0
  | FvBool _ => 1
  | FvI64 _ => 10
  | FvF64 _ => 8
  | FvBytes b | FvString b => postcard_varint_len (zlen b) + zlen b
  end.

Definition entry_bound (e : bytes * FeatureValue) : Z :=
  postcard_varint_len (zlen e.1) + zlen e.1 + 1 + value_bound e.2.

Fixpoint entries_bound (l : list (bytes * FeatureValue)) : Z :=
  match l with [] => 0 | e :: l => entry_bound e + entries_bound l end.

Definition record_bound (r : FeatureRecord) : Z :=
  postcard_varint_len (zlen (features r)) + entries_bound (features r).

Definition within_usize (n : Z) : result Z :=
  if n <=? USIZE_MAX then Ok n else Err (InvalidArgument "encoded feature row size overflow").

Lemma value_bound_nonneg v : 0 ≤ value_bound v.
Proof. destruct v as [| | | |b|b]; cbn [value_bound]; try lia; pose proof (varint_len_pos (zlen b)); pose proof (zlen_nonneg b); lia. Qed.

Lemma entry_bound_pos e : 0 < entry_bound e.
Proof. unfold entry_bound. pose proof (varint_len_pos (zlen e.1)). pose proof (zlen_nonneg e.1). pose proof (value_bound_nonneg e.2). lia. Qed.

Lemma entries_bound_nonneg l : 0 ≤ entries_bound l.
Proof. induction l as [|e l IH]; cbn; [lia|]. pose proof (entry_bound_pos e). lia. Qed.

Lemma value_upper_bound v : feature_value_encoded_upper_bound v = Ok (value_bound v) ∨
  (feature_value_encoded_upper_bound v = Err (InvalidArgument "encoded feature row size overflow") ∧ USIZE_MAX < value_bound v).
Proof.
  destruct v as [| | | |b|b]; cbn [feature_value_encoded_upper_bound value_bound]; auto; unfold checked_add;
    destruct (Z.leb_spec (postcard_varint_len (zlen b) + zlen b) USIZE_MAX); cbn; auto.
Qed.

(** The checked sums are the plain sum when it fits and the same error otherwise. *)
Lemma feature_size_add current name v :
  0 ≤ current → checked_feature_size_add current name v = within_usize (current + entry_bound (name, v)).
Proof.
  intros Hc. unfold checked_feature_size_add, within_usize, entry_bound. cbn [fst snd].
  pose proof (varint_len_pos (zlen name)). pose proof (zlen_nonneg name). pose proof (value_bound_nonneg v).
  destruct (value_upper_bound v) as [-> | [-> Hv]].
  - cbn. unfold checked_add.
    repeat match goal with |- context [?x <=? USIZE_MAX] => destruct (Z.leb_spec x USIZE_MAX); cbn end; try lia; try done.
    f_equal. lia.
  - rewrite (proj2 (Z.leb_gt _ _)) by lia. done.
Qed.

Lemma feature_sizes (g : bytes → FeatureValue → FeatureValue) current l :
  0 ≤ current ≤ USIZE_MAX →
  try_fold (λ size '(name, v), checked_feature_size_add size name (g name v)) current l =
    within_usize (current + entries_bound (map (λ e, (e.1, g e.1 e.2)) l)).
Proof.
  revert current. induction l as [|[name v] l IH]; intros current Hc; cbn.
  { unfold within_usize. rewrite Z.add_0_r, (proj2 (Z.leb_le _ _)) by lia. done. }
  pose proof (entry_bound_pos (name, g name v)) as He. rewrite feature_size_add by lia.
  pose proof (entries_bound_nonneg (map (λ e, (e.1, g e.1 e.2)) l)) as Hl. unfold within_usize at 1.
  destruct (Z.leb_spec (current + entry_bound (name, g name v)) USIZE_MAX).
  - rewrite IH by lia. f_equal. lia.
  - unfold within_usize. rewrite (proj2 (Z.leb_gt _ _)) by lia. done.
Qed.

Lemma record_upper_bound r :
  zlen (features r) ≤ USIZE_MAX → record_encoded_upper_bound r = within_usize (record_bound r).
Proof.
  intros Hn. unfold record_encoded_upper_bound, record_bound.
  pose proof (zlen_nonneg (features r)). pose proof (varint_len_pos (zlen (features r))).
  pose proof (varint_len_usize (zlen (features r)) (conj (zlen_nonneg _) Hn)).
  rewrite (feature_sizes (λ _ v, v)) by (unfold USIZE_MAX, U64_MAX in *; lia). do 3 f_equal.
  clear. induction (features r) as [|[name v] l IH]; cbn; congruence.
Qed.

(** ** Insertion *)

#[global] Instance entries_bound_perm : Proper ((≡ₚ) ==> (=)) entries_bound.
Proof. induction 1; cbn; lia. Qed.

Lemma insert_sizes name value m :
  bt_sorted lex_cmp m →
  zlen (bt_insert lex_cmp name value m) = zlen m + Z.b2z (negb (contains_key name m)) ∧
  entries_bound (bt_insert lex_cmp name value m) =
    entries_bound (map (replaced name value) m) + (if contains_key name m then 0 else entry_bound (name, value)).
Proof.
  intros Hs. destruct (contains_key name m) eqn:Hc.
  - rewrite bt_insert_replaced by done. rewrite zlen_map. cbn. lia.
  - pose proof (bt_insert_new name value m Hc) as Hp. split.
    + unfold zlen. rewrite Hp. cbn. rewrite length_map. lia.
    + rewrite Hp. cbn. lia.
Qed.

(** The projected bound is the bound of the row after the insertion. *)
Lemma projected_bound r name value :
  bt_sorted lex_cmp (features r) → zlen (features r) < USIZE_MAX →
  projected_record_encoded_upper_bound r name value =
    within_usize (record_bound {| features := bt_insert lex_cmp name value (features r) |}).
Proof.
  intros Hs Hn. unfold projected_record_encoded_upper_bound, record_bound. cbn [features].
  destruct (insert_sizes name value (features r) Hs) as [Hlen Hsum]. rewrite Hsum.
  pose proof (zlen_nonneg (features r)) as H0. set (n := zlen (features r) + Z.b2z (negb (contains_key name (features r)))) in *.
  assert (is_u64 n) as Hu by (unfold is_u64, USIZE_MAX in *; destruct (contains_key name (features r)); cbn in n; lia).
  unfold checked_add. fold n. rewrite (proj2 (Z.leb_le _ _)) by (apply Hu). cbn [ok_or]. rewrite Hlen.
  pose proof (varint_len_pos n). pose proof (varint_len_usize n Hu).
  rewrite (feature_sizes (λ k v, if lex_eqb k name then value else v)) by (unfold USIZE_MAX, U64_MAX in *; lia).
  change (map _ (features r)) with (map (replaced name value) (features r)).
  pose proof (entries_bound_nonneg (map (replaced name value) (features r))). pose proof (entry_bound_pos (name, value)).
  unfold within_usize at 1. destruct (contains_key name (features r)); cbn [negb].
  - rewrite Z.add_0_r. unfold within_usize. by destruct (_ <=? _).
  - destruct (Z.leb_spec (postcard_varint_len n + entries_bound (map (replaced name value) (features r))) USIZE_MAX).
    + rewrite feature_size_add by lia. f_equal. lia.
    + unfold within_usize. rewrite (proj2 (Z.leb_gt _ _)) by lia. done.
Qed.

(** A valid row, without the order of the checks. *)
Definition record_valid (r : FeatureRecord) : Prop :=
  zlen (features r) ≤ MAX_FEATURE_COUNT ∧ Forall (λ e, validate_feature e.1 e.2 = Ok tt) (features r) ∧
  record_bound r ≤ MAX_FEATURE_VALUE_BYTES.

Lemma validate_record_iff r : validate_record r = Ok tt ↔ record_valid r.
Proof.
  unfold validate_record, record_valid. destruct (Z.ltb_spec MAX_FEATURE_COUNT (zlen (features r))) as [|Hn]; [split; [done|intros []; lia]|].
  rewrite record_upper_bound by (unfold MAX_FEATURE_COUNT, USIZE_MAX, U64_MAX in *; lia).
  assert (try_fold (λ _ '(name, value), validate_feature name value) tt (features r) = Ok tt ↔
    Forall (λ e, validate_feature e.1 e.2 = Ok tt) (features r)) as Hv.
  { rewrite <- (try_fold_each (λ e, validate_feature e.1 e.2)).
    enough (∀ l, try_fold (λ _ '(name, value), validate_feature name value) tt l =
      try_fold (λ _ e, validate_feature e.1 e.2) tt l) as -> by done.
    induction l as [|[k v] l IH]; cbn; [done|]. by destruct (validate_feature k v) as [[]|]. }
  destruct (try_fold _ tt (features r)) as [[]|e]; [|split; [done|]; intros (_ & H & _); by apply Hv in H].
  unfold within_usize. destruct (Z.leb_spec (record_bound r) USIZE_MAX) as [|Hb].
  - destruct (Z.ltb_spec MAX_FEATURE_VALUE_BYTES (record_bound r)); split; try done; [intros (_ & _ & ?); lia|].
    intros _. split; [done|]. split; [by apply Hv|done].
  - split; [done|]. intros (_ & _ & ?). unfold MAX_FEATURE_VALUE_BYTES, USIZE_MAX, U64_MAX in *. lia.
Qed.

Lemma insert_valid_features name value r :
  validate_feature name value = Ok tt → record_valid r →
  Forall (λ e, validate_feature e.1 e.2 = Ok tt) (bt_insert lex_cmp name value (features r)).
Proof.
  intros Hv (_ & Hall & _). apply (bt_insert_Forall (cmp := lex_cmp)); [exact Hall|]. intros k Hk%lex_cmp_eq. by subst k.
Qed.

(** [C28] The insertion of a feature into a valid row of the feature store accepts
    the feature if and only if the row with the feature added, or with its value
    replaced, is itself a valid row: at most 1,024 features, every name and value
    within its limits, every float finite, and the encoded size bound within 16 MiB.
    The result is then that row, and a rejected insertion reports an invalid
    argument. *)
Theorem feature_insert_exact (name : bytes) (value : FeatureValue) (r : FeatureRecord) :
  bt_sorted lex_cmp (features r) → validate_record r = Ok tt →
  let r' := {| features := bt_insert lex_cmp name value (features r) |} in
  bt_sorted lex_cmp (features r') ∧ FeatureRecord_get name r' = Some value ∧
  (validate_record r' = Ok tt → FeatureRecord_insert name value r = Ok r') ∧
  (validate_record r' ≠ Ok tt → ∃ message, FeatureRecord_insert name value r = Err (InvalidArgument message)).
Proof.
  intros Hs Hr%validate_record_iff r'. rewrite validate_record_iff.
  pose proof (insert_sizes name value (features r) Hs) as [Hlen _]. change (bt_insert lex_cmp name value (features r)) with (features r') in Hlen.
  assert (validate_feature name value = Ok tt ∨ ∃ m, validate_feature name value = Err (InvalidArgument m)) as Hvf.
  { unfold validate_feature. repeat case_match; eauto. }
  assert (record_valid r' → validate_feature name value = Ok tt) as Hname.
  { intros (_ & Hall & _). assert ((name, value) ∈ features r') as Hin by by apply bt_insert_has. by apply (elem_of_Forall _ _ _ Hall Hin). }
  split; [by apply bt_insert_sorted|]. split; [unfold FeatureRecord_get; cbn; rewrite bt_get_insert by done; by rewrite lex_cmp_refl|].
  unfold FeatureRecord_insert. pose proof Hr as (Hn & _ & _).
  rewrite projected_bound by (done || unfold MAX_FEATURE_COUNT, USIZE_MAX, U64_MAX in *; lia). fold r'.
  split.
  - intros Hv. rewrite Hname by done. destruct Hv as (Hc & _ & Hb). rewrite Hlen in Hc.
    assert (negb (contains_key name (features r)) && (MAX_FEATURE_COUNT <=? zlen (features r)) = false) as ->.
    { destruct (contains_key name (features r)); [done|]. cbn in *. apply Z.leb_gt. lia. }
    unfold within_usize. rewrite (proj2 (Z.leb_le _ _)) by (unfold MAX_FEATURE_VALUE_BYTES, USIZE_MAX, U64_MAX in *; lia).
    by rewrite (proj2 (Z.ltb_ge _ _)) by done.
  - intros Hnv. destruct Hvf as [Hv|[m ->]]; [|eauto]. rewrite Hv.
    destruct (negb (contains_key name (features r)) && (MAX_FEATURE_COUNT <=? zlen (features r))) eqn:Ec; [eauto|].
    unfold within_usize. destruct (Z.leb_spec (record_bound r') USIZE_MAX); [|eauto].
    destruct (Z.ltb_spec MAX_FEATURE_VALUE_BYTES (record_bound r')); [eauto|]. destruct Hnv. split; [|split; [|done]].
    + rewrite Hlen. destruct (contains_key name (features r)); cbn in *; [lia|]. apply Z.leb_gt in Ec. lia.
    + by apply insert_valid_features.
Qed.

(** ** Encoded rows *)

Section Codec.
  Context `{Postcard FeatureRecord}.

Definition encode_record (record : FeatureRecord) : result bytes :=
  let? _ := validate_record record in
  let? body := ok_or (to_allocvec record) (InvalidArgument "could not encode feature row") in
  if MAX_FEATURE_VALUE_BYTES <? zlen body then Err (InvalidArgument "encoded feature row exceeds the limit")
  else Ok (RECORD_SCHEMA_VERSION :: body).

Definition decode_record : bytes → result FeatureRecord :=
  decode_versioned "feature-store record" "feature-store record" "serialized feature row exceeds size limit"
    "could not re-encode feature row" RECORD_SCHEMA_VERSION MAX_FEATURE_VALUE_BYTES validate_record.

  Context `{!PostcardLaws FeatureRecord record_typed record_wire_len}.

Lemma value_wire_bound v : value_typed v → value_wire_len v ≤ value_bound v.
Proof.
  destruct v; cbn; try lia. intros Hz. apply varint_len_usize. unfold is_i64, I64_MIN, I64_MAX, is_u64, U64_MAX in *.
  unfold zigzag. destruct (Z.leb_spec 0 z); lia.
Qed.

(** The bound is one. *)
Lemma record_wire_bound r : record_typed r → record_wire_len r ≤ record_bound r.
Proof.
  intros (_ & _ & Hall). unfold record_wire_len, record_bound. apply Z.add_le_mono_l.
  induction Hall as [|[k v] l (_ & _ & Hv) _ IH]; [done|]. cbn. unfold entry_bound. cbn [fst snd] in *.
  apply value_wire_bound in Hv. lia.
Qed.

(** The second size check of [encode_record] never fires. *)
Lemma encode_record_ok r :
  record_typed r → validate_record r = Ok tt →
  ∃ body, encode_record r = Ok (RECORD_SCHEMA_VERSION :: body) ∧ to_allocvec r = Some body ∧
    zlen body ≤ MAX_FEATURE_VALUE_BYTES ∧ bytes_ok body.
Proof.
  intros Hty Hv. unfold encode_record. rewrite Hv. destruct (postcard_total r Hty) as [body Hb]. rewrite Hb. cbn.
  pose proof (postcard_len r body Hty Hb). pose proof (record_wire_bound r Hty). apply validate_record_iff in Hv as (_ & _ & ?).
  exists body. rewrite (proj2 (Z.ltb_ge _ _)) by lia. split; [done|]. split; [done|]. split; [lia|]. by apply (postcard_bytes r).
Qed.

Lemma encode_record_inv r b : encode_record r = Ok b → validate_record r = Ok tt.
Proof. unfold encode_record. by destruct (validate_record r) as [[]|]. Qed.

Lemma decode_record_iff b r : record_typed r → decode_record b = Ok r ↔ encode_record r = Ok b.
Proof.
  intros Hty. unfold decode_record. rewrite (decode_versioned_iff _ _ _ _ _ _ _ (wire_len := record_wire_len)). split.
  - intros (_ & body & -> & Hlen & Hb & Hv). unfold encode_record. rewrite Hv, Hb. cbn. by rewrite (proj2 (Z.ltb_ge _ _)) by lia.
  - intros He. pose proof (encode_record_inv _ _ He) as Hv. destruct (encode_record_ok r Hty Hv) as (body & He' & Hb & Hlen & _).
    rewrite He' in He. injection He as <-. eauto 10.
Qed.

Lemma decode_record_typed b r : decode_record b = Ok r → record_typed r.
Proof. intros Hd. by apply (decode_versioned_iff _ _ _ _ _ _ _ (wire_len := record_wire_len)) in Hd as [? _]. Qed.
End Codec.

(** ** Keys *)

Definition encode_group_prefix (namespace entity_type entity_id feature_group : bytes) : result bytes :=
  let? _ := validate_component "entity_type" entity_type in
  let? _ := validate_component "entity_id" entity_id in
  let? _ := validate_component "feature_group" feature_group in
  let encoded := FEATURE_KEY_PREFIX ++ [FEATURE_KEY_SCHEMA_VERSION] in
  let encoded := push_escaped encoded namespace in
  let encoded := push_escaped encoded entity_type in
  let encoded := push_escaped encoded entity_id in
  Ok (push_escaped encoded feature_group).

(** [FeatureStore::encode_key] *)
Definition feature_encode_key (namespace : bytes) (key : FeatureKey) : result bytes :=
  let? encoded := encode_group_prefix namespace (fk_entity_type key) (fk_entity_id key) (fk_feature_group key) in
  Ok (encoded ++ encode_time (fk_event_time key)).

(** The bytes of a key, before they are validated. *)
Definition group_bytes (ns et ei fg : bytes) : bytes :=
  FEATURE_KEY_PREFIX ++ [FEATURE_KEY_SCHEMA_VERSION] ++ encode_user_key ns ++ encode_user_key et ++ encode_user_key ei ++ encode_user_key fg.

Definition key_bytes (ns : bytes) (key : FeatureKey) : bytes :=
  group_bytes ns (fk_entity_type key) (fk_entity_id key) (fk_feature_group key) ++ encode_time (fk_event_time key).

Definition group_valid (et ei fg : bytes) : Prop := component_valid et ∧ component_valid ei ∧ component_valid fg.
Definition key_valid (key : FeatureKey) : Prop :=
  group_valid (fk_entity_type key) (fk_entity_id key) (fk_feature_group key) ∧ is_i64 (fk_event_time key).

Lemma encode_group_ok ns et ei fg : group_valid et ei fg → encode_group_prefix ns et ei fg = Ok (group_bytes ns et ei fg).
Proof.
  intros (H1 & H2 & H3). unfold encode_group_prefix. rewrite !(proj2 (validate_component_iff _ _)) by done.
  rewrite !push_escaped_eq. unfold group_bytes. by rewrite <- !app_assoc.
Qed.

Lemma encode_group_inv ns et ei fg b :
  encode_group_prefix ns et ei fg = Ok b → group_valid et ei fg ∧ b = group_bytes ns et ei fg.
Proof.
  intros He. assert (group_valid et ei fg) as Hg.
  { unfold encode_group_prefix in He. unfold group_valid. rewrite <- !(validate_component_iff "").
    unfold validate_component in *. repeat case_bool_decide; repeat case_match; done. }
  split; [done|]. rewrite encode_group_ok in He by done. by injection He as <-.
Qed.

Lemma feature_key_ok ns key : key_valid key → feature_encode_key ns key = Ok (key_bytes ns key).
Proof. intros [Hg _]. unfold feature_encode_key. by rewrite encode_group_ok. Qed.

Lemma group_bytes_inj ns et ei fg ns' et' ei' fg' s t :
  group_bytes ns et ei fg ++ s = group_bytes ns' et' ei' fg' ++ t → ns = ns' ∧ et = et' ∧ ei = ei' ∧ fg = fg' ∧ s = t.
Proof.
  unfold group_bytes. rewrite <- !app_assoc. intros He. do 2 apply app_inv_head in He.
  do 4 (apply component_inj in He as [-> He]). done.
Qed.

Lemma key_bytes_inj ns key ns' key' :
  is_i64 (fk_event_time key) → is_i64 (fk_event_time key') → key_bytes ns key = key_bytes ns' key' → ns = ns' ∧ key = key'.
Proof.
  intros Ht Ht' He. apply group_bytes_inj in He as (-> & H1 & H2 & H3 & Htime). split; [done|].
  apply (f_equal decode_time) in Htime. rewrite !decode_encode_time in Htime by done. destruct key, key'. cbn in *. congruence.
Qed.

(** ** Operations *)

Record FeatureStore : Type := { fs_namespace : bytes }.

(** [FeatureStore::new]; the engine is the state that the operations are given. *)
Definition FeatureStore_new (namespace : bytes) : result FeatureStore :=
  let? _ := validate_component "namespace" namespace in
  Ok {| fs_namespace := namespace |}.

Section Operations.
  Context {St : Type} `{KvStore St} `{Postcard FeatureRecord} (fs : FeatureStore).

(** [FeatureStore::put] *)
Definition feature_put (key : FeatureKey) (record : FeatureRecord) (ttl_ms : option Z) (s : St) : result unit * St :=
  match feature_encode_key (fs_namespace fs) key with
  | Err e => (Err e, s)
  | Ok key =>
    match encode_record record with
    | Err e => (Err e, s)
    | Ok record =>
      match ttl_ms with
      | Some ttl_ms => kv_write (StorePutTtl key record ttl_ms) s
      | None => kv_write (StorePut key record) s
      end
    end
  end.

(** [.map(|bytes| decode_record(&bytes)).transpose()] *)
Definition decode_optional (value : option bytes) : result (option FeatureRecord) :=
  match value with
  | Some b => let? record := decode_record b in Ok (Some record)
  | None => Ok None
  end.

(** [FeatureStore::get] *)
Definition feature_get (key : FeatureKey) (s : St) : result (option FeatureRecord) :=
  let? encoded := feature_encode_key (fs_namespace fs) key in
  let? value := kv_get encoded s in
  decode_optional value.

(** [FeatureStore::get_many] *)
Definition feature_get_many (keys : list FeatureKey) (s : St) : result (list (option FeatureRecord)) :=
  let? keys := try_map (feature_encode_key (fs_namespace fs)) keys in
  let? snapshot_get := kv_snapshot s in
  try_map (λ key, let? value := snapshot_get key in decode_optional value) keys.

(** A [RangeInclusive] is its start and its end. *)
Definition scan_range (entity_type entity_id feature_group : bytes) (event_times : Z * Z) (limit : Z) (s : St)
    : result (list (result (bytes * bytes))) :=
  let? prefix := encode_group_prefix (fs_namespace fs) entity_type entity_id feature_group in
  let start := prefix ++ encode_time event_times.1 in
  let end_ := prefix ++ encode_time event_times.2 in
  kv_scan {| sb_start := Included start; sb_end := Included end_ |} limit s.

Definition decode_history_entry (entity_type entity_id feature_group : bytes) (entry : bytes * bytes)
    : result (FeatureKey * FeatureRecord) :=
  let '(encoded_key, encoded_record) := entry in
  let expected_key_len :=
    zlen FEATURE_KEY_PREFIX + 1 + escaped_len (fs_namespace fs) + escaped_len entity_type
      + escaped_len entity_id + escaped_len feature_group + 8 in
  if negb (zlen encoded_key =? expected_key_len) then Err (Corruption "feature-store key" "unexpected length")
  else
    let time_bytes := slice (zlen encoded_key - 8) (zlen encoded_key) encoded_key in
    let? record := decode_record encoded_record in
    Ok ({| fk_entity_type := entity_type; fk_entity_id := entity_id; fk_feature_group := feature_group;
           fk_event_time := decode_time time_bytes |}, record).

(** [FeatureStore::history] *)
Definition history (entity_type entity_id feature_group : bytes) (event_times : Z * Z) (limit : Z) (s : St)
    : result (list (FeatureKey * FeatureRecord)) :=
  if (event_times.2 <? event_times.1) || (limit =? 0) then Ok []
  else
    let? entries := scan_range entity_type entity_id feature_group event_times limit s in
    try_map (λ entry, let? entry := entry in decode_history_entry entity_type entity_id feature_group entry) entries.

(** [FeatureStore::newest_in_range]: the loop keeps the last entry. *)
Definition newest_in_range (entity_type entity_id feature_group : bytes) (event_times : Z * Z) (s : St)
    : result (option (FeatureKey * FeatureRecord)) :=
  let? entries := scan_range entity_type entity_id feature_group event_times USIZE_MAX s in
  let? newest := try_fold (λ _ entry, let? entry := entry in Ok (Some entry)) None entries in
  match newest with
  | Some entry => let? row := decode_history_entry entity_type entity_id feature_group entry in Ok (Some row)
  | None => Ok None
  end.

(** [FeatureStore::latest], [FeatureStore::as_of], [FeatureStore::scan_group] *)
Definition latest (entity_type entity_id feature_group : bytes) (s : St) : result (option (FeatureKey * FeatureRecord)) :=
  newest_in_range entity_type entity_id feature_group (I64_MIN, I64_MAX) s.

Definition as_of (entity_type entity_id feature_group : bytes) (event_time : Z) (s : St)
    : result (option (FeatureKey * FeatureRecord)) :=
  newest_in_range entity_type entity_id feature_group (I64_MIN, event_time) s.

Definition scan_group (entity_type entity_id feature_group : bytes) (limit : Z) (s : St)
    : result (list (FeatureKey * FeatureRecord)) :=
  history entity_type entity_id feature_group (I64_MIN, I64_MAX) limit s.
End Operations.

(** ** What the store promises *)

Section Promises.
  Context {St : Type} {KV : KvStore St} {KL : KvLaws St} {PC : Postcard FeatureRecord}.
  Context {PL : PostcardLaws FeatureRecord record_typed record_wire_len}.

(** The live row of a key. *)
Definition row (s : St) (ns : bytes) (key : FeatureKey) : option FeatureRecord :=
  match kv_view s (key_bytes ns key) with
  | Some b => match decode_record b with Ok r => Some r | Err _ => None end
  | None => None
  end.

(** Only feature stores write under their prefix. *)
Definition only_rows (s : St) : Prop :=
  ∀ k v, kv_view s k = Some v → (∃ rest, k = FEATURE_KEY_PREFIX ++ [FEATURE_KEY_SCHEMA_VERSION] ++ rest) →
    ∃ ns key r, k = key_bytes ns key ∧ key_valid key ∧ decode_record v = Ok r.

(** The rows of a group between two times, by increasing time. *)
Definition rows_between (s : St) (ns et ei fg : bytes) (lo hi : Z) (rows : list (FeatureKey * FeatureRecord)) : Prop :=
  StronglySorted (λ x y, fk_event_time x.1 < fk_event_time y.1) rows ∧
  ∀ key r, (key, r) ∈ rows ↔
    fk_entity_type key = et ∧ fk_entity_id key = ei ∧ fk_feature_group key = fg ∧
    lo ≤ fk_event_time key ≤ hi ∧ row s ns key = Some r.

Definition group_bounds (ns et ei fg : bytes) (lo hi : Z) : ScanBounds :=
  {| sb_start := Included (group_bytes ns et ei fg ++ encode_time lo);
     sb_end := Included (group_bytes ns et ei fg ++ encode_time hi) |}.

Definition group_key (et ei fg : bytes) (t : Z) : FeatureKey :=
  {| fk_entity_type := et; fk_entity_id := ei; fk_feature_group := fg; fk_event_time := t |}.

(** A live key of a group's range is a row of the group. *)
Lemma range_row s ns et ei fg lo hi k v :
  only_rows s → is_i64 lo → is_i64 hi → kv_view s k = Some v →
  user_key_in_bounds (group_bounds ns et ei fg lo hi) k = true →
  ∃ t r, lo ≤ t ≤ hi ∧ is_i64 t ∧ k = key_bytes ns (group_key et ei fg t) ∧ decode_record v = Ok r.
Proof.
  intros Honly Hlo Hhi Hv. unfold user_key_in_bounds, lower_allows, upper_allows. cbn [sb_start sb_end group_bounds].
  rewrite andb_true_iff, !lex_leb_le. intros [H1 H2]. destruct (between_prefix _ _ _ _ H1 H2) as (rest & -> & Hl & Hu).
  destruct (Honly _ v Hv) as (ns' & key & r & Hk & [Hg Ht] & Hd).
  { unfold group_bytes. rewrite <- !app_assoc. eauto. }
  unfold key_bytes in Hk. apply group_bytes_inj in Hk as (-> & -> & -> & -> & ->). exists (fk_event_time key), r.
  rewrite encode_time_cmp in Hl, Hu by done. apply Z.compare_le_iff in Hl, Hu. done.
Qed.

Lemma key_bytes_between ns et ei fg lo hi t :
  is_i64 lo → is_i64 hi → is_i64 t → lo ≤ t ≤ hi →
  user_key_in_bounds (group_bounds ns et ei fg lo hi) (key_bytes ns (group_key et ei fg t)) = true.
Proof.
  intros Hlo Hhi Ht Hle. unfold user_key_in_bounds, lower_allows, upper_allows. cbn [sb_start sb_end group_bounds].
  rewrite andb_true_iff, !lex_leb_le. unfold key_bytes. cbn [fk_entity_type fk_entity_id fk_feature_group fk_event_time group_key]. rewrite !lex_cmp_app_l, !encode_time_cmp by done. 
  split; apply Z.compare_le_iff; lia.
Qed.

Lemma key_bytes_len ns et ei fg t :
  zlen (key_bytes ns (group_key et ei fg t)) =
    zlen FEATURE_KEY_PREFIX + 1 + escaped_len ns + escaped_len et + escaped_len ei + escaped_len fg + 8.
Proof. unfold key_bytes, group_bytes. cbn [fk_entity_type fk_entity_id fk_feature_group fk_event_time group_key].
  rewrite !zlen_app, zlen_encode_time, !component_len. change (zlen [FEATURE_KEY_SCHEMA_VERSION]) with 1. lia. Qed.

Lemma decode_entry_ok ns et ei fg t v r :
  is_i64 t → decode_record v = Ok r →
  decode_history_entry {| fs_namespace := ns |} et ei fg (key_bytes ns (group_key et ei fg t), v) = Ok (group_key et ei fg t, r).
Proof.
  intros Ht Hd. unfold decode_history_entry. cbn [fs_namespace]. rewrite key_bytes_len, Z.eqb_refl, Hd. cbn [negb].
  rewrite <- (key_bytes_len ns et ei fg t). do 2 f_equal. unfold group_key. f_equal. unfold key_bytes. cbn [fk_entity_type fk_entity_id fk_feature_group fk_event_time].
  rewrite zlen_app. pose proof (slice_app_mid (group_bytes ns et ei fg) (encode_time t) []) as Hs. rewrite app_nil_r in Hs.
  rewrite zlen_encode_time in Hs |- *. replace (zlen (group_bytes ns et ei fg) + 8 - 8) with (zlen (group_bytes ns et ei fg)) by lia.
  rewrite Hs. by apply decode_encode_time.
Qed.

(** A scan of a group reads its rows. *)
Lemma scan_range_ok s ns et ei fg lo hi limit :
  kv_ok s → only_rows s → group_valid et ei fg → is_i64 lo → is_i64 hi → 0 ≤ limit →
  kv_scannable s (group_bounds ns et ei fg lo hi) →
  ∃ pairs rows, scan_range {| fs_namespace := ns |} et ei fg (lo, hi) limit s = Ok (map Ok (take (Z.to_nat limit) pairs)) ∧
    try_map (decode_history_entry {| fs_namespace := ns |} et ei fg) pairs = Ok rows ∧ rows_between s ns et ei fg lo hi rows.
Proof.
  intros Hok Honly Hg Hlo Hhi Hlim Hscan. unfold scan_range. cbn [fs_namespace fst snd]. rewrite encode_group_ok by done.
  destruct (kv_scan_law s _ limit Hok Hscan Hlim) as (pairs & Heq & Hsorted & Hin).
  set (P := λ (p : bytes * bytes) (x : FeatureKey * FeatureRecord), ∃ t, lo ≤ t ≤ hi ∧ is_i64 t ∧ x.1 = group_key et ei fg t ∧
    p.1 = key_bytes ns x.1 ∧ kv_view s p.1 = Some p.2 ∧ decode_record p.2 = Ok x.2).
  destruct (try_map_Forall2 (decode_history_entry {| fs_namespace := ns |} et ei fg) P pairs) as (rows & Hrows & HP).
  { intros [k v] Hkv. apply Hin in Hkv as [Hb Hv]. destruct (range_row _ _ _ _ _ _ _ _ _ Honly Hlo Hhi Hv Hb) as (t & r & Ht & Hit & -> & Hd).
    exists (group_key et ei fg t, r). split; [by apply decode_entry_ok|]. by exists t. }
  exists pairs, rows. split; [exact Heq|]. split; [done|]. split.
  - eapply StronglySorted_Forall2; [exact HP| |exact Hsorted].
    intros [k v] [k' v'] [key r] [key' r'] (t & _ & Hit & -> & -> & _) (t' & _ & Hit' & -> & -> & _). cbn [fst snd].
    unfold key_bytes. cbn [fk_entity_type fk_entity_id fk_feature_group fk_event_time group_key].
    rewrite lex_cmp_app_l, encode_time_cmp by done. by rewrite Z.compare_lt_iff.
  - intros key r. split.
    + intros Hx. destruct (Forall2_in_r _ _ _ _ HP Hx) as ([k v] & _ & t & Ht & Hit & Hk & Hkb & Hv & Hd). cbn [fst snd] in *.
      subst. do 3 (split; [done|]). split; [done|]. unfold row. by rewrite Hv, Hd.
    + intros (H1 & H2 & H3 & Ht & Hr). unfold row in Hr. destruct (kv_view s (key_bytes ns key)) as [v|] eqn:Hv; [|done].
      assert (is_i64 (fk_event_time key)) as Hit by (unfold is_i64 in *; lia).
      assert (key = group_key et ei fg (fk_event_time key)) as Hkey by (destruct key; cbn in *; subst; done).
      assert ((key_bytes ns key, v) ∈ pairs) as Hp.
      { apply Hin. split; [|done]. rewrite Hkey at 1. by apply key_bytes_between. }
      destruct (Forall2_in_l _ _ _ _ HP Hp) as ([key' r'] & Hx & t & Ht' & Hit' & Hk & Hkb & _ & Hd). cbn [fst snd] in *.
      apply key_bytes_inj in Hkb as [_ <-]; [|done|by rewrite Hk]. rewrite Hd in Hr. injection Hr as <-. done.
Qed.

(** [C12] A history of the feature store is exact: over a key-value store that keeps
    its laws and in which only feature stores write under their prefix, [history]
    returns the live rows of the group whose event times lie in the inclusive range,
    by increasing event time, every one of them decoded, cut after [limit] rows. *)
Theorem history_exact (s : St) (ns et ei fg : bytes) (lo hi limit : Z) :
  kv_ok s → only_rows s → group_valid et ei fg → is_i64 lo → is_i64 hi → 0 ≤ limit →
  kv_scannable s (group_bounds ns et ei fg lo hi) →
  ∃ rows, history {| fs_namespace := ns |} et ei fg (lo, hi) limit s = Ok (take (Z.to_nat limit) rows) ∧
    rows_between s ns et ei fg lo hi rows.
Proof.
  intros Hok Honly Hg Hlo Hhi Hlim Hscan.
  destruct (scan_range_ok s ns et ei fg lo hi limit) as (pairs & rows & Hsc & Hmap & Hrows); [done..|].
  exists rows. split; [|done]. unfold history. cbn [fst snd]. destruct (Z.ltb_spec hi lo) as [Hlt|Hle].
  { cbn [orb]. destruct rows as [|[key r] rows]; [by rewrite take_nil|]. destruct Hrows as [_ Hin].
    destruct (proj1 (Hin key r)) as (_ & _ & _ & Ht & _); [left|]. lia. }
  cbn [orb]. destruct (Z.eqb_spec limit 0) as [->|_]; [done|]. rewrite Hsc, try_map_map. by apply try_map_Ok.
Qed.

(** The newest of the rows of a group between two times. *)
Definition newest (s : St) (ns et ei fg : bytes) (lo hi : Z) (o : option (FeatureKey * FeatureRecord)) : Prop :=
  match o with
  | None => ∀ t, is_i64 t → lo ≤ t ≤ hi → row s ns (group_key et ei fg t) = None
  | Some (key, r) => ∃ t, key = group_key et ei fg t ∧ lo ≤ t ≤ hi ∧ row s ns key = Some r ∧
      ∀ t', is_i64 t' → t < t' ≤ hi → row s ns (group_key et ei fg t') = None
  end.

(** A group cannot have more rows than a scan returns, unless every time has one. *)
Definition time_free (s : St) (ns et ei fg : bytes) (lo hi : Z) : Prop :=
  ∃ t, is_i64 t ∧ (t < lo ∨ hi < t ∨ row s ns (group_key et ei fg t) = None).

Lemma rows_between_len s ns et ei fg lo hi rows :
  is_i64 lo → is_i64 hi → time_free s ns et ei fg lo hi → rows_between s ns et ei fg lo hi rows → zlen rows ≤ USIZE_MAX.
Proof.
  intros Hlo Hhi (t & Ht & Hfree) [Hs Hin]. set (times := map (λ x, fk_event_time x.1) rows).
  assert (∀ x, x ∈ times → lo ≤ x ≤ hi ∧ row s ns (group_key et ei fg x) ≠ None) as Hx.
  { intros x Hx. apply list_elem_of_fmap in Hx as ([key r] & -> & Hk). apply Hin in Hk as (H1 & H2 & H3 & H4 & H5).
    split; [done|]. destruct key. cbn in *. subst. unfold group_key. by rewrite H5. }
  assert (NoDup times) as Hnd.
  { clear -Hs. induction Hs as [|x l Hs IH Hall]; [constructor|]. cbn. constructor; [|done].
    intros (y & Hy & Hyl)%list_elem_of_fmap. rewrite Forall_forall in Hall. specialize (Hall y Hyl). lia. }
  assert (zlen (t :: times) ≤ 2 ^ 64) as Hlen.
  { apply (NoDup_interval _ I64_MIN); [lia| |].
    - constructor; [|done]. intros [Hr Hrow]%Hx. destruct Hfree as [?|[?|?]]; [lia|lia|done].
    - unfold is_i64, I64_MIN, I64_MAX in *. intros x [-> |[Hr _]%Hx]%elem_of_cons; lia. }
  rewrite zlen_cons in Hlen. unfold times in Hlen. rewrite zlen_map in Hlen. unfold USIZE_MAX, U64_MAX. lia.
Qed.

Lemma rows_last_newest s ns et ei fg lo hi rows :
  is_i64 lo → is_i64 hi → rows_between s ns et ei fg lo hi rows → newest s ns et ei fg lo hi (last rows).
Proof.
  intros Hlo Hhi [Hs Hin]. destruct (last rows) as [[key r]|] eqn:Hl; cbn.
  - pose proof (last_Some_elem_of _ _ Hl) as Hk. apply Hin in Hk as (H1 & H2 & H3 & Ht & Hr). exists (fk_event_time key).
    split; [destruct key; cbn in *; by subst|]. split; [done|]. split; [done|]. intros t' Hi Ht'.
    destruct (row s ns (group_key et ei fg t')) as [r'|] eqn:Hr'; [|done].
    assert ((group_key et ei fg t', r') ∈ rows) as Hin' by (apply Hin; cbn; repeat split; [lia|lia|done]).
    destruct (sorted_last _ _ _ _ Hs Hl Hin') as [[= <- _]|Hlt]; cbn in *; lia.
  - apply last_None in Hl. subst rows. intros t Hi Ht. destruct (row s ns (group_key et ei fg t)) as [r|] eqn:Hr; [|done].
    assert ((group_key et ei fg t, r) ∈ []) as Hin' by (apply Hin; cbn; repeat split; [lia|lia|done]). by apply not_elem_of_nil in Hin'.
Qed.

Lemma newest_in_range_ok s ns et ei fg lo hi :
  kv_ok s → only_rows s → group_valid et ei fg → is_i64 lo → is_i64 hi →
  kv_scannable s (group_bounds ns et ei fg lo hi) → time_free s ns et ei fg lo hi →
  ∃ o, newest_in_range {| fs_namespace := ns |} et ei fg (lo, hi) s = Ok o ∧ newest s ns et ei fg lo hi o.
Proof.
  intros Hok Honly Hg Hlo Hhi Hscan Hfree.
  destruct (scan_range_ok s ns et ei fg lo hi USIZE_MAX) as (pairs & rows & Hsc & Hmap & Hrows); [done..|].
  exists (last rows). split; [|by apply rows_last_newest]. unfold newest_in_range. rewrite Hsc.
  pose proof (rows_between_len _ _ _ _ _ _ _ _ Hlo Hhi Hfree Hrows) as Hlen.
  assert (length pairs = length rows) as Hl by (by eapply try_map_length).
  rewrite firstn_all2 by (unfold zlen in Hlen; lia). rewrite try_fold_last. pose proof (try_map_last _ _ _ Hmap) as Hlast.
  destruct (last pairs) as [p|]; [|by subst rows]. destruct Hlast as (x & -> & Hd). by rewrite Hd.
Qed.

(** [C11] Point-in-time reads of the feature store are exact: [as_of] returns the live
    row of the group with the greatest event time that is not after the given one, and
    nothing when there is no such row. *)
Theorem as_of_newest (s : St) (ns et ei fg : bytes) (event_time : Z) :
  kv_ok s → only_rows s → group_valid et ei fg → is_i64 event_time →
  kv_scannable s (group_bounds ns et ei fg I64_MIN event_time) → time_free s ns et ei fg I64_MIN event_time →
  ∃ o, as_of {| fs_namespace := ns |} et ei fg event_time s = Ok o ∧ newest s ns et ei fg I64_MIN event_time o.
Proof. intros Hok Honly Hg Ht Hscan Hfree. by apply newest_in_range_ok. Qed.

(** What [feature_put] leaves under its key. *)
Definition row_left (r : FeatureRecord) (ttl_ms : option Z) : option FeatureRecord :=
  match ttl_ms with Some ttl_ms => if 0 <? ttl_ms then Some r else None | None => Some r end.

Lemma feature_get_ok s ns key :
  kv_ok s → only_rows s → key_valid key → kv_readable s (key_bytes ns key) →
  feature_get {| fs_namespace := ns |} key s = Ok (row s ns key).
Proof.
  intros Hok Honly Hk Hr. unfold feature_get, row. cbn [fs_namespace]. rewrite feature_key_ok, kv_get_law by done.
  destruct (kv_view s (key_bytes ns key)) as [v|] eqn:Hv; [|done]. cbn.
  destruct (Honly _ v Hv) as (ns' & key' & r & _ & _ & Hd); [|by rewrite Hd]. unfold key_bytes, group_bytes. rewrite <- !app_assoc. eauto.
Qed.

Lemma feature_put_ok s ns key r ttl_ms body :
  kv_ok s → only_rows s → key_valid key → record_typed r → encode_record r = Ok body →
  kv_writable s (put_write (key_bytes ns key) body ttl_ms) →
  ∃ s', feature_put {| fs_namespace := ns |} key r ttl_ms s = (Ok tt, s') ∧ kv_ok s' ∧ only_rows s' ∧
    ∀ ns' key', key_valid key' →
      row s' ns' key' = if decide ((ns', key') = (ns, key)) then row_left r ttl_ms else row s ns' key'.
Proof.
  intros Hok Honly Hk Hty He Hw. unfold feature_put. cbn [fs_namespace]. rewrite feature_key_ok, He by done.
  destruct (kv_write_law s _ Hok Hw) as (s' & Hwr & Hok' & Hview).
  exists s'. split; [unfold put_write in Hwr; by destruct ttl_ms|]. split; [done|].
  pose proof (proj2 (decode_record_iff body r Hty) He) as Hd. split.
  - intros k v. rewrite Hview, put_write_written. destruct (decide (k = key_bytes ns key)) as [->|Hne]; [|apply Honly].
    cbn [from_option id]. intros Hv _. exists ns, key, r. split; [done|]. split; [done|]. destruct ttl_ms as [ttl|]; [destruct (0 <? ttl); [|done]|]; injection Hv as <-; done.
  - intros ns' key' Hk'. unfold row. rewrite Hview, put_write_written. destruct (decide (key_bytes ns' key' = key_bytes ns key)) as [Heq|Hne].
    + apply key_bytes_inj in Heq as [-> ->]; [|apply Hk'|apply Hk]. rewrite decide_True by done. unfold row_left. cbn [from_option id].
      destruct ttl_ms as [ttl|]; [destruct (0 <? ttl); [|done]|]; by rewrite Hd.
    + rewrite decide_False by (intros [= -> ->]; done). done.
Qed.


(** A rejected row does not reach the engine. *)
Lemma feature_put_rejected s ns key r ttl_ms :
  ¬ group_valid (fk_entity_type key) (fk_entity_id key) (fk_feature_group key) ∨ validate_record r ≠ Ok tt →
  ∃ e, feature_put {| fs_namespace := ns |} key r ttl_ms s = (Err e, s).
Proof.
  unfold feature_put. cbn [fs_namespace]. destruct (feature_encode_key ns key) as [k|] eqn:Ek; [|eauto].
  intros [Hg|Hv].
  - destruct Hg. unfold feature_encode_key in Ek. destruct (encode_group_prefix _ _ _ _) eqn:Eg; [|done]. by apply encode_group_inv in Eg as [? _].
  - destruct (encode_record r) as [b|] eqn:Eb; [|eauto]. by apply encode_record_inv in Eb.
Qed.

(** A batch of reads answers in the order of the keys. *)
Lemma feature_get_many_ok s ns keys snapshot_get :
  only_rows s → Forall key_valid keys → kv_snapshot s = Ok snapshot_get →
  (∀ key, key ∈ keys → snapshot_get (key_bytes ns key) = Ok (kv_view s (key_bytes ns key))) →
  feature_get_many {| fs_namespace := ns |} keys s = Ok (map (row s ns) keys).
Proof.
  intros Honly Hk Hs Hread. unfold feature_get_many. cbn [fs_namespace].
  assert (try_map (feature_encode_key ns) keys = Ok (map (key_bytes ns) keys)) as ->.
  { clear Hread. induction Hk as [|key keys Hkey _ IH]; [done|]. cbn [try_map map]. by rewrite feature_key_ok, IH by done. }
  rewrite Hs, try_map_map. clear Hk Hs. induction keys as [|key keys IH]; [done|]. cbn [try_map map].
  rewrite Hread by set_solver. rewrite IH by (intros; apply Hread; set_solver). unfold row.
  destruct (kv_view s (key_bytes ns key)) as [v|] eqn:Hv; [|done]. cbn.
  destruct (Honly _ v Hv) as (ns' & key' & r & _ & _ & Hd); [|by rewrite Hd]. unfold key_bytes, group_bytes. rewrite <- !app_assoc. eauto.
Qed.
End Promises.

(** ** A concrete store *)

Definition value_codec : codec FeatureValue :=
  {| enc := λ v, match v with
                 | FvNull => [0]
                 | FvBool b => [1; Z.b2z b]
                 | FvI64 z => 2 :: enc varint (zigzag z)
                 | FvF64 bits => 3 :: to_le 8 bits
                 | FvBytes b => 4 :: enc vec b
                 | FvString b => 5 :: enc vec b
                 end;
     dec := λ b, match b with
                 | 0 :: b => Some (FvNull, b)
                 | 1 :: x :: b => Some (FvBool (x =? 1), b)
                 | 2 :: b => match dec varint b with
                             | Some (z, b) => Some (FvI64 (if Z.odd z then - (z / 2) - 1 else z / 2), b)
                             | None => None
                             end
                 | 3 :: b => if 8 <=? zlen b then Some (FvF64 (from_le (take 8 b)), drop 8 b) else None
                 | 4 :: b => match dec vec b with Some (x, b) => Some (FvBytes x, b) | None => None end
                 | 5 :: b => match dec vec b with Some (x, b) => Some (FvString x, b) | None => None end
                 | _ => None
                 end |}.

Lemma zigzag_u64 z : is_i64 z → is_u64 (zigzag z).
Proof. unfold is_i64, I64_MIN, I64_MAX, is_u64, U64_MAX, zigzag. intros Hz. destruct (Z.leb_spec 0 z); lia. Qed.

Lemma zigzag_inv z : (if Z.odd (zigzag z) then - (zigzag z / 2) - 1 else zigzag z / 2) = z.
Proof.
  unfold zigzag. destruct (Z.leb_spec 0 z).
  - rewrite Z.odd_mul. cbn [Z.odd andb]. rewrite (Z.mul_comm 2 z), Z.div_mul by lia. done.
  - replace (-2 * z - 1) with (2 * (- z - 1) + 1) by lia. rewrite Z.odd_add, Z.odd_mul. cbn [Z.odd andb xorb].
    rewrite (Z.mul_comm 2), Z.div_add_l by lia. change (1 / 2) with 0. lia.
Qed.

Lemma value_codec_ok : codec_ok value_codec value_typed (λ v, 1 + value_wire_len v).
Proof.
  split.
  - intros [|[]|z|bits|b|b] rest Hv; cbn [value_codec enc dec app].
    + done.
    + done.
    + done.
    + by rewrite (codec_dec _ _ _ varint_ok), zigzag_inv by (by apply zigzag_u64).
    + rewrite zlen_app, zlen_to_le, (proj2 (Z.leb_le _ _)) by (pose proof (zlen_nonneg rest); lia).
      rewrite take_app_length', drop_app_length' by (by rewrite to_le_length).
      rewrite from_le_to_le; [done|]. unfold value_typed, is_u64, U64_MAX in Hv. cbn. lia.
    + by rewrite (codec_dec _ _ _ vec_ok).
    + by rewrite (codec_dec _ _ _ vec_ok).
  - intros [|[]|z|bits|b|b] Hv; cbn [value_codec enc]; repeat (constructor; [by unfold is_u8, U8_MAX|]); try done.
    + by apply (codec_bytes _ _ _ varint_ok), zigzag_u64.
    + apply to_le_ok.
    + by apply (codec_bytes _ _ _ vec_ok).
    + by apply (codec_bytes _ _ _ vec_ok).
  - intros [|[]|z|bits|b|b] Hv; cbn [value_codec enc value_wire_len]; try done; rewrite zlen_cons.
    + by rewrite (codec_len _ _ _ varint_ok) by (by apply zigzag_u64).
    + by rewrite (codec_len _ _ _ vec_ok).
    + by rewrite (codec_len _ _ _ vec_ok).
Qed.

Definition record_codec : codec FeatureRecord :=
  {| enc := λ r, enc (seq_codec (pair_codec vec value_codec)) (features r);
     dec := λ b, match dec (seq_codec (pair_codec vec value_codec)) b with
                 | Some (l, b) => Some ({| features := l |}, b)
                 | None => None
                 end |}.

Lemma entries_codec_ok :
  codec_ok (seq_codec (pair_codec vec value_codec))
    (λ l, zlen l ≤ USIZE_MAX ∧ Forall (λ e, vec_typed e.1 ∧ value_typed e.2) l)
    (λ l, postcard_varint_len (zlen l) + elems_len (λ e, vec_len e.1 + (1 + value_wire_len e.2)) l).
Proof.
  apply seq_ok; [|apply (pair_ok _ _ _ _ _ _ vec_ok value_codec_ok)].
  intros [k v] _. cbn [fst snd]. unfold vec_len. pose proof (varint_len_pos (zlen k)). pose proof (zlen_nonneg k).
  enough (0 ≤ value_wire_len v) by lia.
  destruct v as [| |z| |b|b]; cbn [value_wire_len]; try lia;
    [pose proof (varint_len_pos (zigzag z)); lia|pose proof (varint_len_pos (zlen b)); pose proof (zlen_nonneg b); lia..].
Qed.

Lemma record_codec_ok : codec_ok record_codec record_typed record_wire_len.
Proof.
  pose proof entries_codec_ok as [Hd Hb Hl].
  assert (∀ r, record_typed r → zlen (features r) ≤ USIZE_MAX ∧ Forall (λ e, vec_typed e.1 ∧ value_typed e.2) (features r)) as Hty.
  { intros r (_ & Hn & Hall). split; [done|]. eapply Forall_impl; [exact Hall|]. intros e (H1 & H2 & H3). done. }
  split; cbn [record_codec enc dec].
  - intros [l] rest Hr%Hty. by rewrite Hd.
  - intros r Hr%Hty. by apply Hb.
  - intros r Hr%Hty. rewrite Hl by done. unfold record_wire_len. f_equal. clear.
    induction (features r) as [|[k v] l IH]; cbn [elems_len entries_wire_len fst snd]; [done|]. rewrite IH. unfold vec_len. lia.
Qed.

#[global] Instance value_typed_dec v : Decision (value_typed v).
Proof. destruct v; cbn; unfold is_i64; apply _. Defined.
#[global] Instance record_typed_dec r : Decision (record_typed r).
Proof. unfold record_typed. apply _. Defined.

Definition record_postcard : Postcard FeatureRecord := postcard_of record_codec record_typed.
Lemma record_postcard_laws : @PostcardLaws _ record_postcard record_typed record_wire_len.
Proof. apply postcard_of_laws, record_codec_ok. Qed.

#[global] Instance key_valid_dec key : Decision (key_valid key).
Proof. unfold key_valid, group_valid, is_i64. apply _. Defined.

Section Sample.
  Local Existing Instance record_postcard.
  Local Existing Instance record_postcard_laws.

Definition put_rows (rows : list (bytes * FeatureKey * FeatureRecord)) (s : MemStore) : MemStore :=
  fold_left (λ s '(ns, key, r), (feature_put {| fs_namespace := ns |} key r None s).2) rows s.

Lemma put_rows_ok rows s :
  Forall (λ '(_, key, r), key_valid key ∧ record_typed r ∧ is_ok (encode_record r) = true) rows →
  kv_ok s → only_rows s → kv_ok (put_rows rows s) ∧ only_rows (put_rows rows s).
Proof.
  revert s. induction rows as [|[[ns key] r] rows IH]; intros s Hall Hok Honly; [done|].
  apply Forall_cons in Hall as [(Hk & Hty & He) Hall]. destruct (encode_record r) as [body|] eqn:Hb; [|done].
  destruct (feature_put_ok s ns key r None body Hok Honly Hk Hty Hb I) as (s' & Hp & Hok' & Honly' & _).
  unfold put_rows. cbn [fold_left]. rewrite Hp. by apply IH.
Qed.

Definition sample_row (z : Z) : FeatureRecord :=
  {| features := [([97], FvI64 z); ([98], FvF64 (Z.shiftl 1023 52)); ([98; 0], FvString [104; 105])] |}.

Definition sample_key (t : Z) : FeatureKey := group_key [117] [0; 42] [102] t.

(** Three rows of a group, one of another group and one of another namespace. *)
Definition sample_store : MemStore :=
  put_rows
    [([110], sample_key (- 5), sample_row 1); ([110], sample_key 0, sample_row 2); ([110], sample_key 7, sample_row 3);
     ([110], group_key [117] [0; 42] [103] 3, sample_row 4); ([110; 0], sample_key 6, sample_row 5)] [].

Lemma sample_store_ok : kv_ok sample_store ∧ only_rows sample_store.
Proof.
  apply put_rows_ok; [|constructor|by intros k v ?].
  repeat constructor; (apply (bool_decide_unpack _); vm_compute; reflexivity) || done.
Qed.

(** Witness of C12: the rows of the sample store up to time 5. *)
Lemma history_exact_witness :
  ∃ rows, history {| fs_namespace := [110] |} [117] [0; 42] [102] (-10, 5) 9 sample_store = Ok (take (Z.to_nat 9) rows) ∧
    rows_between sample_store [110] [117] [0; 42] [102] (-10) 5 rows.
Proof.
  apply (history_exact sample_store [110] [117] [0; 42] [102] (-10) 5 9).
  - apply sample_store_ok.
  - apply sample_store_ok.
  - apply (bool_decide_unpack _). vm_compute. reflexivity.
  - unfold is_i64, I64_MIN, I64_MAX. lia.
  - unfold is_i64, I64_MIN, I64_MAX. lia.
  - lia.
  - exact I.
Defined.

(** What a history of the sample store returns. *)
Example sample_history :
  history {| fs_namespace := [110] |} [117] [0; 42] [102] (-5, 7) 2 sample_store =
    Ok [(sample_key (-5), sample_row 1); (sample_key 0, sample_row 2)].
Proof. vm_compute. reflexivity. Qed.

(** Witness of C11: the newest row at time 5. *)
Lemma as_of_newest_witness :
  ∃ o, as_of {| fs_namespace := [110] |} [117] [0; 42] [102] 5 sample_store = Ok o ∧
    newest sample_store [110] [117] [0; 42] [102] I64_MIN 5 o.
Proof.
  apply (as_of_newest sample_store [110] [117] [0; 42] [102] 5).
  - apply sample_store_ok.
  - apply sample_store_ok.
  - apply (bool_decide_unpack _). vm_compute. reflexivity.
  - unfold is_i64, I64_MIN, I64_MAX. lia.
  - exact I.
  - exists 6. unfold is_i64, I64_MIN, I64_MAX. lia.
Defined.

End Sample.

(** Witness of C28: a feature replaced in a row of three. *)
Lemma feature_insert_exact_witness :
  let r' := {| features := bt_insert lex_cmp [98] (FvBytes [1; 2]) (features (sample_row 1)) |} in
  bt_sorted lex_cmp (features r') ∧ FeatureRecord_get [98] r' = Some (FvBytes [1; 2]) ∧
  (validate_record r' = Ok tt → FeatureRecord_insert [98] (FvBytes [1; 2]) (sample_row 1) = Ok r') ∧
  (validate_record r' ≠ Ok tt → ∃ message, FeatureRecord_insert [98] (FvBytes [1; 2]) (sample_row 1) = Err (InvalidArgument message)).
Proof.
  apply (feature_insert_exact [98] (FvBytes [1; 2]) (sample_row 1)).
  - apply (bool_decide_unpack _). vm_compute. reflexivity.
  - vm_compute. reflexivity.
Defined.
