(* ===== verification/EmbeddingStore.v ===== *)
(** * Embedding store (src/crates/meteordb/src/workloads/embedding_store.rs)

    Vectors of binary32 or binary16 scalars, as bit patterns, with their model identity
    and binary metadata.  A valid embedding has the bytes of its dimension, only finite
    scalars, both or none of the model fields and metadata within the limits; the
    constructors make valid embeddings and the encoding of a valid one always fits the
    decoder's limit.  The store is proved against [KvLaws]. *)

From Stdlib Require Import ZArith Lia Sorting.Sorted.
From stdpp Require Import base list gmap strings.
From S2P Require Import Prelude InternalKey Batch ValueRecord ManifestCodec Mvcc MemTable Iter Engine.
From S2P Require Import KvStore MemStore StoreKeys PostcardWire.

Local Open Scope Z_scope.

Definition EMBEDDING_KEY_PREFIX : bytes := 0 :: ascii_bytes "meteordb:embedding-store" ++ [0].
Definition EMBEDDING_KEY_SCHEMA_VERSION : Z := 1.
Definition VALUE_SCHEMA_VERSION : Z := 1.
Definition MAX_VECTOR_BYTES : Z := 64 * 1024 * 1024.
Definition MAX_METADATA_ENTRIES : Z := 1024.
Definition MAX_METADATA_COMPONENT_BYTES : Z := 1024 * 1024.
Definition MAX_METADATA_TOTAL_BYTES : Z := 16 * 1024 * 1024.
Definition MAX_VALUE_BODY_BYTES : Z := MAX_VECTOR_BYTES + MAX_METADATA_TOTAL_BYTES + 64 * 1024.

(** ** Data *)

Inductive ScalarType : Type := F32 | F16.

#[global] Instance ScalarType_eq_dec : EqDecision ScalarType.
Proof. solve_decision. Defined.

Definition width (t : ScalarType) : Z := match t with F32 => 4 | F16 => 2 end.

Record EmbeddingKey : Type := {
  ek_entity_id : bytes;
  ek_model : option bytes;
  ek_model_version : option bytes
}.

#[global] Instance EmbeddingKey_eq_dec : EqDecision EmbeddingKey.
Proof. solve_decision. Defined.

(** [EmbeddingKey::new], [EmbeddingKey::with_model] *)
Definition EmbeddingKey_new (entity_id : bytes) : EmbeddingKey :=
  {| ek_entity_id := entity_id; ek_model := None; ek_model_version := None |}.
Definition with_model (model model_version : bytes) (key : EmbeddingKey) : EmbeddingKey :=
  {| ek_entity_id := ek_entity_id key; ek_model := Some model; ek_model_version := Some model_version |}.

Record Embedding : Type := {
  em_dimension : Z;
  em_scalar_type : ScalarType;
  em_vector_bytes : bytes;
  em_model : option bytes;
  em_model_version : option bytes;
  em_metadata : list (bytes * bytes)
}.

(** ** Scalars *)

(** [chunks_exact]: the pieces of [n] bytes, a shorter rest left out. *)
Fixpoint chunks_loop (fuel n : nat) (b : bytes) : list bytes :=
  match fuel with
  | O => []
  | S fuel => if (length b <? n)%nat then [] else take n b :: chunks_loop fuel n (drop n b)
  end.
Definition chunks_exact (n : nat) (b : bytes) : list bytes := chunks_loop (length b) n b.

(** [f32::is_finite] of a bit pattern *)
Definition f32_is_finite (bits : Z) : bool := negb (Z.land bits 2139095040 =? 2139095040).
Definition f16_is_finite (bits : Z) : bool := negb (Z.land bits 31744 =? 31744).

(** ** Validation *)

Definition validate_optional_identity (model model_version : option bytes) : result unit :=
  match model, model_version with
  | None, None => Ok tt
  | Some model, Some version =>
    let? _ := validate_component "model" model in
    validate_component "model_version" version
  | _, _ => Err (InvalidArgument "model and model_version must both be present or absent")
  end.

Definition validate_metadata_component (name : string) (b : bytes) : result unit :=
  if bool_decide (b = []) then Err (InvalidArgument (name +:+ " must not be empty"))
  else if MAX_METADATA_COMPONENT_BYTES <? zlen b then Err (InvalidArgument (name +:+ " exceeds the byte limit"))
  else Ok tt.

Definition metadata_bytes (metadata : list (bytes * bytes)) : result Z :=
  try_fold (λ size '(name, value),
    ok_or (size ← checked_add size (zlen name); checked_add size (zlen value))
      (InvalidArgument "embedding metadata size overflow")) 0 metadata.

Definition projected_metadata_bytes (metadata : list (bytes * bytes)) (name value : bytes) : result Z :=
  let? current := metadata_bytes metadata in
  let? without_replaced :=
    match bt_get lex_cmp name metadata with
    | Some previous =>
      ok_or (size ← checked_sub current (zlen name); checked_sub size (zlen previous))
        (InvalidArgument "embedding metadata size overflow")
    | None => Ok current
    end in
  ok_or (size ← checked_add without_replaced (zlen name); checked_add size (zlen value))
    (InvalidArgument "embedding metadata size overflow").

Definition any_infinite (t : ScalarType) (vector_bytes : bytes) : bool :=
  match t with
  | F32 => existsb (λ b, negb (f32_is_finite (from_le b))) (chunks_exact 4 vector_bytes)
  | F16 => existsb (λ b, negb (f16_is_finite (from_le b))) (chunks_exact 2 vector_bytes)
  end.

Definition validate_embedding (embedding : Embedding) : result unit :=
  if em_dimension embedding =? 0 then Err (InvalidArgument "embedding dimension must be greater than zero")
  else
    let? expected := ok_or (checked_mul (em_dimension embedding) (width (em_scalar_type embedding)))
      (InvalidArgument "embedding byte length overflow") in
    if negb (zlen (em_vector_bytes embedding) =? expected) then
      Err (InvalidArgument "embedding requires another number of vector bytes")
    else if MAX_VECTOR_BYTES <? zlen (em_vector_bytes embedding) then
      Err (InvalidArgument "embedding vector exceeds the byte limit")
    else if any_infinite (em_scalar_type embedding) (em_vector_bytes embedding) then
      Err (InvalidArgument "embedding floats must be finite")
    else
      let? _ := validate_optional_identity (em_model embedding) (em_model_version embedding) in
      if MAX_METADATA_ENTRIES <? zlen (em_metadata embedding) then
        Err (InvalidArgument "embedding metadata has too many entries")
      else
        let? _ := try_fold (λ _ '(name, value),
          let? _ := validate_metadata_component "metadata name" name in
          validate_metadata_component "metadata value" value) tt (em_metadata embedding) in
        let? metadata_bytes := metadata_bytes (em_metadata embedding) in
        if MAX_METADATA_TOTAL_BYTES <? metadata_bytes then
          Err (InvalidArgument "embedding metadata exceeds the limit")
        else Ok tt.

(** ** Constructors and accessors *)

(** [Embedding::from_bytes] *)
Definition from_bytes (dimension : Z) (scalar_type : ScalarType) (vector_bytes : bytes) : result Embedding :=
  let? dimension := u32_try_from dimension (InvalidArgument "embedding dimension exceeds u32::MAX") in
  let embedding :=
    {| em_dimension := dimension; em_scalar_type := scalar_type; em_vector_bytes := vector_bytes;
       em_model := None; em_model_version := None; em_metadata := [] |} in
  let? _ := validate_embedding embedding in
  Ok embedding.

(** [Embedding::from_f32], [Embedding::from_f16_bits]; the values are bit patterns. *)
Definition from_f32 (values : list Z) : result Embedding :=
  if existsb (λ bits, negb (f32_is_finite bits)) values then Err (InvalidArgument "embedding floats must be finite")
  else from_bytes (zlen values) F32 (fold_left (λ b bits, b ++ to_le 4 bits) values []).

Definition from_f16_bits (values : list Z) : result Embedding :=
  if existsb (λ bits, negb (f16_is_finite bits)) values then Err (InvalidArgument "embedding floats must be finite")
  else from_bytes (zlen values) F16 (fold_left (λ b bits, b ++ to_le 2 bits) values []).

(** [Embedding::to_f32], [Embedding::to_f16_bits] *)
Definition to_f32 (e : Embedding) : result (list Z) :=
  if bool_decide (em_scalar_type e ≠ F32) then Err (InvalidArgument "embedding scalar type is not F32")
  else Ok (map from_le (chunks_exact 4 (em_vector_bytes e))).

Definition to_f16_bits (e : Embedding) : result (list Z) :=
  if bool_decide (em_scalar_type e ≠ F16) then Err (InvalidArgument "embedding scalar type is not F16")
  else Ok (map from_le (chunks_exact 2 (em_vector_bytes e))).

(** [Embedding::set_model], [Embedding::insert_metadata] *)
Definition set_model (model model_version : bytes) (e : Embedding) : Embedding :=
  {| em_dimension := em_dimension e; em_scalar_type := em_scalar_type e; em_vector_bytes := em_vector_bytes e;
     em_model := Some model; em_model_version := Some model_version; em_metadata := em_metadata e |}.

Definition with_metadata (metadata : list (bytes * bytes)) (e : Embedding) : Embedding :=
  {| em_dimension := em_dimension e; em_scalar_type := em_scalar_type e; em_vector_bytes := em_vector_bytes e;
     em_model := em_model e; em_model_version := em_model_version e; em_metadata := metadata |}.

Definition insert_metadata (name value : bytes) (e : Embedding) : result Embedding :=
  let? _ := validate_metadata_component "metadata name" name in
  let? _ := validate_metadata_component "metadata value" value in
  if negb (contains_key name (em_metadata e)) && (MAX_METADATA_ENTRIES <=? zlen (em_metadata e)) then
    Err (InvalidArgument "metadata entry count exceeds the limit")
  else
    let? projected_size := projected_metadata_bytes (em_metadata e) name value in
    if MAX_METADATA_TOTAL_BYTES <? projected_size then Err (InvalidArgument "embedding metadata exceeds the limit")
    else Ok (with_metadata (bt_insert lex_cmp name value (em_metadata e)) e).

(** ** Vectors *)

Lemma chunks_loop_concat n values fuel :
  (0 < n)%nat → (length values ≤ fuel)%nat → chunks_loop fuel n (concat (map (to_le n) values)) = map (to_le n) values.
Proof.
  intros Hn. revert fuel. induction values as [|v values IH]; intros fuel Hf.
  { destruct fuel; [done|]. cbn. destruct n; [lia|done]. }
  destruct fuel as [|fuel]; cbn in Hf; [lia|]. cbn [chunks_loop concat map].
  assert ((length (to_le n v ++ concat (map (to_le n) values)) <? n)%nat = false) as ->.
  { apply Nat.ltb_ge. rewrite length_app, to_le_length. lia. }
  rewrite take_app_length', drop_app_length' by (by rewrite to_le_length). by rewrite IH by lia.
Qed.

Lemma vector_bytes_concat n values b : fold_left (λ b bits, b ++ to_le n bits) values b = b ++ concat (map (to_le n) values).
Proof. revert b. induction values as [|v values IH]; intros b; cbn; [by rewrite app_nil_r|]. by rewrite IH, app_assoc. Qed.

Lemma zlen_vector_bytes n values : zlen (concat (map (to_le n) values)) = Z.of_nat n * zlen values.
Proof. induction values as [|v values IH]; [cbn; rewrite zlen_nil; lia|]. cbn [map concat]. rewrite zlen_app, zlen_to_le, zlen_cons, IH. lia. Qed.

Lemma chunks_vector_bytes n values :
  (0 < n)%nat → chunks_exact n (concat (map (to_le n) values)) = map (to_le n) values.
Proof.
  intros Hn. apply chunks_loop_concat; [done|]. pose proof (zlen_vector_bytes n values) as Hl. unfold zlen in Hl. nia.
Qed.

Lemma scalars_read_back n values :
  Forall (λ v, 0 ≤ v < 256 ^ Z.of_nat n) values → map from_le (map (to_le n) values) = values.
Proof. induction 1 as [|v values Hv _ IH]; cbn; [done|]. by rewrite from_le_to_le, IH. Qed.

(** ** Metadata *)

Fixpoint metadata_total (m : list (bytes * bytes)) : Z :=
  match m with [] => 0 | (name, value) :: m => zlen name + zlen value + metadata_total m end.

Definition metadata_within (n : Z) : result Z :=
  if n <=? USIZE_MAX then Ok n else Err (InvalidArgument "embedding metadata size overflow").

Lemma metadata_total_nonneg m : 0 ≤ metadata_total m.
Proof. induction m as [|[k v] m IH]; cbn; [lia|]. pose proof (zlen_nonneg k). pose proof (zlen_nonneg v). lia. Qed.

Lemma add_two_sizes n (a b : bytes) :
  0 ≤ n →
  ok_or (size ← checked_add n (zlen a); checked_add size (zlen b)) (InvalidArgument "embedding metadata size overflow") =
    metadata_within (n + (zlen a + zlen b)).
Proof.
  intros Hn. pose proof (zlen_nonneg a). pose proof (zlen_nonneg b). unfold metadata_within, checked_add.
  destruct (Z.leb_spec (n + zlen a) USIZE_MAX); cbn.
  - rewrite Z.add_assoc. by destruct (_ <=? _).
  - by rewrite (proj2 (Z.leb_gt _ _)) by lia.
Qed.

Lemma metadata_bytes_from n m :
  0 ≤ n ≤ USIZE_MAX →
  try_fold (λ size '(name, value),
    ok_or (size ← checked_add size (zlen name); checked_add size (zlen value))
      (InvalidArgument "embedding metadata size overflow")) n m = metadata_within (n + metadata_total m).
Proof.
  revert n. induction m as [|[k v] m IH]; intros n Hn; cbn [try_fold metadata_total].
  { unfold metadata_within. rewrite Z.add_0_r. by rewrite (proj2 (Z.leb_le _ _)) by lia. }
  rewrite add_two_sizes by lia. pose proof (zlen_nonneg k). pose proof (zlen_nonneg v). pose proof (metadata_total_nonneg m).
  unfold metadata_within at 1. destruct (Z.leb_spec (n + (zlen k + zlen v)) USIZE_MAX).
  - rewrite IH by lia. f_equal. lia.
  - unfold metadata_within. by rewrite (proj2 (Z.leb_gt _ _)) by lia.
Qed.

Lemma metadata_bytes_eq m : metadata_bytes m = metadata_within (metadata_total m).
Proof. unfold metadata_bytes. by rewrite metadata_bytes_from. Qed.

Lemma metadata_total_insert name value m :
  bt_sorted lex_cmp m →
  match bt_get lex_cmp name m with
  | Some previous => zlen name + zlen previous ≤ metadata_total m ∧
      metadata_total (bt_insert lex_cmp name value m) = metadata_total m - zlen name - zlen previous + (zlen name + zlen value)
  | None => metadata_total (bt_insert lex_cmp name value m) = metadata_total m + (zlen name + zlen value)
  end.
Proof.
  induction 1 as [|[k v] m Hm IH Hall]; cbn [bt_get bt_insert metadata_total]; [lia|].
  pose proof (zlen_nonneg k). pose proof (zlen_nonneg v). pose proof (metadata_total_nonneg m).
  destruct (lex_cmp name k) eqn:E; cbn [metadata_total].
  - apply lex_cmp_eq in E. subst k. lia.
  - assert (bt_get lex_cmp name m = None) as ->; [|lia].
    assert (contains_key name m = false) as Hc.
    { apply contains_key_false. eapply (sorted_above_absent _ k v); [by rewrite E|by constructor]. }
    unfold contains_key in Hc. by destruct (bt_get lex_cmp name m).
  - destruct (bt_get lex_cmp name m) as [p|]; [destruct IH|]; lia.
Qed.

Lemma projected_metadata_eq m name value :
  bt_sorted lex_cmp m → metadata_total m ≤ USIZE_MAX →
  projected_metadata_bytes m name value = metadata_within (metadata_total (bt_insert lex_cmp name value m)).
Proof.
  intros Hs Hm. unfold projected_metadata_bytes. rewrite metadata_bytes_eq. unfold metadata_within at 1.
  rewrite (proj2 (Z.leb_le _ _)) by done. pose proof (metadata_total_nonneg m). pose proof (zlen_nonneg name).
  pose proof (metadata_total_insert name value m Hs) as Hi. destruct (bt_get lex_cmp name m) as [p|].
  - destruct Hi as [Hle Hi]. pose proof (zlen_nonneg p). unfold checked_sub.
    rewrite (proj2 (Z.leb_le _ _)) by lia. cbn. rewrite (proj2 (Z.leb_le _ _)) by lia. cbn [ok_or]. rewrite add_two_sizes by lia. by rewrite Hi.
  - rewrite add_two_sizes by lia. by rewrite Hi.
Qed.

(** ** Valid embeddings *)

Definition identity_valid (model model_version : option bytes) : Prop :=
  match model, model_version with
  | None, None => True
  | Some m, Some v => component_valid m ∧ component_valid v
  | _, _ => False
  end.

Definition metadata_component_valid (b : bytes) : Prop := b ≠ [] ∧ zlen b ≤ MAX_METADATA_COMPONENT_BYTES.

Definition metadata_valid (m : list (bytes * bytes)) : Prop :=
  zlen m ≤ MAX_METADATA_ENTRIES ∧ Forall (λ e, metadata_component_valid e.1 ∧ metadata_component_valid e.2) m ∧
  metadata_total m ≤ MAX_METADATA_TOTAL_BYTES.

Definition vector_valid (e : Embedding) : Prop :=
  em_dimension e ≠ 0 ∧ zlen (em_vector_bytes e) = em_dimension e * width (em_scalar_type e) ∧
  zlen (em_vector_bytes e) ≤ MAX_VECTOR_BYTES ∧ any_infinite (em_scalar_type e) (em_vector_bytes e) = false.

Definition embedding_valid (e : Embedding) : Prop :=
  vector_valid e ∧ identity_valid (em_model e) (em_model_version e) ∧ metadata_valid (em_metadata e).

Lemma validate_identity_iff m v : validate_optional_identity m v = Ok tt ↔ identity_valid m v.
Proof.
  destruct m as [m|], v as [v|]; cbn; [|done..]. rewrite <- (validate_component_iff "model"), <- (validate_component_iff "model_version").
  destruct (validate_component "model" m) as [[]|]; [|by split; [|intros []]]. by split; [|intros []].
Qed.

Lemma validate_metadata_component_iff name b : validate_metadata_component name b = Ok tt ↔ metadata_component_valid b.
Proof.
  unfold validate_metadata_component, metadata_component_valid. case_bool_decide; [split; [done|by intros []]|].
  destruct (Z.ltb_spec MAX_METADATA_COMPONENT_BYTES (zlen b)); split; [done|intros []; lia|by intros _|done].
Qed.

Lemma validate_entries_iff m :
  try_fold (λ _ '(name, value),
    let? _ := validate_metadata_component "metadata name" name in
    validate_metadata_component "metadata value" value) tt m = Ok tt ↔
  Forall (λ e, metadata_component_valid e.1 ∧ metadata_component_valid e.2) m.
Proof.
  induction m as [|[k v] m IH]; cbn [try_fold]; [done|]. rewrite Forall_cons, <- IH. cbn [fst snd].
  rewrite <- (validate_metadata_component_iff "metadata name" k), <- (validate_metadata_component_iff "metadata value" v).
  destruct (validate_metadata_component "metadata name" k) as [[]|]; [|split; [done|by intros [[] _]]].
  destruct (validate_metadata_component "metadata value" v) as [[]|]; [|split; [done|by intros [[] _]]]. by split; [|intros []].
Qed.

Lemma validate_embedding_iff e : is_u32 (em_dimension e) → validate_embedding e = Ok tt ↔ embedding_valid e.
Proof.
  intros Hd. unfold validate_embedding, embedding_valid, vector_valid, metadata_valid.
  destruct (Z.eqb_spec (em_dimension e) 0) as [|H0]; [split; [done|by intros [[] _]]|].
  assert (checked_mul (em_dimension e) (width (em_scalar_type e)) = Some (em_dimension e * width (em_scalar_type e))) as ->.
  { unfold checked_mul. rewrite (proj2 (Z.leb_le _ _)); [done|]. unfold is_u32, U32_MAX, USIZE_MAX, U64_MAX in *. destruct (em_scalar_type e); cbn; lia. }
  cbn [ok_or]. destruct (Z.eqb_spec (zlen (em_vector_bytes e)) (em_dimension e * width (em_scalar_type e))) as [Hl|Hl]; cbn [negb];
    [|split; [done|by intros [(_ & ? & _) _]]].
  destruct (Z.ltb_spec MAX_VECTOR_BYTES (zlen (em_vector_bytes e))); [split; [done|intros [(_ & _ & ? & _) _]; lia]|].
  destruct (any_infinite _ _); [split; [done|by intros [(_ & _ & _ & ?) _]]|].
  rewrite <- (validate_identity_iff (em_model e)), <- validate_entries_iff, metadata_bytes_eq.
  destruct (validate_optional_identity _ _) as [[]|]; [|split; [done|by intros (_ & ? & _)]].
  destruct (Z.ltb_spec MAX_METADATA_ENTRIES (zlen (em_metadata e))); [split; [done|intros (_ & _ & ? & _); lia]|].
  destruct (try_fold _ tt (em_metadata e)) as [[]|]; [|split; [done|by intros (_ & _ & _ & ? & _)]].
  unfold metadata_within. destruct (Z.leb_spec (metadata_total (em_metadata e)) USIZE_MAX);
    [|split; [done|intros (_ & _ & _ & _ & ?); unfold MAX_METADATA_TOTAL_BYTES, USIZE_MAX, U64_MAX in *; lia]].
  destruct (Z.ltb_spec MAX_METADATA_TOTAL_BYTES (metadata_total (em_metadata e))); [split; [done|intros (_ & _ & _ & _ & ?); lia]|].
  done.
Qed.

(** ** Vectors are kept *)

Definition from_scalars (t : ScalarType) (values : list Z) : result Embedding :=
  match t with F32 => from_f32 values | F16 => from_f16_bits values end.
Definition to_scalars (t : ScalarType) (e : Embedding) : result (list Z) :=
  match t with F32 => to_f32 e | F16 => to_f16_bits e end.

Definition scalar_finite (t : ScalarType) (bits : Z) : bool :=
  match t with F32 => f32_is_finite bits | F16 => f16_is_finite bits end.
Definition scalar_range (t : ScalarType) (bits : Z) : Prop := 0 ≤ bits < 256 ^ width t.

Definition vector_bytes_of (t : ScalarType) (values : list Z) : bytes := concat (map (to_le (Z.to_nat (width t))) values).

Lemma from_scalars_eq t values :
  from_scalars t values =
    if existsb (λ bits, negb (scalar_finite t bits)) values then Err (InvalidArgument "embedding floats must be finite")
    else from_bytes (zlen values) t (vector_bytes_of t values).
Proof. destruct t; cbn; unfold from_f32, from_f16_bits; by rewrite vector_bytes_concat. Qed.

Lemma any_infinite_of t values :
  Forall (scalar_range t) values →
  any_infinite t (vector_bytes_of t values) = existsb (λ bits, negb (scalar_finite t bits)) values.
Proof.
  intros Hr. assert (any_infinite t (vector_bytes_of t values) =
    existsb (λ b, negb (scalar_finite t (from_le b))) (map (to_le (Z.to_nat (width t))) values)) as ->.
  { rewrite <- (chunks_vector_bytes (Z.to_nat (width t)) values) by (destruct t; cbn; lia). by destruct t. }
  induction Hr as [|v values Hv _ IH]; cbn [map existsb]; [done|]. rewrite IH, from_le_to_le; [done|]. by destruct t.
Qed.

Lemma zlen_vector_of t values : zlen (vector_bytes_of t values) = zlen values * width t.
Proof. unfold vector_bytes_of. rewrite zlen_vector_bytes. destruct t; cbn [width]; lia. Qed.

Lemma existsb_false {A} (f : A → bool) l : existsb (λ x, negb (f x)) l = false ↔ Forall (λ x, f x = true) l.
Proof. induction l as [|x l IH]; cbn; [done|]. rewrite orb_false_iff, negb_false_iff, Forall_cons, IH. done. Qed.

(** Vectors survive their portable encoding: a list of binary32 or binary16 bit
    patterns is accepted if and only if it is not empty, holds only finite scalars and
    takes at most 64 MiB; the embedding is then valid, has the list's length as its
    dimension, and reads back as the same list; otherwise the constructor reports an
    invalid argument. *)
Theorem vector_roundtrip (t : ScalarType) (values : list Z) :
  Forall (scalar_range t) values →
  (values ≠ [] ∧ Forall (λ bits, scalar_finite t bits = true) values ∧ zlen values * width t ≤ MAX_VECTOR_BYTES →
     ∃ e, from_scalars t values = Ok e ∧ validate_embedding e = Ok tt ∧ em_dimension e = zlen values ∧ to_scalars t e = Ok values) ∧
  (¬ (values ≠ [] ∧ Forall (λ bits, scalar_finite t bits = true) values ∧ zlen values * width t ≤ MAX_VECTOR_BYTES) →
     ∃ message, from_scalars t values = Err (InvalidArgument message)).
Proof.
  intros Hr. rewrite from_scalars_eq. pose proof (zlen_nonneg values) as H0. split.
  - intros (Hne & Hfin & Hlen). rewrite (proj2 (existsb_false _ _)) by done. unfold from_bytes.
    assert (is_u32 (zlen values)) as Hu by (unfold is_u32, U32_MAX, MAX_VECTOR_BYTES in *; destruct t; cbn in Hlen; lia).
    unfold u32_try_from. rewrite (proj2 (Z.leb_le _ _)) by apply Hu.
    set (e := {| em_dimension := zlen values |}). assert (validate_embedding e = Ok tt) as Hv.
    { apply validate_embedding_iff; [done|]. split; [|split; [done|]].
      - split; [cbn; intros Hz%zlen_0_nil; done|]. cbn. rewrite zlen_vector_of. split; [done|]. split; [done|].
        rewrite any_infinite_of by done. by apply existsb_false.
      - by repeat split. }
    rewrite Hv. exists e. split; [done|]. split; [done|]. split; [done|].
    assert (chunks_exact (Z.to_nat (width t)) (em_vector_bytes e) = map (to_le (Z.to_nat (width t))) values) as Hc
      by (apply chunks_vector_bytes; destruct t; cbn; lia).
    assert (map from_le (map (to_le (Z.to_nat (width t))) values) = values) as Hb by (apply scalars_read_back; by destruct t).
    rewrite <- Hc in Hb. destruct t; unfold to_scalars, to_f32, to_f16_bits; rewrite bool_decide_false by (by intros []); exact (f_equal Ok Hb).
  - intros Hno. destruct (existsb _ values) eqn:Ee; [eauto|]. apply existsb_false in Ee.
    unfold from_bytes, u32_try_from. destruct (Z.leb_spec (zlen values) U32_MAX); [|eauto].
    destruct (validate_embedding _) as [[]|err] eqn:Hv.
    + apply validate_embedding_iff in Hv as [(Hz & _ & Hl & _) _]; [|done]. cbn in Hz, Hl. rewrite zlen_vector_of in Hl.
      destruct Hno. split; [|done]. by intros ->.
    + clear -Hv. unfold validate_embedding, metadata_bytes, ok_or in Hv. cbn in Hv. repeat case_match; simplify_eq; eauto.
Qed.

(** Metadata keeps embeddings valid: an insertion into a valid embedding is
    accepted if and only if the embedding with that entry added, or with its value
    replaced, is valid: at most 1,024 entries, names and values of 1 byte to 1 MiB,
    16 MiB in all; the result is then that embedding and the insertion reports an
    invalid argument otherwise. *)
Theorem insert_metadata_exact (name value : bytes) (e : Embedding) :
  is_u32 (em_dimension e) → bt_sorted lex_cmp (em_metadata e) → validate_embedding e = Ok tt →
  let e' := with_metadata (bt_insert lex_cmp name value (em_metadata e)) e in
  bt_sorted lex_cmp (em_metadata e') ∧ bt_get lex_cmp name (em_metadata e') = Some value ∧
  (validate_embedding e' = Ok tt → insert_metadata name value e = Ok e') ∧
  (validate_embedding e' ≠ Ok tt → ∃ message, insert_metadata name value e = Err (InvalidArgument message)).
Proof.
  intros Hd Hs Hv%validate_embedding_iff e'; [|done]. rewrite validate_embedding_iff by done.
  destruct Hv as (Hvec & Hid & Hn & Hall & Ht). set (m' := bt_insert lex_cmp name value (em_metadata e)) in *.
  pose proof (insert_len name value (em_metadata e) Hs) as Hlen. fold m' in Hlen.
  split; [by apply bt_insert_sorted|]. split; [cbn; unfold m'; rewrite bt_get_insert by done; by rewrite lex_cmp_refl|].
  assert (embedding_valid e' ↔ metadata_valid m') as -> by (split; [by intros (_ & _ & ?)|done]).
  assert (Forall (λ x, metadata_component_valid x.1 ∧ metadata_component_valid x.2) m' ↔
    metadata_component_valid name ∧ metadata_component_valid value) as Hcomp.
  { split; [intros Hf; by apply (elem_of_Forall _ _ (name, value) Hf), bt_insert_has|]. intros Hc.
    apply (bt_insert_Forall (cmp := lex_cmp)); [done|]. intros k ->%lex_cmp_eq. done. }
  unfold insert_metadata, metadata_valid. rewrite Hcomp. fold m'.
  rewrite <- (validate_metadata_component_iff "metadata name" name), <- (validate_metadata_component_iff "metadata value" value).
  rewrite projected_metadata_eq by (done || unfold MAX_METADATA_TOTAL_BYTES, USIZE_MAX, U64_MAX in *; lia). fold m'. unfold metadata_within.
  split.
  - intros (Hn' & [-> ->] & Ht').
    assert (negb (contains_key name (em_metadata e)) && (MAX_METADATA_ENTRIES <=? zlen (em_metadata e)) = false) as ->.
    { destruct (contains_key name (em_metadata e)); [done|]. cbn in *. apply Z.leb_gt. lia. }
    rewrite (proj2 (Z.leb_le _ _)) by (unfold MAX_METADATA_TOTAL_BYTES, USIZE_MAX, U64_MAX in *; lia).
    by rewrite (proj2 (Z.ltb_ge _ _)) by done.
  - intros Hno.
    assert (∀ what b, validate_metadata_component what b = Ok tt ∨ ∃ m, validate_metadata_component what b = Err (InvalidArgument m)) as Hvc
      by (intros; unfold validate_metadata_component; repeat case_match; eauto).
    destruct (Hvc "metadata name" name) as [Hvn|[m ->]]; [|eauto]. destruct (Hvc "metadata value" value) as [Hvv|[m Hvv]];
      rewrite Hvn, Hvv in *; [|eauto].
    destruct (negb _ && _) eqn:Ec; [eauto|]. destruct (Z.leb_spec (metadata_total m') USIZE_MAX); [|eauto].
    destruct (Z.ltb_spec MAX_METADATA_TOTAL_BYTES (metadata_total m')); [eauto|]. destruct Hno. split; [|done].
    rewrite Hlen. destruct (contains_key name (em_metadata e)); cbn in *; [lia|]. apply Z.leb_gt in Ec. lia.
Qed.

(** ** Encoded embeddings *)

Definition embedding_typed (e : Embedding) : Prop :=
  is_u32 (em_dimension e) ∧ vec_typed (em_vector_bytes e) ∧ opt_typed vec_typed (em_model e) ∧
  opt_typed vec_typed (em_model_version e) ∧ bt_sorted lex_cmp (em_metadata e) ∧
  zlen (em_metadata e) ≤ USIZE_MAX ∧ Forall (λ x, vec_typed x.1 ∧ vec_typed x.2) (em_metadata e).

(** The fields in order; the tag of the scalar type takes one byte. *)
Definition embedding_wire_len (e : Embedding) : Z :=
  postcard_varint_len (em_dimension e) + 1 + vec_len (em_vector_bytes e) + opt_len vec_len (em_model e) +
  opt_len vec_len (em_model_version e) +
  (postcard_varint_len (zlen (em_metadata e)) + elems_len (λ x, vec_len x.1 + vec_len x.2) (em_metadata e)).

Lemma vec_len_bound b : vec_typed b → vec_len b ≤ 10 + zlen b.
Proof. intros [_ H]. unfold vec_len. pose proof (varint_len_usize (zlen b) (conj (zlen_nonneg b) H)). lia. Qed.

Lemma identity_len_bound m v :
  identity_valid m v → opt_typed vec_typed m → opt_typed vec_typed v →
  opt_len vec_len m ≤ 11 + MAX_COMPONENT_BYTES ∧ opt_len vec_len v ≤ 11 + MAX_COMPONENT_BYTES.
Proof.
  destruct m as [m|], v as [v|]; try done. cbn. intros [[_ Hm] [_ Hv]] Htm Htv. apply vec_len_bound in Htm, Htv. lia.
Qed.

Lemma metadata_len_bound m :
  Forall (λ x, vec_typed x.1 ∧ vec_typed x.2) m → elems_len (λ x, vec_len x.1 + vec_len x.2) m ≤ 20 * zlen m + metadata_total m.
Proof.
  induction 1 as [|[k v] m [Hk Hv] _ IH]; cbn [elems_len metadata_total fst snd]; [done|]. rewrite zlen_cons.
  apply vec_len_bound in Hk, Hv. cbn [fst snd] in *. lia.
Qed.

(** The decoder's limit has room for every valid embedding. *)
Lemma embedding_wire_bound e : embedding_typed e → embedding_valid e → embedding_wire_len e ≤ MAX_VALUE_BODY_BYTES.
Proof.
  intros (Hd & Hvb & Hm & Hv & _ & Hn & Hall) ((_ & _ & Hlen & _) & Hid & Hcount & _ & Htotal). unfold embedding_wire_len.
  apply vec_len_bound in Hvb. apply metadata_len_bound in Hall. destruct (identity_len_bound _ _ Hid Hm Hv) as [H1 H2].
  pose proof (varint_len_usize (em_dimension e)) as H3. pose proof (varint_len_usize (zlen (em_metadata e)) (conj (zlen_nonneg _) Hn)) as H4.
  assert (is_u64 (em_dimension e)) as Hu by (unfold is_u32, U32_MAX, is_u64, U64_MAX in *; lia). specialize (H3 Hu).
  unfold MAX_VALUE_BODY_BYTES, MAX_VECTOR_BYTES, MAX_METADATA_ENTRIES, MAX_METADATA_TOTAL_BYTES, MAX_COMPONENT_BYTES in *. lia.
Qed.

Section Codec.
  Context {PC : Postcard Embedding}.

Definition encode_embedding (embedding : Embedding) : result bytes :=
  let? _ := validate_embedding embedding in
  let? body := ok_or (to_allocvec embedding) (InvalidArgument "could not encode embedding") in
  Ok (VALUE_SCHEMA_VERSION :: body).

Definition decode_embedding : bytes → result Embedding :=
  decode_versioned "embedding-store value" "embedding-store value" "serialized embedding exceeds size limit"
    "could not re-encode embedding" VALUE_SCHEMA_VERSION MAX_VALUE_BODY_BYTES validate_embedding.

  Context {PL : PostcardLaws Embedding embedding_typed embedding_wire_len}.

(** Embeddings survive storage: every valid embedding is encoded, its encoding
    is within the size that the decoder accepts, and decoding returns exactly the bytes'
    only preimage: bytes decode to an embedding if and only if they are its encoding. *)
Theorem embedding_codec_exact (e : Embedding) :
  embedding_typed e → validate_embedding e = Ok tt →
  ∃ b, encode_embedding e = Ok b ∧ zlen b ≤ 1 + MAX_VALUE_BODY_BYTES ∧
    ∀ b', decode_embedding b' = Ok e ↔ b' = b.
Proof.
  intros Hty Hv. destruct (postcard_total e Hty) as [body Hb]. exists (VALUE_SCHEMA_VERSION :: body).
  assert (zlen body ≤ MAX_VALUE_BODY_BYTES) as Hlen.
  { rewrite (postcard_len e body Hty Hb). apply embedding_wire_bound; [done|]. by apply validate_embedding_iff; [apply Hty|]. }
  split; [unfold encode_embedding; by rewrite Hv, Hb|]. split; [rewrite zlen_cons; lia|]. intros b'.
  unfold decode_embedding. rewrite (decode_versioned_iff _ _ _ _ _ _ _ (wire_len := embedding_wire_len)). split.
  - intros (_ & body' & -> & _ & Hb' & _). congruence.
  - intros ->. eauto 10.
Qed.

Lemma encode_embedding_inv e b : encode_embedding e = Ok b → validate_embedding e = Ok tt.
Proof. unfold encode_embedding. by destruct (validate_embedding e) as [[]|]. Qed.

Lemma decode_encode_embedding e b : embedding_typed e → encode_embedding e = Ok b → decode_embedding b = Ok e.
Proof.
  intros Hty He. pose proof (encode_embedding_inv _ _ He) as Hv. unfold encode_embedding in He. rewrite Hv in He.
  destruct (to_allocvec e) as [body|] eqn:Hb; [|done]. injection He as <-.
  apply (decode_versioned_iff _ _ _ _ _ _ _ (wire_len := embedding_wire_len)). split; [done|]. exists body.
  split; [done|]. split; [|done]. rewrite (postcard_len e body Hty Hb). apply embedding_wire_bound; [done|].
  by apply validate_embedding_iff; [apply Hty|].
Qed.
End Codec.

(** ** Keys *)

Definition push_optional (output : bytes) (b : option bytes) : bytes :=
  match b with
  | Some b => push_escaped (output ++ [1]) b
  | None => output ++ [0]
  end.

(** [EmbeddingStore::encode_key] *)
Definition embedding_encode_key (namespace : bytes) (key : EmbeddingKey) : result bytes :=
  let? _ := validate_component "entity_id" (ek_entity_id key) in
  let? _ := validate_optional_identity (ek_model key) (ek_model_version key) in
  let encoded := EMBEDDING_KEY_PREFIX ++ [EMBEDDING_KEY_SCHEMA_VERSION] in
  let encoded := push_escaped encoded namespace in
  let encoded := push_optional encoded (ek_model key) in
  let encoded := push_optional encoded (ek_model_version key) in
  Ok (push_escaped encoded (ek_entity_id key)).

Definition validate_key_matches_embedding (key : EmbeddingKey) (embedding : Embedding) : result unit :=
  if bool_decide (ek_model key ≠ em_model embedding) || bool_decide (ek_model_version key ≠ em_model_version embedding) then
    Err (InvalidArgument "embedding model identity must match its key")
  else Ok tt.

Definition optional_bytes (b : option bytes) : bytes := match b with Some b => 1 :: encode_user_key b | None => [0] end.

Definition embedding_key_bytes (ns : bytes) (key : EmbeddingKey) : bytes :=
  EMBEDDING_KEY_PREFIX ++ [EMBEDDING_KEY_SCHEMA_VERSION] ++ encode_user_key ns ++ optional_bytes (ek_model key) ++
  optional_bytes (ek_model_version key) ++ encode_user_key (ek_entity_id key).

Definition embedding_key_valid (key : EmbeddingKey) : Prop :=
  component_valid (ek_entity_id key) ∧ identity_valid (ek_model key) (ek_model_version key).

Lemma push_optional_eq output b : push_optional output b = output ++ optional_bytes b.
Proof. destruct b; cbn; [by rewrite push_escaped_eq, <- app_assoc|done]. Qed.

Lemma embedding_encode_key_ok ns key : embedding_key_valid key → embedding_encode_key ns key = Ok (embedding_key_bytes ns key).
Proof.
  intros [H1 H2]. unfold embedding_encode_key. rewrite (proj2 (validate_component_iff _ _)), (proj2 (validate_identity_iff _ _)) by done.
  rewrite !push_escaped_eq, !push_optional_eq. unfold embedding_key_bytes. by rewrite <- !app_assoc.
Qed.

Lemma embedding_encode_key_inv ns key b : embedding_encode_key ns key = Ok b → embedding_key_valid key ∧ b = embedding_key_bytes ns key.
Proof.
  intros He. assert (embedding_key_valid key) as Hk.
  { unfold embedding_encode_key in He. destruct (validate_component _ _) as [[]|] eqn:H1; [|done]. apply validate_component_iff in H1.
    destruct (validate_optional_identity _ _) as [[]|] eqn:H2; [|done]. by apply validate_identity_iff in H2. }
  split; [done|]. rewrite embedding_encode_key_ok in He by done. by injection He as <-.
Qed.

Lemma optional_bytes_inj a b s t : optional_bytes a ++ s = optional_bytes b ++ t → a = b ∧ s = t.
Proof.
  destruct a as [a|], b as [b|]; cbn; [|done..|by intros [= ->]]. intros [= He]. apply component_inj in He as [-> ->]. done.
Qed.

Lemma embedding_key_bytes_inj ns key ns' key' : embedding_key_bytes ns key = embedding_key_bytes ns' key' → ns = ns' ∧ key = key'.
Proof.
  unfold embedding_key_bytes. intros He. do 2 apply app_inv_head in He. apply component_inj in He as [-> He].
  apply optional_bytes_inj in He as [H1 He]. apply optional_bytes_inj in He as [H2 He].
  rewrite <- (app_nil_r (encode_user_key (ek_entity_id key))), <- (app_nil_r (encode_user_key (ek_entity_id key'))) in He.
  apply component_inj in He as [H3 _]. split; [done|]. destruct key, key'. cbn in *. congruence.
Qed.

(** ** Operations *)

Record EmbeddingStore : Type := { es_namespace : bytes }.

(** [EmbeddingStore::new] *)
Definition EmbeddingStore_new (namespace : bytes) : result EmbeddingStore :=
  let? _ := validate_component "namespace" namespace in
  Ok {| es_namespace := namespace |}.

Section Operations.
  Context {St : Type} {KV : KvStore St} {PC : Postcard Embedding} (es : EmbeddingStore).

(** [EmbeddingStore::put] *)
Definition embedding_put (key : EmbeddingKey) (embedding : Embedding) (ttl_ms : option Z) (s : St) : result unit * St :=
  let prepared :=
    let? _ := validate_key_matches_embedding key embedding in
    let? key := embedding_encode_key (es_namespace es) key in
    let? value := encode_embedding embedding in
    Ok (key, value) in
  match prepared with
  | Err e => (Err e, s)
  | Ok (key, value) =>
    match ttl_ms with
    | Some ttl_ms => kv_write (StorePutTtl key value ttl_ms) s
    | None => kv_write (StorePut key value) s
    end
  end.

(** The loop of [EmbeddingStore::put_many] *)
Fixpoint put_many_loop (limits : WriteBatchLimits) (entries : list (EmbeddingKey * Embedding)) (batch : WriteBatch)
    : result WriteBatch :=
  match entries with
  | [] => Ok batch
  | (key, embedding) :: entries =>
    let? _ := validate_key_matches_embedding key embedding in
    let? key := embedding_encode_key (es_namespace es) key in
    let? value := encode_embedding embedding in
    let? _ := validate_next_put limits batch key value in
    let? batch := put_owned batch key value in
    put_many_loop limits entries batch
  end.

Definition put_many (entries : list (EmbeddingKey * Embedding)) (s : St) : result unit * St :=
  match put_many_loop (kv_limits s) entries WriteBatch_default with
  | Err e => (Err e, s)
  | Ok batch => if WriteBatch_is_empty batch then (Ok tt, s) else kv_write (StoreBatch batch) s
  end.

Definition decode_stored (value : option bytes) : result (option Embedding) :=
  match value with
  | Some b => let? embedding := decode_embedding b in Ok (Some embedding)
  | None => Ok None
  end.

(** [EmbeddingStore::get], [EmbeddingStore::get_many], [EmbeddingStore::delete] *)
Definition embedding_get (key : EmbeddingKey) (s : St) : result (option Embedding) :=
  let? encoded := embedding_encode_key (es_namespace es) key in
  let? value := kv_get encoded s in
  decode_stored value.

Definition embedding_get_many (keys : list EmbeddingKey) (s : St) : result (list (option Embedding)) :=
  let? keys := try_map (embedding_encode_key (es_namespace es)) keys in
  let? snapshot_get := kv_snapshot s in
  try_map (λ key, let? value := snapshot_get key in decode_stored value) keys.

Definition embedding_delete (key : EmbeddingKey) (s : St) : result unit * St :=
  match embedding_encode_key (es_namespace es) key with
  | Err e => (Err e, s)
  | Ok key => kv_write (StoreDelete key) s
  end.
End Operations.

(** ** What the store promises *)

Lemma validate_next_put_ok limits b key value :
  validate_next_put limits b key value = Ok tt →
  ∃ b', put_owned b key value = Ok b' ∧ operations b' = operations b ++ [Put key value None].
Proof.
  unfold validate_next_put, projected_put_bytes, put_owned, add_bytes. destruct (_ <=? _); [done|].
  destruct (checked_add (approximate_bytes b) (zlen key)) as [n|] eqn:E1; [|done]. cbn [approximate_bytes].
  destruct (checked_add n (zlen value)) as [m|] eqn:E2; [|done]. cbn. intros _. by eexists.
Qed.

Lemma key_matches_iff key e :
  validate_key_matches_embedding key e = Ok tt ↔ ek_model key = em_model e ∧ ek_model_version key = em_model_version e.
Proof.
  unfold validate_key_matches_embedding. repeat case_bool_decide; cbn; split; try done; try (by intros []).
Qed.

Section Promises.
  Context {St : Type} {KV : KvStore St} {KL : KvLaws St} {PC : Postcard Embedding}.
  Context {PL : PostcardLaws Embedding embedding_typed embedding_wire_len}.

(** The live embedding of a key. *)
Definition stored (s : St) (ns : bytes) (key : EmbeddingKey) : option Embedding :=
  match kv_view s (embedding_key_bytes ns key) with
  | Some b => match decode_embedding b with Ok e => Some e | Err _ => None end
  | None => None
  end.

(** Under a key of the store is a valid embedding with the model of the key. *)
Definition only_embeddings (s : St) : Prop :=
  ∀ ns key v, kv_view s (embedding_key_bytes ns key) = Some v →
    ∃ e, decode_embedding v = Ok e ∧ ek_model key = em_model e ∧ ek_model_version key = em_model_version e.

(** An accepted pair of a key and an embedding, and the bytes that are written. *)
Definition encodes (ns : bytes) (entry : EmbeddingKey * Embedding) (pair : bytes * bytes) : Prop :=
  embedding_key_valid entry.1 ∧ embedding_typed entry.2 ∧
  ek_model entry.1 = em_model entry.2 ∧ ek_model_version entry.1 = em_model_version entry.2 ∧
  pair.1 = embedding_key_bytes ns entry.1 ∧ encode_embedding entry.2 = Ok pair.2.

Lemma embedding_get_ok s ns key :
  kv_ok s → only_embeddings s → embedding_key_valid key → kv_readable s (embedding_key_bytes ns key) →
  embedding_get {| es_namespace := ns |} key s = Ok (stored s ns key).
Proof.
  intros Hok Honly Hk Hr. unfold embedding_get, stored. cbn [es_namespace]. rewrite embedding_encode_key_ok, kv_get_law by done.
  destruct (kv_view s (embedding_key_bytes ns key)) as [v|] eqn:Hv; [|done]. cbn.
  destruct (Honly _ _ _ Hv) as (e & Hd & _). by rewrite Hd.
Qed.

(** A write that leaves embeddings, or nothing, under the keys that it mentions. *)
Lemma view_after s s' w (left : bytes → EmbeddingKey → option (option Embedding)) :
  only_embeddings s → (∀ k, kv_view s' k = default (kv_view s k) (written (kv_now s) w k)) →
  (∀ ns key, match written (kv_now s) w (embedding_key_bytes ns key), left ns key with
             | None, None => True
             | Some None, Some None => True
             | Some (Some v), Some (Some e) => decode_embedding v = Ok e ∧ ek_model key = em_model e ∧ ek_model_version key = em_model_version e
             | _, _ => False
             end) →
  only_embeddings s' ∧ ∀ ns key, stored s' ns key = default (stored s ns key) (left ns key).
Proof.
  intros Honly Hview Hleft. split.
  - intros ns key v. rewrite Hview. specialize (Hleft ns key). destruct (written _ w _) as [[x|]|], (left ns key) as [[e|]|]; cbn; try done.
    + intros [= <-]. eauto.
    + apply Honly.
  - intros ns key. unfold stored. rewrite Hview. specialize (Hleft ns key).
    destruct (written _ w _) as [[x|]|], (left ns key) as [[e|]|]; cbn; try done. destruct Hleft as [-> _]. done.
Qed.

(** *** The operations that change the store *)

Inductive EmbeddingOp : Type :=
| EmPut (key : EmbeddingKey) (embedding : Embedding) (ttl_ms : option Z)
| EmPutMany (entries : list (EmbeddingKey * Embedding))
| EmDelete (key : EmbeddingKey).

Definition embedding_step (ns : bytes) (op : EmbeddingOp) (s : St) : result unit * St :=
  match op with
  | EmPut key embedding ttl_ms => embedding_put {| es_namespace := ns |} key embedding ttl_ms s
  | EmPutMany entries => put_many {| es_namespace := ns |} entries s
  | EmDelete key => embedding_delete {| es_namespace := ns |} key s
  end.

(** What an operation asks the engine to write, if anything. *)
Definition requests (ns : bytes) (op : EmbeddingOp) (s : St) (w : option StoreWrite) : Prop :=
  match op with
  | EmPut key e ttl_ms => ∃ v, encodes ns (key, e) (embedding_key_bytes ns key, v) ∧ w = Some (put_write (embedding_key_bytes ns key) v ttl_ms)
  | EmPutMany entries => Forall (λ x, embedding_typed x.2) entries ∧
      ∃ batch, put_many_loop {| es_namespace := ns |} (kv_limits s) entries WriteBatch_default = Ok batch ∧
        w = if WriteBatch_is_empty batch then None else Some (StoreBatch batch)
  | EmDelete key => embedding_key_valid key ∧ w = Some (StoreDelete (embedding_key_bytes ns key))
  end.

(** The last of the entries with a key. *)
Fixpoint last_entry (key : EmbeddingKey) (entries : list (EmbeddingKey * Embedding)) : option Embedding :=
  match entries with
  | [] => None
  | (k, e) :: entries => match last_entry key entries with Some e => Some e | None => if decide (k = key) then Some e else None end
  end.

(** What an operation of the store [ns] leaves under a key. *)
Definition leaves (ns : bytes) (op : EmbeddingOp) (ns' : bytes) (key : EmbeddingKey) : option (option Embedding) :=
  if decide (ns' = ns) then
    match op with
    | EmPut k e ttl_ms =>
      if decide (key = k) then Some (match ttl_ms with Some ttl_ms => if 0 <? ttl_ms then Some e else None | None => Some e end) else None
    | EmPutMany entries => Some <$> last_entry key entries
    | EmDelete k => if decide (key = k) then Some None else None
    end
  else None.

Definition put_of (pair : bytes * bytes) : WriteOp := Put pair.1 pair.2 None.

Lemma put_many_loop_ok ns limits entries b b' :
  Forall (λ x, embedding_typed x.2) entries → put_many_loop {| es_namespace := ns |} limits entries b = Ok b' →
  ∃ pairs, Forall2 (encodes ns) entries pairs ∧ operations b' = operations b ++ map put_of pairs.
Proof.
  revert b. induction entries as [|[key e] entries IH]; intros b Hty.
  { intros [= <-]. exists []. by rewrite app_nil_r. }
  apply Forall_cons in Hty as [Hte Hty]. cbn [put_many_loop es_namespace].
  destruct (validate_key_matches_embedding key e) as [[]|] eqn:Hm; [|done]. apply key_matches_iff in Hm as [Hm1 Hm2].
  destruct (embedding_encode_key ns key) as [k|] eqn:Hk; [|done]. apply embedding_encode_key_inv in Hk as [Hk ->].
  destruct (encode_embedding e) as [v|] eqn:Hv; [|done].
  destruct (validate_next_put limits b _ v) as [[]|] eqn:Hn; [|done]. destruct (validate_next_put_ok _ _ _ _ Hn) as (b1 & -> & Hops).
  intros Hl. destruct (IH b1 Hty Hl) as (pairs & Hp & Ho). exists ((embedding_key_bytes ns key, v) :: pairs).
  split; [constructor; [exact (conj Hk (conj Hte (conj Hm1 (conj Hm2 (conj eq_refl Hv)))))|done]|]. rewrite Ho, Hops, <- app_assoc. done.
Qed.

Lemma put_many_written ns entries pairs ns' key :
  Forall2 (encodes ns) entries pairs →
  match last_op (embedding_key_bytes ns' key) (map put_of pairs), leaves ns (EmPutMany entries) ns' key with
  | None, None => True
  | Some r, Some (Some e) => ∃ v, r = VValue v None ∧ decode_embedding v = Ok e ∧ ek_model key = em_model e ∧ ek_model_version key = em_model_version e
  | _, _ => False
  end.
Proof.
  unfold leaves. induction 1 as [|[k e] [kb v] entries pairs (Hk & Hty & H1 & H2 & Hkb & Hv) _ IH]; cbn [map last_op last_entry].
  { by destruct (decide (ns' = ns)). }
  cbn [fst snd] in *. subst kb. destruct (last_op (embedding_key_bytes ns' key) (map put_of pairs)) as [r|].
  { destruct (decide (ns' = ns)) as [->|]; [|done]. by destruct (last_entry key entries). }
  destruct (decide (ns' = ns)) as [->|Hns].
  - destruct (last_entry key entries); [done|]. cbn [put_of op_key op_record fst snd].
    destruct (decide (k = key)) as [->|Hne].
    + rewrite lex_eqb_refl. exists v. split; [done|]. split; [by apply decode_encode_embedding|done].
    + destruct (lex_eqb _ _) eqn:E; [|done]. apply lex_eqb_eq, embedding_key_bytes_inj in E as [_ ->]. done.
  - cbn [put_of op_key fst]. destruct (lex_eqb _ _) eqn:E; [|done]. apply lex_eqb_eq, embedding_key_bytes_inj in E as [-> _]. done.
Qed.

Lemma requests_written ns op s w ns' key :
  requests ns op s (Some w) →
  match written (kv_now s) w (embedding_key_bytes ns' key), leaves ns op ns' key with
  | None, None => True
  | Some None, Some None => True
  | Some (Some v), Some (Some e) => decode_embedding v = Ok e ∧ ek_model key = em_model e ∧ ek_model_version key = em_model_version e
  | _, _ => False
  end.
Proof.
  assert (∀ k, embedding_key_bytes ns' key = embedding_key_bytes ns k ↔ ns' = ns ∧ key = k) as Hinj.
  { intros k. split; [apply embedding_key_bytes_inj|by intros [-> ->]]. }
  destruct op as [k e ttl_ms|entries|k]; cbn [requests].
  - intros (v & (Hk & Hty & H1 & H2 & _ & Hv) & [= ->]). cbn [fst snd] in *. rewrite put_write_written. unfold leaves.
    destruct (decide (embedding_key_bytes ns' key = _)) as [E|E]; rewrite Hinj in E.
    + destruct E as [-> ->]. rewrite !decide_True by done. apply decode_encode_embedding in Hv; [|done].
      destruct ttl_ms as [t|]; [destruct (0 <? t)|]; done.
    + destruct (decide (ns' = ns)) as [->|]; [|done]. by rewrite decide_False by (intros ->; by apply E).
  - intros (Hty & batch & Hl & Hw). destruct (WriteBatch_is_empty batch); [done|]. injection Hw as ->. cbn [written].
    destruct (put_many_loop_ok _ _ _ _ _ Hty Hl) as (pairs & Hp & ->). pose proof (put_many_written ns entries pairs ns' key Hp) as Hw.
    cbn [WriteBatch_default operations app]. destruct (last_op _ _) as [r|], (leaves _ _ _ _) as [[e|]|]; try done.
    destruct Hw as (v & -> & Hd). done.
  - intros (Hk & [= ->]). cbn [written]. unfold leaves. destruct (decide (embedding_key_bytes ns' key = _)) as [E|E]; rewrite Hinj in E.
    + destruct E as [-> ->]. by rewrite !decide_True.
    + destruct (decide (ns' = ns)) as [->|]; [|done]. by rewrite decide_False by (intros ->; by apply E).
Qed.

Lemma embedding_step_request ns op s w :
  requests ns op s w →
  embedding_step ns op s = match w with Some w => kv_write w s | None => (Ok tt, s) end.
Proof.
  destruct op as [k e ttl_ms|entries|k]; cbn [requests embedding_step].
  - intros (v & (Hk & Hty & H1 & H2 & _ & Hv) & ->). unfold embedding_put. cbn [es_namespace fst snd] in *.
    rewrite (proj2 (key_matches_iff k e)), embedding_encode_key_ok, Hv by done. by destruct ttl_ms.
  - intros (_ & batch & Hl & ->). unfold put_many. rewrite Hl. by destruct (WriteBatch_is_empty batch).
  - intros (Hk & ->). unfold embedding_delete. cbn [es_namespace]. by rewrite embedding_encode_key_ok.
Qed.

(** [C14] The embedding store implements a map from namespaces and keys to embeddings,
    over any key-value store that keeps its laws: after a put, a batch of puts (the last
    entry of a key wins) or a deletion that the engine accepts, a read of any key of any
    namespace returns what the operation left under it, or what was there before if the
    operation does not mention it; every stored embedding stays valid and keeps the
    model identity of its key. *)
Theorem embedding_store_refines_map (s : St) (ns : bytes) (op : EmbeddingOp) (w : option StoreWrite) :
  kv_ok s → only_embeddings s → requests ns op s w → (match w with Some w => kv_writable s w | None => True end) →
  ∃ s', embedding_step ns op s = (Ok tt, s') ∧ kv_ok s' ∧ only_embeddings s' ∧
    ∀ ns' key, embedding_key_valid key → kv_readable s' (embedding_key_bytes ns' key) →
      embedding_get {| es_namespace := ns' |} key s' = Ok (default (stored s ns' key) (leaves ns op ns' key)).
Proof.
  intros Hok Honly Hreq Hw. rewrite (embedding_step_request _ _ _ _ Hreq). destruct w as [w|].
  - destruct (kv_write_law s w Hok Hw) as (s' & Hwr & Hok' & Hview).
    destruct (view_after s s' w (leaves ns op) Honly Hview) as [Honly' Hst]; [intros; by apply requests_written|].
    exists s'. split; [done|]. split; [done|]. split; [done|]. intros ns' key Hk Hr. by rewrite embedding_get_ok, Hst.
  - exists s. split; [done|]. split; [done|]. split; [done|]. intros ns' key Hk Hr. rewrite embedding_get_ok by done. f_equal.
    destruct op as [k e t|entries|k]; [by destruct Hreq as (? & _ & ?)| |by destruct Hreq].
    destruct Hreq as (Hty & batch & Hl & Hb). destruct (put_many_loop_ok _ _ _ _ _ Hty Hl) as (pairs & Hp & Hops).
    assert (entries = []) as ->; [|by unfold leaves; destruct (decide (ns' = ns))].
    unfold WriteBatch_is_empty in Hb. rewrite Hops in Hb. by destruct Hp.
Qed.

(** A batch that is rejected has not reached the engine. *)
Lemma put_many_rejected ns entries s e :
  put_many_loop {| es_namespace := ns |} (kv_limits s) entries WriteBatch_default = Err e →
  put_many {| es_namespace := ns |} entries s = (Err e, s).
Proof. intros He. unfold put_many. by rewrite He. Qed.
End Promises.

(** ** A concrete store *)

Definition scalar_codec : codec ScalarType :=
  {| enc := λ t, [match t with F32 => 0 | F16 => 1 end];
     dec := λ b, match b with 0 :: b => Some (F32, b) | 1 :: b => Some (F16, b) | _ => None end |}.

Lemma scalar_codec_ok : codec_ok scalar_codec (λ _, True) (λ _, 1).
Proof. split; [by intros [] rest _|intros [] _; repeat constructor; by unfold is_u8, U8_MAX|by intros []]. Qed.

Definition fields_codec :=
  pair_codec (pair_codec (pair_codec varint scalar_codec) vec)
    (pair_codec (pair_codec (opt vec) (opt vec)) (seq_codec (pair_codec vec vec))).

Definition fields (e : Embedding) :=
  (((em_dimension e, em_scalar_type e), em_vector_bytes e), ((em_model e, em_model_version e), em_metadata e)).

Definition embedding_codec : codec Embedding :=
  {| enc := λ e, enc fields_codec (fields e);
     dec := λ b, match dec fields_codec b with
                 | Some ((((d, t), v), ((m, mv), md)), b) =>
                   Some ({| em_dimension := d; em_scalar_type := t; em_vector_bytes := v;
                            em_model := m; em_model_version := mv; em_metadata := md |}, b)
                 | None => None
                 end |}.

Lemma embedding_codec_ok : codec_ok embedding_codec embedding_typed embedding_wire_len.
Proof.
  assert (codec_ok (seq_codec (pair_codec vec vec)) (λ l, zlen l ≤ USIZE_MAX ∧ Forall (λ x, vec_typed x.1 ∧ vec_typed x.2) l)
    (λ l, postcard_varint_len (zlen l) + elems_len (λ x, vec_len x.1 + vec_len x.2) l)) as Hmd.
  { apply seq_ok; [|apply (pair_ok _ _ _ _ _ _ vec_ok vec_ok)]. intros [k v] _. cbn [fst snd]. unfold vec_len.
    pose proof (varint_len_pos (zlen k)). pose proof (zlen_nonneg k). pose proof (varint_len_pos (zlen v)). pose proof (zlen_nonneg v). lia. }
  pose proof (pair_ok _ _ _ _ _ _ (pair_ok _ _ _ _ _ _ (pair_ok _ _ _ _ _ _ varint_ok scalar_codec_ok) vec_ok)
    (pair_ok _ _ _ _ _ _ (pair_ok _ _ _ _ _ _ (opt_ok _ _ _ vec_ok) (opt_ok _ _ _ vec_ok)) Hmd)) as [Hd Hb Hl].
  cbn beta in Hd, Hb, Hl. fold fields_codec in Hd, Hb, Hl.
  assert (∀ e, embedding_typed e → ((is_u64 (em_dimension e) ∧ True) ∧ vec_typed (em_vector_bytes e)) ∧
    ((opt_typed vec_typed (em_model e) ∧ opt_typed vec_typed (em_model_version e)) ∧
     zlen (em_metadata e) ≤ USIZE_MAX ∧ Forall (λ x, vec_typed x.1 ∧ vec_typed x.2) (em_metadata e))) as Hty.
  { intros e (H1 & H2 & H3 & H4 & _ & H5 & H6). unfold is_u32, is_u64, U32_MAX, U64_MAX in *.
    split; [split; [split; [lia|done]|done]|]. done. }
  split; cbn [embedding_codec enc dec].
  - intros e rest He%Hty. rewrite (Hd (fields e) rest He). by destruct e.
  - intros e He%Hty. exact (Hb (fields e) He).
  - intros e He%Hty. rewrite (Hl (fields e) He). unfold embedding_wire_len. cbn [fields fst snd]. lia.
Qed.

#[global] Instance vec_typed_dec b : Decision (vec_typed b).
Proof. unfold vec_typed. apply _. Defined.
#[global] Instance opt_typed_dec o : Decision (opt_typed vec_typed o).
Proof. destruct o; cbn; apply _. Defined.
#[global] Instance embedding_typed_dec e : Decision (embedding_typed e).
Proof. unfold embedding_typed. apply _. Defined.

Definition embedding_postcard : Postcard Embedding := postcard_of embedding_codec embedding_typed.
Lemma embedding_postcard_laws : @PostcardLaws _ embedding_postcard embedding_typed embedding_wire_len.
Proof. apply postcard_of_laws, embedding_codec_ok. Qed.

#[global] Instance identity_valid_dec m v : Decision (identity_valid m v).
Proof. destruct m, v; cbn; apply _. Defined.
#[global] Instance embedding_key_valid_dec key : Decision (embedding_key_valid key).
Proof. unfold embedding_key_valid. apply _. Defined.
#[global] Instance scalar_range_dec t bits : Decision (scalar_range t bits).
Proof. unfold scalar_range. apply _. Defined.

(** The vector (1.0, -2.5) of a model, with metadata. *)
Definition sample_embedding : Embedding :=
  {| em_dimension := 2; em_scalar_type := F32; em_vector_bytes := [0; 0; 128; 63; 0; 0; 32; 192];
     em_model := Some [109]; em_model_version := Some [0; 1]; em_metadata := [([97], [1]); ([98], [2; 3])] |}.

Definition sample_embedding_key : EmbeddingKey := with_model [109] [0; 1] (EmbeddingKey_new [101]).

Section Sample.
  Local Existing Instance embedding_postcard.
  Local Existing Instance embedding_postcard_laws.

(** An instance: three half-precision scalars. *)
Lemma vector_roundtrip_witness :
  Forall (scalar_range F16) [15360; 49152; 0] ∧
  ∃ e, from_scalars F16 [15360; 49152; 0] = Ok e ∧ validate_embedding e = Ok tt ∧ em_dimension e = zlen [15360; 49152; 0] ∧
    to_scalars F16 e = Ok [15360; 49152; 0].
Proof.
  assert (Forall (scalar_range F16) [15360; 49152; 0]) as Hr by (apply (bool_decide_unpack _); vm_compute; reflexivity).
  split; [exact Hr|]. apply (vector_roundtrip F16 [15360; 49152; 0] Hr).
  split; [discriminate|]. split; [repeat constructor|]. vm_compute. discriminate.
Defined.

(** An instance: an entry replaced. *)
Lemma insert_metadata_exact_witness :
  let e' := with_metadata (bt_insert lex_cmp [98] [9] (em_metadata sample_embedding)) sample_embedding in
  bt_sorted lex_cmp (em_metadata e') ∧ bt_get lex_cmp [98] (em_metadata e') = Some [9] ∧
  (validate_embedding e' = Ok tt → insert_metadata [98] [9] sample_embedding = Ok e') ∧
  (validate_embedding e' ≠ Ok tt → ∃ message, insert_metadata [98] [9] sample_embedding = Err (InvalidArgument message)).
Proof.
  apply (insert_metadata_exact [98] [9] sample_embedding).
  - apply (bool_decide_unpack _). vm_compute. reflexivity.
  - apply (bool_decide_unpack _). vm_compute. reflexivity.
  - vm_compute. reflexivity.
Defined.

(** An instance: the sample vector. *)
Lemma embedding_codec_exact_witness :
  ∃ b, encode_embedding sample_embedding = Ok b ∧ zlen b ≤ 1 + MAX_VALUE_BODY_BYTES ∧
    ∀ b', decode_embedding b' = Ok sample_embedding ↔ b' = b.
Proof.
  apply (embedding_codec_exact sample_embedding).
  - apply (bool_decide_unpack _). vm_compute. reflexivity.
  - vm_compute. reflexivity.
Defined.

(** Witness of C14: the sample vector put into an empty store. *)
Lemma embedding_store_refines_map_witness :
  ∃ s' : MemStore, embedding_step [110] (EmPutMany [(sample_embedding_key, sample_embedding)]) [] = (Ok tt, s') ∧ kv_ok s' ∧ only_embeddings s' ∧
    ∀ ns' key, embedding_key_valid key → kv_readable s' (embedding_key_bytes ns' key) →
      embedding_get {| es_namespace := ns' |} key s' =
        Ok (default (stored ([] : MemStore) ns' key) (leaves [110] (EmPutMany [(sample_embedding_key, sample_embedding)]) ns' key)).
Proof.
  set (batch := match put_many_loop {| es_namespace := [110] |} (kv_limits ([] : MemStore)) [(sample_embedding_key, sample_embedding)] WriteBatch_default with
    Ok b => b | Err _ => WriteBatch_default end).
  apply (embedding_store_refines_map ([] : MemStore) [110] (EmPutMany [(sample_embedding_key, sample_embedding)]) (Some (StoreBatch batch))).
  - constructor.
  - intros ns key v Hv. discriminate Hv.
  - split; [repeat constructor; apply (bool_decide_unpack _); vm_compute; reflexivity|]. exists batch. split; vm_compute; reflexivity.
  - exact I.
Defined.
End Sample.
