(* ===== verification/InferenceCache.v ===== *)
(** * Inference cache: keys, entries and lookups
      (src/crates/meteordb/src/workloads/inference_cache.rs)

    A request is a model, its version, named parameters and the length and digest of an
    input.  Its canonical key is injective and does not depend on the order in which the
    parameters were given; an entry is read back as it was stored.  The digest is
    [blake3::hash], a parameter.  [InferenceFlight] has the computation of missing
    entries by concurrent callers. *)

From Stdlib Require Import ZArith Lia Sorting.Sorted.
From stdpp Require Import base list gmap strings sorting.
From S2P Require Import Prelude InternalKey Batch ValueRecord ManifestCodec Mvcc MemTable Iter Engine.
From S2P Require Import KvStore MemStore StoreKeys PostcardWire.

Local Open Scope Z_scope.

Definition INFERENCE_KEY_PREFIX : bytes := 0 :: ascii_bytes "meteordb:inference-cache" ++ [0].
Definition INFERENCE_KEY_SCHEMA_VERSION : Z := 1.
Definition ENTRY_SCHEMA_VERSION : Z := 1.
Definition MAX_NAMESPACE_BYTES : Z := 16 * 1024.
Definition MAX_MODEL_BYTES : Z := 16 * 1024.
Definition MAX_MODEL_VERSION_BYTES : Z := 16 * 1024.
Definition MAX_INPUT_BYTES : Z := 16 * 1024 * 1024.
Definition MAX_PARAMETER_COUNT : Z := 256.
Definition MAX_PARAMETER_COMPONENT_BYTES : Z := 16 * 1024.
Definition MAX_KEY_MATERIAL_BYTES : Z := 512 * 1024.
Definition MAX_PAYLOAD_BYTES : Z := 16 * 1024 * 1024.
Definition MAX_ENTRY_BODY_BYTES : Z := MAX_PAYLOAD_BYTES + 10.

(** ** Data *)

Record InferenceKey : Type := {
  ik_model : bytes;
  ik_model_version : bytes;
  ik_input_len : Z;
  ik_input_digest : bytes;
  ik_parameters : list (bytes * bytes)
}.

#[global] Instance InferenceKey_eq_dec : EqDecision InferenceKey.
Proof. solve_decision. Defined.

Record InferenceEntry : Type := { payload : bytes }.

#[global] Instance InferenceEntry_eq_dec : EqDecision InferenceEntry.
Proof. solve_decision. Defined.

Inductive CacheLookup : Type := Miss | Hit (entry : InferenceEntry).

(** [InferenceKey::new], with the hash function, and [InferenceKey::with_parameter] *)
Definition InferenceKey_new (blake3 : bytes → bytes) (model model_version input : bytes) : InferenceKey :=
  {| ik_model := model; ik_model_version := model_version; ik_input_len := zlen input;
     ik_input_digest := blake3 input; ik_parameters := [] |}.

Definition with_parameter (name value : bytes) (key : InferenceKey) : InferenceKey :=
  {| ik_model := ik_model key; ik_model_version := ik_model_version key; ik_input_len := ik_input_len key;
     ik_input_digest := ik_input_digest key; ik_parameters := bt_insert lex_cmp name value (ik_parameters key) |}.

(** ** Validation *)

Definition validate_required (name : string) (b : bytes) : result unit :=
  if bool_decide (b = []) then Err (InvalidArgument (name +:+ " must not be empty")) else Ok tt.

Definition validate_max (name : string) (actual maximum : Z) : result unit :=
  if maximum <? actual then Err (InvalidArgument (name +:+ " exceeds the limit")) else Ok tt.

Definition validate_ttl (ttl_ms : option Z) : result unit :=
  match ttl_ms with
  | Some ttl_ms => if ttl_ms <? 0 then Err (InvalidArgument "ttl_ms must not be negative") else Ok tt
  | None => Ok tt
  end.

(** ** Keys *)

(** [u32::try_from(value).expect(..)] *)
Definition push_u32 (output : bytes) (value : Z) : result bytes :=
  if value <=? U32_MAX then Ok (output ++ to_be 4 value)
  else Err (Panicked "validated cache component length fits in u32").

Definition push_bytes (output b : bytes) : result bytes :=
  let? output := push_u32 output (zlen b) in
  Ok (output ++ b).

(** [InferenceCache::encode_key] *)
Definition inference_encode_key (namespace : bytes) (key : InferenceKey) : result bytes :=
  let? _ := validate_required "model" (ik_model key) in
  let? _ := validate_max "model" (zlen (ik_model key)) MAX_MODEL_BYTES in
  let? _ := validate_required "model_version" (ik_model_version key) in
  let? _ := validate_max "model_version" (zlen (ik_model_version key)) MAX_MODEL_VERSION_BYTES in
  let? _ := validate_max "input" (ik_input_len key) MAX_INPUT_BYTES in
  let? _ := validate_max "parameter count" (zlen (ik_parameters key)) MAX_PARAMETER_COUNT in
  let? material_bytes :=
    ok_or (size ← checked_add (zlen namespace) (zlen (ik_model key)); checked_add size (zlen (ik_model_version key)))
      (InvalidArgument "cache key size overflow") in
  let? material_bytes := try_fold (λ material_bytes '(name, value),
    let? _ := validate_required "parameter name" name in
    let? _ := validate_max "parameter name" (zlen name) MAX_PARAMETER_COMPONENT_BYTES in
    let? _ := validate_max "parameter value" (zlen value) MAX_PARAMETER_COMPONENT_BYTES in
    ok_or (size ← checked_add material_bytes (zlen name); checked_add size (zlen value))
      (InvalidArgument "cache key size overflow")) material_bytes (ik_parameters key) in
  let? _ := validate_max "canonical key material" material_bytes MAX_KEY_MATERIAL_BYTES in
  let encoded := INFERENCE_KEY_PREFIX ++ [INFERENCE_KEY_SCHEMA_VERSION] in
  let? encoded := push_bytes encoded namespace in
  let? encoded := push_bytes encoded (ik_model key) in
  let? encoded := push_bytes encoded (ik_model_version key) in
  let? encoded := push_u32 encoded (zlen (ik_parameters key)) in
  let? encoded := try_fold (λ encoded '(name, value),
    let? encoded := push_bytes encoded name in
    push_bytes encoded value) encoded (ik_parameters key) in
  Ok (encoded ++ to_be 8 (ik_input_len key) ++ ik_input_digest key).

(** The bytes of a key, before they are validated. *)
Definition sized (b : bytes) : bytes := to_be 4 (zlen b) ++ b.

Fixpoint parameter_bytes (l : list (bytes * bytes)) : bytes :=
  match l with [] => [] | (name, value) :: l => sized name ++ sized value ++ parameter_bytes l end.

Definition inference_key_bytes (ns : bytes) (key : InferenceKey) : bytes :=
  INFERENCE_KEY_PREFIX ++ [INFERENCE_KEY_SCHEMA_VERSION] ++ sized ns ++ sized (ik_model key) ++ sized (ik_model_version key) ++
  to_be 4 (zlen (ik_parameters key)) ++ parameter_bytes (ik_parameters key) ++ to_be 8 (ik_input_len key) ++ ik_input_digest key.

(** What the checks accept. *)
Fixpoint material (l : list (bytes * bytes)) : Z :=
  match l with [] => 0 | (name, value) :: l => zlen name + zlen value + material l end.

Definition parameter_valid (p : bytes * bytes) : Prop :=
  p.1 ≠ [] ∧ zlen p.1 ≤ MAX_PARAMETER_COMPONENT_BYTES ∧ zlen p.2 ≤ MAX_PARAMETER_COMPONENT_BYTES.

Definition inference_key_valid (ns : bytes) (key : InferenceKey) : Prop :=
  ik_model key ≠ [] ∧ zlen (ik_model key) ≤ MAX_MODEL_BYTES ∧
  ik_model_version key ≠ [] ∧ zlen (ik_model_version key) ≤ MAX_MODEL_VERSION_BYTES ∧
  ik_input_len key ≤ MAX_INPUT_BYTES ∧ zlen (ik_parameters key) ≤ MAX_PARAMETER_COUNT ∧
  Forall parameter_valid (ik_parameters key) ∧
  zlen ns + zlen (ik_model key) + zlen (ik_model_version key) + material (ik_parameters key) ≤ MAX_KEY_MATERIAL_BYTES.

Lemma validate_required_spec name b :
  (validate_required name b = Ok tt ∧ b ≠ []) ∨ (∃ m, validate_required name b = Err (InvalidArgument m) ∧ b = []).
Proof. unfold validate_required. case_bool_decide; eauto. Qed.

Lemma validate_max_spec name actual maximum :
  (validate_max name actual maximum = Ok tt ∧ actual ≤ maximum) ∨
  (∃ m, validate_max name actual maximum = Err (InvalidArgument m) ∧ maximum < actual).
Proof. unfold validate_max. destruct (Z.ltb_spec maximum actual); eauto. Qed.

Lemma material_nonneg l : 0 ≤ material l.
Proof. induction l as [|[k v] l IH]; cbn; [lia|]. pose proof (zlen_nonneg k). pose proof (zlen_nonneg v). lia. Qed.

Lemma checked_add_two n a b e :
  0 ≤ b → n + a + b ≤ USIZE_MAX → ok_or (size ← checked_add n a; checked_add size b) e = Ok (n + a + b).
Proof.
  intros Hb Hn. unfold checked_add. rewrite (proj2 (Z.leb_le (n + a) _)) by lia. cbn. by rewrite (proj2 (Z.leb_le _ _)).
Qed.

Lemma push_u32_ok output n : n ≤ U32_MAX → push_u32 output n = Ok (output ++ to_be 4 n).
Proof. intros H. unfold push_u32. by rewrite (proj2 (Z.leb_le _ _)). Qed.

Lemma push_bytes_ok output b : zlen b ≤ U32_MAX → push_bytes output b = Ok (output ++ sized b).
Proof. intros H. unfold push_bytes, sized. rewrite push_u32_ok by done. by rewrite <- app_assoc. Qed.

Lemma push_parameters_ok output l :
  Forall parameter_valid l →
  try_fold (λ encoded '(name, value), let? encoded := push_bytes encoded name in push_bytes encoded value) output l =
    Ok (output ++ parameter_bytes l).
Proof.
  intros Hl. revert output. induction Hl as [|[k v] l (_ & Hk & Hv) _ IH]; intros output; cbn [try_fold parameter_bytes]; [by rewrite app_nil_r|].
  cbn [fst snd] in *. unfold MAX_PARAMETER_COMPONENT_BYTES in *.
  rewrite push_bytes_ok by (unfold U32_MAX; lia). rewrite push_bytes_ok by (unfold U32_MAX; lia).
  by rewrite IH, <- !app_assoc.
Qed.

(** The loop over the parameters: the total when they are valid, an error otherwise. *)
Lemma material_loop n l :
  0 ≤ n → n + 2 * MAX_PARAMETER_COMPONENT_BYTES * zlen l ≤ USIZE_MAX →
  let loop := try_fold (λ material_bytes '(name, value),
    let? _ := validate_required "parameter name" name in
    let? _ := validate_max "parameter name" (zlen name) MAX_PARAMETER_COMPONENT_BYTES in
    let? _ := validate_max "parameter value" (zlen value) MAX_PARAMETER_COMPONENT_BYTES in
    ok_or (size ← checked_add material_bytes (zlen name); checked_add size (zlen value))
      (InvalidArgument "cache key size overflow")) n l in
  (loop = Ok (n + material l) ∧ Forall parameter_valid l) ∨ (∃ m, loop = Err (InvalidArgument m) ∧ ¬ Forall parameter_valid l).
Proof.
  revert n. induction l as [|[k v] l IH]; intros n H0 Hn; cbn [try_fold material]; [left; by rewrite Z.add_0_r|].
  rewrite zlen_cons in Hn. pose proof (zlen_nonneg l). pose proof (zlen_nonneg k). pose proof (zlen_nonneg v). unfold MAX_PARAMETER_COMPONENT_BYTES in *.
  destruct (validate_required_spec "parameter name" k) as [[-> Hk]|(m & -> & Hk)]; [|right; exists m; split; [done|]; by intros [[] _]%Forall_cons].
  destruct (validate_max_spec "parameter name" (zlen k) (16 * 1024)) as [[-> Hk2]|(m & -> & Hk2)];
    [|right; exists m; split; [done|]; intros [(_ & ? & _) _]%Forall_cons; cbn in *; unfold MAX_PARAMETER_COMPONENT_BYTES in *; lia].
  destruct (validate_max_spec "parameter value" (zlen v) (16 * 1024)) as [[-> Hv]|(m & -> & Hv)];
    [|right; exists m; split; [done|]; intros [(_ & _ & ?) _]%Forall_cons; cbn in *; unfold MAX_PARAMETER_COMPONENT_BYTES in *; lia].
  rewrite checked_add_two by lia. destruct (IH (n + zlen k + zlen v)) as [[Hl Hf]|(m & Hl & Hf)]; [lia|lia|..].
  - left. cbv zeta in Hl. rewrite Hl. split; [f_equal; lia|]. constructor; [done|exact Hf].
  - right. exists m. split; [exact Hl|]. by intros [_ ?]%Forall_cons.
Qed.

Lemma inference_encode_key_spec ns key :
  zlen ns ≤ MAX_NAMESPACE_BYTES →
  (inference_encode_key ns key = Ok (inference_key_bytes ns key) ∧ inference_key_valid ns key) ∨
  (∃ m, inference_encode_key ns key = Err (InvalidArgument m) ∧ ¬ inference_key_valid ns key).
Proof.
  intros Hns. unfold inference_encode_key, inference_key_valid. pose proof (zlen_nonneg ns) as P1. pose proof (zlen_nonneg (ik_model key)) as P2.
  pose proof (zlen_nonneg (ik_model_version key)) as P3. pose proof (zlen_nonneg (ik_parameters key)) as P4.
  destruct (validate_required_spec "model" (ik_model key)) as [[-> H1]|(m & -> & H1)]; [|right; exists m; split; [done|]; by intros []].
  destruct (validate_max_spec "model" (zlen (ik_model key)) MAX_MODEL_BYTES) as [[-> H2]|(m & -> & H2)]; [|right; exists m; split; [done|]; intros (_ & ? & _); lia].
  destruct (validate_required_spec "model_version" (ik_model_version key)) as [[-> H3]|(m & -> & H3)]; [|right; exists m; split; [done|]; by intros (_ & _ & ? & _)].
  destruct (validate_max_spec "model_version" (zlen (ik_model_version key)) MAX_MODEL_VERSION_BYTES) as [[-> H4]|(m & -> & H4)]; [|right; exists m; split; [done|]; intros (_ & _ & _ & ? & _); lia].
  destruct (validate_max_spec "input" (ik_input_len key) MAX_INPUT_BYTES) as [[-> H5]|(m & -> & H5)]; [|right; exists m; split; [done|]; intros (_ & _ & _ & _ & ? & _); lia].
  destruct (validate_max_spec "parameter count" (zlen (ik_parameters key)) MAX_PARAMETER_COUNT) as [[-> H6]|(m & -> & H6)]; [|right; exists m; split; [done|]; intros (_ & _ & _ & _ & _ & ? & _); lia].
  unfold MAX_NAMESPACE_BYTES, MAX_MODEL_BYTES, MAX_MODEL_VERSION_BYTES, MAX_PARAMETER_COUNT in *.
  rewrite checked_add_two by (unfold USIZE_MAX, U64_MAX; lia).
  destruct (material_loop (zlen ns + zlen (ik_model key) + zlen (ik_model_version key)) (ik_parameters key)) as [[Hl Hf]|(m & Hl & Hf)].
  { lia. } { unfold MAX_PARAMETER_COMPONENT_BYTES, USIZE_MAX, U64_MAX. lia. }
  2: { cbv zeta in Hl. rewrite Hl. right. exists m. split; [done|]. by intros (_ & _ & _ & _ & _ & _ & ? & _). }
  cbv zeta in Hl. rewrite Hl. clear Hl.
  destruct (validate_max_spec "canonical key material" (zlen ns + zlen (ik_model key) + zlen (ik_model_version key) + material (ik_parameters key)) MAX_KEY_MATERIAL_BYTES)
    as [[-> H7]|(m & -> & H7)]; [|right; exists m; split; [done|]; intros (_ & _ & _ & _ & _ & _ & _ & ?); lia].
  left. split; [|done]. rewrite push_bytes_ok by (unfold U32_MAX; lia). rewrite push_bytes_ok by (unfold U32_MAX; lia).
  rewrite push_bytes_ok by (unfold U32_MAX; lia). rewrite push_u32_ok by (unfold U32_MAX; lia). rewrite push_parameters_ok by done.
  unfold inference_key_bytes. by rewrite <- !app_assoc.
Qed.

(** ** Canonical keys *)

Lemma to_be_inj n a b s t :
  0 ≤ a < 256 ^ Z.of_nat n → 0 ≤ b < 256 ^ Z.of_nat n → to_be n a ++ s = to_be n b ++ t → a = b ∧ s = t.
Proof.
  intros Ha Hb He. apply app_inj_1 in He as [He ->]; [|unfold to_be; by rewrite !length_reverse, !to_le_length].
  split; [|done]. rewrite <- (from_be_to_be n a Ha), <- (from_be_to_be n b Hb). by rewrite He.
Qed.

Lemma sized_inj a b s t :
  zlen a ≤ U32_MAX → zlen b ≤ U32_MAX → sized a ++ s = sized b ++ t → a = b ∧ s = t.
Proof.
  intros Ha Hb. unfold sized. rewrite <- !app_assoc. pose proof (zlen_nonneg a). pose proof (zlen_nonneg b). intros He.
  apply to_be_inj in He as [Hl He]; [|unfold U32_MAX in *; cbn; lia..]. apply app_inj_1 in He; [done|]. unfold zlen in Hl. lia.
Qed.

Lemma parameter_bytes_inj l l' s t :
  Forall parameter_valid l → Forall parameter_valid l' → length l = length l' →
  parameter_bytes l ++ s = parameter_bytes l' ++ t → l = l' ∧ s = t.
Proof.
  intros Hl. revert l'. induction Hl as [|[k v] l (_ & Hk & Hv) _ IH]; intros [|[k' v'] l'] Hl'; try done.
  apply Forall_cons in Hl' as [(_ & Hk' & Hv') Hl']. cbn [length parameter_bytes fst snd] in *. intros [= Hlen].
  unfold MAX_PARAMETER_COMPONENT_BYTES in *. rewrite <- !app_assoc. intros He.
  apply sized_inj in He as [-> He]; [|unfold U32_MAX; lia..]. apply sized_inj in He as [-> He]; [|unfold U32_MAX; lia..].
  destruct (IH l' Hl' Hlen He) as [-> ->]. done.
Qed.

(** Values of the Rust type: a sorted map and a digest of 32 bytes. *)
Definition inference_key_typed (key : InferenceKey) : Prop :=
  bt_sorted lex_cmp (ik_parameters key) ∧ 0 ≤ ik_input_len key ∧ zlen (ik_input_digest key) = 32.

Lemma inference_key_bytes_inj ns key ns' key' :
  zlen ns ≤ MAX_NAMESPACE_BYTES → zlen ns' ≤ MAX_NAMESPACE_BYTES →
  inference_key_valid ns key → inference_key_valid ns' key' → inference_key_typed key → inference_key_typed key' →
  inference_key_bytes ns key = inference_key_bytes ns' key' → ns = ns' ∧ key = key'.
Proof.
  intros Hns Hns' (_ & H1 & _ & H2 & H3 & H4 & H5 & _) (_ & H1' & _ & H2' & H3' & H4' & H5' & _) (_ & H6 & H7) (_ & H6' & H7').
  unfold MAX_NAMESPACE_BYTES, MAX_MODEL_BYTES, MAX_MODEL_VERSION_BYTES, MAX_PARAMETER_COUNT, MAX_INPUT_BYTES in *.
  unfold inference_key_bytes. intros He. do 2 apply app_inv_head in He.
  apply sized_inj in He as [-> He]; [|unfold U32_MAX; lia..]. apply sized_inj in He as [Hm He]; [|unfold U32_MAX; lia..].
  apply sized_inj in He as [Hv He]; [|unfold U32_MAX; lia..].
  pose proof (zlen_nonneg (ik_parameters key)). pose proof (zlen_nonneg (ik_parameters key')).
  apply to_be_inj in He as [Hn He]; [|cbn; lia..]. apply parameter_bytes_inj in He as [Hp He]; [|done|done|unfold zlen in Hn; lia].
  apply to_be_inj in He as [Hi He]; [|cbn; lia..]. split; [done|]. destruct key, key'. cbn in *. congruence.
Qed.

Definition with_parameters (ps : list (bytes * bytes)) (key : InferenceKey) : InferenceKey :=
  fold_left (λ key '(name, value), with_parameter name value key) ps key.

Lemma with_parameters_eq ps key :
  with_parameters ps key =
    {| ik_model := ik_model key; ik_model_version := ik_model_version key; ik_input_len := ik_input_len key;
       ik_input_digest := ik_input_digest key;
       ik_parameters := fold_left (λ m '(name, value), bt_insert lex_cmp name value m) ps (ik_parameters key) |}.
Proof. revert key. induction ps as [|[k v] ps IH]; intros key; cbn [with_parameters fold_left]; [by destruct key|]. apply IH. Qed.

Lemma insert_all (ps m : list (bytes * bytes)) :
  NoDup (map fst ps) → Forall (λ p, contains_key p.1 m = false) ps → bt_sorted lex_cmp m →
  let m' := fold_left (λ m '(name, value), bt_insert lex_cmp name value m) ps m in
  bt_sorted lex_cmp m' ∧ m' ≡ₚ ps ++ m.
Proof.
  revert m. induction ps as [|[k v] ps IH]; intros m Hnd Hc Hs; cbn [fold_left map] in *; [done|].
  apply NoDup_cons in Hnd as [Hk Hnd]. apply Forall_cons in Hc as [Hck Hc]. cbn [fst] in *.
  assert (bt_insert lex_cmp k v m ≡ₚ (k, v) :: m) as Hp.
  { rewrite (bt_insert_new k v m Hck). by rewrite map_replaced_absent. }
  destruct (IH (bt_insert lex_cmp k v m)) as [Hs' Hp']; [done| |by apply bt_insert_sorted|].
  - rewrite Forall_forall in *. intros [k' v'] Hin. apply contains_key_false. rewrite Hp. constructor.
    + cbn. intros <-. apply Hk. by apply (list_elem_of_fmap_2 fst _ (k, v')).
    + apply contains_key_false. apply (Hc _ Hin).
  - split; [exact Hs'|]. rewrite Hp', Hp. apply Permutation_sym, Permutation_middle.
Qed.

Lemma sorted_map_eq {V} (m m' : list (bytes * V)) : bt_sorted lex_cmp m → bt_sorted lex_cmp m' → m ≡ₚ m' → m = m'.
Proof.
  intros Hs Hs' Hp. eapply (StronglySorted_unique_strong (bt_lt lex_cmp)); [|exact Hs|exact Hs'|exact Hp].
  intros x y _ _ H1 H2. unfold bt_lt in *. pose proof (cmp_trans (cmp := lex_cmp) _ _ _ H1 H2) as H. by rewrite lex_cmp_refl in H.
Qed.

(** [C16] Cache keys are canonical: two requests that are accepted have the same
    encoded key, also across namespaces, only when they agree in namespace, model,
    version, parameters, input length and input digest; and the order in which the
    parameters of a request are given does not change its key. *)
Theorem inference_keys_canonical (blake3 : bytes → bytes) (ns ns' : bytes) (key key' : InferenceKey) (b : bytes) :
  zlen ns ≤ MAX_NAMESPACE_BYTES → zlen ns' ≤ MAX_NAMESPACE_BYTES → inference_key_typed key → inference_key_typed key' →
  (inference_encode_key ns key = Ok b → inference_encode_key ns' key' = Ok b → ns = ns' ∧ key = key') ∧
  (∀ model version input ps ps', NoDup (map fst ps) → ps ≡ₚ ps' →
     inference_encode_key ns (with_parameters ps (InferenceKey_new blake3 model version input)) =
     inference_encode_key ns (with_parameters ps' (InferenceKey_new blake3 model version input))).
Proof.
  intros Hns Hns' Hty Hty'. split.
  - destruct (inference_encode_key_spec ns key Hns) as [[-> Hv]|(m & -> & _)]; [|done]. intros [= <-].
    destruct (inference_encode_key_spec ns' key' Hns') as [[-> Hv']|(m & -> & _)]; [|done]. intros He%Ok_inj.
    symmetry in He. by apply inference_key_bytes_inj in He.
  - intros model version input ps ps' Hnd Hp. f_equal. rewrite !with_parameters_eq. f_equal. cbn [InferenceKey_new ik_parameters].
    destruct (insert_all ps []) as [Hs1 Hp1]; [done|by apply Forall_forall|constructor|].
    destruct (insert_all ps' []) as [Hs2 Hp2]; [by rewrite <- Hp|by apply Forall_forall|constructor|].
    apply sorted_map_eq; [exact Hs1|exact Hs2|]. rewrite Hp1, Hp2, Hp. done.
Qed.

(** ** Entries *)

Definition entry_typed (e : InferenceEntry) : Prop := vec_typed (payload e).
Definition entry_wire_len (e : InferenceEntry) : Z := vec_len (payload e).

Section Operations.
  Context {PC : Postcard InferenceEntry}.

Definition encode_entry (entry : InferenceEntry) : result bytes :=
  let? _ := validate_max "payload" (zlen (payload entry)) MAX_PAYLOAD_BYTES in
  let? body := ok_or (to_allocvec entry) (InvalidArgument "could not encode cache entry") in
  Ok (ENTRY_SCHEMA_VERSION :: body).

Definition decode_entry : bytes → result InferenceEntry :=
  decode_versioned "inference-cache entry" "inference-cache entry" "serialized entry exceeds the byte limit"
    "could not re-encode postcard body" ENTRY_SCHEMA_VERSION MAX_ENTRY_BODY_BYTES
    (λ entry, validate_max "stored payload" (zlen (payload entry)) MAX_PAYLOAD_BYTES).

(** ** Operations *)

(** The namespace of [CacheInner]; its flights are in [InferenceFlight]. *)
Record InferenceCache : Type := { ic_namespace : bytes }.

(** [InferenceCache::new] *)
Definition InferenceCache_new (namespace : bytes) : result InferenceCache :=
  let? _ := validate_required "namespace" namespace in
  let? _ := validate_max "namespace" (zlen namespace) MAX_NAMESPACE_BYTES in
  Ok {| ic_namespace := namespace |}.

  Context {St : Type} {KV : KvStore St} (ic : InferenceCache).

(** [InferenceCache::lookup_encoded] *)
Definition decode_lookup (value : option bytes) : result CacheLookup :=
  match value with
  | Some b => let? entry := decode_entry b in Ok (Hit entry)
  | None => Ok Miss
  end.

Definition lookup_encoded (encoded_key : bytes) (s : St) : result CacheLookup :=
  let? value := kv_get encoded_key s in
  decode_lookup value.

(** [InferenceCache::get], [InferenceCache::get_many], [InferenceCache::put], [InferenceCache::delete] *)
Definition inference_get (key : InferenceKey) (s : St) : result CacheLookup :=
  let? encoded_key := inference_encode_key (ic_namespace ic) key in
  lookup_encoded encoded_key s.

Definition inference_get_many (keys : list InferenceKey) (s : St) : result (list CacheLookup) :=
  let? encoded_keys := try_map (inference_encode_key (ic_namespace ic)) keys in
  let? snapshot_get := kv_snapshot s in
  try_map (λ key, let? value := snapshot_get key in decode_lookup value) encoded_keys.

Definition store_entry (encoded_key encoded_entry : bytes) (ttl_ms : option Z) (s : St) : result unit * St :=
  match ttl_ms with
  | Some ttl_ms => kv_write (StorePutTtl encoded_key encoded_entry ttl_ms) s
  | None => kv_write (StorePut encoded_key encoded_entry) s
  end.

Definition inference_put (key : InferenceKey) (entry : InferenceEntry) (ttl_ms : option Z) (s : St) : result unit * St :=
  let prepared :=
    let? encoded_key := inference_encode_key (ic_namespace ic) key in
    let? encoded_entry := encode_entry entry in
    let? _ := validate_ttl ttl_ms in
    Ok (encoded_key, encoded_entry) in
  match prepared with
  | Err e => (Err e, s)
  | Ok (encoded_key, encoded_entry) => store_entry encoded_key encoded_entry ttl_ms s
  end.

Definition inference_delete (key : InferenceKey) (s : St) : result unit * St :=
  match inference_encode_key (ic_namespace ic) key with
  | Err e => (Err e, s)
  | Ok encoded_key => kv_write (StoreDelete encoded_key) s
  end.
End Operations.

(** ** What the cache promises *)

Section Promises.
  Context {PC : Postcard InferenceEntry} {PL : PostcardLaws InferenceEntry entry_typed entry_wire_len}.

(** The decoder's limit has room for every accepted entry. *)
Lemma decode_encode_entry e b : entry_typed e → encode_entry e = Ok b → decode_entry b = Ok e.
Proof.
  intros Hty. unfold encode_entry. destruct (validate_max_spec "payload" (zlen (payload e)) MAX_PAYLOAD_BYTES) as [[-> Hmax]|(m & -> & _)]; [|done].
  destruct (to_allocvec e) as [body|] eqn:Hb; [|done]. intros [= <-].
  apply (decode_versioned_iff _ _ _ _ _ _ _ (wire_len := entry_wire_len)). split; [done|]. exists body. split; [done|].
  pose proof (varint_len_usize (zlen (payload e)) (conj (zlen_nonneg _) (proj2 Hty))).
  split; [rewrite (postcard_len e body Hty Hb); unfold entry_wire_len, vec_len, MAX_ENTRY_BODY_BYTES; lia|]. split; [done|].
  unfold validate_max. by rewrite (proj2 (Z.ltb_ge _ _)) by lia.
Qed.

Lemma encode_entry_ok e :
  entry_typed e → zlen (payload e) ≤ MAX_PAYLOAD_BYTES → ∃ b, encode_entry e = Ok b.
Proof.
  intros Hty Hmax. unfold encode_entry, validate_max. rewrite (proj2 (Z.ltb_ge _ _)) by lia.
  destruct (postcard_total e Hty) as [body ->]. by eexists.
Qed.

  Context {St : Type} {KV : KvStore St} {KL : KvLaws St}.

(** The live entry of a request. *)
Definition cached (s : St) (ns : bytes) (key : InferenceKey) : CacheLookup :=
  match kv_view s (inference_key_bytes ns key) with
  | Some b => match decode_entry b with Ok e => Hit e | Err _ => Miss end
  | None => Miss
  end.

Definition only_entries (s : St) : Prop :=
  ∀ ns key v, kv_view s (inference_key_bytes ns key) = Some v → ∃ e, decode_entry v = Ok e.

Definition request_ok (ns : bytes) (key : InferenceKey) : Prop :=
  zlen ns ≤ MAX_NAMESPACE_BYTES ∧ inference_key_valid ns key ∧ inference_key_typed key.

Lemma request_encoded ns key : request_ok ns key → inference_encode_key ns key = Ok (inference_key_bytes ns key).
Proof. intros (Hns & Hv & _). destruct (inference_encode_key_spec ns key Hns) as [[-> _]|(m & _ & Hnv)]; done. Qed.

Lemma lookup_ok s ns key :
  kv_ok s → only_entries s → kv_readable s (inference_key_bytes ns key) →
  lookup_encoded (inference_key_bytes ns key) s = Ok (cached s ns key).
Proof.
  intros Hok Honly Hr. unfold lookup_encoded, cached. rewrite kv_get_law by done.
  destruct (kv_view s (inference_key_bytes ns key)) as [v|] eqn:Hv; [|done]. cbn. destruct (Honly _ _ _ Hv) as [e Hd]. by rewrite Hd.
Qed.

(** What a put leaves for its request. *)
Definition entry_left (e : InferenceEntry) (ttl_ms : option Z) : CacheLookup :=
  match ttl_ms with Some ttl_ms => if 0 <? ttl_ms then Hit e else Miss | None => Hit e end.

Lemma store_entry_ok s ns key e b ttl_ms :
  kv_ok s → only_entries s → request_ok ns key → entry_typed e → encode_entry e = Ok b →
  kv_writable s (put_write (inference_key_bytes ns key) b ttl_ms) →
  ∃ s', store_entry (inference_key_bytes ns key) b ttl_ms s = (Ok tt, s') ∧ kv_ok s' ∧ only_entries s' ∧
    ∀ ns' key', request_ok ns' key' →
      cached s' ns' key' = if decide ((ns', key') = (ns, key)) then entry_left e ttl_ms else cached s ns' key'.
Proof.
  intros Hok Honly (Hns & Hv & Htk) Hty He Hw. destruct (kv_write_law s _ Hok Hw) as (s' & Hwr & Hok' & Hview).
  exists s'. split; [unfold store_entry; unfold put_write in Hwr; by destruct ttl_ms|]. split; [done|].
  pose proof (decode_encode_entry e b Hty He) as Hd. split.
  - intros ns' key' v. rewrite Hview, put_write_written. destruct (decide _); [|apply Honly]. cbn [from_option id].
    destruct ttl_ms as [t|]; [destruct (0 <? t); [|done]|]; intros [= <-]; eauto.
  - intros ns' key' (Hns' & Hv' & Htk'). unfold cached. rewrite Hview, put_write_written.
    destruct (decide (inference_key_bytes ns' key' = inference_key_bytes ns key)) as [Heq|Hne].
    + apply inference_key_bytes_inj in Heq as [-> ->]; [|done..]. rewrite decide_True by done. unfold entry_left. cbn [from_option id].
      destruct ttl_ms as [t|]; [destruct (0 <? t); [|done]|]; by rewrite Hd.
    + by rewrite decide_False by (intros [= -> ->]; done).
Qed.

(** [C15] The inference cache implements a map from namespaces and requests to
    entries: an entry that is put is what a lookup of the same request in the same
    namespace hits, until its time to live is over; lookups of all other requests and
    namespaces answer as before; and a negative time to live or a payload above 16 MiB
    is rejected before the engine is asked. *)
Theorem inference_cache_refines_map (s : St) (ns : bytes) (key : InferenceKey) (e : InferenceEntry) (ttl_ms : option Z) :
  kv_ok s → only_entries s → request_ok ns key → entry_typed e →
  (zlen (payload e) ≤ MAX_PAYLOAD_BYTES → (match ttl_ms with Some t => 0 ≤ t | None => True end) →
   (∀ b, encode_entry e = Ok b → kv_writable s (put_write (inference_key_bytes ns key) b ttl_ms)) →
   ∃ s', inference_put {| ic_namespace := ns |} key e ttl_ms s = (Ok tt, s') ∧ kv_ok s' ∧ only_entries s' ∧
     ∀ ns' key', request_ok ns' key' → kv_readable s' (inference_key_bytes ns' key') →
       inference_get {| ic_namespace := ns' |} key' s' =
         Ok (if decide ((ns', key') = (ns, key)) then entry_left e ttl_ms else cached s ns' key')) ∧
  (MAX_PAYLOAD_BYTES < zlen (payload e) ∨ (match ttl_ms with Some t => t < 0 | None => False end) →
   ∃ message, inference_put {| ic_namespace := ns |} key e ttl_ms s = (Err (InvalidArgument message), s)).
Proof.
  intros Hok Honly Hreq Hty. unfold inference_put. cbn [ic_namespace]. rewrite request_encoded by done. split.
  - intros Hmax Httl Hw. destruct (encode_entry_ok e Hty Hmax) as [b He]. rewrite He.
    assert (validate_ttl ttl_ms = Ok tt) as -> by (destruct ttl_ms as [t|]; [cbn; by rewrite (proj2 (Z.ltb_ge _ _))|done]).
    destruct (store_entry_ok s ns key e b ttl_ms) as (s' & -> & Hok' & Honly' & Hst); [by auto..|].
    exists s'. split; [done|]. split; [done|]. split; [done|]. intros ns' key' Hr' Hread. unfold inference_get. cbn [ic_namespace].
    rewrite request_encoded, lookup_ok by done. by rewrite Hst.
  - intros Hbad. destruct (encode_entry e) as [b|err] eqn:He.
    + destruct Hbad as [Hbad|Hbad].
      * unfold encode_entry, validate_max in He. by rewrite (proj2 (Z.ltb_lt _ _)) in He by done.
      * destruct ttl_ms as [t|]; [|done]. cbn. rewrite (proj2 (Z.ltb_lt _ _)) by done. by eexists.
    + unfold encode_entry in He. destruct (validate_max_spec "payload" (zlen (payload e)) MAX_PAYLOAD_BYTES) as [[Hm _]|(m & Hm & _)];
        rewrite Hm in He; [|injection He as <-; by exists m].
      destruct (postcard_total e Hty) as [body Hb]. by rewrite Hb in He.
Qed.
End Promises.

(** ** A concrete cache *)

Definition entry_codec : codec InferenceEntry :=
  {| enc := λ e, enc vec (payload e);
     dec := λ b, match dec vec b with Some (p, b) => Some ({| payload := p |}, b) | None => None end |}.

Lemma entry_codec_ok : codec_ok entry_codec entry_typed entry_wire_len.
Proof.
  destruct vec_ok as [Hd Hb Hl]. split; [intros [p] rest Hp|intros [p] Hp..]; cbn [entry_codec enc dec payload].
  - by rewrite Hd.
  - by apply Hb.
  - by apply Hl.
Qed.

#[global] Instance entry_typed_dec e : Decision (entry_typed e).
Proof. unfold entry_typed, vec_typed. apply _. Defined.
#[global] Instance request_ok_dec ns key : Decision (request_ok ns key).
Proof.
  unfold request_ok, inference_key_valid, inference_key_typed. repeat apply and_dec; try apply _.
Defined.

Definition entry_postcard : Postcard InferenceEntry := postcard_of entry_codec entry_typed.
Lemma entry_postcard_laws : @PostcardLaws _ entry_postcard entry_typed entry_wire_len.
Proof. apply postcard_of_laws, entry_codec_ok. Qed.

(** A digest for the samples: the length of the input, in 32 bytes. *)
Definition sample_hash (input : bytes) : bytes := to_be 32 (zlen input).

Definition sample_request : InferenceKey :=
  with_parameters [([116], [48]); ([107], [])] (InferenceKey_new sample_hash [109] [49] [1; 2; 3]).

Section Sample.
  Local Existing Instance entry_postcard.
  Local Existing Instance entry_postcard_laws.

(** Witness of C16: a request and the same request of another namespace. *)
Lemma inference_keys_canonical_witness :
  zlen [110] ≤ MAX_NAMESPACE_BYTES ∧
  (inference_encode_key [110] sample_request = Ok (inference_key_bytes [110] sample_request) →
   inference_encode_key [110; 0] sample_request = Ok (inference_key_bytes [110] sample_request) → [110] = [110; 0] ∧ sample_request = sample_request) ∧
  (∀ model version input ps ps', NoDup (map fst ps) → ps ≡ₚ ps' →
     inference_encode_key [110] (with_parameters ps (InferenceKey_new sample_hash model version input)) =
     inference_encode_key [110] (with_parameters ps' (InferenceKey_new sample_hash model version input))).
Proof.
  split; [vm_compute; discriminate|].
  apply (inference_keys_canonical sample_hash [110] [110; 0] sample_request sample_request (inference_key_bytes [110] sample_request)).
  - vm_compute. discriminate.
  - vm_compute. discriminate.
  - refine (proj2 (proj2 (bool_decide_unpack (request_ok [110] sample_request) _))). vm_compute. reflexivity.
  - refine (proj2 (proj2 (bool_decide_unpack (request_ok [110] sample_request) _))). vm_compute. reflexivity.
Defined.

(** Witness of C15: an entry put into an empty store. *)
Lemma inference_cache_refines_map_witness :
  ∃ s' : MemStore, inference_put {| ic_namespace := [110] |} sample_request {| payload := [7; 8] |} (Some 5) [] = (Ok tt, s') ∧ kv_ok s' ∧ only_entries s' ∧
    ∀ ns' key', request_ok ns' key' → kv_readable s' (inference_key_bytes ns' key') →
      inference_get {| ic_namespace := ns' |} key' s' =
        Ok (if decide ((ns', key') = ([110], sample_request)) then entry_left {| payload := [7; 8] |} (Some 5) else cached ([] : MemStore) ns' key').
Proof.
  apply (inference_cache_refines_map ([] : MemStore) [110] sample_request {| payload := [7; 8] |} (Some 5)).
  - constructor.
  - intros ns key v Hv. discriminate Hv.
  - apply (bool_decide_unpack _). vm_compute. reflexivity.
  - apply (bool_decide_unpack _). vm_compute. reflexivity.
  - vm_compute. discriminate.
  - lia.
  - intros b _. exact I.
Defined.
End Sample.
