(* ===== verification/InferenceFlight.v ===== *)
(** * Inference cache: one computation for concurrent misses
      ([InferenceCache::get_or_compute] of src/crates/meteordb/src/workloads/inference_cache.rs)

    A state has the store, the map of flights, the flights by address and the calls of
    [get_or_compute] with the points between their atomic actions: a lock is taken and
    released within an action, a caller that waits on the condition variable sleeps
    until it is notified or wakes on its own.  [advance] is the next action of a call,
    [step] lets any call act, the store change by other operations, calls start, and
    sleepers wake.  Calls of one thread may act in any order, which includes the order of
    a computation that calls the cache again.  An invariant gives that a key has one
    leader at a time, that followers return what their leader returned, and that no
    sleeper is forgotten. *)

From Stdlib Require Import ZArith Lia Sorting.Sorted.
From stdpp Require Import base list gmap strings relations.
From S2P Require Import Prelude Batch ValueRecord Mvcc MemTable Iter Engine.
From S2P Require Import KvStore MemStore StoreKeys PostcardWire InferenceCache.

Local Open Scope Z_scope.

(** ** Shared errors *)

Inductive SharedError : Type :=
| SInvalidArgument (message : string)
| SIo (operation path source : string)
| SCorruption (context detail : string)
| SUnsupportedFormat (kind : string) (version : Z)
| SReentrant (operation : string)
| SLocked (path : string)
| SClosed
| SBackground (message : string)
| SWriteStall (immutable_memtables : Z).

(** [SharedError::from_error]; a panic is no [Error] and does not get here. *)
Definition from_error (e : error) : SharedError :=
  match e with
  | InvalidArgument message => SInvalidArgument message
  | Io operation path source => SIo operation path source
  | Corruption context detail => SCorruption context detail
  | UnsupportedFormat kind version => SUnsupportedFormat kind version
  | Reentrant operation => SReentrant operation
  | Locked path => SLocked path
  | Closed => SClosed
  | Background message => SBackground message
  | WriteStall immutable_memtables => SWriteStall immutable_memtables
  | Panicked message => SBackground message
  end.

(** [SharedError::into_error] *)
Definition into_error (e : SharedError) : error :=
  match e with
  | SInvalidArgument message => InvalidArgument message
  | SIo operation path source => Io operation path source
  | SCorruption context detail => Corruption context detail
  | SUnsupportedFormat kind version => UnsupportedFormat kind version
  | SReentrant operation => Reentrant operation
  | SLocked path => Locked path
  | SClosed => Closed
  | SBackground message => Background message
  | SWriteStall immutable_memtables => WriteStall immutable_memtables
  end.

Definition SharedResult : Type := InferenceEntry + SharedError.

(** How a call ends: it returns, or it resumes unwinding from a panic. *)
Inductive outcome : Type :=
| Returned (r : result InferenceEntry)
| Unwound (message : string).

(** [catch_unwind] *)
Definition settle (r : result InferenceEntry) : outcome :=
  match r with Err (Panicked message) => Unwound message | r => Returned r end.

(** What [get_or_compute] gives to [finish_flight]. *)
Definition shared (o : outcome) : SharedResult :=
  match o with
  | Returned (Ok entry) => inl entry
  | Returned (Err e) => inr (from_error e)
  | Unwound _ => inr (SBackground "inference computation panicked")
  end.

(** The end of [wait_for_flight]. *)
Definition follower_result (r : SharedResult) : result InferenceEntry :=
  match r with inl entry => Ok entry | inr e => Err (into_error e) end.

(** ** States *)

Record Flight : Type := { fl_owner : nat; fl_outcome : option SharedResult }.

(** Where a call is: before its first lookup, before it takes the lock of the flights,
    as a follower before it checks the outcome or asleep, as a leader before its second
    lookup, in the computation, before the store, and before the three actions of
    [finish_flight]. *)
Inductive point : Type :=
| PLookup
| PEnter
| PCheck (f : nat)
| PSleep (f : nat)
| PLookup2 (f : nat)
| PCompute (f : nat)
| PStore (f : nat) (entry : InferenceEntry) (encoded_entry : bytes)
| PPublish (f : nat) (o : outcome)
| PRemove (f : nat) (o : outcome)
| PNotify (f : nat) (o : outcome)
| PDone (o : outcome).

Record Call : Type := { cl_thread : nat; cl_key : bytes; cl_ttl : option Z; cl_point : point }.

Definition at_point (p : point) (call : Call) : Call :=
  {| cl_thread := cl_thread call; cl_key := cl_key call; cl_ttl := cl_ttl call; cl_point := p |}.

(** [Condvar::notify_all] *)
Definition wake (f : nat) (call : Call) : Call :=
  match cl_point call with
  | PSleep g => if decide (g = f) then at_point (PCheck f) call else call
  | _ => call
  end.

Section Flights.
  Context {St : Type} {KV : KvStore St} {PC : Postcard InferenceEntry}.

Record Cache : Type := {
  ca_store : St;
  ca_flights : gmap bytes nat;
  ca_heap : gmap nat Flight;
  ca_next : nat;
  ca_calls : list Call
}.

Definition with_calls (calls : list Call) (σ : Cache) : Cache :=
  {| ca_store := ca_store σ; ca_flights := ca_flights σ; ca_heap := ca_heap σ; ca_next := ca_next σ; ca_calls := calls |}.
Definition with_store (s : St) (σ : Cache) : Cache :=
  {| ca_store := s; ca_flights := ca_flights σ; ca_heap := ca_heap σ; ca_next := ca_next σ; ca_calls := ca_calls σ |}.
Definition with_flights (flights : gmap bytes nat) (σ : Cache) : Cache :=
  {| ca_store := ca_store σ; ca_flights := flights; ca_heap := ca_heap σ; ca_next := ca_next σ; ca_calls := ca_calls σ |}.
Definition with_heap (heap : gmap nat Flight) (σ : Cache) : Cache :=
  {| ca_store := ca_store σ; ca_flights := ca_flights σ; ca_heap := heap; ca_next := ca_next σ; ca_calls := ca_calls σ |}.
Definition with_next (next : nat) (σ : Cache) : Cache :=
  {| ca_store := ca_store σ; ca_flights := ca_flights σ; ca_heap := ca_heap σ; ca_next := next; ca_calls := ca_calls σ |}.

Definition go (c : nat) (call : Call) (p : point) (σ : Cache) : Cache :=
  with_calls (<[c := at_point p call]> (ca_calls σ)) σ.

(** The start of a call: the key is encoded and the TTL validated. *)
Definition get_or_compute_start (ns : bytes) (thread : nat) (key : InferenceKey) (ttl_ms : option Z) : Call :=
  let prepared :=
    let? encoded_key := inference_encode_key ns key in
    let? _ := validate_ttl ttl_ms in
    Ok encoded_key in
  match prepared with
  | Ok encoded_key => {| cl_thread := thread; cl_key := encoded_key; cl_ttl := ttl_ms; cl_point := PLookup |}
  | Err e => {| cl_thread := thread; cl_key := []; cl_ttl := ttl_ms; cl_point := PDone (settle (Err e)) |}
  end.

(** The block that holds the lock of the flights. *)
Definition enter_flight (c : nat) (call : Call) (σ : Cache) : option Cache :=
  match ca_flights σ !! cl_key call with
  | Some f =>
    match ca_heap σ !! f with
    | Some flight =>
      if decide (fl_owner flight = cl_thread call) then
        Some (go c call (PDone (Returned (Err (Reentrant "inference-cache get_or_compute")))) σ)
      else Some (go c call (PCheck f) σ)
    | None => None
    end
  | None =>
    let f := ca_next σ in
    Some (go c call (PLookup2 f)
      (with_flights (<[cl_key call := f]> (ca_flights σ))
        (with_heap (<[f := {| fl_owner := cl_thread call; fl_outcome := None |}]> (ca_heap σ))
          (with_next (S f) σ))))
  end.

(** The next action of a call; [computed] is what [compute] returns if it is called.
    A call that sleeps or is done has none. *)
Definition advance (c : nat) (computed : result InferenceEntry) (σ : Cache) : option Cache :=
  match ca_calls σ !! c with
  | None => None
  | Some call =>
    match cl_point call with
    | PLookup =>
      Some (match lookup_encoded (cl_key call) (ca_store σ) with
            | Ok (Hit entry) => go c call (PDone (Returned (Ok entry))) σ
            | Ok Miss => go c call PEnter σ
            | Err e => go c call (PDone (settle (Err e))) σ
            end)
    | PEnter => enter_flight c call σ
    | PCheck f =>
      match ca_heap σ !! f with
      | Some {| fl_outcome := Some r |} => Some (go c call (PDone (Returned (follower_result r))) σ)
      | Some {| fl_outcome := None |} => Some (go c call (PSleep f) σ)
      | None => None
      end
    | PSleep _ => None
    | PLookup2 f =>
      Some (match lookup_encoded (cl_key call) (ca_store σ) with
            | Ok (Hit entry) => go c call (PPublish f (Returned (Ok entry))) σ
            | Ok Miss => go c call (PCompute f) σ
            | Err e => go c call (PPublish f (settle (Err e))) σ
            end)
    | PCompute f =>
      Some (match computed with
            | Ok entry =>
              match encode_entry entry with
              | Ok encoded_entry => go c call (PStore f entry encoded_entry) σ
              | Err e => go c call (PPublish f (settle (Err e))) σ
              end
            | Err e => go c call (PPublish f (settle (Err e))) σ
            end)
    | PStore f entry encoded_entry =>
      let '(r, s) := store_entry (cl_key call) encoded_entry (cl_ttl call) (ca_store σ) in
      Some (match r with
            | Ok _ => go c call (PPublish f (Returned (Ok entry))) (with_store s σ)
            | Err e => go c call (PPublish f (settle (Err e))) (with_store s σ)
            end)
    | PPublish f o =>
      match ca_heap σ !! f with
      | Some flight =>
        Some (go c call (PRemove f o)
          (with_heap (<[f := {| fl_owner := fl_owner flight; fl_outcome := Some (shared o) |}]> (ca_heap σ)) σ))
      | None => None
      end
    | PRemove f o =>
      Some (go c call (PNotify f o)
        (if decide (ca_flights σ !! cl_key call = Some f) then with_flights (delete (cl_key call) (ca_flights σ)) σ else σ))
    | PNotify f o => Some (go c call (PDone o) (with_calls (map (wake f) (ca_calls σ)) σ))
    | PDone _ => None
    end
  end.

Inductive step (ns : bytes) : Cache → Cache → Prop :=
| step_advance c computed σ σ' : advance c computed σ = Some σ' → step ns σ σ'
| step_start thread key ttl_ms σ : step ns σ (with_calls (ca_calls σ ++ [get_or_compute_start ns thread key ttl_ms]) σ)
| step_wake c call f σ :
    ca_calls σ !! c = Some call → cl_point call = PSleep f → step ns σ (go c call (PCheck f) σ)
| step_store s σ : step ns σ (with_store s σ).

Definition initial (s : St) : Cache :=
  {| ca_store := s; ca_flights := ∅; ca_heap := ∅; ca_next := 0; ca_calls := [] |}.

Definition reachable_flights (ns : bytes) (σ : Cache) : Prop := ∃ s, rtc (step ns) (initial s) σ.
End Flights.
Arguments Cache : clear implicits.

(** ** The invariant *)

(** The flight that a call leads, with the outcome that it has published and whether
    the flight is still registered for the key. *)
Definition lead_state (p : point) : option (nat * option SharedResult * bool) :=
  match p with
  | PLookup2 f | PCompute f | PStore f _ _ | PPublish f _ => Some (f, None, true)
  | PRemove f o => Some (f, Some (shared o), true)
  | PNotify f o => Some (f, Some (shared o), false)
  | _ => None
  end.

Definition follows (p : point) : option nat := match p with PCheck f | PSleep f => Some f | _ => None end.

Section Invariant.
  Context {St : Type} {KV : KvStore St} {PC : Postcard InferenceEntry}.
Implicit Types σ : Cache St.

Definition leads σ (c f : nat) (res : option SharedResult) (reg : bool) : Prop :=
  ∃ call, ca_calls σ !! c = Some call ∧ lead_state (cl_point call) = Some (f, res, reg).

Definition leading σ (f : nat) : Prop := ∃ c res reg, leads σ c f res reg.

Definition follow_ok σ (thread : nat) (p : point) : Prop :=
  ∀ f, follows p = Some f →
    ∃ fl, ca_heap σ !! f = Some fl ∧ fl_owner fl ≠ thread ∧ (leading σ f ∨ (is_Some (fl_outcome fl) ∧ p = PCheck f)).

Record inv σ : Prop := {
  inv_next : ∀ f fl, ca_heap σ !! f = Some fl → (f < ca_next σ)%nat;
  inv_lead : ∀ c call f res reg, ca_calls σ !! c = Some call → lead_state (cl_point call) = Some (f, res, reg) →
    ca_heap σ !! f = Some {| fl_owner := cl_thread call; fl_outcome := res |} ∧
    (reg = true → ca_flights σ !! cl_key call = Some f);
  inv_unique : ∀ c c' f res res' reg reg', leads σ c f res reg → leads σ c' f res' reg' → c = c';
  inv_flights : ∀ key f, ca_flights σ !! key = Some f →
    ∃ c call res, ca_calls σ !! c = Some call ∧ cl_key call = key ∧ lead_state (cl_point call) = Some (f, res, true);
  inv_follow : ∀ c call, ca_calls σ !! c = Some call → follow_ok σ (cl_thread call) (cl_point call)
}.

Lemma inv_initial s : inv (initial s).
Proof.
  split; cbn.
  - intros f fl. by rewrite lookup_empty.
  - intros c call f res reg. by rewrite lookup_nil.
  - intros c c' f res res' reg reg' (call & Hc & _). by destruct c.
  - intros key f. by rewrite lookup_empty.
  - intros c call. by rewrite lookup_nil.
Qed.

(** A call moves and keeps what it leads; flights and outcomes stay. *)
Lemma go_leads σ c call p d f res reg :
  ca_calls σ !! c = Some call → lead_state p = lead_state (cl_point call) →
  leads (go c call p σ) d f res reg ↔ leads σ d f res reg.
Proof.
  intros Hc Hp. unfold leads. cbn. split.
  - intros (call' & Hd & Hl). apply list_lookup_insert_Some in Hd as [(<- & <- & _)|[_ Hd]]; [|eauto].
    exists call. cbn in Hl. by rewrite Hp in Hl.
  - intros (call' & Hd & Hl). destruct (decide (c = d)) as [<-|Hne].
    + rewrite Hc in Hd. injection Hd as <-. exists (at_point p call). split; [|cbn; by rewrite Hp].
      apply list_lookup_insert_eq. by eapply lookup_lt_Some.
    + exists call'. split; [|done]. by rewrite list_lookup_insert_ne.
Qed.

Lemma inv_move σ c call p :
  inv σ → ca_calls σ !! c = Some call → lead_state p = lead_state (cl_point call) →
  follow_ok σ (cl_thread call) p → inv (go c call p σ).
Proof.
  intros [Hn Hl Hu Hf Hw] Hc Hp Hfo. pose proof (λ d f res reg, go_leads σ c call p d f res reg Hc Hp) as Hgo. split.
  - exact Hn.
  - intros d call' f res reg Hd Hs. cbn in Hd. apply list_lookup_insert_Some in Hd as [(<- & <- & _)|[_ Hd]]; [|by apply (Hl d)].
    cbn in Hs |- *. rewrite Hp in Hs. by apply (Hl c).
  - intros d d' f res res' reg reg' H1%Hgo H2%Hgo. by apply (Hu d d' f res res' reg reg').
  - intros key f Hk. destruct (Hf key f Hk) as (d & call' & res & Hd & Hkey & Hs). destruct (decide (c = d)) as [<-|Hne].
    + rewrite Hc in Hd. injection Hd as <-. exists c, (at_point p call), res. cbn. rewrite Hp.
      split; [|done]. apply list_lookup_insert_eq. by eapply lookup_lt_Some.
    + exists d, call', res. cbn. by rewrite list_lookup_insert_ne.
  - assert (∀ thread q, follow_ok σ thread q → follow_ok (go c call p σ) thread q) as Hmono.
    { intros thread q Hq f Hqf. destruct (Hq f Hqf) as (fl & H1 & H2 & H3). exists fl. split; [done|]. split; [done|].
      destruct H3 as [(d & res & reg & H3)|H3]; [left|by right]. exists d, res, reg. by apply Hgo. }
    intros d call' Hd. cbn in Hd. apply list_lookup_insert_Some in Hd as [(<- & <- & _)|[_ Hd]]; apply Hmono; [done|by apply (Hw d)].
Qed.

Lemma follow_ok_none σ thread p : follows p = None → follow_ok σ thread p.
Proof. intros Hp f. by rewrite Hp. Qed.

Lemma inv_store σ s : inv σ → inv (with_store s σ).
Proof. intros [Hn Hl Hu Hf Hw]. split; done. Qed.

Lemma inv_start σ call :
  inv σ → lead_state (cl_point call) = None → follows (cl_point call) = None → inv (with_calls (ca_calls σ ++ [call]) σ).
Proof.
  intros [Hn Hl Hu Hf Hw] Hs Hfo.
  assert (∀ d call', (ca_calls σ ++ [call]) !! d = Some call' → ca_calls σ !! d = Some call' ∨ call' = call) as Hin.
  { intros d call' Hd. apply lookup_app_Some in Hd as [?|[_ Hd]]; [by left|right]. by apply list_lookup_singleton_Some in Hd as [_ ->]. }
  assert (∀ d f res reg, leads (with_calls (ca_calls σ ++ [call]) σ) d f res reg ↔ leads σ d f res reg) as Hgo.
  { intros d f res reg. split.
    - intros (call' & Hd & Hls). destruct (Hin _ _ Hd) as [Hd'| ->]; [by exists call'|]. by rewrite Hs in Hls.
    - intros (call' & Hd & Hls). exists call'. split; [|done]. cbn. by apply lookup_app_l_Some. }
  split.
  - exact Hn.
  - intros d call' f res reg Hd Hls. destruct (Hin _ _ Hd) as [Hd'| ->]; [by apply (Hl d)|]. by rewrite Hs in Hls.
  - intros d d' f res res' reg reg' H1%Hgo H2%Hgo. by apply (Hu d d' f res res' reg reg').
  - intros key f Hk. destruct (Hf key f Hk) as (d & call' & res & Hd & Hkey & Hls). exists d, call', res. split; [|done]. cbn. by apply lookup_app_l_Some.
  - intros d call' Hd. destruct (Hin _ _ Hd) as [Hd'| ->]; [|by apply follow_ok_none].
    intros f Hq. destruct (Hw d call' Hd' f Hq) as (fl & H1 & H2 & H3). exists fl. split; [done|]. split; [done|].
    destruct H3 as [(e & res & reg & H3)|H3]; [left|by right]. exists e, res, reg. by apply Hgo.
Qed.

(** Calls that move other than by [inv_move]: the rest of the state changes as well. *)
Lemma lookup_go σ c call p d call' :
  ca_calls (go c call p σ) !! d = Some call' →
  (d = c ∧ call' = at_point p call) ∨ (d ≠ c ∧ ca_calls σ !! d = Some call').
Proof. cbn. intros [(-> & <- & _)|[Hne Hd]]%list_lookup_insert_Some; auto. Qed.

Lemma lookup_go_eq σ c call p : is_Some (ca_calls σ !! c) → ca_calls (go c call p σ) !! c = Some (at_point p call).
Proof. intros [x Hx]. cbn. apply list_lookup_insert_eq. by eapply lookup_lt_Some. Qed.

Lemma lookup_go_ne σ c call p d : d ≠ c → ca_calls (go c call p σ) !! d = ca_calls σ !! d.
Proof. intros Hne. cbn. by rewrite list_lookup_insert_ne. Qed.

(** A new flight. *)
Lemma inv_enter σ c call :
  inv σ → ca_calls σ !! c = Some call → cl_point call = PEnter → ca_flights σ !! cl_key call = None →
  let f := ca_next σ in
  inv (go c call (PLookup2 f)
    (with_flights (<[cl_key call := f]> (ca_flights σ))
      (with_heap (<[f := {| fl_owner := cl_thread call; fl_outcome := None |}]> (ca_heap σ)) (with_next (S f) σ)))).
Proof.
  intros [Hn Hl Hu Hf Hw] Hc Hp Hk f.
  assert (ca_heap σ !! f = None) as Hnone by (apply eq_None_not_Some; intros [fl Hfl]; apply Hn in Hfl; unfold f in Hfl; lia).
  assert (∀ d f' res reg, leads σ d f' res reg → d ≠ c ∧ f' ≠ f) as Hold.
  { intros d f' res reg (call' & Hd & Hs). split.
    - intros ->. rewrite Hc in Hd. injection Hd as <-. by rewrite Hp in Hs.
    - intros ->. destruct (Hl _ _ _ _ _ Hd Hs) as [Hh _]. by rewrite Hnone in Hh. }
  set (σ' := go c call _ _).
  assert (∀ d call', ca_calls σ' !! d = Some call' → (d = c ∧ call' = at_point (PLookup2 f) call) ∨ (d ≠ c ∧ ca_calls σ !! d = Some call')) as Hlook.
  { intros d call' Hd. apply (lookup_go σ c call (PLookup2 f) d call' Hd). }
  assert (ca_calls σ' !! c = Some (at_point (PLookup2 f) call)) as Hself by (apply (lookup_go_eq σ); by exists call).
  assert (∀ d, d ≠ c → ca_calls σ' !! d = ca_calls σ !! d) as Hother by (intros d Hne; by apply (lookup_go_ne σ)).
  assert (∀ d f' res reg, leads σ d f' res reg → leads σ' d f' res reg) as Hkeep.
  { intros d f' res reg Hld. destruct (Hold _ _ _ _ Hld) as [Hne _]. destruct Hld as (call' & Hd & Hs). exists call'. by rewrite Hother. }
  assert (∀ d f' res reg, leads σ' d f' res reg → (d = c ∧ f' = f) ∨ leads σ d f' res reg) as Hnew.
  { intros d f' res reg (call' & Hd & Hs). destruct (Hlook _ _ Hd) as [[-> ->]|[Hne Hd']]; [left|right; by exists call'].
    by injection Hs as <- _ _. }
  split.
  - intros g fl. cbn. intros [(<- & _)|(_ & Hg%Hn)]%lookup_insert_Some; unfold f; lia.
  - intros d call' f' res reg Hd Hs. destruct (Hlook _ _ Hd) as [[-> ->]|[Hne Hd']].
    + injection Hs as <- <- <-. cbn. by rewrite !lookup_insert_eq.
    + destruct (Hold d f' res reg) as [_ Hnf]; [by exists call'|]. destruct (Hl _ _ _ _ _ Hd' Hs) as [H1 H2]. cbn.
      rewrite lookup_insert_ne by done. split; [done|]. intros Hr. specialize (H2 Hr). destruct (decide (cl_key call = cl_key call')) as [E|E]; [congruence|].
      by rewrite lookup_insert_ne.
  - intros d d' f' res res' reg reg' H1 H2. destruct (Hnew _ _ _ _ H1) as [[-> ->]|H1'], (Hnew _ _ _ _ H2) as [[-> E]|H2']; [done| | |by eapply Hu].
    + by destruct (Hold _ _ _ _ H2').
    + subst f'. by destruct (Hold _ _ _ _ H1').
  - intros key g. cbn. intros [[<- <-]|[Hne Hg]]%lookup_insert_Some.
    + exists c, (at_point (PLookup2 f) call), None. split; [exact Hself|]. done.
    + destruct (Hf key g Hg) as (d & call' & res & Hd & Hkey & Hs). exists d, call', res. split; [|done].
      destruct (Hold d g res true) as [Hdc _]; [by exists call'|]. rewrite <- (Hother d Hdc) in Hd. exact Hd.
  - intros d call' Hd. destruct (Hlook _ _ Hd) as [[-> ->]|[Hne Hd']]; [by apply follow_ok_none|].
    intros g Hg. destruct (Hw d call' Hd' g Hg) as (fl & H1 & H2 & H3). exists fl. cbn.
    rewrite lookup_insert_ne by (intros ->; congruence). split; [done|]. split; [done|].
    destruct H3 as [(e & res & reg & H3)|H3]; [left|by right]. exists e, res, reg. by apply Hkeep.
Qed.

(** A leader publishes its outcome, or takes its flight out of the map. *)
Lemma inv_lead_change σ c call p f res res' reg' heap flights :
  inv σ → ca_calls σ !! c = Some call → lead_state (cl_point call) = Some (f, res, true) → lead_state p = Some (f, res', reg') →
  heap !! f = Some {| fl_owner := cl_thread call; fl_outcome := res' |} → (∀ g, g ≠ f → heap !! g = ca_heap σ !! g) →
  flights !! cl_key call = (if reg' then Some f else None) → (∀ k, k ≠ cl_key call → flights !! k = ca_flights σ !! k) →
  inv (go c call p (with_heap heap (with_flights flights σ))).
Proof.
  intros [Hn Hl Hu Hf Hw] Hc Hs Hp Hhf Hh Hfk Hfs. set (σ' := go c call p _).
  assert (leads σ c f res true) as Hlead by (by exists call). destruct (Hl _ _ _ _ _ Hc Hs) as [Hheap Hreg]. specialize (Hreg eq_refl).
  assert (∀ d call', ca_calls σ' !! d = Some call' → (d = c ∧ call' = at_point p call) ∨ (d ≠ c ∧ ca_calls σ !! d = Some call')) as Hlook.
  { intros d call' Hd. apply (lookup_go σ c call p d call' Hd). }
  assert (ca_calls σ' !! c = Some (at_point p call)) as Hself by (apply (lookup_go_eq σ); by exists call).
  assert (∀ d, d ≠ c → ca_calls σ' !! d = ca_calls σ !! d) as Hother by (intros d Hne; by apply (lookup_go_ne σ)).
  assert (∀ d g r b, leads σ' d g r b → ∃ r' b', leads σ d g r' b') as Hback.
  { intros d g r b (call' & Hd & Hsd). destruct (Hlook _ _ Hd) as [[-> ->]|[Hne Hd']]; [|exists r, b; by exists call'].
    cbn in Hsd. rewrite Hp in Hsd. injection Hsd as <- _ _. eauto. }
  assert (∀ g, leading σ g → leading σ' g) as Hkeep.
  { intros g (d & r & b & call' & Hd & Hsd). destruct (decide (d = c)) as [->|Hne].
    - rewrite Hc in Hd. injection Hd as <-. rewrite Hs in Hsd. injection Hsd as <- _ _. exists c, res', reg'. exists (at_point p call). done.
    - exists d, r, b, call'. by rewrite Hother. }
  split.
  - intros g fl. cbn. destruct (decide (g = f)) as [->|Hne]; [intros _; by eapply Hn|]. rewrite Hh by done. apply Hn.
  - intros d call' g r b Hd Hsd. destruct (Hlook _ _ Hd) as [[-> ->]|[Hne Hd']]; cbn [go with_calls with_heap with_flights ca_heap ca_flights σ'].
    + cbn in Hsd. rewrite Hp in Hsd. injection Hsd as <- <- <-. split; [done|]. cbn. by intros ->.
    + assert (g ≠ f) as Hg by (intros ->; apply Hne; eapply Hu; [by exists call'|exact Hlead]).
      destruct (Hl _ _ _ _ _ Hd' Hsd) as [H1 H2]. rewrite Hh by done. split; [done|]. intros Hb. specialize (H2 Hb).
      rewrite Hfs; [done|]. intros E. rewrite E, Hreg in H2. congruence.
  - intros d d' g r r' b b' (r1 & b1 & H1)%Hback (r2 & b2 & H2)%Hback. by eapply Hu.
  - intros key g Hg. cbn in Hg. destruct (decide (key = cl_key call)) as [->|Hne].
    + rewrite Hfk in Hg. destruct reg'; [|done]. injection Hg as <-. exists c, (at_point p call), res'. cbn. done.
    + rewrite Hfs in Hg by done. destruct (Hf key g Hg) as (d & call' & r & Hd & Hkey & Hsd). exists d, call', r. split; [|done].
      rewrite Hother; [done|]. intros ->. rewrite Hc in Hd. injection Hd as <-. congruence.
  - intros d call' Hd. destruct (Hlook _ _ Hd) as [[-> ->]|[Hne Hd']]; [apply follow_ok_none; cbn; by destruct p|].
    intros g Hg. destruct (Hw d call' Hd' g Hg) as (fl & H1 & H2 & H3).
    destruct (decide (g = f)) as [->|Hgf].
    + rewrite Hheap in H1. injection H1 as <-. exists {| fl_owner := cl_thread call; fl_outcome := res' |}. split; [exact Hhf|]. split; [done|].
      left. apply Hkeep. by exists c, res, true.
    + exists fl. cbn. rewrite Hh by done. split; [done|]. split; [done|]. destruct H3 as [H3|H3]; [left; by apply Hkeep|by right].
Qed.

Lemma wake_lead f call : lead_state (cl_point (wake f call)) = lead_state (cl_point call).
Proof. unfold wake. destruct (cl_point call) eqn:E; rewrite ?E; try done. destruct (decide (_ = f)); cbn; by rewrite ?E. Qed.

Lemma wake_same f call : cl_thread (wake f call) = cl_thread call ∧ cl_key (wake f call) = cl_key call.
Proof. unfold wake. destruct (cl_point call); try done. by destruct (decide (_ = f)). Qed.

(** A leader wakes its followers and is done. *)
Lemma inv_notify σ c call f o :
  inv σ → ca_calls σ !! c = Some call → cl_point call = PNotify f o →
  inv (go c call (PDone o) (with_calls (map (wake f) (ca_calls σ)) σ)).
Proof.
  intros [Hn Hl Hu Hf Hw] Hc Hp. set (σ' := go c call _ _).
  assert (lead_state (cl_point call) = Some (f, Some (shared o), false)) as Hs by (by rewrite Hp).
  destruct (Hl _ _ _ _ _ Hc Hs) as [Hheap _].
  assert (∀ d call', ca_calls σ' !! d = Some call' →
    (d = c ∧ call' = at_point (PDone o) call) ∨ (d ≠ c ∧ ∃ call0, ca_calls σ !! d = Some call0 ∧ call' = wake f call0)) as Hlook.
  { intros d call' Hd. apply (lookup_go (with_calls (map (wake f) (ca_calls σ)) σ)) in Hd as [?|[Hne Hd]]; [by left|right].
    split; [done|]. cbn in Hd. apply list_lookup_fmap_Some in Hd as (x & -> & Hx). eauto. }
  assert (∀ d call0, d ≠ c → ca_calls σ !! d = Some call0 → ca_calls σ' !! d = Some (wake f call0)) as Hother.
  { intros d call0 Hne Hd. unfold σ'. rewrite lookup_go_ne by done. cbn. by rewrite list_lookup_fmap, Hd. }
  assert (∀ d g r b, leads σ' d g r b → d ≠ c ∧ leads σ d g r b) as Hback.
  { intros d g r b (call' & Hd & Hsd). destruct (Hlook _ _ Hd) as [[-> ->]|(Hne & call0 & Hd0 & ->)]; [done|].
    split; [done|]. exists call0. by rewrite wake_lead in Hsd. }
  assert (∀ d g r b, d ≠ c → leads σ d g r b → leads σ' d g r b) as Hkeep.
  { intros d g r b Hne (call0 & Hd & Hsd). exists (wake f call0). rewrite wake_lead. by rewrite (Hother d call0). }
  split.
  - exact Hn.
  - intros d call' g r b Hd Hsd. destruct (Hlook _ _ Hd) as [[-> ->]|(Hne & call0 & Hd0 & ->)]; [done|].
    rewrite wake_lead in Hsd. destruct (wake_same f call0) as [-> ->]. by apply (Hl d).
  - intros d d' g r r' b b' [_ H1]%Hback [_ H2]%Hback. by eapply Hu.
  - intros key g Hg. destruct (Hf key g Hg) as (d & call0 & r & Hd & Hkey & Hsd). exists d, (wake f call0), r.
    rewrite wake_lead. destruct (wake_same f call0) as [_ ->]. split; [|done]. apply Hother; [|done].
    intros ->. rewrite Hc in Hd. injection Hd as <-. by rewrite Hp in Hsd.
  - intros d call' Hd. destruct (Hlook _ _ Hd) as [[-> ->]|(Hne & call0 & Hd0 & ->)]; [by apply follow_ok_none|].
    destruct (wake_same f call0) as [-> _]. intros g Hg.
    assert (follows (cl_point call0) = Some g) as Hg0.
    { unfold wake in Hg. destruct (cl_point call0) as [| |x|x| | | | | | | ] eqn:E; rewrite ?E in Hg; try done.
      destruct (decide (x = f)) as [->|]; [|by rewrite E in Hg]. done. }
    destruct (Hw d call0 Hd0 g Hg0) as (fl & H1 & H2 & H3). exists fl. split; [done|]. split; [done|].
    destruct (decide (g = f)) as [->|Hgf].
    + right. rewrite Hheap in H1. injection H1 as <-. split; [by eexists|].
      unfold wake. destruct (cl_point call0) as [| |x|x| | | | | | | ] eqn:E; try done; cbn in Hg0; injection Hg0 as ->; [by rewrite E|].
      by rewrite decide_True.
    + destruct H3 as [(e & r & b & H3)|[H3 H4]].
      * left. exists e, r, b. apply Hkeep; [|done]. intros ->. destruct H3 as (call' & H3 & H5). rewrite Hc in H3. injection H3 as <-.
        rewrite Hs in H5. congruence.
      * right. split; [done|]. unfold wake. by rewrite H4.
Qed.

(** Every step keeps the invariant. *)
Lemma inv_advance σ σ' c computed : inv σ → advance c computed σ = Some σ' → inv σ'.
Proof.
  intros Hinv. unfold advance. destruct (ca_calls σ !! c) as [call|] eqn:Hc; [|done].
  assert (∀ p, lead_state p = lead_state (cl_point call) → follows p = None → inv (go c call p σ)) as Hmove.
  { intros p Hp Hf. apply inv_move; [done..|by apply follow_ok_none]. }
  destruct (cl_point call) as [| |f|f|f|f|f e b|f o|f o|f o|o] eqn:Hp; try done.
  - intros [= <-]. destruct (lookup_encoded _ _) as [[|e]|e]; by apply Hmove.
  - unfold enter_flight. destruct (ca_flights σ !! cl_key call) as [f|] eqn:Hf.
    + destruct (inv_flights σ Hinv _ _ Hf) as (d & call' & res & Hd & Hkey & Hs).
      destruct (inv_lead σ Hinv _ _ _ _ _ Hd Hs) as [Hheap _]. rewrite Hheap. cbn. destruct (decide _) as [|Hne]; intros [= <-]; [by apply Hmove|].
      apply inv_move; [done|done|by rewrite Hp|]. intros g [= <-]. exists {| fl_owner := cl_thread call'; fl_outcome := res |}. split; [done|]. split; [done|].
      left. exists d, res, true, call'. done.
    + intros [= <-]. by apply inv_enter.
  - pose proof (inv_follow σ Hinv _ _ Hc f) as Hfo. rewrite Hp in Hfo. destruct (Hfo eq_refl) as (fl & Hheap & Hown & Hl). rewrite Hheap.
    destruct fl as [owner [r|]]; intros [= <-]; [by apply Hmove|]. apply inv_move; [done|done|by rewrite Hp|].
    intros g [= <-]. exists {| fl_owner := owner; fl_outcome := None |}. split; [done|]. split; [done|]. destruct Hl as [Hl|[[x Hx] _]]; [by left|done].
  - intros [= <-]. destruct (lookup_encoded _ _) as [[|e]|e]; by apply Hmove.
  - intros [= <-]. destruct computed as [e|e]; [destruct (encode_entry e)|]; by apply Hmove.
  - destruct (store_entry _ _ _ _) as [r s]. intros [= <-]. destruct r; (apply inv_move; [by apply inv_store|done|by rewrite Hp|by apply follow_ok_none]).
  - destruct (inv_lead σ Hinv _ _ f None true Hc) as [Hheap Hreg]; [by rewrite Hp|]. rewrite Hheap. cbn. intros [= <-].
    apply (inv_lead_change σ c call (PRemove f o) f None (Some (shared o)) true _ (ca_flights σ)); [done|done|by rewrite Hp|done| | |by apply Hreg|done].
    + by rewrite lookup_insert_eq.
    + intros g Hg. by rewrite lookup_insert_ne.
  - destruct (inv_lead σ Hinv _ _ f (Some (shared o)) true Hc) as [Hheap Hreg]; [by rewrite Hp|]. rewrite decide_True by (by apply Hreg).
    intros [= <-]. apply (inv_lead_change σ c call (PNotify f o) f (Some (shared o)) (Some (shared o)) false (ca_heap σ) (delete (cl_key call) (ca_flights σ))); [done|done|by rewrite Hp|done|done|done| |].
    + apply lookup_delete_eq.
    + intros k Hk. by rewrite lookup_delete_ne.
  - intros [= <-]. by apply inv_notify.
Qed.

Lemma start_idle ns thread key ttl_ms :
  lead_state (cl_point (get_or_compute_start ns thread key ttl_ms)) = None ∧
  follows (cl_point (get_or_compute_start ns thread key ttl_ms)) = None.
Proof. unfold get_or_compute_start. destruct (inference_encode_key ns key); [|done]. by destruct (validate_ttl ttl_ms). Qed.

Lemma inv_step ns σ σ' : inv σ → step ns σ σ' → inv σ'.
Proof.
  intros Hinv Hs. revert Hinv. destruct Hs as [c computed τ τ' Ha|thread key ttl_ms τ|c call f τ Hc Hp|s τ]; intros Hinv.
  - exact (inv_advance _ _ _ _ Hinv Ha).
  - destruct (start_idle ns thread key ttl_ms). by apply inv_start.
  - apply inv_move; [done|done|by rewrite Hp|]. pose proof (inv_follow τ Hinv _ _ Hc) as Hf. rewrite Hp in Hf.
    intros g [= <-]. destruct (Hf f eq_refl) as (fl & H1 & H2 & [H3|[_ H3]]); [|done]. exists fl. auto.
  - by apply inv_store.
Qed.

Lemma inv_reachable ns σ : reachable_flights ns σ → inv σ.
Proof.
  intros [s Hr]. assert (inv (initial s)) as Hi by apply inv_initial. revert Hi.
  induction Hr as [τ|τ1 τ2 τ3 Hs _ IH]; [done|]. intros Hi. apply IH. by eapply inv_step.
Qed.
End Invariant.

(** ** Followers return what their leader returned *)

Section Results.
  Context {St : Type} {KV : KvStore St} {PC : Postcard InferenceEntry}.
Implicit Types σ : Cache St.

(** A call that another one leaves where it is, up to a wake-up. *)
Definition kept (call call' : Call) : Prop := call' = call ∨ ∃ f, call' = wake f call.

Lemma kept_lead call call' : kept call call' → lead_state (cl_point call') = lead_state (cl_point call).
Proof. intros [-> |[f ->]]; [done|apply wake_lead]. Qed.

Lemma kept_follows call call' : kept call call' → follows (cl_point call') = follows (cl_point call).
Proof.
  intros [-> |[f ->]]; [done|]. unfold wake. destruct (cl_point call) as [| |x|x| | | | | | | ] eqn:E; rewrite ?E; try done.
  destruct (decide (x = f)) as [->|]; cbn; by rewrite ?E.
Qed.

Lemma kept_done call call' o : kept call call' → cl_point call = PDone o → cl_point call' = PDone o.
Proof. intros [-> |[f ->]] Hp; [done|]. unfold wake. by rewrite Hp. Qed.

Lemma advance_other σ σ' c d computed call :
  advance d computed σ = Some σ' → c ≠ d → ca_calls σ !! c = Some call → ∃ call', ca_calls σ' !! c = Some call' ∧ kept call call'.
Proof.
  intros Ha Hne Hc. unfold advance in Ha. destruct (ca_calls σ !! d) as [cd|] eqn:Hd; [|done].
  assert (∀ (τ : Cache St) p, ca_calls τ = ca_calls σ → ∃ call', ca_calls (go d cd p τ) !! c = Some call' ∧ kept call call') as Hgo.
  { intros τ p Hτ. exists call. rewrite lookup_go_ne, Hτ by done. by split; [|left]. }
  destruct (cl_point cd); try done;
    repeat match goal with
    | H : Some _ = Some _ |- _ => injection H as <-
    | H : context [enter_flight] |- _ => unfold enter_flight in H
    | H : (let '(_, _) := ?x in _) = Some _ |- _ => destruct x
    | H : match ?x with _ => _ end = Some _ |- _ => destruct x; try done
    | |- context [match ?x with _ => _ end] => destruct x
    end; try (by apply Hgo).
  exists (wake f call). rewrite lookup_go_ne by done. cbn. rewrite list_lookup_fmap, Hc. split; [done|]. right. by exists f.
Qed.

(** Outcomes are written once. *)
Lemma outcome_stays ns σ σ' f owner r :
  inv σ → step ns σ σ' → ca_heap σ !! f = Some {| fl_owner := owner; fl_outcome := Some r |} →
  ca_heap σ' !! f = Some {| fl_owner := owner; fl_outcome := Some r |}.
Proof.
  intros Hinv Hs. revert Hinv. destruct Hs as [c computed τ τ' Ha| | | ]; intros Hinv Hf; [|done..].
  unfold advance in Ha. destruct (ca_calls τ !! c) as [call|] eqn:Hc; [|done]. destruct (cl_point call) as [| |g|g|g|g|g e b|g o|g o|g o|o] eqn:Hp; try done.
  all: try (injection Ha as <-; destruct (lookup_encoded _ _) as [[]|]; done).
  - unfold enter_flight in Ha. destruct (ca_flights τ !! cl_key call) as [g|].
    + destruct (ca_heap τ !! g) as [fl|]; [|done]. destruct (decide _); by injection Ha as <-.
    + injection Ha as <-. cbn. rewrite lookup_insert_ne; [done|]. intros <-. apply (inv_next τ Hinv) in Hf. lia.
  - destruct (ca_heap τ !! g) as [[? []]|]; [..|done]; by injection Ha as <-.
  - injection Ha as <-. destruct computed as [e|]; [destruct (encode_entry e)|]; done.
  - destruct (store_entry _ _ _ _) as [[] s]; by injection Ha as <-.
  - destruct (inv_lead τ Hinv _ _ g None true Hc) as [Hheap _]; [by rewrite Hp|]. rewrite Hheap in Ha. injection Ha as <-. cbn.
    rewrite lookup_insert_ne; [done|]. intros ->. congruence.
  - destruct (decide _); by injection Ha as <-.
  - by injection Ha as <-.
Qed.

(** A call leads a flight or is done with what the flight's outcome was made from. *)
Definition led σ (c f : nat) : Prop :=
  (∃ res reg, leads σ c f res reg) ∨
  ∃ call o owner, ca_calls σ !! c = Some call ∧ cl_point call = PDone o ∧
    ca_heap σ !! f = Some {| fl_owner := owner; fl_outcome := Some (shared o) |}.

(** A call follows a flight or is done with its outcome. *)
Definition followed σ (c f : nat) : Prop :=
  (∃ call, ca_calls σ !! c = Some call ∧ follows (cl_point call) = Some f) ∨
  ∃ call r owner, ca_calls σ !! c = Some call ∧ cl_point call = PDone (Returned (follower_result r)) ∧
    ca_heap σ !! f = Some {| fl_owner := owner; fl_outcome := Some r |}.

(** What happens to the calls other than by their own actions. *)
Lemma step_kept ns σ σ' c call :
  step ns σ σ' → ca_calls σ !! c = Some call →
  (∃ call', ca_calls σ' !! c = Some call' ∧ kept call call') ∨ (∃ computed, advance c computed σ = Some σ') ∨
  (∃ f, cl_point call = PSleep f ∧ σ' = go c call (PCheck f) σ).
Proof.
  intros Hs. destruct Hs as [d computed τ τ' Ha|thread key ttl_ms τ|d call' f τ Hd Hp|s τ]; intros Hc.
  - destruct (decide (c = d)) as [->|Hne]; [right; left; by exists computed|]. left. by eapply advance_other.
  - left. exists call. split; [cbn; by apply lookup_app_l_Some|by left].
  - destruct (decide (c = d)) as [->|Hne].
    + right. right. rewrite Hd in Hc. injection Hc as <-. by exists f.
    + left. exists call. rewrite lookup_go_ne by done. by split; [|left].
  - left. exists call. by split; [|left].
Qed.

Lemma led_step ns σ σ' c f : inv σ → step ns σ σ' → led σ c f → led σ' c f.
Proof.
  intros Hinv Hs [(res & reg & call & Hc & Hl)|(call & o & owner & Hc & Hp & Hh)].
  - destruct (step_kept _ _ _ _ _ Hs Hc) as [(call' & Hc' & Hk)|[[computed Ha]|(g & Hp & _)]]; [| |by rewrite Hp in Hl].
    + left. exists res, reg, call'. by rewrite (kept_lead _ _ Hk).
    + destruct (inv_lead σ Hinv _ _ _ _ _ Hc Hl) as [Hheap _]. unfold advance in Ha. rewrite Hc in Ha.
      assert (∀ (τ : Cache St) p x y, ca_calls τ = ca_calls σ → lead_state p = Some (f, x, y) → led (go c call p τ) c f) as Hstill.
      { intros τ p x y Hτ Hp. left. exists x, y, (at_point p call). split; [|done]. apply lookup_go_eq. rewrite Hτ. by exists call. }
      destruct (cl_point call) as [| |g|g|g|g|g e b|g o|g o|g o|o] eqn:Hp; try done; cbn in Hl; injection Hl as -> <- <-.
      * injection Ha as <-. destruct (lookup_encoded _ _) as [[]|]; by eapply Hstill.
      * injection Ha as <-. destruct computed as [e|]; [destruct (encode_entry e)|]; by eapply Hstill.
      * destruct (store_entry _ _ _ _) as [[] s]; injection Ha as <-; by eapply Hstill.
      * rewrite Hheap in Ha. injection Ha as <-. by eapply Hstill.
      * injection Ha as <-. destruct (decide _); by eapply Hstill.
      * injection Ha as <-. right. exists (at_point (PDone o) call), o, (cl_thread call). split; [|done].
        apply lookup_go_eq. cbn. rewrite list_lookup_fmap, Hc. by eexists.
  - right. pose proof (outcome_stays _ _ _ _ _ _ Hinv Hs Hh) as Hh'.
    destruct (step_kept _ _ _ _ _ Hs Hc) as [(call' & Hc' & Hk)|[[computed Ha]|(g & Hp' & _)]]; [| |by rewrite Hp in Hp'].
    + exists call', o, owner. by rewrite (kept_done _ _ _ Hk Hp).
    + unfold advance in Ha. by rewrite Hc, Hp in Ha.
Qed.

Lemma followed_step ns σ σ' c f : inv σ → step ns σ σ' → followed σ c f → followed σ' c f.
Proof.
  intros Hinv Hs [(call & Hc & Hl)|(call & r & owner & Hc & Hp & Hh)].
  - destruct (step_kept _ _ _ _ _ Hs Hc) as [(call' & Hc' & Hk)|[[computed Ha]|(g & Hp & ->)]].
    + left. exists call'. by rewrite (kept_follows _ _ Hk).
    + unfold advance in Ha. rewrite Hc in Ha. destruct (cl_point call) as [| |g|g|g|g|g e b|g o|g o|g o|o] eqn:Hp; try done. cbn in Hl. injection Hl as ->.
      destruct (ca_heap σ !! f) as [[owner [r|]]|] eqn:Hh; [..|done]; injection Ha as <-.
      * right. exists (at_point (PDone (Returned (follower_result r))) call), r, owner. split; [|done]. apply lookup_go_eq. by exists call.
      * left. exists (at_point (PSleep f) call). split; [|done]. apply lookup_go_eq. by exists call.
    + rewrite Hp in Hl. injection Hl as ->. left. exists (at_point (PCheck f) call). split; [|done]. apply lookup_go_eq. by exists call.
  - right. pose proof (outcome_stays _ _ _ _ _ _ Hinv Hs Hh) as Hh'.
    destruct (step_kept _ _ _ _ _ Hs Hc) as [(call' & Hc' & Hk)|[[computed Ha]|(g & Hp' & _)]]; [| |by rewrite Hp in Hp'].
    + exists call', r, owner. by rewrite (kept_done _ _ _ Hk Hp).
    + unfold advance in Ha. by rewrite Hc, Hp in Ha.
Qed.

Lemma rtc_keeps ns (P : Cache St → Prop) σ σ' :
  (∀ τ τ', inv τ → step ns τ τ' → P τ → P τ') → inv σ → rtc (step ns) σ σ' → P σ → P σ'.
Proof.
  intros HP Hinv Hr. revert Hinv. induction Hr as [τ|τ1 τ2 τ3 Hs _ IH]; [done|]. intros Hinv Hτ. apply IH; [by eapply inv_step|by eapply HP].
Qed.

(** [C8] One caller computes: at no time do two calls lead a computation for the same
    key, so that concurrent misses of a key run its computation one at a time, whatever
    the interleaving of callers, wake-ups and other writes. *)
Theorem one_leader_per_key (ns : bytes) (σ : Cache St) (c c' : nat) (call call' : Call) (f f' : nat) (r r' : option SharedResult) :
  reachable_flights ns σ →
  ca_calls σ !! c = Some call → lead_state (cl_point call) = Some (f, r, true) →
  ca_calls σ !! c' = Some call' → lead_state (cl_point call') = Some (f', r', true) →
  cl_key call = cl_key call' → c = c'.
Proof.
  intros Hr Hc Hl Hc' Hl' Hk. pose proof (inv_reachable ns σ Hr) as Hinv.
  destruct (inv_lead σ Hinv _ _ _ _ _ Hc Hl) as [_ H1]. destruct (inv_lead σ Hinv _ _ _ _ _ Hc' Hl') as [_ H2].
  specialize (H1 eq_refl). specialize (H2 eq_refl). rewrite Hk, H2 in H1. injection H1 as <-.
  eapply (inv_unique σ Hinv c c' f'); [by exists call|by exists call'].
Qed.

(** [C10] Followers share the leader's result: a call that joined the flight of another
    call ends, however the calls interleave, with the leader's entry or the leader's
    error, and with a background error when the leader's computation panicked. *)
Theorem followers_share_result (ns : bytes) (σ σ' : Cache St) (c c' f : nat) (call call' lead follow : Call)
    (r : option SharedResult) (reg : bool) (o o' : outcome) :
  reachable_flights ns σ → rtc (step ns) σ σ' →
  ca_calls σ !! c = Some call → lead_state (cl_point call) = Some (f, r, reg) →
  ca_calls σ !! c' = Some call' → follows (cl_point call') = Some f →
  ca_calls σ' !! c = Some lead → cl_point lead = PDone o →
  ca_calls σ' !! c' = Some follow → cl_point follow = PDone o' →
  o' = Returned (follower_result (shared o)) ∧
  match o with
  | Returned (Ok entry) => o' = Returned (Ok entry)
  | Returned (Err (Panicked _)) => True
  | Returned (Err e) => o' = Returned (Err e)
  | Unwound _ => o' = Returned (Err (Background "inference computation panicked"))
  end.
Proof.
  intros Hr Hrtc Hc Hl Hc' Hf Hd Hdo Hd' Hdo'. pose proof (inv_reachable ns σ Hr) as Hinv.
  assert (led σ' c f) as HA.
  { eapply (rtc_keeps ns (λ τ, led τ c f)); [|exact Hinv|exact Hrtc|]; [intros; by eapply led_step|left; by exists r, reg, call]. }
  assert (followed σ' c' f) as HB.
  { eapply (rtc_keeps ns (λ τ, followed τ c' f)); [|exact Hinv|exact Hrtc|]; [intros; by eapply followed_step|left; by exists call']. }
  destruct HA as [(? & ? & x & Hx & Hx')|(x & o1 & owner & Hx & Hxo & Hh)]; rewrite Hd in Hx; injection Hx as <-; [by rewrite Hdo in Hx'|].
  destruct HB as [(y & Hy & Hy')|(y & r1 & owner' & Hy & Hyo & Hh')]; rewrite Hd' in Hy; injection Hy as <-; [by rewrite Hdo' in Hy'|].
  rewrite Hdo in Hxo. injection Hxo as <-. rewrite Hdo' in Hyo. injection Hyo as ->. rewrite Hh in Hh'. injection Hh' as <- <-.
  split; [done|]. destruct o as [[e|[]]|m]; done.
Qed.
End Results.

(** ** Every call ends *)

Section Termination.
  Context {St : Type} {KV : KvStore St} {PC : Postcard InferenceEntry}.
Implicit Types σ : Cache St.

(** Actions left to a call, and checks left to a follower that is awake. *)
Definition remaining (p : point) : nat :=
  match p with
  | PLookup => 9 | PEnter => 8 | PLookup2 _ => 7 | PCompute _ => 6 | PStore _ _ _ => 5 | PPublish _ _ => 4
  | PRemove _ _ => 3 | PNotify _ _ => 2 | PCheck _ | PSleep _ => 1 | PDone _ => 0
  end.
Definition awake (p : point) : nat := match p with PCheck _ => 1 | _ => 0 end.

Definition total (g : point → nat) σ : nat := sum_list (map (λ call, g (cl_point call)) (ca_calls σ)).

(** A call acts. *)
Definition runs σ σ' : Prop := ∃ c computed, advance c computed σ = Some σ'.

Definition all_done σ : Prop := ∀ c call, ca_calls σ !! c = Some call → ∃ o, cl_point call = PDone o.

Lemma total_go g σ c call p :
  ca_calls σ !! c = Some call → (total g (go c call p σ) + g (cl_point call) = total g σ + g p)%nat.
Proof.
  unfold total. cbn [go with_calls ca_calls]. generalize (ca_calls σ). intros l. revert c. induction l as [|x l IH]; intros [|c] Hc; try done.
  - injection Hc as ->. cbn. lia.
  - specialize (IH c Hc). change (<[S c := at_point p call]> (x :: l)) with (x :: <[c := at_point p call]> l). cbn [map].
    unfold sum_list in *. cbn [sum_list_with id] in *. lia.
Qed.

Lemma total_wake f l :
  sum_list (map (λ call, remaining (cl_point call)) (map (wake f) l)) = sum_list (map (λ call, remaining (cl_point call)) l).
Proof.
  induction l as [|x l IH]; cbn; [done|]. rewrite IH. f_equal. unfold wake. destruct (cl_point x) as [| |g|g| | | | | | | ] eqn:E; rewrite ?E; try done.
  destruct (decide (g = f)); cbn; by rewrite ?E.
Qed.

(** An action uses one up, or a check that puts a follower to sleep. *)
Lemma advance_total σ σ' c computed :
  advance c computed σ = Some σ' →
  (total remaining σ' < total remaining σ)%nat ∨ (total remaining σ' = total remaining σ ∧ total awake σ' < total awake σ)%nat.
Proof.
  unfold advance. destruct (ca_calls σ !! c) as [call|] eqn:Hc; [|done].
  assert (∀ (τ : Cache St) p, ca_calls τ = ca_calls σ → (remaining p < remaining (cl_point call))%nat →
    (total remaining (go c call p τ) < total remaining σ)%nat) as Hdec.
  { intros τ p Hτ Hlt. pose proof (total_go remaining τ c call p) as Ht. rewrite Hτ in Ht. specialize (Ht Hc).
    assert (total remaining τ = total remaining σ) as He by (unfold total; by rewrite Hτ). lia. }
  destruct (cl_point call) as [| |f|f|f|f|f e b|f o|f o|f o|o] eqn:Hp; try done; intros Ha.
  - left. injection Ha as <-. destruct (lookup_encoded _ _) as [[]|]; apply Hdec; cbn; (done || lia).
  - left. unfold enter_flight in Ha. destruct (ca_flights σ !! cl_key call) as [f|].
    + destruct (ca_heap σ !! f); [|done]. destruct (decide _); injection Ha as <-; apply Hdec; cbn; (done || lia).
    + injection Ha as <-. apply Hdec; cbn; (done || lia).
  - destruct (ca_heap σ !! f) as [[? []]|]; [..|done]; injection Ha as <-; [left; apply Hdec; cbn; (done || lia)|right].
    pose proof (total_go remaining σ c call (PSleep f) Hc) as H1. pose proof (total_go awake σ c call (PSleep f) Hc) as H2.
    rewrite Hp in H1, H2. cbn [remaining awake] in H1, H2. lia.
  - left. injection Ha as <-. destruct (lookup_encoded _ _) as [[]|]; apply Hdec; cbn; (done || lia).
  - left. injection Ha as <-. destruct computed as [e|]; [destruct (encode_entry e)|]; apply Hdec; cbn; (done || lia).
  - left. destruct (store_entry _ _ _ _) as [[] s]; injection Ha as <-; apply Hdec; cbn; (done || lia).
  - left. destruct (ca_heap σ !! f); [|done]. injection Ha as <-. apply Hdec; cbn; (done || lia).
  - left. injection Ha as <-. destruct (decide _); apply Hdec; cbn; (done || lia).
  - left. injection Ha as <-. pose proof (total_go remaining (with_calls (map (wake f) (ca_calls σ)) σ) c (wake f call) (PDone o)) as Ht.
    cbn [with_calls ca_calls] in Ht. rewrite list_lookup_fmap, Hc in Ht. specialize (Ht eq_refl).
    assert (wake f call = call) as Hw by (unfold wake; by rewrite Hp). rewrite Hw, Hp in Ht.
    assert (total remaining (with_calls (map (wake f) (ca_calls σ)) σ) = total remaining σ) as He by apply total_wake.
    rewrite He in Ht. cbn [remaining] in Ht. lia.
Qed.

Lemma runs_terminate σ : Acc (flip runs) σ.
Proof.
  remember (total remaining σ) as n eqn:Hn. revert σ Hn. induction n as [n IHn] using lt_wf_ind. intros σ Hn.
  remember (total awake σ) as m eqn:Hm. revert σ Hn Hm. induction m as [m IHm] using lt_wf_ind. intros σ Hn Hm. constructor.
  intros σ' (c & computed & Ha). destruct (advance_total _ _ _ _ Ha) as [Hlt|[Heq Hlt]].
  - apply (IHn (total remaining σ')); [lia|done].
  - apply (IHm (total awake σ')); lia.
Qed.

(** A call that is neither asleep nor done can act. *)
Lemma can_act σ c call computed :
  inv σ → ca_calls σ !! c = Some call → (∀ f, cl_point call ≠ PSleep f) → (∀ o, cl_point call ≠ PDone o) →
  is_Some (advance c computed σ).
Proof.
  intros Hinv Hc Hns Hnd. unfold advance. rewrite Hc. destruct (cl_point call) as [| |f|f|f|f|f e b|f o|f o|f o|o] eqn:Hp; try (by eexists).
  - unfold enter_flight. destruct (ca_flights σ !! cl_key call) as [f|] eqn:Hf; [|by eexists].
    destruct (inv_flights σ Hinv _ _ Hf) as (d & call' & res & Hd & _ & Hs). destruct (inv_lead σ Hinv _ _ _ _ _ Hd Hs) as [-> _].
    destruct (decide _); by eexists.
  - pose proof (inv_follow σ Hinv _ _ Hc f) as Hfo. rewrite Hp in Hfo. destruct (Hfo eq_refl) as ([owner [r|]] & -> & _); by eexists.
  - by destruct (Hns f).
  - destruct (store_entry _ _ _ _). by eexists.
  - destruct (inv_lead σ Hinv _ _ f None true Hc) as [-> _]; [by rewrite Hp|]. by eexists.
  - by destruct (Hnd o).
Qed.

(** The leader of a sleeper is another thread's call, and it can act. *)
Lemma sleeper_has_leader σ c call f computed :
  inv σ → ca_calls σ !! c = Some call → cl_point call = PSleep f →
  ∃ d call', ca_calls σ !! d = Some call' ∧ cl_thread call' ≠ cl_thread call ∧ is_Some (advance d computed σ).
Proof.
  intros Hinv Hc Hp. pose proof (inv_follow σ Hinv _ _ Hc f) as Hfo. rewrite Hp in Hfo.
  destruct (Hfo eq_refl) as (fl & Hh & Hown & [(d & r & b & call' & Hd & Hl)|[_ ?]]); [|done].
  exists d, call'. split; [done|]. destruct (inv_lead σ Hinv _ _ _ _ _ Hd Hl) as [Hh' _]. rewrite Hh in Hh'. injection Hh' as ->.
  split; [done|]. eapply can_act; [done|done|..]; intros x Hx; by rewrite Hx in Hl.
Qed.

Lemma stuck_done σ : inv σ → (∀ σ', ¬ runs σ σ') → all_done σ.
Proof.
  intros Hinv Hstuck c call Hc. set (any := Err Closed : result InferenceEntry).
  assert (∀ d, ¬ is_Some (advance d any σ)) as Hno by (intros d [σ' Ha]; apply (Hstuck σ'); by exists d, any).
  destruct (cl_point call) as [| |f|f|f|f|f e b|f o|f o|f o|o] eqn:Hp; [| | | | | | | | | |by exists o].
  4: destruct (sleeper_has_leader σ c call f any Hinv Hc Hp) as (d & _ & _ & _ & Hd); by destruct (Hno d).
  all: destruct (Hno c); eapply can_act; [done|done|..]; intros x Hx; by rewrite Hp in Hx.
Qed.

End Termination.

(** ** A concrete run *)

Section Sample.
  Local Existing Instance entry_postcard.

Fixpoint drive (schedule : list (nat * result InferenceEntry)) (σ : Cache MemStore) : option (Cache MemStore) :=
  match schedule with
  | [] => Some σ
  | (c, computed) :: schedule => match advance c computed σ with Some σ' => drive schedule σ' | None => None end
  end.

Lemma drive_rtc ns schedule σ σ' : drive schedule σ = Some σ' → rtc (step ns) σ σ'.
Proof.
  revert σ. induction schedule as [|[c computed] schedule IH]; intros σ; cbn [drive]; [intros [= ->]; apply rtc_refl|].
  destruct (advance c computed σ) as [τ|] eqn:Ha; [|done]. intros Hd. eapply rtc_l; [by eapply step_advance|by apply IH].
Qed.

Definition sample_calls : Cache MemStore :=
  with_calls [get_or_compute_start [110] 1 sample_request None; get_or_compute_start [110] 2 sample_request None] (initial []).

Definition sample_entry : result InferenceEntry := Ok {| payload := [7; 8] |}.

(** Both calls miss; the first leads, the second goes to sleep. *)
Definition sample_joined : Cache MemStore :=
  default sample_calls (drive [(0%nat, sample_entry); (1%nat, sample_entry); (0%nat, sample_entry); (1%nat, sample_entry); (1%nat, sample_entry)] sample_calls).

(** The leader computes, stores and publishes, the follower wakes and returns. *)
Definition sample_finished : Cache MemStore :=
  default sample_joined
    (drive [(0%nat, sample_entry); (0%nat, sample_entry); (0%nat, sample_entry); (0%nat, sample_entry); (0%nat, sample_entry); (0%nat, sample_entry); (1%nat, sample_entry)] sample_joined).

Lemma sample_joined_reachable : reachable_flights [110] sample_joined.
Proof.
  exists []. eapply (rtc_l _ _ _ _ (step_start [110] 1 sample_request None (initial []))).
  eapply (rtc_l _ _ _ _ (step_start [110] 2 sample_request None _)).
  apply (drive_rtc [110] [(0%nat, sample_entry); (1%nat, sample_entry); (0%nat, sample_entry); (1%nat, sample_entry); (1%nat, sample_entry)]).
  vm_compute. reflexivity.
Qed.

Lemma sample_run : rtc (step [110]) sample_joined sample_finished.
Proof.
  apply (drive_rtc [110] [(0%nat, sample_entry); (0%nat, sample_entry); (0%nat, sample_entry); (0%nat, sample_entry); (0%nat, sample_entry); (0%nat, sample_entry); (1%nat, sample_entry)]).
  vm_compute. reflexivity.
Qed.

Definition sample_call (σ : Cache MemStore) (c : nat) : Call :=
  default (get_or_compute_start [] 0 sample_request None) (ca_calls σ !! c).

(** Witness of C8: the leader of the joined calls. *)
Lemma one_leader_per_key_witness : reachable_flights [110] sample_joined ∧ 0%nat = 0%nat.
Proof.
  split; [exact sample_joined_reachable|].
  apply (one_leader_per_key [110] sample_joined 0 0 (sample_call sample_joined 0) (sample_call sample_joined 0) 0 0 None None).
  - exact sample_joined_reachable.
  - vm_compute. reflexivity.
  - vm_compute. reflexivity.
  - vm_compute. reflexivity.
  - vm_compute. reflexivity.
  - reflexivity.
Defined.

(** Witness of C10: the run in which the second call follows the first. *)
Lemma followers_share_result_witness :
  Returned sample_entry = Returned (follower_result (shared (Returned sample_entry))) ∧ Returned sample_entry = Returned sample_entry.
Proof.
  apply (followers_share_result [110] sample_joined sample_finished 0 1 0 (sample_call sample_joined 0) (sample_call sample_joined 1)
    (sample_call sample_finished 0) (sample_call sample_finished 1) None true (Returned sample_entry) (Returned sample_entry)).
  - exact sample_joined_reachable.
  - exact sample_run.
  - vm_compute. reflexivity.
  - vm_compute. reflexivity.
  - vm_compute. reflexivity.
  - vm_compute. reflexivity.
  - vm_compute. reflexivity.
  - vm_compute. reflexivity.
  - vm_compute. reflexivity.
  - vm_compute. reflexivity.
Defined.

End Sample.
