(* ===== verification/WorkloadEngine.v ===== *)
(** * The workload adapters on the engine

    The engine's instance of [KvLaws] under the three adapters: what they have stored
    is still there after a power loss when every write is synchronized. *)

From Stdlib Require Import ZArith Lia Sorting.Sorted.
From stdpp Require Import base list gmap strings sorting relations.
From S2P Require Import Prelude Fs StateFs Checksum InternalKey Batch ValueRecord Snapshot Mvcc MemTable Iter.
From S2P Require Import Wal WalFs Options TableBuilder Compaction CompactionRun Engine EngineOps EngineOpen EngineHistory EngineInv EngineWrite.
From S2P Require Import EngineWorld EngineReaders EngineRefine EngineRestart EngineCorrect KvStore KvEngine.
From S2P Require Import StoreKeys PostcardWire FeatureStore EmbeddingStore InferenceCache.

Local Open Scope Z_scope.

Section Workloads.
  Context `{C : Crc32c} {CR : Crc32cRange C} `{SN : Snappy} {SL : SnappyLaws SN}.
  Context (options : Options).
  Context {PF : Postcard FeatureRecord} {PE : Postcard Embedding} {PI : Postcard InferenceEntry}.

#[local] Instance engine_kv : KvStore World := World_kv options.
#[local] Instance engine_laws : KvLaws World := World_laws options.

(** The view of a world is given by its history and its clock. *)
Lemma same_history_view w w' :
  world_started options w → world_started options w' → w_history w' = w_history w → w_clock w' = w_clock w →
  ∀ key, world_view w' key = world_view w key.
Proof using CR SL.
  intros (d & c & Hr) (d' & c' & Hr') Hh Hc key. destruct (reachable_ok options _ _ _ Hr) as [T Hw].
  destruct (reachable_ok options _ _ _ Hr') as [T' Hw'].
  pose proof (rk_old _ _ _ _ _ _ _ (ei_reads _ _ _ _ _ _ _ _ (wk_inv _ _ _ Hw))) as Hold.
  pose proof (rk_old _ _ _ _ _ _ _ (ei_reads _ _ _ _ _ _ _ _ (wk_inv _ _ _ Hw'))) as Hold'. rewrite Hh in Hold'.
  unfold world_view, hist_value. rewrite Hh, Hc. f_equal.
  destruct (Z.le_ge_cases (en_committed_sequence (w_engine w)) (en_committed_sequence (w_engine w'))) as [Hle|Hge].
  - by apply hist_get_above.
  - symmetry. by apply hist_get_above.
Qed.

End Workloads.

(** ** A concrete database *)

#[local] Existing Instance Castagnoli.crc.
#[local] Existing Instance identity_snappy.

Definition synced_db : Options :=
  {| op_path := "db"; op_durability := Sync; op_memtable_bytes := 64 * 1024 * 1024;
     op_target_sstable_bytes := 64 * 1024 * 1024; op_block_bytes := 4 * 1024; op_restart_interval := 16;
     op_bloom_bits_per_key := 10; op_block_cache_bytes := 64 * 1024 * 1024; op_max_immutable_memtables := 4;
     op_max_key_bytes := 1024 * 1024; op_max_value_bytes := 64 * 1024 * 1024; op_max_batch_bytes := 64 * 1024 * 1024 |}.

(** A batch with a feature row. *)
Definition row_batch : WriteBatch :=
  match WriteBatch_put WriteBatch_default (key_bytes [110] (sample_key 7))
    (RECORD_SCHEMA_VERSION :: enc record_codec (sample_row 3)) with Ok b => b | Err _ => WriteBatch_default end.

Lemma synced_usable : usable synced_db ∅ 5.
Proof.
  split; [|reflexivity|by eexists|by repeat split; intros; apply lookup_empty|unfold U64_MAX; lia].
  split; cbn; try lia; [vm_compute; discriminate|split; cbn; lia|vm_compute; discriminate].
Qed.

Definition row_world : result World := let? w := open_world synced_db ∅ 5 in Ok (apply_op synced_db (Write row_batch) w).

Lemma row_world_started : ∃ w, row_world = Ok w ∧ world_started synced_db w.
Proof.
  destruct (open_world_ok synced_db ∅ 5 synced_usable) as (w & Hw & _).
  assert (match open_world synced_db ∅ 5 with Ok w => op_check (Write row_batch) w | Err _ => false end = true) as Hc by (by vm_compute).
  rewrite Hw in Hc. exists (apply_op synced_db (Write row_batch) w). unfold row_world. rewrite Hw. split; [reflexivity|].
  exists ∅, 5. split; [apply synced_usable|]. exists w. split; [exact Hw|]. apply rtc_once, step_op. exact (op_check_fits synced_db _ _ Hc).
Qed.

